(* ===== verification/_CoqProject ===== *)
-Q . S2P
Prelude.v
Json.v
World.v
Consensus.v
SqlConsensus.v
ConsensusProps.v
Redaction.v
Journal.v
JournalAppend.v
RunStore.v
RunLaws.v
RunOps.v
RunProps.v
RunAnswers.v
RunTheorems.v
AttemptStore.v
AttemptProps.v
Fold.v
FoldProps.v
Coherence.v
FoldSnapshot.v
Compaction.v
Upkeep.v
UpkeepTheorems.v
JournalRead.v
AttemptTheorems.v
Capability.v
Texts.v
Glob.v
CapabilityProps.v
Paths.v
CapabilitySet.v
Permission.v
GrantStore.v
GrantPatterns.v
GrantSystem.v
GrantProps.v
GrantTheorems.v
GrantEnvelopes.v
JournalGrants.v
JournalSound.v
JournalGrantProps.v
JournalGrantSteps.v
JournalGrantTheorems.v
Notifications.v
NotificationProps.v
NotificationSteps.v
NotificationTheorems.v
NotificationDemo.v
Sha256.v
Sha256Props.v
FileSet.v
FileSetProps.v
Canonical.v
CanonicalProps.v
StepKey.v
StepKeyProps.v
Plan.v
PlanOrder.v
PlanAnnotate.v
PlanProps.v
PlanTheorems.v
PlanDemo.v
PlanDiff.v
JsonTexts.v
StepCache.v
StepCacheProps.v
StepCacheOps.v
StepCacheTheorems.v
StepCacheDemo.v
CombinedCache.v
TriggerStore.v
TriggerTheorems.v
TriggerDemo.v
Occurrences.v
Scheduler.v
SchedulerProps.v
SchedulerSteps.v
SchedulerTheorems.v
SchedulerDemo.v
