(* ===== verification/Prelude.v ===== *)
(** * The durable core of flows, its plan compiler and its capability kernel

    The program executes long-running flows so that a crash loses nothing: every
    run is a row of an SQLite database owned by one process at a time, every
    change of a run is an event of an append-only journal, and both are written
    in one transaction.  What a run may do to its host is decided by a capability
    kernel, whose grants survive a crash the same way; what reaches a running agent
    goes through a queue in the same journal.  What a run does is a plan: a graph of
    steps compiled from drafts, each identified by a hash of what it computes from.
    A scheduler drives the plan, what a step computed is kept in a cache under its hash,
    and schedules start flows through a store of claims.  This library models the packages [journal],
    [run-store], [notifications], [step-cache] and the write boundary of [database]
    under [src/packages/], the store and the schedules of [triggers], the deciding
    part of the packages [capability] and [kernel], the compiler of the package
    [plan] with what it uses of [canonical], [keys] and [crypto], and the plan
    scheduler of [engine-store], and proves what makes them correct.

    ** The parts and how they interact

    - [DurableWriter.write] (database) runs a body in one transaction.
    - A consensus strategy ([Consensus.ts], [SqlConsensus.ts]) arbitrates who owns a
      run: a lease per run, granted in two phases (claim, activate), renewed by
      heartbeats, taken from a silent owner only on evidence.
    - The journal ([SqlJournal.ts]) appends events: it allocates sequence numbers,
      deduplicates by the producer's key, redacts payloads ([Redaction.ts]), asks
      the strategy to guard a fenced append, and publishes what committed.
      [transact] opens one transaction over appends and row writes.
    - The run store ([RunStore.ts]) and the attempt store ([AttemptStore.ts]) write
      the rows of [flows_runs] and [flows_attempts] and their events inside
      [transact]; the run store calls the strategy for every change of owner.
    - The fold ([Fold.ts]) replays the events of a run into its rows, and writes
      snapshots of the rows as events; compaction ([SqlJournal.ts]) deletes the
      events a snapshot and a checkpoint cover.
    - The notification queue ([notifications]) admits messages for a run and
      delivers them at turn boundaries; its only state is the run's journal, folded
      in the transaction that appends the decision.
    - The plan compiler ([Plan.ts]) orders drafts by the nodes their material names,
      computes each node's key ([StepKey.ts]) as a hash of the canonical text
      ([canonicalize.ts]) of its material, with the keys of the nodes it depends on
      in it, and annotates the graph: overlapping writes ([FileSet.ts]) are
      serialized, given over to a recorded resolution or refused, and readers are
      linked behind writers.  [append] grows a plan by a generation; [PlanDiff.ts]
      compares two plans.
    - The plan scheduler ([PlanScheduler.ts]) drives a plan to a settled state: it
      admits ready nodes under a cap on steps and one on agents, a fiber per node
      measures its declared reads, keys the dispatch ([dispatchIdentity]) and runs it,
      and one coordinator settles the reports, judges deviations and conflicts
      ([Reconciliation.ts]), appends merge nodes and skips what failed work blocks.
    - The step cache ([CacheStore.ts]) keeps the result of a step under its key: a head
      per key, which an eviction may remove, and a ledger of everything that was
      recorded, which nothing removes.  Every write appends its event to the journal in
      the same transaction, and [Fold.ts] rebuilds both tables from the events.
      [CombinedCacheStore.ts] and [RemoteCacheStore.ts] put a shared tier behind it.
    - The trigger store ([SqlTriggerStore.ts]) holds scheduled flows and the claims of
      their occurrences, by which schedulers of several processes agree who starts
      what; [Cron.ts], [CatchUp.ts] and [dueOccurrences] of [Scheduler.ts] say which
      occurrences are owed.
    - A capability ([Capability.ts]) is an action on a resource; patterns select
      capabilities, rules ([Permission.ts]) allow or deny patterns, a capability set
      ([CapabilitySet.ts]) bounds what a fiber may ask for, and the grant store
      ([GrantStore.ts]) decides, parks the fibers that must ask and records the
      replies of the attended surface as events.  [JournalGrantStore.ts] records
      them in the journal and replays them into a store after a restart.

    ** Files

    - [Prelude]: safe integers, SQL comparisons on nullable columns, the error and
      state monad [ME] with its inversion and stepping tactics, generic lemmas.
    - [Json]: JSON values, and JSON text as the class [JsonText]: the codec is the
      Effect library's, and what the stores rely on (decoding what was encoded
      gives the value back) is its law; [plain_json] is an instance.
    - [World]: the tables [Db] with the CHECK constraints of the migrations
      ([check_run], [check_attempt], [check_lease], [check_event]), the memory
      [Proc] of one journal process, the leases of the in-memory strategy, the
      clock, errors, and [write] ([DurableWriter.ts]).
    - [Consensus]: the service as the class [Consensus], its contract as the class
      [ConsensusLaws] over an abstract lease ([Spec]), the in-memory strategy
      [Local] and its instance.  [SqlConsensus]: the SQL strategy [Sql], every
      statement of every operation, and its instance.  [ConsensusProps]: what
      follows for sequences of operations of any lawful strategy.
    - [Redaction]: the redactor.  [Journal]: identities, preparation, allocation,
      [emitDurable], [transact], reads, [checkpoint] and [compact].
      [JournalAppend]: what an append does.
    - [RunStore]: the operations of the run store.  [RunLaws], [RunOps]: the form
      of an effect ([moved]) and the effect of each operation by outcome
      ([row_effect]).  [RunProps]: the invariant [store_ok] over calls
      ([store_op], [perform_op]).  [RunAnswers]: operations run forward, and the
      clock.  [RunTheorems]: the theorems over executions.
    - [AttemptStore], [AttemptProps], [AttemptTheorems]: the same for attempts.
    - [Fold]: the reducer, the projections and [snapshot].  [FoldProps]: one run's
      replay.  [Coherence]: both stores over one journal, and replay of all of a
      run.  [FoldSnapshot]: snapshots.  [Compaction]: what [compact] keeps,
      and the owners a fold reads.  [Upkeep]: calls,
      snapshots, checkpoints and compactions in one sequence, and the invariant
      [maintained] they keep.  [UpkeepTheorems]: replay under upkeep.
      [JournalRead]: pages and the paging of readers.
    - [JournalSound]: worlds whose runs can be read from their first event.
      [Notifications]: the queue, its events and the two operations of the service.
      [NotificationProps]: histories a queue writes and their accounting ([ledger]).
      [NotificationSteps]: the operations as steps of a history.
      [NotificationTheorems]: the theorems over sequences of operations.
      [NotificationDemo]: a codec, a run, and the witnesses.
    - [Sha256], [Sha256Props]: the 32-bit operators of the language,
      [internal/sha256.ts], the standard's definition ([Fips]) and their equality.
    - [FileSet], [FileSetProps]: declared files, the glob compiler, [overlaps].
      [Canonical], [CanonicalProps]: canonical JSON and its unique readability.
      [StepKey], [StepKeyProps]: material, keys, and what a key identifies.
    - [Plan]: [compile], [append] and all they call.  [PlanOrder]: the topological
      walk and the reachability search.  [PlanAnnotate]: the annotation
      passes.  [PlanProps]: the invariant [nodes_ok] of plans that were built
      ([built]).  [PlanTheorems]: the theorems.  [PlanDemo]: a plan, its witnesses and
      two behaviours of the passes.  [PlanDiff]: the comparison.
    - [Scheduler]: the default reconciler, the state of a run ([Sched]), the fibers
      ([fiber_step]), the coordinator ([turn]), whole runs ([run], a start and a sequence
      of steps of the fibers and turns) and the debt of deferred work.  The services of
      the host are the class [Host]; what an attempt comes to is an input ([Ran]).
      [SchedulerProps]: what each operation changes ([same_core], [cascade]), the
      invariant [sched_ok] and what is written to the journal ([bounded]).
      [SchedulerSteps]: every step keeps the invariant ([reached]).
      [SchedulerTheorems]: a fiber's way to its report ([under_way]), the merges of a
      run ([merging]: what was stopped bars what depends on it) and the theorems on runs.
      [SchedulerDemo]: runs of small plans.
    - [JsonTexts]: an executable JSON codec, the instance [text_json] of [JsonText] and of
      [CanonicalJson].  [StepCache]: events, operations and the fold of the step cache.
      [StepCacheProps], [StepCacheOps]: the fold over events and what each operation
      appends.  [StepCacheTheorems], [StepCacheDemo]: the theorems and their witnesses.
      [CombinedCache]: the tiers.
    - [TriggerStore]: declarations, tables and operations.  [TriggerTheorems]: each
      operation in one equation, and sequences of operations ([trigger_op],
      [perform_triggers]).  [TriggerDemo]: witnesses and runs.  [Occurrences]: schedules,
      catching up and the polls of a process; the cron engine is the record [CronValue]
      with the laws [CronLaws].
    - [Capability]: the definitions of [Capability.ts].  [Texts]: the string
      operations on lists of units.  [Glob]: the language of a glob and the matcher.
      [CapabilityProps]: parsing and subsumption.  [Paths]: lexical paths.
      [CapabilitySet]: comparators, normal forms and authority.
    - [Permission]: rules and [evaluate].  [GrantStore]: every operation of the
      store as a run of the monad on [Store].  [GrantPatterns]: what a valid pattern
      covers.  [GrantSystem]: the fibers over a store, one step at a time
      ([perform]), and the invariant [sys_ok].  [GrantProps]: every step keeps it.
      [GrantTheorems], [GrantEnvelopes]: the theorems.
    - [JournalGrants]: replay, [persist] and construction of the journal-backed
      store; the schema codec of events is the class [GrantCodec], the journal's
      world the store's [Backend].  
      [JournalGrantProps]: what a replay reads and what [persist] does to the replays.  [JournalGrantSteps]:
      every step keeps store and journal in step ([in_step]).
      [JournalGrantTheorems]: the theorems, over concrete stores too.

    ** What the theorems show

    - Ownership: the SQL strategy meets the contract
      ([sql_strategy_refines_contract]) and cannot be told from the in-memory one
      ([strategies_agree]); a lease ([takeover_needs_stale_owner]) and a run
      ([run_takeover_needs_stale_owner]) change hands only by their owner or on
      evidence against a stale one; a claim is exclusive ([claim_is_exclusive]).
    - Fencing: a process that lost the lease cannot append
      ([zombie_append_fenced]), move the run ([zombie_transition_fenced]) or write
      its attempts ([attempt_write_is_fenced]).
    - The write-ahead contract: after any interleaving of calls the journal replays
      to the rows ([journal_rebuilds_tables]), whatever was compacted meanwhile; a
      snapshot alone replays to them ([snapshot_seeds_fold]); compaction loses
      nothing a replay reads ([compaction_is_lossless]) and the policy compacts when
      it should ([auto_compaction_compacts]); paging returns the whole history
      ([readers_get_whole_history]).
    - Invariants and atomicity: [store_invariant], [terminal_is_absorbing],
      [cancel_request_sticks], [finished_attempt_is_final], [transact_atomic],
      [failed_call_is_atomic].
    - The journal's answers: [append_accepted], [append_extends_run],
      [reemit_is_duplicate], [reused_key_conflicts]; the stores' answers:
      [create_then_get], [create_twice_is_constraint], [get_decodes],
      [put_then_get], [put_again_compares].
    - Authority: nothing is granted outside a ceiling, against a veto or without a
      recorded event or a configured rule ([granted_has_authority]); a grant covers
      one action and one tier ([valid_grant_keeps_tier]); subsumption is sound
      ([subsumes_sound]); nesting only narrows ([authority_only_narrows]); decisions
      fail closed ([unrecorded_changes_nothing]).
    - Authority across restarts: a store rebuilt from its journal decides as the one
      that wrote it ([restart_keeps_authority]); racing constructions record their
      envelope once ([envelope_appended_once]); replay reads the whole history and
      ends ([replay_reads_history]).
    - Waiters: a reply answers its request ([reply_answers]) and no waiter is lost
      ([no_waiter_is_lost]).
    - Notifications: every admitted message is accounted for once
      ([notifications_accounted]); the first drain of a boundary delivers what is due
      ([drain_delivers]) and a second one repeats its answer ([drain_again]); an
      admission is recorded and idempotent ([admission_recorded], [admit_again]);
      another lineage conflicts ([other_lineage_conflicts]); a compacted history
      refuses ([compacted_run_refuses]).
    - Plans: the walk orders every graph that has an order and terminates
      ([topological_decides]), reachability too ([reaches_terminates]); a plan is
      acyclic with distinct ids ([plan_acyclic]), overlapping writers are ordered or
      resolved ([writers_resolved]) and readers are ordered with writers
      ([readers_ordered]); a plan only grows ([append_keeps]); its keys are those of
      its materials ([plan_keys]) and a changed key changes every key downstream
      ([edits_rekey_downstream]); a refusal has its reason ([refusals_explained]); a
      comparison partitions the nodes ([diff_partitions]).
    - Identity: a key identifies what a step computes from ([key_identifies],
      [key_type]), canonical texts identify values ([canonical_identifies]), the
      hash is SHA-256 ([sha256_is_fips]); globs decide segment by segment
      ([glob_matches_segments]) and the overlap test is sound ([overlaps_sound]).
    - Runs of a plan: the caps hold and no node is in flight twice ([run_caps]); a node
      is dispatched when its dependencies have left their results ([launch_ready]); a
      run does not stall, and a fiber that is given its turns comes to a report
      ([run_progress]); it ends, with two merges for a node of its plan at most and three
      processed reports ([run_terminates]); nothing settled is undone ([settled_stays]); attempts are counted and bounded by the rebases
      ([attempts_bounded]); only a cap on agents that is reached lets a later contender
      pass ([admission_order]); debt is what was deferred last and not settled since
      ([debt_spec]); dispatch keys cut off at unchanged values ([dispatch_cutoff]).
    - Step cache: the tables are a fold of the journal ([cache_is_fold]); what was recorded
      stays readable under its provenance ([recorded_is_permanent]); a put answers by value
      ([put_decides]); a fenced eviction spares a newer row ([evict_names_generation]);
      only agreed results are published, evictions stay local and an answer of the tiers
      was recorded ([only_agreed_puts_are_published], [evictions_stay_local],
      [answers_are_durable], [remote_answers]).
    - Triggers: a held trigger starts nothing else ([held_trigger_starts_nothing]); an
      occurrence is answered once ([settled_never_claimed_again]); the buffered occurrence
      is the one the pure policy keeps ([pending_follows_policy]); registration round
      trips ([register_then_get]); catching up is exact ([catch_up_all]) and polls owe
      every occurrence once ([polls_cover]).
    - Reference definitions: the matcher is the glob ([matchGlob_is_glob]) in a
      bounded number of turns ([matchGlob_terminates]); the workspace test is
      containment of directories ([inside_is_containment]); capability sets are a
      semilattice with decidable equality ([intersect_semilattice]); a signature is
      the identity of an envelope ([signature_identifies], [envelope_granted_once]);
      [parse_format].
    - Behaviours the authors may not intend: [stranded_is_permanent],
      [dropped_claim_survives_replay], [run_reply_can_leave_its_waiter],
      [grant_covers_traversal], [run_grant_outlives_ceiling],
      [wildcard_root_locks_out], [redacted_admission_conflicts],
      [coalescing_crosses_lineages], [serialized_path_forgotten],
      [forward_edge_forgotten], [placement_unreported], [backslash_path_overlaps],
      [tied_rebuild_replaces_head], [late_launch_takes_over], [taken_occurrence_is_lost],
      [completion_moves_last_fired_back], [overdue_occurrences_are_dropped],
      [catching_up_on_one_finds_two], [conflicting_merge_fails_nothing],
      [merge_of_serialized_is_skipped], [refused_merge_ends_run],
      [self_steal_loses_lease], [self_steal_diverges], [redacted_grant_is_lost],
      [redacted_ids_lose_notification] and [reused_provenance_replaced].

    ** What the theorems assume of their callers

    The theorems on sequences of calls say in their comments what they assume of the
    calls; where the code admits more, a counterexample shows that the assumption is
    needed.

    - The run store ([sane], [op_sane], [upkeep_sane]): nobody steals a run from itself,
      which [RunStore.steal] admits ([self_steal_loses_lease], [self_steal_diverges]);
      stamps are non-negative.  The theorems on replay start from empty tables and ask in
      addition that the redactor leaves the recorded owners as they are, and that no
      [activate] finds its snapshot moved ([lawful], [dropped_claim_survives_replay]).
    - The grant store over the journal ([dedicated]): the workspace root holds no
      wildcard ([wildcard_root_locks_out]) and the redactor leaves the recorded grants as
      they are.  The default redactor does, except where a granted resource or command
      holds a text its rules take for a secret ([redacted_grant_is_lost]), since the
      events of grants are not in a verbatim namespace of [Redaction.ts].
    - The notification queue ([faithful]): the redactor leaves the ids, the targets and
      the coalescing keys of the admitted messages alone; other texts it may rewrite.  Ids
      it takes for secrets can coincide ([redacted_ids_lose_notification]).
    - The step cache: its journals hold cache events only through its operations, and no
      compaction drops them ([elsewhere]); rebuilds are admitted at any time.  What a
      rebuild may replace is said in the theorems ([tied_rebuild_replaces_head],
      [reused_provenance_replaced]).
    - The scheduler: the plan was built by [compile] and [append]; nothing is assumed of
      the host, of the attempts or of the other writers of the journal.

    ** Representation

    Numbers are [Z] with the program's safe-integer checks written out (a number
    the program does not check is stored and compared as SQLite does, as an
    integer).  Text is a byte string; in the capability kernel and the plan compiler
    its units are code units below 256 (where Unicode normal form C is the identity),
    and in canonical JSON texts are lists of UTF-16 code units.  The operators [>>>],
    [&], [^] and the rest of the hash convert to 32-bit words as the language does.  A nullable column is an [option]; SQL's
    three-valued comparison is written as the [col_*] tests, false on NULL.  An
    operation is a function of the world to an answer or an error and the world it
    leaves.  The operations are sequential: the stores run every write inside one
    serialised transaction, so an interleaving of processes is a sequence of
    calls, with [OTick] for the time between them; a failing call is one of them.
    The critical sections of the grant store hold its one permit, so each is a step
    too, and the steps of the waiting fibers run between any two of them.  The platform's SHA-256 is the operation of the class [Crypto], which may fail.
    Some loops take fuel, and theorems bound it: a reader's paging ([readAvailable], one more
    than the events there are to read), the replay of grants ([replay_pages], one
    more than the events of the journal, which the replays supply themselves) and
    the glob matcher ([matchGlob], [2 * (|pattern| + 1) * (|resource| + 1)] turns),
    the queue's pages ([load_pages], one more than the events of the run), the walk
    over drafts (a level per draft), the parser of JSON text ([read], the length of the
    text), the occurrences of an interval (its length in milliseconds) and the reachability search ([reaches_fuel], one
    turn per edge and two more), the passes of the scheduler ([passive_fuel], one more than
    the nodes of the plan) and the pages its coordinator reads ([drain_fuel], a weight of
    the unread records, the deviations that wait and the steps the fibers take meanwhile:
    [run_terminates] shows that both suffice).  The fibers of a run step between the turns
    of the coordinator, and in a turn around the pages it reads, not between its other
    writes; the caps are integers (the options admit any number).  The walk over a cause chain is
    structural, since an error value holds no cycle.

    ** Not modelled

    The lossy channel of the journal (its queue, flusher and sinks, with the failure of
    a sink that a reader is told about), the live stream, the counters the compaction policy samples, the heartbeat fiber of
    [Ownership.ts], [Fold.rebuild]'s rewriting of the tables, the busy retry of
    [DurableWriter], spans, metrics and error texts.  Several connections to one
    database are modelled as calls of one world, so a process's private caches are
    shared between the processes of a sequence: the durable channel reads its
    floors from the table again in each transaction.  Of the kernel, the decorators
    of the host services and the projection of its failures into the platform's
    error type.  Of the plan packages, the memo of dispatch
    digests, the properties a projection inherits, the plan store, the node language of [internal/node.ts] with its
    checker, the backfill migration and the metrics of the step cache, the supervisor and
    the launch fibers of the scheduler, webhooks and channels, what is behind a dispatch of the plan scheduler (executors,
    [ActionPersistence], [StepBoundary], the enumeration of files), its source ids,
    [recertify] and the belief layer of selection, which scores with fractions, and, of canonical JSON, [toJSON] methods, cyclic objects and fractions.

    ** What would follow

    [Fold.rebuild]; the lossy channel as a step relation; the heartbeat loop; the action
    persistence behind a dispatch, which composes the scheduler with the attempt store and
    the step cache; and the next layers: the rest of [engine-store], [time-travel]. *)

From stdpp Require Export base gmap strings list sorting pretty.
From Stdlib Require Export Ascii ZArith Lia.

#[export] Set Default Goal Selector "!".

(** ** Safe integers

    The program's numbers are JavaScript numbers used as integers; the code
    checks them with [Number.isSafeInteger], so the model carries a [Z] and
    writes the range check out where the source has it. *)

Definition max_safe_integer : Z := 9007199254740991.

Definition is_safe_integer (n : Z) : bool :=
  bool_decide (- max_safe_integer ≤ n ≤ max_safe_integer)%Z.

(** A stamp column of the tables: a non-negative safe integer. *)
Definition stamp_ok (n : Z) : bool := bool_decide (0 ≤ n ≤ max_safe_integer)%Z.

Lemma stamp_ok_spec n : stamp_ok n = true ↔ (0 ≤ n ≤ max_safe_integer)%Z.
Proof. unfold stamp_ok. by rewrite bool_decide_eq_true. Qed.

(** ** Nullable columns

    A nullable SQL column is an [option]; [NULL] never satisfies a comparison,
    [COALESCE] keeps the first non-null argument and the two-argument [MAX] of
    SQLite is [NULL] when either argument is. *)

Definition col_is `{EqDecision A} (c : option A) (v : A) : bool := bool_decide (c = Some v).
Definition col_lt (c : option Z) (v : Z) : bool :=
  match c with Some x => bool_decide (x < v)%Z | None => false end.
Definition is_null {A} (c : option A) : bool := match c with Some _ => false | None => true end.
Definition coalesce {A} (c d : option A) : option A := match c with Some _ => c | None => d end.
Definition col_max (c : option Z) (v : Z) : option Z := (λ x, Z.max x v) <$> c.
Definition col_check {A} (p : A → bool) (c : option A) : bool :=
  match c with Some x => p x | None => true end.

Definition nonempty (s : string) : bool := negb (bool_decide (s = "")).

(** [String.prototype.startsWith]. *)
Definition starts_with (prefix s : string) : bool := String.prefix prefix s.

(** The greatest element of a list of integers, as SQL's [MAX] aggregate: [NULL]
    on no rows. *)
Definition max_agg (l : list Z) : option Z :=
  foldr (λ x acc, Some (match acc with Some y => Z.max x y | None => x end)) None l.

(** ** The error-and-state monad of the stores

    A store operation is a function of the world that either fails with a typed
    error or returns a value, and leaves a world in both cases. *)

Definition ME (S E A : Type) : Type := S → (E + A) * S.

Declare Scope me_scope.
Delimit Scope me_scope with me.

Section monad.
Context {S E : Type}.

Definition ret {A} (a : A) : ME S E A := λ w, (inr a, w).
Definition fail {A} (e : E) : ME S E A := λ w, (inl e, w).
Definition bind {A B} (m : ME S E A) (k : A → ME S E B) : ME S E B :=
  λ w, match m w with
       | (inr a, w') => k a w'
       | (inl e, w') => (inl e, w')
       end.
Definition gets {A} (f : S → A) : ME S E A := λ w, (inr (f w), w).
Definition modify (f : S → S) : ME S E () := λ w, (inr tt, f w).
(** [Effect.catch]: the handler sees the error and the state it left. *)
Definition catch {A} (m : ME S E A) (h : E → ME S E A) : ME S E A :=
  λ w, match m w with
       | (inl e, w') => h e w'
       | r => r
       end.
(** [Effect.mapError]. *)
Definition map_error {A} (f : E → E) (m : ME S E A) : ME S E A :=
  λ w, match m w with
       | (inl e, w') => (inl (f e), w')
       | r => r
       end.
(** [Effect.fromResult]. *)
Definition from_result {A} (r : E + A) : ME S E A := λ w, (r, w).
End monad.

Notation "x <- m ;; k" := (bind m (λ x, k))
  (at level 100, m at next level, right associativity) : me_scope.
Notation "m ;; k" := (bind m (λ _, k))
  (at level 100, right associativity) : me_scope.

(** [Effect.forEach]. *)
Fixpoint for_each {S E A B} (f : A → ME S E B) (l : list A) : ME S E (list B) :=
  match l with
  | [] => ret []
  | a :: l => (b <- f a ;; bs <- for_each f l ;; ret (b :: bs))%me
  end.

(** ** Reasoning about runs of an operation

    [wp m Q w] says that running [m] in world [w] ends with a result and a world
    satisfying [Q]; operations are total functions, so this is total
    correctness.  [preserves I m] is the special case of an invariant kept on
    the success and on the error path alike. *)

Section wp.
Context {S E : Type}.

Definition wp {A} (m : ME S E A) (Q : E + A → S → Prop) (w : S) : Prop :=
  Q (fst (m w)) (snd (m w)).

Definition preserves {A} (I : S → Prop) (m : ME S E A) : Prop :=
  ∀ w, I w → I (snd (m w)).

Lemma wp_mono {A} (m : ME S E A) (Q Q' : E + A → S → Prop) w :
  wp m Q w → (∀ r w', Q r w' → Q' r w') → wp m Q' w.
Proof. unfold wp. eauto. Qed.

Lemma wp_bind {A B} (m : ME S E A) (k : A → ME S E B) Q w :
  wp m (λ r w', match r with inr a => wp (k a) Q w' | inl e => Q (inl e) w' end) w →
  wp (bind m k) Q w.
Proof. unfold wp, bind. destruct (m w) as [[e|a] w']; auto. Qed.

Lemma wp_use {A} (m : ME S E A) (Q : E + A → S → Prop) w r w' :
  wp m Q w → m w = (r, w') → Q r w'.
Proof. unfold wp. intros H Hm. by rewrite Hm in H. Qed.

Lemma preserves_ret {A} I (a : A) : preserves I (@ret S E A a).
Proof. by intros w. Qed.
Lemma preserves_fail {A} I (e : E) : preserves I (@fail S E A e).
Proof. by intros w. Qed.
Lemma preserves_gets {A} I (f : S → A) : preserves I (@gets S E A f).
Proof. by intros w. Qed.
Lemma preserves_from_result {A} I (r : E + A) : preserves I (@from_result S E A r).
Proof. by intros w. Qed.
Lemma preserves_modify I (f : S → S) :
  (∀ w, I w → I (f w)) → preserves I (@modify S E f).
Proof. intros H w. apply H. Qed.
Lemma preserves_bind {A B} I (m : ME S E A) (k : A → ME S E B) :
  preserves I m → (∀ a, preserves I (k a)) → preserves I (bind m k).
Proof.
  intros Hm Hk w Hw. unfold bind. specialize (Hm w Hw).
  destruct (m w) as [[e|a] w']; [done|]. by apply Hk.
Qed.
Lemma preserves_map_error {A} I f (m : ME S E A) :
  preserves I m → preserves I (map_error f m).
Proof.
  intros Hm w Hw. unfold map_error. specialize (Hm w Hw).
  by destruct (m w) as [[e|a] w'].
Qed.
Lemma preserves_catch {A} I (m : ME S E A) h :
  preserves I m → (∀ e, preserves I (h e)) → preserves I (catch m h).
Proof.
  intros Hm Hh w Hw. unfold catch. specialize (Hm w Hw).
  destruct (m w) as [[e|a] w']; [by apply Hh|done].
Qed.
Lemma preserves_if {A} I (b : bool) (m1 m2 : ME S E A) :
  preserves I m1 → preserves I m2 → preserves I (if b then m1 else m2).
Proof. by destruct b. Qed.
Lemma preserves_for_each {A B} I (f : A → ME S E B) l :
  (∀ a, preserves I (f a)) → preserves I (for_each f l).
Proof.
  intros Hf. induction l as [|a l IH]; simpl.
  - apply preserves_ret.
  - apply preserves_bind; [apply Hf|intros b].
    apply preserves_bind; [apply IH|intros bs]. apply preserves_ret.
Qed.
End wp.

Create HintDb preserve.
#[export] Hint Resolve preserves_ret preserves_fail preserves_gets preserves_from_result
  preserves_bind preserves_map_error preserves_catch preserves_if
  preserves_for_each : preserve.

(** Discharges [preserves I m] for an operation built from the combinators,
    leaving the state updates. *)
Ltac solve_preserves :=
  repeat first
    [ done
    | progress intros
    | match goal with
      | |- preserves _ (match ?x with _ => _ end) => destruct x eqn:?
      | |- preserves _ (let _ := _ in _) => cbv zeta
      end
    | solve [auto with preserve]
    | progress (eauto 1 with preserve)
    | apply preserves_bind | apply preserves_map_error | apply preserves_catch
    | apply preserves_for_each ].

(** Runs the monadic combinators of a goal or hypothesis on a concrete world. *)
Ltac run := unfold bind, ret, fail, gets, modify, catch, map_error, from_result in *;
            simpl in *.

(** *** Inversion of a successful run *)

Section inversion.
Context {S E : Type}.

Lemma bind_inr {A B} (m : ME S E A) (k : A → ME S E B) w b w' :
  bind m k w = (inr b, w') → ∃ a w1, m w = (inr a, w1) ∧ k a w1 = (inr b, w').
Proof. unfold bind. destruct (m w) as [[e|a] w1]; [done|]. eauto. Qed.

Lemma bind_run {A B} (m : ME S E A) (k : A → ME S E B) w a w1 :
  m w = (inr a, w1) → bind m k w = k a w1.
Proof. unfold bind. by intros ->. Qed.

Lemma bind_run_fail {A B} (m : ME S E A) (k : A → ME S E B) w e w1 :
  m w = (inl e, w1) → bind m k w = (inl e, w1).
Proof. unfold bind. by intros ->. Qed.

Lemma ret_inr {A} (a : A) w b w' : @ret S E A a w = (inr b, w') → b = a ∧ w' = w.
Proof. unfold ret. by intros [= -> ->]. Qed.

Lemma gets_inr {A} (f : S → A) w b w' : @gets S E A f w = (inr b, w') → b = f w ∧ w' = w.
Proof. unfold gets. by intros [= -> ->]. Qed.

Lemma modify_inr (f : S → S) w b w' : @modify S E f w = (inr b, w') → b = tt ∧ w' = f w.
Proof. unfold modify. by intros [= <- <-]. Qed.

Lemma fail_inr {A} (e : E) w (b : A) w' : @fail S E A e w = (inr b, w') → False.
Proof. done. Qed.

Lemma map_error_inr {A} (f : E → E) (m : ME S E A) w b w' :
  map_error f m w = (inr b, w') → m w = (inr b, w').
Proof. unfold map_error. by destruct (m w) as [[e|a] w1]. Qed.

Lemma from_result_inr {A} (r : E + A) w b w' :
  @from_result S E A r w = (inr b, w') → r = inr b ∧ w' = w.
Proof. unfold from_result. by intros [= -> ->]. Qed.
End inversion.

(** A loop whose every step succeeds within a preorder succeeds within it. *)
Lemma for_each_ok {S E A B} (R : S → S → Prop) `{!Reflexive R, !Transitive R}
    (f : A → ME S E B) l w :
  (∀ a w, ∃ b w', f a w = (inr b, w') ∧ R w w') →
  ∃ bs w', for_each f l w = (inr bs, w') ∧ R w w'.
Proof.
  intros Hf. revert w. induction l as [|a l IH]; intros w; simpl; [by eexists _, _|].
  unfold bind. destruct (Hf a w) as (b & w1 & -> & H1). destruct (IH w1) as (bs & w2 & -> & H2).
  eexists _, _; split; [reflexivity|]. by etrans.
Qed.

(** Splits a hypothesis [m w = (inr b, w')] along the combinators and the
    branches of [m] that can succeed. *)
Ltac inv_ok H :=
  lazymatch type of H with
  | bind _ _ _ = (inr _, _) =>
      let a := fresh "a" in let w1 := fresh "w" in let H1 := fresh "H" in
      apply bind_inr in H as (a & w1 & H1 & H); inv_ok H1; inv_ok H
  | ret _ _ = (inr _, _) =>
      let E1 := fresh "E" in let E2 := fresh "E" in
      apply ret_inr in H as [E1 E2]; simplify_eq/=
  | gets _ _ = (inr _, _) =>
      let E1 := fresh "E" in let E2 := fresh "E" in
      apply gets_inr in H as [E1 E2]; simplify_eq/=
  | modify _ _ = (inr _, _) =>
      let E1 := fresh "E" in let E2 := fresh "E" in
      apply modify_inr in H as [E1 E2]; simplify_eq/=
  | from_result _ _ = (inr _, _) =>
      let E1 := fresh "E" in let E2 := fresh "E" in
      apply from_result_inr in H as [E1 E2]; simplify_eq/=
  | fail _ _ = (inr _, _) => by apply fail_inr in H
  | map_error _ _ _ = (inr _, _) => apply map_error_inr in H; inv_ok H
  | (match ?x with _ => _ end) _ = (inr _, _) =>
      let Hx := fresh "Hx" in destruct x eqn:Hx; inv_ok H
  | _ => first [progress cbv zeta in H; inv_ok H | idtac]
  end.

(** Runs the first step of a goal's operation by an equation for it. *)
Ltac step_by H := first [erewrite bind_run; [|exact H] | erewrite bind_run_fail; [|exact H]].
Ltac step := erewrite bind_run; [|reflexivity].

(** Case analysis on the innermost scrutinee of a match in the goal. *)
Ltac case_inner :=
  match goal with
  | |- context [match ?x with _ => _ end] =>
      lazymatch x with
      | context [match _ with _ => _ end] => fail
      | _ => destruct x eqn:?
      end
  end.

(** ** Generic lemmas *)

Lemma elem_of_filter_b {A} (p : A → bool) x l : x ∈ List.filter p l ↔ x ∈ l ∧ p x = true.
Proof. by rewrite !list_elem_of_In, filter_In. Qed.

Lemma existsb_false {A} (p : A → bool) l : existsb p l = false ↔ ∀ x, x ∈ l → p x = false.
Proof.
  rewrite <- not_true_iff_false, existsb_exists. split.
  - intros H x Hx. apply not_true_iff_false. intros Hp. apply H. exists x.
    by rewrite <- list_elem_of_In.
  - intros H (x & Hx & Hp). apply list_elem_of_In in Hx. by rewrite H in Hp.
Qed.

(** Elements of a list whose keys are distinct are told apart by their keys. *)
Lemma NoDup_key_inj {A B} (f : A → B) l x y :
  NoDup (f <$> l) → x ∈ l → y ∈ l → f x = f y → x = y.
Proof.
  induction l as [|z l IH]; [by intros _ ?%not_elem_of_nil|].
  rewrite fmap_cons, NoDup_cons. intros [Hz Hl] [->|Hx]%elem_of_cons [->|Hy]%elem_of_cons Hf.
  - done.
  - destruct Hz. apply list_elem_of_fmap. eauto.
  - destruct Hz. apply list_elem_of_fmap. eauto.
  - auto.
Qed.

Lemma max_agg_None l : max_agg l = None ↔ l = [].
Proof. destruct l; simpl; [done|split; done]. Qed.

Lemma max_agg_ge l x : x ∈ l → ∃ m, max_agg l = Some m ∧ (x ≤ m)%Z.
Proof.
  induction l as [|y l IH]; [by intros ?%not_elem_of_nil|].
  intros [->|Hx]%elem_of_cons; simpl.
  - eexists; split; [done|]. destruct (max_agg l); lia.
  - destruct (IH Hx) as (m & -> & Hm). eexists; split; [done|]. lia.
Qed.

Lemma max_agg_in l m : max_agg l = Some m → m ∈ l.
Proof.
  revert m. induction l as [|y l IH]; simpl; [done|]. intros m [= <-].
  destruct (max_agg l) as [k|]; [|by left].
  destruct (Z.max_spec y k) as [[_ ->]|[_ ->]]; [right; by apply IH|by left].
Qed.

Lemma max_agg_unique l m : m ∈ l → (∀ x, x ∈ l → (x ≤ m)%Z) → max_agg l = Some m.
Proof.
  intros Hm Hle. destruct (max_agg_ge l m Hm) as (k & Hk & ?).
  rewrite Hk. f_equal. apply max_agg_in, Hle in Hk. lia.
Qed.

(** *** Length-prefixed strings *)

(** No character of a decimal numeral is a colon. *)
Fixpoint no_colon (s : string) : bool :=
  match s with
  | EmptyString => true
  | String c s => negb (bool_decide (c = ":"%char)) && no_colon s
  end.

Lemma no_colon_digit x s : no_colon (String (pretty_N_char x) s) = no_colon s.
Proof. unfold pretty_N_char. simpl. by repeat case_match. Qed.

Lemma no_colon_pretty_go x s : no_colon (pretty_N_go x s) = no_colon s.
Proof.
  revert s. induction (N.lt_wf_0 x) as [x _ IH]; intros s.
  destruct (decide (x = 0)%N) as [->|]; [by rewrite pretty_N_go_0|].
  rewrite pretty_N_go_step by lia. rewrite IH by (apply N.div_lt; lia). apply no_colon_digit.
Qed.

Lemma no_colon_pretty (n : N) : no_colon (pretty n) = true.
Proof.
  unfold pretty, pretty_N. case_decide; [done|]. by rewrite no_colon_pretty_go.
Qed.

Lemma colon_split a b s t :
  no_colon a = true → no_colon b = true →
  a +:+ ":" +:+ s = b +:+ ":" +:+ t → a = b ∧ s = t.
Proof.
  revert b. induction a as [|c a IH]; intros b Ha Hb H; destruct b as [|d b]; simpl in *.
  - by injection H.
  - injection H as <- _. by apply andb_true_iff in Hb as [? _].
  - injection H as -> _. by apply andb_true_iff in Ha as [? _].
  - apply andb_true_iff in Ha as [_ Ha]. apply andb_true_iff in Hb as [_ Hb].
    injection H as -> H. destruct (IH b Ha Hb H). by subst.
Qed.

Lemma string_app_inj_length s t s' t' :
  String.length s = String.length s' → s +:+ t = s' +:+ t' → s = s' ∧ t = t'.
Proof.
  revert s'. induction s as [|c s IH]; intros [|d s'] Hl H; simpl in *; try done.
  injection H as -> H. injection Hl as Hl. destruct (IH s' Hl H). by subst.
Qed.

(** The decimal length prefix [`${s.length}:${s}`]. *)
Definition len_prefix (s : string) : string :=
  pretty (N.of_nat (String.length s)) +:+ ":" +:+ s.

Lemma string_app_assoc (a b c : string) : (a +:+ b) +:+ c = a +:+ b +:+ c.
Proof. induction a as [|x a IH]; [done|]. change (String x ((a +:+ b) +:+ c) = String x (a +:+ b +:+ c)). by f_equal. Qed.

(** A length-prefixed string is read back unambiguously from any text it starts. *)
Lemma len_prefix_inj s t s' t' :
  len_prefix s +:+ t = len_prefix s' +:+ t' → s = s' ∧ t = t'.
Proof.
  unfold len_prefix. rewrite !string_app_assoc. intros H.
  apply colon_split in H as [Hn H]; [|apply no_colon_pretty..].
  apply (inj pretty) in Hn. apply string_app_inj_length; [lia|done].
Qed.
