(* ===== verification/Json.v ===== *)
(** JSON values and JSON text.

    The journal stores [payload] and [meta] as JSON text.  The encoder and the
    decoder ([Schema.fromJsonString(Schema.Unknown)]) belong to the Effect
    library, so they are the operations of a class; what the stores rely on is
    that decoding an encoded value gives the value back.  [plain_json] is a
    concrete codec with that property. *)

From S2P Require Import Prelude.

#[warnings="-register-all"]
Inductive json : Type :=
| JNull
| JBool (b : bool)
| JNum (n : Z)
| JStr (s : string)
| JArr (l : list json)
| JObj (fields : list (string * json)).

(** The JSON codec of the host and SQLite's [json_valid]: both accept exactly
    the documents of RFC 8259, so validity is decodability. *)
Class JsonText := {
  stringify : json → string;
  parse : string → option json;
  parse_stringify v : parse (stringify v) = Some v
}.

Definition json_valid `{JsonText} (s : string) : bool :=
  match parse s with Some _ => true | None => false end.

Lemma json_valid_stringify `{JsonText} v : json_valid (stringify v) = true.
Proof. unfold json_valid. by rewrite parse_stringify. Qed.

(** [record[key]]: the member of that name, [undefined] when there is none. *)
Fixpoint assoc {A} (key : string) (fields : list (string * A)) : option A :=
  match fields with
  | [] => None
  | (k, v) :: rest => if bool_decide (k = key) then Some v else assoc key rest
  end.

(** [...(x === undefined ? {} : { key: x })]. *)
Definition spread (key : string) (x : option json) : list (string * json) :=
  match x with Some v => [(key, v)] | None => [] end.

(** A nullable column as a JSON member. *)
Definition jstr_or_null (c : option string) : json :=
  match c with Some s => JStr s | None => JNull end.
Definition jnum_or_null (c : option Z) : json :=
  match c with Some n => JNum n | None => JNull end.

(** ** A concrete codec

    Values are laid out as generic trees, whose countable encoding gives an
    injective text; it shows the class can be instantiated. *)

Fixpoint json_tree (v : json) : gen_tree (string + Z) :=
  match v with
  | JNull => GenNode 0 []
  | JBool false => GenNode 1 []
  | JBool true => GenNode 2 []
  | JNum n => GenLeaf (inr n)
  | JStr s => GenLeaf (inl s)
  | JArr l => GenNode 3 (List.map json_tree l)
  | JObj fs => GenNode 4 (List.map (λ kv, GenNode 5 [GenLeaf (inl kv.1); json_tree kv.2]) fs)
  end.

Fixpoint tree_json (t : gen_tree (string + Z)) : json :=
  match t with
  | GenLeaf (inr n) => JNum n
  | GenLeaf (inl s) => JStr s
  | GenNode 0 _ => JNull
  | GenNode 1 _ => JBool false
  | GenNode 2 _ => JBool true
  | GenNode 3 l => JArr (List.map tree_json l)
  | GenNode _ l =>
      JObj (List.map (λ t, match t with
                           | GenNode _ [GenLeaf (inl k); u] => (k, tree_json u)
                           | _ => ("", JNull)
                           end) l)
  end.

Fixpoint tree_json_tree (v : json) : tree_json (json_tree v) = v.
Proof.
  destruct v as [|[]|n|s|l|fs]; simpl; try done.
  - f_equal. induction l as [|x l IH]; simpl; [done|]. by rewrite tree_json_tree, IH.
  - f_equal. induction fs as [|[k x] fs IH]; simpl; [done|]. by rewrite tree_json_tree, IH.
Qed.

#[export] Instance json_eq_dec : EqDecision json.
Proof.
  intros v1 v2. destruct (decide (json_tree v1 = json_tree v2)) as [H|H].
  - left. by rewrite <- (tree_json_tree v1), H, tree_json_tree.
  - right. by intros ->.
Defined.

Fixpoint pos_text (p : positive) : string :=
  match p with
  | xH => ""
  | xO p => String "0"%char (pos_text p)
  | xI p => String "1"%char (pos_text p)
  end.

Fixpoint text_pos (s : string) : positive :=
  match s with
  | EmptyString => xH
  | String c s => if bool_decide (c = "0"%char) then xO (text_pos s) else xI (text_pos s)
  end.

Lemma text_pos_text p : text_pos (pos_text p) = p.
Proof. induction p as [p IH|p IH|]; simpl; [by rewrite IH..|done]. Qed.

#[export, refine] Instance plain_json : JsonText := {|
  stringify v := pos_text (encode (json_tree v));
  parse s := tree_json <$> decode (text_pos s)
|}.
Proof. intros v. by rewrite text_pos_text, decode_encode; simpl; rewrite tree_json_tree. Defined.
