(* ===== verification/World.v ===== *)
(** The durable world: tables, process state, errors, and the write boundary.

    [Db] holds the tables the stores share ([flows_runs], [flows_attempts],
    [flows_consensus_leases], [flows_journal_events],
    [flows_journal_checkpoints], [flows_step_cache],
    [flows_step_cache_recorded]) with the CHECK constraints of their
    migrations; [Proc] is the state one journal layer keeps in the process.
    [write] is [DurableWriter.write]: one transaction that rolls the tables
    back when its body fails, and leaves process memory alone. *)

From S2P Require Export Prelude Json.

(** ** Owners *)

Record OwnerId := MkOwnerId { hostId : string; pid : Z; nonce : string }.

#[export] Instance OwnerId_eq_dec : EqDecision OwnerId.
Proof. solve_decision. Defined.

(** The three nullable columns that store an owner or a claimant. *)
Record OwnerCols := MkOwnerCols {
  c_host : option string; c_pid : option Z; c_nonce : option string
}.

#[export] Instance OwnerCols_eq_dec : EqDecision OwnerCols.
Proof. solve_decision. Defined.

Definition null_cols : OwnerCols := MkOwnerCols None None None.
Definition owner_cols (o : OwnerId) : OwnerCols :=
  MkOwnerCols (Some (hostId o)) (Some (pid o)) (Some (nonce o)).

(** [x_host_id = ? AND x_pid = ? AND x_nonce = ?]. *)
Definition cols_are (c : OwnerCols) (o : OwnerId) : bool :=
  col_is (c_host c) (hostId o) && col_is (c_pid c) (pid o) && col_is (c_nonce c) (nonce o).

Lemma cols_are_spec c o : cols_are c o = true ↔ c = owner_cols o.
Proof.
  unfold cols_are, col_is, owner_cols. destruct c as [h p n]; simpl.
  rewrite !andb_true_iff, !bool_decide_eq_true. intuition congruence.
Qed.

Lemma cols_are_owner o o' : cols_are (owner_cols o) o' = bool_decide (o = o').
Proof.
  apply eq_true_iff_eq. rewrite cols_are_spec, bool_decide_eq_true.
  destruct o, o'; unfold owner_cols; simpl. naive_solver.
Qed.

Lemma owner_cols_inj o o' : owner_cols o = owner_cols o' → o = o'.
Proof. destruct o, o'; unfold owner_cols; simpl. naive_solver. Qed.

(** ** Runs *)

Inductive RunStatus := Pending | Running | Suspended | Completed | Failed | Cancelled.

#[export] Instance RunStatus_eq_dec : EqDecision RunStatus.
Proof. solve_decision. Defined.

Definition status_name (s : RunStatus) : string :=
  match s with
  | Pending => "pending" | Running => "running" | Suspended => "suspended"
  | Completed => "completed" | Failed => "failed" | Cancelled => "cancelled"
  end.

(** [Schema.decodeUnknownResult(RunStatus)]. *)
Definition decode_status (s : string) : option RunStatus :=
  if bool_decide (s = "pending") then Some Pending
  else if bool_decide (s = "running") then Some Running
  else if bool_decide (s = "suspended") then Some Suspended
  else if bool_decide (s = "completed") then Some Completed
  else if bool_decide (s = "failed") then Some Failed
  else if bool_decide (s = "cancelled") then Some Cancelled
  else None.

Lemma decode_status_name s : decode_status (status_name s) = Some s.
Proof. by destruct s. Qed.

Definition is_terminal (s : RunStatus) : bool :=
  match s with Completed | Failed | Cancelled => true | _ => false end.

(** A row of [flows_runs]; the primary key [run_id] is the table's key. *)
Record RunRow := MkRunRow {
  r_status : RunStatus;
  r_createdAtMs : Z;
  r_startedAtMs : option Z;
  r_finishedAtMs : option Z;
  r_owner : OwnerCols;
  r_heartbeatAtMs : option Z;
  r_claim : OwnerCols;
  r_claimedAtMs : option Z;
  r_parentRunId : option string;
  r_cancelRequestedAtMs : option Z;
  r_waitingReason : option string;
  r_waitingWakeAtMs : option Z;
  r_waitingToken : option string;
  r_lineageId : option string;
  r_roundOrdinal : option Z;
  r_stateJson : string
}.

#[export] Instance RunRow_eq_dec : EqDecision RunRow.
Proof. solve_decision. Defined.

(** A stored owner tuple: present, with a non-empty host, a non-negative pid
    and a non-empty nonce. *)
Definition cols_check_set (c : OwnerCols) : bool :=
  match c with
  | MkOwnerCols (Some h) (Some p) (Some n) => nonempty h && bool_decide (0 ≤ p)%Z && nonempty n
  | _ => false
  end.
Definition cols_check_null (c : OwnerCols) : bool := bool_decide (c = null_cols).

(** The CHECK constraints of [flows_runs]. *)
Definition check_run `{JsonText} (run_id : string) (row : RunRow) : bool :=
  nonempty run_id
  && stamp_ok (r_createdAtMs row)
  && col_check stamp_ok (r_startedAtMs row)
  && col_check stamp_ok (r_finishedAtMs row)
  && col_check stamp_ok (r_heartbeatAtMs row)
  && col_check stamp_ok (r_claimedAtMs row)
  && col_check nonempty (r_parentRunId row)
  && col_check stamp_ok (r_cancelRequestedAtMs row)
  && col_check nonempty (r_waitingReason row)
  && col_check stamp_ok (r_waitingWakeAtMs row)
  && col_check nonempty (r_waitingToken row)
  && json_valid (r_stateJson row)
  && (if bool_decide (r_status row = Running)
      then cols_check_set (r_owner row) && negb (is_null (r_heartbeatAtMs row))
      else cols_check_null (r_owner row) && is_null (r_heartbeatAtMs row))
  && ((cols_check_null (r_claim row) && is_null (r_claimedAtMs row))
      || (cols_check_set (r_claim row) && negb (is_null (r_claimedAtMs row))))
  && (negb (is_null (r_waitingReason row))
      || (is_null (r_waitingWakeAtMs row) && is_null (r_waitingToken row)))
  && col_check nonempty (r_lineageId row)
  && col_check stamp_ok (r_roundOrdinal row).

(** ** Attempts, leases, journal rows, checkpoints *)

Record AttemptRow := MkAttemptRow {
  a_state : string;
  a_startedAtMs : Z;
  a_finishedAtMs : option Z;
  a_heartbeatAtMs : option Z;
  a_checkpointJson : option string;
  a_errorJson : option string;
  a_outcomeJson : option string;
  a_metaJson : string
}.

#[export] Instance AttemptRow_eq_dec : EqDecision AttemptRow.
Proof. solve_decision. Defined.

(** The primary key [(run_id, step_key_digest, attempt)]. *)
Definition AttemptKey : Type := string * string * Z.

(** The CHECK constraints of [flows_attempts]. *)
Definition check_attempt `{JsonText} (key : AttemptKey) (row : AttemptRow) : bool :=
  nonempty key.1.1 && nonempty key.1.2 && stamp_ok key.2
  && nonempty (a_state row)
  && stamp_ok (a_startedAtMs row)
  && col_check stamp_ok (a_finishedAtMs row)
  && col_check stamp_ok (a_heartbeatAtMs row)
  && col_check json_valid (a_checkpointJson row)
  && col_check json_valid (a_errorJson row)
  && col_check json_valid (a_outcomeJson row)
  && json_valid (a_metaJson row).

Record LeaseRow := MkLeaseRow {
  l_owner : OwnerCols;
  l_grantedAtMs : option Z;
  l_heartbeatAtMs : option Z;
  l_claim : OwnerCols;
  l_claimedAtMs : option Z
}.

#[export] Instance LeaseRow_eq_dec : EqDecision LeaseRow.
Proof. solve_decision. Defined.

(** The CHECK constraints of [flows_consensus_leases]. *)
Definition check_lease (run_id : string) (row : LeaseRow) : bool :=
  nonempty run_id
  && col_check (λ n, bool_decide (0 ≤ n)%Z) (l_grantedAtMs row)
  && col_check (λ n, bool_decide (0 ≤ n)%Z) (l_heartbeatAtMs row)
  && col_check (λ n, bool_decide (0 ≤ n)%Z) (l_claimedAtMs row).

(** A row of [flows_journal_events], and of the admission queue. *)
Record JournalRow := MkJournalRow {
  j_runId : string;
  j_seq : Z;
  j_eventId : string;
  j_sourceId : string;
  j_sourceSeq : Z;
  j_emittedAtMs : Z;
  j_eventType : string;
  j_payloadJson : string;
  j_metaJson : string
}.

#[export] Instance JournalRow_eq_dec : EqDecision JournalRow.
Proof. solve_decision. Defined.

(** The CHECK constraints of [flows_journal_events]. *)
Definition check_event `{JsonText} (row : JournalRow) : bool :=
  nonempty (j_runId row) && stamp_ok (j_seq row) && nonempty (j_eventId row)
  && nonempty (j_sourceId row) && stamp_ok (j_sourceSeq row) && stamp_ok (j_emittedAtMs row)
  && nonempty (j_eventType row) && json_valid (j_payloadJson row) && json_valid (j_metaJson row).

(** A decoded journal entry. *)
Record Entry := MkEntry {
  en_runId : string;
  en_seq : Z;
  en_eventId : string;
  en_sourceId : string;
  en_sourceSeq : Z;
  en_emittedAtMs : Z;
  en_eventType : string;
  en_payload : json;
  en_meta : json
}.

Record CheckpointRow := MkCheckpointRow {
  k_stateJson : string;
  k_createdAtMs : Z;
  k_compactedAtMs : option Z
}.

Definition check_checkpoint `{JsonText} (key : string * Z) (row : CheckpointRow) : bool :=
  nonempty key.1 && stamp_ok key.2 && json_valid (k_stateJson row)
  && stamp_ok (k_createdAtMs row) && col_check stamp_ok (k_compactedAtMs row).

(** A row of [flows_step_cache] and of [flows_step_cache_recorded], which have the same
    columns; the key of a table is the row's own. *)
Record CacheRow := MkCacheRow {
  ch_keyDigest : string;
  ch_resultJson : string;
  ch_metaJson : string;
  ch_createdAtMs : Z;
  ch_recordedRunId : string;
  ch_recordedEventSeq : Z
}.

#[export] Instance CacheRow_eq_dec : EqDecision CacheRow.
Proof. solve_decision. Defined.

(** The primary key of [flows_step_cache_recorded]. *)
Definition CacheTriple : Type := string * string * Z.
Definition row_triple (row : CacheRow) : CacheTriple :=
  (ch_keyDigest row, ch_recordedRunId row, ch_recordedEventSeq row).

(** The CHECK constraints of both tables. *)
Definition check_cache `{JsonText} (row : CacheRow) : bool :=
  nonempty (ch_keyDigest row) && json_valid (ch_resultJson row) && json_valid (ch_metaJson row)
  && stamp_ok (ch_createdAtMs row) && nonempty (ch_recordedRunId row) && stamp_ok (ch_recordedEventSeq row).

(** ** Errors

    Every failure the stores raise: the class that raised it, its code, the
    checkpoint sequence a [JournalError] may carry, and its [cause]. *)

Inductive error_class :=
| SqlError | DatabaseError | ConsensusError | JournalError | RunStoreError | AttemptStoreError
| CacheStoreError.

#[export] Instance error_class_eq_dec : EqDecision error_class.
Proof. solve_decision. Defined.

#[warnings="-register-all"]
Inductive error := MkError (cls : error_class) (code : string) (checkpointSeq : option Z)
                           (cause : option error).

Definition err (cls : error_class) (code : string) : error := MkError cls code None None.
Definition err_cause (cls : error_class) (code : string) (cause : error) : error :=
  MkError cls code None (Some cause).

Definition error_cls (e : error) : error_class := let 'MkError c _ _ _ := e in c.
Definition error_code (e : error) : string := let 'MkError _ c _ _ := e in c.
Definition error_checkpoint (e : error) : option Z := let 'MkError _ _ k _ := e in k.

Definition is_class (c : error_class) (e : error) : bool := bool_decide (error_cls e = c).

(** [hasCauseCode]: the code occurs on the cause chain.  A driver's [SqlError]
    carries a [reason], not a [code]. *)
Fixpoint hasCauseCode (e : error) (expected : string) : bool :=
  match e with
  | MkError cls code _ cause =>
      (negb (bool_decide (cls = SqlError)) && bool_decide (code = expected))
      || match cause with Some e' => hasCauseCode e' expected | None => false end
  end.

(** [fromSqlError], by the reason tag of the driver's error; the textual
    inspection of a driver's I/O and lock messages is the driver's. *)
Definition fromSqlError (e : error) : error :=
  let code :=
    if bool_decide (error_code e = "LockTimeoutError") then "busy"
    else if bool_decide (error_code e = "ConstraintError")
            || bool_decide (error_code e = "UniqueViolation") then "constraint"
    else "unknown" in
  err_cause DatabaseError code e.

(** ** The world *)

Record Db := MkDb {
  db_has_runs : bool; (* the [flows_runs] table is migrated in this database *)
  db_runs : gmap string RunRow;
  db_attempts : gmap AttemptKey AttemptRow;
  db_leases : gmap string LeaseRow;
  db_events : list JournalRow; (* in insertion order *)
  db_checkpoints : gmap (string * Z) CheckpointRow;
  db_heads : gmap string CacheRow; (* [flows_step_cache] *)
  db_recorded : gmap CacheTriple CacheRow (* [flows_step_cache_recorded] *)
}.

(** One entry of the in-memory strategy's [Map]. *)
Record LocalLease := MkLocalLease {
  ll_owner : option (OwnerId * Z * Z); (* id, grantedAtMs, heartbeatAtMs *)
  ll_claim : option (OwnerId * Z) (* id, claimedAtMs *)
}.

#[export] Instance LocalLease_eq_dec : EqDecision LocalLease.
Proof. solve_decision. Defined.

Inductive EventStatus := EvPending | EvCommitted.

#[export] Instance EventStatus_eq_dec : EqDecision EventStatus.
Proof. solve_decision. Defined.

Record SourceEvent := MkSourceEvent {
  se_seq : Z;
  se_eventType : string;
  se_payloadJson : string;
  se_metaJson : string;
  se_status : EventStatus
}.

Inductive JournalStatus := Open | Closing | Closed.

#[export] Instance JournalStatus_eq_dec : EqDecision JournalStatus.
Proof. solve_decision. Defined.

Record Commit := MkCommit { cm_entry : Entry; cm_inserted : bool }.

(** The state one journal layer keeps in memory.  [p_sourceEvents] is the
    insertion-ordered [Map]; [p_published] is what was sent to [changes]. *)
Record Proc := MkProc {
  p_status : JournalStatus;
  p_sinkFailure : option error;
  p_lossEpoch : Z;
  p_flushedLossEpoch : Z;
  p_pending : Z;
  p_sequences : gmap string Z;
  p_sourceSequences : gmap string Z;
  p_sourceEvents : list (string * SourceEvent);
  p_queue : list JournalRow;
  p_readers : gmap string (list Z);
  p_published : list Entry;
  p_settlements : option (list (JournalRow * Commit)) (* the enclosing [transact] *)
}.

Record World := MkWorld {
  w_db : Db;
  w_proc : Proc;
  w_local : gmap string LocalLease;
  w_clock : Z (* [Clock.currentTimeMillis] *)
}.

Definition M : Type → Type := ME World error.

Definition set_db (f : Db → Db) (w : World) : World :=
  MkWorld (f (w_db w)) (w_proc w) (w_local w) (w_clock w).
Definition set_proc (f : Proc → Proc) (w : World) : World :=
  MkWorld (w_db w) (f (w_proc w)) (w_local w) (w_clock w).
Definition set_local (f : gmap string LocalLease → gmap string LocalLease) (w : World) : World :=
  MkWorld (w_db w) (w_proc w) (f (w_local w)) (w_clock w).
Definition set_clock (t : Z) (w : World) : World :=
  MkWorld (w_db w) (w_proc w) (w_local w) t.

Definition upd_runs (f : gmap string RunRow → gmap string RunRow) (d : Db) : Db :=
  MkDb (db_has_runs d) (f (db_runs d)) (db_attempts d) (db_leases d) (db_events d)
       (db_checkpoints d) (db_heads d) (db_recorded d).
Definition upd_attempts (f : gmap AttemptKey AttemptRow → gmap AttemptKey AttemptRow)
    (d : Db) : Db :=
  MkDb (db_has_runs d) (db_runs d) (f (db_attempts d)) (db_leases d) (db_events d)
       (db_checkpoints d) (db_heads d) (db_recorded d).
Definition upd_leases (f : gmap string LeaseRow → gmap string LeaseRow) (d : Db) : Db :=
  MkDb (db_has_runs d) (db_runs d) (db_attempts d) (f (db_leases d)) (db_events d)
       (db_checkpoints d) (db_heads d) (db_recorded d).
Definition upd_events (f : list JournalRow → list JournalRow) (d : Db) : Db :=
  MkDb (db_has_runs d) (db_runs d) (db_attempts d) (db_leases d) (f (db_events d))
       (db_checkpoints d) (db_heads d) (db_recorded d).
Definition upd_checkpoints (f : gmap (string * Z) CheckpointRow → gmap (string * Z) CheckpointRow)
    (d : Db) : Db :=
  MkDb (db_has_runs d) (db_runs d) (db_attempts d) (db_leases d) (db_events d)
       (f (db_checkpoints d)) (db_heads d) (db_recorded d).
Definition upd_heads (f : gmap string CacheRow → gmap string CacheRow) (d : Db) : Db :=
  MkDb (db_has_runs d) (db_runs d) (db_attempts d) (db_leases d) (db_events d)
       (db_checkpoints d) (f (db_heads d)) (db_recorded d).
Definition upd_recorded (f : gmap CacheTriple CacheRow → gmap CacheTriple CacheRow) (d : Db) : Db :=
  MkDb (db_has_runs d) (db_runs d) (db_attempts d) (db_leases d) (db_events d)
       (db_checkpoints d) (db_heads d) (f (db_recorded d)).

(** ** Statements

    A statement that writes a row the CHECK constraints refuse fails with the
    driver's constraint error. *)

Section statements.
Context `{JsonText}.

Definition sql_fail {A} (reason : string) : M A := fail (err SqlError reason).

Definition put_run (run_id : string) (row : RunRow) : M () :=
  if check_run run_id row
  then modify (set_db (upd_runs (<[run_id := row]>)))
  else sql_fail "ConstraintError".

Definition put_attempt (key : AttemptKey) (row : AttemptRow) : M () :=
  if check_attempt key row
  then modify (set_db (upd_attempts (<[key := row]>)))
  else sql_fail "ConstraintError".

Definition put_lease (run_id : string) (row : LeaseRow) : M () :=
  if check_lease run_id row
  then modify (set_db (upd_leases (<[run_id := row]>)))
  else sql_fail "ConstraintError".

Definition put_checkpoint (key : string * Z) (row : CheckpointRow) : M () :=
  if check_checkpoint key row
  then modify (set_db (upd_checkpoints (<[key := row]>)))
  else sql_fail "ConstraintError".

Definition get_run (run_id : string) : M (option RunRow) := gets (λ w, db_runs (w_db w) !! run_id).
Definition get_lease (run_id : string) : M (option LeaseRow) :=
  gets (λ w, db_leases (w_db w) !! run_id).
Definition clock : M Z := gets w_clock.
End statements.

#[global] Arguments put_run : simpl never.
#[global] Arguments put_attempt : simpl never.
#[global] Arguments put_lease : simpl never.
#[global] Arguments put_checkpoint : simpl never.
#[global] Arguments check_run : simpl never.
#[global] Arguments check_attempt : simpl never.
#[global] Arguments check_lease : simpl never.
#[global] Arguments check_checkpoint : simpl never.
#[global] Arguments check_event : simpl never.
#[global] Arguments check_cache : simpl never.
#[global] Arguments max_safe_integer : simpl never.
#[global] Arguments stamp_ok : simpl never.

(** ** The write boundary

    [DurableWriter.write]: the body in one transaction.  A failing body leaves
    the tables as they were and its [SqlError] becomes a [DatabaseError]; a
    nested call is a savepoint, which rolls back the same way.  The retry of a
    transient lock conflict replays the body from the same tables and is not
    visible here. *)

Definition write {A} (body : M A) : M A := λ w,
  match body w with
  | (inl e, w') =>
      (inl (if is_class SqlError e then fromSqlError e else e), set_db (λ _, w_db w) w')
  | r => r
  end.

Lemma write_ok {A} (body : M A) w a w' : body w = (inr a, w') → write body w = (inr a, w').
Proof. unfold write. by intros ->. Qed.

Lemma write_inv {A} (body : M A) w a w' : write body w = (inr a, w') → body w = (inr a, w').
Proof. unfold write. destruct (body w) as [[e|x] w1]; congruence. Qed.

(** A failed transaction leaves every table unchanged. *)
Lemma write_err_db {A} (body : M A) w e w' : write body w = (inl e, w') → w_db w' = w_db w.
Proof. unfold write. destruct (body w) as [[e'|a] w1]; [intros [= <- <-]; done|congruence]. Qed.

(** An invariant that survives the body and the restoration of the tables
    survives the transaction. *)
Lemma preserves_write {A} (I : World → Prop) (body : M A) :
  preserves I body →
  (∀ w w', I w → I w' → I (set_db (λ _, w_db w) w')) →
  preserves I (write body).
Proof.
  intros Hb Hr w Hw. unfold write. specialize (Hb w Hw).
  destruct (body w) as [[e|a] w']; simpl in *; [by apply Hr|done].
Qed.

(** The state a journal layer starts with, over empty tables. *)
Definition initial_proc : Proc := MkProc Open None 0 0 0 ∅ ∅ [] [] ∅ [] None.
Definition empty_db : Db := MkDb true ∅ ∅ ∅ [] ∅ ∅ ∅.
Definition initial_world (nowMs : Z) : World := MkWorld empty_db initial_proc ∅ nowMs.

(** ** Concrete worlds for the examples *)

Module Ex.
Definition alice : OwnerId := MkOwnerId "h1" 1 "a".
Definition bob : OwnerId := MkOwnerId "h2" 2 "b".

(** Run ["r"] held by [o] since time 5, in the in-memory strategy. *)
Definition owned (o : OwnerId) : World :=
  set_local (<["r" := MkLocalLease (Some (o, 5, 5)%Z) None]>) (initial_world 10).
End Ex.
