(* ===== verification/Consensus.v ===== *)
(** The consensus strategy that arbitrates run ownership.

    [Consensus] is the service interface of [journal/src/Consensus.ts];
    [ConsensusLaws] is what a strategy promises to the stores that drive it,
    stated over the lease a run holds ([Spec]).  [Local] is the in-memory
    strategy [makeLocal], and its instance of the laws. *)

From S2P Require Export World.

#[local] Open Scope me_scope.

(** ** Liveness evidence and the timing constants *)

Definition heartbeatInterval : Z := 1000.
Definition heartbeatStaleAfter : Z := 30000.
Definition heartbeatSkewAllowance : Z := 10000.
Definition heartbeatWriteTolerance : Z :=
  heartbeatStaleAfter - heartbeatSkewAllowance - heartbeatInterval.
Definition staleAfterMs : Z := heartbeatStaleAfter.

Inductive EvidenceKind := SameHostPidDead | CrossHostUnreachableStale.

#[export] Instance EvidenceKind_eq_dec : EqDecision EvidenceKind.
Proof. solve_decision. Defined.

Record LivenessEvidence := MkEvidence {
  expectedOwner : OwnerId;
  checkedAtMs : Z;
  ev_kind : EvidenceKind
}.

Definition sameOwner (left right : OwnerId) : bool :=
  bool_decide (hostId left = hostId right) && bool_decide (pid left = pid right)
  && bool_decide (nonce left = nonce right).

Lemma sameOwner_spec a b : sameOwner a b = true ↔ a = b.
Proof.
  unfold sameOwner. rewrite !andb_true_iff, !bool_decide_eq_true.
  destruct a, b; simpl. intuition congruence.
Qed.

Lemma sameOwner_refl a : sameOwner a a = true.
Proof. by apply sameOwner_spec. Qed.

Lemma sameOwner_decide a b : sameOwner a b = bool_decide (a = b).
Proof. apply eq_true_iff_eq. by rewrite sameOwner_spec, bool_decide_eq_true. Qed.

Definition matchesEvidence (expected observer : OwnerId) (nowMs : Z)
    (evidence : LivenessEvidence) : bool :=
  if negb (sameOwner expected (expectedOwner evidence))
     || negb (bool_decide (checkedAtMs evidence = nowMs))
  then false
  else match ev_kind evidence with
       | SameHostPidDead => bool_decide (hostId expected = hostId observer)
       | CrossHostUnreachableStale => negb (bool_decide (hostId expected = hostId observer))
       end.

(** ** Outcomes *)

Inductive RejectionReason :=
| AlreadyClaimedReason | OwnerHeld | OwnerLive | EvidenceInvalid
| ClaimFreshReason | ClaimChangedReason | Unavailable.

Inductive LeaseClaimOutcome := LeaseClaimed (grantedAtMs : Z) | LeaseRejected (r : RejectionReason).
Inductive LeaseActivateOutcome := LeaseActivated | LeaseActivateLost.
Inductive LeaseHeartbeatOutcome := LeaseRenewed (heartbeatAtMs : Z) | LeaseHeartbeatLost.
Inductive LeaseRecoverOutcome := LeaseRecovered | LeaseRecoverRejected (r : RejectionReason).

#[export] Instance RejectionReason_eq_dec : EqDecision RejectionReason.
Proof. solve_decision. Defined.
#[export] Instance LeaseClaimOutcome_eq_dec : EqDecision LeaseClaimOutcome.
Proof. solve_decision. Defined.

Definition fenceLost : error := err ConsensusError "fence_lost".

(** The operations of the [Consensus] service. *)
Class Consensus := {
  cs_claim : string → OwnerId → Z → M LeaseClaimOutcome;
  cs_activate : string → OwnerId → Z → Z → M LeaseActivateOutcome;
  cs_heartbeat : string → OwnerId → Z → M LeaseHeartbeatOutcome;
  cs_release : string → OwnerId → M ();
  cs_steal : string → OwnerId → Z → LivenessEvidence → M LeaseClaimOutcome;
  cs_recover : string → OwnerId → Z → OwnerId → Z → LivenessEvidence → M LeaseRecoverOutcome;
  cs_guard : string → OwnerId → M ()
}.

(** ** The contract of a strategy, over one run's lease *)

Module Spec.
Definition none : LocalLease := MkLocalLease None None.

Definition owner_id (l : LocalLease) : option OwnerId := (λ o, o.1.1) <$> ll_owner l.
Definition claim_id (l : LocalLease) : option OwnerId := fst <$> ll_claim l.

Definition claim (l : LocalLease) (claimant : OwnerId) (nowMs : Z)
    : LeaseClaimOutcome * LocalLease :=
  match ll_claim l, ll_owner l with
  | Some _, _ => (LeaseRejected AlreadyClaimedReason, l)
  | None, Some _ => (LeaseRejected OwnerHeld, l)
  | None, None => (LeaseClaimed nowMs, MkLocalLease None (Some (claimant, nowMs)))
  end.

Definition activate (l : LocalLease) (owner : OwnerId) (grantedAtMs nowMs : Z)
    : LeaseActivateOutcome * LocalLease :=
  if bool_decide (ll_claim l = Some (owner, grantedAtMs))
  then (LeaseActivated, MkLocalLease (Some (owner, grantedAtMs, nowMs)) None)
  else (LeaseActivateLost, l).

Definition heartbeat (l : LocalLease) (owner : OwnerId) (nowMs : Z)
    : LeaseHeartbeatOutcome * LocalLease :=
  match ll_owner l with
  | Some (o, g, h) =>
      if bool_decide (o = owner)
      then (LeaseRenewed (Z.max h nowMs), MkLocalLease (Some (o, g, Z.max h nowMs)) (ll_claim l))
      else (LeaseHeartbeatLost, l)
  | None => (LeaseHeartbeatLost, l)
  end.

Definition release (l : LocalLease) (owner : OwnerId) : LocalLease :=
  MkLocalLease
    (if bool_decide (owner_id l = Some owner) then None else ll_owner l)
    (if bool_decide (claim_id l = Some owner) then None else ll_claim l).

Definition steal (l : LocalLease) (claimant : OwnerId) (nowMs : Z) (ev : LivenessEvidence)
    : LeaseClaimOutcome * LocalLease :=
  if negb (matchesEvidence (expectedOwner ev) claimant nowMs ev)
  then (LeaseRejected EvidenceInvalid, l)
  else match ll_claim l, ll_owner l with
       | Some _, _ => (LeaseRejected AlreadyClaimedReason, l)
       | None, None => (LeaseRejected EvidenceInvalid, l)
       | None, Some (o, g, h) =>
           if negb (bool_decide (o = expectedOwner ev)) then (LeaseRejected EvidenceInvalid, l)
           else if bool_decide (nowMs - staleAfterMs ≤ h)%Z then (LeaseRejected OwnerLive, l)
           else (LeaseClaimed nowMs, MkLocalLease (ll_owner l) (Some (claimant, nowMs)))
       end.

Definition recover (l : LocalLease) (stale : OwnerId) (grantedAtMs : Z) (observer : OwnerId)
    (nowMs : Z) (ev : LivenessEvidence) : LeaseRecoverOutcome * LocalLease :=
  if negb (matchesEvidence stale observer nowMs ev)
  then (LeaseRecoverRejected EvidenceInvalid, l)
  else if negb (bool_decide (ll_claim l = Some (stale, grantedAtMs)))
  then (LeaseRecoverRejected ClaimChangedReason, l)
  else if bool_decide (nowMs - staleAfterMs ≤ grantedAtMs)%Z
  then (LeaseRecoverRejected ClaimFreshReason, l)
  else (LeaseRecovered, MkLocalLease (ll_owner l) None).

Definition guard (l : LocalLease) (owner : OwnerId) : bool :=
  bool_decide (owner_id l = Some owner).
End Spec.

(** What a strategy may touch: everything else in the world is left alone. *)
Record lease_frame (w w' : World) : Prop := MkFrame {
  frame_has_runs : db_has_runs (w_db w') = db_has_runs (w_db w);
  frame_runs : db_runs (w_db w') = db_runs (w_db w);
  frame_attempts : db_attempts (w_db w') = db_attempts (w_db w);
  frame_events : db_events (w_db w') = db_events (w_db w);
  frame_checkpoints : db_checkpoints (w_db w') = db_checkpoints (w_db w);
  frame_heads : db_heads (w_db w') = db_heads (w_db w);
  frame_recorded : db_recorded (w_db w') = db_recorded (w_db w);
  frame_proc : w_proc w' = w_proc w;
  frame_clock : w_clock w' = w_clock w
}.

#[export] Instance lease_frame_refl : Reflexive lease_frame.
Proof. by split. Qed.
#[export] Instance lease_frame_trans : Transitive lease_frame.
Proof. intros a b c [] []. by split; etrans. Qed.

(** The rows of [flows_runs] mirror the lease: an owner or a claim shown by the
    row is the one the strategy holds. *)
Definition aligned (view : World → string → LocalLease) (w : World) (r : string) : Prop :=
  ∀ row o, db_runs (w_db w) !! r = Some row →
    (r_owner row = owner_cols o → Spec.owner_id (view w r) = Some o) ∧
    (∀ t, r_claim row = owner_cols o → r_claimedAtMs row = Some t →
          ll_claim (view w r) = Some (o, t)).

(** The effect of a strategy operation on the lease of run [r]. *)
Definition lease_step (view : World → string → LocalLease) (w w' : World) (r : string)
    (l : LocalLease) : Prop :=
  view w' r = l ∧ (∀ r', r' ≠ r → view w' r' = view w r') ∧ lease_frame w w'.

Class ConsensusLaws (C : Consensus) := {
  lease_of : World → string → LocalLease;
  cs_wf : World → Prop;
  law_ext w w' : db_leases (w_db w) = db_leases (w_db w') → w_local w = w_local w' →
    (cs_wf w → cs_wf w') ∧ ∀ r, lease_of w r = lease_of w' r;
  law_claim r c now w : cs_wf w → nonempty r = true → (0 ≤ now)%Z →
    ∃ w', cs_claim r c now w = (inr (Spec.claim (lease_of w r) c now).1, w') ∧ cs_wf w' ∧
          lease_step lease_of w w' r (Spec.claim (lease_of w r) c now).2;
  law_activate r o g now w : cs_wf w → nonempty r = true → (0 ≤ now)%Z →
    ∃ w', cs_activate r o g now w = (inr (Spec.activate (lease_of w r) o g now).1, w') ∧ cs_wf w' ∧
          lease_step lease_of w w' r (Spec.activate (lease_of w r) o g now).2;
  law_heartbeat r o now w : cs_wf w →
    ∃ w', cs_heartbeat r o now w = (inr (Spec.heartbeat (lease_of w r) o now).1, w') ∧ cs_wf w' ∧
          lease_step lease_of w w' r (Spec.heartbeat (lease_of w r) o now).2;
  law_release r o w : cs_wf w →
    ∃ w', cs_release r o w = (inr tt, w') ∧ cs_wf w' ∧
          lease_step lease_of w w' r (Spec.release (lease_of w r) o);
  law_steal r c now ev w : cs_wf w → aligned lease_of w r → nonempty r = true → (0 ≤ now)%Z →
    ∃ w', cs_steal r c now ev w = (inr (Spec.steal (lease_of w r) c now ev).1, w') ∧ cs_wf w' ∧
          lease_step lease_of w w' r (Spec.steal (lease_of w r) c now ev).2;
  law_recover r s g obs now ev w : cs_wf w → aligned lease_of w r →
    ∃ w', cs_recover r s g obs now ev w = (inr (Spec.recover (lease_of w r) s g obs now ev).1, w')
          ∧ cs_wf w' ∧ lease_step lease_of w w' r (Spec.recover (lease_of w r) s g obs now ev).2;
  law_guard r o w : cs_wf w →
    cs_guard r o w = (if Spec.guard (lease_of w r) o then (inr tt, w) else (inl fenceLost, w))
}.

(** A strategy whose operations keep a predicate of the world, whatever they
    answer. *)
Record cs_preserves (C : Consensus) (I : World → Prop) : Prop := MkCsPreserves {
  pv_claim r c now : preserves I (cs_claim r c now);
  pv_activate r o g now : preserves I (cs_activate r o g now);
  pv_heartbeat r o now : preserves I (cs_heartbeat r o now);
  pv_release r o : preserves I (cs_release r o);
  pv_steal r c now ev : preserves I (cs_steal r c now ev);
  pv_recover r s g obs now ev : preserves I (cs_recover r s g obs now ev);
  pv_guard r o : preserves I (cs_guard r o)
}.

Definition clock_is (t : Z) (w : World) : Prop := w_clock w = t.

(** A strategy that keeps its leases in the database alone: rolling the tables
    back rolls the leases back. *)
Class Transactional (C : Consensus) {L : ConsensusLaws C} := {
  tr_lease w w' : db_leases (w_db w) = db_leases (w_db w') →
    (cs_wf w → cs_wf w') ∧ ∀ r, lease_of w r = lease_of w' r;
  tr_clock t : cs_preserves C (clock_is t)
}.

(** ** The in-memory single-process strategy *)

Module Local.
Definition get (runId : string) : M (option LocalLease) := gets (λ w, w_local w !! runId).
Definition set (runId : string) (l : LocalLease) : M () := modify (set_local (<[runId := l]>)).

Definition leaseOf (runId : string) : M LocalLease :=
  existing <- get runId ;;
  match existing with
  | Some l => ret l
  | None => set runId Spec.none ;; ret Spec.none
  end.

Definition prune (runId : string) (lease : LocalLease) : M () :=
  match ll_owner lease, ll_claim lease with
  | None, None => modify (set_local (delete runId))
  | _, _ => ret tt
  end.

Definition claim (runId : string) (claimant : OwnerId) (nowMs : Z) : M LeaseClaimOutcome :=
  lease <- leaseOf runId ;;
  match ll_claim lease with
  | Some _ => ret (LeaseRejected AlreadyClaimedReason)
  | None =>
      match ll_owner lease with
      | Some _ => ret (LeaseRejected OwnerHeld)
      | None =>
          set runId (MkLocalLease (ll_owner lease) (Some (claimant, nowMs))) ;;
          ret (LeaseClaimed nowMs)
      end
  end.

Definition activate (runId : string) (owner : OwnerId) (grantedAtMs nowMs : Z)
    : M LeaseActivateOutcome :=
  lease <- leaseOf runId ;;
  match ll_claim lease with
  | Some (id, claimedAtMs) =>
      if sameOwner id owner && bool_decide (claimedAtMs = grantedAtMs)
      then set runId (MkLocalLease (Some (owner, grantedAtMs, nowMs)) None) ;; ret LeaseActivated
      else prune runId lease ;; ret LeaseActivateLost
  | None => prune runId lease ;; ret LeaseActivateLost
  end.

Definition heartbeat (runId : string) (owner : OwnerId) (nowMs : Z) : M LeaseHeartbeatOutcome :=
  lease <- get runId ;;
  match lease with
  | Some (MkLocalLease (Some (id, g, h)) c) =>
      if sameOwner id owner
      then set runId (MkLocalLease (Some (id, g, Z.max h nowMs)) c) ;;
           ret (LeaseRenewed (Z.max h nowMs))
      else ret LeaseHeartbeatLost
  | _ => ret LeaseHeartbeatLost
  end.

Definition release (runId : string) (owner : OwnerId) : M () :=
  lease <- get runId ;;
  match lease with
  | None => ret tt
  | Some lease =>
      let lease := match ll_claim lease with
                   | Some (id, _) =>
                       if sameOwner id owner then MkLocalLease (ll_owner lease) None else lease
                   | None => lease
                   end in
      let lease := match ll_owner lease with
                   | Some (id, _, _) =>
                       if sameOwner id owner then MkLocalLease None (ll_claim lease) else lease
                   | None => lease
                   end in
      set runId lease ;; prune runId lease
  end.

Definition steal (runId : string) (claimant : OwnerId) (nowMs : Z) (evidence : LivenessEvidence)
    : M LeaseClaimOutcome :=
  if negb (matchesEvidence (expectedOwner evidence) claimant nowMs evidence)
  then ret (LeaseRejected EvidenceInvalid)
  else
    lease <- get runId ;;
    match lease with
    | None => ret (LeaseRejected EvidenceInvalid)
    | Some lease =>
        match ll_claim lease with
        | Some _ => ret (LeaseRejected AlreadyClaimedReason)
        | None =>
            match ll_owner lease with
            | None => ret (LeaseRejected EvidenceInvalid)
            | Some (id, _, heartbeatAtMs) =>
                if negb (sameOwner id (expectedOwner evidence))
                then ret (LeaseRejected EvidenceInvalid)
                else if bool_decide (nowMs - staleAfterMs ≤ heartbeatAtMs)%Z
                then ret (LeaseRejected OwnerLive)
                else
                  set runId (MkLocalLease (ll_owner lease) (Some (claimant, nowMs))) ;;
                  ret (LeaseClaimed nowMs)
            end
        end
    end.

Definition recover (runId : string) (staleClaimant : OwnerId) (grantedAtMs : Z)
    (observer : OwnerId) (nowMs : Z) (evidence : LivenessEvidence) : M LeaseRecoverOutcome :=
  if negb (matchesEvidence staleClaimant observer nowMs evidence)
  then ret (LeaseRecoverRejected EvidenceInvalid)
  else
    lease <- get runId ;;
    match lease with
    | Some (MkLocalLease o (Some (id, claimedAtMs))) =>
        if negb (sameOwner id staleClaimant) || negb (bool_decide (claimedAtMs = grantedAtMs))
        then ret (LeaseRecoverRejected ClaimChangedReason)
        else if bool_decide (nowMs - staleAfterMs ≤ claimedAtMs)%Z
        then ret (LeaseRecoverRejected ClaimFreshReason)
        else
          set runId (MkLocalLease o None) ;; prune runId (MkLocalLease o None) ;;
          ret LeaseRecovered
    | _ => ret (LeaseRecoverRejected ClaimChangedReason)
    end.

Definition guard (runId : string) (owner : OwnerId) : M () :=
  lease <- get runId ;;
  match lease with
  | Some (MkLocalLease (Some (id, _, _)) _) =>
      if sameOwner id owner then ret tt else fail fenceLost
  | _ => fail fenceLost
  end.

(** The strategy's view of a run: an absent entry is an empty lease. *)
Definition view (w : World) (r : string) : LocalLease := default Spec.none (w_local w !! r).
End Local.

#[export] Instance local_consensus : Consensus := {|
  cs_claim := Local.claim;
  cs_activate := Local.activate;
  cs_heartbeat := Local.heartbeat;
  cs_release := Local.release;
  cs_steal := Local.steal;
  cs_recover := Local.recover;
  cs_guard := Local.guard
|}.

(** [makeNoop]: the strategy that arbitrates nothing. *)
Definition noop_consensus : Consensus := {|
  cs_claim _ _ _ := ret (LeaseRejected Unavailable);
  cs_activate _ _ _ _ := ret LeaseActivateLost;
  cs_heartbeat _ _ _ := ret LeaseHeartbeatLost;
  cs_release _ _ := ret tt;
  cs_steal _ _ _ _ := ret (LeaseRejected Unavailable);
  cs_recover _ _ _ _ _ _ := ret (LeaseRecoverRejected Unavailable);
  cs_guard _ _ := fail fenceLost
|}.

(** ** The in-memory strategy keeps the contract *)

Section local_laws.
Implicit Types (w : World) (r : string) (l : LocalLease).

Lemma local_view_ext w w' r : w_local w = w_local w' → Local.view w r = Local.view w' r.
Proof. unfold Local.view. by intros ->. Qed.

Lemma local_step_refl w r : lease_step Local.view w w r (Local.view w r).
Proof. done. Qed.

Lemma local_step_eq w r l : Local.view w r = l → lease_step Local.view w w r l.
Proof. by intros <-. Qed.

Lemma local_step_set w r l : lease_step Local.view w (set_local (<[r:=l]>) w) r l.
Proof.
  repeat split; unfold Local.view; simpl.
  - by rewrite lookup_insert_eq.
  - intros r' Hr'. by rewrite lookup_insert_ne.
Qed.

Lemma local_step_delete w r :
  lease_step Local.view w (set_local (delete r) w) r Spec.none.
Proof.
  repeat split; unfold Local.view; simpl.
  - by rewrite lookup_delete_eq.
  - intros r' Hr'. by rewrite lookup_delete_ne.
Qed.

Lemma lease_step_trans view w1 w2 w3 r l1 l2 :
  lease_step view w1 w2 r l1 → lease_step view w2 w3 r l2 → lease_step view w1 w3 r l2.
Proof.
  intros (_ & Ho & Hf) (Hl & Ho' & Hf'). split_and!; [done| |by etrans].
  intros r' Hr'. rewrite Ho', Ho; done.
Qed.

(** Pruning an entry never changes what the strategy shows. *)
Lemma local_prune_step w r l :
  Local.view w r = l →
  ∃ w', Local.prune r l w = (inr tt, w') ∧ lease_step Local.view w w' r l.
Proof.
  intros Hl. unfold Local.prune. destruct l as [[o|] [c|]]; simpl.
  1-3: eexists; split; [reflexivity|by apply local_step_eq].
  eexists; split; [reflexivity|]. apply local_step_delete.
Qed.

(** The entry [leaseOf] returns is the one shown, and creating it is unseen. *)
Lemma local_leaseOf w r :
  ∃ w', Local.leaseOf r w = (inr (Local.view w r), w') ∧
        lease_step Local.view w w' r (Local.view w r).
Proof.
  unfold Local.leaseOf, Local.get, Local.set, Local.view. run.
  destruct (w_local w !! r) as [l|] eqn:Hl; simpl.
  - eexists; split; [reflexivity|]. apply local_step_eq. unfold Local.view. by rewrite Hl.
  - eexists; split; [reflexivity|]. apply local_step_set.
Qed.
End local_laws.

(** The lease of a run by its shape, with the owner comparisons decided. *)
Ltac lease_cases l :=
  destruct l as [[[[? ?] ?]|] [[? ?]|]]; simpl in *;
  repeat (rewrite ?sameOwner_decide in *; case_bool_decide; simplify_eq/=); try done.

Section local_instance.
Implicit Types (w : World) (r : string).

Ltac from_leaseOf w r :=
  destruct (local_leaseOf w r) as (w1 & -> & Hstep).

Lemma local_claim_law r c now w :
  ∃ w', Local.claim r c now w = (inr (Spec.claim (Local.view w r) c now).1, w') ∧
        lease_step Local.view w w' r (Spec.claim (Local.view w r) c now).2.
Proof.
  unfold Local.claim, bind at 1. from_leaseOf w r. unfold Spec.claim.
  destruct (Local.view w r) as [[o|] [cl|]]; simpl; (eexists; split; [reflexivity|]);
    [done..|]. eapply lease_step_trans; [done|]. apply local_step_set.
Qed.

Lemma local_activate_law r o g now w :
  ∃ w', Local.activate r o g now w = (inr (Spec.activate (Local.view w r) o g now).1, w') ∧
        lease_step Local.view w w' r (Spec.activate (Local.view w r) o g now).2.
Proof.
  unfold Local.activate, bind at 1. from_leaseOf w r.
  destruct (local_prune_step w1 r (Local.view w r) (proj1 Hstep)) as (w2 & Hp & Hs2).
  pose proof (lease_step_trans _ _ _ _ _ _ _ Hstep Hs2) as Hlost.
  unfold Spec.activate.
  destruct (ll_claim (Local.view w r)) as [[id at_]|]; simpl.
  - rewrite sameOwner_decide. destruct (decide (id = o ∧ at_ = g)) as [[-> ->]|Hne].
    + rewrite !bool_decide_true by done. simpl. eexists; split; [reflexivity|].
      eapply lease_step_trans; [exact Hstep|]. apply local_step_set.
    + rewrite (bool_decide_false (Some (id, at_) = _)) by naive_solver.
      replace (bool_decide (id = o) && bool_decide (at_ = g)) with false
        by (symmetry; apply not_true_iff_false; rewrite andb_true_iff, !bool_decide_eq_true; done).
      unfold bind. rewrite Hp. by eexists.
  - unfold bind. rewrite Hp. by eexists.
Qed.

Lemma local_heartbeat_law r o now w :
  ∃ w', Local.heartbeat r o now w = (inr (Spec.heartbeat (Local.view w r) o now).1, w') ∧
        lease_step Local.view w w' r (Spec.heartbeat (Local.view w r) o now).2.
Proof.
  unfold Local.heartbeat, Spec.heartbeat, Local.get, Local.set, Local.view. run.
  destruct (w_local w !! r) as [l|] eqn:Hl; simpl.
  - lease_cases l; (eexists; split; [reflexivity|]);
      first [apply local_step_set | apply local_step_eq; unfold Local.view; by rewrite Hl].
  - eexists; split; [reflexivity|]. apply local_step_eq. unfold Local.view. by rewrite Hl.
Qed.

Lemma local_release_law r o w :
  ∃ w', Local.release r o w = (inr tt, w') ∧
        lease_step Local.view w w' r (Spec.release (Local.view w r) o).
Proof.
  unfold Local.release, Local.get, bind at 1, gets.
  destruct (w_local w !! r) as [l|] eqn:Hl; simpl.
  - assert (Local.view w r = l) as -> by (unfold Local.view; by rewrite Hl).
    match goal with |- context [Local.set r ?x] => assert (x = Spec.release l o) as -> end.
    { unfold Spec.release, Spec.owner_id, Spec.claim_id. lease_cases l. }
    destruct (local_prune_step (set_local <[r:=Spec.release l o]> w) r (Spec.release l o))
      as (w' & Hp & Hs).
    { unfold Local.view; simpl. by rewrite lookup_insert_eq. }
    exists w'. split; [done|]. eapply lease_step_trans; [apply local_step_set|done].
  - eexists; split; [reflexivity|]. apply local_step_eq. unfold Local.view. by rewrite Hl.
Qed.

Lemma local_steal_law r c now ev w :
  ∃ w', Local.steal r c now ev w = (inr (Spec.steal (Local.view w r) c now ev).1, w') ∧
        lease_step Local.view w w' r (Spec.steal (Local.view w r) c now ev).2.
Proof.
  unfold Local.steal, Spec.steal, Local.get, Local.set, Local.view.
  destruct (matchesEvidence _ _ _ _); simpl;
    [|eexists; split; [reflexivity|]; by apply local_step_eq].
  run. destruct (w_local w !! r) as [l|] eqn:Hl; simpl.
  - lease_cases l; (eexists; split; [reflexivity|]);
      first [apply local_step_set | apply local_step_eq; unfold Local.view; by rewrite Hl].
  - eexists; split; [reflexivity|]. apply local_step_eq. unfold Local.view. by rewrite Hl.
Qed.

Lemma local_recover_law r s g obs now ev w :
  ∃ w', Local.recover r s g obs now ev w
        = (inr (Spec.recover (Local.view w r) s g obs now ev).1, w') ∧
        lease_step Local.view w w' r (Spec.recover (Local.view w r) s g obs now ev).2.
Proof.
  unfold Local.recover, Spec.recover, Local.get, Local.set, Local.view.
  destruct (matchesEvidence _ _ _ _); simpl;
    [|eexists; split; [reflexivity|]; by apply local_step_eq].
  run. destruct (w_local w !! r) as [l|] eqn:Hl; simpl;
    [|eexists; split; [reflexivity|]; apply local_step_eq; unfold Local.view; by rewrite Hl].
  destruct l as [o [[id at_]|]]; simpl;
    [|eexists; split; [reflexivity|]; apply local_step_eq; unfold Local.view; by rewrite Hl].
  rewrite sameOwner_decide.
  repeat (case_bool_decide; simplify_eq/=); try done.
  all: try (eexists; split; [reflexivity|]; apply local_step_eq; unfold Local.view;
            by rewrite Hl).
  destruct (local_prune_step (set_local <[r:=MkLocalLease o None]> w) r (MkLocalLease o None))
    as (w' & Hp & Hs).
  { unfold Local.view; simpl. by rewrite lookup_insert_eq. }
  exists w'. rewrite Hp. split; [done|].
  eapply lease_step_trans; [apply local_step_set|done].
Qed.

Lemma local_guard_law r o w :
  Local.guard r o w
  = (if Spec.guard (Local.view w r) o then (inr tt, w) else (inl fenceLost, w)).
Proof.
  unfold Local.guard, Spec.guard, Spec.owner_id, Local.get, Local.view. run.
  destruct (w_local w !! r) as [l|]; simpl; [lease_cases l|done].
Qed.
End local_instance.

#[export, refine] Instance local_laws : ConsensusLaws local_consensus := {|
  lease_of := Local.view;
  cs_wf _ := True
|}.
Proof.
  - intros w w' _ H. split; [done|]. intros r. by apply local_view_ext.
  - intros r c now w _ _ _. destruct (local_claim_law r c now w) as (w' & ? & ?). by exists w'.
  - intros r o g now w _ _ _.
    destruct (local_activate_law r o g now w) as (w' & ? & ?). by exists w'.
  - intros r o now w _. destruct (local_heartbeat_law r o now w) as (w' & ? & ?). by exists w'.
  - intros r o w _. destruct (local_release_law r o w) as (w' & ? & ?). by exists w'.
  - intros r c now ev w _ _ _ _.
    destruct (local_steal_law r c now ev w) as (w' & ? & ?). by exists w'.
  - intros r s g obs now ev w _ _.
    destruct (local_recover_law r s g obs now ev w) as (w' & ? & ?). by exists w'.
  - intros r o w _. apply local_guard_law.
Defined.
