(* ===== verification/SqlConsensus.v ===== *)
(** The database-backed consensus strategy ([journal/src/SqlConsensus.ts]).

    The lease of a run is a row of [flows_consensus_leases]; each operation is
    one statement (or a few) inside [DurableWriter.write].  The strategy falls
    back on a legacy [flows_runs] row when a run has no lease row.  The file
    ends with the refinement: over rows that mirror the lease the SQL strategy
    returns what the contract says and moves the lease the way the contract
    says, so it is an instance of [ConsensusLaws] beside the in-memory one. *)

From S2P Require Export Consensus.

#[local] Open Scope me_scope.

Module Sql.
(** [write]: a failure that is not already a [ConsensusError] is wrapped with
    its cause kept. *)
Definition strategyError (cause : error) : error :=
  err_cause ConsensusError "persistence_failed" cause.

Definition write {A} (body : M A) : M A :=
  map_error (λ e, if is_class ConsensusError e then e else strategyError e) (World.write body).

(** [UPDATE ... SET set WHERE run_id = r AND cond RETURNING ...]. *)
Definition update (runId : string) (cond : LeaseRow → bool) (set : LeaseRow → LeaseRow)
    : M (option LeaseRow) :=
  row <- get_lease runId ;;
  match row with
  | Some l => if cond l then put_lease runId (set l) ;; ret (Some (set l)) else ret None
  | None => ret None
  end.

Definition set_claim (c : OwnerCols) (t : option Z) (l : LeaseRow) : LeaseRow :=
  MkLeaseRow (l_owner l) (l_grantedAtMs l) (l_heartbeatAtMs l) c t.
Definition clear_claim : LeaseRow → LeaseRow := set_claim null_cols None.

Definition hasLegacyRunsTable : M bool := gets (λ w, db_has_runs (w_db w)).

Definition legacyStaleOwner (runId : string) (owner : OwnerId) (nowMs : Z) : M bool :=
  present <- hasLegacyRunsTable ;;
  if negb present then ret false
  else
    row <- get_run runId ;;
    ret (match row with
         | Some row =>
             bool_decide (r_status row = Running) && cols_are (r_owner row) owner
             && col_lt (r_heartbeatAtMs row) (nowMs - staleAfterMs)
             && is_null (c_host (r_claim row))
         | None => false
         end).

Inductive LegacyClaim := LegacyMissing | LegacyStale | LegacyFresh.

Definition legacyClaimState (runId : string) (claimant : OwnerId) (grantedAtMs nowMs : Z)
    : M LegacyClaim :=
  present <- hasLegacyRunsTable ;;
  if negb present then ret LegacyMissing
  else
    row <- get_run runId ;;
    ret (match row with
         | Some row =>
             if cols_are (r_claim row) claimant && col_is (r_claimedAtMs row) grantedAtMs
             then if bool_decide (grantedAtMs < nowMs - staleAfterMs)%Z
                  then LegacyStale else LegacyFresh
             else LegacyMissing
         | None => LegacyMissing
         end).

Definition prune (runId : string) : M () :=
  row <- get_lease runId ;;
  match row with
  | Some l =>
      if is_null (c_host (l_owner l)) && is_null (c_host (l_claim l))
      then modify (set_db (upd_leases (delete runId)))
      else ret tt
  | None => ret tt
  end.

Definition claim (runId : string) (claimant : OwnerId) (nowMs : Z) : M LeaseClaimOutcome :=
  write (
    row <- get_lease runId ;;
    match row with
    | None =>
        put_lease runId
          (MkLeaseRow null_cols None None (owner_cols claimant) (Some nowMs)) ;;
        ret (LeaseClaimed nowMs)
    | Some l =>
        if is_null (c_host (l_claim l)) && is_null (c_host (l_owner l))
        then put_lease runId (set_claim (owner_cols claimant) (Some nowMs) l) ;;
             ret (LeaseClaimed nowMs)
        else ret (LeaseRejected
                    (if negb (is_null (c_host (l_claim l)))
                     then AlreadyClaimedReason else OwnerHeld))
    end).

Definition activate (runId : string) (owner : OwnerId) (grantedAtMs nowMs : Z)
    : M LeaseActivateOutcome :=
  write (
    rows <- update runId
      (λ l, cols_are (l_claim l) owner && col_is (l_claimedAtMs l) grantedAtMs)
      (λ l, MkLeaseRow (owner_cols owner) (Some grantedAtMs) (Some nowMs) null_cols None) ;;
    ret (match rows with Some _ => LeaseActivated | None => LeaseActivateLost end)).

Definition heartbeat (runId : string) (owner : OwnerId) (nowMs : Z) : M LeaseHeartbeatOutcome :=
  write (
    rows <- update runId
      (λ l, cols_are (l_owner l) owner)
      (λ l, MkLeaseRow (l_owner l) (l_grantedAtMs l) (col_max (l_heartbeatAtMs l) nowMs)
                       (l_claim l) (l_claimedAtMs l)) ;;
    ret (match rows with
         | Some row => LeaseRenewed (default 0 (l_heartbeatAtMs row))%Z (* [Number(null)] is 0 *)
         | None => LeaseHeartbeatLost
         end)).

Definition release (runId : string) (owner : OwnerId) : M () :=
  write (
    update runId (λ l, cols_are (l_claim l) owner) clear_claim ;;
    update runId (λ l, cols_are (l_owner l) owner)
      (λ l, MkLeaseRow null_cols None None (l_claim l) (l_claimedAtMs l)) ;;
    prune runId).

Definition steal (runId : string) (claimant : OwnerId) (nowMs : Z) (evidence : LivenessEvidence)
    : M LeaseClaimOutcome :=
  if negb (matchesEvidence (expectedOwner evidence) claimant nowMs evidence)
  then ret (LeaseRejected EvidenceInvalid)
  else write (
    rows <- update runId
      (λ l, cols_are (l_owner l) (expectedOwner evidence)
            && col_lt (l_heartbeatAtMs l) (nowMs - staleAfterMs)
            && is_null (c_host (l_claim l)))
      (set_claim (owner_cols claimant) (Some nowMs)) ;;
    match rows with
    | Some _ => ret (LeaseClaimed nowMs)
    | None =>
        lease <- get_lease runId ;;
        match lease with
        | Some l =>
            if negb (is_null (c_host (l_claim l))) then ret (LeaseRejected AlreadyClaimedReason)
            else if negb (cols_are (l_owner l) (expectedOwner evidence))
            then ret (LeaseRejected EvidenceInvalid)
            else ret (LeaseRejected OwnerLive)
        | None =>
            legacy <- legacyStaleOwner runId (expectedOwner evidence) nowMs ;;
            if negb legacy then ret (LeaseRejected EvidenceInvalid)
            else
              put_lease runId
                (MkLeaseRow null_cols None None (owner_cols claimant) (Some nowMs)) ;;
              ret (LeaseClaimed nowMs)
        end
    end).

Definition recover (runId : string) (staleClaimant : OwnerId) (grantedAtMs : Z)
    (observer : OwnerId) (nowMs : Z) (evidence : LivenessEvidence) : M LeaseRecoverOutcome :=
  if negb (matchesEvidence staleClaimant observer nowMs evidence)
  then ret (LeaseRecoverRejected EvidenceInvalid)
  else write (
    rows <- update runId
      (λ l, cols_are (l_claim l) staleClaimant && col_is (l_claimedAtMs l) grantedAtMs
            && col_lt (l_claimedAtMs l) (nowMs - staleAfterMs))
      clear_claim ;;
    match rows with
    | Some _ => prune runId ;; ret LeaseRecovered
    | None =>
        lease <- get_lease runId ;;
        match lease with
        | None =>
            legacy <- legacyClaimState runId staleClaimant grantedAtMs nowMs ;;
            ret (match legacy with
                 | LegacyStale => LeaseRecovered
                 | LegacyFresh => LeaseRecoverRejected ClaimFreshReason
                 | LegacyMissing => LeaseRecoverRejected ClaimChangedReason
                 end)
        | Some l =>
            ret (if cols_are (l_claim l) staleClaimant && col_is (l_claimedAtMs l) grantedAtMs
                 then LeaseRecoverRejected ClaimFreshReason
                 else LeaseRecoverRejected ClaimChangedReason)
        end
    end).

Definition guard (runId : string) (owner : OwnerId) : M () :=
  write (
    row <- get_lease runId ;;
    match row with
    | Some l => if cols_are (l_owner l) owner then ret tt else fail fenceLost
    | None => fail fenceLost
    end).
End Sql.

#[export] Instance sql_consensus : Consensus := {|
  cs_claim := Sql.claim;
  cs_activate := Sql.activate;
  cs_heartbeat := Sql.heartbeat;
  cs_release := Sql.release;
  cs_steal := Sql.steal;
  cs_recover := Sql.recover;
  cs_guard := Sql.guard
|}.

(** ** Rows mirror leases *)

Definition owner_of_cols (c : OwnerCols) : option OwnerId :=
  match c with
  | MkOwnerCols (Some h) (Some p) (Some n) => Some (MkOwnerId h p n)
  | _ => None
  end.

Lemma owner_of_owner_cols o : owner_of_cols (owner_cols o) = Some o.
Proof. by destruct o. Qed.

Definition row_of_lease (l : LocalLease) : LeaseRow :=
  MkLeaseRow
    (match ll_owner l with Some (o, _, _) => owner_cols o | None => null_cols end)
    ((λ o, o.1.2) <$> ll_owner l)
    (snd <$> ll_owner l)
    (match ll_claim l with Some (c, _) => owner_cols c | None => null_cols end)
    (snd <$> ll_claim l).

Definition lease_of_row (row : LeaseRow) : LocalLease :=
  MkLocalLease
    (match owner_of_cols (l_owner row), l_grantedAtMs row, l_heartbeatAtMs row with
     | Some o, Some g, Some h => Some (o, g, h)
     | _, _, _ => None
     end)
    (match owner_of_cols (l_claim row), l_claimedAtMs row with
     | Some c, Some t => Some (c, t)
     | _, _ => None
     end).

Lemma lease_of_row_of_lease l : lease_of_row (row_of_lease l) = l.
Proof.
  by destruct l as [[[[[] g] h]|] [[[] t]|]].
Qed.

Definition sql_view (w : World) (r : string) : LocalLease :=
  default Spec.none (lease_of_row <$> db_leases (w_db w) !! r).

(** Every lease row passes its CHECK constraints and has its owner columns, its
    stamps and its claim columns null together. *)
Definition sql_wf (w : World) : Prop :=
  ∀ r row, db_leases (w_db w) !! r = Some row →
    check_lease r row = true ∧ row = row_of_lease (lease_of_row row).

Definition put_lease_world (r : string) (row : LeaseRow) (w : World) : World :=
  set_db (upd_leases (<[r := row]>)) w.

Lemma put_lease_ok r row w :
  check_lease r row = true → put_lease r row w = (inr tt, put_lease_world r row w).
Proof. unfold put_lease. by intros ->. Qed.

Lemma put_lease_as r row l w :
  row = row_of_lease l → check_lease r (row_of_lease l) = true →
  put_lease r row w = (inr tt, put_lease_world r (row_of_lease l) w).
Proof. intros ->. apply put_lease_ok. Qed.

Section sql_laws.
Implicit Types (w : World) (r : string) (l : LocalLease).

Lemma sql_view_some w r l :
  db_leases (w_db w) !! r = Some (row_of_lease l) → sql_view w r = l.
Proof. unfold sql_view. intros ->. simpl. apply lease_of_row_of_lease. Qed.

Lemma sql_view_none w r : db_leases (w_db w) !! r = None → sql_view w r = Spec.none.
Proof. unfold sql_view. by intros ->. Qed.

Lemma sql_lookup w r row :
  sql_wf w → db_leases (w_db w) !! r = Some row →
  ∃ l, row = row_of_lease l ∧ sql_view w r = l ∧ check_lease r (row_of_lease l) = true.
Proof.
  intros Hwf Hr. destruct (Hwf r row Hr) as [Hc Hrow]. exists (lease_of_row row).
  rewrite <- Hrow. split_and!; [done| |done]. apply sql_view_some. by rewrite <- Hrow.
Qed.

(** Writing the row of a lease makes it the lease shown, and only there. *)
Lemma sql_step_put w r l :
  sql_wf w → check_lease r (row_of_lease l) = true →
  sql_wf (put_lease_world r (row_of_lease l) w) ∧
  lease_step sql_view w (put_lease_world r (row_of_lease l) w) r l.
Proof.
  intros Hwf Hc. split.
  - intros r' row'. unfold put_lease_world; simpl. rewrite lookup_insert.
    case_decide; [intros [= <-]; subst; by rewrite lease_of_row_of_lease|]. apply Hwf.
  - repeat split; unfold put_lease_world, sql_view; simpl.
    + rewrite lookup_insert_eq. simpl. apply lease_of_row_of_lease.
    + intros r' Hr'. by rewrite lookup_insert_ne.
Qed.

Lemma sql_step_delete w r :
  sql_wf w →
  sql_wf (set_db (upd_leases (delete r)) w) ∧
  lease_step sql_view w (set_db (upd_leases (delete r)) w) r Spec.none.
Proof.
  intros Hwf. split.
  - intros r' row'. simpl. rewrite lookup_delete. case_decide; [done|]. apply Hwf.
  - repeat split; unfold sql_view; simpl.
    + by rewrite lookup_delete_eq.
    + intros r' Hr'. by rewrite lookup_delete_ne.
Qed.

Lemma sql_step_refl w r l : sql_wf w → sql_view w r = l →
  sql_wf w ∧ lease_step sql_view w w r l.
Proof. intros Hwf <-. split; [done|]. by split_and!. Qed.

Lemma sql_step_trans w1 w2 w3 r l1 l2 :
  lease_step sql_view w1 w2 r l1 →
  sql_wf w3 ∧ lease_step sql_view w2 w3 r l2 → sql_wf w3 ∧ lease_step sql_view w1 w3 r l2.
Proof. intros H1 [Hwf H2]. split; [done|]. by eapply lease_step_trans. Qed.

(** Pruning removes an empty row and is otherwise invisible. *)
Lemma sql_prune w r l :
  sql_wf w → sql_view w r = l →
  ∃ w', Sql.prune r w = (inr tt, w') ∧ sql_wf w' ∧ lease_step sql_view w w' r l.
Proof.
  intros Hwf Hl. unfold Sql.prune, get_lease. run.
  destruct (db_leases (w_db w) !! r) as [row|] eqn:Hr.
  - destruct (sql_lookup w r row Hwf Hr) as (l' & -> & Hl' & _). simplify_eq.
    destruct (sql_view w r) as [[[[o g] h]|] [[c t]|]] eqn:Hv; simpl;
      (eexists; split; [reflexivity|]); try by apply sql_step_refl.
    by apply sql_step_delete.
  - eexists; split; [reflexivity|]. by apply sql_step_refl.
Qed.
End sql_laws.

(** ** The SQL strategy refines the contract *)

(** Case analysis on the lease row of a run, which mirrors a lease [l]. *)
Ltac sql_cases w r Hwf l :=
  let row := fresh "row" in
  let Hr := fresh "Hr" in
  let Hv := fresh "Hv" in
  let Hc := fresh "Hc" in
  destruct (db_leases (w_db w) !! r) as [row|] eqn:Hr;
  [ destruct (sql_lookup w r row Hwf Hr) as (l & -> & Hv & Hc); rewrite Hv
  | pose proof (sql_view_none w r Hr) as Hv; rewrite Hv ].

(** Decides the column tests of a statement. *)
Ltac col_cases :=
  unfold col_is, col_lt in *;
  repeat (rewrite ?cols_are_owner in *; simpl in *; case_bool_decide; simplify_eq/=);
  try done; try lia.

Ltac sql_done Hwf :=
  eexists; split; [reflexivity|];
  first [ by apply sql_step_refl | by apply sql_step_put ].

Lemma check_lease_intro r l :
  nonempty r = true →
  (∀ o g h, ll_owner l = Some (o, g, h) → (0 ≤ g ∧ 0 ≤ h)%Z) →
  (∀ c t, ll_claim l = Some (c, t) → (0 ≤ t)%Z) →
  check_lease r (row_of_lease l) = true.
Proof.
  intros Hr Ho Hcl. unfold check_lease. rewrite Hr.
  destruct l as [[[[o g] h]|] [[c t]|]]; simpl in *;
    repeat match goal with
    | H : ∀ o g h, Some _ = Some _ → _ |- _ => specialize (H _ _ _ eq_refl)
    | H : ∀ c t, Some _ = Some _ → _ |- _ => specialize (H _ _ eq_refl)
    end; rewrite ?bool_decide_true by lia; done.
Qed.

Lemma check_lease_elim r l :
  check_lease r (row_of_lease l) = true →
  nonempty r = true ∧
  (∀ o g h, ll_owner l = Some (o, g, h) → (0 ≤ g ∧ 0 ≤ h)%Z) ∧
  (∀ c t, ll_claim l = Some (c, t) → (0 ≤ t)%Z).
Proof.
  unfold check_lease. rewrite !andb_true_iff. intros [[[Hr Hg] Hh] Ht].
  destruct l as [[[[o g] h]|] [[c t]|]]; simpl in *; rewrite ?bool_decide_eq_true in *;
    naive_solver.
Qed.

(** Performs the write of a row that mirrors lease [l]. *)
Tactic Notation "sql_put" constr(l) "by" tactic(tac) :=
  match goal with
  | |- context [put_lease ?r _ _] =>
      let H := fresh "Hput" in
      assert (check_lease r (row_of_lease l) = true) as H
        by (apply check_lease_intro; tac);
      rewrite (put_lease_as _ _ l) by done; simpl
  end.

Lemma claim_mismatch (c o : OwnerId) (t g : Z) :
  ¬ (c = o ∧ t = g) → bool_decide (c = o) && bool_decide (Some t = Some g) = false.
Proof. intros H. repeat case_bool_decide; simplify_eq; try done. by destruct H. Qed.

Section sql_instance.
Implicit Types (w : World) (r : string).

Lemma sql_claim_law r c now w :
  sql_wf w → nonempty r = true → (0 ≤ now)%Z →
  ∃ w', Sql.claim r c now w = (inr (Spec.claim (sql_view w r) c now).1, w') ∧ sql_wf w' ∧
        lease_step sql_view w w' r (Spec.claim (sql_view w r) c now).2.
Proof.
  intros Hwf Hr Hnow.
  unfold Sql.claim, Sql.write, World.write, get_lease. run.
  sql_cases w r Hwf l.
  - destruct l as [[[[o g] h]|] [[c' t]|]]; simpl; [sql_done Hwf..|].
    sql_put (MkLocalLease None (Some (c, now))) by naive_solver. sql_done Hwf.
  - simpl. sql_put (MkLocalLease None (Some (c, now))) by naive_solver. sql_done Hwf.
Qed.

Lemma sql_activate_law r o g now w :
  sql_wf w → nonempty r = true → (0 ≤ now)%Z →
  ∃ w', Sql.activate r o g now w = (inr (Spec.activate (sql_view w r) o g now).1, w') ∧
        sql_wf w' ∧ lease_step sql_view w w' r (Spec.activate (sql_view w r) o g now).2.
Proof.
  intros Hwf Hr Hnow. unfold Sql.activate, Sql.write, World.write, Sql.update, get_lease. run.
  unfold Spec.activate. sql_cases w r Hwf l; [|sql_done Hwf].
  destruct l as [ow [[c t]|]]; simpl; [|by sql_done Hwf].
  rewrite cols_are_owner. unfold col_is.
  destruct (decide (c = o ∧ t = g)) as [[-> ->]|Hne].
  - rewrite !bool_decide_true by done. simpl.
    apply check_lease_elim in Hc as (_ & _ & Ht).
    sql_put (MkLocalLease (Some (o, g, now)) None) by naive_solver. sql_done Hwf.
  - rewrite (bool_decide_false (Some (c, t) = _)) by naive_solver.
    rewrite claim_mismatch by done. sql_done Hwf.
Qed.

Lemma sql_heartbeat_law r o now w :
  sql_wf w →
  ∃ w', Sql.heartbeat r o now w = (inr (Spec.heartbeat (sql_view w r) o now).1, w') ∧
        sql_wf w' ∧ lease_step sql_view w w' r (Spec.heartbeat (sql_view w r) o now).2.
Proof.
  intros Hwf. unfold Sql.heartbeat, Sql.write, World.write, Sql.update, get_lease. run.
  unfold Spec.heartbeat. sql_cases w r Hwf l; [|sql_done Hwf].
  destruct l as [[[[ow g] h]|] cl]; simpl; [|by sql_done Hwf].
  rewrite cols_are_owner. case_bool_decide; [subst ow|sql_done Hwf].
  apply check_lease_elim in Hc as (? & Ho & Ht). destruct (Ho o g h eq_refl).
  sql_put (MkLocalLease (Some (o, g, Z.max h now)) cl)
    by (first [done | intros; simplify_eq/=; lia]). sql_done Hwf.
Qed.

(** The two conditional updates of [release], on the lease. *)
Lemma sql_release_claim r o w :
  sql_wf w →
  ∃ rows w', Sql.update r (λ l, cols_are (l_claim l) o) Sql.clear_claim w = (inr rows, w') ∧
    sql_wf w' ∧
    lease_step sql_view w w' r
      (MkLocalLease (ll_owner (sql_view w r)) (ll_claim (Spec.release (sql_view w r) o))).
Proof.
  intros Hwf. unfold Sql.update, get_lease. run.
  sql_cases w r Hwf l; [|exists None; sql_done Hwf].
  unfold Spec.claim_id.
  destruct l as [ow [[c t]|]]; simpl; [|exists None; sql_done Hwf].
  rewrite cols_are_owner. repeat case_bool_decide; simplify_eq/=; [|exists None; sql_done Hwf].
  apply check_lease_elim in Hc as (? & ? & ?).
  sql_put (MkLocalLease ow None) by done. eexists _. sql_done Hwf.
Qed.

Lemma sql_release_owner r o w :
  sql_wf w →
  ∃ rows w', Sql.update r (λ l, cols_are (l_owner l) o)
      (λ l, MkLeaseRow null_cols None None (l_claim l) (l_claimedAtMs l)) w = (inr rows, w') ∧
    sql_wf w' ∧
    lease_step sql_view w w' r
      (MkLocalLease (ll_owner (Spec.release (sql_view w r) o)) (ll_claim (sql_view w r))).
Proof.
  intros Hwf. unfold Sql.update, get_lease. run.
  sql_cases w r Hwf l; [|exists None; sql_done Hwf].
  unfold Spec.owner_id.
  destruct l as [[[[ow g] h]|] cl]; simpl; [|exists None; sql_done Hwf].
  rewrite cols_are_owner. repeat case_bool_decide; simplify_eq/=; [|exists None; sql_done Hwf].
  apply check_lease_elim in Hc as (? & ? & ?).
  sql_put (MkLocalLease None cl) by done. eexists _. sql_done Hwf.
Qed.

Lemma sql_release_law r o w :
  sql_wf w →
  ∃ w', Sql.release r o w = (inr tt, w') ∧ sql_wf w' ∧
        lease_step sql_view w w' r (Spec.release (sql_view w r) o).
Proof.
  intros Hwf.
  destruct (sql_release_claim r o w Hwf) as (rows1 & w1 & H1 & Hwf1 & Hs1).
  destruct (sql_release_owner r o w1 Hwf1) as (rows2 & w2 & H2 & Hwf2 & Hs2).
  destruct (sql_prune w2 r _ Hwf2 (proj1 Hs2)) as (w3 & H3 & Hs3).
  exists w3. unfold Sql.release, Sql.write, map_error.
  rewrite (write_ok _ _ tt w3); [split; [done|]|].
  - pose proof (proj1 Hs1) as Hv1. rewrite Hv1 in *.
    eapply sql_step_trans; [exact Hs1|]. eapply sql_step_trans; [exact Hs2|exact Hs3].
  - unfold bind. by rewrite H1, H2.
Qed.

(** A run whose row mirrors an empty lease gives the legacy fallbacks nothing. *)
Lemma aligned_no_legacy_owner r o now w :
  aligned sql_view w r → sql_view w r = Spec.none →
  Sql.legacyStaleOwner r o now w = (inr false, w).
Proof.
  intros Hal Hv. unfold Sql.legacyStaleOwner, Sql.hasLegacyRunsTable, get_run. run.
  destruct (db_has_runs _); [|done]. simpl.
  destruct (db_runs (w_db w) !! r) as [row|] eqn:Hr; [|done]. do 2 f_equal.
  destruct (cols_are (r_owner row) o) eqn:Hc; [|by rewrite andb_false_r].
  apply cols_are_spec in Hc. destruct (Hal row o Hr) as [Ho _].
  specialize (Ho Hc). by rewrite Hv in Ho.
Qed.

Lemma aligned_no_legacy_claim r o g now w :
  aligned sql_view w r → sql_view w r = Spec.none →
  Sql.legacyClaimState r o g now w = (inr Sql.LegacyMissing, w).
Proof.
  intros Hal Hv. unfold Sql.legacyClaimState, Sql.hasLegacyRunsTable, get_run. run.
  destruct (db_has_runs _); [|done]. simpl.
  destruct (db_runs (w_db w) !! r) as [row|] eqn:Hr; [|done]. do 2 f_equal.
  destruct (cols_are (r_claim row) o && col_is (r_claimedAtMs row) g) eqn:Hc; [|done].
  apply andb_true_iff in Hc as [Hc Ht]. apply cols_are_spec in Hc.
  unfold col_is in Ht. apply bool_decide_eq_true in Ht.
  destruct (Hal row o Hr) as [_ Hcl]. specialize (Hcl g Hc Ht). by rewrite Hv in Hcl.
Qed.

Lemma sql_steal_law r c now ev w :
  sql_wf w → aligned sql_view w r → nonempty r = true → (0 ≤ now)%Z →
  ∃ w', Sql.steal r c now ev w = (inr (Spec.steal (sql_view w r) c now ev).1, w') ∧
        sql_wf w' ∧ lease_step sql_view w w' r (Spec.steal (sql_view w r) c now ev).2.
Proof.
  intros Hwf Hal Hr Hnow. unfold Sql.steal, Spec.steal.
  destruct (matchesEvidence _ _ _ _); [|sql_done Hwf].
  pose proof (aligned_no_legacy_owner r (expectedOwner ev) now w Hal) as Hlegacy.
  unfold Sql.write, World.write, Sql.update, get_lease. run.
  sql_cases w r Hwf l; [|rewrite Hr0; simpl; rewrite (Hlegacy Hv); sql_done Hwf].
  apply check_lease_elim in Hc as (_ & Ho & _).
  destruct l as [[[[ow g] h]|] [[c' t]|]]; simpl; rewrite ?cols_are_owner, ?andb_false_r; simpl;
    rewrite ?Hr0; simpl; rewrite ?cols_are_owner; try sql_done Hwf.
  case_bool_decide; simpl;
    [|rewrite Hr0; simpl; rewrite cols_are_owner, bool_decide_false by done; sql_done Hwf].
  destruct (decide (h < now - staleAfterMs)%Z).
  - rewrite bool_decide_true, (bool_decide_false (_ ≤ _)%Z) by lia. simpl.
    sql_put (MkLocalLease (Some (ow, g, h)) (Some (c, now))) by naive_solver. sql_done Hwf.
  - rewrite bool_decide_false, (bool_decide_true (_ ≤ _)%Z) by lia. simpl. rewrite Hr0. simpl.
    rewrite cols_are_owner, bool_decide_true by done. sql_done Hwf.
Qed.

(** The write of a matching claim, cleared and pruned. *)
Lemma sql_recover_clear r l w :
  sql_wf w → check_lease r (row_of_lease l) = true →
  ∃ w', (put_lease r (Sql.clear_claim (row_of_lease l)) ;; Sql.prune r) w = (inr tt, w') ∧
        sql_wf w' ∧ lease_step sql_view w w' r (MkLocalLease (ll_owner l) None).
Proof.
  intros Hwf Hc. unfold bind. apply check_lease_elim in Hc as (? & ? & ?).
  sql_put (MkLocalLease (ll_owner l) None) by done.
  destruct (sql_step_put w r _ Hwf Hput) as [Hwf1 Hs1].
  destruct (sql_prune _ r _ Hwf1 (proj1 Hs1)) as (w2 & H2 & Hs2).
  exists w2. split; [done|]. by eapply sql_step_trans.
Qed.

Lemma sql_recover_law r s g obs now ev w :
  sql_wf w → aligned sql_view w r →
  ∃ w', Sql.recover r s g obs now ev w
        = (inr (Spec.recover (sql_view w r) s g obs now ev).1, w') ∧
        sql_wf w' ∧ lease_step sql_view w w' r (Spec.recover (sql_view w r) s g obs now ev).2.
Proof.
  intros Hwf Hal. unfold Sql.recover, Spec.recover.
  destruct (matchesEvidence _ _ _ _); [|sql_done Hwf]. simpl.
  pose proof (aligned_no_legacy_claim r s g now w Hal) as Hlegacy.
  unfold Sql.write, World.write, Sql.update, get_lease. run.
  sql_cases w r Hwf l; [|rewrite Hr; simpl; rewrite (Hlegacy Hv); sql_done Hwf].
  destruct (sql_recover_clear r l w Hwf Hc) as (w1 & H1 & Hs1). revert H1. unfold bind.
  destruct l as [ow [[c t]|]]; simpl; [|rewrite Hr; simpl; sql_done Hwf].
  rewrite cols_are_owner. unfold col_is.
  destruct (decide (c = s ∧ t = g)) as [[-> ->]|Hne].
  - rewrite (bool_decide_true (Some (s, g) = _)), !bool_decide_true by done. simpl.
    destruct (decide (g < now - staleAfterMs)%Z).
    + rewrite bool_decide_true, (bool_decide_false (_ ≤ _)%Z) by lia. simpl.
      destruct (put_lease _ _ _) as [[e|[]] w0]; [done|]. simpl. intros ->. by exists w1.
    + rewrite bool_decide_false, (bool_decide_true (_ ≤ _)%Z) by lia. simpl. intros _.
      rewrite Hr. simpl. rewrite cols_are_owner, !bool_decide_true by done. sql_done Hwf.
  - rewrite (bool_decide_false (Some (c, t) = _)) by naive_solver. simpl. intros _.
    assert (bool_decide (c = s) && bool_decide (Some t = Some g) = false) as Hb.
    { by apply claim_mismatch. }
    rewrite Hb. simpl. rewrite Hr. simpl. unfold col_is in *.
    rewrite cols_are_owner, Hb. sql_done Hwf.
Qed.

Lemma sql_guard_law r o w :
  sql_wf w →
  Sql.guard r o w = (if Spec.guard (sql_view w r) o then (inr tt, w) else (inl fenceLost, w)).
Proof.
  intros Hwf. unfold Sql.guard, Sql.write, World.write, Spec.guard, Spec.owner_id, get_lease.
  assert (set_db (λ _, w_db w) w = w) as Hw by by destruct w. run.
  sql_cases w r Hwf l; simpl; [|by rewrite Hw].
  destruct l as [[[[ow g] h]|] cl]; simpl; [|by rewrite Hw].
  rewrite cols_are_owner. repeat case_bool_decide; simplify_eq/=; [done|by rewrite Hw].
Qed.
End sql_instance.

#[export, refine] Instance sql_laws : ConsensusLaws sql_consensus := {|
  lease_of := sql_view;
  cs_wf := sql_wf
|}.
Proof.
  - intros w w' H _. unfold sql_wf, sql_view. by rewrite H.
  - apply sql_claim_law.
  - apply sql_activate_law.
  - apply sql_heartbeat_law.
  - apply sql_release_law.
  - apply sql_steal_law.
  - apply sql_recover_law.
  - intros r o w. apply sql_guard_law.
Defined.

(** ** The SQL strategy keeps its leases in the database alone *)

Lemma clock_set_db t f w : clock_is t w → clock_is t (set_db f w).
Proof. done. Qed.

Lemma preserves_clock_write {A} t (body : M A) :
  preserves (clock_is t) body → preserves (clock_is t) (World.write body).
Proof. intros H. by apply preserves_write. Qed.

Lemma preserves_clock_modify t f : preserves (clock_is t) (modify (set_db f) : M ()).
Proof. apply preserves_modify. intros w. apply clock_set_db. Qed.

#[export] Hint Resolve preserves_clock_write preserves_clock_modify : preserve.

Lemma sql_clock t : cs_preserves sql_consensus (clock_is t).
Proof.
  split; intros; simpl;
    unfold Sql.claim, Sql.activate, Sql.heartbeat, Sql.release, Sql.steal, Sql.recover, Sql.guard,
      Sql.write, Sql.update, Sql.prune, Sql.legacyStaleOwner, Sql.legacyClaimState,
      Sql.hasLegacyRunsTable, get_lease, get_run, put_lease, sql_fail;
    repeat first [progress solve_preserves | apply preserves_clock_write].
Qed.

#[export, refine] Instance sql_transactional : Transactional sql_consensus := {|
  tr_clock := sql_clock
|}.
Proof. intros w w' H. simpl. unfold sql_wf, sql_view. by rewrite H. Defined.
