(* ===== verification/ConsensusProps.v ===== *)
(** What a consensus strategy guarantees over sequences of operations.

    [lease_op] is one call of the service; [perform] runs it through a strategy
    and [Spec_perform] through the contract.  The theorems: the SQL strategy
    meets the contract, the SQL and the in-memory strategy cannot be told apart,
    and a lease changes hands only by release or by a steal of a stale owner. *)

From S2P Require Export SqlConsensus.

#[local] Open Scope me_scope.

Inductive lease_op :=
| OpClaim (claimant : OwnerId) (nowMs : Z)
| OpActivate (owner : OwnerId) (grantedAtMs nowMs : Z)
| OpHeartbeat (owner : OwnerId) (nowMs : Z)
| OpRelease (owner : OwnerId)
| OpSteal (claimant : OwnerId) (nowMs : Z) (evidence : LivenessEvidence)
| OpRecover (stale : OwnerId) (grantedAtMs : Z) (observer : OwnerId) (nowMs : Z)
            (evidence : LivenessEvidence)
| OpGuard (owner : OwnerId).

Inductive lease_result :=
| ResClaim (o : LeaseClaimOutcome)
| ResActivate (o : LeaseActivateOutcome)
| ResHeartbeat (o : LeaseHeartbeatOutcome)
| ResRelease
| ResRecover (o : LeaseRecoverOutcome)
| ResGuard (held : bool).

(** Clock readings are not negative. *)
Definition op_time_ok (op : lease_op) : bool :=
  match op with
  | OpClaim _ now | OpActivate _ _ now | OpSteal _ now _ => bool_decide (0 ≤ now)%Z
  | _ => true
  end.

Definition perform (C : Consensus) (r : string) (op : lease_op) : M lease_result :=
  match op with
  | OpClaim c now => o <- cs_claim r c now ;; ret (ResClaim o)
  | OpActivate o g now => x <- cs_activate r o g now ;; ret (ResActivate x)
  | OpHeartbeat o now => x <- cs_heartbeat r o now ;; ret (ResHeartbeat x)
  | OpRelease o => cs_release r o ;; ret ResRelease
  | OpSteal c now ev => x <- cs_steal r c now ev ;; ret (ResClaim x)
  | OpRecover s g obs now ev => x <- cs_recover r s g obs now ev ;; ret (ResRecover x)
  | OpGuard o =>
      catch (cs_guard r o ;; ret (ResGuard true))
        (λ e, if bool_decide (error_code e = "fence_lost") then ret (ResGuard false) else fail e)
  end.

Definition Spec_perform (op : lease_op) (l : LocalLease) : lease_result * LocalLease :=
  match op with
  | OpClaim c now => (ResClaim (Spec.claim l c now).1, (Spec.claim l c now).2)
  | OpActivate o g now => (ResActivate (Spec.activate l o g now).1, (Spec.activate l o g now).2)
  | OpHeartbeat o now => (ResHeartbeat (Spec.heartbeat l o now).1, (Spec.heartbeat l o now).2)
  | OpRelease o => (ResRelease, Spec.release l o)
  | OpSteal c now ev => (ResClaim (Spec.steal l c now ev).1, (Spec.steal l c now ev).2)
  | OpRecover s g obs now ev =>
      (ResRecover (Spec.recover l s g obs now ev).1, (Spec.recover l s g obs now ev).2)
  | OpGuard o => (ResGuard (Spec.guard l o), l)
  end.

(** A sequence of operations on runs, each with its run. *)
Fixpoint Spec_trace (ops : list (string * lease_op)) (v : string → LocalLease)
    : list lease_result * (string → LocalLease) :=
  match ops with
  | [] => ([], v)
  | (r, op) :: ops =>
      let next := Spec_trace ops
        (λ r', if bool_decide (r' = r) then (Spec_perform op (v r)).2 else v r') in
      ((Spec_perform op (v r)).1 :: next.1, next.2)
  end.

Definition perform_all (C : Consensus) (ops : list (string * lease_op)) : M (list lease_result) :=
  for_each (λ op, perform C op.1 op.2) ops.

Definition ops_ok (ops : list (string * lease_op)) : bool :=
  forallb (λ op, nonempty op.1 && op_time_ok op.2) ops.

Section strategy.
Context {C : Consensus} {L : ConsensusLaws C}.

Lemma perform_law r op w :
  cs_wf w → aligned lease_of w r → nonempty r = true → op_time_ok op = true →
  ∃ w', perform C r op w = (inr (Spec_perform op (lease_of w r)).1, w') ∧ cs_wf w'
        ∧ lease_step lease_of w w' r (Spec_perform op (lease_of w r)).2.
Proof.
  intros Hwf Hal Hr Ht. destruct op; simpl in *; try apply bool_decide_eq_true in Ht.
  - destruct (law_claim r claimant nowMs w) as (w' & H & ? & ?); [done..|]. exists w'. by step_by H.
  - destruct (law_activate r owner grantedAtMs nowMs w) as (w' & H & ? & ?); [done..|].
    exists w'. by step_by H.
  - destruct (law_heartbeat r owner nowMs w) as (w' & H & ? & ?); [done..|]. exists w'. by step_by H.
  - destruct (law_release r owner w) as (w' & H & ? & ?); [done..|]. exists w'. by step_by H.
  - destruct (law_steal r claimant nowMs evidence w) as (w' & H & ? & ?); [done..|].
    exists w'. by step_by H.
  - destruct (law_recover r stale grantedAtMs observer nowMs evidence w) as (w' & H & ? & ?); [done..|].
    exists w'. by step_by H.
  - exists w. unfold catch, bind. rewrite law_guard by done. by destruct (Spec.guard _ _).
Qed.

(** With no legacy row the strategy's own table is all there is. *)
Lemma aligned_no_runs w r : db_runs (w_db w) = ∅ → aligned lease_of w r.
Proof. intros H row o. by rewrite H, lookup_empty. Qed.

Lemma lease_step_runs w w' r l :
  lease_step lease_of w w' r l → db_runs (w_db w') = db_runs (w_db w).
Proof. intros (_ & _ & []). done. Qed.

Lemma Spec_trace_ext ops v v' : (∀ r, v r = v' r) →
  (Spec_trace ops v).1 = (Spec_trace ops v').1 ∧ ∀ r, (Spec_trace ops v).2 r = (Spec_trace ops v').2 r.
Proof.
  revert v v'. induction ops as [|[r op] ops IH]; intros v v' Hv; simpl; [done|].
  rewrite (Hv r).
  destruct (IH (λ r', if bool_decide (r' = r) then (Spec_perform op (v' r)).2 else v r')
               (λ r', if bool_decide (r' = r) then (Spec_perform op (v' r)).2 else v' r'))
    as [-> H]; [|done].
  intros r'. by rewrite Hv.
Qed.

Lemma perform_all_law ops w :
  cs_wf w → db_runs (w_db w) = ∅ → ops_ok ops = true →
  ∃ w', perform_all C ops w = (inr (Spec_trace ops (lease_of w)).1, w')
        ∧ ∀ r, lease_of w' r = (Spec_trace ops (lease_of w)).2 r.
Proof.
  revert w. induction ops as [|[r op] ops IH]; intros w Hwf Hruns Hok; simpl; [by eexists|].
  simpl in Hok. apply andb_true_iff in Hok as [Hop Hok]. apply andb_true_iff in Hop as [Hr Ht].
  destruct (perform_law r op w) as (w1 & H1 & Hwf1 & Hstep); [done|by apply aligned_no_runs|done..|].
  destruct (IH w1) as (w2 & H2 & Hv2); [done|by rewrite (lease_step_runs _ _ _ _ Hstep)|done|].
  destruct (Spec_trace_ext ops (lease_of w1)
    (λ r', if bool_decide (r' = r) then (Spec_perform op (lease_of w r)).2 else lease_of w r'))
    as [E1 E2].
  { intros r'. destruct Hstep as (Hl & Ho & _). case_bool_decide; [by subst|by apply Ho]. }
  exists w2. unfold perform_all in *. simpl. step_by H1. step_by H2. rewrite E1. split; [done|].
  intros r'. by rewrite Hv2, E2.
Qed.
End strategy.

(** ** Who can take a lease *)

(** The grant of a steal: the evidence names the owner it replaces and was
    gathered at the time of the steal, and that owner has not renewed the lease
    for longer than the staleness cutoff. *)
Definition stale_steal (l : LocalLease) (o : OwnerId) (op : lease_op) : Prop :=
  ∃ c now ev g h, op = OpSteal c now ev ∧ ll_owner l = Some (o, g, h) ∧
    expectedOwner ev = o ∧ matchesEvidence o c now ev = true ∧ (h < now - heartbeatStaleAfter)%Z.

Lemma spec_owner_step op l o :
  Spec.owner_id l = Some o → Spec.owner_id (Spec_perform op l).2 ≠ Some o →
  op = OpRelease o ∨ ll_claim l ≠ None.
Proof.
  intros Ho Hn. destruct (ll_claim l) as [cl|] eqn:Hc; [by right|]. left.
  destruct l as [[[[o1 g1] h1]|] c1]; [|done]. simpl in *. injection Ho as ->. subst c1.
  destruct op as [| | |owner| | |]; simpl in *; try done;
    try (exfalso; apply Hn; unfold Spec.owner_id, Spec.heartbeat, Spec.steal, Spec.recover; simpl;
         by repeat (case_match; simpl)).
  destruct (decide (o = owner)) as [->|Hne]; [done|]. exfalso. apply Hn.
  unfold Spec.release, Spec.owner_id. simpl. by rewrite bool_decide_false by congruence.
Qed.

Lemma spec_claim_step op l o :
  Spec.owner_id l = Some o → ll_claim l = None → ll_claim (Spec_perform op l).2 ≠ None →
  stale_steal l o op.
Proof.
  intros Ho Hc Hn. destruct l as [[[[o1 g1] h1]|] c1]; [|done]. simpl in *.
  injection Ho as ->. subst c1.
  destruct op as [| | | |c now ev| |]; simpl in *; try done;
    try (exfalso; apply Hn; unfold Spec.release, Spec.heartbeat, Spec.recover; simpl;
         by repeat (case_match; simpl)).
  unfold Spec.steal in Hn. destruct (matchesEvidence _ _ _ _) eqn:Hm; simpl in Hn; [|done].
  destruct (bool_decide (o = expectedOwner ev)) eqn:He; simpl in Hn; [|done].
  apply bool_decide_eq_true in He as ->.
  destruct (bool_decide (now - staleAfterMs ≤ h1)%Z) eqn:Hs; simpl in Hn; [done|].
  apply bool_decide_eq_false in Hs. exists c, now, ev, g1, h1.
  unfold staleAfterMs in Hs. split_and!; try done. lia.
Qed.

Section takeover.
Context {C : Consensus} {L : ConsensusLaws C}.

Definition on_run (r : string) (ops : list lease_op) : list (string * lease_op) := pair r <$> ops.

(** A lease changes hands only by release or by a steal of a stale owner,
    under any lawful strategy.  If run [r] is held by [o] with no claim beside
    it and after a sequence of operations on [r], none of them a release by
    [o], it is not held by [o] any more, then one of them was a steal, made
    while [o] still held the lease, whose evidence names [o] and was taken at
    the time of the steal, of a lease [o] had not renewed for longer than the
    staleness cutoff. *)
Theorem takeover_needs_stale_owner r o ops w results w' :
  cs_wf w → db_runs (w_db w) = ∅ → ops_ok (on_run r ops) = true →
  Spec.owner_id (lease_of w r) = Some o → ll_claim (lease_of w r) = None →
  OpRelease o ∉ ops →
  perform_all C (on_run r ops) w = (inr results, w') →
  Spec.owner_id (lease_of w' r) ≠ Some o →
  ∃ before steal after wb res, ops = before ++ steal :: after
    ∧ perform_all C (on_run r before) w = (inr res, wb)
    ∧ stale_steal (lease_of wb r) o steal.
Proof.
  revert w results. induction ops as [|op ops IH];
    intros w results Hwf Hruns Hok Ho Hc Hrel H Hn; simpl in *.
  { apply ret_inr in H as [_ ->]. done. }
  apply andb_true_iff in Hok as [Hop Hok]. apply andb_true_iff in Hop as [Hr Ht].
  destruct (perform_law r op w) as (w1 & H1 & Hwf1 & Hl & Ho1 & Hfr);
    [done|by apply aligned_no_runs|done..|].
  unfold perform_all in H. simpl in H. erewrite bind_run in H; [|exact H1].
  apply bind_inr in H as (rs & w2 & H2 & H). apply ret_inr in H as [-> ->].
  apply not_elem_of_cons in Hrel as [Hne Hrel].
  destruct (decide (Spec.owner_id (lease_of w1 r) = Some o)) as [Ho'|Hlost].
  - destruct (ll_claim (lease_of w1 r)) as [cl|] eqn:Hcl.
    + exists [], op, ops, w, []. split_and!; [done..|]. apply spec_claim_step; [done..|].
      rewrite <- Hl, Hcl. done.
    + destruct (IH w1 rs) as (before & st & after & wb & res & -> & Hb & Hs); try done.
      { by rewrite (frame_runs _ _ Hfr). }
      exists (op :: before), st, after, wb, ((Spec_perform op (lease_of w r)).1 :: res).
      split_and!; [done| |done]. unfold perform_all in *. simpl. step_by H1. by step_by Hb.
  - rewrite Hl in Hlost. destruct (spec_owner_step _ _ _ Ho Hlost) as [->|Hcl]; done.
Qed.
End takeover.

(** The SQL strategy and the in-memory strategy cannot be told apart: over a
    database without legacy run rows, any sequence of claims, activations,
    heartbeats, releases, steals, recoveries and fence checks on any runs returns
    the same outcomes through both and leaves the same leases, when they start
    from the same leases. *)
Theorem strategies_agree ops w1 w2 :
  sql_wf w1 → db_runs (w_db w1) = ∅ → db_runs (w_db w2) = ∅ → ops_ok ops = true →
  (∀ r, sql_view w1 r = Local.view w2 r) →
  ∃ results w1' w2', perform_all sql_consensus ops w1 = (inr results, w1')
    ∧ perform_all local_consensus ops w2 = (inr results, w2')
    ∧ ∀ r, sql_view w1' r = Local.view w2' r.
Proof.
  intros Hwf H1 H2 Hok Hv.
  destruct (perform_all_law (L:=sql_laws) ops w1) as (w1' & E1 & V1); [done..|].
  destruct (perform_all_law (L:=local_laws) ops w2) as (w2' & E2 & V2); [done..|].
  destruct (Spec_trace_ext ops (sql_view w1) (Local.view w2) Hv) as [E V].
  eexists _, w1', w2'. split_and!; [exact E1| |].
  - rewrite E2. change (@lease_of _ local_laws w2) with (Local.view w2). by rewrite <- E.
  - intros r. change (@lease_of _ sql_laws w1' r) with (sql_view w1' r) in V1.
    change (sql_view w1' r) with (@lease_of _ sql_laws w1' r).
    change (Local.view w2' r) with (@lease_of _ local_laws w2' r). rewrite V1, V2. apply V.
Qed.

(** C34. The SQL strategy refines the lease contract. On a well-formed lease table
    whose run rows mirror the leases, every operation on a run with a nonempty id,
    naming no negative clock reading, succeeds with the outcome the contract gives
    for the run's lease, moves that lease as the contract says, and changes no other
    run's lease, no other table, neither the journal's process state nor the clock.
    *)
Theorem sql_strategy_refines_contract r op w :
  sql_wf w → aligned sql_view w r → nonempty r = true → op_time_ok op = true →
  ∃ w', perform sql_consensus r op w = (inr (Spec_perform op (sql_view w r)).1, w') ∧ sql_wf w'
        ∧ sql_view w' r = (Spec_perform op (sql_view w r)).2
        ∧ (∀ r', r' ≠ r → sql_view w' r' = sql_view w r') ∧ lease_frame w w'.
Proof. exact (perform_law (L:=sql_laws) r op w). Qed.

(** ** The hypotheses hold: concrete runs *)

Module LeaseDemo.
(** [bob] steals the lease [alice] last renewed at 5, and activates it. *)
Definition evidence : LivenessEvidence := MkEvidence Ex.alice 40000 CrossHostUnreachableStale.
Definition steal_ops : list lease_op :=
  [OpGuard Ex.alice; OpSteal Ex.bob 40000 evidence; OpActivate Ex.bob 40000 40001].
Definition after : World := (perform_all local_consensus (on_run "r" steal_ops) (Ex.owned Ex.alice)).2.
Definition results : list lease_result :=
  [ResGuard true; ResClaim (LeaseClaimed 40000); ResActivate LeaseActivated].

(** The same lease as a row of the SQL strategy. *)
Definition sql_owned : World :=
  set_db (upd_leases (<["r" := row_of_lease (MkLocalLease (Some (Ex.alice, 5, 5)%Z) None)]>))
    (initial_world 10).

Lemma sql_owned_wf : sql_wf sql_owned.
Proof.
  intros r row H. unfold sql_owned in H. simpl in H.
  apply lookup_insert_Some in H as [[<- <-]|[_ H]]; [done|by rewrite lookup_empty in H].
Qed.

Lemma same_view r : sql_view sql_owned r = Local.view (Ex.owned Ex.alice) r.
Proof.
  unfold sql_view, Local.view, sql_owned, Ex.owned. simpl.
  destruct (decide (r = "r")) as [->|Hr]; [done|].
  by rewrite !lookup_insert_ne, !lookup_empty by done.
Qed.
End LeaseDemo.

Lemma takeover_needs_stale_owner_witness :
  ∃ before steal after wb res, LeaseDemo.steal_ops = before ++ steal :: after
    ∧ perform_all local_consensus (on_run "r" before) (Ex.owned Ex.alice) = (inr res, wb)
    ∧ stale_steal (Local.view wb "r") Ex.alice steal.
Proof.
  apply (takeover_needs_stale_owner (L:=local_laws) "r" Ex.alice LeaseDemo.steal_ops (Ex.owned Ex.alice)
           LeaseDemo.results LeaseDemo.after).
  - exact I.
  - reflexivity.
  - reflexivity.
  - reflexivity.
  - reflexivity.
  - vm_compute. intros H. repeat (apply elem_of_cons in H as [H|H]; [done|]). by apply not_elem_of_nil in H.
  - vm_compute. reflexivity.
  - vm_compute. congruence.
Defined.

Lemma strategies_agree_witness :
  ∃ results w1' w2',
    perform_all sql_consensus (on_run "r" LeaseDemo.steal_ops) LeaseDemo.sql_owned = (inr results, w1')
    ∧ perform_all local_consensus (on_run "r" LeaseDemo.steal_ops) (Ex.owned Ex.alice)
      = (inr results, w2')
    ∧ ∀ r, sql_view w1' r = Local.view w2' r.
Proof.
  apply (strategies_agree (on_run "r" LeaseDemo.steal_ops) LeaseDemo.sql_owned (Ex.owned Ex.alice));
    [exact LeaseDemo.sql_owned_wf|reflexivity..|exact LeaseDemo.same_view].
Defined.

Lemma sql_strategy_refines_contract_witness :
  ∃ w', perform sql_consensus "r" (OpSteal Ex.bob 40000 LeaseDemo.evidence) LeaseDemo.sql_owned
        = (inr (ResClaim (LeaseClaimed 40000)), w') ∧ sql_wf w'
        ∧ sql_view w' "r" = MkLocalLease (Some (Ex.alice, 5, 5)%Z) (Some (Ex.bob, 40000%Z))
        ∧ (∀ r', r' ≠ "r" → sql_view w' r' = sql_view LeaseDemo.sql_owned r')
        ∧ lease_frame LeaseDemo.sql_owned w'.
Proof.
  apply (sql_strategy_refines_contract "r" (OpSteal Ex.bob 40000 LeaseDemo.evidence) LeaseDemo.sql_owned).
  - exact LeaseDemo.sql_owned_wf.
  - by apply (aligned_no_runs (L:=sql_laws)).
  - reflexivity.
  - reflexivity.
Defined.
