(* ===== verification/Redaction.v ===== *)
(** Payload redaction on the journal's write path ([journal/src/Redaction.ts]).

    A textual rule is a JavaScript regular expression with a replacement; the
    model takes the substitution it performs ([text.replace(pattern, ...)]) as
    the rule, and keeps the structural walk, the sensitive-key test and the
    verbatim namespaces as the source has them. *)

From S2P Require Export World.

Definition placeholder : string := "[REDACTED]".

(** [String.prototype.toLowerCase] on the ASCII range. *)
Definition lower_ascii (c : ascii) : ascii :=
  let n := N_of_ascii c in
  if bool_decide (65 ≤ n ≤ 90)%N then ascii_of_N (n + 32) else c.

Fixpoint string_map (f : ascii → ascii) (s : string) : string :=
  match s with EmptyString => EmptyString | String c s => String (f c) (string_map f s) end.
Fixpoint string_filter (p : ascii → bool) (s : string) : string :=
  match s with
  | EmptyString => EmptyString
  | String c s => if p c then String c (string_filter p s) else string_filter p s
  end.

Definition toLowerCase : string → string := string_map lower_ascii.

(** [/[a-z0-9]/]. *)
Definition is_lower_alnum (c : ascii) : bool :=
  let n := N_of_ascii c in
  bool_decide (97 ≤ n ≤ 122)%N || bool_decide (48 ≤ n ≤ 57)%N.

(** [String.prototype.endsWith]. *)
Fixpoint ends_with (suffix s : string) : bool :=
  bool_decide (s = suffix)
  || match s with EmptyString => false | String _ s => ends_with suffix s end.

Definition sensitiveKeySuffixes : list string :=
  ["authorization"; "cookie"; "apikey"; "token"; "password"; "secret"].

Definition isSensitiveKey (key : string) : bool :=
  let canonical := string_filter is_lower_alnum (toLowerCase key) in
  existsb (λ suffix, ends_with suffix canonical) sensitiveKeySuffixes.

(** A rule is the substitution its pattern and replacement perform. *)
Definition Rule : Type := string → string.

Definition redactString (value : string) (rules : list Rule) : string :=
  fold_left (λ text rule, rule text) rules value.

Fixpoint redact (rules : list Rule) (node : json) : json :=
  match node with
  | JStr s => JStr (redactString s rules)
  | JArr l => JArr (List.map (redact rules) l)
  | JObj fields =>
      JObj (List.map (λ kv, (kv.1, if isSensitiveKey kv.1 then JStr placeholder
                                   else redact rules kv.2)) fields)
  | _ => node
  end.

Definition verbatimNamespaces : list string :=
  ["flows.cache."; "flows.engine.deferred-completed"; "flows.engine.clock-scheduled";
   "flows.engine.clock-completed"; "flows.engine.deferred-snapshot";
   "flows.engine.clock-snapshot"; "flows.run."; "flows.attempt."].

Definition isVerbatimEventType (eventType : string) : bool :=
  existsb (λ namespace, starts_with namespace eventType) verbatimNamespaces.

Definition redactJsonString `{JsonText} (text : string) (redactor : json → json) : string :=
  match parse text with
  | None => text
  | Some v => stringify (redactor v)
  end.

(** ** What redaction guarantees *)

(** No sensitive field of the value holds anything but the placeholder. *)
Inductive scrubbed_json : json → Prop :=
| scrubbed_null : scrubbed_json JNull
| scrubbed_bool b : scrubbed_json (JBool b)
| scrubbed_num n : scrubbed_json (JNum n)
| scrubbed_str s : scrubbed_json (JStr s)
| scrubbed_arr l : (∀ v, v ∈ l → scrubbed_json v) → scrubbed_json (JArr l)
| scrubbed_obj fs :
    (∀ k v, (k, v) ∈ fs → isSensitiveKey k = true → v = JStr placeholder) →
    (∀ k v, (k, v) ∈ fs → isSensitiveKey k = false → scrubbed_json v) →
    scrubbed_json (JObj fs).

Fixpoint redact_scrubbed_fix (rules : list Rule) (v : json) : scrubbed_json (redact rules v).
Proof.
  destruct v as [|b|n|s|l|fs]; simpl; constructor.
  - intros v Hv. induction l as [|x l IH]; simpl in Hv; [by apply not_elem_of_nil in Hv|].
    apply elem_of_cons in Hv as [->|Hv]; [apply redact_scrubbed_fix|by apply IH].
  - intros k v Hv Hk. induction fs as [|[k' x] fs IH]; simpl in Hv;
      [by apply not_elem_of_nil in Hv|].
    apply elem_of_cons in Hv as [Hv|Hv]; [|by apply IH]. simplify_eq. by rewrite Hk.
  - intros k v Hv Hk. induction fs as [|[k' x] fs IH]; simpl in Hv;
      [by apply not_elem_of_nil in Hv|].
    apply elem_of_cons in Hv as [Hv|Hv]; [|by apply IH]. simplify_eq.
    rewrite Hk. apply redact_scrubbed_fix.
Qed.

(** A value none of whose strings a rule changes and none of whose fields is
    sensitive is stored as it is. *)
Fixpoint plain (rules : list Rule) (v : json) : bool :=
  match v with
  | JStr s => bool_decide (redactString s rules = s)
  | JArr l => forallb (plain rules) l
  | JObj fs => forallb (λ kv, negb (isSensitiveKey kv.1) && plain rules kv.2) fs
  | _ => true
  end.

Fixpoint redact_plain_fix (rules : list Rule) (v : json) :
  plain rules v = true → redact rules v = v.
Proof.
  destruct v as [|b|n|s|l|fs]; simpl; try done.
  - intros Hs%bool_decide_eq_true. by f_equal.
  - intros Hl. f_equal. induction l as [|x l IH]; simpl in *; [done|].
    apply andb_true_iff in Hl as [Hx Hl]. by rewrite redact_plain_fix, IH.
  - intros Hfs. f_equal. induction fs as [|[k x] fs IH]; simpl in *; [done|].
    apply andb_true_iff in Hfs as [Hx Hfs]. apply andb_true_iff in Hx as [Hk Hx].
    apply negb_true_iff in Hk. by rewrite Hk, redact_plain_fix, IH.
Qed.

(** Redaction is a fixed point when every rule leaves redacted text and the
    placeholder alone. *)
Fixpoint redact_idempotent_fix (rules : list Rule)
    (Hrules : ∀ s, redactString (redactString s rules) rules = redactString s rules)
    (v : json) : redact rules (redact rules v) = redact rules v.
Proof.
  destruct v as [|b|n|s|l|fs]; simpl; try done.
  - by rewrite Hrules.
  - f_equal. induction l as [|x l IH]; simpl; [done|].
    by rewrite redact_idempotent_fix, IH by done.
  - f_equal. induction fs as [|[k x] fs IH]; simpl; [done|]. rewrite IH. f_equal.
    destruct (isSensitiveKey k); [done|]. by rewrite redact_idempotent_fix.
Qed.
