(* ===== verification/Journal.v ===== *)
(** The SQL journal: identities, durable appends, reads, checkpoints and
    compaction ([journal/src/SqlJournal.ts], [JournalEvent.ts]).

    The operations run over [World]: the event and checkpoint tables, the
    process's allocation floors and source-event index, and the settlement list
    of an open [transact].  The queued (lossy) channel is
    not modelled. *)

From S2P Require Export Consensus Redaction.

#[local] Open Scope me_scope.

(** ** Inputs, options, errors *)

Record Input := MkInput {
  in_runId : string;
  in_sourceId : string;
  in_sourceSeq : option Z;
  in_eventType : string;
  in_payload : json;
  in_meta : option json
}.

Inductive OverflowPolicy := Reject | DropNewest | DropOldest.

#[export] Instance OverflowPolicy_eq_dec : EqDecision OverflowPolicy.
Proof. solve_decision. Defined.

Record SqlJournalOptions := MkSqlJournalOptions {
  o_capacity : Z;
  o_overflow : OverflowPolicy;
  o_batchSize : option Z;
  o_sourceEventCache : option Z;
  o_redact : option (json → json);
  o_entryThreshold : option Z (* of the compaction policy *)
}.

Record ValidatedOptions := MkValidatedOptions {
  v_batchSize : Z;
  v_sourceEventCache : Z;
  v_redact : json → json
}.

Definition defaultSourceEventCache : Z := 4096.

Definition jerror (code : string) : error := err JournalError code.
Definition jerror_cause (code : string) (cause : error) : error := err_cause JournalError code cause.
Definition jerror_at (code : string) (checkpointSeq : Z) : error :=
  MkError JournalError code (Some checkpointSeq) None.

Definition isJournalError (e : error) : bool := is_class JournalError e.

Definition validateOptions (defaultRedact : json → json) (o : SqlJournalOptions)
    : error + ValidatedOptions :=
  if negb (is_safe_integer (o_capacity o)) || bool_decide (o_capacity o ≤ 0)%Z
  then inl (jerror "invalid_event")
  else
    let batchSize := default (Z.min (o_capacity o) 64) (o_batchSize o) in
    if negb (is_safe_integer batchSize) || bool_decide (batchSize ≤ 0)%Z
    then inl (jerror "invalid_event")
    else
      let cache := default defaultSourceEventCache (o_sourceEventCache o) in
      if negb (is_safe_integer cache) || bool_decide (cache ≤ 0)%Z
      then inl (jerror "invalid_event")
      else
        if match o_entryThreshold o with
           | Some t => negb (is_safe_integer t) || bool_decide (t ≤ 0)%Z
           | None => false
           end
        then inl (jerror "invalid_event")
        else inr (MkValidatedOptions batchSize cache (default defaultRedact (o_redact o))).

(** ** Identities *)

Definition makeEventId (runId sourceId : string) (sourceSeq : Z) : string :=
  "flows:event:" +:+ len_prefix runId +:+ len_prefix sourceId +:+ pretty sourceSeq.

Definition sourceKey (runId sourceId : string) : string :=
  len_prefix runId +:+ len_prefix sourceId.

Definition sourceEventKey (runId sourceId : string) (sourceSeq : Z) : string :=
  sourceKey runId sourceId +:+ ":" +:+ pretty sourceSeq.

(** ** The insertion-ordered source-event index *)

Definition map_delete (key : string) (m : list (string * SourceEvent)) :=
  List.filter (λ kv, negb (bool_decide (kv.1 = key))) m.

(** [Map.set] on a key that is not present appends. *)
Definition map_append (key : string) (ev : SourceEvent) (m : list (string * SourceEvent)) :=
  m ++ [(key, ev)].

(** Deletes the first committed entry other than [identity]. *)
Fixpoint evict_first (identity : string) (m : list (string * SourceEvent)) :=
  match m with
  | [] => []
  | (candidate, retained) :: rest =>
      if negb (bool_decide (se_status retained = EvCommitted)) || bool_decide (candidate = identity)
      then (candidate, retained) :: evict_first identity rest
      else rest
  end.

Definition retain_map (bound : Z) (identity : string) (ev : SourceEvent)
    (m : list (string * SourceEvent)) : list (string * SourceEvent) :=
  let m := map_append identity ev (map_delete identity m) in
  if bool_decide (Z.of_nat (length m) ≤ bound)%Z then m else evict_first identity m.

(** ** Process-state updates *)

Definition upd_sequences (f : gmap string Z → gmap string Z) (p : Proc) : Proc :=
  MkProc (p_status p) (p_sinkFailure p) (p_lossEpoch p) (p_flushedLossEpoch p) (p_pending p)
         (f (p_sequences p)) (p_sourceSequences p) (p_sourceEvents p) (p_queue p) (p_readers p)
         (p_published p) (p_settlements p).
Definition upd_sourceSequences (f : gmap string Z → gmap string Z) (p : Proc) : Proc :=
  MkProc (p_status p) (p_sinkFailure p) (p_lossEpoch p) (p_flushedLossEpoch p) (p_pending p)
         (p_sequences p) (f (p_sourceSequences p)) (p_sourceEvents p) (p_queue p) (p_readers p)
         (p_published p) (p_settlements p).
Definition upd_sourceEvents (f : list (string * SourceEvent) → list (string * SourceEvent))
    (p : Proc) : Proc :=
  MkProc (p_status p) (p_sinkFailure p) (p_lossEpoch p) (p_flushedLossEpoch p) (p_pending p)
         (p_sequences p) (p_sourceSequences p) (f (p_sourceEvents p)) (p_queue p) (p_readers p)
         (p_published p) (p_settlements p).
Definition upd_published (f : list Entry → list Entry) (p : Proc) : Proc :=
  MkProc (p_status p) (p_sinkFailure p) (p_lossEpoch p) (p_flushedLossEpoch p) (p_pending p)
         (p_sequences p) (p_sourceSequences p) (p_sourceEvents p) (p_queue p) (p_readers p)
         (f (p_published p)) (p_settlements p).
Definition set_settlements (s : option (list (JournalRow * Commit))) (p : Proc) : Proc :=
  MkProc (p_status p) (p_sinkFailure p) (p_lossEpoch p) (p_flushedLossEpoch p) (p_pending p)
         (p_sequences p) (p_sourceSequences p) (p_sourceEvents p) (p_queue p) (p_readers p)
         (p_published p) s.

(** ** Table queries *)

(** [ORDER BY seq ASC]. *)
Definition seq_le (a b : JournalRow) : Prop := (j_seq a ≤ j_seq b)%Z.
#[export] Instance seq_le_dec a b : Decision (seq_le a b).
Proof. unfold seq_le. apply _. Defined.

Definition order_by_seq (l : list JournalRow) : list JournalRow := merge_sort seq_le l.

Definition of_run (runId : string) (row : JournalRow) : bool := bool_decide (j_runId row = runId).
Definition of_source (runId sourceId : string) (row : JournalRow) : bool :=
  of_run runId row && bool_decide (j_sourceId row = sourceId).

(** The two UNIQUE constraints and the primary key of [flows_journal_events]. *)
Definition same_event_id (a b : JournalRow) : bool := bool_decide (j_eventId a = j_eventId b).
Definition same_source_seq (a b : JournalRow) : bool :=
  of_source (j_runId a) (j_sourceId a) b && bool_decide (j_sourceSeq b = j_sourceSeq a).
Definition same_primary_key (a b : JournalRow) : bool :=
  of_run (j_runId a) b && bool_decide (j_seq b = j_seq a).
Definition conflicts (a b : JournalRow) : bool :=
  same_event_id a b || same_source_seq a b || same_primary_key a b.

(** [SELECT DISTINCT run_id ... ORDER BY run_id ASC]. *)
Definition str_le (a b : string) : Prop := String.leb a b = true.
#[export] Instance str_le_dec a b : Decision (str_le a b).
Proof. unfold str_le. apply _. Defined.

Definition get_events : M (list JournalRow) := gets (λ w, db_events (w_db w)).

Definition runs : M (list string) :=
  events <- get_events ;;
  ret (merge_sort str_le (remove_dups (j_runId <$> events))).

(** [LIKE 'prefix%']: SQLite compares ASCII letters without case. *)
Definition like_prefix (prefix s : string) : bool :=
  starts_with (toLowerCase prefix) (toLowerCase s).

(** [DELETE ... WHERE NOT keep(key)] on a keyed table. *)
Definition map_filter_keys {A} (keep : string * Z → bool) (m : gmap (string * Z) A)
    : gmap (string * Z) A :=
  filter (λ kv, keep kv.1 = true) m.

Section SqlJournal.
Context {J : JsonText} {C : Consensus} (opts : ValidatedOptions).

Definition encodeJson (v : json) : string := stringify v.

Definition decodeRow (row : JournalRow) : M Entry :=
  match parse (j_payloadJson row), parse (j_metaJson row) with
  | Some payload, Some meta =>
      if bool_decide (0 ≤ j_seq row ∧ 0 ≤ j_sourceSeq row ∧ 0 ≤ j_emittedAtMs row)%Z
      then ret (MkEntry (j_runId row) (j_seq row) (j_eventId row) (j_sourceId row)
                  (j_sourceSeq row) (j_emittedAtMs row) (j_eventType row) payload meta)
      else fail (jerror "decode_failed")
  | _, _ => fail (jerror "decode_failed")
  end.

(** *** Allocation floors *)

Definition raiseSequenceFloor (runId : string) (seq : Z) : M () :=
  modify (set_proc (upd_sequences (λ m,
    <[runId := Z.max (default 0 (m !! runId)) (seq + 1)]> m)))%Z.

Definition raiseSourceSequenceFloor (runId sourceId : string) (sourceSeq : Z) : M () :=
  let key := sourceKey runId sourceId in
  modify (set_proc (upd_sourceSequences (λ m,
    <[key := Z.max (default 0 (m !! key)) (sourceSeq + 1)]> m)))%Z.

Definition retain (identity : string) (event : SourceEvent) : M () :=
  modify (set_proc (upd_sourceEvents (retain_map (v_sourceEventCache opts) identity event))).

(** [SELECT MAX(seq) + 1 ... WHERE run_id = ?] and its [source_seq] form. *)
Definition nextDurable_seq (runId : string) : M Z :=
  events <- get_events ;;
  ret (default 0 (Z.succ <$> max_agg (j_seq <$> List.filter (of_run runId) events)))%Z.
Definition nextDurable_source (runId sourceId : string) : M Z :=
  events <- get_events ;;
  ret (default 0 (Z.succ <$>
    max_agg (j_sourceSeq <$> List.filter (of_source runId sourceId) events)))%Z.

Definition get_sequence (runId : string) : M (option Z) :=
  gets (λ w, p_sequences (w_proc w) !! runId).
Definition get_source_sequence (key : string) : M (option Z) :=
  gets (λ w, p_sourceSequences (w_proc w) !! key).

(** *** Preparation *)

Record Prepared := MkPrepared {
  pr_validated : Input;
  pr_payloadJson : string;
  pr_metaJson : string
}.

Definition prepare (input : Input) (emittedAtMs : Z) : M Prepared :=
  status <- gets (λ w, p_status (w_proc w)) ;;
  if negb (bool_decide (status = Open)) then fail (jerror "journal_closed")
  else if match in_sourceSeq input with Some s => bool_decide (s < 0)%Z | None => false end
  then fail (jerror "invalid_event")
  else if negb (nonempty (in_runId input)) || negb (nonempty (in_sourceId input))
          || negb (nonempty (in_eventType input))
  then fail (jerror "invalid_event")
  else if negb (is_safe_integer emittedAtMs) || bool_decide (emittedAtMs < 0)%Z
  then fail (jerror "invalid_event")
  else
    let scrub := if isVerbatimEventType (in_eventType input) then id else v_redact opts in
    ret (MkPrepared input (encodeJson (scrub (in_payload input)))
           (encodeJson (scrub (default JNull (in_meta input))))).

(** *** The fence *)

Definition fenceGuard (runId : string) (owner : OwnerId) : M () :=
  map_error (λ cause, if bool_decide (error_code cause = "fence_lost")
                      then jerror "fence_lost" else cause)
    (cs_guard runId owner).

(** *** Inserts *)

(** The row a duplicate emit collides with: by event id or by the producer's
    idempotency key, the lowest sequence first. *)
Definition selectExisting (queued : JournalRow) : M (option Commit) :=
  events <- get_events ;;
  match order_by_seq (List.filter (λ row, same_event_id queued row || same_source_seq queued row)
                        events) with
  | [] => ret None
  | row :: _ =>
      if negb (bool_decide (j_eventType row = j_eventType queued))
         || negb (bool_decide (j_payloadJson row = j_payloadJson queued))
         || negb (bool_decide (j_metaJson row = j_metaJson queued))
      then fail (jerror "idempotency_conflict")
      else entry <- decodeRow row ;; ret (Some (MkCommit entry false))
  end.

(** [INSERT ... ON CONFLICT DO NOTHING RETURNING ...]: whether a row came back. *)
Definition insert_event (row : JournalRow) : M bool :=
  if negb (check_event row) then sql_fail "ConstraintError"
  else
    events <- get_events ;;
    if existsb (conflicts row) events then ret false
    else modify (set_db (upd_events (λ l, l ++ [row]))) ;; ret true.

Definition insertOne (queued : JournalRow) (owner : option OwnerId) : M Commit :=
  (match owner with Some o => fenceGuard (j_runId queued) o | None => ret tt end) ;;
  duplicate <- selectExisting queued ;;
  match duplicate with
  | Some commit => ret commit
  | None =>
      inserted <- insert_event queued ;;
      if inserted : bool
      then entry <- decodeRow queued ;; ret (MkCommit entry true)
      else
        racedDuplicate <- selectExisting queued ;;
        match racedDuplicate with
        | Some commit => ret commit
        | None => fail (jerror "sequence_conflict")
        end
  end.

(** *** Settlement *)

Definition rememberCommitted (queued : JournalRow) (seq : Z) : M () :=
  retain (sourceEventKey (j_runId queued) (j_sourceId queued) (j_sourceSeq queued))
    (MkSourceEvent seq (j_eventType queued) (j_payloadJson queued) (j_metaJson queued)
       EvCommitted) ;;
  raiseSequenceFloor (j_runId queued) seq ;;
  raiseSourceSequenceFloor (j_runId queued) (j_sourceId queued) (j_sourceSeq queued).

Definition publish (commits : list Commit) : M () :=
  for_each (λ commit,
    if cm_inserted commit
    then modify (set_proc (upd_published (λ l, l ++ [cm_entry commit])))
    else ret tt) commits ;;
  ret tt.

Definition settle_now (queued : JournalRow) (commit : Commit) : M () :=
  rememberCommitted queued (en_seq (cm_entry commit)) ;; publish [commit].

Definition get_settlements : M (option (list (JournalRow * Commit))) :=
  gets (λ w, p_settlements (w_proc w)).

Definition settleCommit (queued : JournalRow) (commit : Commit) : M () :=
  enclosing <- get_settlements ;;
  match enclosing with
  | None => settle_now queued commit
  | Some l => modify (set_proc (set_settlements (Some (l ++ [(queued, commit)]))))
  end.

(** *** [transact] *)

Definition transact_write {A} (body : M A) : M A :=
  map_error (λ cause, if is_class DatabaseError cause
                      then jerror_cause "sink_failed" cause else cause) (write body).

(** One transaction around the body; the settlements its appends parked run
    after the commit, and are dropped with a body that failed. *)
Definition transact {A} (body : M A) : M A :=
  enclosing <- get_settlements ;;
  match enclosing with
  | Some _ => transact_write body
  | None => λ w,
      match transact_write (modify (set_proc (set_settlements (Some []))) ;; body) w with
      | (inl e, w') => (inl e, set_proc (set_settlements None) w')
      | (inr a, w') =>
          (modify (set_proc (set_settlements None)) ;;
           for_each (λ s, settle_now s.1 s.2) (default [] (p_settlements (w_proc w'))) ;;
           ret a) w'
      end
  end.

(** *** [emitDurable] *)

Inductive DurableReceipt :=
| Accepted (seq sourceSeq : Z)
| Duplicate (seq sourceSeq : Z). (* status: committed *)

Definition allocatable (n : Z) : bool :=
  is_safe_integer n && negb (bool_decide (n = max_safe_integer)).

Definition allocateEntry (p : Prepared) (emittedAtMs : Z) : M (JournalRow * Z) :=
  let validated := pr_validated p in
  let runId := in_runId validated in
  let sourceId := in_sourceId validated in
  let key := sourceKey runId sourceId in
  sourceSeq <- match in_sourceSeq validated with
               | Some s => ret s
               | None =>
                   durable <- nextDurable_source runId sourceId ;;
                   floor <- get_source_sequence key ;;
                   ret (Z.max durable (default 0 floor))%Z
               end ;;
  if negb (allocatable sourceSeq) || bool_decide (sourceSeq < 0)%Z
  then fail (jerror "invalid_event")
  else
    durable <- nextDurable_seq runId ;;
    floor <- get_sequence runId ;;
    let seq := Z.max durable (default 0 floor)%Z in
    if negb (allocatable seq) then fail (jerror "invalid_event")
    else
      raiseSequenceFloor runId seq ;;
      raiseSourceSequenceFloor runId sourceId sourceSeq ;;
      ret (MkJournalRow runId seq (makeEventId runId sourceId sourceSeq) sourceId sourceSeq
             emittedAtMs (in_eventType validated) (pr_payloadJson p) (pr_metaJson p), sourceSeq).

Definition writeEntry (p : Prepared) (emittedAtMs : Z) (owner : option OwnerId)
    : M (Commit * JournalRow * Z) :=
  q <- allocateEntry p emittedAtMs ;;
  commit <- insertOne q.1 owner ;;
  ret (commit, q.1, q.2).

Definition emitDurable (input : Input) (owner : option OwnerId) : M DurableReceipt :=
  emittedAtMs <- clock ;;
  p <- prepare input emittedAtMs ;;
  map_error (λ cause, if isJournalError cause then cause else jerror_cause "sink_failed" cause) (
    enclosing <- get_settlements ;;
    r <- (match enclosing with
          | Some _ => writeEntry p emittedAtMs owner
          | None => write (writeEntry p emittedAtMs owner)
          end) ;;
    settleCommit r.1.2 r.1.1 ;;
    ret (if cm_inserted r.1.1
         then Accepted (en_seq (cm_entry r.1.1)) r.2
         else Duplicate (en_seq (cm_entry r.1.1)) r.2)).

(** *** Reads *)

(** The run's compaction floor: the highest compacted checkpoint. *)
Definition compactionFloor (runId : string) : M (option Z) :=
  checkpoints <- gets (λ w, db_checkpoints (w_db w)) ;;
  ret (max_agg (omap (λ kv : (string * Z) * CheckpointRow,
         if bool_decide (kv.1.1 = runId) && negb (is_null (k_compactedAtMs kv.2))
         then Some kv.1.2 else None) (map_to_list checkpoints))).

Record EntriesPage := MkEntriesPage { pg_entries : list Entry; pg_hasMore : bool }.

Definition readPage (runId : string) (afterOpt : option Z) (limit : Z) : M EntriesPage :=
  if negb (nonempty runId) then fail (jerror "invalid_event")
  else if negb (is_safe_integer limit) || bool_decide (limit ≤ 0)%Z
  then fail (jerror "invalid_event")
  else
    let after := default (-1)%Z afterOpt in
    if negb (is_safe_integer after) || bool_decide (after < -1)%Z
    then fail (jerror "invalid_event")
    else
      events <- get_events ;;
      let rows := take (Z.to_nat (limit + 1))
        (order_by_seq (List.filter (λ row, of_run runId row && bool_decide (after < j_seq row)%Z)
           events)) in
      floor <- compactionFloor runId ;;
      match floor with
      | Some f =>
          if bool_decide (after < f - 1)%Z then fail (jerror_at "compacted" f) else ret tt
      | None => ret tt
      end ;;
      entries <- for_each decodeRow (take (Z.to_nat limit) rows) ;;
      ret (MkEntriesPage entries (bool_decide (limit < Z.of_nat (length rows))%Z)).

(** The page loop of a stream's [readAvailable]: pages from [cursor] until a
    page has no more; the fuel bounds the number of pages. *)
Fixpoint readAvailable (fuel : nat) (runId : string) (cursor : Z) (all : list Entry)
    : M (list Entry * Z) :=
  match fuel with
  | O => fail (jerror "out_of_fuel")
  | S fuel =>
      page <- readPage runId (if bool_decide (cursor < 0)%Z then None else Some cursor)
                (v_batchSize opts) ;;
      let all := all ++ pg_entries page in
      let cursor := match last (pg_entries page) with
                    | Some e => en_seq e
                    | None => cursor
                    end in
      if pg_hasMore page then readAvailable fuel runId cursor all else ret (all, cursor)
  end.

(** *** Checkpoints and compaction *)

Definition journal_write_error (cause : error) : error :=
  if isJournalError cause then cause else jerror_cause "sink_failed" cause.

Record Checkpoint := MkCheckpoint {
  cp_runId : string; cp_seq : Z; cp_state : json; cp_createdAtMs : Z;
  cp_compactedAtMs : option Z
}.

Definition checkpoint (runId : string) (seq : Z) (state : json) (owner : option OwnerId)
    : M Checkpoint :=
  if negb (nonempty runId) then fail (jerror "invalid_event")
  else if negb (is_safe_integer seq) || bool_decide (seq < 0)%Z
  then fail (jerror "invalid_event")
  else
    let stateJson := encodeJson state in
    createdAtMs <- clock ;;
    map_error journal_write_error (write (
      (match owner with Some o => fenceGuard runId o | None => ret tt end) ;;
      events <- get_events ;;
      if negb (existsb (λ row, of_run runId row && bool_decide (j_seq row = seq)) events)
      then fail (jerror "checkpoint_invalid")
      else
        floor <- compactionFloor runId ;;
        if match floor with Some f => bool_decide (seq ≤ f)%Z | None => false end
        then fail (MkError JournalError "checkpoint_invalid" floor None)
        else
          existing <- gets (λ w, db_checkpoints (w_db w) !! (runId, seq)) ;;
          put_checkpoint (runId, seq)
            (MkCheckpointRow stateJson createdAtMs
               (match existing with Some k => k_compactedAtMs k | None => None end)) ;;
          ret (MkCheckpoint runId seq state createdAtMs None))).

(** The run's checkpoint sequences. *)
Definition checkpoint_seqs (runId : string) (m : gmap (string * Z) CheckpointRow) : list Z :=
  omap (λ kv : (string * Z) * CheckpointRow,
    if bool_decide (kv.1.1 = runId) then Some kv.1.2 else None) (map_to_list m).

(** [ORDER BY seq DESC LIMIT 1], or the checkpoint at a given sequence. *)
Definition select_checkpoint (runId : string) (upTo : option Z) : M (option (Z * CheckpointRow)) :=
  checkpoints <- gets (λ w, db_checkpoints (w_db w)) ;;
  let seq := match upTo with Some s => Some s | None => max_agg (checkpoint_seqs runId checkpoints) end in
  ret (match seq with
       | Some s => pair s <$> checkpoints !! (runId, s)
       | None => None
       end).

Definition latestCheckpoint (runId : string) : M (option Checkpoint) :=
  if negb (nonempty runId) then fail (jerror "invalid_event")
  else
    row <- select_checkpoint runId None ;;
    match row with
    | None => ret None
    | Some (seq, k) =>
        match parse (k_stateJson k) with
        | Some state =>
            ret (Some (MkCheckpoint runId seq state (k_createdAtMs k) (k_compactedAtMs k)))
        | None => fail (jerror "decode_failed")
        end
    end.

Record Compacted := MkCompacted { cc_runId : string; cc_checkpointSeq : Z; cc_deleted : Z }.

Definition below (runId : string) (seq : Z) (row : JournalRow) : bool :=
  of_run runId row && bool_decide (j_seq row < seq)%Z.

(** Fold-namespace history below the checkpoint that no snapshot captures. *)
Definition is_fold_type (eventType : string) : bool :=
  like_prefix "flows.run." eventType || like_prefix "flows.attempt." eventType.

Definition compact (runId : string) (upTo : option Z) (owner : option OwnerId) : M Compacted :=
  if negb (nonempty runId) then fail (jerror "invalid_event")
  else
    compactedAtMs <- clock ;;
    map_error journal_write_error (write (
      (match owner with Some o => fenceGuard runId o | None => ret tt end) ;;
      row <- select_checkpoint runId upTo ;;
      match row with
      | None => fail (jerror "checkpoint_invalid")
      | Some (checkpointSeq, k) =>
          if negb (is_null (k_compactedAtMs k))
          then ret (MkCompacted runId checkpointSeq 0)
          else
            readers <- gets (λ w, default [] (p_readers (w_proc w) !! runId)) ;;
            if existsb (λ cursor, bool_decide (cursor < checkpointSeq - 1)%Z) readers
            then fail (jerror_at "reader_behind" checkpointSeq)
            else
              events <- get_events ;;
              if existsb (λ row, below runId checkpointSeq row && is_fold_type (j_eventType row))
                   events
                 && negb (existsb (λ row, of_run runId row
                                          && bool_decide (checkpointSeq ≤ j_seq row)%Z
                                          && bool_decide (j_eventType row = "flows.run.snapshot"))
                            events)
              then fail (jerror_at "reader_behind" checkpointSeq)
              else
                let doomed := Z.of_nat (length (List.filter (below runId checkpointSeq) events)) in
                modify (set_db (upd_events (List.filter (λ row, negb (below runId checkpointSeq row))))) ;;
                modify (set_db (upd_checkpoints (map_filter_keys
                  (λ key, negb (bool_decide (key.1 = runId) && bool_decide (key.2 < checkpointSeq)%Z))))) ;;
                put_checkpoint (runId, checkpointSeq)
                  (MkCheckpointRow (k_stateJson k) (k_createdAtMs k) (Some compactedAtMs)) ;;
                ret (MkCompacted runId checkpointSeq doomed)
      end)).
End SqlJournal.
