(* ===== verification/JournalAppend.v ===== *)
(** What a durable append does ([SqlJournal.ts], [emitDurable] and [transact]):
    identities never collide, every accepted entry extends the table by one row
    past the run's last sequence, duplicates write nothing, a fenced append of a
    writer that lost the lease is refused, and a failed transaction leaves the
    tables as they were. *)

From S2P Require Export Journal.

#[local] Open Scope me_scope.

(** ** Identities *)

(** *** The invariant of [flows_journal_events] *)

Section events_invariant.
Context {J : JsonText}.

Definition run_key (row : JournalRow) : string * Z := (j_runId row, j_seq row).
Definition source_key (row : JournalRow) : string * string * Z :=
  (j_runId row, j_sourceId row, j_sourceSeq row).

(** Rows are checked, a minted identity is only carried by the row of the source
    key it was minted from (a row a fork copied carries a [fork:] identity,
    which is never minted), and no two rows share a primary key or a source
    key. *)
Record events_ok (l : list JournalRow) : Prop := MkEventsOk {
  ev_checked : ∀ row, row ∈ l → check_event row = true;
  ev_minted : ∀ row, row ∈ l → ∀ r s n,
    j_eventId row = makeEventId r s n → source_key row = (r, s, n);
  ev_run_keys : NoDup (run_key <$> l);
  ev_source_keys : NoDup (source_key <$> l)
}.

Definition journal_ok (w : World) : Prop := events_ok (db_events (w_db w)).
End events_invariant.

Lemma makeEventId_inj r s n r' s' n' :
  makeEventId r s n = makeEventId r' s' n' → r = r' ∧ s = s' ∧ n = n'.
Proof.
  unfold makeEventId. intros H.
  apply string_app_inj_length in H as [_ H]; [|done].
  apply len_prefix_inj in H as [-> H]. apply len_prefix_inj in H as [-> H].
  by apply (inj pretty) in H.
Qed.

Lemma sourceKey_inj r s r' s' : sourceKey r s = sourceKey r' s' → r = r' ∧ s = s'.
Proof.
  unfold sourceKey. intros [-> H]%len_prefix_inj. split; [done|].
  apply (len_prefix_inj s "" s' ""). by f_equal.
Qed.

Lemma sourceEventKey_inj r s n r' s' n' :
  sourceEventKey r s n = sourceEventKey r' s' n' → r = r' ∧ s = s' ∧ n = n'.
Proof.
  unfold sourceEventKey, sourceKey. rewrite !string_app_assoc.
  intros [-> [-> H]%len_prefix_inj]%len_prefix_inj.
  apply string_app_inj_length in H as [_ H]; [|done]. by apply (inj pretty) in H.
Qed.

Lemma conflicts_spec a b :
  conflicts a b = true ↔
  j_eventId a = j_eventId b ∨ source_key b = source_key a ∨ run_key b = run_key a.
Proof.
  unfold conflicts, same_event_id, same_source_seq, same_primary_key, of_source, of_run.
  rewrite !orb_true_iff, !andb_true_iff, !bool_decide_eq_true. unfold source_key, run_key.
  rewrite !pair_equal_spec. intuition congruence.
Qed.

(** Appending a checked, minted row that conflicts with none keeps the invariant. *)
Lemma events_ok_snoc `{JsonText} l q :
  events_ok l → check_event q = true →
  j_eventId q = makeEventId (j_runId q) (j_sourceId q) (j_sourceSeq q) →
  existsb (conflicts q) l = false → events_ok (l ++ [q]).
Proof.
  intros [Hc Hm Hk Hs] Hq Hid Hconf. rewrite existsb_false in Hconf.
  assert (Hnone : ∀ row, row ∈ l → source_key row ≠ source_key q ∧ run_key row ≠ run_key q).
  { intros row Hrow. apply Hconf, not_true_iff_false in Hrow. rewrite conflicts_spec in Hrow. tauto. }
  split.
  - intros row [?| ->%list_elem_of_singleton]%elem_of_app; auto.
  - intros row [Hrow| ->%list_elem_of_singleton]%elem_of_app r s n; [by apply Hm|].
    rewrite Hid. by intros (<- & <- & <-)%makeEventId_inj.
  - rewrite fmap_app. apply NoDup_app. split_and!; [done| |apply NoDup_singleton].
    intros x (row & -> & Hrow)%list_elem_of_fmap ?%list_elem_of_singleton. by apply Hnone in Hrow as [_ []].
  - rewrite fmap_app. apply NoDup_app. split_and!; [done| |apply NoDup_singleton].
    intros x (row & -> & Hrow)%list_elem_of_fmap ?%list_elem_of_singleton. by apply Hnone in Hrow as [[] _].
Qed.

(** The invariant survives deleting rows. *)
Lemma events_ok_filter `{JsonText} p l : events_ok l → events_ok (List.filter p l).
Proof.
  intros [Hc Hm Hk Hs].
  assert (Hsub : ∀ K (f : JournalRow → K), f <$> List.filter p l `sublist_of` f <$> l).
  { intros K f. clear. induction l as [|x l IH]; simpl; [constructor|].
    destruct (p x); by constructor. }
  split.
  - intros row [? _]%elem_of_filter_b; auto.
  - intros row [? _]%elem_of_filter_b; by apply Hm.
  - eapply sublist_NoDup; [exact Hk|apply Hsub].
  - eapply sublist_NoDup; [exact Hs|apply Hsub].
Qed.

(** ** Frames *)

(** Only the process memory of the journal moved. *)
Record proc_step (w w' : World) : Prop := MkProcStep {
  ps_db : w_db w' = w_db w;
  ps_local : w_local w' = w_local w;
  ps_clock : w_clock w' = w_clock w;
  ps_nested : is_Some (p_settlements (w_proc w')) ↔ is_Some (p_settlements (w_proc w))
}.

#[export] Instance proc_step_refl : Reflexive proc_step.
Proof. by split. Qed.
#[export] Instance proc_step_trans : Transitive proc_step.
Proof. intros a b c [] []. split; try by etrans. Qed.

(** The event table grew by [new]; every other table, the in-memory leases and
    the clock are as they were. *)
Record appended (w w' : World) (new : list JournalRow) : Prop := MkAppended {
  app_events : db_events (w_db w') = db_events (w_db w) ++ new;
  app_rest : upd_events (λ _, []) (w_db w') = upd_events (λ _, []) (w_db w);
  app_local : w_local w' = w_local w;
  app_clock : w_clock w' = w_clock w;
  app_nested : is_Some (p_settlements (w_proc w')) ↔ is_Some (p_settlements (w_proc w))
}.

Lemma appended_runs w w' new : appended w w' new → db_runs (w_db w') = db_runs (w_db w).
Proof. intros []. by injection app_rest0. Qed.
Lemma appended_leases w w' new : appended w w' new → db_leases (w_db w') = db_leases (w_db w).
Proof. intros []. by injection app_rest0. Qed.
Lemma appended_attempts w w' new : appended w w' new → db_attempts (w_db w') = db_attempts (w_db w).
Proof. intros []. by injection app_rest0. Qed.

Lemma proc_step_appended w w' : proc_step w w' → appended w w' [].
Proof. intros [H]. split; try done; rewrite H; [by rewrite app_nil_r|done]. Qed.

Lemma appended_trans w w1 w2 l1 l2 :
  appended w w1 l1 → appended w1 w2 l2 → appended w w2 (l1 ++ l2).
Proof.
  intros [] []. split; try by etrans.
  rewrite app_events1, app_events0. by rewrite app_assoc.
Qed.

Lemma appended_proc w w1 w2 l : appended w w1 l → proc_step w1 w2 → appended w w2 l.
Proof.
  intros H1 H2%proc_step_appended. rewrite <- (app_nil_r l). by eapply appended_trans.
Qed.

Lemma proc_appended w w1 w2 l : proc_step w w1 → appended w1 w2 l → appended w w2 l.
Proof. intros H1%proc_step_appended H2. exact (appended_trans _ _ _ _ _ H1 H2). Qed.

(** ** The operations *)

Section append.
Context {J : JsonText} {C : Consensus} {L : ConsensusLaws C} (opts : ValidatedOptions).
Implicit Types (w : World) (row q : JournalRow).

Lemma proc_step_set_proc w f :
  (∀ p, p_settlements (f p) = p_settlements p) → proc_step w (set_proc f w).
Proof. intros H. split; try done. simpl. by rewrite H. Qed.

(** *** Process-only operations *)

Lemma rememberCommitted_ok q seq w :
  ∃ w', rememberCommitted opts q seq w = (inr tt, w') ∧ proc_step w w'.
Proof.
  eexists; split; [reflexivity|]. by repeat (etrans; [|by apply proc_step_set_proc]).
Qed.

Lemma publish_ok cs w : ∃ w', publish cs w = (inr tt, w') ∧ proc_step w w'.
Proof.
  unfold publish, bind.
  destruct (for_each_ok (E:=error) proc_step (λ commit,
    if cm_inserted commit
    then modify (set_proc (upd_published (λ l, l ++ [cm_entry commit])))
    else ret tt) cs w) as (bs & w1 & -> & H1); [|by eexists].
  intros c w1. destruct (cm_inserted c); eexists _, _; (split; [reflexivity|]); [|done].
  by apply proc_step_set_proc.
Qed.

Lemma settle_now_ok q c w : ∃ w', settle_now opts q c w = (inr tt, w') ∧ proc_step w w'.
Proof.
  unfold settle_now, bind. destruct (rememberCommitted_ok q (en_seq (cm_entry c)) w) as (w1 & -> & H1).
  destruct (publish_ok [c] w1) as (w2 & -> & H2). eexists; split; [done|]. by etrans.
Qed.

Lemma settleCommit_ok q c w : ∃ w', settleCommit opts q c w = (inr tt, w') ∧ proc_step w w'.
Proof.
  unfold settleCommit, get_settlements, bind, gets.
  destruct (p_settlements (w_proc w)) as [l|] eqn:Hl; [|apply settle_now_ok].
  eexists; split; [reflexivity|]. split; try done.
Qed.

Lemma settle_all_ok l w :
  ∃ us w', for_each (λ s, settle_now opts s.1 s.2) l w = (inr us, w') ∧ proc_step w w'.
Proof.
  apply (for_each_ok proc_step). intros [q c] w1. simpl.
  destruct (settle_now_ok q c w1) as (w2 & -> & H2). by eexists _, _.
Qed.

(** *** Decoding and inserting *)

Lemma decodeRow_inr row w e w' :
  decodeRow row w = (inr e, w') →
  w' = w ∧ en_runId e = j_runId row ∧ en_seq e = j_seq row ∧ en_eventId e = j_eventId row
  ∧ en_sourceId e = j_sourceId row ∧ en_sourceSeq e = j_sourceSeq row
  ∧ en_emittedAtMs e = j_emittedAtMs row ∧ en_eventType e = j_eventType row
  ∧ parse (j_payloadJson row) = Some (en_payload e) ∧ parse (j_metaJson row) = Some (en_meta e).
Proof. unfold decodeRow. intros H. inv_ok H. done. Qed.

(** A checked row decodes. *)
Lemma decodeRow_checked row w :
  check_event row = true → ∃ e, decodeRow row w = (inr e, w).
Proof.
  unfold check_event, decodeRow, json_valid. rewrite !andb_true_iff, !stamp_ok_spec.
  intros H. destruct (parse (j_payloadJson row)), (parse (j_metaJson row)); try (exfalso; naive_solver).
  rewrite bool_decide_true by lia. by eexists.
Qed.

Lemma fenceGuard_inr r o w u w' :
  cs_wf w → fenceGuard r o w = (inr u, w') → w' = w ∧ Spec.guard (lease_of w r) o = true.
Proof.
  intros Hwf H. apply map_error_inr in H. rewrite law_guard in H by done.
  destruct (Spec.guard _ _); [|done]. by simplify_eq.
Qed.

(** A writer that does not hold the lease is refused with [fence_lost]. *)
Lemma fenceGuard_lost r o w :
  cs_wf w → Spec.guard (lease_of w r) o = false →
  fenceGuard r o w = (inl (jerror "fence_lost"), w).
Proof.
  intros Hwf H. unfold fenceGuard, map_error. by rewrite law_guard, H by done.
Qed.

Lemma selectExisting_inr q w d w' :
  selectExisting q w = (inr d, w') →
  w' = w ∧
  match d with
  | Some c => cm_inserted c = false ∧
      ∃ row, row ∈ db_events (w_db w) ∧ decodeRow row w = (inr (cm_entry c), w)
        ∧ (j_eventId row = j_eventId q ∨ source_key row = source_key q)
        ∧ j_eventType row = j_eventType q ∧ j_payloadJson row = j_payloadJson q
        ∧ j_metaJson row = j_metaJson q
  | None => ∀ row, row ∈ db_events (w_db w) →
      j_eventId row ≠ j_eventId q ∧ source_key row ≠ source_key q
  end.
Proof.
  unfold selectExisting, get_events. intros H.
  apply bind_inr in H as (events & w1 & H1 & H). apply gets_inr in H1 as [-> ->].
  set (p := λ row, same_event_id q row || same_source_seq q row) in H.
  assert (Hp : ∀ row, p row = true ↔ j_eventId row = j_eventId q ∨ source_key row = source_key q).
  { intros row. unfold p, same_event_id, same_source_seq, of_source, of_run, source_key.
    rewrite orb_true_iff, !andb_true_iff, !bool_decide_eq_true, !pair_equal_spec.
    intuition congruence. }
  assert (Hin : ∀ row, row ∈ order_by_seq (List.filter p (db_events (w_db w))) ↔
                       row ∈ db_events (w_db w) ∧ p row = true).
  { intros row. unfold order_by_seq. rewrite merge_sort_Permutation. apply elem_of_filter_b. }
  destruct (order_by_seq _) as [|row rows].
  - apply ret_inr in H as [-> ->]. split; [done|]. intros row Hrow.
    assert (¬ p row = true) as Hn by (intros Hp'; by apply (not_elem_of_nil row), Hin).
    rewrite Hp in Hn. tauto.
  - destruct (Hin row) as [[Hrow Hpr] _]; [by left|]. apply Hp in Hpr.
    destruct (_ || _ || _) eqn:Hc; [done|]. apply orb_false_iff in Hc as [[Ht Hpl]%orb_false_iff Hm].
    apply negb_false_iff, bool_decide_eq_true in Ht, Hpl, Hm.
    inv_ok H. pose proof (decodeRow_inr _ _ _ _ H0) as [-> _]. split; [done|]. simpl. eauto 10.
Qed.

(** Inserting: the whole effect, by whether the row conflicts. *)
Lemma insert_event_inr q w b w' :
  insert_event q w = (inr b, w') →
  check_event q = true ∧
  b = negb (existsb (conflicts q) (db_events (w_db w))) ∧
  w' = (if b then set_db (upd_events (λ l, l ++ [q])) w else w).
Proof.
  unfold insert_event, get_events. intros H.
  destruct (check_event q); simpl in H; [|done].
  apply bind_inr in H as (ev & w1 & H1 & H). apply gets_inr in H1 as [-> ->].
  destruct (existsb _ _); simpl in H; inv_ok H; done.
Qed.

(** A row found to collide keeps colliding until the table changes, so the
    insert that conflicts and finds no duplicate fails. *)
Lemma insertOne_inr q owner w c w' :
  cs_wf w → insertOne q owner w = (inr c, w') →
  (∀ o, owner = Some o → Spec.guard (lease_of w (j_runId q)) o = true) ∧
  if cm_inserted c
  then existsb (conflicts q) (db_events (w_db w)) = false ∧ check_event q = true
       ∧ w' = set_db (upd_events (λ l, l ++ [q])) w ∧ decodeRow q w' = (inr (cm_entry c), w')
  else w' = w ∧ ∃ row, row ∈ db_events (w_db w) ∧ decodeRow row w = (inr (cm_entry c), w)
        ∧ (j_eventId row = j_eventId q ∨ source_key row = source_key q)
        ∧ j_eventType row = j_eventType q ∧ j_payloadJson row = j_payloadJson q
        ∧ j_metaJson row = j_metaJson q.
Proof.
  intros Hwf H. unfold insertOne in H.
  apply bind_inr in H as ([] & w1 & Hg & H).
  assert (w1 = w ∧ ∀ o, owner = Some o → Spec.guard (lease_of w (j_runId q)) o = true) as [-> Hguard].
  { destruct owner as [o|]; [|inv_ok Hg; done].
    apply fenceGuard_inr in Hg as [-> ?]; [|done]. split; [done|]. by intros ? [= <-]. }
  split; [done|]. clear Hg Hguard.
  apply bind_inr in H as (d & w1 & Hd & H). apply selectExisting_inr in Hd as [-> Hd].
  destruct d as [c'|].
  { inv_ok H. destruct Hd as [-> Hd]. done. }
  apply bind_inr in H as (b & w1 & Hb & H). apply insert_event_inr in Hb as (Hc & -> & ->).
  destruct (existsb (conflicts q) _) eqn:Hconf; simpl in H.
  - apply bind_inr in H as (d & w1 & Hd2 & H). apply selectExisting_inr in Hd2 as [-> Hd2].
    destruct d as [c'|]; [|done]. exfalso. destruct Hd2 as (_ & row & Hrow & _ & Hk & _).
    destruct (Hd row Hrow). tauto.
  - apply bind_inr in H as (e & w1 & He & H). pose proof (decodeRow_inr _ _ _ _ He) as [-> _].
    apply ret_inr in H as [-> ->]. simpl. done.
Qed.

(** *** Allocation *)

(** The sequence the next append of a run takes, and the producer's next
    source sequence. *)
Definition next_seq (w : World) (runId : string) : Z :=
  Z.max (default 0%Z (Z.succ <$> max_agg (j_seq <$> List.filter (of_run runId) (db_events (w_db w)))))
        (default 0%Z (p_sequences (w_proc w) !! runId)).
Definition next_source (w : World) (runId sourceId : string) : Z :=
  Z.max (default 0%Z (Z.succ <$>
           max_agg (j_sourceSeq <$> List.filter (of_source runId sourceId) (db_events (w_db w)))))
        (default 0%Z (p_sourceSequences (w_proc w) !! sourceKey runId sourceId)).

Lemma next_seq_gt w r row : row ∈ db_events (w_db w) → j_runId row = r → (j_seq row < next_seq w r)%Z.
Proof.
  intros Hrow Hr. unfold next_seq.
  destruct (max_agg_ge (j_seq <$> List.filter (of_run r) (db_events (w_db w))) (j_seq row))
    as (m & -> & ?); [|simpl; lia].
  apply list_elem_of_fmap. exists row. split; [done|]. apply elem_of_filter_b.
  split; [done|]. unfold of_run. by rewrite bool_decide_eq_true.
Qed.

Lemma next_source_gt w r s row :
  row ∈ db_events (w_db w) → j_runId row = r → j_sourceId row = s →
  (j_sourceSeq row < next_source w r s)%Z.
Proof.
  intros Hrow Hr Hs. unfold next_source.
  destruct (max_agg_ge (j_sourceSeq <$> List.filter (of_source r s) (db_events (w_db w)))
              (j_sourceSeq row)) as (m & -> & ?); [|simpl; lia].
  apply list_elem_of_fmap. exists row. split; [done|]. apply elem_of_filter_b.
  split; [done|]. unfold of_source, of_run. by rewrite andb_true_iff, !bool_decide_eq_true.
Qed.

Definition scrubbed (input : Input) (v : json) : json :=
  (if isVerbatimEventType (in_eventType input) then id else v_redact opts) v.

(** The row an admitted input becomes. *)
Definition row_of (input : Input) (t seq sourceSeq : Z) : JournalRow :=
  MkJournalRow (in_runId input) seq (makeEventId (in_runId input) (in_sourceId input) sourceSeq)
    (in_sourceId input) sourceSeq t (in_eventType input)
    (stringify (scrubbed input (in_payload input)))
    (stringify (scrubbed input (default JNull (in_meta input)))).

Definition admissible (w : World) (input : Input) : bool :=
  bool_decide (p_status (w_proc w) = Open)
  && match in_sourceSeq input with Some s => bool_decide (0 ≤ s)%Z | None => true end
  && nonempty (in_runId input) && nonempty (in_sourceId input) && nonempty (in_eventType input)
  && stamp_ok (w_clock w).

Definition prepared (input : Input) : Prepared :=
  MkPrepared input (stringify (scrubbed input (in_payload input)))
    (stringify (scrubbed input (default JNull (in_meta input)))).

Lemma stamp_ok_safe n :
  negb (is_safe_integer n) || bool_decide (n < 0)%Z = negb (stamp_ok n).
Proof.
  apply eq_true_iff_eq. unfold is_safe_integer, stamp_ok.
  rewrite orb_true_iff, !negb_true_iff, !bool_decide_eq_false, bool_decide_eq_true.
  unfold max_safe_integer. lia.
Qed.

(** [prepare], as one test: it admits exactly the admissible inputs. *)
Lemma prepare_spec input w :
  prepare opts input (w_clock w) w =
  if admissible w input then (inr (prepared input), w)
  else (inl (jerror (if bool_decide (p_status (w_proc w) = Open)
                     then "invalid_event" else "journal_closed")), w).
Proof.
  unfold prepare, admissible, bind, gets. rewrite (stamp_ok_safe (w_clock w)).
  destruct (bool_decide (_ = Open)); simpl; [|done].
  destruct (in_sourceSeq input) as [s|]; simpl.
  - rewrite (bool_decide_decide (0 ≤ s)%Z), (bool_decide_decide (s < 0)%Z).
    destruct (decide (s < 0)%Z), (decide (0 ≤ s)%Z); try lia; [done|]. simpl.
    by destruct (nonempty (in_runId input)), (nonempty (in_sourceId input)),
      (nonempty (in_eventType input)), (stamp_ok (w_clock w)).
  - by destruct (nonempty (in_runId input)), (nonempty (in_sourceId input)),
      (nonempty (in_eventType input)), (stamp_ok (w_clock w)).
Qed.

Definition source_seq_of (w : World) (input : Input) : Z :=
  default (next_source w (in_runId input) (in_sourceId input)) (in_sourceSeq input).

Definition allocates (w : World) (input : Input) : bool :=
  allocatable (source_seq_of w input) && bool_decide (0 ≤ source_seq_of w input)%Z
  && allocatable (next_seq w (in_runId input)).

(** The row the input becomes in this world, and the floors it raises. *)
Definition next_row (w : World) (input : Input) : JournalRow :=
  row_of input (w_clock w) (next_seq w (in_runId input)) (source_seq_of w input).
Definition raised (w : World) (input : Input) : World :=
  ((raiseSequenceFloor (in_runId input) (next_seq w (in_runId input)) ;;
    raiseSourceSequenceFloor (in_runId input) (in_sourceId input) (source_seq_of w input)) w).2.

Lemma raised_step w input : proc_step w (raised w input).
Proof. unfold raised. simpl. by etrans; apply proc_step_set_proc. Qed.

Lemma allocateEntry_spec input w :
  allocateEntry (prepared input) (w_clock w) w =
  if allocates w input
  then (inr (next_row w input, source_seq_of w input), raised w input)
  else (inl (jerror "invalid_event"), w).
Proof.
  assert (Hs : (match in_sourceSeq input with
          | Some s => ret s
          | None =>
              durable <- nextDurable_source (in_runId input) (in_sourceId input) ;;
              floor <- get_source_sequence (sourceKey (in_runId input) (in_sourceId input)) ;;
              ret (Z.max durable (default 0 floor))%Z
          end) w = (inr (source_seq_of w input), w)).
  { unfold source_seq_of. by destruct (in_sourceSeq input). }
  unfold allocateEntry, allocates, bind at 1. simpl. rewrite Hs.
  rewrite (bool_decide_decide (_ < _)%Z), (bool_decide_decide (_ ≤ _)%Z).
  destruct (allocatable (source_seq_of w input)); simpl; [|done].
  destruct (decide (source_seq_of w input < 0)%Z), (decide (0 ≤ source_seq_of w input)%Z);
    try lia; simpl; [done|].
  unfold bind at 1, nextDurable_seq, get_events, bind, gets, get_sequence, ret. simpl.
  fold (next_seq w (in_runId input)). by destruct (allocatable (next_seq w _)).
Qed.

(** The world an append stores into, once its floors are raised. *)
Lemma raised_next w input :
  db_events (w_db (raised w input)) = db_events (w_db w).
Proof. by rewrite (ps_db _ _ (raised_step w input)). Qed.

Lemma raised_lease w input : cs_wf w →
  cs_wf (raised w input) ∧ ∀ r, lease_of (raised w input) r = lease_of w r.
Proof.
  intros Hwf. destruct (raised_step w input) as [Hdb Hl _ _].
  destruct (law_ext w (raised w input)) as [H1 H2]; [by rewrite Hdb|done|].
  split; [by apply H1|]. intros r. by rewrite H2.
Qed.

(** *** [emitDurable] *)

(** What a receipt says happened to the table. *)
Definition emit_effect (input : Input) (w w' : World) (rc : DurableReceipt) : Prop :=
  match rc with
  | Accepted seq sourceSeq =>
      appended w w' [next_row w input] ∧ seq = next_seq w (in_runId input)
      ∧ sourceSeq = source_seq_of w input
      ∧ existsb (conflicts (next_row w input)) (db_events (w_db w)) = false
      ∧ check_event (next_row w input) = true
  | Duplicate seq sourceSeq =>
      proc_step w w' ∧ sourceSeq = source_seq_of w input ∧
      ∃ row, row ∈ db_events (w_db w) ∧ j_seq row = seq
        ∧ (j_eventId row = j_eventId (next_row w input) ∨ source_key row = source_key (next_row w input))
        ∧ j_eventType row = in_eventType input
        ∧ j_payloadJson row = j_payloadJson (next_row w input)
        ∧ j_metaJson row = j_metaJson (next_row w input)
  end.

(** An append that succeeded, split at the settlement of its commit. *)
Lemma emitDurable_split input owner w rc w' :
  cs_wf w → emitDurable opts input owner w = (inr rc, w') →
  admissible w input = true ∧ allocates w input = true
  ∧ (∀ o, owner = Some o → Spec.guard (lease_of w (in_runId input)) o = true)
  ∧ ∃ c w1, settleCommit opts (next_row w input) c w1 = (inr tt, w')
    ∧ rc = (if cm_inserted c then Accepted (en_seq (cm_entry c)) (source_seq_of w input)
            else Duplicate (en_seq (cm_entry c)) (source_seq_of w input))
    ∧ if cm_inserted c
      then existsb (conflicts (next_row w input)) (db_events (w_db w)) = false
           ∧ check_event (next_row w input) = true
           ∧ w1 = set_db (upd_events (λ l, l ++ [next_row w input])) (raised w input)
           ∧ decodeRow (next_row w input) w1 = (inr (cm_entry c), w1)
      else w1 = raised w input ∧ ∃ row, row ∈ db_events (w_db w)
           ∧ decodeRow row w1 = (inr (cm_entry c), w1)
           ∧ (j_eventId row = j_eventId (next_row w input)
              ∨ source_key row = source_key (next_row w input))
           ∧ j_eventType row = in_eventType input
           ∧ j_payloadJson row = j_payloadJson (next_row w input)
           ∧ j_metaJson row = j_metaJson (next_row w input).
Proof.
  intros Hwf H. unfold emitDurable in H.
  apply bind_inr in H as (t & w1 & H1 & H). apply gets_inr in H1 as [-> ->].
  apply bind_inr in H as (p & w1 & H1 & H). rewrite prepare_spec in H1.
  destruct (admissible w input) eqn:Hadm; [|done]. injection H1 as <- <-. split; [done|].
  apply map_error_inr in H. apply bind_inr in H as (enc & w1 & H1 & H).
  apply gets_inr in H1 as [-> ->]. apply bind_inr in H as (r & w1 & H1 & H).
  assert (Hwrite : writeEntry (prepared input) (w_clock w) owner w = (inr r, w1)).
  { destruct (p_settlements (w_proc w)); [done|by apply write_inv]. }
  clear H1. unfold writeEntry in Hwrite.
  apply bind_inr in Hwrite as (q & w2 & Hq & Hwrite). rewrite allocateEntry_spec in Hq.
  destruct (allocates w input) eqn:Hall; [|done]. injection Hq as <- <-. split; [done|].
  apply bind_inr in Hwrite as (c & w2 & Hins & Hwrite). apply ret_inr in Hwrite as [-> ->].
  destruct (raised_lease w input Hwf) as [Hwf1 Hl1].
  apply insertOne_inr in Hins as [Hguard Hins]; [|done]. rewrite raised_next in Hins.
  split; [intros o Ho; rewrite <- Hl1; by apply Hguard|].
  apply bind_inr in H as ([] & w3 & Hset & H). apply ret_inr in H as [-> ->]. simpl in *.
  exists c, w2. split_and!; [done..|].
  destruct (cm_inserted c); [tauto|]. destruct Hins as (-> & row & ?). split; [done|]. by exists row.
Qed.

Lemma emitDurable_inr input owner w rc w' :
  cs_wf w → emitDurable opts input owner w = (inr rc, w') →
  admissible w input = true ∧ allocates w input = true
  ∧ (∀ o, owner = Some o → Spec.guard (lease_of w (in_runId input)) o = true)
  ∧ emit_effect input w w' rc.
Proof.
  intros Hwf H. apply emitDurable_split in H as (? & ? & ? & c & w1 & Hset & -> & Hc); [|done].
  destruct (settleCommit_ok (next_row w input) c w1) as (w2 & Hset2 & Hstep).
  assert (w' = w2) as -> by congruence. clear Hset Hset2.
  split_and!; try done. destruct (cm_inserted c).
  - destruct Hc as (Hconf & Hchk & -> & Hdec). apply decodeRow_inr in Hdec as (_ & _ & -> & _).
    split_and!; try done. eapply proc_appended; [apply (raised_step w input)|].
    eapply appended_proc; [|exact Hstep]. by split.
  - destruct Hc as (-> & row & Hrow & Hdec & Hk & Ht & Hp & Hm).
    apply decodeRow_inr in Hdec as (_ & _ & -> & _).
    split_and!; [by etrans; [apply (raised_step w input)|]|done|]. by exists row.
Qed.

(** *** What holds of the row an input becomes *)

Lemma admissible_spec w input :
  admissible w input = true ↔
  p_status (w_proc w) = Open ∧ (∀ s, in_sourceSeq input = Some s → (0 ≤ s)%Z)
  ∧ nonempty (in_runId input) = true ∧ nonempty (in_sourceId input) = true
  ∧ nonempty (in_eventType input) = true ∧ (0 ≤ w_clock w ≤ max_safe_integer)%Z.
Proof.
  unfold admissible. rewrite !andb_true_iff, bool_decide_eq_true, stamp_ok_spec.
  destruct (in_sourceSeq input) as [s|]; [rewrite bool_decide_eq_true|]; naive_solver.
Qed.

Lemma allocatable_spec n :
  allocatable n = true ↔ (- max_safe_integer ≤ n < max_safe_integer)%Z.
Proof.
  unfold allocatable, is_safe_integer.
  rewrite andb_true_iff, negb_true_iff, bool_decide_eq_true, bool_decide_eq_false. lia.
Qed.

Lemma check_event_spec row : check_event row = true ↔
  nonempty (j_runId row) = true ∧ stamp_ok (j_seq row) = true ∧ nonempty (j_eventId row) = true
  ∧ nonempty (j_sourceId row) = true ∧ stamp_ok (j_sourceSeq row) = true
  ∧ stamp_ok (j_emittedAtMs row) = true ∧ nonempty (j_eventType row) = true
  ∧ json_valid (j_payloadJson row) = true ∧ json_valid (j_metaJson row) = true.
Proof. unfold check_event. rewrite !andb_true_iff. tauto. Qed.

Lemma next_seq_nonneg w r : journal_ok w → (0 ≤ next_seq w r)%Z.
Proof.
  intros [Hc _ _ _]. unfold next_seq.
  destruct (max_agg _) as [m|] eqn:Hm; simpl; [|lia].
  apply max_agg_in, list_elem_of_fmap in Hm as (row & -> & Hrow).
  apply elem_of_filter_b in Hrow as [Hrow _]. apply Hc, check_event_spec in Hrow.
  destruct Hrow as (_ & Hs & _). apply stamp_ok_spec in Hs. lia.
Qed.

Lemma next_row_checked w input :
  journal_ok w → admissible w input = true → allocates w input = true →
  check_event (next_row w input) = true.
Proof.
  intros Hok Hadm Hall. pose proof (next_seq_nonneg w (in_runId input) Hok).
  apply admissible_spec in Hadm as (_ & _ & Hr & Hs & Ht & Hclk).
  unfold allocates in Hall. rewrite !andb_true_iff, !allocatable_spec, bool_decide_eq_true in Hall.
  apply check_event_spec. simpl. rewrite !stamp_ok_spec, !json_valid_stringify, Hr, Hs, Ht.
  split_and!; try done; lia.
Qed.

(** A row conflicts with the new one only through its source key. *)
Lemma next_row_conflict w input :
  journal_ok w →
  (∀ row, row ∈ db_events (w_db w) → source_key row ≠ source_key (next_row w input)) →
  existsb (conflicts (next_row w input)) (db_events (w_db w)) = false.
Proof.
  intros Hok Hsrc. apply existsb_false. intros row Hrow. apply not_true_iff_false.
  rewrite conflicts_spec. intros [Hid|[Hk|Hk]].
  - apply (Hsrc row Hrow), (ev_minted _ Hok row Hrow). by symmetry.
  - by apply (Hsrc row Hrow).
  - injection Hk as Hr Hs. pose proof (next_seq_gt w (in_runId input) row Hrow Hr). simpl in *. lia.
Qed.

(** A source sequence allocated by the store is fresh. *)
Lemma next_row_fresh w input row :
  in_sourceSeq input = None → row ∈ db_events (w_db w) →
  source_key row ≠ source_key (next_row w input).
Proof.
  intros Hnone Hrow Hk. injection Hk as Hr Hs Hn.
  pose proof (next_source_gt w _ _ row Hrow Hr Hs). unfold source_seq_of in Hn.
  rewrite Hnone in Hn. simpl in Hn. lia.
Qed.

(** *** Running an append forward *)

Lemma insertOne_fresh q owner w :
  cs_wf w → (∀ o, owner = Some o → Spec.guard (lease_of w (j_runId q)) o = true) →
  existsb (conflicts q) (db_events (w_db w)) = false → check_event q = true →
  ∃ e, insertOne q owner w = (inr (MkCommit e true), set_db (upd_events (λ l, l ++ [q])) w)
       ∧ en_seq e = j_seq q.
Proof.
  intros Hwf Hg Hconf Hchk. unfold insertOne.
  assert (Hfence : (match owner with Some o => fenceGuard (j_runId q) o | None => ret tt end) w
                   = (inr tt, w)).
  { destruct owner as [o|]; [|done]. unfold fenceGuard, map_error.
    by rewrite law_guard, (Hg o eq_refl) by done. }
  step_by Hfence. clear Hfence Hg.
  assert (Hsel : selectExisting q w = (inr None, w)).
  { unfold selectExisting, get_events, bind, gets.
    assert (List.filter (λ row, same_event_id q row || same_source_seq q row) (db_events (w_db w)) = [])
      as ->; [|done].
    rewrite existsb_false in Hconf. destruct (List.filter _ _) as [|x l] eqn:Hl; [done|].
    assert (x ∈ x :: l) as Hx by left. rewrite <- Hl in Hx.
    apply elem_of_filter_b in Hx as [Hx Hp]. apply Hconf in Hx. unfold conflicts in Hx.
    by rewrite Hp in Hx. }
  step_by Hsel. unfold insert_event. rewrite Hchk. simpl.
  destruct (decodeRow_checked q (set_db (upd_events (λ l, l ++ [q])) w) Hchk) as (e & He).
  exists e. split; [|apply decodeRow_inr in He; tauto].
  unfold get_events. unfold bind, gets. simpl. rewrite Hconf. simpl. by rewrite He.
Qed.

(** The row the store already holds under the source key of [q], when it is a
    minted row: the one a duplicate collides with. *)
Lemma selectExisting_found q w row :
  journal_ok w → j_eventId q = makeEventId (j_runId q) (j_sourceId q) (j_sourceSeq q) →
  row ∈ db_events (w_db w) → source_key row = source_key q →
  selectExisting q w =
  (if negb (bool_decide (j_eventType row = j_eventType q))
      || negb (bool_decide (j_payloadJson row = j_payloadJson q))
      || negb (bool_decide (j_metaJson row = j_metaJson q))
   then fail (jerror "idempotency_conflict")
   else entry <- decodeRow row ;; ret (Some (MkCommit entry false))) w.
Proof.
  intros Hok Hid Hrow Hk. unfold selectExisting, get_events. step.
  set (p := λ row, same_event_id q row || same_source_seq q row).
  assert (Hone : ∀ x, x ∈ order_by_seq (List.filter p (db_events (w_db w))) ↔ x = row).
  { intros x. unfold order_by_seq. rewrite merge_sort_Permutation, elem_of_filter_b. unfold p.
    assert (Hx : x ∈ db_events (w_db w) →
                 same_event_id q x || same_source_seq q x = true ↔ source_key x = source_key q).
    { intros Hx. unfold same_event_id, same_source_seq, of_source, of_run, source_key.
      rewrite orb_true_iff, !andb_true_iff, !bool_decide_eq_true, !pair_equal_spec.
      split; [|tauto]. intros [He|?]; [|tauto]. symmetry in He. rewrite Hid in He.
      apply (ev_minted _ Hok x Hx) in He. injection He as -> -> ->. tauto. }
    split.
    - intros [Hx1 Hx2]. apply Hx in Hx2; [|done].
      eapply (NoDup_key_inj source_key); [apply (ev_source_keys _ Hok)|done..|congruence].
    - intros ->. split; [done|]. by apply Hx. }
  destruct (order_by_seq _) as [|x l].
  - by destruct (not_elem_of_nil row); apply Hone.
  - assert (x = row) as -> by (apply Hone; by left). done.
Qed.

Lemma writeEntry_run input owner w r w1 :
  allocates w input = true →
  insertOne (next_row w input) owner (raised w input) = (r, w1) →
  writeEntry (prepared input) (w_clock w) owner w =
  (match r with inr c => inr (c, next_row w input, source_seq_of w input) | inl e => inl e end, w1).
Proof.
  intros Hall Hins. unfold writeEntry.
  assert (Hq := allocateEntry_spec input w). rewrite Hall in Hq. step_by Hq. simpl.
  destruct r as [e|c]; by step_by Hins.
Qed.

(** The append around a write that succeeded. *)
Lemma emitDurable_run input owner w c q n w1 :
  admissible w input = true →
  writeEntry (prepared input) (w_clock w) owner w = (inr (c, q, n), w1) →
  ∃ w2, emitDurable opts input owner w
        = (inr (if cm_inserted c then Accepted (en_seq (cm_entry c)) n
                else Duplicate (en_seq (cm_entry c)) n), w2) ∧ proc_step w1 w2.
Proof.
  intros Hadm Hw. unfold emitDurable, clock. step.
  assert (Hp := prepare_spec input w). rewrite Hadm in Hp. step_by Hp.
  destruct (settleCommit_ok q c w1) as (w2 & Hset & Hs). exists w2. split; [|done].
  unfold map_error, get_settlements. step.
  assert (Hm : (match p_settlements (w_proc w) with
                | Some _ => writeEntry (prepared input) (w_clock w) owner
                | None => write (writeEntry (prepared input) (w_clock w) owner)
                end) w = (inr (c, q, n), w1)).
  { destruct (p_settlements (w_proc w)); [done|by apply write_ok]. }
  step_by Hm. simpl. by step_by Hset.
Qed.

(** The append around a write the journal refused. *)
Lemma emitDurable_refused input owner w code w1 :
  admissible w input = true →
  writeEntry (prepared input) (w_clock w) owner w = (inl (jerror code), w1) →
  ∃ w2, emitDurable opts input owner w = (inl (jerror code), w2)
        ∧ w_db w2 = (if p_settlements (w_proc w) then w_db w1 else w_db w).
Proof.
  intros Hadm Hw. unfold emitDurable, clock. step.
  assert (Hp := prepare_spec input w). rewrite Hadm in Hp. step_by Hp.
  unfold map_error, get_settlements. step.
  destruct (p_settlements (w_proc w)) as [l|].
  - exists w1. by step_by Hw.
  - exists (set_db (λ _, w_db w) w1). split; [|done].
    assert (Hm : write (writeEntry (prepared input) (w_clock w) owner) w
                 = (inl (jerror code), set_db (λ _, w_db w) w1)) by (unfold write; by rewrite Hw).
    by step_by Hm.
Qed.

Definition holds_lease (w : World) (input : Input) (owner : option OwnerId) : Prop :=
  ∀ o, owner = Some o → Spec.guard (lease_of w (in_runId input)) o = true.

(** An admitted append whose source key is new is accepted. *)
Lemma emitDurable_fresh input owner w :
  cs_wf w → journal_ok w → admissible w input = true → allocates w input = true →
  holds_lease w input owner →
  (∀ row, row ∈ db_events (w_db w) → source_key row ≠ source_key (next_row w input)) →
  ∃ w', emitDurable opts input owner w
        = (inr (Accepted (next_seq w (in_runId input)) (source_seq_of w input)), w')
        ∧ appended w w' [next_row w input].
Proof.
  intros Hwf Hok Hadm Hall Hg Hfresh.
  destruct (raised_lease w input Hwf) as [Hwf1 Hl1].
  destruct (insertOne_fresh (next_row w input) owner (raised w input)) as (e & Hins & He).
  - done.
  - intros o Ho. rewrite Hl1. by apply Hg.
  - rewrite raised_next. by apply next_row_conflict.
  - by apply next_row_checked.
  - pose proof (writeEntry_run _ _ _ _ _ Hall Hins) as Hw.
    destruct (emitDurable_run _ _ _ _ _ _ _ Hadm Hw) as (w2 & -> & Hs). simpl. rewrite He.
    eexists; split; [done|]. eapply proc_appended; [apply (raised_step w input)|].
    eapply appended_proc; [|exact Hs]. by split.
Qed.

Lemma appended_ok w w' input :
  journal_ok w → appended w w' [next_row w input] → check_event (next_row w input) = true →
  existsb (conflicts (next_row w input)) (db_events (w_db w)) = false → journal_ok w'.
Proof.
  intros Hok Happ Hchk Hconf. unfold journal_ok. rewrite (app_events _ _ _ Happ).
  by apply events_ok_snoc.
Qed.

Lemma appended_wf w w' new : cs_wf w → appended w w' new →
  cs_wf w' ∧ ∀ r, lease_of w' r = lease_of w r.
Proof.
  intros Hwf Happ. destruct (law_ext w w') as [H1 H2].
  - by rewrite (appended_leases _ _ _ Happ).
  - by rewrite (app_local _ _ _ Happ).
  - split; [by apply H1|]. intros r. by rewrite H2.
Qed.

(** An append never removes or rewrites a row, keeps the invariant and the
    leases, and adds at most one row. *)
Lemma emitDurable_extends input owner w rc w' :
  cs_wf w → journal_ok w → emitDurable opts input owner w = (inr rc, w') →
  journal_ok w' ∧ cs_wf w' ∧ (∀ r, lease_of w' r = lease_of w r) ∧
  ∃ new, appended w w' new ∧ new = (match rc with Accepted _ _ => [next_row w input] | _ => [] end).
Proof.
  intros Hwf Hok H. apply emitDurable_inr in H as (_ & _ & _ & H); [|done].
  destruct rc as [seq n|seq n]; simpl in H.
  - destruct H as (Happ & _ & _ & Hconf & Hchk).
    destruct (appended_wf _ _ _ Hwf Happ). split_and!; [by eapply appended_ok|done|done|by eexists].
  - destruct H as [Hps%proc_step_appended _]. destruct (appended_wf _ _ _ Hwf Hps).
    split_and!; [|done|done|by eexists].
    unfold journal_ok. rewrite (app_events _ _ _ Hps). by rewrite app_nil_r.
Qed.

(** *** Inside a transaction *)

(** The state of a transaction's journal memory relative to its start: nothing
    is published, and the parked settlements are the appended rows with the
    entries they decode to. *)
Record parked (w w' : World) (new : list JournalRow) (ents : list Entry) : Prop := MkParked {
  pk_published : p_published (w_proc w') = p_published (w_proc w);
  pk_settle : ∃ l, p_settlements (w_proc w') = Some l
    ∧ omap (λ s : JournalRow * Commit,
        if cm_inserted s.2 then Some (s.1, cm_entry s.2) else None) l = zip new ents;
  pk_decodes : Forall2 (λ row e, ∀ w0, decodeRow row w0 = (inr e, w0)) new ents
}.

Lemma decodeRow_any row w e w' w0 :
  decodeRow row w = (inr e, w') → decodeRow row w0 = (inr e, w0).
Proof.
  unfold decodeRow. destruct (parse (j_payloadJson row)), (parse (j_metaJson row)); try done.
  destruct (bool_decide _); [|done]. unfold ret. congruence.
Qed.

Lemma settleCommit_nested q c w l :
  p_settlements (w_proc w) = Some l →
  settleCommit opts q c w = (inr tt, set_proc (set_settlements (Some (l ++ [(q, c)]))) w).
Proof. intros Hl. unfold settleCommit, get_settlements, bind, gets. by rewrite Hl. Qed.

Lemma raised_parked w0 w input new ents : parked w0 w new ents → parked w0 (raised w input) new ents.
Proof. intros [Hp (l & Hl & Hz) Hd]. split; [done| |done]. by exists l. Qed.

Lemma parked_emit w0 w new ents input owner rc w' :
  cs_wf w → journal_ok w → parked w0 w new ents → length new = length ents →
  emitDurable opts input owner w = (inr rc, w') →
  ∃ new' ents', parked w0 w' (new ++ new') (ents ++ ents') ∧ appended w w' new'
    ∧ length new' = length ents' ∧ journal_ok w' ∧ cs_wf w'.
Proof.
  intros Hwf Hok Hpk Hlen H.
  destruct (emitDurable_extends _ _ _ _ _ Hwf Hok H) as (Hok' & Hwf' & _ & new' & Happ & Hnew).
  apply emitDurable_split in H as (_ & _ & _ & c & w1 & Hset & -> & Hc); [|done].
  destruct (raised_parked _ _ input _ _ Hpk) as [Hp (l & Hl & Hz) Hd].
  destruct (cm_inserted c) eqn:Hins.
  - destruct Hc as (_ & _ & -> & Hdec).
    pose proof (settleCommit_nested (next_row w input) c
      (set_db (upd_events (λ l, l ++ [next_row w input])) (raised w input)) l Hl) as Hset2.
    rewrite Hset2 in Hset. clear Hset2. injection Hset as <-.
    exists [next_row w input], [cm_entry c]. rewrite Hnew in Happ. split_and!; try done.
    split; [done| |].
    + eexists; split; [done|]. rewrite omap_app, Hz. simpl. rewrite Hins. simpl.
      rewrite zip_with_app by done. done.
    + apply Forall2_app; [done|]. repeat constructor. intros w2. by eapply decodeRow_any.
  - destruct Hc as [-> _]. rewrite (settleCommit_nested _ _ _ l Hl) in Hset. injection Hset as <-.
    exists [], []. rewrite !app_nil_r. rewrite Hnew in Happ. split_and!; try done.
    split; [done| |done]. eexists; split; [done|]. rewrite omap_app, Hz. simpl.
    rewrite Hins. simpl. by rewrite app_nil_r.
Qed.

Lemma parked_emits w0 w new ents inputs owner rs w' :
  cs_wf w → journal_ok w → parked w0 w new ents → length new = length ents →
  for_each (λ input, emitDurable opts input owner) inputs w = (inr rs, w') →
  ∃ new' ents', parked w0 w' (new ++ new') (ents ++ ents') ∧ appended w w' new'
    ∧ length new' = length ents' ∧ journal_ok w' ∧ cs_wf w'.
Proof.
  revert w new ents rs. induction inputs as [|i rest IH]; intros w new ents rs Hwf Hok Hpk Hlen H; simpl in H.
  - apply ret_inr in H as [-> ->]. exists [], []. rewrite !app_nil_r. split_and!; try done.
    by apply proc_step_appended.
  - apply bind_inr in H as (rc & w1 & H1 & H). apply bind_inr in H as (rs' & w2 & H2 & H).
    apply ret_inr in H as [-> ->].
    destruct (parked_emit _ _ _ _ _ _ _ _ Hwf Hok Hpk Hlen H1)
      as (n1 & e1 & Hpk1 & Happ1 & Hlen1 & Hok1 & Hwf1).
    assert (Hlen' : length (new ++ n1) = length (ents ++ e1)) by (rewrite !length_app; lia).
    destruct (IH _ _ _ _ Hwf1 Hok1 Hpk1 Hlen' H2)
      as (n2 & e2 & Hpk2 & Happ2 & Hlen2 & Hok2 & Hwf2).
    exists (n1 ++ n2), (e1 ++ e2). rewrite !app_assoc. split_and!; try done.
    + by eapply appended_trans.
    + rewrite !length_app. lia.
Qed.

(** Nothing is published while the transaction is open. *)
Definition quiet (P : list Entry) (w : World) : Prop :=
  cs_wf w ∧ is_Some (p_settlements (w_proc w)) ∧ p_published (w_proc w) = P.

Lemma quiet_ext P w w' : quiet P w → w_proc w' = w_proc w → db_leases (w_db w') = db_leases (w_db w) →
  w_local w' = w_local w → quiet P w'.
Proof.
  intros (Hwf & Hs & Hp) Hproc Hdb Hl. destruct (law_ext w w') as [H1 _]; [done..|].
  split; [by apply H1|]. by rewrite Hproc.
Qed.

Lemma quiet_insertOne P q owner : preserves (quiet P) (insertOne q owner).
Proof.
  unfold insertOne, insert_event, sql_fail.
  assert (Hg : ∀ o, preserves (quiet P) (fenceGuard (j_runId q) o)).
  { intros o w Hw. unfold fenceGuard, map_error. rewrite law_guard by apply Hw.
    by destruct (Spec.guard _ _). }
  assert (Hd : ∀ row, preserves (quiet P) (decodeRow row)).
  { intros row. unfold decodeRow. solve_preserves. }
  assert (Hs : preserves (quiet P) (selectExisting q)).
  { unfold selectExisting, get_events. solve_preserves. }
  unfold get_events. solve_preserves.
  apply preserves_modify. intros w Hw. by eapply quiet_ext.
Qed.

Lemma quiet_raised P w input : quiet P w → quiet P (raised w input).
Proof.
  intros (Hwf & Hs & Hp). destruct (raised_lease w input Hwf) as [Hwf1 _].
  split; [done|]. by split.
Qed.

Lemma quiet_emit P input owner : preserves (quiet P) (emitDurable opts input owner).
Proof.
  intros w Hw. unfold emitDurable, clock. step. pose proof (prepare_spec input w) as Hp.
  destruct (admissible w input); [|by step_by Hp]. step_by Hp.
  unfold get_settlements, map_error. step. destruct Hw as (Hwf & [l Hl] & HP). rewrite Hl.
  assert (Hq : quiet P w) by (split; [done|]; by rewrite Hl).
  pose proof (allocateEntry_spec input w) as Ha.
  destruct (allocates w input) eqn:Hall.
  - pose proof (quiet_insertOne P (next_row w input) owner (raised w input) (quiet_raised _ _ input Hq)) as Hi.
    destruct (insertOne (next_row w input) owner (raised w input)) as [[e|c] w1] eqn:Hins; simpl in Hi.
    + pose proof (writeEntry_run _ _ _ _ _ Hall Hins) as Hw. by step_by Hw.
    + pose proof (writeEntry_run _ _ _ _ _ Hall Hins) as Hw. step_by Hw. simpl.
      destruct Hi as (Hwf1 & [l1 Hl1] & HP1). step_by (settleCommit_nested (next_row w input) c w1 l1 Hl1).
      simpl. split; [|split; [done|by simpl]].
      by eapply (law_ext w1).
  - assert (Hw : writeEntry (prepared input) (w_clock w) owner w = (inl (jerror "invalid_event"), w)).
    { unfold writeEntry. by step_by Ha. }
    by step_by Hw.
Qed.

(** Settling publishes the inserted commits, in order, and nothing else. *)
Lemma settle_all_published l w us w' :
  for_each (λ s, settle_now opts s.1 s.2) l w = (inr us, w') →
  w_db w' = w_db w ∧ p_settlements (w_proc w') = p_settlements (w_proc w) ∧
  p_published (w_proc w') = p_published (w_proc w) ++
    (omap (λ s : JournalRow * Commit,
        if cm_inserted s.2 then Some (s.1, cm_entry s.2) else None) l).*2.
Proof.
  revert w us. induction l as [|[q c] l IH]; intros w us H; simpl in H.
  - apply ret_inr in H as [-> ->]. by rewrite app_nil_r.
  - apply bind_inr in H as ([] & w1 & H1 & H). apply bind_inr in H as (us' & w2 & H2 & H).
    apply ret_inr in H as [-> ->]. destruct (IH _ _ H2) as (-> & -> & ->).
    unfold settle_now, publish in H1. simpl in H1. destruct (cm_inserted c) eqn:Hc; run; simplify_eq/=.
    + split_and!; [done..|]. by rewrite Hc, <- app_assoc.
    + by rewrite Hc.
Qed.

Lemma transact_write_inr {A} (body : M A) w a w' :
  transact_write body w = (inr a, w') → body w = (inr a, w').
Proof. intros H%map_error_inr. by apply write_inv. Qed.

Lemma transact_write_db {A} (body : M A) w e w' :
  transact_write body w = (inl e, w') → w_db w' = w_db w.
Proof.
  unfold transact_write, map_error. destruct (write body w) as [[e'|a] w1] eqn:Hw; [|done].
  intros [= _ <-]. by eapply write_err_db.
Qed.

Definition emit_all (inputs : list Input) (owner : option OwnerId) : M (list DurableReceipt) :=
  for_each (λ input, emitDurable opts input owner) inputs.

Definition open_transaction (w : World) : World := set_proc (set_settlements (Some [])) w.

Lemma open_parked w : parked w (open_transaction w) [] [].
Proof. split; [done| |done]. by exists []. Qed.

Lemma open_quiet w : cs_wf w → quiet (p_published (w_proc w)) (open_transaction w).
Proof. intros Hwf. split; [|by split; [eexists|]]. by eapply (law_ext w). Qed.

Lemma zip_snd {A B} (l : list A) (k : list B) : length l = length k → (zip l k).*2 = k.
Proof. intros H. apply snd_zip. lia. Qed.

(** ** Properties *)

(** An admitted append whose source sequence the store allocates is
    accepted: it takes the run's next sequence and the producer's next source
    sequence, adds exactly the row of that input and touches no other table,
    and the event table keeps its invariant (a minted identity belongs to its
    source key; primary keys and source keys are unique). *)
Theorem append_accepted input owner w :
  cs_wf w → journal_ok w → in_sourceSeq input = None →
  admissible w input = true → allocates w input = true → holds_lease w input owner →
  ∃ w', emitDurable opts input owner w
        = (inr (Accepted (next_seq w (in_runId input))
                         (next_source w (in_runId input) (in_sourceId input))), w')
        ∧ appended w w' [next_row w input] ∧ journal_ok w'.
Proof.
  intros Hwf Hok Hnone Hadm Hall Hg.
  destruct (emitDurable_fresh input owner w) as (w' & He & Happ); try done.
  { intros row. by apply next_row_fresh. }
  pose proof (emitDurable_extends _ _ _ _ _ Hwf Hok He) as (Hok' & _).
  exists w'. split_and!; [|done|done]. rewrite He. unfold source_seq_of. by rewrite Hnone.
Qed.

(** Whatever an append that succeeded did, it neither removed nor changed a
    stored event, kept the event table's invariant, and, when it reports
    [Accepted seq], stored the new row past every sequence the run already
    had. *)
Theorem append_extends_run input owner w rc w' :
  cs_wf w → journal_ok w → emitDurable opts input owner w = (inr rc, w') →
  journal_ok w' ∧ ∃ new, db_events (w_db w') = db_events (w_db w) ++ new ∧
  match rc with
  | Accepted seq _ =>
      (∃ q, new = [q] ∧ j_runId q = in_runId input ∧ j_seq q = seq)
      ∧ ∀ row, row ∈ db_events (w_db w) → j_runId row = in_runId input → (j_seq row < seq)%Z
  | Duplicate seq _ => new = [] ∧ ∃ row, row ∈ db_events (w_db w) ∧ j_runId row = in_runId input
                                         ∧ j_seq row = seq
  end.
Proof.
  intros Hwf Hok H. pose proof (emitDurable_extends _ _ _ _ _ Hwf Hok H) as (Hok' & _ & _ & new & Happ & ->).
  split; [done|]. eexists; split; [apply Happ|].
  apply emitDurable_inr in H as (_ & _ & _ & H); [|done]. destruct rc as [seq n|seq n]; simpl in H.
  - destruct H as (_ & -> & _). split; [by eexists|]. intros row. apply next_seq_gt.
  - destruct H as (_ & _ & row & Hrow & Hseq & Hk & _). split; [done|]. exists row. split_and!; try done.
    destruct Hk as [Hid|Hk]; [|by injection Hk].
    apply (ev_minted _ Hok row Hrow) in Hid. by injection Hid.
Qed.

(** Appends are idempotent on the producer's key: emitting again an input
    with an explicit source sequence, in any later state of the journal that
    still holds the first append's row, reports [Duplicate] with the sequence
    the row already has and writes nothing. *)
Theorem reemit_is_duplicate input owner w seq n w1 w2 :
  cs_wf w → journal_ok w → is_Some (in_sourceSeq input) →
  emitDurable opts input owner w = (inr (Accepted seq n), w1) →
  cs_wf w2 → journal_ok w2 → (∀ row, row ∈ db_events (w_db w1) → row ∈ db_events (w_db w2)) →
  admissible w2 input = true → allocates w2 input = true → holds_lease w2 input owner →
  ∃ w3, emitDurable opts input owner w2 = (inr (Duplicate seq n), w3) ∧ w_db w3 = w_db w2.
Proof.
  intros Hwf Hok [n0 Hn0] H Hwf2 Hok2 Hsub Hadm Hall Hg.
  apply emitDurable_inr in H as (_ & _ & _ & Happ & -> & -> & _ & Hchk); [|done].
  assert (Hrow : next_row w input ∈ db_events (w_db w2)).
  { apply Hsub. rewrite (app_events _ _ _ Happ). apply elem_of_app. right. by left. }
  assert (Hsrc : ∀ w0, source_seq_of w0 input = n0) by (intros w0; unfold source_seq_of; by rewrite Hn0).
  destruct (raised_lease w2 input Hwf2) as [Hwf3 Hl3].
  destruct (decodeRow_checked (next_row w input) (raised w2 input) Hchk) as (e & He).
  assert (Hins : insertOne (next_row w2 input) owner (raised w2 input)
                 = (inr (MkCommit e false), raised w2 input)).
  { unfold insertOne.
    assert (Hf : (match owner with Some o => fenceGuard (in_runId input) o | None => ret tt end)
                   (raised w2 input) = (inr tt, raised w2 input)).
    { destruct owner as [o|]; [|done]. unfold fenceGuard, map_error.
      by rewrite law_guard, Hl3, (Hg o eq_refl) by done. }
    step_by Hf.
    assert (Hsel : selectExisting (next_row w2 input) (raised w2 input)
                   = (inr (Some (MkCommit e false)), raised w2 input)).
    { rewrite (selectExisting_found _ _ (next_row w input)).
      - simpl. rewrite !bool_decide_true by done. simpl. by step_by He.
      - unfold journal_ok. by rewrite raised_next.
      - done.
      - by rewrite raised_next.
      - unfold source_key. simpl. by rewrite !Hsrc. }
    by step_by Hsel. }
  pose proof (writeEntry_run _ _ _ _ _ Hall Hins) as Hw.
  destruct (emitDurable_run _ _ _ _ _ _ _ Hadm Hw) as (w3 & Hem & Hs). simpl in Hem.
  apply decodeRow_inr in He as (_ & _ & He & _). rewrite He in Hem.
  exists w3. rewrite Hem, !Hsrc. split; [done|]. rewrite (ps_db _ _ Hs). apply raised_step.
Qed.

(** Reusing a producer's key for different content is refused: when the
    stored row under the key differs in event type, payload or metadata, the
    append fails with [idempotency_conflict] and writes nothing. *)
Theorem reused_key_conflicts input owner w row :
  cs_wf w → journal_ok w → admissible w input = true → allocates w input = true →
  holds_lease w input owner → row ∈ db_events (w_db w) →
  source_key row = source_key (next_row w input) →
  (j_eventType row, j_payloadJson row, j_metaJson row)
  ≠ (in_eventType input, j_payloadJson (next_row w input), j_metaJson (next_row w input)) →
  ∃ w', emitDurable opts input owner w = (inl (jerror "idempotency_conflict"), w')
        ∧ w_db w' = w_db w.
Proof.
  intros Hwf Hok Hadm Hall Hg Hrow Hk Hne.
  destruct (raised_lease w input Hwf) as [Hwf1 Hl1].
  assert (Hins : insertOne (next_row w input) owner (raised w input)
                 = (inl (jerror "idempotency_conflict"), raised w input)).
  { unfold insertOne.
    assert (Hf : (match owner with Some o => fenceGuard (in_runId input) o | None => ret tt end)
                   (raised w input) = (inr tt, raised w input)).
    { destruct owner as [o|]; [|done]. unfold fenceGuard, map_error.
      by rewrite law_guard, Hl1, (Hg o eq_refl) by done. }
    step_by Hf.
    assert (Hsel : selectExisting (next_row w input) (raised w input)
                   = (inl (jerror "idempotency_conflict"), raised w input)).
    { rewrite (selectExisting_found _ _ row); [|unfold journal_ok; by rewrite raised_next|done
        |by rewrite raised_next|done]. simpl.
      destruct (decide (j_eventType row = in_eventType input)) as [Ht|];
        [|by rewrite (bool_decide_false (_ = in_eventType input))].
      destruct (decide (j_payloadJson row = j_payloadJson (next_row w input))) as [Hp|];
        [|by rewrite (bool_decide_false (j_payloadJson row = _)), orb_true_r by done].
      rewrite (bool_decide_false (j_metaJson row = _)), !orb_true_r; [done|].
      intros Hm. apply Hne. rewrite Ht, Hp. by f_equal. }
    by step_by Hsel. }
  pose proof (writeEntry_run _ _ _ _ _ Hall Hins) as Hw.
  destruct (emitDurable_refused _ _ _ _ _ Hadm Hw) as (w2 & Hem & Hdb).
  exists w2. split; [done|]. rewrite Hdb, (ps_db _ _ (raised_step w input)).
  by destruct (p_settlements (w_proc w)).
Qed.

(** C24. A writer that no longer holds the run's lease cannot append, not even
    the duplicate of an event it wrote before: a fenced append under a lost
    lease fails with [fence_lost] and leaves every table as it was. *)
Theorem zombie_append_fenced input o w :
  cs_wf w → admissible w input = true → allocates w input = true →
  Spec.guard (lease_of w (in_runId input)) o = false →
  ∃ w', emitDurable opts input (Some o) w = (inl (jerror "fence_lost"), w') ∧ w_db w' = w_db w.
Proof.
  intros Hwf Hadm Hall Hg. destruct (raised_lease w input Hwf) as [Hwf1 Hl1].
  assert (Hins : insertOne (next_row w input) (Some o) (raised w input)
                 = (inl (jerror "fence_lost"), raised w input)).
  { unfold insertOne. simpl.
    assert (Hf : fenceGuard (in_runId input) o (raised w input)
                 = (inl (jerror "fence_lost"), raised w input)).
    { apply fenceGuard_lost; [done|]. by rewrite Hl1. }
    by step_by Hf. }
  pose proof (writeEntry_run _ _ _ _ _ Hall Hins) as Hw.
  destruct (emitDurable_refused _ _ _ _ _ Hadm Hw) as (w2 & Hem & Hdb).
  exists w2. split; [done|]. rewrite Hdb, (ps_db _ _ (raised_step w input)).
  by destruct (p_settlements (w_proc w)).
Qed.

(** C26. [transact] publishes after commit or not at all.  A transaction of
    appends that fails leaves every table unchanged and publishes nothing; one
    that succeeds has added a list of rows and then published exactly the
    entries those rows decode to, in the order they were appended.  Either way
    the transaction is closed. *)
Theorem transact_atomic inputs owner w r w' :
  cs_wf w → journal_ok w → p_settlements (w_proc w) = None →
  transact opts (emit_all inputs owner) w = (r, w') →
  p_settlements (w_proc w') = None ∧
  match r with
  | inl _ => w_db w' = w_db w ∧ p_published (w_proc w') = p_published (w_proc w)
  | inr _ => ∃ new ents, db_events (w_db w') = db_events (w_db w) ++ new
      ∧ p_published (w_proc w') = p_published (w_proc w) ++ ents
      ∧ Forall2 (λ row e, ∀ w0, decodeRow row w0 = (inr e, w0)) new ents
  end.
Proof.
  intros Hwf Hok Hnone H. unfold transact, get_settlements in H.
  erewrite bind_run in H; [|reflexivity]. rewrite Hnone in H.
  set (body := (modify (set_proc (set_settlements (Some []))) ;; emit_all inputs owner)) in H.
  destruct (transact_write body w) as [[e|rs] w1] eqn:Hw.
  - injection H as <- <-. split; [done|]. simpl. split; [by eapply transact_write_db|].
    assert (Hq : quiet (p_published (w_proc w)) (body w).2).
    { apply (preserves_for_each (quiet (p_published (w_proc w)))
               (λ i, emitDurable opts i owner) inputs (λ i, quiet_emit _ i owner)).
      by apply open_quiet. }
    unfold transact_write, map_error, write in Hw.
    destruct (body w) as [[e'|rs'] w2]; simplify_eq/=. apply Hq.
  - apply transact_write_inr in Hw.
    assert (Hok1 : journal_ok (open_transaction w)) by done.
    destruct (parked_emits w (open_transaction w) [] [] inputs owner rs w1)
      as (new & ents & [Hp (l & Hl & Hz) Hd] & Happ & Hlen & _); try done.
    { by apply open_quiet. }
    { apply open_parked. }
    destruct (settle_all_ok l (set_proc (set_settlements None) w1)) as (us & w3 & Hs & _).
    rewrite Hl in H. erewrite bind_run in H; [|reflexivity]. simpl in H.
    erewrite bind_run in H; [|exact Hs]. injection H as <- <-.
    apply settle_all_published in Hs as (Hdb & -> & ->). split; [done|].
    exists new, ents. simpl in *. rewrite Hdb. rewrite Hz, zip_snd by done.
    split_and!; [apply Happ|by rewrite Hp|done].
Qed.

End append.

(** ** The hypotheses hold: concrete runs *)

Module Demo.
Import Ex.

(** A journal with the default bounds and no rewriting, the in-memory
    strategy, the codec [plain_json], and run ["r"] owned by [alice]. *)
Definition opts : ValidatedOptions := MkValidatedOptions 64 4096 id.
Definition input (n : option Z) (v : json) : Input :=
  MkInput "r" "src" n "app.step" v None.

(** The world after a first append of [input (Some 7) v]. *)
Definition emitted : World := (emitDurable opts (input (Some 7%Z) JNull) (Some alice) (owned alice)).2.

Lemma empty_ok w : db_events (w_db w) = [] → journal_ok w.
Proof.
  unfold journal_ok. intros ->. split; [by intros ? ?%not_elem_of_nil..| |]; apply NoDup_nil_2.
Qed.

Lemma owner_holds (w : World) (i : Input) o :
  Spec.guard (lease_of w (in_runId i)) o = true → holds_lease w i (Some o).
Proof. intros H ? [= <-]. exact H. Qed.

Lemma emitted_eq :
  emitDurable opts (input (Some 7%Z) JNull) (Some alice) (owned alice) = (inr (Accepted 0 7), emitted).
Proof. vm_compute. reflexivity. Qed.

Lemma emitted_ok : journal_ok emitted.
Proof.
  apply (emitDurable_extends opts (input (Some 7%Z) JNull) (Some alice) (owned alice)
           (Accepted 0 7) emitted); [exact I|by apply empty_ok|exact emitted_eq].
Qed.
End Demo.

Lemma append_accepted_witness :
  ∃ w', emitDurable Demo.opts (Demo.input None JNull) (Some Ex.alice) (Ex.owned Ex.alice)
        = (inr (Accepted 0 0), w')
        ∧ appended (Ex.owned Ex.alice) w'
            [next_row Demo.opts (Ex.owned Ex.alice) (Demo.input None JNull)]
        ∧ journal_ok w'.
Proof.
  apply (append_accepted Demo.opts (Demo.input None JNull) (Some Ex.alice) (Ex.owned Ex.alice)).
  - exact I.
  - by apply Demo.empty_ok.
  - reflexivity.
  - reflexivity.
  - reflexivity.
  - by apply Demo.owner_holds.
Defined.

Lemma append_extends_run_witness :
  journal_ok Demo.emitted ∧ ∃ new,
    db_events (w_db Demo.emitted) = db_events (w_db (Ex.owned Ex.alice)) ++ new ∧
    (∃ q, new = [q] ∧ j_runId q = "r" ∧ j_seq q = 0%Z)
    ∧ ∀ row, row ∈ db_events (w_db (Ex.owned Ex.alice)) → j_runId row = "r" → (j_seq row < 0)%Z.
Proof.
  apply (append_extends_run Demo.opts (Demo.input (Some 7%Z) JNull) (Some Ex.alice)
           (Ex.owned Ex.alice) (Accepted 0 7) Demo.emitted).
  - exact I.
  - by apply Demo.empty_ok.
  - exact Demo.emitted_eq.
Defined.

Lemma reemit_is_duplicate_witness :
  ∃ w3, emitDurable Demo.opts (Demo.input (Some 7%Z) JNull) (Some Ex.alice) Demo.emitted
        = (inr (Duplicate 0 7), w3) ∧ w_db w3 = w_db Demo.emitted.
Proof.
  apply (reemit_is_duplicate Demo.opts (Demo.input (Some 7%Z) JNull) (Some Ex.alice)
           (Ex.owned Ex.alice) 0 7 Demo.emitted Demo.emitted).
  - exact I.
  - by apply Demo.empty_ok.
  - by eexists.
  - exact Demo.emitted_eq.
  - exact I.
  - exact Demo.emitted_ok.
  - done.
  - vm_compute. reflexivity.
  - vm_compute. reflexivity.
  - apply Demo.owner_holds. vm_compute. reflexivity.
Defined.

Lemma reused_key_conflicts_witness :
  ∃ w', emitDurable Demo.opts (Demo.input (Some 7%Z) (JNum 3)) (Some Ex.alice) Demo.emitted
        = (inl (jerror "idempotency_conflict"), w') ∧ w_db w' = w_db Demo.emitted.
Proof.
  apply (reused_key_conflicts Demo.opts (Demo.input (Some 7%Z) (JNum 3)) (Some Ex.alice) Demo.emitted
           (next_row Demo.opts (Ex.owned Ex.alice) (Demo.input (Some 7%Z) JNull))).
  - exact I.
  - exact Demo.emitted_ok.
  - vm_compute. reflexivity.
  - vm_compute. reflexivity.
  - apply Demo.owner_holds. vm_compute. reflexivity.
  - vm_compute. left.
  - vm_compute. reflexivity.
  - vm_compute. congruence.
Defined.

Lemma zombie_append_fenced_witness :
  ∃ w', emitDurable Demo.opts (Demo.input None JNull) (Some Ex.bob) (Ex.owned Ex.alice)
        = (inl (jerror "fence_lost"), w') ∧ w_db w' = w_db (Ex.owned Ex.alice).
Proof.
  apply (zombie_append_fenced Demo.opts (Demo.input None JNull) Ex.bob (Ex.owned Ex.alice));
    [exact I|reflexivity..].
Defined.

Lemma transact_atomic_witness :
  let inputs := [Demo.input None JNull; Demo.input None (JNum 1)] in
  let r := transact Demo.opts (emit_all Demo.opts inputs (Some Ex.alice)) (Ex.owned Ex.alice) in
  p_settlements (w_proc r.2) = None ∧
  match r.1 with
  | inl _ => w_db r.2 = w_db (Ex.owned Ex.alice)
             ∧ p_published (w_proc r.2) = p_published (w_proc (Ex.owned Ex.alice))
  | inr _ => ∃ new ents, db_events (w_db r.2) = db_events (w_db (Ex.owned Ex.alice)) ++ new
      ∧ p_published (w_proc r.2) = p_published (w_proc (Ex.owned Ex.alice)) ++ ents
      ∧ Forall2 (λ row e, ∀ w0, decodeRow row w0 = (inr e, w0)) new ents
  end.
Proof.
  intros inputs r.
  apply (transact_atomic Demo.opts inputs (Some Ex.alice) (Ex.owned Ex.alice) r.1 r.2).
  - exact I.
  - by apply Demo.empty_ok.
  - reflexivity.
  - unfold r. by destruct (transact _ _ _).
Defined.
