(* ===== verification/RunStore.v ===== *)
(** The run store: the rows of [flows_runs], their ownership and their
    lifecycle ([run-store/src/RunStore.ts]).

    Every operation runs over [World] through the consensus strategy [C] and the
    journal: a row write and the events that describe it share one journal
    transaction ([writeThrough]). *)

From S2P Require Export Journal.

#[local] Open Scope me_scope.

(** ** Data *)

(** The persisted fields a claim guards. *)
Record RunSnapshot := MkRunSnapshot {
  sn_status : RunStatus;
  sn_owner : option OwnerId;
  sn_heartbeatAtMs : option Z
}.

(** A decoded row. *)
Record Run := MkRun {
  run_runId : string;
  run_status : RunStatus;
  run_createdAtMs : Z;
  run_startedAtMs : option Z;
  run_finishedAtMs : option Z;
  run_owner : option OwnerId;
  run_heartbeatAtMs : option Z;
  run_claim : option OwnerId;
  run_claimedAtMs : option Z;
  run_parentRunId : option string;
  run_cancelRequestedAtMs : option Z;
  run_lineageId : option string;
  run_roundOrdinal : option Z;
  run_stateJson : string
}.

Record CreateOptions := MkCreateOptions {
  co_parentRunId : option string;
  co_lineageId : option string;
  co_roundOrdinal : option Z
}.

Inductive CancelGuard := GuardAbsent | GuardPresent.

(** The outcome tags of the operations. *)
Inductive Outcome :=
| Claimed (claimedAtMs : Z)
| NotFound | AlreadyClaimed | HeartbeatFresh | SnapshotChanged | EvidenceRequired
| Activated | ClaimLost | Abandoned | Recovered | ClaimFresh | ClaimChanged | LivenessUnconfirmed
| Updated | FenceLost | Transitioned | GuardFailed
| CancelRequested (requestedAtMs : Z) | AlreadyRequested (requestedAtMs : Z).

#[export] Instance Outcome_eq_dec : EqDecision Outcome.
Proof. solve_decision. Defined.

(** ** Errors *)

Definition runStoreError (code : string) (cause : error) : error := err_cause RunStoreError code cause.
Definition persistenceError (cause : error) : error :=
  runStoreError (if hasCauseCode cause "constraint" then "constraint" else "persistence_failed") cause.
Definition invalidRunError : error := err RunStoreError "invalid_run".

(** ** Row predicates *)

Definition ownerFromColumns (c : OwnerCols) : option (option OwnerId) :=
  match c with
  | MkOwnerCols None None None => Some None
  | MkOwnerCols (Some h) (Some p) (Some n) => Some (Some (MkOwnerId h p n))
  | _ => None
  end.

Definition rowMatchesClaim (row : RunRow) (claimant : OwnerId) (claimedAtMs : Z) : bool :=
  cols_are (r_claim row) claimant && col_is (r_claimedAtMs row) claimedAtMs.

Definition snapshotMatchesRow (row : RunRow) (expected : RunSnapshot) : bool :=
  bool_decide (r_status row = sn_status expected)
  && bool_decide (c_host (r_owner row) = hostId <$> sn_owner expected)
  && bool_decide (c_pid (r_owner row) = pid <$> sn_owner expected)
  && bool_decide (c_nonce (r_owner row) = nonce <$> sn_owner expected)
  && bool_decide (r_heartbeatAtMs row = sn_heartbeatAtMs expected).

Definition claimColumnsFree (row : RunRow) : bool :=
  is_null (c_host (r_claim row)) && is_null (c_pid (r_claim row)) && is_null (c_nonce (r_claim row))
  && is_null (r_claimedAtMs row).

Definition classifyClaimLoss (row : option RunRow) (nowMs : Z) : Outcome :=
  match row with
  | None => NotFound
  | Some row =>
      if negb (is_null (c_host (r_claim row))) then AlreadyClaimed
      else if bool_decide (r_status row = Running)
              && match r_heartbeatAtMs row with
                 | Some h => bool_decide (nowMs - heartbeatStaleAfter ≤ h)%Z
                 | None => false
                 end
      then HeartbeatFresh
      else SnapshotChanged
  end.

Definition evidenceMatches (expected : RunSnapshot) (claimant : OwnerId) (nowMs : Z)
    (evidence : LivenessEvidence) : bool :=
  bool_decide (sn_status expected = Running)
  && match sn_owner expected with
     | Some o => matchesEvidence o claimant nowMs evidence
     | None => false
     end.

(** ** Row updates *)

Definition set_row_claim (claim : OwnerCols) (claimedAtMs : option Z) (row : RunRow) : RunRow :=
  MkRunRow (r_status row) (r_createdAtMs row) (r_startedAtMs row) (r_finishedAtMs row) (r_owner row)
    (r_heartbeatAtMs row) claim claimedAtMs (r_parentRunId row) (r_cancelRequestedAtMs row)
    (r_waitingReason row) (r_waitingWakeAtMs row) (r_waitingToken row) (r_lineageId row)
    (r_roundOrdinal row) (r_stateJson row).

Definition clear_row_claim : RunRow → RunRow := set_row_claim null_cols None.

Definition set_row_cancel (requestedAtMs : option Z) (row : RunRow) : RunRow :=
  MkRunRow (r_status row) (r_createdAtMs row) (r_startedAtMs row) (r_finishedAtMs row) (r_owner row)
    (r_heartbeatAtMs row) (r_claim row) (r_claimedAtMs row) (r_parentRunId row) requestedAtMs
    (r_waitingReason row) (r_waitingWakeAtMs row) (r_waitingToken row) (r_lineageId row)
    (r_roundOrdinal row) (r_stateJson row).

Definition set_row_heartbeat (heartbeatAtMs : option Z) (row : RunRow) : RunRow :=
  MkRunRow (r_status row) (r_createdAtMs row) (r_startedAtMs row) (r_finishedAtMs row) (r_owner row)
    heartbeatAtMs (r_claim row) (r_claimedAtMs row) (r_parentRunId row) (r_cancelRequestedAtMs row)
    (r_waitingReason row) (r_waitingWakeAtMs row) (r_waitingToken row) (r_lineageId row)
    (r_roundOrdinal row) (r_stateJson row).

(** [SET status = 'running', started_at_ms = COALESCE(started_at_ms, now), ...]. *)
Definition set_row_running (owner : OwnerId) (nowMs : Z) (row : RunRow) : RunRow :=
  MkRunRow Running (r_createdAtMs row) (coalesce (r_startedAtMs row) (Some nowMs)) None
    (owner_cols owner) (Some nowMs) (r_claim row) (r_claimedAtMs row) (r_parentRunId row)
    (r_cancelRequestedAtMs row) (r_waitingReason row) (r_waitingWakeAtMs row) (r_waitingToken row)
    (r_lineageId row) (r_roundOrdinal row) (r_stateJson row).

(** The [running] branch of [transitionOwned]. *)
Definition set_row_continue (state : option string) (row : RunRow) : RunRow :=
  MkRunRow Running (r_createdAtMs row) (r_startedAtMs row) None (r_owner row) (r_heartbeatAtMs row)
    (r_claim row) (r_claimedAtMs row) (r_parentRunId row) (r_cancelRequestedAtMs row)
    (r_waitingReason row) (r_waitingWakeAtMs row) (r_waitingToken row) (r_lineageId row)
    (r_roundOrdinal row) (default (r_stateJson row) state).

(** The branch of [transitionOwned] that gives the run up. *)
Definition set_row_yield (toStatus : RunStatus) (nowMs : Z) (state : option string) (row : RunRow)
    : RunRow :=
  MkRunRow toStatus (r_createdAtMs row) (r_startedAtMs row)
    (if is_terminal toStatus then Some nowMs else None) null_cols None null_cols None
    (r_parentRunId row) (r_cancelRequestedAtMs row) (r_waitingReason row) (r_waitingWakeAtMs row)
    (r_waitingToken row) (r_lineageId row) (r_roundOrdinal row) (default (r_stateJson row) state).

(** ** Operations *)

Section RunStore.
Context {J : JsonText} {C : Consensus} (opts : ValidatedOptions).

Definition isJsonString (value : string) : bool := json_valid value.

Definition decodeRunRow (runId : string) (row : RunRow) : error + Run :=
  let owner := ownerFromColumns (r_owner row) in
  let claim := ownerFromColumns (r_claim row) in
  match owner, claim with
  | Some owner, Some claim =>
      let invalidOwner :=
        (is_null owner && negb (is_null (r_heartbeatAtMs row)))
        || (negb (is_null owner) && is_null (r_heartbeatAtMs row))
        || (if bool_decide (r_status row = Running) then is_null owner else negb (is_null owner)) in
      let invalidClaim :=
        (is_null claim && negb (is_null (r_claimedAtMs row)))
        || (negb (is_null claim) && is_null (r_claimedAtMs row)) in
      if invalidOwner || invalidClaim || negb (isJsonString (r_stateJson row))
      then inl (err RunStoreError "decode_failed")
      else inr (MkRun runId (r_status row) (r_createdAtMs row) (r_startedAtMs row)
                  (r_finishedAtMs row) owner (r_heartbeatAtMs row) claim (r_claimedAtMs row)
                  (r_parentRunId row) (r_cancelRequestedAtMs row) (r_lineageId row)
                  (r_roundOrdinal row) (r_stateJson row))
  | _, _ => inl (err RunStoreError "decode_failed")
  end.

Definition run_write {A} (body : M A) : M A := map_error persistenceError (write body).

Definition writeThrough {A} (body : M A) : M A := map_error persistenceError (transact opts body).

(** [UPDATE flows_runs SET ... WHERE run_id = r AND cond RETURNING ...]: the row
    after the update, when one matched. *)
Definition update_run (runId : string) (cond : RunRow → bool) (set : RunRow → RunRow)
    : M (option RunRow) :=
  row <- get_run runId ;;
  match row with
  | Some row => if cond row then put_run runId (set row) ;; ret (Some (set row)) else ret None
  | None => ret None
  end.

Definition any_row (row : RunRow) : bool := true.

Definition lineage_meta (runId : string) : json :=
  JObj [("lineageId", JStr (runId +:+ "/root"))].

Definition owner_json (o : OwnerId) : json :=
  JObj [("hostId", JStr (hostId o)); ("pid", JNum (pid o)); ("nonce", JStr (nonce o))].

Definition consensus_source (o : OwnerId) : string :=
  "flows/run-store/consensus:" +:+ hostId o +:+ ":" +:+ pretty (pid o) +:+ ":" +:+ nonce o.

Definition transition_input (runId transition : string) (actor : OwnerId) (grantedAtMs : option Z)
    : Input :=
  MkInput runId (consensus_source actor) None ("flows.consensus." +:+ transition)
    (JObj [("owner", owner_json actor); ("grantedAtMs", jnum_or_null grantedAtMs)])
    (Some (lineage_meta runId)).

Definition recordTransition (runId transition : string) (actor : OwnerId) (grantedAtMs : option Z)
    : M () :=
  emitDurable opts (transition_input runId transition actor grantedAtMs) None ;; ret tt.

Definition run_event_input (runId eventType : string) (payload : list (string * json)) : Input :=
  MkInput runId "flows/run-store/run" None eventType (JObj payload) (Some (lineage_meta runId)).

Definition recordRunEvent (runId eventType : string) (payload : list (string * json))
    (owner : option OwnerId) : M () :=
  emitDurable opts (run_event_input runId eventType payload) owner ;; ret tt.

Definition transitioned_payload (status : RunStatus) (atMs : Z) (stateJson : option string)
    : list (string * json) :=
  [("status", JStr (status_name status)); ("atMs", JNum atMs)]
  ++ spread "stateJson" (JStr <$> stateJson).

(** The row [create] inserts. *)
Definition created_row (createdAtMs : Z) (options : CreateOptions) (stateJson : string) : RunRow :=
  MkRunRow Pending createdAtMs None None null_cols None null_cols None (co_parentRunId options)
    None None None None (co_lineageId options) (co_roundOrdinal options) stateJson.

(** The primary key, the parent's foreign key and the unique lineage index. *)
Definition insertable (runId : string) (row : RunRow) (runs : gmap string RunRow) : bool :=
  is_null (runs !! runId)
  && match r_parentRunId row with
     | Some p => bool_decide (p = runId) || negb (is_null (runs !! p))
     | None => true
     end
  && match r_lineageId row, r_roundOrdinal row with
     | Some l, Some n =>
         bool_decide (map_Forall (λ _ other,
           ¬ (r_lineageId other = Some l ∧ r_roundOrdinal other = Some n)) runs)
     | _, _ => true
     end.

Definition insert_run (runId : string) (row : RunRow) : M () :=
  runs <- gets (λ w, db_runs (w_db w)) ;;
  if insertable runId row runs then put_run runId row else sql_fail "ConstraintError".

Definition invalidLineage (options : CreateOptions) : bool :=
  negb (bool_decide (is_null (co_lineageId options) = is_null (co_roundOrdinal options)))
  || match co_lineageId options with Some l => negb (nonempty l) | None => false end
  || match co_roundOrdinal options with
     | Some n => negb (is_safe_integer n) || bool_decide (n < 0)%Z
     | None => false
     end.

Definition created_payload (createdAtMs : Z) (options : CreateOptions) (stateJson : string)
    : list (string * json) :=
  [("createdAtMs", JNum createdAtMs);
   ("parentRunId", jstr_or_null (co_parentRunId options));
   ("lineageId", jstr_or_null (co_lineageId options));
   ("roundOrdinal", jnum_or_null (co_roundOrdinal options));
   ("stateJson", JStr stateJson)].

Definition create (runId stateJson : string) (options : CreateOptions) : M () :=
  if negb (nonempty runId) || negb (isJsonString stateJson)
     || match co_parentRunId options with Some p => negb (nonempty p) | None => false end
     || invalidLineage options
  then fail invalidRunError
  else
    createdAtMs <- clock ;;
    writeThrough (
      insert_run runId (created_row createdAtMs options stateJson) ;;
      recordRunEvent runId "flows.run.created" (created_payload createdAtMs options stateJson) None).

Definition get (runId : string) : M Run :=
  row <- get_run runId ;;
  match row with
  | None => fail (err RunStoreError "not_found_row")
  | Some row => from_result (decodeRunRow runId row)
  end.

Definition record_cancel (runId : string) (nowMs : Z) : M (option RunRow) :=
  update_run runId (λ row, is_null (r_cancelRequestedAtMs row)) (set_row_cancel (Some nowMs)).

Definition cancel_recorded (runId : string) (row : RunRow) : M Outcome :=
  let requestedAtMs := default 0%Z (r_cancelRequestedAtMs row) in
  recordRunEvent runId "flows.run.cancel-requested" [("requestedAtMs", JNum requestedAtMs)] None ;;
  ret (CancelRequested requestedAtMs).

Definition requestCancel (runId : string) (nowMs : Z) : M Outcome :=
  if negb (is_safe_integer nowMs) || bool_decide (nowMs < 0)%Z then fail invalidRunError
  else writeThrough (
    rows <- record_cancel runId nowMs ;;
    match rows with
    | Some row => cancel_recorded runId row
    | None =>
        current <- get_run runId ;;
        match current with
        | None => ret NotFound
        | Some row =>
            match r_cancelRequestedAtMs row with
            | Some t => ret (AlreadyRequested t)
            | None =>
                retried <- record_cancel runId nowMs ;;
                match retried with
                | None => ret NotFound
                | Some row => cancel_recorded runId row
                end
            end
        end
    end).

Definition claim (runId : string) (expected : RunSnapshot) (claimant : OwnerId) (nowMs : Z)
    : M Outcome :=
  writeThrough (
    row <- get_run runId ;;
    match row with
    | Some r =>
        if (bool_decide (r_status r = Pending) || bool_decide (r_status r = Suspended))
           && snapshotMatchesRow r expected && claimColumnsFree r
        then
          grant <- cs_claim runId claimant nowMs ;;
          match grant with
          | LeaseRejected _ => ret (classifyClaimLoss row nowMs)
          | LeaseClaimed grantedAtMs =>
              update_run runId any_row (set_row_claim (owner_cols claimant) (Some grantedAtMs)) ;;
              recordTransition runId "claimed" claimant (Some grantedAtMs) ;;
              ret (Claimed grantedAtMs)
          end
        else ret (classifyClaimLoss row nowMs)
    | None => ret (classifyClaimLoss row nowMs)
    end).

(** The grant [claimAndOwn] asks the strategy for, by who holds the run. *)
Definition own_grant (runId : string) (expectedOwner : option OwnerId) (owner : OwnerId) (nowMs : Z)
    (evidence : option LivenessEvidence) : M LeaseClaimOutcome :=
  match expectedOwner with
  | None => cs_claim runId owner nowMs
  | Some eo =>
      if sameOwner eo owner
      then cs_release runId owner ;; cs_claim runId owner nowMs
      else match evidence with
           | Some ev => cs_steal runId owner nowMs ev
           (* [evidence!] on an owner no evidence was given for: the admission
              test admits no such row *)
           | None => fail (err RunStoreError "unknown")
           end
  end.

Definition own_admissible (r : RunRow) (expected : RunSnapshot) (nowMs : Z) : bool :=
  (bool_decide (r_status r = Pending) || bool_decide (r_status r = Suspended)
   || bool_decide (r_status r = Running))
  && snapshotMatchesRow r expected && claimColumnsFree r
  && (negb (bool_decide (r_status r = Running))
      || is_null (r_heartbeatAtMs r)
      || col_lt (r_heartbeatAtMs r) (nowMs - heartbeatStaleAfter)).

Definition replaces_owner (expectedOwner : option OwnerId) (owner : OwnerId) : bool :=
  match expectedOwner with Some eo => negb (sameOwner eo owner) | None => false end.

Definition canReplaceExpectedOwner (expected : RunSnapshot) (owner : OwnerId) (nowMs : Z)
    (evidence : option LivenessEvidence) : bool :=
  negb (bool_decide (sn_status expected = Running))
  || match sn_owner expected with Some eo => sameOwner eo owner | None => false end
  || match evidence with Some ev => evidenceMatches expected owner nowMs ev | None => false end.

Definition claimAndOwn (runId : string) (expected : RunSnapshot) (owner : OwnerId) (nowMs : Z)
    (evidence : option LivenessEvidence) : M Outcome :=
  if negb (canReplaceExpectedOwner expected owner nowMs evidence)
  then
    row <- get_run runId ;;
    let loss := classifyClaimLoss row nowMs in
    ret (if bool_decide (loss = SnapshotChanged) then EvidenceRequired else loss)
  else writeThrough (
    row <- get_run runId ;;
    match row with
    | Some r =>
        if own_admissible r expected nowMs
        then
          grant <- own_grant runId (sn_owner expected) owner nowMs evidence ;;
          match grant with
          | LeaseRejected _ => ret (classifyClaimLoss row nowMs)
          | LeaseClaimed grantedAtMs =>
              activation <- cs_activate runId owner grantedAtMs nowMs ;;
              match activation with
              | LeaseActivateLost =>
                  cs_release runId owner ;; ret (classifyClaimLoss row nowMs)
              | LeaseActivated =>
                  update_run runId any_row (set_row_running owner nowMs) ;;
                  recordTransition runId
                    (if replaces_owner (sn_owner expected) owner then "stolen" else "claimed")
                    owner (Some grantedAtMs) ;;
                  recordTransition runId "activated" owner (Some grantedAtMs) ;;
                  recordRunEvent runId "flows.run.transitioned"
                    (transitioned_payload Running nowMs None) (Some owner) ;;
                  ret Activated
              end
          end
        else ret (classifyClaimLoss row nowMs)
    | None => ret (classifyClaimLoss row nowMs)
    end).

Definition clear_claim_of (runId : string) (claimant : OwnerId) (claimedAtMs : Z) : M (option RunRow) :=
  update_run runId (λ row, rowMatchesClaim row claimant claimedAtMs) clear_row_claim.

Definition activate (runId : string) (claimant : OwnerId) (claimedAtMs : Z) (expected : RunSnapshot)
    : M Outcome :=
  activatedAtMs <- clock ;;
  writeThrough (
    row <- get_run runId ;;
    match row with
    | Some r =>
        if negb (rowMatchesClaim r claimant claimedAtMs) then ret ClaimLost
        else if negb (snapshotMatchesRow r expected)
        then
          cs_release runId claimant ;;
          clear_claim_of runId claimant claimedAtMs ;;
          ret SnapshotChanged
        else
          activation <- cs_activate runId claimant claimedAtMs activatedAtMs ;;
          match activation with
          | LeaseActivateLost => clear_claim_of runId claimant claimedAtMs ;; ret ClaimLost
          | LeaseActivated =>
              update_run runId any_row
                (λ row, clear_row_claim (set_row_running claimant activatedAtMs row)) ;;
              recordTransition runId "activated" claimant (Some claimedAtMs) ;;
              recordRunEvent runId "flows.run.transitioned"
                (transitioned_payload Running activatedAtMs None) (Some claimant) ;;
              ret Activated
          end
    | None => ret ClaimLost
    end).

Definition abandonClaim (runId : string) (claimant : OwnerId) (claimedAtMs : Z) : M Outcome :=
  writeThrough (
    rows <- clear_claim_of runId claimant claimedAtMs ;;
    match rows with
    | None => ret ClaimLost
    | Some _ =>
        cs_release runId claimant ;;
        recordTransition runId "released" claimant (Some claimedAtMs) ;;
        ret Abandoned
    end).

Definition recoverClaim (runId : string) (staleClaimant : OwnerId) (claimedAtMs : Z)
    (observer : OwnerId) (nowMs : Z) (evidence : LivenessEvidence) : M Outcome :=
  if negb (matchesEvidence staleClaimant observer nowMs evidence) then ret LivenessUnconfirmed
  else writeThrough (
    row <- get_run runId ;;
    match row with
    | None => ret NotFound
    | Some r =>
        if negb (rowMatchesClaim r staleClaimant claimedAtMs) then ret ClaimChanged
        else if bool_decide (nowMs - heartbeatStaleAfter ≤ claimedAtMs)%Z then ret ClaimFresh
        else
          outcome <- cs_recover runId staleClaimant claimedAtMs observer nowMs evidence ;;
          match outcome with
          | LeaseRecoverRejected _ => ret ClaimChanged
          | LeaseRecovered =>
              update_run runId any_row clear_row_claim ;;
              recordTransition runId "expired" staleClaimant (Some claimedAtMs) ;;
              ret Recovered
          end
    end).

Definition lost_or_missing (runId : string) : M Outcome :=
  current <- get_run runId ;;
  ret (match current with None => NotFound | Some _ => FenceLost end).

Definition ownedBy (owner : OwnerId) (row : RunRow) : bool :=
  bool_decide (r_status row = Running) && cols_are (r_owner row) owner.

Definition heartbeat (runId : string) (owner : OwnerId) (nowMs : Z) : M Outcome :=
  if negb (is_safe_integer nowMs) || bool_decide (nowMs < 0)%Z then fail invalidRunError
  else run_write (
    outcome <- cs_heartbeat runId owner nowMs ;;
    match outcome with
    | LeaseHeartbeatLost => lost_or_missing runId
    | LeaseRenewed heartbeatAtMs =>
        rows <- update_run runId (ownedBy owner)
          (λ row, set_row_heartbeat (col_max (r_heartbeatAtMs row) heartbeatAtMs) row) ;;
        match rows with
        | Some _ => ret Updated
        | None => lost_or_missing runId
        end
    end).

Definition guardBlocked (guard : option CancelGuard) (row : RunRow) : bool :=
  match guard with
  | Some GuardAbsent => negb (is_null (r_cancelRequestedAtMs row))
  | Some GuardPresent => is_null (r_cancelRequestedAtMs row)
  | None => false
  end.

(** The fence check of [transitionOwned]: a lost fence is an answer, any other
    failure is one. *)
Definition fence_held (runId : string) (owner : OwnerId) : M bool :=
  catch (cs_guard runId owner ;; ret true)
    (λ cause, if bool_decide (error_code cause = "fence_lost") then ret false else fail cause).

Definition transitionOwned (runId : string) (owner : OwnerId) (toStatus : string)
    (stateJson : option string) (guard : option CancelGuard) : M Outcome :=
  match decode_status toStatus with
  | None => fail invalidRunError
  | Some status =>
      if match stateJson with Some s => negb (isJsonString s) | None => false end
      then fail invalidRunError
      else
        transitionedAtMs <- clock ;;
        writeThrough (
          held <- fence_held runId owner ;;
          row <- get_run runId ;;
          match row with
          | None => ret NotFound
          | Some r =>
              if negb (held && ownedBy owner r) then ret FenceLost
              else if guardBlocked guard r then ret GuardFailed
              else if bool_decide (status = Running)
              then
                update_run runId any_row (set_row_continue stateJson) ;;
                recordRunEvent runId "flows.run.transitioned"
                  (transitioned_payload status transitionedAtMs stateJson) (Some owner) ;;
                ret Transitioned
              else
                update_run runId any_row (set_row_yield status transitionedAtMs stateJson) ;;
                recordRunEvent runId "flows.run.transitioned"
                  (transitioned_payload status transitionedAtMs stateJson) (Some owner) ;;
                cs_release runId owner ;;
                recordTransition runId "released" owner None ;;
                ret Transitioned
          end)
  end.

Definition steal (runId : string) (expected : RunSnapshot) (claimant : OwnerId) (nowMs : Z)
    (evidence : LivenessEvidence) : M Outcome :=
  if negb (evidenceMatches expected claimant nowMs evidence) then ret SnapshotChanged
  else writeThrough (
    row <- get_run runId ;;
    match row with
    | Some r =>
        if snapshotMatchesRow r expected && claimColumnsFree r
           && col_lt (r_heartbeatAtMs r) (nowMs - heartbeatStaleAfter)
        then
          grant <- cs_steal runId claimant nowMs evidence ;;
          match grant with
          | LeaseRejected _ => ret (classifyClaimLoss row nowMs)
          | LeaseClaimed grantedAtMs =>
              update_run runId any_row (set_row_claim (owner_cols claimant) (Some grantedAtMs)) ;;
              recordTransition runId "stolen" claimant (Some grantedAtMs) ;;
              ret (Claimed grantedAtMs)
          end
        else ret (classifyClaimLoss row nowMs)
    | None => ret (classifyClaimLoss row nowMs)
    end).

End RunStore.
