(* ===== verification/RunLaws.v ===== *)
(** The run store against its state: what every operation does to the row, the
    lease and the journal of its run.

    [moved] is the common form of an effect: the run's row and lease after it,
    the events it appended, everything else unchanged.  Each operation has one
    lemma giving its effect by outcome; the invariants and the properties of
    [RunProps] are read off these. *)

From S2P Require Export JournalAppend RunStore.

#[local] Open Scope me_scope.

(** ** The stores of two worlds agree *)

Record same_stores (w w' : World) : Prop := MkSameStores {
  ss_db : w_db w' = w_db w;
  ss_local : w_local w' = w_local w;
  ss_clock : w_clock w' = w_clock w
}.

#[export] Instance same_stores_refl : Reflexive same_stores.
Proof. by split. Qed.
#[export] Instance same_stores_trans : Transitive same_stores.
Proof. intros a b c [] []. split; by etrans. Qed.

Lemma proc_step_same w w' : proc_step w w' → same_stores w w'.
Proof. by intros []. Qed.

Section laws.
Context {J : JsonText} {C : Consensus} {L : ConsensusLaws C} (opts : ValidatedOptions).
Implicit Types (w : World) (r : string) (l : LocalLease).

Lemma same_stores_lease w w' : same_stores w w' → cs_wf w →
  cs_wf w' ∧ ∀ r, lease_of w' r = lease_of w r.
Proof.
  intros [Hdb Hl _] Hwf. destruct (law_ext w w') as [H1 H2]; [by rewrite Hdb|done|].
  split; [by apply H1|]. intros r. by rewrite H2.
Qed.

(** ** Effects *)

(** The events of every run are stored in the order of their sequences. *)
Definition seq_lt (a b : JournalRow) : Prop := (j_seq a < j_seq b)%Z.
Definition journal_ordered (w : World) : Prop :=
  ∀ r, StronglySorted seq_lt (List.filter (of_run r) (db_events (w_db w))).

(** The journal row an input became, up to its sequence numbers. *)
Definition event_of (t : Z) (input : Input) (q : JournalRow) : Prop :=
  ∃ seq sourceSeq, q = row_of opts input t seq sourceSeq.

Record moved (w w' : World) (r : string) (row : option RunRow) (l : LocalLease)
    (inputs : list Input) : Prop := MkMoved {
  mv_run : db_runs (w_db w') !! r = row;
  mv_runs : ∀ r', r' ≠ r → db_runs (w_db w') !! r' = db_runs (w_db w) !! r';
  mv_lease : lease_of w' r = l;
  mv_leases : ∀ r', r' ≠ r → lease_of w' r' = lease_of w r';
  mv_events : ∃ new, db_events (w_db w') = db_events (w_db w) ++ new
                     ∧ Forall2 (event_of (w_clock w)) inputs new;
  mv_attempts : db_attempts (w_db w') = db_attempts (w_db w);
  mv_checkpoints : db_checkpoints (w_db w') = db_checkpoints (w_db w);
  mv_clock : w_clock w' = w_clock w;
  mv_wf : cs_wf w';
  mv_journal : journal_ok w';
  mv_ordered : journal_ordered w → journal_ordered w';
  mv_checked : (∀ x, db_runs (w_db w) !! r = Some x → check_run r x = true) →
               ∀ x, row = Some x → check_run r x = true
}.

(** The run is where it was. *)
Definition unmoved (w w' : World) (r : string) : Prop :=
  moved w w' r (db_runs (w_db w) !! r) (lease_of w r) [].

Lemma moved_refl w r : cs_wf w → journal_ok w → unmoved w w r.
Proof. intros. split; try done. exists []. by rewrite app_nil_r. Qed.

Lemma moved_trans w w1 w2 r row1 row2 l1 l2 in1 in2 :
  moved w w1 r row1 l1 in1 → moved w1 w2 r row2 l2 in2 → moved w w2 r row2 l2 (in1 ++ in2).
Proof.
  intros [] []. split; try done.
  - intros r' Hr. rewrite mv_runs1, mv_runs0; done.
  - intros r' Hr. rewrite mv_leases1, mv_leases0; done.
  - destruct mv_events0 as (n1 & E1 & F1), mv_events1 as (n2 & E2 & F2).
    exists (n1 ++ n2). rewrite E2, E1, app_assoc. split; [done|].
    apply Forall2_app; [done|]. by rewrite mv_clock0 in F2.
  - by rewrite mv_attempts1.
  - by rewrite mv_checkpoints1.
  - by rewrite mv_clock1.
  - auto.
  - intros H. rewrite mv_run0 in mv_checked1. auto.
Qed.

Lemma moved_same_r w w1 w2 r row l inputs :
  moved w w1 r row l inputs → same_stores w1 w2 → moved w w2 r row l inputs.
Proof.
  intros [] Hs. destruct (same_stores_lease w1 w2 Hs mv_wf0) as [Hwf Hl]. destruct Hs as [Hdb _ Hclk].
  split; try done; try (by rewrite Hdb).
  - by rewrite Hl.
  - intros r' Hr. by rewrite Hl, mv_leases0.
  - by rewrite Hclk.
  - unfold journal_ok. by rewrite Hdb.
  - unfold journal_ordered. by rewrite Hdb.
Qed.

Lemma moved_same_l w w1 w2 r row l inputs :
  same_stores w w1 → cs_wf w → moved w1 w2 r row l inputs → moved w w2 r row l inputs.
Proof.
  intros Hs Hwf []. destruct (same_stores_lease w w1 Hs Hwf) as [_ Hl].
  destruct Hs as [Hdb _ Hclk]. unfold journal_ordered in *. rewrite Hdb in *. rewrite Hclk in *.
  split; try done. intros r' Hr. by rewrite mv_leases0, Hl.
Qed.

Lemma moved_lease_step w w' r l :
  lease_step lease_of w w' r l → cs_wf w' → journal_ok w →
  moved w w' r (db_runs (w_db w) !! r) l [].
Proof.
  intros (Hl & Ho & []) Hwf Hok. split; try done.
  - by rewrite frame_runs.
  - intros r' _. by rewrite frame_runs.
  - exists []. by rewrite frame_events, app_nil_r.
  - unfold journal_ok. by rewrite frame_events.
  - unfold journal_ordered. by rewrite frame_events.
Qed.

(** An appended row is past every row of its run. *)
Lemma next_row_ordered w w' input :
  journal_ordered w → db_events (w_db w') = db_events (w_db w) ++ [next_row opts w input] →
  journal_ordered w'.
Proof.
  intros Ho He r. rewrite He, List.filter_app. simpl.
  destruct (of_run r (next_row opts w input)) eqn:Hr; [|by rewrite app_nil_r].
  apply StronglySorted_app_2; [|apply Ho|by repeat constructor].
  intros row q Hrow ->%list_elem_of_singleton. apply elem_of_filter_b in Hrow as [Hrow Hr'].
  unfold of_run in Hr, Hr'. apply bool_decide_eq_true in Hr, Hr'.
  apply (next_seq_gt w); [done|]. rewrite Hr'. by rewrite <- Hr.
Qed.

Lemma appended_clock_events w w' input :
  appended w w' [next_row opts w input] → cs_wf w → journal_ok w' →
  ∀ r, moved w w' r (db_runs (w_db w) !! r) (lease_of w r) [input].
Proof.
  intros Happ Hwf Hok r. destruct (appended_wf _ _ _ Hwf Happ) as [Hwf' Hl].
  split; try done.
  - by rewrite (appended_runs _ _ _ Happ).
  - intros r' _. by rewrite (appended_runs _ _ _ Happ).
  - eexists. split; [apply Happ|]. repeat constructor. by eexists _, _.
  - by rewrite (appended_attempts _ _ _ Happ).
  - destruct Happ. by injection app_rest.
  - apply Happ.
  - intros Ho. eapply next_row_ordered; [done|apply Happ].
Qed.

(** An append whose source sequence the journal allocates is never a duplicate. *)
Lemma emit_moved input owner w rc w' r :
  cs_wf w → journal_ok w → in_sourceSeq input = None →
  emitDurable opts input owner w = (inr rc, w') →
  moved w w' r (db_runs (w_db w) !! r) (lease_of w r) [input].
Proof.
  intros Hwf Hok Hnone H. pose proof (emitDurable_inr _ _ _ _ _ _ Hwf H) as (_ & _ & _ & He).
  pose proof (emitDurable_extends _ _ _ _ _ _ Hwf Hok H) as (Hok' & _ & _ & new & Happ & Hnew).
  destruct rc as [seq n|seq n].
  - subst new. by apply appended_clock_events.
  - exfalso. destruct He as (_ & _ & row & Hrow & _ & Hk & _).
    apply (next_row_fresh opts w input row Hnone Hrow). destruct Hk as [Hid|Hk]; [|done].
    by apply (ev_minted _ Hok row Hrow).
Qed.

Lemma recordTransition_moved r0 transition actor g w u w' r :
  cs_wf w → journal_ok w → recordTransition opts r0 transition actor g w = (inr u, w') →
  moved w w' r (db_runs (w_db w) !! r) (lease_of w r) [transition_input r0 transition actor g].
Proof. intros Hwf Hok H. unfold recordTransition in H. inv_ok H. eapply emit_moved; [done|done|done|eassumption]. Qed.

Lemma recordRunEvent_moved r0 ty payload owner w u w' r :
  cs_wf w → journal_ok w → recordRunEvent opts r0 ty payload owner w = (inr u, w') →
  moved w w' r (db_runs (w_db w) !! r) (lease_of w r) [run_event_input r0 ty payload].
Proof. intros Hwf Hok H. unfold recordRunEvent in H. inv_ok H. eapply emit_moved; [done|done|done|eassumption]. Qed.

Lemma put_run_inr r row w u w' :
  put_run r row w = (inr u, w') →
  check_run r row = true ∧ w' = set_db (upd_runs (<[r := row]>)) w.
Proof. unfold put_run, sql_fail. intros H. inv_ok H. done. Qed.

Lemma set_run_moved w r row :
  cs_wf w → journal_ok w → check_run r row = true →
  moved w (set_db (upd_runs (<[r := row]>)) w) r (Some row) (lease_of w r) [].
Proof.
  intros Hwf Hok Hchk. destruct (law_ext w (set_db (upd_runs (<[r := row]>)) w)) as [H1 H2]; [done..|].
  split; try done.
  - simpl. by rewrite lookup_insert_eq.
  - intros r' Hr. simpl. by rewrite lookup_insert_ne.
  - exists []. simpl. by rewrite app_nil_r.
  - by apply H1.
  - by intros _ x [= <-].
Qed.

(** [UPDATE ... WHERE run_id = r AND cond]. *)
Lemma update_run_moved r cond set w res w' :
  cs_wf w → journal_ok w → update_run r cond set w = (inr res, w') →
  match res with
  | Some row' => ∃ row, db_runs (w_db w) !! r = Some row ∧ cond row = true ∧ row' = set row
      ∧ check_run r row' = true ∧ moved w w' r (Some row') (lease_of w r) []
  | None => w' = w ∧ ∀ row, db_runs (w_db w) !! r = Some row → cond row = false
  end.
Proof.
  intros Hwf Hok H. unfold update_run, get_run in H.
  apply bind_inr in H as (orow & w1 & H1 & H). apply gets_inr in H1 as [-> ->].
  destruct (db_runs (w_db w) !! r) as [row|] eqn:Hrow.
  - destruct (cond row) eqn:Hc.
    + apply bind_inr in H as (u & w1 & H1 & H). apply put_run_inr in H1 as [Hchk ->].
      apply ret_inr in H as [-> ->]. exists row. split_and!; try done. by apply set_run_moved.
    + apply ret_inr in H as [-> ->]. split; [done|]. by intros ? [= <-].
  - apply ret_inr in H as [-> ->]. split; [done|]. by intros ?.
Qed.

(** ** The strategy's operations as effects *)

Lemma cs_claim_moved r c now w o w' :
  cs_wf w → journal_ok w → nonempty r = true → (0 ≤ now)%Z → cs_claim r c now w = (inr o, w') →
  o = (Spec.claim (lease_of w r) c now).1
  ∧ moved w w' r (db_runs (w_db w) !! r) (Spec.claim (lease_of w r) c now).2 [].
Proof.
  intros Hwf Hok Hr Ht H. destruct (law_claim r c now w) as (w1 & H1 & Hwf1 & Hs); [done..|].
  rewrite H1 in H. simplify_eq. split; [done|]. by apply moved_lease_step.
Qed.

Lemma cs_activate_moved r o g now w a w' :
  cs_wf w → journal_ok w → nonempty r = true → (0 ≤ now)%Z → cs_activate r o g now w = (inr a, w') →
  a = (Spec.activate (lease_of w r) o g now).1
  ∧ moved w w' r (db_runs (w_db w) !! r) (Spec.activate (lease_of w r) o g now).2 [].
Proof.
  intros Hwf Hok Hr Ht H. destruct (law_activate r o g now w) as (w1 & H1 & Hwf1 & Hs); [done..|].
  rewrite H1 in H. simplify_eq. split; [done|]. by apply moved_lease_step.
Qed.

Lemma cs_heartbeat_moved r o now w a w' :
  cs_wf w → journal_ok w → cs_heartbeat r o now w = (inr a, w') →
  a = (Spec.heartbeat (lease_of w r) o now).1
  ∧ moved w w' r (db_runs (w_db w) !! r) (Spec.heartbeat (lease_of w r) o now).2 [].
Proof.
  intros Hwf Hok H. destruct (law_heartbeat r o now w) as (w1 & H1 & Hwf1 & Hs); [done..|].
  rewrite H1 in H. simplify_eq. split; [done|]. by apply moved_lease_step.
Qed.

Lemma cs_release_moved r o w u w' :
  cs_wf w → journal_ok w → cs_release r o w = (inr u, w') →
  moved w w' r (db_runs (w_db w) !! r) (Spec.release (lease_of w r) o) [].
Proof.
  intros Hwf Hok H. destruct (law_release r o w) as (w1 & H1 & Hwf1 & Hs); [done..|].
  rewrite H1 in H. simplify_eq. by apply moved_lease_step.
Qed.

Lemma cs_steal_moved r c now ev w a w' :
  cs_wf w → journal_ok w → aligned lease_of w r → nonempty r = true → (0 ≤ now)%Z →
  cs_steal r c now ev w = (inr a, w') →
  a = (Spec.steal (lease_of w r) c now ev).1
  ∧ moved w w' r (db_runs (w_db w) !! r) (Spec.steal (lease_of w r) c now ev).2 [].
Proof.
  intros Hwf Hok Hal Hr Ht H. destruct (law_steal r c now ev w) as (w1 & H1 & Hwf1 & Hs); [done..|].
  rewrite H1 in H. simplify_eq. split; [done|]. by apply moved_lease_step.
Qed.

Lemma cs_recover_moved r s g obs now ev w a w' :
  cs_wf w → journal_ok w → aligned lease_of w r → cs_recover r s g obs now ev w = (inr a, w') →
  a = (Spec.recover (lease_of w r) s g obs now ev).1
  ∧ moved w w' r (db_runs (w_db w) !! r) (Spec.recover (lease_of w r) s g obs now ev).2 [].
Proof.
  intros Hwf Hok Hal H. destruct (law_recover r s g obs now ev w) as (w1 & H1 & Hwf1 & Hs); [done..|].
  rewrite H1 in H. simplify_eq. split; [done|]. by apply moved_lease_step.
Qed.

(** ** The invariant of the store *)

(** The row of a run mirrors its lease: the same owner with the same heartbeat,
    and a claim the row shows is the strategy's.  While a run is running the
    claims agree both ways, and the claimant is not the owner.  A run that ended
    shows no claim. *)
Record mirrors (row : option RunRow) (l : LocalLease) : Prop := MkMirrors {
  mi_owner : match row with Some x => r_owner x | None => null_cols end
             = match ll_owner l with Some (o, _, _) => owner_cols o | None => null_cols end;
  mi_heartbeat : match row with Some x => r_heartbeatAtMs x | None => None end
                 = match ll_owner l with Some (_, _, h) => Some h | None => None end;
  mi_claim : ∀ x o t, row = Some x → r_claim x = owner_cols o → r_claimedAtMs x = Some t →
             ll_claim l = Some (o, t);
  mi_ended : ∀ x, row = Some x → is_terminal (r_status x) = true → r_claim x = null_cols;
  mi_running : ∀ x, row = Some x → r_status x = Running → r_claim x = null_cols → ll_claim l = None;
  mi_distinct : ∀ x o, row = Some x → r_claim x = owner_cols o → r_owner x ≠ owner_cols o
}.

Record store_ok (w : World) : Prop := MkStoreOk {
  so_wf : cs_wf w;
  so_journal : journal_ok w;
  so_checked : ∀ r x, db_runs (w_db w) !! r = Some x → check_run r x = true;
  so_mirrors : ∀ r, mirrors (db_runs (w_db w) !! r) (lease_of w r)
}.

Lemma moved_ok w w' r row l inputs :
  store_ok w → moved w w' r row l inputs → mirrors row l → store_ok w'.
Proof.
  intros [] [] Hm. split; try done.
  - intros r' x Hx. destruct (decide (r' = r)) as [->|Hr].
    + rewrite mv_run0 in Hx. eauto.
    + rewrite mv_runs0 in Hx by done. eauto.
  - intros r'. destruct (decide (r' = r)) as [->|Hr].
    + by rewrite mv_run0, mv_lease0.
    + rewrite mv_runs0, mv_leases0 by done. done.
Qed.

Lemma unmoved_ok w w' r : store_ok w → unmoved w w' r → store_ok w'.
Proof. intros Hok Hm. eapply moved_ok; [done|exact Hm|]. apply Hok. Qed.

Lemma mirrors_aligned w r : mirrors (db_runs (w_db w) !! r) (lease_of w r) → aligned lease_of w r.
Proof.
  intros [Ho _ Hc _ _ _] row o Hrow. rewrite Hrow in *. split.
  - intros Hown. rewrite Hown in Ho. unfold Spec.owner_id.
    destruct (ll_owner (lease_of w r)) as [[[o' g] h]|]; [|done].
    simpl. f_equal. symmetry. by apply owner_cols_inj.
  - intros t. by apply Hc.
Qed.

Lemma check_run_nonempty r row : check_run r row = true → nonempty r = true.
Proof. unfold check_run. rewrite !andb_true_iff. tauto. Qed.

(** ** What the CHECK constraints say of a row *)

Lemma cols_check_set_spec c : cols_check_set c = true → ∃ o, c = owner_cols o.
Proof.
  destruct c as [[h|] [p|] [n|]]; simpl; try done. intros _. by exists (MkOwnerId h p n).
Qed.

Lemma check_run_owner r row : check_run r row = true →
  (r_status row = Running ∧ ∃ o h, r_owner row = owner_cols o ∧ r_heartbeatAtMs row = Some h)
  ∨ (r_status row ≠ Running ∧ r_owner row = null_cols ∧ r_heartbeatAtMs row = None).
Proof.
  unfold check_run. rewrite !andb_true_iff. intros [[[[[_ Ho] _] _] _] _].
  case_bool_decide as Hr.
  - apply andb_true_iff in Ho as [Ho Hh]. left. split; [done|].
    apply cols_check_set_spec in Ho as [o ->]. destruct (r_heartbeatAtMs row) as [h|]; [|done].
    by exists o, h.
  - apply andb_true_iff in Ho as [Ho Hh]. right. apply bool_decide_eq_true in Ho.
    by destruct (r_heartbeatAtMs row).
Qed.

Lemma check_run_claim r row : check_run r row = true →
  (r_claim row = null_cols ∧ r_claimedAtMs row = None)
  ∨ ∃ o t, r_claim row = owner_cols o ∧ r_claimedAtMs row = Some t.
Proof.
  unfold check_run. rewrite !andb_true_iff. intros [[[[_ Hc] _] _] _].
  apply orb_true_iff in Hc as [Hc|Hc]; apply andb_true_iff in Hc as [Hc Ht].
  - left. apply bool_decide_eq_true in Hc. by destruct (r_claimedAtMs row).
  - right. apply cols_check_set_spec in Hc as [o ->]. destruct (r_claimedAtMs row) as [t|]; [|done].
    by exists o, t.
Qed.

Lemma check_run_state r row : check_run r row = true → json_valid (r_stateJson row) = true.
Proof. unfold check_run. rewrite !andb_true_iff. tauto. Qed.

Lemma owner_cols_not_null o : owner_cols o ≠ null_cols.
Proof. done. Qed.

Lemma claimColumnsFree_spec r row : check_run r row = true →
  claimColumnsFree row = true ↔ r_claim row = null_cols.
Proof.
  intros Hc. unfold claimColumnsFree.
  destruct (check_run_claim _ _ Hc) as [[-> ->]|(o & t & -> & ->)]; simpl; [done|].
  split; [done|]. by intros ?%owner_cols_not_null.
Qed.

Lemma snapshotMatchesRow_spec row expected :
  snapshotMatchesRow row expected = true ↔
  r_status row = sn_status expected
  ∧ r_owner row = match sn_owner expected with Some o => owner_cols o | None => null_cols end
  ∧ r_heartbeatAtMs row = sn_heartbeatAtMs expected.
Proof.
  unfold snapshotMatchesRow. rewrite !andb_true_iff, !bool_decide_eq_true.
  destruct (r_owner row) as [h p n]; simpl.
  destruct (sn_owner expected) as [o|]; unfold owner_cols, null_cols; simpl; intuition congruence.
Qed.

(** The lease of a run whose row shows an owner, and of one that shows none. *)
Lemma mirrors_held row l o :
  mirrors (Some row) l → r_owner row = owner_cols o →
  ∃ g h, ll_owner l = Some (o, g, h) ∧ r_heartbeatAtMs row = Some h.
Proof.
  intros [Ho Hh _ _ _ _] Hown. simpl in *. rewrite Hown in Ho.
  destruct (ll_owner l) as [[[o' g] h]|]; [|done]. apply owner_cols_inj in Ho as ->. by exists g, h.
Qed.

Lemma mirrors_free row l :
  mirrors (Some row) l → r_owner row = null_cols → ll_owner l = None.
Proof.
  intros [Ho _ _ _ _ _] Hown. simpl in *. rewrite Hown in Ho. by destruct (ll_owner l) as [[[o' g] h]|].
Qed.

(** ** The transaction around an operation *)

Lemma transact_inr {A} (body : M A) w a w' :
  transact opts body w = (inr a, w') →
  ∃ w0 w1, same_stores w w0 ∧ body w0 = (inr a, w1) ∧ same_stores w1 w'.
Proof.
  intros H. unfold transact, get_settlements in H. erewrite bind_run in H; [|reflexivity].
  destruct (p_settlements (w_proc w)) as [l|].
  - apply transact_write_inr in H. by exists w, w'.
  - destruct (transact_write _ w) as [[e|b] w1] eqn:Hw; [done|].
    apply transact_write_inr in Hw. exists (open_transaction w), w1. split; [done|].
    destruct (settle_all_ok opts (default [] (p_settlements (w_proc w1)))
                (set_proc (set_settlements None) w1)) as (us & w2 & Hs & Hp).
    erewrite bind_run in H; [|reflexivity]. erewrite bind_run in H; [|exact Hs].
    injection H as -> ->. split; [exact Hw|]. apply proc_step_same in Hp. by destruct Hp.
Qed.

Lemma writeThrough_inr {A} (body : M A) w a w' :
  writeThrough opts body w = (inr a, w') →
  ∃ w0 w1, same_stores w w0 ∧ body w0 = (inr a, w1) ∧ same_stores w1 w'.
Proof. intros H%map_error_inr. by apply transact_inr. Qed.

(** A failed operation leaves every table as it was. *)
Lemma transact_err_db {A} (body : M A) w e w' :
  transact opts body w = (inl e, w') → w_db w' = w_db w.
Proof.
  intros H. unfold transact, get_settlements in H. erewrite bind_run in H; [|reflexivity].
  destruct (p_settlements (w_proc w)) as [l|]; [by apply transact_write_db in H|].
  destruct (transact_write _ w) as [[e'|b] w1] eqn:Hw.
  - injection H as _ <-. by apply transact_write_db in Hw.
  - exfalso. destruct (settle_all_ok opts (default [] (p_settlements (w_proc w1)))
                (set_proc (set_settlements None) w1)) as (us & w2 & Hs & Hp).
    erewrite bind_run in H; [|reflexivity]. by erewrite bind_run in H; [|exact Hs].
Qed.

Lemma writeThrough_err_db {A} (body : M A) w e w' :
  writeThrough opts body w = (inl e, w') → w_db w' = w_db w.
Proof.
  unfold writeThrough, map_error. destruct (transact opts body w) as [[e'|a] w1] eqn:Ht; [|done].
  intros [= _ <-]. by apply transact_err_db in Ht.
Qed.

(** The body of a transaction starts where the transaction does. *)
Lemma store_ok_same w w' : store_ok w → same_stores w w' → store_ok w'.
Proof.
  intros [] Hs. destruct (same_stores_lease w w' Hs so_wf0) as [Hwf Hl]. destruct Hs as [Hdb _ _].
  split; [done|unfold journal_ok; by rewrite Hdb|by rewrite Hdb|].
  intros r. by rewrite Hdb, Hl.
Qed.

(** An effect of the body is the effect of the operation. *)
Lemma writeThrough_moved {A} (body : M A) w a w' :
  store_ok w → writeThrough opts body w = (inr a, w') →
  ∃ w0 w1, store_ok w0 ∧ body w0 = (inr a, w1) ∧ w_db w0 = w_db w ∧ w_clock w0 = w_clock w
    ∧ (∀ r, lease_of w0 r = lease_of w r)
    ∧ ∀ r row l inputs, moved w0 w1 r row l inputs → moved w w' r row l inputs.
Proof.
  intros Hok H. apply writeThrough_inr in H as (w0 & w1 & H0 & H & H1).
  destruct (same_stores_lease w w0 H0 (so_wf _ Hok)) as [_ Hl].
  exists w0, w1. split_and!; [by eapply store_ok_same|done|apply H0|apply H0|done|].
  intros r row l inputs Hm. eapply moved_same_l; [exact H0|apply Hok|].
  by eapply moved_same_r.
Qed.

End laws.
