(* ===== verification/RunOps.v ===== *)
(** The effect of each run-store operation, by outcome. *)

From S2P Require Export RunLaws.

#[local] Open Scope me_scope.

Section ops.
Context {J : JsonText} {C : Consensus} {L : ConsensusLaws C} (opts : ValidatedOptions).
Implicit Types (w : World) (r : string) (l : LocalLease).

Lemma get_run_inr r w row w' : get_run r w = (inr row, w') → row = db_runs (w_db w) !! r ∧ w' = w.
Proof. unfold get_run. intros H. by apply gets_inr in H. Qed.

(** ** Chaining: an effect so far, extended by the next step of the body *)

Lemma chain_update {w w1 w2 r row l ins set res} :
  moved opts w w1 r (Some row) l ins → update_run r any_row set w1 = (inr res, w2) →
  moved opts w w2 r (Some (set row)) l ins.
Proof.
  intros Hm H. apply (update_run_moved opts) in H; [|apply Hm..].
  pose proof (mv_run _ _ _ _ _ _ _ Hm) as Hrow. destruct res as [row'|].
  - destruct H as (x & Hx & _ & -> & _ & Hm2). rewrite Hrow in Hx. injection Hx as <-.
    rewrite (mv_lease _ _ _ _ _ _ _ Hm) in Hm2. rewrite <- (app_nil_r ins).
    by eapply moved_trans.
  - destruct H as [_ H]. by apply H in Hrow.
Qed.

Lemma chain_transition {w w1 w2 r row l ins transition actor g u} :
  moved opts w w1 r row l ins → recordTransition opts r transition actor g w1 = (inr u, w2) →
  moved opts w w2 r row l (ins ++ [transition_input r transition actor g]).
Proof.
  intros Hm H. apply (recordTransition_moved opts _ _ _ _ _ _ _ r) in H; [|apply Hm..].
  rewrite (mv_lease _ _ _ _ _ _ _ Hm), (mv_run _ _ _ _ _ _ _ Hm) in H. by eapply moved_trans.
Qed.

Lemma chain_event {w w1 w2 r row l ins ty payload owner u} :
  moved opts w w1 r row l ins → recordRunEvent opts r ty payload owner w1 = (inr u, w2) →
  moved opts w w2 r row l (ins ++ [run_event_input r ty payload]).
Proof.
  intros Hm H. apply (recordRunEvent_moved opts _ _ _ _ _ _ _ r) in H; [|apply Hm..].
  rewrite (mv_lease _ _ _ _ _ _ _ Hm), (mv_run _ _ _ _ _ _ _ Hm) in H. by eapply moved_trans.
Qed.

Lemma chain_lease {w w1 w2 r row l ins l'} :
  moved opts w w1 r row l ins → moved opts w1 w2 r (db_runs (w_db w1) !! r) l' [] →
  moved opts w w2 r row l' ins.
Proof.
  intros Hm H. rewrite (mv_run _ _ _ _ _ _ _ Hm) in H. rewrite <- (app_nil_r ins).
  by eapply moved_trans.
Qed.

Lemma chain_claim {w w1 w2 r row l ins c now o} :
  moved opts w w1 r row l ins → nonempty r = true → (0 ≤ now)%Z →
  cs_claim r c now w1 = (inr o, w2) →
  o = (Spec.claim l c now).1 ∧ moved opts w w2 r row (Spec.claim l c now).2 ins.
Proof.
  intros Hm Hr Ht H. apply (cs_claim_moved opts) in H as [-> H]; [|apply Hm|apply Hm|done..].
  rewrite (mv_lease _ _ _ _ _ _ _ Hm) in *. split; [done|]. by eapply chain_lease.
Qed.

Lemma chain_activate {w w1 w2 r row l ins o g now a} :
  moved opts w w1 r row l ins → nonempty r = true → (0 ≤ now)%Z →
  cs_activate r o g now w1 = (inr a, w2) →
  a = (Spec.activate l o g now).1 ∧ moved opts w w2 r row (Spec.activate l o g now).2 ins.
Proof.
  intros Hm Hr Ht H. apply (cs_activate_moved opts) in H as [-> H]; [|apply Hm|apply Hm|done..].
  rewrite (mv_lease _ _ _ _ _ _ _ Hm) in *. split; [done|]. by eapply chain_lease.
Qed.

Lemma chain_heartbeat {w w1 w2 r row l ins o now a} :
  moved opts w w1 r row l ins → cs_heartbeat r o now w1 = (inr a, w2) →
  a = (Spec.heartbeat l o now).1 ∧ moved opts w w2 r row (Spec.heartbeat l o now).2 ins.
Proof.
  intros Hm H. apply (cs_heartbeat_moved opts) in H as [-> H]; [|apply Hm..].
  rewrite (mv_lease _ _ _ _ _ _ _ Hm) in *. split; [done|]. by eapply chain_lease.
Qed.

Lemma chain_release {w w1 w2 r row l ins o u} :
  moved opts w w1 r row l ins → cs_release r o w1 = (inr u, w2) →
  moved opts w w2 r row (Spec.release l o) ins.
Proof.
  intros Hm H. apply (cs_release_moved opts) in H; [|apply Hm..].
  rewrite (mv_lease _ _ _ _ _ _ _ Hm) in *. by eapply chain_lease.
Qed.

Lemma chain_steal {w w1 w2 r row l ins c now ev a} :
  moved opts w w1 r row l ins → aligned lease_of w1 r → nonempty r = true → (0 ≤ now)%Z →
  cs_steal r c now ev w1 = (inr a, w2) →
  a = (Spec.steal l c now ev).1 ∧ moved opts w w2 r row (Spec.steal l c now ev).2 ins.
Proof.
  intros Hm Hal Hr Ht H. apply (cs_steal_moved opts) in H as [-> H]; [|apply Hm|apply Hm|done..].
  rewrite (mv_lease _ _ _ _ _ _ _ Hm) in *. split; [done|]. by eapply chain_lease.
Qed.

Lemma chain_recover {w w1 w2 r row l ins s g obs now ev a} :
  moved opts w w1 r row l ins → aligned lease_of w1 r →
  cs_recover r s g obs now ev w1 = (inr a, w2) →
  a = (Spec.recover l s g obs now ev).1 ∧ moved opts w w2 r row (Spec.recover l s g obs now ev).2 ins.
Proof.
  intros Hm Hal H. apply (cs_recover_moved opts) in H as [-> H]; [|apply Hm|apply Hm|done..].
  rewrite (mv_lease _ _ _ _ _ _ _ Hm) in *. split; [done|]. by eapply chain_lease.
Qed.

(** Opens the transaction of an operation: the body runs in a world whose stores
    are those of [w]; its effect is the effect of the operation. *)
Lemma open_body {A} (body : M A) w a w' r :
  store_ok w → writeThrough opts body w = (inr a, w') →
  ∃ w0 w1, store_ok w0 ∧ body w0 = (inr a, w1) ∧ w_clock w0 = w_clock w
    ∧ (∀ r, db_runs (w_db w0) !! r = db_runs (w_db w) !! r) ∧ (∀ r, lease_of w0 r = lease_of w r)
    ∧ moved opts w0 w0 r (db_runs (w_db w) !! r) (lease_of w r) []
    ∧ ∀ row l ins, moved opts w0 w1 r row l ins → moved opts w w' r row l ins.
Proof.
  intros Hok H. apply (writeThrough_moved opts) in H
    as (w0 & w1 & Hok0 & H & Hdb & Hclk & Hls & Hlift); [|done].
  exists w0, w1. rewrite Hdb. split_and!; try done; [|by apply Hlift].
  rewrite <- Hdb, <- Hls. apply moved_refl; apply Hok0.
Qed.

(** A row of a run nobody runs belongs to a lease nobody holds. *)
Lemma idle_lease w r row :
  store_ok w → db_runs (w_db w) !! r = Some row → r_status row ≠ Running →
  ll_owner (lease_of w r) = None.
Proof.
  intros Hok Hrow Hs. pose proof (so_mirrors _ Hok r) as Hm. rewrite Hrow in Hm.
  apply (mirrors_free row); [done|].
  destruct (check_run_owner r row) as [[? _]|(_ & ? & _)]; [by apply (so_checked _ Hok)|done|done].
Qed.

Lemma idle_statuses row :
  (bool_decide (r_status row = Pending) || bool_decide (r_status row = Suspended)) = true ↔
  r_status row = Pending ∨ r_status row = Suspended.
Proof. by rewrite orb_true_iff, !bool_decide_eq_true. Qed.

Lemma claim_inr r expected c now w out w' :
  store_ok w → (0 ≤ now)%Z → claim opts r expected c now w = (inr out, w') →
  (∃ row, db_runs (w_db w) !! r = Some row
     ∧ (r_status row = Pending ∨ r_status row = Suspended)
     ∧ snapshotMatchesRow row expected = true ∧ r_claim row = null_cols
     ∧ lease_of w r = Spec.none ∧ out = Claimed now
     ∧ moved opts w w' r (Some (set_row_claim (owner_cols c) (Some now) row))
         (MkLocalLease None (Some (c, now))) [transition_input r "claimed" c (Some now)])
  ∨ (out = classifyClaimLoss (db_runs (w_db w) !! r) now ∧ unmoved opts w w' r).
Proof.
  intros Hok Ht H. unfold claim in H.
  apply (open_body _ _ _ _ r) in H as (w0 & w1 & _ & H & _ & Hrun & _ & Hm & Hlift); [|done].
  apply bind_inr in H as (orow & w2 & H1 & H). apply get_run_inr in H1 as [-> ->].
  rewrite Hrun in H. unfold unmoved.
  destruct (db_runs (w_db w) !! r) as [row|] eqn:Hrow; [|right; inv_ok H; by auto].
  destruct (_ && claimColumnsFree row) eqn:Hadm; [|right; inv_ok H; by auto].
  rewrite !andb_true_iff, idle_statuses in Hadm. destruct Hadm as [[Hst Hsnap] Hfree].
  pose proof (so_checked _ Hok r row Hrow) as Hchk.
  apply (claimColumnsFree_spec _ _ Hchk) in Hfree.
  assert (Hown : ll_owner (lease_of w r) = None).
  { apply (idle_lease _ _ row); [done..|]. by destruct Hst as [-> | ->]. }
  apply bind_inr in H as (grant & w2 & H1 & H).
  pose proof (check_run_nonempty _ _ Hchk) as Hne.
  destruct (chain_claim Hm Hne Ht H1) as [-> Hm1].
  unfold Spec.claim in H, Hm1. rewrite Hown in H, Hm1.
  destruct (ll_claim (lease_of w r)) as [cl|] eqn:Hcl; simpl in H, Hm1.
  - right. apply ret_inr in H as [-> ->]. auto.
  - left. exists row.
    assert (lease_of w r = Spec.none) by (by destruct (lease_of w r); simplify_eq/=).
    apply bind_inr in H as (res & w3 & H2 & H). apply (chain_update Hm1) in H2.
    apply bind_inr in H as (u & w4 & H3 & H). apply (chain_transition H2) in H3.
    apply ret_inr in H as [-> ->]. split_and!; try done. by apply Hlift.
Qed.

Lemma open_write {A} (body : M A) w a w' r :
  store_ok w → run_write body w = (inr a, w') →
  body w = (inr a, w')
  ∧ moved opts w w r (db_runs (w_db w) !! r) (lease_of w r) [].
Proof.
  intros Hok H. apply map_error_inr, write_inv in H. split; [done|].
  apply moved_refl; apply Hok.
Qed.

Lemma create_inr r s o w u w' :
  store_ok w → create opts r s o w = (inr u, w') →
  db_runs (w_db w) !! r = None
  ∧ moved opts w w' r (Some (created_row (w_clock w) o s)) (lease_of w r)
      [run_event_input r "flows.run.created" (created_payload (w_clock w) o s)].
Proof.
  intros Hok H. unfold create in H. destruct (_ || invalidLineage o); [done|].
  apply bind_inr in H as (t & w2 & H1 & H). apply gets_inr in H1 as [-> ->].
  apply (open_body _ _ _ _ r) in H as (w0 & w1 & _ & H & _ & Hrun & _ & Hm & Hlift); [|done].
  apply bind_inr in H as (u1 & w2 & H1 & H). unfold insert_run in H1.
  apply bind_inr in H1 as (runs & w3 & H3 & H1). apply gets_inr in H3 as [-> ->].
  destruct (insertable _ _ _) eqn:Hins; [|done].
  apply put_run_inr in H1 as [Hchk ->].
  unfold insertable in Hins. rewrite !andb_true_iff in Hins. destruct Hins as [[Hnone _] _].
  rewrite Hrun in Hnone. destruct (db_runs (w_db w) !! r) eqn:Hrow; [done|]. split; [done|].
  pose proof (set_run_moved opts w0 r (created_row (w_clock w) o s)
    (mv_wf _ _ _ _ _ _ _ Hm) (mv_journal _ _ _ _ _ _ _ Hm) Hchk) as Hm1.
  rewrite (mv_lease _ _ _ _ _ _ _ Hm) in Hm1.
  apply (chain_event Hm1) in H. by apply Hlift.
Qed.

Lemma cancel_recorded_inr w w1 w2 r row l ins t out :
  moved opts w w1 r (Some row) l ins → r_cancelRequestedAtMs row = Some t →
  cancel_recorded opts r row w1 = (inr out, w2) →
  out = CancelRequested t
  ∧ moved opts w w2 r (Some row) l
      (ins ++ [run_event_input r "flows.run.cancel-requested" [("requestedAtMs", JNum t)]]).
Proof.
  intros Hm Ht H. unfold cancel_recorded in H. rewrite Ht in H.
  apply bind_inr in H as (u & w3 & H1 & H). apply (chain_event Hm) in H1.
  by apply ret_inr in H as [-> ->].
Qed.

Lemma requestCancel_inr r now w out w' :
  store_ok w → requestCancel opts r now w = (inr out, w') →
  match db_runs (w_db w) !! r with
  | None => out = NotFound ∧ unmoved opts w w' r
  | Some row =>
      match r_cancelRequestedAtMs row with
      | Some t => out = AlreadyRequested t ∧ unmoved opts w w' r
      | None => out = CancelRequested now
          ∧ moved opts w w' r (Some (set_row_cancel (Some now) row)) (lease_of w r)
              [run_event_input r "flows.run.cancel-requested" [("requestedAtMs", JNum now)]]
      end
  end.
Proof.
  intros Hok H. unfold requestCancel in H. destruct (_ || bool_decide _); [done|].
  apply (open_body _ _ _ _ r) in H as (w0 & w1 & _ & H & _ & Hrun & _ & Hm & Hlift); [|done].
  apply bind_inr in H as (rows & w2 & H1 & H). unfold record_cancel in H1.
  apply (update_run_moved opts) in H1; [|apply Hm..]. rewrite Hrun in H1. destruct rows as [row'|].
  - destruct H1 as (row & Hrow & Hc & -> & _ & Hm1). rewrite Hrow.
    destruct (r_cancelRequestedAtMs row); [done|]. rewrite (mv_lease _ _ _ _ _ _ _ Hm) in Hm1.
    destruct (cancel_recorded_inr _ _ _ _ _ _ _ now _ Hm1 eq_refl H) as [-> Hm2].
    split; [done|]. by apply Hlift.
  - destruct H1 as [-> Hc]. apply bind_inr in H as (cur & w2 & H1 & H).
    apply get_run_inr in H1 as [-> ->]. rewrite Hrun in H. unfold unmoved.
    destruct (db_runs (w_db w) !! r) as [row|] eqn:Hrow; [|inv_ok H; by auto].
    specialize (Hc row eq_refl).
    destruct (r_cancelRequestedAtMs row) as [t|]; [inv_ok H; by auto|done].
Qed.

(** ** The lease behind a row *)

Lemma row_mirrors w r row :
  store_ok w → db_runs (w_db w) !! r = Some row →
  check_run r row = true ∧ nonempty r = true ∧ mirrors (Some row) (lease_of w r).
Proof.
  intros Hok Hrow. pose proof (so_checked _ Hok r row Hrow) as Hc.
  split_and!; [done|by eapply check_run_nonempty|]. rewrite <- Hrow. apply Hok.
Qed.

(** A run shown as running is held; one that is not is free. *)
Lemma running_lease r row l :
  check_run r row = true → mirrors (Some row) l → r_status row = Running →
  ∃ o g h, ll_owner l = Some (o, g, h) ∧ r_owner row = owner_cols o ∧ r_heartbeatAtMs row = Some h.
Proof.
  intros Hc Hm Hs. destruct (check_run_owner r row Hc) as [(_ & o & h & Ho & Hh)|[? _]]; [|done].
  destruct (mirrors_held _ _ _ Hm Ho) as (g & h' & Hl & Hh'). exists o, g, h'. by rewrite <- Hh'.
Qed.

Lemma stopped_lease r row l :
  check_run r row = true → mirrors (Some row) l → r_status row ≠ Running →
  ll_owner l = None ∧ r_owner row = null_cols ∧ r_heartbeatAtMs row = None.
Proof.
  intros Hc Hm Hs. destruct (check_run_owner r row Hc) as [[? _]|(_ & Ho & Hh)]; [done|].
  split; [by eapply mirrors_free|done].
Qed.

(** Releasing the claimant of a row drops the claim and nothing else. *)
Lemma release_claimant row l c t :
  mirrors (Some row) l → r_claim row = owner_cols c → r_claimedAtMs row = Some t →
  Spec.release l c = MkLocalLease (ll_owner l) None.
Proof.
  intros Hm Hc Ht. pose proof (mi_claim _ _ Hm row c t eq_refl Hc Ht) as Hl.
  pose proof (mi_distinct _ _ Hm row c eq_refl Hc) as Hd. pose proof (mi_owner _ _ Hm) as Ho.
  unfold Spec.release, Spec.owner_id, Spec.claim_id. rewrite Hl. simpl.
  rewrite (bool_decide_true (Some c = Some c)) by done. f_equal.
  destruct (ll_owner l) as [[[o g] h]|]; simpl; [|by try case_bool_decide].
  rewrite bool_decide_false; [done|]. intros [= ->]. by apply Hd.
Qed.

(** Releasing the owner of a row keeps a claim beside it. *)
Lemma release_owner r row l o :
  check_run r row = true → mirrors (Some row) l → r_status row = Running →
  r_owner row = owner_cols o → Spec.release l o = MkLocalLease None (ll_claim l).
Proof.
  intros Hchk Hm Hs Ho. destruct (mirrors_held _ _ _ Hm Ho) as (g & h & Hl & _).
  unfold Spec.release, Spec.owner_id, Spec.claim_id. rewrite Hl. simpl.
  rewrite (bool_decide_true (Some o = Some o)) by done. f_equal.
  destruct (check_run_claim r row Hchk) as [[Hc _]|(c & t & Hc & Ht)].
  - rewrite (mi_running _ _ Hm row eq_refl Hs Hc). by try case_bool_decide.
  - rewrite (mi_claim _ _ Hm row c t eq_refl Hc Ht). simpl. rewrite bool_decide_false; [done|].
    intros [= ->]. by apply (mi_distinct _ _ Hm row o eq_refl Hc).
Qed.

Lemma rowMatchesClaim_spec row c t :
  rowMatchesClaim row c t = true ↔ r_claim row = owner_cols c ∧ r_claimedAtMs row = Some t.
Proof.
  unfold rowMatchesClaim, col_is. by rewrite andb_true_iff, cols_are_spec, bool_decide_eq_true.
Qed.

Lemma ownedBy_spec row o :
  ownedBy o row = true ↔ r_status row = Running ∧ r_owner row = owner_cols o.
Proof. unfold ownedBy. by rewrite andb_true_iff, bool_decide_eq_true, cols_are_spec. Qed.

(** The strategy holds a run for exactly the owner its row shows. *)
Lemma guard_ownedBy r row l o :
  check_run r row = true → mirrors (Some row) l → Spec.guard l o = ownedBy o row.
Proof.
  intros Hc Hm. apply eq_true_iff_eq. unfold Spec.guard, Spec.owner_id.
  rewrite ownedBy_spec, bool_decide_eq_true.
  destruct (decide (r_status row = Running)) as [Hs|Hs].
  - destruct (running_lease _ _ _ Hc Hm Hs) as (o' & g & h & -> & -> & _). simpl. split.
    + by intros [= ->].
    + intros [_ ->%owner_cols_inj]. done.
  - destruct (stopped_lease _ _ _ Hc Hm Hs) as (-> & _). simpl. split; [done|]. by intros [? _].
Qed.

(** ** Two-phase claims *)

Lemma activate_inr r c t expected w out w' :
  store_ok w → (0 ≤ w_clock w)%Z → activate opts r c t expected w = (inr out, w') →
  match db_runs (w_db w) !! r with
  | Some row =>
      if rowMatchesClaim row c t
      then if snapshotMatchesRow row expected
           then out = Activated
             ∧ moved opts w w' r (Some (clear_row_claim (set_row_running c (w_clock w) row)))
                 (MkLocalLease (Some (c, t, w_clock w)) None)
                 [transition_input r "activated" c (Some t);
                  run_event_input r "flows.run.transitioned"
                    (transitioned_payload Running (w_clock w) None)]
           else out = SnapshotChanged
             ∧ moved opts w w' r (Some (clear_row_claim row))
                 (MkLocalLease (ll_owner (lease_of w r)) None) []
      else out = ClaimLost ∧ unmoved opts w w' r
  | None => out = ClaimLost ∧ unmoved opts w w' r
  end.
Proof.
  intros Hok Ht H. unfold activate in H.
  apply bind_inr in H as (t' & w2 & H1 & H). apply gets_inr in H1 as [-> ->].
  apply (open_body _ _ _ _ r) in H as (w0 & w1 & _ & H & _ & Hrun & _ & Hm & Hlift); [|done].
  apply bind_inr in H as (orow & w2 & H1 & H). apply get_run_inr in H1 as [-> ->].
  rewrite Hrun in H. unfold unmoved.
  destruct (db_runs (w_db w) !! r) as [row|] eqn:Hrow; [|inv_ok H; by auto].
  destruct (row_mirrors _ _ _ Hok Hrow) as (Hchk & Hne & Hmi).
  destruct (rowMatchesClaim row c t) eqn:Hc; simpl in H; [|inv_ok H; by auto].
  pose proof Hc as Hc'. apply rowMatchesClaim_spec in Hc' as [Hcl Hcat].
  destruct (snapshotMatchesRow row expected); simpl in H.
  - apply bind_inr in H as (a & w2 & H1 & H).
    destruct (chain_activate Hm Hne Ht H1) as [-> Hm1].
    unfold Spec.activate in H, Hm1.
    rewrite (mi_claim _ _ Hmi row c t eq_refl Hcl Hcat), bool_decide_true in H, Hm1 by done.
    simpl in H, Hm1. apply bind_inr in H as (res & w3 & H2 & H). apply (chain_update Hm1) in H2.
    apply bind_inr in H as (u & w4 & H3 & H). apply (chain_transition H2) in H3.
    apply bind_inr in H as (u' & w5 & H4 & H). apply (chain_event H3) in H4.
    apply ret_inr in H as [-> ->]. split; [done|]. by apply Hlift.
  - apply bind_inr in H as (u & w2 & H1 & H). apply (chain_release Hm) in H1.
    rewrite (release_claimant _ _ _ _ Hmi Hcl Hcat) in H1.
    apply bind_inr in H as (res & w3 & H2 & H). apply ret_inr in H as [-> ->]. split; [done|].
    apply (update_run_moved opts) in H2; [|apply H1..].
    rewrite (mv_run _ _ _ _ _ _ _ H1) in H2. destruct res as [row'|].
    + destruct H2 as (x & [= <-] & _ & -> & _ & H2). rewrite (mv_lease _ _ _ _ _ _ _ H1) in H2.
      apply Hlift. exact (moved_trans _ _ _ _ _ _ _ _ _ _ _ H1 H2).
    + destruct H2 as [_ H2]. by rewrite (H2 row eq_refl) in Hc.
Qed.

Lemma abandonClaim_inr r c t w out w' :
  store_ok w → abandonClaim opts r c t w = (inr out, w') →
  match db_runs (w_db w) !! r with
  | Some row =>
      if rowMatchesClaim row c t
      then out = Abandoned
        ∧ moved opts w w' r (Some (clear_row_claim row))
            (MkLocalLease (ll_owner (lease_of w r)) None)
            [transition_input r "released" c (Some t)]
      else out = ClaimLost ∧ unmoved opts w w' r
  | None => out = ClaimLost ∧ unmoved opts w w' r
  end.
Proof.
  intros Hok H. unfold abandonClaim in H.
  apply (open_body _ _ _ _ r) in H as (w0 & w1 & _ & H & _ & Hrun & _ & Hm & Hlift); [|done].
  apply bind_inr in H as (res & w2 & H1 & H).
  apply (update_run_moved opts) in H1; [|apply Hm..]. rewrite Hrun in H1. unfold unmoved.
  destruct res as [row'|].
  - destruct H1 as (row & Hrow & Hc & -> & _ & Hm1). rewrite Hrow, Hc.
    destruct (row_mirrors _ _ _ Hok Hrow) as (Hchk & Hne & Hmi).
    apply rowMatchesClaim_spec in Hc as [Hcl Hcat]. rewrite (mv_lease _ _ _ _ _ _ _ Hm) in Hm1.
    apply bind_inr in H as (u & w3 & H1 & H). apply (chain_release Hm1) in H1.
    rewrite (release_claimant _ _ _ _ Hmi Hcl Hcat) in H1.
    apply bind_inr in H as (u' & w4 & H2 & H). apply (chain_transition H1) in H2.
    apply ret_inr in H as [-> ->]. split; [done|]. by apply Hlift.
  - destruct H1 as [-> Hc]. apply ret_inr in H as [-> ->].
    destruct (db_runs (w_db w) !! r) as [row|] eqn:Hrow; [|by auto].
    rewrite (Hc row eq_refl). by auto.
Qed.

Lemma recoverClaim_inr r s t obs now ev w out w' :
  store_ok w → recoverClaim opts r s t obs now ev w = (inr out, w') →
  if negb (matchesEvidence s obs now ev) then out = LivenessUnconfirmed ∧ w' = w
  else match db_runs (w_db w) !! r with
  | None => out = NotFound ∧ unmoved opts w w' r
  | Some row =>
      if negb (rowMatchesClaim row s t) then out = ClaimChanged ∧ unmoved opts w w' r
      else if bool_decide (now - heartbeatStaleAfter ≤ t)%Z
      then out = ClaimFresh ∧ unmoved opts w w' r
      else out = Recovered
        ∧ moved opts w w' r (Some (clear_row_claim row))
            (MkLocalLease (ll_owner (lease_of w r)) None)
            [transition_input r "expired" s (Some t)]
  end.
Proof.
  intros Hok H. unfold recoverClaim in H.
  destruct (matchesEvidence s obs now ev) eqn:Hev; simpl in *; [|inv_ok H; done].
  apply (open_body _ _ _ _ r) in H as (w0 & w1 & Hok0 & H & _ & Hrun & _ & Hm & Hlift); [|done].
  apply bind_inr in H as (orow & w2 & H1 & H). apply get_run_inr in H1 as [-> ->].
  rewrite Hrun in H. unfold unmoved.
  destruct (db_runs (w_db w) !! r) as [row|] eqn:Hrow; [|inv_ok H; by auto].
  destruct (row_mirrors _ _ _ Hok Hrow) as (Hchk & Hne & Hmi).
  destruct (rowMatchesClaim row s t) eqn:Hc; simpl in *; [|inv_ok H; by auto].
  destruct (bool_decide (now - heartbeatStaleAfter ≤ t)%Z) eqn:Hfresh; [inv_ok H; by auto|].
  apply rowMatchesClaim_spec in Hc as [Hcl Hcat].
  apply bind_inr in H as (a & w2 & H1 & H).
  assert (Hal : aligned lease_of w0 r) by (apply mirrors_aligned, Hok0).
  destruct (chain_recover Hm Hal H1) as [-> Hm1].
  unfold Spec.recover, staleAfterMs in H, Hm1. rewrite Hev, Hfresh in H, Hm1.
  rewrite (mi_claim _ _ Hmi row s t eq_refl Hcl Hcat), bool_decide_true in H, Hm1 by done.
  simpl in H, Hm1. apply bind_inr in H as (res & w3 & H2 & H). apply (chain_update Hm1) in H2.
  apply bind_inr in H as (u & w4 & H3 & H). apply (chain_transition H2) in H3.
  apply ret_inr in H as [-> ->]. split; [done|]. by apply Hlift.
Qed.

(** ** Heartbeats and transitions *)

Lemma heartbeat_inr r o now w out w' :
  store_ok w → heartbeat r o now w = (inr out, w') →
  match db_runs (w_db w) !! r with
  | None => out = NotFound ∧ unmoved opts w w' r
  | Some row =>
      if ownedBy o row
      then out = Updated ∧ ∃ g h, ll_owner (lease_of w r) = Some (o, g, h)
        ∧ moved opts w w' r (Some (set_row_heartbeat (Some (Z.max h now)) row))
            (MkLocalLease (Some (o, g, Z.max h now)) (ll_claim (lease_of w r))) []
      else out = FenceLost ∧ unmoved opts w w' r
  end.
Proof.
  intros Hok H. unfold heartbeat in H. destruct (_ || bool_decide _); [done|].
  apply (open_write _ _ _ _ r) in H as [H Hm]; [|done].
  apply bind_inr in H as (a & w2 & H1 & H). destruct (chain_heartbeat Hm H1) as [-> Hm1].
  assert (Hlost : ll_owner (lease_of w r) = None ∨ (∃ o' g h, ll_owner (lease_of w r) = Some (o', g, h) ∧ o' ≠ o) →
    (match db_runs (w_db w) !! r with Some row => ownedBy o row = false | None => True end) →
    match db_runs (w_db w) !! r with
    | None => out = NotFound ∧ unmoved opts w w' r
    | Some row => if ownedBy o row then False else out = FenceLost ∧ unmoved opts w w' r
    end).
  { intros Hl Hno. unfold unmoved.
    assert (Spec.heartbeat (lease_of w r) o now = (LeaseHeartbeatLost, lease_of w r)) as Hs.
    { unfold Spec.heartbeat. destruct Hl as [-> |(o' & g & h & -> & Hne)]; [done|].
      by rewrite bool_decide_false. }
    rewrite Hs in H, Hm1. simpl in H, Hm1. unfold lost_or_missing in H.
    apply bind_inr in H as (cur & w3 & H2 & H). apply get_run_inr in H2 as [-> ->].
    apply ret_inr in H as [-> ->]. rewrite (mv_run _ _ _ _ _ _ _ Hm1) in *.
    destruct (db_runs (w_db w) !! r); [rewrite Hno|]; auto. }
  destruct (db_runs (w_db w) !! r) as [row|] eqn:Hrow.
  - destruct (row_mirrors _ _ _ Hok Hrow) as (Hchk & Hne & Hmi).
    destruct (ownedBy o row) eqn:Hown.
    + clear Hlost. apply ownedBy_spec in Hown as [Hs Ho].
      destruct (mirrors_held _ _ _ Hmi Ho) as (g & h & Hl & Hh).
      unfold Spec.heartbeat in H, Hm1. rewrite Hl, bool_decide_true in H, Hm1 by done.
      simpl in H, Hm1. apply bind_inr in H as (res & w3 & H2 & H).
      apply (update_run_moved opts) in H2; [|apply Hm1..].
      rewrite (mv_run _ _ _ _ _ _ _ Hm1) in H2. destruct res as [row'|].
      * destruct H2 as (x & [= <-] & _ & -> & _ & H2). apply ret_inr in H as [-> ->].
        split; [done|]. exists g, h. split; [done|].
        rewrite (mv_lease _ _ _ _ _ _ _ Hm1), Hh in H2. simpl in H2.
        replace (Z.max h (Z.max h now)) with (Z.max h now) in H2 by lia.
        exact (moved_trans _ _ _ _ _ _ _ _ _ _ _ Hm1 H2).
      * destruct H2 as [_ H2]. specialize (H2 row eq_refl).
        assert (ownedBy o row = true) by (by apply ownedBy_spec). congruence.
    + apply Hlost; [|done].
      destruct (ll_owner (lease_of w r)) as [[[o' g] h]|] eqn:Hl; [|by left]. right.
      exists o', g, h. split; [done|]. intros ->.
      pose proof (guard_ownedBy r row (lease_of w r) o Hchk Hmi) as Hg.
      unfold Spec.guard, Spec.owner_id in Hg. rewrite Hl in Hg. simpl in Hg.
      rewrite bool_decide_true in Hg by done. congruence.
  - apply Hlost; [|done]. left. pose proof (so_mirrors _ Hok r) as [Ho _ _ _ _ _].
    rewrite Hrow in Ho. by destruct (ll_owner (lease_of w r)) as [[[? ?] ?]|].
Qed.

Lemma fence_held_inr r o w b w' :
  cs_wf w → fence_held r o w = (inr b, w') → b = Spec.guard (lease_of w r) o ∧ w' = w.
Proof.
  intros Hwf H. unfold fence_held, catch, bind in H. rewrite law_guard in H by done.
  destruct (Spec.guard _ _); simpl in H.
  - by apply ret_inr in H as [-> ->].
  - by apply ret_inr in H as [-> ->].
Qed.

Lemma transitionOwned_inr r o toStatus state guard w out w' :
  store_ok w → transitionOwned opts r o toStatus state guard w = (inr out, w') →
  ∃ status, decode_status toStatus = Some status ∧
  match db_runs (w_db w) !! r with
  | None => out = NotFound ∧ unmoved opts w w' r
  | Some row =>
      if negb (ownedBy o row) then out = FenceLost ∧ unmoved opts w w' r
      else if guardBlocked guard row then out = GuardFailed ∧ unmoved opts w w' r
      else
        let event := run_event_input r "flows.run.transitioned"
                       (transitioned_payload status (w_clock w) state) in
        out = Transitioned
        ∧ if bool_decide (status = Running)
          then moved opts w w' r (Some (set_row_continue state row)) (lease_of w r) [event]
          else moved opts w w' r (Some (set_row_yield status (w_clock w) state row))
                 (MkLocalLease None (ll_claim (lease_of w r)))
                 [event; transition_input r "released" o None]
  end.
Proof.
  intros Hok H. unfold transitionOwned in H.
  destruct (decode_status toStatus) as [status|]; [|done]. exists status. split; [done|].
  destruct (match state with Some s => _ | None => _ end); [done|].
  apply bind_inr in H as (t & w2 & H1 & H). apply gets_inr in H1 as [-> ->].
  apply (open_body _ _ _ _ r) in H as (w0 & w1 & Hok0 & H & _ & Hrun & Hls & Hm & Hlift); [|done].
  apply bind_inr in H as (held & w2 & H1 & H).
  apply fence_held_inr in H1 as [-> ->]; [|apply Hok0]. rewrite Hls in H.
  apply bind_inr in H as (orow & w2 & H1 & H). apply get_run_inr in H1 as [-> ->].
  rewrite Hrun in H. unfold unmoved.
  destruct (db_runs (w_db w) !! r) as [row|] eqn:Hrow; [|inv_ok H; by auto].
  destruct (row_mirrors _ _ _ Hok Hrow) as (Hchk & Hne & Hmi).
  rewrite (guard_ownedBy _ _ _ _ Hchk Hmi), andb_diag in H.
  destruct (ownedBy o row) eqn:Hown; simpl in *; [|inv_ok H; by auto].
  destruct (guardBlocked guard row); [inv_ok H; by auto|].
  apply ownedBy_spec in Hown as [Hs Ho].
  destruct (bool_decide (status = Running)).
  - apply bind_inr in H as (res & w2 & H1 & H). apply (chain_update Hm) in H1.
    apply bind_inr in H as (u & w3 & H2 & H). apply (chain_event H1) in H2.
    apply ret_inr in H as [-> ->]. split; [done|]. by apply Hlift.
  - apply bind_inr in H as (res & w2 & H1 & H). apply (chain_update Hm) in H1.
    apply bind_inr in H as (u & w3 & H2 & H). apply (chain_event H1) in H2.
    apply bind_inr in H as (u' & w4 & H3 & H). apply (chain_release H2) in H3.
    rewrite (release_owner _ _ _ _ Hchk Hmi Hs Ho) in H3.
    apply bind_inr in H as (u'' & w5 & H4 & H). apply (chain_transition H3) in H4.
    apply ret_inr in H as [-> ->]. split; [done|]. by apply Hlift.
Qed.

(** ** Taking over *)

Lemma matchesEvidence_expected eo c now ev :
  matchesEvidence eo c now ev = true →
  expectedOwner ev = eo ∧ matchesEvidence (expectedOwner ev) c now ev = true.
Proof.
  intros H. assert (expectedOwner ev = eo) as ->; [|done].
  unfold matchesEvidence in H. destruct (sameOwner eo (expectedOwner ev)) eqn:Hs; [|done].
  by apply sameOwner_spec in Hs.
Qed.

(** The strategy grants the steal of a stale owner nobody else claims. *)
Lemma spec_steal_granted l eo g h c now ev :
  ll_owner l = Some (eo, g, h) → ll_claim l = None → matchesEvidence eo c now ev = true →
  (h < now - heartbeatStaleAfter)%Z →
  Spec.steal l c now ev = (LeaseClaimed now, MkLocalLease (ll_owner l) (Some (c, now))).
Proof.
  intros Hl Hc Hev Hh. apply matchesEvidence_expected in Hev as [He Hev]. unfold Spec.steal.
  rewrite Hev, Hc, Hl. simpl. rewrite (bool_decide_true (eo = _)) by done. simpl.
  rewrite bool_decide_false; [done|]. unfold staleAfterMs. lia.
Qed.

Lemma steal_inr r expected c now ev w out w' :
  store_ok w → (0 ≤ now)%Z → steal opts r expected c now ev w = (inr out, w') →
  if negb (evidenceMatches expected c now ev) then out = SnapshotChanged ∧ w' = w
  else match db_runs (w_db w) !! r with
  | None => out = NotFound ∧ unmoved opts w w' r
  | Some row =>
      if snapshotMatchesRow row expected && claimColumnsFree row
         && col_lt (r_heartbeatAtMs row) (now - heartbeatStaleAfter)
      then out = Claimed now
        ∧ moved opts w w' r (Some (set_row_claim (owner_cols c) (Some now) row))
            (MkLocalLease (ll_owner (lease_of w r)) (Some (c, now)))
            [transition_input r "stolen" c (Some now)]
      else out = classifyClaimLoss (Some row) now ∧ unmoved opts w w' r
  end.
Proof.
  intros Hok Ht H. unfold steal in H.
  destruct (evidenceMatches expected c now ev) eqn:Hev; simpl in *; [|inv_ok H; done].
  apply (open_body _ _ _ _ r) in H as (w0 & w1 & Hok0 & H & _ & Hrun & _ & Hm & Hlift); [|done].
  apply bind_inr in H as (orow & w2 & H1 & H). apply get_run_inr in H1 as [-> ->].
  rewrite Hrun in H. unfold unmoved.
  destruct (db_runs (w_db w) !! r) as [row|] eqn:Hrow; [|inv_ok H; by auto].
  destruct (row_mirrors _ _ _ Hok Hrow) as (Hchk & Hne & Hmi).
  destruct (_ && col_lt _ _) eqn:Hadm; [|inv_ok H; by auto].
  rewrite !andb_true_iff in Hadm. destruct Hadm as [[Hsnap Hfree] Hstale].
  apply snapshotMatchesRow_spec in Hsnap as (Hst & Hown & Hhb).
  apply (claimColumnsFree_spec _ _ Hchk) in Hfree.
  unfold evidenceMatches in Hev. apply andb_true_iff in Hev as [Hrunning Hev].
  apply bool_decide_eq_true in Hrunning. rewrite Hrunning in Hst.
  destruct (sn_owner expected) as [eo|]; [|done].
  destruct (mirrors_held _ _ _ Hmi Hown) as (g & h & Hl & Hh). rewrite Hh in Hstale. simpl in Hstale.
  apply bool_decide_eq_true in Hstale.
  pose proof (mi_running _ _ Hmi row eq_refl Hst Hfree) as Hcl.
  apply bind_inr in H as (grant & w2 & H1 & H).
  assert (Hal : aligned lease_of w0 r) by (apply mirrors_aligned, Hok0).
  destruct (chain_steal Hm Hal Hne Ht H1) as [-> Hm1].
  rewrite (spec_steal_granted _ _ _ _ _ _ _ Hl Hcl Hev Hstale) in H, Hm1. simpl in H, Hm1.
  apply bind_inr in H as (res & w3 & H2 & H). apply (chain_update Hm1) in H2.
  apply bind_inr in H as (u & w4 & H3 & H). apply (chain_transition H2) in H3.
  apply ret_inr in H as [-> ->]. split; [done|]. by apply Hlift.
Qed.

(** The grant [claimAndOwn] obtains on an admissible row. *)
Lemma own_grant_moved r expected o now ev row w w1 w2 ins grant :
  check_run r row = true → nonempty r = true → (0 ≤ now)%Z → mirrors (Some row) (lease_of w r) →
  aligned lease_of w1 r →
  moved opts w w1 r (Some row) (lease_of w r) ins →
  canReplaceExpectedOwner expected o now ev = true → own_admissible row expected now = true →
  own_grant r (sn_owner expected) o now ev w1 = (inr grant, w2) →
  match ll_claim (lease_of w r) with
  | None => grant = LeaseClaimed now
      ∧ ∃ ow, moved opts w w2 r (Some row) (MkLocalLease ow (Some (o, now))) ins
  | Some _ => (∃ why, grant = LeaseRejected why) ∧ moved opts w w2 r (Some row) (lease_of w r) ins
  end.
Proof.
  intros Hchk Hne Ht Hmi Hal Hm Hcan Hadm H. unfold own_admissible in Hadm.
  rewrite !andb_true_iff in Hadm. destruct Hadm as [[[Hst Hsnap] Hfree] Hstale].
  apply snapshotMatchesRow_spec in Hsnap as (Hsn & Hown & Hhb).
  apply (claimColumnsFree_spec _ _ Hchk) in Hfree.
  destruct (decide (r_status row = Running)) as [Hrun|Hrun].
  - destruct (running_lease _ _ _ Hchk Hmi Hrun) as (eo & g & h & Hl & Ho & Hh).
    rewrite Hown in Ho. destruct (sn_owner expected) as [eo'|] eqn:Hso; [|done].
    apply owner_cols_inj in Ho as ->.
    rewrite (bool_decide_true (_ = Running)), Hh in Hstale by done. simpl in Hstale.
    apply bool_decide_eq_true in Hstale.
    pose proof (mi_running _ _ Hmi row eq_refl Hrun Hfree) as Hcl. rewrite Hcl.
    unfold own_grant in H. destruct (sameOwner eo o) eqn:Hsame.
    + apply sameOwner_spec in Hsame as ->.
      apply bind_inr in H as (u & w3 & H1 & H). apply (chain_release Hm) in H1.
      rewrite (release_owner _ _ _ _ Hchk Hmi Hrun Hown), Hcl in H1.
      destruct (chain_claim H1 Hne Ht H) as [-> H2]. unfold Spec.claim in H2 |- *. simpl in *.
      split; [done|]. by exists None.
    + destruct ev as [ev|]; [|done].
      assert (Hev : matchesEvidence eo o now ev = true).
      { unfold canReplaceExpectedOwner, evidenceMatches in Hcan. rewrite <- Hsn, Hrun, Hso in Hcan.
        rewrite Hsame in Hcan. by rewrite bool_decide_true in Hcan by done. }
      destruct (chain_steal Hm Hal Hne Ht H) as [-> H1].
      rewrite (spec_steal_granted _ _ _ _ _ _ _ Hl Hcl Hev Hstale) in H1 |- *. simpl in *.
      split; [done|]. by eexists.
  - destruct (stopped_lease _ _ _ Hchk Hmi Hrun) as (Hl & Ho & _). rewrite Ho in Hown.
    destruct (sn_owner expected) as [eo|]; [done|]. simpl in H.
    destruct (chain_claim Hm Hne Ht H) as [-> H1]. unfold Spec.claim in H1 |- *. rewrite Hl in H1 |- *.
    destruct (ll_claim (lease_of w r)); simpl in *; [by eauto|]. split; [done|]. by exists None.
Qed.

Lemma claimAndOwn_inr r expected o now ev w out w' :
  store_ok w → (0 ≤ now)%Z → claimAndOwn opts r expected o now ev w = (inr out, w') →
  if negb (canReplaceExpectedOwner expected o now ev)
  then w' = w ∧ out = (let loss := classifyClaimLoss (db_runs (w_db w) !! r) now in
                       if bool_decide (loss = SnapshotChanged) then EvidenceRequired else loss)
  else match db_runs (w_db w) !! r with
  | None => out = NotFound ∧ unmoved opts w w' r
  | Some row =>
      if own_admissible row expected now && is_null (ll_claim (lease_of w r))
      then out = Activated
        ∧ moved opts w w' r (Some (set_row_running o now row))
            (MkLocalLease (Some (o, now, now)) None)
            [transition_input r (if replaces_owner (sn_owner expected) o then "stolen" else "claimed")
               o (Some now);
             transition_input r "activated" o (Some now);
             run_event_input r "flows.run.transitioned" (transitioned_payload Running now None)]
      else out = classifyClaimLoss (Some row) now ∧ unmoved opts w w' r
  end.
Proof.
  intros Hok Ht H. unfold claimAndOwn in H.
  destruct (canReplaceExpectedOwner expected o now ev) eqn:Hcan; simpl in *.
  2:{ apply bind_inr in H as (orow & w2 & H1 & H). apply get_run_inr in H1 as [-> ->].
      by apply ret_inr in H as [-> ->]. }
  apply (open_body _ _ _ _ r) in H as (w0 & w1 & Hok0 & H & _ & Hrun & Hls & Hm & Hlift); [|done].
  apply bind_inr in H as (orow & w2 & H1 & H). apply get_run_inr in H1 as [-> ->].
  rewrite Hrun in H. unfold unmoved.
  destruct (db_runs (w_db w) !! r) as [row|] eqn:Hrow; [|inv_ok H; by auto].
  destruct (row_mirrors _ _ _ Hok Hrow) as (Hchk & Hne & Hmi).
  destruct (own_admissible row expected now) eqn:Hadm; simpl; [|inv_ok H; by auto].
  apply bind_inr in H as (grant & w2 & H1 & H).
  assert (Hal : aligned lease_of w0 r) by (apply mirrors_aligned, Hok0).
  rewrite <- Hls in Hm, Hmi.
  pose proof (own_grant_moved _ _ _ _ _ _ _ _ _ _ _ Hchk Hne Ht Hmi Hal Hm Hcan Hadm H1) as Hg.
  rewrite Hls in Hg. destruct (ll_claim (lease_of w r)) as [cl|]; simpl.
  - destruct Hg as [[why ->] Hm1]. apply ret_inr in H as [-> ->]. auto.
  - destruct Hg as [-> [ow Hm1]]. apply bind_inr in H as (a & w3 & H2 & H).
    destruct (chain_activate Hm1 Hne Ht H2) as [-> Hm2].
    unfold Spec.activate in H, Hm2. simpl in H, Hm2. rewrite bool_decide_true in H, Hm2 by done.
    simpl in H, Hm2. apply bind_inr in H as (res & w4 & H3 & H). apply (chain_update Hm2) in H3.
    apply bind_inr in H as (u & w5 & H4 & H). apply (chain_transition H3) in H4.
    apply bind_inr in H as (u' & w6 & H5 & H). apply (chain_transition H4) in H5.
    apply bind_inr in H as (u'' & w7 & H6 & H). apply (chain_event H5) in H6.
    apply ret_inr in H as [-> ->]. split; [done|]. by apply Hlift.
Qed.

End ops.
