(* ===== verification/RunProps.v ===== *)
(** Properties of the run store over single operations and over executions.

    [store_op] is one call of the service (or the clock moving on); [perform_op]
    runs it.  The theorems are proved for any lawful strategy from the effects
    of [RunOps]. *)

From S2P Require Export RunOps ConsensusProps.

#[local] Open Scope me_scope.

(** ** Calls *)

Inductive store_op :=
| OCreate (r stateJson : string) (o : CreateOptions)
| OCancel (r : string) (now : Z)
| OClaim (r : string) (expected : RunSnapshot) (c : OwnerId) (now : Z)
| OOwn (r : string) (expected : RunSnapshot) (o : OwnerId) (now : Z) (ev : option LivenessEvidence)
| OActivate (r : string) (c : OwnerId) (claimedAtMs : Z) (expected : RunSnapshot)
| OAbandon (r : string) (c : OwnerId) (claimedAtMs : Z)
| ORecover (r : string) (stale : OwnerId) (claimedAtMs : Z) (obs : OwnerId) (now : Z)
           (ev : LivenessEvidence)
| OBeat (r : string) (o : OwnerId) (now : Z)
| OTransition (r : string) (o : OwnerId) (toStatus : string) (state : option string)
              (guard : option CancelGuard)
| OSteal (r : string) (expected : RunSnapshot) (c : OwnerId) (now : Z) (ev : LivenessEvidence)
| OTick (now : Z).

(** Clock readings are not negative, and nobody steals a run from itself. *)
Definition op_sane (op : store_op) : bool :=
  match op with
  | OClaim _ _ _ now | OOwn _ _ _ now _ | OTick now => bool_decide (0 ≤ now)%Z
  | OSteal _ expected c now _ => bool_decide (0 ≤ now)%Z && negb (bool_decide (sn_owner expected = Some c))
  | _ => true
  end.

(** The outcomes that report that nothing was done. *)
Definition refused (out : Outcome) : bool :=
  match out with
  | NotFound | AlreadyClaimed | HeartbeatFresh | SnapshotChanged | EvidenceRequired | ClaimLost
  | ClaimFresh | ClaimChanged | LivenessUnconfirmed | FenceLost | GuardFailed
  | AlreadyRequested _ => true
  | _ => false
  end.

Section props.
Context {J : JsonText} {C : Consensus} {L : ConsensusLaws C} (opts : ValidatedOptions).
Implicit Types (w : World) (r : string) (l : LocalLease).

Definition perform_op (op : store_op) : M (option Outcome) :=
  match op with
  | OCreate r s o => create opts r s o ;; ret None
  | OCancel r now => x <- requestCancel opts r now ;; ret (Some x)
  | OClaim r e c now => x <- claim opts r e c now ;; ret (Some x)
  | OOwn r e o now ev => x <- claimAndOwn opts r e o now ev ;; ret (Some x)
  | OActivate r c t e => x <- activate opts r c t e ;; ret (Some x)
  | OAbandon r c t => x <- abandonClaim opts r c t ;; ret (Some x)
  | ORecover r s t obs now ev => x <- recoverClaim opts r s t obs now ev ;; ret (Some x)
  | OBeat r o now => x <- heartbeat r o now ;; ret (Some x)
  | OTransition r o st state g => x <- transitionOwned opts r o st state g ;; ret (Some x)
  | OSteal r e c now ev => x <- steal opts r e c now ev ;; ret (Some x)
  | OTick now => modify (set_clock now) ;; ret None
  end.

(** ** What one call does to the row of a run

    [row_effect op now row l out row' l' inputs]: called at time [now] on a run
    with that row and lease, the call may answer [out] and leave [row'] and [l']
    with the events of [inputs] appended. *)
Inductive row_effect (now : Z) (row : option RunRow) (l : LocalLease)
  : store_op → option Outcome → option RunRow → LocalLease → list Input → Prop :=
| eff_none op out : refused out = true → row_effect now row l op (Some out) row l []
| eff_create r s o : row = None →
    row_effect now row l (OCreate r s o) None (Some (created_row now o s)) l
      [run_event_input r "flows.run.created" (created_payload now o s)]
| eff_cancel r t x : row = Some x → r_cancelRequestedAtMs x = None →
    row_effect now row l (OCancel r t) (Some (CancelRequested t)) (Some (set_row_cancel (Some t) x)) l
      [run_event_input r "flows.run.cancel-requested" [("requestedAtMs", JNum t)]]
| eff_claim r e c t x : row = Some x → r_status x = Pending ∨ r_status x = Suspended →
    r_claim x = null_cols → snapshotMatchesRow x e = true → l = Spec.none →
    row_effect now row l (OClaim r e c t) (Some (Claimed t))
      (Some (set_row_claim (owner_cols c) (Some t) x)) (MkLocalLease None (Some (c, t)))
      [transition_input r "claimed" c (Some t)]
| eff_own r e o t ev x : row = Some x → canReplaceExpectedOwner e o t ev = true →
    own_admissible x e t = true → ll_claim l = None →
    row_effect now row l (OOwn r e o t ev) (Some Activated) (Some (set_row_running o t x))
      (MkLocalLease (Some (o, t, t)) None)
      [transition_input r (if replaces_owner (sn_owner e) o then "stolen" else "claimed") o (Some t);
       transition_input r "activated" o (Some t);
       run_event_input r "flows.run.transitioned" (transitioned_payload Running t None)]
| eff_activate r c t e x : row = Some x → rowMatchesClaim x c t = true →
    snapshotMatchesRow x e = true →
    row_effect now row l (OActivate r c t e) (Some Activated)
      (Some (clear_row_claim (set_row_running c now x))) (MkLocalLease (Some (c, t, now)) None)
      [transition_input r "activated" c (Some t);
       run_event_input r "flows.run.transitioned" (transitioned_payload Running now None)]
| eff_activate_moved r c t e x : row = Some x → rowMatchesClaim x c t = true →
    snapshotMatchesRow x e = false →
    row_effect now row l (OActivate r c t e) (Some SnapshotChanged) (Some (clear_row_claim x))
      (MkLocalLease (ll_owner l) None) []
| eff_abandon r c t x : row = Some x → rowMatchesClaim x c t = true →
    row_effect now row l (OAbandon r c t) (Some Abandoned) (Some (clear_row_claim x))
      (MkLocalLease (ll_owner l) None) [transition_input r "released" c (Some t)]
| eff_recover r s t obs t' ev x : row = Some x → rowMatchesClaim x s t = true →
    matchesEvidence s obs t' ev = true → (t < t' - heartbeatStaleAfter)%Z →
    row_effect now row l (ORecover r s t obs t' ev) (Some Recovered) (Some (clear_row_claim x))
      (MkLocalLease (ll_owner l) None) [transition_input r "expired" s (Some t)]
| eff_beat r o t x g h : row = Some x → ownedBy o x = true → ll_owner l = Some (o, g, h) →
    row_effect now row l (OBeat r o t) (Some Updated)
      (Some (set_row_heartbeat (Some (Z.max h t)) x)) (MkLocalLease (Some (o, g, Z.max h t)) (ll_claim l)) []
| eff_continue r o st state gd x : row = Some x → ownedBy o x = true →
    decode_status st = Some Running → guardBlocked gd x = false →
    row_effect now row l (OTransition r o st state gd) (Some Transitioned)
      (Some (set_row_continue state x)) l
      [run_event_input r "flows.run.transitioned" (transitioned_payload Running now state)]
| eff_yield r o st status state gd x : row = Some x → ownedBy o x = true →
    decode_status st = Some status → status ≠ Running → guardBlocked gd x = false →
    row_effect now row l (OTransition r o st state gd) (Some Transitioned)
      (Some (set_row_yield status now state x)) (MkLocalLease None (ll_claim l))
      [run_event_input r "flows.run.transitioned" (transitioned_payload status now state);
       transition_input r "released" o None]
| eff_steal r e c t ev x : row = Some x → evidenceMatches e c t ev = true →
    snapshotMatchesRow x e = true → r_claim x = null_cols →
    col_lt (r_heartbeatAtMs x) (t - heartbeatStaleAfter) = true →
    row_effect now row l (OSteal r e c t ev) (Some (Claimed t))
      (Some (set_row_claim (owner_cols c) (Some t) x)) (MkLocalLease (ll_owner l) (Some (c, t)))
      [transition_input r "stolen" c (Some t)].

(** The run an operation addresses. *)
Definition op_run (op : store_op) : string :=
  match op with
  | OCreate r _ _ | OCancel r _ | OClaim r _ _ _ | OOwn r _ _ _ _ | OActivate r _ _ _
  | OAbandon r _ _ | ORecover r _ _ _ _ _ | OBeat r _ _ | OTransition r _ _ _ _
  | OSteal r _ _ _ _ => r
  | OTick _ => ""
  end.

Lemma classify_refused row now : refused (classifyClaimLoss row now) = true.
Proof. unfold classifyClaimLoss. by repeat case_match. Qed.

(** Every call that succeeds has one of the effects of [row_effect]. *)
Lemma perform_op_effect op w out w' :
  store_ok w → op_sane op = true → (0 ≤ w_clock w)%Z → (∀ t, op ≠ OTick t) →
  perform_op op w = (inr out, w') →
  ∃ row' l' inputs, moved opts w w' (op_run op) row' l' inputs
    ∧ row_effect (w_clock w) (db_runs (w_db w) !! op_run op) (lease_of w (op_run op)) op out
        row' l' inputs.
Proof.
  intros Hok Hsane Hclk Hnt H.
  destruct op as [r s o|r t|r e c t|r e o t ev|r c t e|r c t|r s t obs now ev|r o t|r o st state gd|r e c t ev|t];
    simpl in H, Hsane |- *; try (exfalso; by eapply Hnt);
    apply bind_inr in H as (a & w1 & H & H1); apply ret_inr in H1 as [-> ->];
    rewrite ?andb_true_iff, ?bool_decide_eq_true in Hsane.
  - apply create_inr in H as [Hnone Hm]; [|done]. eexists _, _, _. split; [exact Hm|]. by apply eff_create.
  - apply requestCancel_inr in H; [|done]. destruct (db_runs (w_db w) !! r) as [x|] eqn:Hx.
    + destruct (r_cancelRequestedAtMs x) eqn:Hc; destruct H as [-> Hm]; eexists _, _, _;
        (split; [exact Hm|]); rewrite ?Hx; [by apply eff_none|by apply eff_cancel].
    + destruct H as [-> Hm]. eexists _, _, _. split; [exact Hm|]. rewrite Hx. by apply eff_none.
  - apply claim_inr in H as [(x & Hx & Hst & Hsnap & Hcl & Hl & -> & Hm)|[-> Hm]]; [| |done..].
    + eexists _, _, _. split; [exact Hm|]. rewrite Hx. by apply eff_claim.
    + eexists _, _, _. split; [exact Hm|]. apply eff_none, classify_refused.
  - apply claimAndOwn_inr in H; [|done..]. destruct (canReplaceExpectedOwner e o t ev) eqn:Hcan; simpl in H.
    + destruct (db_runs (w_db w) !! r) as [x|] eqn:Hx.
      * destruct (_ && is_null _) eqn:Hadm; destruct H as [-> Hm]; eexists _, _, _;
          (split; [exact Hm|]); rewrite ?Hx.
        -- apply andb_true_iff in Hadm as [Hadm Hcl]. apply eff_own; try done.
           by destruct (ll_claim (lease_of w r)).
        -- apply eff_none. exact (classify_refused (Some x) t).
      * destruct H as [-> Hm]. eexists _, _, _. split; [exact Hm|]. rewrite Hx. by apply eff_none.
    + destruct H as [-> ->]. eexists _, _, _. split; [apply moved_refl; apply Hok|].
      apply eff_none. simpl. case_bool_decide; [done|]. apply classify_refused.
  - apply activate_inr in H; [|done..]. destruct (db_runs (w_db w) !! r) as [x|] eqn:Hx.
    + destruct (rowMatchesClaim x c t) eqn:Hc; [destruct (snapshotMatchesRow x e) eqn:Hs|];
        destruct H as [-> Hm]; eexists _, _, _; (split; [exact Hm|]); rewrite ?Hx;
        [by apply eff_activate|by apply eff_activate_moved|by apply eff_none].
    + destruct H as [-> Hm]. eexists _, _, _. split; [exact Hm|]. rewrite Hx. by apply eff_none.
  - apply abandonClaim_inr in H; [|done..]. destruct (db_runs (w_db w) !! r) as [x|] eqn:Hx.
    + destruct (rowMatchesClaim x c t) eqn:Hc; destruct H as [-> Hm]; eexists _, _, _;
        (split; [exact Hm|]); rewrite ?Hx; [by apply eff_abandon|by apply eff_none].
    + destruct H as [-> Hm]. eexists _, _, _. split; [exact Hm|]. rewrite Hx. by apply eff_none.
  - apply recoverClaim_inr in H; [|done..].
    destruct (matchesEvidence s obs now ev) eqn:Hev; simpl in H.
    + destruct (db_runs (w_db w) !! r) as [x|] eqn:Hx.
      * destruct (rowMatchesClaim x s t) eqn:Hc; simpl in H;
          [destruct (bool_decide (now - heartbeatStaleAfter ≤ t)%Z) eqn:Hf|];
          destruct H as [-> Hm]; eexists _, _, _; (split; [exact Hm|]); rewrite ?Hx;
          [by apply eff_none| |by apply eff_none].
        apply eff_recover; try done. apply bool_decide_eq_false in Hf. lia.
      * destruct H as [-> Hm]. eexists _, _, _. split; [exact Hm|]. rewrite Hx. by apply eff_none.
    + destruct H as [-> ->]. eexists _, _, _. split; [apply moved_refl; apply Hok|]. by apply eff_none.
  - apply (heartbeat_inr opts) in H; [|done..]. destruct (db_runs (w_db w) !! r) as [x|] eqn:Hx.
    + destruct (ownedBy o x) eqn:Ho.
      * destruct H as (-> & g & h & Hl & Hm). eexists _, _, _. split; [exact Hm|]. by apply eff_beat.
      * destruct H as [-> Hm]. eexists _, _, _. split; [exact Hm|]. rewrite Hx. by apply eff_none.
    + destruct H as [-> Hm]. eexists _, _, _. split; [exact Hm|]. rewrite Hx. by apply eff_none.
  - apply transitionOwned_inr in H as (status & Hst & H); [|done..].
    destruct (db_runs (w_db w) !! r) as [x|] eqn:Hx.
    + destruct (ownedBy o x) eqn:Ho; simpl in H; [destruct (guardBlocked gd x) eqn:Hg|].
      * destruct H as [-> Hm]. eexists _, _, _. split; [exact Hm|]. rewrite Hx. by apply eff_none.
      * destruct H as [-> Hm]. case_bool_decide as Hrun; eexists _, _, _; (split; [exact Hm|]).
        -- subst status. by apply eff_continue.
        -- by apply eff_yield.
      * destruct H as [-> Hm]. eexists _, _, _. split; [exact Hm|]. rewrite Hx. by apply eff_none.
    + destruct H as [-> Hm]. eexists _, _, _. split; [exact Hm|]. rewrite Hx. by apply eff_none.
  - destruct Hsane as [Ht _]. apply steal_inr in H; [|done..].
    destruct (evidenceMatches e c t ev) eqn:Hev; simpl in H.
    + destruct (db_runs (w_db w) !! r) as [x|] eqn:Hx.
      * destruct (_ && col_lt _ _) eqn:Hadm; destruct H as [-> Hm]; eexists _, _, _;
          (split; [exact Hm|]); rewrite ?Hx; [|apply eff_none; exact (classify_refused (Some x) t)].
        rewrite !andb_true_iff in Hadm. destruct Hadm as [[Hs Hf] Hstale]. apply eff_steal; try done.
        eapply claimColumnsFree_spec; [|done]. by apply (so_checked _ Hok r).
      * destruct H as [-> Hm]. eexists _, _, _. split; [exact Hm|]. rewrite Hx. by apply eff_none.
    + destruct H as [-> ->]. eexists _, _, _. split; [apply moved_refl; apply Hok|]. by apply eff_none.
Qed.

(** ** The invariant *)

Lemma owned_cols o x : ownedBy o x = true → r_status x = Running ∧ r_owner x = owner_cols o.
Proof. apply ownedBy_spec. Qed.

Lemma own_admissible_free r x e t :
  check_run r x = true → own_admissible x e t = true →
  r_claim x = null_cols ∧ r_claimedAtMs x = None ∧ is_terminal (r_status x) = false
  ∧ snapshotMatchesRow x e = true
  ∧ (r_status x = Running → col_lt (r_heartbeatAtMs x) (t - heartbeatStaleAfter) = true).
Proof.
  intros Hchk Hadm. unfold own_admissible in Hadm. rewrite !andb_true_iff in Hadm.
  destruct Hadm as [[[Hst Hsnap] Hfree] Hstale].
  apply (claimColumnsFree_spec _ _ Hchk) in Hfree.
  assert (r_claimedAtMs x = None).
  { destruct (check_run_claim _ _ Hchk) as [[_ ?]|(o & c & Hc & _)]; [done|]. by rewrite Hfree in Hc. }
  split_and!; try done.
  - rewrite !orb_true_iff, !bool_decide_eq_true in Hst. by destruct Hst as [[-> | ->]| ->].
  - intros Hrun. rewrite bool_decide_true in Hstale by done. simpl in Hstale.
    destruct (check_run_owner _ _ Hchk) as [(_ & o & h & _ & Hh)|[? _]]; [|done].
    rewrite Hh in Hstale |- *. done.
Qed.

Lemma null_not_owner o : null_cols = owner_cols o → False.
Proof. done. Qed.

(** The row shows no claim. *)
Ltac no_claim :=
  let Hz := fresh in
  first [intros ? ? ? [= <-] Hz | intros ? ? [= <-] Hz]; by apply null_not_owner in Hz.

(** The closing cases of [mirrors] for an updated row. *)
Ltac mirror_case :=
  first [ no_claim
        | by intros ? [= <-]
        | intros ? ? ? [= <-]; simpl; by eauto
        | intros ? ? [= <-]; simpl; by eauto
        | intros ? [= <-]; simpl; by eauto ].

Lemma effect_mirrors r now row l op out row' l' ins :
  op_sane op = true → (∀ x, row = Some x → check_run r x = true) → mirrors row l →
  row_effect now row l op out row' l' ins → mirrors row' l'.
Proof.
  intros Hsane Hchk Hm He. destruct He; subst; try done.
  - (* create *) destruct Hm as [Ho Hh _ _ _ _]. simpl in *.
    split; simpl; try done; mirror_case.
  - (* cancel *) destruct Hm as [Ho Hh Hc Ht Hr Hd]. split; simpl; try done; mirror_case.
  - (* claim *) destruct Hm as [Ho Hh Hc Ht Hr Hd]. simpl in *. split; simpl; try done.
    + intros y o t' [= <-]. simpl. intros Hco [= <-]. by apply owner_cols_inj in Hco as ->.
    + intros y [= <-]. simpl. by match goal with H : _ ∨ _ |- _ => destruct H as [-> | ->] end.
    + intros y [= <-]. simpl. by match goal with H : _ ∨ _ |- _ => destruct H as [-> | ->] end.
    + intros y o [= <-]. simpl. rewrite Ho. by intros _ ?%null_not_owner.
  - (* own *)
    match goal with H : own_admissible _ _ _ = true |- _ =>
      destruct (own_admissible_free _ _ _ _ (Hchk x eq_refl) H) as (Hcl & Hat & Hst & _) end.
    split; simpl; try done;
      first [ by intros ? [= <-]
            | intros ? ? ? [= <-]; simpl; rewrite Hcl; by intros ?%null_not_owner
            | intros ? ? [= <-]; simpl; rewrite Hcl; by intros ?%null_not_owner ].
  - (* activate *) split; simpl; try done; mirror_case.
  - (* activate, snapshot moved *) destruct Hm as [Ho Hh Hc Ht Hr Hd].
    split; simpl; try done; mirror_case.
  - (* abandon *) destruct Hm as [Ho Hh Hc Ht Hr Hd]. split; simpl; try done; mirror_case.
  - (* recover *) destruct Hm as [Ho Hh Hc Ht Hr Hd]. split; simpl; try done; mirror_case.
  - (* heartbeat *) destruct Hm as [Ho Hh Hc Ht Hr Hd]. simpl in *.
    match goal with H : ll_owner l = _ |- _ => rewrite H in Ho, Hh end.
    split; simpl; try done; mirror_case.
  - (* transition to running *)
    match goal with H : ownedBy _ _ = true |- _ => apply owned_cols in H as [Hrun _] end.
    destruct Hm as [Ho Hh Hc Ht Hr Hd].
    split; simpl; try done; mirror_case.
  - (* transition away *) split; simpl; try done; mirror_case.
  - (* steal *)
    simpl in Hsane. apply andb_true_iff in Hsane as [_ Hne].
    apply negb_true_iff, bool_decide_eq_false in Hne.
    match goal with He : evidenceMatches _ _ _ _ = true, Hs : snapshotMatchesRow _ _ = true |- _ =>
      apply andb_true_iff in He as [Hrun Hev]; apply snapshotMatchesRow_spec in Hs as (Hst & Hown & _)
    end.
    apply bool_decide_eq_true in Hrun. rewrite Hrun in Hst.
    destruct (sn_owner e) as [eo|]; [|done].
    destruct Hm as [Ho Hh Hc Ht Hr Hd]. split; simpl; try done.
    + intros y o' t' [= <-]. simpl. intros Hco [= <-]. by apply owner_cols_inj in Hco as ->.
    + intros y [= <-]. simpl. by rewrite Hst.
    + intros y [= <-]. simpl. by intros _ ?%owner_cols_not_null.
    + intros y o' [= <-]. simpl. intros <-%owner_cols_inj. rewrite Hown.
      intros ->%owner_cols_inj. done.
Qed.

Lemma tick_or op : (∃ t, op = OTick t) ∨ ∀ t, op ≠ OTick t.
Proof. destruct op; try (by right); by left; eexists. Qed.

(** A call that succeeds keeps the store's invariant. *)
Lemma perform_op_ok op w out w' :
  store_ok w → op_sane op = true → (0 ≤ w_clock w)%Z → perform_op op w = (inr out, w') →
  store_ok w' ∧ (0 ≤ w_clock w')%Z.
Proof.
  intros Hok Hsane Hclk H. destruct (tick_or op) as [[t ->]|Hnt].
  - simpl in H. apply bind_inr in H as (u & w1 & H1 & H). apply modify_inr in H1 as [_ ->].
    apply ret_inr in H as [-> ->]. simpl in Hsane. apply bool_decide_eq_true in Hsane.
    split; [|done]. destruct (law_ext w (set_clock t w)) as [H1 H2]; [done..|].
    split; [by apply H1, Hok|apply Hok|apply Hok|]. intros r. rewrite <- H2. apply Hok.
  - apply perform_op_effect in H as (row' & l' & ins & Hm & He); [|done..].
    split; [|by rewrite (mv_clock _ _ _ _ _ _ _ Hm)].
    eapply moved_ok; [done|exact Hm|]. eapply effect_mirrors; [done| | |exact He].
    + intros x Hx. by apply (so_checked _ Hok (op_run op)).
    + apply Hok.
Qed.

(** ** Failed calls *)

Lemma bind_ret_inl {A B} (m : M A) (f : A → B) w e w' :
  (a <- m ;; ret (f a)) w = (inl e, w') → m w = (inl e, w').
Proof. unfold bind, ret. destruct (m w) as [[e'|a] w1]; [by intros [= -> ->]|done]. Qed.

Lemma fail_inl {A} (e0 : error) w e w' : (fail e0 : M A) w = (inl e, w') → w' = w.
Proof. by intros [= _ ->]. Qed.

Lemma clock_inl {A} (k : Z → M A) w e w' :
  (t <- clock ;; k t) w = (inl e, w') → k (w_clock w) w = (inl e, w').
Proof. done. Qed.

Lemma perform_op_err_db op w e w' : perform_op op w = (inl e, w') → w_db w' = w_db w.
Proof.
  destruct op; simpl; intros H; try (apply bind_ret_inl in H); try done.
  - unfold create in H. destruct (_ || invalidLineage o); [by apply fail_inl in H as ->|].
    apply clock_inl in H. by eapply writeThrough_err_db.
  - unfold requestCancel in H. destruct (_ || bool_decide _); [by apply fail_inl in H as ->|].
    by eapply writeThrough_err_db.
  - by eapply writeThrough_err_db.
  - unfold claimAndOwn in H. destruct (negb _); [done|]. by eapply writeThrough_err_db.
  - apply clock_inl in H. by eapply writeThrough_err_db.
  - by eapply writeThrough_err_db.
  - unfold recoverClaim in H. destruct (negb _); [done|]. by eapply writeThrough_err_db.
  - unfold heartbeat in H. destruct (_ || bool_decide _); [by apply fail_inl in H as ->|].
    unfold run_write, map_error in H. destruct (write _ w) as [[e'|a] w1] eqn:Hw; [|done].
    injection H as _ <-. by eapply write_err_db.
  - unfold transitionOwned in H. destruct (decode_status toStatus); [|by apply fail_inl in H as ->].
    destruct (match state with Some s => _ | None => _ end); [by apply fail_inl in H as ->|].
    apply clock_inl in H. by eapply writeThrough_err_db.
  - unfold steal in H. destruct (negb _); [done|]. by eapply writeThrough_err_db.
Qed.

End props.
