(* ===== verification/RunAnswers.v ===== *)
(** What the run store answers: the operations run forward, to the answer they
    give and the world they leave, on the inputs of each case; and that none moves the
    clock. *)

From S2P Require Export RunProps.

#[local] Open Scope me_scope.

Section answers.
Context {J : JsonText} {C : Consensus} {L : ConsensusLaws C} (opts : ValidatedOptions).
Implicit Types (w : World) (r : string).

(** *** Running a transaction forward *)

(** The world a transaction's body starts in. *)
Definition body_world (w : World) : World :=
  match p_settlements (w_proc w) with Some _ => w | None => open_transaction w end.

Lemma body_world_same w : same_stores w (body_world w).
Proof. unfold body_world. by destruct (p_settlements (w_proc w)). Qed.

Lemma transact_run {A} (body : M A) w a w1 :
  body (body_world w) = (inr a, w1) →
  ∃ w', transact opts body w = (inr a, w') ∧ same_stores w1 w'.
Proof.
  unfold body_world, transact, get_settlements. intros H. step.
  destruct (p_settlements (w_proc w)).
  - exists w1. split; [|done]. unfold transact_write, map_error. by rewrite (write_ok _ _ _ _ H).
  - assert (transact_write (modify (set_proc (set_settlements (Some []))) ;; body) w = (inr a, w1))
      as ->.
    { unfold transact_write, map_error. erewrite write_ok; [done|]. by step. }
    destruct (settle_all_ok opts (default [] (p_settlements (w_proc w1)))
                (set_proc (set_settlements None) w1)) as (us & w2 & Hs & Hp).
    exists w2. split; [by step; step_by Hs|]. apply proc_step_same in Hp. by destruct Hp.
Qed.

Lemma transact_fails {A} (body : M A) w e w1 :
  body (body_world w) = (inl e, w1) →
  ∃ w', transact opts body w
        = (inl (let e := if is_class SqlError e then fromSqlError e else e in
                if is_class DatabaseError e then jerror_cause "sink_failed" e else e), w')
      ∧ w_db w' = w_db w.
Proof.
  unfold body_world, transact, get_settlements. intros H. step.
  destruct (p_settlements (w_proc w)).
  - unfold transact_write, map_error, write. rewrite H. by eexists.
  - assert (Hb : (modify (set_proc (set_settlements (Some []))) ;; body) w = (inl e, w1)) by (by step).
    unfold transact_write, map_error, write. rewrite Hb. by eexists.
Qed.

Lemma writeThrough_run {A} (body : M A) w a w1 :
  body (body_world w) = (inr a, w1) →
  ∃ w', writeThrough opts body w = (inr a, w') ∧ same_stores w1 w'.
Proof.
  intros H. destruct (transact_run body w a w1 H) as (w' & Ht & Hs).
  exists w'. split; [|done]. unfold writeThrough, map_error. by rewrite Ht.
Qed.

(** A body that only reads leaves the stores as they were. *)
Lemma writeThrough_reads {A} (body : M A) w a :
  (∀ w0, same_stores w w0 → body w0 = (inr a, w0)) →
  ∃ w', writeThrough opts body w = (inr a, w') ∧ same_stores w w'.
Proof.
  intros H. destruct (writeThrough_run body w a (body_world w)) as (w' & Hw & Hs).
  - apply H, body_world_same.
  - exists w'. split; [done|]. by etrans; [apply body_world_same|].
Qed.

(** *** Reading *)

(** What [get] answers for a row that passes the table's constraints. *)
Definition run_of (r : string) (x : RunRow) (owner claim : option OwnerId) : Run :=
  MkRun r (r_status x) (r_createdAtMs x) (r_startedAtMs x) (r_finishedAtMs x) owner
    (r_heartbeatAtMs x) claim (r_claimedAtMs x) (r_parentRunId x) (r_cancelRequestedAtMs x)
    (r_lineageId x) (r_roundOrdinal x) (r_stateJson x).

Definition cols_of (o : option OwnerId) : OwnerCols :=
  match o with Some o => owner_cols o | None => null_cols end.

Lemma ownerFromColumns_cols o : ownerFromColumns (cols_of o) = Some o.
Proof. by destruct o as [[]|]. Qed.

Lemma is_Some_null {A} (c : option A) : is_Some c ↔ is_null c = false.
Proof. destruct c; simpl; [by split; [|eexists]|]. split; [by intros []|done]. Qed.

Lemma decodeRunRow_checked r x : check_run r x = true →
  ∃ owner claim, decodeRunRow r x = inr (run_of r x owner claim)
    ∧ r_owner x = cols_of owner ∧ r_claim x = cols_of claim
    ∧ (is_Some owner ↔ r_status x = Running)
    ∧ (is_Some claim ↔ is_Some (r_claimedAtMs x)).
Proof.
  intros Hchk. pose proof (check_run_state _ _ Hchk) as Hjson.
  assert (∃ o, r_owner x = cols_of o ∧ is_null o = negb (bool_decide (r_status x = Running))
          ∧ is_null (r_heartbeatAtMs x) = is_null o) as (o & Ho & Hrun & Hh).
  { destruct (check_run_owner _ _ Hchk) as [(Hs & o & h & -> & ->)|(Hs & -> & ->)].
    - exists (Some o). by rewrite bool_decide_true.
    - exists None. by rewrite bool_decide_false. }
  assert (∃ c, r_claim x = cols_of c ∧ is_null (r_claimedAtMs x) = is_null c) as (c & Hc & Hat).
  { destruct (check_run_claim _ _ Hchk) as [[-> ->]|(c & t & -> & ->)]; [by exists None|by exists (Some c)]. }
  exists o, c. unfold decodeRunRow. rewrite Ho, Hc, !ownerFromColumns_cols, Hh, Hat.
  unfold isJsonString. rewrite Hjson.
  rewrite !is_Some_null, Hat, Hrun.
  destruct o as [o|], c as [c|]; simpl in *; case_bool_decide; naive_solver.
Qed.

(** [get] never fails to decode.  In a good state a run that has no row is
    reported missing, and the row of any other decodes: [get] changes nothing and
    answers the row's columns, with an owner exactly when the run is running and
    a claimant exactly when the row carries a claim time. *)
Theorem get_decodes r w :
  store_ok w →
  get r w = match db_runs (w_db w) !! r with
            | None => (inl (err RunStoreError "not_found_row"), w)
            | Some x => (inr (run_of r x (default None (ownerFromColumns (r_owner x)))
                                         (default None (ownerFromColumns (r_claim x)))), w)
            end
  ∧ ∀ x, db_runs (w_db w) !! r = Some x →
      (is_Some (default None (ownerFromColumns (r_owner x))) ↔ r_status x = Running)
      ∧ (is_Some (default None (ownerFromColumns (r_claim x))) ↔ is_Some (r_claimedAtMs x)).
Proof.
  intros Hok. unfold get, get_run, bind, gets.
  destruct (db_runs (w_db w) !! r) as [x|] eqn:Hx; [|done].
  destruct (decodeRunRow_checked r x) as (o & c & Hd & Ho & Hc & Ho' & Hc'); [by apply (so_checked _ Hok)|].
  unfold from_result. rewrite Hd, Ho, Hc, !ownerFromColumns_cols. simpl.
  split; [done|]. intros y [= <-]. by rewrite Ho, Hc, !ownerFromColumns_cols.
Qed.

(** *** A process that lost its run *)

Lemma fence_held_run r o w : cs_wf w →
  fence_held r o w = (inr (Spec.guard (lease_of w r) o), w).
Proof.
  intros Hwf. unfold fence_held, catch, bind. rewrite law_guard by done.
  by destruct (Spec.guard _ _).
Qed.

(** A process that lost its run cannot move it.  Whatever status and state it
    asks for, a [transitionOwned] by an owner the row does not name (the run is not
    running, or runs under another owner) answers [FenceLost] and changes no table
    and no lease; a run without a row answers [NotFound]. *)
Theorem zombie_transition_fenced r o toStatus status state guard w :
  store_ok w → decode_status toStatus = Some status →
  (∀ s, state = Some s → json_valid s = true) →
  (∀ x, db_runs (w_db w) !! r = Some x → ¬ (r_status x = Running ∧ r_owner x = owner_cols o)) →
  ∃ w', transitionOwned opts r o toStatus state guard w
        = (inr (match db_runs (w_db w) !! r with Some _ => FenceLost | None => NotFound end), w')
        ∧ same_stores w w'.
Proof.
  intros Hok Hst Hjson Hlost. unfold transitionOwned. rewrite Hst.
  assert ((match state with Some s => negb (isJsonString s) | None => false end) = false) as ->.
  { destruct state as [s|]; [|done]. unfold isJsonString. by rewrite Hjson. }
  step. apply writeThrough_reads. intros w0 Hs0.
  pose proof (store_ok_same _ _ Hok Hs0) as Hok0. destruct Hs0 as [Hdb _ _].
  erewrite bind_run; [|apply fence_held_run, Hok0]. step. rewrite Hdb.
  destruct (db_runs (w_db w) !! r) as [x|] eqn:Hx; [|done].
  assert (ownedBy o x = false) as ->.
  { apply not_true_iff_false. rewrite ownedBy_spec. by apply Hlost. }
  by rewrite andb_false_r.
Qed.

(** *** Cancellation *)

Lemma cancel_answered r x t now w :
  db_runs (w_db w) !! r = Some x → r_cancelRequestedAtMs x = Some t →
  is_safe_integer now = true → (0 ≤ now)%Z →
  ∃ w', requestCancel opts r now w = (inr (AlreadyRequested t), w') ∧ same_stores w w'.
Proof.
  intros Hx Ht Hsafe Hnow. unfold requestCancel. rewrite Hsafe, bool_decide_false by lia. simpl.
  apply writeThrough_reads. intros w0 [Hdb _ _].
  rewrite <- Hdb in Hx.
  assert (Hrec : record_cancel r now w0 = (inr None, w0)).
  { unfold record_cancel, update_run. step. rewrite Hx, Ht. done. }
  step_by Hrec. cbv beta iota. step. by rewrite Hx, Ht.
Qed.

(** *** Creating *)

(** The arguments [create] accepts. *)
Definition create_args_ok (r s : string) (o : CreateOptions) : bool :=
  negb (negb (nonempty r) || negb (isJsonString s)
        || match co_parentRunId o with Some p => negb (nonempty p) | None => false end
        || invalidLineage o).

Lemma create_args_spec r s o : create_args_ok r s o = true →
  nonempty r = true ∧ json_valid s = true ∧ col_check nonempty (co_parentRunId o) = true
  ∧ col_check nonempty (co_lineageId o) = true ∧ col_check stamp_ok (co_roundOrdinal o) = true.
Proof.
  unfold create_args_ok, invalidLineage, isJsonString.
  rewrite negb_true_iff, !orb_false_iff, !negb_false_iff.
  intros [[[Hr Hs] Hp] [[_ Hl] Ho]]. split_and!; try done.
  - destruct (co_parentRunId o); [by apply negb_false_iff|done].
  - destruct (co_lineageId o); [by apply negb_false_iff|done].
  - destruct (co_roundOrdinal o) as [n|]; [|done]. simpl.
    rewrite stamp_ok_safe in Ho. by apply negb_false_iff.
Qed.

Lemma created_row_checked r s o t :
  create_args_ok r s o = true → stamp_ok t = true → check_run r (created_row t o s) = true.
Proof.
  intros (Hr & Hs & Hp & Hl & Ho)%create_args_spec Ht.
  unfold check_run, created_row.
  cbn [r_status r_createdAtMs r_startedAtMs r_finishedAtMs r_heartbeatAtMs r_claimedAtMs r_owner r_claim
       r_parentRunId r_cancelRequestedAtMs r_waitingReason r_waitingWakeAtMs r_waitingToken r_stateJson
       r_lineageId r_roundOrdinal].
  rewrite bool_decide_false by done. by rewrite Hr, Hs, Hp, Hl, Ho, Ht.
Qed.

Definition created_event (w : World) (r s : string) (o : CreateOptions) : Input :=
  run_event_input r "flows.run.created" (created_payload (w_clock w) o s).

(** The effect of the body of [create] on its world. *)
Lemma create_body_run w r s o (w0 := body_world w) :
  store_ok w → create_args_ok r s o = true → stamp_ok (w_clock w) = true →
  insertable r (created_row (w_clock w) o s) (db_runs (w_db w)) = true →
  p_status (w_proc w) = Open → allocates w (created_event w r s o) = true →
  ∃ w1, (insert_run r (created_row (w_clock w) o s) ;;
         recordRunEvent opts r "flows.run.created" (created_payload (w_clock w) o s) None) w0
        = (inr tt, w1)
    ∧ db_runs (w_db w1) = <[r := created_row (w_clock w) o s]> (db_runs (w_db w)).
Proof.
  intros Hok Hargs Hclk Hins Hopen Hall.
  pose proof (body_world_same w) as Hs. fold w0 in Hs.
  pose proof (store_ok_same _ _ Hok Hs) as Hok0. destruct Hs as [Hdb Hl Hc].
  pose proof (created_row_checked r s o _ Hargs Hclk) as Hchk.
  assert (Hput : insert_run r (created_row (w_clock w) o s) w0
                 = (inr tt, set_db (upd_runs <[r := created_row (w_clock w) o s]>) w0)).
  { unfold insert_run. step. rewrite Hdb, Hins. unfold put_run. by rewrite Hchk. }
  step_by Hput.
  set (w1 := set_db (upd_runs <[r := created_row (w_clock w) o s]>) w0).
  destruct (emitDurable_fresh opts (created_event w r s o) None w1) as (w2 & He & Happ).
  - apply (law_ext w0 w1); [done..|apply Hok0].
  - apply Hok0.
  - apply admissible_spec. split_and!; try done; simpl.
    + unfold w0, body_world. by destruct (p_settlements (w_proc w)).
    + by apply create_args_spec in Hargs as [? _].
    + rewrite Hc. by apply stamp_ok_spec.
    + rewrite Hc. by apply stamp_ok_spec.
  - unfold allocates, source_seq_of, next_source, next_seq in Hall |- *.
    replace (db_events (w_db w1)) with (db_events (w_db w)) by (simpl; by rewrite Hdb).
    unfold w1, w0, body_world. by destruct (p_settlements (w_proc w)).
  - done.
  - intros row. by apply next_row_fresh.
  - exists w2. split.
    + unfold recordRunEvent. by step_by He.
    + rewrite (appended_runs _ _ _ Happ). unfold w1. simpl. by rewrite Hdb.
Qed.

(** A created run reads back as created.  With valid arguments (a run id, JSON
    state, a lineage given whole or not at all), no such run yet, a parent that
    exists, a lineage round that is free, an open journal and room in the run's
    sequence, [create] succeeds, and [get] then answers a pending run with those
    arguments, no owner and no claim; no other run's row changed. *)
Theorem create_then_get r s o w :
  store_ok w → create_args_ok r s o = true → stamp_ok (w_clock w) = true →
  insertable r (created_row (w_clock w) o s) (db_runs (w_db w)) = true →
  p_status (w_proc w) = Open → allocates w (created_event w r s o) = true →
  ∃ w', create opts r s o w = (inr tt, w')
    ∧ get r w' = (inr (MkRun r Pending (w_clock w) None None None None None None
                         (co_parentRunId o) None (co_lineageId o) (co_roundOrdinal o) s), w')
    ∧ ∀ r', r' ≠ r → db_runs (w_db w') !! r' = db_runs (w_db w) !! r'.
Proof.
  intros Hok Hargs Hclk Hins Hopen Hall.
  destruct (create_body_run w r s o) as (w1 & Hbody & Hruns); [done..|].
  destruct (writeThrough_run _ _ _ _ Hbody) as (w' & Hw & [Hdb _ _]).
  exists w'. split_and!.
  - unfold create. pose proof Hargs as Ha. unfold create_args_ok in Ha.
    rewrite negb_true_iff in Ha. rewrite Ha. step. exact Hw.
  - unfold get, get_run, bind, gets. rewrite Hdb, Hruns, lookup_insert_eq. simpl.
    unfold from_result. f_equal. unfold decodeRunRow, created_row. simpl.
    apply create_args_spec in Hargs as (_ & Hs & _). unfold isJsonString. by rewrite Hs.
  - intros r' Hr. by rewrite Hdb, Hruns, lookup_insert_ne.
Qed.

(** Creating a run twice is refused as a constraint violation.  When the run
    already has a row, [create] with valid arguments fails with the code
    [constraint] of the store's own error, whatever the arguments say, and leaves
    every table as it was. *)
Theorem create_twice_is_constraint r s o x w :
  create_args_ok r s o = true → db_runs (w_db w) !! r = Some x →
  ∃ e w', create opts r s o w = (inl e, w') ∧ error_cls e = RunStoreError
    ∧ error_code e = "constraint" ∧ w_db w' = w_db w.
Proof.
  intros Hargs Hx. unfold create. unfold create_args_ok in Hargs.
  rewrite negb_true_iff in Hargs. rewrite Hargs. step.
  destruct (transact_fails
    (insert_run r (created_row (w_clock w) o s) ;;
     recordRunEvent opts r "flows.run.created" (created_payload (w_clock w) o s) None)
    w (err SqlError "ConstraintError") (body_world w)) as (w' & Ht & Hdb).
  - pose proof (body_world_same w) as [Hdb _ _].
    assert (Hins : insert_run r (created_row (w_clock w) o s) (body_world w)
                   = (inl (err SqlError "ConstraintError"), body_world w)).
    { unfold insert_run. step. unfold insertable. by rewrite Hdb, Hx. }
    by step_by Hins.
  - unfold writeThrough, map_error. rewrite Ht. by eexists _, _.
Qed.

End answers.

(** No operation of the stores moves the clock, whatever it answers; so an
    execution's clock moves only when time passes. *)

Section clock.
Context {J : JsonText} {C : Consensus} {L : ConsensusLaws C} {T : Transactional C}
        (opts : ValidatedOptions).

Lemma clock_set_proc t f : preserves (clock_is t) (modify (set_proc f) : M ()).
Proof. by apply preserves_modify. Qed.

Hint Resolve clock_set_proc preserves_clock_modify : preserve.

Ltac keep := repeat first [progress solve_preserves | apply preserves_clock_write].

Lemma clock_guard t r o : preserves (clock_is t) (cs_guard r o).
Proof. apply (tr_clock (C:=C)). Qed.
Lemma clock_decodeRow t row : preserves (clock_is t) (decodeRow row).
Proof. unfold decodeRow. keep. Qed.
Lemma clock_selectExisting t q : preserves (clock_is t) (selectExisting q).
Proof. pose proof (clock_decodeRow t). unfold selectExisting, get_events. keep. Qed.
Lemma clock_insertOne t q owner : preserves (clock_is t) (insertOne q owner).
Proof.
  pose proof (clock_decodeRow t). pose proof (clock_selectExisting t q). pose proof (clock_guard t).
  unfold insertOne, insert_event, get_events, sql_fail, fenceGuard. keep.
Qed.
Lemma clock_settleCommit t q c : preserves (clock_is t) (settleCommit opts q c).
Proof.
  intros w Hw. destruct (settleCommit_ok opts q c w) as (w' & -> & Hs). simpl.
  unfold clock_is. by rewrite (ps_clock _ _ Hs).
Qed.
Lemma clock_emitDurable t input owner : preserves (clock_is t) (emitDurable opts input owner).
Proof.
  pose proof (clock_insertOne t). pose proof (clock_settleCommit t).
  unfold emitDurable, prepare, writeEntry, allocateEntry, nextDurable_seq, nextDurable_source,
    raiseSequenceFloor, raiseSourceSequenceFloor, get_events, get_sequence, get_source_sequence,
    get_settlements, clock. keep.
Qed.

Lemma clock_transact {A} t (body : M A) :
  preserves (clock_is t) body → preserves (clock_is t) (transact opts body).
Proof.
  intros Hb w Hw. unfold transact, get_settlements. erewrite bind_run; [|reflexivity].
  assert (Htw : ∀ A (b : M A), preserves (clock_is t) b → preserves (clock_is t) (transact_write b)).
  { intros A' b H. unfold transact_write. keep. }
  destruct (p_settlements (w_proc w)); [by apply Htw|].
  assert (Hbody : preserves (clock_is t) (transact_write (modify (set_proc (set_settlements (Some []))) ;; body))).
  { apply Htw. keep. }
  specialize (Hbody w Hw). destruct (transact_write _ w) as [[e|a] w1]; [done|].
  destruct (settle_all_ok opts (default [] (p_settlements (w_proc w1)))
              (set_proc (set_settlements None) w1)) as (us & w2 & Hs & Hp).
  erewrite bind_run; [|reflexivity]. erewrite bind_run; [|exact Hs]. simpl.
  unfold clock_is. by rewrite (ps_clock _ _ Hp).
Qed.

Lemma clock_writeThrough {A} t (body : M A) :
  preserves (clock_is t) body → preserves (clock_is t) (writeThrough opts body).
Proof. intros H. apply preserves_map_error. by apply clock_transact. Qed.

Lemma clock_update t r cond set : preserves (clock_is t) (update_run r cond set).
Proof. unfold update_run, get_run, put_run, sql_fail. keep. Qed.
Lemma clock_transition t r tr a g : preserves (clock_is t) (recordTransition opts r tr a g).
Proof. pose proof (clock_emitDurable t). unfold recordTransition. keep. Qed.
Lemma clock_event t r ty p o : preserves (clock_is t) (recordRunEvent opts r ty p o).
Proof. pose proof (clock_emitDurable t). unfold recordRunEvent. keep. Qed.

#[local] Opaque writeThrough.

Lemma perform_op_clock t op : (∀ t', op ≠ OTick t') →
  preserves (clock_is t) (perform_op opts op).
Proof.
  intros Hnt. pose proof (tr_clock (C:=C) t) as [].
  pose proof (clock_update t). pose proof (clock_transition t). pose proof (clock_event t).
  destruct op; try (by destruct (Hnt now)); simpl;
    unfold create, requestCancel, claim, claimAndOwn, activate, abandonClaim, recoverClaim, heartbeat,
      transitionOwned, steal, insert_run, record_cancel, cancel_recorded, own_grant, clear_claim_of,
      run_write, lost_or_missing, fence_held, put_run, get_run, sql_fail, World.clock;
    repeat first [progress solve_preserves | apply clock_writeThrough | apply preserves_clock_write].
Qed.
End clock.
