(* ===== verification/RunTheorems.v ===== *)
(** What the run store guarantees: its invariant along every execution, who can
    take a run over, what never changes back, what a refused call leaves, and
    what a created run reads as. *)

From S2P Require Export RunAnswers.

#[local] Open Scope me_scope.

Section executions.
Context {J : JsonText} {C : Consensus} {L : ConsensusLaws C} (opts : ValidatedOptions).

(** A sequence of calls, each starting where the one before it left the world,
    failed calls included. *)
Fixpoint run_calls (ops : list store_op) (w : World) : list (error + option Outcome) * World :=
  match ops with
  | [] => ([], w)
  | op :: ops =>
      let '(res, w1) := perform_op opts op w in
      let '(results, w2) := run_calls ops w1 in
      (res :: results, w2)
  end.

Definition sane (ops : list store_op) : bool := forallb op_sane ops.

Lemma run_calls_cons op ops w :
  (run_calls (op :: ops) w).2 = (run_calls ops (perform_op opts op w).2).2.
Proof. simpl. destruct (perform_op opts op w) as [res w1]. simpl. by destruct (run_calls ops w1). Qed.

Lemma run_calls_app ops1 ops2 w :
  (run_calls (ops1 ++ ops2) w).2 = (run_calls ops2 (run_calls ops1 w).2).2.
Proof.
  revert w. induction ops1 as [|op ops1 IH]; intros w; [done|].
  rewrite <- app_comm_cons, !run_calls_cons. apply IH.
Qed.

Context {T : Transactional C}.

Lemma failed_store_ok op e w w' :
  store_ok w → (0 ≤ w_clock w)%Z → perform_op opts op w = (inl e, w') →
  store_ok w' ∧ (0 ≤ w_clock w')%Z.
Proof.
  intros Hok Hclk H. pose proof (perform_op_err_db opts _ _ _ _ H) as Hdb. split.
  - destruct (tr_lease (C:=C) w w') as [H1 H2]; [by rewrite Hdb|].
    split; [by apply H1, Hok|unfold journal_ok; rewrite Hdb; apply Hok|rewrite Hdb; apply Hok|].
    intros r. rewrite Hdb, <- H2. apply Hok.
  - destruct (tick_or op) as [[t ->]|Hnt]; [done|].
    pose proof (perform_op_clock opts (w_clock w) op Hnt w eq_refl) as Hc.
    rewrite H in Hc. simpl in Hc. unfold clock_is in Hc. by rewrite Hc.
Qed.

Lemma call_store_ok op w :
  store_ok w → (0 ≤ w_clock w)%Z → op_sane op = true →
  store_ok (perform_op opts op w).2 ∧ (0 ≤ w_clock (perform_op opts op w).2)%Z.
Proof.
  intros Hok Hclk Hs. destruct (perform_op opts op w) as [[e|out] w'] eqn:H.
  - by eapply failed_store_ok.
  - by eapply perform_op_ok.
Qed.

Lemma run_calls_ok ops w :
  store_ok w → (0 ≤ w_clock w)%Z → sane ops = true →
  store_ok (run_calls ops w).2 ∧ (0 ≤ w_clock (run_calls ops w).2)%Z.
Proof.
  revert w. induction ops as [|op ops IH]; intros w Hok Hclk Hs; [done|].
  simpl in Hs. apply andb_true_iff in Hs as [Hop Hs].
  destruct (call_store_ok op w Hok Hclk Hop) as [Hok1 Hclk1].
  rewrite run_calls_cons. by apply IH.
Qed.

(** C23. The store's invariant holds along every execution. With a strategy that
    keeps its leases in the database, any sequence of calls on any runs, failed
    calls and the passing of time included, leads from a good state to a good state:
    every row passes its CHECK constraints, the row of each run mirrors the lease
    the strategy holds for it (same owner, same heartbeat, a shown claim is the
    strategy's), a finished run shows no claim, and the journal keeps its own
    invariant. Two things are asked of the calls ([sane]): the clock readings they
    name are not negative, and nobody steals a run from itself; the second is
    needed, since the code accepts such a steal and an owner that then abandons the
    claim keeps its row without a lease ([self_steal_loses_lease]). *)
Theorem store_invariant ops w :
  store_ok w → (0 ≤ w_clock w)%Z → sane ops = true → store_ok (run_calls ops w).2.
Proof. intros. by apply run_calls_ok. Qed.

(** *** Reasoning by calls *)

(** One call, seen from run [r]: either its row and lease are as they were, or
    the call succeeded on [r]. *)
Lemma call_on_run r op w :
  store_ok w → (0 ≤ w_clock w)%Z → op_sane op = true →
  (db_runs (w_db (perform_op opts op w).2) !! r = db_runs (w_db w) !! r
   ∧ lease_of (perform_op opts op w).2 r = lease_of w r)
  ∨ ∃ out w' row' l' ins, perform_op opts op w = (inr out, w') ∧ op_run op = r
      ∧ moved opts w w' r row' l' ins
      ∧ row_effect (w_clock w) (db_runs (w_db w) !! r) (lease_of w r) op out row' l' ins.
Proof.
  intros Hok Hclk Hs. destruct (perform_op opts op w) as [[e|out] w'] eqn:H; simpl.
  - left. pose proof (perform_op_err_db opts _ _ _ _ H) as Hdb. split; [by rewrite Hdb|].
    symmetry. apply (tr_lease (C:=C)). by rewrite Hdb.
  - destruct (tick_or op) as [[t ->]|Hnt].
    + left. simpl in H. apply bind_inr in H as (u & w1 & H1 & H). apply modify_inr in H1 as [_ ->].
      apply ret_inr in H as [-> ->]. split; [done|]. symmetry. by apply (tr_lease (C:=C)).
    + apply perform_op_effect in H as (row' & l' & ins & Hm & He); [|done..].
      destruct (decide (op_run op = r)) as [<-|Hne].
      * right. by exists out, w', row', l', ins.
      * left. split; [apply (mv_runs _ _ _ _ _ _ _ Hm)|apply (mv_leases _ _ _ _ _ _ _ Hm)]; congruence.
Qed.

(** What every effect on [r] keeps, every execution keeps. *)
Lemma run_calls_keep r (P : option RunRow → LocalLease → Prop) ops w :
  (∀ now row l op out row' l' ins, (∀ x, row = Some x → check_run r x = true) → mirrors row l →
     P row l → row_effect now row l op out row' l' ins → P row' l') →
  store_ok w → (0 ≤ w_clock w)%Z → sane ops = true →
  P (db_runs (w_db w) !! r) (lease_of w r) →
  P (db_runs (w_db (run_calls ops w).2) !! r) (lease_of (run_calls ops w).2 r).
Proof.
  intros Hkeep. revert w. induction ops as [|op ops IH]; intros w Hok Hclk Hs HP; [done|].
  simpl in Hs. apply andb_true_iff in Hs as [Hop Hs].
  destruct (call_store_ok op w Hok Hclk Hop) as [Hok1 Hclk1]. rewrite run_calls_cons.
  apply IH; [done..|].
  destruct (call_on_run r op w Hok Hclk Hop) as [[-> ->]|(out & w' & row' & l' & ins & He & _ & Hm & Heff)];
    [done|].
  rewrite He. simpl. rewrite (mv_run _ _ _ _ _ _ _ Hm), (mv_lease _ _ _ _ _ _ _ Hm).
  eapply Hkeep; [|apply Hok|exact HP|exact Heff]. intros x. apply (so_checked _ Hok r).
Qed.

(** When an execution ends a property of [r]'s row, one of its calls did. *)
Lemma run_calls_ended r (P : option RunRow → Prop) (ends : option RunRow → store_op → Prop) ops w :
  (∀ now row l op out row' l' ins, (∀ x, row = Some x → check_run r x = true) →
     P row → op_run op = r → row_effect now row l op out row' l' ins → ends row op ∨ P row') →
  (∀ row, Decision (P row)) →
  store_ok w → (0 ≤ w_clock w)%Z → sane ops = true →
  P (db_runs (w_db w) !! r) → ¬ P (db_runs (w_db (run_calls ops w).2) !! r) →
  ∃ before op after, ops = before ++ op :: after ∧ op_run op = r
    ∧ P (db_runs (w_db (run_calls before w).2) !! r)
    ∧ ends (db_runs (w_db (run_calls before w).2) !! r) op.
Proof.
  intros Hstep Hdec. revert w. induction ops as [|op ops IH]; intros w Hok Hclk Hs HP Hlost; [done|].
  simpl in Hs. apply andb_true_iff in Hs as [Hop Hs].
  destruct (call_store_ok op w Hok Hclk Hop) as [Hok1 Hclk1]. rewrite run_calls_cons in Hlost.
  destruct (decide (P (db_runs (w_db (perform_op opts op w).2) !! r))) as [HP1|HP1].
  - destruct (IH _ Hok1 Hclk1 Hs HP1 Hlost) as (before & op' & after & -> & Hr & Hb & He).
    exists (op :: before), op', after. rewrite run_calls_cons. by split_and!.
  - destruct (call_on_run r op w Hok Hclk Hop) as [[Heq _]|(out & w' & row' & l' & ins & He & Hr & Hm & Heff)].
    + by rewrite Heq in HP1.
    + exists [], op, ops. split_and!; try done. simpl.
      eapply Hstep in Heff as [Hends|HP']; [done| | |done|done].
      * exfalso. apply HP1. rewrite He. simpl. by rewrite (mv_run _ _ _ _ _ _ _ Hm).
      * intros x. apply (so_checked _ Hok r).
Qed.

(** *** Who may change a claim or an owner *)

Lemma null_claim_matches x c t : r_claim x = null_cols → rowMatchesClaim x c t = true → False.
Proof. intros Hcl [H _]%rowMatchesClaim_spec. rewrite Hcl in H. by apply null_not_owner in H. Qed.

(** Closes a case whose effect needs a claim the row does not show, or the
    converse. *)
Ltac no_such_claim :=
  match goal with
  | H1 : r_claim ?x = null_cols, H2 : rowMatchesClaim ?x _ _ = true |- _ =>
      by destruct (null_claim_matches _ _ _ H1 H2)
  end.

Lemma owned_unique x o o' : ownedBy o x = true → ownedBy o' x = true → o = o'.
Proof. intros [_ H1]%ownedBy_spec [_ H2]%ownedBy_spec. rewrite H1 in H2. by apply owner_cols_inj. Qed.

Lemma col_lt_spec c n v : c = Some n → col_lt c v = true → (n < v)%Z.
Proof. intros ->. simpl. by rewrite bool_decide_eq_true. Qed.

(** The call takes run [r] from [o], whose last heartbeat was at [h], on evidence
    that names [o] and was gathered at the time of the call, later than the
    staleness cutoff. *)
Definition stale_takeover (r : string) (o : OwnerId) (h : Z) (op : store_op) : Prop :=
  ∃ e c now ev, (op = OSteal r e c now ev ∨ op = OOwn r e c now (Some ev))
    ∧ matchesEvidence o c now ev = true ∧ (h < now - heartbeatStaleAfter)%Z.

(** The run is held by [o], with no claim beside it. *)
Definition held_by (o : OwnerId) (row : option RunRow) : Prop :=
  match row with Some x => ownedBy o x = true ∧ r_claim x = null_cols | None => False end.

#[local] Instance held_by_dec o row : Decision (held_by o row).
Proof. unfold held_by. destruct row; apply _. Defined.

(** The ways a run leaves [o]: its own [transitionOwned], or a stale takeover. *)
Definition lets_go (r : string) (o : OwnerId) (row : option RunRow) (op : store_op) : Prop :=
  (∃ st state gd, op = OTransition r o st state gd)
  ∨ ∃ x h, row = Some x ∧ r_heartbeatAtMs x = Some h ∧ stale_takeover r o h op.

Lemma own_of_held r now x e o o0 t ev op :
  check_run r x = true → ownedBy o x = true → op = OOwn r e o0 t ev → o0 ≠ o →
  canReplaceExpectedOwner e o0 t ev = true → own_admissible x e t = true →
  lets_go r o (Some x) op ∨ held_by o (Some (set_row_running o0 now x)).
Proof.
  intros Hchk Hown -> Hne Hcan Hadm. left. right.
  apply ownedBy_spec in Hown as [Hs Ho].
  destruct (check_run_owner _ _ Hchk) as [(_ & o' & h & Ho' & Hh)|[? _]]; [|done].
  destruct (own_admissible_free _ _ _ _ Hchk Hadm) as (_ & _ & _ & Hsnap & Hstale).
  apply snapshotMatchesRow_spec in Hsnap as (Hst & Hso & _). rewrite Ho in Hso.
  destruct (sn_owner e) as [eo|] eqn:Heo; [|done]. apply owner_cols_inj in Hso as <-.
  unfold canReplaceExpectedOwner, evidenceMatches in Hcan.
  rewrite <- Hst, Hs, Heo, bool_decide_true in Hcan by done. simpl in Hcan.
  rewrite sameOwner_decide, bool_decide_false in Hcan by congruence. simpl in Hcan.
  destruct ev as [ev|]; [|done]. exists x, h. split_and!; [done..|].
  exists e, o0, t, ev. split_and!; [by right|done|]. by eapply col_lt_spec; [|apply Hstale].
Qed.

Lemma held_step r now row l op out row' l' ins o :
  (∀ x, row = Some x → check_run r x = true) → held_by o row → op_run op = r →
  row_effect now row l op out row' l' ins → lets_go r o row op ∨ held_by o row'.
Proof.
  intros Hchk Hheld Hr He. destruct row as [x|]; [|done]. destruct Hheld as [Hown Hcl].
  specialize (Hchk x eq_refl). pose proof (λ o', owned_unique x o' o) as Huniq.
  pose proof Hown as [Hs Ho]%ownedBy_spec. specialize (λ o' H, Huniq o' H Hown) as Huniq'.
  assert (Hheld : held_by o (Some x)) by done. clear Huniq Hown.
  remember (Some x) as row eqn:Hrow.
  destruct He; simplify_eq/=; try no_such_claim; try (right; exact Hheld).
  - exfalso. match goal with H : _ ∨ _ |- _ => destruct H as [H|H]; by rewrite Hs in H end.
  - match goal with H : own_admissible _ _ _ = true |- _ => rename H into Hadm end.
    destruct (decide (o0 = o)) as [->|Hne].
    + right. split; [by apply ownedBy_spec|done].
    + by eapply own_of_held; [|apply Hheld|..].
  - match goal with H : ownedBy _ _ = true |- _ => apply Huniq' in H as -> end.
    left. left. by eexists _, _, _.
  - match goal with H : ownedBy _ _ = true |- _ => apply Huniq' in H as -> end.
    left. left. by eexists _, _, _.
  - left. right.
    destruct (check_run_owner _ _ Hchk) as [(_ & o' & h & Ho' & Hh)|[? _]]; [|done].
    match goal with H1 : evidenceMatches _ _ _ _ = true, H2 : snapshotMatchesRow _ _ = true |- _ =>
      apply snapshotMatchesRow_spec in H2 as (_ & Hso & _);
      unfold evidenceMatches in H1; apply andb_true_iff in H1 as [_ H1] end.
    rewrite Ho in Hso. destruct (sn_owner e) as [eo|]; [|done]. apply owner_cols_inj in Hso as <-.
    eexists _, h. split_and!; [done..|]. exists e, c, t, ev.
    split_and!; [by left|done|]. by eapply col_lt_spec.
Qed.

(** C2. A run changes hands only when its owner lets it go or has gone stale. If a
    run is running under [o] with no claim beside it, and after any sequence of
    calls on any runs it is not, then one of the calls, made while [o] still held
    the run, was [o]'s own [transitionOwned], or a steal or a [claimAndOwn] on
    evidence that names [o] and was gathered at the time of the call, with [o]'s
    last heartbeat older than the staleness cutoff. Two things are asked of the
    calls ([sane]): the clock readings they name are not negative, and nobody steals
    a run from itself. *)
Theorem run_takeover_needs_stale_owner r o ops w :
  store_ok w → (0 ≤ w_clock w)%Z → sane ops = true →
  held_by o (db_runs (w_db w) !! r) → ¬ held_by o (db_runs (w_db (run_calls ops w).2) !! r) →
  ∃ before op after, ops = before ++ op :: after
    ∧ held_by o (db_runs (w_db (run_calls before w).2) !! r)
    ∧ lets_go r o (db_runs (w_db (run_calls before w).2) !! r) op.
Proof.
  intros Hok Hclk Hs Hheld Hlost.
  destruct (run_calls_ended r (held_by o) (lets_go r o) ops w) as (before & op & after & H); try done.
  - intros now row l op out row' l' ins Hchk HP Hr He. by eapply held_step.
  - apply _.
  - exists before, op, after. by destruct H as (-> & _ & Hb & Hl).
Qed.

(** The run shows the claim [c] took at [t]. *)
Definition claimed_by (c : OwnerId) (t : Z) (row : option RunRow) : Prop :=
  match row with Some x => rowMatchesClaim x c t = true | None => False end.

#[local] Instance claimed_by_dec c t row : Decision (claimed_by c t row).
Proof. unfold claimed_by. destruct row; apply _. Defined.

(** The ways a claim ends: its holder activates or abandons it, an observer with
    evidence against the holder recovers it once it is stale, or the owner the
    run still has gives the run up. *)
Definition ends_claim (r : string) (c : OwnerId) (t : Z) (row : option RunRow) (op : store_op) : Prop :=
  (∃ e, op = OActivate r c t e) ∨ op = OAbandon r c t
  ∨ (∃ obs now ev, op = ORecover r c t obs now ev ∧ matchesEvidence c obs now ev = true
       ∧ (t < now - heartbeatStaleAfter)%Z)
  ∨ ∃ x o st state gd, row = Some x ∧ ownedBy o x = true
       ∧ decode_status st ≠ Some Running ∧ op = OTransition r o st state gd.

Lemma claim_unique x c t c' t' :
  rowMatchesClaim x c t = true → rowMatchesClaim x c' t' = true → c = c' ∧ t = t'.
Proof.
  intros [H1 H2]%rowMatchesClaim_spec [H3 H4]%rowMatchesClaim_spec. rewrite H1 in H3. rewrite H2 in H4.
  apply owner_cols_inj in H3. by injection H4.
Qed.

Lemma claimed_step r now row l op out row' l' ins c t :
  (∀ x, row = Some x → check_run r x = true) → claimed_by c t row → op_run op = r →
  row_effect now row l op out row' l' ins → ends_claim r c t row op ∨ claimed_by c t row'.
Proof.
  intros Hchk Hc Hr He. destruct row as [x|]; [|done]. simpl in Hc.
  specialize (Hchk x eq_refl). pose proof (λ c' t', claim_unique x c t c' t' Hc) as Huniq.
  assert (Hheld : claimed_by c t (Some x)) by done. clear Hc.
  remember (Some x) as row eqn:Hrow. unfold ends_claim.
  destruct He; simplify_eq/=; try (right; exact Hheld);
    try (match goal with H : r_claim _ = null_cols |- _ =>
           by destruct (null_claim_matches _ _ _ H Hheld) end);
    try (match goal with H : rowMatchesClaim _ _ _ = true |- _ =>
           apply Huniq in H as [<- <-] end; left; naive_solver).
  left. right. right. right. eexists _, _, _, _, _. split_and!; [done..| |done]. congruence.
Qed.

(** C3. A claim is exclusive. While a run shows the claim [c] took at [t], no call
    by anyone else replaces it: if after any sequence of calls the run does not show
    that claim, one of the calls was the activation or the abandonment of that very
    claim, its recovery on evidence against [c] after the claim had gone stale, or a
    [transitionOwned] to another status than running by the owner the run still had.
    Two things are asked of the calls ([sane]): the clock readings they name are not
    negative, and nobody steals a run from itself. *)
Theorem claim_is_exclusive r c t ops w :
  store_ok w → (0 ≤ w_clock w)%Z → sane ops = true →
  claimed_by c t (db_runs (w_db w) !! r) → ¬ claimed_by c t (db_runs (w_db (run_calls ops w).2) !! r) →
  ∃ before op after, ops = before ++ op :: after
    ∧ claimed_by c t (db_runs (w_db (run_calls before w).2) !! r)
    ∧ ends_claim r c t (db_runs (w_db (run_calls before w).2) !! r) op.
Proof.
  intros Hok Hclk Hs Hheld Hlost.
  destruct (run_calls_ended r (claimed_by c t) (ends_claim r c t) ops w)
    as (before & op & after & H); try done.
  - intros now row l op out row' l' ins Hchk HP Hr He. by eapply claimed_step.
  - apply _.
  - exists before, op, after. by destruct H as (-> & _ & Hb & Hl).
Qed.

(** *** What never changes back *)

Lemma ended_step now x l op out row' l' ins :
  is_terminal (r_status x) = true → r_claim x = null_cols →
  row_effect now (Some x) l op out row' l' ins →
  row' = Some x ∨ ∃ t, r_cancelRequestedAtMs x = None ∧ row' = Some (set_row_cancel (Some t) x).
Proof.
  intros Ht Hcl He. remember (Some x) as row eqn:Hrow. destruct He; simplify_eq/=; eauto; exfalso.
  - by match goal with H : _ ∨ _ |- _ => destruct H as [H|H]; rewrite H in Ht end.
  - match goal with H : own_admissible _ _ _ = true |- _ => unfold own_admissible in H;
      rewrite !andb_true_iff, !orb_true_iff, !bool_decide_eq_true in H;
      destruct H as [[[[[H|H]|H] _] _] _]; by rewrite H in Ht end.
  - by match goal with H : rowMatchesClaim _ _ _ = true |- _ =>
      apply rowMatchesClaim_spec in H as [H _]; rewrite Hcl in H; apply null_not_owner in H end.
  - by match goal with H : rowMatchesClaim _ _ _ = true |- _ =>
      apply rowMatchesClaim_spec in H as [H _]; rewrite Hcl in H; apply null_not_owner in H end.
  - by match goal with H : rowMatchesClaim _ _ _ = true |- _ =>
      apply rowMatchesClaim_spec in H as [H _]; rewrite Hcl in H; apply null_not_owner in H end.
  - by match goal with H : rowMatchesClaim _ _ _ = true |- _ =>
      apply rowMatchesClaim_spec in H as [H _]; rewrite Hcl in H; apply null_not_owner in H end.
  - by match goal with H : ownedBy _ _ = true |- _ => apply ownedBy_spec in H as [H _]; rewrite H in Ht end.
  - by match goal with H : ownedBy _ _ = true |- _ => apply ownedBy_spec in H as [H _]; rewrite H in Ht end.
  - by match goal with H : ownedBy _ _ = true |- _ => apply ownedBy_spec in H as [H _]; rewrite H in Ht end.
  - match goal with H1 : evidenceMatches _ _ _ _ = true, H2 : snapshotMatchesRow _ _ = true |- _ =>
      apply snapshotMatchesRow_spec in H2 as (H2 & _);
      apply andb_true_iff in H1 as [H1 _]; apply bool_decide_eq_true in H1;
      by rewrite H2, H1 in Ht end.
Qed.

(** C25. A finished run stays finished. Once a run is completed, failed or
    cancelled, no sequence of calls changes anything of its row except to record the
    first request to cancel it. Two things are asked of the calls ([sane]): the
    clock readings they name are not negative, and nobody steals a run from itself.
    *)
Theorem terminal_is_absorbing r x ops w :
  store_ok w → (0 ≤ w_clock w)%Z → sane ops = true →
  db_runs (w_db w) !! r = Some x → is_terminal (r_status x) = true →
  ∃ c, db_runs (w_db (run_calls ops w).2) !! r = Some (set_row_cancel c x)
       ∧ (is_Some (r_cancelRequestedAtMs x) → c = r_cancelRequestedAtMs x).
Proof.
  intros Hok Hclk Hs Hx Hterm.
  apply (run_calls_keep r (λ row _, ∃ c, row = Some (set_row_cancel c x)
    ∧ (is_Some (r_cancelRequestedAtMs x) → c = r_cancelRequestedAtMs x))); [|done..|].
  - intros now row l op out row' l' ins _ Hm (c & -> & Hc) He.
    apply ended_step in He as [-> |(t & Hnone & ->)]; [by exists c| |done|].
    + exists (Some t). split; [done|]. simpl in Hnone. intros Hsome.
      rewrite (Hc Hsome) in Hnone. rewrite Hnone in Hsome. by destruct Hsome.
    + by apply (mi_ended _ _ Hm (set_row_cancel c x)).
  - exists (r_cancelRequestedAtMs x). split; [|done]. rewrite Hx. by destruct x.
Qed.

(** The first request to cancel a run stands. Once a run's row records a request at
    [t], no sequence of calls erases or moves it: any later valid [requestCancel]
    answers that the run was already asked to cancel at [t], and changes no table.
    The calls are [sane]. *)
Theorem cancel_request_sticks r x t now ops w :
  store_ok w → (0 ≤ w_clock w)%Z → sane ops = true →
  db_runs (w_db w) !! r = Some x → r_cancelRequestedAtMs x = Some t →
  is_safe_integer now = true → (0 ≤ now)%Z →
  ∃ w', requestCancel opts r now (run_calls ops w).2 = (inr (AlreadyRequested t), w')
        ∧ same_stores (run_calls ops w).2 w'.
Proof.
  intros Hok Hclk Hs Hx Ht Hsafe Hnow.
  destruct (run_calls_keep r (λ row _, ∃ y, row = Some y ∧ r_cancelRequestedAtMs y = Some t) ops w)
    as (y & Hy & Hyt); [|done..|by exists x|].
  - intros now' row l op out row' l' ins _ _ (y & -> & Hy) He.
    remember (Some y) as row eqn:Hrow.
    destruct He; simplify_eq; try congruence; eexists; (split; [reflexivity|exact Hy]).
  - by apply (cancel_answered opts r y).
Qed.

(** *** A claim the row forgot *)

(** The run is suspended and shows neither owner nor claim, while the strategy
    still holds the claim [c] took at [t]. *)
Definition stranded (c : OwnerId) (t : Z) (row : option RunRow) (l : LocalLease) : Prop :=
  ∃ x, row = Some x ∧ r_status x = Suspended ∧ r_claim x = null_cols
       ∧ l = MkLocalLease None (Some (c, t)).

(** A stranded run stays stranded. When the owner of a run suspends it while another
    process holds a claim on it, the row forgets the claim and the consensus
    strategy keeps it. From then on no sequence of [sane] calls by anyone, the
    claimant included, claims, activates, recovers or moves the run: it stays
    suspended for ever. (The suspended run of the witness is reached by ordinary
    calls.) *)
Theorem stranded_is_permanent r c t ops w :
  store_ok w → (0 ≤ w_clock w)%Z → sane ops = true →
  stranded c t (db_runs (w_db w) !! r) (lease_of w r) →
  stranded c t (db_runs (w_db (run_calls ops w).2) !! r) (lease_of (run_calls ops w).2 r).
Proof.
  intros Hok Hclk Hs. apply (run_calls_keep r (stranded c t)); [|done..].
  intros now row l op out row' l' ins Hchk _ (x & -> & Hst & Hcl & ->) He.
  assert (Hown : ∀ o, ownedBy o x = true → False).
  { intros o [H _]%ownedBy_spec. by rewrite Hst in H. }
  remember (Some x) as row eqn:Hrow.
  destruct He; simplify_eq/=; try no_such_claim;
    try (by match goal with H : ownedBy _ _ = true |- _ => destruct (Hown _ H) end);
    try (eexists; split; [reflexivity|]; by split_and!).
  exfalso. match goal with H1 : evidenceMatches _ _ _ _ = true, H2 : snapshotMatchesRow _ _ = true |- _ =>
    apply snapshotMatchesRow_spec in H2 as (H2 & _);
    apply andb_true_iff in H1 as [H1 _]; apply bool_decide_eq_true in H1; by rewrite Hst, H1 in H2 end.
Qed.

(** A call that fails changes nothing durable.  Whatever a call of the store
    was doing when it failed, every table is as it was before the call, and so is
    the lease of every run. *)
Theorem failed_call_is_atomic op e w w' :
  perform_op opts op w = (inl e, w') →
  w_db w' = w_db w ∧ ∀ r, lease_of w' r = lease_of w r.
Proof.
  intros H. pose proof (perform_op_err_db opts _ _ _ _ H) as Hdb. split; [done|].
  intros r. symmetry. apply (tr_lease (C:=C)). by rewrite Hdb.
Qed.

End executions.

(** ** The hypotheses hold: concrete executions

    A run's history under the SQL strategy: [alice] creates, claims and activates
    it, falls silent, [bob] steals it, and [alice] comes back and suspends it. *)

Module RunDemo.
Import Ex.

Definition state : string := stringify (JObj []).
Definition no_lineage : CreateOptions := MkCreateOptions None None None.
Definition fresh : RunSnapshot := MkRunSnapshot Pending None None.
Definition silent : RunSnapshot := MkRunSnapshot Running (Some alice) (Some 10%Z).
Definition evidence : LivenessEvidence := MkEvidence alice 50000 CrossHostUnreachableStale.

Definition start : World := initial_world 10.
Definition start_ops : list store_op :=
  [OCreate "r" state no_lineage; OClaim "r" fresh alice 10; OActivate "r" alice 10 fresh].
Definition takeover_ops : list store_op :=
  [OCancel "r" 49000; OTick 50000; OSteal "r" silent bob 50000 evidence].
Definition return_ops : list store_op := [OTransition "r" alice "suspended" None None].
Definition finish_ops : list store_op := [OTransition "r" alice "completed" None None].
(** Everything anybody could try on the run afterwards. *)
Definition retry_ops : list store_op :=
  [OActivate "r" bob 50000 silent; OAbandon "r" bob 50000;
   ORecover "r" bob 50000 alice 90000 (MkEvidence bob 90000 CrossHostUnreachableStale);
   OClaim "r" (MkRunSnapshot Suspended None None) bob 90000;
   OOwn "r" (MkRunSnapshot Suspended None None) alice 90000 None].

(** [alice] steals the run she already owns, and then abandons the claim. *)
Definition self_ops : list store_op :=
  [OTick 50000; OSteal "r" silent alice 50000 (MkEvidence alice 50000 SameHostPidDead);
   OAbandon "r" alice 50000].

Definition runs_of (ops : list store_op) (w : World) : World :=
  (run_calls (C:=sql_consensus) Demo.opts ops w).2.

Definition running : World := Eval vm_compute in runs_of start_ops start.
Definition stolen : World := Eval vm_compute in runs_of takeover_ops running.
Definition suspended : World := Eval vm_compute in runs_of return_ops stolen.
Definition finished : World := Eval vm_compute in runs_of finish_ops running.

Lemma start_ok : store_ok (L:=sql_laws) start.
Proof.
  split.
  - by intros r row.
  - by apply Demo.empty_ok.
  - by intros r x.
  - intros r. split; done.
Qed.

Lemma ops_ok ops w : sane ops = true → store_ok (L:=sql_laws) w → (0 ≤ w_clock w)%Z →
  store_ok (L:=sql_laws) (runs_of ops w).
Proof. intros. by apply (run_calls_ok (L:=sql_laws) Demo.opts). Qed.

Lemma running_ok : store_ok (L:=sql_laws) running.
Proof. change running with (runs_of start_ops start). by apply ops_ok; [|apply start_ok|]. Qed.
Lemma stolen_ok : store_ok (L:=sql_laws) stolen.
Proof. change stolen with (runs_of takeover_ops running). by apply ops_ok; [|apply running_ok|]. Qed.
Lemma suspended_ok : store_ok (L:=sql_laws) suspended.
Proof. change suspended with (runs_of return_ops stolen). by apply ops_ok; [|apply stolen_ok|]. Qed.
Lemma finished_ok : store_ok (L:=sql_laws) finished.
Proof. change finished with (runs_of finish_ops running). by apply ops_ok; [|apply running_ok|]. Qed.
End RunDemo.

(** The assumption that nobody steals a run from itself is needed.  The store
    accepts such a steal, and once the owner abandons the claim its row is still
    running under it while the strategy has no lease for the run. *)
Theorem self_steal_loses_lease :
  let w := RunDemo.runs_of RunDemo.self_ops RunDemo.running in
  (∃ x, db_runs (w_db w) !! "r" = Some x ∧ ownedBy Ex.alice x = true)
  ∧ lease_of (C:=sql_consensus) w "r" = MkLocalLease None None ∧ ¬ store_ok (L:=sql_laws) w.
Proof.
  intros w. assert (Hx : ∃ x, db_runs (w_db w) !! "r" = Some x ∧ ownedBy Ex.alice x = true).
  { destruct (db_runs (w_db w) !! "r") as [x|] eqn:Hx; [|by vm_compute in Hx].
    exists x. split; [done|]. vm_compute in Hx. by injection Hx as <-. }
  assert (Hl : lease_of (C:=sql_consensus) w "r" = MkLocalLease None None) by (vm_compute; reflexivity).
  split_and!; [done..|]. intros Hok. pose proof (so_mirrors _ Hok "r") as Hm.
  destruct Hx as (x & Hx & Hown). rewrite Hx, Hl in Hm. apply mi_owner in Hm.
  apply ownedBy_spec in Hown as [_ Hown]. by rewrite Hown in Hm.
Qed.

Lemma store_invariant_witness :
  store_ok (L:=sql_laws) (RunDemo.runs_of (RunDemo.start_ops ++ RunDemo.takeover_ops) RunDemo.start).
Proof.
  apply (store_invariant (L:=sql_laws) Demo.opts); [apply RunDemo.start_ok|done..].
Defined.

Lemma run_takeover_needs_stale_owner_witness :
  ∃ before op after, RunDemo.takeover_ops = before ++ op :: after
    ∧ held_by Ex.alice (db_runs (w_db (RunDemo.runs_of before RunDemo.running)) !! "r")
    ∧ lets_go "r" Ex.alice (db_runs (w_db (RunDemo.runs_of before RunDemo.running)) !! "r") op.
Proof.
  apply (run_takeover_needs_stale_owner (L:=sql_laws) Demo.opts "r" Ex.alice RunDemo.takeover_ops
           RunDemo.running).
  - apply RunDemo.running_ok.
  - done.
  - done.
  - by split.
  - vm_compute. by intros [_ ?].
Defined.

Lemma claim_is_exclusive_witness :
  ∃ before op after, RunDemo.return_ops = before ++ op :: after
    ∧ claimed_by Ex.bob 50000 (db_runs (w_db (RunDemo.runs_of before RunDemo.stolen)) !! "r")
    ∧ ends_claim "r" Ex.bob 50000 (db_runs (w_db (RunDemo.runs_of before RunDemo.stolen)) !! "r") op.
Proof.
  apply (claim_is_exclusive (L:=sql_laws) Demo.opts "r" Ex.bob 50000 RunDemo.return_ops RunDemo.stolen).
  - apply RunDemo.stolen_ok.
  - done.
  - done.
  - done.
  - vm_compute. done.
Defined.

Lemma terminal_is_absorbing_witness :
  ∃ x c, db_runs (w_db (RunDemo.runs_of [OCancel "r" 60; OTransition "r" Ex.alice "pending" None None]
                          RunDemo.finished)) !! "r" = Some (set_row_cancel c x)
       ∧ is_terminal (r_status x) = true.
Proof.
  destruct (db_runs (w_db RunDemo.finished) !! "r") as [x|] eqn:Hx; [|by vm_compute in Hx].
  assert (Ht : is_terminal (r_status x) = true) by (vm_compute in Hx; by injection Hx as <-).
  destruct (terminal_is_absorbing (L:=sql_laws) Demo.opts "r" x
              [OCancel "r" 60; OTransition "r" Ex.alice "pending" None None] RunDemo.finished
              RunDemo.finished_ok) as (c & Hc & _); [done|done|exact Hx|exact Ht|].
  exists x, c. by split.
Defined.

Lemma cancel_request_sticks_witness :
  ∃ w', requestCancel (C:=sql_consensus) Demo.opts "r" 90001
          (RunDemo.runs_of (RunDemo.return_ops ++ [OCancel "r" 90000]) RunDemo.stolen)
        = (inr (AlreadyRequested 49000), w')
        ∧ same_stores (RunDemo.runs_of (RunDemo.return_ops ++ [OCancel "r" 90000]) RunDemo.stolen) w'.
Proof.
  destruct (db_runs (w_db RunDemo.stolen) !! "r") as [x|] eqn:Hx; [|by vm_compute in Hx].
  assert (Ht : r_cancelRequestedAtMs x = Some 49000%Z) by (vm_compute in Hx; by injection Hx as <-).
  by apply (cancel_request_sticks (L:=sql_laws) Demo.opts "r" x 49000 90001
           (RunDemo.return_ops ++ [OCancel "r" 90000]) RunDemo.stolen RunDemo.stolen_ok).
Defined.

Lemma stranded_is_permanent_witness :
  stranded Ex.bob 50000 (db_runs (w_db RunDemo.suspended) !! "r")
    (lease_of (ConsensusLaws:=sql_laws) RunDemo.suspended "r")
  ∧ stranded Ex.bob 50000 (db_runs (w_db (RunDemo.runs_of RunDemo.retry_ops RunDemo.suspended)) !! "r")
      (lease_of (ConsensusLaws:=sql_laws) (RunDemo.runs_of RunDemo.retry_ops RunDemo.suspended) "r").
Proof.
  assert (H : stranded Ex.bob 50000 (db_runs (w_db RunDemo.suspended) !! "r")
    (lease_of (ConsensusLaws:=sql_laws) RunDemo.suspended "r")).
  { vm_compute. eexists. by split_and!. }
  split; [exact H|].
  by apply (stranded_is_permanent (L:=sql_laws) Demo.opts "r" Ex.bob 50000 RunDemo.retry_ops
           RunDemo.suspended RunDemo.suspended_ok).
Defined.

Lemma failed_call_is_atomic_witness :
  let r := perform_op (C:=sql_consensus) Demo.opts (OCreate "r" RunDemo.state RunDemo.no_lineage)
             RunDemo.running in
  w_db r.2 = w_db RunDemo.running
  ∧ ∀ q, lease_of (ConsensusLaws:=sql_laws) r.2 q = lease_of (ConsensusLaws:=sql_laws) RunDemo.running q.
Proof.
  intros r. destruct r.1 as [e|out] eqn:Hr; [|vm_compute in Hr; done].
  apply (failed_call_is_atomic (L:=sql_laws) Demo.opts
           (OCreate "r" RunDemo.state RunDemo.no_lineage) e RunDemo.running r.2).
  rewrite <- Hr. unfold r. by destruct (perform_op _ _ _).
Defined.

Lemma get_decodes_witness :
  ∃ x, get "r" RunDemo.running = (inr (run_of "r" x (Some Ex.alice) None), RunDemo.running).
Proof.
  destruct (db_runs (w_db RunDemo.running) !! "r") as [x|] eqn:Hx; [|by vm_compute in Hx].
  exists x. rewrite (proj1 (get_decodes (L:=sql_laws) "r" RunDemo.running RunDemo.running_ok)), Hx.
  vm_compute in Hx. by injection Hx as <-.
Defined.

Lemma zombie_transition_fenced_witness :
  ∃ w', transitionOwned (C:=sql_consensus) Demo.opts "r" Ex.bob "completed" None None RunDemo.running
        = (inr FenceLost, w') ∧ same_stores RunDemo.running w'.
Proof.
  apply (zombie_transition_fenced (L:=sql_laws) Demo.opts "r" Ex.bob "completed" Completed None None
           RunDemo.running).
  - apply RunDemo.running_ok.
  - done.
  - done.
  - intros x Hx. vm_compute in Hx. injection Hx as <-. by intros [_ ?].
Defined.

Lemma create_then_get_witness :
  ∃ w', create (C:=sql_consensus) Demo.opts "r" RunDemo.state RunDemo.no_lineage RunDemo.start
        = (inr tt, w')
    ∧ get "r" w' = (inr (MkRun "r" Pending 10 None None None None None None None None None None
                           RunDemo.state), w')
    ∧ ∀ r', r' ≠ "r" → db_runs (w_db w') !! r' = db_runs (w_db RunDemo.start) !! r'.
Proof.
  by apply (create_then_get (L:=sql_laws) Demo.opts "r" RunDemo.state RunDemo.no_lineage RunDemo.start
           RunDemo.start_ok).
Defined.

Lemma create_twice_is_constraint_witness :
  ∃ e w', create (C:=sql_consensus) Demo.opts "r" RunDemo.state RunDemo.no_lineage RunDemo.running
          = (inl e, w') ∧ error_cls e = RunStoreError
    ∧ error_code e = "constraint" ∧ w_db w' = w_db RunDemo.running.
Proof.
  destruct (db_runs (w_db RunDemo.running) !! "r") as [x|] eqn:Hx; [|by vm_compute in Hx].
  by apply (create_twice_is_constraint (C:=sql_consensus) Demo.opts "r" RunDemo.state RunDemo.no_lineage x
           RunDemo.running).
Defined.
