(* ===== verification/AttemptStore.v ===== *)
(** The attempt store: the rows of [flows_attempts], fenced on the ownership of
    their run ([run-store/src/AttemptStore.ts]).

    A caller's value is JSON, so encoding it never fails; text is a byte string,
    so [TextEncoder.encode(s).length] is its length. *)

From S2P Require Export RunStore.

#[local] Open Scope me_scope.

(** ** Data *)

Record AttemptId := MkAttemptId { id_runId : string; id_stepKeyDigest : string; id_attempt : Z }.

#[export] Instance AttemptId_eq_dec : EqDecision AttemptId.
Proof. solve_decision. Defined.

Definition key_of (id : AttemptId) : AttemptKey := (id_runId id, id_stepKeyDigest id, id_attempt id).

Record Attempt := MkAttempt {
  at_id : AttemptId;
  at_state : string;
  at_startedAtMs : Z;
  at_finishedAtMs : option Z;
  at_heartbeatAtMs : option Z;
  at_checkpoint : option json;
  at_error : option json;
  at_outcome : option json;
  at_meta : json
}.

Record FinishAttempt := MkFinishAttempt {
  fa_id : AttemptId;
  fa_state : string;
  fa_finishedAtMs : Z;
  fa_error : option json;
  fa_outcome : option json;
  fa_meta : option json
}.

Record AttemptPatch := MkAttemptPatch {
  ap_checkpoint : option json;
  ap_error : option json;
  ap_outcome : option json;
  ap_meta : option json
}.

Record Options := MkOptions {
  op_inProgressStates : option (list string);
  op_maxCheckpointBytes : option Z;
  op_upsert : bool (* [putMode === "upsert"] *)
}.

Record Policy := MkPolicy {
  po_inProgressStates : list string;
  po_maxCheckpointBytes : Z;
  po_upsert : bool
}.

(** The outcome tags of the operations. *)
Inductive AttemptOutcome :=
| Inserted | Upserted | ExistingSame | Conflict | RunNotFound
| AttemptUpdated | Finished | Patched | AttemptNotFound | StateChanged | AttemptFenceLost.

#[export] Instance AttemptOutcome_eq_dec : EqDecision AttemptOutcome.
Proof. solve_decision. Defined.

Definition attempt_error (code : string) : error := err AttemptStoreError code.

Definition defaultMaxCheckpointBytes : Z := 1024 * 1024.
Definition defaultInProgressStates : list string := ["running"].

(** The validation [makeWith] runs before it builds the service. *)
Definition makePolicy (o : Options) : error + Policy :=
  let inProgressStates := default defaultInProgressStates (op_inProgressStates o) in
  let maxCheckpointBytes := default defaultMaxCheckpointBytes (op_maxCheckpointBytes o) in
  if bool_decide (inProgressStates = []) || existsb (λ s, negb (nonempty s)) inProgressStates
  then inl (attempt_error "invalid_attempt")
  else if negb (is_safe_integer maxCheckpointBytes) || bool_decide (maxCheckpointBytes ≤ 0)%Z
  then inl (attempt_error "invalid_attempt")
  else inr (MkPolicy inProgressStates maxCheckpointBytes (op_upsert o)).

Section AttemptStore.
Context {J : JsonText} {C : Consensus} (opts : ValidatedOptions) (policy : Policy).

(** ** Codecs and checks *)

Definition attempt_encode (value : json) : string := stringify value.
Definition encodeOptional (value : option json) : option string := attempt_encode <$> value.

Definition encodeCheckpoint (value : option json) : M (option string) :=
  match encodeOptional value with
  | Some encoded =>
      if bool_decide (po_maxCheckpointBytes policy < Z.of_nat (String.length encoded))%Z
      then fail (attempt_error "invalid_attempt")
      else ret (Some encoded)
  | None => ret None
  end.

Definition attempt_decode (value : option string) : M (option json) :=
  match value with
  | None => ret None
  | Some text =>
      match parse text with
      | Some v => ret (Some v)
      | None => fail (attempt_error "decode_failed")
      end
  end.

Definition validateId (id : AttemptId) : M () :=
  if nonempty (id_runId id) && nonempty (id_stepKeyDigest id)
     && is_safe_integer (id_attempt id) && bool_decide (0 ≤ id_attempt id)%Z
  then ret tt
  else fail (attempt_error "invalid_attempt").

Definition ownsRunningRun (row : RunRow) (owner : OwnerId) : bool :=
  bool_decide (r_status row = Running) && cols_are (r_owner row) owner.

(** [EXISTS (SELECT 1 FROM flows_runs WHERE run_id = ? AND status = 'running' AND ...)]. *)
Definition run_owned (runId : string) (owner : OwnerId) : M bool :=
  row <- get_run runId ;;
  ret (match row with Some row => ownsRunningRun row owner | None => false end).

Definition inProgress (state : string) : bool := bool_decide (state ∈ po_inProgressStates policy).

Definition invalid_stamp (n : Z) : bool := negb (is_safe_integer n) || bool_decide (n < 0)%Z.

Definition mapPersistenceError (cause : error) : error :=
  if is_class AttemptStoreError cause then cause
  else
    let constraint := hasCauseCode cause "constraint"
      || (is_class SqlError cause && (bool_decide (error_code cause = "ConstraintError")
                                      || bool_decide (error_code cause = "UniqueViolation"))) in
    err_cause AttemptStoreError (if constraint then "constraint" else "persistence_failed") cause.

Definition isJournalFenceLost (cause : error) : bool :=
  isJournalError cause && bool_decide (error_code cause = "fence_lost").

Definition writeAttempt (effect : M AttemptOutcome) : M AttemptOutcome :=
  map_error mapPersistenceError
    (catch (transact opts effect)
       (λ cause, if isJournalFenceLost cause then ret AttemptFenceLost else fail cause)).

Definition attempt_event_input (runId eventType : string) (payload : list (string * json)) : Input :=
  MkInput runId "flows/run-store/attempt" None eventType (JObj payload) (Some (lineage_meta runId)).

Definition recordAttemptEvent (runId : string) (owner : OwnerId) (eventType : string)
    (payload : list (string * json)) : M () :=
  emitDurable opts (attempt_event_input runId eventType payload) (Some owner) ;; ret tt.

Definition id_payload (id : AttemptId) : list (string * json) :=
  [("stepKeyDigest", JStr (id_stepKeyDigest id)); ("attempt", JNum (id_attempt id))].

Definition putPayload (attempt : Attempt) : list (string * json) :=
  id_payload (at_id attempt)
  ++ [("state", JStr (at_state attempt)); ("startedAtMs", JNum (at_startedAtMs attempt))]
  ++ spread "finishedAtMs" (JNum <$> at_finishedAtMs attempt)
  ++ spread "checkpoint" (at_checkpoint attempt)
  ++ spread "error" (at_error attempt)
  ++ spread "outcome" (at_outcome attempt)
  ++ [("meta", at_meta attempt)].

(** ** Statements *)

Definition get_attempt (key : AttemptKey) : M (option AttemptRow) :=
  gets (λ w, db_attempts (w_db w) !! key).

(** [INSERT ... SELECT ... WHERE EXISTS (owned run) ON CONFLICT DO NOTHING RETURNING]. *)
Definition insert_attempt (id : AttemptId) (row : AttemptRow) (owner : OwnerId) : M bool :=
  owned <- run_owned (id_runId id) owner ;;
  if negb owned then ret false
  else if negb (check_attempt (key_of id) row) then sql_fail "ConstraintError"
  else
    existing <- get_attempt (key_of id) ;;
    match existing with
    | Some _ => ret false
    | None => put_attempt (key_of id) row ;; ret true
    end.

(** [UPDATE flows_attempts SET ... WHERE key AND cond AND EXISTS (owned run) RETURNING]. *)
Definition update_attempt (id : AttemptId) (cond : AttemptRow → bool) (set : AttemptRow → AttemptRow)
    (owner : OwnerId) : M bool :=
  owned <- run_owned (id_runId id) owner ;;
  existing <- get_attempt (key_of id) ;;
  match existing with
  | Some row => if cond row && owned then put_attempt (key_of id) (set row) ;; ret true else ret false
  | None => ret false
  end.

(** ** Operations *)

(** The row [put] writes. *)
Definition put_row (attempt : Attempt) (checkpoint : option string) : AttemptRow :=
  MkAttemptRow (at_state attempt) (at_startedAtMs attempt) (at_finishedAtMs attempt)
    (at_heartbeatAtMs attempt) checkpoint (encodeOptional (at_error attempt))
    (encodeOptional (at_outcome attempt)) (attempt_encode (at_meta attempt)).

Definition sameAttempt (row : AttemptRow) (attempt : Attempt) (checkpoint attemptError outcome : option string)
    (meta : string) : bool :=
  bool_decide (a_state row = at_state attempt)
  && bool_decide (a_startedAtMs row = at_startedAtMs attempt)
  && bool_decide (a_finishedAtMs row = at_finishedAtMs attempt)
  && bool_decide (a_heartbeatAtMs row = at_heartbeatAtMs attempt)
  && bool_decide (a_checkpointJson row = checkpoint)
  && bool_decide (a_errorJson row = attemptError)
  && bool_decide (a_outcomeJson row = outcome)
  && bool_decide (a_metaJson row = meta).

Definition put (attempt : Attempt) (owner : OwnerId) : M AttemptOutcome :=
  let id := at_id attempt in
  validateId id ;;
  if negb (nonempty (at_state attempt)) || invalid_stamp (at_startedAtMs attempt)
     || match at_finishedAtMs attempt with Some n => invalid_stamp n | None => false end
     || match at_heartbeatAtMs attempt with Some n => invalid_stamp n | None => false end
  then fail (attempt_error "invalid_attempt")
  else
    checkpoint <- encodeCheckpoint (at_checkpoint attempt) ;;
    let attemptError := encodeOptional (at_error attempt) in
    let outcome := encodeOptional (at_outcome attempt) in
    let meta := attempt_encode (at_meta attempt) in
    writeAttempt (
      inserted <- insert_attempt id (put_row attempt checkpoint) owner ;;
      if inserted : bool
      then recordAttemptEvent (id_runId id) owner "flows.attempt.put" (putPayload attempt) ;; ret Inserted
      else
        replaced <- (if po_upsert policy
                     then update_attempt id (λ _, true) (λ _, put_row attempt checkpoint) owner
                     else ret false) ;;
        if replaced : bool
        then recordAttemptEvent (id_runId id) owner "flows.attempt.put" (putPayload attempt) ;; ret Upserted
        else
          run <- get_run (id_runId id) ;;
          match run with
          | None => ret RunNotFound
          | Some run =>
              if negb (ownsRunningRun run owner) then ret AttemptFenceLost
              else
                row <- get_attempt (key_of id) ;;
                match row with
                | None => fail (attempt_error "unknown")
                | Some row =>
                    ret (if sameAttempt row attempt checkpoint attemptError outcome meta
                         then ExistingSame else Conflict)
                end
          end).

Definition decodeAttemptRow (id : AttemptId) (row : AttemptRow) : M Attempt :=
  checkpoint <- attempt_decode (a_checkpointJson row) ;;
  attemptError <- attempt_decode (a_errorJson row) ;;
  outcome <- attempt_decode (a_outcomeJson row) ;;
  meta <- attempt_decode (Some (a_metaJson row)) ;;
  ret (MkAttempt id (a_state row) (a_startedAtMs row) (a_finishedAtMs row) (a_heartbeatAtMs row)
         checkpoint attemptError outcome (default JNull meta)).

Definition getAttempt (id : AttemptId) : M (option Attempt) :=
  validateId id ;;
  row <- map_error mapPersistenceError (get_attempt (key_of id)) ;;
  match row with
  | None => ret None
  | Some row => if check_attempt (key_of id) row
                then attempt <- decodeAttemptRow id row ;; ret (Some attempt)
                else fail (attempt_error "decode_failed")
  end.

(** What an update that matched no row reports. *)
Definition not_updated (id : AttemptId) (owner : OwnerId) : M AttemptOutcome :=
  found <- get_attempt (key_of id) ;;
  match found with
  | None => ret AttemptNotFound
  | Some _ =>
      run <- get_run (id_runId id) ;;
      ret (match run with
           | None => AttemptFenceLost
           | Some run => if negb (ownsRunningRun run owner) then AttemptFenceLost else StateChanged
           end)
  end.

Definition set_attempt_beat (nowMs : Z) (checkpoint : option string) (row : AttemptRow) : AttemptRow :=
  MkAttemptRow (a_state row) (a_startedAtMs row) (a_finishedAtMs row) (Some nowMs)
    (coalesce checkpoint (a_checkpointJson row)) (a_errorJson row) (a_outcomeJson row) (a_metaJson row).

Definition attemptHeartbeat (id : AttemptId) (owner : OwnerId) (nowMs : Z) (checkpointValue : option json)
    : M AttemptOutcome :=
  validateId id ;;
  if invalid_stamp nowMs then fail (attempt_error "invalid_attempt")
  else
    checkpoint <- encodeCheckpoint checkpointValue ;;
    writeAttempt (
      updated <- update_attempt id (λ row, inProgress (a_state row)) (set_attempt_beat nowMs checkpoint) owner ;;
      if updated : bool
      then
        match checkpointValue with
        | Some value =>
            recordAttemptEvent (id_runId id) owner "flows.attempt.checkpointed"
              (id_payload id ++ [("checkpoint", value)]) ;;
            ret AttemptUpdated
        | None => ret AttemptUpdated
        end
      else not_updated id owner).

Definition set_attempt_finished (attempt : FinishAttempt) (row : AttemptRow) : AttemptRow :=
  MkAttemptRow (fa_state attempt) (a_startedAtMs row) (Some (fa_finishedAtMs attempt))
    (a_heartbeatAtMs row) (a_checkpointJson row)
    (coalesce (encodeOptional (fa_error attempt)) (a_errorJson row))
    (coalesce (encodeOptional (fa_outcome attempt)) (a_outcomeJson row))
    (default (a_metaJson row) (encodeOptional (fa_meta attempt))).

Definition finishPayload (attempt : FinishAttempt) : list (string * json) :=
  id_payload (fa_id attempt)
  ++ [("state", JStr (fa_state attempt)); ("finishedAtMs", JNum (fa_finishedAtMs attempt))]
  ++ spread "error" (fa_error attempt) ++ spread "outcome" (fa_outcome attempt)
  ++ spread "meta" (fa_meta attempt).

Definition finish (attempt : FinishAttempt) (owner : OwnerId) : M AttemptOutcome :=
  let id := fa_id attempt in
  validateId id ;;
  if negb (nonempty (fa_state attempt)) || inProgress (fa_state attempt)
     || invalid_stamp (fa_finishedAtMs attempt)
  then fail (attempt_error "invalid_attempt")
  else
    writeAttempt (
      updated <- update_attempt id (λ row, inProgress (a_state row)) (set_attempt_finished attempt) owner ;;
      if updated : bool
      then recordAttemptEvent (id_runId id) owner "flows.attempt.finished" (finishPayload attempt) ;;
           ret Finished
      else not_updated id owner).

Definition set_attempt_patched (fields : AttemptPatch) (checkpoint : option string) (row : AttemptRow)
    : AttemptRow :=
  MkAttemptRow (a_state row) (a_startedAtMs row) (a_finishedAtMs row) (a_heartbeatAtMs row)
    (coalesce checkpoint (a_checkpointJson row))
    (coalesce (encodeOptional (ap_error fields)) (a_errorJson row))
    (coalesce (encodeOptional (ap_outcome fields)) (a_outcomeJson row))
    (default (a_metaJson row) (encodeOptional (ap_meta fields))).

Definition patchPayload (id : AttemptId) (fields : AttemptPatch) : list (string * json) :=
  id_payload id ++ spread "checkpoint" (ap_checkpoint fields) ++ spread "error" (ap_error fields)
  ++ spread "outcome" (ap_outcome fields) ++ spread "meta" (ap_meta fields).

Definition patches_nothing (fields : AttemptPatch) : bool :=
  is_null (ap_checkpoint fields) && is_null (ap_error fields) && is_null (ap_outcome fields)
  && is_null (ap_meta fields).

Definition patch (id : AttemptId) (fields : AttemptPatch) (owner : OwnerId) : M AttemptOutcome :=
  validateId id ;;
  checkpoint <- encodeCheckpoint (ap_checkpoint fields) ;;
  writeAttempt (
    updated <- update_attempt id (λ _, true) (set_attempt_patched fields checkpoint) owner ;;
    if updated : bool
    then
      if negb (patches_nothing fields)
      then recordAttemptEvent (id_runId id) owner "flows.attempt.patched" (patchPayload id fields) ;;
           ret Patched
      else ret Patched
    else
      found <- get_attempt (key_of id) ;;
      ret (match found with None => AttemptNotFound | Some _ => AttemptFenceLost end)).

End AttemptStore.
