(* ===== verification/AttemptProps.v ===== *)
(** The attempt store against its state: the effect of every call, the fence,
    and what a call leaves when it is refused. *)

From S2P Require Export AttemptStore RunAnswers.

#[local] Open Scope me_scope.

(** ** Calls *)

Inductive attempt_op :=
| APut (a : Attempt) (o : OwnerId)
| ABeat (id : AttemptId) (o : OwnerId) (now : Z) (checkpoint : option json)
| AFinish (a : FinishAttempt) (o : OwnerId)
| APatch (id : AttemptId) (fields : AttemptPatch) (o : OwnerId).

Definition attempt_id (op : attempt_op) : AttemptId :=
  match op with APut a _ => at_id a | ABeat id _ _ _ | APatch id _ _ => id | AFinish a _ => fa_id a end.
Definition attempt_owner (op : attempt_op) : OwnerId :=
  match op with APut _ o | ABeat _ o _ _ | AFinish _ o | APatch _ _ o => o end.

Section effects.
Context {J : JsonText} {C : Consensus} {L : ConsensusLaws C} (opts : ValidatedOptions) (policy : Policy).
Implicit Types (w : World) (id : AttemptId).

Definition perform_attempt (op : attempt_op) : M AttemptOutcome :=
  match op with
  | APut a o => put opts policy a o
  | ABeat id o now ck => attemptHeartbeat opts policy id o now ck
  | AFinish a o => finish opts policy a o
  | APatch id f o => patch opts policy id f o
  end.

(** What a call did: the attempt's row after it, the events it appended, and
    nothing else. *)
Record attempt_moved (w w' : World) (id : AttemptId) (row : option AttemptRow) (inputs : list Input)
  : Prop := MkAttemptMoved {
  am_row : db_attempts (w_db w') !! key_of id = row;
  am_rows : ∀ key, key ≠ key_of id → db_attempts (w_db w') !! key = db_attempts (w_db w) !! key;
  am_runs : db_runs (w_db w') = db_runs (w_db w);
  am_leases : ∀ r, lease_of w' r = lease_of w r;
  am_events : ∃ new, db_events (w_db w') = db_events (w_db w) ++ new
                     ∧ Forall2 (event_of opts (w_clock w)) inputs new;
  am_clock : w_clock w' = w_clock w;
  am_wf : cs_wf w';
  am_journal : journal_ok w';
  am_ordered : journal_ordered w → journal_ordered w';
  am_checked : (∀ x, db_attempts (w_db w) !! key_of id = Some x → check_attempt (key_of id) x = true) →
               ∀ x, row = Some x → check_attempt (key_of id) x = true
}.

Lemma attempt_still w id : cs_wf w → journal_ok w →
  attempt_moved w w id (db_attempts (w_db w) !! key_of id) [].
Proof. intros. split; try done. exists []. by rewrite app_nil_r. Qed.

Lemma attempt_moved_same w w1 w2 w3 id row inputs :
  same_stores w w1 → cs_wf w → attempt_moved w1 w2 id row inputs → same_stores w2 w3 →
  attempt_moved w w3 id row inputs.
Proof.
  intros H1 Hwf [] H2. destruct (same_stores_lease w w1 H1 Hwf) as [_ Hl1].
  destruct (same_stores_lease w2 w3 H2 am_wf0) as [Hwf3 Hl3].
  destruct H1 as [E1 _ C1], H2 as [E2 _ C2].
  unfold journal_ok, journal_ordered in *. rewrite E1, C1 in *.
  split; unfold journal_ok, journal_ordered; rewrite ?E2; try done.
  - intros r. by rewrite Hl3, am_leases0.
  - by rewrite C2.
Qed.

(** Writing the row of the attempt. *)
Lemma put_attempt_moved w id row u w' :
  cs_wf w → journal_ok w → put_attempt (key_of id) row w = (inr u, w') →
  attempt_moved w w' id (Some row) [] ∧ check_attempt (key_of id) row = true.
Proof.
  intros Hwf Hok H. unfold put_attempt, sql_fail in H. inv_ok H. split; [|done].
  destruct (law_ext w (set_db (upd_attempts (<[key_of id := row]>)) w)) as [H1 H2]; [done..|].
  split; try done.
  - simpl. by rewrite lookup_insert_eq.
  - intros key Hkey. simpl. by rewrite lookup_insert_ne.
  - exists []. simpl. by rewrite app_nil_r.
  - by apply H1.
  - by intros _ x [= <-].
Qed.

(** Recording an event after a write. *)
Lemma record_attempt_moved w w1 w2 id row ty payload o r u :
  attempt_moved w w1 id row [] → recordAttemptEvent opts r o ty payload w1 = (inr u, w2) →
  attempt_moved w w2 id row [attempt_event_input r ty payload].
Proof.
  intros [] H. unfold recordAttemptEvent in H. inv_ok H.
  match goal with H : emitDurable _ _ _ _ = _ |- _ =>
    apply (emit_moved opts _ _ _ _ _ r) in H as [] end; [|done..].
  destruct am_events0 as (n1 & E1 & F1), mv_events as (n2 & E2 & F2).
  apply Forall2_nil_inv_l in F1 as ->. rewrite app_nil_r in E1.
  split; try congruence; try done.
  - intros key Hkey. rewrite mv_attempts. by apply am_rows0.
  - rewrite <- am_runs0. apply map_eq. intros r'. destruct (decide (r' = r)) as [->|]; auto.
  - intros r'. rewrite <- am_leases0. destruct (decide (r' = r)) as [->|]; auto.
  - exists n2. rewrite E2, E1. rewrite am_clock0 in F2. done.
  - auto.
Qed.

(** ** Statements *)

Definition owned_by (w : World) (r : string) (o : OwnerId) : bool :=
  match db_runs (w_db w) !! r with Some row => ownsRunningRun row o | None => false end.

Lemma run_owned_run r o w : run_owned r o w = (inr (owned_by w r o), w).
Proof. done. Qed.

Lemma insert_attempt_inr id row o w b w' :
  cs_wf w → journal_ok w → insert_attempt id row o w = (inr b, w') →
  if b : bool
  then owned_by w (id_runId id) o = true ∧ db_attempts (w_db w) !! key_of id = None
       ∧ check_attempt (key_of id) row = true ∧ attempt_moved w w' id (Some row) []
  else w' = w ∧ (owned_by w (id_runId id) o = true → is_Some (db_attempts (w_db w) !! key_of id)).
Proof.
  intros Hwf Hok H. unfold insert_attempt in H.
  apply bind_inr in H as (ow & w1 & H1 & H). rewrite run_owned_run in H1. injection H1 as <- <-.
  destruct (owned_by w (id_runId id) o) eqn:Ho; simpl in H; [|by inv_ok H].
  destruct (check_attempt _ _) eqn:Hc; simpl in H; [|done].
  apply bind_inr in H as (e & w1 & H1 & H). apply gets_inr in H1 as [-> ->].
  destruct (db_attempts (w_db w) !! key_of id) eqn:He; [by inv_ok H|].
  apply bind_inr in H as (u & w1 & H1 & H). apply put_attempt_moved in H1 as [Hm Hchk]; [|done..].
  by apply ret_inr in H as [-> ->].
Qed.

Lemma update_attempt_inr id cond set o w b w' :
  cs_wf w → journal_ok w → update_attempt id cond set o w = (inr b, w') →
  if b : bool
  then ∃ x, owned_by w (id_runId id) o = true ∧ db_attempts (w_db w) !! key_of id = Some x
       ∧ cond x = true ∧ check_attempt (key_of id) (set x) = true
       ∧ attempt_moved w w' id (Some (set x)) []
  else w' = w ∧ ∀ x, db_attempts (w_db w) !! key_of id = Some x →
                  cond x && owned_by w (id_runId id) o = false.
Proof.
  intros Hwf Hok H. unfold update_attempt in H.
  apply bind_inr in H as (ow & w1 & H1 & H). rewrite run_owned_run in H1. injection H1 as <- <-.
  apply bind_inr in H as (e & w1 & H1 & H). apply gets_inr in H1 as [-> ->].
  destruct (db_attempts (w_db w) !! key_of id) as [x|] eqn:He; [|by inv_ok H].
  destruct (cond x && _) eqn:Hc; [|inv_ok H; split; [done|by intros ? [= <-]]].
  apply bind_inr in H as (u & w1 & H1 & H). apply put_attempt_moved in H1 as [Hm Hchk]; [|done..].
  apply ret_inr in H as [-> ->]. apply andb_true_iff in Hc as [Hc Ho]. by exists x.
Qed.

Lemma not_updated_inr id o w out w' :
  not_updated id o w = (inr out, w') →
  w' = w ∧ out = match db_attempts (w_db w) !! key_of id with
                 | None => AttemptNotFound
                 | Some _ => if owned_by w (id_runId id) o then StateChanged else AttemptFenceLost
                 end.
Proof.
  intros H. unfold not_updated, get_attempt, get_run in H.
  apply bind_inr in H as (e & w1 & H1 & H). apply gets_inr in H1 as [-> ->].
  destruct (db_attempts (w_db w) !! key_of id); [|by inv_ok H].
  apply bind_inr in H as (e & w1 & H1 & H). apply gets_inr in H1 as [-> ->].
  apply ret_inr in H as [-> ->]. split; [done|]. unfold owned_by.
  destruct (db_runs (w_db w) !! id_runId id); [|done]. by destruct (ownsRunningRun _ _).
Qed.

Lemma encodeCheckpoint_inr v w ck w' :
  encodeCheckpoint policy v w = (inr ck, w') → ck = encodeOptional v ∧ w' = w.
Proof.
  unfold encodeCheckpoint. destruct (encodeOptional v); [case_bool_decide; [done|]|];
    by intros [-> ->]%ret_inr.
Qed.

Lemma validateId_inr id w u w' : validateId id w = (inr u, w') →
  w' = w ∧ nonempty (id_runId id) = true ∧ nonempty (id_stepKeyDigest id) = true
  ∧ is_safe_integer (id_attempt id) = true ∧ (0 ≤ id_attempt id)%Z.
Proof.
  unfold validateId. destruct (_ && _) eqn:H; [|done]. intros [_ ->]%ret_inr.
  rewrite !andb_true_iff, bool_decide_eq_true in H. tauto.
Qed.

(** A write that answered either ran its body, or was refused by the journal's
    fence and left every table as it was. *)
Lemma writeAttempt_inr body w out w' :
  writeAttempt opts body w = (inr out, w') →
  (∃ w0 w1, same_stores w w0 ∧ body w0 = (inr out, w1) ∧ same_stores w1 w')
  ∨ (out = AttemptFenceLost ∧ w_db w' = w_db w).
Proof.
  intros H%map_error_inr. unfold catch in H.
  destruct (transact opts body w) as [[e|a] w1] eqn:Ht.
  - destruct (isJournalFenceLost e); [|done]. apply ret_inr in H as [-> ->]. right.
    split; [done|]. by eapply transact_err_db.
  - injection H as -> ->. left. by apply transact_inr in Ht.
Qed.

(** ** What one call does

    [attempt_effect owned row op out row' inputs]: called while the caller's
    ownership of the run is [owned] and the attempt's row is [row]. *)

Definition attempt_refused (out : AttemptOutcome) : bool :=
  match out with
  | ExistingSame | Conflict | RunNotFound | AttemptNotFound | StateChanged | AttemptFenceLost => true
  | _ => false
  end.

(** What a call that does nothing reports. *)
Definition refusal (w : World) (op : attempt_op) : AttemptOutcome :=
  let id := attempt_id op in
  let owned := owned_by w (id_runId id) (attempt_owner op) in
  match op with
  | APut a _ =>
      match db_runs (w_db w) !! id_runId id with
      | None => RunNotFound
      | Some _ =>
          if negb owned then AttemptFenceLost
          else if bool_decide (db_attempts (w_db w) !! key_of id
                               = Some (put_row a (encodeOptional (at_checkpoint a))))
          then ExistingSame else Conflict
      end
  | APatch _ _ _ =>
      match db_attempts (w_db w) !! key_of id with None => AttemptNotFound | Some _ => AttemptFenceLost end
  | _ =>
      match db_attempts (w_db w) !! key_of id with
      | None => AttemptNotFound
      | Some _ => if owned then StateChanged else AttemptFenceLost
      end
  end.

Definition attempt_event (id : AttemptId) (ty : string) (payload : list (string * json)) : list Input :=
  [attempt_event_input (id_runId id) ty payload].

Inductive attempt_effect (w : World) (row : option AttemptRow)
  : attempt_op → AttemptOutcome → option AttemptRow → list Input → Prop :=
| ae_refused op : attempt_refused (refusal w op) = true →
    attempt_effect w row op (refusal w op) row []
| ae_put a o : row = None → owned_by w (id_runId (at_id a)) o = true →
    attempt_effect w row (APut a o) Inserted (Some (put_row a (encodeOptional (at_checkpoint a))))
      (attempt_event (at_id a) "flows.attempt.put" (putPayload a))
| ae_upsert a o x : row = Some x → po_upsert policy = true →
    owned_by w (id_runId (at_id a)) o = true →
    attempt_effect w row (APut a o) Upserted (Some (put_row a (encodeOptional (at_checkpoint a))))
      (attempt_event (at_id a) "flows.attempt.put" (putPayload a))
| ae_beat id o now ck x : row = Some x → owned_by w (id_runId id) o = true →
    inProgress policy (a_state x) = true →
    attempt_effect w row (ABeat id o now ck) AttemptUpdated
      (Some (set_attempt_beat now (encodeOptional ck) x))
      (match ck with
       | Some v => attempt_event id "flows.attempt.checkpointed" (id_payload id ++ [("checkpoint", v)])
       | None => []
       end)
| ae_finish a o x : row = Some x → owned_by w (id_runId (fa_id a)) o = true →
    inProgress policy (a_state x) = true → inProgress policy (fa_state a) = false →
    attempt_effect w row (AFinish a o) Finished (Some (set_attempt_finished a x))
      (attempt_event (fa_id a) "flows.attempt.finished" (finishPayload a))
| ae_patch id f o x : row = Some x → owned_by w (id_runId id) o = true →
    attempt_effect w row (APatch id f o) Patched
      (Some (set_attempt_patched f (encodeOptional (ap_checkpoint f)) x))
      (if patches_nothing f then []
       else attempt_event id "flows.attempt.patched" (patchPayload id f)).

Lemma sameAttempt_spec x a :
  sameAttempt x a (encodeOptional (at_checkpoint a)) (encodeOptional (at_error a))
    (encodeOptional (at_outcome a)) (attempt_encode (at_meta a))
  = bool_decide (Some x = Some (put_row a (encodeOptional (at_checkpoint a)))).
Proof.
  apply eq_true_iff_eq. unfold sameAttempt. rewrite !andb_true_iff, !bool_decide_eq_true.
  destruct x. unfold put_row. simpl. split; [intros ((((((([=]&[=])&[=])&[=])&[=])&[=])&[=])&[=]); congruence|].
  intros [=]. tauto.
Qed.

Definition answers (op : attempt_op) (w : World) (out : AttemptOutcome) (w' : World) : Prop :=
  ∃ row' inputs, attempt_moved w w' (attempt_id op) row' inputs
    ∧ attempt_effect w (db_attempts (w_db w) !! key_of (attempt_id op)) op out row' inputs.

Lemma answers_refusal op w out : cs_wf w → journal_ok w →
  out = refusal w op → attempt_refused out = true → answers op w out w.
Proof. intros Hwf Hok -> H. eexists _, _. split; [by apply attempt_still|by apply ae_refused]. Qed.

Lemma not_updated_refused op w out :
  match op with APut _ _ | APatch _ _ _ => False | _ => True end →
  out = match db_attempts (w_db w) !! key_of (attempt_id op) with
        | None => AttemptNotFound
        | Some _ => if owned_by w (id_runId (attempt_id op)) (attempt_owner op) then StateChanged
                    else AttemptFenceLost
        end → out = refusal w op ∧ attempt_refused out = true.
Proof. intros Hop ->. destruct op; try done; simpl; by repeat case_match. Qed.

Lemma owned_by_ext w w0 r o : w_db w0 = w_db w → owned_by w0 r o = owned_by w r o.
Proof. unfold owned_by. by intros ->. Qed.

Lemma attempt_effect_ext w w0 row op out row' ins : w_db w0 = w_db w →
  attempt_effect w0 row op out row' ins → attempt_effect w row op out row' ins.
Proof.
  intros Hdb He. pose proof (owned_by_ext w w0) as Ho.
  assert (Hr : refusal w0 op = refusal w op).
  { unfold refusal, owned_by. by rewrite Hdb. }
  destruct He as [op H|? ? ? H|? ? ? ? ? H|? ? ? ? ? ? H|? ? ? ? H|? ? ? ? ? H];
    try (rewrite Ho in H by done); rewrite ?Hr in *;
    first [by apply ae_refused|by apply ae_put|by eapply ae_upsert|by apply ae_beat|by apply ae_finish
          |by apply ae_patch].
Qed.

Lemma answers_same op w w0 w1 w' out : cs_wf w →
  same_stores w w0 → answers op w0 out w1 → same_stores w1 w' → answers op w out w'.
Proof.
  intros Hwf H0 (row & ins & Hm & He) H1. exists row, ins.
  split; [by eapply attempt_moved_same|]. destruct H0 as [Hdb _ _].
  eapply attempt_effect_ext in He; [|exact Hdb]. by rewrite Hdb in He.
Qed.

(** The transaction around a body whose answers are effects. *)
Lemma writeAttempt_answers op body w out w' :
  cs_wf w → journal_ok w →
  (∀ w0 w1, cs_wf w0 → journal_ok w0 → body w0 = (inr out, w1) → answers op w0 out w1) →
  writeAttempt opts body w = (inr out, w') →
  answers op w out w' ∨ (out = AttemptFenceLost ∧ w_db w' = w_db w).
Proof.
  intros Hwf Hok Hbody H. apply writeAttempt_inr in H as [(w0 & w1 & H0 & H & H1)|]; [left|by right].
  destruct (same_stores_lease w w0 H0 Hwf) as [Hwf0 _].
  eapply answers_same; [done|exact H0| |exact H1]. apply Hbody; [done| |done].
  unfold journal_ok. by rewrite (ss_db _ _ H0).
Qed.

Lemma put_body_answers a o w0 w1 out :
  cs_wf w0 → journal_ok w0 →
  (let id := at_id a in
   let checkpoint := encodeOptional (at_checkpoint a) in
   inserted <- insert_attempt id (put_row a checkpoint) o ;;
   if inserted : bool
   then recordAttemptEvent opts (id_runId id) o "flows.attempt.put" (putPayload a) ;; ret Inserted
   else
     replaced <- (if po_upsert policy
                  then update_attempt id (λ _, true) (λ _, put_row a checkpoint) o
                  else ret false) ;;
     if replaced : bool
     then recordAttemptEvent opts (id_runId id) o "flows.attempt.put" (putPayload a) ;; ret Upserted
     else
       run <- get_run (id_runId id) ;;
       match run with
       | None => ret RunNotFound
       | Some run =>
           if negb (ownsRunningRun run o) then ret AttemptFenceLost
           else
             row <- get_attempt (key_of id) ;;
             match row with
             | None => fail (attempt_error "unknown")
             | Some row =>
                 ret (if sameAttempt row a checkpoint (encodeOptional (at_error a))
                           (encodeOptional (at_outcome a)) (attempt_encode (at_meta a))
                      then ExistingSame else Conflict)
             end
       end) w0 = (inr out, w1) →
  answers (APut a o) w0 out w1.
Proof.
  intros Hwf Hok H. cbv zeta in H.
  apply bind_inr in H as (b & w2 & H1 & H). apply insert_attempt_inr in H1; [|done..].
  destruct b.
  { destruct H1 as (Ho & Hnone & _ & Hm). apply bind_inr in H as (u & w3 & H1 & H).
    eapply record_attempt_moved in H1; [|exact Hm]. apply ret_inr in H as [-> ->].
    eexists _, _. split; [exact H1|]. by apply ae_put. }
  destruct H1 as [-> Hex]. apply bind_inr in H as (b & w2 & H1 & H).
  assert (Hup : if b : bool
    then ∃ x, owned_by w0 (id_runId (at_id a)) o = true ∧ po_upsert policy = true
      ∧ db_attempts (w_db w0) !! key_of (at_id a) = Some x
      ∧ attempt_moved w0 w2 (at_id a) (Some (put_row a (encodeOptional (at_checkpoint a)))) []
    else w2 = w0).
  { destruct (po_upsert policy); [|by inv_ok H1].
    apply update_attempt_inr in H1; [|done..]. destruct b; [|by destruct H1].
    destruct H1 as (x & ? & ? & _ & _ & ?). by exists x. }
  destruct b.
  { destruct Hup as (x & Ho & Hp & Hx & Hm). apply bind_inr in H as (u & w3 & H2 & H).
    eapply record_attempt_moved in H2; [|exact Hm]. apply ret_inr in H as [-> ->].
    eexists _, _. split; [exact H2|]. by eapply ae_upsert. }
  subst w2. apply bind_inr in H as (run & w2 & H2 & H). apply gets_inr in H2 as [-> ->].
  assert (Hans : w1 = w0 ∧ out = refusal w0 (APut a o) ∧ attempt_refused out = true).
  { unfold refusal, owned_by in *. cbn [attempt_id attempt_owner].
    destruct (db_runs (w_db w0) !! id_runId (at_id a)) as [run|]; [|by inv_ok H].
    destruct (ownsRunningRun run o); simpl in *; [|by inv_ok H].
    destruct Hex as [x Hx]; [done|].
    apply bind_inr in H as (row & w2 & H2 & H). apply gets_inr in H2 as [-> ->].
    rewrite Hx in *. apply ret_inr in H as [-> ->]. rewrite sameAttempt_spec. cbn [negb]. by destruct (bool_decide _). }
  destruct Hans as (-> & -> & ?). by apply answers_refusal.
Qed.

(** Every call that answers has one of the effects of [attempt_effect], unless
    the journal's own fence refused it. *)
Lemma perform_attempt_answers op w out w' :
  cs_wf w → journal_ok w → perform_attempt op w = (inr out, w') →
  answers op w out w' ∨ (out = AttemptFenceLost ∧ w_db w' = w_db w).
Proof.
  intros Hwf Hok H. destruct op as [a o|id o now ck|a o|id f o]; simpl in H.
  - unfold put in H. apply bind_inr in H as (u & w1 & H1 & H). apply validateId_inr in H1 as [-> _].
    destruct (_ || _); [done|]. apply bind_inr in H as (c & w1 & H1 & H).
    apply encodeCheckpoint_inr in H1 as [-> ->].
    eapply writeAttempt_answers; [done..| |exact H]. intros w0 w1 ? ?. by apply put_body_answers.
  - unfold attemptHeartbeat in H. apply bind_inr in H as (u & w1 & H1 & H).
    apply validateId_inr in H1 as [-> _]. destruct (invalid_stamp now); [done|].
    apply bind_inr in H as (c & w1 & H1 & H). apply encodeCheckpoint_inr in H1 as [-> ->].
    eapply writeAttempt_answers; [done..| |exact H]. clear H. intros w0 w1 Hwf0 Hok0 H.
    apply bind_inr in H as (b & w2 & H1 & H). apply update_attempt_inr in H1; [|done..]. destruct b.
    + destruct H1 as (x & Ho & Hx & Hc & _ & Hm). destruct ck as [v|].
      * apply bind_inr in H as (u' & w3 & H1 & H). eapply record_attempt_moved in H1; [|exact Hm].
        apply ret_inr in H as [-> ->]. eexists _, _. split; [exact H1|].
        by apply (ae_beat _ _ id o now (Some v)).
      * apply ret_inr in H as [-> ->]. eexists _, _. split; [exact Hm|]. by apply (ae_beat _ _ id o now None).
    + destruct H1 as [-> _]. apply not_updated_inr in H as [-> Hout].
      destruct (not_updated_refused (ABeat id o now ck) w0 out) as [-> ?]; [done..|].
      by apply answers_refusal.
  - unfold finish in H. apply bind_inr in H as (u & w1 & H1 & H).
    apply validateId_inr in H1 as [-> _]. destruct (_ || _) eqn:Hv; [done|].
    rewrite !orb_false_iff in Hv. destruct Hv as [[_ Hst] _].
    eapply writeAttempt_answers; [done..| |exact H]. clear H. intros w0 w1 Hwf0 Hok0 H.
    apply bind_inr in H as (b & w2 & H1 & H). apply update_attempt_inr in H1; [|done..]. destruct b.
    + destruct H1 as (x & Ho & Hx & Hc & _ & Hm). apply bind_inr in H as (u' & w3 & H1 & H).
      eapply record_attempt_moved in H1; [|exact Hm]. apply ret_inr in H as [-> ->].
      eexists _, _. split; [exact H1|]. by apply ae_finish.
    + destruct H1 as [-> _]. apply not_updated_inr in H as [-> Hout].
      destruct (not_updated_refused (AFinish a o) w0 out) as [-> ?]; [done..|].
      by apply answers_refusal.
  - unfold patch in H. apply bind_inr in H as (u & w1 & H1 & H).
    apply validateId_inr in H1 as [-> _]. apply bind_inr in H as (c & w1 & H1 & H).
    apply encodeCheckpoint_inr in H1 as [-> ->].
    eapply writeAttempt_answers; [done..| |exact H]. clear H. intros w0 w1 Hwf0 Hok0 H.
    apply bind_inr in H as (b & w2 & H1 & H). apply update_attempt_inr in H1; [|done..]. destruct b.
    + destruct H1 as (x & Ho & Hx & _ & _ & Hm). pose proof (ae_patch w0 _ id f o x Hx Ho) as He.
      destruct (patches_nothing f); simpl in H.
      * apply ret_inr in H as [-> ->]. by eexists _, _.
      * apply bind_inr in H as (u' & w3 & H1 & H). eapply record_attempt_moved in H1; [|exact Hm].
        apply ret_inr in H as [-> ->]. by eexists _, _.
    + destruct H1 as [-> _]. apply bind_inr in H as (e & w2 & H1 & H). apply gets_inr in H1 as [-> ->].
      apply ret_inr in H as [-> ->].
      apply answers_refusal; [done..| |]; simpl; by case_match.
Qed.

End effects.
