(* ===== verification/Fold.v ===== *)
(** The run and attempt fold: replaying journal entries into the rows of
    [flows_runs] and [flows_attempts] ([run-store/src/Fold.ts]).

    A payload is decoded JSON; a member that is absent ([undefined]) is [None].
    The two [Map]s of the state are finite maps: nothing here iterates them. *)

From S2P Require Export RunStore.

#[local] Open Scope me_scope.

(** ** The folded rows *)

Record RunFoldRow := MkRunFoldRow {
  f_runId : string;
  f_status : string;
  f_createdAtMs : Z;
  f_startedAtMs : option Z;
  f_finishedAtMs : option Z;
  f_owner : option OwnerId;
  f_heartbeatAtMs : option Z;
  f_claim : option OwnerId;
  f_claimedAtMs : option Z;
  f_parentRunId : option string;
  f_cancelRequestedAtMs : option Z;
  f_lineageId : option string;
  f_roundOrdinal : option Z;
  f_waitingReason : option string;
  f_waitingWakeAtMs : option Z;
  f_waitingToken : option string;
  f_stateJson : string
}.

Record AttemptFoldRow := MkAttemptFoldRow {
  g_runId : string;
  g_stepKeyDigest : string;
  g_attempt : Z;
  g_state : string;
  g_startedAtMs : Z;
  g_finishedAtMs : option Z;
  g_checkpointJson : option string;
  g_errorJson : option string;
  g_outcomeJson : option string;
  g_metaJson : string
}.

Record State := MkState {
  st_runs : gmap string RunFoldRow;
  st_attempts : gmap string AttemptFoldRow
}.

Definition terminalStatuses : list string := ["completed"; "failed"; "cancelled"].

Definition initial : State := MkState ∅ ∅.

Definition set_run (runId : string) (row : RunFoldRow) (s : State) : State :=
  MkState (<[runId := row]> (st_runs s)) (st_attempts s).
Definition set_attempt (key : string) (row : AttemptFoldRow) (s : State) : State :=
  MkState (st_runs s) (<[key := row]> (st_attempts s)).

(** ** Reading a payload *)

(** [Record<string, unknown>]. *)
Definition fields : Type := list (string * json).

Definition asRecord (value : option json) : option fields :=
  match value with Some (JObj fs) => Some fs | _ => None end.

Definition own (record : fields) (key : string) : bool := negb (is_null (assoc key record)).

Definition stringOrNull (value : option json) : option string :=
  match value with Some (JStr s) => Some s | _ => None end.

Definition numberOrNull (value : option json) : option Z :=
  match value with Some (JNum n) => if is_safe_integer n then Some n else None | _ => None end.

Definition ownerFrom (value : option json) : option OwnerId :=
  match asRecord value with
  | None => None
  | Some record =>
      match assoc "hostId" record, assoc "pid" record, assoc "nonce" record with
      | Some (JStr h), Some (JNum p), Some (JStr n) =>
          if is_safe_integer p then Some (MkOwnerId h p n) else None
      | _, _, _ => None
      end
  end.

Definition sameOwnerOrNull (left : option OwnerId) (right : OwnerId) : bool :=
  match left with Some l => sameOwner l right | None => false end.

Section Fold.
Context {J : JsonText}.

Definition foldEncodeJson (value : json) : option string := Some (stringify value).

(** [undefined] is [None], [null] is [Some None]. *)
Definition jsonColumn (payload : fields) (valueKey jsonKey : string) : option (option string) :=
  match assoc jsonKey payload with
  | Some (JStr exact) => Some (Some exact)
  | _ => match assoc valueKey payload with
         | None => None
         | Some v => Some (foldEncodeJson v)
         end
  end.

(** [patchJson], for the nullable columns: the fallback is [null]. *)
Definition patchJson (payload : fields) (valueKey jsonKey : string) (current onFailure : option string)
    : option string :=
  match assoc valueKey payload with
  | None => current
  | Some v =>
      match assoc jsonKey payload with
      | Some (JStr exact) => Some exact
      | _ => match foldEncodeJson v with None => onFailure | Some encoded => Some encoded end
      end
  end.

Definition attemptKey (runId stepKeyDigest : string) (attempt : Z) : string :=
  len_prefix runId +:+ len_prefix stepKeyDigest +:+ pretty attempt.

(** ** Run events *)

Definition set_fold_waiting (reason : option string) (wakeAt : option Z) (token : option string)
    (row : RunFoldRow) : RunFoldRow :=
  MkRunFoldRow (f_runId row) (f_status row) (f_createdAtMs row) (f_startedAtMs row) (f_finishedAtMs row)
    (f_owner row) (f_heartbeatAtMs row) (f_claim row) (f_claimedAtMs row) (f_parentRunId row)
    (f_cancelRequestedAtMs row) (f_lineageId row) (f_roundOrdinal row) reason wakeAt token
    (f_stateJson row).

Definition setWaiting (row : RunFoldRow) (waiting : option json) : RunFoldRow :=
  match waiting with
  | Some JNull => set_fold_waiting None None None row
  | _ => match asRecord waiting with
         | Some record =>
             match assoc "reason" record with
             | Some (JStr reason) =>
                 set_fold_waiting (Some reason) (numberOrNull (assoc "wakeAt" record))
                   (stringOrNull (assoc "token" record)) row
             | _ => row
             end
         | None => row
         end
  end.

Definition fold_created (runId : string) (payload : fields) : option RunFoldRow :=
  match numberOrNull (assoc "createdAtMs" payload), assoc "stateJson" payload with
  | Some createdAtMs, Some (JStr stateJson) =>
      Some (MkRunFoldRow runId "pending" createdAtMs None None None None None None
              (stringOrNull (assoc "parentRunId" payload)) None
              (stringOrNull (assoc "lineageId" payload)) (numberOrNull (assoc "roundOrdinal" payload))
              None None None stateJson)
  | _, _ => None
  end.

Definition fold_snapshot (runId : string) (payload : fields) : option RunFoldRow :=
  match assoc "status" payload, numberOrNull (assoc "createdAtMs" payload), assoc "stateJson" payload with
  | Some (JStr status), Some createdAtMs, Some (JStr stateJson) =>
      let waiting := if own payload "waiting" then asRecord (assoc "waiting" payload) else None in
      Some (MkRunFoldRow runId status createdAtMs (numberOrNull (assoc "startedAtMs" payload))
              (numberOrNull (assoc "finishedAtMs" payload)) (ownerFrom (assoc "owner" payload))
              (numberOrNull (assoc "heartbeatAtMs" payload)) (ownerFrom (assoc "claim" payload))
              (numberOrNull (assoc "claimedAtMs" payload)) (stringOrNull (assoc "parentRunId" payload))
              (numberOrNull (assoc "cancelRequestedAtMs" payload))
              (stringOrNull (assoc "lineageId" payload)) (numberOrNull (assoc "roundOrdinal" payload))
              (match waiting with Some w => stringOrNull (assoc "reason" w) | None => None end)
              (match waiting with Some w => numberOrNull (assoc "wakeAt" w) | None => None end)
              (match waiting with Some w => stringOrNull (assoc "token" w) | None => None end)
              stateJson)
  | _, _, _ => None
  end.

Definition set_fold_cancel (requestedAtMs : option Z) (row : RunFoldRow) : RunFoldRow :=
  MkRunFoldRow (f_runId row) (f_status row) (f_createdAtMs row) (f_startedAtMs row) (f_finishedAtMs row)
    (f_owner row) (f_heartbeatAtMs row) (f_claim row) (f_claimedAtMs row) (f_parentRunId row)
    requestedAtMs (f_lineageId row) (f_roundOrdinal row) (f_waitingReason row) (f_waitingWakeAtMs row)
    (f_waitingToken row) (f_stateJson row).

Definition set_fold_state (stateJson : string) (row : RunFoldRow) : RunFoldRow :=
  MkRunFoldRow (f_runId row) (f_status row) (f_createdAtMs row) (f_startedAtMs row) (f_finishedAtMs row)
    (f_owner row) (f_heartbeatAtMs row) (f_claim row) (f_claimedAtMs row) (f_parentRunId row)
    (f_cancelRequestedAtMs row) (f_lineageId row) (f_roundOrdinal row) (f_waitingReason row)
    (f_waitingWakeAtMs row) (f_waitingToken row) stateJson.

Definition fold_transitioned (row : RunFoldRow) (payload : fields) : RunFoldRow :=
  let stateJson := match assoc "stateJson" payload with Some (JStr s) => s | _ => f_stateJson row end in
  let transitioned :=
    match assoc "status" payload, numberOrNull (assoc "atMs" payload) with
    | Some (JStr status), Some atMs =>
        if bool_decide (status = "running")
        then MkRunFoldRow (f_runId row) status (f_createdAtMs row)
               (coalesce (f_startedAtMs row) (Some atMs)) None (f_owner row) (f_heartbeatAtMs row)
               (f_claim row) (f_claimedAtMs row) (f_parentRunId row) (f_cancelRequestedAtMs row)
               (f_lineageId row) (f_roundOrdinal row) (f_waitingReason row) (f_waitingWakeAtMs row)
               (f_waitingToken row) stateJson
        else MkRunFoldRow (f_runId row) status (f_createdAtMs row) (f_startedAtMs row)
               (if bool_decide (status ∈ terminalStatuses) then Some atMs else None) None None None None
               (f_parentRunId row) (f_cancelRequestedAtMs row) (f_lineageId row) (f_roundOrdinal row)
               (f_waitingReason row) (f_waitingWakeAtMs row) (f_waitingToken row) stateJson
    | _, _ => set_fold_state stateJson row
    end in
  if own payload "waiting" then setWaiting transitioned (assoc "waiting" payload) else transitioned.

Definition applyRunEvent (state : State) (entry : Entry) (payload : fields) : State :=
  let runId := en_runId entry in
  if bool_decide (en_eventType entry = "flows.run.created")
  then match fold_created runId payload with Some row => set_run runId row state | None => state end
  else if bool_decide (en_eventType entry = "flows.run.snapshot")
  then match fold_snapshot runId payload with Some row => set_run runId row state | None => state end
  else
    match st_runs state !! runId with
    | None => state
    | Some row =>
        if bool_decide (en_eventType entry = "flows.run.cancel-requested")
        then match numberOrNull (assoc "requestedAtMs" payload) with
             | Some requestedAtMs => set_run runId (set_fold_cancel (Some requestedAtMs) row) state
             | None => state
             end
        else if bool_decide (en_eventType entry = "flows.run.transitioned")
        then set_run runId (fold_transitioned row payload) state
        else state
    end.

(** ** Consensus events *)

Definition set_fold_lease (owner : option OwnerId) (heartbeatAtMs : option Z) (claim : option OwnerId)
    (claimedAtMs : option Z) (row : RunFoldRow) : RunFoldRow :=
  MkRunFoldRow (f_runId row) (f_status row) (f_createdAtMs row) (f_startedAtMs row) (f_finishedAtMs row)
    owner heartbeatAtMs claim claimedAtMs (f_parentRunId row) (f_cancelRequestedAtMs row)
    (f_lineageId row) (f_roundOrdinal row) (f_waitingReason row) (f_waitingWakeAtMs row)
    (f_waitingToken row) (f_stateJson row).

Definition fold_consensus (eventType : string) (row : RunFoldRow) (owner : OwnerId)
    (grantedAtMs : option Z) : option RunFoldRow :=
  if bool_decide (eventType = "flows.consensus.claimed")
     || bool_decide (eventType = "flows.consensus.stolen")
  then Some (set_fold_lease (f_owner row) (f_heartbeatAtMs row) (Some owner) grantedAtMs row)
  else if bool_decide (eventType = "flows.consensus.activated")
  then Some (set_fold_lease (Some owner) grantedAtMs None None row)
  else if bool_decide (eventType = "flows.consensus.released")
  then Some (set_fold_lease
               (if sameOwnerOrNull (f_owner row) owner then None else f_owner row)
               (if sameOwnerOrNull (f_owner row) owner then None else f_heartbeatAtMs row)
               (if sameOwnerOrNull (f_claim row) owner then None else f_claim row)
               (if sameOwnerOrNull (f_claim row) owner then None else f_claimedAtMs row) row)
  else if bool_decide (eventType = "flows.consensus.expired")
  then Some (set_fold_lease (f_owner row) (f_heartbeatAtMs row)
               (if sameOwnerOrNull (f_claim row) owner then None else f_claim row)
               (if sameOwnerOrNull (f_claim row) owner then None else f_claimedAtMs row) row)
  else None.

Definition applyConsensusEvent (state : State) (entry : Entry) (payload : fields) : State :=
  match st_runs state !! en_runId entry, ownerFrom (assoc "owner" payload) with
  | Some row, Some owner =>
      match fold_consensus (en_eventType entry) row owner (numberOrNull (assoc "grantedAtMs" payload)) with
      | Some row => set_run (en_runId entry) row state
      | None => state
      end
  | _, _ => state
  end.

(** ** Attempt events *)

Definition or_null {A} (c : option (option A)) : option A :=
  match c with Some (Some x) => Some x | _ => None end.

Definition fold_put (runId stepKeyDigest : string) (attempt : Z) (payload : fields)
    : option AttemptFoldRow :=
  match assoc "state" payload, numberOrNull (assoc "startedAtMs" payload),
        jsonColumn payload "meta" "metaJson" with
  | Some (JStr rowState), Some startedAtMs, Some (Some metaJson) =>
      Some (MkAttemptFoldRow runId stepKeyDigest attempt rowState startedAtMs
              (numberOrNull (assoc "finishedAtMs" payload))
              (or_null (jsonColumn payload "checkpoint" "checkpointJson"))
              (or_null (jsonColumn payload "error" "errorJson"))
              (or_null (jsonColumn payload "outcome" "outcomeJson")) metaJson)
  | _, _, _ => None
  end.

Definition fold_checkpointed (row : AttemptFoldRow) (checkpointJson : option string) : AttemptFoldRow :=
  MkAttemptFoldRow (g_runId row) (g_stepKeyDigest row) (g_attempt row) (g_state row) (g_startedAtMs row)
    (g_finishedAtMs row) checkpointJson (g_errorJson row) (g_outcomeJson row) (g_metaJson row).

Definition fold_meta (payload : fields) (row : AttemptFoldRow) : string :=
  default (g_metaJson row)
    (patchJson payload "meta" "metaJson" (Some (g_metaJson row)) (Some (g_metaJson row))).

Definition fold_finished (row : AttemptFoldRow) (payload : fields) : option AttemptFoldRow :=
  match assoc "state" payload, numberOrNull (assoc "finishedAtMs" payload) with
  | Some (JStr rowState), Some finishedAtMs =>
      Some (MkAttemptFoldRow (g_runId row) (g_stepKeyDigest row) (g_attempt row) rowState
              (g_startedAtMs row) (Some finishedAtMs) (g_checkpointJson row)
              (patchJson payload "error" "errorJson" (g_errorJson row) None)
              (patchJson payload "outcome" "outcomeJson" (g_outcomeJson row) None)
              (fold_meta payload row))
  | _, _ => None
  end.

Definition fold_patched (row : AttemptFoldRow) (payload : fields) : AttemptFoldRow :=
  MkAttemptFoldRow (g_runId row) (g_stepKeyDigest row) (g_attempt row) (g_state row) (g_startedAtMs row)
    (g_finishedAtMs row) (patchJson payload "checkpoint" "checkpointJson" (g_checkpointJson row) None)
    (patchJson payload "error" "errorJson" (g_errorJson row) None)
    (patchJson payload "outcome" "outcomeJson" (g_outcomeJson row) None) (fold_meta payload row).

Definition applyAttemptEvent (state : State) (entry : Entry) (payload : fields) : State :=
  match assoc "stepKeyDigest" payload, numberOrNull (assoc "attempt" payload) with
  | Some (JStr stepKeyDigest), Some attempt =>
      let key := attemptKey (en_runId entry) stepKeyDigest attempt in
      if bool_decide (en_eventType entry = "flows.attempt.put")
         || bool_decide (en_eventType entry = "flows.attempt.snapshot")
      then match fold_put (en_runId entry) stepKeyDigest attempt payload with
           | Some row => set_attempt key row state
           | None => state
           end
      else
        match st_attempts state !! key with
        | None => state
        | Some row =>
            if bool_decide (en_eventType entry = "flows.attempt.checkpointed")
            then match jsonColumn payload "checkpoint" "checkpointJson" with
                 | Some checkpointJson => set_attempt key (fold_checkpointed row checkpointJson) state
                 | None => state
                 end
            else if bool_decide (en_eventType entry = "flows.attempt.finished")
            then match fold_finished row payload with
                 | Some row => set_attempt key row state
                 | None => state
                 end
            else if bool_decide (en_eventType entry = "flows.attempt.patched")
            then set_attempt key (fold_patched row payload) state
            else state
        end
  | _, _ => state
  end.

(** ** The reducer *)

Definition reduceSync (state : State) (entry : Entry) : State :=
  match asRecord (Some (en_payload entry)) with
  | None => state
  | Some payload =>
      if starts_with "flows.run." (en_eventType entry) then applyRunEvent state entry payload
      else if starts_with "flows.consensus." (en_eventType entry)
      then applyConsensusEvent state entry payload
      else if starts_with "flows.attempt." (en_eventType entry)
      then applyAttemptEvent state entry payload
      else state
  end.

Definition foldEntries (entries : list Entry) : State := fold_left reduceSync entries initial.

(** The reducers of the two projections. *)
Definition runProjection (runs : gmap string RunFoldRow) (entry : Entry) : gmap string RunFoldRow :=
  match asRecord (Some (en_payload entry)) with
  | None => runs
  | Some payload =>
      let state := MkState runs ∅ in
      if starts_with "flows.run." (en_eventType entry) then st_runs (applyRunEvent state entry payload)
      else if starts_with "flows.consensus." (en_eventType entry)
      then st_runs (applyConsensusEvent state entry payload)
      else runs
  end.

Definition attemptProjection (attempts : gmap string AttemptFoldRow) (entry : Entry)
    : gmap string AttemptFoldRow :=
  match asRecord (Some (en_payload entry)) with
  | None => attempts
  | Some payload =>
      if starts_with "flows.attempt." (en_eventType entry)
      then st_attempts (applyAttemptEvent (MkState ∅ attempts) entry payload)
      else attempts
  end.

End Fold.

(** ** Snapshots

    [snapshot] appends one [flows.run.snapshot] with the run's row and one
    [flows.attempt.snapshot] per attempt row, in one transaction. *)

Section snapshot.
Context {J : JsonText} {C : Consensus} (opts : ValidatedOptions).

Definition snapshotOwner (c : OwnerCols) : json :=
  match c with
  | MkOwnerCols (Some h) (Some p) (Some n) =>
      JObj [("hostId", JStr h); ("pid", JNum p); ("nonce", JStr n)]
  | _ => JNull
  end.

Definition run_snapshot_payload (run : RunRow) : fields :=
  [("status", JStr (status_name (r_status run)));
   ("createdAtMs", JNum (r_createdAtMs run));
   ("startedAtMs", jnum_or_null (r_startedAtMs run));
   ("finishedAtMs", jnum_or_null (r_finishedAtMs run));
   ("owner", snapshotOwner (r_owner run));
   ("heartbeatAtMs", jnum_or_null (r_heartbeatAtMs run));
   ("claim", snapshotOwner (r_claim run));
   ("claimedAtMs", jnum_or_null (r_claimedAtMs run));
   ("parentRunId", jstr_or_null (r_parentRunId run));
   ("cancelRequestedAtMs", jnum_or_null (r_cancelRequestedAtMs run));
   ("lineageId", jstr_or_null (r_lineageId run));
   ("roundOrdinal", jnum_or_null (r_roundOrdinal run));
   ("waiting", match r_waitingReason run with
               | None => JNull
               | Some reason => JObj [("reason", JStr reason);
                                      ("wakeAt", jnum_or_null (r_waitingWakeAtMs run));
                                      ("token", jstr_or_null (r_waitingToken run))]
               end);
   ("stateJson", JStr (r_stateJson run))].

Definition attempt_snapshot_payload (row : AttemptKey * AttemptRow) : fields :=
  [("stepKeyDigest", JStr row.1.1.2);
   ("attempt", JNum row.1.2);
   ("state", JStr (a_state row.2));
   ("startedAtMs", JNum (a_startedAtMs row.2));
   ("finishedAtMs", jnum_or_null (a_finishedAtMs row.2));
   ("checkpointJson", jstr_or_null (a_checkpointJson row.2));
   ("errorJson", jstr_or_null (a_errorJson row.2));
   ("outcomeJson", jstr_or_null (a_outcomeJson row.2));
   ("metaJson", JStr (a_metaJson row.2))].

Definition snapshot_input (runId eventType : string) (payload : fields) : Input :=
  MkInput runId "flows/run-store/fold/snapshot" None eventType (JObj payload) (Some (lineage_meta runId)).

(** [ORDER BY step_key_digest, attempt]. *)
Definition attempt_le (a b : AttemptKey * AttemptRow) : Prop :=
  if bool_decide (a.1.1.2 = b.1.1.2) then (a.1.2 ≤ b.1.2)%Z else str_le a.1.1.2 b.1.1.2.
#[local] Instance attempt_le_dec a b : Decision (attempt_le a b).
Proof. unfold attempt_le. case_bool_decide; apply _. Defined.

Definition attempts_of (runId : string) (attempts : gmap AttemptKey AttemptRow)
    : list (AttemptKey * AttemptRow) :=
  merge_sort attempt_le
    (List.filter (λ row : AttemptKey * AttemptRow, bool_decide (row.1.1.1 = runId)) (map_to_list attempts)).

Definition snapshot (runId : string) : M () :=
  transact opts (
    run <- get_run runId ;;
    match run with
    | None => ret tt
    | Some run =>
        emitDurable opts (snapshot_input runId "flows.run.snapshot" (run_snapshot_payload run)) None ;;
        attempts <- gets (λ w, attempts_of runId (db_attempts (w_db w))) ;;
        for_each (λ row, emitDurable opts
          (snapshot_input runId "flows.attempt.snapshot" (attempt_snapshot_payload row)) None) attempts ;;
        ret tt
    end).
End snapshot.
