(* ===== verification/FoldProps.v ===== *)
(** The write-ahead contract of the run store: replaying a run's journal gives
    back its row.

    [history] is what the journal's reads return for a run; [fold_run] replays
    it.  The heartbeat is the one column no event carries. *)

From S2P Require Export Fold RunTheorems.

#[local] Open Scope me_scope.

(** ** The committed history of a run *)

Section history.
Context {J : JsonText}.

Definition decode_entry (row : JournalRow) : option Entry :=
  match parse (j_payloadJson row), parse (j_metaJson row) with
  | Some payload, Some meta =>
      if bool_decide (0 ≤ j_seq row ∧ 0 ≤ j_sourceSeq row ∧ 0 ≤ j_emittedAtMs row)%Z
      then Some (MkEntry (j_runId row) (j_seq row) (j_eventId row) (j_sourceId row)
                   (j_sourceSeq row) (j_emittedAtMs row) (j_eventType row) payload meta)
      else None
  | _, _ => None
  end.

Lemma decodeRow_decode row w :
  decodeRow row w
  = match decode_entry row with Some e => (inr e, w) | None => (inl (jerror "decode_failed"), w) end.
Proof.
  unfold decodeRow, decode_entry. by repeat case_match.
Qed.

Lemma for_each_decodeRow rows w entries w' :
  for_each decodeRow rows w = (inr entries, w') → entries = omap decode_entry rows ∧ w' = w.
Proof.
  revert entries w'. induction rows as [|row rows IH]; intros entries w' H; simpl in H.
  - by apply ret_inr in H as [-> ->].
  - apply bind_inr in H as (e & w1 & H1 & H). rewrite decodeRow_decode in H1.
    destruct (decode_entry row) as [e'|] eqn:He; [|done]. injection H1 as <- <-.
    apply bind_inr in H as (es & w1 & H1 & H). apply IH in H1 as [-> ->].
    apply ret_inr in H as [-> ->]. simpl. by rewrite He.
Qed.

Definition history (r : string) (w : World) : list Entry :=
  omap decode_entry (order_by_seq (List.filter (of_run r) (db_events (w_db w)))).

Lemma order_by_seq_sorted l : StronglySorted seq_lt l → order_by_seq l = l.
Proof.
  intros Hs. unfold order_by_seq.
  assert (Transitive seq_le) by (intros x y z; unfold seq_le; lia).
  assert (Total seq_le) by (intros x y; unfold seq_le; lia).
  apply StronglySorted_unique_strong with (R := seq_le).
  - assert (Hinj : ∀ x y, x ∈ l → y ∈ l → j_seq x = j_seq y → x = y).
    { clear -Hs. induction Hs as [|x l Hl IH Hx]; [by intros ? ? ?%not_elem_of_nil|].
      rewrite Forall_forall in Hx. unfold seq_lt in Hx.
      intros a b [->|Ha]%elem_of_cons [->|Hb]%elem_of_cons Heq; [done| | |by apply IH].
      - apply Hx in Hb. lia.
      - apply Hx in Ha. lia. }
    intros x y Hx Hy. rewrite merge_sort_Permutation in Hx. unfold seq_le. intros. apply Hinj; [done..|lia].
  - by apply StronglySorted_merge_sort.
  - clear -Hs. induction Hs as [|x l Hl IH Hx]; constructor; [done|].
    eapply Forall_impl; [exact Hx|]. unfold seq_lt, seq_le. intros y; simpl. lia.
  - apply merge_sort_Permutation.
Qed.

Lemma history_ordered r w :
  journal_ordered w → history r w = omap decode_entry (List.filter (of_run r) (db_events (w_db w))).
Proof. intros Ho. unfold history. by rewrite order_by_seq_sorted. Qed.

Definition fold_run (r : string) (w : World) : option RunFoldRow :=
  st_runs (foldEntries (history r w)) !! r.

(** ** The row the fold should give *)

Definition row_fold (r : string) (x : RunRow) : RunFoldRow :=
  MkRunFoldRow r (status_name (r_status x)) (r_createdAtMs x) (r_startedAtMs x) (r_finishedAtMs x)
    (default None (ownerFromColumns (r_owner x))) (r_heartbeatAtMs x)
    (default None (ownerFromColumns (r_claim x))) (r_claimedAtMs x) (r_parentRunId x)
    (r_cancelRequestedAtMs x) (r_lineageId x) (r_roundOrdinal x) (r_waitingReason x)
    (r_waitingWakeAtMs x) (r_waitingToken x) (r_stateJson x).

(** Every column but the heartbeat. *)
Definition forget_heartbeat (f : RunFoldRow) : RunFoldRow :=
  set_fold_lease (f_owner f) None (f_claim f) (f_claimedAtMs f) f.

Definition folds_to (r : string) (f : option RunFoldRow) (row : option RunRow) : Prop :=
  forget_heartbeat <$> f = (λ x, forget_heartbeat (row_fold r x)) <$> row.

(** A running run has a start time. *)
Definition started (row : option RunRow) : Prop :=
  ∀ x, row = Some x → r_status x = Running → is_Some (r_startedAtMs x).
End history.

(** ** One event of the store, replayed *)

Section replay.
Context {J : JsonText} (opts : ValidatedOptions).
Implicit Types (s : State) (r : string).

(** The entry an accepted input is read back as, up to its sequences. *)
Record entry_of (input : Input) (e : Entry) : Prop := MkEntryOf {
  eo_runId : en_runId e = in_runId input;
  eo_eventType : en_eventType e = in_eventType input;
  eo_payload : en_payload e = scrubbed opts input (in_payload input)
}.

Lemma event_of_decodes t input q :
  event_of opts t input q → check_event q = true →
  ∃ e, decode_entry q = Some e ∧ entry_of input e ∧ stamp_ok t = true.
Proof.
  intros (seq & ss & ->) (_ & Hs & _ & _ & Hss & Ht & _)%check_event_spec. simpl in *.
  unfold decode_entry. cbn [row_of j_payloadJson j_metaJson]. rewrite !parse_stringify.
  rewrite bool_decide_true by (simpl; apply stamp_ok_spec in Hs, Hss, Ht; lia).
  eexists. split; [done|]. split; [by split|done].
Qed.

Lemma stamp_safe n : stamp_ok n = true → is_safe_integer n = true.
Proof.
  rewrite stamp_ok_spec. unfold is_safe_integer. rewrite bool_decide_eq_true.
  unfold max_safe_integer. lia.
Qed.

Lemma numberOrNull_stamp n : stamp_ok n = true → numberOrNull (Some (JNum n)) = Some n.
Proof. intros H. unfold numberOrNull. by rewrite stamp_safe. Qed.

Lemma numberOrNull_col c : col_check stamp_ok c = true → numberOrNull (Some (jnum_or_null c)) = c.
Proof. destruct c as [n|]; [|done]. apply numberOrNull_stamp. Qed.

Lemma stringOrNull_col c : stringOrNull (Some (jstr_or_null c)) = c.
Proof. by destruct c. Qed.

(** The journal stores the owners of consensus events as they are. *)
Definition clean_owner (o : OwnerId) : Prop :=
  is_safe_integer (pid o) = true
  ∧ ∀ g, let payload := JObj [("owner", owner_json o); ("grantedAtMs", jnum_or_null g)] in
         v_redact opts payload = payload.

Lemma ownerFrom_json o : is_safe_integer (pid o) = true → ownerFrom (Some (owner_json o)) = Some o.
Proof. intros H. unfold ownerFrom. simpl. rewrite H. by destruct o. Qed.

(** A run event reduces by [applyRunEvent], whatever the redactor. *)
Lemma reduce_run_event s e r ty payload :
  entry_of (run_event_input r ty payload) e → starts_with "flows.run." ty = true →
  reduceSync s e = applyRunEvent s e payload.
Proof.
  intros [_ Hty Hp] Hpre. simpl in Hty. unfold reduceSync.
  assert (Hv : isVerbatimEventType ty = true).
  { unfold isVerbatimEventType. apply existsb_exists. exists "flows.run.". split; [|done].
    by repeat first [left; reflexivity|right]. }
  rewrite Hp. unfold scrubbed. cbn [in_eventType run_event_input in_payload]. rewrite Hv.
  cbn [id asRecord]. by rewrite Hty, Hpre.
Qed.

(** A consensus event moves the lease columns of its run's row. *)
Lemma reduce_transition s e r tr o g fr :
  entry_of (transition_input r tr o g) e → clean_owner o → st_runs s !! r = Some fr →
  st_runs (reduceSync s e) !! r
  = match fold_consensus ("flows.consensus." +:+ tr) fr o (numberOrNull (Some (jnum_or_null g))) with
    | Some fr' => Some fr'
    | None => Some fr
    end.
Proof.
  intros [Hr Hty Hp] [Hpid Hred] Hfr. simpl in Hr, Hty.
  assert (Hpay : en_payload e = JObj [("owner", owner_json o); ("grantedAtMs", jnum_or_null g)]).
  { rewrite Hp. unfold scrubbed. simpl. apply (Hred g). }
  unfold reduceSync. rewrite Hpay. cbn [asRecord]. rewrite Hty.
  change (starts_with "flows.run." ("flows.consensus." +:+ tr)) with false.
  replace (starts_with "flows.consensus." ("flows.consensus." +:+ tr)) with true by (by destruct tr).
  unfold applyConsensusEvent. rewrite Hr, Hfr.
  change (assoc "owner" _) with (Some (owner_json o)). rewrite ownerFrom_json by done.
  change (assoc "grantedAtMs" _) with (Some (jnum_or_null g)). rewrite Hty.
  destruct (fold_consensus _ _ _ _); [|done]. simpl. by rewrite lookup_insert_eq.
Qed.

Lemma reduce_created s e r t o st :
  entry_of (run_event_input r "flows.run.created" (created_payload t o st)) e →
  stamp_ok t = true → col_check stamp_ok (co_roundOrdinal o) = true →
  st_runs (reduceSync s e) !! r = Some (row_fold r (created_row t o st)).
Proof.
  intros He Ht Hn. rewrite (reduce_run_event s e _ _ _ He) by done.
  destruct He as [Hr Hty _]. unfold applyRunEvent. rewrite Hty, Hr. cbn [in_eventType in_runId run_event_input].
  rewrite bool_decide_true by done. unfold fold_created.
  change (assoc "createdAtMs" _) with (Some (JNum t)). rewrite numberOrNull_stamp by done.
  change (assoc "stateJson" _) with (Some (JStr st)).
  change (assoc "parentRunId" _) with (Some (jstr_or_null (co_parentRunId o))).
  change (assoc "lineageId" _) with (Some (jstr_or_null (co_lineageId o))).
  change (assoc "roundOrdinal" _) with (Some (jnum_or_null (co_roundOrdinal o))).
  rewrite !stringOrNull_col, numberOrNull_col by done. simpl. by rewrite lookup_insert_eq.
Qed.

Lemma reduce_cancel s e r t fr :
  entry_of (run_event_input r "flows.run.cancel-requested" [("requestedAtMs", JNum t)]) e →
  stamp_ok t = true → st_runs s !! r = Some fr →
  st_runs (reduceSync s e) !! r = Some (set_fold_cancel (Some t) fr).
Proof.
  intros He Ht Hfr. rewrite (reduce_run_event s e _ _ _ He) by done.
  destruct He as [Hr Hty _]. unfold applyRunEvent. rewrite Hty, Hr. cbn [in_eventType in_runId run_event_input].
  rewrite Hfr. change (assoc "requestedAtMs" _) with (Some (JNum t)).
  rewrite numberOrNull_stamp by done. simpl. by rewrite lookup_insert_eq.
Qed.

Lemma reduce_transitioned s e r st t sj fr :
  entry_of (run_event_input r "flows.run.transitioned" (transitioned_payload st t sj)) e →
  st_runs s !! r = Some fr →
  st_runs (reduceSync s e) !! r = Some (fold_transitioned fr (transitioned_payload st t sj)).
Proof.
  intros He Hfr. rewrite (reduce_run_event s e _ _ _ He) by done.
  destruct He as [Hr Hty _]. unfold applyRunEvent. rewrite Hty, Hr. cbn [in_eventType in_runId run_event_input].
  rewrite Hfr. simpl. by rewrite lookup_insert_eq.
Qed.

Lemma fold_transitioned_running fr t sj :
  stamp_ok t = true →
  fold_transitioned fr (transitioned_payload Running t sj)
  = MkRunFoldRow (f_runId fr) "running" (f_createdAtMs fr) (coalesce (f_startedAtMs fr) (Some t)) None
      (f_owner fr) (f_heartbeatAtMs fr) (f_claim fr) (f_claimedAtMs fr) (f_parentRunId fr)
      (f_cancelRequestedAtMs fr) (f_lineageId fr) (f_roundOrdinal fr) (f_waitingReason fr)
      (f_waitingWakeAtMs fr) (f_waitingToken fr) (default (f_stateJson fr) sj).
Proof.
  intros Ht. unfold fold_transitioned.
  change (assoc "status" _) with (Some (JStr "running")).
  change (assoc "atMs" _) with (Some (JNum t)). rewrite numberOrNull_stamp by done.
  rewrite bool_decide_true by done. by destruct sj.
Qed.

Lemma fold_transitioned_yield fr st t sj :
  stamp_ok t = true → st ≠ Running →
  fold_transitioned fr (transitioned_payload st t sj)
  = MkRunFoldRow (f_runId fr) (status_name st) (f_createdAtMs fr) (f_startedAtMs fr)
      (if is_terminal st then Some t else None) None None None None (f_parentRunId fr)
      (f_cancelRequestedAtMs fr) (f_lineageId fr) (f_roundOrdinal fr) (f_waitingReason fr)
      (f_waitingWakeAtMs fr) (f_waitingToken fr) (default (f_stateJson fr) sj).
Proof.
  intros Ht Hst. unfold fold_transitioned.
  change (assoc "status" _) with (Some (JStr (status_name st))).
  change (assoc "atMs" _) with (Some (JNum t)). rewrite numberOrNull_stamp by done.
  destruct st; try done; by destruct sj.
Qed.
End replay.

(** Splits the entries of the inputs of a call. *)
Ltac inv_entries :=
  repeat match goal with
         | H : Forall2 _ [] _ |- _ => apply Forall2_nil_inv_l in H as ->
         | H : Forall2 _ (_ :: _) _ |- _ => apply Forall2_cons_inv_l in H as (? & ? & ? & H & ->)
         end; cbn [fold_left].

(** ** The events of one call, replayed *)

Section calls.
Context {J : JsonText} (opts : ValidatedOptions).
Implicit Types (s : State) (r : string) (l : LocalLease).

(** The owners whose leases a call journals are stored as they are. *)
Definition op_clean (op : store_op) : Prop :=
  match op with
  | OClaim _ _ o _ | OActivate _ o _ _ | OAbandon _ o _ | OSteal _ _ o _ _ | OOwn _ _ o _ _
  | OTransition _ o _ _ _ | ORecover _ o _ _ _ _ => clean_owner opts o
  | _ => True
  end.

(** The one call that writes a row without its event: an activation that finds
    its snapshot moved drops the claim. *)
Definition drops_claim (op : store_op) (out : option Outcome) : bool :=
  match op, out with OActivate _ _ _ _, Some SnapshotChanged => true | _, _ => false end.

Definition with_heartbeat (h : option Z) (f : RunFoldRow) : RunFoldRow :=
  set_fold_lease (f_owner f) h (f_claim f) (f_claimedAtMs f) f.

Lemma forget_eq f g :
  forget_heartbeat f = forget_heartbeat g → f = with_heartbeat (f_heartbeatAtMs f) g.
Proof.
  destruct f, g. unfold forget_heartbeat, with_heartbeat, set_fold_lease. simpl. by intros [=]; subst.
Qed.

Lemma folds_to_some r f x : folds_to r f (Some x) → ∃ h, f = Some (with_heartbeat h (row_fold r x)).
Proof.
  unfold folds_to. destruct f as [f|]; [|done]. intros H. exists (f_heartbeatAtMs f). f_equal.
  apply forget_eq, (inj Some). exact H.
Qed.

Lemma folds_to_none r f : folds_to r f None → f = None.
Proof. unfold folds_to. by destruct f. Qed.

Lemma folds_to_with r h x : folds_to r (Some (with_heartbeat h (row_fold r x))) (Some x).
Proof. done. Qed.

Lemma cols_default o : default None (ownerFromColumns (owner_cols o)) = Some o.
Proof. by destruct o. Qed.

Lemma check_run_stamps r x : check_run r x = true →
  col_check stamp_ok (r_claimedAtMs x) = true ∧ col_check stamp_ok (r_heartbeatAtMs x) = true
  ∧ col_check stamp_ok (r_cancelRequestedAtMs x) = true ∧ stamp_ok (r_createdAtMs x) = true
  ∧ col_check stamp_ok (r_roundOrdinal x) = true.
Proof. unfold check_run. rewrite !andb_true_iff. tauto. Qed.

(** The claimant of a row is not its owner, as the fold sees them. *)
Lemma claimant_not_owner r x l c t :
  check_run r x = true → mirrors (Some x) l → rowMatchesClaim x c t = true →
  sameOwnerOrNull (default None (ownerFromColumns (r_owner x))) c = false.
Proof.
  intros Hchk Hm [Hc _]%rowMatchesClaim_spec. pose proof (mi_distinct _ _ Hm x c eq_refl Hc) as Hne.
  destruct (check_run_owner _ _ Hchk) as [(_ & o & h & Ho & _)|(_ & -> & _)]; [|done].
  rewrite Ho, cols_default. simpl. rewrite sameOwner_decide. apply bool_decide_eq_false.
  intros ->. by rewrite Ho in Hne.
Qed.

(** Replays the first event: [Hf] says what row the state before it folds to,
    [H] what the event is. *)
Ltac replay_transition Hf :=
  match goal with
  | H : entry_of _ (transition_input _ _ _ _) ?e |- context [reduceSync ?s ?e] =>
      lazymatch type of Hf with
      | st_runs s !! _ = _ => eapply (reduce_transition opts s e) in Hf; [|exact H|eassumption]; clear H
      end
  end.
Ltac replay_lifecycle Hf :=
  match goal with
  | H : entry_of _ (run_event_input _ "flows.run.transitioned" _) ?e |- context [reduceSync ?s ?e] =>
      lazymatch type of Hf with
      | st_runs s !! _ = _ => eapply (reduce_transitioned opts s e) in Hf; [|exact H]; clear H
      end
  end.

Lemma fold_claimed fr ty o g : ty = "claimed" ∨ ty = "stolen" →
  fold_consensus ("flows.consensus." +:+ ty) fr o g
  = Some (set_fold_lease (f_owner fr) (f_heartbeatAtMs fr) (Some o) g fr).
Proof. by intros [-> | ->]. Qed.
Lemma fold_activated fr o g :
  fold_consensus ("flows.consensus." +:+ "activated") fr o g
  = Some (set_fold_lease (Some o) g None None fr).
Proof. done. Qed.
Lemma fold_released fr o g :
  fold_consensus ("flows.consensus." +:+ "released") fr o g
  = Some (set_fold_lease
            (if sameOwnerOrNull (f_owner fr) o then None else f_owner fr)
            (if sameOwnerOrNull (f_owner fr) o then None else f_heartbeatAtMs fr)
            (if sameOwnerOrNull (f_claim fr) o then None else f_claim fr)
            (if sameOwnerOrNull (f_claim fr) o then None else f_claimedAtMs fr) fr).
Proof. done. Qed.
Lemma fold_expired fr o g :
  fold_consensus ("flows.consensus." +:+ "expired") fr o g
  = Some (set_fold_lease (f_owner fr) (f_heartbeatAtMs fr)
            (if sameOwnerOrNull (f_claim fr) o then None else f_claim fr)
            (if sameOwnerOrNull (f_claim fr) o then None else f_claimedAtMs fr) fr).
Proof. done. Qed.

Lemma claimed_cols r x c t : check_run r x = true → rowMatchesClaim x c t = true →
  sameOwnerOrNull (default None (ownerFromColumns (r_claim x))) c = true.
Proof.
  intros _ [-> _]%rowMatchesClaim_spec. rewrite cols_default. simpl. apply sameOwner_refl.
Qed.

Ltac same_owner := match goal with H : clean_owner _ ?o |- _ => destruct o; reflexivity end.

(** What one call does to the row, its events do to the fold. *)
Lemma fold_step r now row l op out row' l' ins s es :
  (∀ x, row = Some x → check_run r x = true) → (∀ x, row' = Some x → check_run r x = true) →
  mirrors row l → op_clean op → op_run op = r → started row →
  folds_to r (st_runs s !! r) row → row_effect now row l op out row' l' ins →
  Forall2 (entry_of opts) ins es → (ins ≠ [] → stamp_ok now = true) → drops_claim op out = false →
  started row' ∧ folds_to r (st_runs (fold_left reduceSync es s) !! r) row'.
Proof.
  intros Hchk Hchk' Hm Hclean Hr Hst Hf He Hes Hnow Hdrop.
  destruct He; simpl in Hr, Hclean, Hdrop; simplify_eq; inv_entries; try done;
    try (specialize (Hnow ltac:(done)));
    try (match goal with H : folds_to _ _ (Some _) |- _ => apply folds_to_some in H as [h0 Hf] end);
    try (specialize (Hchk _ eq_refl)); specialize (Hchk' _ eq_refl);
    pose proof (check_run_stamps _ _ Hchk') as (Hs1 & Hs2 & Hs3 & Hs4 & Hs5); simpl in Hs1, Hs2, Hs3, Hs4, Hs5.
  - (* create *) split; [by intros ? [= <-]|].
    by erewrite reduce_created by done.
  - (* cancel *) split; [intros ? [= <-]; exact (Hst _ eq_refl)|].
    by erewrite reduce_cancel by done.
  - (* claim *) split; [intros ? [= <-]; simpl; match goal with H : _ ∨ _ |- _ => by destruct H as [-> | ->] end|].
    erewrite reduce_transition by done. rewrite fold_claimed, numberOrNull_col by auto. by same_owner.
  - (* own *) split; [intros ? [= <-] _; simpl; by destruct (r_startedAtMs _)|].
    match goal with H : own_admissible _ _ _ = true |- _ =>
      destruct (own_admissible_free _ _ _ _ Hchk H) as (Hcl & Hat & _) end.
    replay_transition Hf. rewrite fold_claimed in Hf by (destruct (replaces_owner _ _); auto).
    replay_transition Hf. rewrite fold_activated in Hf.
    replay_lifecycle Hf. rewrite fold_transitioned_running in Hf by done.
    rewrite Hf. unfold folds_to, row_fold, set_row_running. simpl. rewrite Hcl, Hat. by same_owner.
  - (* activate *) split; [intros ? [= <-] _; simpl; by destruct (r_startedAtMs _)|].
    replay_transition Hf. rewrite fold_activated in Hf.
    replay_lifecycle Hf. rewrite fold_transitioned_running in Hf by done.
    rewrite Hf. by same_owner.
  - (* abandon *) split; [intros ? [= <-]; exact (Hst _ eq_refl)|].
    replay_transition Hf. rewrite fold_released in Hf.
    match goal with H : rowMatchesClaim _ _ _ = true |- _ =>
      pose proof (claimant_not_owner _ _ _ _ _ Hchk Hm H); pose proof (claimed_cols _ _ _ _ Hchk H) end.
    rewrite Hf. cbn [with_heartbeat set_fold_lease f_owner f_claim row_fold].
    by repeat match goal with H : sameOwnerOrNull _ _ = _ |- _ => rewrite H; clear H end.
  - (* recover *) split; [intros ? [= <-]; exact (Hst _ eq_refl)|].
    replay_transition Hf. rewrite fold_expired in Hf.
    match goal with H : rowMatchesClaim _ _ _ = true |- _ => pose proof (claimed_cols _ _ _ _ Hchk H) end.
    rewrite Hf. cbn [with_heartbeat set_fold_lease f_owner f_claim row_fold].
    by repeat match goal with H : sameOwnerOrNull _ _ = _ |- _ => rewrite H; clear H end.
  - (* heartbeat *) split; [intros ? [= <-]; exact (Hst _ eq_refl)|]. by rewrite Hf.
  - (* to running *)
    match goal with H : ownedBy _ _ = true |- _ => apply owned_cols in H as [Hrun _] end.
    destruct (Hst _ eq_refl Hrun) as [t0 Ht0].
    split; [intros ? [= <-] _; simpl; by eexists|].
    replay_lifecycle Hf. rewrite fold_transitioned_running in Hf by done.
    rewrite Hf. unfold folds_to, row_fold, set_row_continue. simpl. by rewrite Ht0.
  - (* away *) split; [by intros ? [= <-]|].
    replay_lifecycle Hf. rewrite fold_transitioned_yield in Hf by done.
    replay_transition Hf. rewrite fold_released in Hf. by rewrite Hf.
  - (* steal *) split; [intros ? [= <-]; exact (Hst _ eq_refl)|].
    erewrite reduce_transition by done. rewrite fold_claimed, numberOrNull_col by auto. by same_owner.
Qed.
End calls.

(** ** Executions *)

Section executions.
Context {J : JsonText} {C : Consensus} {L : ConsensusLaws C} {T : Transactional C}
        (opts : ValidatedOptions).

(** The journal of run [r] replays to its row. *)
Definition coherent (w : World) (r : string) : Prop :=
  started (db_runs (w_db w) !! r) ∧ folds_to r (fold_run r w) (db_runs (w_db w) !! r).

Lemma effect_inputs now row l op out row' l' ins :
  row_effect now row l op out row' l' ins → Forall (λ i, in_runId i = op_run op) ins.
Proof. by destruct 1; repeat constructor. Qed.

Lemma filter_run_same r ins now new :
  Forall (λ i, in_runId i = r) ins → Forall2 (event_of opts now) ins new →
  ∀ r', List.filter (of_run r') new = if bool_decide (r' = r) then new else [].
Proof.
  intros Hr H r'. induction H as [|i q ins new (seq & ss & ->) H IH]; [by case_bool_decide|].
  apply Forall_cons in Hr as [Hi Hr]. simpl. rewrite IH by done. unfold of_run. simpl. rewrite Hi.
  repeat case_bool_decide; congruence.
Qed.

Lemma decode_new now ins new :
  Forall2 (event_of opts now) ins new → (∀ q, q ∈ new → check_event q = true) →
  Forall2 (entry_of opts) ins (omap decode_entry new) ∧ (ins ≠ [] → stamp_ok now = true).
Proof.
  induction 1 as [|i q ins new Hq H IH]; intros Hchk; [done|].
  destruct (event_of_decodes opts now i q Hq) as (e & He & Hi & Ht); [apply Hchk; by left|].
  simpl. rewrite He. destruct IH as [IH _]; [intros q' Hq'; apply Hchk; by right|].
  split; [by constructor|done].
Qed.

Lemma call_coherent op out w w' r :
  store_ok w → store_ok w' → (0 ≤ w_clock w)%Z → op_sane op = true → journal_ordered w →
  op_clean opts op → perform_op opts op w = (inr out, w') → drops_claim op out = false →
  coherent w r → journal_ordered w' ∧ coherent w' r.
Proof.
  intros Hok Hok' Hclk Hs Hord Hclean H Hdrop [Hst Hf].
  destruct (tick_or op) as [[t ->]|Hnt].
  { simpl in H. apply bind_inr in H as (u & w1 & H1 & H). apply modify_inr in H1 as [_ ->].
    by apply ret_inr in H as [-> ->]. }
  apply perform_op_effect in H as (row' & l' & ins & Hm & He); [|done..].
  pose proof (mv_ordered _ _ _ _ _ _ _ Hm Hord) as Hord'. split; [done|].
  destruct (mv_events _ _ _ _ _ _ _ Hm) as (new & Hev & Hnew).
  assert (Hhist : history r w' = history r w ++ (if bool_decide (r = op_run op)
                                                 then omap decode_entry new else [])).
  { rewrite !history_ordered, Hev, List.filter_app, omap_app by done. f_equal.
    rewrite (filter_run_same (op_run op) ins _ new) by (done || by eapply effect_inputs).
    by case_bool_decide. }
  unfold coherent, fold_run, foldEntries. rewrite Hhist, fold_left_app. case_bool_decide as Hr.
  - destruct (decode_new _ _ _ Hnew) as [Hes Hnow].
    { intros q Hq. apply (ev_checked _ (so_journal _ Hok')). rewrite Hev. apply elem_of_app. by right. }
    rewrite Hr, (mv_run _ _ _ _ _ _ _ Hm).
    eapply (fold_step opts); [|..|exact He|exact Hes|exact Hnow|exact Hdrop];
      rewrite <- ?Hr; try done; try apply Hok.
    intros x Hx. apply (so_checked _ Hok' r). rewrite Hr, (mv_run _ _ _ _ _ _ _ Hm). exact Hx.
  - by rewrite (mv_runs _ _ _ _ _ _ _ Hm).
Qed.

End executions.
