(* ===== verification/Coherence.v ===== *)
(** The run store and the attempt store together, over one journal: any
    interleaving of their calls keeps the tables and the journal in step, so
    replaying the journal of a run gives back its row and its attempts. *)

From S2P Require Export FoldProps AttemptProps.

#[local] Open Scope me_scope.

(** ** Calls on either store *)

Inductive call := RunCall (op : store_op) | AttemptCall (op : attempt_op).
Inductive answer := RunAnswer (out : option Outcome) | AttemptAnswer (out : AttemptOutcome).

Definition call_sane (c : call) : bool :=
  match c with RunCall op => op_sane op | AttemptCall _ => true end.
Definition call_clean (opts : ValidatedOptions) (c : call) : Prop :=
  match c with RunCall op => op_clean opts op | AttemptCall _ => True end.
Definition call_drops_claim (c : call) (a : answer) : bool :=
  match c, a with RunCall op, RunAnswer out => drops_claim op out | _, _ => false end.

(** ** Attempt events, replayed *)

Section attempts.
Context {J : JsonText} (opts : ValidatedOptions).
Implicit Types (s : State) (id : AttemptId).

(** The row the fold should give; no column carries the heartbeat. *)
Definition attempt_fold (id : AttemptId) (x : AttemptRow) : AttemptFoldRow :=
  MkAttemptFoldRow (id_runId id) (id_stepKeyDigest id) (id_attempt id) (a_state x) (a_startedAtMs x)
    (a_finishedAtMs x) (a_checkpointJson x) (a_errorJson x) (a_outcomeJson x) (a_metaJson x).

Definition fold_key (id : AttemptId) : string :=
  attemptKey (id_runId id) (id_stepKeyDigest id) (id_attempt id).

Lemma fold_key_inj id id' : fold_key id = fold_key id' → id = id'.
Proof.
  unfold fold_key, attemptKey. intros H. apply len_prefix_inj in H as [H1 H].
  apply len_prefix_inj in H as [H2 H]. apply (inj pretty) in H. destruct id, id'; simpl in *. congruence.
Qed.

Lemma key_of_inj id id' : key_of id = key_of id' → id = id'.
Proof. destruct id, id'; unfold key_of; simpl. by intros [=]; subst. Qed.

(** Events of the other namespaces leave the attempts alone, and attempt events
    the runs. *)
Lemma reduce_other_attempts s e :
  starts_with "flows.attempt." (en_eventType e) = false →
  st_attempts (reduceSync s e) = st_attempts s.
Proof.
  intros H. unfold reduceSync. destruct (asRecord _) as [p|]; [|done]. rewrite H.
  destruct (starts_with "flows.run." _).
  - unfold applyRunEvent. by repeat case_match.
  - destruct (starts_with "flows.consensus." _); [|done]. unfold applyConsensusEvent. by repeat case_match.
Qed.

Lemma starts_with_app p t : starts_with p t = true → ∃ u, t = p +:+ u.
Proof.
  unfold starts_with. revert t. induction p as [|a p IH]; intros t H; [by exists t|].
  destruct t as [|b t]; [done|]. simpl in H. destruct (ascii_dec a b) as [->|]; [|done].
  destruct (IH t H) as [u ->]. by exists u.
Qed.

Lemma attempt_not_other ty : starts_with "flows.attempt." ty = true →
  starts_with "flows.run." ty = false ∧ starts_with "flows.consensus." ty = false.
Proof.
  by intros [u ->]%starts_with_app.
Qed.

Lemma reduce_attempt_runs s e :
  starts_with "flows.attempt." (en_eventType e) = true →
  st_runs (reduceSync s e) = st_runs s.
Proof.
  intros H. destruct (attempt_not_other _ H) as [H1 H2].
  unfold reduceSync. rewrite H, H1, H2. destruct (asRecord _) as [p|]; [|done].
  unfold applyAttemptEvent. by repeat case_match.
Qed.

(** An attempt event is stored whatever the redactor, and reduces by
    [applyAttemptEvent]. *)
Lemma reduce_attempt_event s e r ty payload :
  entry_of opts (attempt_event_input r ty payload) e → starts_with "flows.attempt." ty = true →
  reduceSync s e = applyAttemptEvent s e payload.
Proof.
  intros [_ Hty Hp] Hpre. simpl in Hty. destruct (attempt_not_other _ Hpre) as [H1 H2].
  assert (Hv : isVerbatimEventType ty = true).
  { unfold isVerbatimEventType. apply existsb_exists. exists "flows.attempt.". split; [|done].
    by repeat first [left; reflexivity|right]. }
  unfold reduceSync. rewrite Hp. unfold scrubbed. cbn [in_eventType attempt_event_input in_payload].
  rewrite Hv. cbn [id asRecord]. by rewrite Hty, H1, H2, Hpre.
Qed.

Lemma check_attempt_stamps key x : check_attempt key x = true →
  stamp_ok key.2 = true ∧ stamp_ok (a_startedAtMs x) = true ∧ col_check stamp_ok (a_finishedAtMs x) = true.
Proof. unfold check_attempt. rewrite !andb_true_iff. tauto. Qed.

(** The event names its attempt, whatever else it carries. *)
Lemma apply_attempt s e id ty fs :
  entry_of opts (attempt_event_input (id_runId id) ty (id_payload id ++ fs)) e →
  starts_with "flows.attempt." ty = true → is_safe_integer (id_attempt id) = true →
  reduceSync s e =
    let payload := id_payload id ++ fs in
    if bool_decide (ty = "flows.attempt.put") || bool_decide (ty = "flows.attempt.snapshot")
    then match fold_put (id_runId id) (id_stepKeyDigest id) (id_attempt id) payload with
         | Some row => set_attempt (fold_key id) row s
         | None => s
         end
    else match st_attempts s !! fold_key id with
         | None => s
         | Some row =>
             if bool_decide (ty = "flows.attempt.checkpointed")
             then match jsonColumn payload "checkpoint" "checkpointJson" with
                  | Some checkpointJson => set_attempt (fold_key id) (fold_checkpointed row checkpointJson) s
                  | None => s
                  end
             else if bool_decide (ty = "flows.attempt.finished")
             then match fold_finished row payload with
                  | Some row => set_attempt (fold_key id) row s
                  | None => s
                  end
             else if bool_decide (ty = "flows.attempt.patched")
             then set_attempt (fold_key id) (fold_patched row payload) s
             else s
         end.
Proof.
  intros He Hpre Hsafe. rewrite (reduce_attempt_event s e _ _ _ He Hpre).
  destruct He as [Hr Hty _]. simpl in Hr, Hty. unfold applyAttemptEvent.
  change (assoc "stepKeyDigest" (id_payload id ++ fs)) with (Some (JStr (id_stepKeyDigest id))).
  change (assoc "attempt" (id_payload id ++ fs)) with (Some (JNum (id_attempt id))).
  unfold numberOrNull. rewrite Hsafe. by rewrite Hr, Hty.
Qed.

Lemma fold_put_row a (id := at_id a) (x := put_row a (encodeOptional (at_checkpoint a))) :
  check_attempt (key_of id) x = true →
  fold_put (id_runId id) (id_stepKeyDigest id) (id_attempt id) (putPayload a) = Some (attempt_fold id x).
Proof.
  intros (_ & Hs & Hf)%check_attempt_stamps. unfold fold_put, putPayload.
  change (assoc "state" _) with (Some (JStr (at_state a))).
  change (assoc "startedAtMs" _) with (Some (JNum (at_startedAtMs a))).
  rewrite numberOrNull_stamp by done. subst x id. simpl in Hf. fold (putPayload a).
  assert (E1 : numberOrNull (assoc "finishedAtMs" (putPayload a)) = at_finishedAtMs a).
  { destruct a as [id st t [fin|] hb ck er ou me]; [by apply numberOrNull_stamp|by destruct ck, er, ou]. }
  assert (E2 : or_null (jsonColumn (putPayload a) "checkpoint" "checkpointJson") = encodeOptional (at_checkpoint a))
    by (by destruct a as [id st t [] hb [] [] [] me]).
  assert (E3 : or_null (jsonColumn (putPayload a) "error" "errorJson") = encodeOptional (at_error a))
    by (by destruct a as [id st t [] hb [] [] [] me]).
  assert (E4 : or_null (jsonColumn (putPayload a) "outcome" "outcomeJson") = encodeOptional (at_outcome a))
    by (by destruct a as [id st t [] hb [] [] [] me]).
  assert (E5 : jsonColumn (putPayload a) "meta" "metaJson" = Some (Some (attempt_encode (at_meta a))))
    by (by destruct a as [id st t [] hb [] [] [] me]).
  unfold putPayload in *. by rewrite E1, E2, E3, E4, E5.
Qed.

Lemma fold_finish_row id a x : id = fa_id a → stamp_ok (fa_finishedAtMs a) = true →
  fold_finished (attempt_fold id x) (finishPayload a) = Some (attempt_fold id (set_attempt_finished a x)).
Proof.
  intros -> Hs. unfold fold_finished, finishPayload.
  change (assoc "state" _) with (Some (JStr (fa_state a))).
  change (assoc "finishedAtMs" _) with (Some (JNum (fa_finishedAtMs a))).
  rewrite numberOrNull_stamp by done. destruct a as [id st t er ou me].
  unfold attempt_fold, set_attempt_finished. simpl. by destruct er, ou, me.
Qed.

Lemma fold_patch_row id f x :
  fold_patched (attempt_fold id x) (patchPayload id f)
  = attempt_fold id (set_attempt_patched f (encodeOptional (ap_checkpoint f)) x).
Proof. destruct f as [[] [] [] []]; reflexivity. Qed.

Lemma patch_nothing_row f x : patches_nothing f = true →
  set_attempt_patched f (encodeOptional (ap_checkpoint f)) x = x.
Proof. destruct f as [[] [] [] []]; try done. by destruct x. Qed.
End attempts.

(** ** One attempt call, replayed *)

Section attempt_calls.
Context {J : JsonText} {C : Consensus} {L : ConsensusLaws C} (opts : ValidatedOptions) (policy : Policy).
Implicit Types (s : State) (id : AttemptId).

(** What replaying [es] from [s] must do to the attempt [id]. *)
Definition attempt_replayed s es id (row' : option AttemptRow) : Prop :=
  let s' := fold_left reduceSync es s in
  st_attempts s' !! fold_key id = attempt_fold id <$> row'
  ∧ (∀ k, k ≠ fold_key id → st_attempts s' !! k = st_attempts s !! k)
  ∧ st_runs s' = st_runs s.

Lemma replayed_set s e id x :
  reduceSync s e = set_attempt (fold_key id) (attempt_fold id x) s →
  attempt_replayed s [e] id (Some x).
Proof.
  intros He. unfold attempt_replayed. cbn [fold_left]. rewrite He. simpl.
  split_and!; [by rewrite lookup_insert_eq|intros k Hk; by rewrite lookup_insert_ne|done].
Qed.

Lemma replay_put s e a :
  entry_of opts (attempt_event_input (id_runId (at_id a)) "flows.attempt.put" (putPayload a)) e →
  check_attempt (key_of (at_id a)) (put_row a (encodeOptional (at_checkpoint a))) = true →
  attempt_replayed s [e] (at_id a) (Some (put_row a (encodeOptional (at_checkpoint a)))).
Proof.
  intros He Hchk. apply replayed_set. pose proof (check_attempt_stamps _ _ Hchk) as (Hk & _).
  rewrite (apply_attempt opts s e (at_id a) _ _ He) by (done || by apply stamp_safe).
  cbv zeta. rewrite bool_decide_true by done. cbn [orb]. fold (putPayload a). by rewrite fold_put_row.
Qed.

Lemma replay_checkpointed s e id v x now :
  entry_of opts (attempt_event_input (id_runId id) "flows.attempt.checkpointed"
                   (id_payload id ++ [("checkpoint", v)])) e →
  is_safe_integer (id_attempt id) = true → st_attempts s !! fold_key id = Some (attempt_fold id x) →
  attempt_replayed s [e] id (Some (set_attempt_beat now (encodeOptional (Some v)) x)).
Proof.
  intros He Hk Hs. apply replayed_set. rewrite (apply_attempt opts s e id _ _ He) by done.
  cbv zeta. rewrite Hs. reflexivity.
Qed.

Lemma replay_finished s e a x :
  entry_of opts (attempt_event_input (id_runId (fa_id a)) "flows.attempt.finished" (finishPayload a)) e →
  check_attempt (key_of (fa_id a)) (set_attempt_finished a x) = true →
  st_attempts s !! fold_key (fa_id a) = Some (attempt_fold (fa_id a) x) →
  attempt_replayed s [e] (fa_id a) (Some (set_attempt_finished a x)).
Proof.
  intros He Hchk Hs. apply replayed_set. pose proof (check_attempt_stamps _ _ Hchk) as (Hk & _ & Hf).
  rewrite (apply_attempt opts s e (fa_id a) _ _ He) by (done || by apply stamp_safe).
  cbv zeta. rewrite Hs. rewrite !bool_decide_false by done. rewrite bool_decide_true by done. cbn [orb].
  fold (finishPayload a). by rewrite fold_finish_row.
Qed.

Lemma replay_patched s e id f x :
  entry_of opts (attempt_event_input (id_runId id) "flows.attempt.patched" (patchPayload id f)) e →
  is_safe_integer (id_attempt id) = true → st_attempts s !! fold_key id = Some (attempt_fold id x) →
  attempt_replayed s [e] id (Some (set_attempt_patched f (encodeOptional (ap_checkpoint f)) x)).
Proof.
  intros He Hk Hs. apply replayed_set. rewrite (apply_attempt opts s e id _ _ He) by done.
  cbv zeta. rewrite Hs. rewrite !bool_decide_false by done. rewrite bool_decide_true by done. cbn [orb].
  fold (patchPayload id f). by rewrite fold_patch_row.
Qed.

Lemma attempt_step w row op out row' ins s es (id := attempt_id op) :
  (∀ x, row' = Some x → check_attempt (key_of id) x = true) →
  st_attempts s !! fold_key id = attempt_fold id <$> row →
  attempt_effect policy w row op out row' ins → Forall2 (entry_of opts) ins es →
  attempt_replayed s es id row'.
Proof.
  intros Hchk Hs He Hes. subst id.
  assert (Hkey : ∀ x, row' = Some x → is_safe_integer (id_attempt (attempt_id op)) = true).
  { intros x Hx. apply stamp_safe. by destruct (check_attempt_stamps _ _ (Hchk x Hx)) as [? _]. }
  destruct He; unfold attempt_event in Hes; cbn [attempt_id] in *; simplify_eq.
  - inv_entries. by split_and!.
  - inv_entries. apply replay_put; eauto.
  - inv_entries. apply replay_put; eauto.
  - destruct ck; inv_entries; [apply replay_checkpointed; eauto|]. by split_and!.
  - inv_entries. apply replay_finished; eauto.
  - destruct (patches_nothing f) eqn:Hf; inv_entries; [|apply replay_patched; eauto].
    rewrite patch_nothing_row by done. by split_and!.
Qed.
End attempt_calls.

(** ** Executions of both stores *)

Section system.
Context {J : JsonText} {C : Consensus} {L : ConsensusLaws C} {T : Transactional C}
        (opts : ValidatedOptions) (policy : Policy).
Implicit Types (w : World) (r : string).

Definition perform_call (c : call) : M answer :=
  match c with
  | RunCall op => out <- perform_op opts op ;; ret (RunAnswer out)
  | AttemptCall op => out <- perform_attempt opts policy op ;; ret (AttemptAnswer out)
  end.

(** A sequence of calls on either store, failed calls included. *)
Fixpoint execute (calls : list call) (w : World) : list (error + answer) * World :=
  match calls with
  | [] => ([], w)
  | c :: calls =>
      let '(res, w1) := perform_call c w in
      let '(results, w2) := execute calls w1 in
      (res :: results, w2)
  end.

Record system_ok (w : World) : Prop := MkSystemOk {
  sys_store : store_ok w;
  sys_clock : (0 ≤ w_clock w)%Z;
  sys_ordered : journal_ordered w;
  sys_attempts : ∀ id x, db_attempts (w_db w) !! key_of id = Some x → check_attempt (key_of id) x = true
}.

(** The journal of run [r] replays to its row and to its attempts. *)
Record replays (w : World) (r : string) : Prop := MkReplays {
  re_run : coherent w r;
  re_attempts : ∀ id, id_runId id = r →
    st_attempts (foldEntries (history r w)) !! fold_key id
    = attempt_fold id <$> db_attempts (w_db w) !! key_of id
}.

(** *** Calls that fail or are fenced *)

Lemma store_ok_db w w' : w_db w' = w_db w → store_ok w → store_ok w'.
Proof.
  intros Hdb Hok. destruct (tr_lease (C:=C) w w') as [H1 H2]; [by rewrite Hdb|].
  split; [by apply H1, Hok|unfold journal_ok; rewrite Hdb; apply Hok|rewrite Hdb; apply Hok|].
  intros r. rewrite Hdb, <- H2. apply Hok.
Qed.

Lemma system_same w w' : w_db w' = w_db w → (0 ≤ w_clock w')%Z →
  system_ok w → system_ok w' ∧ ∀ r, replays w r → replays w' r.
Proof.
  intros Hdb Hclk []. split.
  - split; [by eapply store_ok_db|done|unfold journal_ordered in *; by rewrite Hdb|by rewrite Hdb].
  - intros r []. unfold coherent, fold_run in *. unfold history in *.
    split; unfold coherent, fold_run, history; by rewrite Hdb.
Qed.

Lemma encode_clock t v : preserves (clock_is t) (encodeCheckpoint policy v).
Proof. unfold encodeCheckpoint. solve_preserves. Qed.

Lemma clock_writeAttempt t body :
  preserves (clock_is t) body → preserves (clock_is t) (writeAttempt opts body).
Proof.
  intros Hb. unfold writeAttempt. apply preserves_map_error, preserves_catch.
  - by apply clock_transact.
  - intros e. solve_preserves.
Qed.

Lemma writeAttempt_err_db body w e w' :
  writeAttempt opts body w = (inl e, w') → w_db w' = w_db w.
Proof.
  intros H. unfold writeAttempt, map_error, catch in H.
  destruct (transact opts body w) as [[e0|a] v1] eqn:Ht; [|done].
  apply transact_err_db in Ht. destruct (isJournalFenceLost e0); [done|]. by injection H as _ <-.
Qed.

#[local] Opaque writeAttempt.

Lemma attempt_clock t op : preserves (clock_is t) (perform_attempt opts policy op).
Proof.
  pose proof (clock_emitDurable opts t). pose proof (encode_clock t).
  pose proof (preserves_clock_modify t).
  assert (Hput : ∀ id row, preserves (clock_is t) (put_attempt id row)).
  { unfold put_attempt, sql_fail. solve_preserves. }
  destruct op; simpl; unfold put, attemptHeartbeat, finish, patch, validateId, insert_attempt, update_attempt,
    not_updated, run_owned, get_attempt, get_run, recordAttemptEvent, sql_fail;
    repeat first [progress solve_preserves | apply clock_writeAttempt].
Qed.

Lemma attempt_err_db op w e w' :
  perform_attempt opts policy op w = (inl e, w') → w_db w' = w_db w.
Proof.
  pose proof writeAttempt_err_db as Hw.
  assert (Hv : ∀ id v x v', validateId id v = (x, v') → v' = v).
  { intros id v x v'. unfold validateId. destruct (_ && _); by intros [= _ <-]. }
  assert (Hc : ∀ ck v x v', encodeCheckpoint policy ck v = (x, v') → v' = v).
  { intros ck v x v'. unfold encodeCheckpoint. destruct (encodeOptional ck); [case_bool_decide|]; by intros [= _ <-]. }
  intros H. destruct op; simpl in H; unfold put, attemptHeartbeat, finish, patch, bind at 1 in H;
    match type of H with context [validateId ?i w] => destruct (validateId i w) as [[e1|u] w1] eqn:H1 end;
    apply Hv in H1 as ->; try (by injection H as _ <-);
    try (match type of H with (if ?b then _ else _) _ = _ => destruct b end; [by injection H as _ <-|]);
    try (by eapply Hw);
    unfold bind at 1 in H;
    match type of H with context [encodeCheckpoint policy ?k w] =>
      destruct (encodeCheckpoint policy k w) as [[e1|c] w1] eqn:H1 end;
    apply Hc in H1 as ->; try (by injection H as _ <-); by eapply Hw.
Qed.
(** *** Calls that answer *)

Lemma attempt_moved_ok w w' id row ins :
  attempt_moved opts w w' id row ins → system_ok w → system_ok w'.
Proof.
  intros [] [[] ? Ho Ha]. split; [split| |..]; try done.
  - by rewrite am_runs.
  - intros r. rewrite am_runs, am_leases. auto.
  - by rewrite am_clock.
  - auto.
  - intros id' x Hx. destruct (decide (key_of id' = key_of id)) as [Hk|Hk].
    + rewrite Hk in Hx |- *. apply am_checked; [apply Ha|by rewrite am_row in Hx].
    + rewrite am_rows in Hx by done. by apply Ha.
Qed.

Lemma attempt_inputs w row op out row' ins :
  attempt_effect policy w row op out row' ins →
  Forall (λ i, in_runId i = id_runId (attempt_id op)) ins
  ∧ Forall (λ i, starts_with "flows.attempt." (in_eventType i) = true) ins.
Proof.
  destruct 1; unfold attempt_event; try (by split; repeat constructor).
  - destruct ck; split; repeat constructor.
  - destruct (patches_nothing f); split; repeat constructor.
Qed.

(** The run rows a fold sees are untouched by attempt events. *)
Lemma fold_attempt_runs s es :
  Forall (λ e, starts_with "flows.attempt." (en_eventType e) = true) es →
  st_runs (fold_left reduceSync es s) = st_runs s.
Proof.
  revert s. induction es as [|e es IH]; intros s H; [done|]. apply Forall_cons in H as [He H].
  simpl. by rewrite IH, reduce_attempt_runs.
Qed.
Lemma fold_run_attempts s es :
  Forall (λ e, starts_with "flows.attempt." (en_eventType e) = false) es →
  st_attempts (fold_left reduceSync es s) = st_attempts s.
Proof.
  revert s. induction es as [|e es IH]; intros s H; [done|]. apply Forall_cons in H as [He H].
  simpl. by rewrite IH, reduce_other_attempts.
Qed.

Lemma entries_types ins es (p : string → bool) b :
  Forall2 (entry_of opts) ins es → Forall (λ i, p (in_eventType i) = b) ins →
  Forall (λ e, p (en_eventType e) = b) es.
Proof.
  induction 1 as [|i e ins es [_ Hty _] H IH]; [constructor|]. intros [Hi Hr]%Forall_cons.
  constructor; [by rewrite Hty|auto].
Qed.

(** The history of a run after events of run [r0] are appended. *)
Lemma history_append w w' r0 ins new :
  journal_ordered w → journal_ordered w' → db_events (w_db w') = db_events (w_db w) ++ new →
  Forall (λ i, in_runId i = r0) ins → Forall2 (event_of opts (w_clock w)) ins new →
  ∀ r, history r w' = history r w ++ (if bool_decide (r = r0) then omap decode_entry new else []).
Proof.
  intros Ho Ho' Hev Hins Hnew r. rewrite !history_ordered, Hev, List.filter_app, omap_app by done.
  f_equal. rewrite (filter_run_same opts r0 ins _ new) by done. by case_bool_decide.
Qed.

Lemma attempt_replays op row' ins out w w' r :
  system_ok w → attempt_moved opts w w' (attempt_id op) row' ins →
  attempt_effect policy w (db_attempts (w_db w) !! key_of (attempt_id op)) op out row' ins →
  replays w r → replays w' r.
Proof.
  intros Hok Hm He [[Hst Hf] Hat]. pose proof (attempt_moved_ok _ _ _ _ _ Hm Hok) as Hok'.
  destruct (am_events _ _ _ _ _ _ Hm) as (new & Hev & Hnew).
  destruct (attempt_inputs _ _ _ _ _ _ He) as [Hrun Hty].
  pose proof (history_append w w' _ ins new (sys_ordered _ Hok) (sys_ordered _ Hok') Hev Hrun Hnew r) as Hh.
  destruct (decode_new opts _ _ _ Hnew) as [Hes _].
  { intros q Hq. apply (ev_checked _ (so_journal _ (sys_store _ Hok'))). rewrite Hev.
    apply elem_of_app. by right. }
  pose proof (entries_types _ _ _ _ Hes Hty) as Htes.
  split; unfold coherent, fold_run, foldEntries in *; rewrite Hh, fold_left_app;
    [rewrite (am_runs _ _ _ _ _ _ Hm); case_bool_decide; [by rewrite fold_attempt_runs|done]|].
  intros id Hid. case_bool_decide as Hr.
  - assert (Hold : st_attempts (fold_left reduceSync (history r w) initial) !! fold_key (attempt_id op)
              = attempt_fold (attempt_id op) <$> db_attempts (w_db w) !! key_of (attempt_id op)) by (by apply Hat).
    eapply (attempt_step opts policy w _ op out row' ins) in Hold as (H1 & H2 & _);
      [| |exact He|exact Hes].
    + destruct (decide (id = attempt_id op)) as [->|Hne].
      * rewrite H1. by rewrite (am_row _ _ _ _ _ _ Hm).
      * rewrite H2 by (by intros ?%fold_key_inj). rewrite (am_rows _ _ _ _ _ _ Hm) by (by intros ?%key_of_inj).
        by apply Hat.
    + intros x Hx. apply (sys_attempts _ Hok'). by rewrite (am_row _ _ _ _ _ _ Hm).
  - simpl. rewrite (am_rows _ _ _ _ _ _ Hm) by (intros ?%key_of_inj; congruence). by apply Hat.
Qed.

Lemma run_effect_types now row l op out row' l' ins :
  row_effect now row l op out row' l' ins →
  Forall (λ i, starts_with "flows.attempt." (in_eventType i) = false) ins.
Proof. by destruct 1; repeat constructor. Qed.

Lemma run_call_replays op out w w' r :
  system_ok w → op_sane op = true → op_clean opts op → perform_op opts op w = (inr out, w') →
  drops_claim op out = false → replays w r → system_ok w' ∧ replays w' r.
Proof.
  intros Hok Hs Hclean H Hdrop [Hco Hat]. destruct Hok as [Hst Hclk Hord Hatt].
  destruct (perform_op_ok opts op w out w' Hst Hs Hclk H) as [Hst' Hclk'].
  destruct (call_coherent opts op out w w' r Hst Hst' Hclk Hs Hord Hclean H Hdrop Hco) as [Hord' Hco'].
  destruct (tick_or op) as [[t ->]|Hnt].
  { simpl in H. apply bind_inr in H as (u & w1 & H1 & H). apply modify_inr in H1 as [_ ->].
    by apply ret_inr in H as [-> ->]. }
  apply perform_op_effect in H as (row' & l' & ins & Hm & He); [|done..].
  pose proof (mv_attempts _ _ _ _ _ _ _ Hm) as Hdb.
  split; [split; try done; by rewrite Hdb|]. split; [done|]. intros id Hid. rewrite Hdb, <- (Hat id Hid).
  destruct (mv_events _ _ _ _ _ _ _ Hm) as (new & Hev & Hnew).
  unfold foldEntries. rewrite (history_append w w' (op_run op) ins new), fold_left_app by
    (done || by eapply effect_inputs).
  case_bool_decide; [|done]. rewrite fold_run_attempts; [done|].
  destruct (decode_new opts _ _ _ Hnew) as [Hes _].
  { intros q Hq. apply (ev_checked _ (so_journal _ Hst')). rewrite Hev. apply elem_of_app. by right. }
  eapply entries_types; [exact Hes|]. by eapply run_effect_types.
Qed.

Lemma call_replays c res w w' :
  system_ok w → (∀ r, replays w r) → call_sane c = true → call_clean opts c →
  perform_call c w = (res, w') →
  match res with inr a => call_drops_claim c a = false | inl _ => True end →
  system_ok w' ∧ ∀ r, replays w' r.
Proof.
  intros Hok Hre Hs Hclean H Hdrop. destruct c as [op|op]; simpl in *; unfold bind in H.
  - destruct (perform_op opts op w) as [[e|out] w1] eqn:Hp; injection H as <- <-.
    + pose proof (perform_op_err_db opts _ _ _ _ Hp) as Hdb.
      destruct (failed_store_ok opts op e w w1) as [_ Hclk]; [apply Hok..|done|].
      destruct (system_same w w1 Hdb Hclk Hok). auto.
    + assert (H : ∀ r, system_ok w1 ∧ replays w1 r) by (intros r; by eapply run_call_replays).
      split; [apply (H "")|apply H].
  - pose proof (attempt_clock (w_clock w) op w eq_refl) as Hclk. unfold clock_is in Hclk.
    destruct (perform_attempt opts policy op w) as [[e|out] w1] eqn:Hp; injection H as <- <-; simpl in Hclk.
    + pose proof (attempt_err_db _ _ _ _ Hp) as Hdb.
      destruct (system_same w w1 Hdb); [rewrite Hclk; apply Hok|done|auto].
    + apply (perform_attempt_answers opts policy) in Hp as [(row' & ins & Hm & He)|[_ Hdb]]; [..|apply Hok|apply Hok].
      * split; [by eapply attempt_moved_ok|]. intros r. by eapply attempt_replays.
      * destruct (system_same w w1 Hdb); [rewrite Hclk; apply Hok|done|auto].
Qed.

(** No activation of the execution found its snapshot moved. *)
Definition no_claim_dropped (calls : list call) (w : World) : bool :=
  forallb (λ p : call * (error + answer),
    match p.2 with inr a => negb (call_drops_claim p.1 a) | inl _ => true end)
    (zip calls (execute calls w).1).

Lemma execute_replays calls w :
  system_ok w → (∀ r, replays w r) → forallb call_sane calls = true →
  Forall (call_clean opts) calls → no_claim_dropped calls w = true →
  system_ok (execute calls w).2 ∧ ∀ r, replays (execute calls w).2 r.
Proof.
  intros Hok Hre Hs Hclean Hdrop.
  revert w Hok Hre Hdrop. induction calls as [|c calls IH]; intros w Hok Hre Hdrop; [done|].
  simpl in Hs. apply andb_true_iff in Hs as [Hc Hs]. apply Forall_cons in Hclean as [Hcl Hclean].
  unfold no_claim_dropped in Hdrop. simpl in *.
  destruct (perform_call c w) as [res w1] eqn:He.
  destruct (execute calls w1) as [results w2] eqn:Hrest. simpl in Hdrop.
  apply andb_true_iff in Hdrop as [Hd Hdrop].
  destruct (call_replays c res w w1) as [Hok1 Hre1]; try done.
  { destruct res; [done|]. by apply negb_true_iff. }
  pose proof (IH Hs Hclean w1 Hok1 Hre1) as H. unfold no_claim_dropped in H. rewrite Hrest in H. by apply H.
Qed.

(** An activation that finds its snapshot moved is not journalled.  When
    [activate] answers [SnapshotChanged] for a claimant whose claim the row shows,
    the row's claim is cleared and no event says so: the journal that replayed to
    the row before the call still replays to a row that shows the claim. *)
Theorem dropped_claim_survives_replay r c t e x w w' :
  system_ok w → replays w r → db_runs (w_db w) !! r = Some x →
  rowMatchesClaim x c t = true → snapshotMatchesRow x e = false →
  activate opts r c t e w = (inr SnapshotChanged, w') →
  db_runs (w_db w') !! r = Some (clear_row_claim x)
  ∧ ∃ f, fold_run r w' = Some f ∧ f_claim f = Some c ∧ f_claimedAtMs f = Some t.
Proof.
  intros Hok [[_ Hf] _] Hx Hc He H. apply activate_inr in H; [|apply Hok..]. rewrite Hx, Hc, He in H.
  destruct H as [_ Hm]. split; [apply Hm|].
  destruct (mv_events _ _ _ _ _ _ _ Hm) as (new & Hev & Hnew). apply Forall2_nil_inv_l in Hnew as ->.
  rewrite app_nil_r in Hev. rewrite Hx in Hf. apply folds_to_some in Hf as [h Hf].
  eexists. split; [unfold fold_run, history in *; rewrite Hev; exact Hf|].
  apply rowMatchesClaim_spec in Hc as [Hc Ht]. simpl. rewrite Hc, Ht. by rewrite cols_default.
Qed.
End system.

(** ** The hypotheses hold: a concrete execution

    [alice] runs an attempt between taking the run and losing it to [bob]; a late
    heartbeat of hers makes [bob]'s activation find the snapshot moved. *)

Module SystemDemo.
Import Ex.

Definition policy : Policy := MkPolicy ["running"] 1048576 false.
Definition step_id : AttemptId := MkAttemptId "r" "step" 0.
Definition attempt : Attempt :=
  MkAttempt step_id "running" 20 None (Some 20%Z) None None None (JObj []).
Definition done_attempt : FinishAttempt :=
  MkFinishAttempt step_id "completed" 30 None (Some (JNum 7)) None.

Definition attempt_calls : list call :=
  [AttemptCall (APut attempt alice); AttemptCall (ABeat step_id alice 25 (Some (JStr "half")));
   AttemptCall (AFinish done_attempt alice); AttemptCall (APatch step_id (MkAttemptPatch None (Some JNull) None None) alice)].
Definition calls : list call :=
  (RunCall <$> RunDemo.start_ops) ++ attempt_calls ++ (RunCall <$> RunDemo.takeover_ops)
  ++ [AttemptCall (APut attempt alice)] ++ (RunCall <$> RunDemo.return_ops).

Definition after (l : list call) (w : World) : World :=
  (execute (C:=sql_consensus) Demo.opts policy l w).2.

(** [alice]'s heartbeat lands between [bob]'s steal and his activation. *)
Definition late_beat : list call := (RunCall <$> RunDemo.takeover_ops) ++ [RunCall (OBeat "r" alice 50001)].

Lemma start_system : system_ok (L:=sql_laws) RunDemo.start.
Proof.
  split; [apply RunDemo.start_ok|done|intros r; constructor|]. by intros id x.
Qed.

Lemma start_replays r : replays RunDemo.start r.
Proof. by split; [split|]. Qed.

Lemma clean o : is_safe_integer (pid o) = true → clean_owner Demo.opts o.
Proof. by split. Qed.

Lemma calls_clean : Forall (call_clean Demo.opts) calls.
Proof. repeat constructor; done. Qed.

Definition raced_calls : list call := (RunCall <$> RunDemo.start_ops) ++ late_beat.
Definition raced : World := Eval vm_compute in after raced_calls RunDemo.start.

Lemma raced_ok : system_ok (L:=sql_laws) raced ∧ ∀ r, replays raced r.
Proof.
  change raced with (after raced_calls RunDemo.start).
  apply (execute_replays (L:=sql_laws)).
  - apply start_system.
  - apply start_replays.
  - reflexivity.
  - repeat constructor; done.
  - vm_compute. reflexivity.
Qed.
End SystemDemo.

Lemma dropped_claim_survives_replay_witness :
  let res := activate (C:=sql_consensus) Demo.opts "r" Ex.bob 50000 RunDemo.silent SystemDemo.raced in
  res.1 = inr SnapshotChanged
  ∧ (r_claim <$> db_runs (w_db res.2) !! "r") = Some null_cols
  ∧ ∃ f, fold_run "r" res.2 = Some f ∧ f_claim f = Some Ex.bob ∧ f_claimedAtMs f = Some 50000%Z.
Proof.
  destruct (db_runs (w_db SystemDemo.raced) !! "r") as [x|] eqn:Hx; [|by vm_compute in Hx].
  intros res. assert (H1 : res.1 = inr SnapshotChanged) by (vm_compute; reflexivity).
  destruct SystemDemo.raced_ok as [Hok Hre].
  destruct (dropped_claim_survives_replay (L:=sql_laws) Demo.opts "r" Ex.bob 50000 RunDemo.silent x
              SystemDemo.raced res.2 Hok (Hre "r") Hx) as [H2 H3].
  - vm_compute in Hx. by injection Hx as <-.
  - vm_compute in Hx. by injection Hx as <-.
  - rewrite <- H1. unfold res. by destruct (activate _ _ _ _ _ _).
  - split_and!; [exact H1|by rewrite H2|exact H3].
Defined.
