(* ===== verification/FoldSnapshot.v ===== *)
(** Snapshots seed the fold: the events [snapshot] appends replay, from nothing,
    to the run's row and to all its attempts, so history before them can go. *)

From S2P Require Export Coherence.

#[local] Open Scope me_scope.

Section snapshot.
Context {J : JsonText} {C : Consensus} {L : ConsensusLaws C} {T : Transactional C}
        (opts : ValidatedOptions).
Implicit Types (w : World) (r : string) (s : State).

(** The owner columns of a row hold process ids the fold can read. *)
Definition safe_pid (c : OwnerCols) : bool := col_check is_safe_integer (c_pid c).

Lemma ownerFrom_snapshot o : safe_pid (cols_of o) = true →
  ownerFrom (Some (snapshotOwner (cols_of o))) = default None (ownerFromColumns (cols_of o)).
Proof. destruct o as [[h p n]|]; [|done]. exact (ownerFrom_json (MkOwnerId h p n)). Qed.

Lemma row_cols r x : check_run r x = true →
  ∃ o c, r_owner x = cols_of o ∧ r_claim x = cols_of c.
Proof. intros H. destruct (decodeRunRow_checked r x H) as (o & c & _ & Ho & Hc & _). by exists o, c. Qed.

Lemma check_run_all r x : check_run r x = true →
  stamp_ok (r_createdAtMs x) = true ∧ col_check stamp_ok (r_startedAtMs x) = true
  ∧ col_check stamp_ok (r_finishedAtMs x) = true ∧ col_check stamp_ok (r_heartbeatAtMs x) = true
  ∧ col_check stamp_ok (r_claimedAtMs x) = true ∧ col_check stamp_ok (r_cancelRequestedAtMs x) = true
  ∧ col_check stamp_ok (r_waitingWakeAtMs x) = true ∧ col_check stamp_ok (r_roundOrdinal x) = true
  ∧ (r_waitingReason x = None → r_waitingWakeAtMs x = None ∧ r_waitingToken x = None).
Proof.
  unfold check_run. rewrite !andb_true_iff, !orb_true_iff, !andb_true_iff.
  intros H. destruct_and?. split_and!; try done. intros Hn. rewrite Hn in *. simpl in *.
  destruct (r_waitingWakeAtMs x), (r_waitingToken x); naive_solver.
Qed.

(** The payload of a row's snapshot reads back as the row. *)
Lemma fold_snapshot_row r x :
  check_run r x = true → safe_pid (r_owner x) = true → safe_pid (r_claim x) = true →
  fold_snapshot r (run_snapshot_payload x) = Some (row_fold r x).
Proof.
  intros Hchk Hpo Hpc. destruct (row_cols r x Hchk) as (o & c & Ho & Hc). rewrite Ho in Hpo. rewrite Hc in Hpc.
  destruct (check_run_all r x Hchk) as (H1 & H2 & H3 & H4 & H5 & H6 & H7 & H8 & H9).
  unfold fold_snapshot.
  change (assoc "status" _) with (Some (JStr (status_name (r_status x)))).
  change (assoc "createdAtMs" _) with (Some (JNum (r_createdAtMs x))).
  change (assoc "stateJson" _) with (Some (JStr (r_stateJson x))).
  change (assoc "startedAtMs" _) with (Some (jnum_or_null (r_startedAtMs x))).
  change (assoc "finishedAtMs" _) with (Some (jnum_or_null (r_finishedAtMs x))).
  change (assoc "heartbeatAtMs" _) with (Some (jnum_or_null (r_heartbeatAtMs x))).
  change (assoc "claimedAtMs" _) with (Some (jnum_or_null (r_claimedAtMs x))).
  change (assoc "cancelRequestedAtMs" _) with (Some (jnum_or_null (r_cancelRequestedAtMs x))).
  change (assoc "roundOrdinal" _) with (Some (jnum_or_null (r_roundOrdinal x))).
  change (assoc "parentRunId" _) with (Some (jstr_or_null (r_parentRunId x))).
  change (assoc "lineageId" _) with (Some (jstr_or_null (r_lineageId x))).
  change (assoc "owner" _) with (Some (snapshotOwner (r_owner x))).
  change (assoc "claim" _) with (Some (snapshotOwner (r_claim x))).
  rewrite numberOrNull_stamp, !numberOrNull_col, !stringOrNull_col, Ho, Hc, !ownerFrom_snapshot by done.
  unfold row_fold. rewrite Ho, Hc. unfold own.
  change (assoc "waiting" (run_snapshot_payload x)) with
    (Some (match r_waitingReason x with
           | None => JNull
           | Some reason => JObj [("reason", JStr reason); ("wakeAt", jnum_or_null (r_waitingWakeAtMs x));
                                  ("token", jstr_or_null (r_waitingToken x))]
           end)).
  cbn [is_null negb]. destruct (r_waitingReason x) as [reason|].
  - cbn [asRecord].
    change (assoc "reason" _) with (Some (JStr reason)).
    change (assoc "wakeAt" _) with (Some (jnum_or_null (r_waitingWakeAtMs x))).
    change (assoc "token" _) with (Some (jstr_or_null (r_waitingToken x))).
    by rewrite numberOrNull_col, stringOrNull_col.
  - destruct (H9 eq_refl) as [-> ->]. done.
Qed.

(** *** Attempt snapshots *)

Lemma jsonColumn_column payload valueKey jsonKey c :
  assoc jsonKey payload = Some (jstr_or_null c) → assoc valueKey payload = None →
  or_null (jsonColumn payload valueKey jsonKey) = c.
Proof. unfold jsonColumn. intros -> ->. by destruct c. Qed.

Lemma fold_put_snapshot id x : check_attempt (key_of id) x = true →
  fold_put (id_runId id) (id_stepKeyDigest id) (id_attempt id) (attempt_snapshot_payload (key_of id, x))
  = Some (attempt_fold id x).
Proof.
  intros (_ & Hs & Hf)%check_attempt_stamps. unfold fold_put.
  change (assoc "state" _) with (Some (JStr (a_state x))).
  change (assoc "startedAtMs" _) with (Some (JNum (a_startedAtMs x))).
  change (assoc "finishedAtMs" _) with (Some (jnum_or_null (a_finishedAtMs x))).
  rewrite numberOrNull_stamp, numberOrNull_col by done.
  change (jsonColumn (attempt_snapshot_payload (key_of id, x)) "meta" "metaJson") with (Some (Some (a_metaJson x))).
  by rewrite !(jsonColumn_column _ "checkpoint" "checkpointJson" (a_checkpointJson x)),
    !(jsonColumn_column _ "error" "errorJson" (a_errorJson x)),
    !(jsonColumn_column _ "outcome" "outcomeJson" (a_outcomeJson x)).
Qed.

Lemma reduce_attempt_snapshot s e id x :
  entry_of opts (snapshot_input (id_runId id) "flows.attempt.snapshot"
                   (attempt_snapshot_payload (key_of id, x))) e →
  check_attempt (key_of id) x = true →
  reduceSync s e = set_attempt (fold_key id) (attempt_fold id x) s.
Proof.
  intros [Hr Hty Hp] Hchk. pose proof (check_attempt_stamps _ _ Hchk) as (Hk & _).
  assert (He : entry_of opts (attempt_event_input (id_runId id) "flows.attempt.snapshot"
            (id_payload id ++ drop 2 (attempt_snapshot_payload (key_of id, x)))) e) by done.
  rewrite (apply_attempt opts s e id _ _ He) by (done || by apply stamp_safe).
  cbv zeta. rewrite bool_decide_false by done. rewrite bool_decide_true by done. cbn [orb].
  change (id_payload id ++ drop 2 (attempt_snapshot_payload (key_of id, x)))
    with (attempt_snapshot_payload (key_of id, x)).
  by rewrite fold_put_snapshot.
Qed.

Definition row_id (row : AttemptKey * AttemptRow) : AttemptId :=
  MkAttemptId row.1.1.1 row.1.1.2 row.1.2.

Definition attempt_snapshot (r : string) (row : AttemptKey * AttemptRow) : Input :=
  snapshot_input r "flows.attempt.snapshot" (attempt_snapshot_payload row).

Lemma fold_attempt_snapshots r rows es s id :
  Forall2 (entry_of opts) (attempt_snapshot r <$> rows) es → NoDup rows.*1 →
  Forall (λ row : AttemptKey * AttemptRow, row.1.1.1 = r ∧ check_attempt row.1 row.2 = true) rows →
  st_attempts (fold_left reduceSync es s) !! fold_key id
  = match (list_to_map rows : gmap AttemptKey AttemptRow) !! key_of id with
    | Some x => Some (attempt_fold id x)
    | None => st_attempts s !! fold_key id
    end.
Proof.
  revert es s. induction rows as [|[[[r0 d] n] x] rows IH]; intros es s Hes Hnd Hrows; simpl in Hes.
  { by apply Forall2_nil_inv_l in Hes as ->. }
  apply Forall2_cons_inv_l in Hes as (e & es' & He & Hes & ->).
  simpl in Hnd. apply NoDup_cons in Hnd as [Hk Hnd]. apply Forall_cons in Hrows as [[Hr Hchk] Hrows].
  simpl in Hr, Hchk. subst r0. simpl. rewrite IH by done.
  change e with e in He. set (idk := MkAttemptId r d n).
  rewrite (reduce_attempt_snapshot s e idk x He Hchk). change (r, d, n) with (key_of idk).
  destruct (decide (id = idk)) as [->|Hne].
  - rewrite lookup_insert_eq. rewrite not_elem_of_list_to_map_1 by done. simpl. by rewrite lookup_insert_eq.
  - rewrite lookup_insert_ne by (by intros ?%key_of_inj). simpl.
    by rewrite lookup_insert_ne by (by intros ?%fold_key_inj).
Qed.

Lemma attempts_of_lookup r (m : gmap AttemptKey AttemptRow) :
  NoDup (attempts_of r m).*1
  ∧ (∀ row, row ∈ attempts_of r m → m !! row.1 = Some row.2 ∧ row.1.1.1 = r)
  ∧ ∀ id, id_runId id = r →
      (list_to_map (attempts_of r m) : gmap AttemptKey AttemptRow) !! key_of id = m !! key_of id.
Proof.
  assert (Hin : ∀ row, row ∈ attempts_of r m ↔ m !! row.1 = Some row.2 ∧ row.1.1.1 = r).
  { intros [k x]. unfold attempts_of. rewrite merge_sort_Permutation, elem_of_filter_b, bool_decide_eq_true.
    by rewrite elem_of_map_to_list. }
  assert (Hnd : NoDup (attempts_of r m).*1).
  { unfold attempts_of. rewrite merge_sort_Permutation. pose proof (NoDup_fst_map_to_list m) as H.
    induction (map_to_list m) as [|row l IH]; simpl; [constructor|].
    simpl in H. apply NoDup_cons in H as [Hk H]. case_bool_decide; [|by apply IH].
    simpl. constructor; [|by apply IH]. intros (row' & Hf & Hrow)%list_elem_of_fmap.
    apply elem_of_filter_b in Hrow as [Hrow _]. apply Hk, list_elem_of_fmap. eauto. }
  split_and!; [done|apply Hin|]. intros id Hid. apply option_eq. intros x.
  rewrite <- elem_of_list_to_map by done. rewrite Hin. simpl. rewrite Hid. naive_solver.
Qed.

(** Emitting a list of events. *)
Lemma emits_moved {A} (f : A → Input) l w rs w' r :
  cs_wf w → journal_ok w → (∀ a, in_sourceSeq (f a) = None) →
  for_each (λ a, emitDurable opts (f a) None) l w = (inr rs, w') →
  moved opts w w' r (db_runs (w_db w) !! r) (lease_of w r) (f <$> l).
Proof.
  intros Hwf Hok Hf. revert w rs Hwf Hok. induction l as [|a l IH]; intros w rs Hwf Hok H; simpl in H.
  - apply ret_inr in H as [-> ->]. by apply moved_refl.
  - apply bind_inr in H as (b & w1 & H1 & H). apply bind_inr in H as (bs & w2 & H2 & H).
    apply ret_inr in H as [-> ->]. apply (emit_moved opts _ _ _ _ _ r) in H1; [|done..].
    apply IH in H2; [|apply H1..].
    rewrite (mv_run _ _ _ _ _ _ _ H1), (mv_lease _ _ _ _ _ _ _ H1) in H2.
    exact (moved_trans opts _ _ _ _ _ _ _ _ _ _ H1 H2).
Qed.

Lemma reduce_run_snapshot s e r x :
  entry_of opts (snapshot_input r "flows.run.snapshot" (run_snapshot_payload x)) e →
  check_run r x = true → safe_pid (r_owner x) = true → safe_pid (r_claim x) = true →
  reduceSync s e = set_run r (row_fold r x) s.
Proof.
  intros [Hr Hty Hp] Hchk Ho Hc.
  assert (He : entry_of opts (run_event_input r "flows.run.snapshot" (run_snapshot_payload x)) e) by done.
  rewrite (reduce_run_event opts s e _ _ _ He) by done. unfold applyRunEvent. rewrite Hty, Hr.
  cbn [in_eventType in_runId snapshot_input]. rewrite bool_decide_false by done.
  rewrite bool_decide_true by done. by rewrite fold_snapshot_row.
Qed.

(** The entries of a run's snapshot set. *)
Definition snapshot_set (r : string) (x : RunRow) (attempts : gmap AttemptKey AttemptRow) : list Input :=
  snapshot_input r "flows.run.snapshot" (run_snapshot_payload x)
  :: (attempt_snapshot r <$> attempts_of r attempts).

(** The effect of [snapshot] on a run that has a row. *)
Lemma snapshot_inr r x w w' :
  store_ok w → db_runs (w_db w) !! r = Some x → snapshot opts r w = (inr tt, w') →
  moved opts w w' r (Some x) (lease_of w r) (snapshot_set r x (db_attempts (w_db w))).
Proof.
  intros Hok Hx H. unfold snapshot in H. apply transact_inr in H as (w0 & w1 & H0 & H & H1).
  pose proof (store_ok_same _ _ Hok H0) as Hok0.
  eapply moved_same_l; [exact H0|apply Hok|]. eapply moved_same_r; [|exact H1].
  apply bind_inr in H as (run & w2 & H2 & H). apply gets_inr in H2 as [-> ->].
  rewrite (ss_db _ _ H0), Hx in H.
  apply bind_inr in H as (rc & w2 & H2 & H). apply (emit_moved opts _ _ _ _ _ r) in H2;
    [|apply Hok0|apply Hok0|done].
  apply bind_inr in H as (rows & w3 & H3 & H). apply gets_inr in H3 as [-> ->].
  apply bind_inr in H as (rs & w3 & H3 & H). apply ret_inr in H as [_ ->].
  pose proof (mv_attempts _ _ _ _ _ _ _ H2) as Hatt. rewrite Hatt, (ss_db _ _ H0) in H3.
  apply (emits_moved _ _ _ _ _ r) in H3; [|apply H2..|done].
  rewrite (mv_run _ _ _ _ _ _ _ H2), (mv_lease _ _ _ _ _ _ _ H2), (ss_db _ _ H0), Hx in H3.
  destruct (same_stores_lease w w0 H0 (so_wf _ Hok)) as [_ Hl]. rewrite Hl in H3.
  exact (moved_trans opts _ _ _ _ _ _ _ _ _ _ H2 H3).
Qed.

Lemma system_row w row : system_ok w → db_attempts (w_db w) !! row.1 = Some row.2 →
  check_attempt row.1 row.2 = true.
Proof. intros Hok. destruct row as [[[r d] n] x]. exact (sys_attempts _ Hok (MkAttemptId r d n) x). Qed.

(** Replayed from any state, the set gives the run's row, and each attempt of the
    run that has one; the others stay as the state had them. *)
Lemma snapshot_set_folds r x w es s :
  system_ok w → db_runs (w_db w) !! r = Some x →
  safe_pid (r_owner x) = true → safe_pid (r_claim x) = true →
  Forall2 (entry_of opts) (snapshot_set r x (db_attempts (w_db w))) es →
  let s' := fold_left reduceSync es s in
  st_runs s' !! r = Some (row_fold r x)
  ∧ ∀ id, id_runId id = r →
      st_attempts s' !! fold_key id
      = match db_attempts (w_db w) !! key_of id with
        | Some a => Some (attempt_fold id a)
        | None => st_attempts s !! fold_key id
        end.
Proof.
  intros Hok Hx Ho Hc Hes. unfold snapshot_set in Hes.
  apply Forall2_cons_inv_l in Hes as (e & es' & He & Hes & ->). cbn [fold_left].
  rewrite (reduce_run_snapshot _ e r x He) by (done || by apply (so_checked _ (sys_store _ Hok))).
  destruct (attempts_of_lookup r (db_attempts (w_db w))) as (Hnd & Hrows & Hlook). split.
  - rewrite fold_attempt_runs; [simpl; by rewrite lookup_insert_eq|].
    eapply entries_types; [exact Hes|]. by apply Forall_fmap, Forall_true.
  - intros id Hid. rewrite (fold_attempt_snapshots r _ es' _ id Hes Hnd), Hlook by
      (done || (apply Forall_forall; intros row Hrow; destruct (Hrows row Hrow) as [Hl Hr];
                split; [done|by apply (system_row w)])).
    done.
Qed.

Lemma snapshot_set_run r x attempts : Forall (λ i, in_runId i = r) (snapshot_set r x attempts).
Proof. constructor; [done|]. by apply Forall_fmap, Forall_true. Qed.

(** C35. A snapshot replaces the history before it.  When [snapshot] of a run that
    has a row succeeds, it changes no row and appends events of that run only, and
    those events alone, replayed from nothing, give the run's row in every column,
    heartbeat included, and exactly the run's attempts.  (The process ids stored in
    the row must be safe integers, which is what the fold reads.) *)
Theorem snapshot_seeds_fold r x w w' :
  system_ok w → db_runs (w_db w) !! r = Some x →
  safe_pid (r_owner x) = true → safe_pid (r_claim x) = true → snapshot opts r w = (inr tt, w') →
  db_runs (w_db w') = db_runs (w_db w) ∧ db_attempts (w_db w') = db_attempts (w_db w)
  ∧ ∃ new, db_events (w_db w') = db_events (w_db w) ++ new ∧ Forall (λ q, j_runId q = r) new
    ∧ let s := foldEntries (omap decode_entry new) in
      st_runs s !! r = Some (row_fold r x)
      ∧ ∀ id, id_runId id = r →
          st_attempts s !! fold_key id = attempt_fold id <$> db_attempts (w_db w) !! key_of id.
Proof.
  intros Hok Hx Ho Hc H. pose proof (snapshot_inr r x w w' (sys_store _ Hok) Hx H) as Hm.
  pose proof (mv_attempts _ _ _ _ _ _ _ Hm) as Hatt. destruct (mv_events _ _ _ _ _ _ _ Hm) as (new & Hev & Hnew).
  split_and!; [|done|exists new; split_and!; [done|..]].
  - apply map_eq. intros r'. destruct (decide (r' = r)) as [->|].
    + by rewrite (mv_run _ _ _ _ _ _ _ Hm).
    + by apply (mv_runs _ _ _ _ _ _ _ Hm).
  - pose proof (snapshot_set_run r x (db_attempts (w_db w))) as Hr.
    clear -Hnew Hr. revert Hnew Hr. generalize (snapshot_set r x (db_attempts (w_db w))). intros ins0 Hnew.
    induction Hnew as [|i q ins new (seq & ss & ->) Hn IH]; intros Hr; [constructor|].
    apply Forall_cons in Hr as [Hi Hr]. constructor; [done|auto].
  - destruct (decode_new opts _ _ _ Hnew) as [Hes _].
    { intros q Hq. apply (ev_checked _ (mv_journal _ _ _ _ _ _ _ Hm)). rewrite Hev. apply elem_of_app. by right. }
    destruct (snapshot_set_folds r x w _ initial Hok Hx Ho Hc Hes) as [H1 H2]. split; [done|].
    intros id Hid. unfold foldEntries. rewrite (H2 id Hid). by destruct (db_attempts (w_db w) !! key_of id).
Qed.
End snapshot.

Lemma snapshot_seeds_fold_witness :
  let w' := (snapshot (C:=sql_consensus) Demo.opts "r" SystemDemo.raced).2 in
  ∃ new, db_events (w_db w') = db_events (w_db SystemDemo.raced) ++ new
    ∧ (f_claim <$> st_runs (foldEntries (omap decode_entry new)) !! "r") = Some (Some Ex.bob)
    ∧ (f_heartbeatAtMs <$> st_runs (foldEntries (omap decode_entry new)) !! "r") = Some (Some 50001%Z).
Proof.
  destruct (db_runs (w_db SystemDemo.raced) !! "r") as [x|] eqn:Hx; [|by vm_compute in Hx].
  intros w'. destruct (snapshot_seeds_fold (L:=sql_laws) Demo.opts "r" x SystemDemo.raced w')
    as (_ & _ & new & Hev & _ & Hrun & _).
  - apply SystemDemo.raced_ok.
  - exact Hx.
  - vm_compute in Hx. by injection Hx as <-.
  - vm_compute in Hx. by injection Hx as <-.
  - unfold w'. vm_compute. reflexivity.
  - exists new. rewrite Hrun. vm_compute in Hx. injection Hx as <-. by split_and!.
Defined.
