(* ===== verification/Compaction.v ===== *)
(** Checkpoints and compaction against the fold: what [compact] may drop, and
    that dropping it changes nothing a replay gives. *)

From S2P Require Export FoldSnapshot.

#[local] Open Scope me_scope.

(** ** States that agree on a run *)

Section agree.
Context {J : JsonText}.
Implicit Types (s : State) (e : Entry) (r : string).

(** Two fold states that hold the same row and the same attempts of run [r]. *)
Definition agree (r : string) (s1 s2 : State) : Prop :=
  st_runs s1 !! r = st_runs s2 !! r
  ∧ ∀ id, id_runId id = r → st_attempts s1 !! fold_key id = st_attempts s2 !! fold_key id.

#[export] Instance agree_equiv r : Equivalence (agree r).
Proof.
  split.
  - by split.
  - intros s1 s2 [H1 H2]. split; [done|]. intros id Hid. symmetry. by apply H2.
  - intros s1 s2 s3 [H1 H2] [H3 H4]. split; [by etrans|]. intros id Hid. rewrite H2 by done. by apply H4.
Qed.

Lemma agree_set_run r row s1 s2 : agree r s1 s2 → agree r (set_run r row s1) (set_run r row s2).
Proof. intros [H1 H2]. split; [simpl; by rewrite !lookup_insert_eq|done]. Qed.

Lemma agree_set_attempt r k row s1 s2 : agree r s1 s2 → agree r (set_attempt k row s1) (set_attempt k row s2).
Proof.
  intros [H1 H2]. split; [done|]. intros id Hid. simpl. destruct (decide (fold_key id = k)) as [<-|].
  - by rewrite !lookup_insert_eq.
  - rewrite !lookup_insert_ne by done. by apply H2.
Qed.

(** Replaying an event of run [r] reads and writes nothing else. *)
Lemma agree_reduce r e s1 s2 :
  en_runId e = r → agree r s1 s2 → agree r (reduceSync s1 e) (reduceSync s2 e).
Proof.
  intros Hr Ha. pose proof Ha as [Hrun Hatt]. unfold reduceSync.
  destruct (asRecord _) as [p|]; [|done]. destruct (starts_with "flows.run." _).
  { unfold applyRunEvent. rewrite Hr, Hrun.
    repeat case_match; try done; by apply agree_set_run. }
  destruct (starts_with "flows.consensus." _).
  { unfold applyConsensusEvent. rewrite Hr, Hrun. repeat case_match; try done; by apply agree_set_run. }
  destruct (starts_with "flows.attempt." _); [|done].
  unfold applyAttemptEvent. destruct (assoc "stepKeyDigest" p) as [[]|]; try done.
  destruct (numberOrNull (assoc "attempt" p)) as [n|]; [|done]. rewrite Hr. cbv zeta.
  assert (st_attempts s1 !! attemptKey r s n = st_attempts s2 !! attemptKey r s n) as ->
    by exact (Hatt (MkAttemptId r s n) eq_refl).
  repeat case_match; try done; by apply agree_set_attempt.
Qed.

Lemma agree_fold r es s1 s2 : Forall (λ e, en_runId e = r) es →
  agree r s1 s2 → agree r (fold_left reduceSync es s1) (fold_left reduceSync es s2).
Proof.
  revert s1 s2. induction es as [|e es IH]; intros s1 s2 He Ha; [done|].
  apply Forall_cons in He as [He Hes]. simpl. apply IH; [done|]. by apply agree_reduce.
Qed.

(** *** What a history owes its snapshots *)

Definition is_snapshot_type (eventType : string) : bool := bool_decide (eventType = "flows.run.snapshot").
Definition is_snapshot (e : Entry) : bool := is_snapshot_type (en_eventType e).

(** Any part of the history that starts early enough to contain a run snapshot
    replays to what the whole does. *)
Definition snapshots_cover (r : string) (h : list Entry) : Prop :=
  ∀ h1 h2, h = h1 ++ h2 → existsb is_snapshot h2 = true → agree r (foldEntries h) (foldEntries h2).

Lemma foldEntries_app h es : foldEntries (h ++ es) = fold_left reduceSync es (foldEntries h).
Proof. apply fold_left_app. Qed.

Lemma existsb_app {A} (p : A → bool) l k : existsb p (l ++ k) = existsb p l || existsb p k.
Proof. induction l as [|x l IH]; [done|]. simpl. by rewrite IH, orb_assoc. Qed.

Lemma cover_append r h es :
  snapshots_cover r h → Forall (λ e, en_runId e = r) es → existsb is_snapshot es = false →
  snapshots_cover r (h ++ es).
Proof.
  intros Hc Hr Hes h1 h2 Heq Hsnap.
  apply app_eq_inv in Heq as [(k & -> & ->)|(k & -> & ->)].
  - rewrite existsb_app, Hes, orb_false_r in Hsnap.
    rewrite (foldEntries_app (h1 ++ k)), (foldEntries_app k).
    apply agree_fold; [done|]. by apply (Hc h1 k).
  - rewrite existsb_app in Hes. apply orb_false_iff in Hes as [_ Hes]. congruence.
Qed.

(** *** Attempts only accumulate *)

(** Every attempt [s1] lacks, [s2] lacks. *)
Definition attempts_within (s2 s1 : State) : Prop :=
  ∀ k, st_attempts s1 !! k = None → st_attempts s2 !! k = None.

Lemma set_attempt_none k0 row s k :
  st_attempts (set_attempt k0 row s) !! k = None ↔ k ≠ k0 ∧ st_attempts s !! k = None.
Proof.
  simpl. destruct (decide (k = k0)) as [->|Hne]; [rewrite lookup_insert_eq; naive_solver|].
  rewrite lookup_insert_ne by done. naive_solver.
Qed.

(** An event adds the same attempt to every state, or none to any. *)
Lemma reduce_keys e :
  (∀ s k, st_attempts (reduceSync s e) !! k = None ↔ st_attempts s !! k = None)
  ∨ ∃ k0, ∀ s k, st_attempts (reduceSync s e) !! k = None ↔ k ≠ k0 ∧ st_attempts s !! k = None.
Proof.
  destruct (starts_with "flows.attempt." (en_eventType e)) eqn:Hpre;
    [|left; intros s k; by rewrite reduce_other_attempts].
  destruct (attempt_not_other _ Hpre) as [H1 H2]. unfold reduceSync.
  destruct (asRecord _) as [p|]; [|by left]. rewrite H1, H2, Hpre. unfold applyAttemptEvent.
  destruct (assoc "stepKeyDigest" p) as [[]|]; try by left.
  destruct (numberOrNull (assoc "attempt" p)) as [n|]; [|by left]. cbv zeta.
  destruct (_ || _).
  - destruct (fold_put _ _ _ _) as [row|]; [|by left]. right. eexists. intros s' k. apply set_attempt_none.
  - left. intros s' k. destruct (st_attempts s' !! _) as [row|] eqn:Hrow; [|done].
    repeat case_match; try done; rewrite set_attempt_none; split; try naive_solver;
      (intros Hk; split; [congruence|done]).
Qed.

Lemma within_reduce e s1 s2 : attempts_within s2 s1 → attempts_within (reduceSync s2 e) (reduceSync s1 e).
Proof.
  intros H k. destruct (reduce_keys e) as [He|[k0 He]]; rewrite !He; [apply H|]. naive_solver.
Qed.

Lemma within_grow e s1 s2 : attempts_within s2 s1 → attempts_within s2 (reduceSync s1 e).
Proof. intros H k Hk. apply H. destruct (reduce_keys e) as [He|[k0 He]]; apply He in Hk; naive_solver. Qed.

Lemma within_fold es s1 s2 : attempts_within s2 s1 →
  attempts_within (fold_left reduceSync es s2) (fold_left reduceSync es s1).
Proof. revert s1 s2. induction es as [|e es IH]; [done|]. intros s1 s2 H. simpl. by apply IH, within_reduce. Qed.

Lemma within_suffix h1 h2 : attempts_within (foldEntries h2) (foldEntries (h1 ++ h2)).
Proof.
  rewrite foldEntries_app. apply within_fold. unfold foldEntries.
  assert (H : attempts_within initial initial) by done. revert H. generalize initial at 2 4. induction h1 as [|e h1 IH]; [done|].
  intros s H. simpl. by apply IH, within_grow.
Qed.

(** A snapshot set: the run's snapshot first, then events that are not one.  It
    must bring every part of the history to the same state. *)
Lemma cover_snapshot r h e es :
  existsb is_snapshot es = false →
  (∀ h1 k, h = h1 ++ k →
     agree r (fold_left reduceSync (e :: es) (foldEntries h)) (fold_left reduceSync (e :: es) (foldEntries k))) →
  snapshots_cover r (h ++ e :: es).
Proof.
  intros Hes Ha h1 h2 Heq Hsnap. apply app_eq_inv in Heq as [(k & -> & ->)|(k & -> & Hk)].
  - rewrite (foldEntries_app (h1 ++ k)), (foldEntries_app k). by eapply Ha.
  - destruct k as [|e' k]; [|injection Hk as <- ->; rewrite existsb_app in Hes;
                              apply orb_false_iff in Hes as [_ Hes]; congruence].
    simpl in Hk. subst h2. rewrite foldEntries_app. apply (Ha h []). by rewrite app_nil_r.
Qed.
End agree.

(** ** What a checkpoint and a compaction do to the tables *)

Section effects.
Context {J : JsonText} {C : Consensus} {L : ConsensusLaws C} (opts : ValidatedOptions).
Implicit Types (w : World) (r : string).

(** The events [keep] selects are left; only checkpoints are touched beside. *)
Record kept (keep : JournalRow → bool) (w w' : World) : Prop := MkKept {
  kp_runs : db_runs (w_db w') = db_runs (w_db w);
  kp_attempts : db_attempts (w_db w') = db_attempts (w_db w);
  kp_leases : db_leases (w_db w') = db_leases (w_db w);
  kp_events : db_events (w_db w') = List.filter keep (db_events (w_db w));
  kp_local : w_local w' = w_local w;
  kp_proc : w_proc w' = w_proc w;
  kp_clock : w_clock w' = w_clock w
}.

Lemma filter_all {A} (p : A → bool) l : (∀ x, x ∈ l → p x = true) → List.filter p l = l.
Proof.
  induction l as [|x l IH]; intros H; [done|]. simpl. rewrite H by (by left).
  f_equal. apply IH. intros y Hy. apply H. by right.
Qed.

Lemma kept_refl w : kept (λ _, true) w w.
Proof. split; try done. by rewrite filter_all. Qed.

Lemma kept_sorted keep l : StronglySorted seq_lt l → StronglySorted seq_lt (List.filter keep l).
Proof.
  induction 1 as [|x l H IH Hx]; [constructor|]. simpl. destruct (keep x); [|done].
  constructor; [done|]. rewrite Forall_forall in *. intros y [Hy _]%elem_of_filter_b. auto.
Qed.

Lemma filter_comm {A} (p q : A → bool) l : List.filter p (List.filter q l) = List.filter q (List.filter p l).
Proof. induction l as [|x l IH]; [done|]. simpl. destruct (p x) eqn:Hp, (q x) eqn:Hq; simpl; rewrite ?Hp, ?Hq, IH; done. Qed.

Lemma kept_system keep w w' : kept keep w w' → system_ok w → system_ok w'.
Proof.
  intros [] [[] ? Hord Hatt]. destruct (law_ext w w') as [H1 H2]; [done..|]. split.
  - split; [by apply H1| |by rewrite kp_runs0|].
    + unfold journal_ok in *. rewrite kp_events0. by apply events_ok_filter.
    + intros r. rewrite kp_runs0, <- H2. auto.
  - by rewrite kp_clock0.
  - intros r. rewrite kp_events0, filter_comm. by apply kept_sorted.
  - by rewrite kp_attempts0.
Qed.

Lemma put_checkpoint_inr k row w u w' :
  put_checkpoint k row w = (inr u, w') → w' = set_db (upd_checkpoints (<[k := row]>)) w.
Proof. unfold put_checkpoint, sql_fail. intros H. by inv_ok H. Qed.

Lemma guard_opt_inr r owner w u w' : cs_wf w →
  (match owner with Some o => fenceGuard r o | None => ret tt end : M ()) w = (inr u, w') → w' = w.
Proof. intros Hwf H. destruct owner; [by apply fenceGuard_inr in H as [-> _]|by apply ret_inr in H as [_ ->]]. Qed.

Lemma checkpoint_inr r seq state owner w k w' :
  cs_wf w → checkpoint r seq state owner w = (inr k, w') → kept (λ _, true) w w'.
Proof.
  intros Hwf H. unfold checkpoint in H. destruct (negb (nonempty r)); [done|].
  destruct (_ || _); [done|]. apply bind_inr in H as (t & w1 & H1 & H). apply gets_inr in H1 as [-> ->].
  apply map_error_inr, write_inv in H. apply bind_inr in H as (u & w1 & H1 & H).
  apply guard_opt_inr in H1 as ->; [|done]. apply bind_inr in H as (l & w1 & H1 & H).
  apply gets_inr in H1 as [-> ->]. destruct (negb _); [done|].
  apply bind_inr in H as (fl & w1 & H1 & H). unfold compactionFloor in H1.
  apply bind_inr in H1 as (cks & w2 & H1 & H2). apply gets_inr in H1 as [-> ->]. apply ret_inr in H2 as [-> ->].
  match type of H with (if ?b then _ else _) _ = _ => destruct b end; [done|].
  apply bind_inr in H as (ex & w1 & H1 & H). apply gets_inr in H1 as [-> ->].
  apply bind_inr in H as (u2 & w1 & H1 & H). apply put_checkpoint_inr in H1 as ->. apply ret_inr in H as [_ ->].
  split; try done. by rewrite filter_all.
Qed.

(** Some fold event of the run lies below [seq], and some snapshot of the run at
    or above it. *)
Definition fold_below (r : string) (seq : Z) (events : list JournalRow) : bool :=
  existsb (λ row, below r seq row && is_fold_type (j_eventType row)) events.
Definition barrier (r : string) (seq : Z) (events : list JournalRow) : bool :=
  existsb (λ row, of_run r row && bool_decide (seq ≤ j_seq row)%Z
                  && bool_decide (j_eventType row = "flows.run.snapshot")) events.

(** A compaction that succeeds either finds the floor where it is asked to be, or
    drops the events below it, which it may. *)
Lemma compact_inr r upTo owner w c w' :
  cs_wf w → compact r upTo owner w = (inr c, w') →
  (w' = w ∧ cc_deleted c = 0%Z)
  ∨ (kept (λ row, negb (below r (cc_checkpointSeq c) row)) w w'
     ∧ (fold_below r (cc_checkpointSeq c) (db_events (w_db w)) = true →
        barrier r (cc_checkpointSeq c) (db_events (w_db w)) = true)
     ∧ cc_deleted c = Z.of_nat (length (List.filter (below r (cc_checkpointSeq c)) (db_events (w_db w))))).
Proof.
  intros Hwf H. unfold compact in H. destruct (negb (nonempty r)); [done|].
  apply bind_inr in H as (t & w1 & H1 & H). apply gets_inr in H1 as [-> ->].
  apply map_error_inr, write_inv in H. apply bind_inr in H as (u & w1 & H1 & H).
  apply guard_opt_inr in H1 as ->; [|done]. apply bind_inr in H as (ck & w1 & H1 & H).
  assert (w1 = w) as -> by (unfold select_checkpoint in H1; by inv_ok H1). clear H1.
  destruct ck as [[seq k]|]; [|done]. destruct (negb (is_null (k_compactedAtMs k))).
  { apply ret_inr in H as [-> ->]. by left. }
  right. apply bind_inr in H as (rd & w1 & H1 & H). apply gets_inr in H1 as [-> ->].
  destruct (existsb _ _); [done|]. apply bind_inr in H as (l & w1 & H1 & H).
  apply gets_inr in H1 as [-> ->]. fold (fold_below r seq (db_events (w_db w))) in H.
  fold (barrier r seq (db_events (w_db w))) in H.
  destruct (fold_below _ _ _ && _) eqn:Hb; [done|].
  apply bind_inr in H as (? & w1 & H1 & H). apply modify_inr in H1 as [_ ->].
  apply bind_inr in H as (? & w1 & H1 & H). apply modify_inr in H1 as [_ ->].
  apply bind_inr in H as (? & w1 & H1 & H). apply put_checkpoint_inr in H1 as ->.
  apply ret_inr in H as [-> ->]. cbn [cc_checkpointSeq cc_deleted]. split_and!; [by split| |done].
  intros Hf. rewrite Hf in Hb. simpl in Hb. by apply negb_false_iff in Hb.
Qed.

(** *** The history a compaction leaves *)

Lemma kept_history keep w w' r : journal_ordered w → kept keep w w' →
  history r w' = omap decode_entry (List.filter keep (List.filter (of_run r) (db_events (w_db w)))).
Proof.
  intros Ho Hk. rewrite history_ordered.
  - by rewrite (kp_events _ _ _ Hk), filter_comm.
  - intros r'. rewrite (kp_events _ _ _ Hk), filter_comm. by apply kept_sorted.
Qed.

Lemma kept_other r0 seq w w' r : r ≠ r0 → journal_ordered w →
  kept (λ row, negb (below r0 seq row)) w w' → history r w' = history r w.
Proof.
  intros Hr Ho Hk. rewrite (kept_history _ _ _ _ Ho Hk), history_ordered by done. f_equal.
  apply filter_all. intros row [_ Hrow]%elem_of_filter_b. unfold of_run in Hrow.
  apply bool_decide_eq_true in Hrow. unfold below, of_run. by rewrite bool_decide_false by congruence.
Qed.

(** What is below a sequence is the front of an ordered list. *)
Lemma ordered_split (p : JournalRow → bool) l :
  StronglySorted seq_lt l → (∀ a b, p b = true → seq_lt a b → p a = true) →
  l = List.filter p l ++ List.filter (λ row, negb (p row)) l.
Proof.
  intros Hs Hp. induction Hs as [|x l Hs IH Hx]; [done|]. simpl. destruct (p x) eqn:Hpx; simpl.
  - by rewrite <- IH.
  - assert (Hnone : ∀ y, y ∈ l → p y = false).
    { intros y Hy. rewrite Forall_forall in Hx. apply not_true_is_false. intros Hpy.
      rewrite (Hp x y Hpy (Hx y Hy)) in Hpx. done. }
    assert (List.filter p l = []) as ->.
    { clear -Hnone. induction l as [|y l IH]; [done|]. simpl. rewrite Hnone by (by left).
      apply IH. intros z Hz. apply Hnone. by right. }
    simpl. rewrite filter_all; [done|]. intros y Hy. by rewrite Hnone.
Qed.

Lemma kept_suffix r seq w w' : journal_ordered w →
  kept (λ row, negb (below r seq row)) w w' →
  history r w = omap decode_entry (List.filter (below r seq) (List.filter (of_run r) (db_events (w_db w))))
                ++ history r w'.
Proof.
  intros Ho Hk. rewrite (kept_history _ _ _ _ Ho Hk), history_ordered by done.
  rewrite <- omap_app. f_equal.
  assert (Hin : ∀ row, In row (List.filter (of_run r) (db_events (w_db w))) →
    below r seq row = bool_decide (j_seq row < seq)%Z).
  { intros row [_ Hr]%filter_In. unfold below. by rewrite Hr. }
  rewrite (filter_ext_in (below r seq) _ _ Hin).
  rewrite (filter_ext_in (λ row, negb (below r seq row)) (λ row, negb (bool_decide (j_seq row < seq)%Z))) by
    (intros row Hrow; by rewrite Hin).
  apply ordered_split; [apply Ho|]. unfold seq_lt. intros x y. rewrite !bool_decide_eq_true. lia.
Qed.

(** *** What the barrier protects *)

Lemma decode_type row e : decode_entry row = Some e →
  en_eventType e = j_eventType row ∧ en_runId e = j_runId row ∧ en_seq e = j_seq row.
Proof. unfold decode_entry. repeat case_match; try done. by intros [= <-]. Qed.

Lemma string_map_app f s t : string_map f (s +:+ t) = string_map f s +:+ string_map f t.
Proof. induction s as [|a s IH]; [done|]. simpl. by rewrite IH. Qed.

Lemma starts_with_same p u : starts_with p (p +:+ u) = true.
Proof.
  unfold starts_with. induction p as [|a p IH]; [by destruct u|].
  simpl. destruct (ascii_dec a a) as [|n]; [exact IH|by destruct n].
Qed.

Lemma like_starts p s : starts_with p s = true → like_prefix p s = true.
Proof.
  intros [u ->]%starts_with_app. unfold like_prefix, toLowerCase. rewrite string_map_app.
  apply starts_with_same.
Qed.

(** Without run and attempt events there is nothing to fold. *)
Lemma fold_nothing rows : Forall (λ row, is_fold_type (j_eventType row) = false) rows →
  foldEntries (omap decode_entry rows) = initial.
Proof.
  unfold foldEntries. induction rows as [|row rows IH]; intros H; [done|].
  apply Forall_cons in H as [Hr H]. simpl. destruct (decode_entry row) as [e|] eqn:He; [|by apply IH].
  simpl. assert (reduceSync initial e = initial) as ->; [|by apply IH].
  apply decode_type in He as (Hty & _).
  apply orb_false_iff in Hr as [H1 H2]. unfold reduceSync. rewrite Hty.
  destruct (asRecord _) as [p|]; [|done].
  destruct (starts_with "flows.run." _) eqn:E1; [apply like_starts in E1; congruence|].
  destruct (starts_with "flows.attempt." _) eqn:E2; [apply like_starts in E2; congruence|].
  destruct (starts_with "flows.consensus." _); [|done]. unfold applyConsensusEvent. simpl.
  by rewrite lookup_empty.
Qed.

Lemma barrier_snapshot r seq w w' : journal_ok w → journal_ordered w →
  kept (λ row, negb (below r seq row)) w w' →
  barrier r seq (db_events (w_db w)) = true → existsb is_snapshot (history r w') = true.
Proof.
  intros Hok Ho Hk Hb. apply existsb_exists in Hb as (row & Hin & Hrow).
  apply andb_true_iff in Hrow as [[Hr Hseq]%andb_true_iff Hty].
  apply bool_decide_eq_true in Hseq, Hty. rewrite (kept_history _ _ _ _ Ho Hk).
  apply list_elem_of_In in Hin. pose proof (ev_checked _ Hok row Hin) as Hchk.
  destruct (decodeRow_checked row w Hchk) as [e He]. rewrite decodeRow_decode in He.
  destruct (decode_entry row) as [e'|] eqn:Hd; [|done].
  apply existsb_exists. exists e'. split.
  - apply list_elem_of_In, list_elem_of_omap. exists row. split; [|done].
    apply elem_of_filter_b. split; [by apply elem_of_filter_b|]. unfold below. rewrite Hr. simpl.
    rewrite bool_decide_false by lia. done.
  - unfold is_snapshot. apply decode_type in Hd as (-> & _). by apply bool_decide_eq_true.
Qed.

(** What compaction leaves replays like the whole, and is covered as the whole
    was. *)
Lemma compacted_replay r seq w w' : journal_ok w → journal_ordered w →
  kept (λ row, negb (below r seq row)) w w' →
  (fold_below r seq (db_events (w_db w)) = true → barrier r seq (db_events (w_db w)) = true) →
  snapshots_cover r (history r w) →
  agree r (foldEntries (history r w)) (foldEntries (history r w'))
  ∧ snapshots_cover r (history r w').
Proof.
  intros Hok Ho Hk Hbar Hcov.
  pose proof (kept_suffix _ _ _ _ Ho Hk) as Hsuf.
  assert (Ha : agree r (foldEntries (history r w)) (foldEntries (history r w'))).
  { destruct (fold_below r seq (db_events (w_db w))) eqn:Hf.
    - apply (Hcov _ _ Hsuf). eapply barrier_snapshot; eauto.
    - rewrite Hsuf, foldEntries_app, fold_nothing; [done|]. apply Forall_forall.
      intros row [[Hin _]%elem_of_filter_b Hb]%elem_of_filter_b.
      destruct (is_fold_type (j_eventType row)) eqn:Hty; [|done].
      rewrite <- Hf. symmetry. apply existsb_exists. exists row. split; [by apply list_elem_of_In|].
      by rewrite Hb. }
  split; [done|]. intros h1 h2 Heq Hsnap. rewrite <- Ha. eapply Hcov; [|done].
  by rewrite Hsuf, Heq, app_assoc.
Qed.
End effects.

(** The owners a fold reads: every owner a replay puts in a row has a process id
    that is a safe integer, so the rows a journal replays to can be snapshot. *)

(** ** The owners a fold reads *)

Section safe.
Context {J : JsonText}.
Implicit Types (s : State) (e : Entry).

Definition safe_owner (o : option OwnerId) : bool :=
  match o with Some o => is_safe_integer (pid o) | None => true end.

(** Every owner of the state has a process id the fold can read. *)
Definition safe_state (s : State) : Prop :=
  map_Forall (λ _ f, safe_owner (f_owner f) = true ∧ safe_owner (f_claim f) = true) (st_runs s).

Lemma ownerFrom_safe v : safe_owner (ownerFrom v) = true.
Proof. unfold ownerFrom. by repeat case_match. Qed.

Lemma fold_consensus_safe ty f o g f' :
  safe_owner (f_owner f) = true → safe_owner (f_claim f) = true → safe_owner (Some o) = true →
  fold_consensus ty f o g = Some f' → safe_owner (f_owner f') = true ∧ safe_owner (f_claim f') = true.
Proof.
  intros Ho Hc Hs H. unfold fold_consensus in H. repeat case_match; simplify_eq; simpl in *; done.
Qed.

Lemma setWaiting_owner f v : f_owner (setWaiting f v) = f_owner f.
Proof. unfold setWaiting. by repeat case_match. Qed.
Lemma setWaiting_claim f v : f_claim (setWaiting f v) = f_claim f.
Proof. unfold setWaiting. by repeat case_match. Qed.

Lemma fold_transitioned_safe f p :
  safe_owner (f_owner f) = true → safe_owner (f_claim f) = true →
  safe_owner (f_owner (fold_transitioned f p)) = true ∧ safe_owner (f_claim (fold_transitioned f p)) = true.
Proof.
  intros Ho Hc. unfold fold_transitioned. cbv zeta.
  match goal with |- context [setWaiting ?t _] => assert (Ht : safe_owner (f_owner t) = true ∧ safe_owner (f_claim t) = true) end.
  { destruct (assoc "status" p) as [[]|], (numberOrNull (assoc "atMs" p)); try done; by case_bool_decide. }
  destruct (own p "waiting"); [|done]. by rewrite !setWaiting_owner, !setWaiting_claim.
Qed.

Lemma reduce_safe s e : safe_state s → safe_state (reduceSync s e).
Proof.
  intros Hs. assert (Hset : ∀ r f, safe_owner (f_owner f) = true → safe_owner (f_claim f) = true →
    safe_state (set_run r f s)) by (intros; by apply map_Forall_insert_2).
  unfold reduceSync. destruct (asRecord _) as [p|]; [|done]. destruct (starts_with "flows.run." _).
  { unfold applyRunEvent. case_bool_decide.
    { unfold fold_created. repeat case_match; try done; simplify_eq; by apply Hset. }
    case_bool_decide.
    { unfold fold_snapshot. repeat case_match; try done; simplify_eq; apply Hset; apply ownerFrom_safe. }
    destruct (st_runs s !! _) as [f|] eqn:Hf; [|done]. apply Hs in Hf as [Ho Hc].
    repeat case_match; try done; apply Hset; try done; by apply fold_transitioned_safe. }
  destruct (starts_with "flows.consensus." _).
  { unfold applyConsensusEvent. destruct (st_runs s !! _) as [f|] eqn:Hf; [|done]. apply Hs in Hf as [Ho Hc].
    destruct (ownerFrom _) as [o|] eqn:Hof; [|done].
    pose proof (ownerFrom_safe (assoc "owner" p)) as Hso. rewrite Hof in Hso.
    destruct (fold_consensus _ _ _ _) as [f'|] eqn:Hfc; [|done].
    apply Hset; by eapply fold_consensus_safe. }
  destruct (starts_with "flows.attempt." _); [|done].
  unfold applyAttemptEvent. by repeat case_match.
Qed.

Lemma fold_safe es : safe_state (foldEntries es).
Proof.
  unfold foldEntries. assert (H : safe_state initial) by (by apply map_Forall_empty).
  revert H. generalize initial. induction es as [|e es IH]; [done|]. intros s H. simpl. by apply IH, reduce_safe.
Qed.

(** So a row the journal replays to shows only such owners. *)
Lemma replayed_safe w r x : replays w r → db_runs (w_db w) !! r = Some x → check_run r x = true →
  safe_pid (r_owner x) = true ∧ safe_pid (r_claim x) = true.
Proof.
  intros [[_ Hf] _] Hx Hchk. rewrite Hx in Hf. apply folds_to_some in Hf as [h Hf].
  pose proof (fold_safe (history r w) _ _ Hf) as [Ho Hc]. simpl in Ho, Hc.
  destruct (row_cols r x Hchk) as (o & c & Eo & Ec). rewrite Eo in *. rewrite Ec in *.
  rewrite ownerFromColumns_cols in Ho. rewrite ownerFromColumns_cols in Hc. by destruct o, c.
Qed.
End safe.
