(* ===== verification/Upkeep.v ===== *)
(** Executions with upkeep: the calls of both stores interleaved with snapshots,
    checkpoints and compactions of the journal, and the automatic compaction of
    [SqlJournal.ts] ([policyCompact]). *)

From S2P Require Export Compaction.

#[local] Open Scope me_scope.

(** ** Automatic compaction *)

Section policy.
Context {J : JsonText} {C : Consensus} (opts : ValidatedOptions).

(** The run's last durable sequence. *)
Definition tail_seq (runId : string) : M (option Z) :=
  events <- get_events ;;
  ret (max_agg (j_seq <$> List.filter (of_run runId) events)).

(** One attempt: checkpoint the tail, snapshot the fold, drop what lies below.
    [capture] and [hook] are the policy's callbacks; a failure is logged and not
    surfaced.  The counter that triggers an attempt is not part of the model. *)
Definition policyCompact (capture : string → Z → json) (hook : option (string → M ()))
    (runId : string) : M () :=
  catch (
    last <- tail_seq runId ;;
    match last with
    | None => ret tt
    | Some upTo =>
        checkpoint runId upTo (capture runId upTo) None ;;
        (match hook with Some snapshot => snapshot runId | None => ret tt end) ;;
        compact runId (Some upTo) None ;;
        ret tt
    end) (λ _, ret tt).
End policy.

(** ** Executions with upkeep *)

Inductive upkeep :=
| Call (c : call)
| TakeSnapshot (runId : string)
| WriteCheckpoint (runId : string) (seq : Z) (state : json) (owner : option OwnerId)
| Compact (runId : string) (upTo : option Z) (owner : option OwnerId)
| AutoCompact (runId : string).

Section upkeep.
Context {J : JsonText} {C : Consensus} {L : ConsensusLaws C} {T : Transactional C}
        (opts : ValidatedOptions) (policy : Policy) (capture : string → Z → json).
Implicit Types (w : World) (r : string).

Definition perform_upkeep (u : upkeep) : M (option answer) :=
  match u with
  | Call c => a <- perform_call opts policy c ;; ret (Some a)
  | TakeSnapshot r => snapshot opts r ;; ret None
  | WriteCheckpoint r seq state owner => checkpoint r seq state owner ;; ret None
  | Compact r upTo owner => compact r upTo owner ;; ret None
  | AutoCompact r => policyCompact capture (Some (snapshot opts)) r ;; ret None
  end.

Fixpoint maintain (us : list upkeep) (w : World) : list (error + option answer) * World :=
  match us with
  | [] => ([], w)
  | u :: us =>
      let '(res, w1) := perform_upkeep u w in
      let '(results, w2) := maintain us w1 in
      (res :: results, w2)
  end.

(** *** What is kept *)

(** The stores are in a good state, the journal of every run replays to its
    tables, and so does any part of it that contains a run snapshot. *)
Record maintained (w : World) : Prop := MkMaintained {
  mt_system : system_ok w;
  mt_replays : ∀ r, replays w r;
  mt_cover : ∀ r, snapshots_cover r (history r w)
}.

Lemma maintained_same w w' : w_db w' = w_db w → (0 ≤ w_clock w')%Z → maintained w → maintained w'.
Proof.
  intros Hdb Hclk [Hok Hre Hcov]. destruct (system_same w w' Hdb Hclk Hok) as [Hok' Hre'].
  split; auto. intros r. unfold history. rewrite Hdb. apply Hcov.
Qed.

(** A failure leaves what was kept, when it leaves tables and clock alone. *)
Lemma preserves_maintained {A} (m : M A) :
  (∀ t, preserves (clock_is t) m) →
  (∀ w e w', m w = (inl e, w') → w_db w' = w_db w) →
  (∀ w a w', maintained w → m w = (inr a, w') → maintained w') →
  preserves maintained m.
Proof.
  intros Hclk Herr Hok w Hw. specialize (Hclk (w_clock w) w eq_refl). unfold clock_is in Hclk.
  destruct (m w) as [[e|a] w'] eqn:Hm; simpl in *; [|by eapply Hok].
  eapply maintained_same; [by eapply Herr| |done]. rewrite Hclk. apply Hw.
Qed.

Lemma history_runs r w : journal_ordered w → Forall (λ e, en_runId e = r) (history r w).
Proof.
  intros Ho. rewrite history_ordered by done. apply Forall_forall.
  intros e (row & Hrow & He)%list_elem_of_omap. apply elem_of_filter_b in Hrow as [_ Hrow].
  unfold of_run in Hrow. apply bool_decide_eq_true in Hrow. apply decode_type in He as (_ & -> & _). done.
Qed.

(** *** Calls of the stores *)

Lemma entries_run ins es r : Forall (λ i, in_runId i = r) ins → Forall2 (entry_of opts) ins es →
  Forall (λ e, en_runId e = r) es.
Proof.
  intros Hi H. induction H as [|i e ins es [Hr _ _] H IH]; [constructor|].
  apply Forall_cons in Hi as [Hi Hs]. constructor; [by rewrite Hr|auto].
Qed.

Lemma no_snapshots es : Forall (λ e, is_snapshot_type (en_eventType e) = false) es →
  existsb is_snapshot es = false.
Proof. induction 1 as [|e es He H IH]; [done|]. simpl. unfold is_snapshot at 1. by rewrite He. Qed.

(** The events an append adds to each run's history. *)
Lemma appended_history w w' r0 ins :
  system_ok w → system_ok w' →
  (∃ new, db_events (w_db w') = db_events (w_db w) ++ new ∧ Forall2 (event_of opts (w_clock w)) ins new) →
  Forall (λ i, in_runId i = r0) ins →
  ∃ es, Forall2 (entry_of opts) ins es
    ∧ ∀ r, history r w' = history r w ++ (if bool_decide (r = r0) then es else []).
Proof.
  intros Hok Hok' (new & Hev & Hnew) Hr. exists (omap decode_entry new). split.
  - apply (decode_new opts) in Hnew as [Hes _]; [done|]. intros q Hq.
    apply (ev_checked _ (so_journal _ (sys_store _ Hok'))). rewrite Hev. apply elem_of_app. by right.
  - intros r. eapply history_append; [apply Hok|apply Hok'|done..].
Qed.

Lemma run_effect_not_snapshot now row l op out row' l' ins :
  row_effect now row l op out row' l' ins →
  Forall (λ i, is_snapshot_type (in_eventType i) = false) ins.
Proof. by destruct 1; repeat constructor. Qed.

Lemma attempt_not_snapshot ins :
  Forall (λ i, starts_with "flows.attempt." (in_eventType i) = true) ins →
  Forall (λ i, is_snapshot_type (in_eventType i) = false) ins.
Proof.
  intros H. eapply Forall_impl; [exact H|]. intros i Hi; cbv beta in *. apply bool_decide_eq_false. intros He.
  by rewrite He in Hi.
Qed.

(** A call appends events that are not snapshots. *)
Lemma call_history c a w w' :
  system_ok w → call_sane c = true → system_ok w' → perform_call opts policy c w = (inr a, w') →
  ∃ r0 es, Forall (λ e, en_runId e = r0) es ∧ existsb is_snapshot es = false
    ∧ ∀ r, history r w' = history r w ++ (if bool_decide (r = r0) then es else []).
Proof.
  intros Hok Hs Hok' H.
  assert (Hsame : w_db w' = w_db w → ∃ r0 es, Forall (λ e, en_runId e = r0) es ∧ existsb is_snapshot es = false
    ∧ ∀ r, history r w' = history r w ++ (if bool_decide (r = r0) then es else [])).
  { intros Hdb. exists "", []. split_and!; [done..|]. intros r. unfold history. rewrite Hdb.
    case_bool_decide; by rewrite app_nil_r. }
  destruct c as [op|op]; simpl in H; apply bind_inr in H as (out & w1 & H & H1);
    apply ret_inr in H1 as [_ ->].
  - destruct (tick_or op) as [[t ->]|Hnt].
    { apply Hsame. simpl in H. apply bind_inr in H as (u & w2 & H1 & H). apply modify_inr in H1 as [_ ->].
      by apply ret_inr in H as [_ ->]. }
    apply perform_op_effect in H as (row' & l' & ins & Hm & He); [|apply Hok|done|apply Hok|done].
    pose proof (effect_inputs _ _ _ _ _ _ _ _ He) as Hr.
    destruct (appended_history w w1 (op_run op) ins Hok Hok' (mv_events _ _ _ _ _ _ _ Hm) Hr) as (es & Hes & Hh).
    exists (op_run op), es. split_and!; [by eapply entries_run| |done].
    apply no_snapshots. apply (entries_types opts ins es is_snapshot_type false); [done|].
    by eapply run_effect_not_snapshot.
  - apply (perform_attempt_answers opts policy) in H as [(row' & ins & Hm & He)|[_ Hdb]];
      [|by apply Hsame|apply Hok|apply Hok].
    destruct (attempt_inputs _ _ _ _ _ _ _ He) as [Hr Hty].
    destruct (appended_history w w1 _ ins Hok Hok' (am_events _ _ _ _ _ _ Hm) Hr) as (es & Hes & Hh).
    exists (id_runId (attempt_id op)), es. split_and!; [by eapply entries_run| |done].
    apply no_snapshots. apply (entries_types opts ins es is_snapshot_type false); [done|].
    by apply attempt_not_snapshot.
Qed.

Lemma call_maintained c res w w' :
  maintained w → call_sane c = true → call_clean opts c → perform_call opts policy c w = (res, w') →
  match res with inr a => call_drops_claim c a = false | inl _ => True end → maintained w'.
Proof.
  intros [Hok Hre Hcov] Hs Hclean H Hdrop.
  destruct (call_replays opts policy c res w w' Hok Hre Hs Hclean H Hdrop) as [Hok' Hre'].
  split; [done..|]. intros r. destruct res as [e|a].
  - destruct c as [op|op]; simpl in H; apply bind_ret_inl in H.
    + apply perform_op_err_db in H. unfold history. rewrite H. apply Hcov.
    + apply (attempt_err_db opts policy) in H. unfold history. rewrite H. apply Hcov.
  - destruct (call_history c a w w' Hok Hs Hok' H) as (r0 & es & Hr & Hes & Hh). rewrite Hh.
    case_bool_decide as E; [subst r0; by apply cover_append|]. rewrite app_nil_r. apply Hcov.
Qed.

(** *** Snapshots *)

Lemma emit_clock t input owner : preserves (clock_is t) (emitDurable opts input owner).
Proof. apply clock_emitDurable. Qed.

Lemma snapshot_clock t r : preserves (clock_is t) (snapshot opts r).
Proof.
  unfold snapshot. apply clock_transact. pose proof (emit_clock t). unfold get_run. solve_preserves.
Qed.

Lemma snapshot_none r w w' :
  system_ok w → db_runs (w_db w) !! r = None → snapshot opts r w = (inr tt, w') → w_db w' = w_db w.
Proof.
  intros Hok Hx H. unfold snapshot in H. apply transact_inr in H as (w0 & w1 & H0 & H & H1).
  apply bind_inr in H as (run & w2 & H2 & H). apply gets_inr in H2 as [-> ->].
  rewrite (ss_db _ _ H0), Hx in H. apply ret_inr in H as [_ ->].
  by rewrite (ss_db _ _ H1), (ss_db _ _ H0).
Qed.

Lemma moved_system w w' r ins : system_ok w →
  moved opts w w' r (db_runs (w_db w) !! r) (lease_of w r) ins → system_ok w'.
Proof.
  intros [Hst Hclk Hord Hatt] Hm. split.
  - eapply moved_ok; [done|exact Hm|apply Hst].
  - by rewrite (mv_clock _ _ _ _ _ _ _ Hm).
  - by apply (mv_ordered _ _ _ _ _ _ _ Hm).
  - by rewrite (mv_attempts _ _ _ _ _ _ _ Hm).
Qed.

Lemma moved_runs w w' r ins : moved opts w w' r (db_runs (w_db w) !! r) (lease_of w r) ins →
  db_runs (w_db w') = db_runs (w_db w).
Proof.
  intros Hm. apply map_eq. intros r'. destruct (decide (r' = r)) as [->|].
  - by rewrite (mv_run _ _ _ _ _ _ _ Hm).
  - by apply (mv_runs _ _ _ _ _ _ _ Hm).
Qed.

(** The set a snapshot appends folds to the run's row and attempts from wherever
    the fold stands, so both the whole history and any part of it that contains
    the set replay to them. *)
Lemma snapshot_maintained r w w' : maintained w → snapshot opts r w = (inr tt, w') → maintained w'.
Proof.
  intros Hw H. pose proof Hw as [Hok Hre Hcov].
  destruct (db_runs (w_db w) !! r) as [x|] eqn:Hx.
  2: { eapply maintained_same; [by eapply snapshot_none| |done].
       pose proof (snapshot_clock (w_clock w) r w eq_refl) as Hc. rewrite H in Hc. unfold clock_is in Hc.
       simpl in Hc. rewrite Hc. apply Hok. }
  pose proof (so_checked _ (sys_store _ Hok) _ _ Hx) as Hchk.
  destruct (replayed_safe w r x (Hre r) Hx Hchk) as [Hpo Hpc].
  pose proof (snapshot_inr opts r x w w' (sys_store _ Hok) Hx H) as Hm. rewrite <- Hx in Hm.
  pose proof (moved_system _ _ _ _ Hok Hm) as Hok'. pose proof (moved_runs _ _ _ _ Hm) as Hruns.
  pose proof (mv_attempts _ _ _ _ _ _ _ Hm) as Hatt.
  destruct (appended_history w w' r _ Hok Hok' (mv_events _ _ _ _ _ _ _ Hm) (snapshot_set_run r x _))
    as (es & Hes & Hh).
  pose proof (λ s, snapshot_set_folds opts r x w es s Hok Hx Hpo Hpc Hes) as Hfold. cbv zeta in Hfold.
  assert (Hother : ∀ r', r' ≠ r → history r' w' = history r' w).
  { intros r' Hne. rewrite Hh, bool_decide_false by done. by rewrite app_nil_r. }
  specialize (Hh r). rewrite bool_decide_true in Hh by done.
  pose proof (entries_run _ _ _ (snapshot_set_run r x _) Hes) as Hesr.
  split; [done|intros r'|intros r'].
  - destruct (decide (r' = r)) as [->|Hne].
    + destruct (Hre r) as [[Hst _] Hat]. destruct (Hfold (foldEntries (history r w))) as [H1 H2]. split.
      * split; [by rewrite Hruns|]. unfold fold_run. rewrite Hh, foldEntries_app, H1, Hruns, Hx. done.
      * intros id Hid. rewrite Hh, foldEntries_app, H2, Hat, Hatt by done.
        by destruct (db_attempts (w_db w) !! key_of id).
    + destruct (Hre r') as [Hco Hat]. unfold coherent, fold_run in Hco.
      split; [unfold coherent, fold_run; by rewrite Hother, Hruns|]. intros id Hid. rewrite Hother, Hatt by done. auto.
  - destruct (decide (r' = r)) as [->|Hne]; [|rewrite Hother by done; apply Hcov].
    rewrite Hh. inversion Hes as [|i e ins es' He Hes' Ei Ee]. subst es.
    apply cover_snapshot.
    + apply no_snapshots. eapply entries_types; [exact Hes'|]. by apply Forall_fmap, Forall_true.
    + intros h1 k Hk. destruct (Hfold (foldEntries (history r w))) as [H1 H2].
      destruct (Hfold (foldEntries k)) as [H3 H4]. split; [by rewrite H1, H3|].
      intros id Hid. rewrite H2, H4 by done. destruct (db_attempts (w_db w) !! key_of id) as [a|] eqn:Ha; [done|].
      assert (Hn : st_attempts (foldEntries (history r w)) !! fold_key id = None)
        by (by rewrite (re_attempts _ _ (Hre r)), Ha).
      rewrite Hn. symmetry. rewrite Hk in Hn. exact (within_suffix h1 k _ Hn).
Qed.

(** *** Checkpoints and compactions *)

Lemma guard_opt_clock t r owner :
  preserves (clock_is t) (match owner with Some o => fenceGuard r o | None => ret tt end : M ()).
Proof. pose proof (clock_guard t). unfold fenceGuard. solve_preserves. Qed.

Lemma put_checkpoint_clock t k row : preserves (clock_is t) (put_checkpoint k row).
Proof. unfold put_checkpoint, sql_fail. solve_preserves. Qed.

Lemma checkpoint_clock t r seq state owner : preserves (clock_is t) (checkpoint r seq state owner).
Proof.
  pose proof (guard_opt_clock t). pose proof (put_checkpoint_clock t).
  unfold checkpoint, get_events, compactionFloor, clock.
  repeat first [progress solve_preserves | apply preserves_clock_write].
Qed.

Lemma compact_clock t r upTo owner : preserves (clock_is t) (compact r upTo owner).
Proof.
  pose proof (guard_opt_clock t). pose proof (put_checkpoint_clock t).
  unfold compact, get_events, select_checkpoint, clock.
  repeat first [progress solve_preserves | apply preserves_clock_write].
Qed.

Lemma journal_write_err_db {A} (body : M A) w e w' :
  map_error journal_write_error (write body) w = (inl e, w') → w_db w' = w_db w.
Proof.
  unfold map_error. destruct (write body w) as [[e'|a] w1] eqn:Hw; [|done]. intros [= _ <-].
  by eapply write_err_db.
Qed.

Lemma checkpoint_err_db r seq state owner w e w' :
  checkpoint r seq state owner w = (inl e, w') → w_db w' = w_db w.
Proof.
  unfold checkpoint. destruct (negb (nonempty r)); [by intros ->%fail_inl|].
  destruct (_ || _); [by intros ->%fail_inl|]. intros H%clock_inl. by eapply journal_write_err_db.
Qed.

Lemma compact_err_db r upTo owner w e w' :
  compact r upTo owner w = (inl e, w') → w_db w' = w_db w.
Proof.
  unfold compact. destruct (negb (nonempty r)); [by intros ->%fail_inl|].
  intros H%clock_inl. by eapply journal_write_err_db.
Qed.

Lemma agree_replays w w' r : agree r (foldEntries (history r w)) (foldEntries (history r w')) →
  db_runs (w_db w') = db_runs (w_db w) → db_attempts (w_db w') = db_attempts (w_db w) →
  replays w r → replays w' r.
Proof.
  intros [Hrun Hatt] Hr Ha [Hco Hat]. split.
  - unfold coherent, fold_run in *. by rewrite <- Hrun, Hr.
  - intros id Hid. rewrite <- Hatt, Ha by done. auto.
Qed.

Lemma kept_all_maintained w w' : kept (λ _, true) w w' → maintained w → maintained w'.
Proof.
  intros Hk [Hok Hre Hcov]. pose proof (kept_system _ _ _ Hk Hok) as Hok'.
  assert (Hh : ∀ r, history r w' = history r w).
  { intros r. unfold history. by rewrite (kp_events _ _ _ Hk), (filter_all (λ _, true)). }
  split; [done| |intros r; by rewrite Hh]. intros r.
  apply (agree_replays w w' r); [by rewrite Hh|apply Hk|apply Hk|apply Hre].
Qed.

Lemma compact_maintained r upTo owner w c w' :
  maintained w → compact r upTo owner w = (inr c, w') → maintained w'.
Proof.
  intros Hw H. pose proof Hw as [Hok Hre Hcov].
  apply compact_inr in H as [[-> _]|(Hk & Hbar & _)]; [done| |apply Hok].
  pose proof (kept_system _ _ _ Hk Hok) as Hok'. pose proof (so_journal _ (sys_store _ Hok)) as Hj.
  assert (H : ∀ r', agree r' (foldEntries (history r' w)) (foldEntries (history r' w'))
                    ∧ snapshots_cover r' (history r' w')).
  { intros r'. destruct (decide (r' = r)) as [->|Hne].
    - eapply compacted_replay; [done|apply Hok|done|done|apply Hcov].
    - rewrite (kept_other _ _ _ _ _ Hne (sys_ordered _ Hok) Hk). split; [done|apply Hcov]. }
  split; [done| |apply H]. intros r'.
  apply (agree_replays w w'); [apply H|apply Hk|apply Hk|apply Hre].
Qed.

Lemma maintained_snapshot r : preserves maintained (snapshot opts r).
Proof.
  apply preserves_maintained; [intros t; apply snapshot_clock| |].
  - intros w e w' H. unfold snapshot in H. by eapply transact_err_db.
  - intros w [] w' Hw H. by eapply snapshot_maintained.
Qed.
Lemma maintained_checkpoint r seq state owner : preserves maintained (checkpoint r seq state owner).
Proof.
  apply preserves_maintained; [intros t; apply checkpoint_clock|apply checkpoint_err_db|].
  intros w k w' Hw H. apply checkpoint_inr in H; [|apply Hw]. by eapply kept_all_maintained.
Qed.
Lemma maintained_compact r upTo owner : preserves maintained (compact r upTo owner).
Proof.
  apply preserves_maintained; [intros t; apply compact_clock|apply compact_err_db|].
  intros w c w' Hw H. by eapply compact_maintained.
Qed.
Lemma maintained_auto r : preserves maintained (policyCompact capture (Some (snapshot opts)) r).
Proof.
  pose proof maintained_snapshot. pose proof maintained_checkpoint. pose proof maintained_compact.
  unfold policyCompact, tail_seq, get_events. solve_preserves.
Qed.

(** *** Executions *)

Definition upkeep_sane (u : upkeep) : bool := match u with Call c => call_sane c | _ => true end.
Definition upkeep_clean (u : upkeep) : Prop := match u with Call c => call_clean opts c | _ => True end.
Definition upkeep_drops_claim (u : upkeep) (res : error + option answer) : bool :=
  match u, res with Call c, inr (Some a) => call_drops_claim c a | _, _ => false end.

Lemma upkeep_maintained u res w w' :
  maintained w → upkeep_sane u = true → upkeep_clean u → perform_upkeep u w = (res, w') →
  upkeep_drops_claim u res = false → maintained w'.
Proof.
  intros Hw Hs Hclean H Hdrop.
  assert (Hm : ∀ A (m : M A), preserves maintained m → (m ;; ret None) w = (res, w') → maintained w').
  { intros A m Hm E. specialize (Hm w Hw). unfold bind in E.
    destruct (m w) as [[e|a] w1]; by injection E as _ <-. }
  destruct u as [c|r|r seq state owner|r upTo owner|r]; simpl in *.
  - unfold bind in H. destruct (perform_call opts policy c w) as [[e|a] w1] eqn:Hc; injection H as <- <-;
      by eapply call_maintained.
  - eapply Hm; [apply (maintained_snapshot r)|done].
  - eapply Hm; [apply (maintained_checkpoint r seq state owner)|done].
  - eapply Hm; [apply (maintained_compact r upTo owner)|done].
  - eapply Hm; [apply (maintained_auto r)|done].
Qed.

(** No activation of the execution found its snapshot moved. *)
Fixpoint claims_kept (us : list upkeep) (w : World) : bool :=
  match us with
  | [] => true
  | u :: us => let '(res, w1) := perform_upkeep u w in negb (upkeep_drops_claim u res) && claims_kept us w1
  end.

Lemma maintain_maintained us w :
  maintained w → forallb upkeep_sane us = true → Forall upkeep_clean us → claims_kept us w = true →
  maintained (maintain us w).2.
Proof.
  revert w. induction us as [|u us IH]; intros w Hw Hs Hclean Hk; [done|]. simpl in *.
  apply andb_true_iff in Hs as [Hu Hs]. apply Forall_cons in Hclean as [Hcl Hclean].
  destruct (perform_upkeep u w) as [res w1] eqn:Hp. apply andb_true_iff in Hk as [Hd Hk].
  apply negb_true_iff in Hd. specialize (IH w1).
  destruct (maintain us w1) as [results w2]. apply IH; try done. by eapply upkeep_maintained.
Qed.

(** Where executions start: the tables are empty and no run has a lease.  The
    journal layer may be in any state, live streams included. *)
Record blank (w : World) : Prop := MkBlank {
  bl_tables : w_db w = empty_db;
  bl_clock : (0 ≤ w_clock w)%Z;
  bl_strategy : cs_wf w;
  bl_leases : ∀ r, lease_of w r = Spec.none
}.

Lemma blank_maintained w : blank w → maintained w.
Proof.
  intros [Hdb Hclk Hwf Hl].
  assert (Hh : ∀ r, history r w = []) by (intros r; unfold history; by rewrite Hdb).
  split.
  - split; [split| | |]; [done| | | |done| |].
    + unfold journal_ok. rewrite Hdb. split; [by intros ? ?%not_elem_of_nil..| |]; apply NoDup_nil_2.
    + intros r x. by rewrite Hdb.
    + intros r. rewrite Hdb, Hl. by split.
    + intros r. rewrite Hdb. constructor.
    + intros id x. by rewrite Hdb.
  - intros r. split.
    + unfold coherent, fold_run. rewrite Hh, Hdb. by split; rewrite ?Hl.
    + intros id Hid. by rewrite Hh, Hdb.
  - intros r h1 h2 H Hs. rewrite Hh in H. symmetry in H. by apply app_eq_nil in H as [-> ->].
Qed.

(** An execution of sane calls from a blank world, with clean owners and no
    activation whose snapshot moved. *)
Record lawful (us : list upkeep) (w : World) : Prop := MkLawful {
  lw_blank : blank w;
  lw_sane : forallb upkeep_sane us = true;
  lw_clean : Forall upkeep_clean us;
  lw_kept : claims_kept us w = true
}.

Lemma lawful_maintained us w : lawful us w → maintained (maintain us w).2.
Proof. intros [Hb Hs Hc Hk]. apply maintain_maintained; [by apply blank_maintained|done..]. Qed.
End upkeep.
