(* ===== verification/UpkeepTheorems.v ===== *)
(** What replay gives over whole executions, and what compaction answers, drops
    and keeps. *)

From S2P Require Export Upkeep.

#[local] Open Scope me_scope.

Section theorems.
Context {J : JsonText} {C : Consensus} {L : ConsensusLaws C} {T : Transactional C}
        (opts : ValidatedOptions) (policy : Policy) (capture : string → Z → json).
Implicit Types (w : World) (r : string).

(** C1. The journal is the write-ahead log of the run and attempt tables. Take any
    interleaving of calls on the run store and the attempt store with snapshots,
    checkpoints, compactions and automatic compactions of any runs, failed and
    refused ones included, from empty tables. Afterwards, folding the events the
    journal still holds of a run gives back every column of its row except the
    heartbeat, no row when it has none, and every attempt of the run, column for
    column but the heartbeat. Four things are asked of the calls: the clock readings
    they name are not negative; nobody steals a run from itself
    ([self_steal_diverges] shows what one such steal does); the journal's redactor
    leaves the owners they name as they are; and no [activate] found that its
    snapshot had moved (that branch clears the row's claim and appends nothing). *)
Theorem journal_rebuilds_tables us w :
  lawful opts policy capture us w →
  let w' := (maintain opts policy capture us w).2 in
  (∀ r, forget_heartbeat <$> fold_run r w'
        = (λ x, forget_heartbeat (row_fold r x)) <$> db_runs (w_db w') !! r)
  ∧ ∀ id, st_attempts (foldEntries (history (id_runId id) w')) !! fold_key id
          = attempt_fold id <$> db_attempts (w_db w') !! key_of id.
Proof.
  intros Hl. destruct (lawful_maintained opts policy capture us w Hl) as [_ H _].
  split; [intros r; apply (H r)|]. intros id. by apply (H (id_runId id)).
Qed.

(** *** What a compaction answers *)

(** The stream cursors of the run that a compaction to [seq] would overtake. *)
Definition reader_behind (w : World) (r : string) (seq : Z) : bool :=
  existsb (λ cursor, bool_decide (cursor < seq - 1)%Z) (default [] (p_readers (w_proc w) !! r)).

Lemma journal_write_refused {A} (body : M A) w e w1 :
  body w = (inl e, w1) → is_class JournalError e = true → w_proc w1 = w_proc w → w_local w1 = w_local w →
  w_clock w1 = w_clock w →
  map_error journal_write_error (write body) w = (inl e, w).
Proof.
  intros Hb He Hp Hl Hc. unfold map_error, write. rewrite Hb.
  assert (is_class SqlError e = false) as ->.
  { unfold is_class in *. apply bool_decide_eq_true in He. by rewrite He. }
  unfold journal_write_error, isJournalError. rewrite He. f_equal. destruct w, w1; simpl in *. by subst.
Qed.

Lemma compact_answered r seq k w :
  nonempty r = true → db_checkpoints (w_db w) !! (r, seq) = Some k → k_compactedAtMs k = None →
  check_checkpoint (r, seq) k = true → stamp_ok (w_clock w) = true →
  let events := db_events (w_db w) in
  if reader_behind w r seq || (fold_below r seq events && negb (barrier r seq events))
  then compact r (Some seq) None w = (inl (jerror_at "reader_behind" seq), w)
  else ∃ w', compact r (Some seq) None w
               = (inr (MkCompacted r seq (Z.of_nat (length (List.filter (below r seq) events)))), w')
             ∧ kept (λ row, negb (below r seq row)) w w'
             ∧ (∃ k', db_checkpoints (w_db w') !! (r, seq) = Some k' ∧ k_compactedAtMs k' = Some (w_clock w))
             ∧ ∀ s, (s < seq)%Z → db_checkpoints (w_db w') !! (r, s) = None.
Proof.
  intros Hr Hk Hc Hchk Hclk events.
  assert (Hsel : select_checkpoint r (Some seq) w = (inr (Some (seq, k)), w)).
  { unfold select_checkpoint. step. unfold ret. simpl. by rewrite Hk. }
  assert (Hput : check_checkpoint (r, seq) (MkCheckpointRow (k_stateJson k) (k_createdAtMs k) (Some (w_clock w))) = true).
  { unfold check_checkpoint in *. rewrite Hc in Hchk. simpl in *. by rewrite Hclk, andb_true_r in *. }
  destruct (reader_behind w r seq || _) eqn:Hb; unfold compact; rewrite Hr; cbn [negb]; unfold clock; step.
  - apply (journal_write_refused _ _ _ w); try done. step. step_by Hsel. cbv beta iota. rewrite Hc. cbn [is_null negb].
    step. fold (reader_behind w r seq). destruct (reader_behind w r seq); [done|]. simpl in Hb.
    unfold get_events. step. fold (fold_below r seq (db_events (w_db w))). fold (barrier r seq (db_events (w_db w))).
    fold events. by rewrite Hb.
  - apply orb_false_iff in Hb as [Hrd Hb]. eexists. split.
    + unfold map_error. erewrite write_ok; [reflexivity|]. step. step_by Hsel. cbv beta iota. rewrite Hc. cbn [is_null negb].
      step. fold (reader_behind w r seq). rewrite Hrd. unfold get_events. step.
      fold (fold_below r seq (db_events (w_db w))). fold (barrier r seq (db_events (w_db w))).
      fold events. rewrite Hb. step. step. unfold put_checkpoint. rewrite Hput. step. reflexivity.
    + split_and!; [by split| |].
      * eexists. split; [simpl; by rewrite lookup_insert_eq|done].
      * intros s Hs. simpl. rewrite lookup_insert_ne by (intros [= ->]; lia). apply map_lookup_filter_None_2.
        right. intros row _. simpl. rewrite !bool_decide_true by done. done.
Qed.

Lemma history_from r seq w w' : journal_ordered w →
  kept (λ row, negb (below r seq row)) w w' →
  history r w' = List.filter (λ e, bool_decide (seq ≤ en_seq e)%Z) (history r w).
Proof.
  intros Ho Hk. rewrite (kept_history _ _ _ _ Ho Hk), history_ordered by done.
  generalize (db_events (w_db w)). intros rows. induction rows as [|row rows IH]; [done|]. simpl.
  destruct (of_run r row) eqn:Hr; [|done]. simpl. unfold below at 1. rewrite Hr. simpl.
  destruct (decode_entry row) as [e|] eqn:He; case_bool_decide as Hlt; simpl; rewrite ?He; try exact IH.
  - apply decode_type in He as (_ & _ & ->). by rewrite bool_decide_false by lia.
  - apply decode_type in He as (_ & _ & ->). rewrite bool_decide_true by lia. by f_equal.
Qed.

(** C36. Compaction loses nothing, after any execution from empty tables whose calls
    name no negative clock reading and no self-steal, whose owners the journal's
    redactor leaves alone, and in which no [activate] found its snapshot moved; any
    streams may be live. Asked to compact a run to an uncompacted checkpoint that
    passes its table's checks, while the clock shows a safe time, [compact] refuses
    with [reader_behind], and changes nothing, when a live stream still needs what
    lies below, or when run or attempt events lie below and no snapshot of the run
    lies at or above the checkpoint. Otherwise it succeeds: it reports as many
    events as it deletes, the history left is exactly the part from the checkpoint
    on, other runs keep theirs, no row changes, and every run replays to the very
    state it replayed to before. *)
Theorem compaction_is_lossless us w0 r seq k w :
  lawful opts policy capture us w0 → w_db w = w_db (maintain opts policy capture us w0).2 →
  nonempty r = true → db_checkpoints (w_db w) !! (r, seq) = Some k →
  k_compactedAtMs k = None → check_checkpoint (r, seq) k = true → stamp_ok (w_clock w) = true →
  let events := db_events (w_db w) in
  if reader_behind w r seq || (fold_below r seq events && negb (barrier r seq events))
  then compact r (Some seq) None w = (inl (jerror_at "reader_behind" seq), w)
  else ∃ n w', compact r (Some seq) None w = (inr (MkCompacted r seq n), w')
    ∧ n = Z.of_nat (length (List.filter (below r seq) events))
    ∧ history r w' = List.filter (λ e, bool_decide (seq ≤ en_seq e)%Z) (history r w)
    ∧ (∀ r', r' ≠ r → history r' w' = history r' w)
    ∧ db_runs (w_db w') = db_runs (w_db w) ∧ db_attempts (w_db w') = db_attempts (w_db w)
    ∧ ∀ r', agree r' (foldEntries (history r' w)) (foldEntries (history r' w')).
Proof.
  intros Hl Hdb Hr Hk Hc Hchk Hclk events.
  assert (Hw : maintained w).
  { eapply maintained_same; [exact Hdb|by apply stamp_ok_spec in Hclk as [? _]|by apply lawful_maintained]. }
  pose proof (compact_answered r seq k w Hr Hk Hc Hchk Hclk) as H.
  fold events in H. cbv zeta in H. destruct (_ || _) eqn:Hb; [done|].
  destruct H as (w' & H & Hkept & _). pose proof Hw as [Hok _ Hcov]. pose proof (sys_ordered _ Hok) as Ho.
  eexists _, w'. split_and!; [exact H|done|by apply history_from| |apply Hkept|apply Hkept|].
  - intros r' Hne. by eapply kept_other.
  - intros r'. destruct (decide (r' = r)) as [->|Hne]; [|by rewrite (kept_other _ _ _ _ _ Hne Ho Hkept)].
    apply (compacted_replay r seq w w'); [apply (so_journal _ (sys_store _ Hok))|done|done| |apply Hcov].
    intros Hf. apply orb_false_iff in Hb as [_ Hb]. fold events in Hf. rewrite Hf in Hb.
    by apply negb_false_iff in Hb.
Qed.

(** *** Automatic compaction *)

(** The floor is at or above every compacted checkpoint. *)
Lemma floor_above r seq row ts w :
  db_checkpoints (w_db w) !! (r, seq) = Some row → k_compactedAtMs row = Some ts →
  ∃ f, compactionFloor r w = (inr (Some f), w) ∧ (seq ≤ f)%Z.
Proof.
  intros Hrow Hts. unfold compactionFloor. step. unfold ret.
  match goal with |- context [max_agg ?l] => destruct (max_agg_ge l seq) as (m & -> & Hge) end; [|by exists m].
  apply list_elem_of_omap. exists ((r, seq), row). split; [by apply elem_of_map_to_list|]. simpl.
  rewrite Hts. by rewrite bool_decide_true.
Qed.

(** A checkpoint that was accepted is there, passes the table's constraints and is
    not compacted: a compacted one is at or below the floor. *)
Lemma checkpoint_stored r seq state w k w' :
  checkpoint r seq state None w = (inr k, w') →
  nonempty r = true ∧ ∃ row, db_checkpoints (w_db w') !! (r, seq) = Some row
    ∧ k_compactedAtMs row = None ∧ check_checkpoint (r, seq) row = true.
Proof.
  intros H. unfold checkpoint in H. destruct (nonempty r) eqn:Hr; [|done]. cbn [negb] in H.
  split; [done|]. destruct (_ || _); [done|].
  apply bind_inr in H as (t & w1 & H1 & H). apply gets_inr in H1 as [-> ->].
  apply map_error_inr, write_inv in H. apply bind_inr in H as (u & w1 & H1 & H). apply ret_inr in H1 as [_ ->].
  apply bind_inr in H as (l & w1 & H1 & H). apply gets_inr in H1 as [-> ->]. destruct (negb _); [done|].
  apply bind_inr in H as (fl & w1 & Hfl & H).
  destruct (match fl with Some f => bool_decide (seq ≤ f)%Z | None => false end) eqn:Hle; [done|].
  apply bind_inr in H as (ex & w2 & H1 & H). apply gets_inr in H1 as [-> ->].
  apply bind_inr in H as (u2 & w2 & H1 & H). unfold put_checkpoint in H1.
  destruct (check_checkpoint _ _) eqn:Hchk in H1; [|done]. apply modify_inr in H1 as [_ ->].
  apply ret_inr in H as [_ ->]. eexists. simpl. rewrite lookup_insert_eq. split_and!; [done| |done].
  simpl. destruct (db_checkpoints (w_db w1) !! (r, seq)) as [row|] eqn:Hrow; [|done].
  destruct (k_compactedAtMs row) as [ts|] eqn:Hts; [|done]. exfalso.
  assert (w1 = w) as -> by (unfold compactionFloor in Hfl; by inv_ok Hfl).
  destruct (floor_above r seq row ts w Hrow Hts) as (f & Hf & Hge). rewrite Hf in Hfl. simplify_eq.
  by rewrite bool_decide_true in Hle.
Qed.

(** The tail is the last event of the history. *)
Lemma tail_last r n w : journal_ok w → journal_ordered w → tail_seq r w = (inr (Some n), w) →
  ∃ e, en_seq e = n ∧ last (history r w) = Some e
    ∧ List.filter (λ e, bool_decide (n ≤ en_seq e)%Z) (history r w) = [e].
Proof.
  intros Hj Ho H. unfold tail_seq in H. apply bind_inr in H as (l & w1 & H1 & H).
  apply gets_inr in H1 as [-> ->]. apply ret_inr in H as [H _]. symmetry in H.
  rewrite history_ordered by done. specialize (Ho r).
  assert (Hchk : ∀ row, row ∈ List.filter (of_run r) (db_events (w_db w)) → check_event row = true)
    by (intros row [Hrow _]%elem_of_filter_b; by apply (ev_checked _ Hj)).
  revert Ho Hchk H. generalize (List.filter (of_run r) (db_events (w_db w))). intros rows.
  destruct rows as [|q rows _] using rev_ind; [done|]. intros Hs Hchk Hmax.
  assert (Hlt : ∀ row, row ∈ rows → (j_seq row < j_seq q)%Z).
  { intros row Hrow. eapply (StronglySorted_app_1_elem_of seq_lt) in Hs; [exact Hs|done|by apply list_elem_of_singleton]. }
  assert (Hq : j_seq q = n).
  { rewrite (max_agg_unique _ (j_seq q)) in Hmax; [congruence| |].
    - apply list_elem_of_fmap. exists q. split; [done|]. apply elem_of_app. right. by apply list_elem_of_singleton.
    - intros m (row & -> & Hrow)%list_elem_of_fmap. apply elem_of_app in Hrow as [Hrow|Hrow].
      + apply Hlt in Hrow. lia.
      + apply list_elem_of_singleton in Hrow as ->. lia. }
  assert (Hqc : check_event q = true) by (apply Hchk, elem_of_app; right; by apply list_elem_of_singleton).
  destruct (decodeRow_checked q w Hqc) as [e He]. rewrite decodeRow_decode in He.
  destruct (decode_entry q) as [e'|] eqn:Hd; [|done]. exists e'.
  pose proof (decode_type _ _ Hd) as (_ & _ & Hseq). rewrite omap_app. simpl. rewrite Hd.
  split_and!; [congruence|by rewrite last_snoc|]. rewrite List.filter_app. simpl.
  rewrite bool_decide_true by lia. cut (List.filter (λ e, bool_decide (n ≤ en_seq e)%Z) (omap decode_entry rows) = []);
    [by intros ->|].
  clear -Hlt Hq. induction rows as [|row rows IH]; [done|]. simpl.
  assert (Hrow : (j_seq row < j_seq q)%Z) by (apply Hlt; by left).
  assert (IH' := IH (λ x Hx, Hlt x (list_elem_of_further _ _ _ Hx))).
  destruct (decode_entry row) as [e|] eqn:He; [|done]. simpl.
  apply decode_type in He as (_ & _ & ->). by rewrite bool_decide_false by lia.
Qed.

Definition entry_lt (a b : Entry) : Prop := (en_seq a < en_seq b)%Z.

Lemma history_sorted r w : journal_ordered w → StronglySorted entry_lt (history r w).
Proof.
  intros Ho. rewrite history_ordered by done. specialize (Ho r).
  induction Ho as [|row rows H IH Hlt]; [constructor|]. simpl.
  destruct (decode_entry row) as [e|] eqn:He; [|done]. constructor; [done|].
  rewrite Forall_forall in Hlt. apply Forall_forall. intros e' (row' & Hrow & He')%list_elem_of_omap. apply Hlt in Hrow.
  apply decode_type in He as (_ & _ & He), He' as (_ & _ & He'). unfold entry_lt, seq_lt in *. lia.
Qed.

Lemma snapshot_barrier r n w e : e ∈ history r w → is_snapshot e = true → (n ≤ en_seq e)%Z →
  barrier r n (db_events (w_db w)) = true.
Proof.
  intros He Hs Hn. unfold history in He. apply list_elem_of_omap in He as (row & Hrow & He).
  unfold order_by_seq in Hrow. rewrite merge_sort_Permutation in Hrow.
  apply elem_of_filter_b in Hrow as [Hin Hr]. apply decode_type in He as (Hty & _ & Hseq).
  apply existsb_exists. exists row. split; [by apply list_elem_of_In|]. unfold is_snapshot, is_snapshot_type in Hs.
  apply bool_decide_eq_true in Hs. rewrite Hr, !bool_decide_true by (congruence || lia). done.
Qed.

(** The events a snapshot of a run appends to its history. *)
Lemma snapshot_history r x w w' : system_ok w → db_runs (w_db w) !! r = Some x →
  snapshot opts r w = (inr tt, w') →
  system_ok w' ∧ db_checkpoints (w_db w') = db_checkpoints (w_db w) ∧ w_clock w' = w_clock w
  ∧ ∃ es, Forall2 (entry_of opts) (snapshot_set r x (db_attempts (w_db w))) es
      ∧ history r w' = history r w ++ es.
Proof.
  intros Hok Hx H. pose proof (snapshot_inr opts r x w w' (sys_store _ Hok) Hx H) as Hm. rewrite <- Hx in Hm.
  pose proof (moved_system opts _ _ _ _ Hok Hm) as Hok'. split_and!; [done|apply Hm|apply Hm|].
  destruct (appended_history opts w w' r _ Hok Hok' (mv_events _ _ _ _ _ _ _ Hm) (snapshot_set_run r x _))
    as (es & Hes & Hh).
  exists es. split; [done|]. by rewrite Hh, bool_decide_true.
Qed.

(** Automatic compaction goes through.  When the checkpoint and the snapshot of
    an attempt succeed for a run that has a row, and no live stream is behind its
    last event, the compaction that follows is not refused: what the journal then
    holds of the run is its last event before the attempt and the snapshot set of
    its row and attempts, and every run replays to what it did. *)
Theorem auto_compaction_compacts r x n k w w1 w2 :
  maintained w → db_runs (w_db w) !! r = Some x → stamp_ok (w_clock w) = true →
  tail_seq r w = (inr (Some n), w) → checkpoint r n (capture r n) None w = (inr k, w1) →
  snapshot opts r w1 = (inr tt, w2) → reader_behind w2 r n = false →
  ∃ w3 e es, policyCompact capture (Some (snapshot opts)) r w = (inr tt, w3)
    ∧ last (history r w) = Some e ∧ history r w3 = e :: es
    ∧ Forall2 (entry_of opts) (snapshot_set r x (db_attempts (w_db w))) es
    ∧ ∀ r', agree r' (foldEntries (history r' w2)) (foldEntries (history r' w3)).
Proof.
  intros Hw Hx Hclk Htail Hck Hsnap Hrd. pose proof Hw as [Hok _ _].
  destruct (checkpoint_stored _ _ _ _ _ _ Hck) as (Hr & row & Hrow & Hc & Hchk).
  pose proof (checkpoint_inr _ _ _ _ _ _ _ (so_wf _ (sys_store _ Hok)) Hck) as Hk1.
  pose proof (kept_all_maintained _ _ Hk1 Hw) as Hw1.
  assert (Hh1 : history r w1 = history r w).
  { unfold history. by rewrite (kp_events _ _ _ Hk1), (filter_all (λ _, true)). }
  destruct (snapshot_history r x w1 w2 (mt_system _ Hw1)) as (Hok2 & Hdb & Hclk2 & es & Hes & Hh2);
    [by rewrite (kp_runs _ _ _ Hk1)|done|].
  rewrite (kp_attempts _ _ _ Hk1) in Hes. rewrite Hh1 in Hh2.
  pose proof (snapshot_maintained opts r w1 w2 Hw1 Hsnap) as Hw2.
  destruct (tail_last r n w (so_journal _ (sys_store _ Hok)) (sys_ordered _ Hok) Htail) as (e & Hn & Hlast & Hfil).
  assert (Hge : ∀ e', e' ∈ es → (n < en_seq e')%Z).
  { intros e' He'. pose proof (history_sorted r w2 (sys_ordered _ Hok2)) as Hs. rewrite Hh2 in Hs.
    eapply (StronglySorted_app_1_elem_of entry_lt _ _ e e') in Hs; [unfold entry_lt in Hs; lia| |done].
    by apply last_Some_elem_of. }
  pose proof Hes as Hes0. inversion Hes as [|i e0 ins es' He0 Hes' Ei Ee].
  assert (Hbar : barrier r n (db_events (w_db w2)) = true).
  { apply (snapshot_barrier r n w2 e0).
    - rewrite Hh2, <- Ee. apply elem_of_app. right. by left.
    - unfold is_snapshot. by rewrite (eo_eventType _ _ _ He0).
    - assert (n < en_seq e0)%Z; [|lia]. apply Hge. rewrite <- Ee. by left. }
  assert (Hst : stamp_ok (w_clock w2) = true) by (by rewrite Hclk2, (kp_clock _ _ _ Hk1)).
  rewrite <- Hdb in Hrow. pose proof (compact_answered r n row w2 Hr Hrow Hc Hchk Hst) as Hcp. cbv zeta in Hcp.
  rewrite Hrd, Hbar, andb_false_r in Hcp. cbn [orb] in Hcp.
  destruct Hcp as (w3 & H3 & Hk3 & _).
  exists w3, e, es. split_and!; [|done| |done|].
  - unfold policyCompact, catch. step_by Htail. cbv beta iota. step_by Hck. step_by Hsnap. by step_by H3.
  - rewrite (history_from r n w2 w3 (sys_ordered _ Hok2) Hk3), Hh2, List.filter_app, Hfil. simpl. f_equal.
    apply filter_all. intros e' He'. apply Hge in He'. by rewrite bool_decide_true by lia.
  - intros r'. destruct (decide (r' = r)) as [->|Hne].
    + apply (compacted_replay r n w2 w3); [apply (so_journal _ (sys_store _ Hok2))|apply Hok2|done|done|apply Hw2].
    + by rewrite (kept_other _ _ _ _ _ Hne (sys_ordered _ Hok2) Hk3).
Qed.
End theorems.

(** ** The hypotheses hold: a maintained execution *)

Module UpkeepDemo.
Import Ex.

Definition capture (runId : string) (upTo : Z) : json := JNum upTo.

(** [alice] takes the run and starts an attempt; the journal compacts itself; [bob]
    takes the run over, and the run is compacted once more by hand. *)
Definition steps : list upkeep :=
  (Call ∘ RunCall <$> RunDemo.start_ops) ++ (Call <$> SystemDemo.attempt_calls) ++ [AutoCompact "r"]
  ++ (Call ∘ RunCall <$> RunDemo.takeover_ops)
  ++ [TakeSnapshot "r"; WriteCheckpoint "r" 12 JNull None; Compact "r" None None].

Definition maintain_demo (us : list upkeep) (w : World) : World :=
  (maintain (C:=sql_consensus) Demo.opts SystemDemo.policy capture us w).2.

Definition worked : World := Eval vm_compute in
  maintain_demo ((Call ∘ RunCall <$> RunDemo.start_ops) ++ (Call <$> SystemDemo.attempt_calls)) RunDemo.start.
Lemma start_blank : blank (L:=sql_laws) RunDemo.start.
Proof. split; [done|done|by intros r row|done]. Qed.
Lemma start_maintained : maintained (L:=sql_laws) RunDemo.start.
Proof. apply blank_maintained, start_blank. Qed.

Lemma steps_lawful : lawful (L:=sql_laws) Demo.opts SystemDemo.policy capture steps RunDemo.start.
Proof. split; [apply start_blank|done|repeat constructor; done|by vm_compute]. Qed.

Lemma worked_maintained : maintained (L:=sql_laws) worked.
Proof.
  change worked with
    (maintain_demo ((Call ∘ RunCall <$> RunDemo.start_ops) ++ (Call <$> SystemDemo.attempt_calls)) RunDemo.start).
  apply (maintain_maintained (L:=sql_laws)); [apply start_maintained|done| |by vm_compute].
  repeat constructor; done.
Qed.

(** A checkpoint of the tail of [worked], and the snapshot after it. *)
Definition marked : World := Eval vm_compute in (checkpoint (C:=sql_consensus) "r" 7 (capture "r" 7) None worked).2.
Definition captured : World := Eval vm_compute in (snapshot (C:=sql_consensus) Demo.opts "r" marked).2.

(** The calls up to the capture. *)
Definition captured_steps : list upkeep :=
  (Call ∘ RunCall <$> RunDemo.start_ops) ++ (Call <$> SystemDemo.attempt_calls)
  ++ [WriteCheckpoint "r" 7 (capture "r" 7) None; TakeSnapshot "r"].
Lemma captured_lawful : lawful (L:=sql_laws) Demo.opts SystemDemo.policy capture captured_steps RunDemo.start.
Proof. split; [apply start_blank|done|repeat constructor; done|by vm_compute]. Qed.

Lemma captured_maintained : maintained (L:=sql_laws) captured.
Proof.
  change captured with (snapshot (C:=sql_consensus) Demo.opts "r" marked).2.
  apply (maintained_snapshot (L:=sql_laws) Demo.opts "r").
  change marked with (checkpoint (C:=sql_consensus) "r" 7 (capture "r" 7) None worked).2.
  apply (maintained_checkpoint (L:=sql_laws)). apply worked_maintained.
Qed.
End UpkeepDemo.

Lemma journal_rebuilds_tables_witness :
  let w' := UpkeepDemo.maintain_demo UpkeepDemo.steps RunDemo.start in
  length (db_events (w_db w')) = 2
  ∧ (∀ r, forget_heartbeat <$> fold_run r w'
          = (λ x, forget_heartbeat (row_fold r x)) <$> db_runs (w_db w') !! r)
  ∧ ∀ id, st_attempts (foldEntries (history (id_runId id) w')) !! fold_key id
          = attempt_fold id <$> db_attempts (w_db w') !! key_of id.
Proof.
  intros w'. split; [vm_compute; reflexivity|].
  apply (journal_rebuilds_tables (L:=sql_laws) Demo.opts SystemDemo.policy UpkeepDemo.capture
           UpkeepDemo.steps RunDemo.start UpkeepDemo.steps_lawful).
Defined.

(** The assumption that nobody steals a run from itself is needed: after such a steal
    the owner that abandons the claim is still in its row, and not in what the journal
    replays to. *)
Theorem self_steal_diverges :
  let w := UpkeepDemo.maintain_demo (Call ∘ RunCall <$> RunDemo.self_ops) RunDemo.running in
  (∃ x, db_runs (w_db w) !! "r" = Some x ∧ r_owner x = owner_cols Ex.alice)
  ∧ ∃ f, fold_run "r" w = Some f ∧ f_owner f = None.
Proof.
  intros w. split.
  - destruct (db_runs (w_db w) !! "r") as [x|] eqn:Hx; vm_compute in Hx; [|done].
    exists x. split; [done|]. by injection Hx as <-.
  - destruct (fold_run "r" w) as [f|] eqn:Hf; vm_compute in Hf; [|done].
    exists f. split; [done|]. by injection Hf as <-.
Qed.

Lemma compaction_is_lossless_witness :
  ∃ w', compact (C:=sql_consensus) "r" (Some 7%Z) None UpkeepDemo.captured = (inr (MkCompacted "r" 7 7), w')
    ∧ agree "r" (foldEntries (history "r" UpkeepDemo.captured)) (foldEntries (history "r" w')).
Proof.
  destruct (db_checkpoints (w_db UpkeepDemo.captured) !! ("r", 7%Z)) as [k|] eqn:Hk; [|by vm_compute in Hk].
  pose proof (compaction_is_lossless (L:=sql_laws) Demo.opts SystemDemo.policy UpkeepDemo.capture
                UpkeepDemo.captured_steps RunDemo.start "r" 7 k UpkeepDemo.captured UpkeepDemo.captured_lawful
                ltac:(vm_compute; reflexivity) eq_refl Hk) as H.
  vm_compute in Hk. injection Hk as <-. specialize (H eq_refl eq_refl eq_refl).
  destruct H as (n & w' & H & -> & _ & _ & _ & _ & Ha). exists w'. split; [exact H|apply Ha].
Defined.

Lemma auto_compaction_compacts_witness :
  ∃ w3 e es, policyCompact (C:=sql_consensus) UpkeepDemo.capture (Some (snapshot (C:=sql_consensus) Demo.opts))
               "r" UpkeepDemo.worked = (inr tt, w3)
    ∧ history "r" w3 = e :: es ∧ en_eventType e = "flows.attempt.patched" ∧ length es = 2.
Proof.
  destruct (db_runs (w_db UpkeepDemo.worked) !! "r") as [x|] eqn:Hx; [|by vm_compute in Hx].
  destruct (checkpoint (C:=sql_consensus) "r" 7 (UpkeepDemo.capture "r" 7) None UpkeepDemo.worked) as [[e|k] w1] eqn:Hck;
    [by vm_compute in Hck|].
  assert (Hw1 : w1 = UpkeepDemo.marked) by (vm_compute in Hck; by injection Hck as _ <-). subst w1.
  destruct (auto_compaction_compacts (L:=sql_laws) Demo.opts UpkeepDemo.capture "r" x 7 k UpkeepDemo.worked
              UpkeepDemo.marked UpkeepDemo.captured) as (w3 & e & es & H & Hlast & Hh & Hes & _).
  - apply UpkeepDemo.worked_maintained.
  - exact Hx.
  - reflexivity.
  - vm_compute. reflexivity.
  - exact Hck.
  - vm_compute. reflexivity.
  - reflexivity.
  - exists w3, e, es. split_and!; [exact H|exact Hh| |].
    + vm_compute in Hlast. by injection Hlast as <-.
    + apply Forall2_length in Hes. rewrite <- Hes. vm_compute. reflexivity.
Defined.
