(* ===== verification/JournalRead.v ===== *)
(** Reading the journal back: what a page holds, that paging reads a run's history
    whole, and the refusal below the compaction floor ([SqlJournal.ts], [readPage]
    and the [readAvailable] of a stream). *)

From S2P Require Export UpkeepTheorems.

#[local] Open Scope me_scope.

Section read.
Context {J : JsonText} {C : Consensus} (opts : ValidatedOptions).
Implicit Types (w : World) (r : string).

(** The history of a run past a cursor. *)
Definition past (cursor : Z) (es : list Entry) : list Entry :=
  List.filter (λ e, bool_decide (cursor < en_seq e)%Z) es.

Definition floor_of (w : World) (r : string) : option Z :=
  max_agg (omap (λ kv : (string * Z) * CheckpointRow,
    if bool_decide (kv.1.1 = r) && negb (is_null (k_compactedAtMs kv.2))
    then Some kv.1.2 else None) (map_to_list (db_checkpoints (w_db w)))).

Lemma compactionFloor_run r w : compactionFloor r w = (inr (floor_of w r), w).
Proof. done. Qed.

(** Nothing is missing past the cursor. *)
Definition above_floor (w : World) (r : string) (cursor : Z) : bool :=
  match floor_of w r with Some f => negb (bool_decide (cursor < f - 1)%Z) | None => true end.

Lemma for_each_decodes rows w : (∀ row, row ∈ rows → check_event row = true) →
  for_each decodeRow rows w = (inr (omap decode_entry rows), w) ∧ length (omap decode_entry rows) = length rows.
Proof.
  induction rows as [|row rows IH]; intros Hchk; [done|]. simpl.
  destruct (decodeRow_checked row w (Hchk row (list_elem_of_here _ _))) as [e He].
  pose proof He as Hd. rewrite decodeRow_decode in Hd. destruct (decode_entry row) as [e'|]; [|done].
  destruct IH as [IH Hl]; [intros q Hq; apply Hchk; by right|]. simpl. split; [|by f_equal].
  injection Hd as ->. step_by He. by step_by IH.
Qed.

Lemma take_in {A} (x : A) n l : x ∈ take n l → x ∈ l.
Proof. intros (i & H & _)%elem_of_take. by eapply list_elem_of_lookup_2. Qed.

Lemma decode_take n rows : (∀ row, row ∈ rows → check_event row = true) →
  omap decode_entry (take n rows) = take n (omap decode_entry rows).
Proof.
  revert n. induction rows as [|row rows IH]; intros [|n] Hchk; [done..|]. simpl.
  destruct (decodeRow_checked row (initial_world 0) (Hchk row (list_elem_of_here _ _))) as [e He].
  rewrite decodeRow_decode in He. destruct (decode_entry row) as [e'|]; [|done]. simpl. f_equal.
  apply IH. intros q Hq. apply Hchk. by right.
Qed.

(** The rows a page selects are the history past the cursor. *)
Lemma rows_past r after w : journal_ok w → journal_ordered w →
  let rows := order_by_seq (List.filter (λ row, of_run r row && bool_decide (after < j_seq row)%Z)
                (db_events (w_db w))) in
  (∀ row, row ∈ rows → check_event row = true) ∧ omap decode_entry rows = past after (history r w).
Proof.
  intros Hj Ho rows. assert (Hrows : rows = List.filter (λ row, bool_decide (after < j_seq row)%Z)
    (List.filter (of_run r) (db_events (w_db w)))).
  { unfold rows. rewrite order_by_seq_sorted.
    - clear. induction (db_events (w_db w)) as [|q l IH]; [done|]. simpl. destruct (of_run r q); simpl; [|done].
      by rewrite IH.
    - assert (E : ∀ l : list JournalRow, List.filter (λ row, of_run r row && bool_decide (after < j_seq row)%Z) l
        = List.filter (λ row, bool_decide (after < j_seq row)%Z) (List.filter (of_run r) l)).
      { intros l. induction l as [|q l IH]; [done|]. simpl. destruct (of_run r q); simpl; [|done]. by rewrite IH. }
      rewrite E. by apply kept_sorted. }
  rewrite Hrows. split.
  - intros row [[Hin _]%elem_of_filter_b _]%elem_of_filter_b. by apply (ev_checked _ Hj).
  - rewrite history_ordered by done. generalize (List.filter (of_run r) (db_events (w_db w))). intros l.
    induction l as [|q l IH]; [done|]. simpl. destruct (decode_entry q) as [e|] eqn:He.
    + simpl. pose proof (decode_type _ _ He) as (_ & _ & ->). case_bool_decide; simpl; rewrite ?He; [by f_equal|exact IH].
    + case_bool_decide; simpl; rewrite ?He; exact IH.
Qed.

Lemma readPage_answered r afterOpt limit w (after := default (-1)%Z afterOpt) :
  journal_ok w → journal_ordered w → nonempty r = true →
  is_safe_integer limit = true → (0 < limit)%Z → is_safe_integer after = true → (-1 ≤ after)%Z →
  readPage r afterOpt limit w
  = if above_floor w r after
    then (inr (MkEntriesPage (take (Z.to_nat limit) (past after (history r w)))
                 (bool_decide (limit < Z.of_nat (length (past after (history r w))))%Z)), w)
    else (inl (jerror_at "compacted" (default 0%Z (floor_of w r))), w).
Proof.
  intros Hj Ho Hr Hlim Hpos Haft Hge.
  destruct (rows_past r after w Hj Ho) as [Hchk Hpast].
  unfold readPage. rewrite Hr, Hlim. cbn [negb orb]. rewrite bool_decide_false by lia.
  fold after. rewrite Haft. cbn [negb orb]. rewrite bool_decide_false by lia.
  unfold get_events. step. step_by (compactionFloor_run r w). unfold above_floor.
  destruct (floor_of w r) as [f|] eqn:Hf.
  1: case_bool_decide as Hlt; cbn [negb]; [done|]; step.
  2: step.
  all: set (rows := order_by_seq _) in *;
    assert (Hchk' : ∀ row, row ∈ take (Z.to_nat limit) (take (Z.to_nat (limit + 1)) rows) → check_event row = true)
      by (intros row Hrow; apply Hchk; by do 2 apply take_in in Hrow);
    destruct (for_each_decodes _ w Hchk') as [Hdec _]; step_by Hdec; unfold ret; do 3 f_equal;
    [rewrite take_take, Nat.min_l by lia; by rewrite decode_take, Hpast
    |rewrite <- Hpast; destruct (for_each_decodes rows w Hchk) as [_ ->];
     rewrite length_take; apply bool_decide_ext; lia].
Qed.

(** A page past a cursor above the floor. *)
Lemma page_of n r after w (c := default (-1)%Z after) :
  journal_ok w → journal_ordered w → nonempty r = true → 0 < n → is_safe_integer (Z.of_nat n) = true →
  is_safe_integer c = true → (-1 ≤ c)%Z → above_floor w r c = true →
  readPage r after (Z.of_nat n) w =
  (inr (MkEntriesPage (take n (past c (history r w))) (bool_decide (n < length (past c (history r w))))), w).
Proof.
  intros Hj Ho Hr Hn Hs Hc Hge Hfl.
  pose proof (readPage_answered r after (Z.of_nat n) w Hj Ho Hr Hs ltac:(lia)) as Hp. cbv zeta in Hp.
  fold c in Hp. rewrite Hfl in Hp. rewrite (Hp Hc Hge), Nat2Z.id.
  repeat f_equal. apply bool_decide_ext. lia.
Qed.

Lemma past_past c c' es : (c ≤ c')%Z → past c' (past c es) = past c' es.
Proof.
  intros Hc. unfold past. induction es as [|e es IH]; [done|]. simpl.
  destruct (bool_decide_reflect (c < en_seq e)%Z); simpl; case_bool_decide; try lia; by rewrite IH.
Qed.

(** Past the last entry of a page lies what follows the page. *)
Lemma past_page c es n e : StronglySorted entry_lt es → last (take n (past c es)) = Some e →
  past (en_seq e) es = drop n (past c es) ∧ (c < en_seq e)%Z ∧ e ∈ es.
Proof.
  intros Hs Hl. pose proof (last_Some_elem_of _ _ Hl) as He. apply take_in in He.
  unfold past in He. apply elem_of_filter_b in He as [Hin Hc]. apply bool_decide_eq_true in Hc.
  split_and!; [|done|done]. rewrite <- (past_past c) by lia.
  assert (HsP : StronglySorted entry_lt (past c es)).
  { clear -Hs. unfold past. induction Hs as [|x l H IH Hx]; [constructor|]. simpl. case_bool_decide; [|done].
    constructor; [done|]. rewrite Forall_forall in *. intros y Hy. apply Hx.
    apply list_elem_of_In, filter_In in Hy as [Hy _]. by apply list_elem_of_In. }
  apply last_Some in Hl as [l Hl]. rewrite <- (take_drop n (past c es)) at 1. rewrite Hl.
  rewrite <- (take_drop n (past c es)), Hl in HsP. unfold past at 1. rewrite List.filter_app.
  assert (List.filter (λ x, bool_decide (en_seq e < en_seq x)%Z) (l ++ [e]) = []) as ->.
  { apply StronglySorted_app_1_l in HsP. rewrite List.filter_app. simpl. rewrite bool_decide_false by lia.
    rewrite app_nil_r. clear -HsP. assert (H : ∀ x, x ∈ l → (en_seq x < en_seq e)%Z).
    { intros x Hx. eapply (StronglySorted_app_1_elem_of entry_lt) in HsP; [exact HsP|done|by apply list_elem_of_singleton]. }
    clear HsP. induction l as [|x l IH]; [done|]. simpl. rewrite bool_decide_false by (pose proof (H x (list_elem_of_here _ _)); lia).
    apply IH. intros y Hy. apply H. by right. }
  apply filter_all. intros x Hx. apply bool_decide_eq_true.
  eapply (StronglySorted_app_1_elem_of entry_lt) in HsP; [exact HsP| |done].
  apply elem_of_app. right. by apply list_elem_of_singleton.
Qed.

Lemma history_stamps r w e : journal_ok w → journal_ordered w → e ∈ history r w → stamp_ok (en_seq e) = true.
Proof.
  intros Hj Ho He. rewrite history_ordered in He by done. apply list_elem_of_omap in He as (row & Hrow & He).
  apply elem_of_filter_b in Hrow as [Hrow _]. apply decode_type in He as (_ & _ & ->).
  by apply (ev_checked _ Hj) in Hrow as (_ & Hs & _)%check_event_spec.
Qed.

(** The cursor after a page: the next page starts where this one ended. *)
Lemma cursor_next n r w c e : journal_ok w → journal_ordered w → (-1 ≤ c)%Z → above_floor w r c = true →
  last (take n (past c (history r w))) = Some e →
  past (en_seq e) (history r w) = drop n (past c (history r w)) ∧ (c < en_seq e)%Z ∧
  is_safe_integer (en_seq e) = true ∧ (-1 ≤ en_seq e)%Z ∧ above_floor w r (en_seq e) = true.
Proof.
  intros Hj Ho Hge Hfl Hl. pose proof (history_sorted r w Ho) as Hs.
  destruct (past_page c (history r w) n e Hs Hl) as (Hd & Hlt & Hin).
  pose proof (history_stamps r w e Hj Ho Hin) as Hst.
  split_and!; [done|done|by apply stamp_safe|lia|]. unfold above_floor in *.
  destruct (floor_of w r) as [f|]; [|done].
  apply negb_true_iff, bool_decide_eq_false. apply negb_true_iff, bool_decide_eq_false in Hfl. lia.
Qed.

(** From the start, everything is past the cursor. *)
Lemma past_start r w : journal_ok w → journal_ordered w → past (-1)%Z (history r w) = history r w.
Proof.
  intros Hj Ho. unfold past. apply filter_all. intros e He. apply bool_decide_eq_true.
  pose proof (history_stamps r w e Hj Ho He) as Hst. apply stamp_ok_spec in Hst. lia.
Qed.

Lemma history_length r w : journal_ordered w → length (history r w) ≤ length (db_events (w_db w)).
Proof.
  intros Ho. rewrite history_ordered by done.
  assert (∀ A (p : A → bool) l, length (List.filter p l) ≤ length l) as Hf.
  { intros A p l. induction l as [|x l IH]; cbn; [lia|]. destruct (p x); cbn; lia. }
  assert (∀ A B (f : A → option B) l, length (omap f l) ≤ length l) as Ho'.
  { intros A B f l. induction l as [|x l IH]; cbn; [lia|]. destruct (f x); cbn; lia. }
  specialize (Ho' _ _ decode_entry (List.filter (of_run r) (db_events (w_db w)))).
  specialize (Hf _ (of_run r) (db_events (w_db w))). lia.
Qed.

Lemma last_take_some {A} n (l : list A) : 0 < n → n < length l → is_Some (last (take n l)).
Proof.
  intros Hn Hl. destruct (last (take n l)) as [x|] eqn:E; [by eexists|].
  apply last_None in E. apply (f_equal length) in E. rewrite length_take in E. cbn [length] in E. lia.
Qed.

Lemma paging fuel r cursor all w :
  journal_ok w → journal_ordered w → nonempty r = true →
  is_safe_integer (v_batchSize opts) = true → (0 < v_batchSize opts)%Z →
  is_safe_integer cursor = true → (-1 ≤ cursor)%Z → above_floor w r cursor = true →
  length (past cursor (history r w)) < fuel →
  readAvailable opts fuel r cursor all w
  = (inr (all ++ past cursor (history r w),
          default cursor (en_seq <$> last (past cursor (history r w)))), w).
Proof.
  intros Hj Ho Hr Hb Hpos. revert cursor all.
  induction fuel as [|fuel IH]; intros cursor all Hc Hge Hfl Hlen; [lia|]. cbn [readAvailable].
  assert (Hcur : default (-1)%Z (if bool_decide (cursor < 0)%Z then None else Some cursor) = cursor)
    by (case_bool_decide; [change ((-1)%Z = cursor); lia|done]).
  pose proof (readPage_answered r (if bool_decide (cursor < 0)%Z then None else Some cursor) (v_batchSize opts) w
                Hj Ho Hr Hb Hpos) as Hp. cbv zeta in Hp. rewrite Hcur, Hfl in Hp. step_by (Hp Hc Hge).
  cbv zeta. cbn [pg_entries pg_hasMore]. set (P := past cursor (history r w)) in *.
  remember (Z.to_nat (v_batchSize opts)) as n eqn:Hn0. pose proof (history_sorted r w Ho) as Hs.
  clear Hp Hcur. case_bool_decide as Hmore.
  - assert (Hn : n < length P) by lia. destruct (last (take n P)) as [e|] eqn:Hl.
    2: { apply last_None in Hl. apply (f_equal length) in Hl. rewrite length_take in Hl. simpl in Hl. lia. }
    destruct (past_page cursor (history r w) n e Hs Hl) as (Hd & Hlt & Hin).
    pose proof (history_stamps r w e Hj Ho Hin) as Hst.
    rewrite IH; [|by apply stamp_safe|lia| |rewrite Hd; fold P; rewrite length_drop; lia].
    + rewrite Hd. fold P. rewrite <- app_assoc, take_drop. unfold ret. do 3 f_equal.
      rewrite <- (take_drop n P) at 2. rewrite last_app.
      destruct (last (drop n P)) as [e'|] eqn:Hl'; [done|].
      apply last_None in Hl'. apply (f_equal length) in Hl'. rewrite length_drop in Hl'. simpl in Hl'. lia.
    + unfold above_floor in *. destruct (floor_of w r) as [f|]; [|done].
      apply negb_true_iff, bool_decide_eq_false. apply negb_true_iff, bool_decide_eq_false in Hfl. lia.
  - rewrite take_ge by lia. unfold ret. do 2 f_equal. by destruct (last P).
Qed.

(** C37. A reader gets the run's history whole, or is told that it cannot.  Reading a
    run page by page from a cursor, with any page size, returns every event past the
    cursor that the journal holds, once and in order, and leaves the cursor at the
    last of them; one more step than there are events to read is always enough.  A
    cursor below the compaction floor is refused with [compacted] and the floor
    instead: what is missing there is never skipped silently.  Reading changes
    nothing. *)
Theorem readers_get_whole_history r cursor w fuel :
  journal_ok w → journal_ordered w → nonempty r = true →
  is_safe_integer (v_batchSize opts) = true → (0 < v_batchSize opts)%Z →
  is_safe_integer cursor = true → (-1 ≤ cursor)%Z →
  length (past cursor (history r w)) < fuel →
  readAvailable opts fuel r cursor [] w
  = if above_floor w r cursor
    then (inr (past cursor (history r w), default cursor (en_seq <$> last (past cursor (history r w)))), w)
    else (inl (jerror_at "compacted" (default 0%Z (floor_of w r))), w).
Proof.
  intros Hj Ho Hr Hb Hpos Hc Hge Hlen. destruct (above_floor w r cursor) eqn:Hfl; [by apply (paging fuel r cursor [])|].
  destruct fuel as [|fuel]; [lia|]. cbn [readAvailable].
  assert (Hcur : default (-1)%Z (if bool_decide (cursor < 0)%Z then None else Some cursor) = cursor)
    by (case_bool_decide; [change ((-1)%Z = cursor); lia|done]).
  pose proof (readPage_answered r (if bool_decide (cursor < 0)%Z then None else Some cursor) (v_batchSize opts) w
                Hj Ho Hr Hb Hpos) as Hp. cbv zeta in Hp. rewrite Hcur, Hfl in Hp. by step_by (Hp Hc Hge).
Qed.
End read.

(** After the run of [UpkeepDemo] compacted itself the floor is 7: a reader that
    knows sequence 7 reads on, one that starts over is refused. *)
Module ReadDemo.
Definition opts : ValidatedOptions := MkValidatedOptions 1 4096 id.
Definition compacted : World := Eval vm_compute in
  (policyCompact (C:=sql_consensus) UpkeepDemo.capture (Some (snapshot (C:=sql_consensus) Demo.opts)) "r"
     UpkeepDemo.worked).2.

Lemma compacted_maintained : maintained (L:=sql_laws) compacted.
Proof.
  change compacted with
    (policyCompact (C:=sql_consensus) UpkeepDemo.capture (Some (snapshot (C:=sql_consensus) Demo.opts)) "r"
       UpkeepDemo.worked).2.
  apply (maintained_auto (L:=sql_laws) Demo.opts UpkeepDemo.capture "r"). apply UpkeepDemo.worked_maintained.
Qed.
End ReadDemo.

Lemma readers_get_whole_history_witness :
  (∃ es, readAvailable ReadDemo.opts 3 "r" 7 [] ReadDemo.compacted = (inr (es, 9%Z), ReadDemo.compacted)
         ∧ length es = 2)
  ∧ readAvailable ReadDemo.opts 4 "r" (-1) [] ReadDemo.compacted
    = (inl (jerror_at "compacted" 7), ReadDemo.compacted).
Proof.
  pose proof ReadDemo.compacted_maintained as [Hok _ _].
  pose proof (so_journal _ (sys_store _ Hok)) as Hj. pose proof (sys_ordered _ Hok) as Ho. split.
  - eexists. rewrite (readers_get_whole_history ReadDemo.opts "r" 7 ReadDemo.compacted 3 Hj Ho) by
      (vm_compute; first [reflexivity|lia|discriminate]).
    split; vm_compute; reflexivity.
  - rewrite (readers_get_whole_history ReadDemo.opts "r" (-1) ReadDemo.compacted 4 Hj Ho) by
      (vm_compute; first [reflexivity|lia|discriminate]).
    vm_compute. reflexivity.
Defined.
