(* ===== verification/AttemptTheorems.v ===== *)
(** What the attempt store guarantees: its fence, the finality of a finished
    attempt, and what writing and reading an attempt answer. *)

From S2P Require Export Coherence.

#[local] Open Scope me_scope.

Section theorems.
Context {J : JsonText} {C : Consensus} {L : ConsensusLaws C} {T : Transactional C}
        (opts : ValidatedOptions) (policy : Policy).
Implicit Types (w : World) (r : string) (id : AttemptId).

(** The lifecycle columns of an attempt. *)
Definition lifecycle (x : AttemptRow) : string * Z * option Z :=
  (a_state x, a_startedAtMs x, a_finishedAtMs x).

Lemma effect_unowned w row op out row' ins :
  attempt_effect policy w row op out row' ins →
  owned_by w (id_runId (attempt_id op)) (attempt_owner op) = false → row' = row ∧ ins = [].
Proof. destruct 1; cbn [attempt_id attempt_owner]; intros Hno; try congruence. by split. Qed.

Lemma effect_lifecycle w x op out row' ins :
  po_upsert policy = false → inProgress policy (a_state x) = false →
  attempt_effect policy w (Some x) op out row' ins → ∃ y, row' = Some y ∧ lifecycle y = lifecycle x.
Proof.
  intros Hup Hfin He. remember (Some x) as row eqn:Hrow. destruct He; simplify_eq; try congruence; eauto.
Qed.

(** Only the owner of a running run writes its attempts.  Whatever a call on an
    attempt answers or how it fails, it changes no run and no other attempt; and
    unless the run is running under the caller when the call is made, it changes
    no attempt at all and appends no event. *)
Theorem attempt_write_is_fenced op w :
  store_ok w →
  let w' := (perform_attempt opts policy op w).2 in
  let id := attempt_id op in
  db_runs (w_db w') = db_runs (w_db w)
  ∧ (∀ key, key ≠ key_of id → db_attempts (w_db w') !! key = db_attempts (w_db w) !! key)
  ∧ (owned_by w (id_runId id) (attempt_owner op) = false →
     db_attempts (w_db w') = db_attempts (w_db w) ∧ db_events (w_db w') = db_events (w_db w)).
Proof.
  intros Hok w' id. subst w' id. destruct (perform_attempt opts policy op w) as [[e|out] w'] eqn:H; simpl.
  - rewrite (attempt_err_db opts policy _ _ _ _ H). by split_and!.
  - apply (perform_attempt_answers opts policy) in H as [(row' & ins & Hm & He)|[_ Hdb]];
      [|rewrite Hdb; by split_and!|apply Hok..].
    split_and!; [apply Hm..|]. intros Hno.
    destruct (effect_unowned _ _ _ _ _ _ He Hno) as [-> ->].
    destruct Hm as [Hrow Hrows _ _ (new & Hev & Hnew) _ _ _ _]. apply Forall2_nil_inv_l in Hnew as ->.
    split; [|by rewrite Hev, app_nil_r].
    apply map_eq. intros key. destruct (decide (key = key_of (attempt_id op))) as [->|]; auto.
Qed.

(** *** A finished attempt *)

Lemma run_call_attempts op w out w' :
  store_ok w → (0 ≤ w_clock w)%Z → op_sane op = true → perform_op opts op w = (inr out, w') →
  db_attempts (w_db w') = db_attempts (w_db w).
Proof.
  intros Hok Hclk Hs H. destruct (tick_or op) as [[t ->]|Hnt].
  - simpl in H. apply bind_inr in H as (u & w1 & H1 & H). apply modify_inr in H1 as [_ ->].
    by apply ret_inr in H as [-> ->].
  - apply perform_op_effect in H as (row' & l' & ins & Hm & He); [|done..]. apply Hm.
Qed.

Lemma call_system c w : system_ok w → call_sane c = true → system_ok (perform_call opts policy c w).2.
Proof.
  intros Hok Hs. destruct Hok as [Hst Hclk Hord Hatt] eqn:Eok. clear Eok.
  destruct c as [op|op]; simpl in *; unfold bind.
  - destruct (perform_op opts op w) as [[e|out] w1] eqn:Hp; simpl.
    + destruct (failed_store_ok opts op e w w1) as [_ Hc]; [done..|].
      eapply system_same; [by eapply perform_op_err_db|done|done].
    + destruct (perform_op_ok opts op w out w1) as [H1 H2]; [done..|].
      split; [done..| |by rewrite (run_call_attempts op w out w1)].
      destruct (tick_or op) as [[t ->]|Hnt].
      * simpl in Hp. apply bind_inr in Hp as (u & w2 & H3 & Hp). apply modify_inr in H3 as [_ ->].
        by apply ret_inr in Hp as [-> ->].
      * apply perform_op_effect in Hp as (row' & l' & ins & Hm & _); [|done..]. by apply Hm.
  - pose proof (attempt_clock opts policy (w_clock w) op w eq_refl) as Hc. unfold clock_is in Hc.
    destruct (perform_attempt opts policy op w) as [[e|out] w1] eqn:Hp; simpl in *.
    + eapply system_same; [by eapply attempt_err_db|by rewrite Hc|done].
    + apply (perform_attempt_answers opts policy) in Hp as [(row' & ins & Hm & He)|[_ Hdb]];
        [by eapply attempt_moved_ok| |apply Hst..].
      eapply system_same; [done|by rewrite Hc|done].
Qed.

Lemma finished_step c id x w :
  po_upsert policy = false → system_ok w → call_sane c = true →
  db_attempts (w_db w) !! key_of id = Some x → inProgress policy (a_state x) = false →
  ∃ y, db_attempts (w_db (perform_call opts policy c w).2) !! key_of id = Some y ∧ lifecycle y = lifecycle x.
Proof.
  intros Hup Hok Hs Hx Hfin. destruct c as [op|op]; simpl in *; unfold bind.
  - exists x. split; [|done]. destruct (perform_op opts op w) as [[e|out] w1] eqn:Hp; simpl.
    + by rewrite (perform_op_err_db opts _ _ _ _ Hp).
    + rewrite (run_call_attempts op w out w1); [done|apply Hok..|done|done].
  - destruct (perform_attempt opts policy op w) as [[e|out] w1] eqn:Hp; simpl.
    + exists x. by rewrite (attempt_err_db opts policy _ _ _ _ Hp).
    + apply (perform_attempt_answers opts policy) in Hp as [(row' & ins & Hm & He)|[_ Hdb]];
        [|by exists x; rewrite Hdb|apply Hok..].
      destruct (decide (id = attempt_id op)) as [->|Hne].
      * rewrite (am_row _ _ _ _ _ _ Hm). rewrite Hx in He. by eapply effect_lifecycle.
      * exists x. rewrite (am_rows _ _ _ _ _ _ Hm); [done|by intros ?%key_of_inj].
Qed.

(** A finished attempt is final.  When the store keeps the first writer's
    attempt (its default), no interleaving of calls on the two stores removes an
    attempt whose state is not in progress, or moves its state, its start or its
    finish time. *)
Theorem finished_attempt_is_final id x calls w :
  po_upsert policy = false → system_ok w → forallb call_sane calls = true →
  db_attempts (w_db w) !! key_of id = Some x → inProgress policy (a_state x) = false →
  ∃ y, db_attempts (w_db (execute opts policy calls w).2) !! key_of id = Some y
       ∧ lifecycle y = lifecycle x.
Proof.
  intros Hup. revert w x. induction calls as [|c calls IH]; intros w x Hok Hs Hx Hfin; [by exists x|].
  simpl in Hs. apply andb_true_iff in Hs as [Hc Hs].
  pose proof (call_system c w Hok Hc) as Hok1.
  destruct (finished_step c id x w Hup Hok Hc Hx Hfin) as (y & Hy & Hl).
  simpl. destruct (perform_call opts policy c w) as [res w1]. simpl in *.
  injection Hl as Hst Hs1 Hs2.
  destruct (IH w1 y Hok1 Hs Hy) as (z & Hz & Hlz); [by rewrite Hst|].
  destruct (execute opts policy calls w1) as [results w2]. simpl in *. exists z. split; [done|].
  rewrite Hlz. unfold lifecycle. by rewrite Hst, Hs1, Hs2.
Qed.

(** *** Writing and reading an attempt *)

(** The attempts [put] accepts. *)
Definition attempt_valid (a : Attempt) : bool :=
  nonempty (id_runId (at_id a)) && nonempty (id_stepKeyDigest (at_id a)) && stamp_ok (id_attempt (at_id a))
  && nonempty (at_state a) && stamp_ok (at_startedAtMs a) && col_check stamp_ok (at_finishedAtMs a)
  && col_check stamp_ok (at_heartbeatAtMs a)
  && match encodeOptional (at_checkpoint a) with
     | Some text => bool_decide (Z.of_nat (String.length text) ≤ po_maxCheckpointBytes policy)%Z
     | None => true
     end.

Lemma json_valid_encode v : col_check json_valid (encodeOptional v) = true.
Proof. destruct v; [|done]. apply json_valid_stringify. Qed.

Lemma put_row_checked a : attempt_valid a = true →
  check_attempt (key_of (at_id a)) (put_row a (encodeOptional (at_checkpoint a))) = true.
Proof.
  unfold attempt_valid. rewrite !andb_true_iff. intros [[[[[[[H1 H2] H3] H4] H5] H6] H7] _].
  unfold check_attempt, put_row, key_of. simpl.
  rewrite H1, H2, H3, H4, H5, H6, H7, !json_valid_encode. apply json_valid_stringify.
Qed.

(** [put] on a valid attempt is its transaction. *)
Lemma put_valid a o w : attempt_valid a = true →
  put opts policy a o w
  = writeAttempt opts (
      inserted <- insert_attempt (at_id a) (put_row a (encodeOptional (at_checkpoint a))) o ;;
      if inserted : bool
      then recordAttemptEvent opts (id_runId (at_id a)) o "flows.attempt.put" (putPayload a) ;; ret Inserted
      else
        replaced <- (if po_upsert policy
                     then update_attempt (at_id a) (λ _, true)
                            (λ _, put_row a (encodeOptional (at_checkpoint a))) o
                     else ret false) ;;
        if replaced : bool
        then recordAttemptEvent opts (id_runId (at_id a)) o "flows.attempt.put" (putPayload a) ;; ret Upserted
        else
          run <- get_run (id_runId (at_id a)) ;;
          match run with
          | None => ret RunNotFound
          | Some run =>
              if negb (ownsRunningRun run o) then ret AttemptFenceLost
              else
                row <- get_attempt (key_of (at_id a)) ;;
                match row with
                | None => fail (attempt_error "unknown")
                | Some row =>
                    ret (if sameAttempt row a (encodeOptional (at_checkpoint a))
                              (encodeOptional (at_error a)) (encodeOptional (at_outcome a))
                              (attempt_encode (at_meta a))
                         then ExistingSame else Conflict)
                end
          end) w.
Proof.
  unfold attempt_valid. rewrite !andb_true_iff. intros [[[[[[[H1 H2] H3] H4] H5] H6] H7] H8].
  unfold put. assert (Hv : validateId (at_id a) w = (inr tt, w)).
  { unfold validateId. rewrite H1, H2, stamp_safe by done.
    apply stamp_ok_spec in H3. by rewrite bool_decide_true by lia. }
  assert (Hs : ∀ n, stamp_ok n = true → invalid_stamp n = false).
  { intros n Hn. unfold invalid_stamp. rewrite stamp_ok_safe, Hn. done. }
  step_by Hv. rewrite H4, (Hs _ H5).
  replace (match at_finishedAtMs a with Some n => invalid_stamp n | None => false end) with false
    by (destruct (at_finishedAtMs a); [symmetry; by apply Hs|done]).
  replace (match at_heartbeatAtMs a with Some n => invalid_stamp n | None => false end) with false
    by (destruct (at_heartbeatAtMs a); [symmetry; by apply Hs|done]).
  cbn [negb orb].
  assert (Hc : encodeCheckpoint policy (at_checkpoint a) w = (inr (encodeOptional (at_checkpoint a)), w)).
  { unfold encodeCheckpoint. destruct (encodeOptional (at_checkpoint a)); [|done].
    apply bool_decide_eq_true in H8. by rewrite bool_decide_false by lia. }
  by step_by Hc.
Qed.

Lemma writeAttempt_run body w out w1 :
  body (body_world w) = (inr out, w1) →
  ∃ w', writeAttempt opts body w = (inr out, w') ∧ same_stores w1 w'.
Proof.
  intros H. destruct (transact_run opts body w out w1 H) as (w' & Ht & Hs). exists w'. split; [|done].
  unfold writeAttempt, map_error, catch. by rewrite Ht.
Qed.

(** Writing an attempt twice is idempotent.  When the store keeps the first
    writer's attempt and the owner of the running run puts a valid attempt whose
    key is taken, the answer is [ExistingSame] if the stored row is exactly the
    attempt's and [Conflict] if it differs in any column, and either way nothing
    is written. *)
Theorem put_again_compares a o x w :
  store_ok w → po_upsert policy = false → attempt_valid a = true →
  owned_by w (id_runId (at_id a)) o = true → db_attempts (w_db w) !! key_of (at_id a) = Some x →
  ∃ w', put opts policy a o w
        = (inr (if bool_decide (x = put_row a (encodeOptional (at_checkpoint a)))
                then ExistingSame else Conflict), w')
        ∧ same_stores w w'.
Proof.
  intros Hok Hup Hv Ho Hx. rewrite put_valid by done. rewrite Hup.
  pose proof (body_world_same w) as Hs. set (w0 := body_world w) in *. pose proof (ss_db _ _ Hs) as Hdb.
  assert (Hins : insert_attempt (at_id a) (put_row a (encodeOptional (at_checkpoint a))) o w0 = (inr false, w0)).
  { unfold insert_attempt. rewrite <- (owned_by_ext w w0) in Ho by done.
    erewrite bind_run; [|apply run_owned_run]. rewrite Ho, put_row_checked by done. cbn [negb].
    unfold get_attempt. step. by rewrite Hdb, Hx. }
  match goal with |- ∃ w', writeAttempt opts ?body w = (?out, w') ∧ _ =>
    assert (Hbody : body w0 = (out, w0));
      [|destruct (writeAttempt_run body w _ _ Hbody) as (w' & Hw & Hs'); exists w'; split; [exact Hw|by etrans]]
  end.
  step_by Hins. cbv iota. step. cbv iota. unfold get_run. step.
  unfold owned_by in Ho. rewrite Hdb. destruct (db_runs (w_db w) !! id_runId (at_id a)) as [run|]; [|done].
  rewrite Ho. cbn [negb]. unfold get_attempt. step. rewrite Hdb, Hx, sameAttempt_spec.
  unfold ret. do 2 f_equal.
  erewrite bool_decide_ext; [reflexivity|]. naive_solver.
Qed.

(** What [get] answers for a stored attempt. *)
Lemma getAttempt_stored a w :
  attempt_valid a = true →
  db_attempts (w_db w) !! key_of (at_id a) = Some (put_row a (encodeOptional (at_checkpoint a))) →
  getAttempt (at_id a) w = (inr (Some a), w).
Proof.
  intros Hv Hx. pose proof (put_row_checked a Hv) as Hchk. unfold getAttempt.
  assert (Hid : validateId (at_id a) w = (inr tt, w)).
  { unfold attempt_valid in Hv. rewrite !andb_true_iff in Hv. destruct Hv as [[[[[[[H1 H2] H3] _] _] _] _] _].
    unfold validateId. rewrite H1, H2, stamp_safe by done.
    apply stamp_ok_spec in H3. by rewrite bool_decide_true by lia. }
  step_by Hid. unfold get_attempt, map_error, gets, bind at 1. rewrite Hx, Hchk.
  assert (Hdec : ∀ v, attempt_decode (encodeOptional v) w = (inr v, w)).
  { intros [v|]; [|done]. simpl. unfold attempt_encode. by rewrite parse_stringify. }
  assert (Hrow : decodeAttemptRow (at_id a) (put_row a (encodeOptional (at_checkpoint a))) w = (inr a, w)).
  { unfold decodeAttemptRow, put_row. cbn [a_checkpointJson a_errorJson a_outcomeJson a_metaJson a_state
      a_startedAtMs a_finishedAtMs a_heartbeatAtMs].
    erewrite bind_run; [|apply Hdec]. erewrite bind_run; [|apply Hdec].
    erewrite bind_run; [|apply Hdec]. erewrite bind_run; [|apply (Hdec (Some (at_meta a)))].
    by destruct a. }
  by step_by Hrow.
Qed.

(** An attempt reads back as it was written.  When the owner of a running run
    puts a valid attempt under a free key, with the journal open, the run's
    sequence not exhausted and the clock in range, the put answers [Inserted], and
    reading the attempt then gives back exactly the attempt: its state, its
    timestamps and every JSON value in it. *)
Theorem put_then_get a o w :
  store_ok w → attempt_valid a = true → stamp_ok (w_clock w) = true →
  owned_by w (id_runId (at_id a)) o = true → db_attempts (w_db w) !! key_of (at_id a) = None →
  p_status (w_proc w) = Open →
  allocates w (attempt_event_input (id_runId (at_id a)) "flows.attempt.put" (putPayload a)) = true →
  ∃ w', put opts policy a o w = (inr Inserted, w')
        ∧ getAttempt (at_id a) w' = (inr (Some a), w').
Proof.
  intros Hok Hv Hclk Ho Hx Hopen Hall. rewrite put_valid by done.
  pose proof (body_world_same w) as Hs. set (w0 := body_world w) in *.
  pose proof (store_ok_same _ _ Hok Hs) as Hok0. destruct Hs as [Hdb _ Hc].
  set (x := put_row a (encodeOptional (at_checkpoint a))).
  set (w1 := set_db (upd_attempts (<[key_of (at_id a) := x]>)) w0).
  assert (Hins : insert_attempt (at_id a) x o w0 = (inr true, w1)).
  { unfold insert_attempt. pose proof Ho as Ho'. rewrite <- (owned_by_ext w w0) in Ho' by done.
    erewrite bind_run; [|apply run_owned_run]. subst x. rewrite Ho', put_row_checked by done. cbn [negb].
    unfold get_attempt. step. rewrite Hdb, Hx. unfold put_attempt. rewrite put_row_checked by done. by step. }
  assert (Hwf1 : cs_wf w1) by (apply (law_ext w0 w1); [done..|apply Hok0]).
  assert (Hl1 : ∀ r, lease_of w1 r = lease_of w0 r) by (intros r; symmetry; by apply (law_ext w0 w1)).
  destruct (emitDurable_fresh opts (attempt_event_input (id_runId (at_id a)) "flows.attempt.put" (putPayload a))
              (Some o) w1) as (w2 & He & Happ).
  - done.
  - apply Hok0.
  - apply admissible_spec. split_and!; try done.
    + simpl. unfold w0, body_world. by destruct (p_settlements (w_proc w)).
    + simpl. unfold attempt_valid in Hv. rewrite !andb_true_iff in Hv. tauto.
    + simpl. rewrite Hc. by apply stamp_ok_spec.
    + simpl. rewrite Hc. by apply stamp_ok_spec.
  - unfold allocates, source_seq_of, next_source, next_seq in Hall |- *.
    replace (db_events (w_db w1)) with (db_events (w_db w)) by (simpl; by rewrite Hdb).
    unfold w1, w0, body_world. by destruct (p_settlements (w_proc w)).
  - intros ? [= <-]. rewrite Hl1. simpl.
    pose proof (so_mirrors _ Hok0 (id_runId (at_id a))) as Hm.
    unfold owned_by in Ho. rewrite Hdb in Hm.
    destruct (db_runs (w_db w) !! id_runId (at_id a)) as [run|] eqn:Hrun; [|done].
    apply andb_true_iff in Ho as [_ Ho]. apply cols_are_spec in Ho.
    destruct (mirrors_held _ _ _ Hm Ho) as (g & h & Hl & _). unfold Spec.guard, Spec.owner_id. rewrite Hl. simpl.
    by rewrite bool_decide_true.
  - intros row. by apply next_row_fresh.
  - match goal with |- ∃ w', writeAttempt opts ?body w = (?out, w') ∧ _ =>
      assert (Hbody : body w0 = (out, w2));
        [|destruct (writeAttempt_run body w _ _ Hbody) as (w' & Hw & Hs'); exists w'; split; [exact Hw|]]
    end.
    + step_by Hins. cbv iota. unfold recordAttemptEvent.
      erewrite bind_run; [|erewrite bind_run; [reflexivity|exact He]]. reflexivity.
    + apply getAttempt_stored; [done|]. rewrite (ss_db _ _ Hs'), (appended_attempts _ _ _ Happ).
      unfold w1. simpl. by rewrite lookup_insert_eq.
Qed.
End theorems.

(** ** The hypotheses hold: concrete calls *)

Module AttemptDemo.
(** The attempt ["step"] of [alice]'s run, put and then finished. *)
Definition put_world : World :=
  Eval vm_compute in SystemDemo.after [AttemptCall (APut SystemDemo.attempt Ex.alice)] RunDemo.running.
Definition finished_world : World := Eval vm_compute in SystemDemo.after SystemDemo.attempt_calls RunDemo.running.
Definition late_calls : list call :=
  [AttemptCall (ABeat SystemDemo.step_id Ex.alice 60 None);
   AttemptCall (APut SystemDemo.attempt Ex.alice); RunCall (OTransition "r" Ex.alice "completed" None None);
   AttemptCall (AFinish SystemDemo.done_attempt Ex.alice)].

Lemma running_system : system_ok (L:=sql_laws) RunDemo.running ∧ ∀ r, replays RunDemo.running r.
Proof.
  change RunDemo.running with (SystemDemo.after (RunCall <$> RunDemo.start_ops) RunDemo.start).
  apply (execute_replays (L:=sql_laws)).
  - apply SystemDemo.start_system.
  - apply SystemDemo.start_replays.
  - reflexivity.
  - repeat constructor; done.
  - vm_compute. reflexivity.
Qed.

Lemma later_system calls : forallb call_sane calls = true → Forall (call_clean Demo.opts) calls →
  no_claim_dropped (C:=sql_consensus) Demo.opts SystemDemo.policy calls RunDemo.running = true →
  system_ok (L:=sql_laws) (SystemDemo.after calls RunDemo.running).
Proof. intros. by apply (execute_replays (L:=sql_laws)); [apply running_system..| | |]. Qed.

Lemma put_ok : store_ok (L:=sql_laws) put_world.
Proof.
  change put_world with (SystemDemo.after [AttemptCall (APut SystemDemo.attempt Ex.alice)] RunDemo.running).
  apply later_system; [reflexivity|repeat constructor|vm_compute; reflexivity].
Qed.
Lemma finished_system : system_ok (L:=sql_laws) finished_world.
Proof.
  change finished_world with (SystemDemo.after SystemDemo.attempt_calls RunDemo.running).
  apply later_system; [reflexivity|repeat constructor|vm_compute; reflexivity].
Qed.
End AttemptDemo.

Lemma attempt_write_is_fenced_witness :
  let w' := (perform_attempt (C:=sql_consensus) Demo.opts SystemDemo.policy
               (AFinish SystemDemo.done_attempt Ex.bob) AttemptDemo.put_world).2 in
  db_attempts (w_db w') = db_attempts (w_db AttemptDemo.put_world)
  ∧ db_events (w_db w') = db_events (w_db AttemptDemo.put_world).
Proof.
  apply (attempt_write_is_fenced (L:=sql_laws) Demo.opts SystemDemo.policy
           (AFinish SystemDemo.done_attempt Ex.bob) AttemptDemo.put_world AttemptDemo.put_ok).
  vm_compute. reflexivity.
Defined.

Lemma finished_attempt_is_final_witness :
  ∃ y, db_attempts (w_db (SystemDemo.after AttemptDemo.late_calls AttemptDemo.finished_world))
         !! key_of SystemDemo.step_id = Some y
       ∧ lifecycle y = ("completed", 20%Z, Some 30%Z).
Proof.
  destruct (db_attempts (w_db AttemptDemo.finished_world) !! key_of SystemDemo.step_id) as [x|] eqn:Hx;
    [|by vm_compute in Hx].
  destruct (finished_attempt_is_final (L:=sql_laws) Demo.opts SystemDemo.policy SystemDemo.step_id x
              AttemptDemo.late_calls AttemptDemo.finished_world) as (y & Hy & Hl).
  - reflexivity.
  - apply AttemptDemo.finished_system.
  - reflexivity.
  - exact Hx.
  - vm_compute in Hx. by injection Hx as <-.
  - exists y. split; [exact Hy|]. rewrite Hl. vm_compute in Hx. by injection Hx as <-.
Defined.

Lemma put_again_compares_witness :
  ∃ w', put (C:=sql_consensus) Demo.opts SystemDemo.policy SystemDemo.attempt Ex.alice AttemptDemo.put_world
        = (inr ExistingSame, w') ∧ same_stores AttemptDemo.put_world w'.
Proof.
  destruct (put_again_compares (L:=sql_laws) Demo.opts SystemDemo.policy SystemDemo.attempt Ex.alice
              (put_row SystemDemo.attempt None) AttemptDemo.put_world AttemptDemo.put_ok)
    as (w' & Hw & Hs); [reflexivity|vm_compute; reflexivity..|].
  exists w'. split; [|exact Hs]. rewrite Hw. by rewrite bool_decide_true.
Defined.

Lemma put_then_get_witness :
  ∃ w', put (C:=sql_consensus) Demo.opts SystemDemo.policy SystemDemo.attempt Ex.alice RunDemo.running
        = (inr Inserted, w')
        ∧ getAttempt SystemDemo.step_id w' = (inr (Some SystemDemo.attempt), w').
Proof.
  apply (put_then_get (L:=sql_laws) Demo.opts SystemDemo.policy SystemDemo.attempt Ex.alice RunDemo.running
           RunDemo.running_ok); vm_compute; reflexivity.
Defined.
