(* ===== verification/Capability.v ===== *)
(** * Capabilities, patterns and effect tiers ([capability/src/Capability.ts])

    A capability is an action and a resource text; a pattern is an action
    selector and a resource glob.  This file models the whole of
    [Capability.ts]: formatting and parsing, the two-pointer glob matcher,
    [matches], the conservative [subsumes], lexical path resolution and the
    effect tier of a capability.

    A JavaScript string is a sequence of code units; the texts here are strings
    of units below 256, on which the case mappings of the language are written
    out ([toUpperCase], [toLowerCase]).  An index into a string is a [nat] and
    [String.get] is [None] where the source reads [undefined]. *)

From S2P Require Import Prelude.
#[local] Open Scope me_scope.

(** ** String operations of the language *)

(** [s.split(sep)] for a separator of one unit. *)
Fixpoint split_on (sep : ascii) (s : string) : list string :=
  match s with
  | EmptyString => [""]
  | String x s' =>
      match split_on sep s' with
      | seg :: rest => if bool_decide (x = sep) then "" :: seg :: rest else String x seg :: rest
      | [] => []
      end
  end.

(** [segments.join(sep)]. *)
Fixpoint join (sep : ascii) (l : list string) : string :=
  match l with
  | [] => ""
  | [x] => x
  | x :: l' => x +:+ String sep (join sep l')
  end.

(** [s.endsWith(suffix)] and [s.slice(0, -n)]. *)
Definition ends_with (suffix s : string) : bool :=
  bool_decide (String.length suffix ≤ String.length s) &&
  bool_decide (String.substring (String.length s - String.length suffix) (String.length suffix) s = suffix).
Definition drop_last (n : nat) (s : string) : string := String.substring 0 (String.length s - n) s.

(** [s.slice(n)]. *)
Definition slice_from (n : nat) (s : string) : string := String.substring n (String.length s - n) s.

Fixpoint map_units (f : ascii → ascii) (s : string) : string :=
  match s with EmptyString => "" | String x s' => String (f x) (map_units f s') end.

(** [unit.toUpperCase()], as the code units of its result: three units below
    256 leave that range (U+00B5, U+00FF) or become two units (U+00DF). *)
Definition toUpperCase (u : ascii) : list N :=
  let n := N_of_ascii u in
  if (97 <=? n)%N && (n <=? 122)%N then [(n - 32)%N]
  else if (n =? 181)%N then [924%N]
  else if (n =? 223)%N then [83%N; 83%N]
  else if (n =? 255)%N then [376%N]
  else if (224 <=? n)%N && (n <=? 254)%N && negb (n =? 247)%N then [(n - 32)%N]
  else [n].

Definition lower_unit (u : ascii) : ascii :=
  let n := N_of_ascii u in
  if ((65 <=? n)%N && (n <=? 90)%N) || ((192 <=? n)%N && (n <=? 222)%N && negb (n =? 215)%N)
  then ascii_of_N (n + 32) else u.
Definition toLowerCase : string → string := map_units lower_unit.

(** ** Actions *)

Inductive Action : Type :=
  | FsRead | FsWrite | NetGet | NetPost | ModelCall | ProcSpawn
  | JjStatus | JjDiff | JjSnapshot | JjRestore | JjWorkspaceAdd | JjWorkspaceForget.

#[export] Instance Action_eq_dec : EqDecision Action.
Proof. solve_decision. Defined.

Definition actions : list Action :=
  [FsRead; FsWrite; NetGet; NetPost; ModelCall; ProcSpawn;
   JjStatus; JjDiff; JjSnapshot; JjRestore; JjWorkspaceAdd; JjWorkspaceForget].

Definition action_text (a : Action) : string :=
  match a with
  | FsRead => "fs:read" | FsWrite => "fs:write" | NetGet => "net:get" | NetPost => "net:post"
  | ModelCall => "model:call" | ProcSpawn => "proc:spawn" | JjStatus => "jj:status"
  | JjDiff => "jj:diff" | JjSnapshot => "jj:snapshot" | JjRestore => "jj:restore"
  | JjWorkspaceAdd => "jj:workspace-add" | JjWorkspaceForget => "jj:workspace-forget"
  end.

(** [actions.has(text)], with the action the cast then names. *)
Definition action_of_text (text : string) : option Action :=
  List.find (λ a, bool_decide (action_text a = text)) actions.

Record Capability := mkCapability { action : Action; resource : string }.

#[export] Instance Capability_eq_dec : EqDecision Capability.
Proof. solve_decision. Defined.

Inductive PatternAction : Type :=
  | Exactly (a : Action) | FsAny | NetAny | ModelAny | ProcAny | JjAny | AnyAction.

#[export] Instance PatternAction_eq_dec : EqDecision PatternAction.
Proof. solve_decision. Defined.

Definition pattern_text (p : PatternAction) : string :=
  match p with
  | Exactly a => action_text a
  | FsAny => "fs:*" | NetAny => "net:*" | ModelAny => "model:*" | ProcAny => "proc:*"
  | JjAny => "jj:*" | AnyAction => "*"
  end.

Record CapabilityPattern := mkPattern { p_action : PatternAction; p_resource : string }.

#[export] Instance CapabilityPattern_eq_dec : EqDecision CapabilityPattern.
Proof. solve_decision. Defined.

(** The one renderer, of a capability and of a pattern. *)
Definition format (action resource : string) : string := action +:+ ":" +:+ resource.
Definition format_capability (c : Capability) : string := format (action_text (action c)) (resource c).
Definition format_pattern (p : CapabilityPattern) : string :=
  format (pattern_text (p_action p)) (p_resource p).

(** The action is the first two components, the rest is the resource. *)
Definition parse (input : string) : option Capability :=
  match split_on ":" input with
  | namespace :: operation :: ((_ :: _) as rest) =>
      match action_of_text (namespace +:+ ":" +:+ operation) with
      | Some a => Some (mkCapability a (join ":" rest))
      | None => None
      end
  | _ => None
  end.

(** ** Matching *)

Definition normalizeSlashes : string → string :=
  map_units (λ u, if bool_decide (u = "\"%char) then "/"%char else u).

Definition matchesAction (pattern : PatternAction) (a : Action) : bool :=
  let p := pattern_text pattern in
  bool_decide (p = "*") || bool_decide (p = action_text a) ||
  (ends_with ":*" p && starts_with (drop_last 1 p) (action_text a)).

Definition canonicalUnit (u : ascii) : N :=
  match toUpperCase u with
  | [upper] => if (128 <=? N_of_ascii u)%N && (upper <? 128)%N then N_of_ascii u else upper
  | _ => N_of_ascii u
  end.

Definition unitsEqual (left right : ascii) (foldCase : bool) : bool :=
  bool_decide (left = right) || (foldCase && (canonicalUnit left =? canonicalUnit right)%N).

(** The variables of the matcher's loop; [starIndex] is [None] for the
    source's [-1]. *)
Record GlobState := mkGlob
  { patternIndex : nat; resourceIndex : nat; starIndex : option nat; starResourceIndex : nat }.

Section matcher.
Context (pattern rsrc : string) (foldCase : bool).

(** What one turn of the loop does: go on, or leave with [false]. *)
Definition glob_turn (st : GlobState) : option GlobState :=
  let '(mkGlob pi ri star sr) := st in
  let unit := String.get pi pattern in
  if bool_decide (unit = Some "*"%char) then
    Some (mkGlob (pi + 1) ri (Some pi) ri)
  else if match unit, String.get ri rsrc with
          | Some u, Some x => bool_decide (u = "?"%char) || unitsEqual u x foldCase
          | _, _ => false
          end then
    Some (mkGlob (pi + 1) (ri + 1) star sr)
  else match star with
       | Some s => Some (mkGlob (s + 1) (sr + 1) star (sr + 1))
       | None => None
       end.

(** The trailing loop: [while (pattern[patternIndex] === "*") patternIndex += 1],
    then [patternIndex === pattern.length]; [n] turns are left to it. *)
Fixpoint only_stars (n pi : nat) : bool :=
  match n with
  | O => bool_decide (pi = String.length pattern)
  | S n' => if bool_decide (String.get pi pattern = Some "*"%char) then only_stars n' (pi + 1)
            else bool_decide (pi = String.length pattern)
  end.

(** The loop, for at most [fuel] turns; [None] when they run out. *)
Fixpoint glob_loop (fuel : nat) (st : GlobState) : option bool :=
  if bool_decide (resourceIndex st < String.length rsrc) then
    match fuel with
    | O => None
    | S fuel' =>
        match glob_turn st with
        | Some st' => glob_loop fuel' st'
        | None => Some false
        end
    end
  else Some (only_stars (String.length pattern) (patternIndex st)).

Definition glob_start : GlobState := mkGlob 0 0 None 0.

(** A number of turns that is always enough. *)
Definition glob_fuel : nat := 2 * (String.length pattern + 1) * (String.length rsrc + 1).

Definition matchGlob : bool :=
  match glob_loop glob_fuel glob_start with Some b => b | None => false end.

End matcher.

(** [/^[A-Za-z]:\//]. *)
Definition is_letter (u : ascii) : bool :=
  let n := N_of_ascii u in
  ((65 <=? n)%N && (n <=? 90)%N) || ((97 <=? n)%N && (n <=? 122)%N).
Definition is_drive (s : string) : bool :=
  match s with
  | String l (String c (String d _)) =>
      is_letter l && bool_decide (c = ":"%char) && bool_decide (d = "/"%char)
  | _ => false
  end.

Definition matchesResource (pattern rsrc : string) : bool :=
  let normalizedPattern := normalizeSlashes pattern in
  let normalizedResource := normalizeSlashes rsrc in
  let foldCase := is_drive normalizedPattern || is_drive normalizedResource in
  (ends_with " *" normalizedPattern &&
   matchGlob (drop_last 2 normalizedPattern) normalizedResource foldCase) ||
  matchGlob normalizedPattern normalizedResource foldCase.

Definition matches (pattern : CapabilityPattern) (c : Capability) : bool :=
  matchesAction (p_action pattern) (action c) && matchesResource (p_resource pattern) (resource c).

(** ** Subsumption *)

Definition actionSubsumes (left right : PatternAction) : bool :=
  let l := pattern_text left in
  let r := pattern_text right in
  if bool_decide (l = "*") || bool_decide (l = r) then true
  else ends_with ":*" l && negb (bool_decide (r = "*")) && starts_with (drop_last 1 l) r.

Definition resourceSubsumes (left right : string) : bool :=
  let normalizedLeft := normalizeSlashes left in
  let normalizedRight := normalizeSlashes right in
  if bool_decide (normalizedLeft = normalizedRight) || bool_decide (normalizedLeft = "**") then true
  else if negb (ends_with "/**" normalizedLeft) then false
  else starts_with (drop_last 3 normalizedLeft +:+ "/") normalizedRight.

Definition subsumes (left right : CapabilityPattern) : bool :=
  actionSubsumes (p_action left) (p_action right) &&
  resourceSubsumes (p_resource left) (p_resource right).

(** ** Paths and effect tiers *)

Inductive EffectTier : Type := Sealed | Compensable | Irreversible.

#[export] Instance EffectTier_eq_dec : EqDecision EffectTier.
Proof. solve_decision. Defined.

(** The drive or root a normalized path starts with, and whether it is absolute. *)
Definition path_prefix (normalized : string) : string :=
  if is_drive normalized then String.substring 0 3 normalized
  else if starts_with "/" normalized then "/" else "".
Definition path_absolute (normalized : string) : bool :=
  is_drive normalized || starts_with "/" normalized.

(** One turn of the loop over the segments; [segments] is the array, its last
    element at the end. *)
Definition push_segment (absolute : bool) (segments : list string) (segment : string) : list string :=
  if bool_decide (segment = "") || bool_decide (segment = ".") then segments
  else if bool_decide (segment = "..") then
    match last segments with
    | Some top => if bool_decide (top = "..") then
                    if absolute then segments else segments ++ [segment]
                  else removelast segments
    | None => if absolute then segments else segments ++ [segment]
    end
  else segments ++ [segment].

Definition lexical_segments (normalized : string) : list string :=
  fold_left (push_segment (path_absolute normalized))
    (split_on "/" (slice_from (String.length (path_prefix normalized)) normalized)) [].

Definition lexicalPath (path : string) : string :=
  let normalized := normalizeSlashes path in
  let text := path_prefix normalized +:+ join "/" (lexical_segments normalized) in
  if bool_decide (text = "") then "." else text.

Definition isAbsolutePath (path : string) : bool := starts_with "/" path || is_drive path.

(** The path a resource names under a root already made lexical. *)
Definition resolve_under (root rsrc : string) : string :=
  let normalizedResource := normalizeSlashes rsrc in
  lexicalPath (if isAbsolutePath normalizedResource then normalizedResource
               else root +:+ "/" +:+ normalizedResource).

Definition isInsideWorkspace (rsrc workspaceRoot : string) : bool :=
  let root := lexicalPath workspaceRoot in
  let resolved := resolve_under root rsrc in
  let windowsRoot := is_drive root in
  let comparableRoot := if windowsRoot then toLowerCase root else root in
  let comparableResolved := if windowsRoot then toLowerCase resolved else resolved in
  let prefix := if ends_with "/" comparableRoot then comparableRoot else comparableRoot +:+ "/" in
  if bool_decide (comparableResolved = comparableRoot) then true
  else if negb (starts_with prefix comparableResolved) then false
  else let remainder := slice_from (String.length prefix) comparableResolved in
       negb (bool_decide (remainder = "..")) && negb (starts_with "../" remainder).

Definition tierOf (c : Capability) (workspaceRoot : string) : EffectTier :=
  match action c with
  | FsRead | NetGet | ModelCall | JjStatus | JjDiff => Sealed
  | FsWrite => if isInsideWorkspace (resource c) workspaceRoot then Compensable else Irreversible
  | JjSnapshot | JjRestore | JjWorkspaceAdd | JjWorkspaceForget => Compensable
  | NetPost | ProcSpawn => Irreversible
  end.

Definition requiresIdempotencyKey (tier : EffectTier) : bool := bool_decide (tier = Irreversible).
