(* ===== verification/Texts.v ===== *)
(** * The string operations of the language, on lists of units

    Lemmas on [split_on], [join], [starts_with], [ends_with], the slices and the
    unit maps of [Capability.v].  [units] reads a string as the list of its
    units, where the list library applies. *)

From S2P Require Import Prelude Capability.
#[local] Open Scope me_scope.

(** ** Strings as lists of units *)

Definition units (s : string) : list ascii := String.list_ascii_of_string s.

Lemma units_app a b : units (a +:+ b) = units a ++ units b.
Proof. induction a as [|x a IH]; [done|]. exact (f_equal (cons x) IH). Qed.

Lemma units_length s : length (units s) = String.length s.
Proof. induction s as [|x s IH]; [done|]. exact (f_equal S IH). Qed.

Lemma get_units i s : String.get i s = units s !! i.
Proof. revert i. induction s as [|x s IH]; intros [|i]; [done..|]. apply IH. Qed.

Lemma units_inj a b : units a = units b → a = b.
Proof.
  intros H. rewrite <-(String.string_of_list_ascii_of_string a).
  rewrite <-(String.string_of_list_ascii_of_string b). exact (f_equal _ H).
Qed.

Lemma get_lt i s x : String.get i s = Some x → i < String.length s.
Proof. rewrite get_units, <-units_length. apply lookup_lt_Some. Qed.

Lemma units_map f s : units (map_units f s) = f <$> units s.
Proof. induction s as [|x s IH]; [done|]. exact (f_equal (cons (f x)) IH). Qed.

Lemma map_units_app f a b : map_units f (a +:+ b) = map_units f a +:+ map_units f b.
Proof. apply units_inj. by rewrite !units_map, !units_app, fmap_app, !units_map. Qed.

Lemma app_length a b : String.length (a +:+ b) = String.length a + String.length b.
Proof. by rewrite <-!units_length, units_app, length_app. Qed.

Lemma app_nil_right a : a +:+ "" = a.
Proof. apply units_inj. by rewrite units_app, app_nil_r. Qed.

Lemma app_cons_text x a b : String x a +:+ b = String x (a +:+ b).
Proof. done. Qed.

(** ** Slices *)

Lemma units_substring n m s : units (String.substring n m s) = take m (drop n (units s)).
Proof.
  revert n m. induction s as [|x s IH]; intros [|n] [|m]; try done.
  - exact (f_equal (cons x) (IH 0 m)).
  - apply IH.
  - apply (IH n (S m)).
Qed.

Lemma units_slice_from n s : units (slice_from n s) = drop n (units s).
Proof.
  unfold slice_from. rewrite units_substring, take_ge; [done|].
  rewrite length_drop, units_length. lia.
Qed.

Lemma units_drop_last n s : units (drop_last n s) = take (String.length s - n) (units s).
Proof. unfold drop_last. by rewrite units_substring, drop_0. Qed.

Lemma slice_from_app a b : slice_from (String.length a) (a +:+ b) = b.
Proof. apply units_inj. by rewrite units_slice_from, units_app, <-units_length, drop_app_length. Qed.

Lemma drop_last_app a b : drop_last (String.length b) (a +:+ b) = a.
Proof.
  apply units_inj. rewrite units_drop_last, units_app, app_length, <-!units_length.
  replace (length (units a) + length (units b) - length (units b)) with (length (units a)) by lia.
  apply take_app_length.
Qed.

Lemma starts_with_spec p s : starts_with p s = true ↔ ∃ t, s = p +:+ t.
Proof.
  unfold starts_with. revert s. induction p as [|x p IH]; intros s.
  - split; [by exists s|by destruct s].
  - destruct s as [|y s]; cbn.
    + split; [done|intros [t Ht]; discriminate].
    + destruct (ascii_dec x y) as [->|Hne].
      * rewrite IH. split; intros [t Ht]; exists t; [by rewrite app_cons_text, <-Ht|].
        rewrite app_cons_text in Ht. by injection Ht.
      * split; [done|]. intros [t Ht]. rewrite app_cons_text in Ht. by injection Ht.
Qed.

Lemma starts_with_concat p t : starts_with p (p +:+ t) = true.
Proof. apply starts_with_spec. by exists t. Qed.

Lemma ends_with_spec x s : ends_with x s = true ↔ ∃ p, s = p +:+ x.
Proof.
  unfold ends_with. rewrite andb_true_iff, !bool_decide_eq_true. split.
  - intros [Hle E]. exists (drop_last (String.length x) s). apply units_inj.
    apply (f_equal units) in E. rewrite units_substring in E.
    rewrite units_app, units_drop_last, <-E.
    rewrite (take_ge (drop _ _)); [by rewrite take_drop|].
    rewrite length_drop, units_length. lia.
  - intros [p ->]. rewrite app_length. split; [lia|].
    replace (String.length p + String.length x - String.length x) with (String.length p) by lia.
    apply units_inj. rewrite units_substring, units_app, <-!units_length, drop_app_length.
    by apply take_ge.
Qed.

(** ** Splitting and joining *)

Lemma split_on_cons sep s : ∃ seg rest, split_on sep s = seg :: rest.
Proof.
  induction s as [|x s (seg & rest & E)]; cbn; [by exists "", []|].
  rewrite E. case_bool_decide; eauto.
Qed.

Lemma split_on_sep sep s : split_on sep (String sep s) = "" :: split_on sep s.
Proof. cbn. destruct (split_on_cons sep s) as (seg & rest & ->). by rewrite bool_decide_eq_true_2. Qed.

Lemma split_on_unit sep x s seg rest :
  x ≠ sep → split_on sep s = seg :: rest → split_on sep (String x s) = String x seg :: rest.
Proof. intros Hx E. cbn. by rewrite E, bool_decide_eq_false_2. Qed.

Definition has_unit (sep : ascii) (s : string) : Prop := sep ∈ units s.

Lemma has_unit_cons sep x s : has_unit sep (String x s) ↔ sep = x ∨ has_unit sep s.
Proof. unfold has_unit. cbn. apply elem_of_cons. Qed.

Lemma split_on_app sep a b :
  ¬ has_unit sep a → split_on sep (a +:+ String sep b) = a :: split_on sep b.
Proof.
  induction a as [|x a IH]; intros Ha; [apply split_on_sep|].
  rewrite has_unit_cons in Ha. rewrite app_cons_text.
  apply split_on_unit; [naive_solver|]. apply IH. naive_solver.
Qed.

Lemma split_on_whole sep a : ¬ has_unit sep a → split_on sep a = [a].
Proof.
  induction a as [|x a IH]; intros Ha; [done|]. rewrite has_unit_cons in Ha.
  apply split_on_unit; [naive_solver|]. apply IH. naive_solver.
Qed.

Lemma split_on_free sep s : Forall (λ seg, ¬ has_unit sep seg) (split_on sep s).
Proof.
  induction s as [|x s IH]; [constructor; [|done]; apply not_elem_of_nil|].
  destruct (split_on_cons sep s) as (seg & rest & E). rewrite E in IH.
  apply Forall_cons in IH as [Hseg Hrest].
  destruct (decide (x = sep)) as [->|Hx].
  - rewrite split_on_sep, E. repeat constructor; [apply not_elem_of_nil|done..].
  - rewrite (split_on_unit _ _ _ _ _ Hx E). constructor; [|done].
    rewrite has_unit_cons. naive_solver.
Qed.

Lemma join_cons sep x l : l ≠ [] → join sep (x :: l) = x +:+ String sep (join sep l).
Proof. by destruct l. Qed.

Lemma join_split sep s : join sep (split_on sep s) = s.
Proof.
  induction s as [|x s IH]; [done|].
  destruct (split_on_cons sep s) as (seg & rest & E).
  destruct (decide (x = sep)) as [->|Hx].
  - rewrite split_on_sep, join_cons, IH by (by rewrite E). done.
  - rewrite (split_on_unit _ _ _ _ _ Hx E). rewrite E in IH. rewrite <-IH.
    by destruct rest.
Qed.

Lemma split_join_app sep l s :
  l ≠ [] → Forall (λ seg, ¬ has_unit sep seg) l →
  split_on sep (join sep l +:+ String sep s) = l ++ split_on sep s.
Proof.
  intros Hl. induction l as [|x l IH]; [done|]. intros [Hx Hrest]%Forall_cons.
  destruct (decide (l = [])) as [->|Hne]; [by apply split_on_app|].
  rewrite join_cons by done. rewrite string_app_assoc, app_cons_text, split_on_app by done.
  cbn. by rewrite IH.
Qed.

Lemma split_join sep l :
  l ≠ [] → Forall (λ seg, ¬ has_unit sep seg) l → split_on sep (join sep l) = l.
Proof.
  intros Hl. induction l as [|x l IH]; [done|]. intros [Hx Hrest]%Forall_cons.
  destruct (decide (l = [])) as [->|Hne]; [by apply split_on_whole|].
  rewrite join_cons, split_on_app by done. by rewrite IH.
Qed.

Lemma join_app sep l1 l2 :
  l1 ≠ [] → l2 ≠ [] → join sep (l1 ++ l2) = join sep l1 +:+ String sep (join sep l2).
Proof.
  intros H1 H2. induction l1 as [|x l1 IH]; [done|].
  destruct (decide (l1 = [])) as [->|Hne]; [by apply join_cons|].
  cbn [app]. rewrite !join_cons; [|done|by destruct l1].
  rewrite IH by done. by rewrite string_app_assoc, app_cons_text.
Qed.

Lemma split_on_app_any sep a b :
  split_on sep (a +:+ String sep b) = split_on sep a ++ split_on sep b.
Proof.
  rewrite <-(join_split sep a) at 1.
  apply split_join_app; [|apply split_on_free].
  by destruct (split_on_cons sep a) as (seg & rest & ->).
Qed.

Lemma has_unit_app u a b : has_unit u (a +:+ b) ↔ has_unit u a ∨ has_unit u b.
Proof. unfold has_unit. rewrite units_app. apply elem_of_app. Qed.

Lemma has_unit_split sep u s seg : seg ∈ split_on sep s → has_unit u seg → has_unit u s.
Proof.
  revert seg. induction s as [|x s IH]; intros seg; cbn.
  - by intros ->%list_elem_of_singleton.
  - destruct (split_on_cons sep s) as (g & rest & E). rewrite E in *.
    rewrite has_unit_cons. case_bool_decide; intros [->|Hin]%elem_of_cons.
    + by intros ?%not_elem_of_nil.
    + eauto.
    + rewrite has_unit_cons. intros [->|Hu]; [by left|right]. eapply IH; [by left|done].
    + intros Hu. right. eapply IH; [by right|done].
Qed.

Lemma has_unit_join sep u l : has_unit u (join sep l) → u = sep ∨ Exists (has_unit u) l.
Proof.
  induction l as [|x l IH]; [by intros ?%not_elem_of_nil|].
  destruct (decide (l = [])) as [->|Hne]; [by right; left|].
  rewrite join_cons, has_unit_app, has_unit_cons by done.
  intros [H|[H|H]]; [by right; left|by left|]. destruct (IH H); [by left|by right; right].
Qed.

Lemma map_units_join f sep l : f sep = sep → map_units f (join sep l) = join sep (map_units f <$> l).
Proof.
  intros Hf. induction l as [|x l IH]; [done|].
  destruct (decide (l = [])) as [->|Hne]; [done|].
  cbn [fmap list_fmap]. rewrite !join_cons by (done || by destruct l).
  rewrite map_units_app, <-IH. cbn. by rewrite Hf.
Qed.

(** ** Slashes *)

Lemma normalizeSlashes_app a b :
  normalizeSlashes (a +:+ b) = normalizeSlashes a +:+ normalizeSlashes b.
Proof. apply map_units_app. Qed.

(** No backslash is left. *)
Definition normal_slashes (s : string) : Prop := ¬ has_unit "\"%char s.

Lemma normalizeSlashes_normal s : normal_slashes (normalizeSlashes s).
Proof.
  unfold normal_slashes, has_unit, normalizeSlashes. rewrite units_map.
  intros (x & E & _)%list_elem_of_fmap. by case_bool_decide.
Qed.

Lemma normalizeSlashes_id s : normal_slashes s → normalizeSlashes s = s.
Proof.
  unfold normalizeSlashes. induction s as [|x s IH]; intros Hs; [done|].
  unfold normal_slashes in Hs. rewrite has_unit_cons in Hs. cbn.
  rewrite bool_decide_eq_false_2 by naive_solver. f_equal. apply IH. unfold normal_slashes. naive_solver.
Qed.
