(* ===== verification/Glob.v ===== *)
(** * The glob matcher

    [glob] says which resources a glob selects, by rules; [matchGlob] of
    [Capability.v] is the source's two-pointer loop.  The loop remembers only the
    latest [*] and anchors it one unit further at every mismatch; this file
    proves that it answers [glob], and that it takes at most
    [2 * (|pattern| + 1) * (|resource| + 1)] turns. *)

From S2P Require Import Prelude Capability Texts.
#[local] Open Scope me_scope.

(** ** The language of a glob *)

(** What one unit of a glob other than [*] selects. *)
Definition accepts (fold : bool) (c x : ascii) : bool :=
  bool_decide (c = "?"%char) || unitsEqual c x fold.

Inductive glob (fold : bool) : list ascii → list ascii → Prop :=
  | glob_end : glob fold [] []
  | glob_star p r1 r2 : glob fold p r2 → glob fold ("*"%char :: p) (r1 ++ r2)
  | glob_unit c p x r :
      c ≠ "*"%char → accepts fold c x = true → glob fold p r → glob fold (c :: p) (x :: r).

#[local] Hint Constructors glob : core.

Section glob.
Context (fold : bool).
Notation glob := (glob fold).

(** A star-free piece of a glob, and the units it selects. *)
Definition lit (q u : list ascii) : Prop :=
  Forall2 (λ c x, c ≠ "*"%char ∧ accepts fold c x = true) q u.

Lemma glob_empty : ∀ r, glob [] r → r = [].
Proof. intros r H. by inversion H. Qed.

Lemma glob_absorb p r1 r2 : glob ("*"%char :: p) r2 → glob ("*"%char :: p) (r1 ++ r2).
Proof.
  intros H. inversion H as [|p' r3 r4 H' | ]; [|done].
  rewrite (assoc_L (++)). by apply glob_star.
Qed.

Lemma glob_star_inv p r : glob ("*"%char :: p) r → ∃ r1 r2, r = r1 ++ r2 ∧ glob p r2.
Proof. intros H. inversion H; simplify_eq; eauto. Qed.

(** A star takes nothing, or one unit more. *)
Lemma glob_star_step p x r :
  glob ("*"%char :: p) (x :: r) ↔ glob p (x :: r) ∨ glob ("*"%char :: p) r.
Proof.
  split.
  - intros (r1 & r2 & E & H)%glob_star_inv. destruct r1 as [|y r1]; simplify_eq/=; [by left|].
    right. by apply glob_star.
  - intros [H|H]; [by apply (glob_star _ _ [])|]. by apply (glob_absorb _ [x]).
Qed.

Lemma glob_star_nil p : glob ("*"%char :: p) [] ↔ glob p [].
Proof.
  split.
  - intros (r1 & r2 & E & H)%glob_star_inv. symmetry in E. by apply app_eq_nil in E as [-> ->].
  - apply (glob_star _ _ []).
Qed.

Lemma glob_cons_inv c p x r :
  c ≠ "*"%char → glob (c :: p) (x :: r) ↔ accepts fold c x = true ∧ glob p r.
Proof. intros Hc. split; [intros H; by inversion H|intros []; by constructor]. Qed.

Lemma glob_cons_nil c p : c ≠ "*"%char → ¬ glob (c :: p) [].
Proof.
  intros Hc H. inversion H as [|p' r1 r2 H' E1 E2|]; by simplify_eq.
Qed.

(** Past a star-free piece, what remains decides. *)
Lemma glob_lit q u p r : lit q u → glob (q ++ p) (u ++ r) ↔ glob p r.
Proof.
  intros H. induction H as [|c x q u [Hc Ha] _ IH]; [done|].
  cbn [app]. rewrite glob_cons_inv by done. naive_solver.
Qed.

Lemma glob_lit_split q u p r :
  lit q u → glob (q ++ p) r → ∃ u' r', r = u' ++ r' ∧ length u' = length q ∧ glob p r'.
Proof.
  intros H. revert r. induction H as [|c x q u [Hc Ha] _ IH]; intros r G.
  - by exists [], r.
  - inversion G as [| |c' p' y r' _ _ G']; simplify_eq/=.
    destruct (IH _ G') as (u' & r1 & -> & El & G1). exists (y :: u'), r1. cbn. by rewrite El.
Qed.

(** An older star gives the newer one no more: the units before the newer star
    are as many as the ones the piece between them selects. *)
Lemma glob_newer_star q u p r :
  lit q u →
  glob ("*"%char :: q ++ "*"%char :: p) (u ++ r) ↔ glob ("*"%char :: p) r.
Proof.
  intros Hl. split.
  - intros (r1 & r2 & E & H)%glob_star_inv.
    destruct (glob_lit_split _ _ _ _ Hl H) as (u' & r' & -> & El & G).
    rewrite (assoc_L (++)) in E.
    assert (length u ≤ length (r1 ++ u')) as Hle.
    { rewrite length_app, El, (Forall2_length _ _ _ Hl). lia. }
    apply (f_equal (drop (length u))) in E.
    rewrite drop_app_length, drop_app_le in E by lia. rewrite E. by apply glob_absorb.
  - intros H. apply (glob_star _ _ []). by apply glob_lit.
Qed.

(** At the end of the resource only the current position can succeed. *)
Lemma glob_star_exhausted q u p :
  lit q u → glob ("*"%char :: q ++ p) u ↔ glob p [].
Proof.
  intros Hl. split.
  - intros (r1 & r2 & E & H)%glob_star_inv.
    destruct (glob_lit_split _ _ _ _ Hl H) as (u' & r' & -> & El & G).
    apply (f_equal length) in E as E'. rewrite !length_app, El, (Forall2_length _ _ _ Hl) in E'.
    destruct r'; [done|cbn in E'; lia].
  - intros H. apply (glob_star _ _ []).
    rewrite <-(app_nil_r u). by apply (glob_lit q u p []).
Qed.

(** ** What the loop computes *)

Section loop.
Context (pattern rsrc : string).

(** The loop is [q] past its latest star, which [u] of the resource matches. *)
Inductive at_position : GlobState → list ascii → list ascii → Prop :=
  | at_no_star q p u r :
      units pattern = q ++ p → units rsrc = u ++ r → lit q u →
      at_position (mkGlob (length q) (length u) None 0) p r
  | at_star p0 q p r0 u r :
      units pattern = p0 ++ "*"%char :: q ++ p → units rsrc = r0 ++ u ++ r → lit q u →
      (glob (units pattern) (units rsrc) ↔ glob ("*"%char :: q ++ p) (u ++ r)) →
      at_position
        (mkGlob (length p0 + 1 + length q) (length r0 + length u) (Some (length p0)) (length r0)) p r.

Lemma at_pattern st p r : at_position st p r → String.get (patternIndex st) pattern = head p.
Proof.
  intros H. rewrite get_units. destruct H as [q p u r -> _ _|p0 q p r0 u r -> _ _ _]; cbn.
  - rewrite lookup_app_r, Nat.sub_diag by done. by destruct p.
  - change (?x :: ?a ++ ?b) with ([x] ++ a ++ b). rewrite !(assoc_L (++)).
    rewrite lookup_app_r by (rewrite !length_app; cbn; lia).
    rewrite !length_app. cbn. rewrite Nat.sub_diag. by destruct p.
Qed.

Lemma at_resource st p r : at_position st p r → String.get (resourceIndex st) rsrc = head r.
Proof.
  intros H. rewrite get_units. destruct H as [q p u r _ -> _|p0 q p r0 u r _ -> _ _]; cbn.
  - rewrite lookup_app_r, Nat.sub_diag by done. by destruct r.
  - rewrite (assoc_L (++)), lookup_app_r by (rewrite length_app; lia).
    rewrite length_app, Nat.sub_diag. by destruct r.
Qed.

Lemma at_left st p r :
  at_position st p r → String.length rsrc = resourceIndex st + length r.
Proof.
  intros H. rewrite <-units_length.
  destruct H as [q p u r _ -> _|p0 q p r0 u r _ -> _ _]; cbn; rewrite !length_app; lia.
Qed.

Lemma at_pattern_left st p r :
  at_position st p r → String.length pattern = patternIndex st + length p.
Proof.
  intros H. rewrite <-units_length.
  destruct H as [q p u r -> _ _|p0 q p r0 u r -> _ _ _]; cbn; rewrite !length_app; cbn;
    rewrite ?length_app; lia.
Qed.

(** A star becomes the anchor. *)
Lemma turn_star st p r :
  at_position st ("*"%char :: p) r →
  at_position (mkGlob (patternIndex st + 1) (resourceIndex st) (Some (patternIndex st)) (resourceIndex st)) p r.
Proof.
  intros H. inversion H as [q p' u r' Hp Hr Hl|p0 q p' r0 u r' Hp Hr Hl Hg]; simplify_eq/=.
  - replace (length u) with (length u + length (@nil ascii)) at 1 by (cbn; lia).
    replace (length q + 1) with (length q + 1 + length (@nil ascii)) by (cbn; lia).
    apply (at_star q [] p u [] r); [done..|constructor|].
    rewrite Hp, Hr. by apply glob_lit.
  - replace (length r0 + length u) with (length (r0 ++ u) + length (@nil ascii)) at 1
      by (rewrite length_app; cbn; lia).
    replace (length r0 + length u) with (length (r0 ++ u)) by (rewrite length_app; lia).
    replace (length p0 + 1 + length q + 1)
      with (length (p0 ++ "*"%char :: q) + 1 + length (@nil ascii)) by (rewrite length_app; cbn; lia).
    replace (length p0 + 1 + length q)
      with (length (p0 ++ "*"%char :: q)) by (rewrite length_app; cbn; lia).
    apply (at_star (p0 ++ "*"%char :: q) [] p (r0 ++ u) [] r).
    + rewrite Hp. by rewrite <-(assoc_L (++)).
    + rewrite Hr. by rewrite <-(assoc_L (++)).
    + constructor.
    + rewrite Hg. by apply glob_newer_star.
Qed.

(** A selected unit advances both. *)
Lemma turn_unit st c p x r :
  at_position st (c :: p) (x :: r) → c ≠ "*"%char → accepts fold c x = true →
  at_position (mkGlob (patternIndex st + 1) (resourceIndex st + 1) (starIndex st) (starResourceIndex st)) p r.
Proof.
  intros H Hc Ha.
  assert (∀ q u, lit q u → lit (q ++ [c]) (u ++ [x])) as Hl'.
  { intros q u Hl. apply Forall2_app; [done|]. by repeat constructor. }
  inversion H as [q p' u r' Hp Hr Hl|p0 q p' r0 u r' Hp Hr Hl Hg]; simplify_eq/=.
  - replace (length q + 1) with (length (q ++ [c])) by (by rewrite length_app).
    replace (length u + 1) with (length (u ++ [x])) by (by rewrite length_app).
    apply at_no_star; [by rewrite <-(assoc_L (++))..|by apply Hl'].
  - replace (length p0 + 1 + length q + 1) with (length p0 + 1 + length (q ++ [c]))
      by (rewrite length_app; cbn; lia).
    replace (length r0 + length u + 1) with (length r0 + length (u ++ [x]))
      by (rewrite length_app; cbn; lia).
    apply at_star; [by rewrite <-(assoc_L (++))..|by apply Hl'|].
    by rewrite <-!(assoc_L (++)).
Qed.

(** No position matches here: the pattern's next unit rejects the resource's. *)
Definition rejects (p r : list ascii) : Prop :=
  match p, r with
  | c :: _, x :: _ => c ≠ "*"%char ∧ accepts fold c x = false
  | [], _ :: _ => True
  | _, [] => False
  end.

Lemma rejects_glob p r : rejects p r → ¬ glob p r.
Proof.
  destruct p as [|c p], r as [|x r]; cbn; [done|intros _ H; by inversion H|done|].
  intros [Hc Ha]. rewrite glob_cons_inv by done. rewrite Ha. naive_solver.
Qed.

(** A mismatch moves the anchor one unit on. *)
Lemma turn_back st s p r :
  at_position st p r → starIndex st = Some s → rejects p r →
  ∃ p' r', at_position (mkGlob (s + 1) (starResourceIndex st + 1) (Some s) (starResourceIndex st + 1)) p' r'.
Proof.
  intros H Hs Hrej. inversion H as [|p0 q p' r0 u r' Hp Hr Hl Hg]; simplify_eq/=.
  assert (∃ y v, u ++ r = y :: v) as (y & v & E).
  { destruct u; [destruct r; [by destruct p|]|]; cbn; eauto. }
  exists (q ++ p), v.
  replace (length r0 + 1) with (length (r0 ++ [y]) + length (@nil ascii)) at 1
    by (rewrite length_app; cbn; lia).
  replace (length r0 + 1) with (length (r0 ++ [y])) by (by rewrite length_app).
  replace (length p0 + 1) with (length p0 + 1 + length (@nil ascii)) by (cbn; lia).
  apply (at_star p0 [] (q ++ p) (r0 ++ [y]) [] v).
  - done.
  - rewrite Hr, E. by rewrite <-(assoc_L (++)).
  - constructor.
  - rewrite Hg, E, glob_star_step, <-E, glob_lit by done. cbn.
    split; [intros [Hx|]; [by destruct (rejects_glob _ _ Hrej)|done]|by right].
Qed.

(** Without an anchor a mismatch decides. *)
Lemma no_anchor st p r :
  at_position st p r → starIndex st = None → rejects p r → ¬ glob (units pattern) (units rsrc).
Proof.
  intros H Hs Hrej. inversion H as [q p' u r' Hp Hr Hl|]; simplify_eq/=.
  rewrite Hp, Hr, glob_lit by done. by apply rejects_glob.
Qed.

Lemma at_end st p : at_position st p [] → (glob (units pattern) (units rsrc) ↔ glob p []).
Proof.
  intros H. inversion H as [q p' u r' Hp Hr Hl|p0 q p' r0 u r' Hp Hr Hl Hg]; simplify_eq/=.
  - rewrite Hp, Hr. by apply glob_lit.
  - rewrite Hg, app_nil_r. by apply glob_star_exhausted.
Qed.

(** The trailing loop decides whether only stars are left. *)
Lemma only_stars_spec n pi p :
  (∀ i, String.get (pi + i) pattern = p !! i) → String.length pattern = pi + length p →
  length p ≤ n → only_stars pattern n pi = true ↔ glob p [].
Proof.
  revert pi p. induction n as [|n IH]; intros pi p Hg Hlen Hn.
  - destruct p; [|cbn in Hn; lia]. cbn in *. rewrite bool_decide_eq_true. split; [done|lia].
  - cbn [only_stars]. pose proof (Hg 0) as H0. rewrite Nat.add_0_r in H0. rewrite H0.
    destruct p as [|c p]; cbn in *.
    + rewrite bool_decide_eq_false_2 by done. rewrite bool_decide_eq_true. split; [done|lia].
    + case_bool_decide as Hc.
      * simplify_eq. rewrite IH with (p := p).
        -- by rewrite glob_star_nil.
        -- intros i. specialize (Hg (S i)). cbn in Hg. by rewrite <-Nat.add_assoc.
        -- lia.
        -- lia.
      * rewrite bool_decide_eq_true. split; [lia|].
        intros H. exfalso. apply (glob_cons_nil c p); naive_solver.
Qed.

Lemma at_lookup st p r i :
  at_position st p r → String.get (patternIndex st + i) pattern = p !! i.
Proof.
  intros H. rewrite get_units. destruct H as [q p u r -> _ _|p0 q p r0 u r -> _ _ _]; cbn.
  - rewrite lookup_app_r by lia. f_equal. lia.
  - change (?x :: ?a ++ ?b) with ([x] ++ a ++ b). rewrite !(assoc_L (++)).
    rewrite lookup_app_r by (rewrite !length_app; cbn; lia).
    f_equal. rewrite !length_app. cbn. lia.
Qed.

(** One turn, from a position where units are left. *)
Lemma glob_turn_spec st p x r :
  at_position st p (x :: r) →
  match glob_turn pattern rsrc fold st with
  | Some st' => ∃ p' r', at_position st' p' r'
  | None => ¬ glob (units pattern) (units rsrc)
  end.
Proof.
  intros H. pose proof (at_pattern _ _ _ H) as Hu. pose proof (at_resource _ _ _ H) as Hx.
  destruct st as [pi ri star sr]. cbn [patternIndex resourceIndex] in *.
  unfold glob_turn. rewrite Hu, Hx. cbn [head].
  assert (rejects p (x :: r) →
    match match star with Some s => Some (mkGlob (s + 1) (sr + 1) star (sr + 1)) | None => None end with
    | Some st' => ∃ p' r', at_position st' p' r'
    | None => ¬ glob (units pattern) (units rsrc)
    end) as Hback.
  { intros Hr. destruct star as [s|]; [exact (turn_back _ s _ _ H eq_refl Hr)|].
    exact (no_anchor _ _ _ H eq_refl Hr). }
  destruct p as [|c p]; cbn [head].
  - rewrite bool_decide_eq_false_2 by done. by apply Hback.
  - case_bool_decide as Hc.
    + simplify_eq. do 2 eexists. exact (turn_star _ _ _ H).
    + destruct (bool_decide (c = "?"%char) || unitsEqual c x fold) eqn:Ha.
      * do 2 eexists. apply (turn_unit _ _ _ _ _ H); [naive_solver|exact Ha].
      * apply Hback. split; [naive_solver|exact Ha].
Qed.

Lemma at_start : at_position glob_start (units pattern) (units rsrc).
Proof. by apply (at_no_star [] _ []); [| |constructor]. Qed.

Lemma glob_loop_spec n st p r b :
  at_position st p r → glob_loop pattern rsrc fold n st = Some b →
  b = true ↔ glob (units pattern) (units rsrc).
Proof.
  revert st p r. induction n as [|n IH]; intros st p r H E; cbn in E.
  all: pose proof (at_left _ _ _ H) as Hleft; case_bool_decide as Hlt; [|].
  1: done.
  2: { destruct r as [|x r]; [cbn in Hleft; lia|].
       pose proof (glob_turn_spec _ _ _ _ H) as Ht.
       destruct (glob_turn pattern rsrc fold st) as [st'|].
       - destruct Ht as (p' & r' & H'). by eapply IH.
       - simplify_eq. done. }
  all: destruct r; [|cbn in Hleft; lia]; simplify_eq.
  all: rewrite (at_end _ _ H); apply only_stars_spec;
    [intros i; by apply (at_lookup _ _ _ _ H)|by apply (at_pattern_left _ _ _ H)|].
  all: pose proof (at_pattern_left _ _ _ H); lia.
Qed.

End loop.
End glob.

(** ** Termination

    Between two moves of the anchor every turn takes a unit of both texts, and
    the anchor only moves right. *)

Section bound.
Context (pattern rsrc : string) (fold : bool).
Notation P := (String.length pattern).
Notation R := (String.length rsrc).

Definition bounded (st : GlobState) : Prop :=
  patternIndex st ≤ P ∧ resourceIndex st ≤ R ∧ starResourceIndex st ≤ resourceIndex st ∧
  ∀ s, starIndex st = Some s → s < patternIndex st.

Definition anchor (st : GlobState) : nat :=
  match starIndex st with Some s => s + 1 | None => 0 end + starResourceIndex st.

Definition turns_left (st : GlobState) : nat :=
  (P + R - anchor st) * (Nat.min P R + 1) + Nat.min (P - patternIndex st) (R - resourceIndex st).

(** A later anchor pays for a fresh stretch of turns. *)
Lemma later_anchor a a' rem rem' :
  a < a' → a' ≤ P + R → rem' ≤ Nat.min P R →
  (P + R - a') * (Nat.min P R + 1) + rem' < (P + R - a) * (Nat.min P R + 1) + rem.
Proof.
  intros. assert (∃ d, P + R - a = (P + R - a') + 1 + d) as [d ->].
  { exists (a' - a - 1). lia. }
  nia.
Qed.

Lemma glob_turn_decreases st st' :
  bounded st → resourceIndex st < R → glob_turn pattern rsrc fold st = Some st' →
  bounded st' ∧ turns_left st' < turns_left st.
Proof.
  destruct st as [pi ri star sr].
  intros (Hp & Hr & Hs & Hst) Hlt E. cbn in Hp, Hr, Hs, Hst, Hlt.
  unfold glob_turn in E. unfold bounded, turns_left.
  destruct (String.get pi pattern) as [c|] eqn:Hc.
  2: { rewrite bool_decide_eq_false_2 in E by done.
       destruct star as [s|]; simplify_eq. specialize (Hst s eq_refl). cbn.
       split; [split_and!; [lia..|intros ? [= <-]; lia]|].
       apply later_anchor; unfold anchor; cbn; lia. }
  apply get_lt in Hc as Hc'.
  case_bool_decide as Hstar.
  { simplify_eq. cbn. split; [split_and!; [lia..|intros ? [= <-]; lia]|].
    apply later_anchor; [|unfold anchor; cbn; lia|lia].
    unfold anchor. cbn. destruct star as [s|]; [specialize (Hst s eq_refl)|]; lia. }
  case_match; simplify_eq.
  { cbn. split; [split_and!; [lia..|]|unfold anchor; cbn; lia].
    intros s Es. specialize (Hst s Es). lia. }
  destruct star as [s|]; simplify_eq. specialize (Hst s eq_refl). cbn.
  split; [split_and!; [lia..|intros ? [= <-]; lia]|]. apply later_anchor; unfold anchor; cbn; lia.
Qed.

Lemma glob_loop_terminates n st :
  bounded st → turns_left st < n → is_Some (glob_loop pattern rsrc fold n st).
Proof.
  revert st. induction n as [|n IH]; intros st Hb Hn; [lia|]. cbn.
  case_bool_decide as Hlt; [|done].
  destruct (glob_turn pattern rsrc fold st) as [st'|] eqn:E; [|done].
  apply glob_turn_decreases in E as [Hb' Hlt']; [|done..]. apply IH; [done|lia].
Qed.

Lemma glob_loop_more n k st b :
  glob_loop pattern rsrc fold n st = Some b → glob_loop pattern rsrc fold (n + k) st = Some b.
Proof.
  revert st. induction n as [|n IH]; intros st; cbn.
  - case_bool_decide; [done|]. intros [= <-]. destruct k; cbn; by rewrite bool_decide_eq_false_2.
  - case_bool_decide; [|done]. destruct (glob_turn pattern rsrc fold st); [apply IH|done].
Qed.

Lemma glob_fuel_enough : is_Some (glob_loop pattern rsrc fold (glob_fuel pattern rsrc) glob_start).
Proof.
  apply glob_loop_terminates.
  - unfold bounded, glob_start. cbn. split_and!; [lia..|done].
  - unfold turns_left, anchor, glob_fuel, glob_start. cbn [starIndex starResourceIndex patternIndex resourceIndex].
    destruct (Nat.min_spec P R) as [[? ->]|[? ->]]; nia.
Qed.

Lemma matchGlob_loop :
  glob_loop pattern rsrc fold (glob_fuel pattern rsrc) glob_start = Some (matchGlob pattern rsrc fold).
Proof.
  unfold matchGlob. destruct glob_fuel_enough as [b ->]. done.
Qed.

(** The matcher is linear in each text: whatever the glob, the loop has
    answered after [2 * (|pattern| + 1) * (|resource| + 1)] turns, and more turns
    change nothing. *)
Theorem matchGlob_terminates (more : nat) :
  glob_loop pattern rsrc fold (2 * (P + 1) * (R + 1) + more) glob_start =
  Some (matchGlob pattern rsrc fold).
Proof. apply glob_loop_more, matchGlob_loop. Qed.

Lemma matchGlob_spec :
  matchGlob pattern rsrc fold = true ↔ glob fold (units pattern) (units rsrc).
Proof. eapply glob_loop_spec; [apply at_start|apply matchGlob_loop]. Qed.

End bound.

(** C40. The two-pointer matcher answers exactly the language of the glob: [*]
    selects any run of units, [?] one unit, and any other unit itself or, with
    [foldCase], a unit of the same canonical case. *)
Theorem matchGlob_is_glob pattern rsrc fold :
  matchGlob pattern rsrc fold = true ↔ glob fold (units pattern) (units rsrc).
Proof. apply matchGlob_spec. Qed.
