(* ===== verification/CapabilityProps.v ===== *)
(** * What capabilities and patterns promise

    Parsing inverts formatting, and [subsumes] is sound: what it proves of two
    patterns holds of every capability. *)

From S2P Require Import Prelude Capability Texts Glob.
#[local] Open Scope me_scope.

(** ** Parsing *)

Lemma action_of_text_spec text a : action_of_text text = Some a ↔ text = action_text a.
Proof.
  unfold action_of_text. split.
  - intros [_ H]%List.find_some. by apply bool_decide_eq_true in H.
  - intros ->. by destruct a; vm_compute.
Qed.

(** The text of an action is two components. *)
Lemma action_components a :
  ∃ x y, action_text a = x +:+ ":" +:+ y ∧ ¬ has_unit ":" x ∧ ¬ has_unit ":" y.
Proof.
  assert (∀ t, split_on ":" t = [t] → ¬ has_unit ":" t) as Hone.
  { intros t E. pose proof (split_on_free ":" t) as H. rewrite E in H. by apply Forall_cons in H as [? _]. }
  destruct a; [exists "fs", "read"|exists "fs", "write"|exists "net", "get"|exists "net", "post"
    |exists "model", "call"|exists "proc", "spawn"|exists "jj", "status"|exists "jj", "diff"
    |exists "jj", "snapshot"|exists "jj", "restore"|exists "jj", "workspace-add"
    |exists "jj", "workspace-forget"]; split_and!; by try apply Hone; vm_compute.
Qed.

(** Parsing and formatting are inverse: a text parses to a capability
    exactly when it is that capability's rendering, so every capability survives
    the round trip and no text is read as a capability that renders differently. *)
Theorem parse_format s c : parse s = Some c ↔ s = format_capability c.
Proof.
  unfold parse, format_capability, format. split.
  - destruct (split_on ":" s) as [|x [|y [|z rest]]] eqn:E; try done.
    destruct (action_of_text _) as [a|] eqn:Ha; [|done]. intros [= <-].
    apply action_of_text_spec in Ha. cbn [action resource]. rewrite <-Ha.
    rewrite <-(join_split ":" s), E, !join_cons by done. by rewrite !string_app_assoc.
  - intros ->. destruct c as [a r]. cbn [action resource].
    destruct (action_components a) as (x & y & E & Hx & Hy). rewrite E, !string_app_assoc.
    assert (∀ t, ":" +:+ t = String ":" t) as Hc by done.
    rewrite !Hc, split_on_app, split_on_app by done.
    destruct (split_on_cons ":" r) as (seg & rest & Er). rewrite Er.
    rewrite <-E.
    assert (action_of_text (action_text a) = Some a) as -> by by apply action_of_text_spec.
    by rewrite <-Er, join_split.
Qed.

(** ** Subsumption of actions *)

Lemma actionSubsumes_matches left right a :
  actionSubsumes left right = true → matchesAction right a = true → matchesAction left a = true.
Proof. by destruct left as [b| | | | | |], right as [b'| | | | | |]; try destruct b; try destruct b'; destruct a; vm_compute. Qed.

(** ** Subsumption of resources *)

Lemma glob_append fold p q r1 r2 : glob fold p r1 → glob fold q r2 → glob fold (p ++ q) (r1 ++ r2).
Proof.
  induction 1 as [|p r0 r1 _ IH|c p x r1 Hc Ha _ IH]; intros Hq; [done| |].
  - rewrite <-(assoc_L (++)). apply glob_star. by apply IH.
  - cbn. apply glob_unit; [done..|]. by apply IH.
Qed.

Lemma glob_split fold p q r :
  glob fold (p ++ q) r → ∃ r1 r2, r = r1 ++ r2 ∧ glob fold p r1 ∧ glob fold q r2.
Proof.
  revert r. induction p as [|c p IH]; intros r H.
  - exists [], r. split_and!; [done|constructor|done].
  - cbn in H. inversion H as [|p' r1 r2 H' E1 E2|c' p' x r' Hc Ha H' E1 E2]; subst.
    + destruct (IH _ H') as (u & v & -> & Hu & Hv). exists (r1 ++ u), v.
      split_and!; [by rewrite (assoc_L (++))|by apply glob_star|done].
    + destruct (IH _ H') as (u & v & -> & Hu & Hv). exists (x :: u), v.
      split_and!; [done|by apply glob_unit|done].
Qed.

Lemma glob_anything fold r : glob fold ["*"%char; "*"%char] r.
Proof.
  rewrite <-(app_nil_r r). apply glob_star, (glob_star _ _ [] []). constructor.
Qed.

(** Widening the end of a glob to [**] only adds resources. *)
Lemma glob_widen fold p q r :
  glob fold (p ++ q) r → glob fold (p ++ ["*"%char; "*"%char]) r.
Proof.
  intros (r1 & r2 & -> & H1 & _)%glob_split. apply glob_append; [done|]. apply glob_anything.
Qed.

(** A drive is told by the three first units. *)
Lemma is_drive_prefix pre s : is_drive (pre +:+ "/**") = is_drive (pre +:+ "/" +:+ s).
Proof.
  assert (bool_decide ("/"%char = ":"%char) = false) as E by done.
  destruct pre as [|a [|b [|c pre]]]; try done; destruct s as [|x s];
    cbv beta iota fix delta [String.append is_drive];
    rewrite ?E, ?andb_false_r; try done.
  by destruct s.
Qed.

(** The glob in force for a pattern: with or without its trailing [" *"]. *)
Lemma matchesResource_glob pattern rsrc :
  matchesResource pattern rsrc = true ↔
  let fold := is_drive (normalizeSlashes pattern) || is_drive (normalizeSlashes rsrc) in
  ∃ p, (p = normalizeSlashes pattern ∨ p +:+ " *" = normalizeSlashes pattern) ∧
       glob fold (units p) (units (normalizeSlashes rsrc)).
Proof.
  cbn zeta. unfold matchesResource. rewrite orb_true_iff, andb_true_iff, !matchGlob_spec. split.
  - intros [[(p & E)%ends_with_spec H]|H]; [|by eexists; split; [left|]].
    exists p. split; [by right|].
    rewrite E in H |- *. by rewrite (drop_last_app p " *" : drop_last 2 _ = _) in H.
  - intros (p & [->|E] & H); [by right|left].
    split; [apply ends_with_spec; by exists p|]. rewrite <-E in H |- *. by rewrite (drop_last_app p " *" : drop_last 2 _ = _).
Qed.

(** Cutting a trailing [" *"] cannot cut into a part that ends with a slash. *)
Lemma cut_keeps_prefix p pre rest :
  p +:+ " *" = (pre +:+ "/") +:+ rest → ∃ rest', p = (pre +:+ "/") +:+ rest'.
Proof.
  intros E. apply (f_equal units) in E. rewrite !units_app in E. cbn in E.
  destruct (decide (length (units pre ++ ["/"%char]) ≤ length (units p))) as [Hle|Hgt].
  - exists (slice_from (String.length (pre +:+ "/")) p). apply units_inj.
    rewrite !units_app, units_slice_from, <-units_length, units_app. cbn.
    apply (f_equal (take (length (units pre ++ ["/"%char])))) in E.
    rewrite take_app_le, take_app_length in E by done. rewrite <-E at 1.
    by rewrite take_drop.
  - exfalso. rewrite length_app in Hgt. cbn in Hgt.
    assert (units p !! length (units pre) = None) as Hn by (apply lookup_ge_None; lia).
    assert ((units p ++ [" "%char; "*"%char]) !! length (units pre) = Some "/"%char) as Hl.
    { rewrite E, <-(assoc_L (++)), lookup_app_r, Nat.sub_diag by done. done. }
    rewrite lookup_app_r in Hl by (by apply lookup_ge_None).
    destruct (length (units pre) - length (units p)) as [|[|k]]; by cbn in Hl.
Qed.

Lemma resourceSubsumes_matches left right rsrc :
  resourceSubsumes left right = true →
  matchesResource right rsrc = true → matchesResource left rsrc = true.
Proof.
  unfold resourceSubsumes. rewrite !matchesResource_glob. cbn zeta.
  destruct (bool_decide _ || bool_decide _) eqn:Hb.
  - intros _. apply orb_true_iff in Hb as [Hb|Hb]; apply bool_decide_eq_true in Hb as ->; [done|].
    intros _. exists "**". split; [by left|]. apply glob_anything.
  - destruct (ends_with "/**" (normalizeSlashes left)) eqn:He; [|done]. cbn [negb].
    apply ends_with_spec in He as [pre Hl]. rewrite Hl.
    rewrite (drop_last_app pre "/**" : drop_last 3 _ = _).
    intros [rest Hr]%starts_with_spec (p & Hp & Hg). rewrite Hr in *.
    exists (pre +:+ "/**"). split; [by left|].
    assert (∃ rest', p = (pre +:+ "/") +:+ rest') as [rest' ->].
    { destruct Hp as [->|Hp]; [by exists rest|by apply cut_keeps_prefix in Hp]. }
    rewrite (is_drive_prefix _ rest), <-string_app_assoc.
    rewrite units_app in Hg. apply glob_widen in Hg.
    change "/**" with ("/" +:+ "**"). by rewrite <-string_app_assoc, units_app.
Qed.

(** C39. Subsumption is sound: when [subsumes] relates two patterns, every
    capability the right one selects is selected by the left one, across
    namespaces, slashes, drive letters and the optional argument of [" *"]. *)
Theorem subsumes_sound left right c :
  subsumes left right = true → matches right c = true → matches left c = true.
Proof.
  unfold subsumes, matches. rewrite !andb_true_iff. intros [Ha Hr] [Hma Hmr]. split.
  - by eapply actionSubsumes_matches.
  - by eapply resourceSubsumes_matches.
Qed.

Lemma subsumes_sound_witness :
  matches (mkPattern FsAny "C:\work/**") (mkCapability FsRead "c:/WORK/src\a.ts") = true.
Proof.
  apply (subsumes_sound _ (mkPattern (Exactly FsRead) "C:/work/src\*.ts")); vm_compute; reflexivity.
Defined.
