(* ===== verification/Paths.v ===== *)
(** * Lexical paths and the workspace boundary

    [isInsideWorkspace] compares texts: the lexical path of the resource against
    the lexical path of the root and a slash.  This file gives the boundary its
    meaning on directory segments, [destination], and proves that for an absolute
    root the textual test is containment of segments. *)

From S2P Require Import Prelude Capability Texts.
#[local] Open Scope me_scope.

(** ** Segments *)

(** A segment that names an entry of a directory. *)
Definition plain_segment (s : string) : Prop :=
  s ≠ "" ∧ s ≠ "." ∧ s ≠ ".." ∧ ¬ has_unit "/" s.

(** What the text comparison needs of the segments. *)
Definition solid (s : string) : Prop := s ≠ "" ∧ s ≠ ".." ∧ ¬ has_unit "/" s.

Lemma plain_solid s : plain_segment s → solid s.
Proof. unfold plain_segment, solid. naive_solver. Qed.

Lemma solid_free l : Forall solid l → Forall (λ s, ¬ has_unit "/" s) l.
Proof. intros H. eapply Forall_impl; [exact H|]. unfold solid. naive_solver. Qed.

Lemma push_plain acc s : Forall plain_segment acc → ¬ has_unit "/" s →
  Forall plain_segment (push_segment true acc s).
Proof.
  intros Hacc Hs. unfold push_segment.
  destruct (bool_decide (s = "") || bool_decide (s = ".")) eqn:E1; [done|].
  apply orb_false_iff in E1 as [E1 E2].
  apply bool_decide_eq_false in E1, E2.
  case_bool_decide as E3; [|apply Forall_app; by repeat constructor].
  destruct (last acc) as [top|] eqn:El; [|done]. case_bool_decide; [done|].
  apply last_Some in El as [l ->]. rewrite removelast_last. by apply Forall_app in Hacc as [? _].
Qed.

Lemma walk_plain l acc : Forall plain_segment acc → Forall (λ s, ¬ has_unit "/" s) l →
  Forall plain_segment (fold_left (push_segment true) l acc).
Proof.
  revert acc. induction l as [|s l IH]; intros acc Hacc; [done|].
  intros [Hs Hl]%Forall_cons. apply IH; [by apply push_plain|done].
Qed.

(** Walking plain segments goes down one directory each. *)
Lemma walk_down l acc : Forall plain_segment l → fold_left (push_segment true) l acc = acc ++ l.
Proof.
  revert acc. induction l as [|s l IH]; intros acc; cbn; [by rewrite app_nil_r|].
  intros [(H1 & H2 & H3 & _) Hl]%Forall_cons.
  assert (push_segment true acc s = acc ++ [s]) as ->.
  { unfold push_segment. by rewrite !bool_decide_eq_false_2. }
  rewrite IH by done. by rewrite <-(assoc_L (++)).
Qed.

Lemma walk_from l acc x : x ∈ fold_left (push_segment true) l acc → x ∈ acc ∨ x ∈ l.
Proof.
  revert acc. induction l as [|s l IH]; intros acc; cbn; [by left|].
  intros [H|H]%IH; [|by right; right].
  unfold push_segment in H. rewrite elem_of_cons.
  repeat case_match; rewrite ?elem_of_app, ?list_elem_of_singleton in H; try naive_solver.
  destruct acc as [|a acc _] using rev_ind; [done|].
  rewrite removelast_last in H. rewrite elem_of_app. naive_solver.
Qed.

(** ** Volumes *)

(** What an absolute path starts with: the root of the file system or of a drive. *)
Definition is_volume (v : string) : Prop :=
  v = "/" ∨ ∃ l, is_letter l = true ∧ v = String l ":/".

Lemma slash_not_letter : is_letter "/" = false.
Proof. done. Qed.

Lemma volume_read v rest : is_volume v →
  is_drive (v +:+ rest) = is_drive v ∧ path_prefix (v +:+ rest) = v ∧
  path_absolute (v +:+ rest) = true ∧ isAbsolutePath (v +:+ rest) = true.
Proof.
  assert (is_drive (String "/" rest) = false) as Hs.
  { destruct rest as [|a [|b rest]]; [done..|]. cbn. by rewrite slash_not_letter. }
  intros [->|(l & Hl & ->)].
  - assert (is_drive ("/" +:+ rest) = false) as Hd by exact Hs.
    unfold path_prefix, path_absolute, isAbsolutePath. by rewrite Hd, starts_with_concat.
  - rewrite !app_cons_text. unfold path_prefix, path_absolute, isAbsolutePath.
    assert (∀ t, is_drive (String l (String ":" (String "/" t))) = true) as Hd.
    { intros t. cbn. by rewrite Hl. }
    rewrite !Hd. split_and!; [done| |done|by rewrite orb_true_r]. cbn. by destruct rest.
Qed.

Lemma absolute_volume n : path_absolute n = true →
  is_volume (path_prefix n) ∧ n = path_prefix n +:+ slice_from (String.length (path_prefix n)) n.
Proof.
  unfold path_absolute, path_prefix. destruct (is_drive n) eqn:Hd.
  - intros _. destruct n as [|l [|c [|d rest]]]; try done. cbn in Hd.
    apply andb_true_iff in Hd as [[Hl ->%bool_decide_eq_true]%andb_true_iff ->%bool_decide_eq_true].
    assert (String.substring 0 3 (String l (String ":" (String "/" rest))) = String l ":/") as ->
      by by destruct rest.
    split; [right; eauto|].
    by rewrite (slice_from_app (String l ":/") rest : slice_from _ (String l (String ":" (String "/" rest))) = _).
  - cbn [orb]. intros Hs. rewrite Hs. apply starts_with_spec in Hs as [t ->].
    split; [by left|]. by rewrite (slice_from_app "/" t).
Qed.

Lemma volume_cancel v w x y : is_volume v → is_volume w → v +:+ x = w +:+ y → v = w ∧ x = y.
Proof.
  assert (∀ l t u, is_letter l = true → String l t ≠ String "/" u) as Hne.
  { intros l t u Hl E. injection E as -> _. by rewrite slash_not_letter in Hl. }
  intros [->|(l & Hl & ->)] [->|(m & Hm & ->)]; rewrite ?app_cons_text; intros E.
  - by injection E.
  - symmetry in E. by apply Hne in E.
  - by apply Hne in E.
  - by injection E as -> E.
Qed.

Lemma volume_slash v : is_volume v → ∃ p, v = p +:+ "/".
Proof. intros [->|(l & _ & ->)]; [by exists ""|by exists (String l ":")]. Qed.

(** ** The textual test *)

(** [isInsideWorkspace] on the two texts it compares. *)
Definition text_inside (root resolved : string) : bool :=
  let prefix := if ends_with "/" root then root else root +:+ "/" in
  if bool_decide (resolved = root) then true
  else if negb (starts_with prefix resolved) then false
  else let remainder := slice_from (String.length prefix) resolved in
       negb (bool_decide (remainder = "..")) && negb (starts_with "../" remainder).

(** The remainder of solid segments does not leave the root. *)
Lemma solid_remainder rest : Forall solid rest →
  negb (bool_decide (join "/" rest = "..")) && negb (starts_with "../" (join "/" rest)) = true.
Proof.
  intros Hr. destruct (decide (rest = [])) as [->|Hne]; [done|].
  pose proof (split_join "/" rest Hne (solid_free _ Hr)) as Hs.
  apply andb_true_iff. split; apply negb_true_iff.
  - apply bool_decide_eq_false. intros E. rewrite E in Hs. cbn in Hs. subst rest.
    apply Forall_cons in Hr as [(_ & H & _) _]. done.
  - apply not_true_is_false. intros [t E]%starts_with_spec. rewrite E in Hs.
    rewrite (split_on_app_any "/" ".." t : split_on "/" ("../" +:+ t) = _) in Hs.
    cbn in Hs. subst rest. apply Forall_cons in Hr as [(_ & H & _) _]. done.
Qed.

Lemma solid_join_ends s : s ≠ [] → Forall solid s → ∀ p, join "/" s ≠ p +:+ "/".
Proof.
  intros Hne Hs p E. pose proof (split_join "/" s Hne (solid_free _ Hs)) as Hsp.
  rewrite E, (split_on_app_any "/" p "") in Hsp. subst s.
  apply Forall_app in Hs as [_ Hs]. apply Forall_cons in Hs as [(H & _) _]. done.
Qed.

Lemma path_text_ends v s : is_volume v → s ≠ [] → Forall solid s →
  ends_with "/" (v +:+ join "/" s) = false.
Proof.
  intros Hv Hne Hs. apply not_true_is_false. intros [p E]%ends_with_spec.
  assert (units (join "/" s) ≠ []) as Hj.
  { intros H. apply (units_inj _ "") in H. pose proof (split_join "/" s Hne (solid_free _ Hs)) as Hsp.
    rewrite H in Hsp. cbn in Hsp. subst s. apply Forall_cons in Hs as [(Hx & _) _]. done. }
  apply (f_equal units) in E. rewrite !units_app in E.
  destruct (units (join "/" s)) as [|x l _] eqn:El using rev_ind; [done|].
  rewrite (assoc_L (++)) in E. apply app_inj_tail in E as [_ ->].
  apply (solid_join_ends s Hne Hs (String.string_of_list_ascii l)). apply units_inj.
  rewrite El, units_app. unfold units at 1. by rewrite String.list_ascii_of_string_of_list_ascii.
Qed.

Lemma text_inside_spec v1 s1 v2 s2 :
  is_volume v1 → is_volume v2 → Forall solid s1 → Forall solid s2 →
  text_inside (v1 +:+ join "/" s1) (v2 +:+ join "/" s2) = true ↔ v2 = v1 ∧ s1 `prefix_of` s2.
Proof.
  intros Hv1 Hv2 Hs1 Hs2. unfold text_inside.
  destruct (decide (s1 = [])) as [->|Hne].
  - cbn [join]. rewrite app_nil_right.
    assert (ends_with "/" v1 = true) as -> by by apply ends_with_spec, volume_slash.
    split.
    + intros H. split; [|apply prefix_nil]. case_bool_decide as E.
      * rewrite <-(app_nil_right v1) in E. by apply volume_cancel in E as [? _].
      * destruct (starts_with v1 _) eqn:Hp; [|done].
        apply starts_with_spec in Hp as [t Hp]. by apply volume_cancel in Hp as [? _].
    + intros [-> _]. case_bool_decide; [done|].
      rewrite starts_with_concat, slice_from_app. cbn [negb]. by apply solid_remainder.
  - rewrite path_text_ends by done. rewrite string_app_assoc.
    pose proof (split_join "/" s1 Hne (solid_free _ Hs1)) as Hsp1.
    split.
    + intros H. case_bool_decide as E.
      * apply volume_cancel in E as [-> E]; [|done..]. split; [done|].
        rewrite <-Hsp1, <-E. destruct (decide (s2 = [])) as [->|Hne2].
        -- cbn in E. rewrite <-E in Hsp1. cbn in Hsp1. subst s1.
           apply Forall_cons in Hs1 as [(Hx & _) _]. done.
        -- by rewrite split_join by (done || by apply solid_free).
      * destruct (starts_with _ _) eqn:Hp; [|done].
        apply starts_with_spec in Hp as [t Hp]. rewrite !string_app_assoc in Hp.
        apply volume_cancel in Hp as [-> Hp]; [|done..]. split; [done|].
        exists (split_on "/" t). rewrite <-Hsp1 at 1.
        rewrite <-(split_on_app_any "/" _ t).
        change (String "/" t) with ("/" +:+ t). rewrite <-Hp.
        destruct (decide (s2 = [])) as [->|Hne2]; [|by rewrite split_join by (done || by apply solid_free)].
        cbn in Hp. by destruct (join "/" s1).
    + intros [-> [rest ->]]. case_bool_decide as E; [done|].
      apply Forall_app in Hs2 as [_ Hrest].
      assert (rest ≠ []) as Hr by (intros ->; by rewrite app_nil_r in E).
      rewrite join_app by done. change (String "/" (join "/" rest)) with ("/" +:+ join "/" rest).
      rewrite <-!string_app_assoc, starts_with_concat, slice_from_app. by apply solid_remainder.
Qed.

(** ** Where a resource leads *)

(** The directories of an absolute path. *)
Definition directories (path : string) : list string := lexical_segments (normalizeSlashes path).
Definition volume (path : string) : string := path_prefix (normalizeSlashes path).

(** The volume and the directories a resource names under a root: an absolute
    resource its own, a relative one walked from the root's. *)
Definition destination (root rsrc : string) : string * list string :=
  let r := normalizeSlashes rsrc in
  if isAbsolutePath r then (volume rsrc, directories rsrc)
  else (volume root, fold_left (push_segment true) (split_on "/" r) (directories root)).

(** An absolute path, once its slashes are normal. *)
Definition absolute (path : string) : Prop := path_absolute (normalizeSlashes path) = true.

Lemma isAbsolutePath_absolute r : isAbsolutePath (normalizeSlashes r) = true ↔ absolute r.
Proof. unfold isAbsolutePath, absolute, path_absolute. by rewrite orb_comm. Qed.

Lemma absolute_read path : absolute path →
  is_volume (volume path) ∧
  normalizeSlashes path = volume path +:+ slice_from (String.length (volume path)) (normalizeSlashes path).
Proof. apply absolute_volume. Qed.

Lemma directories_walk path : absolute path →
  directories path =
  fold_left (push_segment true)
    (split_on "/" (slice_from (String.length (volume path)) (normalizeSlashes path))) [].
Proof. unfold absolute, directories, lexical_segments. by intros ->. Qed.

Lemma directories_plain path : absolute path → Forall plain_segment (directories path).
Proof. intros H. rewrite directories_walk by done. apply walk_plain; [done|apply split_on_free]. Qed.

Lemma destination_plain root rsrc : absolute root →
  is_volume (destination root rsrc).1 ∧ Forall plain_segment (destination root rsrc).2.
Proof.
  intros Hroot. unfold destination. destruct (isAbsolutePath _) eqn:Ha; cbn [fst snd].
  - apply isAbsolutePath_absolute in Ha. split; [by apply absolute_read|by apply directories_plain].
  - split; [by apply absolute_read|].
    apply walk_plain; [by apply directories_plain|apply split_on_free].
Qed.

Lemma lexicalPath_absolute path : absolute path →
  lexicalPath path = volume path +:+ join "/" (directories path).
Proof.
  intros H. unfold lexicalPath. cbn zeta. change (path_prefix (normalizeSlashes path)) with (volume path).
  change (lexical_segments (normalizeSlashes path)) with (directories path).
  rewrite bool_decide_eq_false_2; [done|].
  by destruct (proj1 (absolute_read _ H)) as [->|(l & _ & ->)].
Qed.

Lemma normal_slashes_app a b : normal_slashes (a +:+ b) ↔ normal_slashes a ∧ normal_slashes b.
Proof. unfold normal_slashes. rewrite has_unit_app. naive_solver. Qed.

Lemma volume_normal v : is_volume v → normal_slashes v.
Proof.
  unfold normal_slashes. intros [->|(l & Hl & ->)]; rewrite !has_unit_cons.
  - by intros [|?%not_elem_of_nil].
  - intros [<-|[|[|?%not_elem_of_nil]]]; done.
Qed.

Lemma directories_normal path : absolute path → normal_slashes (join "/" (directories path)).
Proof.
  intros H Hu. apply has_unit_join in Hu as [|Hu]; [done|].
  apply Exists_exists in Hu as (seg & Hin & Hu).
  rewrite directories_walk in Hin by done.
  apply walk_from in Hin as [?%not_elem_of_nil|Hin]; [done|].
  apply (has_unit_split _ _ _ _ Hin) in Hu.
  apply (normalizeSlashes_normal path). destruct (absolute_read _ H) as [_ E]. rewrite E.
  apply has_unit_app. by right.
Qed.

Lemma root_text_walk l rest : Forall plain_segment l →
  fold_left (push_segment true) (split_on "/" (join "/" l +:+ "/" +:+ rest)) [] =
  fold_left (push_segment true) (split_on "/" rest) l.
Proof.
  intros Hl. rewrite (split_on_app_any "/" (join "/" l) rest : split_on "/" (_ +:+ "/" +:+ rest) = _).
  rewrite fold_left_app. f_equal. destruct (decide (l = [])) as [->|Hne]; [done|].
  rewrite split_join; [by apply walk_down|done|].
  apply solid_free. eapply Forall_impl; [exact Hl|]. apply plain_solid.
Qed.

(** The path the code resolves is the destination. *)
Lemma resolve_under_destination root rsrc : absolute root →
  resolve_under (lexicalPath root) rsrc =
  (destination root rsrc).1 +:+ join "/" (destination root rsrc).2.
Proof.
  intros Hroot. unfold resolve_under, destination.
  assert (normalizeSlashes (normalizeSlashes rsrc) = normalizeSlashes rsrc) as Hn
    by apply normalizeSlashes_id, normalizeSlashes_normal.
  destruct (isAbsolutePath _) eqn:Ha; cbn [fst snd].
  - apply isAbsolutePath_absolute in Ha.
    rewrite lexicalPath_absolute by (unfold absolute; by rewrite Hn).
    unfold volume, directories. by rewrite Hn.
  - destruct (absolute_read _ Hroot) as [Hv _].
    rewrite (lexicalPath_absolute root) by done. rewrite string_app_assoc.
    set (t := join "/" (directories root) +:+ "/" +:+ normalizeSlashes rsrc).
    assert (normalizeSlashes (volume root +:+ t) = volume root +:+ t) as Ht.
    { apply normalizeSlashes_id, normal_slashes_app. split; [by apply volume_normal|].
      apply normal_slashes_app. split; [by apply directories_normal|].
      apply normal_slashes_app. split; [by intros [|?%not_elem_of_nil]%has_unit_cons|].
      apply normalizeSlashes_normal. }
    destruct (volume_read _ t Hv) as (_ & Hp & Habs & _).
    assert (absolute (volume root +:+ t)) as Ha' by (unfold absolute; by rewrite Ht).
    rewrite lexicalPath_absolute, directories_walk by done.
    assert (volume (volume root +:+ t) = volume root) as -> by (unfold volume at 1; by rewrite Ht).
    rewrite Ht, slice_from_app. unfold t. rewrite root_text_walk by (by apply directories_plain). done.
Qed.

(** ** Comparable texts *)

(** A map of units that keeps the shape of a path. *)
Record path_units (g : ascii → ascii) : Prop := mkPathUnits
  { keeps_slash : ∀ x, g x = "/"%char ↔ x = "/"%char;
    keeps_dot : ∀ x, g x = "."%char ↔ x = "."%char;
    keeps_letter : ∀ x, is_letter (g x) = is_letter x;
    keeps_colon : ∀ x, g x = ":"%char ↔ x = ":"%char }.

Lemma path_units_lower : path_units lower_unit.
Proof.
  assert (∀ x, bool_decide (lower_unit x = "/"%char) = bool_decide (x = "/"%char) ∧
               bool_decide (lower_unit x = "."%char) = bool_decide (x = "."%char) ∧
               bool_decide (lower_unit x = ":"%char) = bool_decide (x = ":"%char) ∧
               is_letter (lower_unit x) = is_letter x) as H.
  { intros [[] [] [] [] [] [] [] []]; vm_compute; done. }
  split; intros x; destruct (H x) as (H1 & H2 & H3 & H4); [| |done|];
    rewrite <-(bool_decide_eq_true (lower_unit x = _)), ?H1, ?H2, ?H3; apply bool_decide_eq_true.
Qed.

Lemma path_units_id : path_units id.
Proof. done. Qed.

Lemma map_units_id s : map_units id s = s.
Proof. induction s as [|x s IH]; [done|]. cbn. by rewrite IH. Qed.

Section comparable.
Context (g : ascii → ascii) (Hg : path_units g).

Lemma solid_map s : solid s → solid (map_units g s).
Proof.
  intros (H1 & H2 & H3). split_and!.
  - by destruct s.
  - intros E. apply H2. destruct s as [|a [|b [|c s]]]; cbn in E; try discriminate.
    injection E as Ea Eb. apply (proj1 (keeps_dot _ Hg _)) in Ea, Eb. by subst.
  - unfold has_unit. rewrite units_map. intros (x & E & Hx)%list_elem_of_fmap.
    symmetry in E. apply (proj1 (keeps_slash _ Hg _)) in E. by subst.
Qed.

Lemma solid_map_all l : Forall plain_segment l → Forall solid (map_units g <$> l).
Proof. rewrite Forall_fmap. intros H. eapply Forall_impl; [exact H|]. intros s Hs. by apply solid_map, plain_solid. Qed.

Lemma volume_map v : is_volume v → is_volume (map_units g v).
Proof.
  assert (g "/"%char = "/"%char) as Hs by by apply (keeps_slash _ Hg).
  intros [->|(l & Hl & ->)]; cbn.
  - left. by rewrite Hs.
  - right. exists (g l). rewrite (keeps_letter _ Hg). by rewrite (proj2 (keeps_colon _ Hg _) eq_refl), Hs.
Qed.

Lemma map_path_text v l :
  map_units g (v +:+ join "/" l) = map_units g v +:+ join "/" (map_units g <$> l).
Proof. rewrite map_units_app, map_units_join; [done|]. by apply (keeps_slash _ Hg). Qed.

End comparable.

(** The units texts are compared by under a volume: a drive folds case. *)
Definition comparable (v : string) : string → string :=
  if is_drive v then toLowerCase else map_units id.

Lemma isInsideWorkspace_spec root rsrc : absolute root →
  isInsideWorkspace rsrc root = true ↔
  comparable (volume root) (destination root rsrc).1 = comparable (volume root) (volume root) ∧
  (comparable (volume root) <$> directories root) `prefix_of`
  (comparable (volume root) <$> (destination root rsrc).2).
Proof.
  intros Hroot. destruct (absolute_read _ Hroot) as [Hv _].
  destruct (destination_plain root rsrc Hroot) as [Hdv Hd].
  pose proof (directories_plain _ Hroot) as Hr.
  assert (isInsideWorkspace rsrc root =
    text_inside (comparable (volume root) (lexicalPath root))
      (comparable (volume root) (resolve_under (lexicalPath root) rsrc))) as ->.
  { unfold isInsideWorkspace. cbn zeta. unfold comparable.
    rewrite (lexicalPath_absolute root) by done.
    destruct (volume_read _ (join "/" (directories root)) Hv) as (-> & _).
    destruct (is_drive (volume root)); [done|]. by rewrite !map_units_id. }
  rewrite resolve_under_destination, lexicalPath_absolute by done.
  unfold comparable. destruct (is_drive (volume root)).
  - unfold toLowerCase. pose proof path_units_lower as Hg. rewrite !(map_path_text _ Hg).
    apply text_inside_spec; auto using volume_map, solid_map_all.
  - pose proof path_units_id as Hg. rewrite !(map_path_text _ Hg).
    apply text_inside_spec; auto using volume_map, solid_map_all.
Qed.

(** The workspace boundary is containment of directories: for an absolute
    root the textual test holds exactly when the resource leads to the root's
    volume and to directories that begin with the root's (letter case aside on a
    drive), and the directories it leads to hold no [..], [.] or empty segment. *)
Theorem inside_is_containment root rsrc : absolute root →
  let same := comparable (volume root) in
  (isInsideWorkspace rsrc root = true ↔
     same (destination root rsrc).1 = same (volume root) ∧
     (same <$> directories root) `prefix_of` (same <$> (destination root rsrc).2)) ∧
  Forall plain_segment (destination root rsrc).2.
Proof.
  intros Hroot. split; [by apply isInsideWorkspace_spec|by apply destination_plain].
Qed.

Lemma inside_is_containment_witness :
  isInsideWorkspace "..\project\src/./a.ts" "C:/Work/project" = true ∧
  isInsideWorkspace "../projects/a.ts" "/work/project" = false.
Proof.
  split.
  - destruct (inside_is_containment "C:/Work/project" "..\project\src/./a.ts") as [H _];
      [vm_compute; reflexivity|].
    apply H. split; [vm_compute; reflexivity|]. exists ["src"; "a.ts"]. vm_compute. reflexivity.
  - vm_compute. reflexivity.
Defined.
