(* ===== verification/CapabilitySet.v ===== *)
(** * Capability sets ([kernel/src/CapabilitySet.ts])

    The authority of a fiber: a conjunction of any-of groups of patterns, kept in
    a normal form.  The comparators answer a number, as the arguments of
    [Array.prototype.sort] do; [Comparator] is what sorting relies on, and the
    normal form of a list is the same for every comparator that has it. *)

From S2P Require Import Prelude Capability Texts.
#[local] Open Scope me_scope.

(** ** Comparators *)

Class Comparator {A} (cmp : A → A → Z) : Prop :=
  { cmp_zero : ∀ x y, cmp x y = 0%Z ↔ x = y;
    cmp_flip : ∀ x y, (cmp x y < 0)%Z ↔ (0 < cmp y x)%Z;
    cmp_trans : ∀ x y z, (cmp x y < 0)%Z → (cmp y z < 0)%Z → (cmp x z < 0)%Z }.

(** The loop over the common length, then the difference of the lengths. *)
Fixpoint compare_lists {A} (cmp : A → A → Z) (left right : list A) : Z :=
  match left, right with
  | x :: left', y :: right' =>
      let order := cmp x y in
      if bool_decide (order ≠ 0%Z) then order else compare_lists cmp left' right'
  | _, _ => (Z.of_nat (length left) - Z.of_nat (length right))%Z
  end.

(** [left < right] on strings: by code units, a prefix first. *)
Definition compare_units (x y : ascii) : Z := (Z.of_N (N_of_ascii x) - Z.of_N (N_of_ascii y))%Z.
Definition compare_texts (left right : string) : Z := compare_lists compare_units (units left) (units right).
Definition text_lt (left right : string) : bool := bool_decide (compare_texts left right < 0)%Z.

Definition comparePattern (left right : CapabilityPattern) : Z :=
  let la := pattern_text (p_action left) in
  let ra := pattern_text (p_action right) in
  if text_lt la ra then (-1)%Z
  else if text_lt ra la then 1%Z
  else if text_lt (p_resource left) (p_resource right) then (-1)%Z
  else if text_lt (p_resource right) (p_resource left) then 1%Z
  else 0%Z.

Definition compareGroup (left right : list CapabilityPattern) : Z :=
  compare_lists comparePattern left right.

(** ** Normal forms *)

(** [l.sort(cmp)]: the sort of the language is stable. *)
Definition cmp_le {A} (cmp : A → A → Z) (x y : A) : Prop := (cmp x y ≤ 0)%Z.

#[export] Instance cmp_le_dec {A} (cmp : A → A → Z) : RelDecision (cmp_le cmp).
Proof. intros x y. unfold cmp_le. apply _. Defined.

Definition sort_by {A} (cmp : A → A → Z) : list A → list A := merge_sort (cmp_le cmp).

(** One turn of the loops that keep the first of equal neighbours. *)
Definition push_distinct {A} (cmp : A → A → Z) (normalized : list A) (x : A) : list A :=
  match last normalized with
  | Some previous => if bool_decide (cmp previous x ≠ 0%Z) then normalized ++ [x] else normalized
  | None => normalized ++ [x]
  end.

Definition normalizeGroup (patterns : list CapabilityPattern) : list CapabilityPattern :=
  fold_left (push_distinct comparePattern) (sort_by comparePattern patterns) [].

Record CapabilitySet := mkSet { groups : list (list CapabilityPattern) }.

Definition make (gs : list (list CapabilityPattern)) : CapabilitySet :=
  let sorted := sort_by compareGroup (normalizeGroup <$> gs) in
  if existsb (λ g, bool_decide (length g = 0)) sorted then mkSet [[]]
  else mkSet (fold_left (push_distinct compareGroup) sorted []).

Definition fromPatterns (patterns : list CapabilityPattern) : CapabilitySet := make [patterns].
Definition unrestricted : CapabilitySet := make [].
Definition none : CapabilitySet := make [[]].

Definition allows (set : CapabilitySet) (c : Capability) : bool :=
  forallb (λ g, existsb (λ p, matches p c) g) (groups set).

Definition intersect (left right : CapabilitySet) : CapabilitySet := make (groups left ++ groups right).

Fixpoint equal_groups (left right : list (list CapabilityPattern)) : bool :=
  match left, right with
  | g :: left', h :: right' => bool_decide (compareGroup g h = 0%Z) && equal_groups left' right'
  | _, _ => true
  end.

Definition equals (left right : CapabilitySet) : bool :=
  bool_decide (length (groups left) = length (groups right)) && equal_groups (groups left) (groups right).

(** An effect reads the authority of its fiber; [attenuate] runs it with the
    authority narrowed by one group. *)
Definition attenuate {A} (patterns : list CapabilityPattern) (effect : CapabilitySet → A) :
    CapabilitySet → A :=
  λ parent, effect (intersect parent (fromPatterns patterns)).
Definition current : CapabilitySet → CapabilitySet := λ set, set.

(** ** The comparators are comparators *)

Section lists.
Context {A} (cmp : A → A → Z) `{!Comparator cmp}.

Lemma cmp_refl x : cmp x x = 0%Z.
Proof. by apply cmp_zero. Qed.

Lemma compare_lists_cases l r :
  (compare_lists cmp l r < 0)%Z ↔
  match l, r with
  | x :: l', y :: r' => (cmp x y < 0)%Z ∨ x = y ∧ (compare_lists cmp l' r' < 0)%Z
  | [], _ :: _ => True
  | _, [] => False
  end.
Proof.
  destruct l as [|x l], r as [|y r]; cbn; [lia..|].
  case_bool_decide as Hc; rewrite <-cmp_zero; lia.
Qed.

#[export] Instance compare_lists_comparator : Comparator (compare_lists cmp).
Proof.
  split.
  - intros l. induction l as [|x l IH]; intros [|y r]; cbn; [done|split; [lia|done]..|].
    case_bool_decide as Hc.
    + split; [done|]. intros [= -> ->]. by rewrite cmp_refl in Hc.
    + assert (x = y) as -> by (apply cmp_zero; lia). rewrite IH. split; [by intros ->|by intros [= ->]].
  - intros l. induction l as [|x l IH]; intros [|y r]; cbn; [lia..|].
    case_bool_decide as Hc; case_bool_decide as Hd.
    + apply cmp_flip.
    + assert (y = x) as -> by (apply cmp_zero; lia). by rewrite cmp_refl in Hc.
    + assert (x = y) as -> by (apply cmp_zero; lia). by rewrite cmp_refl in Hd.
    + apply IH.
  - intros l. induction l as [|x l IH]; intros [|y r] [|z s] H1 H2; apply compare_lists_cases;
      apply compare_lists_cases in H1, H2; try done.
    destruct H1 as [H1|[-> H1]], H2 as [H2|[-> H2]]; [left|by left|by left|right].
    + by apply (cmp_trans _ y).
    + split; [done|]. by apply (IH r).
Qed.

End lists.

#[export] Instance compare_units_comparator : Comparator compare_units.
Proof.
  unfold compare_units. split; [|lia..]. intros x y. split; [|intros ->; lia].
  intros H. rewrite <-(ascii_N_embedding x), <-(ascii_N_embedding y). f_equal. lia.
Qed.

#[export] Instance compare_texts_comparator : Comparator compare_texts.
Proof.
  unfold compare_texts. split.
  - intros x y. rewrite cmp_zero. split; [apply units_inj|by intros ->].
  - intros x y. apply cmp_flip.
  - intros x y z. apply cmp_trans.
Qed.

Lemma pattern_text_inj a b : pattern_text a = pattern_text b → a = b.
Proof. by destruct a as [[]| | | | | |], b as [[]| | | | | |]. Qed.

Lemma comparePattern_lt l r :
  (comparePattern l r < 0)%Z ↔
  (compare_texts (pattern_text (p_action l)) (pattern_text (p_action r)) < 0)%Z ∨
  p_action l = p_action r ∧ (compare_texts (p_resource l) (p_resource r) < 0)%Z.
Proof.
  unfold comparePattern, text_lt.
  pose proof (cmp_flip (pattern_text (p_action r)) (pattern_text (p_action l))) as F1.
  pose proof (cmp_zero (pattern_text (p_action l)) (pattern_text (p_action r))) as Z1.
  assert (p_action l = p_action r ↔ pattern_text (p_action l) = pattern_text (p_action r)) as ->.
  { split; [by intros ->|apply pattern_text_inj]. }
  rewrite <-Z1. repeat case_bool_decide; lia.
Qed.

Lemma comparePattern_gt l r : (0 < comparePattern r l)%Z ↔ (comparePattern l r < 0)%Z.
Proof.
  unfold comparePattern, text_lt.
  pose proof (cmp_flip (pattern_text (p_action r)) (pattern_text (p_action l))).
  pose proof (cmp_flip (pattern_text (p_action l)) (pattern_text (p_action r))).
  pose proof (cmp_flip (p_resource r) (p_resource l)).
  pose proof (cmp_flip (p_resource l) (p_resource r)).
  repeat case_bool_decide; lia.
Qed.

#[export] Instance comparePattern_comparator : Comparator comparePattern.
Proof.
  split.
  - intros l r. split; [|intros ->].
    + intros H0. destruct l as [la lr], r as [ra rr].
      unfold comparePattern, text_lt in H0. cbn [p_action p_resource] in H0.
      pose proof (cmp_flip (pattern_text ra) (pattern_text la)).
      pose proof (cmp_flip rr lr).
      repeat case_bool_decide; try done.
      f_equal; [apply pattern_text_inj|]; apply (cmp_zero (cmp:=compare_texts)); lia.
    + unfold comparePattern, text_lt. by rewrite !(cmp_refl compare_texts).
  - intros l r. by rewrite comparePattern_gt.
  - intros x y z. rewrite !comparePattern_lt.
    intros [H1|[E1 H1]] [H2|[E2 H2]].
    + left. by eapply cmp_trans.
    + left. by rewrite <-E2.
    + left. by rewrite E1.
    + right. split; [congruence|]. by eapply cmp_trans.
Qed.

#[export] Instance compareGroup_comparator : Comparator compareGroup.
Proof. apply compare_lists_comparator, _. Qed.

(** ** Sorting and removing neighbours gives the one normal form *)

Section normal.
Context {A} (cmp : A → A → Z) `{!Comparator cmp}.

Definition below (x y : A) : Prop := (cmp x y < 0)%Z.

#[export] Instance cmp_le_trans : Transitive (cmp_le cmp).
Proof.
  intros x y z. unfold cmp_le. intros H1 H2.
  destruct (decide (cmp x y = 0%Z)) as [E|E]; [by apply cmp_zero in E as ->|].
  destruct (decide (cmp y z = 0%Z)) as [E2|E2]; [by apply cmp_zero in E2 as <-|].
  assert (cmp x z < 0)%Z; [|lia]. apply (cmp_trans x y z); lia.
Qed.

#[export] Instance cmp_le_total : Total (cmp_le cmp).
Proof. intros x y. unfold cmp_le. pose proof (cmp_flip y x). lia. Qed.

#[export] Instance below_antisymm : AntiSymm (=) below.
Proof. intros x y H1 H2. unfold below in *. apply cmp_flip in H1. lia. Qed.

Lemma sort_by_in x l : x ∈ sort_by cmp l ↔ x ∈ l.
Proof. unfold sort_by. by rewrite merge_sort_Permutation. Qed.

Lemma sort_by_sorted l : StronglySorted (cmp_le cmp) (sort_by cmp l).
Proof. apply (StronglySorted_merge_sort _). Qed.

Lemma below_nodup l : StronglySorted below l → NoDup l.
Proof.
  induction 1 as [|x l _ IH Hx]; constructor; [|done].
  intros Hin. rewrite Forall_forall in Hx. specialize (Hx _ Hin).
  unfold below in Hx. rewrite cmp_refl in Hx by done. lia.
Qed.

(** A strictly sorted list is determined by its elements. *)
Lemma below_unique l1 l2 :
  StronglySorted below l1 → StronglySorted below l2 → (∀ x, x ∈ l1 ↔ x ∈ l2) → l1 = l2.
Proof.
  intros H1 H2 Hin. apply (StronglySorted_unique below); [done..|].
  apply NoDup_Permutation; auto using below_nodup.
Qed.

Lemma below_snoc l x : StronglySorted below l → (∀ y, last l = Some y → below y x) →
  StronglySorted below (l ++ [x]).
Proof.
  intros Hl. induction Hl as [|y l Hl IH Hy]; intros Hlast; [by repeat constructor|].
  cbn. constructor.
  - apply IH. intros z Hz. apply Hlast. by destruct l.
  - apply Forall_app. split; [done|]. constructor; [|done].
    destruct l as [|z l] using rev_ind; [by apply Hlast|].
    rewrite Forall_app in Hy. destruct Hy as [_ Hz]. apply Forall_cons in Hz as [Hz _].
    unfold below in *. apply (cmp_trans y z x); [done|].
    apply Hlast. change (y :: l ++ [z]) with ((y :: l) ++ [z]). by rewrite last_snoc.
Qed.

Lemma distinct_spec l acc :
  StronglySorted below acc → StronglySorted (cmp_le cmp) l →
  (∀ x y, last acc = Some x → y ∈ l → cmp_le cmp x y) →
  StronglySorted below (fold_left (push_distinct cmp) l acc) ∧
  ∀ x, x ∈ fold_left (push_distinct cmp) l acc ↔ x ∈ acc ∨ x ∈ l.
Proof.
  revert acc. induction l as [|x l IH]; intros acc Ha Hl Hle; cbn.
  { split; [done|]. intros x. rewrite elem_of_nil. tauto. }
  apply StronglySorted_inv in Hl as [Hl Hx]. rewrite Forall_forall in Hx.
  assert (∀ y, y ∈ l → cmp_le cmp x y) as Hx' by done.
  rewrite (eq_refl : push_distinct cmp acc x =
    match last acc with
    | Some z => if bool_decide (cmp z x ≠ 0%Z) then acc ++ [x] else acc
    | None => acc ++ [x]
    end).
  destruct (last acc) as [z|] eqn:Hlast.
  - pose proof (Hle z x eq_refl ltac:(by left)) as Hzx. unfold cmp_le in Hzx.
    case_bool_decide as Hne.
    + destruct (IH (acc ++ [x])) as [IH1 IH2]; [|done| |].
      * apply below_snoc; [done|]. intros y [= <-]%(eq_trans (eq_sym Hlast)). unfold below. lia.
      * intros a b. rewrite last_snoc. intros [= <-]. auto.
      * split; [done|]. intros y. rewrite IH2, elem_of_app, list_elem_of_singleton, elem_of_cons. tauto.
    + assert (z = x) as -> by (apply cmp_zero; lia).
      destruct (IH acc Ha Hl) as [IH1 IH2]; [intros a b [= <-]%(eq_trans (eq_sym Hlast)); auto|].
      split; [done|]. intros y. rewrite IH2, elem_of_cons.
      apply last_Some in Hlast as [acc' ->]. rewrite elem_of_app, list_elem_of_singleton. tauto.
  - apply last_None in Hlast as ->. destruct (IH [x]) as [IH1 IH2]; [by repeat constructor|done| |].
    + intros a b [= <-]. auto.
    + split; [done|]. intros y. cbn. rewrite IH2, elem_of_cons, elem_of_nil, elem_of_cons. tauto.
Qed.

Definition normal_form (l : list A) : list A := fold_left (push_distinct cmp) (sort_by cmp l) [].

Lemma normal_form_below l : StronglySorted below (normal_form l).
Proof. apply distinct_spec; [constructor|apply sort_by_sorted|done]. Qed.

Lemma normal_form_in x l : x ∈ normal_form l ↔ x ∈ l.
Proof.
  unfold normal_form. destruct (distinct_spec (sort_by cmp l) []) as [_ ->];
    [constructor|apply sort_by_sorted|done|].
  rewrite sort_by_in, elem_of_nil. tauto.
Qed.

Lemma normal_form_same l1 l2 : (∀ x, x ∈ l1 ↔ x ∈ l2) → normal_form l1 = normal_form l2.
Proof.
  intros H. apply below_unique; [apply normal_form_below..|].
  intros x. by rewrite !normal_form_in.
Qed.

Lemma normal_form_id l : StronglySorted below l → normal_form l = l.
Proof. intros H. apply below_unique; [apply normal_form_below|done|intros x; by rewrite normal_form_in]. Qed.

End normal.

(** ** The set operations *)

(** A set as [make] leaves it: the denying set, or distinct groups in order, each
    of distinct patterns in order and none empty. *)
Definition well_formed (s : CapabilitySet) : Prop :=
  groups s = [[]] ∨
  StronglySorted (below compareGroup) (groups s) ∧
  ∀ g, g ∈ groups s → g ≠ [] ∧ StronglySorted (below comparePattern) g.

Lemma normalizeGroup_in p g : p ∈ normalizeGroup g ↔ p ∈ g.
Proof. apply (normal_form_in comparePattern). Qed.

Lemma normalizeGroup_nil g : normalizeGroup g = [] ↔ g = [].
Proof.
  split; [|by intros ->]. intros E. destruct g as [|p g]; [done|].
  assert (p ∈ normalizeGroup (p :: g)) as Hp by (apply normalizeGroup_in; by left).
  rewrite E in Hp. by apply not_elem_of_nil in Hp.
Qed.

Lemma normalizeGroup_id g : StronglySorted (below comparePattern) g → normalizeGroup g = g.
Proof. apply (normal_form_id comparePattern). Qed.

Lemma normalizeGroup_idemp g : normalizeGroup (normalizeGroup g) = normalizeGroup g.
Proof. apply normalizeGroup_id, (normal_form_below comparePattern). Qed.

Lemma normalized_empty (gs : list (list CapabilityPattern)) : [] ∈ normalizeGroup <$> gs ↔ [] ∈ gs.
Proof.
  rewrite list_elem_of_fmap. split.
  - intros (g & E & Hg). symmetry in E. by apply normalizeGroup_nil in E as ->.
  - intros H. by exists [].
Qed.

Lemma make_cases gs :
  make gs = (if bool_decide ([] ∈ gs) then mkSet [[]]
             else mkSet (normal_form compareGroup (normalizeGroup <$> gs))).
Proof.
  unfold make. cbn zeta.
  assert (existsb (λ g, bool_decide (length g = 0)) (sort_by compareGroup (normalizeGroup <$> gs)) = true
          ↔ [] ∈ gs) as H.
  { rewrite existsb_exists, <-normalized_empty, <-(sort_by_in compareGroup). split.
    - intros (g & Hin & Hg). apply bool_decide_eq_true, nil_length_inv in Hg as ->.
      by apply list_elem_of_In.
    - intros Hin. exists []. split; [by apply list_elem_of_In|done]. }
  case_bool_decide as Hin.
  - by rewrite (proj2 H Hin).
  - destruct (existsb _ _); [|done]. by destruct Hin; apply H.
Qed.

Lemma make_well_formed gs : well_formed (make gs).
Proof.
  rewrite make_cases. case_bool_decide as Hin; [by left|right]. cbn [groups].
  split; [apply (normal_form_below compareGroup)|].
  intros g. rewrite (normal_form_in compareGroup). intros Hg. split.
  - intros ->. by apply Hin, normalized_empty.
  - apply list_elem_of_fmap in Hg as (h & -> & _). apply (normal_form_below comparePattern).
Qed.

(** Equal sets of normalized groups make equal sets. *)
Lemma make_same gs hs :
  (∀ g, g ∈ normalizeGroup <$> gs ↔ g ∈ normalizeGroup <$> hs) → make gs = make hs.
Proof.
  intros H. rewrite !make_cases.
  assert ([] ∈ gs ↔ [] ∈ hs) as Hn by (rewrite <-(normalized_empty gs), <-(normalized_empty hs); apply H).
  rewrite (normal_form_same compareGroup _ _ H).
  do 2 case_bool_decide; tauto.
Qed.

Lemma make_elements gs hs : (∀ g, g ∈ gs ↔ g ∈ hs) → make gs = make hs.
Proof. intros H. apply make_same. intros g. rewrite !list_elem_of_fmap. naive_solver. Qed.

(** A set made of a made set and more groups is made of all of them. *)
Lemma make_app_make gs hs : make (groups (make gs) ++ hs) = make (gs ++ hs).
Proof.
  rewrite (make_cases gs). case_bool_decide as Hin; cbn [groups].
  - rewrite !make_cases, !bool_decide_eq_true_2; [done|by apply elem_of_app; left|by left].
  - apply make_same. intros g. rewrite !fmap_app, !elem_of_app.
    apply or_iff_compat_r. rewrite !list_elem_of_fmap. split.
    + intros (h & -> & Hh). apply (normal_form_in compareGroup), list_elem_of_fmap in Hh as (k & -> & Hk).
      exists k. by rewrite normalizeGroup_idemp.
    + intros (k & -> & Hk). exists (normalizeGroup k).
      rewrite normalizeGroup_idemp. split; [done|].
      apply (normal_form_in compareGroup), list_elem_of_fmap. eauto.
Qed.

Lemma make_make_app gs hs : make (gs ++ groups (make hs)) = make (gs ++ hs).
Proof.
  rewrite (make_elements (gs ++ groups (make hs)) (groups (make hs) ++ gs)),
    make_app_make by (intros g; rewrite !elem_of_app; tauto).
  apply make_elements. intros g. rewrite !elem_of_app. tauto.
Qed.

Lemma make_id s : well_formed s → make (groups s) = s.
Proof.
  destruct s as [gs]. unfold well_formed. cbn [groups]. intros [->|[Hgs Hall]]; [done|].
  rewrite make_cases. rewrite bool_decide_eq_false_2 by by intros []%Hall.
  f_equal. assert (normalizeGroup <$> gs = gs) as ->; [|by apply (normal_form_id compareGroup)].
  rewrite <-(list_fmap_id gs) at 2. apply list_fmap_ext. intros i g Hg%list_elem_of_lookup_2.
  by apply normalizeGroup_id, Hall.
Qed.

(** ** Authority *)

Definition group_allows (c : Capability) (g : list CapabilityPattern) : bool :=
  existsb (λ p, matches p c) g.

Lemma allows_spec s c : allows s c = true ↔ ∀ g, g ∈ groups s → group_allows c g = true.
Proof.
  unfold allows. rewrite forallb_forall. split; intros H g Hg; apply H; by apply list_elem_of_In.
Qed.

Lemma group_allows_normalized c g : group_allows c (normalizeGroup g) = group_allows c g.
Proof.
  apply eq_true_iff_eq. unfold group_allows. rewrite !existsb_exists.
  by setoid_rewrite <-list_elem_of_In; setoid_rewrite normalizeGroup_in.
Qed.

(** Normalizing changes no decision. *)
Lemma allows_make gs c : allows (make gs) c = forallb (group_allows c) gs.
Proof.
  apply eq_true_iff_eq. rewrite allows_spec, forallb_forall, make_cases.
  setoid_rewrite <-list_elem_of_In. case_bool_decide as Hin; cbn [groups].
  - split; intros H; [by specialize (H [] ltac:(by left))|by specialize (H [] Hin)].
  - setoid_rewrite (normal_form_in compareGroup). setoid_rewrite list_elem_of_fmap. split.
    + intros H g Hg. rewrite <-group_allows_normalized. eauto.
    + intros H g (h & -> & Hh). rewrite group_allows_normalized. eauto.
Qed.

Lemma allows_intersect a b c : allows (intersect a b) c = allows a c && allows b c.
Proof. unfold intersect. by rewrite allows_make, forallb_app. Qed.

Lemma allows_fromPatterns ps c : allows (fromPatterns ps) c = group_allows c ps.
Proof. unfold fromPatterns. rewrite allows_make. cbn. by rewrite andb_true_r. Qed.

(** Sets of the same authority. *)
#[export] Instance CapabilitySet_equiv : Equiv CapabilitySet := λ a b, ∀ c, allows a c = allows b c.

#[export] Instance CapabilitySet_equivalence : Equivalence (≡@{CapabilitySet}).
Proof. split; [by intros a c|by intros a b H c|intros a b d H1 H2 c; by rewrite H1]. Qed.

#[export] Instance allows_proper : Proper ((≡) ==> (=) ==> (=)) allows.
Proof. intros a b H c _ <-. apply H. Qed.

#[export] Instance intersect_proper : Proper ((≡) ==> (≡) ==> (≡)) intersect.
Proof. intros a a' Ha b b' Hb c. by rewrite !allows_intersect, Ha, Hb. Qed.

Lemma equals_spec a b : equals a b = true ↔ a = b.
Proof.
  destruct a as [gs], b as [hs]. unfold equals. cbn [groups].
  rewrite andb_true_iff, bool_decide_eq_true. split.
  - intros [Hl He]. f_equal. revert hs Hl He. induction gs as [|g gs IH]; intros [|h hs]; cbn; try done.
    intros [= Hl] [->%bool_decide_eq_true%cmp_zero He]%andb_true_iff. f_equal. by apply IH.
  - intros [= ->]. split; [done|]. induction hs as [|h hs IH]; [done|]. cbn.
    by rewrite bool_decide_eq_true_2 by by apply cmp_zero.
Qed.

(** ** Theorems *)

(** The effects an effect is nested in, outermost first. *)
Fixpoint attenuate_all {A} (chain : list (list CapabilityPattern)) (effect : CapabilitySet → A) :
    CapabilitySet → A :=
  match chain with
  | [] => effect
  | patterns :: chain' => attenuate patterns (attenuate_all chain' effect)
  end.

(** Authority only narrows: however deep an effect is nested in
    [attenuate]s, what it may do is what the root allowed and every group on the
    way allows; nothing it can be run under gives more. *)
Theorem authority_only_narrows chain parent c :
  allows (attenuate_all chain current parent) c =
  allows parent c && forallb (λ patterns, existsb (λ p, matches p c) patterns) chain.
Proof.
  revert parent. induction chain as [|ps chain IH]; intros parent; cbn; [by rewrite andb_true_r|].
  unfold attenuate. rewrite IH, allows_intersect, allows_fromPatterns. by rewrite <-andb_assoc.
Qed.

(** The normal form decides equality of authority syntax: on sets as the
    module makes them [intersect] is associative, commutative and idempotent up
    to structural equality, the unrestricted set is its unit and the denying set
    absorbs, and [equals] is that equality. *)
Theorem intersect_semilattice a b c :
  well_formed a → well_formed b → well_formed c →
  intersect a b = intersect b a ∧
  intersect a (intersect b c) = intersect (intersect a b) c ∧
  intersect a a = a ∧ intersect a unrestricted = a ∧ intersect a none = none ∧
  well_formed (intersect a b) ∧ (equals a b = true ↔ a = b).
Proof.
  intros Ha Hb Hc. unfold intersect, unrestricted, none. split_and!.
  - apply make_elements. intros g. rewrite !elem_of_app. tauto.
  - by rewrite make_make_app, make_app_make, (assoc_L (++)).
  - rewrite <-(make_id a Ha) at 3. apply make_elements. intros g. rewrite elem_of_app. tauto.
  - rewrite make_make_app, app_nil_r. by apply make_id.
  - rewrite make_make_app, !make_cases, !bool_decide_eq_true_2; [done|by left|].
    apply elem_of_app. right. by left.
  - apply make_well_formed.
  - apply equals_spec.
Qed.

Lemma intersect_semilattice_witness :
  let a := fromPatterns [mkPattern FsAny "src/**"; mkPattern (Exactly NetGet) "*"; mkPattern FsAny "src/**"] in
  let b := fromPatterns [mkPattern AnyAction "**"] in
  length (groups (intersect a b)) = 2 ∧ intersect a b = intersect b a.
Proof.
  split; [vm_compute; reflexivity|].
  refine (proj1 (intersect_semilattice _ _ none _ _ _)); apply make_well_formed.
Defined.
