(* ===== verification/Permission.v ===== *)
(** * Permission rules and failures ([capability/src/Permission.ts])

    A rule applies an effect to the capabilities of a pattern; [evaluate] decides
    a capability against ordered rulesets.  Last match wins, and a denial the
    first ruleset reduces to is a veto. *)

From S2P Require Import Prelude Json Capability.
#[local] Open Scope me_scope.

Record PermissionRequired := mkRequired
  { pr_requestId : string; pr_runId : option string; pr_capability : Capability;
    pr_tier : EffectTier; pr_meta : json }.

Record PermissionDenied := mkDenied { pd_capability : Capability; pd_reason : string }.

Inductive GrantStoreErrorCode : Type :=
  | duplicate_request | request_not_found | journal_failed | store_closed | invalid_resolution.

Record GrantStoreError := mkStoreError { ge_code : GrantStoreErrorCode; ge_message : option string }.

(** The union a guarded call can fail with. *)
Inductive PermissionError : Type :=
  | ERequired (e : PermissionRequired)
  | EDenied (e : PermissionDenied)
  | EStore (e : GrantStoreError).

Inductive RuleEffect : Type := Allow | Deny | Ask.

#[export] Instance RuleEffect_eq_dec : EqDecision RuleEffect.
Proof. solve_decision. Defined.

Record Rule := mkRule { effect : RuleEffect; pattern : CapabilityPattern }.

#[export] Instance Rule_eq_dec : EqDecision Rule.
Proof. solve_decision. Defined.

(** The loop over one ruleset: a later match replaces the effect. *)
Definition apply_rule (c : Capability) (current : RuleEffect) (rule : Rule) : RuleEffect :=
  if matches (pattern rule) c then effect rule else current.

Definition configured_effect (configured : list Rule) (c : Capability) : RuleEffect :=
  fold_left (apply_rule c) configured Ask.

Definition evaluate (rulesets : list (list Rule)) (c : Capability) : RuleEffect :=
  let configured := match rulesets with rs :: _ => rs | [] => [] end in
  if bool_decide (configured_effect configured c = Deny) then Deny
  else fold_left (λ eff ruleset, fold_left (apply_rule c) ruleset eff) rulesets Ask.

Definition code_text (code : GrantStoreErrorCode) : string :=
  match code with
  | duplicate_request => "duplicate_request" | request_not_found => "request_not_found"
  | journal_failed => "journal_failed" | store_closed => "store_closed"
  | invalid_resolution => "invalid_resolution"
  end.

Definition tier_text (tier : EffectTier) : string :=
  match tier with Sealed => "sealed" | Compensable => "compensable" | Irreversible => "irreversible" end.

(** The one-line rendering of a failure; an unset message is the empty string. *)
Definition formatError (e : PermissionError) : string :=
  match e with
  | ERequired r =>
      "permission_required: " +:+ format_capability (pr_capability r) +:+ " (tier " +:+
      tier_text (pr_tier r) +:+ ", request " +:+ pr_requestId r +:+ ")"
  | EDenied d => "permission_denied: " +:+ format_capability (pd_capability d) +:+ ": " +:+ pd_reason d
  | EStore g =>
      let message := default "" (ge_message g) in
      "grant store " +:+ code_text (ge_code g) +:+
      (if bool_decide (message = "") then "" else ": " +:+ message)
  end.

(** ** What [evaluate] decides *)

(** The last rule of the rulesets, in order, that selects the capability. *)
Lemma fold_apply_rule c rs eff :
  fold_left (apply_rule c) rs eff =
  default eff (effect <$> last (List.filter (λ r, matches (pattern r) c) rs)).
Proof.
  induction rs as [|r rs IH] using rev_ind; [done|].
  rewrite fold_left_app, List.filter_app. cbn. unfold apply_rule at 1.
  destruct (matches (pattern r) c) eqn:E; [by rewrite last_snoc|]. by rewrite app_nil_r.
Qed.

Lemma fold_rulesets c rss eff :
  fold_left (λ eff rs, fold_left (apply_rule c) rs eff) rss eff = fold_left (apply_rule c) (concat rss) eff.
Proof.
  revert eff. induction rss as [|rs rss IH]; intros eff; [done|]. cbn. by rewrite fold_left_app, IH.
Qed.

Lemma evaluate_veto configured rest c :
  configured_effect configured c = Deny → evaluate (configured :: rest) c = Deny.
Proof. unfold evaluate. intros ->. done. Qed.

Lemma evaluate_spec configured rest c :
  configured_effect configured c ≠ Deny →
  evaluate (configured :: rest) c = fold_left (apply_rule c) (configured ++ concat rest) Ask.
Proof.
  intros H. unfold evaluate. rewrite bool_decide_eq_false_2 by done. by rewrite fold_rulesets.
Qed.

(** A decision to allow has a rule that allows, in some ruleset. *)
Lemma evaluate_allow rss c : evaluate rss c = Allow →
  ∃ r, r ∈ concat rss ∧ effect r = Allow ∧ matches (pattern r) c = true.
Proof.
  unfold evaluate. case_bool_decide; [done|]. rewrite fold_rulesets, fold_apply_rule.
  destruct (last _) as [r|] eqn:E; cbn; [|done]. intros Ha.
  apply last_Some_elem_of, elem_of_filter_b in E as [Hin Hm]. eauto.
Qed.
