(* ===== verification/GrantStore.v ===== *)
(** * The grant store ([kernel/src/GrantStore.ts], [GrantEvent.ts])

    Decides capabilities against rules, parks the fibers that must ask, and takes
    the replies of an attended surface.  Every operation runs inside one permit of
    the [mutation] semaphore, so it is one step on the [Store]; what a fiber does
    between two permits (waiting on its [Deferred], being interrupted) is the
    [System]'s business below.  [persist] is the hook the caller supplies, over
    whatever state its backend keeps; [log] records the events it took. *)

From S2P Require Import Prelude Json Capability CapabilitySet Permission.
#[local] Open Scope me_scope.

(** ** Grant events *)

Inductive GrantEvent : Type :=
  | OnceGrant (requestId runId : string) (planDigest : option string)
      (c : Capability) (p : CapabilityPattern) (tier : EffectTier)
  | RunGrant (requestId runId planDigest : string)
      (c : Capability) (p : CapabilityPattern) (tier : EffectTier)
  | RememberedGrant (requestId runId : string) (planDigest : option string)
      (c : Capability) (p : CapabilityPattern) (tier : EffectTier)
  | DeniedGrant (requestId runId : string) (planDigest : option string)
      (c : Capability) (p : CapabilityPattern) (tier : EffectTier)
  | EnvelopeGrant (runId planDigest : string) (patterns : list CapabilityPattern) (scope : string).

(** ** Configuration *)

Record EnvelopeGrantOptions := mkEnvelope
  { eo_planDigest : string; eo_patterns : list CapabilityPattern; eo_scope : option string }.

(** [rules]: one ruleset, or the configured one followed by remembered ones. *)
Inductive RulesOption : Type :=
  | FlatRules (rules : list Rule)
  | NestedRules (rulesets : list (list Rule)).

Record MakeOptions := mkOptions
  { o_attended : option bool; o_rules : option RulesOption; o_runRules : list Rule;
    o_envelope : option EnvelopeGrantOptions; o_envelopeSignatures : list string;
    o_runId : option string; o_planDigest : option string }.

(** ** Pure parts *)

Definition exactPattern (c : Capability) : CapabilityPattern :=
  mkPattern (Exactly (action c)) (resource c).

(** [s.includes(unit)] for one unit. *)
Fixpoint includes (u : ascii) (s : string) : bool :=
  match s with EmptyString => false | String x s' => bool_decide (x = u) || includes u s' end.

Definition hasResourceWildcard (rsrc : string) : bool := includes "*" rsrc || includes "?" rsrc.

Definition isResolution (value : string) : bool :=
  bool_decide (value = "once") || bool_decide (value = "run") ||
  bool_decide (value = "remembered") || bool_decide (value = "deny").

Definition isEnvelopeScope (value : string) : bool :=
  bool_decide (value = "run") || bool_decide (value = "remembered").

(** The [Map] from identities to the first pattern of each, in insertion order. *)
Definition byIdentity (patterns : list CapabilityPattern) : list (string * CapabilityPattern) :=
  fold_left (λ m p, match assoc (format_pattern p) m with
                    | Some _ => m
                    | None => m ++ [(format_pattern p, p)]
                    end) patterns [].

Definition canonicalEnvelopePatterns (patterns : list CapabilityPattern) : list CapabilityPattern :=
  let m := byIdentity patterns in
  omap (λ identity, assoc identity m) (sort_by compare_texts (fst <$> m)).

Section signature.
Context `{JsonText}.

Definition envelopeSignature (planDigest scope : string) (patterns : list CapabilityPattern) : string :=
  stringify (JObj [("planDigest", JStr planDigest); ("scope", JStr scope);
                   ("patterns", JArr (JStr <$> (format_pattern <$> canonicalEnvelopePatterns patterns)))]).
End signature.

(** [root.replace(/[\\/]+$/, "")]. *)
Fixpoint strip_slashes (s : string) : string :=
  match s with
  | EmptyString => ""
  | String x s' =>
      let t := strip_slashes s' in
      if bool_decide (t = "") && (bool_decide (x = "/"%char) || bool_decide (x = "\"%char)) then ""
      else String x t
  end.

Definition workspacePattern (workspaceRoot : string) : CapabilityPattern :=
  mkPattern (Exactly FsWrite) (strip_slashes workspaceRoot +:+ "/**").

Definition isValidGrantPattern (p : CapabilityPattern) (c : Capability) (tier : EffectTier)
    (workspaceRoot : string) : bool :=
  if negb (bool_decide (pattern_text (p_action p) = action_text (action c))) || negb (matches p c) then false
  else if negb (bool_decide (tierOf c workspaceRoot = tier)) then false
  else if negb (bool_decide (action c = FsWrite)) then true
  else if bool_decide (tier = Irreversible) then negb (hasResourceWildcard (p_resource p))
  else bool_decide (p_resource p = workspaceRoot) || subsumes (workspacePattern workspaceRoot) p.

Definition isValidEnvelopePattern (p : CapabilityPattern) (workspaceRoot : string) : bool :=
  if includes "*" (pattern_text (p_action p)) then false
  else if negb (bool_decide (p_action p = Exactly FsWrite)) || negb (hasResourceWildcard (p_resource p))
  then true
  else subsumes (workspacePattern workspaceRoot) p.

Definition normalizeRules (rules : option RulesOption) : list Rule * list Rule :=
  match rules with
  | None => ([], [])
  | Some (NestedRules []) | Some (FlatRules []) => ([], [])
  | Some (NestedRules (configured :: rest)) => (configured, concat rest)
  | Some (FlatRules rs) => (rs, [])
  end.

(** ** The store *)

(** What a [Deferred] holds once completed. *)
Inductive Completion : Type := Succeeded | Failed (d : PermissionDenied).

Record PendingEntry := mkPending
  { e_requestId : string; e_capability : Capability; e_tier : EffectTier; e_meta : json;
    e_ceiling : CapabilitySet; e_deferred : nat }.

(** The state of whatever [options.persist] writes to. *)
Class Backend : Type := { medium : Type }.

Section backend.
Context {K : Backend}.

(** [options.persist]: fails or not, and leaves the backend as it left it. *)
Definition Hook : Type := GrantEvent → medium → option GrantStoreError * medium.

Record Store := mkStore
  { configuredRules : list Rule;
    envelopeRules : list Rule;
    runRules : list (Rule * CapabilitySet);
    rememberedRules : list Rule;
    pending : list (string * PendingEntry);
    grantedEnvelopes : list string;
    nextRequestId : N;
    closed : bool;
    deferreds : list (option Completion);
    log : list GrantEvent;
    backend : medium }.

Definition rulesets (s : Store) (c : Capability) : list (list Rule) :=
  [ configuredRules s;
    envelopeRules s;
    fst <$> List.filter (λ rc, allows (snd rc) c) (runRules s);
    rememberedRules s ].

(** *** State updates *)

Definition with_rules (f g : list Rule) (h : list (Rule * CapabilitySet)) (s : Store) : Store :=
  mkStore (configuredRules s) f h g (pending s) (grantedEnvelopes s) (nextRequestId s) (closed s)
    (deferreds s) (log s) (backend s).
Definition with_pending (p : list (string * PendingEntry)) (s : Store) : Store :=
  mkStore (configuredRules s) (envelopeRules s) (runRules s) (rememberedRules s) p (grantedEnvelopes s)
    (nextRequestId s) (closed s) (deferreds s) (log s) (backend s).
Definition with_deferreds (d : list (option Completion)) (s : Store) : Store :=
  mkStore (configuredRules s) (envelopeRules s) (runRules s) (rememberedRules s) (pending s)
    (grantedEnvelopes s) (nextRequestId s) (closed s) d (log s) (backend s).
Definition with_envelopes (g : list string) (s : Store) : Store :=
  mkStore (configuredRules s) (envelopeRules s) (runRules s) (rememberedRules s) (pending s) g
    (nextRequestId s) (closed s) (deferreds s) (log s) (backend s).
Definition with_next (n : N) (s : Store) : Store :=
  mkStore (configuredRules s) (envelopeRules s) (runRules s) (rememberedRules s) (pending s)
    (grantedEnvelopes s) n (closed s) (deferreds s) (log s) (backend s).
Definition with_closed (b : bool) (s : Store) : Store :=
  mkStore (configuredRules s) (envelopeRules s) (runRules s) (rememberedRules s) (pending s)
    (grantedEnvelopes s) (nextRequestId s) b (deferreds s) (log s) (backend s).
Definition with_log (l : list GrantEvent) (s : Store) : Store :=
  mkStore (configuredRules s) (envelopeRules s) (runRules s) (rememberedRules s) (pending s)
    (grantedEnvelopes s) (nextRequestId s) (closed s) (deferreds s) l (backend s).
Definition with_backend (m : medium) (s : Store) : Store :=
  mkStore (configuredRules s) (envelopeRules s) (runRules s) (rememberedRules s) (pending s)
    (grantedEnvelopes s) (nextRequestId s) (closed s) (deferreds s) (log s) m.

Definition SM (A : Type) : Type := ME Store PermissionError A.

Definition store_error (code : GrantStoreErrorCode) (message : option string) : PermissionError :=
  EStore (mkStoreError code message).

(** [pending.set] and [pending.delete]. *)
Fixpoint map_set {A} (key : string) (v : A) (m : list (string * A)) : list (string * A) :=
  match m with
  | [] => [(key, v)]
  | (k, w) :: rest => if bool_decide (k = key) then (k, v) :: rest else (k, w) :: map_set key v rest
  end.
Definition map_delete {A} (key : string) (m : list (string * A)) : list (string * A) :=
  List.filter (λ kv, negb (bool_decide (kv.1 = key))) m.

(** [Deferred.succeed] and [Deferred.fail]: the first completion stays. *)
Definition complete (d : nat) (r : Completion) : SM () :=
  modify (λ s, match deferreds s !! d with
               | Some None => with_deferreds (<[d := Some r]> (deferreds s)) s
               | _ => s
               end).
Definition delete_pending (requestId : string) : SM () :=
  modify (λ s, with_pending (map_delete requestId (pending s)) s).

Section store.
Context `{JsonText} (options : MakeOptions) (workspaceRoot : string).

(** [options.persist(event)]: fails, or records the event. *)
Definition persist (hook : Hook) (event : GrantEvent) : SM () :=
  s <- gets id ;;
  let '(failure, m) := hook event (backend s) in
  modify (with_backend m) ;;
  match failure with
  | Some e => fail (EStore e)
  | None => modify (λ s, with_log (log s ++ [event]) s)
  end.

Definition nextId : SM string :=
  n <- gets nextRequestId ;;
  modify (with_next (n + 1)) ;;
  ret ("permission-" +:+ pretty n).

Definition allocateRequest (c : Capability) (tier : EffectTier) (meta : json) (ceiling : CapabilitySet) :
    SM PendingEntry :=
  requestId <- nextId ;;
  d <- gets (λ s, length (deferreds s)) ;;
  modify (λ s, with_deferreds (deferreds s ++ [None]) s) ;;
  let entry := mkPending requestId c tier meta ceiling d in
  modify (λ s, with_pending (map_set requestId entry (pending s)) s) ;;
  ret entry.

(** The critical section of [check]: [None] when allowed, else the entry to
    wait on. *)
Definition check (ceiling : CapabilitySet) (c : Capability) (meta : json) : SM (option PendingEntry) :=
  s <- gets id ;;
  if closed s then fail (store_error store_closed None)
  else if negb (allows ceiling c) then fail (EDenied (mkDenied c "outside capability ceiling"))
  else
    match evaluate (rulesets s c) c with
    | Allow => ret None
    | Deny => fail (EDenied (mkDenied c "denied by permission policy"))
    | Ask =>
        let tier := tierOf c workspaceRoot in
        if default true (o_attended options) then
          entry <- allocateRequest c tier meta ceiling ;;
          ret (Some entry)
        else
          requestId <- nextId ;;
          fail (ERequired (mkRequired requestId (o_runId options) c tier meta))
    end.

(** [resolveCovered]: one pending entry after the other. *)
Definition resolve_entry (kv : string * PendingEntry) : SM () :=
  let '(requestId, entry) := kv in
  s <- gets id ;;
  if negb (allows (e_ceiling entry) (e_capability entry)) ||
     negb (bool_decide (evaluate (rulesets s (e_capability entry)) (e_capability entry) = Allow))
  then ret tt
  else complete (e_deferred entry) Succeeded ;; delete_pending requestId.

Definition resolveCovered : SM () :=
  entries <- gets pending ;;
  for_each resolve_entry entries ;;
  ret tt.

(** The pattern a reply applies. *)
Definition reply_pattern (resolution : string) (suppliedPattern : option CapabilityPattern)
    (entry : PendingEntry) : CapabilityPattern :=
  if bool_decide (resolution = "run") || bool_decide (resolution = "remembered")
  then default (exactPattern (e_capability entry)) suppliedPattern
  else exactPattern (e_capability entry).

Definition push_run_rule (rule : Rule) (ceiling : CapabilitySet) : SM () :=
  modify (λ s, with_rules (envelopeRules s) (rememberedRules s) (runRules s ++ [(rule, ceiling)]) s).
Definition push_remembered (rules : list Rule) : SM () :=
  modify (λ s, with_rules (envelopeRules s) (rememberedRules s ++ rules) (runRules s) s).
Definition push_envelope (rules : list Rule) : SM () :=
  modify (λ s, with_rules (envelopeRules s ++ rules) (rememberedRules s) (runRules s) s).

Definition reply_once (hook : Hook) (requestId : string) (entry : PendingEntry)
    (p : CapabilityPattern) : SM () :=
  persist hook (OnceGrant requestId (default "" (o_runId options)) (o_planDigest options)
                  (e_capability entry) p (e_tier entry)) ;;
  complete (e_deferred entry) Succeeded ;;
  delete_pending requestId.

Definition reply_run (hook : Hook) (requestId : string) (entry : PendingEntry)
    (p : CapabilityPattern) : SM () :=
  match o_planDigest options with
  | None | Some "" => fail (store_error invalid_resolution (Some "run grants require a plan digest"))
  | Some planDigest =>
      if negb (isValidGrantPattern p (e_capability entry) (e_tier entry) workspaceRoot)
      then fail (store_error invalid_resolution None)
      else
        persist hook (RunGrant requestId (default "" (o_runId options)) planDigest
                        (e_capability entry) p (e_tier entry)) ;;
        push_run_rule (mkRule Allow p) (e_ceiling entry) ;;
        resolveCovered
  end.

Definition reply_remembered (hook : Hook) (requestId : string) (entry : PendingEntry)
    (p : CapabilityPattern) : SM () :=
  if negb (isValidGrantPattern p (e_capability entry) (e_tier entry) workspaceRoot)
  then fail (store_error invalid_resolution None)
  else
    persist hook (RememberedGrant requestId (default "" (o_runId options))
                    (o_planDigest options) (e_capability entry) p (e_tier entry)) ;;
    push_remembered [mkRule Allow p] ;;
    resolveCovered.

Definition reply_deny (hook : Hook) (requestId : string) (entry : PendingEntry)
    (p : CapabilityPattern) : SM () :=
  persist hook (DeniedGrant requestId (default "" (o_runId options)) (o_planDigest options)
                  (e_capability entry) p (e_tier entry)) ;;
  complete (e_deferred entry) (Failed (mkDenied (e_capability entry) "permission request denied")) ;;
  delete_pending requestId.

Definition reply (hook : Hook) (requestId resolution : string)
    (suppliedPattern : option CapabilityPattern) : SM () :=
  s <- gets id ;;
  if closed s then fail (store_error store_closed None)
  else if negb (isResolution resolution) then
    fail (store_error invalid_resolution (Some "unknown grant resolution"))
  else
    match assoc requestId (pending s) with
    | None => fail (store_error request_not_found None)
    | Some entry =>
        let p := reply_pattern resolution suppliedPattern entry in
        if bool_decide (resolution = "once") then reply_once hook requestId entry p
        else if bool_decide (resolution = "run") then reply_run hook requestId entry p
        else if bool_decide (resolution = "remembered") then reply_remembered hook requestId entry p
        else reply_deny hook requestId entry p
    end.

Definition listPending : SM (list (string * Capability * EffectTier * json)) :=
  gets (λ s, (λ kv, (e_requestId kv.2, e_capability kv.2, e_tier kv.2, e_meta kv.2)) <$> pending s).

(** The patterns of an envelope become rules of its scope. *)
Definition activate_envelope (scope : string) (patterns : list CapabilityPattern) : SM () :=
  let rules := (λ p, mkRule Allow p) <$> patterns in
  if bool_decide (scope = "remembered") then push_remembered rules else push_envelope rules.

(** The envelope's digest, scope and patterns fit this store. *)
Definition envelope_fits (scope planDigest : string) (patterns : list CapabilityPattern) : bool :=
  isEnvelopeScope scope && bool_decide (o_planDigest options = Some planDigest) &&
  nonempty planDigest && forallb (λ p, isValidEnvelopePattern p workspaceRoot) patterns.

Definition grantEnvelope (hook : Hook) (o : EnvelopeGrantOptions) : SM () :=
  s <- gets id ;;
  let scope := default "run" (eo_scope o) in
  if closed s then fail (store_error store_closed None)
  else if negb (envelope_fits scope (eo_planDigest o) (eo_patterns o)) then
    fail (store_error invalid_resolution None)
  else if bool_decide (eo_patterns o = []) then ret tt
  else
    let canonical := canonicalEnvelopePatterns (eo_patterns o) in
    let signature := envelopeSignature (eo_planDigest o) scope canonical in
    if bool_decide (signature ∈ grantedEnvelopes s) then ret tt
    else
      persist hook (EnvelopeGrant (default "" (o_runId options)) (eo_planDigest o) canonical scope) ;;
      modify (λ s, with_envelopes (grantedEnvelopes s ++ [signature]) s) ;;
      activate_envelope scope canonical ;;
      resolveCovered.

(** The finalizer of the scope. *)
Definition close : SM () :=
  modify (with_closed true) ;;
  entries <- gets pending ;;
  modify (with_pending []) ;;
  for_each (λ kv : string * PendingEntry,
    complete (e_deferred kv.2) (Failed (mkDenied (e_capability kv.2) "grant store closed"))) entries ;;
  ret tt.

(** The rules the options give, before the envelope of the construction. *)
Definition initial_store (initialCeiling : CapabilitySet) (m : medium) : Store :=
  let '(configured, remembered) := normalizeRules (o_rules options) in
  mkStore configured [] ((λ r, (r, initialCeiling)) <$> o_runRules options) remembered
    [] (o_envelopeSignatures options) 1 false [] [] m.

Definition allows_unsafe (rules : list Rule) : bool :=
  existsb (λ r, bool_decide (effect r = Allow) && negb (isValidEnvelopePattern (pattern r) workspaceRoot)) rules.

(** The construction's envelope: granted like [grantEnvelope], but its rules are
    active even when the event is durable already. *)
Definition construct_envelope (hook : Hook) : SM () :=
  match o_envelope options with
  | Some o =>
      if bool_decide (eo_patterns o = []) then ret tt
      else
        let scope := default "run" (eo_scope o) in
        if negb (envelope_fits scope (eo_planDigest o) (eo_patterns o)) then
          fail (store_error invalid_resolution None)
        else
          let patterns := canonicalEnvelopePatterns (eo_patterns o) in
          let signature := envelopeSignature (eo_planDigest o) scope patterns in
          s <- gets id ;;
          (if bool_decide (signature ∈ grantedEnvelopes s) then ret tt
           else
             persist hook (EnvelopeGrant (default "" (o_runId options)) (eo_planDigest o) patterns scope) ;;
             modify (λ s, with_envelopes (grantedEnvelopes s ++ [signature]) s)) ;;
          activate_envelope scope patterns
  | None => ret tt
  end.

Definition make (hook : Hook) (initialCeiling : CapabilitySet) : ME medium PermissionError Store := λ m,
  let s := initial_store initialCeiling m in
  if allows_unsafe (rememberedRules s) || allows_unsafe (fst <$> runRules s)
  then (inl (store_error invalid_resolution None), m)
  else match construct_envelope hook s with
       | (inr _, s') => (inr s', backend s')
       | (inl e, s') => (inl e, backend s')
       end.

End store.
End backend.

(** A backend that keeps nothing. *)
Definition no_backend : Backend := {| medium := () |}.
