(* ===== verification/GrantPatterns.v ===== *)
(** * What a valid grant pattern covers

    [isValidGrantPattern] admits a pattern the user chose for a request that was
    shown with its effect tier.  On resources without [..] segments, as the file
    system service names them, the pattern covers no capability of another tier;
    on resources with one it may ([grant_covers_traversal]). *)

From S2P Require Import Prelude Json Capability Texts Glob CapabilityProps Paths CapabilitySet GrantStore.
#[local] Open Scope me_scope.

(** ** Globs without wildcards *)

(** Two texts of the same units, letter case aside when [fold]. *)
Definition alike (fold : bool) (a b : string) : Prop :=
  Forall2 (λ x y, unitsEqual x y fold = true) (units a) (units b).

Lemma includes_spec u s : includes u s = true ↔ has_unit u s.
Proof.
  induction s as [|x s IH]; cbn.
  - split; [done|by intros ?%not_elem_of_nil].
  - rewrite orb_true_iff, bool_decide_eq_true, IH, has_unit_cons. naive_solver.
Qed.

Lemma no_wildcard s : hasResourceWildcard s = false ↔ ¬ has_unit "*" s ∧ ¬ has_unit "?" s.
Proof.
  unfold hasResourceWildcard. rewrite orb_false_iff, <-!includes_spec, !not_true_iff_false. done.
Qed.

Lemma normalize_unit u s : u ≠ "/"%char → u ≠ "\"%char → has_unit u (normalizeSlashes s) ↔ has_unit u s.
Proof.
  intros H1 H2. unfold has_unit, normalizeSlashes. rewrite units_map, list_elem_of_fmap. split.
  - intros (x & -> & Hx). by case_bool_decide.
  - intros Hu. exists u. by rewrite bool_decide_eq_false_2.
Qed.

Lemma no_wildcard_normal s : hasResourceWildcard s = false → hasResourceWildcard (normalizeSlashes s) = false.
Proof. rewrite !no_wildcard, !normalize_unit by done. done. Qed.

Lemma glob_no_wildcard fold p r :
  "*"%char ∉ p → "?"%char ∉ p → glob fold p r → Forall2 (λ x y, unitsEqual x y fold = true) p r.
Proof.
  intros Hs Hq Hg. induction Hg as [|p r1 r2 _ IH|c p x r _ Ha _ IH]; [done| |].
  - destruct Hs. by left.
  - rewrite not_elem_of_cons in Hs, Hq. constructor; [|naive_solver].
    unfold accepts in Ha. rewrite bool_decide_eq_false_2 in Ha by naive_solver. done.
Qed.

(** The lower case of a unit is a function of its canonical case. *)
Definition lower_canonical (n : N) : ascii :=
  if (n =? 924)%N then ascii_of_N 181
  else if (n =? 376)%N then ascii_of_N 255
  else lower_unit (ascii_of_N n).

Lemma lower_of_canonical x : lower_unit x = lower_canonical (canonicalUnit x).
Proof. by destruct x as [[] [] [] [] [] [] [] []]; vm_compute. Qed.

Lemma unitsEqual_lower x y fold : unitsEqual x y fold = true → lower_unit x = lower_unit y.
Proof.
  unfold unitsEqual. intros [E%bool_decide_eq_true|[_ E%N.eqb_eq]%andb_true_iff]%orb_true_iff; [by subst|].
  by rewrite !lower_of_canonical, E.
Qed.

Lemma alike_lower fold a b : alike fold a b → toLowerCase a = toLowerCase b.
Proof.
  intros Hab. apply units_inj. unfold toLowerCase. rewrite !units_map. unfold alike in Hab.
  induction Hab as [|x y a' b' E _ IH]; [done|]. cbn. rewrite IH. f_equal. by eapply unitsEqual_lower.
Qed.

Lemma alike_equal a b : alike false a b → a = b.
Proof.
  intros Hab. apply units_inj. unfold alike in Hab.
  induction Hab as [|x y a' b' E _ IH]; [done|]. rewrite IH. f_equal.
  unfold unitsEqual in E. rewrite orb_false_r in E. by apply bool_decide_eq_true in E.
Qed.

Lemma drive_lower s : is_drive (toLowerCase s) = is_drive s.
Proof.
  destruct path_units_lower as [Hs _ Hle Hc].
  destruct s as [|a [|b [|c s]]]; [done..|]. cbn. rewrite Hle.
  by rewrite (bool_decide_ext _ _ (Hc b)), (bool_decide_ext _ _ (Hs c)).
Qed.

(** ** Segments without [..] *)

Definition segments (path : string) : list string := split_on "/" (normalizeSlashes path).

Definition no_dotdot (path : string) : Prop := ".." ∉ segments path.

Definition kept (l : list string) : list string :=
  List.filter (λ s, negb (bool_decide (s = "") || bool_decide (s = "."))) l.

Lemma walk_kept l acc : ".." ∉ l → fold_left (push_segment true) l acc = acc ++ kept l.
Proof.
  revert acc. induction l as [|s l IH]; intros acc Hl; cbn; [by rewrite app_nil_r|].
  apply not_elem_of_cons in Hl as [Hs Hl]. rewrite IH by done. unfold push_segment.
  destruct (bool_decide (s = "") || bool_decide (s = ".")); [done|].
  rewrite bool_decide_eq_false_2 by done. cbn. by rewrite <-(assoc_L (++)).
Qed.

(** The first segment of an absolute path names its volume. *)
Lemma absolute_segments path : absolute path →
  ∃ v0 l, segments path = v0 :: l ∧ l ≠ [] ∧ volume path = v0 +:+ "/" ∧
          directories path = fold_left (push_segment true) l [].
Proof.
  intros Ha. pose proof (absolute_read path Ha) as [Hv E].
  rewrite directories_walk by done. set (rest := slice_from _ _) in *.
  assert (∃ v0, volume path = v0 +:+ "/" ∧ ¬ has_unit "/" v0) as (v0 & Ev & Hv0).
  { destruct Hv as [-> |(l & Hl & ->)]; [by exists ""; split; [|apply not_elem_of_nil]|].
    exists (String l ":"). split; [done|]. rewrite !has_unit_cons.
    intros [<-|[|?%not_elem_of_nil]]; [by rewrite slash_not_letter in Hl|done|done]. }
  exists v0, (split_on "/" rest). split_and!; [| |done|done].
  2: by destruct (split_on_cons "/" rest) as (seg & l & ->).
  unfold segments. rewrite E, Ev, string_app_assoc. by apply (split_on_app "/" v0 rest).
Qed.

(** A path whose first segment names a volume is absolute. *)
Lemma segments_absolute path v0 s l :
  segments path = v0 :: s :: l → is_volume (v0 +:+ "/") → absolute path.
Proof.
  intros E Hv. unfold absolute. rewrite <-(join_split "/" (normalizeSlashes path)).
  change (split_on "/" (normalizeSlashes path)) with (segments path).
  rewrite E, join_cons by done.
  change (String "/" ?t) with ("/" +:+ t). rewrite <-string_app_assoc. by apply volume_read.
Qed.

Section folded.
Context (g : ascii → ascii) (Hg : path_units g).

Lemma map_split s : split_on "/" (map_units g s) = map_units g <$> split_on "/" s.
Proof.
  rewrite <-(join_split "/" s) at 1. rewrite map_units_join by by apply (keeps_slash _ Hg).
  apply split_join.
  - by destruct (split_on_cons "/" s) as (seg & rest & ->).
  - apply Forall_fmap. eapply Forall_impl; [apply split_on_free|]. cbn.
    intros t Ht. unfold has_unit. rewrite units_map. intros (x & Ex & Hx)%list_elem_of_fmap.
    symmetry in Ex. apply (proj1 (keeps_slash _ Hg _)) in Ex. by subst.
Qed.

Lemma map_dots s d : d = "" ∨ d = "." ∨ d = ".." → map_units g s = d ↔ s = d.
Proof.
  assert (g "."%char = "."%char) as Hd by by apply (keeps_dot _ Hg).
  intros [->|[->| ->]]; (split; [|intros ->; cbn; by rewrite ?Hd]); intros E;
    destruct s as [|a [|b [|c s]]]; cbn in E; try discriminate; try done;
    injection E; intros; f_equal; try f_equal; by apply (proj1 (keeps_dot _ Hg _)).
Qed.

Lemma kept_cons s l :
  kept (s :: l) = if bool_decide (s = "") || bool_decide (s = ".") then kept l else s :: kept l.
Proof. unfold kept. cbn. by destruct (_ || _). Qed.

Lemma map_kept l : map_units g <$> kept l = kept (map_units g <$> l).
Proof.
  induction l as [|s l IH]; [done|]. rewrite fmap_cons, !kept_cons.
  rewrite (bool_decide_ext (map_units g s = "") (s = "")) by (apply map_dots; auto).
  rewrite (bool_decide_ext (map_units g s = ".") (s = ".")) by (apply map_dots; auto).
  destruct (_ || _); [done|]. by rewrite fmap_cons, IH.
Qed.

Lemma map_dotdot (l : list string) : ".." ∈ map_units g <$> l ↔ ".." ∈ l.
Proof.
  rewrite list_elem_of_fmap. split.
  - intros (s & E & Hs). symmetry in E. apply (map_dots s "..") in E; [by subst|auto].
  - intros Hl. exists "..". split; [symmetry; apply (map_dots ".." ".."); auto|done].
Qed.

Lemma map_volume v0 : is_volume (map_units g v0 +:+ "/") → is_volume (v0 +:+ "/").
Proof.
  intros [E|(l & Hl & E)]; apply (f_equal units) in E as Eu; rewrite units_app, units_map in Eu.
  - left. apply units_inj. rewrite units_app.
    change (units "/") with ([] ++ ["/"%char]) in Eu. apply app_inj_tail in Eu as [Eu _].
    apply fmap_nil_inv in Eu as ->. done.
  - right. change (units (String l ":/")) with ([l; ":"%char] ++ ["/"%char]) in Eu.
    apply app_inj_tail in Eu as [Eu _].
    destruct (units v0) as [|a [|b [|c v]]] eqn:Ev; try discriminate. cbn in Eu.
    injection Eu as Ea Eb. apply (proj1 (keeps_colon _ Hg _)) in Eb.
    exists a. rewrite <-(keeps_letter _ Hg), Ea. split; [done|].
    apply units_inj. by rewrite units_app, Ev, Eb.
Qed.

End folded.

(** ** Containment by segments *)

(** The map [comparable] applies to units. *)
Definition folding (v : string) : ascii → ascii := if is_drive v then lower_unit else id.

Lemma folding_units v : path_units (folding v).
Proof. unfold folding. destruct (is_drive v); [apply path_units_lower|apply path_units_id]. Qed.

Lemma comparable_map v s : comparable v s = map_units (folding v) s.
Proof. unfold comparable, folding. by destruct (is_drive v). Qed.

Lemma comparable_all v (l : list string) : comparable v <$> l = map_units (folding v) <$> l.
Proof. apply list_fmap_ext. intros i s _. apply comparable_map. Qed.

Lemma destination_absolute root path : absolute path → destination root path = (volume path, directories path).
Proof. intros Ha%isAbsolutePath_absolute. unfold destination. by rewrite Ha. Qed.

(** A path whose segments extend the root's, up to trailing blanks of the root,
    is inside. *)
Lemma extends_inside root path l blanks rest :
  absolute root → no_dotdot path →
  map_units (folding (volume root)) <$> segments root = l ++ blanks → Forall (λ s, s = "") blanks →
  map_units (folding (volume root)) <$> segments path = l ++ rest → 2 ≤ length (l ++ rest) → l ≠ [] →
  absolute path ∧ isInsideWorkspace path root = true.
Proof.
  intros Hroot Hp Er Hb Ep Hlen Hl. set (g := folding (volume root)) in *.
  pose proof (folding_units (volume root)) as Hg. fold g in Hg.
  destruct (absolute_segments root Hroot) as (v0 & dr & Esr & _ & Ev & Edr).
  destruct l as [|a l]; [done|]. rewrite Esr, fmap_cons in Er. injection Er as Ea Er.
  destruct (segments path) as [|p0 [|p1 dp]] eqn:Esp;
    [done|apply (f_equal length) in Ep; cbn in *; lia|].
  assert (map_units g p0 = a ∧ map_units g <$> (p1 :: dp) = l ++ rest) as [Ea' Ep'] by by injection Ep.
  clear Ep. rename Ep' into Ep.
  pose proof (proj1 (absolute_read _ Hroot)) as Hvol. rewrite Ev in Hvol.
  assert (map_units g "/" = "/") as Hslash.
  { cbn. by rewrite (proj2 (keeps_slash _ Hg _) eq_refl). }
  assert (is_volume (p0 +:+ "/")) as Hp0.
  { apply (map_volume g Hg). rewrite Ea', <-Ea, <-Hslash, <-map_units_app. by apply volume_map. }
  assert (absolute path) as Hpath by by eapply segments_absolute.
  split; [done|]. apply isInsideWorkspace_spec; [done|].
  rewrite destination_absolute by done. cbn [fst snd].
  destruct (absolute_segments path Hpath) as (v1 & dp' & Esp' & _ & Ev1 & Edp).
  rewrite Esp in Esp'. injection Esp' as <- <-.
  rewrite !comparable_map, !comparable_all. fold g.
  split.
  - rewrite Ev, Ev1, !map_units_app. congruence.
  - assert (".." ∉ p1 :: dp) as Hpd.
    { unfold no_dotdot in Hp. rewrite Esp in Hp. by apply not_elem_of_cons in Hp as [_ ?]. }
    assert (".." ∉ dr) as Hrd.
    { rewrite <-(map_dotdot g Hg), Er. rewrite <-(map_dotdot g Hg), Ep in Hpd.
      rewrite elem_of_app in Hpd |- *. intros [|Hin]; [tauto|].
      rewrite Forall_forall in Hb. by apply Hb in Hin. }
    rewrite Edr, Edp, (walk_kept dr []), (walk_kept (p1 :: dp) []) by done. cbn [app].
    rewrite !(map_kept g Hg), Er, Ep.
    assert (∀ l1 l2, kept (l1 ++ l2) = kept l1 ++ kept l2) as Happ by (intros; apply List.filter_app).
    rewrite !Happ. assert (kept blanks = []) as ->; [|rewrite app_nil_r; by eexists].
    clear -Hb. induction Hb as [|s blanks -> _ IH]; [done|]. by rewrite kept_cons.
Qed.

(** ** The workspace pattern *)

Lemma strip_normal root : ∃ k,
  units (normalizeSlashes root) = units (normalizeSlashes (strip_slashes root)) ++ replicate k "/"%char.
Proof.
  induction root as [|x s (k & IH)]; [by exists 0|].
  assert (∀ y t, units (normalizeSlashes (String y t)) =
    (if bool_decide (y = "\"%char) then "/"%char else y) :: units (normalizeSlashes t)) as Hc by done.
  cbn [strip_slashes]. rewrite Hc, IH. destruct (bool_decide (strip_slashes s = "") && _) eqn:E.
  - apply andb_true_iff in E as [->%bool_decide_eq_true Hx]. exists (S k). cbn. f_equal.
    apply orb_true_iff in Hx as [Hx|Hx]; apply bool_decide_eq_true in Hx as ->; done.
  - exists k. by rewrite Hc.
Qed.

Lemma split_slashes s k : ∃ blanks, Forall (λ t, t = "") blanks ∧
  ∀ t, units t = units s ++ replicate k "/"%char → split_on "/" t = split_on "/" s ++ blanks.
Proof.
  induction k as [|k (blanks & Hb & IH)].
  - exists []. split; [done|]. intros t Et. rewrite app_nil_r in Et. apply units_inj in Et as ->.
    by rewrite app_nil_r.
  - exists (blanks ++ [""]). split; [apply Forall_app; by repeat constructor|].
    intros t Et. rewrite replicate_S_end, (assoc_L (++)) in Et.
    set (t' := String.string_of_list_ascii (units s ++ replicate k "/"%char)).
    assert (units t' = units s ++ replicate k "/"%char) as Et'
      by (unfold units at 1, t'; by rewrite String.list_ascii_of_string_of_list_ascii).
    assert (t = t' +:+ "/") as -> by (apply units_inj; by rewrite units_app, Et').
    rewrite (split_on_app_any "/" t' ""), (IH t' Et'). by rewrite <-(assoc_L (++)).
Qed.

(** The root without its trailing slashes, and a slash, begins with the volume. *)
Lemma strip_volume root : absolute root → ∃ z,
  normalizeSlashes (strip_slashes root) +:+ "/" = volume root +:+ z.
Proof.
  intros Ha. destruct (absolute_read root Ha) as [Hv E]. destruct (strip_normal root) as [k Ek].
  set (T := normalizeSlashes (strip_slashes root)) in *. set (t := slice_from _ _) in E.
  rewrite E, units_app in Ek.
  destruct (units T) as [|a [|b T']] eqn:ET.
  - destruct Hv as [Ev|(l & Hl & Ev)]; rewrite Ev in *; destruct k as [|k]; try discriminate.
    + exists "". apply units_inj. by rewrite units_app, ET.
    + injection Ek as -> _. by rewrite slash_not_letter in Hl.
  - destruct Hv as [Ev|(l & Hl & Ev)]; rewrite Ev in *; cbn in Ek.
    + injection Ek as <- _. exists "/". apply units_inj. by rewrite units_app, ET.
    + destruct k as [|k]; discriminate.
  - exists (slice_from (String.length (volume root)) (T +:+ "/")). apply units_inj.
    rewrite (units_app (volume root)), units_slice_from, units_app, ET.
    destruct Hv as [Ev|(l & Hl & Ev)]; rewrite Ev in *; cbn in Ek |- *.
    + injection Ek as <- _. done.
    + injection Ek as <- <- Ek. destruct T' as [|c T']; [done|]. by injection Ek as <- _.
Qed.

(** A resource alike a text on the root's volume is compared as the root is. *)
Lemma alike_folding pat rsrc v z w t1 t2 :
  is_volume v → normalizeSlashes pat = (v +:+ z) +:+ w → normalizeSlashes rsrc = t1 +:+ t2 →
  alike (is_drive (normalizeSlashes pat) || is_drive (normalizeSlashes rsrc)) (v +:+ z) t1 →
  map_units (folding v) t1 = map_units (folding v) (v +:+ z).
Proof.
  intros Hv Ep Er Ha.
  assert (is_drive (normalizeSlashes pat) = is_drive v) as Edp
    by (rewrite Ep, string_app_assoc; by apply volume_read).
  unfold folding. destruct (is_drive v) eqn:Hd.
  - symmetry. by eapply alike_lower.
  - rewrite !map_units_id. rewrite Edp in Ha. cbn [orb] in Ha. symmetry. apply alike_equal.
    assert (is_drive (normalizeSlashes rsrc) = false) as Hnd; [|by rewrite Hnd in Ha].
    destruct Hv as [-> |(l & Hl & ->)]; [|by cbn in Hd; rewrite Hl in Hd].
    apply alike_lower in Ha.
    destruct t1 as [|x t1]; [done|].
    assert (lower_unit x = "/"%char) as Hx.
    { rewrite app_cons_text in Ha. by injection Ha as <- _. }
    apply (proj1 (keeps_slash _ path_units_lower _)) in Hx. subst x.
    rewrite Er, app_cons_text. by apply (volume_read "/" (t1 +:+ t2)); left.
Qed.

Lemma matches_resource p c : matches p c = true → matchesResource (p_resource p) (resource c) = true.
Proof. unfold matches. by intros [_ ?]%andb_true_iff. Qed.

(** A pattern without wildcards selects the texts alike it. *)
Lemma plain_pattern pat rsrc :
  hasResourceWildcard pat = false → matchesResource pat rsrc = true →
  alike (is_drive (normalizeSlashes pat) || is_drive (normalizeSlashes rsrc))
    (normalizeSlashes pat) (normalizeSlashes rsrc).
Proof.
  intros [Hs Hq]%no_wildcard_normal%no_wildcard. rewrite matchesResource_glob. cbv zeta.
  intros (p & [->|Ep] & Hg); [by apply glob_no_wildcard|].
  exfalso. apply Hs. rewrite <-Ep, has_unit_app. right. by right; left.
Qed.

(** The root itself as a pattern. *)
Lemma root_pattern_inside root rsrc :
  absolute root → hasResourceWildcard root = false → no_dotdot rsrc →
  matchesResource root rsrc = true → isInsideWorkspace rsrc root = true.
Proof.
  intros Hroot Hw Hp Hm%plain_pattern; [|done].
  destruct (absolute_read root Hroot) as [Hv E]. set (z := slice_from _ _) in E.
  rewrite E in Hm at 2.
  pose proof (folding_units (volume root)) as Hg.
  assert (map_units (folding (volume root)) (normalizeSlashes rsrc) =
          map_units (folding (volume root)) (normalizeSlashes root)) as Ef.
  { rewrite E. eapply (alike_folding root rsrc _ z ""); [done| | |exact Hm]; by rewrite app_nil_right. }
  destruct (absolute_segments root Hroot) as (v0 & l & Es & Hl & _).
  apply (extends_inside root rsrc (map_units (folding (volume root)) <$> segments root) [] []);
    rewrite ?app_nil_r; try done.
  - unfold segments. by rewrite <-!(map_split _ Hg), Ef.
  - rewrite length_fmap, Es. destruct l; [done|cbn; lia].
  - by rewrite Es.
Qed.

(** A pattern below the workspace covers nothing outside. *)
Lemma workspace_pattern_inside root p rsrc :
  absolute root → hasResourceWildcard root = false → no_dotdot rsrc →
  resourceSubsumes (strip_slashes root +:+ "/**") (p_resource p) = true →
  matchesResource (p_resource p) rsrc = true → isInsideWorkspace rsrc root = true.
Proof.
  intros Hroot Hw Hp Hs. rewrite matchesResource_glob. cbv zeta. intros (q & Hq & Hg).
  set (T := normalizeSlashes (strip_slashes root)).
  assert (normalizeSlashes (strip_slashes root +:+ "/**") = T +:+ "/**") as ET
    by by rewrite normalizeSlashes_app.
  assert (∃ rest, normalizeSlashes (p_resource p) = (T +:+ "/") +:+ rest) as [rest Er].
  { unfold resourceSubsumes in Hs. rewrite ET in Hs.
    rewrite (drop_last_app T "/**" : drop_last 3 _ = _) in Hs.
    destruct (bool_decide _ || bool_decide _) eqn:Hb.
    - apply orb_true_iff in Hb as [Hb|Hb]; apply bool_decide_eq_true in Hb.
      + exists "**". rewrite <-Hb. by rewrite string_app_assoc.
      + exfalso. apply (f_equal String.length) in Hb. rewrite app_length in Hb. cbn in Hb. lia.
    - destruct (negb _); [done|]. by apply starts_with_spec in Hs. }
  assert (∃ rest', q = (T +:+ "/") +:+ rest') as [rest' ->].
  { destruct Hq as [->|Hq]; [by exists rest|]. rewrite Er in Hq. by apply cut_keeps_prefix in Hq. }
  rewrite units_app in Hg. apply glob_split in Hg as (r1 & r2 & En & H1 & _).
  set (t1 := String.string_of_list_ascii r1). set (t2 := String.string_of_list_ascii r2).
  assert (units t1 = r1 ∧ units t2 = r2) as [Eu1 Eu2]
    by (unfold units, t1, t2; by rewrite !String.list_ascii_of_string_of_list_ascii).
  assert (normalizeSlashes rsrc = t1 +:+ t2) as Ers by (apply units_inj; by rewrite units_app, Eu1, Eu2).
  apply glob_no_wildcard in H1.
  2,3: pose proof (no_wildcard_normal _ Hw) as Hwn; apply no_wildcard in Hwn as [Hw1 Hw2];
    unfold has_unit in Hw1, Hw2; destruct (strip_normal root) as [k Ek]; rewrite Ek in Hw1, Hw2;
    rewrite units_app; fold T in Hw1, Hw2; rewrite elem_of_app in Hw1, Hw2 |- *;
    intros [|[|?%not_elem_of_nil]%elem_of_cons]; [tauto|done|done].
  destruct (strip_volume root Hroot) as [z Ez]. fold T in Ez.
  destruct (absolute_read root Hroot) as [Hv _]. pose proof (folding_units (volume root)) as Hgu.
  assert (map_units (folding (volume root)) t1 = map_units (folding (volume root)) T +:+ "/") as Et1.
  { rewrite (alike_folding (p_resource p) rsrc (volume root) z rest t1 t2); [|done| |done|].
    - rewrite <-Ez, map_units_app. cbn. by rewrite (proj2 (keeps_slash _ Hgu _) eq_refl).
    - by rewrite Er, Ez.
    - unfold alike. by rewrite <-Ez, Eu1. }
  destruct (strip_normal root) as [k Ek]. fold T in Ek.
  destruct (split_slashes T k) as (blanks & Hb & Hsp).
  eapply (extends_inside root rsrc (map_units (folding (volume root)) <$> split_on "/" T) blanks
    (split_on "/" (map_units (folding (volume root)) t2))); [done|done| |done| | |].
  - unfold segments. rewrite (Hsp _ Ek), fmap_app. f_equal.
    clear -Hb. induction Hb as [|s blanks -> _ IH]; [done|]. cbn. by f_equal.
  - unfold segments. rewrite <-(map_split _ Hgu), Ers, map_units_app, Et1, string_app_assoc.
    rewrite <-(map_split _ Hgu).
    apply (split_on_app_any "/" _ (map_units (folding (volume root)) t2)).
  - rewrite length_app, length_fmap.
    destruct (split_on_cons "/" T) as (? & ? & ->).
    destruct (split_on_cons "/" (map_units (folding (volume root)) t2)) as (? & ? & ->). cbn. lia.
  - by destruct (split_on_cons "/" T) as (? & ? & ->).
Qed.

(** Containment does not tell texts alike on a drive apart. *)
Lemma inside_lower root a b :
  absolute root → no_dotdot a → is_drive (normalizeSlashes a) = true →
  toLowerCase (normalizeSlashes a) = toLowerCase (normalizeSlashes b) →
  isInsideWorkspace a root = true → isInsideWorkspace b root = true.
Proof.
  intros Hroot Ha Hda Hl.
  assert (is_drive (normalizeSlashes b) = true) as Hdb by by rewrite <-drive_lower, <-Hl, drive_lower.
  assert (absolute a ∧ absolute b) as [Haa Hab] by (unfold absolute, path_absolute; by rewrite Hda, Hdb).
  rewrite !isInsideWorkspace_spec, !destination_absolute by done. cbn [fst snd].
  destruct (absolute_segments a Haa) as (va & la & Ea & _ & Eva & Eda).
  destruct (absolute_segments b Hab) as (vb & lb & Eb & _ & Evb & Edb).
  unfold comparable. destruct (is_drive (volume root)) eqn:Hdr.
  - assert (toLowerCase <$> segments a = toLowerCase <$> segments b) as Es.
    { unfold segments. by rewrite <-!(map_split _ path_units_lower); f_equal. }
    rewrite Ea, Eb in Es. cbn in Es. injection Es as Ev El.
    assert (".." ∉ la) as Hna.
    { unfold no_dotdot in Ha. rewrite Ea in Ha. by apply not_elem_of_cons in Ha as [_ ?]. }
    assert (".." ∉ lb) as Hnb.
    { rewrite <-(map_dotdot _ path_units_lower) in Hna |- *. intros Hin. apply Hna.
      by assert (map_units lower_unit <$> la = map_units lower_unit <$> lb) as -> by exact El. }
    rewrite Eva, Evb, Eda, Edb, (walk_kept la []), (walk_kept lb []) by done. cbn [app].
    unfold toLowerCase. rewrite !(map_kept _ path_units_lower), !map_units_app.
    unfold toLowerCase in Ev, El. by rewrite Ev, (El : map_units lower_unit <$> la = _).
  - intros [E _]. exfalso. rewrite !map_units_id in E.
    destruct (absolute_read a Haa) as [_ En]. rewrite En, E in Hda.
    destruct (absolute_read root Hroot) as [Hv _].
    by rewrite (proj1 (volume_read _ _ Hv)), Hdr in Hda.
Qed.

Lemma inside_normal root a b :
  normalizeSlashes a = normalizeSlashes b → isInsideWorkspace a root = isInsideWorkspace b root.
Proof. intros E. unfold isInsideWorkspace, resolve_under. by rewrite E. Qed.

(** A grant keeps its tier: a pattern that is valid for a request shown with
    [tier] selects no capability of another action, and none of another tier, as
    long as the workspace root is absolute and free of wildcards and the resource
    holds no [..] segment. *)
Theorem valid_grant_keeps_tier p c tier root c' :
  absolute root → hasResourceWildcard root = false →
  isValidGrantPattern p c tier root = true → matches p c' = true → no_dotdot (resource c') →
  action c' = action c ∧ tierOf c' root = tier.
Proof.
  intros Hroot Hw Hv Hm' Hd. unfold isValidGrantPattern in Hv.
  destruct (bool_decide (pattern_text _ = _)) eqn:Ha; [|done].
  destruct (matches p c) eqn:Hm; [|done]. cbn [negb orb] in Hv.
  destruct (bool_decide (tierOf c root = tier)) eqn:Ht; [|done]. cbn [negb] in Hv.
  apply bool_decide_eq_true in Ha, Ht.
  assert (p_action p = Exactly (action c)) as Hpa by by apply pattern_text_inj.
  assert (action c' = action c) as Hac.
  { unfold matches in Hm'. rewrite Hpa in Hm'. apply andb_true_iff in Hm' as [Hx _].
    by destruct (action c), (action c'). }
  split; [done|]. case_bool_decide as Hfs; cbn [negb] in Hv.
  2: { unfold tierOf in *. rewrite Hac. by destruct (action c). }
  apply matches_resource in Hm, Hm'.
  unfold tierOf in *. rewrite Hac, Hfs in *. case_bool_decide as Hti.
  - subst tier. apply negb_true_iff in Hv.
    destruct (isInsideWorkspace (resource c') root) eqn:Hin; [|done]. exfalso.
    destruct (isInsideWorkspace (resource c) root) eqn:Hout; [done|].
    apply plain_pattern in Hm, Hm'; [|done..].
    pose proof (alike_lower _ _ _ Hm) as Hl. pose proof (alike_lower _ _ _ Hm') as Hl'.
    destruct (is_drive (normalizeSlashes (resource c'))) eqn:Hdr.
    + rewrite (inside_lower root (resource c') (resource c)) in Hout; [done..|congruence|done].
    + assert (is_drive (normalizeSlashes (p_resource p)) = false) as Hdp
        by by rewrite <-drive_lower, Hl', drive_lower.
      assert (is_drive (normalizeSlashes (resource c)) = false) as Hdc
        by by rewrite <-drive_lower, <-Hl, drive_lower.
      rewrite Hdp in Hm, Hm'. rewrite Hdc in Hm. apply alike_equal in Hm, Hm'.
      rewrite (inside_normal root _ (resource c')) in Hout; congruence.
  - assert (isInsideWorkspace (resource c') root = true) as ->.
    + apply orb_true_iff in Hv as [Hv|Hv].
      * apply bool_decide_eq_true in Hv. rewrite Hv in Hm'. by apply root_pattern_inside.
      * apply andb_true_iff in Hv as [_ Hv]. by apply (workspace_pattern_inside root p).
    + destruct (isInsideWorkspace (resource c) root); congruence.
Qed.

Lemma valid_grant_keeps_tier_witness :
  let p := mkPattern (Exactly FsWrite) "/work/src/**" in
  tierOf (mkCapability FsWrite "/work/src/deep/b.ts") "/work/" = Compensable.
Proof.
  apply (valid_grant_keeps_tier (mkPattern (Exactly FsWrite) "/work/src/**")
    (mkCapability FsWrite "/work/src/a.ts") Compensable "/work/");
    [vm_compute; reflexivity..|].
  vm_compute. intros H. repeat (apply elem_of_cons in H as [H|H]; [discriminate|]).
  by apply not_elem_of_nil in H.
Defined.

(** Without the proviso on [..] the grant does not keep its tier: a pattern the
    kernel accepts for a write inside the workspace also selects a text that
    leads out of it. *)
Lemma grant_covers_traversal :
  let p := mkPattern (Exactly FsWrite) "/work/**" in
  let inside := mkCapability FsWrite "/work/a" in
  let outside := mkCapability FsWrite "/work/../etc/passwd" in
  isValidGrantPattern p inside Compensable "/work" = true ∧ matches p outside = true ∧
  tierOf outside "/work" = Irreversible.
Proof. vm_compute. done. Qed.
