(* ===== verification/GrantSystem.v ===== *)
(** * Fibers over one grant store

    A fiber whose [check] parks waits on its [Deferred] outside the permit; it
    wakes when the [Deferred] completes or leaves when it is interrupted, and in
    both cases takes the permit once more to delete its entry.  Between any two of
    these steps other operations run, and others write to the backend ([Outside]).  [perform] is one step of such a system, and
    [sys_ok] is the invariant all of them keep. *)

From S2P Require Import Prelude Json Capability CapabilitySet Permission GrantStore.
#[local] Open Scope me_scope.

(** ** The system *)

(** How a waiting [check] ends. *)
Inductive Exit : Type := Granted | Refused (d : PermissionDenied) | Interrupted.

Inductive Phase : Type := Waiting | Leaving (x : Exit) | Gone.

Record Fiber := mkFiber { f_entry : PendingEntry; f_phase : Phase }.

Section backend.
Context {K : Backend}.

Record System := mkSystem { store : Store; fibers : list Fiber }.

Inductive Op : Type :=
  | Check (ceiling : CapabilitySet) (c : Capability) (meta : json)
  | Reply (hook : Hook) (requestId resolution : string) (suppliedPattern : option CapabilityPattern)
  | Envelope (hook : Hook) (o : EnvelopeGrantOptions)
  | List
  | Close
  | Wake (i : nat)
  | Interrupt (i : nat)
  | Cleanup (i : nat)
  | Outside (f : medium → medium).

Inductive Answer : Type :=
  | Settled (ceiling : CapabilitySet) (c : Capability) (r : PermissionError + ())
  | Parked (entry : PendingEntry)
  | Replied (r : PermissionError + ())
  | Listed (l : list (string * Capability * EffectTier * json))
  | Exited (entry : PendingEntry) (x : Exit)
  | Idle.

Definition exit_of (r : Completion) : Exit :=
  match r with Succeeded => Granted | Failed d => Refused d end.

Definition set_phase (i : nat) (f : Fiber) (p : Phase) (sys : System) : System :=
  mkSystem (store sys) (<[i := mkFiber (f_entry f) p]> (fibers sys)).

Section system.
Context `{JsonText} (options : MakeOptions) (workspaceRoot : string).

(** The answer and the state an operation of the service leaves. *)
Definition serve {A} (m : SM A) (answer : PermissionError + A → Answer) (sys : System) : Answer * System :=
  let '(r, s') := m (store sys) in (answer r, mkSystem s' (fibers sys)).

Definition perform (o : Op) (sys : System) : Answer * System :=
  match o with
  | Check ceiling c meta =>
      match check options workspaceRoot ceiling c meta (store sys) with
      | (inr (Some entry), s') => (Parked entry, mkSystem s' (fibers sys ++ [mkFiber entry Waiting]))
      | (inr None, s') => (Settled ceiling c (inr tt), mkSystem s' (fibers sys))
      | (inl e, s') => (Settled ceiling c (inl e), mkSystem s' (fibers sys))
      end
  | Reply hook requestId resolution supplied =>
      serve (reply options workspaceRoot hook requestId resolution supplied) Replied sys
  | Envelope hook o => serve (grantEnvelope options workspaceRoot hook o) Replied sys
  | List => serve listPending (λ r, match r with inr l => Listed l | inl _ => Idle end) sys
  | Close => serve close Replied sys
  | Wake i =>
      match fibers sys !! i with
      | Some f =>
          match f_phase f, deferreds (store sys) !! e_deferred (f_entry f) with
          | Waiting, Some (Some r) => (Idle, set_phase i f (Leaving (exit_of r)) sys)
          | _, _ => (Idle, sys)
          end
      | None => (Idle, sys)
      end
  | Interrupt i =>
      match fibers sys !! i with
      | Some f =>
          match f_phase f with
          | Waiting => (Idle, set_phase i f (Leaving Interrupted) sys)
          | _ => (Idle, sys)
          end
      | None => (Idle, sys)
      end
  | Cleanup i =>
      match fibers sys !! i with
      | Some f =>
          match f_phase f with
          | Leaving x =>
              let s' := snd (delete_pending (e_requestId (f_entry f)) (store sys)) in
              (Exited (f_entry f) x, set_phase i f Gone (mkSystem s' (fibers sys)))
          | _ => (Idle, sys)
          end
      | None => (Idle, sys)
      end
  | Outside f =>
      (Idle, mkSystem (with_backend (f (backend (store sys))) (store sys)) (fibers sys))
  end.

Definition performs (ops : list Op) (sys : System) : System :=
  fold_left (λ sys o, snd (perform o sys)) ops sys.

End system.

(** ** Authority *)

(** The patterns an event makes active. *)
Definition event_grants (ev : GrantEvent) (p : CapabilityPattern) : Prop :=
  match ev with
  | RunGrant _ _ _ _ q _ | RememberedGrant _ _ _ _ q _ => p = q
  | EnvelopeGrant _ _ ps _ => p ∈ ps
  | OnceGrant _ _ _ _ _ _ | DeniedGrant _ _ _ _ _ _ => False
  end.

(** The event that answers one request once. *)
Definition once_logged (s : Store) (requestId : string) (c : Capability) : Prop :=
  ∃ runId planDigest p tier, OnceGrant requestId runId planDigest c p tier ∈ log s.

(** A rule active for [c] from the start, or granted by a recorded event. *)
Definition backed (s0 s : Store) (c : Capability) (r : Rule) : Prop :=
  r ∈ concat (rulesets s0 c) ∨ ∃ ev, ev ∈ log s ∧ event_grants ev (pattern r).

Definition authorised (s0 s : Store) (c : Capability) : Prop :=
  ∃ r, backed s0 s c r ∧ effect r = Allow ∧ matches (pattern r) c = true.

Definition justified (s0 s : Store) (e : PendingEntry) : Prop :=
  once_logged s (e_requestId e) (e_capability e) ∨ authorised s0 s (e_capability e).

(** ** The invariant *)

Definition request_name (n : N) : string := "permission-" +:+ pretty n.

Record sys_ok (s0 : Store) (sys : System) : Prop := mkSysOk
  { ok_configured : configuredRules (store sys) = configuredRules s0;
    (** fiber [i] waits on deferred [i] *)
    ok_length : length (deferreds (store sys)) = length (fibers sys);
    ok_index : ∀ i f, fibers sys !! i = Some f → e_deferred (f_entry f) = i;
    (** request ids are fresh *)
    ok_named : ∀ f, f ∈ fibers sys →
      ∃ n, (n < nextRequestId (store sys))%N ∧ e_requestId (f_entry f) = request_name n;
    ok_names : NoDup ((λ f, e_requestId (f_entry f)) <$> fibers sys);
    (** only an allowed capability that no veto forbids is asked for *)
    ok_asked : ∀ f, f ∈ fibers sys →
      allows (e_ceiling (f_entry f)) (e_capability (f_entry f)) = true ∧
      configured_effect (configuredRules s0) (e_capability (f_entry f)) ≠ Deny;
    (** a pending entry is an unresolved one of a fiber *)
    ok_pending : ∀ k e, (k, e) ∈ pending (store sys) →
      k = e_requestId e ∧ deferreds (store sys) !! e_deferred e = Some None ∧
      ∃ f, fibers sys !! e_deferred e = Some f ∧ f_entry f = e;
    ok_keys : NoDup (fst <$> pending (store sys));
    (** a fiber waits in the open *)
    ok_waiting : ∀ i f, fibers sys !! i = Some f → f_phase f = Waiting →
      deferreds (store sys) !! i = Some None →
      (e_requestId (f_entry f), f_entry f) ∈ pending (store sys);
    (** a grant has its authority *)
    ok_granted : ∀ i f, fibers sys !! i = Some f →
      deferreds (store sys) !! i = Some (Some Succeeded) ∨ f_phase f = Leaving Granted →
      justified s0 (store sys) (f_entry f);
    ok_closed : closed (store sys) = true → pending (store sys) = [];
    ok_rules : ∀ c r, r ∈ concat (rulesets (store sys) c) → backed s0 (store sys) c r }.

End backend.
