(* ===== verification/GrantProps.v ===== *)
(** * Every step of the grant store keeps its invariant *)

From S2P Require Import Prelude Json Capability CapabilitySet Permission GrantStore GrantSystem.
#[local] Open Scope me_scope.

(** ** The runs of the store's operations *)

Section runs.
Context {K : Backend}.

Definition settle (kv : string * PendingEntry) (r : Completion) (s : Store) : Store :=
  with_pending (map_delete kv.1 (pending s)) (snd (complete (e_deferred kv.2) r s)).

Definition covered (s : Store) (e : PendingEntry) : bool :=
  allows (e_ceiling e) (e_capability e) &&
  bool_decide (evaluate (rulesets s (e_capability e)) (e_capability e) = Allow).

Definition resolve_all (l : list (string * PendingEntry)) (s : Store) : Store :=
  fold_left (λ s kv, if covered s kv.2 then settle kv Succeeded s else s) l s.

Lemma complete_fields d r s :
  snd (complete d r s) = s ∨ snd (complete d r s) = with_deferreds (<[d := Some r]> (deferreds s)) s.
Proof. cbn. repeat case_match; auto. Qed.

Lemma settle_pending kv r s : pending (settle kv r s) = map_delete kv.1 (pending s).
Proof. done. Qed.

Lemma settle_rulesets kv r s c : rulesets (settle kv r s) c = rulesets s c.
Proof. unfold settle. by destruct (complete_fields (e_deferred kv.2) r s) as [->| ->]. Qed.

Lemma settle_same kv r s :
  configuredRules (settle kv r s) = configuredRules s ∧ nextRequestId (settle kv r s) = nextRequestId s ∧
  closed (settle kv r s) = closed s ∧ log (settle kv r s) = log s ∧
  grantedEnvelopes (settle kv r s) = grantedEnvelopes s.
Proof. unfold settle. by destruct (complete_fields (e_deferred kv.2) r s) as [->| ->]. Qed.

Lemma settle_deferreds kv r s :
  deferreds s !! e_deferred kv.2 = Some None →
  deferreds (settle kv r s) = <[e_deferred kv.2 := Some r]> (deferreds s).
Proof. unfold settle. cbn. by intros ->. Qed.

Lemma complete_delete_run id e r s :
  (complete (e_deferred e) r ;; delete_pending id)%me s = (inr tt, settle (id, e) r s).
Proof.
  change (complete (e_deferred e) r) with
    (λ s, (inr tt, snd (complete (e_deferred e) r s)) : (PermissionError + ()) * Store).
  unfold bind, settle, delete_pending, modify. cbn [fst snd].
  by destruct (complete_fields (e_deferred e) r s) as [->| ->].
Qed.

Lemma resolve_entry_run kv s :
  resolve_entry kv s = (inr tt, if covered s kv.2 then settle kv Succeeded s else s).
Proof.
  destruct kv as [k e]. unfold resolve_entry. cbv beta iota.
  step. unfold covered. cbn [id snd]. destruct (allows (e_ceiling e) (e_capability e)); [|done].
  destruct (bool_decide _); [|done]. cbn [negb orb andb]. apply complete_delete_run.
Qed.

Lemma for_each_resolve l s : ∃ l', for_each resolve_entry l s = (inr l', resolve_all l s).
Proof.
  revert s. induction l as [|kv l IH]; intros s; cbn [for_each]; [by exists []|].
  rewrite (bind_run _ _ _ _ _ (resolve_entry_run kv s)).
  destruct (IH (if covered s kv.2 then settle kv Succeeded s else s)) as [l' H].
  step_by H. eexists. done.
Qed.

Lemma resolveCovered_run s : resolveCovered s = (inr tt, resolve_all (pending s) s).
Proof.
  unfold resolveCovered. step.
  destruct (for_each_resolve (pending s) s) as [l' H]. by step_by H.
Qed.

End runs.

Lemma in_delete {A} key k (v : A) m : (k, v) ∈ map_delete key m ↔ (k, v) ∈ m ∧ k ≠ key.
Proof.
  unfold map_delete. rewrite elem_of_filter_b. cbn. by rewrite negb_true_iff, bool_decide_eq_false.
Qed.

Lemma delete_nodup {A} key (m : list (string * A)) : NoDup (fst <$> m) → NoDup (fst <$> map_delete key m).
Proof.
  unfold map_delete. induction m as [|[k v] m IH]; cbn; [done|].
  intros [Hk Hm]%NoDup_cons. destruct (bool_decide (k = key)); cbn; [by apply IH|].
  apply NoDup_cons. split; [|by apply IH].
  intros (kv & -> & Hin)%list_elem_of_fmap. apply Hk.
  apply elem_of_filter_b in Hin as [Hin _]. by apply list_elem_of_fmap_2.
Qed.

Lemma map_set_fresh {A} key (v : A) m : key ∉ m.*1 → map_set key v m = m ++ [(key, v)].
Proof.
  induction m as [|[k w] m IH]; cbn; [done|]. rewrite not_elem_of_cons. intros [Hk Hm].
  rewrite bool_decide_eq_false_2 by naive_solver. by rewrite IH.
Qed.

#[global] Arguments settle : simpl never.
#[global] Arguments rulesets : simpl never.

(** ** Steps of the store *)

Section steps.
Context {K : Backend} (s0 : Store) (fs : list Fiber).
Notation ok s := (sys_ok s0 (mkSystem s fs)).

Lemma justified_log s s' e : (∀ ev, ev ∈ log s → ev ∈ log s') → justified s0 s e → justified s0 s' e.
Proof.
  intros Hl [(a & b & p & t & H)|(r & [Hb|(ev & Hin & Hev)] & Hr)].
  - left. exists a, b, p, t. auto.
  - right. exists r. split; [by left|done].
  - right. exists r. split; [right; eauto|done].
Qed.

Lemma backed_log s s' c r : (∀ ev, ev ∈ log s → ev ∈ log s') → backed s0 s c r → backed s0 s' c r.
Proof. intros Hl [H|(ev & Hin & Hev)]; [by left|right; eauto]. Qed.

(** Completing a pending entry. *)
Lemma settle_ok s k e r :
  ok s → (k, e) ∈ pending s → (r = Succeeded → justified s0 s e) → ok (settle (k, e) r s).
Proof.
  intros Hok Hin Hj. pose proof (ok_pending _ _ Hok k e Hin) as (Hk & Hd & f & Hf & Hfe).
  cbn [store fibers] in Hd, Hf.
  destruct (settle_same (k, e) r s) as (Ec & En & Ecl & El & _).
  pose proof (settle_deferreds (k, e) r s Hd) as Ed. cbn [snd] in Ed.
  assert (∀ e', justified s0 s e' → justified s0 (settle (k, e) r s) e') as Hmono.
  { intros e'. apply justified_log. by rewrite El. }
  destruct Hok as [H1 H2 H3 H4 H5 H6 H7 H8 H9 H10 H11 H12]. cbn [store fibers] in *.
  constructor; cbn [store fibers]; rewrite ?Ec, ?En, ?Ecl, ?Ed, ?length_insert; try done.
  - intros k' e' [Hin' Hne]%in_delete. cbn in Hne. destruct (H7 _ _ Hin') as (Hk' & Hd' & f' & Hf' & Hfe').
    split_and!; [done| |eauto]. rewrite list_lookup_insert_ne; [done|].
    intros E. apply Hne. rewrite <-E, Hf in Hf'. naive_solver.
  - by apply delete_nodup.
  - intros i f' Hf' Hw Hi. cbn. apply in_delete.
    destruct (decide (i = e_deferred e)) as [->|Hne].
    { rewrite list_lookup_insert_eq in Hi by (by eapply lookup_lt_Some). done. }
    rewrite list_lookup_insert_ne in Hi by done. split; [by apply (H9 i)|]. cbn.
    intros E. apply Hne.
    eapply (NoDup_lookup _ _ _ _ H5); rewrite list_lookup_fmap; [rewrite Hf'|rewrite Hf]; cbn; [done|].
    by rewrite Hfe, <-Hk, E.
  - intros i f' Hf' Hg. apply Hmono.
    destruct (decide (i = e_deferred e)) as [->|Hne].
    + rewrite list_lookup_insert_eq in Hg by (by eapply lookup_lt_Some).
      assert (f' = f) as -> by naive_solver. rewrite Hfe.
      destruct Hg as [[= ->]|Hg]; [auto|]. rewrite <-Hfe. by eapply (H10 _ _ Hf); right.
    + rewrite list_lookup_insert_ne in Hg by done. by eapply H10.
  - intros Hc. rewrite settle_pending, (H11 Hc). done.
  - intros c r'. rewrite settle_rulesets. intros Hr'. eapply backed_log; [|by apply H12]. by rewrite El.
Qed.

Lemma covered_justified s e : ok s → covered s e = true → justified s0 s e.
Proof.
  intros Hok [_ Hev%bool_decide_eq_true]%andb_true_iff.
  apply evaluate_allow in Hev as (r & Hr & Ha & Hm). right. exists r.
  split; [|done]. by apply (ok_rules _ _ Hok).
Qed.

Lemma resolve_all_ok l s : ok s → (∀ kv, kv ∈ l → kv ∈ pending s) → NoDup l.*1 → ok (resolve_all l s).
Proof.
  revert s. induction l as [|[k e] l IH]; intros s Hok Hin Hnd; [done|]. cbn.
  cbn in Hnd. apply NoDup_cons in Hnd as [Hk Hnd].
  destruct (covered s e) eqn:Hc; [|apply IH; [done| |done]; intros kv Hkv; apply Hin; by right].
  apply IH; [|  |done].
  - apply settle_ok; [done|apply Hin; by left|]. intros _. by apply covered_justified.
  - intros [k' e'] Hkv. rewrite settle_pending. apply in_delete. split; [apply Hin; by right|].
    cbn. intros ->. apply Hk. by apply (list_elem_of_fmap_2 fst) in Hkv.
Qed.

Lemma resolveCovered_ok s : ok s → ok (snd (resolveCovered s)).
Proof.
  intros Hok. rewrite resolveCovered_run. apply resolve_all_ok; [done..|apply (ok_keys _ _ Hok)].
Qed.

(** Recording an event and activating what it grants. *)
Lemma grow_ok s s' :
  ok s → configuredRules s' = configuredRules s → pending s' = pending s → deferreds s' = deferreds s →
  nextRequestId s' = nextRequestId s → closed s' = closed s → (∀ ev, ev ∈ log s → ev ∈ log s') →
  (∀ c r, r ∈ concat (rulesets s' c) → r ∈ concat (rulesets s c) ∨ backed s0 s' c r) →
  ok s'.
Proof.
  intros [H1 H2 H3 H4 H5 H6 H7 H8 H9 H10 H11 H12] Ec Ep Ed En Ecl Hl Hr.
  cbn [store fibers] in *. constructor; cbn [store fibers]; rewrite ?Ec, ?Ep, ?Ed, ?En, ?Ecl; try done.
  - intros i f Hf Hg. eapply justified_log; [done|]. by eapply H10.
  - intros c r [Hin|Hb]%Hr; [|done]. eapply backed_log; [done|]. by apply H12.
Qed.

Lemma in_rulesets s c r :
  r ∈ concat (rulesets s c) ↔
  r ∈ configuredRules s ∨ r ∈ envelopeRules s ∨
  (∃ ceiling, (r, ceiling) ∈ runRules s ∧ allows ceiling c = true) ∨ r ∈ rememberedRules s.
Proof.
  unfold rulesets. cbn. rewrite !elem_of_app, elem_of_nil, list_elem_of_fmap.
  assert ((∃ y, r = y.1 ∧ y ∈ List.filter (λ rc, allows rc.2 c) (runRules s)) ↔
          ∃ ceiling, (r, ceiling) ∈ runRules s ∧ allows ceiling c = true) as ->; [|tauto].
  split.
  - intros ([r' ce] & -> & Hin). apply elem_of_filter_b in Hin. eauto.
  - intros (ce & Hin & Ha). exists (r, ce). by rewrite elem_of_filter_b.
Qed.

End steps.

(** ** Replies and envelopes *)

(** An event the backend took. *)
Definition recorded `{Backend} (ev : GrantEvent) (m : medium) (s : Store) : Store :=
  with_log (log s ++ [ev]) (with_backend m s).

Lemma persist_run `{Backend} hook ev s :
  persist hook ev s =
  match hook ev (backend s) with
  | (Some e, m) => (inl (EStore e), with_backend m s)
  | (None, m) => (inr tt, recorded ev m s)
  end.
Proof. unfold persist. step. cbn [id]. by destruct (hook ev (backend s)) as [[e|] m]. Qed.

(** A hook that refuses stops the operation where it stands. *)
Lemma persist_then `{Backend} {A} hook ev (k : SM A) s :
  (persist hook ev ;; k)%me s =
  match hook ev (backend s) with
  | (Some e, m) => (inl (EStore e), with_backend m s)
  | (None, m) => k (recorded ev m s)
  end.
Proof. unfold bind. rewrite persist_run. by destruct (hook ev (backend s)) as [[e|] m]. Qed.

Lemma persist_taken `{Backend} {A} hook ev (k : SM A) s :
  fst (hook ev (backend s)) = None →
  (persist hook ev ;; k)%me s = k (recorded ev (snd (hook ev (backend s))) s).
Proof. rewrite persist_then. by destruct (hook ev (backend s)) as [[e|] m]. Qed.

Lemma assoc_in {A} key (m : list (string * A)) v : assoc key m = Some v → (key, v) ∈ m.
Proof.
  induction m as [|[k w] m IH]; cbn; [done|].
  case_bool_decide as E; [|by right; apply IH]. intros [= ->]. subst. by left.
Qed.

Section operations.
Context `{JsonText} (options : MakeOptions) (workspaceRoot : string).
Context {K : Backend} (s0 : Store) (fs : list Fiber).
Notation ok s := (sys_ok s0 (mkSystem s fs)).

Lemma backend_ok s m : ok s → ok (with_backend m s).
Proof. intros Hok. eapply grow_ok; [exact Hok|done..|]. by left. Qed.

Lemma log_ok s ev m : ok s → ok (recorded ev m s).
Proof.
  intros Hok. eapply grow_ok; [exact Hok|done..| |by left].
  intros e He. apply elem_of_app. by left.
Qed.

(** The steps that push an allow rule the event of the log backs. *)
Lemma push_ok s s' ev (granted : list CapabilityPattern) :
  ok s → configuredRules s' = configuredRules s → pending s' = pending s → deferreds s' = deferreds s →
  nextRequestId s' = nextRequestId s → closed s' = closed s → log s' = log s ++ [ev] →
  (∀ p, p ∈ granted → event_grants ev p) →
  (∀ c r, r ∈ concat (rulesets s' c) → r ∈ concat (rulesets s c) ∨ pattern r ∈ granted) →
  ok s'.
Proof.
  intros Hok Ec Ep Ed En Ecl El Hg Hr. eapply grow_ok; [exact Hok|done..| |].
  - intros e He. rewrite El. apply elem_of_app. by left.
  - intros c r [Hin|Hin]%Hr; [by left|right]. right. exists ev. split; [|by apply Hg].
    rewrite El. apply elem_of_app. right. by left.
Qed.

Lemma reply_once_ok hook e p s :
  ok s → (e_requestId e, e) ∈ pending s → ok (snd (reply_once options hook (e_requestId e) e p s)).
Proof.
  intros Hok Hin. unfold reply_once. rewrite persist_then. destruct (hook _ _) as [[err|] m]; [by apply backend_ok|].
  rewrite complete_delete_run. cbn [snd]. apply settle_ok; [by apply log_ok|done|].
  intros _. left. do 4 eexists. apply elem_of_app. right. left.
Qed.

Lemma reply_deny_ok hook e p s :
  ok s → (e_requestId e, e) ∈ pending s → ok (snd (reply_deny options hook (e_requestId e) e p s)).
Proof.
  intros Hok Hin. unfold reply_deny. rewrite persist_then. destruct (hook _ _) as [[err|] m]; [by apply backend_ok|].
  rewrite complete_delete_run. cbn [snd]. by apply settle_ok; [apply log_ok|..].
Qed.

Lemma reply_run_ok hook id e p s : ok s → ok (snd (reply_run options workspaceRoot hook id e p s)).
Proof.
  intros Hok. unfold reply_run. destruct (o_planDigest options) as [[|x digest]|]; [done| |done].
  destruct (negb _); [done|]. rewrite persist_then. destruct (hook _ _) as [[err|] m]; [by apply backend_ok|].
  unfold push_run_rule. step. apply resolveCovered_ok.
  eapply (push_ok s _ _ [p]); [done..| |].
  - intros q ->%list_elem_of_singleton. done.
  - intros c r. rewrite !in_rulesets. cbn [recorded with_backend with_rules with_log configuredRules envelopeRules runRules rememberedRules].
    intros [|[|[(ce & [Hin|[= -> ->]%list_elem_of_singleton]%elem_of_app & Ha)|]]]; [tauto..| |right; by left|tauto].
    left. right. right. left. eauto.
Qed.

Lemma reply_remembered_ok hook id e p s :
  ok s → ok (snd (reply_remembered options workspaceRoot hook id e p s)).
Proof.
  intros Hok. unfold reply_remembered. destruct (negb _); [done|].
  rewrite persist_then. destruct (hook _ _) as [[err|] m]; [by apply backend_ok|].
  unfold push_remembered. step. apply resolveCovered_ok.
  eapply (push_ok s _ _ [p]); [done..| |].
  - intros q ->%list_elem_of_singleton. done.
  - intros c r. rewrite !in_rulesets. cbn [recorded with_backend with_rules with_log configuredRules envelopeRules runRules rememberedRules].
    rewrite elem_of_app, list_elem_of_singleton.
    intros [|[|[|[| ->]]]]; [tauto..|right; by left].
Qed.

Lemma reply_ok hook requestId resolution supplied s :
  ok s → ok (snd (reply options workspaceRoot hook requestId resolution supplied s)).
Proof.
  intros Hok. unfold reply. step. cbn [id].
  destruct (closed s); [done|]. destruct (negb _); [done|].
  destruct (assoc requestId (pending s)) as [e|] eqn:Ha; [|done].
  apply assoc_in in Ha. pose proof (proj1 (ok_pending _ _ Hok _ _ Ha)) as ->.
  repeat case_bool_decide; [by apply reply_once_ok|by apply reply_run_ok
    |by apply reply_remembered_ok|by apply reply_deny_ok].
Qed.

Lemma grantEnvelope_ok hook o s : ok s → ok (snd (grantEnvelope options workspaceRoot hook o s)).
Proof.
  intros Hok. unfold grantEnvelope. step. cbn [id]. cbv zeta.
  destruct (closed s); [done|]. destruct (negb _); [done|].
  case_bool_decide; [done|]. case_bool_decide; [done|].
  rewrite persist_then. destruct (hook _ _) as [[err|] m]; [by apply backend_ok|]. step.
  unfold activate_envelope, push_remembered, push_envelope. cbv zeta.
  set (ps := canonicalEnvelopePatterns _).
  assert (∀ r, r ∈ ((λ p, mkRule Allow p) <$> ps) → pattern r ∈ ps) as Hps.
  { intros r (p & -> & Hp)%list_elem_of_fmap. done. }
  case_bool_decide; step; apply resolveCovered_ok;
    (eapply (push_ok s _ _ ps); [done..|]);
    intros c r; rewrite !in_rulesets;
    cbn [recorded with_backend with_rules with_log with_envelopes configuredRules envelopeRules runRules rememberedRules];
    rewrite elem_of_app; specialize (Hps r); tauto.
Qed.

End operations.

(** ** Parking, leaving and closing *)

Lemma allocateRequest_run `{Backend} c tier meta ceiling s :
  let e := mkPending (request_name (nextRequestId s)) c tier meta ceiling (length (deferreds s)) in
  allocateRequest c tier meta ceiling s =
  (inr e, with_pending (map_set (e_requestId e) e (pending s))
            (with_deferreds (deferreds s ++ [None]) (with_next (nextRequestId s + 1) s))).
Proof. done. Qed.

Lemma nextId_run `{Backend} s : nextId s = (inr (request_name (nextRequestId s)), with_next (nextRequestId s + 1) s).
Proof. done. Qed.

Lemma request_name_inj n m : request_name n = request_name m → n = m.
Proof. unfold request_name. intros H. simplify_eq. by apply (inj pretty). Qed.

Section system_steps.
Context {K : Backend} (s0 : Store).

Lemma next_ok fs s : sys_ok s0 (mkSystem s fs) → sys_ok s0 (mkSystem (with_next (nextRequestId s + 1) s) fs).
Proof.
  intros [H1 H2 H3 H4 H5 H6 H7 H8 H9 H10 H11 H12]. cbn [store fibers] in *.
  constructor; cbn [store fibers]; try done.
  intros f (n & Hn & E)%H4. exists n. split; [cbn; lia|done].
Qed.

(** A parked fiber is a new one with a fresh name. *)
Lemma park_ok fs s c tier meta ceiling :
  let e := mkPending (request_name (nextRequestId s)) c tier meta ceiling (length (deferreds s)) in
  sys_ok s0 (mkSystem s fs) → closed s = false →
  allows ceiling c = true → configured_effect (configuredRules s0) c ≠ Deny →
  sys_ok s0 (mkSystem (snd (allocateRequest c tier meta ceiling s)) (fs ++ [mkFiber e Waiting])).
Proof.
  intros e [H1 H2 H3 H4 H5 H6 H7 H8 H9 H10 H11 H12] Hcl Hal Hcf. rewrite allocateRequest_run.
  cbn [store fibers snd] in *.
  assert (∀ f, f ∈ fs → e_requestId (f_entry f) ≠ e_requestId e) as Hfresh.
  { intros f (n & Hn & E)%H4. rewrite E. cbn. intros ?%request_name_inj. lia. }
  assert (e_requestId e ∉ (pending s).*1) as Hkey.
  { intros ([k e'] & Ek & Hin)%list_elem_of_fmap. cbn in Ek. subst k.
    destruct (H7 _ _ Hin) as (Hk & _ & f & Hf & <-).
    apply list_elem_of_lookup_2 in Hf. by destruct (Hfresh f Hf). }
  cbn [e_requestId] in Hkey. rewrite map_set_fresh by done.
  assert (∀ i f, (fs ++ [mkFiber e Waiting]) !! i = Some f →
    fs !! i = Some f ∧ i < length fs ∨ i = length fs ∧ f = mkFiber e Waiting) as Hcases.
  { intros i f [Hf|[Hle Hf]]%lookup_app_Some; [left; split; [done|by eapply lookup_lt_Some]|right].
    apply list_lookup_singleton_Some in Hf as [Hi <-]. split; [lia|done]. }
  assert (∀ f, f ∈ fs ++ [mkFiber e Waiting] → f ∈ fs ∨ f = mkFiber e Waiting) as Hin.
  { intros f. by rewrite elem_of_app, list_elem_of_singleton. }
  constructor; cbn [store fibers with_pending with_deferreds with_next configuredRules deferreds
    nextRequestId pending closed].
  - done.
  - rewrite !length_app. cbn. lia.
  - intros i f [[Hf _]|[-> ->]]%Hcases; [by apply H3|cbn; lia].
  - intros f [Hf| ->]%Hin; [|exists (nextRequestId s); split; [lia|done]].
    destruct (H4 f Hf) as (n & Hn & E). exists n. split; [lia|done].
  - rewrite fmap_app. apply NoDup_app. split_and!; [done| |apply NoDup_singleton].
    intros x (f & -> & Hf)%list_elem_of_fmap E%list_elem_of_singleton. by apply (Hfresh f Hf).
  - intros f [Hf| ->]%Hin; [by apply H6|done].
  - intros k e' [Hp|[= -> ->]%list_elem_of_singleton]%elem_of_app.
    + destruct (H7 _ _ Hp) as (Hk & Hd & f & Hf & Hfe). split_and!; [done| |exists f; split; [|done]];
        by apply lookup_app_l_Some.
    + split_and!; [done| |exists (mkFiber e Waiting); split; [|done]]; cbn;
        rewrite lookup_app_r by lia.
      * by rewrite Nat.sub_diag.
      * by rewrite H2, Nat.sub_diag.
  - rewrite fmap_app. apply NoDup_app. split_and!; [done| |apply NoDup_singleton].
    intros x Hx ->%list_elem_of_singleton. done.
  - intros i f [[Hf Hi]|[-> ->]]%Hcases Hw Hd; apply elem_of_app; [left|right; by left].
    rewrite lookup_app_l in Hd by lia. by apply (H9 i).
  - intros i f [[Hf Hi]|[-> ->]]%Hcases Hg.
    + eapply H10; [exact Hf|]. destruct Hg as [Hg|Hg]; [left|by right].
      apply lookup_app_Some in Hg as [Hg|[Hge _]]; [done|]. lia.
    + destruct Hg as [Hg|Hg]; [|done]. rewrite <-H2 in Hg.
      apply lookup_app_Some in Hg as [Hg%lookup_lt_Some|[_ Hg]];
        [lia|by rewrite Nat.sub_diag in Hg].
  - intros Hc. congruence.
  - done.
Qed.

(** A fiber moves on without its entry. *)
Lemma phase_ok fs s i f p :
  sys_ok s0 (mkSystem s fs) → fs !! i = Some f → p ≠ Waiting →
  (p = Leaving Granted → justified s0 s (f_entry f)) →
  sys_ok s0 (mkSystem s (<[i := mkFiber (f_entry f) p]> fs)).
Proof.
  intros [H1 H2 H3 H4 H5 H6 H7 H8 H9 H10 H11 H12] Hf Hp Hj. cbn [store fibers] in *.
  assert (∀ j g, <[i := mkFiber (f_entry f) p]> fs !! j = Some g →
    j = i ∧ g = mkFiber (f_entry f) p ∨ j ≠ i ∧ fs !! j = Some g) as Hcases.
  { intros j g. destruct (decide (j = i)) as [->|Hne]; [|rewrite list_lookup_insert_ne by done; auto].
    rewrite list_lookup_insert_eq by (by eapply lookup_lt_Some). intros [= <-]. auto. }
  assert (∀ g, g ∈ <[i := mkFiber (f_entry f) p]> fs → ∃ g', g' ∈ fs ∧ f_entry g = f_entry g') as Hin.
  { intros g [j [[-> ->]|[_ Hg]]%Hcases]%list_elem_of_lookup; eauto using list_elem_of_lookup_2. }
  constructor; cbn [store fibers]; rewrite ?length_insert; try done.
  - intros j g [[-> ->]|[_ Hg]]%Hcases; [exact (H3 _ _ Hf)|exact (H3 _ _ Hg)].
  - intros g (g' & Hg' & ->)%Hin. by apply H4.
  - rewrite list_fmap_insert, list_insert_id; [done|]. by rewrite list_lookup_fmap, Hf.
  - intros g (g' & Hg' & ->)%Hin. by apply H6.
  - intros k e Hke. destruct (H7 _ _ Hke) as (Hk & Hd & g & Hg & Hge). split_and!; [done..|].
    destruct (decide (e_deferred e = i)) as [Ei|Hne].
    + exists (mkFiber (f_entry f) p). rewrite Ei, list_lookup_insert_eq by (by eapply lookup_lt_Some).
      split; [done|]. cbn. rewrite Ei in Hg. naive_solver.
    + exists g. by rewrite list_lookup_insert_ne.
  - intros j g [[-> ->]|[_ Hg]]%Hcases; [by intros Hw|by apply H9].
  - intros j g [[-> ->]|[_ Hg]]%Hcases; [|by apply H10]. cbn.
    intros [Hd|Hpg]; [eapply H10; eauto|auto].
Qed.

Lemma delete_ok fs s i f :
  sys_ok s0 (mkSystem s fs) → fs !! i = Some f → f_phase f ≠ Waiting →
  sys_ok s0 (mkSystem (with_pending (map_delete (e_requestId (f_entry f)) (pending s)) s) fs).
Proof.
  intros [H1 H2 H3 H4 H5 H6 H7 H8 H9 H10 H11 H12] Hf Hp. cbn [store fibers] in *.
  constructor; cbn [store fibers with_pending configuredRules deferreds nextRequestId pending closed]; try done.
  - intros k e [Hin _]%in_delete. by apply H7.
  - by apply delete_nodup.
  - intros j g Hg Hw Hd. apply in_delete. split; [by apply (H9 j)|].
    intros E. assert (j = i) as ->; [|naive_solver].
    eapply (NoDup_lookup _ _ _ _ H5); rewrite list_lookup_fmap; [rewrite Hg|rewrite Hf]; cbn; [done|].
    by rewrite <-E.
  - intros Hc. by rewrite (H11 Hc).
Qed.

Lemma complete_cases d r s :
  deferreds s !! d = Some None ∧ snd (complete d r s) = with_deferreds (<[d := Some r]> (deferreds s)) s ∨
  deferreds s !! d ≠ Some None ∧ snd (complete d r s) = s.
Proof. cbn. destruct (deferreds s !! d) as [[]|]; auto. Qed.

(** The completions of [close]. *)
Definition deny_all (l : list (string * PendingEntry)) (s : Store) : Store :=
  fold_left (λ s kv, snd (complete (e_deferred kv.2)
    (Failed (mkDenied (e_capability kv.2) "grant store closed")) s)) l s.

Lemma close_run s : close s = (inr tt, deny_all (pending s) (with_pending [] (with_closed true s))).
Proof.
  unfold close. step. step. step.
  assert (∀ l s, ∃ l', for_each (λ kv : string * PendingEntry, complete (e_deferred kv.2)
    (Failed (mkDenied (e_capability kv.2) "grant store closed"))) l s = (inr l', deny_all l s)) as H.
  { induction l as [|kv l IH]; intros t; cbn [for_each]; [by exists []|].
    step. destruct (IH (snd (complete (e_deferred kv.2)
      (Failed (mkDenied (e_capability kv.2) "grant store closed")) t))) as [l' El].
    step_by El. eexists. done. }
  cbn [with_closed pending]. edestruct (H (pending s)) as [l' ->%bind_run]. done.
Qed.

Lemma deny_all_spec l s :
  configuredRules (deny_all l s) = configuredRules s ∧ nextRequestId (deny_all l s) = nextRequestId s ∧
  pending (deny_all l s) = pending s ∧ closed (deny_all l s) = closed s ∧ log (deny_all l s) = log s ∧
  (∀ c, rulesets (deny_all l s) c = rulesets s c) ∧
  length (deferreds (deny_all l s)) = length (deferreds s) ∧
  ∀ d, deferreds (deny_all l s) !! d = deferreds s !! d ∧
         (deferreds s !! d = Some None → d ∉ (λ kv, e_deferred kv.2) <$> l) ∨
       ∃ dn, pd_reason dn = "grant store closed" ∧ deferreds s !! d = Some None ∧
             deferreds (deny_all l s) !! d = Some (Some (Failed dn)).
Proof.
  revert s. induction l as [|kv l IH]; intros s.
  { split_and!; try done. intros d. left. split; [done|]. intros _. apply not_elem_of_nil. }
  set (dn := mkDenied (e_capability kv.2) "grant store closed").
  change (deny_all (kv :: l) s) with (deny_all l (snd (complete (e_deferred kv.2) (Failed dn) s))).
  destruct (complete_cases (e_deferred kv.2) (Failed dn) s) as [[Hn ->]|[Hn ->]].
  - match goal with
    | |- context [deny_all l ?t] => destruct (IH t) as (E1 & E2 & E3 & E4 & E5 & E6 & E7 & E8)
    end.
    rewrite E1, E2, E3, E4, E5, E7.
    cbn [with_deferreds deferreds configuredRules nextRequestId pending closed log] in *.
    rewrite length_insert. split_and!; try done. intros d. specialize (E8 d).
    destruct (decide (d = e_deferred kv.2)) as [->|Hne].
    + right. exists dn. rewrite list_lookup_insert_eq in E8 by (by eapply lookup_lt_Some).
      destruct E8 as [[E8 _]|(dn' & _ & E8 & _)]; [done|done].
    + rewrite list_lookup_insert_ne in E8 by done. destruct E8 as [[E8 Hd]|E8]; [left|by right].
      split; [done|]. intros Hd'. apply not_elem_of_cons. auto.
  - destruct (IH s) as (E1 & E2 & E3 & E4 & E5 & E6 & E7 & E8). split_and!; try done.
    intros d. destruct (E8 d) as [[Hd Hl]|Hd]; [left|by right].
    split; [done|]. intros Hd'. apply not_elem_of_cons. split; [|auto]. intros ->. done.
Qed.

Lemma close_ok fs s : sys_ok s0 (mkSystem s fs) → sys_ok s0 (mkSystem (snd (close s)) fs).
Proof.
  intros [H1 H2 H3 H4 H5 H6 H7 H8 H9 H10 H11 H12]. rewrite close_run. cbn [store fibers snd] in *.
  destruct (deny_all_spec (pending s) (with_pending [] (with_closed true s)))
    as (E1 & E2 & E3 & E4 & E5 & E6 & E7 & E8).
  cbn [with_pending with_closed configuredRules nextRequestId pending closed log deferreds] in *.
  constructor; cbn [store fibers]; rewrite ?E1, ?E2, ?E3, ?E4, ?E7; try done.
  - intros k e ?%not_elem_of_nil. done.
  - apply NoDup_nil_2.
  - intros i f Hf Hw Hd. exfalso. destruct (E8 i) as [[Ed Hl]|(dn & _ & _ & Ed)];
      [|by rewrite Ed in Hd].
    rewrite Ed in Hd. apply (Hl Hd). apply list_elem_of_fmap.
    exists (e_requestId (f_entry f), f_entry f). split; [symmetry; by apply H3|by eapply H9].
  - intros i f Hf Hg. eapply justified_log; [|eapply (H10 i f Hf)].
    + by rewrite E5.
    + destruct Hg as [Hg|]; [left|by right]. destruct (E8 i) as [[Ed _]|(dn & _ & _ & Ed)];
        [by rewrite <-Ed|by rewrite Ed in Hg].
  - intros c r. rewrite E6. intros Hr. eapply backed_log; [|by apply H12]. by rewrite E5.
Qed.

End system_steps.
