(* ===== verification/GrantTheorems.v ===== *)
(** * What the grant store guarantees

    Theorems over every sequence of steps of a system of fibers ([performs]), from
    a store [make] returned. *)

From S2P Require Import Prelude Json Capability CapabilitySet Permission GrantStore GrantSystem GrantProps.
#[local] Open Scope me_scope.

Section reachable.
Context `{JsonText} {K : Backend} (options : MakeOptions) (workspaceRoot : string).

(** ** The invariant holds of every reachable state *)

Lemma check_ok s0 fs ceiling c meta s :
  sys_ok s0 (mkSystem s fs) →
  sys_ok s0 (snd (perform options workspaceRoot (Check ceiling c meta) (mkSystem s fs))).
Proof.
  intros Hok. cbn [perform store fibers]. unfold check. step. cbn [id].
  destruct (closed s) eqn:Hcl; [done|].
  destruct (allows ceiling c) eqn:Hal; [|done]. cbn [negb].
  destruct (evaluate (rulesets s c) c) eqn:Hev; [done..|].
  destruct (default true (o_attended options)).
  - step_by (allocateRequest_run c (tierOf c workspaceRoot) meta ceiling s).
    cbn [ret snd]. apply (park_ok s0 fs s c (tierOf c workspaceRoot) meta ceiling); [done..|].
    rewrite <-(ok_configured _ _ Hok). cbn [store]. intros Hd.
    by rewrite (evaluate_veto (configuredRules s) _ c Hd : evaluate (rulesets s c) c = Deny) in Hev.
  - step_by (nextId_run s). by apply next_ok.
Qed.

Lemma perform_ok s0 o sys : sys_ok s0 sys → sys_ok s0 (snd (perform options workspaceRoot o sys)).
Proof.
  destruct sys as [s fs]. intros Hok.
  destruct o as [ceiling c meta|hook id res sup|hook eo| | |i|i|i|f]; [by apply check_ok|..]; cbn [perform];
    unfold serve; cbn [store fibers].
  - pose proof (reply_ok options workspaceRoot s0 fs hook id res sup s Hok). by destruct (reply _ _ _ _ _ _ s).
  - pose proof (grantEnvelope_ok options workspaceRoot s0 fs hook eo s Hok).
    by destruct (grantEnvelope _ _ _ _ s).
  - done.
  - pose proof (close_ok s0 fs s Hok). by destruct (close s).
  - destruct (fs !! i) as [f|] eqn:Hf; [|done].
    destruct (f_phase f) eqn:Hp; [|done..].
    destruct (deferreds s !! e_deferred (f_entry f)) as [[r|]|] eqn:Hd; [|done..].
    apply (phase_ok s0 fs s i f); [done..|]. intros [= Hx]. apply (ok_granted _ _ Hok i f Hf).
    left. cbn [store]. rewrite (ok_index _ _ Hok i f Hf) in Hd. by destruct r.
  - destruct (fs !! i) as [f|] eqn:Hf; [|done]. destruct (f_phase f) eqn:Hp; [|done..].
    by apply (phase_ok s0 fs s i f).
  - destruct (fs !! i) as [f|] eqn:Hf; [|done]. destruct (f_phase f) eqn:Hp; [done| |done].
    apply (phase_ok s0 fs _ i f); [|done..]. apply (delete_ok s0 fs s i f); [done..|]. by rewrite Hp.
  - by apply backend_ok.
Qed.

Lemma performs_ok s0 ops sys : sys_ok s0 sys → sys_ok s0 (performs options workspaceRoot ops sys).
Proof.
  revert sys. induction ops as [|o ops IH]; intros sys Hok; [done|]. by apply IH, perform_ok.
Qed.

Lemma construct_fields hook s r s' :
  construct_envelope options workspaceRoot hook s = (r, s') →
  pending s' = pending s ∧ deferreds s' = deferreds s ∧ closed s' = closed s.
Proof.
  unfold construct_envelope. destruct (o_envelope options) as [o|]; [|by intros [= _ <-]].
  case_bool_decide; [by intros [= _ <-]|]. cbv zeta. destruct (negb _); [by intros [= _ <-]|].
  step. cbn [id]. unfold activate_envelope, push_remembered, push_envelope.
  case_bool_decide; [step|].
  - case_bool_decide; by intros [= _ <-].
  - unfold bind. rewrite persist_run. destruct (hook _ _) as [[err|] m]; [by intros [= _ <-]|].
    case_bool_decide; by intros [= _ <-].
Qed.

Lemma make_ok hook ceiling s0 m m' :
  make options workspaceRoot hook ceiling m = (inr s0, m') → sys_ok s0 (mkSystem s0 []).
Proof.
  unfold make. cbv zeta. destruct (allows_unsafe _ _ || _); [done|].
  destruct (construct_envelope _ _ _ _) as [[e|u] s'] eqn:Ec; [done|]. intros [= -> _].
  apply construct_fields in Ec as (Hp & Hd & Hcl).
  assert (pending s0 = [] ∧ deferreds s0 = [] ∧ closed s0 = false) as (Ep & Ed & Ecl).
  { rewrite Hp, Hd, Hcl. unfold initial_store. by destruct (normalizeRules _). }
  constructor; cbn [store fibers]; rewrite ?Ep, ?Ed; try done.
  - intros f ?%not_elem_of_nil. done.
  - apply NoDup_nil_2.
  - intros f ?%not_elem_of_nil. done.
  - intros k e ?%not_elem_of_nil. done.
  - apply NoDup_nil_2.
  - intros c r Hr. by left.
Qed.

(** A reachable system. *)
Definition reachable (s0 : Store) (sys : System) : Prop :=
  ∃ hook ceiling ops m, fst (make options workspaceRoot hook ceiling m) = inr s0 ∧
    sys = performs options workspaceRoot ops (mkSystem s0 []).

Lemma reachable_ok s0 sys : reachable s0 sys → sys_ok s0 sys.
Proof.
  intros (hook & ceiling & ops & m & Hm & ->). apply performs_ok.
  destruct (make _ _ _ _ m) as [r m'] eqn:E. cbn in Hm. subst. by eapply make_ok.
Qed.

(** ** Authority *)

(** The ceiling and the capability an answer grants, and the request it answers. *)
Definition granted (a : Answer) : option (CapabilitySet * Capability) :=
  match a with
  | Settled ceiling c (inr _) => Some (ceiling, c)
  | Exited e Granted => Some (e_ceiling e, e_capability e)
  | _ => None
  end.

Definition request_of (a : Answer) : option string :=
  match a with Exited e _ => Some (e_requestId e) | _ => None end.

(** C4. Nothing is granted without authority: whenever a [check] ends with
    success, at once or after a reply, the capability is within the ceiling the
    fiber had, the configured policy does not reduce to a denial of it, and either
    an allow rule selects it that was configured or that an event already recorded
    granted, or the event that answers this very request once is recorded. *)
Theorem granted_has_authority s0 sys o ceiling c :
  reachable s0 sys →
  let answer := fst (perform options workspaceRoot o sys) in
  let s' := store (snd (perform options workspaceRoot o sys)) in
  granted answer = Some (ceiling, c) →
  allows ceiling c = true ∧ configured_effect (configuredRules s0) c ≠ Deny ∧
  (authorised s0 s' c ∨
   ∃ requestId, request_of answer = Some requestId ∧ once_logged s' requestId c).
Proof.
  intros Hok%reachable_ok. cbv zeta. destruct sys as [s fs].
  destruct o as [ceil c' meta|hook id res sup|hook eo| | |i|i|i|f]; cbn [perform]; unfold serve; cbn [store fibers].
  - unfold check. step. cbn [id]. destruct (closed s); [done|].
    destruct (allows ceil c') eqn:Hal; [|done]. cbn [negb].
    destruct (evaluate (rulesets s c') c') eqn:Hev.
    + cbn. intros [= <- <-]. split_and!; [done| |left].
      * rewrite <-(ok_configured _ _ Hok). cbn [store]. intros Hd.
        by rewrite (evaluate_veto (configuredRules s) _ c' Hd : evaluate (rulesets s c') c' = Deny) in Hev.
      * apply evaluate_allow in Hev as (r & Hr & Ha & Hm). exists r.
        split; [by apply (ok_rules _ _ Hok)|done].
    + done.
    + destruct (default true (o_attended options)); [|done].
      step_by (allocateRequest_run c' (tierOf c' workspaceRoot) meta ceil s). done.
  - by destruct (reply _ _ _ _ _ _ s).
  - by destruct (grantEnvelope _ _ _ _ s).
  - done.
  - by destruct (close s).
  - destruct (fs !! i) as [f|]; [|done]. destruct (f_phase f); try done.
    by destruct (deferreds s !! e_deferred (f_entry f)) as [[]|].
  - destruct (fs !! i) as [f|]; [|done]. by destruct (f_phase f).
  - destruct (fs !! i) as [f|] eqn:Hf; [|done]. destruct (f_phase f) as [|x|] eqn:Hp; [done| |done].
    cbn. destruct x; [|done..]. intros [= <- <-].
    destruct (ok_asked _ _ Hok f) as [Ha Hc]; [by apply list_elem_of_lookup_2 in Hf|].
    destruct (ok_granted _ _ Hok i f Hf) as [Ho|Ho]; [by right| |]; split_and!; try done.
    + right. by exists (e_requestId (f_entry f)).
    + by left.
  - done.
Qed.

(** ** Waiters *)

Lemma assoc_of_in {A} k (v : A) m : NoDup m.*1 → (k, v) ∈ m → assoc k m = Some v.
Proof.
  induction m as [|[k' v'] m IH]; cbn; [by intros _ ?%not_elem_of_nil|].
  intros [Hk Hm]%NoDup_cons [[= -> ->]|Hin]%elem_of_cons; [by rewrite bool_decide_eq_true_2|].
  rewrite bool_decide_eq_false_2; [by apply IH|]. intros ->. apply Hk.
  by apply (list_elem_of_fmap_2 fst) in Hin.
Qed.

(** C38. No waiter is lost: in every reachable state a fiber that waits either
    can be answered, its request being listed in a store that is still open, or is
    released already, and its next step leaves with what its [Deferred] holds.  In
    particular closing the store releases every waiter. *)
Theorem no_waiter_is_lost s0 sys i f :
  reachable s0 sys → fibers sys !! i = Some f → f_phase f = Waiting →
  closed (store sys) = false ∧ assoc (e_requestId (f_entry f)) (pending (store sys)) = Some (f_entry f) ∨
  ∃ r, deferreds (store sys) !! i = Some (Some r) ∧
    fibers (snd (perform options workspaceRoot (Wake i) sys)) !! i =
    Some (mkFiber (f_entry f) (Leaving (exit_of r))).
Proof.
  intros Hok%reachable_ok Hf Hw.
  destruct (deferreds (store sys) !! i) as [[r|]|] eqn:Hd.
  - right. exists r. split; [done|]. cbn [perform]. rewrite Hf, Hw, (ok_index _ _ Hok i f Hf), Hd. cbn.
    by rewrite list_lookup_insert_eq by (by eapply lookup_lt_Some).
  - left. pose proof (ok_waiting _ _ Hok i f Hf Hw Hd) as Hin. split.
    + destruct (closed (store sys)) eqn:Hc; [|done]. rewrite (ok_closed _ _ Hok Hc) in Hin.
      by apply not_elem_of_nil in Hin.
    + by apply assoc_of_in; [apply (ok_keys _ _ Hok)|].
  - apply lookup_ge_None in Hd. rewrite (ok_length _ _ Hok) in Hd. apply lookup_lt_Some in Hf. lia.
Qed.

(** ** Replies *)

(** What is completed stays; what is pending and covered gets completed. *)
Lemma resolve_all_keeps l s d r :
  deferreds s !! d = Some (Some r) → deferreds (resolve_all l s) !! d = Some (Some r).
Proof.
  revert s. induction l as [|kv l IH]; intros s Hd; [done|]. cbn. apply IH.
  destruct (covered s kv.2); [|done]. unfold settle.
  destruct (complete_cases (e_deferred kv.2) Succeeded s) as [[Hn ->]|[_ ->]]; [|done].
  cbn. rewrite list_lookup_insert_ne; [done|]. intros E. rewrite E in Hn. congruence.
Qed.

Lemma resolve_all_pending l s kv : kv ∈ pending (resolve_all l s) → kv ∈ pending s.
Proof.
  revert s. induction l as [|kv' l IH]; intros s; [done|]. cbn. intros Hin%IH.
  destruct (covered s kv'.2); [|done]. destruct kv as [k v]. by apply in_delete in Hin as [? _].
Qed.

Lemma covered_settle s kv r e : covered (settle kv r s) e = covered s e.
Proof. unfold covered. by rewrite settle_rulesets. Qed.

Lemma resolve_all_covers l s k e :
  (k, e) ∈ l → covered s e = true →
  deferreds s !! e_deferred e = Some None ∨ deferreds s !! e_deferred e = Some (Some Succeeded) →
  deferreds (resolve_all l s) !! e_deferred e = Some (Some Succeeded) ∧
  (∀ e', (k, e') ∉ pending (resolve_all l s)).
Proof.
  revert s. induction l as [|kv l IH]; intros s; [by intros ?%not_elem_of_nil|].
  intros Hin Hc Hd. cbn.
  assert (∀ kv, deferreds (settle kv Succeeded s) !! e_deferred e = Some None ∨
               deferreds (settle kv Succeeded s) !! e_deferred e = Some (Some Succeeded)) as Hstep.
  { intros kv'. unfold settle.
    destruct (complete_cases (e_deferred kv'.2) Succeeded s) as [[Hn ->]|[_ ->]]; [|done]. cbn.
    destruct (decide (e_deferred e = e_deferred kv'.2)) as [->|Hne].
    - right. by rewrite list_lookup_insert_eq by (by eapply lookup_lt_Some).
    - by rewrite list_lookup_insert_ne. }
  apply elem_of_cons in Hin as [<-|Hin].
  - cbn. rewrite Hc. split.
    + apply resolve_all_keeps. unfold settle.
      destruct (complete_cases (e_deferred (k, e).2) Succeeded s) as [[Hn ->]|[Hn ->]]; cbn.
      * by rewrite list_lookup_insert_eq by (by eapply lookup_lt_Some).
      * by destruct Hd.
    + intros e' [_ Hne]%resolve_all_pending%in_delete. done.
  - apply IH; [done| |].
    + destruct (covered s kv.2); [by rewrite covered_settle|done].
    + by destruct (covered s kv.2).
Qed.

(** Rules that only allow leave an allowing verdict. *)
Lemma allow_rules_keep c rs :
  (∀ r, r ∈ rs → matches (pattern r) c = true → effect r = Allow) →
  fold_left (apply_rule c) rs Allow = Allow.
Proof.
  induction rs as [|r rs IH]; intros Hrs; [done|]. cbn. unfold apply_rule at 2.
  assert ((if matches (pattern r) c then effect r else Allow) = Allow) as ->.
  { destruct (matches (pattern r) c) eqn:Hm; [|done]. by apply Hrs; [left|]. }
  apply IH. intros r' Hr'. apply Hrs. by right.
Qed.

Lemma apply_allow c p eff : matches p c = true → apply_rule c eff (mkRule Allow p) = Allow.
Proof. unfold apply_rule. cbn. by intros ->. Qed.

Lemma valid_matches p c tier root : isValidGrantPattern p c tier root = true → matches p c = true.
Proof. unfold isValidGrantPattern. destruct (matches p c); [done|]. by rewrite orb_true_r. Qed.

(** A pushed run rule decides, unless a remembered rule disagrees. *)
Lemma run_rule_covers s e p :
  configured_effect (configuredRules s) (e_capability e) ≠ Deny →
  allows (e_ceiling e) (e_capability e) = true → matches p (e_capability e) = true →
  (∀ r, r ∈ rememberedRules s → matches (pattern r) (e_capability e) = true → effect r = Allow) →
  covered (with_rules (envelopeRules s) (rememberedRules s)
    (runRules s ++ [(mkRule Allow p, e_ceiling e)]) s) e = true.
Proof.
  intros Hc Ha Hm Hr. unfold covered. rewrite Ha. apply bool_decide_eq_true.
  unfold rulesets. rewrite evaluate_spec by done. cbn [with_rules envelopeRules runRules rememberedRules concat].
  rewrite app_nil_r, List.filter_app. cbn [List.filter snd]. rewrite Ha.
  rewrite fmap_app, !fold_left_app. cbn [fmap list_fmap fst fold_left].
  rewrite apply_allow by done. by apply allow_rules_keep.
Qed.

Lemma remembered_rule_covers s e p :
  configured_effect (configuredRules s) (e_capability e) ≠ Deny →
  allows (e_ceiling e) (e_capability e) = true → matches p (e_capability e) = true →
  covered (with_rules (envelopeRules s) (rememberedRules s ++ [mkRule Allow p]) (runRules s) s) e = true.
Proof.
  intros Hc Ha Hm. unfold covered. rewrite Ha. apply bool_decide_eq_true.
  unfold rulesets. rewrite evaluate_spec by done. cbn [with_rules envelopeRules runRules rememberedRules concat].
  rewrite app_nil_r, !fold_left_app. cbn [fold_left]. by apply apply_allow.
Qed.

(** The completion a request ends with, and that it is no longer listed. *)
Definition answered (s : Store) (e : PendingEntry) (r : Completion) : Prop :=
  deferreds s !! e_deferred e = Some (Some r) ∧ ∀ e', (e_requestId e, e') ∉ pending s.

Lemma settle_answers s e r :
  deferreds s !! e_deferred e = Some None → answered (settle (e_requestId e, e) r s) e r.
Proof.
  intros Hd. split.
  - rewrite (settle_deferreds (_, e)) by done. cbn. by rewrite list_lookup_insert_eq by (by eapply lookup_lt_Some).
  - intros e' [_ Hne]%in_delete. done.
Qed.

(** What a reply to a pending request runs. *)
Lemma reply_open hook requestId supplied s e :
  closed s = false → assoc requestId (pending s) = Some e →
  let exact := exactPattern (e_capability e) in
  reply options workspaceRoot hook requestId "once" supplied s = reply_once options hook requestId e exact s ∧
  reply options workspaceRoot hook requestId "deny" supplied s = reply_deny options hook requestId e exact s ∧
  reply options workspaceRoot hook requestId "run" supplied s =
    reply_run options workspaceRoot hook requestId e (default exact supplied) s ∧
  reply options workspaceRoot hook requestId "remembered" supplied s =
    reply_remembered options workspaceRoot hook requestId e (default exact supplied) s.
Proof. intros Hcl Ha. unfold reply. split_and!; step; cbn [id]; by rewrite Hcl, Ha. Qed.

(** A recorded reply answers its request: when the store is open, the request
    is pending and the event is recorded, [once] grants it, [deny] refuses it, and
    a [run] or [remembered] reply with a valid pattern grants it too, in the run
    case as long as no remembered rule decides otherwise. *)
Theorem reply_answers s0 sys hook requestId e supplied :
  reachable s0 sys → closed (store sys) = false → assoc requestId (pending (store sys)) = Some e →
  (∀ ev m, fst (hook ev m) = None) →
  let after resolution := snd (reply options workspaceRoot hook requestId resolution supplied (store sys)) in
  let valid := isValidGrantPattern (default (exactPattern (e_capability e)) supplied)
                 (e_capability e) (e_tier e) workspaceRoot in
  answered (after "once") e Succeeded ∧
  answered (after "deny") e (Failed (mkDenied (e_capability e) "permission request denied")) ∧
  (valid = true → answered (after "remembered") e Succeeded) ∧
  (valid = true → default "" (o_planDigest options) ≠ "" →
   (∀ r, r ∈ rememberedRules (store sys) → matches (pattern r) (e_capability e) = true → effect r = Allow) →
   answered (after "run") e Succeeded).
Proof.
  intros Hok%reachable_ok Hcl Ha Hhook. cbv zeta.
  pose proof (assoc_in _ _ _ Ha) as Hin.
  destruct (ok_pending _ _ Hok _ _ Hin) as (-> & Hd & f & Hf & Hfe).
  destruct (ok_asked _ _ Hok f) as [Hal Hcf]; [by apply list_elem_of_lookup_2 in Hf|]. rewrite Hfe in *.
  rewrite <-(ok_configured _ _ Hok) in Hcf. set (s := store sys) in *.
  destruct (reply_open hook _ supplied s e Hcl Ha) as (-> & -> & -> & ->).
  split_and!; intros.
  - unfold reply_once. rewrite persist_taken, complete_delete_run by done. by apply settle_answers.
  - unfold reply_deny. rewrite persist_taken, complete_delete_run by done. by apply settle_answers.
  - unfold reply_remembered. match goal with H : isValidGrantPattern _ _ _ _ = true |- _ => rewrite H; apply valid_matches in H end.
    cbn [negb]. rewrite persist_taken by done. unfold push_remembered. step. rewrite resolveCovered_run. cbn [snd].
    apply resolve_all_covers; [done| |by left]. by apply remembered_rule_covers.
  - unfold reply_run. destruct (o_planDigest options) as [[|x digest]|]; [done| |done].
    match goal with H : isValidGrantPattern _ _ _ _ = true |- _ => rewrite H; apply valid_matches in H end.
    cbn [negb]. rewrite persist_taken by done. unfold push_run_rule. step. rewrite resolveCovered_run. cbn [snd].
    apply resolve_all_covers; [done| |by left]. by apply run_rule_covers.
Qed.

(** Decisions fail closed: when the hook refuses the event, a reply is an
    error, and neither it nor an envelope changes anything of the store but what
    the hook itself did to its backend, whatever the state. *)
Theorem unrecorded_changes_nothing hook requestId resolution supplied o s :
  (∀ ev m, is_Some (fst (hook ev m))) →
  let '(r, s1) := reply options workspaceRoot hook requestId resolution supplied s in
  let '(_, s2) := grantEnvelope options workspaceRoot hook o s in
  (∃ e, r = inl e) ∧ (∃ m, s1 = with_backend m s) ∧ ∃ m, s2 = with_backend m s.
Proof.
  intros Hhook. assert (∃ m, s = with_backend m s) as Hsame by (exists (backend s); by destruct s).
  assert (∀ ev (k : SM ()), ∃ e m, (persist hook ev ;; k)%me s = (inl e, with_backend m s)) as Hp.
  { intros ev k. rewrite persist_then. specialize (Hhook ev (backend s)).
    destruct (hook ev (backend s)) as [f m], Hhook as [e [= ->]]. eauto. }
  assert (∃ e s1, reply options workspaceRoot hook requestId resolution supplied s = (inl e, s1) ∧
                  ∃ m, s1 = with_backend m s) as (e & s1 & -> & Hs1).
  { unfold reply. step. cbn [id]. destruct (closed s); [by eauto|].
    destruct (negb _); [by eauto|]. destruct (assoc _ _) as [e|]; [|by eauto]. cbv zeta.
    unfold reply_once, reply_run, reply_remembered, reply_deny.
    repeat case_bool_decide; repeat case_match; try by eauto.
    all: match goal with |- context [(persist _ ?ev ;; ?k)%me _] => destruct (Hp ev k) as (? & ? & ->) end; eauto. }
  assert (∃ m, snd (grantEnvelope options workspaceRoot hook o s) = with_backend m s) as Hs2.
  { unfold grantEnvelope. step. cbn [id]. cbv zeta. destruct (closed s); [done|].
    destruct (negb _); [done|]. do 2 (case_bool_decide; [done|]).
    match goal with |- context [(persist _ ?ev ;; ?k)%me _] => destruct (Hp ev k) as (? & ? & ->) end. eauto. }
  destruct (grantEnvelope _ _ _ _ s) as [r' s2]. cbn in Hs2. eauto.
Qed.

End reachable.

(** ** Concrete systems *)

#[local] Existing Instance no_backend.

Module GrantDemo.

Definition options : MakeOptions := mkOptions None None [] None [] (Some "run-1") (Some "plan-1").
Definition root : string := "/work".
Definition accepts_all : Hook := λ _ _, (None, tt).
Definition refuses_all : Hook := λ _ _, (Some (mkStoreError journal_failed None), tt).
Definition write_a : Capability := mkCapability FsWrite "/work/a".

Definition started (o : MakeOptions) : Store :=
  match make (H:=plain_json) o root accepts_all unrestricted tt with
  | (inr s, _) => s
  | (inl _, _) => initial_store o unrestricted tt
  end.
Definition start (o : MakeOptions) : System := mkSystem (started o) [].
Definition steps (o : MakeOptions) (ops : list Op) : System := performs (H:=plain_json) o root ops (start o).

Lemma steps_reachable o ops :
  fst (make (H:=plain_json) o root accepts_all unrestricted tt) = inr (started o) →
  reachable (H:=plain_json) o root (started o) (steps o ops).
Proof. intros Hm. by exists accepts_all, unrestricted, ops, tt. Qed.

(** A fiber asks to write; it parks as request 1. *)
Definition asking : System := steps options [Check unrestricted write_a JNull].
Definition entry : PendingEntry :=
  mkPending "permission-1" write_a Compensable JNull unrestricted 0.

(** The request is granted once and the fiber has woken. *)
Definition woken : System :=
  steps options [Check unrestricted write_a JNull; Reply accepts_all "permission-1" "once" None; Wake 0].

(** A ruleset after the configured one asks for every write. *)
Definition asks_again : MakeOptions :=
  mkOptions None (Some (NestedRules [[]; [mkRule Ask (mkPattern (Exactly FsWrite) "**")]])) [] None []
    (Some "run-1") (Some "plan-1").

End GrantDemo.

Lemma granted_has_authority_witness :
  let step := perform (H:=plain_json) GrantDemo.options GrantDemo.root (Cleanup 0) GrantDemo.woken in
  allows unrestricted GrantDemo.write_a = true ∧ configured_effect [] GrantDemo.write_a ≠ Deny ∧
  (authorised (GrantDemo.started GrantDemo.options) (store (snd step)) GrantDemo.write_a ∨
   ∃ requestId, request_of (fst step) = Some requestId ∧
     once_logged (store (snd step)) requestId GrantDemo.write_a).
Proof.
  refine (granted_has_authority (H:=plain_json) GrantDemo.options GrantDemo.root
    (GrantDemo.started GrantDemo.options) GrantDemo.woken (Cleanup 0) unrestricted GrantDemo.write_a _ _).
  - apply GrantDemo.steps_reachable. vm_compute. reflexivity.
  - vm_compute. reflexivity.
Defined.

Lemma no_waiter_is_lost_witness :
  closed (store GrantDemo.asking) = false ∧
    assoc "permission-1" (pending (store GrantDemo.asking)) = Some GrantDemo.entry ∨
  ∃ r, deferreds (store GrantDemo.asking) !! 0 = Some (Some r) ∧
    fibers (snd (perform (H:=plain_json) GrantDemo.options GrantDemo.root (Wake 0) GrantDemo.asking)) !! 0 =
    Some (mkFiber GrantDemo.entry (Leaving (exit_of r))).
Proof.
  apply (no_waiter_is_lost (H:=plain_json) GrantDemo.options GrantDemo.root
    (GrantDemo.started GrantDemo.options) GrantDemo.asking 0 (mkFiber GrantDemo.entry Waiting)).
  - apply GrantDemo.steps_reachable. vm_compute. reflexivity.
  - vm_compute. reflexivity.
  - reflexivity.
Defined.

Lemma reply_answers_witness :
  answered (snd (reply GrantDemo.options GrantDemo.root GrantDemo.accepts_all
    "permission-1" "once" None (store GrantDemo.asking))) GrantDemo.entry Succeeded.
Proof.
  refine (proj1 (reply_answers (H:=plain_json) GrantDemo.options GrantDemo.root
    (GrantDemo.started GrantDemo.options) GrantDemo.asking GrantDemo.accepts_all "permission-1"
    GrantDemo.entry None _ _ _ _)).
  - apply GrantDemo.steps_reachable. vm_compute. reflexivity.
  - vm_compute. reflexivity.
  - vm_compute. reflexivity.
  - intros ev m. reflexivity.
Defined.

Lemma unrecorded_changes_nothing_witness :
  ∃ e, fst (reply GrantDemo.options GrantDemo.root GrantDemo.refuses_all
    "permission-1" "remembered" None (store GrantDemo.asking)) = inl e.
Proof.
  pose proof (unrecorded_changes_nothing (H:=plain_json) GrantDemo.options GrantDemo.root
    GrantDemo.refuses_all "permission-1" "remembered" None (mkEnvelope "plan-1" [] None)
    (store GrantDemo.asking) (λ ev m, mk_is_Some _ _ eq_refl)) as Hu.
  destruct (reply _ _ _ _ _ _ _) as [r s1], (grantEnvelope _ _ _ _ _) as [r' s2].
  exact (proj1 Hu).
Defined.

(** A run grant over a later ruleset that asks is recorded and acknowledged, and
    its waiter is still pending and unresolved. *)
Lemma run_reply_can_leave_its_waiter :
  let '(r, s) := reply GrantDemo.asks_again GrantDemo.root GrantDemo.accepts_all
    "permission-1" "run" None
    (store (GrantDemo.steps GrantDemo.asks_again [Check unrestricted GrantDemo.write_a JNull])) in
  r = inr tt ∧ length (log s) = 1 ∧ is_Some (assoc "permission-1" (pending s)) ∧
  deferreds s !! 0 = Some None.
Proof. vm_compute. split_and!; eauto. Qed.
