(* ===== verification/GrantEnvelopes.v ===== *)
(** * Envelope approvals

    An envelope is a set of predicates: its signature does not depend on the order
    or the multiplicity of its patterns and tells any two other approvals apart,
    and an envelope that was granted is not recorded again. *)

From S2P Require Import Prelude Json Capability Texts CapabilityProps CapabilitySet Permission GrantStore GrantProps GrantPatterns.
#[local] Open Scope me_scope.

(** ** Identities *)

Lemma pattern_components a : ∃ x,
  ¬ has_unit ":" x ∧ (a = AnyAction ∧ x = "*" ∧ pattern_text a = x ∨
  a ≠ AnyAction ∧ x ≠ "*" ∧ ∃ y, pattern_text a = x +:+ String ":" y ∧ ¬ has_unit ":" y).
Proof.
  assert (∀ t, split_on ":" t = [t] → ¬ has_unit ":" t) as Hone.
  { intros t E. pose proof (split_on_free ":" t) as H. rewrite E in H. by apply Forall_cons in H as [? _]. }
  destruct a as [a| | | | | |];
    [|exists "fs"|exists "net"|exists "model"|exists "proc"|exists "jj"|by exists "*"; split; [apply Hone|left]].
  2-6: split; [by apply Hone|right; split_and!; [done..|]]; exists "*"; split; [done|by apply Hone].
  destruct (action_components a) as (x & y & E & Hx & Hy). exists x. split; [done|right].
  split_and!; [done| |by exists y]. intros ->. by destruct a.
Qed.

(** The rendering of a pattern identifies it. *)
Lemma format_pattern_inj p q : format_pattern p = format_pattern q → p = q.
Proof.
  destruct p as [a r], q as [b t]. unfold format_pattern, format. cbn [p_action p_resource].
  intros E. apply (f_equal (split_on ":")) in E.
  change (":" +:+ r) with (String ":" r) in E. change (":" +:+ t) with (String ":" t) in E.
  destruct (pattern_components a) as (x & Hx & [(-> & Ex & Ea)|(Ha & Hxs & y & Ea & Hy)]),
    (pattern_components b) as (z & Hz & [(-> & Ez & Eb)|(Hb & Hzs & w & Eb & Hw)]);
    rewrite ?Ea, ?Eb, ?string_app_assoc, ?app_cons_text in E; rewrite !split_on_app in E by done.
  - f_equal. injection E as E. by rewrite <-(join_split ":" r), E, join_split.
  - injection E as E _. congruence.
  - injection E as E _. congruence.
  - injection E as -> -> E.
    f_equal; [apply pattern_text_inj; congruence|].
    by rewrite <-(join_split ":" r), E, join_split.
Qed.

(** ** Canonical patterns *)

Lemma assoc_none {A} key (m : list (string * A)) : assoc key m = None ↔ key ∉ m.*1.
Proof.
  induction m as [|[k v] m IH]; cbn; [split; [intros _; apply not_elem_of_nil|done]|].
  rewrite not_elem_of_cons. case_bool_decide; [naive_solver|]. rewrite IH. naive_solver.
Qed.

Lemma byIdentity_spec ps :
  NoDup (byIdentity ps).*1 ∧ ∀ k p, (k, p) ∈ byIdentity ps ↔ k = format_pattern p ∧ p ∈ ps.
Proof.
  unfold byIdentity. induction ps as [|q ps [Hnd Hin]] using rev_ind.
  - split; [apply NoDup_nil_2|]. intros k p. cbn. rewrite !elem_of_nil. tauto.
  - rewrite fold_left_app. cbn [fold_left]. set (m := fold_left _ ps []) in *.
    destruct (assoc (format_pattern q) m) as [q'|] eqn:Ha.
    + apply assoc_in, Hin in Ha as [E%format_pattern_inj Hq]. subst q'. split; [done|].
      intros k p. rewrite Hin, elem_of_app, list_elem_of_singleton. naive_solver.
    + apply assoc_none in Ha. split.
      * rewrite fmap_app. apply NoDup_app. split_and!; [done| |apply NoDup_singleton].
        intros x Hx ->%list_elem_of_singleton. done.
      * intros k p. rewrite elem_of_app, list_elem_of_singleton, Hin, elem_of_app, list_elem_of_singleton.
        naive_solver.
Qed.

Lemma sorted_nodup_below {A} (cmp : A → A → Z) `{!Comparator cmp} l :
  StronglySorted (cmp_le cmp) l → NoDup l → StronglySorted (below cmp) l.
Proof.
  induction 1 as [|x l _ IH Hx]; intros Hnd; constructor; apply NoDup_cons in Hnd as [Hn Hnd]; [by apply IH|].
  rewrite Forall_forall in Hx |- *. intros y Hy. specialize (Hx y Hy). unfold below, cmp_le in *.
  assert (cmp x y ≠ 0%Z); [|lia]. intros E%cmp_zero. by subst.
Qed.

Definition identities (ps : list CapabilityPattern) : list string := sort_by compare_texts (byIdentity ps).*1.

Lemma identities_in ps k : k ∈ identities ps ↔ ∃ p, k = format_pattern p ∧ p ∈ ps.
Proof.
  unfold identities. rewrite sort_by_in, list_elem_of_fmap. destruct (byIdentity_spec ps) as [_ Hin]. split.
  - intros ([k' p] & -> & H%Hin). by exists p.
  - intros (p & -> & Hp). exists (format_pattern p, p). by rewrite Hin.
Qed.

Lemma identities_below ps : StronglySorted (below compare_texts) (identities ps).
Proof.
  apply sorted_nodup_below; [apply _|apply sort_by_sorted, _|].
  unfold identities, sort_by. rewrite merge_sort_Permutation. apply byIdentity_spec.
Qed.

(** Each canonical pattern is the one of its identity, in the order of identities. *)
Lemma canonical_formats ps : format_pattern <$> canonicalEnvelopePatterns ps = identities ps.
Proof.
  unfold canonicalEnvelopePatterns. cbv zeta. fold (identities ps).
  assert (∀ k, k ∈ identities ps → ∃ p, assoc k (byIdentity ps) = Some p ∧ format_pattern p = k) as H.
  { intros k (p & -> & Hp)%identities_in. destruct (byIdentity_spec ps) as [Hnd Hin].
    destruct (assoc (format_pattern p) (byIdentity ps)) as [q|] eqn:Ha.
    - exists q. split; [done|]. by apply assoc_in, Hin in Ha as [? _].
    - apply assoc_none in Ha. destruct Ha. apply (list_elem_of_fmap_2 fst _ (format_pattern p, p)).
      by apply Hin. }
  induction (identities ps) as [|k l IH]; [done|]. cbn.
  destruct (H k ltac:(by left)) as (p & -> & Hp). cbn. rewrite Hp. f_equal.
  apply IH. intros k' Hk'. apply H. by right.
Qed.

Lemma canonical_in ps p : p ∈ canonicalEnvelopePatterns ps ↔ p ∈ ps.
Proof.
  assert (format_pattern p ∈ format_pattern <$> canonicalEnvelopePatterns ps ↔
          p ∈ canonicalEnvelopePatterns ps) as <-.
  { rewrite list_elem_of_fmap. split; [|by exists p]. by intros (q & ->%format_pattern_inj & Hq). }
  rewrite canonical_formats, identities_in. split; [|by exists p].
  by intros (q & ->%format_pattern_inj & Hq).
Qed.

Lemma identities_same ps qs : (∀ p, p ∈ ps ↔ p ∈ qs) ↔ identities ps = identities qs.
Proof.
  split.
  - intros H. apply (below_unique compare_texts); [apply identities_below..|].
    intros k. rewrite !identities_in. naive_solver.
  - intros E p. rewrite <-(canonical_in ps), <-(canonical_in qs).
    assert (∀ l : list CapabilityPattern, p ∈ l ↔ format_pattern p ∈ format_pattern <$> l) as Hf.
    { intros l. rewrite list_elem_of_fmap. split; [by exists p|]. by intros (q & ->%format_pattern_inj & Hq). }
    by rewrite (Hf (canonicalEnvelopePatterns ps)), (Hf (canonicalEnvelopePatterns qs)), !canonical_formats, E.
Qed.

Section envelopes.
Context `{J : JsonText}.

Lemma stringify_inj v w : stringify v = stringify w → v = w.
Proof. intros E. apply (f_equal Json.parse) in E. rewrite !parse_stringify in E. by injection E. Qed.

Lemma signature_inj planDigest scope ps planDigest' scope' qs :
  envelopeSignature planDigest scope ps = envelopeSignature planDigest' scope' qs →
  planDigest = planDigest' ∧ scope = scope' ∧ ∀ p, p ∈ ps ↔ p ∈ qs.
Proof.
  assert (Inj (=) (=) JStr) as Hinj by (by intros a b [=]).
  unfold envelopeSignature. rewrite !canonical_formats.
  intros [= -> -> E%(inj (fmap (M:=list) JStr))]%stringify_inj. by rewrite identities_same.
Qed.

Lemma signature_same planDigest scope ps qs :
  (∀ p, p ∈ ps ↔ p ∈ qs) → envelopeSignature planDigest scope ps = envelopeSignature planDigest scope qs.
Proof. unfold envelopeSignature. rewrite !canonical_formats. by intros ->%identities_same. Qed.

(** A signature is exactly the identity of an approval: two envelopes have the
    same one when they bind the same plan and scope and list the same patterns, in
    whatever order and however often, and only then. *)
Theorem signature_identifies planDigest scope ps planDigest' scope' qs :
  envelopeSignature planDigest scope ps = envelopeSignature planDigest' scope' qs ↔
  planDigest = planDigest' ∧ scope = scope' ∧ ∀ p, p ∈ ps ↔ p ∈ qs.
Proof. split; [apply signature_inj|]. intros (-> & -> & H). by apply signature_same. Qed.

Lemma resolve_all_same {K : Backend} l s :
  grantedEnvelopes (resolve_all l s) = grantedEnvelopes s ∧ closed (resolve_all l s) = closed s.
Proof.
  revert s. induction l as [|kv l IH]; intros s; [done|].
  change (resolve_all (kv :: l) s) with (resolve_all l (if covered s kv.2 then settle kv Succeeded s else s)).
  destruct (IH (if covered s kv.2 then settle kv Succeeded s else s)) as [-> ->].
  destruct (covered s kv.2); [|done]. destruct (settle_same kv Succeeded s) as (_ & _ & -> & _ & ->). done.
Qed.

(** An approval is recorded once: after an envelope was granted, granting the
    same predicates for the same plan and scope again, reordered or repeated,
    succeeds and leaves the store as it is, even when nothing can be recorded. *)
Theorem envelope_granted_once {K : Backend} options root hook hook' o o' s s1 :
  grantEnvelope options root hook o s = (inr tt, s1) →
  eo_planDigest o' = eo_planDigest o → default "run" (eo_scope o') = default "run" (eo_scope o) →
  (∀ p, p ∈ eo_patterns o' ↔ p ∈ eo_patterns o) →
  grantEnvelope options root hook' o' s1 = (inr tt, s1).
Proof.
  intros Hg Ed Es Hp. unfold grantEnvelope in Hg |- *.
  assert (∀ f, envelope_fits options root f (eo_planDigest o') (eo_patterns o') =
               envelope_fits options root f (eo_planDigest o) (eo_patterns o)) as Hfit.
  { intros f. unfold envelope_fits. rewrite Ed. f_equal. apply eq_true_iff_eq.
    rewrite !forallb_forall. setoid_rewrite <-list_elem_of_In. by setoid_rewrite Hp. }
  assert (envelopeSignature (eo_planDigest o') (default "run" (eo_scope o)) (canonicalEnvelopePatterns (eo_patterns o')) =
          envelopeSignature (eo_planDigest o) (default "run" (eo_scope o)) (canonicalEnvelopePatterns (eo_patterns o))) as Hsig.
  { rewrite Ed. apply signature_same. intros p. by rewrite !canonical_in. }
  assert (eo_patterns o' = [] ↔ eo_patterns o = []) as Hnil.
  { split; intros E; rewrite E in Hp; apply elem_of_nil_inv; intros p; [rewrite <-Hp|rewrite Hp]; apply not_elem_of_nil. }
  erewrite bind_run in Hg by reflexivity. step. cbn [id] in Hg |- *. cbv zeta in Hg |- *.
  rewrite Es, Hfit, Hsig, (bool_decide_ext _ _ Hnil).
  destruct (closed s) eqn:Hcl; [done|].
  destruct (envelope_fits _ _ _ (eo_planDigest o) (eo_patterns o)); cbn [negb] in Hg |- *; [|done].
  case_bool_decide; [by injection Hg as <-; rewrite Hcl|].
  case_bool_decide as Hin; [by injection Hg as <-; rewrite Hcl, bool_decide_eq_true_2|].
  rewrite persist_then in Hg. destruct (hook _ _) as [[err|] m]; [done|].
  erewrite bind_run in Hg by reflexivity.
  unfold activate_envelope, push_remembered, push_envelope in Hg. cbv zeta in Hg.
  match type of Hg with context [envelopeSignature ?a ?b ?c] => set (signature := envelopeSignature a b c) in * end.
  assert (closed s1 = false ∧ signature ∈ grantedEnvelopes s1) as [-> Hs1]; [|by rewrite bool_decide_eq_true_2].
  case_bool_decide; (erewrite bind_run in Hg by reflexivity; rewrite resolveCovered_run in Hg;
    injection Hg as <-; match goal with |- context [resolve_all ?l ?t] => destruct (resolve_all_same l t) as [-> ->] end;
    split; [done|]; apply elem_of_app; right; by left).
Qed.

End envelopes.

#[local] Existing Instance no_backend.

Lemma envelope_granted_once_witness :
  let opts := mkOptions None None [] None [] None (Some "plan-1") in
  let refuse (ev : GrantEvent) (m : ()) := (Some (mkStoreError journal_failed None), m) in
  let a := mkPattern (Exactly NetGet) "**" in
  let b := mkPattern (Exactly FsRead) "/work/**" in
  let s := snd (grantEnvelope (H:=plain_json) (K:=no_backend) opts "/work" (λ _ m, (None, m))
                  (mkEnvelope "plan-1" [a; b] None) (initial_store (K:=no_backend) opts unrestricted tt)) in
  length (log s) = 1 ∧
  grantEnvelope (H:=plain_json) (K:=no_backend) opts "/work" refuse (mkEnvelope "plan-1" [b; a; b] (Some "run")) s = (inr tt, s).
Proof.
  split; [vm_compute; reflexivity|].
  apply (envelope_granted_once (J:=plain_json) (K:=no_backend) _ _ (λ _ m, (None, m)) _
    (mkEnvelope "plan-1" [mkPattern (Exactly NetGet) "**"; mkPattern (Exactly FsRead) "/work/**"] None) _
    (initial_store (K:=no_backend) (mkOptions None None [] None [] None (Some "plan-1")) unrestricted tt));
    [vm_compute; reflexivity..|].
  intros p. cbn. rewrite !elem_of_cons. tauto.
Defined.
