(* ===== verification/JournalGrants.v ===== *)
(** * The journal-backed grant store ([kernel/src/JournalGrantStore.ts])

    Grant decisions are durable events of the journal: of the run for what holds in
    it, of a dedicated policy run for what is remembered.  Construction replays both
    histories into rules and envelope signatures; every later decision is persisted
    by [emitDurable] before the store activates it.  The schema that encodes an event
    as JSON belongs to a library: it is the class [GrantCodec]. *)

From S2P Require Import Prelude Json World Journal Capability CapabilitySet Permission GrantStore.
#[local] Open Scope me_scope.

(** ** Events as journal payloads *)

Definition eventType (ev : GrantEvent) : string :=
  match ev with
  | OnceGrant _ _ _ _ _ _ => "flows.kernel.grant.once.v1"
  | RunGrant _ _ _ _ _ _ => "flows.kernel.grant.run.v1"
  | RememberedGrant _ _ _ _ _ _ => "flows.kernel.grant.remembered.v1"
  | DeniedGrant _ _ _ _ _ _ => "flows.kernel.grant.denied.v1"
  | EnvelopeGrant _ _ _ _ => "flows.kernel.grant.envelope.v1"
  end.

Definition knownEventTypes : list string :=
  [ "flows.kernel.grant.once.v1"; "flows.kernel.grant.run.v1"; "flows.kernel.grant.remembered.v1";
    "flows.kernel.grant.denied.v1"; "flows.kernel.grant.envelope.v1" ].

(** The events the schema describes. *)
Definition in_schema (ev : GrantEvent) : bool :=
  match ev with EnvelopeGrant _ _ _ scope => isEnvelopeScope scope | _ => true end.

Class GrantCodec : Type := {
  encode : GrantEvent → json;
  decode : json → option GrantEvent;
  decode_encode ev : in_schema ev = true → decode (encode ev) = Some ev
}.

(** The medium of the store's persistence is the journal's world. *)
Definition journal_backend : Backend := {| medium := World |}.
#[local] Existing Instance journal_backend.

(** ** Options and results *)

Record JournalGrantStoreOptions := mkJournalOptions
  { jo_runId : string; jo_policyRunId : string; jo_sourceId : string; jo_planDigest : string;
    jo_attended : option bool; jo_rules : list (list Rule);
    jo_envelope : option (list CapabilityPattern * option string) }.

Record Replayed := mkReplayed { rules : list Rule; envelopeSignatures : list string }.

Definition nothing_replayed : Replayed := mkReplayed [] [].

(** What a replay can fail with: a refusal of its own, or the journal's. *)
Inductive ReplayError : Type := Refusal (e : GrantStoreError) | Cause (e : error).

Definition journalFailed (message : string) : GrantStoreError := mkStoreError journal_failed (Some message).
Definition invalidReplay (message : string) : GrantStoreError := mkStoreError invalid_resolution (Some message).
Definition at_entry (message : string) (entry : Entry) : GrantStoreError :=
  invalidReplay (message +:+ pretty (en_seq entry)).

(** [Set.add]. *)
Definition set_add (x : string) (l : list string) : list string :=
  if bool_decide (x ∈ l) then l else l ++ [x].

Definition allow_all (patterns : list CapabilityPattern) : list Rule := (λ p, mkRule Allow p) <$> patterns.

(** A journal operation inside the effects of another error type. *)
Definition lift_error {E A} (f : error → E) (m : M A) : ME World E A := λ w,
  match m w with
  | (inr a, w') => (inr a, w')
  | (inl e, w') => (inl (f e), w')
  end.

Definition map_refusal {A} (message : string) (m : ME World ReplayError A) : ME World PermissionError A := λ w,
  match m w with
  | (inr a, w') => (inr a, w')
  | (inl (Refusal e), w') => (inl (EStore e), w')
  | (inl (Cause _), w') => (inl (EStore (journalFailed message)), w')
  end.

Section journal_store.
Context `{J : JsonText} `{C : Consensus} `{G : GrantCodec} (opts : ValidatedOptions) (workspaceRoot : string).

(** ** Replay *)

Definition decodeTrustedEntry (sourceId : string) (entry : Entry) : GrantStoreError + option GrantEvent :=
  if negb (bool_decide (en_sourceId entry = sourceId)) || negb (bool_decide (en_eventType entry ∈ knownEventTypes))
  then inr None
  else
    match decode (en_payload entry) with
    | None => inl (at_entry "invalid grant payload at journal sequence " entry)
    | Some event =>
        if negb (bool_decide (eventType event = en_eventType entry))
        then inl (at_entry "grant envelope/payload type mismatch at journal sequence " entry)
        else inr (Some event)
    end.

(** A replayed grant becomes an allow rule. *)
Definition replay_grant (refused : string) (p : CapabilityPattern) (c : Capability) (tier : EffectTier)
    (acc : Replayed) (entry : Entry) : GrantStoreError + Replayed :=
  if negb (isValidGrantPattern p c tier workspaceRoot) then inl (at_entry refused entry)
  else inr (mkReplayed (rules acc ++ [mkRule Allow p]) (envelopeSignatures acc)).

Definition replay_envelope (refused planDigest scope : string) (patterns : list CapabilityPattern)
    (acc : Replayed) (entry : Entry) : GrantStoreError + Replayed :=
  if existsb (λ p, negb (isValidEnvelopePattern p workspaceRoot)) patterns then inl (at_entry refused entry)
  else inr (mkReplayed (rules acc ++ allow_all patterns)
              (set_add (envelopeSignature planDigest scope patterns) (envelopeSignatures acc))).

(** The loop body of [replayRememberedRules]. *)
Definition remembered_entry (sourceId : string) (acc : Replayed) (entry : Entry) : GrantStoreError + Replayed :=
  match decodeTrustedEntry sourceId entry with
  | inl e => inl e
  | inr None => inr acc
  | inr (Some (RememberedGrant _ _ _ c p tier)) =>
      replay_grant "unsafe remembered grant event: " p c tier acc entry
  | inr (Some (EnvelopeGrant _ planDigest patterns scope)) =>
      if bool_decide (scope = "remembered") then
        replay_envelope "unsafe remembered envelope event: " planDigest scope patterns acc entry
      else inl (at_entry "run-scoped event found in policy journal: " entry)
  | inr (Some _) => inl (at_entry "run-scoped event found in policy journal: " entry)
  end.

Definition event_runId (ev : GrantEvent) : string :=
  match ev with
  | OnceGrant _ r _ _ _ _ | RunGrant _ r _ _ _ _ | RememberedGrant _ r _ _ _ _
  | DeniedGrant _ r _ _ _ _ | EnvelopeGrant r _ _ _ => r
  end.

(** The loop body of [replayRunRules]. *)
Definition run_entry (runId sourceId planDigest : string) (acc : Replayed) (entry : Entry) :
    GrantStoreError + Replayed :=
  match decodeTrustedEntry sourceId entry with
  | inl e => inl e
  | inr None => inr acc
  | inr (Some event) =>
      if negb (bool_decide (event_runId event = runId)) then
        inl (at_entry "grant payload run mismatch at journal sequence " entry)
      else
        match event with
        | OnceGrant _ _ _ _ _ _ | DeniedGrant _ _ _ _ _ _ => inr acc
        | RunGrant _ _ digest c p tier =>
            if negb (bool_decide (digest = planDigest)) then inr acc
            else replay_grant "unsafe run grant event: " p c tier acc entry
        | EnvelopeGrant _ digest patterns scope =>
            if bool_decide (scope = "run") then
              if negb (bool_decide (digest = planDigest)) then inr acc
              else replay_envelope "unsafe run envelope event: " digest scope patterns acc entry
            else inl (at_entry "remembered event found in run journal: " entry)
        | RememberedGrant _ _ _ _ _ _ => inl (at_entry "remembered event found in run journal: " entry)
        end
  end.

(** Entries in order; the first refusal stops. *)
Fixpoint replay_entries (body : Replayed → Entry → GrantStoreError + Replayed) (acc : Replayed)
    (entries : list Entry) : GrantStoreError + Replayed :=
  match entries with
  | [] => inr acc
  | entry :: rest =>
      match body acc entry with
      | inl e => inl e
      | inr acc => replay_entries body acc rest
      end
  end.

Definition refuse {A} (e : GrantStoreError) : ME World ReplayError A := fail (Refusal e).

(** The page loop of both replays; the fuel bounds the number of pages. *)
Fixpoint replay_pages (body : Replayed → Entry → GrantStoreError + Replayed) (fuel : nat)
    (runId : string) (after : option Z) (acc : Replayed) : ME World ReplayError Replayed :=
  match fuel with
  | O => fail (Cause (jerror "out_of_fuel"))
  | S fuel =>
      page <- lift_error Cause (readPage runId after 256) ;;
      let last := last (pg_entries page) in
      if match last, after with
         | Some e, Some cursor => bool_decide (en_seq e ≤ cursor)%Z
         | _, _ => false
         end
      then refuse (invalidReplay ("non-advancing journal page at sequence " +:+
                                  pretty (default 0%Z (en_seq <$> last))))
      else
        match replay_entries body acc (pg_entries page) with
        | inl e => refuse e
        | inr acc =>
            if negb (pg_hasMore page) then ret acc
            else match last with
                 | Some e => replay_pages body fuel runId (Some (en_seq e)) acc
                 | None => ret acc
                 end
        end
  end.

(** A page holds at least one entry when more follow, so one page per stored event
    is enough. *)
Definition replay_fuel (w : World) : nat := S (length (db_events (w_db w))).

Definition replayRememberedRules (policyRunId sourceId : string) : ME World ReplayError Replayed :=
  fuel <- gets replay_fuel ;;
  replay_pages (remembered_entry sourceId) fuel policyRunId None nothing_replayed.

Definition replayRunRules (runId sourceId planDigest : string) : ME World ReplayError Replayed :=
  fuel <- gets replay_fuel ;;
  replay_pages (run_entry runId sourceId planDigest) fuel runId None nothing_replayed.

(** ** Construction *)

Section make.
Context (options : JournalGrantStoreOptions).

Definition replayPolicy : ME World PermissionError Replayed :=
  map_refusal "could not replay remembered grants"
    (replayRememberedRules (jo_policyRunId options) (jo_sourceId options)).
Definition replayRun : ME World PermissionError Replayed :=
  map_refusal "could not replay run grants"
    (replayRunRules (jo_runId options) (jo_sourceId options) (jo_planDigest options)).

(** The run whose history an event belongs to. *)
Definition event_run (event : GrantEvent) : string :=
  match event with
  | RememberedGrant _ _ _ _ _ _ => jo_policyRunId options
  | EnvelopeGrant _ _ _ scope =>
      if bool_decide (scope = "remembered") then jo_policyRunId options else jo_runId options
  | _ => jo_runId options
  end.

Definition grant_input (event : GrantEvent) : Input :=
  MkInput (event_run event) (jo_sourceId options) None (eventType event) (encode event) None.

Definition persist : Hook := λ event w,
  match emitDurable opts (grant_input event) None w with
  | (inr _, w') => (None, w')
  | (inl _, w') => (Some (journalFailed "could not persist grant event"), w')
  end.

Definition store_options (policy run : Replayed) : MakeOptions :=
  mkOptions (jo_attended options)
    (Some (NestedRules (match jo_rules options with
                        | [] => [[]; rules policy]
                        | configured => configured ++ [rules policy]
                        end)))
    (rules run)
    ((λ e, mkEnvelope (jo_planDigest options) (fst e) (snd e)) <$> jo_envelope options)
    (envelopeSignatures policy ++ envelopeSignatures run)
    (Some (jo_runId options)) (Some (jo_planDigest options)).

Definition build (initialCeiling : CapabilitySet) (policy run : Replayed) : ME World PermissionError Store :=
  GrantStore.make (store_options policy run) workspaceRoot persist initialCeiling.

(** Under the lock of the journal: the target history is replayed again. *)
Definition build_locked (initialCeiling : CapabilitySet) (scope : string) (policy run : Replayed) :
    ME World PermissionError Store :=
  if bool_decide (scope = "remembered") then
    policy <- replayPolicy ;; build initialCeiling policy run
  else
    run <- replayRun ;; build initialCeiling policy run.

(** What follows the first two replays. *)
Definition finish (initialCeiling : CapabilitySet) (policy run : Replayed) : ME World PermissionError Store :=
  match jo_envelope options with
  | None | Some ([], _) => build initialCeiling policy run
  | Some (patterns, scope) =>
      let scope := default "run" scope in
      let signature := envelopeSignature (jo_planDigest options) scope patterns in
      let replayedSignatures := if bool_decide (scope = "remembered") then envelopeSignatures policy
                                else envelopeSignatures run in
      if bool_decide (signature ∈ replayedSignatures) then build initialCeiling policy run
      else build_locked initialCeiling scope policy run
  end.

Definition make (initialCeiling : CapabilitySet) : ME World PermissionError Store :=
  if bool_decide (jo_planDigest options = "") then
    fail (EStore (invalidReplay "journal-backed grants require a plan digest"))
  else
    policy <- replayPolicy ;;
    run <- replayRun ;;
    finish initialCeiling policy run.
End make.
End journal_store.
