(* ===== verification/JournalSound.v ===== *)
(** * Journals that can be read from the start

    [sound]: what an operation that reads a run's whole history and appends to it
    needs of the world.  Appends and transactions keep it, whether they succeed or
    not, and a transaction's effect on the histories is the one of its body. *)

From S2P Require Import Prelude Json World Consensus ConsensusProps Journal JournalAppend RunLaws RunProps FoldProps Coherence UpkeepTheorems JournalRead.
#[local] Open Scope me_scope.

(** ** The journal's world *)

Section world.
Context {J : JsonText} {C : Consensus} {L : ConsensusLaws C} (opts : ValidatedOptions).
Implicit Types (w : World) (r : string).

(** Nothing but the journal's process memory may move on a failed append. *)
Definition same_but_tables w w' : Prop :=
  w_proc w' = w_proc w ∧ w_local w' = w_local w ∧ w_clock w' = w_clock w.

Lemma insertOne_memory q w0 : preserves (same_but_tables w0) (insertOne q None).
Proof.
  unfold insertOne, insert_event, sql_fail.
  assert (∀ row, preserves (same_but_tables w0) (decodeRow row)) as Hd
    by (intros row; unfold decodeRow; solve_preserves).
  assert (preserves (same_but_tables w0) (selectExisting q)) as Hs
    by (unfold selectExisting, get_events; solve_preserves).
  unfold get_events. solve_preserves. apply preserves_modify. done.
Qed.

Lemma emit_failed input w e w' :
  p_settlements (w_proc w) = None → emitDurable opts input None w = (inl e, w') → proc_step w w'.
Proof.
  intros Hn. unfold emitDurable, clock. step. pose proof (prepare_spec opts input w) as Hp.
  destruct (admissible w input); [|step_by Hp; by intros [= _ <-]]. step_by Hp.
  unfold get_settlements, map_error. step. rewrite Hn.
  pose proof (allocateEntry_spec opts input w) as Ha.
  destruct (allocates w input) eqn:Hall.
  - pose proof (insertOne_memory (next_row opts w input) (raised w input) (raised w input)
                  ltac:(done)) as Hi.
    destruct (insertOne (next_row opts w input) None (raised w input)) as [r w1] eqn:Hins. cbn [snd] in Hi.
    pose proof (writeEntry_run opts _ _ _ _ _ Hall Hins) as Hw. destruct r as [e1|c].
    + assert (∃ e2, write (writeEntry (prepared opts input) (w_clock w) None) w =
                    (inl e2, set_db (λ _, w_db w) w1)) as [e2 Hw2] by (unfold write; rewrite Hw; by eexists).
      step_by Hw2. intros [= _ <-]. destruct (raised_step w input) as [_ Hl Hc Hs].
      destruct Hi as (Ep & El & Ec). split; cbn; [done|congruence|congruence|by rewrite Ep].
    + pose proof (write_ok _ _ _ _ Hw) as Hw2. step_by Hw2. cbn.
      destruct (settleCommit_ok opts (next_row opts w input) c w1) as (w2 & Hset & _). by step_by Hset.
  - assert (∃ e2, write (writeEntry (prepared opts input) (w_clock w) None) w =
                  (inl e2, set_db (λ _, w_db w) w)) as [e2 Hw2].
    { unfold write, writeEntry. step_by Ha. by eexists. }
    step_by Hw2. intros [= _ <-]. by split.
Qed.

(** The journal is sound, no transaction is open, and the runs are not compacted. *)
Record sound (runs : list string) w : Prop := mkSound {
  sd_wf : cs_wf w;
  sd_journal : journal_ok w;
  sd_ordered : journal_ordered w;
  sd_open : p_settlements (w_proc w) = None;
  sd_whole : ∀ r, r ∈ runs → above_floor w r (-1) = true
}.

Lemma sound_step runs w w' new :
  sound runs w → appended w w' new → journal_ok w' → journal_ordered w' → sound runs w'.
Proof.
  intros [H1 H2 H3 H4 H5] Happ Hj Ho. destruct (appended_wf _ _ _ H1 Happ) as [Hwf _].
  split; try done.
  - destruct Happ as [_ _ _ _ Hs]. destruct (p_settlements (w_proc w')) as [l|]; [|done].
    rewrite H4 in Hs. destruct (proj1 Hs) as [x Hx]; [by eexists|done].
  - intros r Hr. specialize (H5 r Hr). unfold above_floor, floor_of in *.
    destruct Happ as [_ Hrest _ _ _]. apply (f_equal db_checkpoints) in Hrest. cbn in Hrest. by rewrite Hrest.
Qed.

Lemma proc_step_sound runs w w' :
  sound runs w → proc_step w w' → sound runs w' ∧ ∀ r, history r w' = history r w.
Proof.
  intros Hs Hp. split.
  - apply (sound_step runs w w' []); [done|by apply proc_step_appended|..];
      [apply sd_journal in Hs|apply sd_ordered in Hs];
      unfold journal_ok, journal_ordered in *; by rewrite (ps_db _ _ Hp).
  - intros r. unfold history. by rewrite (ps_db _ _ Hp).
Qed.

(** ** Inside a transaction *)

(** What of [sound] holds inside a transaction too. *)
Record readable (runs : list string) w : Prop := mkReadable {
  rd_wf : cs_wf w;
  rd_journal : journal_ok w;
  rd_ordered : journal_ordered w;
  rd_whole : ∀ r, r ∈ runs → above_floor w r (-1) = true
}.

Lemma sound_readable runs w : sound runs w ↔ readable runs w ∧ p_settlements (w_proc w) = None.
Proof. split; [by intros []|by intros [[] ?]]. Qed.

Lemma readable_same runs w w' : readable runs w → same_stores w w' → readable runs w'.
Proof.
  intros [H1 H2 H3 H4] Hs. destruct (same_stores_lease w w' Hs H1) as [Hwf _]. destruct Hs as [Hdb _ _].
  split; [done|..]; unfold journal_ok, journal_ordered, above_floor, floor_of; by rewrite Hdb.
Qed.

Lemma history_same r w w' : w_db w' = w_db w → history r w' = history r w.
Proof. unfold history. by intros ->. Qed.

Lemma readable_appended runs w w' new :
  readable runs w → appended w w' new → journal_ok w' → journal_ordered w' → readable runs w'.
Proof.
  intros [H1 H2 H3 H4] Happ Hj Ho. destruct (appended_wf _ _ _ H1 Happ) as [Hwf _]. split; try done.
  intros r Hr. specialize (H4 r Hr). unfold above_floor, floor_of in *.
  destruct Happ as [_ Hrest _ _ _]. apply (f_equal db_checkpoints) in Hrest. cbn in Hrest. by rewrite Hrest.
Qed.

(** What an append did to the histories: a new last entry of its run, or nothing, and
    then an entry of the same producer with the same content is there. *)
Lemma emit_cases runs input w rc w' :
  readable runs w → emitDurable opts input None w = (inr rc, w') →
  readable runs w' ∧
  match rc with
  | Accepted seq _ =>
      ∃ e, entry_of opts input e ∧ en_sourceId e = in_sourceId input ∧ en_seq e = seq ∧
        (∀ n, in_sourceSeq input = Some n → en_sourceSeq e = n ∧ ∀ x, x ∈ history (in_runId input) w →
           en_sourceId x = in_sourceId input → en_sourceSeq x ≠ n) ∧
        (∀ x, x ∈ history (in_runId input) w → (en_seq x < en_seq e)%Z) ∧
        ∀ r, history r w' = history r w ++ (if bool_decide (r = in_runId input) then [e] else [])
  | Duplicate seq _ =>
      (∀ r, history r w' = history r w) ∧
      ∃ e, e ∈ history (in_runId input) w ∧ en_seq e = seq ∧ en_sourceId e = in_sourceId input ∧
        en_eventType e = in_eventType input ∧ en_payload e = scrubbed opts input (in_payload input)
  end.
Proof.
  intros Hs H. pose proof (rd_wf _ _ Hs) as Hwf. pose proof (rd_journal _ _ Hs) as Hj.
  pose proof (rd_ordered _ _ Hs) as Ho.
  pose proof (emitDurable_inr opts _ _ _ _ _ Hwf H) as (_ & _ & _ & He).
  pose proof (emitDurable_extends opts _ _ _ _ _ Hwf Hj H) as (Hj' & _ & _ & new & Happ & Hnew).
  destruct rc as [seq n|seq n]; subst new.
  - pose proof (next_row_ordered opts w w' input Ho (app_events _ _ _ Happ)) as Ho'.
    split; [by eapply readable_appended|]. destruct He as (_ & Hseq & _ & Hconf & Hchk).
    assert (event_of opts (w_clock w) input (next_row opts w input)) as Hev by by eexists _, _.
    destruct (event_of_decodes opts _ _ _ Hev Hchk) as (e & Hdec & Hof & _).
    pose proof (decode_type _ _ Hdec) as (Hr & _ & Hsq). cbn in Hsq.
    exists e. split; [done|]. split.
    { unfold decode_entry in Hdec. repeat case_match; try done. by injection Hdec as <-. }
    split; [by rewrite Hseq|]. split; [|split].
    + intros n' Hn'. split.
      { unfold decode_entry in Hdec. repeat case_match; try done. injection Hdec as <-. cbn.
        unfold source_seq_of. by rewrite Hn'. }
      intros x Hx Hsx Hqx. rewrite history_ordered in Hx by done.
      apply list_elem_of_omap in Hx as (row & [Hrow Hrun]%elem_of_filter_b & Hx).
      rewrite existsb_false in Hconf. specialize (Hconf row Hrow).
      unfold decode_entry in Hx. repeat case_match; try done. injection Hx as <-. cbn in Hsx, Hqx.
      unfold conflicts, same_source_seq, of_source in Hconf. cbn in Hconf.
      rewrite Hrun, Hsx, Hqx, (bool_decide_eq_true_2 (in_sourceId input = _)) in Hconf by done.
      unfold source_seq_of in Hconf. rewrite Hn', (bool_decide_eq_true_2 (n' = _)) in Hconf by done.
      by rewrite orb_true_r in Hconf.
    + intros x Hx. rewrite history_ordered in Hx by done.
      apply list_elem_of_omap in Hx as (row & [Hrow Hrun]%elem_of_filter_b & Hx).
      apply decode_type in Hx as (_ & _ & ->). rewrite Hsq. apply (next_seq_gt w); [done|].
      unfold of_run in Hrun. by apply bool_decide_eq_true in Hrun.
    + intros r. rewrite (history_append opts w w' (in_runId input) [input] [next_row opts w input]
        Ho Ho' (app_events _ _ _ Happ)); [|by repeat constructor..].
      cbn. by rewrite Hdec.
  - destruct He as (Hps & _ & row & Hrow & Hseq & Hk & Hty & Hpay & _).
    split; [apply (readable_same runs w); [done|by apply proc_step_same]|].
    split; [intros r; apply history_same; apply Hps|].
    assert (source_key row = source_key (next_row opts w input)) as Hkey.
    { destruct Hk as [Hid|Hk]; [|done]. by apply (ev_minted _ Hj row Hrow) in Hid. }
    injection Hkey as Hrun Hsrc _.
    destruct (decodeRow_checked row w (ev_checked _ Hj row Hrow)) as [e He].
    rewrite decodeRow_decode in He. destruct (decode_entry row) as [e'|] eqn:Hd; [|done]. injection He as ->.
    exists e. pose proof (decode_type _ _ Hd) as (Ht & _ & Hsq). split_and!.
    + rewrite history_ordered by done. apply list_elem_of_omap. exists row. split; [|done].
      apply elem_of_filter_b. split; [done|]. by apply bool_decide_eq_true.
    + congruence.
    + unfold decode_entry in Hd. repeat case_match; try done. by injection Hd as <-.
    + congruence.
    + unfold decode_entry in Hd. rewrite Hpay in Hd. cbn [next_row row_of j_payloadJson] in Hd.
      rewrite parse_stringify in Hd. repeat case_match; try done. by injection Hd as <-.
Qed.

Lemma emit_sound runs input w rc w' :
  sound runs w → emitDurable opts input None w = (inr rc, w') → sound runs w'.
Proof.
  intros Hs H. destruct (proj1 (sound_readable _ _) Hs) as [Hr Hopen].
  destruct (emit_cases _ _ _ _ _ Hr H) as [Hr' _].
  pose proof (emitDurable_extends opts _ _ _ _ _ (sd_wf _ _ Hs) (sd_journal _ _ Hs) H) as (_ & _ & _ & new & Happ & _).
  apply sound_readable. split; [done|]. destruct (p_settlements (w_proc w')) as [l|] eqn:Hn; [|done].
  destruct (proj1 (app_nested _ _ _ Happ)) as [x Hx]; [by rewrite Hn; eexists|congruence].
Qed.

(** An accepted append, as its readers see it. *)
Lemma emit_appends runs input w rc w' :
  sound runs w → in_sourceSeq input = None → emitDurable opts input None w = (inr rc, w') →
  sound runs w' ∧ ∃ e, entry_of opts input e ∧ en_sourceId e = in_sourceId input ∧
    ∀ r, history r w' = history r w ++ (if bool_decide (r = in_runId input) then [e] else []).
Proof.
  intros Hs Hnone H. destruct (proj1 (sound_readable _ _) Hs) as [Hr Hopen].
  destruct (emit_cases _ _ _ _ _ Hr H) as [Hr' Hc].
  split; [by eapply emit_sound|].
  destruct rc as [seq n|seq n]; [destruct Hc as (e & Hof & Hsrc & _ & _ & _ & Hh); by exists e|].
  exfalso. pose proof (emitDurable_inr opts _ _ _ _ _ (sd_wf _ _ Hs) H) as (_ & _ & _ & _ & _ & row & Hrow & _ & Hk & _).
  apply (next_row_fresh opts w input row Hnone Hrow). destruct Hk as [Hid|Hk]; [|done].
  by apply (ev_minted _ (sd_journal _ _ Hs) row Hrow).
Qed.

(** An append that fails leaves the tables to the transaction, and the leases alone. *)
Definition local_is (l : gmap string LocalLease) w : Prop := w_local w = l.

Lemma emit_local l input : preserves (local_is l) (emitDurable opts input None).
Proof.
  assert (∀ row, preserves (local_is l) (decodeRow row)) as Hd by (intros row; unfold decodeRow; solve_preserves).
  assert (∀ q, preserves (local_is l) (selectExisting q)) as Hs
    by (intros q; unfold selectExisting, get_events; solve_preserves).
  assert (∀ f, preserves (local_is l) (modify (set_proc f) : M ())) as Hp by (intros f; by apply preserves_modify).
  assert (∀ f, preserves (local_is l) (modify (set_db f) : M ())) as Hdb by (intros f; by apply preserves_modify).
  assert (∀ q, preserves (local_is l) (insertOne q None)) as Hi.
  { intros q. unfold insertOne, insert_event, get_events, sql_fail. solve_preserves. }
  assert (∀ q c, preserves (local_is l) (settleCommit opts q c)) as Hset.
  { intros q c w Hw. destruct (settleCommit_ok opts q c w) as (w' & -> & Hst). cbn.
    unfold local_is. by rewrite (ps_local _ _ Hst). }
  assert (∀ A (m : M A), preserves (local_is l) m → preserves (local_is l) (write m)) as Hw
    by (intros A m Hm; apply preserves_write; [done|by intros]).
  unfold emitDurable, prepare, writeEntry, allocateEntry, nextDurable_seq, nextDurable_source,
    raiseSequenceFloor, raiseSourceSequenceFloor, get_events, get_sequence, get_source_sequence,
    get_settlements, clock.
  repeat first [progress solve_preserves | apply Hw].
Qed.

(** A transaction of a sound world, by its body: from the opened world to a readable
    one with the same histories, or, on failure, nothing but the leases it moved. *)
Lemma transact_sound {A} (body : M A) runs w res w' :
  sound runs w → transact opts body w = (res, w') →
  w_local (snd (body (open_transaction w))) = w_local w →
  (∀ a w1, body (open_transaction w) = (inr a, w1) → readable runs w1) →
  sound runs w' ∧
  match res with
  | inl _ => ∀ r, history r w' = history r w
  | inr a => ∃ w1, body (open_transaction w) = (inr a, w1) ∧ ∀ r, history r w' = history r w1
  end.
Proof.
  intros Hs H Hl Hbody. pose proof (sd_open _ _ Hs) as Hopen. unfold transact, get_settlements in H.
  erewrite bind_run in H; [|reflexivity]. rewrite Hopen in H.
  assert (E : (modify (set_proc (set_settlements (Some []))) ;; body) w = body (open_transaction w)) by by step.
  unfold transact_write, map_error, write in H. rewrite E in H.
  destruct (body (open_transaction w)) as [[e|a] w1] eqn:Hb; cbn [snd] in Hl.
  - injection H as <- <-. split; [|by intros r].
    destruct Hs as [H1 H2 H3 H4 H5]. split; try done.
    destruct (law_ext w (set_proc (set_settlements None) (set_db (λ _, w_db w) w1))) as [Hw _]; [done..|]. by apply Hw.
  - destruct (settle_all_ok opts (default [] (p_settlements (w_proc w1)))
                (set_proc (set_settlements None) w1)) as (us & w2 & Hset & Hp).
    erewrite bind_run in H; [|reflexivity]. erewrite bind_run in H; [|exact Hset].
    injection H as <- <-. specialize (Hbody a w1 eq_refl).
    assert (same_stores w1 w2) as Hss by (apply proc_step_same in Hp; by destruct Hp).
    split.
    + apply sound_readable. split; [by eapply readable_same|].
      destruct (p_settlements (w_proc w2)) as [l|] eqn:Hn; [|done].
      destruct (proj1 (ps_nested _ _ Hp)) as [x Hx]; [by rewrite Hn; eexists|done].
    + exists w1. split; [done|]. intros r. apply history_same. apply Hss.
Qed.

Lemma open_readable runs w : sound runs w → readable runs (open_transaction w).
Proof. intros [Hr _]%sound_readable. eapply readable_same; [done|by split]. Qed.
End world.
