(* ===== verification/JournalGrantProps.v ===== *)
(** * What a replay of grant events reads, and a store in step with its journal

    Replay pages through a run's history without changing it: it computes exactly
    [replay_entries] over the whole history, never meets a page that does not advance
    and never runs out of fuel; below the compaction floor it fails.  Events of other
    producers, and of other types, are as good as absent. *)

From S2P Require Import Prelude Json World Consensus ConsensusProps Journal JournalAppend RunLaws RunProps FoldProps Coherence UpkeepTheorems JournalRead Capability CapabilitySet Permission GrantStore GrantProps GrantTheorems GrantEnvelopes JournalGrants JournalSound.

#[local] Open Scope me_scope.

(** ** Replays of lists *)

Lemma replay_entries_app body acc l1 l2 :
  replay_entries body acc (l1 ++ l2) =
  match replay_entries body acc l1 with
  | inl e => inl e
  | inr acc => replay_entries body acc l2
  end.
Proof.
  revert acc. induction l1 as [|e l1 IH]; intros acc; [done|]. cbn. by destruct (body acc e).
Qed.

(** A body that skips what [keep] drops sees only what it keeps. *)
Lemma replay_entries_filter body keep acc l :
  (∀ acc e, keep e = false → body acc e = inr acc) →
  replay_entries body acc l = replay_entries body acc (List.filter keep l).
Proof.
  intros Hskip. revert acc. induction l as [|e l IH]; intros acc; [done|]. cbn.
  destruct (keep e) eqn:Hk; cbn; [by destruct (body acc e)|]. by rewrite Hskip.
Qed.

(** ** Replays of histories *)

Definition answer_of {A} (r : GrantStoreError + A) : ReplayError + A :=
  match r with inl e => inl (Refusal e) | inr a => inr a end.

Section replay.
Context {J : JsonText} (body : Replayed → Entry → GrantStoreError + Replayed).
Implicit Types (w : World) (r : string).

Lemma replay_read fuel r after acc w (c := default (-1)%Z after) :
  journal_ok w → journal_ordered w → nonempty r = true →
  is_safe_integer c = true → (-1 ≤ c)%Z → above_floor w r c = true →
  length (past c (history r w)) < fuel →
  replay_pages body fuel r after acc w =
  (answer_of (replay_entries body acc (past c (history r w))), w).
Proof.
  intros Hj Ho Hr. revert after c acc. induction fuel as [|fuel IH]; intros after c acc Hc Hge Hfl Hlen; [lia|].
  cbn [replay_pages]. set (P := past c (history r w)) in *.
  assert (lift_error Cause (readPage r after 256) w =
          (inr (MkEntriesPage (take 256 P) (bool_decide (256 < length P))), w)) as Hp
    by (unfold lift_error; by rewrite (page_of 256) by (done || lia)).
  step_by Hp. cbn [pg_entries pg_hasMore]. cbv zeta. clear Hp.
  assert (∀ e, last (take 256 P) = Some e → _) as Hlast
    by (intros e; exact (cursor_next 256 r w c e Hj Ho Hge Hfl)).
  assert (match last (take 256 P), after with
          | Some e, Some cursor => bool_decide (en_seq e ≤ cursor)%Z
          | _, _ => false
          end = false) as ->.
  { destruct (last (take 256 P)) as [e|], after as [cursor|]; try done.
    destruct (Hlast e eq_refl) as (_ & Hlt & _). apply bool_decide_eq_false. unfold c in Hlt. cbn in Hlt. lia. }
  assert (replay_entries body acc P =
          match replay_entries body acc (take 256 P) with
          | inl e => inl e
          | inr acc => replay_entries body acc (drop 256 P)
          end) as -> by (by rewrite <-replay_entries_app, take_drop).
  destruct (replay_entries body acc (take 256 P)) as [e|acc']; [done|].
  case_bool_decide as Hmore; cbn [negb].
  - destruct (last_take_some 256 P) as [e Hl]; [lia|done|]. rewrite Hl in *.
    destruct (Hlast e eq_refl) as (Hd & Hlt & Hsafe & Hge' & Hfl').
    rewrite (IH (Some (en_seq e)) acc'); cbn [from_option id]; try done; rewrite Hd; [done|].
    rewrite length_drop. subst P. lia.
  - rewrite drop_ge by lia. done.
Qed.

(** The whole replay of a run. *)
Lemma replay_whole r acc w :
  journal_ok w → journal_ordered w → nonempty r = true → above_floor w r (-1) = true →
  replay_pages body (replay_fuel w) r None acc w =
  (answer_of (replay_entries body acc (history r w)), w).
Proof.
  intros Hj Ho Hr Hfl. rewrite (replay_read (replay_fuel w) r None); try done; cbn [from_option id];
    rewrite past_start by done; [done|].
  pose proof (history_length r w Ho). unfold replay_fuel. lia.
Qed.

Lemma replay_compacted fuel r acc w :
  journal_ok w → journal_ordered w → nonempty r = true → above_floor w r (-1) = false →
  replay_pages body (S fuel) r None acc w =
  (inl (Cause (jerror_at "compacted" (default 0%Z (floor_of w r)))), w).
Proof.
  intros Hj Ho Hr Hfl. cbn [replay_pages].
  pose proof (readPage_answered r None 256 w Hj Ho Hr eq_refl ltac:(lia)) as Hp. cbv zeta in Hp.
  cbn [from_option id] in Hp. rewrite Hfl in Hp.
  assert (lift_error Cause (readPage r None 256) w =
          (inl (Cause (jerror_at "compacted" (default 0%Z (floor_of w r)))), w)) as Hl
    by (unfold lift_error; by rewrite Hp by done).
  by step_by Hl.
Qed.
End replay.

(** ** A grant store and its journal in step

    The invariant [in_step]: the rules and signatures of the store are those a replay
    of the journal would give.  [persist] and the construction establish and keep it. *)

#[local] Existing Instance journal_backend.

(** ** A valid grant is a valid envelope pattern *)

Lemma action_text_plain a : includes "*" (action_text a) = false.
Proof. by destruct a. Qed.

Lemma write_text a : action_text a = "fs:write" → a = FsWrite.
Proof. by destruct a. Qed.

(** A workspace root without wildcards is needed: see [wildcard_root_locks_out]. *)
Lemma valid_grant_envelope p c tier root :
  hasResourceWildcard root = false →
  isValidGrantPattern p c tier root = true → isValidEnvelopePattern p root = true.
Proof.
  intros Hroot. unfold isValidGrantPattern, isValidEnvelopePattern.
  destruct (bool_decide (pattern_text (p_action p) = action_text (action c))) eqn:Ha; [|done].
  apply bool_decide_eq_true in Ha. rewrite Ha, action_text_plain. cbn [negb orb].
  destruct (negb (matches p c)); [done|].
  destruct (negb (bool_decide (tierOf c root = tier))); [done|].
  case_bool_decide as Hw; cbn [negb orb].
  - rewrite Hw in Ha. apply (pattern_text_inj _ (Exactly FsWrite)) in Ha. rewrite (bool_decide_eq_true_2 (p_action p = _)) by done. cbn [negb].
    destruct (hasResourceWildcard (p_resource p)) eqn:Hp; cbn [negb]; [|done].
    case_bool_decide; [done|]. case_bool_decide as Hr; [congruence|done].
  - rewrite (bool_decide_eq_false_2 (p_action p = _)); [done|]. intros E. rewrite E in Ha. by apply eq_sym, write_text in Ha.
Qed.

(** ** Store and journal in step *)

Section in_step.
Context {J : JsonText} {C : Consensus} {L : ConsensusLaws C} {G : GrantCodec}.
Context (opts : ValidatedOptions) (workspaceRoot : string) (options : JournalGrantStoreOptions).
Notation policy := (jo_policyRunId options).
Notation run := (jo_runId options).
Notation source := (jo_sourceId options).
Notation digest := (jo_planDigest options).

(** The assumptions on the construction: the policy run is dedicated, the root has
    no wildcards, and the journal's redaction leaves grant payloads decodable. *)
Record dedicated : Prop := mkDedicated {
  dd_runs : policy ≠ run;
  dd_policy : nonempty policy = true;
  dd_run : nonempty run = true;
  dd_digest : digest ≠ "";
  dd_root : hasResourceWildcard workspaceRoot = false;
  dd_redaction : ∀ ev, in_schema ev = true → decode (v_redact opts (encode ev)) = Some ev
}.
Context (D : dedicated).

Notation sound := (sound [policy; run]).

(** What a replay of a world gives. *)
Definition policy_replay (w : World) : GrantStoreError + Replayed :=
  replay_entries (remembered_entry workspaceRoot source) nothing_replayed (history policy w).
Definition run_replay (w : World) : GrantStoreError + Replayed :=
  replay_entries (run_entry workspaceRoot run source digest) nothing_replayed (history run w).

Definition refused {A} (r : GrantStoreError + A) : PermissionError + A :=
  match r with inl e => inl (EStore e) | inr a => inr a end.

Lemma replayPolicy_run w : sound w → replayPolicy workspaceRoot options w = (refused (policy_replay w), w).
Proof.
  intros [_ Hj Ho _ Hfl]. unfold replayPolicy, map_refusal, replayRememberedRules. step.
  rewrite (replay_whole _ policy); try done; [|apply D|apply Hfl; by left].
  fold (policy_replay w). by destruct (policy_replay w).
Qed.

Lemma replayRun_run w : sound w → replayRun workspaceRoot options w = (refused (run_replay w), w).
Proof.
  intros [_ Hj Ho _ Hfl]. unfold replayRun, map_refusal, replayRunRules. step.
  rewrite (replay_whole _ run); try done; [|apply D|apply Hfl; right; by left].
  fold (run_replay w). by destruct (run_replay w).
Qed.

(** *** What replays hold *)

(** Every replayed rule allows a valid pattern, and every signature is the one of an
    envelope of the scope whose rules are all there. *)
Record consistent (scope : string) (R : Replayed) : Prop := mkConsistent {
  cn_rules : ∀ r, r ∈ rules R → effect r = Allow ∧ isValidEnvelopePattern (pattern r) workspaceRoot = true;
  cn_signatures : ∀ x, x ∈ envelopeSignatures R → ∃ d ps, x = envelopeSignature d scope ps ∧
    ∀ p, p ∈ ps → mkRule Allow p ∈ rules R
}.

Lemma set_add_in x y l : x ∈ set_add y l ↔ x ∈ l ∨ x = y.
Proof.
  unfold set_add. case_bool_decide; [naive_solver|]. by rewrite elem_of_app, list_elem_of_singleton.
Qed.

Lemma allow_all_in r ps : r ∈ allow_all ps ↔ ∃ p, r = mkRule Allow p ∧ p ∈ ps.
Proof. unfold allow_all. by rewrite list_elem_of_fmap. Qed.

Lemma grant_consistent scope msg p c tier acc e R :
  consistent scope acc → replay_grant workspaceRoot msg p c tier acc e = inr R → consistent scope R.
Proof.
  intros [H1 H2]. unfold replay_grant.
  destruct (isValidGrantPattern p c tier workspaceRoot) eqn:Hv; [|done]. intros [= <-].
  split; cbn.
  - intros r [Hr| ->%list_elem_of_singleton]%elem_of_app; [by apply H1|]. cbn.
    split; [done|]. eapply valid_grant_envelope; [apply D|done].
  - intros x (d & ps & -> & Hps)%H2. exists d, ps. split; [done|]. intros p' Hp'.
    apply elem_of_app. left. by apply Hps.
Qed.

Lemma envelope_consistent scope msg d ps acc e R :
  consistent scope acc → replay_envelope workspaceRoot msg d scope ps acc e = inr R → consistent scope R.
Proof.
  intros [H1 H2]. unfold replay_envelope.
  destruct (existsb _ ps) eqn:Hv; [done|]. intros [= <-]. rewrite existsb_false in Hv. split; cbn.
  - intros r [Hr|(p & -> & Hp)%allow_all_in]%elem_of_app; [by apply H1|]. cbn.
    split; [done|]. by apply Hv, negb_false_iff in Hp.
  - intros x [(d' & ps' & -> & Hps)%H2| ->]%set_add_in; [exists d', ps'|exists d, ps]; (split; [done|]);
      intros p' Hp'; apply elem_of_app; [left; by apply Hps|right]. apply allow_all_in. eauto.
Qed.

Lemma replay_consistent scope body l acc R :
  (∀ acc e R, consistent scope acc → body acc e = inr R → consistent scope R) →
  consistent scope acc → replay_entries body acc l = inr R → consistent scope R.
Proof.
  intros Hb. revert acc. induction l as [|e l IH]; intros acc Hacc; cbn; [by intros [= <-]|].
  destruct (body acc e) as [err|acc'] eqn:He; [done|]. apply IH. by eapply Hb.
Qed.

Lemma nothing_consistent scope : consistent scope nothing_replayed.
Proof. by split; intros x ?%not_elem_of_nil. Qed.

Lemma policy_consistent w P : policy_replay w = inr P → consistent "remembered" P.
Proof.
  apply replay_consistent; [|apply nothing_consistent]. intros acc e R Hacc. unfold remembered_entry.
  repeat case_match; try done; try (by intros [= <-]); [by apply grant_consistent|].
  case_bool_decide; [|done]. subst. by apply envelope_consistent.
Qed.

Lemma run_consistent w R : run_replay w = inr R → consistent "run" R.
Proof.
  apply replay_consistent; [|apply nothing_consistent]. intros acc e R' Hacc. unfold run_entry.
  repeat case_match; try done; try (by intros [= <-]); try by apply grant_consistent.
  all: match goal with H : bool_decide (_ = "run") = true |- _ => apply bool_decide_eq_true in H end.
  all: subst; by apply envelope_consistent.
Qed.
(** *** Recording an event *)

(** The events this store records. *)
Definition own_event (ev : GrantEvent) : Prop :=
  event_runId ev = run ∧
  match ev with
  | OnceGrant _ _ _ _ _ _ | DeniedGrant _ _ _ _ _ _ => True
  | RunGrant _ _ d c p tier => d = digest ∧ isValidGrantPattern p c tier workspaceRoot = true
  | RememberedGrant _ _ _ c p tier => isValidGrantPattern p c tier workspaceRoot = true
  | EnvelopeGrant _ d ps scope => d = digest ∧ isEnvelopeScope scope = true ∧
      ∀ p, p ∈ ps → isValidEnvelopePattern p workspaceRoot = true
  end.

Definition add_grant (p : CapabilityPattern) (R : Replayed) : Replayed :=
  mkReplayed (rules R ++ [mkRule Allow p]) (envelopeSignatures R).
Definition add_envelope (d scope : string) (ps : list CapabilityPattern) (R : Replayed) : Replayed :=
  mkReplayed (rules R ++ allow_all ps) (set_add (envelopeSignature d scope ps) (envelopeSignatures R)).

(** What the event adds to either replay. *)
Definition grown_policy (ev : GrantEvent) (P : Replayed) : Replayed :=
  match ev with
  | RememberedGrant _ _ _ _ p _ => add_grant p P
  | EnvelopeGrant _ d ps scope => if bool_decide (scope = "remembered") then add_envelope d scope ps P else P
  | _ => P
  end.
Definition grown_run (ev : GrantEvent) (R : Replayed) : Replayed :=
  match ev with
  | RunGrant _ _ _ _ p _ => add_grant p R
  | EnvelopeGrant _ d ps scope => if bool_decide (scope = "remembered") then R else add_envelope d scope ps R
  | _ => R
  end.

Lemma trusted ev e :
  in_schema ev = true → entry_of opts (grant_input options ev) e → en_sourceId e = source →
  decodeTrustedEntry source e = inr (Some ev).
Proof.
  intros Hs [_ Ht Hp] Hsrc. unfold decodeTrustedEntry. rewrite Hsrc, Ht, Hp.
  assert (scrubbed opts (grant_input options ev) (encode ev) = v_redact opts (encode ev)) as Hscr
    by (by destruct ev).
  cbn [grant_input in_payload in_eventType]. rewrite Hscr, (dd_redaction D) by done.
  rewrite !bool_decide_eq_true_2; [done|done| |done].
  destruct ev; cbn; set_solver.
Qed.

Lemma replay_one body acc e R : replay_entries body acc [e] = inr R ↔ body acc e = inr R.
Proof. cbn. by destruct (body acc e). Qed.

Lemma remembered_own ev e P :
  own_event ev → decodeTrustedEntry source e = inr (Some ev) → event_run options ev = policy →
  remembered_entry workspaceRoot source P e = inr (grown_policy ev P).
Proof.
  intros [_ Hev] Htr Hrun. unfold remembered_entry. rewrite Htr.
  destruct ev as [| |id r' d c p tier| |r' d ps scope]; cbn in Hrun;
    try by (destruct (dd_runs D); congruence).
  - unfold replay_grant. by rewrite Hev.
  - destruct Hev as (_ & _ & Hps). cbn. case_bool_decide; [|by destruct (dd_runs D)].
    unfold replay_envelope. assert (existsb (λ p, negb (isValidEnvelopePattern p workspaceRoot)) ps = false) as ->; [|done].
    apply existsb_false. intros p Hp. by rewrite Hps.
Qed.

Lemma run_own ev e R :
  own_event ev → decodeTrustedEntry source e = inr (Some ev) → event_run options ev = run →
  run_entry workspaceRoot run source digest R e = inr (grown_run ev R).
Proof.
  intros [Hid Hev] Htr Hrun. unfold run_entry. rewrite Htr, Hid, bool_decide_eq_true_2 by done. cbn [negb].
  destruct ev as [|id r' d c p tier| | |r' d ps scope]; cbn in Hrun; try done.
  - destruct Hev as [-> Hev]. rewrite bool_decide_eq_true_2 by done. cbn [negb].
    unfold replay_grant. by rewrite Hev.
  - by destruct (dd_runs D).
  - destruct Hev as (-> & Hsc & Hps). cbn. case_bool_decide as Hr; [by destruct (dd_runs D)|].
    unfold isEnvelopeScope in Hsc. rewrite (bool_decide_eq_false_2 (scope = "remembered")), orb_false_r in Hsc by done.
    rewrite Hsc. rewrite bool_decide_eq_true_2 by done. cbn [negb]. apply bool_decide_eq_true in Hsc as ->.
    unfold replay_envelope. assert (existsb (λ p, negb (isValidEnvelopePattern p workspaceRoot)) ps = false) as ->; [|done].
    apply existsb_false. intros p Hp. by rewrite Hps.
Qed.

Lemma own_schema ev : own_event ev → in_schema ev = true.
Proof. intros [_ Hev]. destruct ev; try done. apply Hev. Qed.

(** The event belongs to one of the two histories, and adds nothing to the other. *)
Lemma event_run_cases ev : own_event ev →
  event_run options ev = policy ∧ (∀ R, grown_run ev R = R) ∨
  event_run options ev = run ∧ (∀ P, grown_policy ev P = P).
Proof.
  intros _. destruct ev as [| | | |r' d ps scope]; cbn; [by right|by right|by left|by right|].
  case_bool_decide; [by left|by right].
Qed.

Lemma persist_grows ev w P R :
  sound w → policy_replay w = inr P → run_replay w = inr R → own_event ev →
  match persist opts options ev w with
  | (Some _, w') => sound w' ∧ policy_replay w' = inr P ∧ run_replay w' = inr R
  | (None, w') => sound w' ∧ policy_replay w' = inr (grown_policy ev P) ∧ run_replay w' = inr (grown_run ev R)
  end.
Proof.
  intros Hs HP HR Hev. unfold persist.
  destruct (emitDurable opts (grant_input options ev) None w) as [[e|rc] w'] eqn:Hem.
  - apply emit_failed in Hem; [|by eapply sd_open]. destruct (proc_step_sound _ _ _ Hs Hem) as [Hs' Hh].
    unfold policy_replay, run_replay. by rewrite !Hh.
  - destruct (emit_appends opts _ (grant_input options ev) _ _ _ Hs eq_refl Hem) as (Hs' & e & Hof & Hsrc & Hh).
    split; [done|]. unfold policy_replay, run_replay in *. rewrite !Hh, !replay_entries_app, HP, HR.
    pose proof (trusted ev e (own_schema _ Hev) Hof Hsrc) as Htr. cbn [grant_input in_runId].
    destruct (event_run_cases ev Hev) as [[Hr Hg]|[Hr Hg]]; rewrite Hr, Hg.
    + rewrite bool_decide_eq_true_2 by done. rewrite bool_decide_eq_false_2 by (apply not_eq_sym, (dd_runs D)).
      split; [|done]. apply replay_one. by apply remembered_own.
    + rewrite (bool_decide_eq_false_2 (policy = run)) by apply (dd_runs D).
      rewrite (bool_decide_eq_true_2 (run = run)) by done.
      split; [done|]. apply replay_one. by apply run_own.
Qed.
End in_step.
