(* ===== verification/JournalGrantSteps.v ===== *)
(** * Every step keeps the store and its journal in step

    [in_step]: the rules and signatures of the store are the ones a replay of the
    journal gives.  Construction establishes it; every operation that persists
    through the journal keeps it, whether the journal takes the event or not. *)

From S2P Require Import Prelude Json World Consensus ConsensusProps Journal JournalAppend RunLaws FoldProps Capability CapabilitySet Permission GrantStore GrantSystem GrantProps GrantTheorems GrantEnvelopes JournalGrants JournalSound JournalGrantProps.
#[local] Open Scope me_scope.
#[local] Existing Instance journal_backend.

Section steps.
Context {J : JsonText} {C : Consensus} {L : ConsensusLaws C} {G : GrantCodec}.
Context (opts : ValidatedOptions) (workspaceRoot : string) (options : JournalGrantStoreOptions).
Context (D : dedicated opts workspaceRoot options).
Notation policy := (jo_policyRunId options).
Notation run := (jo_runId options).
Notation digest := (jo_planDigest options).
Notation sound := (sound [policy; run]).
Notation policy_replay := (policy_replay workspaceRoot options).
Notation run_replay := (run_replay workspaceRoot options).
Notation hook := (persist opts options).
Implicit Types (s : Store) (P R : Replayed).

(** Signatures that have to stay. *)
Context (base : list string).

(** The options a construction passes on, up to what it replayed. *)
Definition configured0 : list Rule := match jo_rules options with [] => [] | c :: _ => c end.
Definition tail0 : list Rule := concat (tl (jo_rules options)).

Record in_step (P R : Replayed) (s : Store) : Prop := mkInStep {
  is_sound : sound (backend s);
  is_policy : policy_replay (backend s) = inr P;
  is_run : run_replay (backend s) = inr R;
  is_configured : configuredRules s = configured0;
  is_remembered : ∃ extra, rememberedRules s = tail0 ++ extra ∧ ∀ r, r ∈ extra ↔ r ∈ rules P;
  is_active : ∀ r, r ∈ envelopeRules s ∨ r ∈ (runRules s).*1 ↔ r ∈ rules R;
  is_signatures : ∀ x, x ∈ grantedEnvelopes s ↔ x ∈ envelopeSignatures P ∨ x ∈ envelopeSignatures R;
  is_base : ∀ x, x ∈ base → x ∈ grantedEnvelopes s
}.

Definition stepped (s : Store) : Prop := ∃ P R, in_step P R s.

(** What [in_step] looks at. *)
Definition view (s : Store) :=
  (configuredRules s, envelopeRules s, runRules s, rememberedRules s, grantedEnvelopes s, backend s).

Lemma in_step_view P R s s' : view s' = view s → in_step P R s → in_step P R s'.
Proof.
  unfold view. intros [= E1 E2 E3 E4 E5 E6] [H1 H2 H3 H4 H5 H6 H7 H8].
  split; rewrite ?E1, ?E2, ?E3, ?E4, ?E5, ?E6; done.
Qed.

Lemma stepped_view s s' : view s' = view s → stepped s → stepped s'.
Proof. intros E (P & R & H). exists P, R. by eapply in_step_view. Qed.

Lemma settle_view kv r s : view (settle kv r s) = view s.
Proof. unfold settle. by destruct (complete_fields (e_deferred kv.2) r s) as [->| ->]. Qed.

Lemma resolve_all_view l s : view (resolve_all l s) = view s.
Proof.
  revert s. induction l as [|kv l IH]; intros s; [done|].
  change (resolve_all (kv :: l) s) with (resolve_all l (if covered s kv.2 then settle kv Succeeded s else s)).
  rewrite IH. destruct (covered s kv.2); [apply settle_view|done].
Qed.

Lemma deny_all_view l s : view (deny_all l s) = view s.
Proof.
  revert s. induction l as [|kv l IH]; intros s; [done|].
  change (deny_all (kv :: l) s) with (deny_all l (snd (complete (e_deferred kv.2)
    (Failed (mkDenied (e_capability kv.2) "grant store closed")) s))).
  rewrite IH. by destruct (complete_fields (e_deferred kv.2) (Failed (mkDenied (e_capability kv.2) "grant store closed")) s) as [->| ->].
Qed.

(** ** Persisting *)

(** An operation that persists an event of this store and goes on. *)
Lemma persist_stepped {A} ev (k : SM A) P R s :
  in_step P R s → own_event workspaceRoot options ev →
  (∀ w, sound w → policy_replay w = inr (grown_policy ev P) → run_replay w = inr (grown_run ev R) →
        stepped (snd (k (recorded ev w s)))) →
  stepped (snd ((GrantStore.persist hook ev ;; k)%me s)).
Proof.
  intros Hin Hev Hk. rewrite persist_then.
  pose proof (persist_grows opts workspaceRoot options D ev (backend s) P R
    (is_sound _ _ _ Hin) (is_policy _ _ _ Hin) (is_run _ _ _ Hin) Hev) as Hg.
  destruct (hook ev (backend s)) as [[e|] w]; destruct Hg as (Hs & HP & HR); [|by apply Hk].
  exists P, R. destruct Hin as [_ _ _ H4 H5 H6 H7 H8]. by split.
Qed.

(** Operations on a store of this journal. *)
Context (o : MakeOptions) (Hrun : o_runId o = Some run) (Hdigest : o_planDigest o = Some digest).

Lemma own_request ev : event_runId ev = default "" (o_runId o) →
  match ev with OnceGrant _ _ _ _ _ _ | DeniedGrant _ _ _ _ _ _ => True | _ => False end →
  own_event workspaceRoot options ev ∧
  (∀ P, grown_policy ev P = P) ∧ ∀ R, grown_run ev R = R.
Proof. rewrite Hrun. intros E. by destruct ev. Qed.

Lemma unchanged_stepped ev w P R s s' :
  in_step P R s → sound w → policy_replay w = inr P → run_replay w = inr R →
  view s' = view (recorded ev w s) → stepped s'.
Proof.
  intros [_ _ _ H4 H5 H6 H7 H8] Hs HP HR E. exists P, R. eapply in_step_view; [exact E|]. by split.
Qed.

Lemma reply_once_stepped id e p s : stepped s → stepped (snd (reply_once o hook id e p s)).
Proof.
  intros (P & R & Hin). unfold reply_once.
  destruct (own_request (OnceGrant id (default "" (o_runId o)) (o_planDigest o) (e_capability e) p (e_tier e)))
    as (Hev & Hp & Hr); [done..|].
  apply (persist_stepped _ _ P R); [done..|]. rewrite Hp, Hr. intros w Hs HP HR.
  rewrite complete_delete_run. eapply unchanged_stepped; [done..|]. apply settle_view.
Qed.

Lemma reply_deny_stepped id e p s : stepped s → stepped (snd (reply_deny o hook id e p s)).
Proof.
  intros (P & R & Hin). unfold reply_deny.
  destruct (own_request (DeniedGrant id (default "" (o_runId o)) (o_planDigest o) (e_capability e) p (e_tier e)))
    as (Hev & Hp & Hr); [done..|].
  apply (persist_stepped _ _ P R); [done..|]. rewrite Hp, Hr. intros w Hs HP HR.
  rewrite complete_delete_run. eapply unchanged_stepped; [done..|]. apply settle_view.
Qed.

Lemma reply_run_stepped id e p s : stepped s → stepped (snd (reply_run o workspaceRoot hook id e p s)).
Proof.
  intros (P & R & Hin). unfold reply_run. rewrite Hdigest. pose proof (dd_digest _ _ _ D) as Hd.
  destruct digest as [|x d] eqn:Ed; [done|]. rewrite <-Ed in *.
  destruct (isValidGrantPattern p (e_capability e) (e_tier e) workspaceRoot) eqn:Hv; cbn [negb];
    [|by exists P, R].
  apply (persist_stepped _ _ P R); [done|by rewrite Hrun|]. intros w Hs HP HR.
  unfold push_run_rule. step. rewrite resolveCovered_run. cbn [snd].
  eapply stepped_view; [apply resolve_all_view|]. exists P, (add_grant p R).
  destruct Hin as [_ _ _ H4 H5 H6 H7 H8]. split; try done. cbn. intros r.
  rewrite fmap_app, !elem_of_app, <-H6. cbn. tauto.
Qed.

Lemma reply_remembered_stepped id e p s :
  stepped s → stepped (snd (reply_remembered o workspaceRoot hook id e p s)).
Proof.
  intros (P & R & Hin). unfold reply_remembered.
  destruct (isValidGrantPattern p (e_capability e) (e_tier e) workspaceRoot) eqn:Hv; cbn [negb];
    [|by exists P, R].
  apply (persist_stepped _ _ P R); [done|by rewrite Hrun|]. intros w Hs HP HR.
  unfold push_remembered. step. rewrite resolveCovered_run. cbn [snd].
  eapply stepped_view; [apply resolve_all_view|]. exists (add_grant p P), R.
  destruct Hin as [_ _ _ H4 (extra & E & H5) H6 H7 H8]. split; try done. cbn.
  exists (extra ++ [mkRule Allow p]). rewrite E, (assoc_L (++)). split; [done|].
  intros r. by rewrite !elem_of_app, H5.
Qed.

Lemma reply_stepped requestId resolution supplied s :
  stepped s → stepped (snd (reply o workspaceRoot hook requestId resolution supplied s)).
Proof.
  intros Hs. unfold reply. step. cbn [id].
  destruct (closed s); [done|]. destruct (negb _); [done|].
  destruct (assoc requestId (pending s)) as [e|]; [|done].
  repeat case_bool_decide; [by apply reply_once_stepped|by apply reply_run_stepped
    |by apply reply_remembered_stepped|by apply reply_deny_stepped].
Qed.

(** ** Envelopes *)

Lemma activate_run scope ps s :
  activate_envelope scope ps s =
  (inr tt, with_rules (if bool_decide (scope = "remembered") then envelopeRules s else envelopeRules s ++ allow_all ps)
             (if bool_decide (scope = "remembered") then rememberedRules s ++ allow_all ps else rememberedRules s)
             (runRules s) s).
Proof. unfold activate_envelope, push_remembered, push_envelope. by case_bool_decide. Qed.

(** A recorded envelope, activated. *)
Lemma envelope_stepped d scope ps w P R s s' (ev := EnvelopeGrant run d ps scope) :
  in_step P R s → sound w → policy_replay w = inr (grown_policy ev P) → run_replay w = inr (grown_run ev R) →
  view s' = view (snd (activate_envelope scope ps
              (with_envelopes (grantedEnvelopes s ++ [envelopeSignature d scope ps]) (recorded ev w s)))) →
  stepped s'.
Proof.
  intros [_ _ _ H4 (extra & E & H5) H6 H7 H8] Hs HP HR Hv.
  exists (grown_policy ev P), (grown_run ev R). eapply in_step_view; [exact Hv|].
  rewrite activate_run. cbn [snd]. unfold ev, grown_policy, grown_run in *.
  case_bool_decide; split; cbn in *; try done.
  - exists (extra ++ allow_all ps). rewrite E, (assoc_L (++)). split; [done|].
    intros r. by rewrite !elem_of_app, H5.
  - intros x. rewrite elem_of_app, H7, set_add_in, list_elem_of_singleton. tauto.
  - intros x Hx. apply elem_of_app. left. by apply H8.
  - by exists extra.
  - intros r. rewrite !elem_of_app, <-H6. tauto.
  - intros x. rewrite elem_of_app, H7, set_add_in, list_elem_of_singleton. tauto.
  - intros x Hx. apply elem_of_app. left. by apply H8.
Qed.
(** An envelope that was recorded is active already. *)
Lemma envelope_again d scope ps P R s :
  in_step P R s → isEnvelopeScope scope = true → envelopeSignature d scope ps ∈ grantedEnvelopes s →
  in_step P R (snd (activate_envelope scope ps s)).
Proof.
  intros [H1 H2 H3 H4 (extra & E & H5) H6 H7 H8] Hsc Hin. rewrite activate_run. cbn [snd].
  pose proof (policy_consistent opts workspaceRoot options D _ _ H2) as HP.
  pose proof (run_consistent opts workspaceRoot options D _ _ H3) as HR.
  apply H7 in Hin as [(d' & qs & (-> & -> & Hps)%signature_inj & Hq)%(cn_signatures _ _ _ HP)
                     |(d' & qs & (-> & -> & Hps)%signature_inj & Hq)%(cn_signatures _ _ _ HR)].
  - rewrite bool_decide_eq_true_2 by done. split; cbn; try done.
    exists (extra ++ allow_all ps). rewrite E, (assoc_L (++)). split; [done|].
    intros r. rewrite elem_of_app, H5, allow_all_in. split; [|by left].
    intros [|(p & -> & Hp)]; [done|]. by apply Hq, Hps.
  - rewrite bool_decide_eq_false_2 by done. split; cbn; try done; [by exists extra|].
    intros r. rewrite elem_of_app, <-H6, allow_all_in. split; [|tauto].
    intros [[|(p & -> & Hp)]|]; [tauto| |tauto]. apply H6. by apply Hq, Hps.
Qed.

(** What a fitting envelope is. *)
Lemma fits_spec scope d ps :
  envelope_fits o workspaceRoot scope d ps = true →
  isEnvelopeScope scope = true ∧ d = digest ∧
  own_event workspaceRoot options (EnvelopeGrant (default "" (o_runId o)) d (canonicalEnvelopePatterns ps) scope).
Proof.
  unfold envelope_fits. rewrite !andb_true_iff, bool_decide_eq_true, Hdigest, forallb_forall.
  intros [[[Hsc [= <-]] _] Hps]. split_and!; try done. rewrite Hrun. split; [done|]. split_and!; [done..|].
  intros p Hp. apply Hps, list_elem_of_In. by apply canonical_in.
Qed.

Lemma grantEnvelope_stepped eo s : stepped s → stepped (snd (grantEnvelope o workspaceRoot hook eo s)).
Proof.
  intros (P & R & Hin). assert (stepped s) as Hs by by exists P, R.
  unfold grantEnvelope. step. cbn [id]. cbv zeta.
  destruct (closed s); [done|].
  destruct (envelope_fits _ _ _ _ _) eqn:Hfit; cbn [negb]; [|done].
  apply fits_spec in Hfit as (Hsc & Hd & Hev).
  case_bool_decide; [done|]. case_bool_decide; [done|].
  apply (persist_stepped _ _ P R); [done..|]. intros w Hsd HP HR. step.
  unfold bind at 1. rewrite activate_run. rewrite resolveCovered_run. cbn [snd].
  rewrite Hrun in *. cbn [from_option id] in *.
  eapply (envelope_stepped _ _ _ w P R s); [done..|]. rewrite resolve_all_view, activate_run. done.
Qed.

(** ** Every step of the system *)

(** The operations of this store: they persist through its journal, and others only
    add what a replay does not read. *)
(** An operation on the journal that a replay does not notice. *)
Definition unrelated (f : World → World) : Prop := ∀ w, sound w →
  sound (f w) ∧ policy_replay (f w) = policy_replay w ∧ run_replay (f w) = run_replay w.

(** Another producer's append, taken or not, is unrelated. *)
Lemma foreign_unrelated input :
  in_sourceId input ≠ jo_sourceId options → in_sourceSeq input = None →
  unrelated (λ w, snd (emitDurable opts input None w)).
Proof.
  intros Hsrc Hnone w Hs. destruct (emitDurable opts input None w) as [[e|rc] w'] eqn:Hem; cbn.
  - apply emit_failed in Hem; [|by eapply sd_open]. destruct (proc_step_sound _ _ _ Hs Hem) as [Hs' Hh].
    unfold policy_replay, run_replay. by rewrite !Hh.
  - destruct (emit_appends opts _ _ _ _ _ Hs Hnone Hem) as (Hs' & e & _ & He & Hh). split; [done|].
    assert (decodeTrustedEntry (jo_sourceId options) e = inr None) as Hd.
    { unfold decodeTrustedEntry. by rewrite He, bool_decide_eq_false_2. }
    unfold policy_replay, run_replay. rewrite !Hh, !replay_entries_app.
    split; repeat case_bool_decide; repeat case_match; try done; cbn; unfold remembered_entry, run_entry; by rewrite Hd.
Qed.

Definition journaled (op : Op) : Prop :=
  match op with
  | Reply h _ _ _ | Envelope h _ => h = hook
  | Outside f => unrelated f
  | _ => True
  end.

Lemma perform_stepped op sys :
  journaled op → stepped (store sys) → stepped (store (snd (perform o workspaceRoot op sys))).
Proof.
  destruct sys as [s fs]. cbn [store]. intros Hj Hs.
  destruct op as [ceiling c meta|h id res sup|h eo| | |i|i|i|f]; cbn [perform journaled] in *; unfold serve; cbn [store].
  - unfold check. step. cbn [id]. destruct (closed s); [done|]. destruct (negb _); [done|].
    destruct (evaluate _ c); [done..|]. destruct (default true (o_attended o)).
    + step_by (allocateRequest_run c (tierOf c workspaceRoot) meta ceiling s). by apply (stepped_view s).
    + step_by (nextId_run s). by apply (stepped_view s).
  - subst. pose proof (reply_stepped id res sup s Hs). by destruct (reply _ _ _ _ _ _ s).
  - subst. pose proof (grantEnvelope_stepped eo s Hs). by destruct (grantEnvelope _ _ _ _ s).
  - done.
  - rewrite close_run. cbn. eapply stepped_view; [|exact Hs]. by rewrite deny_all_view.
  - by repeat case_match.
  - by repeat case_match.
  - repeat case_match; try done; by apply (stepped_view s).
  - destruct Hs as (P & R & [H1 H2 H3 H4 H5 H6 H7 H8]). destruct (Hj _ H1) as (H1' & H2' & H3').
    exists P, R. split; cbn; done || congruence.
Qed.

Lemma performs_stepped ops sys :
  Forall journaled ops → stepped (store sys) → stepped (store (performs o workspaceRoot ops sys)).
Proof.
  intros Hops. revert sys. induction Hops as [|op ops Hop _ IH]; intros sys Hs; [done|].
  by apply IH, perform_stepped.
Qed.
End steps.
