(* ===== verification/JournalGrantTheorems.v ===== *)
(** * What a journal-backed grant store guarantees

    A store rebuilt from its journal decides as the store that wrote it; a
    construction whose envelope is durable already appends nothing, however stale what
    it replayed; replay reads a run's whole history. *)

From S2P Require Import Prelude Json World Consensus ConsensusProps Journal JournalAppend RunLaws FoldProps SqlConsensus JournalRead Capability CapabilitySet Permission GrantStore GrantSystem GrantProps GrantTheorems GrantEnvelopes JournalGrants JournalSound JournalGrantProps JournalGrantSteps.
#[local] Open Scope me_scope.
#[local] Existing Instance journal_backend.

(** Replay reads the whole history and ends.  Both replays of a construction, over
    any sound journal, give what their loop body computes over the run's history from
    first to last, or the first refusal of the body; they leave the journal as it is,
    never meet a page that does not advance and never run out of pages.  A run whose
    history is compacted is refused instead. *)
Theorem replay_reads_history {J : JsonText} {G : GrantCodec} root r sourceId planDigest (w : World) :
  journal_ok w → journal_ordered w → nonempty r = true →
  let compacted := inl (Cause (jerror_at "compacted" (default 0%Z (floor_of w r)))) in
  replayRememberedRules root r sourceId w =
    (if above_floor w r (-1) then
       answer_of (replay_entries (remembered_entry root sourceId) nothing_replayed (history r w))
     else compacted, w) ∧
  replayRunRules root r sourceId planDigest w =
    (if above_floor w r (-1) then
       answer_of (replay_entries (run_entry root r sourceId planDigest) nothing_replayed (history r w))
     else compacted, w).
Proof.
  intros Hj Ho Hr. cbv zeta. unfold replayRememberedRules, replayRunRules. split; step;
    (destruct (above_floor w r (-1)) eqn:Hfl; [by apply replay_whole|by apply replay_compacted]).
Qed.

(** ** Verdicts *)

Definition verdict `{Backend} (s : Store) (c : Capability) : RuleEffect := evaluate (rulesets s c) c.

Definition selects (c : Capability) (rs : list Rule) : bool := existsb (λ r, matches (pattern r) c) rs.

Lemma selects_in c rs : selects c rs = true ↔ ∃ r, r ∈ rs ∧ matches (pattern r) c = true.
Proof.
  unfold selects. rewrite existsb_exists. by setoid_rewrite list_elem_of_In.
Qed.

(** Rules that only allow. *)
Lemma fold_allowing c rs eff :
  (∀ r, r ∈ rs → effect r = Allow) →
  fold_left (apply_rule c) rs eff = if selects c rs then Allow else eff.
Proof.
  revert eff. induction rs as [|r rs IH]; intros eff Hrs; [done|]. cbn.
  rewrite IH by (intros r' Hr'; apply Hrs; by right). unfold apply_rule.
  rewrite (Hrs r) by (by left). destruct (matches (pattern r) c); cbn; [|done]. by destruct (selects c rs).
Qed.

(** The verdict of a store whose rules, past the configured ones and [tail], allow. *)
Lemma verdict_spec `{Backend} s c tail extra :
  rememberedRules s = tail ++ extra →
  (∀ r, r ∈ envelopeRules s ++ (runRules s).*1 ++ extra → effect r = Allow) →
  verdict s c =
  if bool_decide (configured_effect (configuredRules s) c = Deny) then Deny
  else if selects c extra then Allow
  else fold_left (apply_rule c) tail
         (if selects c (envelopeRules s ++ (List.filter (λ rc, allows rc.2 c) (runRules s)).*1) then Allow
          else configured_effect (configuredRules s) c).
Proof.
  intros Hr Ha. unfold verdict, rulesets. case_bool_decide as Hd; [by apply evaluate_veto|].
  rewrite evaluate_spec by done. cbn [concat]. rewrite app_nil_r, Hr.
  rewrite fold_left_app. fold (configured_effect (configuredRules s) c).
  rewrite (assoc_L (++)), fold_left_app, (fold_left_app _ tail extra).
  rewrite (fold_allowing c extra) by (intros r Hx; apply Ha; rewrite !elem_of_app; tauto).
  rewrite (fold_allowing c (_ ++ _)); [done|].
  intros r [Hx|Hx]%elem_of_app; apply Ha, elem_of_app; [by left|right; apply elem_of_app; left].
  apply list_elem_of_fmap in Hx as (rc & -> & Hx). apply elem_of_filter_b in Hx as [Hx _].
  by apply list_elem_of_fmap_2.
Qed.

(** More rules allow more. *)
Lemma fold_monotone c tail e1 e2 :
  (e1 = Allow → e2 = Allow) → fold_left (apply_rule c) tail e1 = Allow → fold_left (apply_rule c) tail e2 = Allow.
Proof.
  revert e1 e2. induction tail as [|r tail IH]; intros e1 e2 He; cbn; [done|].
  apply IH. unfold apply_rule. by destruct (matches (pattern r) c).
Qed.

Section theorems.
Context {J : JsonText} {C : Consensus} {L : ConsensusLaws C} {G : GrantCodec}.
Context (opts : ValidatedOptions) (workspaceRoot : string) (options : JournalGrantStoreOptions).
Notation policy := (jo_policyRunId options).
Notation run := (jo_runId options).
Notation digest := (jo_planDigest options).
Notation sound := (sound [policy; run]).
Notation policy_replay := (policy_replay workspaceRoot options).
Notation run_replay := (run_replay workspaceRoot options).
Notation hook := (persist opts options).
Notation in_step := (in_step workspaceRoot options).
Notation consistent := (consistent workspaceRoot).
Implicit Types (s : Store) (P R : Replayed) (w : World).

(** ** Construction *)

Section construction.
Context (D : dedicated opts workspaceRoot options).

Lemma normalized P R :
  normalizeRules (o_rules (store_options options P R)) = (configured0 options, tail0 options ++ rules P).
Proof.
  unfold store_options, configured0, tail0. cbn. destruct (jo_rules options) as [|c rest]; cbn.
  - by rewrite app_nil_r.
  - rewrite concat_app. cbn. by rewrite app_nil_r.
Qed.

Lemma initial_in_step w P R ceiling :
  sound w → policy_replay w = inr P → run_replay w = inr R →
  in_step [] P R (initial_store (store_options options P R) ceiling w).
Proof.
  intros Hs HP HR. unfold initial_store. rewrite normalized. split; cbn; try done.
  - by exists (rules P).
  - intros r. rewrite <-list_fmap_compose. cbn. rewrite list_fmap_id, elem_of_nil. tauto.
  - intros x. by rewrite elem_of_app.
  - intros x ?%not_elem_of_nil. done.
Qed.

(** The envelope of the construction is in order and recorded. *)
Definition envelope_settled (sigs : list string) : Prop :=
  match jo_envelope options with
  | None | Some ([], _) => True
  | Some (ps, sc) =>
      let scope := default "run" sc in
      isEnvelopeScope scope = true ∧ (∀ p, p ∈ ps → isValidEnvelopePattern p workspaceRoot = true) ∧
      envelopeSignature digest scope ps ∈ sigs
  end.

Lemma fits_iff P R scope ps :
  envelope_fits (store_options options P R) workspaceRoot scope digest ps = true ↔
  isEnvelopeScope scope = true ∧ ∀ p, p ∈ ps → isValidEnvelopePattern p workspaceRoot = true.
Proof.
  unfold envelope_fits. rewrite !andb_true_iff, bool_decide_eq_true, forallb_forall.
  setoid_rewrite <-list_elem_of_In. pose proof (dd_digest _ _ _ D) as Hd.
  assert (nonempty digest = true) by (unfold nonempty; by rewrite bool_decide_eq_false_2). cbn. tauto.
Qed.

Lemma canonical_signature d scope ps :
  envelopeSignature d scope (canonicalEnvelopePatterns ps) = envelopeSignature d scope ps.
Proof. apply signature_same. intros p. apply canonical_in. Qed.

(** Constructing over an envelope that is recorded activates it and writes nothing. *)
Lemma construct_settled P0 R0 s :
  envelope_settled (grantedEnvelopes s) →
  ∃ s', construct_envelope (store_options options P0 R0) workspaceRoot hook s = (inr tt, s') ∧
        backend s' = backend s ∧ runRules s' = runRules s ∧
        ∀ base P R, in_step base P R s → in_step base P R s'.
Proof.
  unfold envelope_settled, construct_envelope. cbn [o_envelope store_options].
  destruct (jo_envelope options) as [[ps sc]|]; cbn [fmap option_fmap option_map eo_patterns fst snd eo_scope eo_planDigest];
    [|intros _; by exists s].
  case_bool_decide as Hps; [subst; intros _; by exists s|].
  destruct ps as [|p ps]; [done|]. cbv zeta. intros (Hsc & Hv & Hsig).
  rewrite (proj2 (fits_iff _ _ _ _)) by done. cbn [negb]. step. cbn [id].
  rewrite canonical_signature, bool_decide_eq_true_2 by done. step.
  eexists. split; [apply activate_run|]. split_and!; [done..|]. intros base P R Hin.
  pose proof (envelope_again opts workspaceRoot options D base digest (default "run" sc)
    (canonicalEnvelopePatterns (p :: ps)) P R s Hin Hsc ltac:(by rewrite canonical_signature)) as He.
  by rewrite activate_run in He.
Qed.

(** A construction that succeeds records its envelope. *)
Lemma construct_inv P R s s' :
  in_step [] P R s → construct_envelope (store_options options P R) workspaceRoot hook s = (inr tt, s') →
  stepped workspaceRoot options [] s' ∧ envelope_settled (grantedEnvelopes s').
Proof.
  intros Hin. unfold envelope_settled, construct_envelope. cbn [o_envelope store_options].
  destruct (jo_envelope options) as [[ps sc]|]; cbn [fmap option_fmap option_map eo_patterns fst snd eo_scope eo_planDigest];
    [|intros [= <-]; split; [by exists P, R|done]].
  case_bool_decide as Hps; [subst; intros [= <-]; split; [by exists P, R|done]|].
  destruct ps as [|p ps]; [done|]. cbv zeta.
  destruct (envelope_fits _ _ _ _ _) eqn:Hfit; cbn [negb]; [|done].
  pose proof (proj1 (fits_iff _ _ _ _) Hfit) as [Hsc Hv].
  apply (fits_spec workspaceRoot options (store_options options P R) eq_refl eq_refl) in Hfit as (_ & _ & Hev).
  step. cbn [id]. set (qs := canonicalEnvelopePatterns (p :: ps)) in *.
  rewrite <-(canonical_signature digest (default "run" sc) (p :: ps)). fold qs. case_bool_decide as Hsig.
  - step. rewrite activate_run. intros [= <-]. split; [|done].
    exists P, R. pose proof (envelope_again opts workspaceRoot options D [] _ _ _ P R s Hin Hsc Hsig) as He.
    by rewrite activate_run in He.
  - unfold bind at 1. rewrite persist_then.
    pose proof (persist_grows opts workspaceRoot options D _ (backend s) P R
      (is_sound _ _ _ _ _ _ Hin) (is_policy _ _ _ _ _ _ Hin) (is_run _ _ _ _ _ _ Hin) Hev) as Hg.
    destruct (hook _ (backend s)) as [[e|] w]; [done|]. destruct Hg as (Hs & HP & HR).
    cbn [modify]. rewrite activate_run. intros [= <-]. split.
    + eapply (envelope_stepped workspaceRoot options [] digest _ qs w P R s); [done..|]. by rewrite activate_run.
    + split_and!; [done..|]. cbn. apply elem_of_app. right. by left.
Qed.

Lemma unsafe_app l1 l2 :
  allows_unsafe workspaceRoot (l1 ++ l2) = allows_unsafe workspaceRoot l1 || allows_unsafe workspaceRoot l2.
Proof. apply existsb_app. Qed.

Lemma consistent_safe scope P : consistent scope P → allows_unsafe workspaceRoot (rules P) = false.
Proof.
  intros [Hr _]. apply existsb_false. intros r Hin. destruct (Hr r Hin) as [_ ->]. by rewrite andb_false_r.
Qed.

Lemma initial_unsafe P R ceiling w :
  consistent "remembered" P → consistent "run" R →
  let s := initial_store (store_options options P R) ceiling w in
  allows_unsafe workspaceRoot (rememberedRules s) || allows_unsafe workspaceRoot (runRules s).*1 =
  allows_unsafe workspaceRoot (tail0 options).
Proof.
  intros HP HR. unfold initial_store. rewrite normalized. cbn [rememberedRules runRules store_options o_runRules].
  rewrite unsafe_app.
  rewrite <-list_fmap_compose. cbn [fst compose]. rewrite list_fmap_id.
  by rewrite (consistent_safe _ _ HP), (consistent_safe _ _ HR), !orb_false_r.
Qed.

Lemma build_settled P R ceiling w :
  consistent "remembered" P → consistent "run" R → allows_unsafe workspaceRoot (tail0 options) = false →
  envelope_settled (envelopeSignatures P ++ envelopeSignatures R) →
  ∃ s, build opts workspaceRoot options ceiling P R w = (inr s, w) ∧
       (∀ rc, rc ∈ runRules s → rc.2 = ceiling) ∧
       (sound w → policy_replay w = inr P → run_replay w = inr R → in_step [] P R s).
Proof.
  intros HP HR Hsafe Hset. unfold build, GrantStore.make. rewrite (initial_unsafe P R ceiling w HP HR), Hsafe.
  set (s0 := initial_store _ _ _).
  assert (grantedEnvelopes s0 = envelopeSignatures P ++ envelopeSignatures R ∧ backend s0 = w ∧
          runRules s0 = (λ r, (r, ceiling)) <$> rules R) as (Eg & Eb & Er).
  { unfold s0, initial_store. by rewrite normalized. }
  destruct (construct_settled P R s0) as (s & -> & Eb' & Er' & Hin); [by rewrite Eg|].
  exists s. rewrite Eb', Eb. split_and!; [done|..].
  - rewrite Er', Er. by intros rc (r & -> & _)%list_elem_of_fmap.
  - intros Hs Hp Hr. by apply Hin, initial_in_step.
Qed.

Lemma build_inv P R ceiling w s w' :
  sound w → policy_replay w = inr P → run_replay w = inr R →
  build opts workspaceRoot options ceiling P R w = (inr s, w') →
  backend s = w' ∧ allows_unsafe workspaceRoot (tail0 options) = false ∧
  stepped workspaceRoot options [] s ∧ envelope_settled (grantedEnvelopes s).
Proof.
  intros Hs HP HR. unfold build, GrantStore.make.
  rewrite initial_unsafe by (eapply policy_consistent || eapply run_consistent; done).
  destruct (allows_unsafe _ _); [done|].
  destruct (construct_envelope _ _ _ _) as [[e|[]] s'] eqn:Hc; [done|]. intros [= -> <-].
  apply construct_inv in Hc as [Hst Hset]; [done|]. by apply initial_in_step.
Qed.

(** Under the lock the target history is read again; alone, that changes nothing. *)
Lemma finish_current P R ceiling w :
  sound w → policy_replay w = inr P → run_replay w = inr R →
  finish opts workspaceRoot options ceiling P R w = build opts workspaceRoot options ceiling P R w.
Proof.
  intros Hs HP HR. unfold finish. destruct (jo_envelope options) as [[[|p ps] sc]|]; [done| |done].
  cbv zeta. destruct (bool_decide (_ ∈ _)); [done|]. unfold build_locked.
  assert (replayPolicy workspaceRoot options w = (inr P, w)) as Hp by (by rewrite (replayPolicy_run opts), HP).
  assert (replayRun workspaceRoot options w = (inr R, w)) as Hr by (by rewrite (replayRun_run opts), HR).
  case_bool_decide; [by step_by Hp|by step_by Hr].
Qed.

Lemma make_run ceiling w : sound w →
  make opts workspaceRoot options ceiling w =
  match policy_replay w, run_replay w with
  | inr P, inr R => build opts workspaceRoot options ceiling P R w
  | inl e, _ | inr _, inl e => (inl (EStore e), w)
  end.
Proof.
  intros Hs. unfold make. rewrite bool_decide_eq_false_2 by apply (dd_digest _ _ _ D).
  pose proof (replayPolicy_run opts workspaceRoot options D w Hs) as Hp.
  pose proof (replayRun_run opts workspaceRoot options D w Hs) as Hr.
  destruct (policy_replay w) as [e|P] eqn:HP; [by step_by Hp|]. step_by Hp.
  destruct (run_replay w) as [e|R] eqn:HR; [by step_by Hr|]. step_by Hr. by apply finish_current.
Qed.
(** ** A store in step decides by its replays *)

Lemma selects_same c rs rs' : (∀ r, r ∈ rs ↔ r ∈ rs') → selects c rs = selects c rs'.
Proof. intros H. apply eq_true_iff_eq. rewrite !selects_in. by setoid_rewrite H. Qed.

(** The rules that may be active for [c]. *)
Definition active (s : Store) (c : Capability) : list Rule :=
  envelopeRules s ++ (List.filter (λ rc, allows rc.2 c) (runRules s)).*1.

Lemma active_sub base P R s c r : in_step base P R s → r ∈ active s c → r ∈ rules R.
Proof.
  intros Hin Hr. apply (is_active _ _ _ _ _ _ Hin). unfold active in Hr.
  apply elem_of_app in Hr as [Hr|(rc & -> & Hx)%list_elem_of_fmap]; [by left|right].
  apply elem_of_filter_b in Hx as [Hx _]. by apply list_elem_of_fmap_2.
Qed.

Lemma active_all base P R s c : in_step base P R s →
  (∀ r ce, (r, ce) ∈ runRules s → allows ce c = true) → ∀ r, r ∈ active s c ↔ r ∈ rules R.
Proof.
  intros Hin Hall r. split; [by eapply active_sub|]. intros [Hr|([r' ce] & -> & Hx)%list_elem_of_fmap]%(is_active _ _ _ _ _ _ Hin);
    apply elem_of_app; [by left|right]. apply (list_elem_of_fmap_2 fst _ (r', ce)).
  apply elem_of_filter_b. split; [done|]. by apply (Hall r').
Qed.

Lemma step_verdict base P R s c : in_step base P R s →
  verdict s c =
  if bool_decide (configured_effect (configured0 options) c = Deny) then Deny
  else if selects c (rules P) then Allow
  else fold_left (apply_rule c) (tail0 options)
         (if selects c (active s c) then Allow else configured_effect (configured0 options) c).
Proof.
  intros Hin. destruct (is_remembered _ _ _ _ _ _ Hin) as (extra & Er & He).
  rewrite (verdict_spec s c (tail0 options) extra), (is_configured _ _ _ _ _ _ Hin); [|done|].
  - by rewrite (selects_same c extra (rules P)).
  - pose proof (policy_consistent opts workspaceRoot options D _ _ (is_policy _ _ _ _ _ _ Hin)) as HP.
    pose proof (run_consistent opts workspaceRoot options D _ _ (is_run _ _ _ _ _ _ Hin)) as HR.
    intros r. rewrite (assoc_L (++)). intros [Hr|Hr%He]%elem_of_app; [|by apply (cn_rules _ _ _ HP)].
    apply (cn_rules _ _ _ HR), (is_active _ _ _ _ _ _ Hin). by apply elem_of_app.
Qed.

Lemma rebuilt_verdict base P R s s1 ceiling c :
  in_step base P R s → in_step [] P R s1 → (∀ rc, rc ∈ runRules s1 → rc.2 = ceiling) → allows ceiling c = true →
  (verdict s c = Allow → verdict s1 c = Allow) ∧
  ((∀ rule at_grant, (rule, at_grant) ∈ runRules s → allows at_grant c = true) → verdict s1 c = verdict s c).
Proof.
  intros Hin Hin1 Hce Hc. rewrite (step_verdict base P R s), (step_verdict [] P R s1) by done.
  assert (∀ r, r ∈ active s1 c ↔ r ∈ rules R) as Hact.
  { eapply active_all; [done|]. intros r ce Hr. apply Hce in Hr as <-. done. }
  rewrite (selects_same c (active s1 c) (rules R)) by done. split.
  - case_bool_decide; [done|]. destruct (selects c (rules P)); [done|]. apply fold_monotone.
    destruct (selects c (active s c)) eqn:Hs; [intros _|by destruct (selects c (rules R))].
    apply selects_in in Hs as (r & Hr & Hm).
    assert (selects c (rules R) = true) as ->; [|done].
    apply selects_in. exists r. split; [by apply (active_sub base P R s c)|done].
  - intros Hall. by rewrite (selects_same c (active s c) (rules R)) by by apply (active_all base P R s c).
Qed.

(** ** After a construction *)

(** The signature the construction has to find again. *)
Definition pinned : list string :=
  match jo_envelope options with
  | None | Some ([], _) => []
  | Some (ps, sc) => [envelopeSignature digest (default "run" sc) ps]
  end.

Lemma settled_pinned l l' : envelope_settled l → (∀ x, x ∈ pinned → x ∈ l') → envelope_settled l'.
Proof.
  unfold envelope_settled, pinned. destruct (jo_envelope options) as [[[|p ps] sc]|]; [done| |done].
  intros (Hsc & Hv & _) Hin. split_and!; [done..|]. apply Hin. by left.
Qed.

Lemma pinned_settled l x : envelope_settled l → x ∈ pinned → x ∈ l.
Proof.
  unfold envelope_settled, pinned. destruct (jo_envelope options) as [[[|p ps] sc]|]; try by intros _ ?%not_elem_of_nil.
  by intros (_ & _ & Hs) ->%list_elem_of_singleton.
Qed.

(** Every later state of a store that was constructed. *)
Lemma later_in_step ceiling P0 R0 w0 s0 w1 ops :
  sound w0 → make opts workspaceRoot options ceiling w0 = (inr s0, w1) →
  Forall (journaled opts workspaceRoot options) ops →
  let s := store (performs (store_options options P0 R0) workspaceRoot ops (mkSystem s0 [])) in
  allows_unsafe workspaceRoot (tail0 options) = false ∧ envelope_settled (grantedEnvelopes s) ∧
  ∃ P R, in_step pinned P R s.
Proof.
  intros Hs. rewrite make_run by done.
  destruct (policy_replay w0) as [e|P] eqn:HP; [done|]. destruct (run_replay w0) as [e|R] eqn:HR; [done|].
  intros Hb Hops. cbv zeta. apply build_inv in Hb as (_ & Hsafe & (P1 & R1 & Hin) & Hset); [|done..].
  assert (stepped workspaceRoot options pinned s0) as Hst.
  { exists P1, R1. destruct Hin as [I1 I2 I3 I4 I5 I6 I7 _]. split; try done. intros x. by apply pinned_settled. }
  split; [done|].
  destruct (performs_stepped opts workspaceRoot options D pinned (store_options options P0 R0) eq_refl eq_refl
              ops (mkSystem s0 []) Hops Hst) as (P2 & R2 & Hin2).
  split; [|by exists P2, R2]. eapply settled_pinned; [exact Hset|]. apply (is_base _ _ _ _ _ _ Hin2).
Qed.

Lemma settled_replays base P R s :
  in_step base P R s → envelope_settled (grantedEnvelopes s) →
  envelope_settled (envelopeSignatures P ++ envelopeSignatures R).
Proof.
  intros Hin Hset. eapply settled_pinned; [exact Hset|]. intros x Hx.
  apply elem_of_app, (is_signatures _ _ _ _ _ _ Hin). by eapply pinned_settled.
Qed.

(** C5. A restart neither loses nor invents authority. Take a store that was built
    over a well-formed, uncompacted journal and worked: requests, replies,
    envelopes, closing, with other producers writing to the same journal in between.
    Building a store with the same options over the journal as it then is succeeds
    and appends nothing, and every capability within the new ceiling that the first
    store allowed is allowed; when it also lies within the ceilings the run grants
    were made under, the two stores reach the same verdict on it. Asked of the
    construction ([dedicated]): the policy run is not the run, ids and plan digest
    are not empty, the workspace root holds no wildcard ([wildcard_root_locks_out]
    is such a root), and the journal's redactor leaves grant events decodable to
    themselves. The default redactor does not promise the last: a grant whose
    pattern a rule rewrites replays as another ([redacted_grant_is_lost]). *)
Theorem restart_keeps_authority ceiling ceiling' P0 R0 w0 s0 w1 ops :
  sound w0 → make opts workspaceRoot options ceiling w0 = (inr s0, w1) →
  Forall (journaled opts workspaceRoot options) ops →
  let s := store (performs (store_options options P0 R0) workspaceRoot ops (mkSystem s0 [])) in
  ∃ s1, make opts workspaceRoot options ceiling' (backend s) = (inr s1, backend s) ∧
  ∀ c, allows ceiling' c = true →
    (verdict s c = Allow → verdict s1 c = Allow) ∧
    ((∀ rule at_grant, (rule, at_grant) ∈ runRules s → allows at_grant c = true) → verdict s1 c = verdict s c).
Proof.
  intros Hs Hm Hops. cbv zeta. destruct (later_in_step _ P0 R0 _ _ _ _ Hs Hm Hops) as (Hsafe & Hset & P & R & Hin).
  set (s := store _) in *. pose proof (is_sound _ _ _ _ _ _ Hin) as Hsd.
  pose proof (is_policy _ _ _ _ _ _ Hin) as HP. pose proof (is_run _ _ _ _ _ _ Hin) as HR.
  destruct (build_settled P R ceiling' (backend s)) as (s1 & Hb & Hce & Hin1); [| |done| |].
  - by eapply policy_consistent.
  - by eapply run_consistent.
  - by eapply settled_replays.
  - exists s1. rewrite make_run, HP, HR by done. split; [exact Hb|]. intros c Hc.
    eapply rebuilt_verdict; [exact Hin|by apply Hin1|exact Hce|done].
Qed.

(** Racing constructions append their envelope once.  A construction that replayed
    the journal at any earlier time, before or after another one with the same options
    recorded their common envelope, finds it when it takes the lock: it succeeds and
    leaves the journal as it is. *)
Theorem envelope_appended_once ceiling ceiling' P0 R0 w0 s0 w1 ops stale P R :
  sound w0 → make opts workspaceRoot options ceiling w0 = (inr s0, w1) →
  Forall (journaled opts workspaceRoot options) ops →
  policy_replay stale = inr P → run_replay stale = inr R →
  let w := backend (store (performs (store_options options P0 R0) workspaceRoot ops (mkSystem s0 []))) in
  ∃ s1, finish opts workspaceRoot options ceiling' P R w = (inr s1, w).
Proof.
  intros Hs Hm Hops HP HR. cbv zeta.
  destruct (later_in_step _ P0 R0 _ _ _ _ Hs Hm Hops) as (Hsafe & Hset & P1 & R1 & Hin).
  set (s := store _) in *. pose proof (is_sound _ _ _ _ _ _ Hin) as Hsd.
  pose proof (is_policy _ _ _ _ _ _ Hin) as HP1. pose proof (is_run _ _ _ _ _ _ Hin) as HR1.
  pose proof (policy_consistent opts workspaceRoot options D _ _ HP) as CP.
  pose proof (run_consistent opts workspaceRoot options D _ _ HR) as CR.
  pose proof (policy_consistent opts workspaceRoot options D _ _ HP1) as CP1.
  pose proof (run_consistent opts workspaceRoot options D _ _ HR1) as CR1.
  assert (∀ P R, consistent "remembered" P → consistent "run" R →
    envelope_settled (envelopeSignatures P ++ envelopeSignatures R) →
    ∃ s1, build opts workspaceRoot options ceiling' P R (backend s) = (inr s1, backend s)) as Hbuild.
  { intros P2 R2 C2 C2' Hset2. destruct (build_settled P2 R2 ceiling' (backend s)) as (s1 & Hb & _); [done..|].
    by exists s1. }
  unfold finish. pose proof (settled_replays _ _ _ _ Hin Hset) as Hset1.
  unfold envelope_settled in *. destruct (jo_envelope options) as [[[|p ps] sc]|]; [by apply Hbuild| |by apply Hbuild].
  cbv zeta. destruct Hset1 as (Hsc & Hv & Hsig).
  case_bool_decide as Hst.
  - apply Hbuild; [done..|]. split_and!; [done..|]. apply elem_of_app.
    case_bool_decide; [by left|by right].
  - unfold build_locked.
    assert (replayPolicy workspaceRoot options (backend s) = (inr P1, backend s)) as Hp
      by (by rewrite (replayPolicy_run opts), HP1).
    assert (replayRun workspaceRoot options (backend s) = (inr R1, backend s)) as Hr
      by (by rewrite (replayRun_run opts), HR1).
    apply elem_of_app in Hsig as [Hsig|Hsig].
    + pose proof Hsig as (d & qs & (_ & Hrem & _)%signature_inj & _)%(cn_signatures _ _ _ CP1).
      rewrite bool_decide_eq_true_2 by done. step_by Hp.
      apply Hbuild; [done..|]. split_and!; [done..|]. apply elem_of_app. by left.
    + pose proof Hsig as (d & qs & (_ & Hrun & _)%signature_inj & _)%(cn_signatures _ _ _ CR1).
      rewrite bool_decide_eq_false_2 by (by rewrite Hrun). step_by Hr.
      apply Hbuild; [done..|]. split_and!; [done..|]. apply elem_of_app. by right.
Qed.
End construction.
End theorems.

(** ** Concrete stores *)

(** One codec for grant events: a record as the list of its fields. *)
Module ListCodec.
Definition capability_json (c : Capability) : json := JArr [JStr (action_text (action c)); JStr (resource c)].
Definition pattern_json (p : CapabilityPattern) : json :=
  JArr [JStr (pattern_text (p_action p)); JStr (p_resource p)].
Definition opt_json (o : option string) : json := match o with Some s => JStr s | None => JNull end.

Definition to_capability (j : json) : option Capability :=
  match j with
  | JArr [JStr a; JStr r] => (λ a, mkCapability a r) <$> action_of_text a
  | _ => None
  end.
Definition to_pattern (j : json) : option CapabilityPattern :=
  match j with
  | JArr [JStr a; JStr r] =>
      (λ a, mkPattern a r) <$> List.find (λ b, bool_decide (pattern_text b = a))
                                 ([FsAny; NetAny; ModelAny; ProcAny; JjAny; AnyAction] ++ (Exactly <$> actions))
  | _ => None
  end.
Definition to_opt (j : json) : option string := match j with JStr s => Some s | _ => None end.
Definition to_tier (s : string) : EffectTier :=
  if bool_decide (s = "sealed") then Sealed
  else if bool_decide (s = "compensable") then Compensable else Irreversible.

Definition request_json (kind id r : string) (d : option string) (c : Capability) (p : CapabilityPattern)
    (tier : EffectTier) : json :=
  JArr [JStr kind; JStr id; JStr r; opt_json d; capability_json c; pattern_json p; JStr (tier_text tier)].

Definition encode_event (ev : GrantEvent) : json :=
  match ev with
  | OnceGrant id r d c p tier => request_json "once" id r d c p tier
  | RunGrant id r d c p tier => request_json "run" id r (Some d) c p tier
  | RememberedGrant id r d c p tier => request_json "remembered" id r d c p tier
  | DeniedGrant id r d c p tier => request_json "denied" id r d c p tier
  | EnvelopeGrant r d ps scope => JArr [JStr r; JStr d; JStr scope; JArr (pattern_json <$> ps)]
  end.

Definition decode_event (j : json) : option GrantEvent :=
  match j with
  | JArr [JStr kind; JStr id; JStr r; d; c; p; JStr tier] =>
      c ← to_capability c; p ← to_pattern p;
      if bool_decide (kind = "once") then Some (OnceGrant id r (to_opt d) c p (to_tier tier))
      else if bool_decide (kind = "run") then (λ d, RunGrant id r d c p (to_tier tier)) <$> to_opt d
      else if bool_decide (kind = "remembered") then Some (RememberedGrant id r (to_opt d) c p (to_tier tier))
      else Some (DeniedGrant id r (to_opt d) c p (to_tier tier))
  | JArr [JStr r; JStr d; JStr scope; JArr ps] => (λ ps, EnvelopeGrant r d ps scope) <$> mapM to_pattern ps
  | _ => None
  end.

Lemma capability_trip c : to_capability (capability_json c) = Some c.
Proof. destruct c as [a r]. cbn. by destruct a. Qed.
Lemma pattern_trip p : to_pattern (pattern_json p) = Some p.
Proof. destruct p as [[a| | | | | |] r]; [by destruct a|done..]. Qed.
Lemma patterns_trip ps : mapM to_pattern (pattern_json <$> ps) = Some ps.
Proof.
  induction ps as [|p ps IH]; [done|].
  change (to_pattern (pattern_json p) ≫= (λ q, mapM to_pattern (pattern_json <$> ps) ≫= λ qs, Some (q :: qs)) = Some (p :: ps)).
  by rewrite pattern_trip, IH.
Qed.
Lemma tier_trip tier : to_tier (tier_text tier) = tier.
Proof. by destruct tier. Qed.

Lemma event_trip ev : decode_event (encode_event ev) = Some ev.
Proof.
  destruct ev; unfold encode_event, request_json, decode_event; cbv beta iota.
  all: rewrite ?capability_trip, ?pattern_trip, ?patterns_trip, ?tier_trip.
  all: try match goal with d : option string |- _ => destruct d end; reflexivity.
Qed.

Definition codec : GrantCodec :=
  {| encode := encode_event; decode := decode_event; decode_encode ev _ := event_trip ev |}.
End ListCodec.

Module JournalGrantDemo.
#[local] Existing Instance plain_json.
#[local] Existing Instance local_consensus.
#[local] Existing Instance ListCodec.codec.

Definition opts : ValidatedOptions := MkValidatedOptions 64 4096 id.
Definition root : string := "/work".
Definition options : JournalGrantStoreOptions :=
  mkJournalOptions "run-1" "policy" "kernel" "plan-1" None []
    (Some ([mkPattern (Exactly NetGet) "**"], None)).
Definition w0 : World := initial_world 10.

Definition started_at (options : JournalGrantStoreOptions) (root : string) (ceiling : CapabilitySet) (w : World) : Store :=
  match make opts root options ceiling w with
  | (inr s, _) => s
  | (inl _, _) => initial_store (store_options options nothing_replayed nothing_replayed) ceiling w
  end.
Definition s0 : Store := started_at options root unrestricted w0.

Definition write_in (p : string) : Capability := mkCapability FsWrite p.
Definition foreign : Input := MkInput "run-1" "agent" None "app.step" JNull None.

(** Two writes are asked for and granted, for the run and for good; another producer
    writes in between. *)
Definition ops : list Op :=
  [ Check unrestricted (write_in "/work/a") JNull;
    Reply (persist opts options) "permission-1" "run" None;
    Outside (λ w, snd (emitDurable opts foreign None w));
    Check unrestricted (write_in "/work/b") JNull;
    Reply (persist opts options) "permission-2" "remembered" None ].

Definition service : MakeOptions := store_options options nothing_replayed nothing_replayed.
Definition worked (options : JournalGrantStoreOptions) (root : string) (ops : list Op) : Store :=
  store (performs (store_options options nothing_replayed nothing_replayed) root ops
    (mkSystem (started_at options root unrestricted w0) [])).

Lemma is_dedicated : dedicated opts root options.
Proof. split; try done. intros ev _. apply ListCodec.event_trip. Qed.

Lemma w0_sound : sound ["policy"; "run-1"] w0.
Proof.
  split; [done|by apply Demo.empty_ok|intros r; constructor|done|].
  intros r Hr. by rewrite !elem_of_cons in Hr; destruct Hr as [->|[->|?%not_elem_of_nil]].
Qed.

Lemma ops_journaled : Forall (journaled opts root options) ops.
Proof. unfold ops. rewrite !Forall_cons. split_and!; [done..|by apply foreign_unrelated|done|done|by apply Forall_nil]. Qed.

Lemma made : make opts root options unrestricted w0 = (inr s0, backend s0).
Proof. vm_compute. reflexivity. Qed.
End JournalGrantDemo.

(** The journal of the first construction holds its envelope; its replay is one rule. *)
Lemma replay_reads_history_witness :
  let w := backend JournalGrantDemo.s0 in
  ∃ R, replayRunRules (J:=plain_json) (G:=ListCodec.codec) JournalGrantDemo.root "run-1" "kernel" "plan-1" w = (inr R, w) ∧
       rules R = [mkRule Allow (mkPattern (Exactly NetGet) "**")].
Proof.
  destruct (later_in_step (J:=plain_json) (G:=ListCodec.codec) JournalGrantDemo.opts JournalGrantDemo.root
    JournalGrantDemo.options JournalGrantDemo.is_dedicated unrestricted nothing_replayed nothing_replayed
    JournalGrantDemo.w0 JournalGrantDemo.s0 (backend JournalGrantDemo.s0) []
    JournalGrantDemo.w0_sound JournalGrantDemo.made (Forall_nil_2 _)) as (_ & _ & P & R & Hin).
  eexists. split.
  - rewrite (proj2 (replay_reads_history (J:=plain_json) (G:=ListCodec.codec) JournalGrantDemo.root "run-1" "kernel"
      "plan-1" (backend JournalGrantDemo.s0) (sd_journal _ _ (is_sound _ _ _ _ _ _ Hin))
      (sd_ordered _ _ (is_sound _ _ _ _ _ _ Hin)) eq_refl)).
    vm_compute. reflexivity.
  - reflexivity.
Defined.

(** After the restart both grants and the envelope of the construction are active. *)
Lemma restart_keeps_authority_witness :
  let s := JournalGrantDemo.worked JournalGrantDemo.options JournalGrantDemo.root JournalGrantDemo.ops in
  length (db_events (w_db (backend s))) = 4 ∧
  ∃ s1, fst (make (J:=plain_json) (C:=local_consensus) (G:=ListCodec.codec) JournalGrantDemo.opts
               JournalGrantDemo.root JournalGrantDemo.options unrestricted (backend s)) = inr s1 ∧
    verdict s1 (JournalGrantDemo.write_in "/work/a") = Allow ∧
    verdict s1 (JournalGrantDemo.write_in "/work/b") = Allow ∧
    verdict s1 (JournalGrantDemo.write_in "/work/c") = Ask.
Proof.
  split; [vm_compute; reflexivity|].
  destruct (restart_keeps_authority (J:=plain_json) (G:=ListCodec.codec) JournalGrantDemo.opts JournalGrantDemo.root
    JournalGrantDemo.options JournalGrantDemo.is_dedicated unrestricted unrestricted nothing_replayed nothing_replayed
    JournalGrantDemo.w0 JournalGrantDemo.s0 (backend JournalGrantDemo.s0) JournalGrantDemo.ops
    JournalGrantDemo.w0_sound JournalGrantDemo.made JournalGrantDemo.ops_journaled) as (s1 & Hm & Hv).
  exists s1. split; [exact (f_equal fst Hm)|].
  assert (∀ c, verdict s1 c = verdict (JournalGrantDemo.worked JournalGrantDemo.options JournalGrantDemo.root
                                         JournalGrantDemo.ops) c) as Hsame.
  { intros c. apply Hv; [done|]. intros rule ce Hin.
    vm_compute in Hin. apply list_elem_of_singleton in Hin. injection Hin as _ ->. done. }
  rewrite !Hsame. split_and!; vm_compute; reflexivity.
Defined.

(** Two constructions replay the empty journal; the second takes the lock when the
    first has recorded the envelope. *)
Lemma envelope_appended_once_witness :
  let w := backend JournalGrantDemo.s0 in
  length (db_events (w_db w)) = 1 ∧
  ∃ s1, finish (J:=plain_json) (C:=local_consensus) (G:=ListCodec.codec) JournalGrantDemo.opts JournalGrantDemo.root
          JournalGrantDemo.options unrestricted nothing_replayed nothing_replayed w = (inr s1, w).
Proof.
  split; [vm_compute; reflexivity|].
  apply (envelope_appended_once (J:=plain_json) (G:=ListCodec.codec) JournalGrantDemo.opts JournalGrantDemo.root
    JournalGrantDemo.options JournalGrantDemo.is_dedicated unrestricted unrestricted nothing_replayed nothing_replayed
    JournalGrantDemo.w0 JournalGrantDemo.s0 (backend JournalGrantDemo.s0) [] JournalGrantDemo.w0
    nothing_replayed nothing_replayed JournalGrantDemo.w0_sound JournalGrantDemo.made (Forall_nil_2 _));
    reflexivity.
Defined.

(** A run grant is recorded without the ceiling of its request: before a restart it
    does not reach past that ceiling, after it it does. *)
Lemma run_grant_outlives_ceiling :
  let narrow := fromPatterns [mkPattern (Exactly FsWrite) "/work/a"] in
  let ops := [ Check narrow (JournalGrantDemo.write_in "/work/a") JNull;
               Reply (persist (J:=plain_json) (G:=ListCodec.codec) JournalGrantDemo.opts JournalGrantDemo.options)
                 "permission-1" "run" (Some (mkPattern (Exactly FsWrite) "/work/**")) ] in
  let s := JournalGrantDemo.worked JournalGrantDemo.options JournalGrantDemo.root ops in
  let s1 := JournalGrantDemo.started_at JournalGrantDemo.options JournalGrantDemo.root unrestricted (backend s) in
  verdict s (JournalGrantDemo.write_in "/work/b") = Ask ∧ verdict s1 (JournalGrantDemo.write_in "/work/b") = Allow.
Proof. vm_compute. done. Qed.

(** When the workspace root holds a wildcard, a remembered grant of the root itself is
    recorded, and no store can be built over that journal again. *)
Lemma wildcard_root_locks_out :
  let root := "/w*rk" in
  let options := mkJournalOptions "run-1" "policy" "kernel" "plan-1" None [] None in
  let ops := [ Check unrestricted (JournalGrantDemo.write_in root) JNull;
               Reply (persist (J:=plain_json) (G:=ListCodec.codec) JournalGrantDemo.opts options)
                 "permission-1" "remembered" None ] in
  let s := JournalGrantDemo.worked options root ops in
  fst (make (J:=plain_json) (C:=local_consensus) (G:=ListCodec.codec) JournalGrantDemo.opts root options
         unrestricted (backend s)) = inl (store_error invalid_resolution None).
Proof. vm_compute. done. Qed.

(** A redactor that changes what a grant names changes what the grant allows.  The
    rule below replaces one key in one path, as the api-key rule of the default
    redactor does: the write that was granted for good is asked about again after the
    restart, and what is allowed instead is a path with the placeholder in it. *)
Definition api_key_in_path : string → string :=
  λ text, if bool_decide (text = "/work/sk-12345678") then "/work/[REDACTED_API_KEY]" else text.

Lemma redacted_grant_is_lost :
  let opts := MkValidatedOptions 64 4096 (redact [api_key_in_path]) in
  let options := mkJournalOptions "run-1" "policy" "kernel" "plan-1" None [] None in
  let root := JournalGrantDemo.root in
  let started (w : World) :=
    match make (J:=plain_json) (C:=local_consensus) (G:=ListCodec.codec) opts root options unrestricted w with
    | (inr s, _) => s
    | (inl _, _) => initial_store (store_options options nothing_replayed nothing_replayed) unrestricted w
    end in
  let ops := [ Check unrestricted (JournalGrantDemo.write_in "/work/sk-12345678") JNull;
               Reply (persist (J:=plain_json) (G:=ListCodec.codec) opts options)
                 "permission-1" "remembered" None ] in
  let s := store (performs (store_options options nothing_replayed nothing_replayed) root ops
             (mkSystem (started JournalGrantDemo.w0) [])) in
  let s1 := started (backend s) in
  verdict s (JournalGrantDemo.write_in "/work/sk-12345678") = Allow
  ∧ verdict s1 (JournalGrantDemo.write_in "/work/sk-12345678") = Ask
  ∧ verdict s1 (JournalGrantDemo.write_in "/work/[REDACTED_API_KEY]") = Allow.
Proof. vm_compute. done. Qed.
