(* ===== verification/Notifications.v ===== *)
(** * The notification queue ([packages/notifications])

    Messages for a running agent are admitted into its run's journal and delivered
    at turn boundaries.  The queue keeps no state of its own: every operation runs in
    one journal transaction, loads the run's history, folds it into a bounded queue,
    decides, and appends the decision as an event.  One permit orders the operations
    of a service, so each is one step.  The schema decoders of the event payloads
    belong to a library: they are the class [NotificationCodec]. *)

From S2P Require Import Prelude Json World Journal.
#[local] Open Scope me_scope.

(** ** Notifications ([Notification.ts]) *)

Module Notification.

Record Provenance := mkProvenance
  { sourceRunId : string; sourceLineageId : string; sourceTurn : Z; sourceActor : string }.

Record Common := mkCommon
  { id : string; targetLineageId : string; provenance : Provenance; payload : json }.

Inductive Notification : Type :=
  | HumanSteer (c : Common)
  | HumanFollowup (c : Common)
  | SystemEvent (c : Common) (coalescingKey : option string).

Inductive AdmissionClass : Type := Steer | Queue.

#[global] Instance AdmissionClass_eq_dec : EqDecision AdmissionClass.
Proof. solve_decision. Defined.

Definition common (n : Notification) : Common :=
  match n with HumanSteer c | HumanFollowup c | SystemEvent c _ => c end.

(** The [delivery] literal of each variant. *)
Definition admissionClass (n : Notification) : AdmissionClass :=
  match n with HumanSteer _ => Steer | HumanFollowup _ | SystemEvent _ _ => Queue end.

Definition coalesceKey (n : Notification) : option string :=
  match n with SystemEvent _ key => key | _ => None end.

Definition name (n : Notification) : string := id (common n).
Definition target (n : Notification) : string := targetLineageId (common n).

(** The object a notification is. *)
Definition fields (tag : string) (c : Common) (delivery : string) : list (string * json) :=
  [ ("_tag", JStr tag); ("id", JStr (id c)); ("targetLineageId", JStr (targetLineageId c));
    ("provenance", JObj [ ("sourceRunId", JStr (sourceRunId (provenance c)));
                          ("sourceLineageId", JStr (sourceLineageId (provenance c)));
                          ("sourceTurn", JNum (sourceTurn (provenance c)));
                          ("sourceActor", JStr (sourceActor (provenance c))) ]);
    ("payload", payload c); ("delivery", JStr delivery) ].

Definition to_json (n : Notification) : json :=
  match n with
  | HumanSteer c => JObj (fields "human-steer" c "steer")
  | HumanFollowup c => JObj (fields "human-followup" c "queue")
  | SystemEvent c None => JObj (fields "system-event" c "queue")
  | SystemEvent c (Some key) => JObj (fields "system-event" c "queue" ++ [("coalescingKey", JStr key)])
  end.

(** What the schema checks of a notification. *)
Definition in_schema (n : Notification) : bool :=
  nonempty (name n) && nonempty (target n) && bool_decide (0 ≤ sourceTurn (provenance (common n)))%Z &&
  is_safe_integer (sourceTurn (provenance (common n))).

End Notification.
Import Notification (Notification, HumanSteer, HumanFollowup, SystemEvent, AdmissionClass, Steer, Queue,
  admissionClass, coalesceKey).

(** ** The bounded queue ([NotificationState.ts]) *)

Module NotificationState.

Record Pending := mkPending { notification : Notification; seq : Z }.

Inductive AdmissionDecision : Type := Admitted_ | Coalesced | RejectedFull.

#[global] Instance AdmissionDecision_eq_dec : EqDecision AdmissionDecision.
Proof. solve_decision. Defined.

Record State := mkState { capacity : Z; items : list Pending }.

Record Admission := mkAdmission { admission_state : State; decision : AdmissionDecision }.
Record Promotion := mkPromotion { promotion_state : State; promoted : list Pending }.

(** A capacity is a finite number here; fractions do not occur. *)
Definition normalizedCapacity (capacity : Z) : Z := Z.max 0 capacity.

Definition empty (capacity : Z) : State := mkState (normalizedCapacity capacity) [].

(** Pending system events with this key. *)
Definition has_key (key : string) (item : Pending) : bool :=
  match notification item with
  | SystemEvent _ _ => bool_decide (coalesceKey (notification item) = Some key)
  | _ => false
  end.

Definition key_of (n : Notification) : option string :=
  match n with SystemEvent _ _ => coalesceKey n | _ => None end.

(** [findIndex]. *)
Fixpoint find_index {A} (p : A → bool) (l : list A) : option nat :=
  match l with
  | [] => None
  | x :: l => if p x then Some 0 else S <$> find_index p l
  end.

(** The pending event a notification coalesces with. *)
Definition coalesces (s : State) (n : Notification) : option nat :=
  match key_of n with
  | Some key => find_index (has_key key) (items s)
  | None => None
  end.

(** [items[index] = { notification, seq: items[index].seq }]. *)
Definition replace_at (i : nat) (n : Notification) (s : State) : State :=
  mkState (capacity s)
    (match items s !! i with
     | Some existing => <[i := mkPending n (seq existing)]> (items s)
     | None => items s
     end).

Definition push (n : Notification) (seq : Z) (s : State) : State :=
  mkState (capacity s) (items s ++ [mkPending n seq]).

Definition admit_ (s : State) (n : Notification) (seq : Z) : Admission :=
  match coalesces s n with
  | Some index => mkAdmission (replace_at index n s) Coalesced
  | None =>
      if bool_decide (capacity s ≤ Z.of_nat (length (items s)))%Z then mkAdmission s RejectedFull
      else mkAdmission (push n seq s) Admitted_
  end.

Definition applyAdmission (s : State) (n : Notification) (seq : Z) (d : AdmissionDecision) : State :=
  match d with
  | RejectedFull => s
  | Admitted_ => push n seq s
  | Coalesced =>
      match coalesces s n with
      | Some index => replace_at index n s
      | None => push n seq s
      end
  end.

Definition for_target (targetLineageId : option string) (item : Pending) : bool :=
  match targetLineageId with
  | None => true
  | Some lineage => bool_decide (Notification.target (notification item) = lineage)
  end.

Definition of_class (c : AdmissionClass) (item : Pending) : bool :=
  bool_decide (admissionClass (notification item) = c).

Definition pending (s : State) (admission : AdmissionClass) (targetLineageId : option string) : list Pending :=
  List.filter (λ item, of_class admission item && for_target targetLineageId item) (items s).

Definition is_steer (cutoffSeq : Z) (targetLineageId : option string) (item : Pending) : bool :=
  of_class Steer item && bool_decide (seq item ≤ cutoffSeq)%Z && for_target targetLineageId item.

Definition promoteSteers (s : State) (cutoffSeq : Z) (targetLineageId : option string) : Promotion :=
  mkPromotion (mkState (capacity s) (List.filter (λ item, negb (is_steer cutoffSeq targetLineageId item)) (items s)))
    (List.filter (is_steer cutoffSeq targetLineageId) (items s)).

Definition promoteQueued (s : State) (targetLineageId : option string) : Promotion :=
  match find_index (λ item, of_class Queue item && for_target targetLineageId item) (items s) with
  | None => mkPromotion s []
  | Some index =>
      mkPromotion (mkState (capacity s) (take index (items s) ++ drop (S index) (items s)))
        (match items s !! index with Some item => [item] | None => [] end)
  end.

Definition applyPromoted (s : State) (ids : list string) : State :=
  if bool_decide (ids = []) then s
  else mkState (capacity s)
         (List.filter (λ item, negb (bool_decide (Notification.name (notification item) ∈ ids))) (items s)).

End NotificationState.
Import NotificationState (State, AdmissionDecision, Admitted_, Coalesced, RejectedFull).

(** ** Journal events ([NotificationEvent.ts]) *)

Module NotificationEvent.

Definition AdmittedEventType : string := "flows/notifications/Admitted".
Definition PromotedEventType : string := "flows/notifications/Promoted".

Inductive Event : Type :=
  | AdmittedEvent (n : Notification) (d : AdmissionDecision)
  | PromotedEvent (boundary targetLineageId : string) (ids : list string).

Definition decision_text (d : AdmissionDecision) : string :=
  match d with Admitted_ => "admitted" | Coalesced => "coalesced" | RejectedFull => "rejected-full" end.

Definition admitted_payload (n : Notification) (d : AdmissionDecision) : json :=
  JObj [("notification", Notification.to_json n); ("decision", JStr (decision_text d))].
Definition promoted_payload (boundary targetLineageId : string) (ids : list string) : json :=
  JObj [("boundary", JStr boundary); ("targetLineageId", JStr targetLineageId); ("ids", JArr (JStr <$> ids))].

(** The schema decoders; they accept what the queue writes. *)
Class NotificationCodec : Type := {
  decodeAdmitted : json → option (Notification * AdmissionDecision);
  decodePromoted : json → option (string * string * list string);
  decode_admitted n d : Notification.in_schema n = true → decodeAdmitted (admitted_payload n d) = Some (n, d);
  decode_promoted b t ids : decodePromoted (promoted_payload b t ids) = Some (b, t, ids)
}.

Definition fromEntry `{NotificationCodec} (entry : Entry) : option Event :=
  if bool_decide (en_eventType entry = AdmittedEventType) then
    (λ nd, AdmittedEvent nd.1 nd.2) <$> decodeAdmitted (en_payload entry)
  else if bool_decide (en_eventType entry = PromotedEventType) then
    (λ p, PromotedEvent p.1.1 p.1.2 p.2) <$> decodePromoted (en_payload entry)
  else None.

End NotificationEvent.
Import NotificationEvent (NotificationCodec, Event, AdmittedEvent, PromotedEvent, fromEntry).

(** ** The queue ([NotificationQueue.ts], [Projection.ts]) *)

Module NotificationQueue.

Definition defaultCapacity : Z := 128.

Record AdmissionReceipt := mkAdmissionReceipt
  { notificationId : string; receipt_decision : AdmissionDecision; receipt_seq : Z; admission_duplicate : bool }.

Record DrainInput := mkDrainInput
  { runId : string; targetLineageId : string; boundary : string; wouldIdle : bool }.

Record DrainReceipt := mkDrainReceipt
  { notifications : list Notification; receipt_boundary : string; drain_duplicate : bool }.

Record Loaded := mkLoaded
  { entries : list Entry; state : State; known : gmap string Notification }.

Section queue.
Context {J : JsonText} {C : Consensus} {D : NotificationCodec} (opts : ValidatedOptions).

(** [canonical]: object keys in the order of code units. *)
Fixpoint canonical (v : json) : string :=
  match v with
  | JArr l => "[" +:+ String.concat "," (List.map canonical l) +:+ "]"
  | JObj fields =>
      let rendered := List.map (λ kv, (kv.1, stringify (JStr kv.1) +:+ ":" +:+ canonical kv.2)) fields in
      "{" +:+ String.concat "," (snd <$> merge_sort (λ a b, str_le a.1 b.1) rendered) +:+ "}"
  | _ => stringify v
  end.

Definition sameNotification (left right : Notification) : bool :=
  bool_decide (canonical (Notification.to_json left) = canonical (Notification.to_json right)).

(** The page loop of [load]; the fuel bounds the number of pages. *)
Fixpoint load_pages (fuel : nat) (runId : string) (after : option Z) (acc : list Entry) : M (list Entry) :=
  match fuel with
  | O => fail (jerror "out_of_fuel")
  | S fuel =>
      page <- readPage runId after 512 ;;
      let acc := acc ++ pg_entries page in
      match last (pg_entries page) with
      | Some e => if negb (pg_hasMore page) then ret acc else load_pages fuel runId (Some (en_seq e)) acc
      | None => ret acc
      end
  end.

(** The reducer, the same as [Projection.derive]'s. *)
Definition reduce (s : State) (entry : Entry) : State :=
  match fromEntry entry with
  | None => s
  | Some (AdmittedEvent n d) => NotificationState.applyAdmission s n (en_seq entry) d
  | Some (PromotedEvent _ _ ids) => NotificationState.applyPromoted s ids
  end.

Definition learn (m : gmap string Notification) (entry : Entry) : gmap string Notification :=
  match fromEntry entry with
  | Some (AdmittedEvent n _) => <[Notification.name n := n]> m
  | _ => m
  end.

Definition fold_state (es : list Entry) : State :=
  fold_left reduce es (NotificationState.empty defaultCapacity).

Definition load (runId : string) : M Loaded :=
  fuel <- gets (λ w, S (length (db_events (w_db w)))) ;;
  es <- load_pages fuel runId None [] ;;
  ret (mkLoaded es (fold_state es) (fold_left learn es ∅)).

Definition admissionSource (id : string) : string := "/notifications/admission/" +:+ id.
Definition drainSource (boundary : string) : string := "/notifications/drain/" +:+ boundary.

Definition admits_id (id : string) (entry : Entry) : bool :=
  match fromEntry entry with
  | Some (AdmittedEvent n _) => bool_decide (Notification.name n = id)
  | _ => false
  end.

Definition admit_input (runId : string) (n : Notification) (d : AdmissionDecision) : Input :=
  MkInput runId (admissionSource (Notification.name n)) (Some 0%Z) NotificationEvent.AdmittedEventType
    (NotificationEvent.admitted_payload n d) None.

(** The next sequence after the loaded history, as the queue predicts it. *)
Definition next_of (es : list Entry) : Z := match last es with Some e => en_seq e + 1 | None => 0 end%Z.

Definition admit_body (runId : string) (n : Notification) : M AdmissionReceipt :=
  loaded <- load runId ;;
  match List.find (admits_id (Notification.name n)) (entries loaded) with
  | Some prior =>
      match fromEntry prior with
      | Some (AdmittedEvent m d) =>
          if sameNotification m n
          then ret (mkAdmissionReceipt (Notification.name n) d (en_seq prior) true)
          else fail (jerror "idempotency_conflict")
      | _ => fail (jerror "idempotency_conflict")
      end
  | None =>
      let admission := NotificationState.admit_ (state loaded) n (next_of (entries loaded)) in
      receipt <- emitDurable opts (admit_input runId n (NotificationState.decision admission)) None ;;
      ret (match receipt with
           | Accepted seq _ => mkAdmissionReceipt (Notification.name n) (NotificationState.decision admission) seq false
           | Duplicate seq _ => mkAdmissionReceipt (Notification.name n) (NotificationState.decision admission) seq true
           end)
  end.

Definition admit_ (runId : string) (n : Notification) : M AdmissionReceipt := transact opts (admit_body runId n).

Definition drained_at (input : DrainInput) (entry : Entry) : option (list string) :=
  match fromEntry entry with
  | Some (PromotedEvent b t ids) =>
      if bool_decide (b = boundary input) && bool_decide (t = targetLineageId input) then Some ids else None
  | _ => None
  end.

Definition drain_input (input : DrainInput) (ids : list string) : Input :=
  MkInput (runId input) (drainSource (boundary input)) (Some 0%Z) NotificationEvent.PromotedEventType
    (NotificationEvent.promoted_payload (boundary input) (targetLineageId input) ids) None.

(** What a drain of this state delivers. *)
Definition deliveries (s : State) (cutoff : Z) (input : DrainInput) : list Notification :=
  let steers := NotificationState.promoteSteers s cutoff (Some (targetLineageId input)) in
  let queued :=
    if wouldIdle input && bool_decide (length (NotificationState.promoted steers) = 0)
    then NotificationState.promoted
           (NotificationState.promoteQueued (NotificationState.promotion_state steers) (Some (targetLineageId input)))
    else [] in
  NotificationState.notification <$> (NotificationState.promoted steers ++ queued).

Definition drain_body (input : DrainInput) : M DrainReceipt :=
  loaded <- load (runId input) ;;
  match omap (drained_at input) (entries loaded) with
  | ids :: _ => ret (mkDrainReceipt (omap (λ id, known loaded !! id) ids) (boundary input) true)
  | [] =>
      let cutoff := default 0%Z (en_seq <$> last (entries loaded)) in
      let promoted := deliveries (state loaded) cutoff input in
      emitDurable opts (drain_input input (Notification.name <$> promoted)) None ;;
      ret (mkDrainReceipt promoted (boundary input) false)
  end.

Definition drain (input : DrainInput) : M DrainReceipt := transact opts (drain_body input).
End queue.
End NotificationQueue.
