(* ===== verification/NotificationProps.v ===== *)
(** * Histories of the notification queue

    [written]: the histories of a run in which only the queue writes notification
    events.  Over such a history every admitted notification is accounted for exactly
    once: delivered, superseded by a coalescing event, rejected because the queue was
    full, or still pending ([ledger]). *)

From S2P Require Import Prelude Json World Journal JournalAppend RunLaws FoldProps UpkeepTheorems JournalRead Notifications.
Import Notification (Notification, Steer, Queue, admissionClass).
Import NotificationEvent (NotificationCodec, Event, AdmittedEvent, PromotedEvent, fromEntry).
Import NotificationQueue.
Import NotificationState.

(** ** The bounded queue *)

Definition ids_of (s : State) : list string := (λ i, Notification.name (notification i)) <$> items s.

Lemma find_index_some {A} (p : A → bool) l i :
  find_index p l = Some i →
  ∃ x, l !! i = Some x ∧ p x = true ∧ ∀ j y, j < i → l !! j = Some y → p y = false.
Proof.
  revert i. induction l as [|x l IH]; intros i; cbn; [done|]. destruct (p x) eqn:Hp.
  - intros [= <-]. exists x. split_and!; [done|done|]. intros j; lia.
  - intros (k & Hk & ->)%fmap_Some. destruct (IH _ Hk) as (y & Hy & Hpy & Hmin). exists y.
    split_and!; [done|done|]. intros [|j] z Hj Hz; [by injection Hz as ->|]. apply (Hmin j); [lia|done].
Qed.

Lemma find_index_none {A} (p : A → bool) l x : find_index p l = None → x ∈ l → p x = false.
Proof.
  induction l as [|y l IH]; cbn; [by intros _ ?%not_elem_of_nil|]. destruct (p y) eqn:Hp; [done|].
  intros H%fmap_None [->|Hx]%elem_of_cons; [done|by apply IH].
Qed.

Lemma filter_negb_split {A} (p : A → bool) (l : list A) :
  List.filter (λ x, negb (p x)) l ++ List.filter p l ≡ₚ l.
Proof.
  induction l as [|x l IH]; cbn; [done|]. destruct (p x); cbn; [|by f_equiv].
  rewrite <-Permutation_middle. by f_equiv.
Qed.

Lemma insert_balance {A B} (f : A → B) (l : list A) i x y :
  l !! i = Some x → (f <$> <[i := y]> l) ++ [f x] ≡ₚ (f <$> l) ++ [f y].
Proof.
  intros Hx. rewrite insert_take_drop by (by eapply lookup_lt_Some).
  rewrite <-(take_drop_middle l i x) at 3 by done. rewrite !fmap_app, !fmap_cons. solve_Permutation.
Qed.

(** What an admission event coalesces with. *)
Definition displaced (s : State) (n : Notification) : list string :=
  match coalesces s n with
  | Some i => match items s !! i with Some item => [Notification.name (notification item)] | None => [] end
  | None => []
  end.

(** Replay applies exactly what the admission decided. *)
Lemma apply_decided s n seq :
  applyAdmission s n seq (decision (admit_ s n seq)) = admission_state (admit_ s n seq).
Proof. unfold admit_, applyAdmission. destruct (coalesces s n); cbn; [done|]. by case_bool_decide. Qed.

Definition dropped (d : AdmissionDecision) (n : Notification) : list string :=
  match d with RejectedFull => [Notification.name n] | _ => [] end.

(** An admission keeps the balance: what comes in is pending, displaces, or is rejected. *)
Lemma admit_balance s n seq (a := admit_ s n seq) :
  ids_of (admission_state a) ++ displaced s n ++ dropped (decision a) n ≡ₚ ids_of s ++ [Notification.name n].
Proof.
  subst a. unfold admit_, displaced. destruct (coalesces s n) as [i|] eqn:Hc; cbn.
  - unfold coalesces in Hc. destruct (key_of n) as [key|]; [|done].
    apply find_index_some in Hc as (x & Hx & _). unfold ids_of, replace_at. cbn. rewrite Hx, app_nil_r. cbn.
    by apply (insert_balance (λ i, Notification.name (notification i))).
  - case_bool_decide; cbn; [done|]. unfold ids_of, push. cbn. by rewrite fmap_app, app_nil_r.
Qed.

(** ** What a drain delivers *)

Lemma filter_sublist_b {A} (p : A → bool) (l : list A) : List.filter p l `sublist_of` l.
Proof. induction l as [|x l IH]; cbn; [done|]. destruct (p x); by constructor. Qed.

Lemma sorted_sublist {A} (R : A → A → Prop) (l k : list A) : StronglySorted R k → l `sublist_of` k → StronglySorted R l.
Proof.
  intros Hs Hl. induction Hl as [|x l k Hl IH|x l k Hl IH]; [done|..]; inversion_clear Hs as [|? ? Hk Hx].
  - constructor; [by apply IH|]. rewrite Forall_forall in *. intros y Hy. apply Hx. by eapply elem_of_sublist.
  - by apply IH.
Qed.

Lemma filter_none {A} (p : A → bool) (l : list A) : (∀ x, x ∈ l → p x = false) → List.filter p l = [].
Proof.
  induction l as [|x l IH]; intros H; cbn; [done|].
  rewrite (H x (list_elem_of_here _ _)). apply IH. intros y Hy. apply H. by right.
Qed.

Lemma filter_ext_b {A} (p q : A → bool) (l : list A) :
  (∀ x, x ∈ l → p x = q x) → List.filter p l = List.filter q l.
Proof.
  induction l as [|x l IH]; intros H; cbn; [done|]. rewrite (H x (list_elem_of_here _ _)).
  rewrite IH; [done|]. intros y Hy. apply H. by right.
Qed.

Lemma find_index_head {A} (p : A → bool) (l : list A) :
  match find_index p l with
  | Some i => match l !! i with Some x => [x] | None => [] end
  | None => []
  end = take 1 (List.filter p l).
Proof.
  induction l as [|x l IH]; cbn; [done|]. destruct (p x); cbn; [done|]. rewrite <-IH.
  by destruct (find_index p l).
Qed.

(** The boundary rule: every pending steer of the lineage, in order; when there is none
    and the agent would idle, the oldest queued one. *)
Definition due (s : State) (input : DrainInput) : list Pending :=
  match pending s Steer (Some (targetLineageId input)) with
  | [] => if wouldIdle input then take 1 (pending s Queue (Some (targetLineageId input))) else []
  | steers => steers
  end.

Lemma of_class_other c c' item : of_class c item = true → c ≠ c' → of_class c' item = false.
Proof. unfold of_class. rewrite bool_decide_eq_true, bool_decide_eq_false. congruence. Qed.

Lemma deliveries_due s cutoff input :
  (∀ i, i ∈ items s → (seq i ≤ cutoff)%Z) → deliveries s cutoff input = notification <$> due s input.
Proof.
  intros Hcut. unfold deliveries, promoteSteers, promoteQueued. cbn [promoted promotion_state items].
  assert (List.filter (is_steer cutoff (Some (targetLineageId input))) (items s)
          = pending s Steer (Some (targetLineageId input))) as Hst.
  { apply filter_ext_b. intros i Hi. unfold is_steer. rewrite (bool_decide_eq_true_2 (seq i ≤ cutoff)%Z) by auto.
    by rewrite andb_true_r. }
  rewrite Hst. unfold due. destruct (pending s Steer (Some (targetLineageId input))) as [|x l] eqn:E; cbn [length app].
  2: { rewrite (bool_decide_eq_false_2 (S (length l) = 0)), andb_false_r by done. by rewrite app_nil_r. }
  rewrite (bool_decide_eq_true_2 (0 = 0)), andb_true_r by done. destruct (wouldIdle input); [|done]. f_equal.
  assert (List.filter (λ item, negb (is_steer cutoff (Some (targetLineageId input)) item)) (items s) = items s) as ->.
  { apply filter_all. intros i Hi. apply negb_true_iff. destruct (is_steer _ _ i) eqn:Hs; [|done].
    exfalso. apply (not_elem_of_nil i). rewrite <-Hst. by apply elem_of_filter_b. }
  pose proof (find_index_head (λ item, of_class Queue item && for_target (Some (targetLineageId input)) item) (items s)) as Hh.
  fold (pending s Queue (Some (targetLineageId input))) in Hh. rewrite <-Hh. by destruct (find_index _ _).
Qed.

Lemma due_sublist s input : due s input `sublist_of` items s.
Proof.
  unfold due. destruct (pending s Steer _) eqn:E.
  - destruct (wouldIdle input); [|apply sublist_nil_l]. etrans; [apply sublist_take|apply filter_sublist_b].
  - rewrite <-E. apply filter_sublist_b.
Qed.

(** A delivery of pending notifications leaves the rest pending. *)
Lemma promoted_balance s ids :
  NoDup (ids_of s) → ids `sublist_of` ids_of s → ids_of (applyPromoted s ids) ++ ids ≡ₚ ids_of s.
Proof.
  intros Hnd Hsub. unfold applyPromoted. case_bool_decide as He; [by rewrite He, app_nil_r|].
  set (p := λ item, bool_decide (Notification.name (notification item) ∈ ids)).
  unfold ids_of at 1. cbn [items].
  assert ((λ i, Notification.name (notification i)) <$> List.filter p (items s) ≡ₚ ids) as Hp.
  { apply NoDup_Permutation.
    - eapply sublist_NoDup; [exact Hnd|]. apply fmap_sublist, filter_sublist_b.
    - by eapply sublist_NoDup.
    - intros x. rewrite list_elem_of_fmap. split.
      + intros (i & -> & [_ Hi]%elem_of_filter_b). by apply bool_decide_eq_true in Hi.
      + intros Hx. pose proof (elem_of_sublist _ _ _ Hx Hsub) as (i & -> & Hi)%list_elem_of_fmap.
        exists i. split; [done|]. apply elem_of_filter_b. split; [done|]. by apply bool_decide_eq_true. }
  change (List.filter _ (items s)) with (List.filter (λ x, negb (p x)) (items s)). clearbody p.
  rewrite <-Hp, <-fmap_app. unfold ids_of. by rewrite filter_negb_split.
Qed.

(** ** Histories *)

Section histories.
Context {D : NotificationCodec}.
Implicit Types (es : list Entry) (e : Entry) (s : State) (n : Notification).

(** What becomes of every notification id: the queue, with the ids that arrived, were
    delivered, were superseded by a coalescing event, and were rejected. *)
Record Ledger := mkLedger
  { queue : State; arrived : list string; delivered : list string; superseded : list string; rejected : list string }.

Definition post (l : Ledger) (e : Entry) : Ledger :=
  match fromEntry e with
  | None => l
  | Some (AdmittedEvent n d) =>
      mkLedger (applyAdmission (queue l) n (en_seq e) d) (arrived l ++ [Notification.name n]) (delivered l)
        (superseded l ++ match d with Coalesced => displaced (queue l) n | _ => [] end)
        (rejected l ++ dropped d n)
  | Some (PromotedEvent _ _ ids) =>
      mkLedger (applyPromoted (queue l) ids) (arrived l) (delivered l ++ ids) (superseded l) (rejected l)
  end.

Definition ledger (es : list Entry) : Ledger :=
  fold_left post es (mkLedger (empty defaultCapacity) [] [] [] []).

Lemma ledger_snoc es e : ledger (es ++ [e]) = post (ledger es) e.
Proof. unfold ledger. by rewrite fold_left_app. Qed.

Lemma fold_state_snoc es e : fold_state (es ++ [e]) = reduce (fold_state es) e.
Proof. unfold fold_state. by rewrite fold_left_app. Qed.

Lemma ledger_queue es : queue (ledger es) = fold_state es.
Proof.
  induction es as [|e es IH] using rev_ind; [done|]. rewrite ledger_snoc, fold_state_snoc, <-IH.
  unfold post, reduce. by destruct (fromEntry e) as [[]|].
Qed.

(** The producers only the queue uses. *)
Definition queue_source (src : string) : Prop :=
  (∃ id, src = admissionSource id) ∨ (∃ boundary, src = drainSource boundary).

(** One event appended to a history. *)
Inductive queue_step (es : list Entry) (e : Entry) : Prop :=
  | foreign_step : fromEntry e = None → ¬ queue_source (en_sourceId e) → queue_step es e
  | admission_step n d :
      fromEntry e = Some (AdmittedEvent n d) → en_sourceId e = admissionSource (Notification.name n) →
      Notification.name n ∉ arrived (ledger es) → d = decision (admit_ (fold_state es) n (en_seq e)) →
      queue_step es e
  | promotion_step input :
      fromEntry e = Some (PromotedEvent (boundary input) (targetLineageId input)
        ((λ i, Notification.name (notification i)) <$> due (fold_state es) input)) →
      en_sourceId e = drainSource (boundary input) → en_sourceSeq e = 0%Z →
      (∀ x, x ∈ es → en_sourceId x ≠ drainSource (boundary input)) →
      queue_step es e.

Inductive written : list Entry → Prop :=
  | written_nil : written []
  | written_snoc es e : written es → (∀ x, x ∈ es → (en_seq x < en_seq e)%Z) → queue_step es e → written (es ++ [e]).

(** *** The balance of the ledger *)

Record balanced (l : Ledger) : Prop := mkBalanced {
  ba_once : NoDup (arrived l);
  ba_fate : delivered l ++ superseded l ++ rejected l ++ ids_of (queue l) ≡ₚ arrived l;
  ba_capacity : capacity (queue l) = defaultCapacity;
  ba_bound : (Z.of_nat (length (items (queue l))) ≤ defaultCapacity)%Z
}.

Lemma balanced_ids l : balanced l → NoDup (ids_of (queue l)).
Proof.
  intros [Hn Hf _ _]. rewrite <-Hf in Hn. by repeat apply NoDup_app in Hn as (_ & _ & Hn).
Qed.

Lemma decided_displaced s n seq :
  match decision (admit_ s n seq) with Coalesced => displaced s n | _ => [] end = displaced s n.
Proof. unfold admit_, displaced. destruct (coalesces s n); [done|]. by case_bool_decide. Qed.

Lemma admit_bounded s n seq :
  (Z.of_nat (length (items s)) ≤ capacity s)%Z →
  capacity (admission_state (admit_ s n seq)) = capacity s ∧
  (Z.of_nat (length (items (admission_state (admit_ s n seq)))) ≤ capacity s)%Z.
Proof.
  intros Hb. unfold admit_. destruct (coalesces s n) as [i|]; cbn.
  - destruct (items s !! i); [|done]. by rewrite length_insert.
  - case_bool_decide; cbn; [done|]. rewrite length_app. cbn [length]. lia.
Qed.

Lemma post_balanced es e : queue_step es e → balanced (ledger es) → balanced (post (ledger es) e).
Proof.
  intros Hst Hb. pose proof (balanced_ids _ Hb) as Hids. destruct Hb as [Hn Hf Hc Hl]. unfold post.
  destruct Hst as [-> _|n d -> _ Hnew ->|input -> _ _ _]; [by split|..]; rewrite <-ledger_queue.
  - rewrite apply_decided, decided_displaced.
    destruct (admit_bounded (queue (ledger es)) n (en_seq e)) as [E1 E2]; [by rewrite Hc|].
    split; cbn [queue arrived delivered superseded rejected]; [|..|congruence|lia].
    + apply NoDup_app. split_and!; [done| |apply NoDup_singleton].
      intros x Hx ->%list_elem_of_singleton. by destruct Hnew.
    + rewrite <-Hf. pose proof (admit_balance (queue (ledger es)) n (en_seq e)) as Hbal. cbv zeta in Hbal.
      rewrite <-!(assoc_L (++)). do 2 f_equiv. rewrite <-Hbal. solve_Permutation.
  - split; cbn [queue arrived delivered superseded rejected]; [done|..].
    + rewrite <-Hf. rewrite <-(promoted_balance (queue (ledger es))
        ((λ i, Notification.name (notification i)) <$> due (queue (ledger es)) input));
        [solve_Permutation|done|]. apply fmap_sublist, due_sublist.
    + unfold applyPromoted. by case_bool_decide.
    + unfold applyPromoted. case_bool_decide; [done|]. cbn [items].
      pose proof (sublist_length _ _ (filter_sublist_b (λ item, negb (bool_decide (Notification.name (notification item) ∈
        ((λ i, Notification.name (notification i)) <$> due (queue (ledger es)) input)))) (items (queue (ledger es))))). lia.
Qed.

Lemma written_balanced es : written es → balanced (ledger es).
Proof.
  induction 1 as [|es e _ IH _ Hst]; [|rewrite ledger_snoc; by apply post_balanced].
  split; cbn; [constructor|done|done|done].
Qed.
(** *** Order and content of the queue *)

Definition cutoff_of (es : list Entry) : Z := default 0%Z (en_seq <$> last es).

Lemma written_cutoff es x : written es → x ∈ es → (en_seq x ≤ cutoff_of es)%Z.
Proof.
  intros Hw. unfold cutoff_of. destruct Hw as [|es e _ Hlt _]; [by intros ?%not_elem_of_nil|].
  rewrite last_snoc. cbn. intros [Hx| ->%list_elem_of_singleton]%elem_of_app; [|lia]. apply Hlt in Hx. lia.
Qed.

(** The admissions on record. *)
Definition booked (es : list Entry) (n : Notification) : Prop :=
  ∃ e d, e ∈ es ∧ fromEntry e = Some (AdmittedEvent n d).

Record orderly (es : list Entry) (s : State) : Prop := mkOrderly {
  or_sorted : StronglySorted Z.lt (seq <$> items s);
  or_seqs : ∀ i, i ∈ items s → ∃ x, x ∈ es ∧ en_seq x = seq i;
  or_booked : ∀ i, i ∈ items s → booked es (notification i)
}.

Lemma booked_more es e n : booked es n → booked (es ++ [e]) n.
Proof. intros (x & d & Hx & He). exists x, d. split; [apply elem_of_app; by left|done]. Qed.

Lemma orderly_more es e s s' :
  orderly es s → items s' `sublist_of` items s → orderly (es ++ [e]) s'.
Proof.
  intros [H1 H2 H3] Hsub. split.
  - eapply sorted_sublist; [exact H1|]. by apply fmap_sublist.
  - intros i Hi. destruct (H2 i) as (x & Hx & E); [by eapply elem_of_sublist|].
    exists x. split; [apply elem_of_app; by left|done].
  - intros i Hi. apply booked_more, H3. by eapply elem_of_sublist.
Qed.

Lemma admit_orderly es e n d s :
  orderly es s → (∀ x, x ∈ es → (en_seq x < en_seq e)%Z) → fromEntry e = Some (AdmittedEvent n d) →
  orderly (es ++ [e]) (admission_state (admit_ s n (en_seq e))).
Proof.
  intros Ho Hlt He. assert (booked (es ++ [e]) n) as Hn
    by (exists e, d; split; [apply elem_of_app; right; by left|done]).
  pose proof (orderly_more es e s s Ho (reflexivity _)) as [H1 H2 H3]. unfold admit_.
  destruct (coalesces s n) as [i|]; cbn; [|case_bool_decide; cbn; [by split|]].
  - unfold replace_at. destruct (items s !! i) as [old|] eqn:Hi; [|by split]. split; cbn.
    + change (StronglySorted Z.lt (seq <$> <[i := mkPending n (seq old)]> (items s))).
      rewrite list_fmap_insert, list_insert_id; [done|].
      by rewrite list_lookup_fmap, Hi.
    + intros j Hj. apply list_elem_of_lookup in Hj as (k & Hk).
      apply list_lookup_insert_Some in Hk as [(-> & <- & _)|(_ & Hk)]; [|by eapply H2, list_elem_of_lookup_2].
      cbn. by eapply H2, list_elem_of_lookup_2.
    + intros j Hj. apply list_elem_of_lookup in Hj as (k & Hk).
      apply list_lookup_insert_Some in Hk as [(-> & <- & _)|(_ & Hk)]; [done|by eapply H3, list_elem_of_lookup_2].
  - split; cbn.
    + rewrite fmap_app. apply StronglySorted_app_2; [|done|repeat constructor].
      intros x y (j & -> & Hj)%list_elem_of_fmap ->%list_elem_of_singleton.
      destruct (or_seqs _ _ Ho j Hj) as (z & Hz & <-). cbn. by apply Hlt.
    + intros j [Hj| ->%list_elem_of_singleton]%elem_of_app; [by apply H2|]. cbn. exists e. split; [|done].
      apply elem_of_app. right. by left.
    + intros j [Hj| ->%list_elem_of_singleton]%elem_of_app; [by apply H3|done].
Qed.

Lemma written_orderly es : written es → orderly es (fold_state es).
Proof.
  induction 1 as [|es e _ IH Hlt Hst].
  { split; cbn; [constructor|..]; by intros ? ?%not_elem_of_nil. }
  rewrite fold_state_snoc. unfold reduce.
  destruct Hst as [-> _|n d He _ _ ->|input -> _ _ _]; [by eapply orderly_more|..].
  - rewrite He, apply_decided. by eapply admit_orderly.
  - eapply orderly_more; [done|]. unfold applyPromoted. case_bool_decide; [done|apply filter_sublist_b].
Qed.

(** The cutoff of a drain is behind every pending notification. *)
Lemma written_deliveries es input :
  written es → deliveries (fold_state es) (cutoff_of es) input = notification <$> due (fold_state es) input.
Proof.
  intros Hw. apply deliveries_due. intros i Hi.
  destruct (or_seqs _ _ (written_orderly _ Hw) i Hi) as (x & Hx & <-). by apply written_cutoff.
Qed.

Lemma booked_arrived es n : booked es n → Notification.name n ∈ arrived (ledger es).
Proof.
  intros (e & d & He & Hn). apply list_elem_of_split in He as (l1 & l2 & ->).
  unfold ledger. rewrite fold_left_app. cbn [fold_left].
  set (l := fold_left post l1 _). assert (Notification.name n ∈ arrived (post l e)) as H.
  { unfold post. rewrite Hn. cbn. apply elem_of_app. right. by left. }
  clearbody l. revert H. generalize (post l e). induction l2 as [|x l2 IH]; intros k Hk; [done|]. cbn. apply IH.
  unfold post. destruct (fromEntry x) as [[]|]; cbn; [|done..]. apply elem_of_app. by left.
Qed.

Lemma arrived_booked es id : id ∈ arrived (ledger es) → ∃ n, booked es n ∧ Notification.name n = id.
Proof.
  induction es as [|e es IH] using rev_ind; [by intros ?%not_elem_of_nil|]. rewrite ledger_snoc. unfold post.
  assert (id ∈ arrived (ledger es) → ∃ n, booked (es ++ [e]) n ∧ Notification.name n = id) as Hold.
  { intros (n & Hn & E)%IH. exists n. split; [by apply booked_more|done]. }
  destruct (fromEntry e) as [[n d|b t ids]|] eqn:He; cbn; [|done..].
  intros [Hid| ->%list_elem_of_singleton]%elem_of_app; [by apply Hold|].
  exists n. split; [|done]. exists e, d. split; [apply elem_of_app; right; by left|done].
Qed.

(** The notifications by id. *)
Definition book (es : list Entry) : gmap string Notification := fold_left learn es ∅.

Lemma book_booked es n : written es → booked es n → book es !! Notification.name n = Some n.
Proof.
  intros Hw. induction Hw as [|es e Hw IH Hlt Hst]; [by intros (? & ? & ?%not_elem_of_nil & _)|].
  intros (x & d & Hx & Hn). unfold book. rewrite fold_left_app. cbn. fold (book es). unfold learn.
  apply elem_of_app in Hx as [Hx|Hx].
  - assert (booked es n) as Hb by by exists x, d. specialize (IH Hb). apply booked_arrived in Hb.
    destruct Hst as [-> _|m d' -> _ Hnew _|input -> _ _ _]; [done|..|done].
    rewrite lookup_insert_ne; [done|]. by intros E; rewrite E in Hnew.
  - apply list_elem_of_singleton in Hx as ->. rewrite Hn. by rewrite lookup_insert_eq.
Qed.

(** Later events change no entry of the book. *)
Lemma booked_app es es' n : booked es n → booked (es ++ es') n.
Proof. intros (x & d & Hx & He). exists x, d. split; [apply elem_of_app; by left|done]. Qed.

(** Reading the ids of a drain back gives the notifications it delivered. *)
Lemma recall es es' input :
  written es → written (es ++ es') →
  omap (λ id, book (es ++ es') !! id) ((λ i, Notification.name (notification i)) <$> due (fold_state es) input) =
  notification <$> due (fold_state es) input.
Proof.
  intros Hw Hw'. assert (∀ i, i ∈ due (fold_state es) input → booked (es ++ es') (notification i)) as Hb.
  { intros i Hi. apply booked_app, (or_booked _ _ (written_orderly _ Hw)).
    eapply elem_of_sublist; [done|apply due_sublist]. }
  induction (due (fold_state es) input) as [|i l IH]; [done|]. cbn.
  rewrite (book_booked _ (notification i)); [|done|by apply Hb; left]. f_equal. apply IH.
  intros j Hj. apply Hb. by right.
Qed.
End histories.
