(* ===== verification/NotificationSteps.v ===== *)
(** * The queue's operations, as steps of a run's history

    Admissions and drains read the whole history of their run and append at most one
    event to it, the one [queue_step] allows; a failed operation changes nothing.  So
    histories stay [written], whatever order the operations come in. *)

From S2P Require Import Prelude Json World Consensus ConsensusProps Journal JournalAppend RunLaws RunProps FoldProps UpkeepTheorems JournalRead JournalSound Notifications NotificationProps.
Import Notification (Notification, admissionClass).
Import NotificationEvent (NotificationCodec, Event, AdmittedEvent, PromotedEvent, fromEntry, decodeAdmitted, decodePromoted).
Import NotificationQueue.
Import NotificationState (State, AdmissionDecision, Admitted_, Coalesced, RejectedFull, notification, key_of, decision).
#[local] Open Scope me_scope.

(** What redaction must not change of a notification. *)
Definition same_address (n m : Notification) : Prop :=
  Notification.name n = Notification.name m ∧ Notification.target n = Notification.target m ∧
  admissionClass n = admissionClass m ∧ key_of n = key_of m.

Section operations.
Context {J : JsonText} {C : Consensus} {L : ConsensusLaws C} {D : NotificationCodec}.
Context (opts : ValidatedOptions) (plain : string → Prop).
Implicit Types (w : World) (r : string) (es : list Entry).

(** The id, the target and the coalescing key of a notification are plain. *)
Definition addressed (n : Notification) : Prop :=
  plain (Notification.name n) ∧ plain (Notification.target n) ∧ ∀ key, key_of n = Some key → plain key.

(** The journal's redaction leaves plain strings where the queue looks at them, and the
    payloads decodable; the content of a notification it may rewrite. *)
Record faithful : Prop := mkFaithful {
  fa_admitted n d : Notification.in_schema n = true → addressed n →
    ∃ m, decodeAdmitted (v_redact opts (NotificationEvent.admitted_payload n d)) = Some (m, d) ∧ same_address n m;
  fa_promoted b t ids : plain b → plain t → (∀ id, id ∈ ids → plain id) →
    decodePromoted (v_redact opts (NotificationEvent.promoted_payload b t ids)) = Some (b, t, ids)
}.
Context (F : faithful).

(** *** Loading *)

Lemma load_read fuel r after acc w (c := default (-1)%Z after) :
  journal_ok w → journal_ordered w → nonempty r = true →
  is_safe_integer c = true → (-1 ≤ c)%Z → above_floor w r c = true →
  length (past c (history r w)) < fuel →
  load_pages fuel r after acc w = (inr (acc ++ past c (history r w)), w).
Proof.
  intros Hj Ho Hr. revert after c acc. induction fuel as [|fuel IH]; intros after c acc Hc Hge Hfl Hlen; [lia|].
  cbn [load_pages]. set (P := past c (history r w)) in *.
  assert (readPage r after 512 w = (inr (MkEntriesPage (take 512 P) (bool_decide (512 < length P))), w)) as Hp
    by (by rewrite (page_of 512) by (done || lia)).
  step_by Hp. cbn [pg_entries pg_hasMore]. cbv zeta. clear Hp.
  destruct (last (take 512 P)) as [e|] eqn:Hl.
  - case_bool_decide as Hmore; cbn [negb].
    + destruct (cursor_next 512 r w c e Hj Ho Hge Hfl Hl) as (Hd & _ & Hsafe & Hge' & Hfl').
      rewrite (IH (Some (en_seq e)) (acc ++ take 512 P)); cbn [from_option id]; try done; rewrite Hd.
      * by rewrite <-(assoc_L (++)), take_drop.
      * rewrite length_drop. subst P. lia.
    + by rewrite take_ge by lia.
  - apply last_None in Hl as E. rewrite E.
    assert (length P = 0) as HP. { apply (f_equal length) in E. rewrite length_take in E. cbn [length] in E. lia. }
    by rewrite (nil_length_inv P) by done.
Qed.

Lemma load_run runs r w :
  readable runs w → r ∈ runs → nonempty r = true →
  load r w = (inr (mkLoaded (history r w) (fold_state (history r w)) (book (history r w))), w).
Proof.
  intros [_ Hj Ho Hfl] Hr Hne. unfold load. step.
  assert (load_pages (S (length (db_events (w_db w)))) r None [] w = (inr (history r w), w)) as Hl.
  { rewrite (load_read _ r None); try done; cbn [from_option id]; [|by apply Hfl|];
      rewrite past_start by done; [done|]. pose proof (history_length r w Ho). lia. }
  by step_by Hl.
Qed.

(** *** Producers *)

Lemma source_kinds id boundary : admissionSource id ≠ drainSource boundary.
Proof. done. Qed.

Lemma admissionSource_inj a b : admissionSource a = admissionSource b → a = b.
Proof. intros H. by apply (inj (String.append "/notifications/admission/")) in H. Qed.
Lemma drainSource_inj a b : drainSource a = drainSource b → a = b.
Proof. intros H. by apply (inj (String.append "/notifications/drain/")) in H. Qed.

Lemma source_admission es e id :
  written es → e ∈ es → en_sourceId e = admissionSource id →
  ∃ n d, fromEntry e = Some (AdmittedEvent n d) ∧ Notification.name n = id.
Proof.
  intros Hw. induction Hw as [|es x Hw IH _ Hst]; [by intros ?%not_elem_of_nil|].
  intros [He| ->%list_elem_of_singleton]%elem_of_app Hs; [by apply IH|].
  destruct Hst as [_ Hno|n d Hx Hsrc _ _|input _ Hsrc _ _].
  - destruct Hno. left. by exists id.
  - exists n, d. split; [done|]. apply admissionSource_inj. congruence.
  - by rewrite Hs in Hsrc.
Qed.

Lemma source_drain es e boundary :
  written es → e ∈ es → en_sourceId e = drainSource boundary →
  en_sourceSeq e = 0%Z ∧ ∃ t ids, fromEntry e = Some (PromotedEvent boundary t ids).
Proof.
  intros Hw. induction Hw as [|es x Hw IH _ Hst]; [by intros ?%not_elem_of_nil|].
  intros [He| ->%list_elem_of_singleton]%elem_of_app Hs; [by apply IH|].
  destruct Hst as [_ Hno|n d _ Hsrc _ _|input Hx Hsrc Hz _].
  - destruct Hno. right. by exists boundary.
  - by rewrite Hs in Hsrc.
  - rewrite Hs in Hsrc. apply drainSource_inj in Hsrc as ->. eauto.
Qed.

Lemma arrived_event es id : id ∈ arrived (ledger es) ↔ ∃ e, e ∈ es ∧ admits_id id e = true.
Proof.
  split.
  - intros (n & (e & d & He & Hn) & <-)%arrived_booked. exists e. split; [done|].
    unfold admits_id. rewrite Hn. by apply bool_decide_eq_true.
  - intros (e & He & Ha). unfold admits_id in Ha. destruct (fromEntry e) as [[n d|]|] eqn:Hn; [|done..].
    apply bool_decide_eq_true in Ha as <-. apply booked_arrived. by exists e, d.
Qed.

Lemma one_admission es id x y :
  written es → x ∈ es → y ∈ es → admits_id id x = true → admits_id id y = true → x = y.
Proof.
  intros Hw. induction Hw as [|es e Hw IH _ Hst]; [by intros ?%not_elem_of_nil|].
  assert (∀ z, z ∈ es → admits_id id z = true → admits_id id e = true → False) as Hno.
  { intros z Hz Hiz Hie. assert (id ∈ arrived (ledger es)) as Hin by (apply arrived_event; by exists z).
    unfold admits_id in Hie. destruct Hst as [Hn _|n d Hn _ Hnew _|input Hn _ _ _]; rewrite Hn in Hie; [done| |done].
    apply bool_decide_eq_true in Hie as <-. done. }
  intros [Hx| ->%list_elem_of_singleton]%elem_of_app [Hy| ->%list_elem_of_singleton]%elem_of_app Hix Hiy;
    [by apply IH|exfalso; by eapply Hno..|done].
Qed.

(** *** Admission *)

Lemma decision_address s n m a b :
  same_address n m → decision (NotificationState.admit_ s n a) = decision (NotificationState.admit_ s m b).
Proof.
  intros (_ & _ & _ & Hk). unfold NotificationState.admit_, NotificationState.coalesces. rewrite Hk.
  destruct (key_of m) as [key|]; [destruct (NotificationState.find_index _ _); [done|]|]; by case_bool_decide.
Qed.

Lemma admitted_entry r n d e :
  Notification.in_schema n = true → addressed n → entry_of opts (admit_input r n d) e →
  ∃ m, fromEntry e = Some (AdmittedEvent m d) ∧ same_address n m ∧
    decodeAdmitted (v_redact opts (NotificationEvent.admitted_payload n d)) = Some (m, d).
Proof.
  intros Hn Hp [_ Ht Hpay]. destruct (fa_admitted F n d Hn Hp) as (m & Hm & Ha). exists m. split; [|done].
  unfold fromEntry. rewrite Ht. cbn [admit_input in_eventType]. rewrite bool_decide_eq_true_2 by done.
  rewrite Hpay. change (scrubbed opts (admit_input r n d) (in_payload (admit_input r n d)))
    with (v_redact opts (NotificationEvent.admitted_payload n d)). by rewrite Hm.
Qed.
(** The histories after an operation on run [r] that appended [new] to its history. *)
Definition grown (r : string) (w w' : World) (new : list Entry) : Prop :=
  ∀ r', history r' w' = history r' w ++ (if bool_decide (r' = r) then new else []).

Lemma grown_nothing r w w' : (∀ r', history r' w' = history r' w) → grown r w w' [].
Proof. intros H r'. rewrite H. case_bool_decide; by rewrite app_nil_r. Qed.

(** What an admission that answered did. *)
Definition admitted_as (es : list Entry) (n : Notification) (rc : AdmissionReceipt) (new : list Entry) : Prop :=
  notificationId rc = Notification.name n ∧
  if admission_duplicate rc then
    new = [] ∧ ∃ e m, e ∈ es ∧ en_seq e = receipt_seq rc ∧ fromEntry e = Some (AdmittedEvent m (receipt_decision rc)) ∧
      sameNotification m n = true
  else
    ∃ e m, new = [e] ∧ en_seq e = receipt_seq rc ∧ fromEntry e = Some (AdmittedEvent m (receipt_decision rc)) ∧
      same_address n m ∧ written (es ++ [e]) ∧
      decodeAdmitted (v_redact opts (NotificationEvent.admitted_payload n (receipt_decision rc)))
      = Some (m, receipt_decision rc).

Lemma admit_body_effect runs r n w rc w' :
  readable runs w → r ∈ runs → nonempty r = true → Notification.in_schema n = true → addressed n →
  written (history r w) → admit_body opts r n w = (inr rc, w') →
  readable runs w' ∧ ∃ new, grown r w w' new ∧ admitted_as (history r w) n rc new.
Proof.
  intros Hs Hr Hne Hn Hp Hw H. unfold admit_body in H.
  rewrite (bind_run _ _ _ _ _ (load_run runs r w Hs Hr Hne)) in H. cbn [entries state] in H.
  destruct (List.find (admits_id (Notification.name n)) (history r w)) as [e|] eqn:Hf.
  - apply find_some in Hf as [He Ha]. apply list_elem_of_In in He. unfold admits_id in Ha.
    destruct (fromEntry e) as [[m d|]|] eqn:Hm; [|done..]. destruct (sameNotification m n) eqn:Hsame; [|done].
    injection H as <- <-. split; [done|]. exists []. split; [by apply grown_nothing|].
    split; [done|]. cbn. split; [done|]. eauto 10.
  - apply bind_inr in H as (receipt & w1 & Hem & H).
    assert (w1 = w') as -> by by injection H. destruct (emit_cases opts runs _ _ _ _ Hs Hem) as [Hs' Hc].
    split; [done|]. assert (Notification.name n ∉ arrived (ledger (history r w))) as Hnew.
    { rewrite arrived_event. intros (e & He & Ha). eapply find_none in Hf; [|by apply list_elem_of_In].
      congruence. }
    destruct receipt as [seq k|seq k].
    + destruct Hc as (e & Hof & Hsrc & Hseq & _ & Hlt & Hg). destruct (admitted_entry _ _ _ _ Hn Hp Hof) as (m & Hm & Ha & Hdec).
      exists [e]. split; [exact Hg|]. injection H as <-. split; [done|]. cbn. exists e, m. split_and!; try done.
      constructor; [done|done|]. eapply admission_step; [exact Hm|..].
      * rewrite Hsrc. cbn. f_equal. apply Ha.
      * by rewrite <-(proj1 Ha).
      * by apply decision_address.
    + destruct Hc as (_ & e & He & _ & Hsrc & _). cbn in He, Hsrc.
      destruct (source_admission _ _ _ Hw He Hsrc) as (m & d & Hm & Hid). destruct Hnew.
      rewrite arrived_event. exists e. split; [done|]. unfold admits_id. rewrite Hm. by apply bool_decide_eq_true.
Qed.

Lemma admit_body_local runs r n w :
  readable runs w → r ∈ runs → nonempty r = true → w_local (snd (admit_body opts r n w)) = w_local w.
Proof.
  intros Hs Hr Hne. unfold admit_body. rewrite (bind_run _ _ _ _ _ (load_run runs r w Hs Hr Hne)). cbn [entries state].
  destruct (List.find _ _) as [e|]; [destruct (fromEntry e) as [[m d|]|]; [destruct (sameNotification m n)|..]; done|].
  pose proof (emit_local opts (w_local w) (admit_input r n (decision (NotificationState.admit_ (fold_state (history r w)) n (next_of (history r w))))) w eq_refl) as Hl.
  unfold bind. destruct (emitDurable _ _ _ w) as [[e|rc] w1]; exact Hl.
Qed.

(** An admission appends at most its event, to its run; a failed one nothing at all. *)
Lemma admit_effect runs r n w res w' :
  sound runs w → r ∈ runs → nonempty r = true → Notification.in_schema n = true → addressed n →
  written (history r w) → admit_ opts r n w = (res, w') →
  sound runs w' ∧ ∃ new, grown r w w' new ∧
    match res with inl _ => new = [] | inr rc => admitted_as (history r w) n rc new end.
Proof.
  intros Hs Hr Hne Hn Hp Hw H. pose proof (open_readable _ _ Hs) as Ho.
  assert (∀ rc w1, admit_body opts r n (open_transaction w) = (inr rc, w1) →
    readable runs w1 ∧ ∃ new, grown r w w1 new ∧ admitted_as (history r w) n rc new) as Hb
    by (intros rc w1 Hb; by apply (admit_body_effect runs r n (open_transaction w))).
  destruct (transact_sound opts _ _ _ _ _ Hs H) as [Hs' Hres].
  { by rewrite (admit_body_local runs). }
  { intros a w1 Ha. by apply (Hb a w1). }
  split; [done|]. destruct res as [e|rc]; [exists []; split; [by apply grown_nothing|done]|].
  destruct Hres as (w1 & Hrun & Hh). destruct (Hb _ _ Hrun) as (_ & new & Hg & Ha).
  exists new. split; [|done]. intros r'. by rewrite Hh.
Qed.
(** *** Drains *)

(** A promotion delivered what was due when it was appended. *)
Lemma promotion_split es e b t ids :
  written es → e ∈ es → fromEntry e = Some (PromotedEvent b t ids) →
  en_sourceId e = drainSource b ∧ ∃ es1 es2 idle run, es = es1 ++ e :: es2 ∧ written es1 ∧
    ids = (λ i, Notification.name (notification i)) <$> due (fold_state es1) (mkDrainInput run t b idle).
Proof.
  intros Hw. induction Hw as [|es x Hw IH _ Hst]; [by intros ?%not_elem_of_nil|].
  intros [He| ->%list_elem_of_singleton]%elem_of_app Hp.
  - destruct (IH He Hp) as (Hs & es1 & es2 & idle & run & -> & Hw1 & Hids). split; [done|].
    exists es1, (es2 ++ [x]), idle, run. by rewrite <-(assoc_L (++)).
  - destruct Hst as [Hno _|n d Hn _ _ _|input Hx Hsrc _ _]; [congruence..|].
    rewrite Hx in Hp. injection Hp as <- <- <-. split; [done|].
    exists es, [], (wouldIdle input), (runId input). by destruct input.
Qed.

Lemma one_drain es b x y :
  written es → x ∈ es → y ∈ es → en_sourceId x = drainSource b → en_sourceId y = drainSource b → x = y.
Proof.
  intros Hw. induction Hw as [|es e Hw IH _ Hst]; [by intros ?%not_elem_of_nil|].
  assert (∀ z, z ∈ es → en_sourceId z = drainSource b → en_sourceId e ≠ drainSource b) as Hno.
  { intros z Hz Hsz Hse. destruct Hst as [_ Hnot|n d _ Hsrc _ _|input _ Hsrc _ Hfree].
    - destruct Hnot. right. by exists b.
    - by rewrite Hse in Hsrc.
    - rewrite Hse in Hsrc. apply (Hfree z Hz). congruence. }
  intros [Hx| ->%list_elem_of_singleton]%elem_of_app [Hy| ->%list_elem_of_singleton]%elem_of_app Hsx Hsy;
    [by apply IH| | |done]; exfalso; by eapply Hno.
Qed.

(** The receipt of a drain that found an earlier one at its boundary, or of a first one. *)
Definition drained_as (es : list Entry) (input : DrainInput) (rc : DrainReceipt) (new : list Entry) : Prop :=
  receipt_boundary rc = boundary input ∧
  if drain_duplicate rc then
    new = [] ∧ ∃ es1 e es2 idle run, es = es1 ++ e :: es2 ∧ en_sourceId e = drainSource (boundary input) ∧
      notifications rc =
        notification <$> due (fold_state es1) (mkDrainInput run (targetLineageId input) (boundary input) idle)
  else
    notifications rc = notification <$> due (fold_state es) input ∧
    ∃ e, new = [e] ∧ written (es ++ [e]) ∧ fromEntry e = Some (PromotedEvent (boundary input) (targetLineageId input)
      (Notification.name <$> notifications rc)).

Lemma drained_at_some input e ids :
  drained_at input e = Some ids ↔ fromEntry e = Some (PromotedEvent (boundary input) (targetLineageId input) ids).
Proof.
  unfold drained_at. destruct (fromEntry e) as [[n d|b t l]|]; [done| |done].
  destruct (bool_decide_reflect (b = boundary input)) as [->|Hb]; cbn [andb]; [|split; [done|congruence]].
  destruct (bool_decide_reflect (t = targetLineageId input)) as [->|Ht]; split; congruence.
Qed.

Lemma book_recall es es1 e es2 input :
  written es → es = es1 ++ e :: es2 → written es1 →
  omap (λ id, book es !! id) ((λ i, Notification.name (notification i)) <$> due (fold_state es1) input) =
  notification <$> due (fold_state es1) input.
Proof. intros Hw -> Hw1. by apply (recall es1 (e :: es2)). Qed.

Lemma drained_entry input ids e :
  plain (boundary input) → plain (targetLineageId input) → (∀ id, id ∈ ids → plain id) →
  entry_of opts (drain_input input ids) e →
  fromEntry e = Some (PromotedEvent (boundary input) (targetLineageId input) ids).
Proof.
  intros Hb Ht Hids [_ Hty Hpay]. pose proof (fa_promoted F _ _ _ Hb Ht Hids) as Hd.
  unfold fromEntry. rewrite Hty. cbn [drain_input in_eventType].
  rewrite bool_decide_eq_false_2, bool_decide_eq_true_2 by done. rewrite Hpay.
  change (scrubbed opts (drain_input input ids) (in_payload (drain_input input ids)))
    with (v_redact opts (NotificationEvent.promoted_payload (boundary input) (targetLineageId input) ids)).
  by rewrite Hd.
Qed.

Lemma due_plain es input :
  written es → (∀ id, id ∈ arrived (ledger es) → plain id) →
  ∀ id, id ∈ Notification.name <$> (notification <$> due (fold_state es) input) → plain id.
Proof.
  intros Hw Hids id (n & -> & (i & -> & Hi)%list_elem_of_fmap)%list_elem_of_fmap.
  apply Hids, booked_arrived, (or_booked _ _ (written_orderly _ Hw)).
  eapply elem_of_sublist; [done|apply due_sublist].
Qed.

Lemma drain_body_effect runs input w rc w' (h := history (runId input) w) :
  readable runs w → runId input ∈ runs → nonempty (runId input) = true →
  plain (boundary input) → plain (targetLineageId input) → (∀ id, id ∈ arrived (ledger h) → plain id) →
  written h → drain_body opts input w = (inr rc, w') →
  readable runs w' ∧ ∃ new, grown (runId input) w w' new ∧ drained_as h input rc new.
Proof.
  intros Hs Hr Hne Hb Ht Hids Hw H. unfold drain_body in H.
  rewrite (bind_run _ _ _ _ _ (load_run runs _ w Hs Hr Hne)) in H. cbn [entries state known] in H.
  fold h in H. destruct (omap (drained_at input) h) as [|ids rest] eqn:Hom.
  - fold (cutoff_of h) in H. rewrite (written_deliveries _ input Hw) in H.
    set (ds := notification <$> due (fold_state h) input) in *.
    apply bind_inr in H as (receipt & w1 & Hem & H). injection H as <- ->.
    destruct (emit_cases opts runs _ _ _ _ Hs Hem) as [Hs' Hc]. split; [done|].
    pose proof (due_plain h input Hw Hids : ∀ id, id ∈ Notification.name <$> ds → plain id) as Hpl.
    assert (∀ x, x ∈ h → en_sourceId x = drainSource (boundary input) →
      ∃ t ids, en_sourceSeq x = 0%Z ∧
      fromEntry x = Some (PromotedEvent (boundary input) t ids) ∧ t ≠ targetLineageId input) as Hother.
    { intros x Hx Hsx. destruct (source_drain _ _ _ Hw Hx Hsx) as (Hz & t & ids & Hp). exists t, ids. split; [done|]. split; [done|].
      intros ->. apply (not_elem_of_nil ids). rewrite <-Hom. apply list_elem_of_omap. exists x. split; [done|].
      by apply drained_at_some. }
    destruct receipt as [seq k|seq k].
    + destruct Hc as (e & Hof & Hsrc & _ & Hkey & Hlt & Hg). exists [e]. split; [exact Hg|]. split; [done|].
      cbn [drain_duplicate notifications]. split; [done|]. exists e.
      destruct (Hkey 0%Z eq_refl) as [Hzero Hfree].
      pose proof (drained_entry _ _ _ Hb Ht Hpl Hof) as He. split; [done|]. split; [|done].
      constructor; [done|done|]. eapply promotion_step; [|exact Hsrc|done|].
      * rewrite He. do 2 f_equal. subst ds. by rewrite <-list_fmap_compose.
      * intros x Hx Hsx. destruct (Hother x Hx Hsx) as (t & ids & Hz & _). by apply (Hfree x Hx Hsx).
    + destruct Hc as (_ & e & He & _ & Hsrc & Hty & Hpay).
      destruct (Hother e He Hsrc) as (t & ids & _ & Hp & Hnt). destruct Hnt.
      assert (entry_of opts (drain_input input (Notification.name <$> ds)) e) as Hof.
      { split; [|done|done]. rewrite history_ordered in He by apply Hs.
        apply list_elem_of_omap in He as (row & [_ Hrun]%elem_of_filter_b & Hd).
        apply decode_type in Hd as (_ & -> & _). by apply bool_decide_eq_true in Hrun. }
      rewrite (drained_entry _ _ _ Hb Ht Hpl Hof) in Hp. by injection Hp as <- _.
  - injection H as <- <-. split; [done|]. exists []. split; [by apply grown_nothing|]. split; [done|].
    cbn [drain_duplicate notifications]. split; [done|].
    assert (ids ∈ omap (drained_at input) h) as Hin by (rewrite Hom; by left).
    apply list_elem_of_omap in Hin as (e & He & Hd). apply drained_at_some in Hd.
    destruct (promotion_split _ _ _ _ _ Hw He Hd) as (Hsrc & es1 & es2 & idle & run & Heq & Hw1 & ->).
    exists es1, e, es2, idle, run. split_and!; [done|done|]. by eapply book_recall.
Qed.

Lemma drain_body_local runs input w :
  readable runs w → runId input ∈ runs → nonempty (runId input) = true →
  w_local (snd (drain_body opts input w)) = w_local w.
Proof.
  intros Hs Hr Hne. unfold drain_body. rewrite (bind_run _ _ _ _ _ (load_run runs _ w Hs Hr Hne)). cbn [entries state known].
  destruct (omap _ _) as [|ids rest]; [|done]. cbv zeta.
  set (ds := deliveries _ _ _).
  pose proof (emit_local opts (w_local w) (drain_input input (Notification.name <$> ds)) w eq_refl) as Hl.
  unfold bind. destruct (emitDurable _ _ _ w) as [[e|rc] w1]; exact Hl.
Qed.

(** A drain appends at most its event; a failed one nothing at all. *)
Lemma drain_effect runs input w res w' (h := history (runId input) w) :
  sound runs w → runId input ∈ runs → nonempty (runId input) = true →
  plain (boundary input) → plain (targetLineageId input) → (∀ id, id ∈ arrived (ledger h) → plain id) →
  written h → drain opts input w = (res, w') →
  sound runs w' ∧ ∃ new, grown (runId input) w w' new ∧
    match res with inl _ => new = [] | inr rc => drained_as h input rc new end.
Proof.
  intros Hs Hr Hne Hb Ht Hids Hw H. pose proof (open_readable _ _ Hs) as Ho.
  assert (∀ rc w1, drain_body opts input (open_transaction w) = (inr rc, w1) →
    readable runs w1 ∧ ∃ new, grown (runId input) w w1 new ∧ drained_as h input rc new) as Hbody
    by (intros rc w1 Hrun; by apply (drain_body_effect runs input (open_transaction w))).
  destruct (transact_sound opts _ _ _ _ _ Hs H) as [Hs' Hres].
  { by rewrite (drain_body_local runs). }
  { intros a w1 Ha. by apply (Hbody a w1). }
  split; [done|]. destruct res as [e|rc]; [exists []; split; [by apply grown_nothing|done]|].
  destruct Hres as (w1 & Hrun & Hh). destruct (Hbody _ _ Hrun) as (_ & new & Hg & Ha).
  exists new. split; [|done]. intros r'. by rewrite Hh.
Qed.
End operations.
