(* ===== verification/NotificationTheorems.v ===== *)
(** * What the notification queue promises

    Properties of the queue of a run under any sequence of admissions, drains and
    appends of other producers. *)

From S2P Require Import Prelude Json World Consensus ConsensusProps Journal JournalAppend RunLaws RunProps RunAnswers FoldProps UpkeepTheorems JournalRead JournalSound Notifications NotificationProps NotificationSteps.
Import Notification (Notification, admissionClass).
Import NotificationEvent (NotificationCodec, Event, AdmittedEvent, PromotedEvent, fromEntry).
Import NotificationQueue.
Import NotificationState (State, AdmissionDecision, Admitted_, Coalesced, RejectedFull, Pending, notification, items).
#[local] Open Scope me_scope.

Section queue.
Context {J : JsonText} {C : Consensus} {L : ConsensusLaws C} {D : NotificationCodec}.
Context (opts : ValidatedOptions) (plain : string → Prop) (F : faithful opts plain).
Context (runs : list string) (r : string) (Hr : r ∈ runs) (Hne : nonempty r = true).
Implicit Types (w : World) (n : Notification).

(** ** Sequences of operations *)

Inductive QueueOp : Type :=
  | OAdmit (n : Notification)
  | ODrain (input : DrainInput)
  | OEmit (input : Input).

Definition perform (op : QueueOp) (w : World) : World :=
  match op with
  | OAdmit n => snd (admit_ opts r n w)
  | ODrain input => snd (drain opts input w)
  | OEmit input => snd (emitDurable opts input None w)
  end.

Definition performs (ops : list QueueOp) (w : World) : World := fold_left (λ w op, perform op w) ops w.

(** Arguments the schemas accept; other producers use their own sources and types. *)
Definition op_ok (op : QueueOp) : Prop :=
  match op with
  | OAdmit n => Notification.in_schema n = true ∧ addressed plain n
  | ODrain input => runId input = r ∧ plain (boundary input) ∧ plain (targetLineageId input)
  | OEmit input => ¬ queue_source (in_sourceId input) ∧
      in_eventType input ≠ NotificationEvent.AdmittedEventType ∧
      in_eventType input ≠ NotificationEvent.PromotedEventType
  end.

(** The state of a run's queue: a sound journal whose history is [written]. *)
Record queue_ok (w : World) : Prop := mkQueueOk {
  qo_sound : sound runs w;
  qo_written : written (history r w);
  qo_plain : ∀ id, id ∈ arrived (ledger (history r w)) → plain id
}.

Lemma foreign_entry input e :
  op_ok (OEmit input) → entry_of opts input e → en_sourceId e = in_sourceId input →
  fromEntry e = None ∧ ¬ queue_source (en_sourceId e).
Proof.
  intros (Hs & Ha & Hp) [_ Ht _] Hsrc. rewrite Hsrc. split; [|done]. unfold fromEntry. rewrite Ht.
  by rewrite !bool_decide_eq_false_2.
Qed.

Lemma emit_grows input w res w' :
  sound runs w → emitDurable opts input None w = (res, w') →
  sound runs w' ∧ ∃ new, grown (in_runId input) w w' new ∧
    (new = [] ∨ ∃ e, new = [e] ∧ entry_of opts input e ∧ en_sourceId e = in_sourceId input ∧
       ∀ x, x ∈ history (in_runId input) w → (en_seq x < en_seq e)%Z).
Proof.
  intros Hs H. destruct res as [e|rc].
  - apply emit_failed in H; [|by eapply sd_open]. destruct (proc_step_sound _ _ _ Hs H) as [Hs' Hh].
    split; [done|]. exists []. split; [by apply grown_nothing|by left].
  - destruct (proj1 (sound_readable _ _) Hs) as [Hrd Hopen].
    destruct (emit_cases opts _ _ _ _ _ Hrd H) as [Hrd' Hc].
    split; [by eapply emit_sound|].
    destruct rc as [seq n|seq n].
    + destruct Hc as (e & Hof & Hsrc & _ & _ & Hlt & Hh). exists [e]. split; [exact Hh|]. right. by exists e.
    + destruct Hc as [Hh _]. exists []. split; [by apply grown_nothing|by left].
Qed.

Lemma grown_here w w' new : grown r w w' new → history r w' = history r w ++ new.
Proof. intros H. rewrite H. by rewrite bool_decide_eq_true_2. Qed.

Lemma perform_grows op w :
  op_ok op → queue_ok w → queue_ok (perform op w) ∧ ∃ new, history r (perform op w) = history r w ++ new.
Proof.
  intros Hop [Hs Hw Hpl]. destruct op as [n|input|input]; cbn [perform].
  - destruct Hop as [Hn Hp]. destruct (admit_ opts r n w) as [res w'] eqn:H. cbn [snd].
    destruct (admit_effect opts plain F runs r n w res w') as (Hs' & new & Hg & Hres); try done.
    apply grown_here in Hg. split; [|by exists new]. destruct res as [e|rc]; [subst new; rewrite app_nil_r in Hg|].
    { by split; rewrite ?Hg. }
    destruct Hres as [_ Hres]. destruct (admission_duplicate rc).
    { destruct Hres as [-> _]. rewrite app_nil_r in Hg. by split; rewrite ?Hg. }
    destruct Hres as (e & m & -> & _ & He & Ha & Hw' & _). split; [done|by rewrite Hg|].
    intros id. rewrite Hg, ledger_snoc. unfold post. rewrite He. cbn [arrived].
    intros [Hid| ->%list_elem_of_singleton]%elem_of_app; [by apply Hpl|]. rewrite <-(proj1 Ha). exact (proj1 Hp).
  - destruct Hop as (Hrun & Hb & Ht). destruct (drain opts input w) as [res w'] eqn:H. cbn [snd].
    destruct (drain_effect opts plain F runs input w res w') as (Hs' & new & Hg & Hres); try done; [by rewrite Hrun..|].
    rewrite Hrun in Hg, Hres. apply grown_here in Hg. split; [|by exists new].
    destruct res as [e|rc]; [subst new; rewrite app_nil_r in Hg; by split; rewrite ?Hg|].
    destruct Hres as [_ Hres]. destruct (drain_duplicate rc).
    { destruct Hres as [-> _]. rewrite app_nil_r in Hg. by split; rewrite ?Hg. }
    destruct Hres as (_ & e & -> & Hw' & He). split; [done|by rewrite Hg|].
    intros id. rewrite Hg, ledger_snoc. unfold post. rewrite He. cbn [arrived]. apply Hpl.
  - destruct (emitDurable opts input None w) as [res w'] eqn:H. cbn [snd].
    destruct (emit_grows input w res w' Hs H) as (Hs' & new & Hg & Hnew). pose proof (Hg r) as Hh.
    split; [|by eexists]. case_bool_decide as Hrun.
    + destruct Hnew as [->|(e & -> & Hof & Hsrc & Hlt)]; [rewrite app_nil_r in Hh; by split; rewrite ?Hh|].
      destruct (foreign_entry input e Hop Hof Hsrc) as [Hnone Hno]. rewrite <-Hrun in Hlt.
      split; [done|rewrite Hh; constructor; [done|done|by apply foreign_step]|].
      rewrite Hh, ledger_snoc. unfold post. by rewrite Hnone.
    + rewrite app_nil_r in Hh. by split; rewrite ?Hh.
Qed.

Lemma performs_grows ops w :
  Forall op_ok ops → queue_ok w → queue_ok (performs ops w) ∧ ∃ new, history r (performs ops w) = history r w ++ new.
Proof.
  intros Hops. revert w. induction Hops as [|op ops Hop _ IH]; intros w Hw.
  { split; [done|]. exists []. by rewrite app_nil_r. }
  destruct (perform_grows op w Hop Hw) as [Hw1 [n1 H1]]. destruct (IH _ Hw1) as [Hw2 [n2 H2]].
  split; [done|]. exists (n1 ++ n2). change (performs (op :: ops) w) with (performs ops (perform op w)). by rewrite H2, H1, (assoc_L (++)).
Qed.
(** ** Operations that must succeed *)

(** The journal takes another event for the run: it is open, the clock shows a
    representable time and the sequence numbers are not used up. *)
Definition accepting (w : World) : bool :=
  bool_decide (p_status (w_proc w) = Open) && stamp_ok (w_clock w) && allocatable (next_seq w r).

Lemma accepting_spec w input :
  in_runId input = r → in_sourceSeq input = Some 0%Z → nonempty (in_sourceId input) = true →
  nonempty (in_eventType input) = true → accepting w = true →
  admissible w input = true ∧ allocates w input = true.
Proof.
  intros Hrun Hseq Hs Ht [[Hopen Hclock]%andb_true_iff Hall]%andb_true_iff.
  unfold admissible, allocates, source_seq_of. rewrite Hrun, Hseq, Hopen, Hclock, Hs, Ht, Hne. split; [done|exact Hall].
Qed.

(** Every stored row of a run shows in its history. *)
Lemma row_entry w row :
  readable runs w → row ∈ db_events (w_db w) →
  ∃ e, e ∈ history (j_runId row) w ∧ en_sourceId e = j_sourceId row ∧ en_sourceSeq e = j_sourceSeq row ∧
    decode_entry row = Some e.
Proof.
  intros Hs Hrow. destruct (decodeRow_checked row w (ev_checked _ (rd_journal _ _ Hs) row Hrow)) as [e He].
  rewrite decodeRow_decode in He. destruct (decode_entry row) as [e'|] eqn:Hd; [|done]. injection He as ->.
  exists e. split_and!; [|unfold decode_entry in Hd; repeat case_match; try done; by injection Hd as <-..|done].
  rewrite history_ordered by apply Hs. apply list_elem_of_omap. exists row. split; [|done].
  apply elem_of_filter_b. split; [done|]. by apply bool_decide_eq_true.
Qed.

Lemma emit_succeeds input w :
  readable runs w → in_runId input = r → in_sourceSeq input = Some 0%Z → nonempty (in_sourceId input) = true →
  nonempty (in_eventType input) = true → accepting w = true →
  (∀ x, x ∈ history r w → en_sourceId x ≠ in_sourceId input) →
  ∃ seq w', emitDurable opts input None w = (inr (Accepted seq 0), w').
Proof.
  intros Hs Hrun Hseq Hsrc Hty Hacc Hfree. destruct (accepting_spec w input) as [Hadm Hall]; [done..|].
  destruct (emitDurable_fresh opts input None w) as (w' & Hem & _); try done; [apply Hs|apply Hs| |].
  { intros row Hrow Hk. injection Hk as Hr' Hs' _. destruct (row_entry w row Hs Hrow) as (e & He & Hse & _).
    rewrite Hr', Hrun in He. apply (Hfree e He). congruence. }
  exists (next_seq w (in_runId input)), w'. rewrite Hem. unfold source_seq_of. by rewrite Hseq.
Qed.

Lemma nothing_drained input es :
  (∀ x ids, x ∈ es → fromEntry x ≠ Some (PromotedEvent (boundary input) (targetLineageId input) ids)) →
  omap (drained_at input) es = [].
Proof.
  intros Hno. destruct (omap (drained_at input) es) as [|ids l] eqn:E; [done|]. exfalso.
  assert (ids ∈ omap (drained_at input) es) as Hin by (rewrite E; by left).
  apply list_elem_of_omap in Hin as (x & Hx & Hd%drained_at_some). by apply (Hno x ids).
Qed.

Definition undrained (w : World) (b : string) : Prop := ∀ x, x ∈ history r w → en_sourceId x ≠ drainSource b.

Lemma drain_first input w :
  queue_ok w → op_ok (ODrain input) → accepting w = true → undrained w (boundary input) →
  ∃ rc w', drain opts input w = (inr rc, w') ∧ drain_duplicate rc = false.
Proof.
  intros [Hs Hw Hpl] (Hrun & Hb & Ht) Hacc Hfree. pose proof (open_readable _ _ Hs) as Ho.
  assert (∃ rc w1, drain_body opts input (open_transaction w) = (inr rc, w1) ∧ drain_duplicate rc = false)
    as (rc & w1 & Hbody & Hdup).
  { unfold drain_body. rewrite (bind_run _ _ _ _ _ (load_run runs (runId input) _ Ho ltac:(by rewrite Hrun) ltac:(by rewrite Hrun))).
    cbn [entries state known]. rewrite Hrun.
    change (history r (open_transaction w)) with (history r w).
    rewrite nothing_drained by (intros x ids Hx Hp; by apply (Hfree x Hx), (promotion_split _ _ _ _ _ Hw Hx Hp)).
    cbv zeta. set (ds := deliveries _ _ _).
    destruct (emit_succeeds (drain_input input (Notification.name <$> ds)) (open_transaction w)) as (seq & w' & Hem); try done.
    exists (mkDrainReceipt ds (boundary input) false), w'. by step_by Hem. }
  assert (body_world w = open_transaction w) as Hbw by (unfold body_world; by rewrite (sd_open _ _ Hs)).
  destruct (transact_run opts (drain_body opts input) w rc w1) as (w' & Hd & _); [by rewrite Hbw|].
  by exists rc, w'.
Qed.

Lemma drain_recalls input ds w :
  queue_ok w → op_ok (ODrain input) →
  (∃ e es1 es2 idle run, history r w = es1 ++ e :: es2 ∧ written es1 ∧
     fromEntry e = Some (PromotedEvent (boundary input) (targetLineageId input) (Notification.name <$> ds)) ∧
     ds = notification <$> due (fold_state es1) (mkDrainInput run (targetLineageId input) (boundary input) idle)) →
  ∃ w', drain opts input w = (inr (mkDrainReceipt ds (boundary input) true), w') ∧ w_db w' = w_db w.
Proof.
  intros [Hs Hw Hpl] (Hrun & Hb & Ht) (e & es1 & es2 & idle & run & Hh & Hw1 & He & Hds).
  pose proof (open_readable _ _ Hs) as Ho.
  assert (body_world w = open_transaction w) as Hbw by (unfold body_world; by rewrite (sd_open _ _ Hs)).
  destruct (transact_run opts (drain_body opts input) w (mkDrainReceipt ds (boundary input) true) (open_transaction w))
    as (w' & Hd & Hss); [|exists w'; split; [done|apply Hss]].
  rewrite Hbw. unfold drain_body.
  rewrite (bind_run _ _ _ _ _ (load_run runs (runId input) _ Ho ltac:(by rewrite Hrun) ltac:(by rewrite Hrun))).
  cbn [entries state known]. rewrite Hrun. change (history r (open_transaction w)) with (history r w).
  assert (e ∈ history r w) as Hin by (rewrite Hh; set_solver).
  destruct (omap (drained_at input) (history r w)) as [|ids l] eqn:E.
  { exfalso. apply (not_elem_of_nil (Notification.name <$> ds)). rewrite <-E. apply list_elem_of_omap.
    exists e. split; [done|]. by apply drained_at_some. }
  assert (ids ∈ omap (drained_at input) (history r w)) as Hids by (rewrite E; by left).
  apply list_elem_of_omap in Hids as (x & Hx & Hd%drained_at_some).
  destruct (promotion_split _ _ _ _ _ Hw Hin He) as [Hse _]. destruct (promotion_split _ _ _ _ _ Hw Hx Hd) as [Hsx _].
  pose proof (one_drain _ _ _ _ Hw Hx Hin Hsx Hse) as ->. rewrite He in Hd. injection Hd as <-.
  unfold ret. do 3 f_equal. rewrite Hds at 1. rewrite <-list_fmap_compose. rewrite Hds.
  by eapply (book_recall (history r w)).
Qed.
Lemma admit_first n w :
  queue_ok w → op_ok (OAdmit n) → accepting w = true → Notification.name n ∉ arrived (ledger (history r w)) →
  ∃ rc w', admit_ opts r n w = (inr rc, w') ∧ admission_duplicate rc = false.
Proof.
  intros [Hs Hw Hpl] [Hn Hp] Hacc Hnew. pose proof (open_readable _ _ Hs) as Ho.
  assert (∃ rc w1, admit_body opts r n (open_transaction w) = (inr rc, w1) ∧ admission_duplicate rc = false)
    as (rc & w1 & Hbody & Hdup).
  { unfold admit_body. rewrite (bind_run _ _ _ _ _ (load_run runs r _ Ho Hr Hne)). cbn [entries state].
    change (history r (open_transaction w)) with (history r w).
    destruct (List.find _ (history r w)) as [e|] eqn:Hf.
    { exfalso. apply find_some in Hf as [He Ha]. apply Hnew, arrived_event. exists e. by rewrite list_elem_of_In. }
    cbv zeta. set (d := NotificationState.decision _).
    destruct (emit_succeeds (admit_input r n d) (open_transaction w)) as (seq & w' & Hem); try done.
    { intros x Hx Hsx. destruct (source_admission _ _ _ Hw Hx Hsx) as (m & d' & Hm & Hid).
      apply Hnew, arrived_event. exists x. split; [done|]. unfold admits_id. rewrite Hm. by apply bool_decide_eq_true. }
    eexists (mkAdmissionReceipt (Notification.name n) d seq false), w'. by step_by Hem. }
  assert (body_world w = open_transaction w) as Hbw by (unfold body_world; by rewrite (sd_open _ _ Hs)).
  destruct (transact_run opts (admit_body opts r n) w rc w1) as (w' & Hd & _); [by rewrite Hbw|].
  by exists rc, w'.
Qed.

Lemma admit_recalls n e m d w :
  queue_ok w → e ∈ history r w → fromEntry e = Some (AdmittedEvent m d) →
  Notification.name m = Notification.name n → sameNotification m n = true →
  ∃ w', admit_ opts r n w = (inr (mkAdmissionReceipt (Notification.name n) d (en_seq e) true), w') ∧ w_db w' = w_db w.
Proof.
  intros [Hs Hw Hpl] He Hm Hid Hsame. pose proof (open_readable _ _ Hs) as Ho.
  assert (body_world w = open_transaction w) as Hbw by (unfold body_world; by rewrite (sd_open _ _ Hs)).
  destruct (transact_run opts (admit_body opts r n) w
    (mkAdmissionReceipt (Notification.name n) d (en_seq e) true) (open_transaction w))
    as (w' & Hd & Hss); [|exists w'; split; [done|apply Hss]].
  rewrite Hbw. unfold admit_body. rewrite (bind_run _ _ _ _ _ (load_run runs r _ Ho Hr Hne)). cbn [entries state].
  change (history r (open_transaction w)) with (history r w).
  assert (admits_id (Notification.name n) e = true) as Ha.
  { unfold admits_id. rewrite Hm. by apply bool_decide_eq_true. }
  destruct (List.find _ (history r w)) as [x|] eqn:Hf.
  2: { eapply find_none in Hf; [|by apply list_elem_of_In]. congruence. }
  apply find_some in Hf as [Hx Hax]. apply list_elem_of_In in Hx.
  pose proof (one_admission _ _ _ _ Hw Hx He Hax Ha) as ->. by rewrite Hm, Hsame.
Qed.

(** The event of a first admission, when redaction leaves the payload alone. *)
Lemma admit_body_entry n w rc w' :
  queue_ok w → Notification.in_schema n = true → addressed plain n →
  (∀ d, v_redact opts (NotificationEvent.admitted_payload n d) = NotificationEvent.admitted_payload n d) →
  admit_ opts r n w = (inr rc, w') → admission_duplicate rc = false →
  ∃ e, history r w' = history r w ++ [e] ∧ fromEntry e = Some (AdmittedEvent n (receipt_decision rc)) ∧
    en_seq e = receipt_seq rc.
Proof.
  intros [Hs Hw Hpl] Hn Hp Hred Ha Hdup.
  destruct (admit_effect opts plain F runs r n w (inr rc) w') as (_ & new & Hg & _ & Hres); try done.
  apply grown_here in Hg. rewrite Hdup in Hres. destruct Hres as (e & m & -> & Hseq & He & _ & _ & Hdec).
  exists e. split; [done|]. split; [|done]. rewrite Hred, NotificationEvent.decode_admitted in Hdec by done.
  by injection Hdec as <-.
Qed.

(** ** The properties *)

(** C6. No notification is lost and none is delivered twice. On a well-formed,
    uncompacted journal, after any sequence of admissions, drains and appends of
    other producers, every notification id that was ever accepted into the run's
    journal is in exactly one of four places: among the delivered ids, among the
    pending ones, superseded by a system event that coalesced with it while it was
    pending, or rejected because the queue was full. The queue never holds more than
    its capacity, and holds its notifications in the order of their admission. Asked
    ([faithful]): the journal's redactor leaves the ids, targets, coalescing keys
    and boundaries in play as they are and the payloads decodable, as textual rules
    do that match none of them ([redact_faithful]); under one that rewrites ids, as
    the default api-key rule does, a notification is lost
    ([redacted_ids_lose_notification]). *)
Theorem notifications_accounted ops w :
  queue_ok w → Forall op_ok ops →
  let h := history r (performs ops w) in let l := ledger h in
  NoDup (arrived l) ∧ delivered l ++ superseded l ++ rejected l ++ ids_of (fold_state h) ≡ₚ arrived l ∧
  (Z.of_nat (length (items (fold_state h))) ≤ defaultCapacity)%Z ∧
  StronglySorted Z.lt (NotificationState.seq <$> items (fold_state h)).
Proof.
  intros Hw Hops h l. destruct (performs_grows ops w Hops Hw) as [[_ Hwr _] _].
  destruct (written_balanced _ Hwr) as [H1 H2 _ H4]. rewrite (ledger_queue _) in H2, H4.
  split_and!; [done|done|done|]. apply (written_orderly _ Hwr).
Qed.

(** C7. A first drain at a boundary delivers what is due there. While the journal
    takes events, and has not compacted the run, it succeeds and answers every
    pending steer of its lineage in the order of admission; when there is none and
    the agent would idle, the oldest queued notification of the lineage, and
    otherwise nothing. Exactly those leave the queue, and are delivered from then
    on. Asked ([faithful]): the journal's redactor leaves the ids, targets,
    coalescing keys and boundaries in play as they are and the payloads decodable,
    as textual rules do that match none of them ([redact_faithful]); under one that
    rewrites ids a notification is lost ([redacted_ids_lose_notification]). *)
Theorem drain_delivers input w (h := history r w) :
  queue_ok w → op_ok (ODrain input) → accepting w = true → undrained w (boundary input) →
  ∃ rc w', drain opts input w = (inr rc, w') ∧ queue_ok w' ∧
    rc = mkDrainReceipt (notification <$> due (fold_state h) input) (boundary input) false ∧
    delivered (ledger (history r w')) = delivered (ledger h) ++ (Notification.name <$> notifications rc) ∧
    ids_of (fold_state (history r w')) ++ (Notification.name <$> notifications rc) ≡ₚ ids_of (fold_state h) ∧
    StronglySorted Z.lt (NotificationState.seq <$> due (fold_state h) input).
Proof.
  intros Hw Hop Hacc Hfree. destruct (drain_first input w Hw Hop Hacc Hfree) as (rc & w' & Hd & Hdup).
  exists rc, w'. split; [done|]. pose proof (perform_grows (ODrain input) w Hop Hw) as [Hw' _]. cbn [perform] in Hw'.
  rewrite Hd in Hw'. split; [done|]. destruct Hop as (Hrun & Hb & Ht).
  destruct (drain_effect opts plain F runs input w (inr rc) w') as (_ & new & Hg & Hb' & Hres);
    try (by rewrite ?Hrun; apply Hw || done); [done..|].
  rewrite Hrun in Hg, Hres. apply grown_here in Hg. rewrite Hdup in Hres. destruct Hres as (Hn & e & -> & _ & He).
  fold h in Hg, Hn, He. split.
  { destruct rc as [ns b dup]; cbn in *. by subst. }
  rewrite Hg, ledger_snoc, fold_state_snoc. unfold post, reduce. rewrite He. cbn [delivered]. split; [done|].
  assert (Notification.name <$> notifications rc = (λ i, Notification.name (notification i)) <$> due (fold_state h) input)
    as Hids by (by rewrite Hn, <-list_fmap_compose).
  split.
  - apply promoted_balance; [|rewrite Hids; apply fmap_sublist, due_sublist].
    rewrite <-ledger_queue. apply balanced_ids, written_balanced, Hw.
  - eapply sorted_sublist; [apply (written_orderly h), Hw|]. apply fmap_sublist, due_sublist.
Qed.

(** Draining again at the same boundary and lineage, at any later time, delivers the
    same notifications again and changes nothing: a turn that is replayed reads what it
    read before, whatever has been admitted or drained since. *)
Theorem drain_again input input' w rc w' ops :
  queue_ok w → op_ok (ODrain input) → drain opts input w = (inr rc, w') → drain_duplicate rc = false →
  Forall op_ok ops → op_ok (ODrain input') → boundary input' = boundary input →
  targetLineageId input' = targetLineageId input →
  ∃ w2, drain opts input' (performs ops w') = (inr (mkDrainReceipt (notifications rc) (boundary input) true), w2) ∧
    w_db w2 = w_db (performs ops w').
Proof.
  intros Hw Hop Hd Hdup Hops Hop' Hb' Ht'. pose proof (perform_grows (ODrain input) w Hop Hw) as [Hw' _]. cbn [perform] in Hw'.
  rewrite Hd in Hw'. destruct Hop as (Hrun & Hb & Ht).
  destruct (drain_effect opts plain F runs input w (inr rc) w') as (_ & new & Hg & _ & Hres);
    try (by rewrite ?Hrun; apply Hw || done); [done..|].
  rewrite Hrun in Hg, Hres. apply grown_here in Hg. rewrite Hdup in Hres. destruct Hres as (Hn & e & -> & _ & He).
  destruct (performs_grows ops w' Hops Hw') as [Hw2 [more Hmore]].
  rewrite <-Hb'. apply drain_recalls; [done|done|]. rewrite Hb', Ht'.
  exists e, (history r w), more, (wouldIdle input), (runId input).
  split_and!; [by rewrite Hmore, Hg, <-(assoc_L (++))|apply Hw|done|]. by destruct input.
Qed.

(** Admitting the same notification again, at any later time, answers the decision and
    the sequence of the first admission and changes nothing, provided the journal's
    redaction leaves its payload alone. *)
Theorem admit_again n w rc w' ops :
  queue_ok w → op_ok (OAdmit n) →
  (∀ d, v_redact opts (NotificationEvent.admitted_payload n d) = NotificationEvent.admitted_payload n d) →
  admit_ opts r n w = (inr rc, w') → admission_duplicate rc = false → Forall op_ok ops →
  ∃ w2, admit_ opts r n (performs ops w') =
        (inr (mkAdmissionReceipt (Notification.name n) (receipt_decision rc) (receipt_seq rc) true), w2) ∧
    w_db w2 = w_db (performs ops w').
Proof.
  intros Hw Hop Hred Ha Hdup Hops. pose proof (perform_grows (OAdmit n) w Hop Hw) as [Hw' _]. cbn [perform] in Hw'.
  rewrite Ha in Hw'. destruct Hop as [Hn Hp].
  destruct (admit_body_entry n w rc w' Hw Hn Hp Hred Ha Hdup) as (e & Hh & He & Hseq).
  destruct (performs_grows ops w' Hops Hw') as [Hw2 [more Hmore]].
  rewrite <-Hseq. apply (admit_recalls n e n); [done| |done|done|by apply bool_decide_eq_true].
  rewrite Hmore, Hh. set_solver.
Qed.
(** A first admission follows the bounded queue.  While the journal takes events, an
    id that is new to the run is recorded with the decision of the queue's state: it
    replaces a pending system event with the same coalescing key, is rejected when the
    queue is full, and joins the end of the queue otherwise; the next operation finds the
    queue in exactly the state [NotificationState.admit_] gives. *)
Theorem admission_recorded n w (h := history r w) :
  queue_ok w → op_ok (OAdmit n) → accepting w = true → Notification.name n ∉ arrived (ledger h) →
  ∃ rc w' m, admit_ opts r n w = (inr rc, w') ∧ queue_ok w' ∧ same_address n m ∧
    let admission := NotificationState.admit_ (fold_state h) m (receipt_seq rc) in
    rc = mkAdmissionReceipt (Notification.name n) (NotificationState.decision admission) (receipt_seq rc) false ∧
    fold_state (history r w') = NotificationState.admission_state admission ∧
    arrived (ledger (history r w')) = arrived (ledger h) ++ [Notification.name n].
Proof.
  intros Hw Hop Hacc Hnew. destruct (admit_first n w Hw Hop Hacc Hnew) as (rc & w' & Ha & Hdup).
  pose proof (perform_grows (OAdmit n) w Hop Hw) as [Hw' _]. cbn [perform] in Hw'. rewrite Ha in Hw'.
  destruct Hop as [Hn Hp].
  destruct (admit_effect opts plain F runs r n w (inr rc) w') as (_ & new & Hg & Hid & Hres); try done; [apply Hw..|].
  apply grown_here in Hg. rewrite Hdup in Hres. destruct Hres as (e & m & -> & Hseq & He & Hsame & Hwr & _).
  exists rc, w', m. split_and!; [done|done|done|]. cbv zeta. fold h in Hg, Hwr.
  assert (receipt_decision rc = NotificationState.decision (NotificationState.admit_ (fold_state h) m (en_seq e))) as Hdec.
  { inversion Hwr as [|es x _ _ Hst E]; [by destruct h|]. apply app_inj_tail in E as [-> ->].
    destruct Hst as [Hx _|n' d Hx _ _ Hd|input Hx _ _ _]; rewrite Hx in He; [done| |done].
    injection He as -> ->. done. }
  rewrite Hseq in Hdec. split; [|split].
  - destruct rc; cbn in *. by subst.
  - rewrite Hg, fold_state_snoc. unfold reduce. rewrite He, Hseq, Hdec. apply apply_decided.
  - rewrite Hg, ledger_snoc. unfold post. rewrite He. cbn. by rewrite (proj1 Hsame).
Qed.

(** The drain event of another lineage holds the producer key of the boundary. *)
Lemma taken_boundary input ids w e t ids' :
  readable runs w → op_ok (ODrain input) → accepting w = true → written (history r w) →
  (∀ id, id ∈ ids → plain id) → e ∈ history r w →
  fromEntry e = Some (PromotedEvent (boundary input) t ids') → t ≠ targetLineageId input →
  ∃ w', emitDurable opts (drain_input input ids) None w = (inl (jerror "idempotency_conflict"), w').
Proof.
  intros Hs (Hrun & Hb & Ht) Hacc Hw Hids He Hp Hne'. set (inp := drain_input input ids).
  destruct (accepting_spec w inp) as [Hadm Hall]; [done..|].
  destruct (promotion_split _ _ _ _ _ Hw He Hp) as [Hse _]. destruct (source_drain _ _ _ Hw He Hse) as (Hz & _).
  pose proof He as Hrow. rewrite history_ordered in Hrow by apply Hs.
  apply list_elem_of_omap in Hrow as (row & [Hrow Hof]%elem_of_filter_b & Hdec).
  apply bool_decide_eq_true in Hof.
  destruct (reused_key_conflicts opts inp None w row) as (w1 & Hem & _); try done;
    [apply Hs|apply Hs| | |by exists w1].
  - unfold source_key. cbn. rewrite Hof, Hrun.
    unfold decode_entry in Hdec. repeat case_match; try done. injection Hdec as <-. cbn in Hse, Hz. by rewrite Hse, Hz.
  - intros Heq. injection Heq as Hty Hpay _.
    assert (entry_of opts inp e) as Hentry.
    { unfold decode_entry in Hdec. rewrite Hpay in Hdec.
      cbn [next_row row_of j_payloadJson] in Hdec. rewrite parse_stringify in Hdec.
      repeat case_match; try done. injection Hdec as <-. split; cbn; congruence. }
    pose proof (drained_entry opts plain F _ _ _ Hb Ht Hids Hentry) as Hx. rewrite Hp in Hx. by injection Hx.
Qed.

(** A boundary serves one lineage.  The check for an earlier drain compares boundary
    and lineage, but the producer key of the drain event is made of the boundary alone:
    once a lineage has drained at a boundary of the run, the drain of any other lineage
    at a boundary of the same name fails with [idempotency_conflict], and delivers
    nothing. *)
Theorem other_lineage_conflicts input w e t ids :
  queue_ok w → op_ok (ODrain input) → accepting w = true → e ∈ history r w →
  fromEntry e = Some (PromotedEvent (boundary input) t ids) → t ≠ targetLineageId input →
  ∃ w', drain opts input w = (inl (jerror "idempotency_conflict"), w') ∧ w_db w' = w_db w.
Proof.
  intros [Hs Hw Hpl] (Hrun & Hb & Ht) Hacc He Hp Hne'. pose proof (open_readable _ _ Hs) as Ho.
  assert (body_world w = open_transaction w) as Hbw by (unfold body_world; by rewrite (sd_open _ _ Hs)).
  destruct (promotion_split _ _ _ _ _ Hw He Hp) as [Hse _].
  assert (∃ w1, drain_body opts input (open_transaction w) = (inl (jerror "idempotency_conflict"), w1)) as [w1 Hbody].
  { unfold drain_body. rewrite (bind_run _ _ _ _ _ (load_run runs (runId input) _ Ho ltac:(by rewrite Hrun) ltac:(by rewrite Hrun))).
    cbn [entries state known]. rewrite Hrun. change (history r (open_transaction w)) with (history r w).
    rewrite nothing_drained.
    2: { intros x ids' Hx Hd. destruct (promotion_split _ _ _ _ _ Hw Hx Hd) as [Hsx _].
         pose proof (one_drain _ _ _ _ Hw Hx He Hsx Hse) as ->. rewrite Hp in Hd. by injection Hd as ->. }
    fold (cutoff_of (history r w)). rewrite (written_deliveries _ input Hw).
    set (ds := notification <$> due _ input).
    pose proof (due_plain plain _ input Hw Hpl : ∀ id, id ∈ Notification.name <$> ds → plain id) as Hplain.
    destruct (taken_boundary input (Notification.name <$> ds) (open_transaction w) e t ids) as (w1 & Hem); try done.
    exists w1. by step_by Hem. }
  destruct (transact_fails opts (drain_body opts input) w (jerror "idempotency_conflict") w1) as (w' & Hd & Hdb);
    [by rewrite Hbw|]. by exists w'.
Qed.
End queue.

(** ** Compacted runs *)

Section compacted.
Context {J : JsonText} {C : Consensus} {L : ConsensusLaws C} {D : NotificationCodec}.
Context (opts : ValidatedOptions).

Lemma load_refused r w :
  journal_ok w → journal_ordered w → nonempty r = true → above_floor w r (-1) = false →
  load r w = (inl (jerror_at "compacted" (default 0%Z (floor_of w r))), w).
Proof.
  intros Hj Ho Hr Hfl. pose proof (readPage_answered r None 512 w Hj Ho Hr eq_refl ltac:(lia)) as Hp. cbv zeta in Hp.
  cbn [from_option id] in Hp. rewrite Hfl in Hp. unfold load. step.
  assert (load_pages (S (length (db_events (w_db w)))) r None [] w =
          (inl (jerror_at "compacted" (default 0%Z (floor_of w r))), w)) as Hl by (cbn [load_pages]; by step_by (Hp eq_refl ltac:(lia))).
  by step_by Hl.
Qed.

(** The queue does not outlive the beginning of its journal.  The queue reads a run's
    history from the start, so once the run has been compacted every admission and every
    drain for it fails with [compacted], and changes nothing. *)
Theorem compacted_run_refuses r n input w :
  journal_ok w → journal_ordered w → nonempty r = true → runId input = r → above_floor w r (-1) = false →
  let refusal := jerror_at "compacted" (default 0%Z (floor_of w r)) in
  (∃ w', admit_ opts r n w = (inl refusal, w') ∧ w_db w' = w_db w) ∧
  (∃ w', drain opts input w = (inl refusal, w') ∧ w_db w' = w_db w).
Proof.
  intros Hj Ho Hr Hrun Hfl refusal. pose proof (body_world_same w) as [Hdb _ _].
  assert (load r (body_world w) = (inl refusal, body_world w)) as Hl.
  { unfold refusal. replace (floor_of w r) with (floor_of (body_world w) r) by (unfold floor_of; by rewrite Hdb).
    apply load_refused; unfold journal_ok, journal_ordered, above_floor, floor_of in *; by rewrite ?Hdb. }
  split;
    [edestruct (transact_fails opts (admit_body opts r n) w refusal) as (w' & H & Hw');
       [unfold admit_body; by step_by Hl|]
    |edestruct (transact_fails opts (drain_body opts input) w refusal) as (w' & H & Hw');
       [unfold drain_body; rewrite Hrun; by step_by Hl|]]; by exists w'.
Qed.
End compacted.
