(* ===== verification/NotificationDemo.v ===== *)
(** * The notification queue at work

    A concrete codec for the queue's payloads, and a run in which a steer, two
    coalescing events and a follow-up are admitted and drained: the instances of the
    queue's properties, and what the queue does when its assumptions fail. *)

From S2P Require Import Prelude Json World Consensus ConsensusProps Journal JournalAppend RunLaws FoldProps SqlConsensus JournalRead JournalSound Upkeep Compaction UpkeepTheorems Notifications NotificationProps NotificationSteps NotificationTheorems.
Import Notification (Notification, HumanSteer, HumanFollowup, SystemEvent).
Import NotificationEvent (NotificationCodec, AdmittedEvent, PromotedEvent, fromEntry).
Import NotificationQueue.
Import NotificationState (AdmissionDecision, Admitted_, Coalesced, RejectedFull, notification).

(** ** A codec *)

Module QueueCodec.

Definition to_provenance (v : json) : option Notification.Provenance :=
  match v with
  | JObj [("sourceRunId", JStr run); ("sourceLineageId", JStr lineage); ("sourceTurn", JNum turn); ("sourceActor", JStr actor)] =>
      Some (Notification.mkProvenance run lineage turn actor)
  | _ => None
  end.

Definition to_common (fields : list (string * json)) : option (string * Notification.Common * list (string * json)) :=
  match fields with
  | ("_tag", JStr tag) :: ("id", JStr id) :: ("targetLineageId", JStr lineage) :: ("provenance", p) ::
      ("payload", payload) :: ("delivery", JStr _) :: rest =>
      (λ p, (tag, Notification.mkCommon id lineage p payload, rest)) <$> to_provenance p
  | _ => None
  end.

Definition to_notification (v : json) : option Notification :=
  match v with
  | JObj fields =>
      c ← to_common fields;
      match c with
      | ("human-steer", c, []) => Some (HumanSteer c)
      | ("human-followup", c, []) => Some (HumanFollowup c)
      | ("system-event", c, []) => Some (SystemEvent c None)
      | ("system-event", c, [("coalescingKey", JStr key)]) => Some (SystemEvent c (Some key))
      | _ => None
      end
  | _ => None
  end.

Definition to_decision (s : string) : option AdmissionDecision :=
  match s with "admitted" => Some Admitted_ | "coalesced" => Some Coalesced | "rejected-full" => Some RejectedFull | _ => None end.

Definition to_admitted (v : json) : option (Notification * AdmissionDecision) :=
  match v with
  | JObj [("notification", n); ("decision", JStr d)] => n ← to_notification n; d ← to_decision d; Some (n, d)
  | _ => None
  end.

Definition to_id (v : json) : option string := match v with JStr s => Some s | _ => None end.

Definition to_promoted (v : json) : option (string * string * list string) :=
  match v with
  | JObj [("boundary", JStr b); ("targetLineageId", JStr t); ("ids", JArr ids)] => (λ ids, (b, t, ids)) <$> mapM to_id ids
  | _ => None
  end.

Lemma notification_trip n : to_notification (Notification.to_json n) = Some n.
Proof. by destruct n as [[? ? [] ?]|[? ? [] ?]|[? ? [] ?] [key|]]. Qed.

Lemma admitted_trip n d : to_admitted (NotificationEvent.admitted_payload n d) = Some (n, d).
Proof.
  unfold to_admitted, NotificationEvent.admitted_payload. rewrite notification_trip. by destruct d.
Qed.

Lemma promoted_trip b t ids : to_promoted (NotificationEvent.promoted_payload b t ids) = Some (b, t, ids).
Proof.
  unfold to_promoted, NotificationEvent.promoted_payload.
  assert (mapM to_id (JStr <$> ids) = Some ids) as ->; [|done].
  induction ids as [|id ids IH]; [done|].
  change (mapM to_id (JStr <$> (id :: ids))) with (mapM to_id (JStr <$> ids) ≫= λ k, Some (id :: k)). by rewrite IH.
Qed.

Definition codec : NotificationCodec :=
  {| NotificationEvent.decodeAdmitted := to_admitted;
     NotificationEvent.decodePromoted := to_promoted;
     NotificationEvent.decode_admitted n d _ := admitted_trip n d;
     NotificationEvent.decode_promoted := promoted_trip |}.

End QueueCodec.

(** Redaction by textual rules is faithful on the strings the rules leave alone, when
    these include the tags and the decisions of the payloads. *)
Section redaction.
Context (rules : list Rule) (batch cache : Z).
#[local] Existing Instance QueueCodec.codec.

Definition left_alone (s : string) : Prop := redactString s rules = s.

Definition payload_texts : list string :=
  ["human-steer"; "human-followup"; "system-event"; "steer"; "queue"; "admitted"; "coalesced"; "rejected-full"].

Lemma redact_fields fs : forallb (λ kv, negb (isSensitiveKey kv.1)) fs = true →
  redact rules (JObj fs) = JObj (List.map (λ kv, (kv.1, redact rules kv.2)) fs).
Proof.
  intros H. cbn [redact]. f_equal. induction fs as [|[k v] fs IH]; [done|]. cbn [forallb fst] in H.
  apply andb_true_iff in H as [Hk%negb_true_iff H]. cbn [List.map fst snd]. by rewrite Hk, IH.
Qed.

(** A common part after redaction: its provenance and its content may be rewritten. *)
Definition scrubbed_common (c : Notification.Common) : Notification.Common :=
  let p := Notification.provenance c in
  Notification.mkCommon (Notification.id c) (Notification.targetLineageId c)
    (Notification.mkProvenance (redactString (Notification.sourceRunId p) rules)
       (redactString (Notification.sourceLineageId p) rules) (Notification.sourceTurn p)
       (redactString (Notification.sourceActor p) rules))
    (redact rules (Notification.payload c)).

Definition scrubbed_notification (n : Notification) : Notification :=
  match n with
  | HumanSteer c => HumanSteer (scrubbed_common c)
  | HumanFollowup c => HumanFollowup (scrubbed_common c)
  | SystemEvent c key => SystemEvent (scrubbed_common c) key
  end.

Lemma redact_common tag c delivery :
  left_alone (Notification.id c) → left_alone (Notification.targetLineageId c) → left_alone tag → left_alone delivery →
  List.map (λ kv, (kv.1, redact rules kv.2)) (Notification.fields tag c delivery)
  = Notification.fields tag (scrubbed_common c) delivery.
Proof.
  intros Hid Ht Htag Hd. unfold left_alone, Notification.fields in *. cbn [List.map fst snd].
  rewrite redact_fields by (vm_compute; reflexivity). cbn [List.map fst snd redact].
  by rewrite Hid, Ht, Htag, Hd.
Qed.

Lemma redact_notification n :
  Forall left_alone payload_texts → addressed left_alone n →
  redact rules (Notification.to_json n) = Notification.to_json (scrubbed_notification n).
Proof.
  unfold payload_texts. rewrite !Forall_cons. intros (H1 & H2 & H3 & H4 & H5 & _) (Hid & Htarget & Hkey).
  destruct n as [c|c|c [key|]]; cbn [Notification.to_json scrubbed_notification];
    rewrite redact_fields by (vm_compute; reflexivity).
  1,2,4: by rewrite redact_common.
  rewrite List.map_app, redact_common by done. cbn [List.map fst snd redact]. by rewrite (Hkey key eq_refl).
Qed.

Lemma redacted_ids ids : (∀ id, id ∈ ids → left_alone id) →
  List.map (redact rules) (JStr <$> ids) = JStr <$> ids.
Proof.
  intros H. induction ids as [|id ids IH]; [done|]. cbn. rewrite (H id) by left. f_equal.
  apply IH. intros x Hx. apply H. by right.
Qed.

Lemma redact_faithful :
  Forall left_alone payload_texts → faithful (MkValidatedOptions batch cache (redact rules)) left_alone.
Proof.
  intros H. split.
  - intros n d _ Ha. exists (scrubbed_notification n). split; [|by destruct n].
    cbn [v_redact]. unfold NotificationEvent.admitted_payload.
    rewrite redact_fields by (vm_compute; reflexivity). cbn [List.map fst snd].
    rewrite (redact_notification n H Ha). cbn [redact].
    assert (redactString (NotificationEvent.decision_text d) rules = NotificationEvent.decision_text d) as ->.
    { unfold payload_texts in H. rewrite !Forall_cons in H. destruct d; apply H. }
    apply QueueCodec.admitted_trip.
  - intros b t ids Hb Ht Hids. cbn [v_redact]. unfold NotificationEvent.promoted_payload.
    rewrite redact_fields by (vm_compute; reflexivity). cbn [List.map fst snd redact].
    unfold left_alone in Hb, Ht. rewrite Hb, Ht, redacted_ids by done. apply QueueCodec.promoted_trip.
Qed.
End redaction.

(** ** A run *)

Module QueueDemo.
#[local] Existing Instance plain_json.
#[local] Existing Instance local_consensus.
#[local] Existing Instance QueueCodec.codec.

Definition opts : ValidatedOptions := MkValidatedOptions 64 4096 id.
Definition plain (s : string) : Prop := True.
Definition w0 : World := initial_world 10.

Definition from (id lineage text : string) : Notification.Common :=
  Notification.mkCommon id lineage (Notification.mkProvenance "run-1" "main" 0 "user") (JStr text).

Definition steer := HumanSteer (from "s" "main" "stop").
Definition event1 := SystemEvent (from "e1" "main" "50%") (Some "progress").
Definition event2 := SystemEvent (from "e2" "main" "90%") (Some "progress").
Definition followup := HumanFollowup (from "f" "main" "then test").
Definition foreign : Input := MkInput "run-1" "agent" None "app.step" JNull None.
Definition at_boundary (b lineage : string) : DrainInput := mkDrainInput "run-1" lineage b true.

Definition setup : list QueueOp :=
  [ OAdmit event1; OAdmit steer; OEmit foreign; OAdmit followup; OAdmit event2 ].
Definition waiting : World := performs opts "run-1" setup w0.

Lemma all_plain n : addressed plain n.
Proof. by split_and!. Qed.

Lemma is_faithful : faithful opts plain.
Proof.
  split.
  - intros n d _ _. exists n. split; [apply QueueCodec.admitted_trip|by split_and!].
  - intros b t ids _ _ _. apply QueueCodec.promoted_trip.
Qed.

Lemma w0_ok : queue_ok plain ["run-1"] "run-1" w0.
Proof.
  split.
  - split; [done|by apply Demo.empty_ok|intros r; constructor|done|].
    intros r ->%list_elem_of_singleton. done.
  - apply written_nil.
  - done.
Qed.

Lemma foreign_ok : op_ok plain "run-1" (OEmit foreign).
Proof. split_and!; [|done..]. intros [[id H]|[b H]]; done. Qed.

Lemma setup_ok : Forall (op_ok plain "run-1") setup.
Proof. unfold setup. rewrite !Forall_cons. split_and!; [done|done|apply foreign_ok|done|done|by apply Forall_nil]. Qed.

Lemma waiting_ok : queue_ok plain ["run-1"] "run-1" waiting.
Proof.
  apply (performs_grows opts plain is_faithful ["run-1"] "run-1"); [by left|done|apply setup_ok|apply w0_ok].
Qed.

Lemma fresh_boundary b w :
  forallb (λ x, negb (bool_decide (en_sourceId x = drainSource b))) (history "run-1" w) = true →
  undrained "run-1" w b.
Proof.
  intros H x Hx%list_elem_of_In. rewrite forallb_forall in H. by apply H, negb_true_iff, bool_decide_eq_false in Hx.
Qed.

(** The first drain delivers the steer; the queued events wait. *)
Definition first : World := perform opts "run-1" (ODrain (at_boundary "turn-1" "main")) waiting.
Lemma first_drain : drain opts (at_boundary "turn-1" "main") waiting = (inr (mkDrainReceipt [steer] "turn-1" false), first).
Proof. vm_compute. reflexivity. Qed.
Definition second : World := perform opts "run-1" (ODrain (at_boundary "turn-2" "main")) first.
Lemma second_drain : drain opts (at_boundary "turn-2" "main") first = (inr (mkDrainReceipt [event2] "turn-2" false), second).
Proof. vm_compute. reflexivity. Qed.

Lemma first_ok : queue_ok plain ["run-1"] "run-1" first.
Proof.
  exact (proj1 (perform_grows opts plain is_faithful ["run-1"] "run-1" (list_elem_of_here _ _) eq_refl
    (ODrain (at_boundary "turn-1" "main")) waiting (conj eq_refl (conj I I)) waiting_ok)).
Qed.

(** The run after its first event, and its first steer. *)
Definition one_event : World := perform opts "run-1" (OAdmit event1) w0.
Definition one_steer : World := perform opts "run-1" (OAdmit steer) w0.

Lemma one_event_ok : queue_ok plain ["run-1"] "run-1" one_event.
Proof.
  exact (proj1 (perform_grows opts plain is_faithful ["run-1"] "run-1" (list_elem_of_here _ _) eq_refl
    (OAdmit event1) w0 (conj eq_refl (all_plain _)) w0_ok)).
Qed.

Definition later : list QueueOp := [ODrain (at_boundary "turn-1" "main"); ODrain (at_boundary "turn-2" "main")].
Lemma later_ok : Forall (op_ok plain "run-1") later.
Proof. unfold later. rewrite !Forall_cons. split_and!; [done|done|by apply Forall_nil]. Qed.
End QueueDemo.

(** ** The properties on this run *)

#[local] Existing Instance plain_json.
#[local] Existing Instance local_consensus.
#[local] Existing Instance QueueCodec.codec.

Lemma notifications_accounted_witness :
  let h := history "run-1" (performs QueueDemo.opts "run-1" QueueDemo.later QueueDemo.waiting) in
  let l := ledger h in
  delivered l = ["s"; "e2"] ∧ superseded l = ["e1"] ∧ ids_of (fold_state h) = ["f"] ∧
  delivered l ++ superseded l ++ rejected l ++ ids_of (fold_state h) ≡ₚ arrived l.
Proof.
  intros h l. split_and!; [vm_compute; reflexivity..|].
  exact (proj1 (proj2 (notifications_accounted QueueDemo.opts QueueDemo.plain
    QueueDemo.is_faithful ["run-1"] "run-1" (list_elem_of_here _ _) eq_refl QueueDemo.later QueueDemo.waiting
    QueueDemo.waiting_ok QueueDemo.later_ok))).
Defined.

Lemma drain_delivers_witness :
  ∃ rc w', drain QueueDemo.opts (QueueDemo.at_boundary "turn-1" "main")
             QueueDemo.waiting = (inr rc, w') ∧ notifications rc = [QueueDemo.steer].
Proof.
  destruct (drain_delivers QueueDemo.opts QueueDemo.plain
    QueueDemo.is_faithful ["run-1"] "run-1" ltac:(by left) eq_refl (QueueDemo.at_boundary "turn-1" "main")
    QueueDemo.waiting QueueDemo.waiting_ok) as (rc & w' & Hd & _ & -> & _).
  - by split_and!.
  - vm_compute. reflexivity.
  - apply QueueDemo.fresh_boundary. vm_compute. reflexivity.
  - eexists _, w'. split; [exact Hd|]. vm_compute. reflexivity.
Defined.

(** The boundary of the first turn is drained again after the second. *)
Lemma drain_again_witness :
  ∃ w2, drain QueueDemo.opts (QueueDemo.at_boundary "turn-1" "main")
          (performs QueueDemo.opts "run-1"
             [ODrain (QueueDemo.at_boundary "turn-2" "main")] QueueDemo.first)
        = (inr (mkDrainReceipt [QueueDemo.steer] "turn-1" true), w2).
Proof.
  destruct (drain_again QueueDemo.opts QueueDemo.plain
    QueueDemo.is_faithful ["run-1"] "run-1" ltac:(by left) eq_refl (QueueDemo.at_boundary "turn-1" "main")
    (QueueDemo.at_boundary "turn-1" "main") QueueDemo.waiting _ QueueDemo.first
    [ODrain (QueueDemo.at_boundary "turn-2" "main")] QueueDemo.waiting_ok ltac:(by split_and!) QueueDemo.first_drain
    eq_refl) as (w2 & Hd & _).
  - rewrite Forall_singleton. by split_and!.
  - by split_and!.
  - reflexivity.
  - reflexivity.
  - exists w2. exact Hd.
Defined.

Lemma admit_again_witness :
  ∃ w2, admit_ QueueDemo.opts "run-1" QueueDemo.steer
          (performs QueueDemo.opts "run-1" QueueDemo.later QueueDemo.one_steer)
        = (inr (mkAdmissionReceipt "s" Admitted_ 0 true), w2).
Proof.
  destruct (admit_again QueueDemo.opts QueueDemo.plain
    QueueDemo.is_faithful ["run-1"] "run-1" (list_elem_of_here _ _) eq_refl QueueDemo.steer QueueDemo.w0
    (mkAdmissionReceipt "s" Admitted_ 0 false) QueueDemo.one_steer QueueDemo.later QueueDemo.w0_ok (conj eq_refl (QueueDemo.all_plain _))
    (λ d, eq_refl)) as (w2 & Hd & _).
  - vm_compute. reflexivity.
  - reflexivity.
  - apply QueueDemo.later_ok.
  - exists w2. exact Hd.
Defined.

(** An event that coalesces with the one before it. *)
Lemma admission_recorded_witness :
  ∃ rc w', admit_ QueueDemo.opts "run-1" QueueDemo.event2 QueueDemo.one_event = (inr rc, w') ∧
    arrived (ledger (history "run-1" w')) = ["e1"; "e2"].
Proof.
  assert (arrived (ledger (history "run-1" QueueDemo.one_event)) = ["e1"]) as Harr by (vm_compute; reflexivity).
  destruct (admission_recorded QueueDemo.opts QueueDemo.plain
    QueueDemo.is_faithful ["run-1"] "run-1" (list_elem_of_here _ _) eq_refl QueueDemo.event2 QueueDemo.one_event
    QueueDemo.one_event_ok (conj eq_refl (QueueDemo.all_plain _))) as (rc & w' & m & Ha & _ & _ & _ & _ & Hnew).
  - vm_compute. reflexivity.
  - rewrite Harr. by intros Hx%list_elem_of_singleton.
  - exists rc, w'. split; [exact Ha|]. by rewrite Hnew, Harr.
Defined.

(** Another lineage at the boundary of the first turn. *)
Lemma other_lineage_conflicts_witness :
  ∃ w', drain QueueDemo.opts (QueueDemo.at_boundary "turn-1" "child") QueueDemo.first
        = (inl (jerror "idempotency_conflict"), w').
Proof.
  assert (∃ e, last (history "run-1" QueueDemo.first) = Some e ∧
    fromEntry e = Some (PromotedEvent "turn-1" "main" ["s"])) as (e & Hl & He)
    by (eexists; split; vm_compute; reflexivity).
  destruct (other_lineage_conflicts QueueDemo.opts QueueDemo.plain
    QueueDemo.is_faithful ["run-1"] "run-1" (list_elem_of_here _ _) eq_refl (QueueDemo.at_boundary "turn-1" "child")
    QueueDemo.first e "main" ["s"] QueueDemo.first_ok (conj eq_refl (conj I I))) as (w' & Hd & _).
  - vm_compute. reflexivity.
  - by apply last_Some_elem_of.
  - exact He.
  - done.
  - exists w'. exact Hd.
Defined.

(** The run of [ReadDemo], after it was compacted. *)
Lemma compacted_run_refuses_witness :
  ∃ w', drain (C:=sql_consensus) QueueDemo.opts
          (mkDrainInput "r" "main" "turn-1" true) ReadDemo.compacted = (inl (jerror_at "compacted" 7), w').
Proof.
  destruct (compacted_run_refuses (C:=sql_consensus) QueueDemo.opts "r"
    QueueDemo.steer (mkDrainInput "r" "main" "turn-1" true) ReadDemo.compacted) as [_ (w' & Hd & _)].
  - apply ReadDemo.compacted_maintained.
  - apply ReadDemo.compacted_maintained.
  - reflexivity.
  - reflexivity.
  - vm_compute. reflexivity.
  - exists w'. exact Hd.
Defined.

(** ** When redaction rewrites content *)

(** A notification whose payload the journal redacts is stored redacted: admitting it
    again is a conflict with itself. *)
Lemma redacted_admission_conflicts :
  let secret := HumanSteer (Notification.mkCommon "k" "main" (Notification.mkProvenance "run-1" "main" 0 "user")
                              (JObj [("password", JStr "hunter2")])) in
  let opts := MkValidatedOptions 64 4096 (Redaction.redact []) in
  let admit_once w := admit_ opts "run-1" secret w in
  let w1 := snd (admit_once QueueDemo.w0) in
  fst (admit_once QueueDemo.w0) = inr (mkAdmissionReceipt "k" Admitted_ 0 false) ∧
  fst (admit_once w1) = inl (jerror "idempotency_conflict").
Proof. vm_compute. done. Qed.

(** Coalescing keys are shared by the lineages of a run: the event of one lineage takes
    the place of the pending event of another, which is then never delivered. *)
Lemma coalescing_crosses_lineages :
  let child := SystemEvent (QueueDemo.from "c" "child" "10%") (Some "progress") in
  let ops := [OAdmit QueueDemo.event1; OAdmit child] in
  let h := history "run-1" (performs QueueDemo.opts "run-1" ops QueueDemo.w0) in
  superseded (ledger h) = ["e1"] ∧
  due (fold_state h) (QueueDemo.at_boundary "turn-1" "main") = [].
Proof. vm_compute. done. Qed.

(** ** What a redaction rule does to an id *)

(** The rule replaces two keys as the api-key rule of the default redactor does. *)
Definition api_key_id : Rule :=
  λ text, if bool_decide (text ∈ ["sk-aaaaaaaaaa"; "sk-bbbbbbbbbb"]) then "[REDACTED_API_KEY]" else text.

(** Two follow-ups whose ids are keys are recorded under one redacted id.  The first
    drain delivers one of them and takes both out of the queue: the second is never
    delivered. *)
Lemma redacted_ids_lose_notification :
  let opts := MkValidatedOptions 64 4096 (redact [api_key_id]) in
  let w := performs opts "run-1" [ OAdmit (HumanFollowup (QueueDemo.from "sk-aaaaaaaaaa" "main" "one"));
                                   OAdmit (HumanFollowup (QueueDemo.from "sk-bbbbbbbbbb" "main" "two")) ] QueueDemo.w0 in
  let first := drain opts (QueueDemo.at_boundary "turn-1" "main") w in
  let second := drain opts (QueueDemo.at_boundary "turn-2" "main") first.2 in
  length (ids_of (fold_state (history "run-1" w))) = 2
  ∧ first.1 = inr (mkDrainReceipt [HumanFollowup (QueueDemo.from "[REDACTED_API_KEY]" "main" "one")] "turn-1" false)
  ∧ ids_of (fold_state (history "run-1" first.2)) = []
  ∧ second.1 = inr (mkDrainReceipt [] "turn-2" false).
Proof. vm_compute. done. Qed.

(** The queue's assumption holds of that redactor, for every other text. *)
Lemma api_key_faithful :
  faithful (MkValidatedOptions 64 4096 (redact [api_key_id])) (left_alone [api_key_id]).
Proof. apply redact_faithful. unfold payload_texts. rewrite !Forall_cons. by split_and!. Qed.
