(* ===== verification/Sha256.v ===== *)
(** * 32-bit integers of the language, and SHA-256 ([plan/src/internal/sha256.ts])

    JavaScript numbers hold the program's integers exactly; the bitwise operators
    convert their operands to 32-bit integers, signed except for [>>>].  [u32] is the
    unsigned reading, under which the operators are those of 32-bit words. *)

From S2P Require Import Prelude.

#[local] Open Scope Z_scope.

Definition two32 : Z := 4294967296.

(** [ToUint32] and [ToInt32]. *)
Definition u32 (z : Z) : Z := z mod two32.
Definition int32 (z : Z) : Z := if bool_decide (u32 z < 2147483648) then u32 z else u32 z - two32.

Definition js_and (a b : Z) : Z := Z.land (int32 a) (int32 b).
Definition js_or (a b : Z) : Z := Z.lor (int32 a) (int32 b).
Definition js_xor (a b : Z) : Z := Z.lxor (int32 a) (int32 b).
Definition js_not (a : Z) : Z := Z.lnot (int32 a).
Definition js_shl (a n : Z) : Z := int32 (Z.shiftl (int32 a) (n mod 32)).
Definition js_shr (a n : Z) : Z := Z.shiftr (u32 a) (n mod 32).

(** ** The unsigned reading *)

Lemma u32_range z : 0 ≤ u32 z < two32.
Proof. apply Z.mod_pos_bound. done. Qed.

Lemma u32_id z : 0 ≤ z < two32 → u32 z = z.
Proof. apply Z.mod_small. Qed.

Lemma u32_u32 z : u32 (u32 z) = u32 z.
Proof. apply u32_id, u32_range. Qed.

Lemma u32_int32 z : u32 (int32 z) = u32 z.
Proof.
  unfold int32. case_bool_decide; [apply u32_u32|]. unfold u32 at 1.
  replace (u32 z - two32) with (u32 z + (-1) * two32) by lia. rewrite Z.mod_add by done. apply u32_u32.
Qed.

Lemma u32_add_l a b : u32 (u32 a + b) = u32 (a + b).
Proof. unfold u32. by rewrite Zplus_mod_idemp_l. Qed.
Lemma u32_add_r a b : u32 (a + u32 b) = u32 (a + b).
Proof. unfold u32. by rewrite Zplus_mod_idemp_r. Qed.

Lemma u32_bits z i : 0 ≤ i → Z.testbit (u32 z) i = bool_decide (i < 32) && Z.testbit z i.
Proof.
  intros Hi. unfold u32. change two32 with (2 ^ 32). case_bool_decide; cbn [andb].
  - by rewrite Z.mod_pow2_bits_low by lia.
  - by rewrite Z.mod_pow2_bits_high by lia.
Qed.

Lemma int32_bits z i : 0 ≤ i < 32 → Z.testbit (int32 z) i = Z.testbit z i.
Proof.
  intros Hi. pose proof (u32_bits (int32 z) i ltac:(lia)) as H1. pose proof (u32_bits z i ltac:(lia)) as H2.
  rewrite u32_int32 in H1. rewrite bool_decide_eq_true_2 in H1, H2 by lia. cbn [andb] in *. congruence.
Qed.

(** Words with the same low bits have the same reading. *)
Lemma u32_ext a b : (∀ i, 0 ≤ i < 32 → Z.testbit a i = Z.testbit b i) → u32 a = u32 b.
Proof.
  intros H. apply Z.bits_inj'. intros i Hi. rewrite !u32_bits by done.
  destruct (bool_decide_reflect (i < 32)) as [Hl|]; [|done]. cbn [andb]. apply H. lia.
Qed.

Lemma u32_xor a b : u32 (js_xor a b) = Z.lxor (u32 a) (u32 b).
Proof.
  apply Z.bits_inj'. intros i Hi. unfold js_xor. rewrite Z.lxor_spec, !u32_bits, Z.lxor_spec by done.
  destruct (bool_decide_reflect (i < 32)) as [Hl|]; [|done]. cbn [andb]. by rewrite !int32_bits by lia.
Qed.

Lemma u32_and a b : u32 (js_and a b) = Z.land (u32 a) (u32 b).
Proof.
  apply Z.bits_inj'. intros i Hi. unfold js_and. rewrite Z.land_spec, !u32_bits, Z.land_spec by done.
  destruct (bool_decide_reflect (i < 32)) as [Hl|]; [|done]. cbn [andb]. by rewrite !int32_bits by lia.
Qed.

Lemma u32_or a b : u32 (js_or a b) = Z.lor (u32 a) (u32 b).
Proof.
  apply Z.bits_inj'. intros i Hi. unfold js_or. rewrite Z.lor_spec, !u32_bits, Z.lor_spec by done.
  destruct (bool_decide_reflect (i < 32)) as [Hl|]; [|done]. cbn [andb]. by rewrite !int32_bits by lia.
Qed.

Lemma u32_not a : u32 (js_not a) = two32 - 1 - u32 a.
Proof.
  unfold js_not, Z.lnot. unfold u32. rewrite <-Z.sub_1_r.
  pose proof (u32_int32 a) as H. unfold u32 in H. pose proof (u32_range a) as Hr. unfold u32 in Hr.
  symmetry. apply Z.mod_unique with (q := - (int32 a / two32) - 1); [left; lia|].
  pose proof (Z.div_mod (int32 a) two32 ltac:(done)). lia.
Qed.

Lemma u32_shl a n : 0 ≤ n < 32 → u32 (js_shl a n) = u32 (Z.shiftl (u32 a) n).
Proof.
  intros Hn. unfold js_shl. rewrite u32_int32, Z.mod_small by done. apply u32_ext. intros i Hi.
  rewrite !Z.shiftl_spec by lia. destruct (decide (n ≤ i)) as [Hle|Hlt].
  - rewrite int32_bits, u32_bits, bool_decide_eq_true_2 by lia. done.
  - rewrite (Z.testbit_neg_r (int32 a)), (Z.testbit_neg_r (u32 a)) by lia. done.
Qed.

Lemma js_shr_small a n : 0 ≤ n < 32 → js_shr a n = Z.shiftr (u32 a) n.
Proof. intros Hn. unfold js_shr. by rewrite Z.mod_small. Qed.

Lemma js_shr_0 a : js_shr a 0 = u32 a.
Proof. done. Qed.

Lemma shiftr_range a n : 0 ≤ a < two32 → 0 ≤ n → 0 ≤ Z.shiftr a n < two32.
Proof.
  intros Ha Hn. split; [apply Z.shiftr_nonneg; lia|]. rewrite Z.shiftr_div_pow2 by done.
  pose proof (Z.pow_pos_nonneg 2 n ltac:(lia) Hn) as Hp.
  apply Z.le_lt_trans with a; [|lia]. apply Z.div_le_upper_bound; nia.
Qed.

(** ** SHA-256 of the plan compiler

    The program hashes with 32-bit arithmetic of the language on typed arrays; [Fips]
    is the standard's definition on 32-bit words.  The text is a string of UTF-8
    bytes. *)

(** ** Hexadecimal numerals *)

Definition hex_digit (n : Z) : ascii := ascii_of_N (Z.to_N (if bool_decide (n < 10) then 48 + n else 87 + n)).

Definition digit_value (c : ascii) : Z :=
  let n := Z.of_N (N_of_ascii c) in if bool_decide (n < 58) then n - 48 else n - 87.

(** The words of a table, separated by white space. *)
Fixpoint hex_words (word : option Z) (s : string) : list Z :=
  match s with
  | "" => match word with Some w => [w] | None => [] end
  | String c s =>
      if bool_decide (N_of_ascii c ≤ 32)%N
      then match word with Some w => w :: hex_words None s | None => hex_words None s end
      else hex_words (Some (default 0 word * 16 + digit_value c)) s
  end%string.

(** [Number.prototype.toString(16)] of a natural number, and [padStart(n, "0")]. *)
Fixpoint hex_loop (fuel : nat) (n : Z) (acc : string) : string :=
  match fuel with
  | O => acc
  | S fuel =>
      let acc := String (hex_digit (n mod 16)) acc in
      if bool_decide (n / 16 = 0) then acc else hex_loop fuel (n / 16) acc
  end.

Definition toString16 (n : Z) : string := hex_loop (S (Z.to_nat (Z.log2 n / 4))) n "".

Fixpoint zeros (n : nat) : string := match n with O => "" | S n => String "0" (zeros n) end.

Definition padStart (n : nat) (s : string) : string := zeros (n - String.length s) +:+ s.

(** ** Typed arrays *)

Definition read (l : list Z) (i : nat) : Z := default 0 (l !! i).

(** A write to a [Uint32Array]. *)
Definition store (i : nat) (v : Z) (l : list Z) : list Z := <[i := u32 v]> l.

(** [DataView.setUint32] and [getUint32], big-endian. *)
Definition be_bytes (v : Z) : list Z :=
  [Z.shiftr v 24 mod 256; Z.shiftr v 16 mod 256; Z.shiftr v 8 mod 256; v mod 256].

Definition setUint32 (offset : nat) (v : Z) (l : list Z) : list Z := list_inserts offset (be_bytes (u32 v)) l.

Definition getUint32 (offset : nat) (l : list Z) : Z :=
  read l offset * 16777216 + read l (offset + 1) * 65536 + read l (offset + 2) * 256 + read l (offset + 3).

(** ** The hash *)

Definition rounds : list Z := Eval vm_compute in hex_words None
    "428a2f98 71374491 b5c0fbcf e9b5dba5 3956c25b 59f111f1 923f82a4 ab1c5ed5
     d807aa98 12835b01 243185be 550c7dc3 72be5d74 80deb1fe 9bdc06a7 c19bf174
     e49b69c1 efbe4786 0fc19dc6 240ca1cc 2de92c6f 4a7484aa 5cb0a9dc 76f988da
     983e5152 a831c66d b00327c8 bf597fc7 c6e00bf3 d5a79147 06ca6351 14292967
     27b70a85 2e1b2138 4d2c6dfc 53380d13 650a7354 766a0abb 81c2c92e 92722c85
     a2bfe8a1 a81a664b c24b8b70 c76c51a3 d192e819 d6990624 f40e3585 106aa070
     19a4c116 1e376c08 2748774c 34b0bcb5 391c0cb3 4ed8aa4a 5b9cca4f 682e6ff3
     748f82ee 78a5636f 84c87814 8cc70208 90befffa a4506ceb bef9a3f7 c67178f2".

Definition initial : list Z := Eval vm_compute in hex_words None
    "6a09e667 bb67ae85 3c6ef372 a54ff53a 510e527f 9b05688c 1f83d9ab 5be0cd19".

Definition rotateRight (value bits : Z) : Z := js_or (js_shr value bits) (js_shl value (32 - bits)).

(** [TextEncoder.encode]: the text holds its UTF-8 bytes. *)
Definition utf8 (input : string) : list Z := (λ c, Z.of_N (N_of_ascii c)) <$> String.list_ascii_of_string input.

Definition block_count (message : list Z) : nat := Z.to_nat ((Z.of_nat (length message) + 8) / 64 + 1).

Definition padded (message : list Z) : list Z :=
  let size := (block_count message * 64)%nat in
  let len := Z.of_nat (length message) in
  let bytes := list_inserts 0 message (replicate size 0) in
  let bytes := <[length message := 128]> bytes in
  let bytes := setUint32 (size - 8) (len / 536870912) bytes in
  setUint32 (size - 4) (js_shr (js_shl len 3) 0) bytes.

(** The schedule is one array, rewritten for each block. *)
Definition load_word (view : list Z) (offset : nat) (schedule : list Z) (index : nat) : list Z :=
  store index (getUint32 (offset + index * 4) view) schedule.

Definition extend_word (schedule : list Z) (index : nat) : list Z :=
  let previous := read schedule (index - 15) in
  let recent := read schedule (index - 2) in
  let s0 := js_xor (js_xor (rotateRight previous 7) (rotateRight previous 18)) (js_shr previous 3) in
  let s1 := js_xor (js_xor (rotateRight recent 17) (rotateRight recent 19)) (js_shr recent 10) in
  store index (js_shr (read schedule (index - 16) + s0 + read schedule (index - 7) + s1) 0) schedule.

Definition fill_schedule (view : list Z) (offset : nat) (schedule : list Z) : list Z :=
  fold_left extend_word (List.seq 16 48) (fold_left (load_word view offset) (List.seq 0 16) schedule).

Record Vars := mkVars { va : Z; vb : Z; vc : Z; vd : Z; ve : Z; vf : Z; vg : Z; vh : Z }.

Definition round (schedule : list Z) (v : Vars) (index : nat) : Vars :=
  let sigma1 := js_xor (js_xor (rotateRight (ve v) 6) (rotateRight (ve v) 11)) (rotateRight (ve v) 25) in
  let choose := js_xor (js_and (ve v) (vf v)) (js_and (js_not (ve v)) (vg v)) in
  let temporary1 := js_shr (vh v + sigma1 + choose + read rounds index + read schedule index) 0 in
  let sigma0 := js_xor (js_xor (rotateRight (va v) 2) (rotateRight (va v) 13)) (rotateRight (va v) 22) in
  let majority := js_xor (js_xor (js_and (va v) (vb v)) (js_and (va v) (vc v))) (js_and (vb v) (vc v)) in
  let temporary2 := js_shr (sigma0 + majority) 0 in
  mkVars (js_shr (temporary1 + temporary2) 0) (va v) (vb v) (vc v) (js_shr (vd v + temporary1) 0) (ve v) (vf v) (vg v).

Definition start_vars (hash : list Z) : Vars :=
  mkVars (read hash 0) (read hash 1) (read hash 2) (read hash 3) (read hash 4) (read hash 5) (read hash 6) (read hash 7).

Definition add_vars (hash : list Z) (v : Vars) : list Z :=
  let bump i x hash := store i (js_shr (read hash i + x) 0) hash in
  bump 7%nat (vh v) (bump 6%nat (vg v) (bump 5%nat (vf v) (bump 4%nat (ve v) (bump 3%nat (vd v)
    (bump 2%nat (vc v) (bump 1%nat (vb v) (bump 0%nat (va v) hash))))))).

(** One block: the hash and the schedule array it leaves. *)
Definition block_step (view : list Z) (st : list Z * list Z) (block : nat) : list Z * list Z :=
  let schedule := fill_schedule view (block * 64) (snd st) in
  (add_vars (fst st) (fold_left (round schedule) (List.seq 0 64) (start_vars (fst st))), schedule).

Definition sha256_words (message : list Z) : list Z :=
  fst (fold_left (block_step (padded message)) (List.seq 0 (block_count message)) (initial, replicate 64 0)).

Definition sha256 (input : string) : string :=
  String.concat "" ((λ word, padStart 8 (toString16 word)) <$> sha256_words (utf8 input)).

Example sha256_abc : sha256 "abc" = "ba7816bf8f01cfea414140de5dae2223b00361a396177a9cb410ff61f20015ad".
Proof. vm_compute. reflexivity. Qed.

(** ** The standard (FIPS 180-4) *)

Module Fips.

(** Words of 32 bits. *)
Definition ROTR (n x : Z) : Z := Z.lor (Z.shiftr x n) (Z.shiftl x (32 - n) mod two32).
Definition SHR (n x : Z) : Z := Z.shiftr x n.
Definition add (x y : Z) : Z := (x + y) mod two32.
Definition complement (x : Z) : Z := two32 - 1 - x.

Definition Ch (x y z : Z) : Z := Z.lxor (Z.land x y) (Z.land (complement x) z).
Definition Maj (x y z : Z) : Z := Z.lxor (Z.lxor (Z.land x y) (Z.land x z)) (Z.land y z).
Definition Sigma0 (x : Z) : Z := Z.lxor (Z.lxor (ROTR 2 x) (ROTR 13 x)) (ROTR 22 x).
Definition Sigma1 (x : Z) : Z := Z.lxor (Z.lxor (ROTR 6 x) (ROTR 11 x)) (ROTR 25 x).
Definition sigma0 (x : Z) : Z := Z.lxor (Z.lxor (ROTR 7 x) (ROTR 18 x)) (SHR 3 x).
Definition sigma1 (x : Z) : Z := Z.lxor (Z.lxor (ROTR 17 x) (ROTR 19 x)) (SHR 10 x).

(** The constants: the first 32 bits of the fractional parts of the cube roots of the
    first 64 primes, and of the square roots of the first eight. *)
Definition prime (n : nat) : bool := (1 <? n)%nat && forallb (λ d, negb (n mod d =? 0)%nat) (List.seq 2 (n - 2)).
Definition primes (count bound : nat) : list Z := Z.of_nat <$> take count (List.filter prime (List.seq 2 bound)).

Definition cube_root (n : Z) : Z :=
  fold_left (λ r i, let r' := r + 2 ^ Z.of_nat i in if bool_decide (r' ^ 3 ≤ n) then r' else r) (rev (List.seq 0 40)) 0.

Definition K : list Z := (λ p, cube_root (p * 2 ^ 96) mod two32) <$> primes 64 320.
Definition H0 : list Z := (λ p, Z.sqrt (p * 2 ^ 64) mod two32) <$> primes 8 20.

(** The message, a one bit, the fewest zero bits that complete a block, and the
    length in bits as eight bytes. *)
Definition length_bytes (message : list Z) : list Z :=
  let bits := 8 * Z.of_nat (length message) in
  (λ i, Z.shiftr bits (8 * (7 - Z.of_nat i)) mod 256) <$> List.seq 0 8.

Definition pad (message : list Z) : list Z :=
  message ++ [128] ++ replicate (Z.to_nat ((55 - Z.of_nat (length message)) mod 64)) 0 ++ length_bytes message.

Definition word (bytes : list Z) : Z := fold_left (λ acc b, acc * 256 + b) bytes 0.

(** The sixteen words of a block of the padded message. *)
Definition block_words (bytes : list Z) (block : nat) : list Z :=
  (λ i, word (take 4 (drop (block * 64 + i * 4) bytes))) <$> List.seq 0 16.

Definition next_word (ws : list Z) : Z :=
  let t := length ws in
  add (add (add (sigma1 (read ws (t - 2))) (read ws (t - 7))) (sigma0 (read ws (t - 15)))) (read ws (t - 16)).

Fixpoint expand (n : nat) (ws : list Z) : list Z :=
  match n with O => ws | S n => expand n (ws ++ [next_word ws]) end.

Definition step (v : Vars) (kw : Z * Z) : Vars :=
  let T1 := add (add (add (add (vh v) (Sigma1 (ve v))) (Ch (ve v) (vf v) (vg v))) (fst kw)) (snd kw) in
  let T2 := add (Sigma0 (va v)) (Maj (va v) (vb v) (vc v)) in
  mkVars (add T1 T2) (va v) (vb v) (vc v) (add (vd v) T1) (ve v) (vf v) (vg v).

Definition vars_of (hash : list Z) : Vars := start_vars hash.
Definition of_vars (v : Vars) : list Z := [va v; vb v; vc v; vd v; ve v; vf v; vg v; vh v].

Definition compress (bytes : list Z) (hash : list Z) (block : nat) : list Z :=
  zip_with add hash (of_vars (fold_left step (zip K (expand 48 (block_words bytes block))) (vars_of hash))).

Definition digest (message : list Z) : list Z :=
  let bytes := pad message in fold_left (compress bytes) (List.seq 0 (Nat.div (length bytes) 64)) H0.

(** The digest in hexadecimal: eight digits for each word. *)
Definition word_hex (w : Z) : string :=
  String.string_of_list_ascii ((λ i, hex_digit (Z.shiftr w (4 * (7 - Z.of_nat i)) mod 16)) <$> List.seq 0 8).

Definition digest_hex (message : list Z) : string := String.concat "" (word_hex <$> digest message).

Example digest_abc : digest_hex (utf8 "abc") = sha256 "abc".
Proof. vm_compute. reflexivity. Qed.

End Fips.
