(* ===== verification/Sha256Props.v ===== *)
(** * The plan compiler's hash is SHA-256

    [sha256] equals the standard's definition ([Fips.digest_hex]): the signed results
    of the language's bitwise operators never show, because every value is read back
    as a 32-bit word before it is stored. *)

From S2P Require Import Prelude Sha256.
#[local] Open Scope Z_scope.

(** ** Words *)

Definition is_word (x : Z) : Prop := u32 x = x.
Definition all_words (l : list Z) : Prop := ∀ i, is_word (read l i).

Lemma is_word_u32 x : is_word (u32 x).
Proof. apply u32_u32. Qed.

Lemma u32_add a b : u32 (u32 a + u32 b) = u32 (a + b).
Proof. by rewrite u32_add_l, u32_add_r. Qed.

Lemma rotr v n : 0 < n < 32 → u32 (rotateRight v n) = Fips.ROTR n (u32 v).
Proof.
  intros Hn. unfold rotateRight, Fips.ROTR. rewrite u32_or, js_shr_small, u32_shl by lia. f_equal.
  apply u32_id, shiftr_range; [apply u32_range|lia].
Qed.

(** The three-way exclusive ors of the algorithm. *)
Ltac word_xor := rewrite ?u32_xor, ?rotr by lia.

Lemma shr_word v n : 0 ≤ n < 32 → u32 (js_shr v n) = Fips.SHR n (u32 v).
Proof.
  intros Hn. rewrite js_shr_small by done. apply u32_id, shiftr_range; [apply u32_range|lia].
Qed.

Lemma choose_word x y z :
  u32 (js_xor (js_and x y) (js_and (js_not x) z)) = Fips.Ch (u32 x) (u32 y) (u32 z).
Proof. by rewrite u32_xor, !u32_and, u32_not. Qed.

Lemma majority_word x y z :
  u32 (js_xor (js_xor (js_and x y) (js_and x z)) (js_and y z)) = Fips.Maj (u32 x) (u32 y) (u32 z).
Proof. by rewrite !u32_xor, !u32_and. Qed.

Lemma add_word a b : Fips.add a b = u32 (a + b).
Proof. done. Qed.

(** Sums are read back modulo 2^32: inner readings can be dropped. *)
Lemma u32_sum_ext a b : (∃ k, a = b + k * two32) → u32 a = u32 b.
Proof. intros [k ->]. unfold u32. by rewrite Z.mod_add. Qed.

Lemma u32_quot a : ∃ k, u32 a = a + k * two32.
Proof. exists (- (a / two32)). unfold u32. pose proof (Z.div_mod a two32 ltac:(done)). lia. Qed.

Ltac u32_sums := unfold u32, two32; Z.to_euclidean_division_equations; lia.

(** *** Reading and writing arrays *)

Lemma read_store_eq i v l : (i < length l)%nat → read (store i v l) i = u32 v.
Proof. intros Hi. unfold read, store. by rewrite list_lookup_insert_eq. Qed.

Lemma take_store i v l : (i < length l)%nat → take (S i) (store i v l) = take i l ++ [u32 v].
Proof.
  intros Hi. unfold store. rewrite (take_S_r _ _ (u32 v)) by by rewrite list_lookup_insert_eq.
  by rewrite take_insert_ge.
Qed.

Lemma length_store i v l : length (store i v l) = length l.
Proof. apply length_insert. Qed.

Lemma read_take i n l : (i < n)%nat → read (take n l) i = read l i.
Proof. intros Hi. unfold read. by rewrite lookup_take_lt. Qed.

(** ** The message schedule *)

Lemma extend_next sc t :
  (16 ≤ t)%nat → (t < length sc)%nat → all_words (take t sc) →
  take (S t) (extend_word sc t) = take t sc ++ [Fips.next_word (take t sc)].
Proof.
  intros Ht Hlen Hw. unfold extend_word. rewrite take_store by done. do 2 f_equal.
  unfold Fips.next_word. rewrite length_take, Nat.min_l by lia.
  rewrite !read_take by lia.
  assert (∀ i, (i < t)%nat → u32 (read sc i) = read sc i) as Hr.
  { intros i Hi. rewrite <-(read_take i t) by done. apply Hw. }
  rewrite js_shr_0, u32_u32, !add_word. unfold Fips.sigma0, Fips.sigma1.
  set (p := read sc (t - 15)). set (q := read sc (t - 2)).
  set (s0 := js_xor (js_xor (rotateRight p 7) _) _). set (s1 := js_xor (js_xor (rotateRight q 17) _) _).
  assert (Fips.sigma0 p = u32 s0) as Es0.
  { subst s0. word_xor. rewrite shr_word by lia. subst p. by rewrite !Hr by lia. }
  assert (Fips.sigma1 q = u32 s1) as Es1.
  { subst s1. word_xor. rewrite shr_word by lia. subst q. by rewrite !Hr by lia. }
  unfold Fips.sigma0 in Es0. unfold Fips.sigma1 in Es1. rewrite Es0, Es1.
  u32_sums.
Qed.

Lemma length_load view off sc i : length (load_word view off sc i) = length sc.
Proof. apply length_store. Qed.
Lemma length_extend sc i : length (extend_word sc i) = length sc.
Proof. apply length_store. Qed.

Lemma length_fold (f : list Z → nat → list Z) (l : list nat) sc :
  (∀ sc i, length (f sc i) = length sc) → length (fold_left f l sc) = length sc.
Proof. intros Hf. revert sc. induction l as [|i l IH]; intros sc; cbn; [done|]. by rewrite IH. Qed.

Definition byte (b : Z) : Prop := 0 ≤ b < 256.

Lemma view_word view off :
  (off + 4 ≤ length view)%nat → getUint32 off view = Fips.word (take 4 (drop off view)).
Proof.
  intros Hl. unfold getUint32, read.
  assert (∀ k, view !! (off + k)%nat = drop off view !! k) as Hk by (intros k; by rewrite lookup_drop).
  rewrite !Hk. replace (view !! off) with (drop off view !! 0%nat) by (rewrite lookup_drop; f_equal; lia).
  assert (4 ≤ length (drop off view))%nat as Hd by (rewrite length_drop; lia).
  destruct (drop off view) as [|a [|b [|c [|d l]]]]; cbn in Hd; try lia.
  cbn -[Z.mul Z.add]. rewrite take_0. cbn [fold_left]. lia.
Qed.

Lemma word_range bytes : length bytes = 4%nat → Forall byte bytes → 0 ≤ Fips.word bytes < two32.
Proof.
  intros Hl Hb. destruct bytes as [|a [|b [|c [|d [|]]]]]; try done.
  rewrite !Forall_cons in Hb. destruct Hb as (Ha&H2&H3&H4&_).
  unfold byte in *. cbn -[Z.mul Z.add]. unfold two32. lia.
Qed.

Lemma block_word_range view off :
  (off + 4 ≤ length view)%nat → Forall byte view → 0 ≤ Fips.word (take 4 (drop off view)) < two32.
Proof.
  intros Hl Hv. apply word_range; [rewrite length_take, length_drop; lia|].
  by apply Forall_take, Forall_drop.
Qed.

Lemma load_words view off sc n :
  (n ≤ 16)%nat → length sc = 64%nat → (off + 64 ≤ length view)%nat → Forall byte view →
  take n (fold_left (load_word view off) (List.seq 0 n) sc) =
  (λ i, Fips.word (take 4 (drop (off + i * 4) view))) <$> List.seq 0 n.
Proof.
  intros Hn Hsc Hl Hv. induction n as [|n IH]; [done|].
  rewrite List.seq_S, fold_left_app, fmap_app. cbn [fold_left fmap list_fmap Nat.add].
  unfold load_word at 1. rewrite take_store.
  2: { rewrite length_fold by apply length_load. lia. }
  rewrite IH by lia. do 2 f_equal. rewrite view_word by lia.
  apply u32_id, block_word_range; [lia|done].
Qed.

Lemma expand_snoc n ws : Fips.expand (S n) ws = Fips.expand n ws ++ [Fips.next_word (Fips.expand n ws)].
Proof. revert ws. induction n as [|n IH]; intros ws; [done|]. exact (IH _). Qed.

Lemma length_expand n ws : length (Fips.expand n ws) = (length ws + n)%nat.
Proof. induction n as [|n IH]; [cbn; lia|]. rewrite expand_snoc, length_app, IH. cbn. lia. Qed.

Lemma all_words_Forall l : Forall is_word l → all_words l.
Proof.
  intros Hl i. unfold read. destruct (l !! i) as [x|] eqn:E; [|done]. by apply (Forall_lookup_1 _ _ _ _ Hl E).
Qed.

Lemma expand_words n ws : Forall is_word ws → Forall is_word (Fips.expand n ws).
Proof.
  intros Hw. induction n as [|n IH]; [done|]. rewrite expand_snoc. apply Forall_app. split; [done|].
  constructor; [|done]. apply is_word_u32.
Qed.

Lemma extend_words sc n :
  (n ≤ 48)%nat → length sc = 64%nat → Forall is_word (take 16 sc) →
  take (16 + n) (fold_left extend_word (List.seq 16 n) sc) = Fips.expand n (take 16 sc).
Proof.
  intros Hn Hsc Hw. induction n as [|n IH]; [done|].
  rewrite List.seq_S, fold_left_app, Nat.add_succ_r, expand_snoc. cbn [fold_left].
  rewrite extend_next; [by rewrite IH by lia|lia| |].
  - rewrite length_fold by apply length_extend. lia.
  - rewrite IH by lia. by apply all_words_Forall, expand_words.
Qed.

Lemma fill_schedule_expand view off sc :
  length sc = 64%nat → (off + 64 ≤ length view)%nat → Forall byte view →
  fill_schedule view off sc =
  Fips.expand 48 ((λ i, Fips.word (take 4 (drop (off + i * 4) view))) <$> List.seq 0 16).
Proof.
  intros Hsc Hl Hv. unfold fill_schedule.
  set (loaded := fold_left (load_word view off) _ sc).
  assert (take 16 loaded = (λ i, Fips.word (take 4 (drop (off + i * 4) view))) <$> List.seq 0 16) as Hload
    by (apply load_words; lia || done).
  assert (length loaded = 64%nat) as Hll by (subst loaded; by rewrite length_fold by apply length_load).
  rewrite <-Hload, <-(extend_words loaded 48); [|lia|done|].
  - symmetry. apply take_ge. rewrite length_fold by apply length_extend. lia.
  - rewrite Hload. apply Forall_fmap, Forall_forall. intros i Hi%elem_of_seq. cbn.
    apply u32_id, block_word_range; [lia|done].
Qed.

(** ** The rounds *)

Definition word_vars (v : Vars) : Prop := Forall is_word (Fips.of_vars v).

Lemma word_vars_intro a b c d e f g h :
  is_word a → is_word b → is_word c → is_word d → is_word e → is_word f → is_word g → is_word h →
  word_vars (mkVars a b c d e f g h).
Proof. intros. unfold word_vars, Fips.of_vars. by repeat constructor. Qed.

Lemma word_vars_elim v :
  word_vars v → is_word (va v) ∧ is_word (vb v) ∧ is_word (vc v) ∧ is_word (vd v) ∧
                is_word (ve v) ∧ is_word (vf v) ∧ is_word (vg v) ∧ is_word (vh v).
Proof. unfold word_vars, Fips.of_vars. rewrite !Forall_cons. tauto. Qed.

Lemma step_words v kw : word_vars v → word_vars (Fips.step v kw).
Proof.
  intros Hv%word_vars_elim. destruct Hv as (?&?&?&?&?&?&?&?).
  apply word_vars_intro; done || apply is_word_u32.
Qed.

Lemma round_step sc v i : word_vars v → round sc v i = Fips.step v (read rounds i, read sc i).
Proof.
  intros Hv%word_vars_elim. destruct Hv as (Ha&Hb&Hc&Hd&He&Hf&Hg&Hh). unfold is_word in *.
  unfold round, Fips.step. cbn [fst snd].
  set (sg1 := js_xor (js_xor (rotateRight (ve v) 6) _) _). set (ch := js_xor (js_and (ve v) _) _).
  set (sg0 := js_xor (js_xor (rotateRight (va v) 2) _) _). set (mj := js_xor (js_xor (js_and (va v) _) _) _).
  assert (Fips.Sigma1 (ve v) = u32 sg1) as -> by (subst sg1; word_xor; by rewrite He).
  assert (Fips.Sigma0 (va v) = u32 sg0) as -> by (subst sg0; word_xor; by rewrite Ha).
  assert (Fips.Ch (ve v) (vf v) (vg v) = u32 ch) as -> by (subst ch; rewrite choose_word; congruence).
  assert (Fips.Maj (va v) (vb v) (vc v) = u32 mj) as -> by (subst mj; rewrite majority_word; congruence).
  rewrite !js_shr_0, !add_word. f_equal; u32_sums.
Qed.

Lemma read_all n l : length l = n → l = read l <$> List.seq 0 n.
Proof.
  intros <-. apply list_eq. intros i. rewrite list_lookup_fmap.
  destruct (decide (i < length l)%nat) as [Hi|Hi].
  - assert (List.seq 0 (length l) !! i = Some i) as -> by (apply lookup_seq; lia).
    destruct (lookup_lt_is_Some_2 _ _ Hi) as [x Hx]. unfold read. cbn. by rewrite Hx.
  - rewrite lookup_ge_None_2 by lia. symmetry. apply fmap_None, lookup_ge_None_2. rewrite length_seq. lia.
Qed.

Lemma rounds_run sc v :
  length sc = 64%nat → word_vars v →
  fold_left (round sc) (List.seq 0 64) v = fold_left Fips.step (zip rounds sc) v.
Proof.
  intros Hsc Hv.
  assert (zip rounds sc = (λ i, (read rounds i, read sc i)) <$> List.seq 0 64) as ->.
  { transitivity (zip (read rounds <$> List.seq 0 64) (read sc <$> List.seq 0 64)).
    - f_equal; by apply read_all.
    - by rewrite zip_with_fmap_l, zip_with_fmap_r, zip_with_diag. }
  revert v Hv. induction (List.seq 0 64) as [|i l IH]; intros v Hv; [done|]. cbn [fmap list_fmap fold_left].
  rewrite round_step by done. by apply IH, step_words.
Qed.

Lemma run_words kws v : word_vars v → word_vars (fold_left Fips.step kws v).
Proof. revert v. induction kws as [|kw kws IH]; intros v Hv; [done|]. by apply IH, step_words. Qed.

(** ** Blocks *)

Lemma rounds_K : rounds = Fips.K.
Proof. vm_compute. reflexivity. Qed.
Lemma initial_H0 : initial = Fips.H0.
Proof. vm_compute. reflexivity. Qed.

#[local] Opaque Fips.expand.

Definition hash_ok (hash : list Z) : Prop := length hash = 8%nat ∧ Forall is_word hash.

Lemma start_words hash : hash_ok hash → word_vars (start_vars hash).
Proof.
  intros [Hl Hw]. unfold word_vars.
  destruct hash as [|x0 [|x1 [|x2 [|x3 [|x4 [|x5 [|x6 [|x7 [|]]]]]]]]]; done.
Qed.

Lemma add_vars_zip hash v : length hash = 8%nat → add_vars hash v = zip_with Fips.add hash (Fips.of_vars v).
Proof.
  intros Hl. destruct hash as [|x0 [|x1 [|x2 [|x3 [|x4 [|x5 [|x6 [|x7 [|]]]]]]]]]; try done.
  destruct v as [y0 y1 y2 y3 y4 y5 y6 y7]. unfold add_vars, Fips.of_vars, store. rewrite !js_shr_0, !u32_u32. done.
Qed.

Lemma add_hash_ok hash v : hash_ok hash → hash_ok (zip_with Fips.add hash (Fips.of_vars v)).
Proof.
  intros [Hl _]. split; [rewrite length_zip_with, Hl; done|].
  apply Forall_forall. intros x (i & a & b & -> & _)%elem_of_lookup_zip_with. apply is_word_u32.
Qed.

Lemma block_compress view hash sc b :
  length sc = 64%nat → (b * 64 + 64 ≤ length view)%nat → Forall byte view → hash_ok hash →
  block_step view (hash, sc) b = (Fips.compress view hash b, fill_schedule view (b * 64) sc) ∧
  length (fill_schedule view (b * 64) sc) = 64%nat ∧ hash_ok (Fips.compress view hash b).
Proof.
  intros Hsc Hl Hv Hh. unfold block_step, Fips.compress. cbn [fst snd].
  assert (fill_schedule view (b * 64) sc = Fips.expand 48 (Fips.block_words view b)) as E
    by (by apply fill_schedule_expand).
  assert (length (fill_schedule view (b * 64) sc) = 64%nat) as Hf
    by (rewrite E, length_expand; unfold Fips.block_words; rewrite length_fmap, length_seq; done).
  split; [|split; [exact Hf|apply add_hash_ok, Hh]].
  rewrite rounds_run; [|exact Hf|apply start_words, Hh]. rewrite add_vars_zip by apply Hh. by rewrite E, rounds_K.
Qed.

Lemma blocks_run view n hash sc :
  length sc = 64%nat → (n * 64 ≤ length view)%nat → Forall byte view → hash_ok hash →
  fst (fold_left (block_step view) (List.seq 0 n) (hash, sc)) = fold_left (Fips.compress view) (List.seq 0 n) hash ∧
  length (snd (fold_left (block_step view) (List.seq 0 n) (hash, sc))) = 64%nat ∧
  hash_ok (fold_left (Fips.compress view) (List.seq 0 n) hash).
Proof.
  intros Hsc Hl Hv Hh. induction n as [|n IH]; [done|].
  destruct IH as (E & Hs & Hok); [lia|]. rewrite List.seq_S, !fold_left_app. cbn [Nat.add].
  revert E Hs Hok.
  generalize (fold_left (block_step view) (List.seq 0 n) (hash, sc)), (fold_left (Fips.compress view) (List.seq 0 n) hash).
  intros [h s] h' E Hs Hok. cbn [fst] in E. subst h. cbn [snd] in Hs. unfold fold_left.
  destruct (block_compress view h' s n) as (-> & Hs' & Hok'); [done|lia|done|done|].
  exact (conj eq_refl (conj Hs' Hok')).
Qed.

(** ** Padding *)

Lemma byte_slice n s k :
  0 ≤ s → 0 ≤ k ≤ 24 → Z.shiftr (u32 (Z.shiftr n s)) k mod 256 = Z.shiftr n (s + k) mod 256.
Proof.
  intros Hs Hk. apply Z.bits_inj'. intros i Hi. change 256 with (2 ^ 8).
  destruct (decide (i < 8)) as [Hlt|]; [|by rewrite !Z.mod_pow2_bits_high by lia].
  rewrite !Z.mod_pow2_bits_low, !Z.shiftr_spec, u32_bits, Z.shiftr_spec, bool_decide_eq_true_2 by lia.
  cbn [andb]. f_equal. lia.
Qed.

Lemma high_word len : u32 (len / 536870912) = u32 (Z.shiftr (8 * len) 32).
Proof. f_equal. rewrite Z.shiftr_div_pow2 by lia. change (2 ^ 32) with (8 * 536870912). by rewrite Z.div_mul_cancel_l. Qed.

Lemma low_word len : u32 (js_shr (js_shl len 3) 0) = u32 (Z.shiftr (8 * len) 0).
Proof.
  rewrite js_shr_0, u32_u32, u32_shl, Z.shiftr_0_r, Z.shiftl_mul_pow2 by lia. change (2 ^ 3) with 8. u32_sums.
Qed.

Lemma be_bytes_slice n s :
  0 ≤ s → be_bytes (u32 (Z.shiftr n s)) = (λ k, Z.shiftr n (s + k) mod 256) <$> [24; 16; 8; 0].
Proof.
  intros Hs. unfold be_bytes. cbn [fmap list_fmap].
  replace (u32 (Z.shiftr n s) mod 256) with (Z.shiftr (u32 (Z.shiftr n s)) 0 mod 256) by by rewrite Z.shiftr_0_r.
  by rewrite !byte_slice by lia.
Qed.

Lemma length_bytes_split message :
  let len := Z.of_nat (length message) in
  be_bytes (u32 (len / 536870912)) ++ be_bytes (u32 (js_shr (js_shl len 3) 0)) = Fips.length_bytes message.
Proof. cbn zeta. by rewrite high_word, low_word, !be_bytes_slice by lia. Qed.

Lemma padded_pad message : padded message = Fips.pad message.
Proof.
  unfold Fips.pad. rewrite <-length_bytes_split. unfold padded, setUint32, block_count.
  set (len := length message). set (blocks := Z.to_nat _). set (z := Z.to_nat ((55 - Z.of_nat len) mod 64)).
  assert (blocks * 64 = len + (1 + (z + 8)))%nat as Hsize.
  { subst blocks z. apply Nat2Z.inj. rewrite Nat2Z.inj_mul, !Nat2Z.inj_add, !Z2Nat.id.
    - Z.to_euclidean_division_equations. lia.
    - apply Z.mod_pos_bound. lia.
    - Z.to_euclidean_division_equations. lia. }
  rewrite Hsize, replicate_add, list_inserts_0_r by (by rewrite length_replicate).
  rewrite insert_app_r_alt, Nat.sub_diag by done. rewrite replicate_add. cbn [replicate app].
  assert (∀ (a b : list Z), length a = 4%nat → length b = 4%nat →
    list_inserts (len + (1 + (z + 8)) - 4) b (list_inserts (len + (1 + (z + 8)) - 8) a
      (message ++ <[0%nat := 128]> (0 :: replicate (z + 8) 0))) =
    message ++ 128 :: replicate z 0 ++ a ++ b) as Hmain.
  { intros a b Ha Hb. rewrite replicate_add.
    replace (message ++ <[0%nat := 128]> (0 :: replicate z 0 ++ replicate 8 0))
      with ((message ++ 128 :: replicate z 0) ++ replicate 4 0 ++ replicate 4 0) by by rewrite <-app_assoc.
    assert (length (message ++ 128 :: replicate z 0) = (len + S z)%nat) as Hp
      by (rewrite length_app; cbn; by rewrite length_replicate).
    set (front := message ++ 128 :: replicate z 0) in *.
    replace (len + (1 + (z + 8)) - 8)%nat with (length front + 0)%nat by lia.
    rewrite list_inserts_app_r, list_inserts_0_r by done.
    replace (len + (1 + (z + 8)) - 4)%nat with (length front + (length a + 0))%nat by lia.
    by rewrite !list_inserts_app_r, <-(app_nil_r (replicate 4 (0 : Z))), list_inserts_0_r, app_nil_r; subst front; rewrite <-?app_assoc. }
  rewrite Hmain by done. reflexivity.
Qed.

Lemma pad_length message : length (Fips.pad message) = (block_count message * 64)%nat.
Proof.
  unfold Fips.pad, Fips.length_bytes, block_count.
  rewrite !length_app, length_replicate, length_fmap, length_seq. cbn [length].
  apply Nat2Z.inj. rewrite Nat2Z.inj_mul, !Nat2Z.inj_add, !Z2Nat.id.
  - Z.to_euclidean_division_equations. lia.
  - Z.to_euclidean_division_equations. lia.
  - apply Z.mod_pos_bound. lia.
Qed.

Lemma pad_bytes message : Forall byte message → Forall byte (Fips.pad message).
Proof.
  intros Hm. unfold Fips.pad, Fips.length_bytes. rewrite !Forall_app. split_and!; [done|by repeat constructor| |].
  - apply Forall_replicate. done.
  - apply Forall_fmap, Forall_forall. intros i _. unfold byte. cbn. apply Z.mod_pos_bound. done.
Qed.

Lemma digest_run message :
  Forall byte message → sha256_words message = Fips.digest message ∧ hash_ok (Fips.digest message).
Proof.
  intros Hm. unfold sha256_words, Fips.digest. rewrite <-initial_H0, padded_pad, pad_length, Nat.div_mul by done.
  destruct (blocks_run (Fips.pad message) (block_count message) initial (replicate 64 0)) as (-> & _ & Hok).
  - done.
  - by rewrite pad_length.
  - by apply pad_bytes.
  - split; [done|]. apply Forall_forall. intros x Hx.
    apply (proj1 (Forall_forall (λ x, is_word x) initial)); [|done]. by repeat constructor.
  - done.
Qed.

Lemma utf8_bytes s : Forall byte (utf8 s).
Proof.
  apply Forall_fmap, Forall_forall. intros c _. unfold byte. cbn.
  pose proof (N_ascii_bounded c). lia.
Qed.

(** ** Hexadecimal *)

Lemma zeros_app n s : zeros n +:+ String "0" s = zeros (S n) +:+ s.
Proof. induction n as [|n IH]; [done|]. change (String "0" (zeros n +:+ String "0" s) = String "0" (zeros (S n) +:+ s)). by rewrite IH. Qed.

(** [k] digits of [n], most significant first. *)
Fixpoint fixed (k : nat) (n : Z) (acc : string) : string :=
  match k with O => acc | S k => fixed k (n / 16) (String (hex_digit (n mod 16)) acc) end.

Lemma fixed_zero k acc : fixed k 0 acc = zeros k +:+ acc.
Proof. revert acc. induction k as [|k IH]; intros acc; [done|]. cbn [fixed]. change (0 / 16) with 0. by rewrite IH, zeros_app. Qed.

Lemma fixed_pad k fuel n acc :
  (0 < k)%nat → (0 < fuel)%nat → 0 ≤ n < 16 ^ Z.of_nat k → n < 16 ^ Z.of_nat fuel →
  ∃ j, fixed k n acc = zeros j +:+ hex_loop fuel n acc ∧
       (j + String.length (hex_loop fuel n acc) = k + String.length acc)%nat.
Proof.
  revert k n acc. induction fuel as [|fuel IH]; intros k n acc Hk Hf Hn Hnf; [lia|].
  destruct k as [|k]; [lia|]. cbn [fixed hex_loop]. case_bool_decide as Hz.
  - rewrite Hz, fixed_zero. exists k. cbn. split; [done|lia].
  - rewrite !Nat2Z.inj_succ, !Z.pow_succ_r in * by lia.
    assert (0 < n / 16) by (pose proof (Z.div_pos n 16); lia).
    destruct (IH k (n / 16) (String (hex_digit (n mod 16)) acc)) as (j & -> & Hj).
    + destruct k; [cbn in Hn; Z.to_euclidean_division_equations; lia|lia].
    + destruct fuel; [cbn in Hnf; Z.to_euclidean_division_equations; lia|lia].
    + split; [lia|]. apply Z.div_lt_upper_bound; lia.
    + apply Z.div_lt_upper_bound; lia.
    + exists j. split; [done|]. cbn in *. lia.
Qed.

Lemma fuel_enough n : 0 ≤ n → n < 16 ^ Z.of_nat (S (Z.to_nat (Z.log2 n / 4))).
Proof.
  intros Hn. change 16 with (2 ^ 4). rewrite <-Z.pow_mul_r by lia. pose proof (Z.log2_nonneg n) as Hl.
  assert (Z.log2 n / 4 * 4 ≤ Z.log2 n < Z.log2 n / 4 * 4 + 4) by (Z.to_euclidean_division_equations; lia).
  assert (0 ≤ Z.log2 n / 4) by (apply Z.div_pos; lia).
  destruct (decide (n = 0)) as [->|]; [done|].
  apply Z.lt_le_trans with (2 ^ Z.succ (Z.log2 n)); [by apply Z.log2_spec; lia|]. apply Z.pow_le_mono_r; lia.
Qed.

Lemma length_zeros j s : String.length (zeros j +:+ s) = (j + String.length s)%nat.
Proof. induction j as [|j IH]; [done|]. change (S (String.length (zeros j +:+ s)) = S (j + String.length s)). by rewrite IH. Qed.

Lemma length_fixed k n acc : String.length (fixed k n acc) = (k + String.length acc)%nat.
Proof. revert n acc. induction k as [|k IH]; intros n acc; [done|]. cbn [fixed]. rewrite IH. cbn. lia. Qed.

Lemma pad_fixed k n : (0 < k)%nat → 0 ≤ n < 16 ^ Z.of_nat k → padStart k (toString16 n) = fixed k n "".
Proof.
  intros Hk Hn. unfold toString16, padStart.
  destruct (fixed_pad k (S (Z.to_nat (Z.log2 n / 4))) n "") as (j & -> & Hj); [done|lia|done|apply fuel_enough, Hn|].
  do 2 f_equal. cbn [String.length] in Hj. lia.
Qed.

Lemma word_hex_fixed w : Fips.word_hex w = fixed 8 w "".
Proof.
  unfold Fips.word_hex. cbn [List.seq fmap list_fmap String.string_of_list_ascii fixed Z.of_nat].
  rewrite !Z.shiftr_div_pow2, !Z.div_div by done. do 7 (apply (f_equal2 String); [reflexivity|]).
  change (2 ^ (4 * (7 - Z.of_nat 7))) with 1. by rewrite Z.div_1_r.
Qed.

(** ** The digest *)

Lemma hash_lookup hash w : hash_ok hash → w ∈ hash → 0 ≤ w < two32.
Proof.
  intros [_ Hw] Hin. rewrite Forall_forall in Hw. rewrite <-(Hw w Hin). apply u32_range.
Qed.

Lemma word_digits w : 0 ≤ w < two32 → padStart 8 (toString16 w) = Fips.word_hex w.
Proof. intros Hw. rewrite word_hex_fixed. apply pad_fixed; [lia|done]. Qed.

Lemma sha256_digest s : sha256 s = Fips.digest_hex (utf8 s).
Proof.
  destruct (digest_run (utf8 s) (utf8_bytes s)) as [E Hok]. unfold sha256, Fips.digest_hex. rewrite E. f_equal.
  apply list_fmap_ext. intros i w Hw%list_elem_of_lookup_2. apply word_digits. by eapply hash_lookup.
Qed.

(** The pattern [/^[0-9a-f]{64}$/] of a digest. *)
Definition hex_char (c : ascii) : bool :=
  let n := N_of_ascii c in
  bool_decide (48 ≤ n)%N && bool_decide (n ≤ 57)%N || bool_decide (97 ≤ n)%N && bool_decide (n ≤ 102)%N.

Definition hex_digits (n : nat) (s : string) : bool :=
  bool_decide (String.length s = n) && forallb hex_char (String.list_ascii_of_string s).

Lemma hex_char_digit n : 0 ≤ n < 16 → hex_char (hex_digit n) = true.
Proof.
  intros Hn. assert (Forall (λ i, hex_char (hex_digit (Z.of_nat i)) = true) (List.seq 0 16)) as H
    by (repeat (constructor; [done|]); constructor).
  rewrite Forall_forall in H. rewrite <-(Z2Nat.id n) by lia. apply H, elem_of_seq. lia.
Qed.

Lemma hex_digits_app n m s t : hex_digits n s = true → hex_digits m t = true → hex_digits (n + m) (s +:+ t) = true.
Proof.
  unfold hex_digits. rewrite !andb_true_iff, !bool_decide_eq_true. intros [<- Hs] [<- Ht].
  induction s as [|c s IH]; [done|]. change (String c s +:+ t) with (String c (s +:+ t)).
  cbn [String.length String.list_ascii_of_string forallb Nat.add] in *.
  rewrite andb_true_iff in Hs. destruct Hs as [Hc Hs].
  destruct (IH Hs) as [-> ->]. by rewrite Hc.
Qed.

Lemma word_hex_digits w : hex_digits 8 (Fips.word_hex w) = true.
Proof.
  unfold Fips.word_hex, hex_digits. cbn [List.seq fmap list_fmap String.string_of_list_ascii String.list_ascii_of_string forallb].
  rewrite !hex_char_digit by (apply Z.mod_pos_bound; done). done.
Qed.

Lemma concat_digits words : hex_digits (8 * length words) (String.concat "" (Fips.word_hex <$> words)) = true.
Proof.
  induction words as [|w words IH]; [done|].
  destruct words as [|w' words]; [apply word_hex_digits|].
  replace (8 * length (w :: w' :: words))%nat with (8 + 8 * length (w' :: words))%nat by (cbn [length]; lia).
  apply hex_digits_app; [apply word_hex_digits|exact IH].
Qed.

Lemma sha256_digits s : hex_digits 64 (sha256 s) = true.
Proof.
  rewrite sha256_digest. destruct (digest_run (utf8 s) (utf8_bytes s)) as [_ [Hl _]].
  pose proof (concat_digits (Fips.digest (utf8 s))) as H. by rewrite Hl in H.
Qed.

(** ** Theorems *)

(** C32. The program's [sha256] returns, for every text, the lowercase hexadecimal
    digest that FIPS 180-4 defines for its UTF-8 bytes: the typed-array padding, the
    reused schedule array and the signed 32-bit operators compute the standard's
    padding, message expansion and compression, with the standard's constants (the
    fractional parts of roots of primes) and for messages of any number of blocks. *)
Theorem sha256_is_fips (input : string) : sha256 input = Fips.digest_hex (utf8 input).
Proof. apply sha256_digest. Qed.

(** Every result of [sha256] has the shape the digests of the program are declared
    with: sixty-four characters, all of them lowercase hexadecimal digits. *)
Theorem sha256_type (input : string) : hex_digits 64 (sha256 input) = true.
Proof. apply sha256_digits. Qed.
