(* ===== verification/FileSet.v ===== *)
(** * Declared files ([plan/src/FileSet.ts])

    Paths, globs, tree artifacts and filegroups as a plan declares them, the glob
    compiler, and the static overlap test.  Paths are texts of units below 256; a
    regular expression is the sequence of the pieces the compiler concatenates. *)

From S2P Require Import Prelude Capability Texts.

(** [path.replaceAll("\\", "/")]. *)
Definition canonical (path : string) : string := normalizeSlashes path.

Definition workspaceRelative (pattern : string) : bool :=
  if starts_with "/" pattern then false else
  let segments := split_on "/" (canonical pattern) in
  if ends_with ":" (default "" (head segments)) then false else
  forallb (λ segment, negb (bool_decide (segment = "..")) && negb (bool_decide (segment = ".")) &&
                      negb (bool_decide (segment = ""))) segments.

(** ** Declarations *)

Record Glob := mkGlob { gl_include : list string; gl_exclude : option (list string) }.

Inductive Entry :=
| EPath (path : string)
| EGlob (g : Glob)
| ETree (path : string).

Inductive ReadEntry :=
| RPath (path : string)
| RGlob (g : Glob).

(** A read entry is an entry. *)
Definition read_entry (e : ReadEntry) : Entry := match e with RPath p => EPath p | RGlob g => EGlob g end.

Inductive Declaration :=
| DEntry (e : Entry)
| DFilegroup (name : string) (entries : list Entry).

Inductive ReadDeclaration :=
| RDEntry (e : ReadEntry)
| RDFilegroup (name : string) (entries : list ReadEntry).

#[export] Instance glob_eq_dec : EqDecision Glob.
Proof. solve_decision. Defined.
#[export] Instance entry_eq_dec : EqDecision Entry.
Proof. solve_decision. Defined.
#[export] Instance read_entry_eq_dec : EqDecision ReadEntry.
Proof. solve_decision. Defined.
#[export] Instance declaration_eq_dec : EqDecision Declaration.
Proof. solve_decision. Defined.
#[export] Instance read_declaration_eq_dec : EqDecision ReadDeclaration.
Proof. solve_decision. Defined.

Definition expand (declarations : list Declaration) : list Entry :=
  flat_map (λ d, match d with DFilegroup _ entries => entries | DEntry e => [e] end) declarations.

Definition expandReads (declarations : list ReadDeclaration) : list ReadEntry :=
  flat_map (λ d, match d with RDFilegroup _ entries => entries | RDEntry e => [e] end) declarations.

(** ** Globs *)

(** The pieces of a compiled pattern: a literal unit, [[^/]*], [.*] and [(?:[^/]+/)*]. *)
Inductive Piece :=
| Lit (u : ascii)
| InSegment
| Anything
| Directories.

(** [escape(segment).replaceAll("*", "[^/]*")]: every other unit stands for itself. *)
Definition segment_pieces (segment : string) : list Piece :=
  (λ u, if bool_decide (u = "*"%char) then InSegment else Lit u) <$> units segment.

Fixpoint compile_segments (segments : list string) : list Piece :=
  match segments with
  | [] => []
  | segment :: rest =>
      if bool_decide (segment = "**")
      then (match rest with [] => Anything | _ => Directories end) :: compile_segments rest
      else segment_pieces segment ++ (match rest with [] => [] | _ => [Lit "/"%char] end) ++ compile_segments rest
  end.

Definition patternExpression (pattern : string) : list Piece := compile_segments (split_on "/" (canonical pattern)).

(** [.] matches no line terminator. *)
Definition line_end (u : ascii) : bool := bool_decide (u = "010"%char) || bool_decide (u = "013"%char).

(** [expression.test(text)] of an expression between [^] and [$]. *)
Fixpoint test (e : list Piece) (text : list ascii) {struct e} : bool :=
  match e with
  | [] => match text with [] => true | _ => false end
  | Lit u :: e => match text with x :: text => bool_decide (x = u) && test e text | [] => false end
  | InSegment :: e =>
      (fix go text := test e text || match text with
                                     | x :: text => negb (bool_decide (x = "/"%char)) && go text
                                     | [] => false
                                     end) text
  | Anything :: e =>
      (fix go text := test e text || match text with x :: text => negb (line_end x) && go text | [] => false end) text
  | Directories :: e =>
      (fix go inside text :=
         negb inside && test e text ||
         match text with
         | x :: text => if bool_decide (x = "/"%char) then inside && go false text else go true text
         | [] => false
         end) false text
  end.

Definition matchesPattern (pattern path : string) : bool := test (patternExpression pattern) (units path).

Definition matchesGlob (g : Glob) (path : string) : bool :=
  existsb (λ pattern, matchesPattern pattern path) (gl_include g) &&
  negb (existsb (λ pattern, matchesPattern pattern path) (default [] (gl_exclude g))).

(** ** Overlap *)

Definition beneath (tree path : string) : bool :=
  let root := canonical tree in
  let inside := canonical path in
  bool_decide (inside = root) || starts_with (root +:+ "/") inside.

Definition overlaps (left right : Entry) : bool :=
  match left, right with
  | EPath l, EPath r => bool_decide (canonical l = canonical r)
  | EPath l, EGlob g => matchesGlob g (canonical l)
  | EGlob g, EPath r => matchesGlob g (canonical r)
  | EGlob _, EGlob _ => true
  | ETree t, EPath r => beneath t r
  | EPath l, ETree t => beneath t l
  | ETree l, ETree r => beneath l r || beneath r l
  | ETree _, EGlob _ => true
  | EGlob _, ETree _ => true
  end.

(** ** Coverage of a written path

    What the consumers of a declaration ask of an observed path:
    [declaredCovers] of the step boundary ([engine-store/src/StepBoundary.ts]) and
    [covers] of the workspace sandbox ([engine-store/src/WorkspaceSandbox.ts]). *)
Definition declaredCovers (e : Entry) (path : string) : bool :=
  match e with
  | EPath p => bool_decide (p = path)
  | ETree t => bool_decide (path = t) || starts_with (t +:+ "/") path
  | EGlob g => matchesGlob g path
  end.

Definition covers (e : Entry) (path : string) : bool :=
  match e with
  | EPath p => bool_decide (p = path) || (existsb (λ u, bool_decide (u = "*"%char)) (units p) && matchesPattern p path)
  | ETree t => bool_decide (path = t) || starts_with (t +:+ "/") path
  | EGlob g => matchesGlob g path
  end.

Example match_deep : matchesPattern "src/**/*.ts" "src/a/b/c.ts" = true.
Proof. vm_compute. reflexivity. Qed.
Example match_here : matchesPattern "src/**/*.ts" "src/c.ts" = true.
Proof. vm_compute. reflexivity. Qed.
Example match_not : matchesPattern "src/*.ts" "src/a/c.ts" = false.
Proof. vm_compute. reflexivity. Qed.
Example match_dot : matchesPattern "a.b" "axb" = false.
Proof. vm_compute. reflexivity. Qed.
