(* ===== verification/FileSetProps.v ===== *)
(** * What globs and the overlap test mean

    A pattern compiles to an expression that decides the segment-wise reading of
    globs ([path_match]); two declarations the overlap test calls disjoint cover no
    common path. *)

From S2P Require Import Prelude Capability Texts FileSet.

(** ** The reference reading *)

(** One segment: [*] stands for any text of the segment. *)
Fixpoint segment_match (p s : list ascii) : bool :=
  match p with
  | [] => match s with [] => true | _ => false end
  | u :: p =>
      if bool_decide (u = "*"%char)
      then (fix go s := segment_match p s || match s with _ :: s => go s | [] => false end) s
      else match s with x :: s => bool_decide (x = u) && segment_match p s | [] => false end
  end.

(** A path: an inner [**] stands for any number of directories, a final one for
    whatever the directory holds. *)
Fixpoint path_match (ps ss : list string) : bool :=
  match ps with
  | [] => match ss with [] => true | _ => false end
  | p :: rest =>
      if bool_decide (p = "**")
      then match rest with
           | [] => match ss with [] => false | _ => true end
           | _ => (fix go ss := path_match rest ss || match ss with _ :: ss => go ss | [] => false end) ss
           end
      else match ss with s :: ss => segment_match (units p) (units s) && path_match rest ss | [] => false end
  end.

(** The paths the file system names: no empty segment, no line terminator. *)
Definition segment_ok (s : string) : Prop := ¬ has_unit "/" s ∧ s ≠ "" ∧ Forall (λ u, line_end u = false) (units s).
Definition path_ok (path : string) : Prop := Forall segment_ok (split_on "/" path).

#[export] Instance has_unit_dec u s : Decision (has_unit u s).
Proof. unfold has_unit. apply _. Defined.
#[export] Instance path_ok_dec path : Decision (path_ok path).
Proof. unfold path_ok, segment_ok. apply _. Defined.

Definition free (s : list ascii) : Prop := "/"%char ∉ s.

Lemma slash_neq x s : free (x :: s) → x ≠ "/"%char ∧ free s.
Proof. unfold free. rewrite not_elem_of_cons. naive_solver. Qed.

(** ** Segments *)

Definition pieces (p : list ascii) : list Piece := (λ u, if bool_decide (u = "*"%char) then InSegment else Lit u) <$> p.

Lemma test_segment p e s t :
  free p → free s → test (pieces p ++ Lit "/" :: e) (s ++ "/"%char :: t) = segment_match p s && test e t.
Proof.
  intros Hp. revert s. induction p as [|u p IH]; intros s Hs.
  - destruct s as [|x s]; [done|]. apply slash_neq in Hs as [Hx _]. cbn. by rewrite bool_decide_eq_false_2.
  - apply slash_neq in Hp as [Hu Hp]. cbn. case_bool_decide as Hstar.
    + induction s as [|x s IHs].
      * cbn. rewrite orb_false_r. change ("/"%char :: t) with ([] ++ "/"%char :: t). rewrite IH by done.
        by rewrite orb_false_r.
      * pose proof Hs as [Hx Hs']%slash_neq. cbn [app]. rewrite (bool_decide_eq_false_2 (x = "/"%char)) by done.
        change (x :: s ++ "/"%char :: t) with ((x :: s) ++ "/"%char :: t). rewrite IH by done.
        cbn [negb andb]. rewrite IHs by done. by rewrite andb_orb_distrib_l.
    + cbn. destruct s as [|x s]; cbn; [by rewrite bool_decide_eq_false_2 by congruence|].
      apply slash_neq in Hs as [_ Hs]. rewrite IH by (done || by apply Hp). by rewrite andb_assoc.
Qed.

Lemma test_segment_missing p e s : free p → free s → test (pieces p ++ Lit "/" :: e) s = false.
Proof.
  intros Hp. revert s. induction p as [|u p IH]; intros s Hs.
  - destruct s as [|x s]; [done|]. apply slash_neq in Hs as [Hx _]. cbn. by rewrite bool_decide_eq_false_2.
  - apply slash_neq in Hp as [Hu Hp]. cbn. case_bool_decide as Hstar.
    + induction s as [|x s IHs]; [by rewrite IH|]. pose proof Hs as [Hx Hs']%slash_neq.
      rewrite IH, IHs by done. by rewrite andb_false_r.
    + cbn. destruct s as [|x s]; [done|]. apply slash_neq in Hs as [_ Hs]. rewrite IH by done. apply andb_false_r.
Qed.

Lemma test_last p s : free s → test (pieces p) s = segment_match p s.
Proof.
  revert s. induction p as [|u p IH]; intros s Hs; [done|]. cbn. case_bool_decide as Hstar.
  - induction s as [|x s IHs]; [by rewrite IH|]. pose proof Hs as [Hx Hs']%slash_neq.
    rewrite IH, IHs by done. by rewrite (bool_decide_eq_false_2 (x = "/"%char)).
  - cbn. destruct s as [|x s]; [done|]. apply slash_neq in Hs as [_ Hs]. by rewrite IH.
Qed.

Lemma test_last_more p s t : free p → test (pieces p) (s ++ "/"%char :: t) = false.
Proof.
  intros Hp. revert s. induction p as [|u p IH]; intros s; [by destruct s|].
  apply slash_neq in Hp as [Hu Hp]. cbn. case_bool_decide as Hstar.
  - induction s as [|x s IHs].
    + cbn. change ("/"%char :: t) with ([] ++ "/"%char :: t). by rewrite IH.
    + cbn [app]. change (x :: s ++ "/"%char :: t) with ((x :: s) ++ "/"%char :: t).
      rewrite IH by done. cbn [orb]. rewrite IHs. apply andb_false_r.
  - cbn. destruct s as [|x s]; cbn; [by rewrite bool_decide_eq_false_2 by congruence|].
    rewrite IH by done. apply andb_false_r.
Qed.

(** ** Directories *)

Lemma test_directories_segment e s t :
  free s → s ≠ [] →
  test (Directories :: e) (s ++ "/"%char :: t) = test e (s ++ "/"%char :: t) || test (Directories :: e) t.
Proof.
  intros Hs Hne. destruct s as [|x s]; [done|]. apply slash_neq in Hs as [Hx Hs]. cbn.
  rewrite bool_decide_eq_false_2 by done. f_equal.
  induction s as [|y s IH]; [done|]. apply slash_neq in Hs as [Hy Hs].
  cbn. rewrite bool_decide_eq_false_2 by done. by apply IH.
Qed.

Lemma test_directories_last e s : free s → test (Directories :: e) s = test e s.
Proof.
  intros Hs. destruct s as [|x s]; cbn; [by rewrite orb_false_r|]. apply slash_neq in Hs as [Hx Hs].
  rewrite bool_decide_eq_false_2 by done. rewrite <-(orb_false_r (test e (x :: s))) at 2. f_equal.
  induction s as [|y s IH]; [done|]. apply slash_neq in Hs as [Hy Hs].
  cbn. rewrite bool_decide_eq_false_2 by done. by apply IH.
Qed.

Lemma test_anything text : Forall (λ u, line_end u = false) text → test [Anything] text = true.
Proof. intros H. induction H as [|x text Hx _ IH]; [done|]. cbn in *. by rewrite Hx, IH. Qed.

(** ** Paths *)

Lemma path_match_nil ps : ps ≠ [] → path_match ps [] = false.
Proof.
  induction ps as [|p ps IH]; [done|]. intros _. cbn. case_bool_decide; [|done].
  destruct ps; [done|]. by rewrite IH.
Qed.

Definition path_units (ss : list string) : list ascii := units (join "/" ss).

Lemma path_units_cons s ss : ss ≠ [] → path_units (s :: ss) = units s ++ "/"%char :: path_units ss.
Proof. intros Hss. unfold path_units. rewrite join_cons, units_app by done. done. Qed.

Lemma path_no_line_end ss : Forall segment_ok ss → Forall (λ u, line_end u = false) (path_units ss).
Proof.
  intros Hss. induction Hss as [|s ss (_ & _ & Hs) Hss IH]; [constructor|].
  destruct (decide (ss = [])) as [->|Hne]; [exact Hs|].
  rewrite path_units_cons by done. apply Forall_app. split; [done|]. by constructor.
Qed.

Lemma segment_free s : segment_ok s → free (units s) ∧ units s ≠ [].
Proof. intros (Hf & Hne & _). split; [exact Hf|]. by destruct s. Qed.

Lemma test_directories e rest ss :
  ss ≠ [] → Forall segment_ok ss → (∀ ss, ss ≠ [] → Forall segment_ok ss → test e (path_units ss) = path_match rest ss) →
  path_match rest [] = false →
  test (Directories :: e) (path_units ss) =
  (fix go ss := path_match rest ss || match ss with _ :: ss => go ss | [] => false end) ss.
Proof.
  intros Hne Hss He Hnil. induction ss as [|s ss IH]; [done|].
  pose proof Hss as [[Hf Hs]%segment_free Hss']%Forall_cons.
  destruct (decide (ss = [])) as [->|Hne'].
  - rewrite test_directories_last by exact Hf. rewrite He by done. rewrite Hnil. by rewrite orb_false_r.
  - rewrite path_units_cons, test_directories_segment by done.
    rewrite <-path_units_cons, He by done. by rewrite IH by done.
Qed.

Lemma compiled_match ps ss :
  ps ≠ [] → Forall (λ p, ¬ has_unit "/" p) ps → ss ≠ [] → Forall segment_ok ss →
  test (compile_segments ps) (path_units ss) = path_match ps ss.
Proof.
  revert ss. induction ps as [|p ps IH]; [done|]. intros ss _ [Hp Hps]%Forall_cons Hne Hss. cbn [compile_segments path_match].
  destruct (bool_decide_reflect (p = "**")) as [->|Hlit].
  - destruct ps as [|q ps].
    + destruct ss; [done|]. by apply test_anything, path_no_line_end.
    + apply test_directories; [done|done| |by apply path_match_nil]. intros ss' H1 H2. by apply IH.
  - destruct ss as [|s ss]; [done|]. apply Forall_cons in Hss as [Hs Hss]. apply segment_free in Hs as [Hf Hs].
    change (segment_pieces p) with (pieces (units p)).
    destruct ps as [|q ps], (decide (ss = [])) as [->|Hne'].
    + cbn [compile_segments app]. rewrite app_nil_r, test_last by exact Hf. by rewrite andb_true_r.
    + cbn [compile_segments app]. rewrite app_nil_r, path_units_cons, test_last_more by done.
      destruct ss; [done|]. by rewrite andb_false_r.
    + cbn [app]. rewrite test_segment_missing by done. by rewrite (path_match_nil (q :: ps)), andb_false_r.
    + cbn [app]. rewrite path_units_cons, test_segment by done. by rewrite IH.
Qed.

Lemma matchesPattern_segments pattern path :
  path_ok path → matchesPattern pattern path = path_match (split_on "/" (canonical pattern)) (split_on "/" path).
Proof.
  intros Hok. unfold matchesPattern, patternExpression.
  rewrite <-(join_split "/" path) at 1. apply compiled_match; [|apply split_on_free| |done].
  - by destruct (split_on_cons "/" (canonical pattern)) as (a & l & ->).
  - by destruct (split_on_cons "/" path) as (a & l & ->).
Qed.

(** A glob is decided segment by segment: on the paths a file system names, the
    regular expression a pattern compiles to accepts exactly the paths whose segments
    match the pattern's - [*] within one segment, an inner [**] for any number of
    directories (none included), a final [**] for everything below. *)
Theorem glob_matches_segments (pattern path : string) :
  path_ok path → matchesPattern pattern path = path_match (split_on "/" (canonical pattern)) (split_on "/" path).
Proof. apply matchesPattern_segments. Qed.

Lemma glob_matches_segments_witness :
  path_ok "src/a/b.ts" ∧ matchesPattern "src/**/*.ts" "src/a/b.ts" = path_match ["src"; "**"; "*.ts"] ["src"; "a"; "b.ts"].
Proof.
  assert (path_ok "src/a/b.ts") as H by (apply (bool_decide_eq_true_1 (path_ok _)); vm_compute; reflexivity).
  split; [exact H|]. exact (glob_matches_segments "src/**/*.ts" "src/a/b.ts" H).
Defined.

(** ** Overlap *)

Lemma canonical_id p : normal_slashes p → canonical p = p.
Proof. apply normalizeSlashes_id. Qed.

Lemma under_canonical root path :
  bool_decide (path = root) || starts_with (root +:+ "/") path = true → beneath root path = true.
Proof.
  unfold beneath, canonical. rewrite !orb_true_iff, !bool_decide_eq_true. intros [->|Hs]; [by left|right].
  apply starts_with_spec in Hs as [t ->]. apply starts_with_spec. exists (normalizeSlashes t).
  by rewrite !normalizeSlashes_app.
Qed.

(** Two directories of one path are one beneath the other. *)
Lemma prefixes_comparable a b s t :
  a +:+ String "/" s = b +:+ String "/" t → a = b ∨ starts_with (b +:+ "/") a = true ∨ starts_with (a +:+ "/") b = true.
Proof.
  revert b. induction a as [|x a IH]; intros [|y b] E.
  - by left.
  - right; right. rewrite app_cons_text in E. injection E as <- ->. by apply starts_with_spec; exists b.
  - right; left. rewrite app_cons_text in E. injection E as -> <-. by apply starts_with_spec; exists a.
  - rewrite !app_cons_text in E. injection E as <- E.
    destruct (IH _ E) as [->|[H|H]]; [by left|right; left|right; right];
      apply starts_with_spec in H as [r ->]; apply starts_with_spec; exists r; by rewrite !app_cons_text.
Qed.

Definition under (root path : string) : Prop := path = root ∨ ∃ s, path = root +:+ String "/" s.

Lemma under_spec root path : bool_decide (path = root) || starts_with (root +:+ "/") path = true ↔ under root path.
Proof.
  unfold under. rewrite orb_true_iff, bool_decide_eq_true, starts_with_spec. f_equiv. f_equiv. intros s.
  by rewrite string_app_assoc.
Qed.

Lemma under_comparable a b path : under a path → under b path → beneath a b = true ∨ beneath b a = true.
Proof.
  intros Ha Hb.
  assert (under a b ∨ under b a) as [H|H]; [|left; by apply under_canonical, under_spec|right; by apply under_canonical, under_spec].
  destruct Ha as [->|[s ->]]; [by right|]. destruct Hb as [<-|[t E]]; [left; right; by exists s|].
  destruct (prefixes_comparable _ _ _ _ E) as [->|[H|H]].
  - by left; left.
  - right. apply under_spec. by rewrite H, orb_true_r.
  - left. apply under_spec. by rewrite H, orb_true_r.
Qed.

Lemma covered_overlap l r path :
  normal_slashes path → declaredCovers l path = true → declaredCovers r path = true → overlaps l r = true.
Proof.
  intros Hn. destruct l as [p|g|t], r as [q|h|u]; cbn; try done.
  - rewrite !bool_decide_eq_true. by intros -> ->.
  - rewrite bool_decide_eq_true. intros -> Hg. by rewrite canonical_id.
  - rewrite bool_decide_eq_true. intros ->. apply under_canonical.
  - rewrite (bool_decide_eq_true (q = path)). intros Hg ->. by rewrite canonical_id.
  - rewrite (bool_decide_eq_true (q = path)). intros Ht ->. by apply under_canonical.
  - intros Ht Hu. apply orb_true_iff. apply (under_comparable t u path); by apply under_spec.
Qed.

(** C29. [overlaps] never misses a path that two declarations both cover as the
    measurement of a step reads them - exactly, by a glob with its exclusions, or
    beneath a tree - provided the measured path is in canonical form, without
    backslashes ([backslash_path_overlaps] is one that is not): if the test calls
    them disjoint and one covers the path, the other does not. The workspace sandbox
    reads a star in an exact path as a glob, which the test does not; for that
    reading it is not sound ([sandbox_coverage_overlaps]). *)
Theorem overlaps_sound (l r : Entry) (path : string) :
  normal_slashes path → overlaps l r = false → declaredCovers l path = true → declaredCovers r path = false.
Proof.
  intros Hn Ho Hl. destruct (declaredCovers r path) eqn:Hr; [|done].
  rewrite (covered_overlap l r path) in Ho by done. done.
Qed.

Lemma overlaps_sound_witness :
  declaredCovers (ETree "dist") "dist/a.js" = true ∧ declaredCovers (EPath "distribution/a.js") "dist/a.js" = false.
Proof.
  split; [reflexivity|].
  apply (overlaps_sound (ETree "dist") (EPath "distribution/a.js") "dist/a.js"); [|reflexivity..].
  apply (bool_decide_eq_true_1 (¬ has_unit _ _)). vm_compute. reflexivity.
Defined.

Lemma overlaps_comm l r : overlaps l r = overlaps r l.
Proof.
  destruct l, r; cbn; try done; [by apply bool_decide_ext|by apply orb_comm].
Qed.

(** The workspace sandbox reads a star in a declared path as a glob, which the test
    does not: two declarations it calls disjoint both cover one path there. *)
Theorem sandbox_coverage_overlaps :
  overlaps (EPath "dist/*.js") (EPath "dist/a.js") = false ∧
  covers (EPath "dist/*.js") "dist/a.js" = true ∧ covers (EPath "dist/a.js") "dist/a.js" = true.
Proof. vm_compute. done. Qed.

(** A measured path with a backslash inside a segment escapes the test as well. *)
Theorem backslash_path_overlaps :
  overlaps (EPath "a\b") (EGlob (mkGlob ["a*"] None)) = false ∧
  declaredCovers (EPath "a\b") "a\b" = true ∧ declaredCovers (EGlob (mkGlob ["a*"] None)) "a\b" = true.
Proof. vm_compute. done. Qed.
