(* ===== verification/Canonical.v ===== *)
(** * Canonical JSON ([canonical/src/internal/canonicalize.ts])

    RFC 8785 serialization of a value: members sorted by code units, members without a
    value dropped, elements without one written [null], and the values JSON cannot
    write refused.  Texts are lists of UTF-16 code units.  A value is a tree: objects
    with a [toJSON] method and cyclic objects are not modelled, and finite numbers are
    integers. *)

From S2P Require Import Prelude.
#[local] Open Scope N_scope.

Definition text : Type := list N.

Inductive Num :=
| Finite (n : Z)
| NaN
| Infinite.

#[warnings="-register-all"]
Inductive Value : Type :=
| VUndefined
| VNull
| VBool (b : bool)
| VNum (n : Num)
| VText (t : text)
| VArr (l : list Value)
| VObj (fields : list (text * Value)).

Inductive SerializeError :=
| NaNNotAllowed
| InfinityNotAllowed
| LoneSurrogate.

Notation Ser A := (SerializeError + A)%type.

Definition of_string (s : string) : text := N_of_ascii <$> String.list_ascii_of_string s.

(** ** Strings *)

Definition high_surrogate (u : N) : bool := (55296 <=? u) && (u <=? 56319).
Definition low_surrogate (u : N) : bool := (56320 <=? u) && (u <=? 57343).

Fixpoint well_formed (t : text) : bool :=
  match t with
  | [] => true
  | u :: rest =>
      if high_surrogate u
      then match rest with next :: rest => low_surrogate next && well_formed rest | [] => false end
      else negb (low_surrogate u) && well_formed rest
  end.

Definition assertWellFormed (t : text) : Ser text := if well_formed t then inr t else inl LoneSurrogate.

Definition hex (n : N) : N := if n <? 10 then 48 + n else 87 + n.

(** [JSON.stringify] of a well-formed string. *)
Definition escape (u : N) : text :=
  if u =? 34 then [92; 34] else if u =? 92 then [92; 92]
  else if u =? 8 then [92; 98] else if u =? 12 then [92; 102] else if u =? 10 then [92; 110]
  else if u =? 13 then [92; 114] else if u =? 9 then [92; 116]
  else if u <? 32 then [92; 117; 48; 48; hex (u / 16); hex (u mod 16)]
  else [u].

Definition quote (t : text) : text := 34 :: flat_map escape t ++ [34].

(** [Array.prototype.sort] of strings: by code units. *)
Fixpoint text_le (a b : text) : bool :=
  match a, b with
  | [], _ => true
  | _ :: _, [] => false
  | x :: a, y :: b => (x <? y) || (x =? y) && text_le a b
  end.

Definition key_le {A} (a b : text * A) : Prop := text_le (fst a) (fst b) = true.
#[export] Instance key_le_dec {A} : RelDecision (@key_le A).
Proof. intros a b. unfold key_le. apply _. Defined.

Definition sort_members {A} : list (text * A) → list (text * A) := merge_sort key_le.

(** ** Serialization *)

Definition number_text (n : Z) : text := of_string (pretty n).

Fixpoint commas (l : list text) : text :=
  match l with
  | [] => []
  | [x] => x
  | x :: l => x ++ 44 :: commas l
  end.

(** The first failure of a list of results, in order. *)
Fixpoint sequence {A} (l : list (Ser A)) : Ser (list A) :=
  match l with
  | [] => inr []
  | inl e :: _ => inl e
  | inr x :: l => match sequence l with inr xs => inr (x :: xs) | inl e => inl e end
  end.

(** What a value contributes: [None] is the [undefined] of [JSON.stringify]. *)
Fixpoint serialize (v : Value) : Ser (option text) :=
  match v with
  | VUndefined => inr None
  | VNull => inr (Some (of_string "null"))
  | VBool b => inr (Some (of_string (if b then "true" else "false")))
  | VNum NaN => inl NaNNotAllowed
  | VNum Infinite => inl InfinityNotAllowed
  | VNum (Finite n) => inr (Some (number_text n))
  | VText t => match assertWellFormed t with inr t => inr (Some (quote t)) | inl e => inl e end
  | VArr l =>
      match sequence (List.map (λ item, match serialize item with
                                        | inr o => inr (default (of_string "null") o)
                                        | inl e => inl e
                                        end) l) with
      | inr items => inr (Some (91 :: commas items ++ [93]))
      | inl e => inl e
      end
  | VObj fields =>
      let members := List.map (λ kv, (fst kv, serialize (snd kv))) fields in
      let present := List.filter (λ m, match snd m with inr None => false | _ => true end) (sort_members members) in
      match sequence (List.map (λ m, match assertWellFormed (fst m) with
                                     | inl e => inl e
                                     | inr key => match snd m with
                                                  | inl e => inl e
                                                  | inr o => inr (quote key ++ 58 :: default [] o)
                                                  end
                                     end) present) with
      | inr members => inr (Some (123 :: commas members ++ [125]))
      | inl e => inl e
      end
  end.

Definition canonicalize (v : Value) : Ser (option text) := serialize v.

(** The text with single quotation marks, to read examples. *)
Definition show (r : Ser (option text)) : option string :=
  match r with
  | inr (Some t) => Some (String.string_of_list_ascii ((λ u, ascii_of_N (if u =? 34 then 39 else u)) <$> t))
  | _ => None
  end.

Example canonical_example :
  show (canonicalize (VObj [(of_string "b", VArr [VNum (Finite (-3)); VUndefined]); (of_string "a", VText [120; 10]);
                            (of_string "c", VUndefined)])) = Some "{'a':'x\n','b':[-3,null]}"%string.
Proof. vm_compute. reflexivity. Qed.
