(* ===== verification/CanonicalProps.v ===== *)
(** * Canonical JSON decides equality of values

    [print] writes a normal value; its texts are uniquely readable, so two values have
    one canonical text exactly when they are equal up to member order and the members
    and elements that have no value. *)

From S2P Require Import Prelude Canonical.
#[local] Open Scope N_scope.

(** ** Induction on values *)

Definition value_ind' (P : Value → Prop)
    (HU : P VUndefined) (HN : P VNull) (HB : ∀ b, P (VBool b)) (HM : ∀ n, P (VNum n)) (HT : ∀ t, P (VText t))
    (HA : ∀ l, Forall P l → P (VArr l)) (HO : ∀ fs, Forall (λ kv, P (snd kv)) fs → P (VObj fs)) : ∀ v, P v :=
  fix go v := match v with
  | VUndefined => HU | VNull => HN | VBool b => HB b | VNum n => HM n | VText t => HT t
  | VArr l => HA l ((fix each l := match l return Forall P l with
                                   | [] => Forall_nil_2 _ | x :: l => Forall_cons_2 _ _ _ (go x) (each l) end) l)
  | VObj fs => HO fs ((fix each fs := match fs return Forall (λ kv, P (snd kv)) fs with
                                      | [] => Forall_nil_2 _ | x :: fs => Forall_cons_2 _ _ _ (go (snd x)) (each fs) end) fs)
  end.

(** ** Normal values *)

Definition defined (v : Value) : bool := match v with VUndefined => false | _ => true end.

Fixpoint normal (v : Value) : Value :=
  match v with
  | VArr l => VArr (List.map (λ x, if defined x then normal x else VNull) l)
  | VObj fs => VObj (List.filter (λ kv, defined (snd kv)) (sort_members (List.map (λ kv, (fst kv, normal (snd kv))) fs)))
  | v => v
  end.

(** The text of a normal value. *)
Fixpoint print (v : Value) : text :=
  match v with
  | VNull => of_string "null"
  | VBool b => of_string (if b then "true" else "false")
  | VNum (Finite n) => number_text n
  | VText t => quote t
  | VArr l => 91 :: commas (List.map print l) ++ [93]
  | VObj fs => 123 :: commas (List.map (λ kv, quote (fst kv) ++ 58 :: print (snd kv)) fs) ++ [125]
  | _ => []
  end.

(** Values JSON can write: no number without a decimal form. *)
Fixpoint printable (v : Value) : bool :=
  match v with
  | VUndefined => false
  | VNum (Finite _) => true
  | VNum _ => false
  | VArr l => forallb printable l
  | VObj fs => forallb (λ kv, printable (snd kv)) fs
  | _ => true
  end.

(** ** Reading strings back *)

Definition unhex (u : N) : N := if u <? 58 then u - 48 else u - 87.

Definition unescaped (c : N) : N :=
  if c =? 98 then 8 else if c =? 102 then 12 else if c =? 110 then 10
  else if c =? 114 then 13 else if c =? 116 then 9 else c.

Definition unescape (t : text) : option (N * text) :=
  match t with
  | [] => None
  | u :: rest =>
      if u =? 34 then None
      else if u =? 92
      then match rest with
           | [] => None
           | c :: rest =>
               if c =? 117 then match rest with _ :: _ :: a :: b :: rest => Some (16 * unhex a + unhex b, rest) | _ => None end
               else Some (unescaped c, rest)
           end
      else Some (u, rest)
  end.

Lemma small_cases (P : N → Prop) (n : nat) :
  Forall P (N.of_nat <$> List.seq 0 n) → ∀ u, u < N.of_nat n → P u.
Proof.
  intros HP u Hu. rewrite Forall_forall in HP. apply HP, list_elem_of_fmap.
  exists (N.to_nat u). split; [lia|]. apply elem_of_seq. lia.
Qed.

Lemma escape_plain u : 93 ≤ u → escape u = [u].
Proof.
  intros Hu. unfold escape. repeat (rewrite (proj2 (N.eqb_neq _ _)) by lia).
  by rewrite (proj2 (N.ltb_ge _ _)) by lia.
Qed.

Lemma unescape_escape u rest : unescape (escape u ++ rest) = Some (u, rest).
Proof.
  destruct (N.lt_ge_cases u 93) as [Hu|Hu].
  - revert rest. revert u Hu. apply (small_cases (λ u, ∀ rest, unescape (escape u ++ rest) = Some (u, rest)) 93).
    cbn [List.seq fmap list_fmap]. repeat (constructor; [reflexivity|]). constructor.
  - rewrite escape_plain by done. cbn. by repeat (rewrite (proj2 (N.eqb_neq _ _)) by lia).
Qed.

Lemma quote_read t1 t2 r1 r2 :
  flat_map escape t1 ++ 34 :: r1 = flat_map escape t2 ++ 34 :: r2 → t1 = t2 ∧ r1 = r2.
Proof.
  revert t2. induction t1 as [|u1 t1 IH]; intros [|u2 t2] E.
  - by injection E as ->.
  - apply (f_equal unescape) in E. cbn [flat_map] in E. rewrite <-app_assoc, unescape_escape in E. done.
  - apply (f_equal unescape) in E. cbn [flat_map] in E. rewrite <-app_assoc, unescape_escape in E. done.
  - cbn [flat_map] in E. rewrite <-!app_assoc in E. pose proof (f_equal unescape E) as Eu.
    rewrite !unescape_escape in Eu. injection Eu as -> Eu. by destruct (IH _ Eu) as [-> ->].
Qed.

Lemma quote_inj t1 t2 r1 r2 : quote t1 ++ r1 = quote t2 ++ r2 → t1 = t2 ∧ r1 = r2.
Proof. unfold quote. cbn. rewrite <-!app_assoc. intros [= E]. by apply quote_read. Qed.

(** ** Reading numbers back *)

(** The units that may follow a value: the end, a comma or a closing bracket. *)
Definition stops (r : text) : Prop := match r with [] => True | u :: _ => u = 44 ∨ u = 93 ∨ u = 125 end.

Definition numeral (u : N) : bool := (u =? 45) || (48 <=? u) && (u <=? 57).

Lemma span_inj (p : N → bool) a b r s :
  Forall (λ u, p u = true) a → Forall (λ u, p u = true) b →
  (∀ u r', r = u :: r' → p u = false) → (∀ u s', s = u :: s' → p u = false) → a ++ r = b ++ s → a = b ∧ r = s.
Proof.
  intros Ha. revert b. induction Ha as [|u a Hu Ha IH]; intros b Hb Hr Hs E; destruct Hb as [|v b Hv Hb]; cbn in E.
  - done.
  - rewrite (Hr _ _ E) in Hv. done.
  - rewrite (Hs u (a ++ r)) in Hu by done. done.
  - injection E as -> E. by destruct (IH _ Hb Hr Hs E) as [-> ->].
Qed.

Lemma stops_numeral r : stops r → ∀ u r', r = u :: r' → numeral u = false.
Proof. by intros Hr u r' ->; destruct Hr as [->|[->| ->]]. Qed.

Lemma digit_numeral x : numeral (N_of_ascii (pretty_N_char x)) = true.
Proof. unfold pretty_N_char. by repeat (match goal with |- context [match ?p with _ => _ end] => destruct p end). Qed.

Lemma pretty_numerals x s :
  Forall (λ u, numeral u = true) (of_string s) → Forall (λ u, numeral u = true) (of_string (pretty_N_go x s)).
Proof.
  revert s. induction (N.lt_wf_0 x) as [x _ IH]; intros s Hs.
  destruct (decide (x = 0)) as [->|Hx]; [by rewrite pretty_N_go_0|].
  rewrite pretty_N_go_step by lia. apply IH; [apply N.div_lt; lia|].
  constructor; [apply digit_numeral|done].
Qed.

Lemma N_numerals (n : N) : Forall (λ u, numeral u = true) (of_string (pretty n)).
Proof.
  unfold pretty, pretty_N. case_decide; [by repeat constructor|]. by apply pretty_numerals.
Qed.

Lemma Z_numerals (n : Z) : Forall (λ u, numeral u = true) (number_text n).
Proof.
  unfold number_text. destruct n as [|p|p]; [by repeat constructor|apply (N_numerals (Npos p))|].
  constructor; [done|apply (N_numerals (Npos p))].
Qed.

Lemma of_string_inj s t : of_string s = of_string t → s = t.
Proof.
  revert t. induction s as [|a s IH]; intros [|b t] E; try done. unfold of_string in E. cbn in E.
  injection E as E1 E2. f_equal; [|by apply IH]. by rewrite <-(ascii_N_embedding a), E1, ascii_N_embedding.
Qed.

Lemma number_inj n m r s : stops r → stops s → number_text n ++ r = number_text m ++ s → n = m ∧ r = s.
Proof.
  intros Hr Hs E. apply span_inj with (p := numeral) in E; [|apply Z_numerals..|by apply stops_numeral|by apply stops_numeral].
  destruct E as [E ->]. split; [|done]. by apply of_string_inj, (inj pretty) in E.
Qed.

(** ** Reading values back *)

(** The first unit of a text tells the kind of value it is. *)
Definition unit_class (u : N) : nat :=
  if numeral u then 1 else if u =? 110 then 2 else if u =? 116 then 3 else if u =? 102 then 4
  else if u =? 34 then 5 else if u =? 91 then 6 else if u =? 123 then 7 else 0.

Definition value_class (v : Value) : nat :=
  match v with
  | VUndefined => 0 | VNum _ => 1 | VNull => 2 | VBool true => 3 | VBool false => 4
  | VText _ => 5 | VArr _ => 6 | VObj _ => 7
  end.

Lemma pretty_go_grows x s : (String.length s ≤ String.length (pretty_N_go x s))%nat.
Proof.
  revert s. induction (N.lt_wf_0 x) as [x _ IH]; intros s.
  destruct (decide (x = 0)) as [->|]; [by rewrite pretty_N_go_0|].
  rewrite pretty_N_go_step by lia. etransitivity; [|apply IH, N.div_lt; lia]. cbn. lia.
Qed.

Lemma N_text_length (n : N) : (1 ≤ String.length (pretty n))%nat.
Proof.
  unfold pretty, pretty_N. case_decide; [cbn; lia|]. rewrite pretty_N_go_step by lia.
  etransitivity; [|apply pretty_go_grows]. cbn. lia.
Qed.

Lemma number_head n : ∃ u t, number_text n = u :: t ∧ numeral u = true.
Proof.
  pose proof (Z_numerals n) as Hn. unfold number_text in *.
  assert (1 ≤ String.length (pretty n))%nat as Hl.
  { destruct n as [|p|p]; [cbn; lia|apply (N_text_length (Npos p))|].
    change (1 ≤ S (String.length (pretty (Npos p))))%nat. lia. }
  destruct (pretty n) as [|c s]; [cbn in Hl; lia|]. apply Forall_cons in Hn as [Hc _].
  by exists (N_of_ascii c), (of_string s).
Qed.

Lemma print_head v : printable v = true → ∃ u t, print v = u :: t ∧ unit_class u = value_class v.
Proof.
  destruct v as [| |[]|[n| |]|t|l|fs]; try done; intros _; try (eexists _, _; split; [reflexivity|done]).
  cbn [print]. destruct (number_head n) as (u & t & -> & Hu). exists u, t. split; [done|]. unfold unit_class. by rewrite Hu.
Qed.

Lemma stops_class u r : stops (u :: r) → unit_class u = 0%nat.
Proof. by intros [->|[->| ->]]. Qed.

(** *** Sequences *)

Definition items_tail (c : N) (l : list text) (r : text) : text :=
  match l with [] => c :: r | _ => 44 :: commas l ++ c :: r end.

Lemma commas_cons c x l r : commas (x :: l) ++ c :: r = x ++ items_tail c l r.
Proof. destruct l as [|y l]; [done|]. cbn [commas items_tail]. by rewrite <-app_assoc. Qed.

Lemma items_tail_stops c l r : c = 93 ∨ c = 125 → stops (items_tail c l r).
Proof. intros [->| ->]; destruct l; cbn; auto. Qed.

(** Elements that can be read in front of a stop make readable sequences. *)
Lemma commas_inj {A} (f : A → text) (ok : A → Prop) c l1 l2 r1 r2 :
  c = 93 ∨ c = 125 →
  Forall (λ x, ∀ y s1 s2, ok y → stops s1 → stops s2 → f x ++ s1 = f y ++ s2 → x = y ∧ s1 = s2) l1 →
  (∀ x, ok x → ∃ u t, f x = u :: t ∧ unit_class u ≠ 0%nat) →
  Forall ok l1 → Forall ok l2 →
  commas (List.map f l1) ++ c :: r1 = commas (List.map f l2) ++ c :: r2 → l1 = l2 ∧ r1 = r2.
Proof.
  intros Hc Hread Hhead. revert l2.
  assert (∀ x l r, ok x → c :: r = commas (List.map f (x :: l)) ++ c :: r2 → False) as Hend.
  { intros x l r Hx E. cbn [List.map] in E. rewrite commas_cons in E.
    destruct (Hhead x Hx) as (u & t & Ef & Hu). rewrite Ef in E. injection E as <- _.
    by destruct Hc as [->| ->]. }
  revert r1. induction l1 as [|x l1 IH]; intros r1 l2 H1 H2 E.
  - destruct l2 as [|y l2]; [by injection E as ->|]. apply Forall_cons in H2 as [Hy _]. by destruct (Hend _ _ _ Hy E).
  - apply Forall_cons in H1 as [Hx H1]. apply Forall_cons in Hread as [Hrx Hread].
    destruct l2 as [|y l2].
    + exfalso. cbn [List.map] in E. rewrite commas_cons in E.
      destruct (Hhead x Hx) as (u & t & Ef & Hu). rewrite Ef in E. injection E as -> _. by destruct Hc as [->| ->].
    + apply Forall_cons in H2 as [Hy H2]. cbn [List.map] in E. rewrite !commas_cons in E.
      apply Hrx in E as [-> E]; [|done|by apply items_tail_stops..].
      destruct l1 as [|x' l1], l2 as [|y' l2]; cbn [List.map items_tail] in E.
      * by injection E as ->.
      * injection E as -> _. by destruct Hc.
      * injection E as <- _. by destruct Hc.
      * injection E as E. destruct (IH Hread r1 (y' :: l2) H1 H2 E) as [-> ->]. done.
Qed.

Lemma forallb_all {A} (p : A → bool) l : forallb p l = true → Forall (λ x, p x = true) l.
Proof. rewrite forallb_forall, Forall_forall. intros H x Hx. by apply H, list_elem_of_In. Qed.

Lemma print_inj v1 : ∀ v2 r1 r2,
  printable v1 = true → printable v2 = true → stops r1 → stops r2 → print v1 ++ r1 = print v2 ++ r2 → v1 = v2 ∧ r1 = r2.
Proof.
  induction v1 as [| |b|n|t|l IH|fs IH] using value_ind'; intros v2 r1 r2 P1 P2 S1 S2 E.
  all: assert (value_class v2 = unit_class (default 0 (head (print v2 ++ r2)))) as Hclass
    by (destruct (print_head v2 P2) as (u & t' & -> & <-); done).
  all: rewrite <-E in Hclass.
  - done.
  - destruct v2 as [| |[]|?|?|?|?]; try done. by injection E as ->.
  - destruct b, v2 as [| |[]|?|?|?|?]; try done; by injection E as ->.
  - destruct n as [n| |]; try done. cbn [print] in Hclass. destruct (number_head n) as (u & t' & Hn & Hu).
    rewrite Hn in Hclass. cbn in Hclass. unfold unit_class in Hclass. rewrite Hu in Hclass.
    destruct v2 as [| |[]|[m| |]|?|?|?]; try done. by destruct (number_inj n m r1 r2) as [-> ->].
  - destruct v2 as [| |[]|?|t2|?|?]; try done. by destruct (quote_inj t t2 r1 r2) as [-> ->].
  - destruct v2 as [| |[]|?|?|l2|?]; try done. cbn [print app] in E. injection E as E. rewrite <-!app_assoc in E.
    destruct (commas_inj print (λ v, printable v = true) 93 l l2 r1 r2) as [-> ->]; auto.
    + rewrite Forall_forall in IH |- *. cbn in P1. rewrite forallb_forall in P1.
      intros x Hx y s1 s2 Py Q1 Q2 Exy. apply (IH x Hx y s1 s2); [|done..]. by apply P1, list_elem_of_In.
    + intros x Px. destruct (print_head x Px) as (u & t & Ex & Hu). exists u, t. split; [done|].
      rewrite Hu. by destruct x as [| |[]|?|?|?|?].
    + by apply forallb_all.
    + by apply forallb_all.
  - destruct v2 as [| |[]|?|?|?|fs2]; try done. cbn [print app] in E. injection E as E. rewrite <-!app_assoc in E.
    destruct (commas_inj (λ kv : text * Value, quote (fst kv) ++ 58 :: print (snd kv)) (λ kv, printable (snd kv) = true) 125 fs fs2 r1 r2)
      as [-> ->]; auto.
    + rewrite Forall_forall in IH |- *. cbn in P1. rewrite forallb_forall in P1.
      intros [k x] Hx [k' y] s1 s2 Py Q1 Q2 Exy. cbn [fst snd] in *. rewrite <-!app_assoc in Exy.
      apply quote_inj in Exy as [-> Exy]. injection Exy as Exy.
      destruct (IH (k', x) Hx y s1 s2) as [Exy' ->]; [by apply (P1 (k', x)), list_elem_of_In|done..|]. cbn in Exy'. by subst.
    + intros [k x] _. eexists 34, _. split; [reflexivity|done].
    + by apply (forallb_all (λ kv, printable (snd kv))).
    + by apply (forallb_all (λ kv, printable (snd kv))).
Qed.

(** ** Sorting commutes with maps that keep the keys *)

Section SortMap.

Context {A B : Type} (RA : relation A) (RB : relation B) `{!RelDecision RA, !RelDecision RB} (f : A → B).
Hypothesis same_order : ∀ x y, RB (f x) (f y) ↔ RA x y.

Lemma list_merge_map l1 l2 : list_merge RB (f <$> l1) (f <$> l2) = f <$> list_merge RA l1 l2.
Proof.
  revert l2. induction l1 as [|x l1 IH1]; intros l2; [by destruct l2|].
  induction l2 as [|y l2 IH2]; [done|]. cbn.
  destruct (decide_rel RA x y) as [H|H], (decide_rel RB (f x) (f y)) as [H'|H'].
  - exact (f_equal (cons (f x)) (IH1 (y :: l2))).
  - by destruct H'; apply same_order.
  - by destruct H; apply same_order.
  - exact (f_equal (cons (f y)) IH2).
Qed.

Definition map_stack (st : list (option (list A))) : list (option (list B)) := List.map (option_map (List.map f)) st.

Lemma merge_list_to_stack_map st l :
  merge_list_to_stack RB (map_stack st) (f <$> l) = map_stack (merge_list_to_stack RA st l).
Proof.
  revert l. induction st as [|[l'|] st IH]; intros l; [done| |done]. cbn. rewrite list_merge_map. by rewrite <-IH.
Qed.

Lemma merge_stack_map st : merge_stack RB (map_stack st) = f <$> merge_stack RA st.
Proof. induction st as [|[l|] st IH]; [done| |done]. cbn. by rewrite <-list_merge_map, <-IH. Qed.

Lemma merge_sort_map l : merge_sort RB (f <$> l) = f <$> merge_sort RA l.
Proof.
  unfold merge_sort. change (@nil (option (list B))) with (map_stack []). generalize (@nil (option (list A))).
  induction l as [|x l IH]; intros st; [apply merge_stack_map|]. cbn.
  rewrite <-(IH (merge_list_to_stack RA st [x])). by rewrite <-merge_list_to_stack_map.
Qed.

End SortMap.

Lemma sort_members_map {A B} (f : A → B) (l : list (text * A)) :
  sort_members (List.map (λ kv, (fst kv, f (snd kv))) l) = List.map (λ kv, (fst kv, f (snd kv))) (sort_members l).
Proof. apply merge_sort_map. by intros [] []. Qed.

(** ** Members in order *)

Lemma text_le_refl a : text_le a a = true.
Proof. induction a as [|x a IH]; [done|]. cbn. by rewrite N.eqb_refl, IH, orb_true_r. Qed.

Lemma text_le_total a b : text_le a b = true ∨ text_le b a = true.
Proof.
  revert b. induction a as [|x a IH]; intros [|y b]; [by left|by left|by right|]. cbn.
  destruct (N.lt_trichotomy x y) as [H|[->|H]].
  - left. apply N.ltb_lt in H. by rewrite H.
  - rewrite N.eqb_refl, !N.ltb_irrefl. apply IH.
  - right. apply N.ltb_lt in H. by rewrite H.
Qed.

Lemma text_le_cons x a y b : text_le (x :: a) (y :: b) = true ↔ x < y ∨ x = y ∧ text_le a b = true.
Proof. cbn. by rewrite orb_true_iff, andb_true_iff, N.ltb_lt, N.eqb_eq. Qed.

Lemma text_le_trans a b c : text_le a b = true → text_le b c = true → text_le a c = true.
Proof.
  revert b c. induction a as [|x a IH]; intros [|y b] [|z c]; [done..|]. rewrite !text_le_cons.
  intros [H1|[-> H1]] [H2|[-> H2]]; [left; lia|by left|by left|right]. split; [done|]. by eapply IH.
Qed.

Lemma text_le_antisym a b : text_le a b = true → text_le b a = true → a = b.
Proof.
  revert b. induction a as [|x a IH]; intros [|y b]; [done..|]. rewrite !text_le_cons.
  intros [H1|[-> H1]] [H2|[? H2]]; [lia|lia|lia|]. f_equal. by apply IH.
Qed.

#[export] Instance key_le_total {A} : Total (@key_le A).
Proof. intros a b. apply text_le_total. Qed.
#[export] Instance key_le_trans {A} : Transitive (@key_le A).
Proof. intros a b c. apply text_le_trans. Qed.

Lemma sort_members_permutation {A} (l1 l2 : list (text * A)) :
  NoDup (fst <$> l1) → l1 ≡ₚ l2 → sort_members l1 = sort_members l2.
Proof.
  intros Hd Hp. unfold sort_members.
  apply (StronglySorted_unique_strong key_le).
  - intros [k x] [k' y]. unfold key_le. rewrite !merge_sort_Permutation. intros H1 H2 L1 L2.
    rewrite <-Hp in H2. pose proof (text_le_antisym k k' L1 L2) as ->.
    by apply (NoDup_key_inj fst l1).
  - apply (StronglySorted_merge_sort _).
  - apply (StronglySorted_merge_sort _).
  - by rewrite !merge_sort_Permutation.
Qed.

(** ** Serialization prints the normal value *)

Lemma sequence_inr {A} (l : list (Ser A)) xs : sequence l = inr xs ↔ l = inr <$> xs.
Proof.
  revert xs. induction l as [|[e|x] l IH]; intros xs; cbn.
  - split; [by intros [= <-]|]. by destruct xs.
  - split; [done|]. by destruct xs.
  - destruct (sequence l) as [e|ys]; split.
    + done.
    + destruct xs as [|y xs]; [done|]. intros [= -> E]. by apply IH in E.
    + intros [= <-]. cbn. f_equal. by apply IH.
    + destruct xs as [|y xs]; [done|]. intros [= -> E]. apply IH in E. by injection E as ->.
Qed.

Lemma map_inr_eq {A B} (g : A → Ser B) (h : A → B) (l : list A) xs :
  (∀ x y, x ∈ l → g x = inr y → y = h x) → List.map g l = inr <$> xs → xs = List.map h l.
Proof.
  revert xs. induction l as [|x l IH]; intros [|y xs] Hg E; [done..|]. injection E as E1 E2. cbn.
  rewrite (Hg x y); [|by left|done]. f_equal. apply IH; [|done]. intros z w Hz. apply Hg. by right.
Qed.

Lemma map_inr_all {A B} (g : A → Ser B) (l : list A) xs x :
  List.map g l = inr <$> xs → x ∈ l → ∃ y, g x = inr y.
Proof.
  revert xs. induction l as [|z l IH]; intros [|y xs] E; try done; [by intros ?%not_elem_of_nil|].
  injection E as E1 E2. intros [->|Hx]%elem_of_cons; [by exists y|]. by eapply IH.
Qed.

Lemma filter_map {A B} (p : B → bool) (q : A → bool) (f : A → B) l :
  (∀ x, p (f x) = q x) → List.filter p (List.map f l) = List.map f (List.filter q l).
Proof. intros H. induction l as [|x l IH]; [done|]. cbn. rewrite H, IH. by destruct (q x). Qed.

Lemma defined_normal v : defined (normal v) = defined v.
Proof. by destruct v. Qed.

Lemma serialize_undefined v : match serialize v with inr None => false | _ => true end = defined v.
Proof.
  destruct v as [| |b|[n| |]|t|l|fs]; try done; cbn [serialize defined].
  - by destruct (assertWellFormed t).
  - by destruct (sequence _).
  - by destruct (sequence _).
Qed.

Definition item_normal (x : Value) : Value := if defined x then normal x else VNull.

(** The members that are written, in order. *)
Definition present (fs : list (text * Value)) : list (text * Value) :=
  List.filter (λ kv, defined (snd kv)) (sort_members fs).

Lemma present_in fs kv : kv ∈ present fs → kv ∈ fs ∧ defined (snd kv) = true.
Proof. unfold present, sort_members. rewrite elem_of_filter_b, merge_sort_Permutation. done. Qed.

Lemma normal_members fs : normal (VObj fs) = VObj (List.map (λ kv, (fst kv, normal (snd kv))) (present fs)).
Proof.
  cbn [normal]. f_equal. rewrite sort_members_map. apply filter_map. intros kv. apply defined_normal.
Qed.

Definition item_text (x : Value) : Ser text :=
  match serialize x with inr o => inr (default (of_string "null") o) | inl e => inl e end.

Definition member_text (kv : text * Value) : Ser text :=
  match assertWellFormed (fst kv) with
  | inl e => inl e
  | inr key => match serialize (snd kv) with inl e => inl e | inr o => inr (quote key ++ 58 :: default [] o) end
  end.

Lemma serialize_array l :
  serialize (VArr l) = match sequence (List.map item_text l) with
                       | inr items => inr (Some (91 :: commas items ++ [93])) | inl e => inl e end.
Proof. done. Qed.

Lemma serialize_object fs :
  serialize (VObj fs) = match sequence (List.map member_text (present fs)) with
                        | inr members => inr (Some (123 :: commas members ++ [125])) | inl e => inl e end.
Proof.
  cbn [serialize]. rewrite sort_members_map.
  rewrite (filter_map _ (λ kv, defined (snd kv))) by (intros kv; apply serialize_undefined).
  by rewrite List.map_map.
Qed.

Lemma well_formed_key t k : assertWellFormed t = inr k → k = t.
Proof. unfold assertWellFormed. by destruct (well_formed t); intros [= <-]. Qed.

Lemma serialize_normal v : ∀ o, serialize v = inr o →
  o = (if defined v then Some (print (normal v)) else None) ∧ (defined v = true → printable (normal v) = true).
Proof.
  induction v as [| |b|n|t|l IH|fs IH] using value_ind'; intros o E.
  - by injection E as <-.
  - by injection E as <-.
  - by injection E as <-.
  - destruct n; try done. by injection E as <-.
  - cbn in E. destruct (assertWellFormed t) as [e|k] eqn:Ek; [done|]. injection E as <-. by apply well_formed_key in Ek as ->.
  - rewrite serialize_array in E. destruct (sequence _) as [e|items] eqn:Es; [done|]. injection E as <-.
    apply sequence_inr in Es. rewrite Forall_forall in IH.
    assert (∀ x y, x ∈ l → item_text x = inr y → y = print (item_normal x) ∧ printable (item_normal x) = true) as Hitem.
    { intros x y Hx Ey. unfold item_text in Ey. destruct (serialize x) as [|ox] eqn:Ex; [done|].
      injection Ey as <-. destruct (IH x Hx ox Ex) as [-> Hp]. unfold item_normal.
      destruct (defined x); [|done]. split; [done|by apply Hp]. }
    cbn [defined normal print printable]. fold (List.map item_normal l).
    split.
    + intros. rewrite (map_inr_eq _ (λ x, print (item_normal x)) _ _ (λ x y Hx Ey, proj1 (Hitem x y Hx Ey)) Es).
      by rewrite List.map_map.
    + intros _. apply forallb_forall. intros x (y & <- & Hy)%in_map_iff. apply list_elem_of_In in Hy.
      destruct (map_inr_all _ _ _ _ Es Hy) as [z Hz]. by apply (Hitem y z).
  - rewrite serialize_object in E. destruct (sequence _) as [e|members] eqn:Es; [done|]. injection E as <-.
    apply sequence_inr in Es. rewrite Forall_forall in IH. rewrite normal_members.
    assert (∀ kv y, kv ∈ present fs → member_text kv = inr y →
      y = quote (fst kv) ++ 58 :: print (normal (snd kv)) ∧ printable (normal (snd kv)) = true) as Hmember.
    { intros kv y Hkv Ey. apply present_in in Hkv as [Hin Hd]. unfold member_text in Ey.
      destruct (assertWellFormed (fst kv)) as [|k] eqn:Ek; [done|]. apply well_formed_key in Ek as ->.
      destruct (serialize (snd kv)) as [|ox] eqn:Ex; [done|]. injection Ey as <-.
      destruct (IH kv Hin ox Ex) as [-> Hp]. rewrite Hd. split; [done|by apply Hp]. }
    cbn [defined print printable]. split.
    + rewrite (map_inr_eq _ _ _ _ (λ x y Hx Ey, proj1 (Hmember x y Hx Ey)) Es).
      by rewrite List.map_map.
    + intros _. apply forallb_forall. intros x (kv & <- & Hkv)%in_map_iff. apply list_elem_of_In in Hkv.
      destruct (map_inr_all _ _ _ _ Es Hkv) as [z Hz]. by apply (Hmember kv z).
Qed.

(** ** Values that are refused *)

Fixpoint refused (v : Value) : bool :=
  match v with
  | VNum (Finite _) => false
  | VNum _ => true
  | VText t => negb (well_formed t)
  | VArr l => existsb refused l
  | VObj fs => existsb (λ kv, defined (snd kv) && (negb (well_formed (fst kv)) || refused (snd kv))) fs
  | _ => false
  end.

Definition failed {A} (r : Ser A) : bool := match r with inl _ => true | inr _ => false end.

Lemma failed_sequence {A} (l : list (Ser A)) : failed (sequence l) = existsb failed l.
Proof. induction l as [|[e|x] l IH]; [done|done|]. cbn. rewrite <-IH. by destruct (sequence l). Qed.

Lemma existsb_map {A B} (p : B → bool) (f : A → B) l : existsb p (List.map f l) = existsb (λ x, p (f x)) l.
Proof. induction l as [|x l IH]; [done|]. cbn. by rewrite IH. Qed.

Lemma existsb_same {A} (p q : A → bool) l l' :
  (∀ x, x ∈ l' → p x = q x) → (∀ x, x ∈ l ↔ x ∈ l') → existsb p l = existsb q l'.
Proof.
  intros Hpq Hl. apply eq_true_iff_eq. rewrite !existsb_exists. split; intros (x & Hx & Hp); exists x;
    apply list_elem_of_In in Hx; rewrite <-list_elem_of_In.
  - apply Hl in Hx. by rewrite <-Hpq.
  - rewrite Hl. by rewrite Hpq.
Qed.

Lemma existsb_present (p : text * Value → bool) fs :
  existsb p (present fs) = existsb (λ kv, defined (snd kv) && p kv) fs.
Proof.
  apply eq_true_iff_eq. rewrite !existsb_exists. unfold present, sort_members. split.
  - intros (kv & Hin & Hp). apply list_elem_of_In, elem_of_filter_b in Hin as [Hin Hd].
    rewrite merge_sort_Permutation in Hin. exists kv. rewrite <-list_elem_of_In, Hd. done.
  - intros (kv & Hin & [Hd Hp]%andb_true_iff). exists kv. split; [|done].
    apply list_elem_of_In, elem_of_filter_b. rewrite merge_sort_Permutation. split; [by apply list_elem_of_In|done].
Qed.

Lemma failed_refused v : failed (serialize v) = refused v.
Proof.
  induction v as [| |b|n|t|l IH|fs IH] using value_ind'; try done.
  - by destruct n.
  - cbn. unfold assertWellFormed. by destruct (well_formed t).
  - rewrite serialize_array. transitivity (failed (sequence (List.map item_text l))); [by destruct (sequence _)|].
    rewrite failed_sequence, existsb_map. rewrite Forall_forall in IH.
    change (refused (VArr l)) with (existsb refused l). apply existsb_same; [|done].
    intros x Hx. rewrite <-(IH x Hx). unfold item_text. by destruct (serialize x).
  - rewrite serialize_object. transitivity (failed (sequence (List.map member_text (present fs)))); [by destruct (sequence _)|].
    rewrite failed_sequence, existsb_map, existsb_present. rewrite Forall_forall in IH.
    change (refused (VObj fs)) with
      (existsb (λ kv, defined (snd kv) && (negb (well_formed (fst kv)) || refused (snd kv))) fs). apply existsb_same; [|done].
    intros kv Hkv. f_equal. rewrite <-(IH kv Hkv). unfold member_text, assertWellFormed.
    destruct (well_formed (fst kv)); [|done]. by destruct (serialize (snd kv)).
Qed.

(** ** Theorems *)

Lemma canonical_normal v t : canonicalize v = inr (Some t) → t = print (normal v) ∧ printable (normal v) = true.
Proof.
  intros E. destruct (serialize_normal v _ E) as [Et Hp]. destruct (defined v); [|done].
  injection Et as ->. split; [done|by apply Hp].
Qed.

Lemma canonical_same v1 v2 t1 t2 :
  canonicalize v1 = inr (Some t1) → canonicalize v2 = inr (Some t2) → t1 = t2 ↔ normal v1 = normal v2.
Proof.
  intros [-> P1]%canonical_normal [-> P2]%canonical_normal. split; [|by intros ->].
  intros E. apply (print_inj (normal v1) (normal v2) [] []); try done. by rewrite !app_nil_r.
Qed.

(** C27. Canonical texts identify values: two values that serialize have the same text
    exactly when their normal forms are equal - the same members with the same values
    under the same names, in any order, with absent members absent and absent elements
    [null].  The text is uniquely readable, escapes and numbers included, so no two
    different values are ever hashed under one text. *)
Theorem canonical_identifies (v1 v2 : Value) (t1 t2 : text) :
  canonicalize v1 = inr (Some t1) → canonicalize v2 = inr (Some t2) → t1 = t2 ↔ normal v1 = normal v2.
Proof. apply canonical_same. Qed.

Lemma canonical_identifies_witness :
  let v1 := VObj [(of_string "b", VNum (Finite 1)); (of_string "a", VUndefined)] in
  let v2 := VObj [(of_string "b", VNum (Finite 10))] in
  match canonicalize v1, canonicalize v2 with inr (Some t1), inr (Some t2) => t1 = t2 ↔ normal v1 = normal v2 | _, _ => False end.
Proof.
  exact (canonical_identifies (VObj [(of_string "b", VNum (Finite 1)); (of_string "a", VUndefined)])
    (VObj [(of_string "b", VNum (Finite 10))]) _ _ eq_refl eq_refl).
Defined.

(** Members may be listed in any order. *)
Lemma member_order fs1 fs2 :
  NoDup (fst <$> fs1) → fs1 ≡ₚ fs2 → canonicalize (VObj fs1) = canonicalize (VObj fs2).
Proof.
  intros Hd Hp. unfold canonicalize. rewrite !serialize_object. unfold present.
  by rewrite (sort_members_permutation fs1 fs2 Hd Hp).
Qed.

(** Serialization fails exactly on the values RFC 8785 cannot represent: a number
    that is not finite, or a string or member name with a lone surrogate, anywhere in
    the part of the value that is written. *)
Theorem canonical_refuses (v : Value) : (∃ e, canonicalize v = inl e) ↔ refused v = true.
Proof.
  rewrite <-failed_refused. unfold canonicalize. destruct (serialize v); split; try done; [by eexists|by intros []].
Qed.
