(* ===== verification/StepKey.v ===== *)
(** * Keys of plan nodes ([plan/src/StepKey.ts], [plan/src/KeyMaterial.ts], [keys/src/Key.ts])

    A node's material is turned into one canonical document, its declared inputs
    replaced by the keys of the nodes they name, and the document is hashed.  The
    platform's SHA-256 is the operation of [Crypto]; it may fail.  Texts hold units
    below 256, all of which are in Unicode normal form C. *)

From S2P Require Import Prelude Capability Sha256 Sha256Props FileSet Canonical.

(** ** Keys ([keys/src/Key.ts], [crypto/src/Sha256.ts]) *)

Class Crypto := { digest : text → option string }.

Inductive KeyError :=
| MissingDependency (from : string)
| NonContentMaterial (kind : string)
| SchemaIssue (message : string).

Notation Keyed A := (KeyError + A)%type.

(** [Sha256]: the digest, checked against [/^[0-9a-f]{64}$/]. *)
Definition Sha256 `{Crypto} (document : text) : Keyed string :=
  match digest document with
  | None => inl (SchemaIssue "digest")
  | Some d => if hex_digits 64 d then inr d else inl (SchemaIssue "expected a digest")
  end.

(** [Canonical]: a value without a canonical text is refused. *)
Definition CanonicalText (v : Value) : Keyed text :=
  match canonicalize v with
  | inl NaNNotAllowed => inl (SchemaIssue "NaN is not allowed")
  | inl InfinityNotAllowed => inl (SchemaIssue "Infinity is not allowed")
  | inl LoneSurrogate => inl (SchemaIssue "Lone surrogate is not allowed")
  | inr None => inl (SchemaIssue "The value is not valid JSON")
  | inr (Some t) => inr t
  end.

Definition decodeKey `{Crypto} (input : Value) : Keyed string :=
  match CanonicalText input with
  | inl e => inl e
  | inr serialized => match Sha256 serialized with inl e => inl e | inr d => inr ("key1_" +:+ d) end
  end.

(** The pattern [/^key1_[0-9a-f]{64}$/] of a stored key ([Plan.KeyDigest]). *)
Definition KeyDigest (k : string) : bool :=
  starts_with "key1_" k && hex_digits 64 (slice_from 5 k).

(** ** Documents *)

Definition str (s : string) : Value := VText (of_string s).
Definition strs (l : list string) : Value := VArr (str <$> l).
Definition member (name : string) (v : Value) : text * Value := (of_string name, v).

(** [...(x === undefined ? {} : { name: x })]. *)
Definition optional (name : string) (v : option Value) : list (text * Value) :=
  match v with Some v => [member name v] | None => [] end.

(** [normalize("NFC")]: a text of units below 256 is in that form. *)
Definition normalizeNFC (s : string) : string := s.

(** [new Set(values)]: the first occurrences. *)
Fixpoint distinct (seen l : list string) : list string :=
  match l with
  | [] => []
  | x :: l => if bool_decide (x ∈ seen) then distinct seen l else x :: distinct (x :: seen) l
  end.

Definition unit_le (a b : string) : Prop := text_le (of_string a) (of_string b) = true.
#[export] Instance unit_le_dec : RelDecision unit_le.
Proof. intros a b. unfold unit_le. apply _. Defined.

Definition sortStrings (values : list string) : list string :=
  merge_sort unit_le (distinct [] (normalizeNFC <$> values)).

(** ** Inputs and identities *)

Inductive Reference := RefRef | RefPending | RefProjected.
Definition reference_text (r : Reference) : string :=
  match r with RefRef => "ref" | RefPending => "pending" | RefProjected => "ref-projected" end.

(** A value hashed as it is, or a tagged digest: the tag is the program's symbol,
    which no plain value bears. *)
Inductive InputValue :=
| Plain (v : Value)
| DigestInput (d : string) (reference : option Reference) (path : option (list string)).

Definition normalizeInput (input : InputValue) : Value :=
  match input with
  | DigestInput d reference path =>
      VObj (member "kind" (str "digest") :: member "digest" (str d) ::
            optional "reference" ((λ r, str (reference_text r)) <$> reference) ++ optional "path" (strs <$> path))
  | Plain v => VObj [member "kind" (str "literal"); member "value" v]
  end.

Definition normalizeInputs (inputs : list (string * InputValue)) : Value :=
  VObj ((λ kv, member (fst kv) (normalizeInput (snd kv))) <$> inputs).

Definition normalizeCapabilities (capabilities : list (string * list string)) : Value :=
  VObj ((λ kv, member (fst kv) (strs (sortStrings (snd kv)))) <$> capabilities).

Record EnvironmentIdentity := mkEnvironment {
  ei_declared : bool;
  ei_layers : list string;
  ei_capabilities : list (string * list string);
  ei_runScope : option string
}.

Definition normalizeEnvironment (e : EnvironmentIdentity) : Value :=
  VObj ([member "declared" (VBool (ei_declared e)); member "layers" (strs (normalizeNFC <$> ei_layers e));
         member "capabilities" (normalizeCapabilities (ei_capabilities e))] ++ optional "runScope" (str <$> ei_runScope e)).

Inductive BoundaryMode := BHard | BExpected.
Definition mode_text (m : BoundaryMode) : string := match m with BHard => "hard" | BExpected => "expected" end.

Record Hermetic := mkHermetic {
  he_readSet : list (string * string);
  he_writeSet : list Entry;
  he_removes : option (list string);
  he_boundaryMode : BoundaryMode
}.

Definition writeEntryKey (e : Entry) : text :=
  let array l := 91%N :: commas l ++ [93%N] in
  let text_of s := quote (of_string s) in
  let texts l := array (text_of <$> l) in
  match e with
  | EPath p => array [text_of "Path"; text_of p]
  | ETree t => array [text_of "TreeArtifact"; text_of t]
  | EGlob g => array [text_of "Glob"; texts (gl_include g); match gl_exclude g with Some l => texts l | None => of_string "null" end]
  end.

Definition entry_document (e : Entry) : Value :=
  match e with
  | EPath p => str p
  | ETree t => VObj [member "_tag" (str "TreeArtifact"); member "path" (str t)]
  | EGlob g => VObj (member "_tag" (str "Glob") :: member "include" (strs (gl_include g)) :: optional "exclude" (strs <$> gl_exclude g))
  end.

Definition read_le (a b : string * string) : Prop :=
  if bool_decide (fst a = fst b) then unit_le (snd a) (snd b) else unit_le (fst a) (fst b).
#[export] Instance read_le_dec : RelDecision read_le.
Proof. intros a b. unfold read_le. destruct (bool_decide _); apply _. Defined.

Fixpoint without_repeats (l : list (string * string)) : list (string * string) :=
  match l with
  | x :: ((y :: _) as rest) => if bool_decide (x = y) then without_repeats rest else x :: without_repeats rest
  | l => l
  end.

Definition normalize_entry (e : Entry) : Entry :=
  match e with
  | EPath p => EPath (normalizeNFC p)
  | ETree t => ETree (normalizeNFC t)
  | EGlob g => EGlob (mkGlob (sortStrings (gl_include g)) (sortStrings <$> gl_exclude g))
  end.

(** [new Map(entries)]: the last value of a key, at the place of its first. *)
Fixpoint map_set {A} (key : text) (v : A) (m : list (text * A)) : list (text * A) :=
  match m with
  | [] => [(key, v)]
  | (k, x) :: m => if bool_decide (k = key) then (k, v) :: m else (k, x) :: map_set key v m
  end.

Definition normalizeHermetic (h : Hermetic) : Value :=
  let readSet := without_repeats (merge_sort read_le ((λ e, (normalizeNFC (fst e), snd e)) <$> he_readSet h)) in
  let entries := fold_left (λ m e, map_set (writeEntryKey e) e m) (normalize_entry <$> he_writeSet h) [] in
  VObj ([member "readSet" (VArr ((λ e, VObj [member "path" (str (fst e)); member "digest" (str (snd e))]) <$> readSet));
         member "writeSet" (VArr ((λ kv, entry_document (snd kv)) <$> sort_members entries))] ++
        optional "removes" ((λ l, strs (sortStrings l)) <$> he_removes h) ++
        [member "boundaryMode" (str (mode_text (he_boundaryMode h)))]).

Record ContentIdentity := mkContent {
  ci_body : Value;
  ci_inputs : list (string * InputValue);
  ci_layers : list string;
  ci_capabilities : list (string * list string);
  ci_environment : option EnvironmentIdentity;
  ci_hermetic : option Hermetic
}.

Definition content_document (identity : ContentIdentity) : Value :=
  VObj ([member "kind" (str "content"); member "body" (ci_body identity);
         member "inputs" (normalizeInputs (ci_inputs identity)); member "layers" (strs (sortStrings (ci_layers identity)));
         member "capabilities" (normalizeCapabilities (ci_capabilities identity))] ++
        optional "environment" (normalizeEnvironment <$> ci_environment identity) ++
        optional "hermetic" (normalizeHermetic <$> ci_hermetic identity)).

Definition content `{Crypto} (identity : ContentIdentity) : Keyed string := decodeKey (content_document identity).

Record OrdinalIdentity := mkOrdinal {
  oi_runId : string;
  oi_parentScope : option string;
  oi_ordinal : Z;
  oi_tier : string
}.

Definition ordinal `{Crypto} (o : OrdinalIdentity) : Keyed string :=
  decodeKey (VObj ([member "kind" (str "ordinal"); member "runId" (str (oi_runId o))] ++
                   optional "parentScope" (str <$> oi_parentScope o) ++
                   [member "ordinal" (VNum (Finite (oi_ordinal o))); member "tier" (str (oi_tier o))])).

(** ** Key material ([KeyMaterial.ts]) *)

Inductive InputRef :=
| Literal (value : Value)
| Ref (from : string) (path : list string)
| Pending (from : string).

Inductive MaterialKind := Sealed | Compensable | Irreversible.
Definition kind_text (k : MaterialKind) : string :=
  match k with Sealed => "sealed" | Compensable => "compensable" | Irreversible => "irreversible" end.

Definition version : string := "flows/key-material/v1".

Record KeyMaterial := mkMaterial {
  km_kind : MaterialKind;
  km_nondeterministic : bool;
  km_body : Value;
  km_inputs : list InputRef;
  km_layers : list string;
  km_capabilities : list string;
  km_effects : option Value;
  km_placement : option Value
}.

(** The node an input names. *)
Definition input_from (input : InputRef) : option string :=
  match input with Literal _ => None | Ref from _ => Some from | Pending from => Some from end.

Definition dependencies (m : KeyMaterial) : list string := distinct [] (omap input_from (km_inputs m)).

Definition materialBody (m : KeyMaterial) : Value :=
  VObj ([member "version" (str version); member "declaration" (km_body m)] ++
        (if km_nondeterministic m then [member "nondeterministic" (VBool true)] else []) ++
        optional "effects" (km_effects m) ++ optional "placement" (km_placement m)).

Definition resolve_input (digests : gmap string string) (input : InputRef) : Keyed InputValue :=
  match input with
  | Literal v => inr (Plain v)
  | Ref from path =>
      match digests !! from with
      | None => inl (MissingDependency from)
      | Some d => inr (match path with
                       | [] => DigestInput d (Some RefRef) None
                       | _ => DigestInput d (Some RefProjected) (Some path)
                       end)
      end
  | Pending from =>
      match digests !! from with
      | None => inl (MissingDependency from)
      | Some d => inr (DigestInput d (Some RefPending) None)
      end
  end.

(** The loop over the inputs, from position [index]. *)
Fixpoint resolve_inputs (digests : gmap string string) (index : nat) (inputs : list InputRef) : Keyed (list (string * InputValue)) :=
  match inputs with
  | [] => inr []
  | input :: rest =>
      match resolve_input digests input with
      | inl e => inl e
      | inr v => match resolve_inputs digests (S index) rest with
                 | inl e => inl e
                 | inr l => inr ((pretty index, v) :: l)
                 end
      end
  end.

Definition material_identity (m : KeyMaterial) (inputs : list (string * InputValue)) : ContentIdentity :=
  mkContent (materialBody m) inputs (km_layers m) [("declared", km_capabilities m)] None None.

Definition fromKeyMaterial `{Crypto} (m : KeyMaterial) (digests : gmap string string) : Keyed string :=
  match km_kind m with
  | Sealed => match resolve_inputs digests 0 (km_inputs m) with
              | inl e => inl e
              | inr inputs => content (material_identity m inputs)
              end
  | k => inl (NonContentMaterial (kind_text k))
  end.

(** ** Dispatch keys

    What a node is cached under: its own material, the values it consumes and the
    measured boundary.  The memo of the scheduler answers what was computed before, and
    is left out. *)

Definition member_value (name : text) (fields : list (text * Value)) : Value :=
  match List.find (λ kv, bool_decide (fst kv = name)) fields with Some kv => snd kv | None => VUndefined end.

(** [current[segment]] of an object or an array of JSON: what every object inherits is
    not modelled. *)
Definition own_member (current : Value) (segment : string) : Value :=
  match current with
  | VObj fields => member_value (of_string segment) fields
  | VArr l =>
      if bool_decide (segment = "length") then VNum (Finite (Z.of_nat (length l)))
      else member_value (of_string segment) (imap (λ i x, (of_string (pretty i), x)) l)
  | _ => VUndefined
  end.

Definition project (value : Value) (path : list string) : Value := fold_left own_member path value.

Definition orderingOnly : string := "ordering-only".

Definition dispatch_input `{Crypto} (results : gmap string Value) (input : InputRef) : Keyed InputValue :=
  match input with
  | Literal v => inr (Plain v)
  | Pending _ => inr (DigestInput orderingOnly (Some RefPending) None)
  | Ref from path =>
      match results !! from with
      | None => inl (MissingDependency from)
      | Some value =>
          match decodeKey (VObj [member "kind" (str "input-value"); member "value" (project value path)]) with
          | inl e => inl e
          | inr d => inr (match path with
                          | [] => DigestInput d (Some RefRef) None
                          | _ => DigestInput d (Some RefProjected) (Some path)
                          end)
          end
      end
  end.

(** The loop over the inputs, from position [index]. *)
Fixpoint dispatch_inputs `{Crypto} (results : gmap string Value) (index : nat) (inputs : list InputRef)
    : Keyed (list (string * InputValue)) :=
  match inputs with
  | [] => inr []
  | input :: rest =>
      match dispatch_input results input with
      | inl e => inl e
      | inr v => match dispatch_inputs results (S index) rest with
                 | inl e => inl e
                 | inr l => inr ((pretty index, v) :: l)
                 end
      end
  end.

Definition dispatchIdentity `{Crypto} (m : KeyMaterial) (results : gmap string Value) (hermetic : Hermetic)
    (environment : option EnvironmentIdentity) : Keyed string :=
  match km_kind m with
  | Sealed => match dispatch_inputs results 0 (km_inputs m) with
              | inl e => inl e
              | inr inputs => content (mkContent (materialBody m) inputs (km_layers m) [("declared", km_capabilities m)]
                                         environment (Some hermetic))
              end
  | k => inl (NonContentMaterial (kind_text k))
  end.
