(* ===== verification/StepKeyProps.v ===== *)
(** * What a step key identifies

    Two materials have one key exactly when they declare the same step over the same
    resolved inputs, up to the order of the sets they declare and a collision of the
    hash; the names of the nodes do not matter. *)

From S2P Require Import Prelude Sha256 Sha256Props Capability Texts FileSet Canonical CanonicalProps StepKey.

(** ** Objects *)

Fixpoint assoc_text {A} (k : text) (fs : list (text * A)) : option A :=
  match fs with [] => None | (k', v) :: fs => if bool_decide (k' = k) then Some v else assoc_text k fs end.

Lemma assoc_text_in {A} k (v : A) fs : NoDup (fst <$> fs) → assoc_text k fs = Some v ↔ (k, v) ∈ fs.
Proof.
  induction fs as [|[k' v'] fs IH]; cbn; [split; [done|by intros ?%not_elem_of_nil]|].
  intros [Hk Hd]%NoDup_cons. rewrite elem_of_cons. case_bool_decide as E.
  - subst k'. split; [intros [= ->]; by left|]. intros [[= ->]|Hin]; [done|].
    destruct Hk. apply list_elem_of_fmap. by exists (k, v).
  - rewrite IH by done. naive_solver.
Qed.

(** What is written of an optional member. *)
Definition written (o : option Value) : option Value :=
  match o with Some v => if defined v then Some (normal v) else None | None => None end.

Definition written_members (fs : list (text * Value)) : list (text * Value) :=
  List.filter (λ kv, defined (snd kv)) (List.map (λ kv, (fst kv, normal (snd kv))) fs).

Lemma written_members_keys fs : NoDup (fst <$> fs) → NoDup (fst <$> written_members fs).
Proof.
  unfold written_members. induction fs as [|[k v] fs IH]; intros Hd; [constructor|].
  apply NoDup_cons in Hd as [Hk Hd]. cbn. rewrite defined_normal. destruct (defined v); [|by apply IH].
  cbn. constructor; [|by apply IH]. intros ((k' & v') & -> & [Hin _]%elem_of_filter_b)%list_elem_of_fmap.
  apply list_elem_of_In, in_map_iff in Hin as ([k2 v2] & [= -> _] & Hin%list_elem_of_In).
  destruct Hk. apply list_elem_of_fmap. by exists (k', v2).
Qed.

Lemma assoc_written k fs : assoc_text k (written_members fs) = written (assoc_text k fs) ∨ ¬ NoDup (fst <$> fs).
Proof.
  induction fs as [|[k' v] fs IH]; [by left|]. destruct (decide (NoDup (fst <$> (k', v) :: fs))) as [Hd|]; [left|by right].
  apply NoDup_cons in Hd as [Hk Hd]. destruct IH as [IH|]; [|done].
  unfold written_members in *. cbn. rewrite defined_normal. destruct (defined v) eqn:Ev; cbn; case_bool_decide as E.
  - subst k'. cbn. by rewrite Ev.
  - done.
  - subst k'. cbn. rewrite Ev, IH. destruct (assoc_text k fs) as [w|] eqn:Ew; [|done].
    destruct Hk. apply assoc_text_in in Ew; [|done]. apply list_elem_of_fmap. by exists (k, w).
  - done.
Qed.

Lemma filter_sorted {A} (R : relation A) (p : A → bool) l : StronglySorted R l → StronglySorted R (List.filter p l).
Proof.
  induction 1 as [|x l H IH Hx]; [constructor|]. cbn. destruct (p x); [|done].
  constructor; [done|]. rewrite Forall_forall in *. intros y [Hy _]%elem_of_filter_b. auto.
Qed.

Lemma filter_permutation {A} (p : A → bool) l l' : l ≡ₚ l' → List.filter p l ≡ₚ List.filter p l'.
Proof.
  induction 1 as [|x l l' _ IH|x y l|l1 l2 l3 _ IH1 _ IH2]; cbn; [done| | |by rewrite IH1].
  - destruct (p x); by rewrite IH.
  - destruct (p x), (p y); try done. apply Permutation_swap.
Qed.

Lemma written_sorted fs :
  ∃ l, normal (VObj fs) = VObj l ∧ StronglySorted key_le l ∧ l ≡ₚ written_members fs.
Proof.
  eexists. split; [reflexivity|]. split.
  - apply filter_sorted, (StronglySorted_merge_sort _).
  - apply filter_permutation. unfold sort_members. by rewrite merge_sort_Permutation.
Qed.

(** Two objects have one normal form exactly when they write the same members. *)
Lemma normal_object fs1 fs2 :
  NoDup (fst <$> fs1) → NoDup (fst <$> fs2) →
  normal (VObj fs1) = normal (VObj fs2) ↔ ∀ k, written (assoc_text k fs1) = written (assoc_text k fs2).
Proof.
  intros D1 D2. destruct (written_sorted fs1) as (l1 & -> & S1 & P1), (written_sorted fs2) as (l2 & -> & S2 & P2).
  pose proof (written_members_keys fs1 D1) as N1. pose proof (written_members_keys fs2 D2) as N2.
  assert (∀ k, written (assoc_text k fs1) = assoc_text k (written_members fs1)) as W1
    by (intros k; by destruct (assoc_written k fs1)).
  assert (∀ k, written (assoc_text k fs2) = assoc_text k (written_members fs2)) as W2
    by (intros k; by destruct (assoc_written k fs2)).
  split.
  - intros [= ->] k. rewrite W1, W2. apply option_eq. intros v. rewrite !assoc_text_in by done. by rewrite <-P1, <-P2.
  - intros Hk. f_equal. apply (StronglySorted_unique_strong key_le); [|done|done|].
    + intros [k v] [k' v']. unfold key_le. intros H1 H2 L1 L2. pose proof (text_le_antisym k k' L1 L2) as ->.
      rewrite P1 in H1. rewrite P2 in H2. apply assoc_text_in in H1; [|done]. apply assoc_text_in in H2; [|done].
      rewrite <-W1, Hk, W2, H2 in H1. by injection H1 as ->.
    + rewrite P1, P2. apply NoDup_Permutation; [by eapply NoDup_fmap_1|by eapply NoDup_fmap_1|].
      intros [k v]. rewrite <-!assoc_text_in by done. by rewrite <-W1, <-W2, Hk.
Qed.

(** ** Texts and sets *)

Lemma str_inj a b : str a = str b → a = b.
Proof. intros [= E]. by apply of_string_inj. Qed.

Lemma normal_strs l : normal (strs l) = strs l.
Proof. unfold strs. cbn. f_equal. induction l as [|s l IH]; [done|]. cbn. by rewrite <-IH at 2. Qed.

Lemma strs_inj l1 l2 : strs l1 = strs l2 → l1 = l2.
Proof.
  intros [= E]. revert l2 E. induction l1 as [|a l1 IH]; intros [|b l2] E; try done.
  injection E as E1 E2. apply of_string_inj in E1 as ->. f_equal. by apply IH.
Qed.

Lemma distinct_in seen l x : x ∈ distinct seen l ↔ x ∈ l ∧ x ∉ seen.
Proof.
  revert seen. induction l as [|y l IH]; intros seen; cbn; [set_solver|].
  case_bool_decide as Hy; rewrite ?elem_of_cons, IH; [set_solver|].
  rewrite not_elem_of_cons. destruct (decide (x = y)) as [->|]; naive_solver.
Qed.

Lemma distinct_nodup seen l : NoDup (distinct seen l).
Proof.
  revert seen. induction l as [|y l IH]; intros seen; cbn; [constructor|].
  case_bool_decide; [done|]. constructor; [|done]. rewrite distinct_in. set_solver.
Qed.

Lemma nfc_all (l : list string) : normalizeNFC <$> l = l.
Proof. exact (list_fmap_id l). Qed.

Lemma sortStrings_in l x : x ∈ sortStrings l ↔ x ∈ l.
Proof.
  unfold sortStrings. rewrite merge_sort_Permutation, distinct_in, nfc_all. set_solver.
Qed.

#[export] Instance unit_le_total : Total unit_le.
Proof. intros a b. apply text_le_total. Qed.
#[export] Instance unit_le_trans : Transitive unit_le.
Proof. intros a b c. apply text_le_trans. Qed.

(** A set of texts has one list. *)
Lemma sortStrings_set l1 l2 : sortStrings l1 = sortStrings l2 ↔ ∀ x, x ∈ l1 ↔ x ∈ l2.
Proof.
  split; [intros E x; by rewrite <-(sortStrings_in l1), E, sortStrings_in|]. intros H.
  apply (StronglySorted_unique_strong unit_le).
  - intros a b _ _ L1 L2. apply of_string_inj. by apply text_le_antisym.
  - apply (StronglySorted_merge_sort _).
  - apply (StronglySorted_merge_sort _).
  - apply NoDup_Permutation.
    + unfold sortStrings. rewrite merge_sort_Permutation. apply distinct_nodup.
    + unfold sortStrings. rewrite merge_sort_Permutation. apply distinct_nodup.
    + intros x. by rewrite !sortStrings_in.
Qed.

(** ** Documents *)

Lemma normal_capabilities c :
  normal (normalizeCapabilities [("declared", c)]) = normalizeCapabilities [("declared", c)].
Proof.
  unfold normalizeCapabilities. cbn [fmap list_fmap fst snd]. rewrite normal_members. unfold present, sort_members. cbn.
  unfold member. cbn. do 3 f_equal. apply normal_strs.
Qed.

Lemma capabilities_inj c1 c2 :
  normalizeCapabilities [("declared", c1)] = normalizeCapabilities [("declared", c2)] ↔ sortStrings c1 = sortStrings c2.
Proof. split; [|intros E; unfold normalizeCapabilities; cbn [fmap list_fmap fst snd]; by rewrite E].
  intros [= E]. apply strs_inj. unfold strs. by f_equal.
Qed.

(** The inputs of a document, by position. *)
Definition input_members (inputs : list (string * InputValue)) : list (text * Value) :=
  (λ kv, member (fst kv) (normalizeInput (snd kv))) <$> inputs.

Definition same_input (a b : InputValue) : Prop :=
  match a, b with
  | Plain v, Plain w => written (Some v) = written (Some w)
  | DigestInput d r p, DigestInput d' r' p' => d = d' ∧ r = r' ∧ p = p'
  | _, _ => False
  end.

Lemma reference_text_inj r s : reference_text r = reference_text s → r = s.
Proof. by destruct r, s. Qed.

Ltac keys_nodup := apply (bool_decide_eq_true_1 (NoDup _)); vm_compute; reflexivity.

Definition input_fields (i : InputValue) : list (text * Value) :=
  match i with
  | DigestInput d reference path =>
      member "kind" (str "digest") :: member "digest" (str d) ::
      optional "reference" ((λ r, str (reference_text r)) <$> reference) ++ optional "path" (strs <$> path)
  | Plain v => [member "kind" (str "literal"); member "value" v]
  end.

Lemma input_fields_nodup i : NoDup (fst <$> input_fields i).
Proof. destruct i as [v|d [r|] [p|]]; cbn [input_fields]; keys_nodup. Qed.

Definition field (name : string) (fs : list (text * Value)) : option Value := written (assoc_text (of_string name) fs).

Lemma digest_fields d r p :
  field "digest" (input_fields (DigestInput d r p)) = Some (str d) ∧
  field "reference" (input_fields (DigestInput d r p)) = ((λ r, str (reference_text r)) <$> r) ∧
  field "path" (input_fields (DigestInput d r p)) = (strs <$> p).
Proof.
  destruct r as [r|], p as [p|]; split_and!; try reflexivity; apply (f_equal Some), normal_strs.
Qed.

Lemma normalizeInput_same a b : normal (normalizeInput a) = normal (normalizeInput b) ↔ same_input a b.
Proof.
  assert (∀ i, normalizeInput i = VObj (input_fields i)) as Hf by by intros [].
  rewrite !Hf, normal_object by apply input_fields_nodup. split.
  - intros E. pose proof (E (of_string "kind")) as Ek.
    destruct a as [v|d r p], b as [w|d' r' p']; cbn [same_input]; [exact (E (of_string "value"))|done|done|].
    destruct (digest_fields d r p) as (D1 & R1 & P1), (digest_fields d' r' p') as (D2 & R2 & P2). unfold field in *.
    rewrite E, D2 in D1. rewrite E, R2 in R1. rewrite E, P2 in P1. injection D1 as D1. apply of_string_inj in D1.
    split_and!; [done| |].
    + destruct r as [r|], r' as [r'|]; try done. injection R1 as R1. apply of_string_inj, reference_text_inj in R1. by subst.
    + destruct p as [p|], p' as [p'|]; try done.
      apply (inj Some), strs_inj in P1. congruence.
  - intros S k. destruct a as [v|d r p], b as [w|d' r' p']; cbn [same_input] in S; try done.
    + cbn [input_fields assoc_text member fst snd]. repeat case_bool_decide; done.
    + by destruct S as (-> & -> & ->).
Qed.

(** *** Positions *)

Definition positioned (start : nat) (l : list InputValue) : list (string * InputValue) :=
  imap (λ i v, (pretty (start + i), v)) l.

Lemma resolve_positions digests start inputs l :
  resolve_inputs digests start inputs = inr l → l = positioned start (snd <$> l).
Proof.
  revert start l. induction inputs as [|input inputs IH]; intros start l; cbn; [by intros [= <-]|].
  destruct (resolve_input digests input) as [|v]; [done|].
  destruct (resolve_inputs digests (S start) inputs) as [|l'] eqn:E; [done|]. intros [= <-]. cbn [fmap list_fmap snd].
  unfold positioned. rewrite imap_cons, Nat.add_0_r. f_equal. rewrite (IH _ _ E) at 1.
  apply imap_ext. intros i x _. cbn. by rewrite Nat.add_succ_r.
Qed.

Lemma positioned_key l i v : l !! i = Some v → (of_string (pretty i), normalizeInput v) ∈ input_members (positioned 0 l).
Proof.
  intros Hl. apply list_elem_of_fmap. exists (pretty i, v). split; [done|].
  apply list_elem_of_lookup. exists i. unfold positioned. by rewrite list_lookup_imap, Hl.
Qed.

Lemma positioned_in l k w :
  (k, w) ∈ input_members (positioned 0 l) → ∃ i v, l !! i = Some v ∧ k = of_string (pretty i) ∧ w = normalizeInput v.
Proof.
  intros ([n v] & [= -> ->] & Hin)%list_elem_of_fmap. apply list_elem_of_lookup in Hin as [i Hi].
  unfold positioned in Hi. rewrite list_lookup_imap in Hi. destruct (l !! i) as [x|] eqn:E; [|done].
  injection Hi as <- <-. by exists i, x.
Qed.

Lemma input_members_keys l : fst <$> input_members (positioned 0 l) = (λ i, of_string (pretty i)) <$> List.seq 0 (length l).
Proof.
  apply list_eq. intros i. unfold input_members, positioned. rewrite !list_lookup_fmap, list_lookup_imap.
  destruct (l !! i) as [x|] eqn:E; cbn.
  - pose proof (lookup_lt_Some _ _ _ E). by rewrite lookup_seq_lt.
  - apply lookup_ge_None in E. by rewrite lookup_seq_ge.
Qed.

Lemma input_members_nodup l : NoDup (fst <$> input_members (positioned 0 l)).
Proof.
  rewrite input_members_keys. apply NoDup_fmap_2; [|apply NoDup_seq].
  intros i j E%of_string_inj. by apply (inj pretty) in E.
Qed.

Lemma position_written l i :
  written (assoc_text (of_string (pretty i)) (input_members (positioned 0 l))) = (λ v, normal (normalizeInput v)) <$> l !! i.
Proof.
  destruct (l !! i) as [v|] eqn:E.
  - pose proof (positioned_key l i v E) as Hin. apply assoc_text_in in Hin as ->; [|apply input_members_nodup].
    cbn. by destruct v.
  - destruct (assoc_text _ _) as [w|] eqn:Ew; [|done]. apply assoc_text_in in Ew; [|apply input_members_nodup].
    apply positioned_in in Ew as (j & v & Hj & Ek & _). apply of_string_inj, (inj pretty) in Ek. congruence.
Qed.

Lemma inputs_same l1 l2 :
  normal (VObj (input_members (positioned 0 l1))) = normal (VObj (input_members (positioned 0 l2))) ↔ Forall2 same_input l1 l2.
Proof.
  rewrite normal_object by apply input_members_nodup. split.
  - intros E. apply Forall2_same_length_lookup_2.
    + apply Nat.le_antisymm; apply Nat.nlt_ge; intros Hlt; [pose proof (E (of_string (pretty (length l2)))) as En|
        pose proof (E (of_string (pretty (length l1)))) as En]; rewrite !position_written in En.
      * rewrite (lookup_ge_None_2 l2) in En by done. destruct (lookup_lt_is_Some_2 _ _ Hlt) as [x Hx]. by rewrite Hx in En.
      * rewrite (lookup_ge_None_2 l1) in En by done. destruct (lookup_lt_is_Some_2 _ _ Hlt) as [x Hx]. by rewrite Hx in En.
    + intros i x y Hx Hy. pose proof (E (of_string (pretty i))) as En. rewrite !position_written, Hx, Hy in En.
      apply normalizeInput_same. by injection En.
  - intros F k.
    destruct (assoc_text k (input_members (positioned 0 l1))) as [w|] eqn:E1.
    + apply assoc_text_in in E1; [|apply input_members_nodup]. apply positioned_in in E1 as (i & v & Hi & -> & ->).
      destruct (Forall2_lookup_l _ _ _ _ _ F Hi) as (v' & Hi' & S). rewrite position_written, Hi'. cbn.
      apply normalizeInput_same in S. rewrite <-S. by destruct v.
    + destruct (assoc_text k (input_members (positioned 0 l2))) as [w|] eqn:E2; [|done].
      apply assoc_text_in in E2; [|apply input_members_nodup]. apply positioned_in in E2 as (i & v & Hi & -> & ->).
      destruct (Forall2_lookup_r _ _ _ _ _ F Hi) as (v' & Hi' & S).
      pose proof (positioned_key l1 i v' Hi') as Hin. apply assoc_text_in in Hin; [|apply input_members_nodup]. congruence.
Qed.

(** *** The node's own declaration *)

Lemma assoc_text_none {A} k (fs : list (text * A)) : k ∉ fst <$> fs → assoc_text k fs = None.
Proof.
  induction fs as [|[k' v] fs IH]; [done|]. cbn. rewrite not_elem_of_cons. intros [Hk Hfs].
  rewrite bool_decide_eq_false_2 by done. by apply IH.
Qed.

Definition body_fields (m : KeyMaterial) : list (text * Value) :=
  [member "version" (str version); member "declaration" (km_body m)] ++
  (if km_nondeterministic m then [member "nondeterministic" (VBool true)] else []) ++
  optional "effects" (km_effects m) ++ optional "placement" (km_placement m).

Lemma body_fields_nodup m : NoDup (fst <$> body_fields m).
Proof. destruct m as [k [] b i l c [e|] [p|]]; keys_nodup. Qed.

Definition body_names : list text :=
  of_string <$> ["version"; "declaration"; "nondeterministic"; "effects"; "placement"].

Lemma body_fields_names m k : k ∉ body_names → assoc_text k (body_fields m) = None.
Proof.
  intros Hk. apply assoc_text_none. intros Hin. destruct Hk. revert k Hin.
  assert (∀ l l' : list text, bool_decide (l ⊆ l') = true → ∀ k, k ∈ l → k ∈ l') as Hsub
    by (intros l l' H%bool_decide_eq_true_1; exact H).
  apply Hsub. by destruct m as [k [] b i l c [e|] [p|]].
Qed.

Lemma body_field_values m :
  field "version" (body_fields m) = Some (str version) ∧
  field "declaration" (body_fields m) = written (Some (km_body m)) ∧
  field "nondeterministic" (body_fields m) = (if km_nondeterministic m then Some (VBool true) else None) ∧
  field "effects" (body_fields m) = written (km_effects m) ∧
  field "placement" (body_fields m) = written (km_placement m).
Proof. destruct m as [k [] b i l c [e|] [p|]]; split_and!; reflexivity. Qed.

Definition same_body (m1 m2 : KeyMaterial) : Prop :=
  written (Some (km_body m1)) = written (Some (km_body m2)) ∧
  km_nondeterministic m1 = km_nondeterministic m2 ∧
  written (km_effects m1) = written (km_effects m2) ∧
  written (km_placement m1) = written (km_placement m2).

Lemma body_same m1 m2 : normal (materialBody m1) = normal (materialBody m2) ↔ same_body m1 m2.
Proof.
  change (materialBody m1) with (VObj (body_fields m1)). change (materialBody m2) with (VObj (body_fields m2)).
  rewrite normal_object by apply body_fields_nodup.
  destruct (body_field_values m1) as (V1 & D1 & N1 & E1 & P1), (body_field_values m2) as (V2 & D2 & N2 & E2 & P2).
  unfold field in *. unfold same_body. split.
  - intros E. rewrite <-D1, <-D2, <-E1, <-E2, <-P1, <-P2, !E. split_and!; try done.
    rewrite E, N2 in N1. by destruct (km_nondeterministic m1), (km_nondeterministic m2).
  - intros (Sd & Sn & Se & Sp) k. destruct (decide (k ∈ body_names)) as [Hk|Hk].
    + unfold body_names in Hk. cbn [fmap list_fmap] in Hk. rewrite !elem_of_cons in Hk.
      destruct Hk as [->|[->|[->|[->|[->|Hk%not_elem_of_nil]]]]]; [| | | | |done].
      * by rewrite V1, V2.
      * by rewrite D1, D2.
      * by rewrite N1, N2, Sn.
      * by rewrite E1, E2.
      * by rewrite P1, P2.
    + by rewrite !body_fields_names.
Qed.

(** ** What a key identifies *)

Definition same_material (m1 : KeyMaterial) (i1 : list InputValue) (m2 : KeyMaterial) (i2 : list InputValue) : Prop :=
  same_body m1 m2 ∧ Forall2 same_input i1 i2 ∧
  (∀ x, x ∈ km_layers m1 ↔ x ∈ km_layers m2) ∧ (∀ x, x ∈ km_capabilities m1 ↔ x ∈ km_capabilities m2).

Definition material_document (m : KeyMaterial) (i : list InputValue) : Value :=
  content_document (material_identity m (positioned 0 i)).

Definition document_fields (m : KeyMaterial) (i : list InputValue) : list (text * Value) :=
  [member "kind" (str "content"); member "body" (materialBody m); member "inputs" (VObj (input_members (positioned 0 i)));
   member "layers" (strs (sortStrings (km_layers m)));
   member "capabilities" (normalizeCapabilities [("declared", km_capabilities m)])].

Lemma document_same m1 i1 m2 i2 :
  normal (material_document m1 i1) = normal (material_document m2 i2) ↔ same_material m1 i1 m2 i2.
Proof.
  change (material_document m1 i1) with (VObj (document_fields m1 i1)).
  change (material_document m2 i2) with (VObj (document_fields m2 i2)).
  rewrite normal_object by keys_nodup. unfold same_material. rewrite <-body_same, <-inputs_same, <-!sortStrings_set. split.
  - intros E. pose proof (E (of_string "body")) as Eb. pose proof (E (of_string "inputs")) as Ei.
    pose proof (E (of_string "layers")) as El. pose proof (E (of_string "capabilities")) as Ec.
    apply (inj Some) in Eb, Ei, El, Ec. rewrite !normal_strs in El. rewrite !normal_capabilities in Ec.
    apply strs_inj in El. apply capabilities_inj in Ec. done.
  - intros (Eb & Ei & El & Ec) k. apply capabilities_inj in Ec. unfold document_fields. rewrite El, Ec.
    cbn [assoc_text member fst snd].
    repeat (case_bool_decide; [first [done | by apply (f_equal Some)]|]). done.
Qed.

(** ** The compiler *)

Section Keys.

Context `{Crypto}.

(** The inputs of a material against the keys of a plan. *)
Definition resolved (m : KeyMaterial) (digests : gmap string string) : Keyed (list InputValue) :=
  match resolve_inputs digests 0 (km_inputs m) with inl e => inl e | inr l => inr (snd <$> l) end.

(** The text that is hashed. *)
Definition material_text (m : KeyMaterial) (i : list InputValue) : text := print (normal (material_document m i)).

Lemma decodeKey_inr v k :
  decodeKey v = inr k → ∃ t d, canonicalize v = inr (Some t) ∧ digest t = Some d ∧ hex_digits 64 d = true ∧ k = "key1_" +:+ d.
Proof.
  unfold decodeKey, CanonicalText, Sha256.
  destruct (canonicalize v) as [[]|[t|]]; try done.
  destruct (digest t) as [d|] eqn:Ed; [|done]. destruct (hex_digits 64 d) eqn:Eh; [|done]. intros [= <-].
  by exists t, d.
Qed.

Lemma key_text m digests k :
  fromKeyMaterial m digests = inr k →
  ∃ i d, resolved m digests = inr i ∧ canonicalize (material_document m i) = inr (Some (material_text m i)) ∧
         digest (material_text m i) = Some d ∧ hex_digits 64 d = true ∧ k = "key1_" +:+ d.
Proof.
  unfold fromKeyMaterial, resolved. destruct (km_kind m); [|done..].
  destruct (resolve_inputs digests 0 (km_inputs m)) as [|l] eqn:El; [done|].
  intros (t & d & Et & Ed & Eh & ->)%decodeKey_inr. exists (snd <$> l), d.
  apply resolve_positions in El. unfold content in Et. rewrite El in Et.
  pose proof (canonical_normal _ _ Et) as [-> _]. done.
Qed.

Lemma decodeKey_pattern v k : decodeKey v = inr k → KeyDigest k = true.
Proof.
  intros (t & d & _ & _ & Hd & ->)%decodeKey_inr. unfold KeyDigest.
  rewrite (starts_with_concat "key1_" d). change 5%nat with (String.length "key1_"). by rewrite slice_from_app.
Qed.

(** Two texts do not collide. *)
Definition no_collision (a b : text) : Prop := digest a = digest b → a = b.

Lemma key_same m1 d1 i1 k1 m2 d2 i2 k2 :
  fromKeyMaterial m1 d1 = inr k1 → resolved m1 d1 = inr i1 →
  fromKeyMaterial m2 d2 = inr k2 → resolved m2 d2 = inr i2 →
  no_collision (material_text m1 i1) (material_text m2 i2) →
  k1 = k2 ↔ same_material m1 i1 m2 i2.
Proof.
  intros (j1 & h1 & R1 & C1 & D1 & H1 & ->)%key_text E1 (j2 & h2 & R2 & C2 & D2 & H2 & ->)%key_text E2 Hc.
  rewrite E1 in R1. rewrite E2 in R2. injection R1 as <-. injection R2 as <-.
  rewrite <-document_same, <-(canonical_same _ _ _ _ C1 C2). split.
  - intros Ek. apply string_app_inj_length in Ek as [_ ->]; [|done]. apply Hc. congruence.
  - intros Et. rewrite Et, D2 in D1. by injection D1 as ->.
Qed.

(** *** Names of nodes *)

Definition rename_input (ρ : string → string) (i : InputRef) : InputRef :=
  match i with Literal v => Literal v | Ref from path => Ref (ρ from) path | Pending from => Pending (ρ from) end.

Definition rename_material (ρ : string → string) (m : KeyMaterial) : KeyMaterial :=
  mkMaterial (km_kind m) (km_nondeterministic m) (km_body m) (rename_input ρ <$> km_inputs m) (km_layers m)
    (km_capabilities m) (km_effects m) (km_placement m).

Definition answer {A} (r : Keyed A) : option A := match r with inr a => Some a | inl _ => None end.

Lemma resolve_renamed ρ (d d' : gmap string string) inputs n :
  (∀ from, from ∈ omap input_from inputs → d' !! ρ from = d !! from) →
  answer (resolve_inputs d' n (rename_input ρ <$> inputs)) = answer (resolve_inputs d n inputs).
Proof.
  revert n. induction inputs as [|i inputs IH]; intros n Hd; [done|].
  assert (answer (resolve_inputs d' (S n) (rename_input ρ <$> inputs)) = answer (resolve_inputs d (S n) inputs)) as E.
  { apply IH. intros from Hf. apply Hd. cbn. destruct (input_from i); [by right|done]. }
  cbn [fmap list_fmap resolve_inputs].
  assert (answer (resolve_input d' (rename_input ρ i)) = answer (resolve_input d i)) as Ei.
  { destruct i as [v|from path|from]; [done| |]; cbn; rewrite (Hd from) by (cbn; by left); by destruct (d !! from). }
  destruct (resolve_input d' (rename_input ρ i)) as [|v'], (resolve_input d i) as [|v]; try done. injection Ei as ->.
  destruct (resolve_inputs d' (S n) _), (resolve_inputs d (S n) _); try done. by injection E as ->.
Qed.

Lemma key_renamed ρ m d d' :
  (∀ from, from ∈ omap input_from (km_inputs m) → d' !! ρ from = d !! from) →
  answer (fromKeyMaterial (rename_material ρ m) d') = answer (fromKeyMaterial m d).
Proof.
  intros Hd. unfold fromKeyMaterial. cbn [rename_material km_kind km_inputs]. destruct (km_kind m); [|done..].
  pose proof (resolve_renamed ρ d d' (km_inputs m) 0 Hd) as E.
  destruct (resolve_inputs d' 0 _), (resolve_inputs d 0 _); try done. by injection E as ->.
Qed.

(** C33. A key computed from canonical content has the declared shape: the version
    marker [key1_] and sixty-four lowercase hexadecimal digits, whatever the platform's
    hash returns. *)
Theorem key_type (v : Value) (k : string) : decodeKey v = inr k → KeyDigest k = true.
Proof. apply decodeKey_pattern. Qed.

(** C21. A step key identifies what the step computes from: two sealed materials whose
    hashed texts do not collide get one key exactly when their bodies, determinism,
    effects and placement are equal as JSON, their layers and capabilities are equal as
    sets, and their inputs are equal one by one - literals as JSON, references by the
    key of the node they name, by their kind and by their projection. *)
Theorem key_identifies (m1 m2 : KeyMaterial) (d1 d2 : gmap string string) (i1 i2 : list InputValue) (k1 k2 : string) :
  fromKeyMaterial m1 d1 = inr k1 → resolved m1 d1 = inr i1 →
  fromKeyMaterial m2 d2 = inr k2 → resolved m2 d2 = inr i2 →
  no_collision (material_text m1 i1) (material_text m2 i2) →
  k1 = k2 ↔ same_material m1 i1 m2 i2.
Proof. apply key_same. Qed.

(** Names of nodes are lookup addresses only: renaming the nodes a material refers
    to, and the digests with them, leaves its key as it was (and fails when it failed). *)
Theorem key_ignores_names (ρ : string → string) (m : KeyMaterial) (d d' : gmap string string) :
  (∀ from, from ∈ omap input_from (km_inputs m) → d' !! ρ from = d !! from) →
  answer (fromKeyMaterial (rename_material ρ m) d') = answer (fromKeyMaterial m d).
Proof. apply key_renamed. Qed.

End Keys.

(** ** Examples: the program's own SHA-256 as the platform's hash *)

Definition ascii_text (t : text) : string := String.string_of_list_ascii (ascii_of_N <$> t).
Definition plan_crypto : Crypto := {| digest t := Some (sha256 (ascii_text t)) |}.

Module KeyDemo.

#[local] Existing Instance plan_crypto.

Definition compiled : KeyMaterial :=
  mkMaterial Sealed false (VObj [member "run" (str "tsc")]) [Literal (str "src"); Ref "fetch" ["out"]; Pending "lint"]
    ["node"; "bun"] ["fs"] None None.
Definition compiled' : KeyMaterial :=
  mkMaterial Sealed false (VObj [member "run" (str "tsc"); member "cwd" VUndefined])
    [Literal (str "src"); Ref "fetch" ["out"]; Pending "lint"] ["bun"; "node"; "bun"] ["fs"] None None.
Definition digests : gmap string string := {["fetch" := "key1_a"; "lint" := "key1_b"]}.

Definition the_key (r : Keyed string) : string := match r with inr k => k | inl _ => "" end.
Definition build_key : string := Eval vm_compute in the_key (fromKeyMaterial compiled digests).
Definition build_inputs : list InputValue :=
  [Plain (str "src"); DigestInput "key1_a" (Some RefProjected) (Some ["out"]); DigestInput "key1_b" (Some RefPending) None].

Lemma build_runs : fromKeyMaterial compiled digests = inr build_key.
Proof. vm_compute. reflexivity. Qed.
Lemma build'_runs : fromKeyMaterial compiled' digests = inr build_key.
Proof. vm_compute. reflexivity. Qed.
Lemma build_resolves : resolved compiled digests = inr build_inputs.
Proof. vm_compute. reflexivity. Qed.
Lemma build'_resolves : resolved compiled' digests = inr build_inputs.
Proof. vm_compute. reflexivity. Qed.
Lemma build_text : material_text compiled build_inputs = material_text compiled' build_inputs.
Proof. vm_compute. reflexivity. Qed.

End KeyDemo.

Lemma key_type_witness :
  KeyDigest (KeyDemo.the_key (@decodeKey plan_crypto (VArr [VNull]))) = true.
Proof.
  apply (@key_type plan_crypto (VArr [VNull])). vm_compute. reflexivity.
Defined.

Lemma key_identifies_witness :
  KeyDemo.build_key = KeyDemo.build_key ↔
  same_material KeyDemo.compiled KeyDemo.build_inputs KeyDemo.compiled' KeyDemo.build_inputs.
Proof.
  exact (@key_identifies plan_crypto _ _ _ _ _ _ _ _ KeyDemo.build_runs KeyDemo.build_resolves
    KeyDemo.build'_runs KeyDemo.build'_resolves (λ _, KeyDemo.build_text)).
Defined.

Lemma key_ignores_names_witness :
  answer (@fromKeyMaterial plan_crypto (rename_material (λ s, "x:" +:+ s) KeyDemo.compiled)
            (<["x:fetch" := "key1_a"]> (<["x:lint" := "key1_b"]> ∅))) = Some KeyDemo.build_key.
Proof.
  transitivity (answer (@fromKeyMaterial plan_crypto KeyDemo.compiled KeyDemo.digests));
    [|exact (f_equal answer KeyDemo.build_runs)].
  apply (@key_ignores_names plan_crypto).
  assert (Forall (λ from, (<["x:fetch" := "key1_a"]> (<["x:lint" := "key1_b"]> (∅ : gmap string string))) !! ("x:" +:+ from)
                          = KeyDemo.digests !! from) (omap input_from (km_inputs KeyDemo.compiled))) as H
    by (repeat (constructor; [vm_compute; reflexivity|]); constructor).
  exact (proj1 (Forall_forall _ _) H).
Defined.
