(* ===== verification/Plan.v ===== *)
(** * The plan compiler ([plan/src/Plan.ts])

    Drafts are ordered by the nodes their material names, keyed, checked for writes
    that overlap, and linked behind the writers of what they read.  A plan grows by
    generations; a recorded node is never rewritten.  [Map]s are finite maps, [Set]s
    that are only tested for membership are finite sets. *)

From S2P Require Import Prelude Capability FileSet Canonical StepKey.

(** ** Data *)

Record NodeEffects := mkEffects {
  ne_reads : list ReadDeclaration;
  ne_writes : list Declaration;
  ne_removes : option (list string);
  ne_boundaryMode : BoundaryMode
}.

Inductive PairStrategy := Serialize | Lane | FailPair.
Inductive RuntimeStrategy := DelayRebase | StopMerge.
Inductive NodeKind := StepNode | AgentNode | MergeNode.

#[export] Instance pair_strategy_eq_dec : EqDecision PairStrategy.
Proof. solve_decision. Defined.
#[export] Instance runtime_strategy_eq_dec : EqDecision RuntimeStrategy.
Proof. solve_decision. Defined.

Record ConflictAnnotation := mkConflict {
  ca_with : string;
  ca_paths : list string;
  ca_strategy : PairStrategy;
  ca_runtime : RuntimeStrategy
}.

Record PlanNode := mkNode {
  pn_id : string;
  pn_kind : NodeKind;
  pn_key : string;
  pn_material : KeyMaterial;
  pn_effects : NodeEffects;
  pn_dependsOn : list string;
  pn_conflicts : list ConflictAnnotation;
  pn_strategy : PairStrategy;
  pn_runtime : RuntimeStrategy;
  pn_priority : Z;
  pn_generation : Z
}.

Record Plan := mkPlan {
  pl_planId : string;
  pl_flow : string;
  pl_generation : Z;
  pl_baseDigest : string;
  pl_digest : string;
  pl_nodes : list PlanNode
}.

Record NodeDraft := mkDraft {
  nd_id : string;
  nd_material : KeyMaterial;
  nd_effects : NodeEffects;
  nd_kind : option NodeKind;
  nd_priority : option Z;
  nd_conflictStrategy : option PairStrategy;
  nd_runtimeStrategy : option RuntimeStrategy
}.

Inductive PlanError :=
| Cycle (id : string)
| UnknownDependency (id dependency : string)
| DuplicateNode (id : string)
| OverlapForbidden (earlier later : string) (paths : list string)
| InvalidEffects (id declared : string).

Inductive PlanFailure :=
| Refused (e : PlanError)
| Unkeyed (e : KeyError).

(** ** Pairs of nodes *)

Definition pairStrategy (left right : PairStrategy) : PairStrategy :=
  if bool_decide (left = FailPair) || bool_decide (right = FailPair) then FailPair
  else if bool_decide (left = Lane) || bool_decide (right = Lane) then Lane else Serialize.

Definition pairRuntime (left right : RuntimeStrategy) : RuntimeStrategy :=
  if bool_decide (left = StopMerge) || bool_decide (right = StopMerge) then StopMerge else DelayRebase.

Definition produces (effects : NodeEffects) : list Entry :=
  expand (ne_writes effects) ++ (EPath <$> default [] (ne_removes effects)).

Definition entry_label (e : Entry) : string :=
  match e with EPath p => p | ETree t => t | EGlob g => join "," (gl_include g) end.

Definition overlap (left right : NodeEffects) : list string :=
  flat_map (λ leftEntry, if existsb (overlaps leftEntry) (produces right) then [entry_label leftEntry] else [])
    (produces left).

Definition readsWhatItWrites (reader writer : NodeEffects) : bool :=
  existsb (λ entry, existsb (overlaps (read_entry entry)) (produces writer)) (expandReads (ne_reads reader)).

(** ** Topological order *)

Inductive Mark := Visiting | Done.
#[export] Instance mark_eq_dec : EqDecision Mark.
Proof. solve_decision. Defined.

Record Walk := mkWalk { w_state : gmap string Mark; w_ordered : list NodeDraft }.

(** [new Map(drafts.map((draft) => [draft.id, draft]))]. *)
Definition by_id (drafts : list NodeDraft) : gmap string NodeDraft :=
  fold_left (λ m draft, <[nd_id draft := draft]> m) drafts ∅.

Definition mark (id : string) (m : Mark) (w : Walk) : Walk := mkWalk (<[id := m]> (w_state w)) (w_ordered w).

Definition finish (draft : NodeDraft) (w : Walk) : Walk :=
  mkWalk (<[nd_id draft := Done]> (w_state w)) (w_ordered w ++ [draft]).

Section Topological.

Context (byId : gmap string NodeDraft) (known : gset string).

(** The loop over the dependencies of a node. *)
Fixpoint visit_each (visit : NodeDraft → Walk → option (PlanError + Walk)) (id : string) (deps : list string) (w : Walk)
    : option (PlanError + Walk) :=
  match deps with
  | [] => Some (inr w)
  | dependency :: deps =>
      if bool_decide (dependency ∈ known) then visit_each visit id deps w
      else match byId !! dependency with
           | None => Some (inl (UnknownDependency id dependency))
           | Some next => match visit next w with
                          | Some (inr w) => visit_each visit id deps w
                          | failure => failure
                          end
           end
  end.

(** [visit]; [None] when the fuel runs out. *)
Fixpoint visit (fuel : nat) (draft : NodeDraft) (w : Walk) : option (PlanError + Walk) :=
  match fuel with
  | O => None
  | S fuel =>
      match w_state w !! nd_id draft with
      | Some Done => Some (inr w)
      | Some Visiting => Some (inl (Cycle (nd_id draft)))
      | None =>
          match visit_each (visit fuel) (nd_id draft) (dependencies (nd_material draft)) (mark (nd_id draft) Visiting w) with
          | Some (inr w) => Some (inr (finish draft w))
          | failure => failure
          end
      end
  end.

Fixpoint visit_roots (fuel : nat) (drafts : list NodeDraft) (w : Walk) : option (PlanError + Walk) :=
  match drafts with
  | [] => Some (inr w)
  | draft :: drafts => match visit fuel draft w with
                       | Some (inr w) => visit_roots fuel drafts w
                       | failure => failure
                       end
  end.

End Topological.

(** A chain of visits holds distinct drafts, so their number is fuel enough. *)
Definition topological (drafts : list NodeDraft) (known : gset string) : option (PlanError + list NodeDraft) :=
  match visit_roots (by_id drafts) known (S (length drafts)) drafts (mkWalk ∅ []) with
  | Some (inr w) => Some (inr (w_ordered w))
  | Some (inl e) => Some (inl e)
  | None => None
  end.

(** ** Annotation *)

Definition reachable (nodes : list PlanNode) : gmap string (gset string) :=
  fold_left (λ closure node,
    let set := fold_left (λ set dependency, {[dependency]} ∪ set ∪ default ∅ (closure !! dependency)) (pn_dependsOn node) ∅ in
    <[pn_id node := set]> closure) nodes ∅.

Record Pass := mkPass {
  ps_closure : gmap string (gset string);
  ps_conflicts : gmap string (list ConflictAnnotation);
  ps_ordering : gmap string (list string)
}.

(** [map.set(key, [...map.get(key) ?? [], value])]. *)
Definition push {A} (key : string) (value : A) (m : gmap string (list A)) : gmap string (list A) :=
  <[key := default [] (m !! key) ++ [value]]> m.

Section Annotate.

Context (frozen : gset string).

Definition conflict_pair (earlier later : PlanNode) (p : Pass) : PlanError + Pass :=
  let paths := overlap (pn_effects earlier) (pn_effects later) in
  if bool_decide (paths = []) then inr p
  else if bool_decide (pn_id earlier ∈ default ∅ (ps_closure p !! pn_id later)) then inr p
  else
    let strategy := pairStrategy (pn_strategy earlier) (pn_strategy later) in
    let runtime := pairRuntime (pn_runtime earlier) (pn_runtime later) in
    if bool_decide (strategy = FailPair) then inl (OverlapForbidden (pn_id earlier) (pn_id later) paths)
    else
      let annotation other := mkConflict other paths strategy runtime in
      let conflicts := if bool_decide (pn_id earlier ∈ frozen) then ps_conflicts p
                       else push (pn_id earlier) (annotation (pn_id later)) (ps_conflicts p) in
      let conflicts := push (pn_id later) (annotation (pn_id earlier)) conflicts in
      if bool_decide (strategy = Serialize)
      then inr (mkPass (<[pn_id later := {[pn_id earlier]} ∪ default ∅ (ps_closure p !! pn_id later)]> (ps_closure p))
                  conflicts (push (pn_id later) (pn_id earlier) (ps_ordering p)))
      else inr (mkPass (ps_closure p) conflicts (ps_ordering p)).

Fixpoint conflict_row (earliers : list PlanNode) (later : PlanNode) (p : Pass) : PlanError + Pass :=
  match earliers with
  | [] => inr p
  | earlier :: earliers => match conflict_pair earlier later p with
                           | inl e => inl e
                           | inr p => conflict_row earliers later p
                           end
  end.

(** The first pass: [seen] are the nodes before the index. *)
Fixpoint conflict_pass (seen nodes : list PlanNode) (p : Pass) : PlanError + Pass :=
  match nodes with
  | [] => inr p
  | later :: nodes =>
      match (if bool_decide (pn_id later ∈ frozen) then inr p else conflict_row seen later p) with
      | inl e => inl e
      | inr p => conflict_pass (seen ++ [later]) nodes p
      end
  end.

Definition edge_sets (nodes : list PlanNode) (ordering : gmap string (list string)) : gmap string (list string) :=
  fold_left (λ m node, <[pn_id node := distinct [] (pn_dependsOn node ++ default [] (ordering !! pn_id node))]> m) nodes ∅.

(** The loop of [reaches]: the head of [stack] is its top.  [None] when the fuel runs out. *)
Fixpoint reaches_loop (fuel : nat) (edges : gmap string (list string)) (to : string) (stack : list string) (seen : gset string)
    : option bool :=
  match fuel with
  | O => None
  | S fuel =>
      match stack with
      | [] => Some false
      | current :: stack =>
          if bool_decide (current = to) then Some true
          else if bool_decide (current ∈ seen) then reaches_loop fuel edges to stack seen
          else reaches_loop fuel edges to (rev (default [] (edges !! current)) ++ stack) ({[current]} ∪ seen)
      end
  end.

(** Every edge is pushed at most once. *)
Definition reaches_fuel (edges : gmap string (list string)) : nat :=
  2 + sum_list_with (λ kv, length (snd kv)) (map_to_list edges).

Definition reaches (edges : gmap string (list string)) (from to : string) : bool :=
  default false (reaches_loop (reaches_fuel edges) edges to [from] ∅).

(** [set.add(value)] of a set kept in insertion order. *)
Definition set_add (value : string) (l : list string) : list string :=
  if bool_decide (value ∈ l) then l else l ++ [value].

Definition Links : Type := gmap string (list string) * gmap string (list string).

(** One reader and one writer: the ordering edges and the edge sets. *)
Definition reader_pair (reader writer : PlanNode) (s : Links) : Links :=
  if bool_decide (pn_id writer = pn_id reader) then s
  else if negb (readsWhatItWrites (pn_effects reader) (pn_effects writer)) then s
  else if reaches (snd s) (pn_id reader) (pn_id writer) then s
  else if reaches (snd s) (pn_id writer) (pn_id reader) then s
  else (push (pn_id reader) (pn_id writer) (fst s),
        <[pn_id reader := set_add (pn_id writer) (default [] (snd s !! pn_id reader))]> (snd s)).

Definition reader_row (nodes : list PlanNode) (s : Links) (reader : PlanNode) : Links :=
  if bool_decide (pn_id reader ∈ frozen) then s else fold_left (λ s writer, reader_pair reader writer s) nodes s.

Definition link (conflicts : gmap string (list ConflictAnnotation)) (ordering : gmap string (list string)) (node : PlanNode) : PlanNode :=
  if bool_decide (pn_id node ∈ frozen) then node else
  mkNode (pn_id node) (pn_kind node) (pn_key node) (pn_material node) (pn_effects node)
    (pn_dependsOn node ++ default [] (ordering !! pn_id node)) (default [] (conflicts !! pn_id node))
    (pn_strategy node) (pn_runtime node) (pn_priority node) (pn_generation node).

Definition annotate (nodes : list PlanNode) : PlanError + list PlanNode :=
  match conflict_pass [] nodes (mkPass (reachable nodes) ∅ ∅) with
  | inl e => inl e
  | inr p =>
      let links := fold_left (reader_row nodes) nodes (ps_ordering p, edge_sets nodes (ps_ordering p)) in
      inr (link (ps_conflicts p) (fst links) <$> nodes)
  end.

End Annotate.

(** ** The digest of a plan *)

Definition read_entry_document (e : ReadEntry) : Value := entry_document (read_entry e).

Definition declaration_document (d : Declaration) : Value :=
  match d with
  | DEntry e => entry_document e
  | DFilegroup name entries =>
      VObj [member "_tag" (str "Filegroup"); member "name" (str name); member "entries" (VArr (entry_document <$> entries))]
  end.

Definition read_declaration_document (d : ReadDeclaration) : Value :=
  match d with
  | RDEntry e => read_entry_document e
  | RDFilegroup name entries =>
      VObj [member "_tag" (str "Filegroup"); member "name" (str name); member "entries" (VArr (read_entry_document <$> entries))]
  end.

Definition effects_document (e : NodeEffects) : Value :=
  VObj ([member "reads" (VArr (read_declaration_document <$> ne_reads e));
         member "writes" (VArr (declaration_document <$> ne_writes e))] ++
        optional "removes" (strs <$> ne_removes e) ++ [member "boundaryMode" (str (mode_text (ne_boundaryMode e)))]).

Definition strategy_text (s : PairStrategy) : string :=
  match s with Serialize => "serialize" | Lane => "lane" | FailPair => "fail" end.
Definition runtime_text (r : RuntimeStrategy) : string :=
  match r with DelayRebase => "delay-rebase" | StopMerge => "stop-merge" end.
Definition node_kind_text (k : NodeKind) : string :=
  match k with StepNode => "step" | AgentNode => "agent" | MergeNode => "merge" end.

Definition conflict_document (c : ConflictAnnotation) : Value :=
  VObj [member "with" (str (ca_with c)); member "paths" (strs (ca_paths c));
        member "strategy" (str (strategy_text (ca_strategy c))); member "runtime" (str (runtime_text (ca_runtime c)))].

Definition node_document (n : PlanNode) : Value :=
  VObj [member "id" (str (pn_id n)); member "kind" (str (node_kind_text (pn_kind n))); member "key" (str (pn_key n));
        member "dependsOn" (strs (pn_dependsOn n)); member "conflicts" (VArr (conflict_document <$> pn_conflicts n));
        member "effects" (effects_document (pn_effects n)); member "priority" (VNum (Finite (pn_priority n)))].

Definition digestOf `{Crypto} (planId flow : string) (nodes : list PlanNode) : Keyed string :=
  content (mkContent (VObj [member "kind" (str "plan"); member "planId" (str planId); member "flow" (str flow)])
             [("nodes", Plain (VArr (node_document <$> nodes)))] [] [] None None).

(** ** Keying *)

Definition patterns (e : Entry) : list string :=
  match e with EPath p => [p] | ETree t => [t] | EGlob g => gl_include g ++ default [] (gl_exclude g) end.

Definition validateEffects (id : string) (effects : NodeEffects) : option PlanError :=
  let removes := default [] (ne_removes effects) in
  let writes := expand (ne_writes effects) in
  let declared := (read_entry <$> expandReads (ne_reads effects)) ++ writes ++ (EPath <$> removes) in
  match List.find (λ pattern, negb (workspaceRelative pattern)) (flat_map patterns declared) with
  | Some pattern => Some (InvalidEffects id pattern)
  | None => match List.find (λ removal, existsb (λ entry, overlaps entry (EPath removal)) writes) removes with
            | Some removal => Some (InvalidEffects id removal)
            | None => None
            end
  end.

Fixpoint duplicate (known : gset string) (drafts : list NodeDraft) : option string :=
  match drafts with
  | [] => None
  | draft :: drafts =>
      if bool_decide (nd_id draft ∈ known) then Some (nd_id draft) else duplicate ({[nd_id draft]} ∪ known) drafts
  end.

Definition keyed_node (draft : NodeDraft) (key : string) (generation : Z) : PlanNode :=
  mkNode (nd_id draft) (default StepNode (nd_kind draft)) key (nd_material draft) (nd_effects draft)
    (dependencies (nd_material draft)) [] (default Serialize (nd_conflictStrategy draft))
    (default DelayRebase (nd_runtimeStrategy draft)) (default 0%Z (nd_priority draft)) generation.

Fixpoint key_drafts `{Crypto} (generation : Z) (drafts : list NodeDraft) (digests : gmap string string) : PlanFailure + list PlanNode :=
  match drafts with
  | [] => inr []
  | draft :: drafts =>
      match validateEffects (nd_id draft) (nd_effects draft) with
      | Some invalid => inl (Refused invalid)
      | None =>
          match fromKeyMaterial (nd_material draft) digests with
          | inl e => inl (Unkeyed e)
          | inr key =>
              match key_drafts generation drafts (<[nd_id draft := key]> digests) with
              | inl e => inl e
              | inr keyed => inr (keyed_node draft key generation :: keyed)
              end
          end
      end
  end.

Definition node_digests (nodes : list PlanNode) : gmap string string :=
  fold_left (λ m node, <[pn_id node := pn_key node]> m) nodes ∅.

Definition node_ids (nodes : list PlanNode) : gset string := list_to_set (pn_id <$> nodes).

(** [None] when the topological walk runs out of fuel, which it does not. *)
Definition keyNodes `{Crypto} (drafts : list NodeDraft) (existing : list PlanNode) (generation : Z) : option (PlanFailure + list PlanNode) :=
  match duplicate (node_ids existing) drafts with
  | Some id => Some (inl (Refused (DuplicateNode id)))
  | None =>
      match topological drafts (node_ids existing) with
      | None => None
      | Some (inl e) => Some (inl (Refused e))
      | Some (inr sorted) => Some (key_drafts generation sorted (node_digests existing))
      end
  end.

(** ** Plans *)

Definition compile `{Crypto} (planId flow : string) (drafts : list NodeDraft) : option (PlanFailure + Plan) :=
  match keyNodes drafts [] 0 with
  | None => None
  | Some (inl e) => Some (inl e)
  | Some (inr keyed) =>
      Some match annotate ∅ keyed with
           | inl e => inl (Refused e)
           | inr nodes => match digestOf planId flow nodes with
                          | inl e => inl (Unkeyed e)
                          | inr d => inr (mkPlan planId flow 0 d d nodes)
                          end
           end
  end.

Definition append `{Crypto} (plan : Plan) (drafts : list NodeDraft) : option (PlanFailure + Plan) :=
  let generation := (pl_generation plan + 1)%Z in
  match keyNodes drafts (pl_nodes plan) generation with
  | None => None
  | Some (inl e) => Some (inl e)
  | Some (inr keyed) =>
      Some match annotate (node_ids (pl_nodes plan)) (pl_nodes plan ++ keyed) with
           | inl e => inl (Refused e)
           | inr nodes => match digestOf (pl_planId plan) (pl_flow plan) nodes with
                          | inl e => inl (Unkeyed e)
                          | inr d => inr (mkPlan (pl_planId plan) (pl_flow plan) generation (pl_baseDigest plan) d nodes)
                          end
           end
  end.

Definition generationNodes (plan : Plan) : list PlanNode :=
  List.filter (λ node, bool_decide (pn_generation node = pl_generation plan)) (pl_nodes plan).
