(* ===== verification/PlanOrder.v ===== *)
(** * Ordering drafts, and reachability

    The walk over the drafts always ends; it lists every draft once, behind the nodes
    its material names, or reports a cycle of the graph or a name the plan does not
    have. *)

From S2P Require Import Prelude Capability FileSet Canonical StepKey StepKeyProps Plan.
From stdpp Require Import relations.

(** ** Maps filled by a loop *)

Lemma fold_insert_lookup {A V} (k : A → string) (v : A → V) l (m : gmap string V) i y :
  NoDup (k <$> l) →
  fold_left (λ m x, <[k x := v x]> m) l m !! i = Some y ↔
  (∃ x, x ∈ l ∧ k x = i ∧ v x = y) ∨ (i ∉ k <$> l ∧ m !! i = Some y).
Proof.
  revert m. induction l as [|x l IH]; intros m Hd; cbn.
  - split; [intros H; right; split; [apply not_elem_of_nil|done]|]. intros [(x & ?%not_elem_of_nil & _)|[_ H]]; done.
  - apply NoDup_cons in Hd as [Hx Hd]. rewrite IH by done. rewrite not_elem_of_cons. split.
    + intros [(z & Hz & <- & <-)|[Hi Hm]]; [left; exists z; split_and!; [by right|done..]|].
      destruct (decide (k x = i)) as [<-|Hne].
      * rewrite lookup_insert_eq in Hm. injection Hm as <-. left. exists x. split_and!; [by left|done..].
      * rewrite lookup_insert_ne in Hm by done. right. done.
    + intros [(z & [->|Hz]%elem_of_cons & <- & <-)|[[Hne Hi] Hm]].
      * right. split; [done|]. by rewrite lookup_insert_eq.
      * left. by exists z.
      * right. split; [done|]. by rewrite lookup_insert_ne.
Qed.

Section Walk.

Context (drafts : list NodeDraft) (known : gset string).
Hypothesis unique : NoDup (nd_id <$> drafts).

Lemma by_id_lookup id d : by_id drafts !! id = Some d ↔ d ∈ drafts ∧ nd_id d = id.
Proof.
  unfold by_id. rewrite (fold_insert_lookup nd_id (λ d, d)) by done. rewrite lookup_empty. naive_solver.
Qed.

(** [a]'s material names [b], a node of this batch. *)
Definition depends (a b : string) : Prop :=
  ∃ d, d ∈ drafts ∧ nd_id d = a ∧ b ∈ dependencies (nd_material d) ∧ b ∉ known.

Definition visiting (w : Walk) : gset string := dom (filter (λ kv, kv.2 = Visiting) (w_state w)).

Lemma visiting_spec w id : id ∈ visiting w ↔ w_state w !! id = Some Visiting.
Proof.
  unfold visiting. rewrite elem_of_dom. split.
  - intros [m [Hm Hv]%map_lookup_filter_Some]. cbn in Hv. by subst.
  - intros Hm. exists Visiting. by apply map_lookup_filter_Some.
Qed.

(** Every draft stands behind the batch's nodes its material names. *)
Definition ordered_ok (l : list NodeDraft) : Prop :=
  ∀ l1 d l2, l = l1 ++ d :: l2 → ∀ b, b ∈ dependencies (nd_material d) → b ∈ known ∨ b ∈ nd_id <$> l1.

Record walk_ok (w : Walk) : Prop := {
  wk_done : ∀ id, w_state w !! id = Some Done ↔ id ∈ nd_id <$> w_ordered w;
  wk_unique : NoDup (nd_id <$> w_ordered w);
  wk_drafts : ∀ d, d ∈ w_ordered w → d ∈ drafts;
  wk_marked : ∀ id m, w_state w !! id = Some m → id ∈ nd_id <$> drafts;
  wk_ordered : ordered_ok (w_ordered w)
}.

(** A visit leaves the open nodes open and the finished ones finished. *)
Definition extends (w w' : Walk) : Prop :=
  visiting w' = visiting w ∧ (∀ id, w_state w !! id = Some Done → w_state w' !! id = Some Done).

Definition explained (e : PlanError) : Prop :=
  match e with
  | Cycle id => tc depends id id
  | UnknownDependency id dependency => depends id dependency ∧ dependency ∉ nd_id <$> drafts
  | _ => False
  end.

Definition visit_result (w : Walk) (finished : Walk → Prop) (r : option (PlanError + Walk)) : Prop :=
  match r with
  | None => False
  | Some (inl e) => explained e
  | Some (inr w') => walk_ok w' ∧ extends w w' ∧ finished w'
  end.

Lemma extends_trans w1 w2 w3 : extends w1 w2 → extends w2 w3 → extends w1 w3.
Proof. intros [E1 D1] [E2 D2]. split; [congruence|auto]. Qed.

Lemma visiting_room w : walk_ok w → size (visiting w) ≤ length drafts.
Proof.
  intros Hw. etransitivity; [apply (subseteq_size _ (list_to_set (nd_id <$> drafts)))|].
  - intros id Hid%visiting_spec. apply elem_of_list_to_set. by eapply wk_marked.
  - rewrite size_list_to_set by done. by rewrite length_fmap.
Qed.

Lemma mark_ok d w : d ∈ drafts → walk_ok w → w_state w !! nd_id d = None → walk_ok (mark (nd_id d) Visiting w).
Proof.
  intros Hd Hw Hn. destruct Hw as [H1 H2 H3 H4 H5]. split; cbn; try done.
  - intros id. destruct (decide (nd_id d = id)) as [<-|Hne].
    + rewrite lookup_insert_eq. split; [done|]. intros Hin. apply H1 in Hin. congruence.
    + by rewrite lookup_insert_ne.
  - intros id m. destruct (decide (nd_id d = id)) as [<-|Hne].
    + intros _. apply list_elem_of_fmap. by exists d.
    + rewrite lookup_insert_ne by done. apply H4.
Qed.

Lemma visiting_mark d w : w_state w !! nd_id d = None → visiting (mark (nd_id d) Visiting w) = {[nd_id d]} ∪ visiting w.
Proof.
  intros Hn. apply set_eq. intros id. rewrite elem_of_union, elem_of_singleton, !visiting_spec. cbn.
  destruct (decide (nd_id d = id)) as [<-|Hne].
  - rewrite lookup_insert_eq. naive_solver.
  - rewrite lookup_insert_ne by done. naive_solver.
Qed.

Lemma finish_ok d w :
  d ∈ drafts → walk_ok w → w_state w !! nd_id d = Some Visiting →
  (∀ b, b ∈ dependencies (nd_material d) → b ∈ known ∨ w_state w !! b = Some Done) → walk_ok (finish d w).
Proof.
  intros Hd Hw Hv Hdeps. destruct Hw as [H1 H2 H3 H4 H5]. split; cbn.
  - intros id. rewrite fmap_app, elem_of_app. cbn. rewrite list_elem_of_singleton.
    destruct (decide (nd_id d = id)) as [<-|Hne].
    + rewrite lookup_insert_eq. naive_solver.
    + rewrite lookup_insert_ne, H1 by done. naive_solver.
  - rewrite fmap_app. apply NoDup_app. split_and!; [done| |apply NoDup_singleton].
    intros id Hin ->%list_elem_of_singleton. apply H1 in Hin. congruence.
  - intros x [Hx|Hx%list_elem_of_singleton]%elem_of_app; [by apply H3|by subst].
  - intros id m. destruct (decide (nd_id d = id)) as [<-|Hne].
    + intros _. apply list_elem_of_fmap. by exists d.
    + rewrite lookup_insert_ne by done. apply H4.
  - intros l1 x l2 E b Hb. destruct l2 as [|y l2 _] using rev_ind.
    + apply app_inj_tail in E as [<- <-]. destruct (Hdeps b Hb) as [?|Hdone]; [by left|right]. by apply H1.
    + rewrite app_comm_cons, app_assoc in E. apply app_inj_tail in E as [E _]. by eapply H5.
Qed.

Lemma visiting_finish d w : w_state w !! nd_id d = Some Visiting → visiting (finish d w) = visiting w ∖ {[nd_id d]}.
Proof.
  intros Hv. apply set_eq. intros id. rewrite elem_of_difference, elem_of_singleton, !visiting_spec. cbn.
  destruct (decide (nd_id d = id)) as [<-|Hne].
  - rewrite lookup_insert_eq. naive_solver.
  - rewrite lookup_insert_ne by done. naive_solver.
Qed.

Lemma each_spec n d deps w :
  (∀ x w, x ∈ drafts → walk_ok w → length drafts < n + size (visiting w) → (∀ v, v ∈ visiting w → tc depends v (nd_id x)) →
     visit_result w (λ w', w_state w' !! nd_id x = Some Done) (visit (by_id drafts) known n x w)) →
  d ∈ drafts → (∀ b, b ∈ deps → b ∈ dependencies (nd_material d)) → walk_ok w → length drafts < n + size (visiting w) →
  (∀ v, v ∈ visiting w → rtc depends v (nd_id d)) →
  visit_result w (λ w', ∀ b, b ∈ deps → b ∈ known ∨ w_state w' !! b = Some Done)
    (visit_each (by_id drafts) known (visit (by_id drafts) known n) (nd_id d) deps w).
Proof.
  intros IH Hd. revert w. induction deps as [|b deps IHd]; intros w Hdeps Hw Hn Hv; cbn [visit_each].
  - split_and!; [done|by split|]. by intros b ?%not_elem_of_nil.
  - case_bool_decide as Hk.
    + specialize (IHd w). destruct (visit_each _ _ _ _ deps w) as [[e|w']|]; cbn in *.
      * apply IHd; auto. intros c Hc. apply Hdeps. by right.
      * destruct IHd as (H1 & H2 & H3); auto; [intros c Hc; apply Hdeps; by right|]. split_and!; [done..|].
        intros c [->|Hc]%elem_of_cons; [by left|by apply H3].
      * apply IHd; auto. intros c Hc. apply Hdeps. by right.
    + assert (depends (nd_id d) b) as Hedge by (exists d; split_and!; [done|done|apply Hdeps; by left|done]).
      destruct (by_id drafts !! b) as [next|] eqn:Hb.
      * apply by_id_lookup in Hb as [Hnext <-].
        pose proof (IH next w Hnext Hw Hn) as Hvisit.
        destruct (visit _ _ n next w) as [[e|w']|]; cbn in Hvisit.
        -- apply Hvisit. intros v Hin. eapply tc_rtc_l; [by apply Hv|by apply tc_once].
        -- destruct Hvisit as (Hw' & Hext & Hdone); [intros v Hin; eapply tc_rtc_l; [by apply Hv|by apply tc_once]|].
           specialize (IHd w'). destruct Hext as [Evis Hmono]. rewrite Evis in IHd.
           assert (∀ c, c ∈ deps → c ∈ dependencies (nd_material d)) as Hrest by (intros c Hc; apply Hdeps; by right).
           destruct (visit_each _ _ _ _ deps w') as [[e|w'']|]; cbn in *; [by apply IHd| |by apply IHd].
           destruct IHd as (H1 & H2 & H3); auto. split_and!; [done|by eapply extends_trans; [split|]|].
           intros c [->|Hc]%elem_of_cons; [right; by apply H2|by apply H3].
        -- apply Hvisit. intros v Hin. eapply tc_rtc_l; [by apply Hv|by apply tc_once].
      * split; [done|]. intros (x & Ex & Hx)%list_elem_of_fmap.
        assert (by_id drafts !! b = Some x) by (by apply by_id_lookup). congruence.
Qed.

Lemma visit_spec n d w :
  d ∈ drafts → walk_ok w → length drafts < n + size (visiting w) → (∀ v, v ∈ visiting w → tc depends v (nd_id d)) →
  visit_result w (λ w', w_state w' !! nd_id d = Some Done) (visit (by_id drafts) known n d w).
Proof.
  revert d w. induction n as [|n IH]; intros d w Hd Hw Hn Hv.
  { pose proof (visiting_room w Hw). lia. }
  cbn [visit]. destruct (w_state w !! nd_id d) as [[]|] eqn:Hs.
  - by apply Hv, visiting_spec.
  - by split_and!.
  - set (w0 := mark (nd_id d) Visiting w).
    assert (visiting w0 = {[nd_id d]} ∪ visiting w) as E0 by (by apply visiting_mark).
    assert (nd_id d ∉ visiting w) as Hnew by (rewrite visiting_spec; congruence).
    pose proof (each_spec n d (dependencies (nd_material d)) w0 IH Hd) as Heach.
    destruct (visit_each _ _ _ _ _ w0) as [[e|w']|]; cbn in Heach.
    1, 3: apply Heach; [done|by apply mark_ok|rewrite E0, size_union, size_singleton by set_solver; lia|];
      rewrite E0; intros v [->%elem_of_singleton|Hin]%elem_of_union; [done|by apply tc_rtc, Hv].
    destruct Heach as (Hw' & [Evis Hmono] & Hdeps);
      [done|by apply mark_ok|rewrite E0, size_union, size_singleton by set_solver; lia| |].
    { rewrite E0. intros v [->%elem_of_singleton|Hin]%elem_of_union; [done|by apply tc_rtc, Hv]. }
    assert (w_state w' !! nd_id d = Some Visiting) as Hvis by (apply visiting_spec; rewrite Evis, E0; set_solver).
    split_and!.
    + by apply finish_ok.
    + split; [rewrite visiting_finish, Evis, E0 by done; set_solver|].
      intros id Hid. cbn. rewrite lookup_insert_ne by congruence. apply Hmono. cbn. by rewrite lookup_insert_ne by congruence.
    + cbn. apply lookup_insert_eq.
Qed.

Lemma roots_spec l w :
  (∀ d, d ∈ l → d ∈ drafts) → walk_ok w → visiting w = ∅ →
  visit_result w (λ w', ∀ d, d ∈ l → w_state w' !! nd_id d = Some Done)
    (visit_roots (by_id drafts) known (S (length drafts)) l w).
Proof.
  revert w. induction l as [|d l IH]; intros w Hl Hw Hv; cbn [visit_roots].
  - split_and!; [done|by split|]. by intros d ?%not_elem_of_nil.
  - pose proof (visit_spec (S (length drafts)) d w) as Hd.
    destruct (visit _ _ _ d w) as [[e|w1]|]; cbn [visit_result] in Hd.
    1, 3: apply Hd; [apply Hl; by left|done|lia|rewrite Hv; set_solver].
    destruct Hd as (H1 & [E1 M1] & D1); [apply Hl; by left|done|lia|rewrite Hv; set_solver|].
    specialize (IH w1). destruct (visit_roots _ _ _ l w1) as [[e|w2]|]; cbn in IH.
    1, 3: apply IH; [intros x Hx; apply Hl; by right|done|congruence].
    destruct IH as (H2 & [E2 M2] & D2); [intros x Hx; apply Hl; by right|done|congruence|].
    split_and!; [done|split; [congruence|auto]|]. intros x [->|Hx]%elem_of_cons; [by apply M2|by apply D2].
Qed.

Lemma walk_start_ok : walk_ok (mkWalk ∅ []).
Proof.
  split; cbn.
  - intros id. rewrite lookup_empty. split; [done|by intros ?%not_elem_of_nil].
  - constructor.
  - by intros d ?%not_elem_of_nil.
  - intros id m. by rewrite lookup_empty.
  - intros l1 d l2 E. by destruct l1.
Qed.

Definition topological_result (r : option (PlanError + list NodeDraft)) : Prop :=
  match r with
  | None => False
  | Some (inl e) => explained e
  | Some (inr l) => l ≡ₚ drafts ∧ ordered_ok l
  end.

Lemma topological_spec : topological_result (topological drafts known).
Proof.
  unfold topological. pose proof (roots_spec drafts (mkWalk ∅ []) (λ d H, H) walk_start_ok) as Hr.
  destruct (visit_roots _ _ _ drafts _) as [[e|w]|]; cbn in Hr |- *.
  1, 3: apply Hr; apply set_eq; intros id; rewrite visiting_spec; cbn; rewrite lookup_empty; set_solver.
  destruct Hr as (Hw & _ & Hdone).
  { apply set_eq. intros id. rewrite visiting_spec. cbn. rewrite lookup_empty. set_solver. }
  destruct Hw as [H1 H2 H3 H4 H5]. split; [|done].
  apply NoDup_Permutation; [by eapply NoDup_fmap_1|by eapply NoDup_fmap_1|]. intros d. split; [apply H3|].
  intros Hd. pose proof (Hdone d Hd) as Hin. apply H1, list_elem_of_fmap in Hin as (d' & E & Hd').
  by rewrite (NoDup_key_inj nd_id drafts d d' unique Hd (H3 _ Hd') E).
Qed.

End Walk.

(** ** Orders by position *)

Definition acyclic (R : relation string) : Prop := ∀ x, ¬ tc R x x.

(** A relation that leads to earlier positions of a list has no cycle through it. *)
Lemma position_tc (R : relation string) (ids : list string) :
  (∀ a b i, R a b → ids !! i = Some a → ∃ j, j < i ∧ ids !! j = Some b) →
  ∀ a b i, tc R a b → ids !! i = Some a → ∃ j, j < i ∧ ids !! j = Some b.
Proof.
  intros HR a b i Ht. revert i. induction Ht as [a b H|a b c H _ IH]; intros i Hi; [by eapply HR|].
  destruct (HR _ _ _ H Hi) as (j & Hj & Hb). destruct (IH _ Hb) as (k & Hk & Hc). exists k. split; [lia|done].
Qed.

Lemma position_acyclic (R : relation string) (ids : list string) :
  NoDup ids → (∀ a b i, R a b → ids !! i = Some a → ∃ j, j < i ∧ ids !! j = Some b) →
  ∀ x, x ∈ ids → ¬ tc R x x.
Proof.
  intros Hd HR x [i Hi]%list_elem_of_lookup Ht. destruct (position_tc R ids HR _ _ _ Ht Hi) as (j & Hj & Hx).
  pose proof (NoDup_lookup _ _ _ _ Hd Hi Hx). lia.
Qed.

Lemma ordered_positions known l l' a b i :
  l ≡ₚ l' → NoDup (nd_id <$> l) → ordered_ok known l → depends l' known a b → (nd_id <$> l) !! i = Some a →
  ∃ j, j < i ∧ (nd_id <$> l) !! j = Some b.
Proof.
  intros Hp Hd Ho (d & Hin & <- & Hb & Hk) Hi. rewrite <-Hp in Hin. apply list_elem_of_split in Hin as (l1 & l2 & ->).
  destruct (Ho l1 d l2 eq_refl b Hb) as [?|Hl1]; [done|].
  assert (i = length l1) as ->.
  { apply (NoDup_lookup _ _ _ (nd_id d) Hd Hi). rewrite fmap_app, lookup_app_r by by rewrite length_fmap.
    by rewrite length_fmap, Nat.sub_diag. }
  apply list_elem_of_lookup in Hl1 as [j Hj]. exists j. pose proof (lookup_lt_Some _ _ _ Hj) as Hlt.
  rewrite length_fmap in Hlt. split; [done|]. rewrite fmap_app, lookup_app_l by by rewrite length_fmap. done.
Qed.

Lemma ordered_acyclic drafts known l :
  NoDup (nd_id <$> drafts) → l ≡ₚ drafts → ordered_ok known l → acyclic (depends drafts known).
Proof.
  intros Hd Hp Ho x Ht.
  assert (x ∈ nd_id <$> l) as Hx.
  { rewrite Hp. assert (∃ y, depends drafts known x y) as (y & d & Hin & <- & _)
      by (inversion Ht as [? ? H|? y ? H]; eexists; exact H).
    apply list_elem_of_fmap. by exists d. }
  revert x Hx Ht. assert (NoDup (nd_id <$> l)) by by rewrite Hp.
  apply position_acyclic; [done|]. intros a b i. by apply ordered_positions.
Qed.

(** C22. Planning orders every graph it accepts and accepts every graph that has an
    order: the walk always ends; it returns all the drafts, each behind the nodes its
    material names, exactly when those names all exist and no node depends on itself
    through others, and otherwise it reports a cycle that is there or a name that is
    missing. *)
Theorem topological_decides (drafts : list NodeDraft) (known : gset string) :
  NoDup (nd_id <$> drafts) →
  (∃ l, topological drafts known = Some (inr l) ∧ l ≡ₚ drafts ∧ ordered_ok known l ∧ acyclic (depends drafts known) ∧
        ∀ a b, depends drafts known a b → b ∈ nd_id <$> drafts) ∨
  (∃ e, topological drafts known = Some (inl e) ∧ explained drafts known e).
Proof.
  intros Hd. pose proof (topological_spec drafts known Hd) as H. unfold topological_result in H.
  destruct (topological drafts known) as [[e|l]|]; [right; by exists e|left|done].
  destruct H as [Hp Ho]. exists l. split_and!; [done|done|done|by eapply ordered_acyclic|].
  intros a b (d & Hin & <- & Hb & Hk). rewrite <-Hp in Hin |- *. apply list_elem_of_split in Hin as (l1 & l2 & ->).
  destruct (Ho l1 d l2 eq_refl b Hb) as [?|Hl1]; [done|]. rewrite fmap_app. apply elem_of_app. by left.
Qed.

(** ** Reachability in the plan

    The search of [annotate] ends and decides reachability; a relation stays acyclic
    when an edge is added whose target does not lead back. *)

(** [b] is in the edge set of [a]. *)
Definition linked (edges : gmap string (list string)) (a b : string) : Prop := b ∈ default [] (edges !! a).

(** The edges that may still be pushed. *)
Definition weight (seen : gset string) (l : list (string * list string)) : nat :=
  sum_list_with (λ kv, if decide (kv.1 ∈ seen) then 0 else length kv.2) l.

Lemma weight_cons seen k es l :
  weight seen ((k, es) :: l) = (if decide (k ∈ seen) then 0 else length es) + weight seen l.
Proof. done. Qed.

Lemma weight_same x seen l : x ∉ l.*1 → weight ({[x]} ∪ seen) l = weight seen l.
Proof.
  induction l as [|[k es] l IH]; [done|]. rewrite fmap_cons, not_elem_of_cons, !weight_cons. cbn.
  intros [Hk Hl]. rewrite IH by done.
  repeat case_decide; set_solver.
Qed.

Lemma weight_add x es seen l :
  NoDup l.*1 → (x, es) ∈ l → x ∉ seen → length es + weight ({[x]} ∪ seen) l = weight seen l.
Proof.
  induction l as [|[k fs] l IH]; [by intros _ ?%not_elem_of_nil|]. rewrite fmap_cons, !weight_cons. intros [Hk Hd]%NoDup_cons Hin Hx.
  apply elem_of_cons in Hin as [[= <- <-]|Hin].
  - rewrite weight_same by done. repeat case_decide; set_solver.
  - assert (k ≠ x) as Hne by (intros ->; apply Hk, list_elem_of_fmap; by exists (x, es)).
    rewrite <-IH by done. repeat case_decide; try lia; set_solver.
Qed.

Section Search.

Context (edges : gmap string (list string)) (to : string).

(** What has been expanded leads only to what is expanded or waiting. *)
Definition search_ok (stack : list string) (seen : gset string) : Prop :=
  to ∉ seen ∧ ∀ x y, x ∈ seen → linked edges x y → y ∈ seen ∨ y ∈ stack.

Lemma search_exit stack seen x :
  search_ok stack seen → x ∈ seen → rtc (linked edges) x to → ∃ s, s ∈ stack ∧ rtc (linked edges) s to.
Proof.
  intros [Hto Hclosed] Hx Hp. induction Hp as [|x y z Hxy Hyz IH]; [done|].
  destruct (Hclosed x y Hx Hxy) as [Hy|Hy]; [by apply IH|by exists y].
Qed.

Lemma push_room current seen :
  current ∉ seen →
  length (rev (default [] (edges !! current))) + weight ({[current]} ∪ seen) (map_to_list edges) ≤
  weight seen (map_to_list edges).
Proof.
  intros Hs. rewrite length_rev. destruct (edges !! current) as [es|] eqn:E; cbn.
  - rewrite (weight_add current es); [done|apply NoDup_fst_map_to_list|by apply elem_of_map_to_list|done].
  - rewrite weight_same; [done|]. intros ([k es] & -> & Hin)%list_elem_of_fmap. apply elem_of_map_to_list in Hin. cbn in E. congruence.
Qed.

Lemma reaches_loop_spec fuel stack seen :
  search_ok stack seen → length stack + weight seen (map_to_list edges) < fuel →
  ∃ r, reaches_loop fuel edges to stack seen = Some r ∧ (r = true ↔ ∃ s, s ∈ stack ∧ rtc (linked edges) s to).
Proof.
  revert stack seen. induction fuel as [|fuel IH]; intros stack seen Hok Hf; [lia|]. cbn [reaches_loop].
  destruct stack as [|current stack].
  { exists false. split; [done|]. split; [done|]. by intros (s & ?%not_elem_of_nil & _). }
  case_bool_decide as Hc; [|case_bool_decide as Hs].
  - subst current. exists true. split; [done|]. split; [|done]. intros _. exists to. split; [by left|done].
  - assert (search_ok stack seen) as Hok'.
    { destruct Hok as [Hto Hcl]. split; [done|]. intros x y Hx Hxy.
      destruct (Hcl x y Hx Hxy) as [?|[->|?]%elem_of_cons]; auto. }
    destruct (IH stack seen Hok') as (r & Er & Hr); [cbn in Hf; lia|]. exists r. split; [done|]. rewrite Hr. split.
    + intros (s & Hin & Hp). exists s. split; [by right|done].
    + intros (s & [->|Hin]%elem_of_cons & Hp); [by apply (search_exit stack seen current)|by exists s].
  - set (next := default [] (edges !! current)).
    destruct (IH (rev next ++ stack) ({[current]} ∪ seen)) as (r & Er & Hr).
    + destruct Hok as [Hto Hcl]. split; [set_solver|]. intros x y Hx Hxy.
      apply elem_of_union in Hx as [->%elem_of_singleton|Hx].
      * right. apply elem_of_app. left. apply list_elem_of_In, in_rev. rewrite rev_involutive. by apply list_elem_of_In.
      * destruct (Hcl x y Hx Hxy) as [?|[->|?]%elem_of_cons]; [left; set_solver|left; set_solver|right].
        apply elem_of_app. by right.
    + rewrite length_app. pose proof (push_room current seen Hs) as Hroom. fold next in Hroom. cbn in Hf. lia.
    + exists r. split; [done|]. rewrite Hr. split.
      * intros (s & [Hin|Hin]%elem_of_app & Hp); [|exists s; split; [by right|done]].
        apply list_elem_of_In, in_rev, list_elem_of_In in Hin. exists current. split; [by left|]. by apply rtc_l with s.
      * intros (s & [->|Hin]%elem_of_cons & Hp); [|exists s; split; [apply elem_of_app; by right|done]].
        apply rtc_inv in Hp as [->|(y & Hy & Hp)]; [done|]. exists y. split; [|done].
        apply elem_of_app. left. apply list_elem_of_In, in_rev. rewrite rev_involutive. by apply list_elem_of_In.
Qed.

End Search.

Lemma reaches_runs edges from to :
  ∃ r, reaches_loop (reaches_fuel edges) edges to [from] ∅ = Some r ∧ (r = true ↔ rtc (linked edges) from to).
Proof.
  destruct (reaches_loop_spec edges to (reaches_fuel edges) [from] ∅) as (r & Er & Hr).
  - split; set_solver.
  - unfold reaches_fuel, weight. cbn [length]. apply Nat.lt_succ_r, le_n_S.
    induction (map_to_list edges) as [|kv l IH]; [done|]. cbn. rewrite decide_False by set_solver. lia.
  - exists r. split; [done|]. rewrite Hr. split.
    + by intros (s & ->%list_elem_of_singleton & H).
    + intros H. exists from. split; [by left|done].
Qed.

Lemma reaches_spec edges from to : reaches edges from to = true ↔ rtc (linked edges) from to.
Proof. unfold reaches. destruct (reaches_runs edges from to) as (r & -> & Hr). done. Qed.

(** The search the compiler orders readers with always ends within its fuel - every
    edge is pushed at most once - and answers whether a path of the current edges leads
    from one node to the other, cycles in the edges included. *)
Theorem reaches_terminates (edges : gmap string (list string)) (from to : string) :
  ∃ r, reaches_loop (reaches_fuel edges) edges to [from] ∅ = Some r ∧
       reaches edges from to = r ∧ (r = true ↔ rtc (linked edges) from to).
Proof.
  destruct (reaches_runs edges from to) as (r & Er & Hr). exists r. split_and!; [done| |done].
  unfold reaches. by rewrite Er.
Qed.

(** ** Acyclic relations *)

Lemma tc_mono {A} (R S : relation A) a b : (∀ x y, R x y → S x y) → tc R a b → tc S a b.
Proof. intros H. induction 1 as [a b E|a b c E _ IH]; [apply tc_once; auto|by eapply tc_l; [apply H|]]. Qed.

Lemma acyclic_mono (R S : relation string) : (∀ x y, R x y → S x y) → acyclic S → acyclic R.
Proof. intros H Ha x Ht. by apply (Ha x), (tc_mono R). Qed.

Definition with_edge (R : relation string) (a b : string) : relation string := λ x y, R x y ∨ x = a ∧ y = b.

(** A path that uses the new edge splits at its last use. *)
Lemma with_edge_path R a b x y : rtc (with_edge R a b) x y → rtc R x y ∨ rtc R b y ∧ rtc (with_edge R a b) x a.
Proof.
  induction 1 as [x|x y z [E|[-> ->]] Hyz IH]; [left; apply rtc_refl| |].
  - destruct IH as [IH|[IH1 IH2]]; [left; by eapply rtc_l|right]. split; [done|]. eapply rtc_l; [by left|done].
  - destruct IH as [IH|[IH1 IH2]]; [right; split; [done|apply rtc_refl]|right; split; [done|apply rtc_refl]].
Qed.

Lemma acyclic_with_edge R a b : acyclic R → ¬ rtc R b a → acyclic (with_edge R a b).
Proof.
  intros Ha Hb x Ht.
  assert (¬ rtc (with_edge R a b) b a) as Hba.
  { intros Hp. destruct (with_edge_path _ _ _ _ _ Hp) as [H|[H _]]; done. }
  assert (∀ y z, tc (with_edge R a b) y z → tc R y z ∨ rtc (with_edge R a b) y a ∧ rtc (with_edge R a b) b z) as Hsplit.
  { induction 1 as [y z [E|[-> ->]]|y y' z [E|[-> ->]] Hyz IH].
    - left. by apply tc_once.
    - right. split; apply rtc_refl.
    - destruct IH as [IH|[IH1 IH2]]; [left; by eapply tc_l|right]. split; [eapply rtc_l; [by left|done]|done].
    - right. split; [apply rtc_refl|by apply tc_rtc]. }
  destruct (Hsplit x x Ht) as [H|[H1 H2]]; [by apply (Ha x)|]. apply Hba. by transitivity x.
Qed.
