(* ===== verification/PlanAnnotate.v ===== *)
(** * Ordering the nodes of a plan

    What the two passes of [annotate] establish: every pair of nodes that write one
    path is ordered or annotated, every reader and writer of one path are ordered, and
    the edges have no cycle. *)

From S2P Require Import Prelude Capability FileSet Canonical StepKey StepKeyProps Plan PlanOrder.
From stdpp Require Import relations.

(** [b] is recorded as a dependency of the node [a]. *)
Definition edge (nodes : list PlanNode) (a b : string) : Prop :=
  ∃ n, n ∈ nodes ∧ pn_id n = a ∧ b ∈ pn_dependsOn n.

Definition ids (nodes : list PlanNode) : list string := pn_id <$> nodes.

(** The list stored under a key, empty when there is none. *)
Definition at_key {A} (m : gmap string (list A)) (k : string) : list A := default [] (m !! k).

Lemma at_key_push {A} k (v : A) m i x : x ∈ at_key (push k v m) i ↔ x ∈ at_key m i ∨ i = k ∧ x = v.
Proof.
  unfold at_key, push. destruct (decide (k = i)) as [<-|Hne].
  - rewrite lookup_insert_eq. cbn. rewrite elem_of_app, list_elem_of_singleton. naive_solver.
  - rewrite lookup_insert_ne by done. naive_solver.
Qed.

(** ** The closure *)

Definition closed_over (R : relation string) (closure : gmap string (gset string)) : Prop :=
  ∀ a x, x ∈ default ∅ (closure !! a) → tc R a x.

Lemma reachable_sound nodes : closed_over (edge nodes) (reachable nodes).
Proof.
  unfold reachable.
  assert (∀ l closure, (∀ n, n ∈ l → n ∈ nodes) → closed_over (edge nodes) closure →
    closed_over (edge nodes) (fold_left (λ closure node,
      <[pn_id node := fold_left (λ set dependency, {[dependency]} ∪ set ∪ default ∅ (closure !! dependency)) (pn_dependsOn node) ∅]> closure)
      l closure)) as H.
  { induction l as [|n l IH]; intros closure Hl Hc; [done|]. cbn. apply IH; [intros m Hm; apply Hl; by right|].
    intros a x. destruct (decide (pn_id n = a)) as [<-|Hne]; [|rewrite lookup_insert_ne by done; apply Hc].
    rewrite lookup_insert_eq. cbn.
    assert (∀ deps set, (∀ d, d ∈ deps → d ∈ pn_dependsOn n) → (∀ y, y ∈ set → tc (edge nodes) (pn_id n) y) →
      ∀ y, y ∈ fold_left (λ set dependency, {[dependency]} ∪ set ∪ default ∅ (closure !! dependency)) deps set →
           tc (edge nodes) (pn_id n) y) as Hset.
    { induction deps as [|d deps IHd]; intros set Hd Hs; [done|]. cbn. apply IHd; [intros y Hy; apply Hd; by right|].
      assert (edge nodes (pn_id n) d) as He by (exists n; split_and!; [apply Hl; by left|done|apply Hd; by left]).
      intros y [[->%elem_of_singleton|Hy]%elem_of_union|Hy]%elem_of_union; [by apply tc_once|by apply Hs|].
      eapply tc_l; [exact He|by apply Hc]. }
    apply Hset; [done|]. intros y Hy. set_solver. }
  apply H; [done|]. intros a x. rewrite lookup_empty. set_solver.
Qed.

(** ** The first pass *)

(** What a node declares is what its draft declared. *)
Definition same_declaration (n m : PlanNode) : Prop :=
  pn_id m = pn_id n ∧ pn_kind m = pn_kind n ∧ pn_key m = pn_key n ∧ pn_material m = pn_material n ∧
  pn_effects m = pn_effects n ∧ pn_strategy m = pn_strategy n ∧ pn_runtime m = pn_runtime n ∧
  pn_priority m = pn_priority n ∧ pn_generation m = pn_generation n.

(** One of the two asked for lanes, and neither forbids the pair. *)
Definition asked_lanes (earlier later : PlanNode) : Prop :=
  pn_strategy earlier ≠ FailPair ∧ pn_strategy later ≠ FailPair ∧
  (pn_strategy earlier = Lane ∨ pn_strategy later = Lane).

(** What an annotation says of its pair: the paths both write; lanes exactly when one of
    them asked for lanes, and an order otherwise; stop and merge exactly when one of
    them asked for that. *)
Record describes (c : ConflictAnnotation) (earlier later : PlanNode) : Prop := {
  ds_paths : ca_paths c = overlap (pn_effects earlier) (pn_effects later);
  ds_overlap : overlap (pn_effects earlier) (pn_effects later) ≠ [];
  ds_allowed : pn_strategy earlier ≠ FailPair ∧ pn_strategy later ≠ FailPair;
  ds_lane : ca_strategy c = Lane ↔ pn_strategy earlier = Lane ∨ pn_strategy later = Lane;
  ds_serialize : ca_strategy c = Serialize ↔ pn_strategy earlier ≠ Lane ∧ pn_strategy later ≠ Lane;
  ds_runtime : ca_runtime c = StopMerge ↔ pn_runtime earlier = StopMerge ∨ pn_runtime later = StopMerge
}.

(** The annotation on the node [a] describes a pair of nodes, [a] and the one it names. *)
Definition noted (nodes : list PlanNode) (a : string) (c : ConflictAnnotation) : Prop :=
  ∃ i j e l, j < i ∧ nodes !! i = Some l ∧ nodes !! j = Some e ∧
    (a = pn_id l ∧ ca_with c = pn_id e ∨ a = pn_id e ∧ ca_with c = pn_id l) ∧ describes c e l.

Lemma pair_described earlier later other :
  overlap (pn_effects earlier) (pn_effects later) ≠ [] → pairStrategy (pn_strategy earlier) (pn_strategy later) ≠ FailPair →
  describes (mkConflict other (overlap (pn_effects earlier) (pn_effects later))
               (pairStrategy (pn_strategy earlier) (pn_strategy later)) (pairRuntime (pn_runtime earlier) (pn_runtime later)))
    earlier later.
Proof.
  intros Hov Hs. split; cbn; [done|done|..].
  1-3: destruct (pn_strategy earlier), (pn_strategy later); first [by destruct Hs|naive_solver].
  destruct (pn_runtime earlier), (pn_runtime later); naive_solver.
Qed.

Lemma describes_same c e e' l l' :
  same_declaration e e' → same_declaration l l' → describes c e l → describes c e' l'.
Proof.
  intros (_ & _ & _ & _ & Ee & Es & Er & _) (_ & _ & _ & _ & El & Ls & Lr & _) [H1 H2 H3 H4 H5 H6].
  split; rewrite ?Ee, ?El, ?Es, ?Ls, ?Er, ?Lr; done.
Qed.

(** The pair of an annotation is that of the ids it relates. *)
Lemma noted_pair nodes i j earlier later c :
  NoDup (ids nodes) → j < i → nodes !! i = Some later → nodes !! j = Some earlier →
  noted nodes (pn_id later) c ∧ ca_with c = pn_id earlier ∨ noted nodes (pn_id earlier) c ∧ ca_with c = pn_id later →
  describes c earlier later.
Proof.
  intros Hu Hij Hl He H.
  assert (∀ i' j' x y, nodes !! i' = Some x → nodes !! j' = Some y → pn_id x = pn_id y → i' = j' ∧ x = y) as Hid.
  { intros i' j' x y Hx Hy E. assert (i' = j') as ->; [|split; congruence].
    apply (NoDup_lookup (ids nodes) i' j' (pn_id x)); [done|..]; unfold ids; rewrite list_lookup_fmap; [by rewrite Hx|].
    by rewrite Hy, E. }
  assert (∃ i' j' e l, j' < i' ∧ nodes !! i' = Some l ∧ nodes !! j' = Some e ∧ describes c e l ∧
    (pn_id later = pn_id l ∧ pn_id earlier = pn_id e ∨ pn_id later = pn_id e ∧ pn_id earlier = pn_id l))
    as (i' & j' & e & l & Hij' & Hl' & He' & Hd & Hids).
  { destruct H as [[(i' & j' & e & l & ? & ? & ? & Hat & ?) Hw]|[(i' & j' & e & l & ? & ? & ? & Hat & ?) Hw]];
      exists i', j', e, l; (split_and!; [done..|]); destruct Hat as [[? ?]|[? ?]]; [left|right|right|left]; split; congruence. }
  destruct Hids as [[E1 E2]|[E1 E2]].
  - destruct (Hid _ _ _ _ Hl Hl' E1) as [_ ->]. by destruct (Hid _ _ _ _ He He' E2) as [_ ->].
  - destruct (Hid _ _ _ _ Hl He' E1) as [-> _]. destruct (Hid _ _ _ _ He Hl' E2) as [-> _]. lia.
Qed.

Lemma same_lanes e e' l l' :
  same_declaration e e' → same_declaration l l' → asked_lanes e' l' = asked_lanes e l.
Proof. intros (_ & _ & _ & _ & _ & Es & _) (_ & _ & _ & _ & _ & Ls & _). unfold asked_lanes. by rewrite Es, Ls. Qed.

Section Conflicts.

Context (nodes : list PlanNode) (frozen : gset string).

(** The edges known so far: recorded ones and those the pass adds. *)
Definition linked_by (ordering : gmap string (list string)) (a b : string) : Prop :=
  edge nodes a b ∨ b ∈ at_key ordering a.

Record pass_ok (p : Pass) : Prop := {
  po_closure : closed_over (linked_by (ps_ordering p)) (ps_closure p);
  (** an annotation describes a pair of nodes, and is on one of them *)
  po_notes : ∀ a c, c ∈ at_key (ps_conflicts p) a → noted nodes a c;
  (** an added edge leads from a new node to one before it *)
  po_back : ∀ a b, b ∈ at_key (ps_ordering p) a →
    a ∉ frozen ∧ ∃ i j, j < i ∧ ids nodes !! i = Some a ∧ ids nodes !! j = Some b
}.

Definition grows (p p' : Pass) : Prop :=
  (∀ a b, b ∈ at_key (ps_ordering p) a → b ∈ at_key (ps_ordering p') a) ∧
  (∀ a c, c ∈ at_key (ps_conflicts p) a → c ∈ at_key (ps_conflicts p') a).

#[local] Instance grows_preorder : PreOrder grows.
Proof. split; [by split|]. intros p1 p2 p3 [O1 C1] [O2 C2]. split; auto. Qed.

(** A lane annotation of a pair. *)
Definition lane (p : Pass) (on other : string) : Prop :=
  ∃ c, c ∈ at_key (ps_conflicts p) on ∧ ca_with c = other ∧ ca_strategy c = Lane.

Definition settled (p : Pass) (earlier later : PlanNode) : Prop :=
  overlap (pn_effects earlier) (pn_effects later) = [] ∨
  tc (linked_by (ps_ordering p)) (pn_id later) (pn_id earlier) ∨
  asked_lanes earlier later ∧
  lane p (pn_id later) (pn_id earlier) ∧ (pn_id earlier ∉ frozen → lane p (pn_id earlier) (pn_id later)).

Lemma settled_grows p p' earlier later : grows p p' → settled p earlier later → settled p' earlier later.
Proof.
  intros [Ho Hc] [H|[H|(H0 & H1 & H2)]]; [by left|right; left|right; right; split; [done|]].
  - apply (tc_mono (linked_by (ps_ordering p))); [|done]. intros x y [E|E]; [by left|right; by apply Ho].
  - assert (∀ a b, lane p a b → lane p' a b) as Hl by (intros a b (c & Hin & ? & ?); exists c; split_and!; auto). auto.
Qed.

Lemma at_key_empty {A} (a : string) : at_key (∅ : gmap string (list A)) a = [].
Proof. unfold at_key. by rewrite lookup_empty. Qed.

Lemma pairStrategy_cases l r : pairStrategy l r ≠ FailPair → pairStrategy l r = Serialize ∨ pairStrategy l r = Lane.
Proof. intros H. destruct l, r; first [by left | by right | by destruct H]. Qed.

Lemma lane_push p on other a c conflicts :
  ps_conflicts p = push a c conflicts → on = a → ca_with c = other → ca_strategy c = Lane → lane p on other.
Proof. intros E -> Hw Hs. exists c. rewrite E, at_key_push. auto. Qed.

Lemma conflict_pair_spec earlier later p p' i j :
  pass_ok p → pn_id later ∉ frozen → j < i → nodes !! i = Some later → nodes !! j = Some earlier →
  conflict_pair frozen earlier later p = inr p' → pass_ok p' ∧ grows p p' ∧ settled p' earlier later.
Proof.
  intros [Hc Hnote Hb] Hnew Hij Hni Hnj. unfold conflict_pair.
  assert (ids nodes !! i = Some (pn_id later)) as Hi by (unfold ids; by rewrite list_lookup_fmap, Hni).
  assert (ids nodes !! j = Some (pn_id earlier)) as Hj by (unfold ids; by rewrite list_lookup_fmap, Hnj).
  case_bool_decide as Hov; [intros [= <-]; split_and!; [done|done|by left]|].
  case_bool_decide as Hcl; [intros [= <-]; split_and!; [done|done|right; left; by apply Hc]|].
  case_bool_decide as Hfail; [done|].
  set (strategy := pairStrategy _ _) in *. set (runtime := pairRuntime _ _).
  set (note := λ other, mkConflict other (overlap (pn_effects earlier) (pn_effects later)) strategy runtime).
  set (conflicts0 := if bool_decide (pn_id earlier ∈ frozen) then _ else _).
  assert (∀ a c, c ∈ at_key (ps_conflicts p) a → c ∈ at_key (push (pn_id later) (note (pn_id earlier)) conflicts0) a) as Hgrow.
  { intros a c Hin. apply at_key_push. left. subst conflicts0. case_bool_decide; [done|]. apply at_key_push. by left. }
  assert (∀ other, describes (note other) earlier later) as Hdesc
    by (intros other; by apply pair_described).
  assert (∀ a c, c ∈ at_key (push (pn_id later) (note (pn_id earlier)) conflicts0) a → noted nodes a c) as Hnotes.
  { intros a c [Hin|[-> ->]]%at_key_push; [|exists i, j, earlier, later; by split_and!; [..|left|]].
    subst conflicts0. case_bool_decide; [by apply Hnote|]. apply at_key_push in Hin as [Hin|[-> ->]]; [by apply Hnote|].
    exists i, j, earlier, later. split_and!; [done..|by right|apply Hdesc]. }
  case_bool_decide as Hser; intros [= <-].
  - assert (∀ x y, linked_by (ps_ordering p) x y → linked_by (push (pn_id later) (pn_id earlier) (ps_ordering p)) x y) as Hm
      by (intros x y [E|E]; [by left|right; apply at_key_push; by left]).
    assert (linked_by (push (pn_id later) (pn_id earlier) (ps_ordering p)) (pn_id later) (pn_id earlier)) as Hnewedge
      by (right; apply at_key_push; by right).
    split_and!; [split; cbn| |].
    + intros a x. destruct (decide (pn_id later = a)) as [<-|Hne].
      * rewrite lookup_insert_eq. cbn. intros [->%elem_of_singleton|Hx]%elem_of_union; [by apply tc_once|].
        by apply (tc_mono (linked_by (ps_ordering p))), Hc.
      * rewrite lookup_insert_ne by done. intros Hx. by apply (tc_mono (linked_by (ps_ordering p))), Hc.
    + exact Hnotes.
    + intros a b [Hin|[-> ->]]%at_key_push; [by apply Hb|]. split; [done|]. by exists i, j.
    + split; [|exact Hgrow]. intros a b Hin. apply at_key_push. by left.
    + right; left. by apply tc_once.
  - assert (strategy = Lane) as Hlane by (destruct (pairStrategy_cases (pn_strategy earlier) (pn_strategy later)); done).
    split_and!; [by split|split; [done|exact Hgrow]|]. right; right.
    assert (asked_lanes earlier later) as Hasked.
    { destruct (Hdesc "") as [_ _ [H1 H2] Hl _ _]. split_and!; [done|done|]. by apply Hl. }
    split; [done|]. split.
    + by eapply (lane_push _ _ _ _ (note (pn_id earlier))).
    + intros Hef. exists (note (pn_id later)). split_and!; [|done|done]. cbn. apply at_key_push. left.
      subst conflicts0. rewrite bool_decide_eq_false_2 by done. apply at_key_push. by right.
Qed.

Lemma conflict_row_spec earliers later p p' i :
  pass_ok p → pn_id later ∉ frozen → nodes !! i = Some later →
  (∀ e, e ∈ earliers → ∃ j, j < i ∧ nodes !! j = Some e) →
  conflict_row frozen earliers later p = inr p' →
  pass_ok p' ∧ grows p p' ∧ (∀ e, e ∈ earliers → settled p' e later).
Proof.
  revert p. induction earliers as [|e earliers IH]; intros p Hp Hnew Hi He; cbn.
  - intros [= <-]. split_and!; [done|done|]. by intros e ?%not_elem_of_nil.
  - destruct (conflict_pair frozen e later p) as [|p1] eqn:E; [done|]. intros Erow.
    destruct (He e) as (j & Hj & Hje); [by left|].
    destruct (conflict_pair_spec _ _ _ _ i j Hp Hnew Hj Hi Hje E) as (H1 & G1 & S1).
    destruct (IH p1) as (H2 & G2 & S2); [done..|intros x Hx; apply He; by right|done|].
    split_and!; [done|by transitivity p1|]. intros x [->|Hx]%elem_of_cons; [by eapply settled_grows|by apply S2].
Qed.

Lemma conflict_pass_spec seen rest p p' :
  nodes = seen ++ rest → pass_ok p →
  (∀ i j e l, j < i → seen !! i = Some l → seen !! j = Some e → pn_id l ∉ frozen → settled p e l) →
  conflict_pass frozen seen rest p = inr p' →
  pass_ok p' ∧ ∀ i j e l, j < i → nodes !! i = Some l → nodes !! j = Some e → pn_id l ∉ frozen → settled p' e l.
Proof.
  revert seen p. induction rest as [|later rest IH]; intros seen p Hn Hp Hs; cbn.
  - rewrite app_nil_r in Hn. subst seen. intros [= <-]. done.
  - assert (nodes = (seen ++ [later]) ++ rest) as Hn' by by rewrite <-app_assoc.
    assert (nodes !! length seen = Some later) as Hi by by rewrite Hn, lookup_app_r, Nat.sub_diag.
    destruct (if bool_decide (pn_id later ∈ frozen) then inr p else conflict_row frozen seen later p) as [|p1] eqn:E; [done|].
    assert (pass_ok p1 ∧ grows p p1 ∧ (pn_id later ∉ frozen → ∀ e, e ∈ seen → settled p1 e later)) as (H1 & G1 & S1).
    { case_bool_decide as Hf; [injection E as <-; done|].
      destruct (conflict_row_spec seen later p p1 (length seen)) as (? & ? & ?); try done.
      intros e [j Hj]%list_elem_of_lookup. pose proof (lookup_lt_Some _ _ _ Hj). exists j. split; [done|].
      by rewrite Hn, lookup_app_l, Hj by done. }
    apply (IH (seen ++ [later]) p1 Hn' H1).
    intros i j e l Hij Hl He Hnew. apply lookup_app_Some in Hl as [Hl|[Hge Hl]].
    + rewrite lookup_app_l in He by (apply lookup_lt_Some in Hl; lia). eapply settled_grows; [done|by eapply Hs].
    + apply list_lookup_singleton_Some in Hl as [Hi0 ->].
      rewrite lookup_app_l in He by lia. apply S1; [done|]. by eapply list_elem_of_lookup_2.
Qed.

(** The pass fails only on two nodes that write one path, one of which forbids it. *)
Definition forbidden (e : PlanError) : Prop :=
  ∃ i j l r, j < i ∧ nodes !! i = Some r ∧ nodes !! j = Some l ∧ pn_id r ∉ frozen ∧
    e = OverlapForbidden (pn_id l) (pn_id r) (overlap (pn_effects l) (pn_effects r)) ∧
    overlap (pn_effects l) (pn_effects r) ≠ [] ∧ (pn_strategy l = FailPair ∨ pn_strategy r = FailPair).

Lemma conflict_row_forbidden earliers later p e :
  conflict_row frozen earliers later p = inl e →
  ∃ l, l ∈ earliers ∧ e = OverlapForbidden (pn_id l) (pn_id later) (overlap (pn_effects l) (pn_effects later)) ∧
       overlap (pn_effects l) (pn_effects later) ≠ [] ∧ (pn_strategy l = FailPair ∨ pn_strategy later = FailPair).
Proof.
  revert p. induction earliers as [|l earliers IH]; intros p; cbn; [done|].
  destruct (conflict_pair frozen l later p) as [e'|p1] eqn:E.
  - intros [= ->]. exists l. revert E. unfold conflict_pair. case_bool_decide as Hov; [done|]. case_bool_decide; [done|].
    case_bool_decide as Hf; [|case_bool_decide; done]. intros [= <-]. split_and!; [by left|done|done|].
    destruct (pn_strategy l), (pn_strategy later); auto; done.
  - intros (x & Hx & H)%IH. exists x. split; [by right|done].
Qed.

Lemma conflict_pass_forbidden seen rest p e :
  nodes = seen ++ rest → conflict_pass frozen seen rest p = inl e → forbidden e.
Proof.
  revert seen p. induction rest as [|later rest IH]; intros seen p Hn; cbn; [done|].
  assert (nodes = (seen ++ [later]) ++ rest) as Hn' by by rewrite <-app_assoc.
  case_bool_decide as Hf; [by apply IH|].
  destruct (conflict_row frozen seen later p) as [e'|p1] eqn:E; [|by apply IH].
  intros [= ->]. apply conflict_row_forbidden in E as (l & Hl & -> & Hov & Hs).
  apply list_elem_of_lookup in Hl as [j Hj]. pose proof (lookup_lt_Some _ _ _ Hj).
  exists (length seen), j, l, later. split_and!; try done.
  - by rewrite Hn, lookup_app_r, Nat.sub_diag by done.
  - by rewrite Hn, lookup_app_l by done.
Qed.

End Conflicts.

(** ** The second pass *)

Section Readers.

Context (nodes : list PlanNode) (frozen : gset string).
Hypothesis unique : NoDup (ids nodes).

Lemma same_node n m : n ∈ nodes → m ∈ nodes → pn_id n = pn_id m → n = m.
Proof. intros. by apply (NoDup_key_inj pn_id nodes). Qed.

Lemma id_in n : n ∈ nodes → pn_id n ∈ ids nodes.
Proof. intros. apply list_elem_of_fmap. by exists n. Qed.

Lemma edge_sets_linked ordering a b :
  linked (edge_sets nodes ordering) a b ↔ edge nodes a b ∨ a ∈ ids nodes ∧ b ∈ at_key ordering a.
Proof.
  assert (∀ n, n ∈ nodes →
    edge_sets nodes ordering !! pn_id n = Some (distinct [] (pn_dependsOn n ++ at_key ordering (pn_id n)))) as Hl.
  { intros n Hn. unfold edge_sets.
    apply (fold_insert_lookup pn_id (λ node, distinct [] (pn_dependsOn node ++ default [] (ordering !! pn_id node)))); [done|].
    left. by exists n. }
  unfold linked. split.
  - destruct (edge_sets nodes ordering !! a) as [es|] eqn:E; cbn; [|by intros ?%not_elem_of_nil].
    unfold edge_sets in E.
    apply fold_insert_lookup in E as [(n & Hn & <- & <-)|[_ E]]; [|by rewrite lookup_empty in E|done].
    rewrite distinct_in, elem_of_app. intros [[Hb|Hb] _]; [left; by exists n|right]. split; [by apply id_in|done].
  - intros [(n & Hn & <- & Hb)|[(n & -> & Hn)%list_elem_of_fmap Hb]]; rewrite (Hl n Hn); cbn; rewrite distinct_in, elem_of_app;
      (split; [auto|apply not_elem_of_nil]).
Qed.

Record links_ok (s : Links) : Prop := {
  lk_edges : ∀ a b, linked (snd s) a b ↔ edge nodes a b ∨ b ∈ at_key (fst s) a;
  lk_new : ∀ a b, b ∈ at_key (fst s) a → a ∉ frozen ∧ a ∈ ids nodes ∧ b ∈ ids nodes;
  lk_acyclic : acyclic (linked (snd s))
}.

Definition links_grow (s s' : Links) : Prop := ∀ a b, linked (snd s) a b → linked (snd s') a b.

Definition ordered_pair (s : Links) (reader writer : PlanNode) : Prop :=
  pn_id writer ≠ pn_id reader → readsWhatItWrites (pn_effects reader) (pn_effects writer) = true →
  rtc (linked (snd s)) (pn_id reader) (pn_id writer) ∨ rtc (linked (snd s)) (pn_id writer) (pn_id reader).

Lemma rtc_mono {A} (R S : relation A) a b : (∀ x y, R x y → S x y) → rtc R a b → rtc S a b.
Proof. intros H. induction 1 as [|x y z E _ IH]; [done|]. eapply rtc_l; [by apply H|done]. Qed.

Lemma ordered_pair_grow s s' r w : links_grow s s' → ordered_pair s r w → ordered_pair s' r w.
Proof. intros Hg Hp Hne Hr. destruct (Hp Hne Hr) as [H|H]; [left|right]; by apply (rtc_mono (linked (snd s))). Qed.

Lemma set_add_elem x y l : x ∈ set_add y l ↔ x ∈ l ∨ x = y.
Proof. unfold set_add. case_bool_decide; rewrite ?elem_of_app, ?list_elem_of_singleton; naive_solver. Qed.

Lemma reader_pair_spec reader writer s :
  reader ∈ nodes → writer ∈ nodes → pn_id reader ∉ frozen → links_ok s →
  links_ok (reader_pair reader writer s) ∧ links_grow s (reader_pair reader writer s) ∧
  ordered_pair (reader_pair reader writer s) reader writer.
Proof.
  intros Hr Hw Hnew Hs. unfold reader_pair.
  case_bool_decide as Hid; [split_and!; [done|by intros a b|by intros Hne]|].
  destruct (readsWhatItWrites _ _) eqn:Hreads; cbn [negb]; [|split_and!; [done|by intros a b|intros _ H; congruence]].
  destruct (reaches (snd s) (pn_id reader) (pn_id writer)) eqn:R1; [apply reaches_spec in R1; split_and!; [done|by intros a b|intros _ _; by left]|].
  destruct (reaches (snd s) (pn_id writer) (pn_id reader)) eqn:R2; [apply reaches_spec in R2; split_and!; [done|by intros a b|intros _ _; by right]|].
  destruct Hs as [He Hn Ha]. set (edges' := <[pn_id reader := _]> (snd s)).
  assert (∀ a b, linked edges' a b ↔ with_edge (linked (snd s)) (pn_id reader) (pn_id writer) a b) as He'.
  { intros a b. unfold linked, with_edge, edges'. destruct (decide (pn_id reader = a)) as [<-|Hne].
    - rewrite lookup_insert_eq. cbn. rewrite set_add_elem. naive_solver.
    - rewrite lookup_insert_ne by done. naive_solver. }
  split_and!; [split; cbn| |].
  - intros a b. rewrite He'. unfold with_edge. rewrite He, at_key_push. tauto.
  - intros a b [Hin|[-> ->]]%at_key_push; [by apply Hn|]. split_and!; [done|by apply id_in|by apply id_in].
  - apply (acyclic_mono _ (with_edge (linked (snd s)) (pn_id reader) (pn_id writer))); [intros x y; apply He'|].
    apply acyclic_with_edge; [done|]. intros Hp%reaches_spec. congruence.
  - intros a b Hl. apply He'. by left.
  - intros _ _. left. apply rtc_once, He'. by right.
Qed.

Lemma reader_row_spec s reader :
  reader ∈ nodes → links_ok s →
  links_ok (reader_row frozen nodes s reader) ∧ links_grow s (reader_row frozen nodes s reader) ∧
  (pn_id reader ∉ frozen → ∀ w, w ∈ nodes → ordered_pair (reader_row frozen nodes s reader) reader w).
Proof.
  intros Hr Hs. unfold reader_row. case_bool_decide as Hf; [split_and!; [done|by intros a b|by intros H]|].
  assert (∀ l s, (∀ w, w ∈ l → w ∈ nodes) → links_ok s →
    links_ok (fold_left (λ s w, reader_pair reader w s) l s) ∧ links_grow s (fold_left (λ s w, reader_pair reader w s) l s) ∧
    ∀ w, w ∈ l → ordered_pair (fold_left (λ s w, reader_pair reader w s) l s) reader w) as H.
  { induction l as [|w l IH]; intros s0 Hl H0; cbn; [split_and!; [done|by intros a b|by intros w ?%not_elem_of_nil]|].
    destruct (reader_pair_spec reader w s0) as (H1 & G1 & P1); [done|apply Hl; by left|done|done|].
    destruct (IH (reader_pair reader w s0)) as (H2 & G2 & P2); [intros x Hx; apply Hl; by right|done|].
    split_and!; [done|by intros a b ?; apply G2, G1|]. intros x [->|Hx]%elem_of_cons; [by eapply ordered_pair_grow|by apply P2]. }
  destruct (H nodes s) as (H1 & G1 & P1); [done|done|]. split_and!; [done|done|]. intros _ w. apply P1.
Qed.

Lemma readers_spec s :
  links_ok s →
  let s' := fold_left (reader_row frozen nodes) nodes s in
  links_ok s' ∧ links_grow s s' ∧
  ∀ r w, r ∈ nodes → w ∈ nodes → pn_id r ∉ frozen → ordered_pair s' r w.
Proof.
  intros Hs. cbn.
  assert (∀ l s, (∀ r, r ∈ l → r ∈ nodes) → links_ok s →
    links_ok (fold_left (reader_row frozen nodes) l s) ∧ links_grow s (fold_left (reader_row frozen nodes) l s) ∧
    ∀ r w, r ∈ l → w ∈ nodes → pn_id r ∉ frozen → ordered_pair (fold_left (reader_row frozen nodes) l s) r w) as H.
  { induction l as [|r l IH]; intros s0 Hl H0; cbn; [split_and!; [done|by intros a b|by intros r w ?%not_elem_of_nil]|].
    destruct (reader_row_spec s0 r) as (H1 & G1 & P1); [apply Hl; by left|done|].
    destruct (IH (reader_row frozen nodes s0 r)) as (H2 & G2 & P2); [intros x Hx; apply Hl; by right|done|].
    split_and!; [done|by intros a b ?; apply G2, G1|].
    intros x w [->|Hx]%elem_of_cons Hw Hnew; [eapply ordered_pair_grow; [done|by apply P1]|by apply P2]. }
  by apply H.
Qed.

End Readers.

(** ** Both passes *)

Section Both.

(** The recorded nodes, whose edges stay among them, and the new ones, each behind what
    its material names. *)
Context (old new : list PlanNode).
Hypothesis unique : NoDup (ids (old ++ new)).
Hypothesis old_closed : ∀ a b, edge old a b → b ∈ ids old.
Hypothesis old_acyclic : acyclic (edge old).
Hypothesis new_back : ∀ l1 n l2, new = l1 ++ n :: l2 → ∀ b, b ∈ pn_dependsOn n → b ∈ ids old ∨ b ∈ ids l1.

Let nodes := old ++ new.
Let frozen := node_ids old.

Lemma frozen_spec a : a ∈ frozen ↔ a ∈ ids old.
Proof. unfold frozen, node_ids. apply elem_of_list_to_set. Qed.

Lemma old_node n : n ∈ nodes → pn_id n ∈ ids old → n ∈ old.
Proof.
  intros Hn (m & E & Hm)%list_elem_of_fmap. rewrite (NoDup_key_inj pn_id nodes n m); [done|done|done| |done].
  apply elem_of_app. by left.
Qed.

Lemma old_edge a b : a ∈ ids old → edge nodes a b ↔ edge old a b.
Proof.
  intros Ha. split; intros (n & Hn & <- & Hb); exists n; split_and!; try done; [by apply old_node|].
  apply elem_of_app. by left.
Qed.

(** A recorded edge of a new node leads to an earlier position. *)
Lemma new_edge_back a b i : a ∉ ids old → edge nodes a b → ids nodes !! i = Some a → ∃ j, j < i ∧ ids nodes !! j = Some b.
Proof.
  intros Ha (n & Hn & <- & Hb) Hi. apply elem_of_app in Hn as [Hn|Hn]; [by destruct Ha; apply list_elem_of_fmap; exists n|].
  apply list_elem_of_split in Hn as (l1 & l2 & E).
  assert (i = length old + length l1) as ->.
  { apply (NoDup_lookup (ids nodes) _ _ (pn_id n)); [done|done|]. unfold nodes, ids. rewrite E, list_lookup_fmap, app_assoc.
    rewrite lookup_app_r by (rewrite length_app; lia). by rewrite length_app, Nat.sub_diag. }
  destruct (new_back l1 n l2 E b Hb) as [Hold|Hl1].
  - apply list_elem_of_lookup in Hold as [j Hj]. pose proof (lookup_lt_Some _ _ _ Hj) as Hlt. unfold ids in Hlt. rewrite length_fmap in Hlt.
    exists j. split; [lia|]. unfold nodes, ids. rewrite fmap_app, lookup_app_l by by rewrite length_fmap. done.
  - apply list_elem_of_lookup in Hl1 as [j Hj]. pose proof (lookup_lt_Some _ _ _ Hj) as Hlt. unfold ids in Hlt. rewrite length_fmap in Hlt.
    exists (length old + j). split; [lia|]. unfold nodes, ids. rewrite fmap_app, lookup_app_r by (rewrite length_fmap; lia).
    rewrite length_fmap, Nat.add_comm, Nat.add_sub, E, fmap_app, lookup_app_l by by rewrite length_fmap. done.
Qed.

Lemma edge_in a b : edge nodes a b → a ∈ ids nodes ∧ b ∈ ids nodes.
Proof.
  intros He. assert (a ∈ ids nodes) as Ha by (destruct He as (n & Hn & <- & _); by apply list_elem_of_fmap; exists n).
  split; [done|]. destruct (decide (a ∈ ids old)) as [Hold|Hnew].
  - apply old_edge in He; [|done]. apply old_closed in He. unfold nodes, ids. rewrite fmap_app, elem_of_app. by left.
  - apply list_elem_of_lookup in Ha as [i Hi]. destruct (new_edge_back a b i Hnew He Hi) as (j & _ & Hj).
    by eapply list_elem_of_lookup_2.
Qed.

Lemma pass_acyclic p : pass_ok nodes frozen p → acyclic (linked_by nodes (ps_ordering p)).
Proof.
  intros [_ _ Hback] x Hx. set (R := linked_by nodes (ps_ordering p)) in *.
  assert (∀ a b, a ∈ ids old → R a b → edge old a b) as Hold.
  { intros a b Ha [He|Ho]; [by apply old_edge|]. apply Hback in Ho as [Hf _]. by rewrite frozen_spec in Hf. }
  assert (∀ a b, tc R a b → a ∈ ids old → tc (edge old) a b) as Hstay.
  { induction 1 as [a b E|a b c E _ IH]; intros Ha; [by apply tc_once, Hold|]. apply Hold in E; [|done].
    eapply tc_l; [exact E|]. apply IH. by eapply old_closed. }
  assert (∀ a b, tc (edge old) a b → b ∈ ids old) as Hend.
  { induction 1 as [a b E|a b c E _ IH]; [by eapply old_closed|done]. }
  destruct (decide (x ∈ ids old)) as [Hx0|Hx0]; [by apply (old_acyclic x), Hstay|].
  assert (∀ a b i, R a b → a ∉ ids old → ids nodes !! i = Some a → ∃ j, j < i ∧ ids nodes !! j = Some b) as Hb.
  { intros a b i [He|Ho] Ha Hi; [by eapply new_edge_back|]. apply Hback in Ho as (_ & i' & j & Hj & Hi' & Hjb).
    rewrite (NoDup_lookup _ _ _ _ unique Hi Hi'). by exists j. }
  assert (∀ a b, tc R a b → ∀ i, ids nodes !! i = Some a → b ∈ ids old ∨ ∃ j, j < i ∧ ids nodes !! j = Some b) as Hdown.
  { induction 1 as [a b E|a b c E Htc IH]; intros i Hi; destruct (decide (a ∈ ids old)) as [Ha|Ha].
    - left. eapply old_closed. by apply Hold.
    - right. by eapply Hb.
    - left. apply (Hend b), Hstay; [done|]. eapply old_closed. by apply Hold.
    - destruct (Hb a b i E Ha Hi) as (j & Hj & Hbj). destruct (IH j Hbj) as [?|(k & Hk & Hc)]; [by left|].
      right. exists k. split; [lia|done]. }
  assert (x ∈ ids nodes) as [i Hi]%list_elem_of_lookup.
  { assert (∃ y, R x y) as [y Hy] by (inversion Hx; subst; eauto).
    destruct Hy as [He|Ho]; [by apply edge_in in He as [? _]|].
    apply Hback in Ho as (_ & i & j & _ & Hi & _). by eapply list_elem_of_lookup_2. }
  destruct (Hdown x x Hx i Hi) as [?|(j & Hj & Hj')]; [done|].
  pose proof (NoDup_lookup _ _ _ _ unique Hi Hj'). lia.
Qed.

Lemma start_pass : pass_ok nodes frozen (mkPass (reachable nodes) ∅ ∅).
Proof.
  split; cbn.
  - intros a x Hx. apply (tc_mono (edge nodes)); [by left|]. by apply reachable_sound.
  - intros a c. rewrite at_key_empty. by intros ?%not_elem_of_nil.
  - intros a b. unfold at_key. rewrite lookup_empty. by intros ?%not_elem_of_nil.
Qed.

Lemma start_links p : pass_ok nodes frozen p → links_ok nodes frozen (ps_ordering p, edge_sets nodes (ps_ordering p)).
Proof.
  intros Hp. pose proof (pass_acyclic p Hp) as Ha. destruct Hp as [_ _ Hback].
  assert (∀ a b, linked (edge_sets nodes (ps_ordering p)) a b ↔ edge nodes a b ∨ b ∈ at_key (ps_ordering p) a) as He.
  { intros a b. rewrite edge_sets_linked by done. split; [naive_solver|]. intros [H|H]; [by left|right]. split; [|done].
    apply Hback in H as (_ & i & j & _ & Hi & _). by eapply list_elem_of_lookup_2. }
  split; cbn; [done| |].
  - intros a b H. apply Hback in H as (Hf & i & j & _ & Hi & Hj). split_and!; [done|by eapply list_elem_of_lookup_2..].
  - by apply (acyclic_mono _ (linked_by nodes (ps_ordering p))); [intros x y; apply He|].
Qed.

(** A lane annotation on a node. *)
Definition in_lane (n : PlanNode) (other : string) : Prop :=
  ∃ c, c ∈ pn_conflicts n ∧ ca_with c = other ∧ ca_strategy c = Lane.

Definition writers_ok (nodes' : list PlanNode) (earlier later : PlanNode) : Prop :=
  overlap (pn_effects earlier) (pn_effects later) = [] ∨ tc (edge nodes') (pn_id later) (pn_id earlier) ∨
  asked_lanes earlier later ∧ in_lane later (pn_id earlier) ∧ (pn_id earlier ∉ ids old → in_lane earlier (pn_id later)).

Definition readers_ok (nodes' : list PlanNode) (reader writer : PlanNode) : Prop :=
  pn_id writer ≠ pn_id reader → readsWhatItWrites (pn_effects reader) (pn_effects writer) = true →
  tc (edge nodes') (pn_id reader) (pn_id writer) ∨ tc (edge nodes') (pn_id writer) (pn_id reader).

Record annotated (nodes' : list PlanNode) : Prop := {
  an_nodes : Forall2 same_declaration nodes nodes';
  an_old : take (length old) nodes' = old;
  an_grow : ∀ a b, edge nodes a b → edge nodes' a b;
  an_closed : ∀ a b, edge nodes' a b → b ∈ ids nodes';
  an_acyclic : acyclic (edge nodes');
  an_writers : ∀ i j e l, j < i → nodes' !! i = Some l → nodes' !! j = Some e → pn_id l ∉ ids old → writers_ok nodes' e l;
  an_notes : ∀ n c, n ∈ nodes' → pn_id n ∉ ids old → c ∈ pn_conflicts n → noted nodes' (pn_id n) c;
  an_readers : ∀ r w, r ∈ nodes' → w ∈ nodes' → pn_id r ∉ ids old → readers_ok nodes' r w
}.

Lemma link_declaration conflicts ordering n : same_declaration n (link frozen conflicts ordering n).
Proof. unfold link. by case_bool_decide. Qed.

Lemma link_ids conflicts ordering : ids (link frozen conflicts ordering <$> nodes) = ids nodes.
Proof.
  unfold ids. rewrite <-list_fmap_compose. apply list_fmap_ext. intros i n _. apply (link_declaration conflicts ordering n).
Qed.

Lemma link_old conflicts ordering : take (length old) (link frozen conflicts ordering <$> nodes) = old.
Proof.
  unfold nodes. rewrite fmap_app, take_app_length' by by rewrite length_fmap.
  transitivity (id <$> old); [|apply list_fmap_id]. apply list_fmap_ext. intros i n Hn%list_elem_of_lookup_2.
  unfold link. rewrite bool_decide_eq_true_2; [done|]. apply frozen_spec, list_elem_of_fmap. by exists n.
Qed.

Lemma link_edge conflicts s a b :
  links_ok nodes frozen s → edge (link frozen conflicts (fst s) <$> nodes) a b ↔ linked (snd s) a b.
Proof.
  intros [He Hn _]. rewrite He. split.
  - intros (m & (n & -> & Hin)%list_elem_of_fmap & <- & Hb). unfold link in *. case_bool_decide as Hf; cbn in *.
    + left. by exists n.
    + apply elem_of_app in Hb as [Hb|Hb]; [left; by exists n|by right].
  - intros [(n & Hin & <- & Hb)|Hb].
    + exists (link frozen conflicts (fst s) n). split_and!; [apply list_elem_of_fmap; by exists n|by apply link_declaration|].
      unfold link. case_bool_decide; [done|]. cbn. apply elem_of_app. by left.
    + destruct (Hn a b Hb) as (Hf & (n & -> & Hin)%list_elem_of_fmap & _).
      exists (link frozen conflicts (fst s) n). split_and!; [apply list_elem_of_fmap; by exists n|by apply link_declaration|].
      unfold link. rewrite bool_decide_eq_false_2 by done. cbn. apply elem_of_app. by right.
Qed.

Lemma link_lane conflicts ordering n p other :
  ps_conflicts p = conflicts → pn_id n ∉ frozen → lane p (pn_id n) other → in_lane (link frozen conflicts ordering n) other.
Proof.
  intros <- Hf (c & Hc & Hw & Hs). exists c. unfold link. by rewrite bool_decide_eq_false_2.
Qed.

Lemma rtc_tc_ne {A} (R : relation A) a b : a ≠ b → rtc R a b → tc R a b.
Proof. intros Hne [->|H]%rtc_tc; [done|done]. Qed.

Lemma annotate_spec nodes' : annotate frozen nodes = inr nodes' → annotated nodes'.
Proof.
  unfold annotate. destruct (conflict_pass frozen [] nodes _) as [|p] eqn:Ep; [done|]. intros [= <-].
  apply (conflict_pass_spec nodes) in Ep as [Hp Hsettled]; [|done|apply start_pass|intros i j e l _ Hl; by rewrite lookup_nil in Hl].
  pose proof (readers_spec nodes frozen _ (start_links p Hp)) as (Hlinks & Hgrow & Hreaders). cbn in Hlinks, Hgrow, Hreaders.
  set (s := fold_left (reader_row frozen nodes) nodes _) in *. set (f := link frozen (ps_conflicts p) (fst s)).
  pose proof (link_edge (ps_conflicts p) s) as Hedge.
  assert (∀ a b, linked_by nodes (ps_ordering p) a b → edge (f <$> nodes) a b) as Hby.
  { intros a b H. apply Hedge; [done|]. apply Hgrow. cbn. by apply (lk_edges _ _ _ (start_links p Hp)). }
  split.
  - rewrite Forall2_fmap_r. apply Forall_Forall2_diag, Forall_forall. intros n _. apply link_declaration.
  - apply link_old.
  - intros a b H. apply Hby. by left.
  - intros a b H. unfold f. rewrite link_ids. apply Hedge in H; [|done].
    apply (lk_edges _ _ _ Hlinks) in H as [H|H]; [by apply edge_in in H as [_ ?]|]. by apply (lk_new _ _ _ Hlinks) in H as (_ & _ & ?).
  - apply (acyclic_mono _ (linked (snd s))); [intros a b; by apply Hedge|]. apply Hlinks.
  - intros i j e' l' Hij Hl He Hnew. apply list_lookup_fmap_Some in Hl as (l & -> & Hl), He as (e & -> & He).
    pose proof (link_declaration (ps_conflicts p) (fst s) l) as Dl. pose proof (link_declaration (ps_conflicts p) (fst s) e) as De.
    unfold writers_ok. fold f in Dl, De |- *. rewrite (same_lanes e _ l _ De Dl).
    destruct Dl as (Il & _ & _ & _ & El & _), De as (Ie & _ & _ & _ & Ee & _).
    rewrite Il, Ie, El, Ee. rewrite Il in Hnew.
    destruct (Hsettled i j e l Hij Hl He) as [H|[H|(H0 & H1 & H2)]];
      [by rewrite frozen_spec|by left|right; left|right; right; split; [done|]].
    + by apply (tc_mono (linked_by nodes (ps_ordering p))).
    + split; [apply (link_lane _ _ _ p); [done|by rewrite frozen_spec|done]|].
      intros Hne. apply (link_lane _ _ _ p); [done|by rewrite frozen_spec|]. apply H2. by rewrite frozen_spec.
  - intros n' c Hn Hnew Hc. apply list_elem_of_fmap in Hn as (n & -> & Hn).
    destruct (link_declaration (ps_conflicts p) (fst s) n) as (In & _). fold f in In. rewrite In in *.
    assert (c ∈ at_key (ps_conflicts p) (pn_id n)) as (i & j & e & l & Hij & Hl & He & Hat & Hd)%(po_notes _ _ _ Hp).
    { revert Hc. unfold f, link. by rewrite bool_decide_eq_false_2 by by rewrite frozen_spec. }
    pose proof (link_declaration (ps_conflicts p) (fst s) l) as Dl. pose proof (link_declaration (ps_conflicts p) (fst s) e) as De.
    exists i, j, (f e), (f l). rewrite !list_lookup_fmap, Hl, He. fold f in Dl, De. split_and!; [done|done|done| |].
    + by rewrite (proj1 Dl), (proj1 De).
    + by eapply describes_same.
  - intros r' w' Hr Hw Hnew. apply list_elem_of_fmap in Hr as (r & -> & Hr), Hw as (w & -> & Hw).
    destruct (link_declaration (ps_conflicts p) (fst s) r) as (Ir & _ & _ & _ & Er & _), (link_declaration (ps_conflicts p) (fst s) w) as (Iw & _ & _ & _ & Ew & _).
    unfold readers_ok. fold f in Ir, Er, Iw, Ew |- *. rewrite Ir, Iw, Er, Ew. rewrite Ir in Hnew. intros Hne Hreads.
    assert (∀ a b, linked (snd s) a b → edge (f <$> nodes) a b) as Hle by (intros a b ?; by apply Hedge).
    destruct (Hreaders r w Hr Hw) as [H|H]; [by rewrite frozen_spec|done|done| |].
    + left. apply (tc_mono (linked (snd s))); [done|]. by apply rtc_tc_ne.
    + right. apply (tc_mono (linked (snd s))); [done|]. by apply rtc_tc_ne.
Qed.

Lemma annotate_forbidden e : annotate frozen nodes = inl e → forbidden nodes frozen e.
Proof.
  unfold annotate. destruct (conflict_pass frozen [] nodes _) as [e'|p] eqn:Ep; [|done]. intros [= ->].
  eapply (conflict_pass_forbidden nodes frozen []); [done|exact Ep].
Qed.

End Both.
