(* ===== verification/PlanProps.v ===== *)
(** * Plans that were built

    The nodes of a compiled plan, and of every plan grown from it, satisfy [nodes_ok]:
    one step ([extended]) covers [compile], which extends no nodes, and [append]. *)

From S2P Require Import Prelude Capability FileSet Canonical StepKey StepKeyProps Plan PlanOrder PlanAnnotate.
From stdpp Require Import relations.

Section Built.

Context `{Crypto}.

(** ** Keying *)

Lemma duplicate_none known drafts :
  duplicate known drafts = None ↔ NoDup (nd_id <$> drafts) ∧ ∀ d, d ∈ drafts → nd_id d ∉ known.
Proof.
  revert known. induction drafts as [|d drafts IH]; intros known; cbn.
  - split; [intros _; split; [constructor|by intros d ?%not_elem_of_nil]|done].
  - case_bool_decide as Hk; [split; [done|intros [_ Hd]; by destruct (Hd d); [left|]]|].
    rewrite IH, NoDup_cons, list_elem_of_fmap. split.
    + intros [Hd Hall]. split_and!; [|done|].
      * intros (x & E & Hx). apply (Hall x Hx). rewrite <-E. set_solver.
      * intros x [->|Hx]%elem_of_cons; [done|]. specialize (Hall x Hx). set_solver.
    + intros [[Hnew Hd] Hall]. split; [done|]. intros x Hx [E%elem_of_singleton|Hin]%elem_of_union.
      * apply Hnew. by exists x.
      * apply (Hall x); [by right|done].
Qed.

Lemma node_digests_lookup nodes id k :
  NoDup (ids nodes) → node_digests nodes !! id = Some k ↔ ∃ n, n ∈ nodes ∧ pn_id n = id ∧ pn_key n = k.
Proof.
  intros Hd. unfold node_digests. rewrite fold_insert_lookup by done. rewrite lookup_empty. naive_solver.
Qed.

Lemma rename_same m : rename_material (λ x, x) m = m.
Proof.
  destruct m as [k nd b i l c e p]. unfold rename_material. cbn. f_equal.
  transitivity (id <$> i); [|apply list_fmap_id]. apply list_fmap_ext. by intros j [] _.
Qed.

(** A key depends on the digests of the named nodes only. *)
Lemma key_local m (d d' : gmap string string) k :
  (∀ from, from ∈ dependencies m → d' !! from = d !! from) → fromKeyMaterial m d = inr k → fromKeyMaterial m d' = inr k.
Proof.
  intros Hd E. pose proof (key_renamed (λ x, x) m d d') as Hr. rewrite rename_same, E in Hr.
  destruct (fromKeyMaterial m d') as [|k'].
  - cbn in Hr. discriminate Hr. intros from Hf. apply Hd. unfold dependencies. apply distinct_in. split; [done|apply not_elem_of_nil].
  - cbn in Hr. injection Hr as ->; [done|]. intros from Hf. apply Hd. unfold dependencies. apply distinct_in. split; [done|apply not_elem_of_nil].
Qed.

(** What a draft becomes. *)
Definition drafted (generation : Z) (d : NodeDraft) (n : PlanNode) : Prop :=
  n = keyed_node d (pn_key n) generation ∧ validateEffects (nd_id d) (nd_effects d) = None.

Lemma key_drafts_spec generation drafts digests keyed :
  NoDup (nd_id <$> drafts) → key_drafts generation drafts digests = inr keyed →
  Forall2 (drafted generation) drafts keyed ∧
  ∀ l1 n l2, keyed = l1 ++ n :: l2 →
    fromKeyMaterial (pn_material n) (fold_left (λ m n, <[pn_id n := pn_key n]> m) l1 digests) = inr (pn_key n).
Proof.
  revert digests keyed. induction drafts as [|d drafts IH]; intros digests keyed Hd; cbn.
  - intros [= <-]. split; [constructor|]. intros l1 n l2 E. by destruct l1.
  - apply NoDup_cons in Hd as [Hnew Hd]. destruct (validateEffects _ _) eqn:Ev; [done|].
    destruct (fromKeyMaterial (nd_material d) digests) as [|key] eqn:Ek; [done|].
    destruct (key_drafts generation drafts _) as [|rest] eqn:Er; [done|]. intros [= <-].
    destruct (IH _ _ Hd Er) as [Hf Hk]. split; [by constructor|].
    intros l1 n l2 E. destruct l1 as [|x l1]; injection E as <- E; [done|]. cbn. by eapply Hk.
Qed.

(** ** The invariant *)

Record nodes_ok (nodes : list PlanNode) (generation : Z) : Prop := {
  no_unique : NoDup (ids nodes);
  no_closed : ∀ a b, edge nodes a b → b ∈ ids nodes;
  no_acyclic : acyclic (edge nodes);
  no_material : ∀ n b, n ∈ nodes → b ∈ dependencies (pn_material n) → b ∈ pn_dependsOn n;
  no_writers : ∀ i j e l, j < i → nodes !! i = Some l → nodes !! j = Some e →
    overlap (pn_effects e) (pn_effects l) = [] ∨ tc (edge nodes) (pn_id l) (pn_id e) ∨
    asked_lanes e l ∧ in_lane l (pn_id e) ∧ (pn_generation e = pn_generation l → in_lane e (pn_id l));
  no_notes : ∀ n c, n ∈ nodes → c ∈ pn_conflicts n → noted nodes (pn_id n) c;
  no_readers : ∀ r w, r ∈ nodes → w ∈ nodes → (pn_generation w ≤ pn_generation r)%Z → readers_ok nodes r w;
  no_keys : ∀ n, n ∈ nodes → fromKeyMaterial (pn_material n) (node_digests nodes) = inr (pn_key n);
  no_generation : ∀ n, n ∈ nodes → (pn_generation n ≤ generation)%Z;
  no_effects : ∀ n, n ∈ nodes → validateEffects (pn_id n) (pn_effects n) = None
}.

Lemma no_nodes_ok generation : nodes_ok [] generation.
Proof.
  split.
  - constructor.
  - by intros a b (n & ?%not_elem_of_nil & _).
  - intros x Hx. assert (∃ y, edge [] x y) as (y & n & ?%not_elem_of_nil & _) by (inversion Hx; subst; eauto). done.
  - by intros n b ?%not_elem_of_nil.
  - intros i j e l _ E. by rewrite lookup_nil in E.
  - by intros n c ?%not_elem_of_nil.
  - by intros r w ?%not_elem_of_nil.
  - by intros n ?%not_elem_of_nil.
  - by intros n ?%not_elem_of_nil.
  - by intros n ?%not_elem_of_nil.
Qed.

(** One growth of the node list. *)
Definition extended (old : list PlanNode) (drafts : list NodeDraft) (generation : Z) (nodes : list PlanNode) : Prop :=
  ∃ keyed, keyNodes drafts old generation = Some (inr keyed) ∧ annotate (node_ids old) (old ++ keyed) = inr nodes.

Lemma keyNodes_spec drafts old generation keyed :
  keyNodes drafts old generation = Some (inr keyed) →
  ∃ sorted, sorted ≡ₚ drafts ∧ ordered_ok (node_ids old) sorted ∧ NoDup (nd_id <$> sorted) ∧
    (∀ d, d ∈ sorted → nd_id d ∉ node_ids old) ∧ key_drafts generation sorted (node_digests old) = inr keyed.
Proof.
  unfold keyNodes. destruct (duplicate _ drafts) eqn:Hdup; [done|]. apply duplicate_none in Hdup as [Hd Hnew].
  pose proof (topological_spec drafts (node_ids old) Hd) as Ht. unfold topological_result in Ht.
  destruct (topological drafts (node_ids old)) as [[e|sorted]|]; [done| |done]. intros [= E].
  destruct Ht as [Hp Ho]. exists sorted. split_and!; [done|done|by rewrite Hp| |done]. intros d. rewrite Hp. apply Hnew.
Qed.

Lemma drafted_ids generation drafts keyed : Forall2 (drafted generation) drafts keyed → ids keyed = nd_id <$> drafts.
Proof.
  induction 1 as [|d n drafts keyed [En _] _ IH]; [done|]. unfold ids in *. cbn [fmap list_fmap]. by rewrite IH, En.
Qed.

(** A new node stands behind the nodes its material names. *)
Lemma keyed_back known generation sorted keyed l1 n l2 b :
  Forall2 (drafted generation) sorted keyed → ordered_ok known sorted → keyed = l1 ++ n :: l2 → b ∈ pn_dependsOn n →
  b ∈ known ∨ b ∈ ids l1.
Proof.
  intros Hf Ho -> Hb. apply Forall2_app_inv_r in Hf as (d1 & d2 & Hf1 & Hf2 & ->).
  apply Forall2_cons_inv_r in Hf2 as (d & d3 & [En _] & _ & ->). rewrite En in Hb.
  destruct (Ho d1 d d3 eq_refl b Hb) as [?|Hin]; [by left|right]. by rewrite (drafted_ids _ _ _ Hf1).
Qed.

Lemma digests_extend l r b :
  NoDup (ids (l ++ r)) → b ∈ ids l → node_digests (l ++ r) !! b = node_digests l !! b.
Proof.
  intros Hd (x & -> & Hx)%list_elem_of_fmap.
  assert (NoDup (ids l)) as Hl by (unfold ids in *; rewrite fmap_app in Hd; by apply NoDup_app in Hd as (? & _ & _)).
  transitivity (Some (pn_key x)); [|symmetry]; apply node_digests_lookup; try done; exists x; split_and!; try done.
  apply elem_of_app. by left.
Qed.

Lemma digests_same l l' : Forall2 same_declaration l l' → node_digests l = node_digests l'.
Proof.
  unfold node_digests. generalize (∅ : gmap string string). intros m Hf. revert m.
  induction Hf as [|n n' l l' Hn _ IH]; intros m; [done|]. cbn. destruct Hn as (-> & _ & -> & _). apply IH.
Qed.

Lemma ids_same l l' : Forall2 same_declaration l l' → ids l' = ids l.
Proof.
  induction 1 as [|n n' l l' Hn _ IH]; [done|]. unfold ids in *. cbn [fmap list_fmap]. rewrite IH. by destruct Hn as [-> _].
Qed.

Lemma drafted_node generation drafts keyed n :
  Forall2 (drafted generation) drafts keyed → n ∈ keyed →
  pn_generation n = generation ∧ pn_dependsOn n = dependencies (pn_material n) ∧
  validateEffects (pn_id n) (pn_effects n) = None ∧ pn_id n ∈ nd_id <$> drafts.
Proof.
  intros Hf [i Hi]%list_elem_of_lookup. destruct (Forall2_lookup_r _ _ _ _ _ Hf Hi) as (d & Hd & En & Hv).
  rewrite En. split_and!; [done|done|done|]. apply list_elem_of_fmap. exists d. split; [done|by eapply list_elem_of_lookup_2].
Qed.

(** *** The nodes of a growth *)

Section Growth.

Context (old keyed new : list PlanNode) (old_generation generation : Z) (sorted : list NodeDraft).
Hypothesis old_ok : nodes_ok old old_generation.
Hypothesis later : (old_generation < generation)%Z.
Hypothesis unique : NoDup (ids (old ++ keyed)).
Hypothesis drafted_all : Forall2 (drafted generation) sorted keyed.
Hypothesis back : ∀ l1 n l2, keyed = l1 ++ n :: l2 → ∀ b, b ∈ pn_dependsOn n → b ∈ ids old ∨ b ∈ ids l1.
Hypothesis keys : ∀ l1 n l2, keyed = l1 ++ n :: l2 → fromKeyMaterial (pn_material n) (node_digests (old ++ l1)) = inr (pn_key n).
Hypothesis same : Forall2 same_declaration keyed new.
Hypothesis good : annotated old keyed (old ++ new).

Lemma all_same : Forall2 same_declaration (old ++ keyed) (old ++ new).
Proof. exact (an_nodes _ _ _ good). Qed.

Lemma growth_ids : ids (old ++ new) = ids (old ++ keyed).
Proof. apply ids_same, all_same. Qed.

Lemma growth_unique : NoDup (ids (old ++ new)).
Proof. by rewrite growth_ids. Qed.

Lemma new_node n :
  n ∈ new → ∃ n0, n0 ∈ keyed ∧ same_declaration n0 n ∧ pn_generation n = generation ∧
                  validateEffects (pn_id n) (pn_effects n) = None ∧ pn_id n ∉ ids old.
Proof.
  intros [i Hi]%list_elem_of_lookup. destruct (Forall2_lookup_r _ _ _ _ _ same Hi) as (n0 & H0 & Hs).
  apply list_elem_of_lookup_2 in H0. exists n0.
  destruct (drafted_node _ _ _ _ drafted_all H0) as (Hg & _ & Hv & _).
  destruct Hs as (Ei & ? & ? & ? & Ee & ? & ? & ? & Eg). rewrite Ei, Ee, Eg. split_and!; try done.
  intros Hold. unfold ids in unique. rewrite fmap_app in unique. apply NoDup_app in unique as (_ & Hdis & _).
  apply (Hdis _ Hold), list_elem_of_fmap. by exists n0.
Qed.

Lemma growth_keys n : n ∈ old ++ new → fromKeyMaterial (pn_material n) (node_digests (old ++ new)) = inr (pn_key n).
Proof.
  rewrite <-(digests_same _ _ all_same). intros [Hn|Hn]%elem_of_app.
  - apply (key_local _ (node_digests old)); [|by apply (no_keys _ _ old_ok)].
    intros b Hb. apply digests_extend; [done|]. apply (no_closed _ _ old_ok (pn_id n)). exists n.
    split_and!; [done|done|by apply (no_material _ _ old_ok)].
  - apply list_elem_of_lookup in Hn as [i Hi]. destruct (Forall2_lookup_r _ _ _ _ _ same Hi) as (n0 & H0 & Hs).
    destruct Hs as (_ & _ & -> & -> & _). pose proof (list_elem_of_lookup_2 _ _ _ H0) as Hin.
    apply list_elem_of_split in Hin as (l1 & l2 & E).
    apply (key_local _ (node_digests (old ++ l1))); [|by eapply keys].
    intros b Hb.
    destruct (drafted_node _ _ _ n0 drafted_all) as (_ & Ed & _); [rewrite E; apply elem_of_app; right; by left|].
    rewrite E, app_assoc. apply digests_extend; [by rewrite <-app_assoc, <-E|].
    unfold ids. rewrite fmap_app, elem_of_app. apply (back l1 n0 l2 E). by rewrite Ed.
Qed.

Lemma growth_material n b : n ∈ old ++ new → b ∈ dependencies (pn_material n) → b ∈ pn_dependsOn n.
Proof.
  intros Hn Hb. apply elem_of_app in Hn as [Ho|Hnew]; [by apply (no_material _ _ old_ok)|].
  destruct (new_node n Hnew) as (n0 & H0 & (Ei & _ & _ & Em & _) & _). rewrite Em in Hb.
  destruct (drafted_node _ _ _ n0 drafted_all H0) as (_ & Ed & _). rewrite <-Ed in Hb.
  assert (edge (old ++ new) (pn_id n) b) as (m & Hm & E & Hbm).
  { apply (an_grow _ _ _ good). exists n0. split_and!; [apply elem_of_app; by right|done|done]. }
  by rewrite <-(NoDup_key_inj pn_id (old ++ new) m n growth_unique Hm) by (done || apply elem_of_app; by right).
Qed.

Lemma old_edge_grows a b : tc (edge old) a b → tc (edge (old ++ new)) a b.
Proof.
  apply tc_mono. intros x y (n & Hn & <- & Hb). exists n. split_and!; [apply elem_of_app; by left|done|done].
Qed.

Lemma old_generation_lt n : n ∈ old → (pn_generation n < generation)%Z.
Proof. intros Hn. pose proof (no_generation _ _ old_ok n Hn). lia. Qed.

Lemma growth_writers i j e l :
  j < i → (old ++ new) !! i = Some l → (old ++ new) !! j = Some e →
  overlap (pn_effects e) (pn_effects l) = [] ∨ tc (edge (old ++ new)) (pn_id l) (pn_id e) ∨
  asked_lanes e l ∧ in_lane l (pn_id e) ∧ (pn_generation e = pn_generation l → in_lane e (pn_id l)).
Proof.
  intros Hij Hl He. destruct (decide (i < length old)) as [Hi|Hi].
  - rewrite lookup_app_l in Hl, He by lia.
    destruct (no_writers _ _ old_ok i j e l Hij Hl He) as [H1|[H1|H1]]; [by left|right; left; by apply old_edge_grows|by right; right].
  - assert (l ∈ new) as Hnew by (rewrite lookup_app_r in Hl by lia; by eapply list_elem_of_lookup_2).
    destruct (new_node l Hnew) as (_ & _ & _ & Hgl & _ & Hfresh).
    destruct (an_writers _ _ _ good i j e l Hij Hl He Hfresh) as [H1|[H1|(H0 & H1 & H2)]]; [by left|by right; left|right; right].
    split_and!; [done..|]. intros Hg. apply H2. intros Hold. apply list_elem_of_lookup_2 in He.
    apply elem_of_app in He as [He|He].
    + pose proof (old_generation_lt e He). lia.
    + by destruct (new_node e He) as (_ & _ & _ & _ & _ & ?).
Qed.

Lemma growth_notes n c : n ∈ old ++ new → c ∈ pn_conflicts n → noted (old ++ new) (pn_id n) c.
Proof.
  intros Hin Hc. pose proof Hin as [Hn|Hn]%elem_of_app.
  - destruct (no_notes _ _ old_ok n c Hn Hc) as (i & j & e & l & Hij & Hl & He & Hat & Hd). exists i, j, e, l.
    split_and!; [done|by apply lookup_app_l_Some|by apply lookup_app_l_Some|done|done].
  - apply (an_notes _ _ _ good n c Hin); [|done]. by destruct (new_node n Hn) as (_ & _ & _ & _ & _ & ?).
Qed.

Lemma growth_readers r w :
  r ∈ old ++ new → w ∈ old ++ new → (pn_generation w ≤ pn_generation r)%Z → readers_ok (old ++ new) r w.
Proof.
  intros Hr Hw Hle. pose proof Hr as Hr'. apply elem_of_app in Hr as [Hr|Hr].
  - assert (w ∈ old) as Hwo.
    { apply elem_of_app in Hw as [Hw|Hw]; [done|]. destruct (new_node w Hw) as (_ & _ & _ & Hg & _).
      pose proof (old_generation_lt r Hr). lia. }
    intros Hne Hreads. destruct (no_readers _ _ old_ok r w Hr Hwo Hle Hne Hreads) as [H1|H1]; [left|right]; by apply old_edge_grows.
  - apply (an_readers _ _ _ good r w Hr' Hw). by destruct (new_node r Hr) as (_ & _ & _ & _ & _ & ?).
Qed.

Lemma growth_ok : nodes_ok (old ++ new) generation.
Proof.
  split.
  - apply growth_unique.
  - apply (an_closed _ _ _ good).
  - apply (an_acyclic _ _ _ good).
  - apply growth_material.
  - apply growth_writers.
  - apply growth_notes.
  - apply growth_readers.
  - apply growth_keys.
  - intros n [Hn|Hn]%elem_of_app; [pose proof (old_generation_lt n Hn); lia|].
    destruct (new_node n Hn) as (_ & _ & _ & -> & _). done.
  - intros n [Hn|Hn]%elem_of_app; [by apply (no_effects _ _ old_ok)|].
    by destruct (new_node n Hn) as (_ & _ & _ & _ & ? & _).
Qed.

End Growth.

Lemma extended_spec old old_generation drafts generation nodes :
  nodes_ok old old_generation → (old_generation < generation)%Z → extended old drafts generation nodes →
  nodes_ok nodes generation ∧
  ∃ new, nodes = old ++ new ∧ ids new ≡ₚ nd_id <$> drafts ∧ Forall (λ n, pn_generation n = generation) new ∧
    Forall (λ n, ∃ d, d ∈ drafts ∧ same_declaration (keyed_node d (pn_key n) generation) n) new.
Proof.
  intros Hold Hlt (keyed & Ek & Ea). apply keyNodes_spec in Ek as (sorted & Hp & Hord & Hd & Hfresh & Ekd).
  apply key_drafts_spec in Ekd as [Hf Hkeys]; [|done].
  assert (NoDup (ids (old ++ keyed))) as Hunique.
  { unfold ids. rewrite fmap_app. apply NoDup_app. split_and!; [apply Hold| |].
    - intros x Hx Hin. fold (ids keyed) in Hin. rewrite (drafted_ids _ _ _ Hf) in Hin.
      apply list_elem_of_fmap in Hin as (d & -> & Hin). apply (Hfresh d Hin). by apply elem_of_list_to_set.
    - fold (ids keyed). by rewrite (drafted_ids _ _ _ Hf). }
  assert (∀ l1 n l2, keyed = l1 ++ n :: l2 → ∀ b, b ∈ pn_dependsOn n → b ∈ ids old ∨ b ∈ ids l1) as Hback.
  { intros l1 n l2 E b Hb. destruct (keyed_back _ _ _ _ _ _ _ _ Hf Hord E Hb) as [H1|H1]; [left|by right].
    by apply elem_of_list_to_set in H1. }
  pose proof (annotate_spec old keyed Hunique (no_closed _ _ Hold) (no_acyclic _ _ Hold) Hback nodes Ea) as Han.
  assert (∃ new, nodes = old ++ new ∧ Forall2 same_declaration keyed new) as (new & -> & Hsame).
  { exists (drop (length old) nodes). rewrite <-(an_old _ _ _ Han) at 1. split; [by rewrite take_drop|].
    rewrite <-(drop_app_length old keyed). apply Forall2_drop, (an_nodes _ _ _ Han). }
  assert (∀ l1 n l2, keyed = l1 ++ n :: l2 → fromKeyMaterial (pn_material n) (node_digests (old ++ l1)) = inr (pn_key n)) as Hk.
  { intros l1 n l2 E. unfold node_digests. rewrite fold_left_app. by eapply Hkeys. }
  split; [by apply (growth_ok old keyed new old_generation generation sorted)|].
  exists new. split_and!; [done|by rewrite (ids_same _ _ Hsame), (drafted_ids _ _ _ Hf), Hp|..]; apply Forall_forall; intros n Hn.
  - by destruct (new_node old keyed new generation sorted Hunique Hf Hsame n Hn) as (_ & _ & _ & ? & _).
  - apply list_elem_of_lookup in Hn as [i Hi]. destruct (Forall2_lookup_r _ _ _ _ _ Hsame Hi) as (n0 & H0 & Hs).
    destruct (Forall2_lookup_r _ _ _ _ _ Hf H0) as (d & Hdi & E0 & _). exists d. apply list_elem_of_lookup_2 in Hdi. split; [by rewrite <-Hp|].
    pose proof Hs as (_ & _ & -> & _). by rewrite <-E0.
Qed.

End Built.
