(* ===== verification/PlanTheorems.v ===== *)
(** * Theorems on plans

    For every plan that [compile] returns and every plan grown from it by [append]. *)

From S2P Require Import Prelude Capability Sha256 Sha256Props FileSet Canonical StepKey StepKeyProps Plan PlanOrder PlanAnnotate PlanProps.
From stdpp Require Import relations.

Section Theorems.

Context `{Crypto}.

Inductive built : Plan → Prop :=
| built_compile planId flow drafts p : compile planId flow drafts = Some (inr p) → built p
| built_append p drafts p' : built p → append p drafts = Some (inr p') → built p'.

Lemma compile_extended planId flow drafts p :
  compile planId flow drafts = Some (inr p) →
  extended [] drafts 0 (pl_nodes p) ∧ pl_generation p = 0%Z ∧ pl_baseDigest p = pl_digest p.
Proof.
  unfold compile. destruct (keyNodes drafts [] 0) as [[e|keyed]|] eqn:Ek; [done| |done].
  destruct (annotate ∅ keyed) as [e|nodes] eqn:Ea; [done|]. destruct (digestOf planId flow nodes) as [e|d]; [done|].
  intros [= <-]. split_and!; [by exists keyed|done|done].
Qed.

Lemma append_extended p drafts p' :
  append p drafts = Some (inr p') →
  extended (pl_nodes p) drafts (pl_generation p + 1) (pl_nodes p') ∧ pl_generation p' = (pl_generation p + 1)%Z ∧
  pl_baseDigest p' = pl_baseDigest p ∧ pl_planId p' = pl_planId p ∧ pl_flow p' = pl_flow p.
Proof.
  unfold append. destruct (keyNodes drafts (pl_nodes p) _) as [[e|keyed]|] eqn:Ek; [done| |done].
  destruct (annotate _ _) as [e|nodes] eqn:Ea; [done|]. destruct (digestOf _ _ nodes) as [e|d]; [done|].
  intros [= <-]. split_and!; [by exists keyed|done..].
Qed.

Lemma built_ok p : built p → nodes_ok (pl_nodes p) (pl_generation p).
Proof.
  induction 1 as [planId flow drafts p E|p drafts p' _ IH E].
  - apply compile_extended in E as (E & Hg & _). rewrite Hg. by apply (extended_spec [] (-1) drafts 0) in E as [? _]; [|apply no_nodes_ok|].
  - apply append_extended in E as (E & -> & _). apply (extended_spec _ _ _ _ _ IH) in E as [? _]; [done|lia].
Qed.

(** The key of a node of a plan. *)
Definition key_of (p : Plan) (id : string) : option string := node_digests (pl_nodes p) !! id.

(** C10. The graph of a plan is a graph a scheduler can run: its nodes have distinct ids,
    every dependency is a node of the plan, and no node waits for itself - the edges
    that order writers and the edges that put readers behind writers, in any number of
    generations, never close a cycle. *)
Theorem plan_acyclic (p : Plan) :
  built p →
  NoDup (ids (pl_nodes p)) ∧ (∀ a b, edge (pl_nodes p) a b → b ∈ ids (pl_nodes p)) ∧ acyclic (edge (pl_nodes p)).
Proof. intros Hp%built_ok. split_and!; apply Hp. Qed.

(** C11. No two nodes write one path unordered: of every two nodes of a plan whose
    declared writes or removals overlap, the later one is behind the earlier one on
    a path of dependencies, or one of the two asked for lanes, neither forbids the
    pair, and the later one carries a lane annotation that names the earlier one (as
    does the earlier one, if they arrived in one generation). Every annotation of
    the pair, on either node, says what is so: the paths both write, lanes exactly
    when one of the two asked for lanes and an order exactly when neither did, and
    stop-and-merge exactly when one of them asked for it. *)
Theorem writers_resolved (p : Plan) (i j : nat) (earlier later : PlanNode) :
  built p → j < i → pl_nodes p !! i = Some later → pl_nodes p !! j = Some earlier →
  overlap (pn_effects earlier) (pn_effects later) ≠ [] →
  (tc (edge (pl_nodes p)) (pn_id later) (pn_id earlier) ∨
   pn_strategy earlier ≠ FailPair ∧ pn_strategy later ≠ FailPair ∧
   (pn_strategy earlier = Lane ∨ pn_strategy later = Lane) ∧
   in_lane later (pn_id earlier) ∧ (pn_generation earlier = pn_generation later → in_lane earlier (pn_id later))) ∧
  ∀ c, c ∈ pn_conflicts later ∧ ca_with c = pn_id earlier ∨ c ∈ pn_conflicts earlier ∧ ca_with c = pn_id later →
    describes c earlier later.
Proof.
  intros Hp%built_ok Hij Hl He Hov. split.
  - destruct (no_writers _ _ Hp i j earlier later Hij Hl He) as [H1|[H1|((? & ? & ?) & ? & ?)]]; [done|by left|by right].
  - intros c Hc. apply (noted_pair (pl_nodes p) i j earlier later); [apply (no_unique _ _ Hp)|done..|].
    destruct Hc as [[Hc E]|[Hc E]]; [left|right]; (split; [|done]); apply (no_notes _ _ Hp); try done; by eapply list_elem_of_lookup_2.
Qed.

(** A node that reads what another writes runs before it or after it, never beside
    it: unless the writer arrived in a later generation, when the reader's row is fixed,
    the plan holds a path of dependencies between the two. *)
Theorem readers_ordered (p : Plan) (reader writer : PlanNode) :
  built p → reader ∈ pl_nodes p → writer ∈ pl_nodes p → pn_id writer ≠ pn_id reader →
  (pn_generation writer ≤ pn_generation reader)%Z →
  readsWhatItWrites (pn_effects reader) (pn_effects writer) = true →
  tc (edge (pl_nodes p)) (pn_id reader) (pn_id writer) ∨ tc (edge (pl_nodes p)) (pn_id writer) (pn_id reader).
Proof. intros Hp%built_ok Hr Hw Hne Hle Hreads. by apply (no_readers _ _ Hp). Qed.

(** A plan only grows: [append] keeps the recorded nodes, edges, keys and
    annotations as they are and in place, keeps the digest that was approved, and puts
    behind them one node for each draft, all of the next generation - the nodes that
    [generationNodes] hands to the store. *)
Theorem append_keeps (p p' : Plan) (drafts : list NodeDraft) :
  built p → append p drafts = Some (inr p') →
  ∃ new, pl_nodes p' = pl_nodes p ++ new ∧ ids new ≡ₚ nd_id <$> drafts ∧ generationNodes p' = new ∧
         pl_generation p' = (pl_generation p + 1)%Z ∧ pl_baseDigest p' = pl_baseDigest p.
Proof.
  intros Hp%built_ok E. apply append_extended in E as (E & Hg & Hb & _).
  apply (extended_spec _ _ _ _ _ Hp) in E as (_ & new & En & Hids & Hgen & _); [|lia].
  exists new. split_and!; [done|done| |done|done]. unfold generationNodes. rewrite Hg, En, List.filter_app.
  assert (List.filter (λ n, bool_decide (pn_generation n = pl_generation p + 1)%Z) (pl_nodes p) = []) as ->.
  { apply elem_of_nil_inv. intros n [Hn Hb']%elem_of_filter_b. apply bool_decide_eq_true in Hb'.
    pose proof (no_generation _ _ Hp n Hn). lia. }
  cbn. clear En Hids. induction Hgen as [|n new Hn _ IH]; [done|]. cbn. by rewrite bool_decide_eq_true_2, IH.
Qed.

(** Keys in a plan are the keys of its materials: the key a node carries is what
    [fromKeyMaterial] computes from its material with the keys of the plan's nodes as
    dependency digests, and every node its material names is among its dependencies. *)
Theorem plan_keys (p : Plan) (n : PlanNode) :
  built p → n ∈ pl_nodes p →
  fromKeyMaterial (pn_material n) (node_digests (pl_nodes p)) = inr (pn_key n) ∧ KeyDigest (pn_key n) = true ∧
  ∀ b, b ∈ dependencies (pn_material n) → b ∈ pn_dependsOn n.
Proof.
  intros Hp%built_ok Hn. pose proof (no_keys _ _ Hp n Hn) as Hk. split_and!; [done| |intros b; by apply (no_material _ _ Hp)].
  revert Hk. unfold fromKeyMaterial. destruct (km_kind _); [|done..].
  destruct (resolve_inputs _ _ _); [done|]. apply decodeKey_pattern.
Qed.

(** ** Edits *)

(** [a] refers to [b] by the same input in both plans. *)
Definition shared_reference (p1 p2 : Plan) (a b : string) : Prop :=
  ∃ n1 n2 i x1 x2, n1 ∈ pl_nodes p1 ∧ n2 ∈ pl_nodes p2 ∧ pn_id n1 = a ∧ pn_id n2 = a ∧
    km_inputs (pn_material n1) !! i = Some x1 ∧ km_inputs (pn_material n2) !! i = Some x2 ∧
    input_from x1 = Some b ∧ input_from x2 = Some b.

(** The texts hashed for the nodes of the two plans do not collide. *)
Definition collision_free (p1 p2 : Plan) : Prop :=
  ∀ n1 n2 i1 i2, n1 ∈ pl_nodes p1 → n2 ∈ pl_nodes p2 →
    resolved (pn_material n1) (node_digests (pl_nodes p1)) = inr i1 →
    resolved (pn_material n2) (node_digests (pl_nodes p2)) = inr i2 →
    no_collision (material_text (pn_material n1) i1) (material_text (pn_material n2) i2).

Lemma resolved_lookup m digests l i x :
  resolved m digests = inr l → km_inputs m !! i = Some x → ∃ v, l !! i = Some v ∧ resolve_input digests x = inr v.
Proof.
  unfold resolved. destruct (resolve_inputs digests 0 (km_inputs m)) as [|r] eqn:E; [done|]. intros [= <-]. revert i r E.
  generalize 0. induction (km_inputs m) as [|y inputs IH]; intros n i r E Hi; [done|]. cbn in E.
  destruct (resolve_input digests y) as [|v] eqn:Ev; [done|]. destruct (resolve_inputs digests (S n) inputs) as [|r'] eqn:Er; [done|].
  injection E as <-. destruct i as [|i]; [injection Hi as <-; by exists v|]. cbn. by eapply IH.
Qed.

Lemma resolve_digest digests x b v :
  input_from x = Some b → resolve_input digests x = inr v → ∃ d r p, v = DigestInput d r p ∧ digests !! b = Some d.
Proof.
  destruct x as [w|from path|from]; [done| |]; cbn; intros [= ->]; destruct (digests !! b) as [d|]; try done;
    intros [= <-]; [destruct path|]; by repeat eexists.
Qed.

Lemma node_key p n : built p → n ∈ pl_nodes p → key_of p (pn_id n) = Some (pn_key n).
Proof.
  intros Hp%built_ok Hn. apply node_digests_lookup; [apply Hp|]. by exists n.
Qed.

Lemma edit_one_step p1 p2 a b :
  built p1 → built p2 → collision_free p1 p2 → shared_reference p1 p2 a b → key_of p1 b ≠ key_of p2 b →
  key_of p1 a ≠ key_of p2 a.
Proof.
  intros B1 B2 Hc (n1 & n2 & i & x1 & x2 & N1 & N2 & <- & E2 & X1 & X2 & F1 & F2) Hb Ha. apply Hb.
  rewrite (node_key p1 n1 B1 N1), <-E2, (node_key p2 n2 B2 N2) in Ha. injection Ha as Ha.
  pose proof (no_keys _ _ (built_ok p1 B1) n1 N1) as K1. pose proof (no_keys _ _ (built_ok p2 B2) n2 N2) as K2.
  destruct (key_text _ _ _ K1) as (i1 & _ & R1 & _), (key_text _ _ _ K2) as (i2 & _ & R2 & _).
  apply (key_same _ _ _ _ _ _ _ _ K1 R1 K2 R2) in Ha as (_ & Hin & _); [|by eapply Hc].
  destruct (resolved_lookup _ _ _ _ _ R1 X1) as (v1 & L1 & V1), (resolved_lookup _ _ _ _ _ R2 X2) as (v2 & L2 & V2).
  destruct (resolve_digest _ _ _ _ F1 V1) as (d1 & r1 & q1 & -> & D1), (resolve_digest _ _ _ _ F2 V2) as (d2 & r2 & q2 & -> & D2).
  pose proof (Forall2_lookup_lr _ _ _ _ _ _ Hin L1 L2) as (-> & _). unfold key_of. by rewrite D1, D2.
Qed.

(** C12. Invalidation is re-keying: when a node has different keys in two plans, every
    node that refers to it, directly or through references the plans share, has
    different keys as well (unless hashed texts collide) - no index of reverse
    dependencies is needed to find what an edit touches. *)
Theorem edits_rekey_downstream (p1 p2 : Plan) (a b : string) :
  built p1 → built p2 → collision_free p1 p2 → tc (shared_reference p1 p2) a b →
  key_of p1 b ≠ key_of p2 b → key_of p1 a ≠ key_of p2 a.
Proof.
  intros B1 B2 Hc. induction 1 as [a b E|a b c E _ IH]; intros Hb.
  - by eapply edit_one_step.
  - eapply edit_one_step; [done..|exact E|by apply IH].
Qed.

(** ** Refusals *)

(** Why a graph is refused: [old] are the recorded nodes. *)
Definition refusal_holds (old : list PlanNode) (drafts : list NodeDraft) (e : PlanError) : Prop :=
  match e with
  | DuplicateNode id => id ∈ ids old ∧ id ∈ nd_id <$> drafts ∨ ¬ NoDup (nd_id <$> drafts)
  | Cycle id => tc (depends drafts (node_ids old)) id id
  | UnknownDependency id dependency => depends drafts (node_ids old) id dependency ∧ dependency ∉ nd_id <$> drafts
  | InvalidEffects id _ => ∃ d, d ∈ drafts ∧ nd_id d = id ∧ validateEffects id (nd_effects d) = Some e
  | OverlapForbidden earlier later paths =>
      ∃ l r, l ≠ r ∧ overlap (pn_effects l) (pn_effects r) = paths ∧ paths ≠ [] ∧ pn_id l = earlier ∧ pn_id r = later ∧
             (l ∈ old ∨ ∃ d k g, d ∈ drafts ∧ l = keyed_node d k g) ∧ (∃ d k g, d ∈ drafts ∧ r = keyed_node d k g) ∧
             (pn_strategy l = FailPair ∨ pn_strategy r = FailPair)
  end.

(** A document that has no key: it has no canonical text, or the platform gives no
    digest of that text. *)
Definition unkeyable (v : Value) : Prop :=
  match canonicalize v with
  | inr (Some t) => match digest t with Some d => hex_digits 64 d = false | None => True end
  | _ => True
  end.

(** Why a graph has no keys.  A draft's material is not sealed; or the document of a
    sealed one, with the keys of the nodes before it for the inputs it names, is not
    keyable; or the document of the whole plan is not.  Never because a key it needs is
    missing. *)
Definition keyless (old : list PlanNode) (drafts : list NodeDraft) (planId flow : string) (generation : Z) (e : KeyError) : Prop :=
  match e with
  | NonContentMaterial kind => ∃ d, d ∈ drafts ∧ km_kind (nd_material d) ≠ Sealed ∧ kind = kind_text (km_kind (nd_material d))
  | MissingDependency _ => False
  | SchemaIssue _ =>
      (∃ d before inputs, d ∈ drafts ∧ km_kind (nd_material d) = Sealed ∧
         (∀ n, n ∈ before → ∃ d' k, d' ∈ drafts ∧ KeyDigest k = true ∧ n = keyed_node d' k generation) ∧
         resolve_inputs (node_digests (old ++ before)) 0 (km_inputs (nd_material d)) = inr inputs ∧
         unkeyable (content_document (material_identity (nd_material d) inputs))) ∨
      (∃ keyed nodes, keyNodes drafts old generation = Some (inr keyed) ∧ annotate (node_ids old) (old ++ keyed) = inr nodes ∧
         unkeyable (content_document (mkContent (VObj [member "kind" (str "plan"); member "planId" (str planId); member "flow" (str flow)])
                      [("nodes", Plain (VArr (node_document <$> nodes)))] [] [] None None)))
  end.

(** An answer, and a reason when there is no plan. *)
Definition answered (old : list PlanNode) (drafts : list NodeDraft) (planId flow : string) (generation : Z)
    (r : option (PlanFailure + Plan)) : Prop :=
  match r with
  | None => False
  | Some (inl (Refused e)) => refusal_holds old drafts e
  | Some (inl (Unkeyed e)) => keyless old drafts planId flow generation e
  | Some (inr _) => True
  end.

Lemma decodeKey_fails v e : decodeKey v = inl e → unkeyable v ∧ ∃ m, e = SchemaIssue m.
Proof.
  unfold decodeKey, CanonicalText, Sha256, unkeyable.
  destruct (canonicalize v) as [[]|[t|]]; try (intros [= <-]; split; [done|by eexists]).
  destruct (digest t) as [d|]; [|intros [= <-]; split; [done|by eexists]].
  destruct (hex_digits 64 d); [done|]. intros [= <-]. split; [done|by eexists].
Qed.

Lemma resolve_fails digests inputs n e :
  resolve_inputs digests n inputs = inl e → ∃ from, e = MissingDependency from ∧ from ∈ omap input_from inputs ∧ digests !! from = None.
Proof.
  revert n. induction inputs as [|x inputs IH]; intros n; cbn; [done|].
  destruct (resolve_input digests x) as [e'|v] eqn:Ex.
  - intros [= ->]. destruct x as [w|from path|from]; cbn in *; [done| |]; (destruct (digests !! from) eqn:Ed; [done|]);
      injection Ex as <-; exists from; split_and!; [done|by left|done|done|by left|done].
  - destruct (resolve_inputs digests (S n) inputs) as [e'|r] eqn:Er; [|done]. intros [= ->].
    destruct (IH _ Er) as (from & -> & Hin & Hd). exists from. split_and!; [done| |done].
    destruct (input_from x); [by right|done].
Qed.

(** The draft at which keying fails, and the nodes keyed before it. *)
Lemma key_drafts_unkeyed generation drafts old l e :
  key_drafts generation drafts (node_digests (old ++ l)) = inl (Unkeyed e) →
  ∃ d1 d d2 before, drafts = d1 ++ d :: d2 ∧ Forall2 (drafted generation) d1 before ∧
    Forall (λ n, KeyDigest (pn_key n) = true) before ∧
    fromKeyMaterial (nd_material d) (node_digests (old ++ l ++ before)) = inl e.
Proof.
  revert l. induction drafts as [|d drafts IH]; intros l; cbn; [done|].
  destruct (validateEffects _ _) eqn:Ev; [done|].
  destruct (fromKeyMaterial (nd_material d) _) as [e'|k] eqn:Ek.
  { intros [= ->]. exists [], d, drafts, []. rewrite app_nil_r. by split_and!. }
  destruct (key_drafts generation drafts _) as [f|] eqn:Er; [|done]. intros [= ->].
  set (n := keyed_node d k generation).
  destruct (IH (l ++ [n])) as (d1 & d' & d2 & before & -> & Hf & Hk & E).
  { rewrite <-Er. f_equal. unfold node_digests. by rewrite app_assoc, fold_left_app. }
  exists (d :: d1), d', d2, (n :: before). split_and!; [done|by constructor| |by rewrite <-app_assoc in E].
  constructor; [|done]. cbn. revert Ek. unfold fromKeyMaterial. destruct (km_kind _); [|done..].
  destruct (resolve_inputs _ _ _); [done|]. apply decodeKey_pattern.
Qed.

Lemma keyNodes_unkeyed drafts old generation planId flow e :
  NoDup (ids old) → keyNodes drafts old generation = Some (inl (Unkeyed e)) → keyless old drafts planId flow generation e.
Proof.
  intros Hold. unfold keyNodes. destruct (duplicate _ drafts) as [id|] eqn:Hdup; [done|]. apply duplicate_none in Hdup as [Hd Hnew].
  pose proof (topological_spec drafts (node_ids old) Hd) as Ht. unfold topological_result in Ht.
  destruct (topological drafts (node_ids old)) as [[e'|sorted]|]; [done| |done]. destruct Ht as [Hp Ho].
  intros [= E]. rewrite <-(app_nil_r old) in E at 1.
  apply key_drafts_unkeyed in E as (d1 & d & d2 & before & Es & Hf & Hk & E). cbn in E.
  assert (d ∈ drafts) as Hin by (rewrite <-Hp, Es; apply elem_of_app; right; by left).
  unfold fromKeyMaterial in E. destruct (km_kind (nd_material d)) eqn:Hkind.
  2,3: injection E as <-; exists d; rewrite Hkind; by split_and!.
  destruct (resolve_inputs _ _ _) as [e'|inputs] eqn:Er.
  - injection E as <-. apply resolve_fails in Er as (from & -> & Hfrom & Hnone). cbn.
    assert (from ∈ ids (old ++ before)) as Hthere.
    { unfold ids. rewrite fmap_app. apply elem_of_app. fold (ids before). rewrite (drafted_ids _ _ _ Hf).
      destruct (Ho d1 d d2 Es from) as [H1|H1]; [|left; by apply elem_of_list_to_set in H1|by right].
      unfold dependencies. apply distinct_in. split; [done|apply not_elem_of_nil]. }
    assert (NoDup (ids (old ++ before))) as Hu.
    { unfold ids. rewrite fmap_app. fold (ids before). rewrite (drafted_ids _ _ _ Hf).
      rewrite <-Hp, Es, fmap_app in Hd. apply NoDup_app in Hd as (Hd1 & _ & _). apply NoDup_app. split_and!; [done| |done].
      intros x Hx (d' & -> & Hd')%list_elem_of_fmap. apply (Hnew d'); [|by apply elem_of_list_to_set].
      rewrite <-Hp, Es. apply elem_of_app. by left. }
    apply list_elem_of_fmap in Hthere as (n & -> & Hn).
    assert (node_digests (old ++ before) !! pn_id n = Some (pn_key n)) as Hs by (apply node_digests_lookup; [done|by exists n]).
    congruence.
  - apply decodeKey_fails in E as [Hu [m ->]]. left. exists d, before, inputs. split_and!; [done..| |done|done].
    intros n Hn. rewrite Forall_forall in Hk. pose proof (Hk n Hn) as Hkey. apply list_elem_of_lookup in Hn as [i Hi].
    destruct (Forall2_lookup_r _ _ _ _ _ Hf Hi) as (d' & Hd' & En & _). exists d', (pn_key n). split_and!; [|done|done].
    rewrite <-Hp, Es. apply elem_of_app. left. by eapply list_elem_of_lookup_2.
Qed.

Lemma key_drafts_refused generation drafts digests e :
  key_drafts generation drafts digests = inl (Refused e) → ∃ d, d ∈ drafts ∧ validateEffects (nd_id d) (nd_effects d) = Some e.
Proof.
  revert digests. induction drafts as [|d drafts IH]; intros digests; cbn; [done|].
  destruct (validateEffects _ _) eqn:Ev; [intros [= ->]; exists d; split; [by left|done]|].
  destruct (fromKeyMaterial _ _); [done|]. destruct (key_drafts _ drafts _) as [f|] eqn:Er; [|done]. intros [= ->].
  destruct (IH _ Er) as (x & Hx & Hv). exists x. split; [by right|done].
Qed.

Lemma validate_named id effects e : validateEffects id effects = Some e → ∃ declared, e = InvalidEffects id declared.
Proof. unfold validateEffects. repeat case_match; try done; intros [= <-]; by eexists. Qed.

Lemma duplicate_some known drafts id :
  duplicate known drafts = Some id → id ∈ known ∧ id ∈ nd_id <$> drafts ∨ ¬ NoDup (nd_id <$> drafts).
Proof.
  intros E. destruct (decide (NoDup (nd_id <$> drafts))) as [Hd|]; [left|by right].
  revert known E. induction drafts as [|d drafts IH]; intros known; cbn; [done|]. apply NoDup_cons in Hd as [Hnew Hd].
  case_bool_decide as Hk; [intros [= <-]; split; [done|by left]|].
  intros E. destruct (IH Hd _ E) as [[->%elem_of_singleton|Hin]%elem_of_union Hid]; [done|]. split; [done|by right].
Qed.

Lemma keyNodes_refused drafts old generation e :
  keyNodes drafts old generation = Some (inl (Refused e)) → refusal_holds old drafts e.
Proof.
  unfold keyNodes. destruct (duplicate _ drafts) as [id|] eqn:Hdup.
  { intros [= <-]. destruct (duplicate_some _ _ _ Hdup) as [[Hin Hd]|]; [left|by right]. by apply elem_of_list_to_set in Hin. }
  apply duplicate_none in Hdup as [Hd _]. pose proof (topological_spec drafts (node_ids old) Hd) as Ht.
  unfold topological_result in Ht. destruct (topological drafts (node_ids old)) as [[e'|sorted]|]; [|destruct Ht as [Hp _]|done].
  - intros [= ->]. by destruct e.
  - intros [= E]. apply key_drafts_refused in E as (d & Hin & Hv). rewrite Hp in Hin.
    destruct (validate_named _ _ _ Hv) as [declared ->]. by exists d.
Qed.

Lemma extended_refused drafts old generation keyed e :
  keyNodes drafts old generation = Some (inr keyed) → NoDup (ids old) → annotate (node_ids old) (old ++ keyed) = inl e →
  refusal_holds old drafts e.
Proof.
  intros Ek Hold Ea. apply keyNodes_spec in Ek as (sorted & Hp & _ & Hd & Hfresh & Ekd).
  apply key_drafts_spec in Ekd as [Hf _]; [|done].
  assert (∀ n, n ∈ keyed → ∃ d k g, d ∈ drafts ∧ n = keyed_node d k g) as Hdraft.
  { intros n [i Hi]%list_elem_of_lookup. destruct (Forall2_lookup_r _ _ _ _ _ Hf Hi) as (d & Hdi & En & _).
    exists d, (pn_key n), generation. split; [rewrite <-Hp; by eapply list_elem_of_lookup_2|done]. }
  apply annotate_forbidden in Ea as (i & j & l & r & Hij & Hr & Hl & Hnew & -> & Hov & Hs). cbn.
  assert (r ∈ keyed) as Hrk.
  { apply list_elem_of_lookup_2, elem_of_app in Hr as [Hr|Hr]; [|done]. destruct Hnew. apply elem_of_list_to_set, list_elem_of_fmap. by exists r. }
  exists l, r. split_and!; try done; [|apply list_elem_of_lookup_2, elem_of_app in Hl as [Hl|Hl]; [by left|right; by apply Hdraft]|by apply Hdraft].
  intros ->. assert (NoDup (ids (old ++ keyed))) as Hu.
  { unfold ids. rewrite fmap_app. apply NoDup_app. split_and!; [done| |].
    - intros x Hx Hin. fold (ids keyed) in Hin. rewrite (drafted_ids _ _ _ Hf) in Hin.
      apply list_elem_of_fmap in Hin as (d & -> & Hin). apply (Hfresh d Hin). by apply elem_of_list_to_set.
    - fold (ids keyed). by rewrite (drafted_ids _ _ _ Hf). }
  apply (f_equal (fmap pn_id)) in Hr, Hl. rewrite <-list_lookup_fmap in Hr, Hl.
  pose proof (NoDup_lookup _ _ _ _ Hu Hr Hl). lia.
Qed.

(** C28. The compiler always answers, and gives no plan only for a reason the graph
    has. It refuses an id twice, a cycle, a name the plan does not have, declared
    paths that leave the workspace or are both written and removed, or two nodes
    that write one path where one of them forbids it. And it fails to key a graph
    when a draft's material is not sealed, when the document of a sealed one - with
    the keys of the nodes before it for the inputs it names - or of the whole plan
    has no canonical text or the platform gives no well-formed digest of that text;
    never because the key of a dependency is missing. *)
Theorem refusals_explained (p : Plan) (drafts : list NodeDraft) (planId flow : string) :
  built p →
  answered [] drafts planId flow 0 (compile planId flow drafts) ∧
  answered (pl_nodes p) drafts (pl_planId p) (pl_flow p) (pl_generation p + 1) (append p drafts).
Proof.
  assert (∀ old g, NoDup (ids old) → keyNodes drafts old g ≠ None) as Hruns.
  { intros old g _. unfold keyNodes. destruct (duplicate _ drafts) eqn:Hdup; [done|]. apply duplicate_none in Hdup as [Hd _].
    pose proof (topological_spec drafts (node_ids old) Hd) as Ht. by destruct (topological drafts (node_ids old)) as [[|]|]. }
  intros Hp%built_ok. pose proof (no_unique _ _ Hp) as Hu. split; [unfold answered, compile|unfold answered, append].
  - destruct (keyNodes drafts [] 0) as [[[e|e]|keyed]|] eqn:Ek;
      [by eapply keyNodes_refused|by apply keyNodes_unkeyed; [constructor|]| |by apply (Hruns [] 0%Z); [constructor|]].
    destruct (annotate ∅ keyed) as [e|nodes] eqn:Ea; [by eapply extended_refused; [exact Ek|constructor|exact Ea]|].
    destruct (digestOf planId flow nodes) as [e|] eqn:Ed; [|done].
    apply decodeKey_fails in Ed as [Hd [m ->]]. right. by exists keyed, nodes.
  - destruct (keyNodes drafts (pl_nodes p) _) as [[[e|e]|keyed]|] eqn:Ek;
      [by eapply keyNodes_refused|by eapply keyNodes_unkeyed| |by eapply Hruns].
    destruct (annotate _ _) as [e|nodes] eqn:Ea; [by eapply extended_refused|].
    destruct (digestOf (pl_planId p) (pl_flow p) nodes) as [e|] eqn:Ed; [|done].
    apply decodeKey_fails in Ed as [Hd [m ->]]. right. by exists keyed, nodes.
Qed.

End Theorems.
