(* ===== verification/PlanDemo.v ===== *)
(** * A plan, compiled and grown

    Witnesses of the theorems on plans, with a polynomial hash of 96 bits in the place
    of the platform's (which is slow to evaluate), and what the annotation passes do on two small graphs. *)

From S2P Require Import Prelude Capability Sha256 Sha256Props FileSet Canonical StepKey StepKeyProps Plan PlanOrder PlanAnnotate PlanProps PlanTheorems.
From stdpp Require Import relations.

Module PlanDemo.

Definition quick_hash (t : text) : Z := fold_left (λ acc u, Z.land (acc * 769 + Z.of_N u + 1) 79228162514264337593543950335) t 7%Z.
Definition quick_crypto : Crypto := {| digest t := Some (fixed 64 (quick_hash t) "") |}.
#[local] Existing Instance quick_crypto.

Definition material (body : string) (inputs : list InputRef) : KeyMaterial :=
  mkMaterial Sealed false (str body) inputs [] [] None None.

Definition effects (reads writes : list string) : NodeEffects :=
  mkEffects ((λ p, RDEntry (RPath p)) <$> reads) ((λ p, DEntry (EPath p)) <$> writes) None BHard.

Definition draft (id body : string) (inputs : list InputRef) (reads writes : list string) : NodeDraft :=
  mkDraft id (material body inputs) (effects reads writes) None None None None.

(** [bundle] is listed before what it depends on; [fmt] writes the file [gen] writes. *)
Definition drafts (body : string) : list NodeDraft :=
  [draft "bundle" "esbuild" [Ref "gen" []] ["src/gen.ts"] ["dist/app.js"];
   draft "gen" body [] [] ["src/gen.ts"];
   draft "fmt" "prettier" [] [] ["src/gen.ts"]].

Definition more : list NodeDraft := [draft "lint" "eslint" [Pending "bundle"] ["src/gen.ts"] []].

Definition plan_of (r : option (PlanFailure + Plan)) : Plan :=
  match r with Some (inr p) => p | _ => mkPlan "" "" 0 "" "" [] end.

Definition first : Plan := Eval vm_compute in plan_of (compile "p" "f" (drafts "gen v1")).
Definition edited : Plan := Eval vm_compute in plan_of (compile "p" "f" (drafts "gen v2")).
Definition grown : Plan := Eval vm_compute in plan_of (append first more).

Lemma first_compiles : compile "p" "f" (drafts "gen v1") = Some (inr first).
Proof. vm_compute. reflexivity. Qed.
Lemma edited_compiles : compile "p" "f" (drafts "gen v2") = Some (inr edited).
Proof. vm_compute. reflexivity. Qed.
Lemma grown_appends : append first more = Some (inr grown).
Proof. vm_compute. reflexivity. Qed.

Lemma first_built : built first.
Proof. exact (built_compile "p" "f" (drafts "gen v1") first first_compiles). Qed.
Lemma edited_built : built edited.
Proof. exact (built_compile "p" "f" (drafts "gen v2") edited edited_compiles). Qed.
Lemma grown_built : built grown.
Proof. exact (built_append first more grown first_built grown_appends). Qed.

Example first_order : (λ n, (pn_id n, pn_dependsOn n)) <$> pl_nodes first =
  [("gen", []); ("bundle", ["gen"; "fmt"]); ("fmt", ["gen"])].
Proof. vm_compute. reflexivity. Qed.

Definition node_at (p : Plan) (i : nat) : PlanNode :=
  default (keyed_node (draft "" "" [] [] []) "" 0) (pl_nodes p !! i).

(** The texts hashed for two plans, compared pair by pair. *)
Definition hashed (p : Plan) : list text :=
  omap (λ n, match resolved (pn_material n) (node_digests (pl_nodes p)) with
             | inr i => Some (material_text (pn_material n) i) | inl _ => None end) (pl_nodes p).

Definition no_collisions (p1 p2 : Plan) : bool :=
  forallb (λ a, forallb (λ b, bool_decide (a = b) || negb (bool_decide (digest a = digest b))) (hashed p2)) (hashed p1).

Lemma hashed_in p n i :
  n ∈ pl_nodes p → resolved (pn_material n) (node_digests (pl_nodes p)) = inr i → material_text (pn_material n) i ∈ hashed p.
Proof. intros Hn E. apply list_elem_of_omap. exists n. split; [done|]. by rewrite E. Qed.

Lemma no_collisions_sound p1 p2 : no_collisions p1 p2 = true → collision_free p1 p2.
Proof.
  intros H n1 n2 i1 i2 N1 N2 R1 R2 Ed. unfold no_collisions in H.
  rewrite forallb_forall in H. specialize (H _ (proj1 (list_elem_of_In _ _) (hashed_in p1 n1 i1 N1 R1))).
  rewrite forallb_forall in H. specialize (H _ (proj1 (list_elem_of_In _ _) (hashed_in p2 n2 i2 N2 R2))).
  apply orb_true_iff in H as [H|H]; [by apply bool_decide_eq_true in H|]. by rewrite bool_decide_eq_true_2 in H.
Qed.

Lemma bundle_refers : tc (shared_reference first edited) "bundle" "gen".
Proof.
  apply tc_once. exists (node_at first 1), (node_at edited 1), 0, (Ref "gen" []), (Ref "gen" []).
  split_and!; try reflexivity; apply (list_elem_of_lookup_2 _ 1); reflexivity.
Qed.

Lemma gen_edited : key_of first "gen" ≠ key_of edited "gen".
Proof. apply (bool_decide_eq_true_1 (_ ≠ _)). vm_compute. reflexivity. Qed.

Lemma duplicate_refused : append first [draft "gen" "x" [] [] []] = Some (inl (Refused (DuplicateNode "gen"))).
Proof. vm_compute. reflexivity. Qed.

(** ** Orderings the conflict pass does not see *)

Definition forbidding (d : NodeDraft) : NodeDraft :=
  mkDraft (nd_id d) (nd_material d) (nd_effects d) (nd_kind d) (nd_priority d) (Some FailPair) (nd_runtimeStrategy d).

Definition chain : list NodeDraft :=
  [draft "a" "a" [] [] ["out"]; draft "b" "b" [] [] ["out"]].
Definition last_writer : NodeDraft := forbidding (draft "c" "c" [Ref "b" []] [] ["out"]).

Definition reading : list NodeDraft :=
  [draft "r" "r" [] ["q"] []; draft "w1" "w1" [] [] ["z"]; draft "w2" "w2" [Ref "w1" []] [] ["q"]].
Definition rewriter : NodeDraft := forbidding (draft "x" "x" [Ref "r" []] [] ["z"]).

Definition chain_plan : Plan := Eval vm_compute in plan_of (compile "p" "f" chain).
Definition chain_grown : Plan := Eval vm_compute in plan_of (append chain_plan [last_writer]).
Definition reading_plan : Plan := Eval vm_compute in plan_of (compile "p" "f" reading).

End PlanDemo.

Lemma plan_acyclic_witness :
  NoDup (ids (pl_nodes PlanDemo.grown)) ∧
  (∀ a b, edge (pl_nodes PlanDemo.grown) a b → b ∈ ids (pl_nodes PlanDemo.grown)) ∧ acyclic (edge (pl_nodes PlanDemo.grown)).
Proof. exact (@plan_acyclic PlanDemo.quick_crypto PlanDemo.grown PlanDemo.grown_built). Defined.

Lemma writers_resolved_witness :
  tc (edge (pl_nodes PlanDemo.first)) "fmt" "gen" ∨
  pn_strategy (PlanDemo.node_at PlanDemo.first 0) ≠ FailPair ∧ pn_strategy (PlanDemo.node_at PlanDemo.first 2) ≠ FailPair ∧
  (pn_strategy (PlanDemo.node_at PlanDemo.first 0) = Lane ∨ pn_strategy (PlanDemo.node_at PlanDemo.first 2) = Lane) ∧
  in_lane (PlanDemo.node_at PlanDemo.first 2) "gen" ∧
  (pn_generation (PlanDemo.node_at PlanDemo.first 0) = pn_generation (PlanDemo.node_at PlanDemo.first 2) →
   in_lane (PlanDemo.node_at PlanDemo.first 0) "fmt").
Proof.
  destruct (@writers_resolved PlanDemo.quick_crypto PlanDemo.first 2 0 (PlanDemo.node_at PlanDemo.first 0)
    (PlanDemo.node_at PlanDemo.first 2) PlanDemo.first_built) as [H _]; [lia|reflexivity|reflexivity| |exact H].
  apply (bool_decide_eq_true_1 (_ ≠ _)). vm_compute. reflexivity.
Defined.

Lemma readers_ordered_witness :
  tc (edge (pl_nodes PlanDemo.grown)) "lint" "fmt" ∨ tc (edge (pl_nodes PlanDemo.grown)) "fmt" "lint".
Proof.
  apply (@readers_ordered PlanDemo.quick_crypto PlanDemo.grown (PlanDemo.node_at PlanDemo.grown 3) (PlanDemo.node_at PlanDemo.grown 2)
    PlanDemo.grown_built).
  - apply (list_elem_of_lookup_2 _ 3). reflexivity.
  - apply (list_elem_of_lookup_2 _ 2). reflexivity.
  - discriminate.
  - vm_compute. discriminate.
  - vm_compute. reflexivity.
Defined.

Lemma append_keeps_witness :
  ∃ new, pl_nodes PlanDemo.grown = pl_nodes PlanDemo.first ++ new ∧ ids new ≡ₚ nd_id <$> PlanDemo.more ∧
         generationNodes PlanDemo.grown = new ∧ pl_generation PlanDemo.grown = (pl_generation PlanDemo.first + 1)%Z ∧
         pl_baseDigest PlanDemo.grown = pl_baseDigest PlanDemo.first.
Proof.
  exact (@append_keeps PlanDemo.quick_crypto _ _ _ PlanDemo.first_built PlanDemo.grown_appends).
Defined.

Lemma plan_keys_witness :
  let n := PlanDemo.node_at PlanDemo.grown 3 in
  @fromKeyMaterial PlanDemo.quick_crypto (pn_material n) (node_digests (pl_nodes PlanDemo.grown)) = inr (pn_key n) ∧
  KeyDigest (pn_key n) = true ∧ ∀ b, b ∈ dependencies (pn_material n) → b ∈ pn_dependsOn n.
Proof.
  apply (@plan_keys PlanDemo.quick_crypto PlanDemo.grown _ PlanDemo.grown_built).
  apply (list_elem_of_lookup_2 _ 3). reflexivity.
Defined.

Lemma edits_rekey_downstream_witness : key_of PlanDemo.first "bundle" ≠ key_of PlanDemo.edited "bundle".
Proof.
  apply (@edits_rekey_downstream PlanDemo.quick_crypto PlanDemo.first PlanDemo.edited "bundle" "gen"
    PlanDemo.first_built PlanDemo.edited_built); [|exact PlanDemo.bundle_refers|exact PlanDemo.gen_edited].
  apply PlanDemo.no_collisions_sound. vm_compute. reflexivity.
Defined.

Lemma refusals_explained_witness :
  refusal_holds (pl_nodes PlanDemo.first) [PlanDemo.draft "gen" "x" [] [] []] (DuplicateNode "gen").
Proof.
  change (@answered PlanDemo.quick_crypto (pl_nodes PlanDemo.first) [PlanDemo.draft "gen" "x" [] [] []] (pl_planId PlanDemo.first)
    (pl_flow PlanDemo.first) (pl_generation PlanDemo.first + 1) (Some (inl (Refused (DuplicateNode "gen"))))).
  rewrite <-PlanDemo.duplicate_refused.
  exact (proj2 (@refusals_explained PlanDemo.quick_crypto PlanDemo.first [PlanDemo.draft "gen" "x" [] [] []] "p" "f" PlanDemo.first_built)).
Defined.

Lemma topological_decides_witness :
  NoDup ["a"; "b"] ∧
  ((∃ l, topological PlanDemo.chain ∅ = Some (inr l) ∧ l ≡ₚ PlanDemo.chain ∧ ordered_ok ∅ l ∧ acyclic (depends PlanDemo.chain ∅) ∧
      ∀ a b, depends PlanDemo.chain ∅ a b → b ∈ nd_id <$> PlanDemo.chain) ∨
   (∃ e, topological PlanDemo.chain ∅ = Some (inl e) ∧ explained PlanDemo.chain ∅ e)).
Proof.
  assert (NoDup ["a"; "b"]) as H by (apply (bool_decide_eq_true_1 (NoDup _)); vm_compute; reflexivity).
  split; [exact H|]. exact (topological_decides PlanDemo.chain ∅ H).
Defined.

(** One graph, two answers: compiled at once it is refused - the edge that puts [b]
    behind [a] is not followed from [c], which depends on [b] - and compiled without
    [c], which is then appended, it is accepted. *)
Theorem serialized_path_forgotten :
  @compile PlanDemo.quick_crypto "p" "f" (PlanDemo.chain ++ [PlanDemo.last_writer])
    = Some (inl (Refused (OverlapForbidden "a" "c" ["out"]))) ∧
  @compile PlanDemo.quick_crypto "p" "f" PlanDemo.chain = Some (inr PlanDemo.chain_plan) ∧
  @append PlanDemo.quick_crypto PlanDemo.chain_plan [PlanDemo.last_writer] = Some (inr PlanDemo.chain_grown).
Proof. split_and!; vm_compute; reflexivity. Qed.

(** [x] is behind [w1] on a path of recorded dependencies ([x], [r], [w2], [w1]), but
    [r] precedes [w2] in the plan and the closure is computed in plan order: the
    append is refused as an overlap of [w1] and [x]. *)
Theorem forward_edge_forgotten :
  @compile PlanDemo.quick_crypto "p" "f" PlanDemo.reading = Some (inr PlanDemo.reading_plan) ∧
  (λ n, (pn_id n, pn_dependsOn n)) <$> pl_nodes PlanDemo.reading_plan = [("r", ["w2"]); ("w1", []); ("w2", ["w1"])] ∧
  @append PlanDemo.quick_crypto PlanDemo.reading_plan [PlanDemo.rewriter] = Some (inl (Refused (OverlapForbidden "w1" "x" ["z"]))).
Proof. split_and!; vm_compute; reflexivity. Qed.
