(* ===== verification/PlanDiff.v ===== *)
(** * Plans compared ([plan/src/PlanDiff.ts])

    Nodes are the same by id and unchanged by key; the fields that moved a key are a
    report, compared as text. *)

From S2P Require Import Prelude Capability Sha256 Sha256Props FileSet Canonical StepKey StepKeyProps Plan PlanOrder PlanAnnotate PlanProps PlanTheorems PlanDemo.

(** ** The comparison text *)

(** [JSON.stringify] of any string: a lone surrogate is written as an escape. *)
Fixpoint stringify_units (t : text) : text :=
  match t with
  | [] => []
  | u :: rest =>
      if high_surrogate u
      then match rest with
           | next :: rest' => if low_surrogate next then u :: next :: stringify_units rest'
                              else [92; 117; hex (u / 4096); hex (u / 256 mod 16); hex (u / 16 mod 16); hex (u mod 16)]%N ++ stringify_units rest
           | [] => [92; 117; hex (u / 4096); hex (u / 256 mod 16); hex (u / 16 mod 16); hex (u mod 16)]%N
           end
      else if low_surrogate u
      then [92; 117; hex (u / 4096); hex (u / 256 mod 16); hex (u / 16 mod 16); hex (u mod 16)]%N ++ stringify_units rest
      else escape u ++ stringify_units rest
  end.

Definition stringify_text (t : text) : text := 34%N :: stringify_units t ++ [34%N].

(** [stable]. *)
Fixpoint stable (v : Value) : text :=
  match v with
  | VUndefined => of_string "undefined"
  | VNull => of_string "null"
  | VBool b => of_string (if b then "true" else "false")
  | VNum (Finite n) => number_text n
  | VNum _ => of_string "null"
  | VText t => stringify_text t
  | VArr l => (91 :: commas (List.map stable l) ++ [93])%N
  | VObj fields =>
      let entries := sort_members (List.map (λ kv, (fst kv, stable (snd kv))) fields) in
      (123 :: commas (List.map (λ e, stringify_text (fst e) ++ 58 :: snd e) entries) ++ [125])%N
  end.

Definition input_document (i : InputRef) : Value :=
  match i with
  | Literal v => VObj [member "_tag" (str "Literal"); member "value" v]
  | Ref from path => VObj [member "_tag" (str "Ref"); member "from" (str from); member "path" (strs path)]
  | Pending from => VObj [member "_tag" (str "Pending"); member "from" (str from)]
  end.

Definition differs (a b : Value) : bool := negb (bool_decide (stable a = stable b)).

(** ** The fields that moved a key *)

Definition input_label (index : nat) : string := "input[" +:+ pretty index +:+ "]".

(** One index of the loop over the inputs. *)
Definition changed_input (before after : list InputRef) (rekeyedDependencies : gset string) (index : nat) : list string :=
  match before !! index, after !! index with
  | Some b, Some a =>
      if differs (input_document b) (input_document a) then [input_label index]
      else match input_from a with
           | Some from => if bool_decide (from ∈ rekeyedDependencies) then [input_label index] else []
           | None => []
           end
  | _, _ => [input_label index]
  end.

(** The material's version is one literal, so its comparison never differs. *)
Definition changedFields (previous next : PlanNode) (rekeyedDependencies : gset string) : list string :=
  let before := pn_material previous in
  let after := pn_material next in
  (if differs (km_body before) (km_body after) then ["body"] else []) ++
  (if differs (strs (km_layers before)) (strs (km_layers after)) then ["layers"] else []) ++
  (if differs (strs (km_capabilities before)) (strs (km_capabilities after)) then ["capabilities"] else []) ++
  (if differs (default VUndefined (km_effects before)) (default VUndefined (km_effects after)) then ["effects"] else []) ++
  flat_map (changed_input (km_inputs before) (km_inputs after) rekeyedDependencies)
    (List.seq 0 (Nat.max (length (km_inputs before)) (length (km_inputs after)))).

(** ** The comparison *)

Record Rekeyed := mkRekeyed { rk_id : string; rk_from : string; rk_to : string; rk_changed : list string }.

Record PlanDiff := mkDiff {
  df_added : list string;
  df_removed : list string;
  df_rekeyed : list Rekeyed;
  df_unchanged : list string
}.

Definition nodes_by_id (nodes : list PlanNode) : gmap string PlanNode :=
  fold_left (λ m node, <[pn_id node := node]> m) nodes ∅.

Definition rekeyed_ids (before : gmap string PlanNode) (nodes : list PlanNode) : gset string :=
  fold_left (λ s node, match before !! pn_id node with
                       | Some original => if bool_decide (pn_key original = pn_key node) then s else {[pn_id node]} ∪ s
                       | None => s
                       end) nodes ∅.

(** One turn of the loop over the next plan's nodes. *)
Definition diff_node (before : gmap string PlanNode) (rekeyedIds : gset string) (d : PlanDiff) (node : PlanNode) : PlanDiff :=
  match before !! pn_id node with
  | None => mkDiff (df_added d ++ [pn_id node]) (df_removed d) (df_rekeyed d) (df_unchanged d)
  | Some original =>
      if bool_decide (pn_key original = pn_key node)
      then mkDiff (df_added d) (df_removed d) (df_rekeyed d) (df_unchanged d ++ [pn_id node])
      else mkDiff (df_added d) (df_removed d)
             (df_rekeyed d ++ [mkRekeyed (pn_id node) (pn_key original) (pn_key node) (changedFields original node rekeyedIds)])
             (df_unchanged d)
  end.

Definition diff (previous next : Plan) : PlanDiff :=
  let before := nodes_by_id (pl_nodes previous) in
  let after := nodes_by_id (pl_nodes next) in
  let removed := pn_id <$> List.filter (λ node, negb (bool_decide (is_Some (after !! pn_id node)))) (pl_nodes previous) in
  fold_left (diff_node before (rekeyed_ids before (pl_nodes next))) (pl_nodes next) (mkDiff [] removed [] []).

(** ** What a comparison says *)

Lemma nodes_by_id_lookup nodes id n :
  NoDup (ids nodes) → nodes_by_id nodes !! id = Some n ↔ n ∈ nodes ∧ pn_id n = id.
Proof.
  intros Hd. unfold nodes_by_id. rewrite (fold_insert_lookup pn_id (λ n, n)) by done. rewrite lookup_empty. naive_solver.
Qed.

Lemma nodes_by_id_none nodes id : NoDup (ids nodes) → nodes_by_id nodes !! id = None ↔ id ∉ ids nodes.
Proof.
  intros Hd. split.
  - intros E (n & -> & Hn)%list_elem_of_fmap. assert (nodes_by_id nodes !! pn_id n = Some n) by (by apply nodes_by_id_lookup). congruence.
  - intros Hid. destruct (nodes_by_id nodes !! id) as [n|] eqn:E; [|done]. apply nodes_by_id_lookup in E as [Hn <-]; [|done].
    destruct Hid. apply list_elem_of_fmap. by exists n.
Qed.

(** The verdict on one id. *)
Definition verdict (before : gmap string PlanNode) (node : PlanNode) : nat :=
  match before !! pn_id node with
  | None => 0
  | Some original => if bool_decide (pn_key original = pn_key node) then 2 else 1
  end.

Definition with_verdict (before : gmap string PlanNode) (v : nat) (nodes : list PlanNode) : list string :=
  pn_id <$> List.filter (λ node, Nat.eqb (verdict before node) v) nodes.

Lemma diff_fold before rekeyedIds nodes d :
  let d' := fold_left (diff_node before rekeyedIds) nodes d in
  df_added d' = df_added d ++ with_verdict before 0 nodes ∧
  rk_id <$> df_rekeyed d' = (rk_id <$> df_rekeyed d) ++ with_verdict before 1 nodes ∧
  df_unchanged d' = df_unchanged d ++ with_verdict before 2 nodes ∧ df_removed d' = df_removed d.
Proof.
  revert d. induction nodes as [|node nodes IH]; intros d; cbn zeta.
  - unfold with_verdict. cbn. by rewrite !app_nil_r.
  - cbn [fold_left]. destruct (IH (diff_node before rekeyedIds d node)) as (-> & -> & -> & ->).
    unfold with_verdict, diff_node, verdict. cbn [List.filter].
    destruct (before !! pn_id node) as [original|]; [case_bool_decide|]; cbn; rewrite ?fmap_app, <-?app_assoc; done.
Qed.

Lemma with_verdict_partition before nodes :
  pn_id <$> nodes ≡ₚ with_verdict before 0 nodes ++ with_verdict before 1 nodes ++ with_verdict before 2 nodes.
Proof.
  unfold with_verdict. induction nodes as [|node nodes IH]; [done|]. cbn [List.filter fmap list_fmap]. rewrite IH.
  unfold verdict. destruct (before !! pn_id node) as [original|]; [case_bool_decide|]; cbn; [|by rewrite Permutation_middle|done].
  rewrite !app_assoc. by rewrite Permutation_middle.
Qed.

Lemma with_verdict_in before v nodes id :
  id ∈ with_verdict before v nodes ↔ ∃ n, n ∈ nodes ∧ pn_id n = id ∧ verdict before n = v.
Proof.
  unfold with_verdict. rewrite list_elem_of_fmap. setoid_rewrite elem_of_filter_b. setoid_rewrite Nat.eqb_eq. naive_solver.
Qed.

(** The report of a re-keyed node. *)
Lemma diff_reports before rekeyedIds nodes d r :
  r ∈ df_rekeyed (fold_left (diff_node before rekeyedIds) nodes d) →
  r ∈ df_rekeyed d ∨ ∃ original node, node ∈ nodes ∧ before !! pn_id node = Some original ∧ pn_key original ≠ pn_key node ∧
    r = mkRekeyed (pn_id node) (pn_key original) (pn_key node) (changedFields original node rekeyedIds).
Proof.
  revert d. induction nodes as [|node nodes IH]; intros d; cbn; [by left|].
  intros [Hr|(o & n & Hn & H)]%IH; [|right; exists o, n; split; [by right|done]].
  unfold diff_node in Hr. destruct (before !! pn_id node) as [original|] eqn:Eb; [case_bool_decide as Ek|]; cbn in Hr; [by left| |by left].
  apply elem_of_app in Hr as [Hr| ->%list_elem_of_singleton]; [by left|right]. exists original, node. split_and!; [by left|done..].
Qed.

Section Diff.

Context `{Crypto}.

(** A comparison of two plans accounts for every node once: the ids of the next
    plan are the added, the re-keyed and the unchanged ones, each in one list only, and
    the removed ones are those only the previous plan has; a node is unchanged exactly
    when both plans give it one key, and a re-keyed one is reported with its two keys. *)
Theorem diff_partitions (previous next : Plan) :
  built previous → built next →
  let d := diff previous next in
  ids (pl_nodes next) ≡ₚ df_added d ++ (rk_id <$> df_rekeyed d) ++ df_unchanged d ∧
  NoDup (df_added d ++ (rk_id <$> df_rekeyed d) ++ df_unchanged d) ∧
  (∀ id, id ∈ df_removed d ↔ id ∈ ids (pl_nodes previous) ∧ id ∉ ids (pl_nodes next)) ∧
  (∀ id, id ∈ df_added d ↔ id ∈ ids (pl_nodes next) ∧ id ∉ ids (pl_nodes previous)) ∧
  (∀ id, id ∈ df_unchanged d ↔ ∃ k, key_of previous id = Some k ∧ key_of next id = Some k) ∧
  (∀ r, r ∈ df_rekeyed d → key_of previous (rk_id r) = Some (rk_from r) ∧ key_of next (rk_id r) = Some (rk_to r) ∧ rk_from r ≠ rk_to r).
Proof.
  intros Bp Bn. cbn zeta. pose proof (no_unique _ _ (built_ok previous Bp)) as Up. pose proof (no_unique _ _ (built_ok next Bn)) as Un.
  unfold diff. set (before := nodes_by_id (pl_nodes previous)). set (start := mkDiff [] _ [] []).
  destruct (diff_fold before (rekeyed_ids before (pl_nodes next)) (pl_nodes next) start) as (-> & -> & -> & ->). cbn [df_added df_rekeyed df_unchanged start app fmap list_fmap].
  pose proof (with_verdict_partition before (pl_nodes next)) as Hpart.
  split_and!; [done|by rewrite <-Hpart| | | |].
  - intros id. subst start. cbn [df_removed]. rewrite list_elem_of_fmap. setoid_rewrite elem_of_filter_b.
    setoid_rewrite negb_true_iff. setoid_rewrite bool_decide_eq_false. setoid_rewrite <-eq_None_not_Some.
    setoid_rewrite (nodes_by_id_none _ _ Un). split.
    + intros (x & -> & Hx & Hn). split; [apply list_elem_of_fmap; by exists x|done].
    + intros [(x & -> & Hx)%list_elem_of_fmap Hn]. by exists x.
  - intros id. rewrite with_verdict_in. unfold verdict. split.
    + intros (n & Hn & <- & Hv). destruct (before !! pn_id n) eqn:E; [by case_bool_decide|].
      apply nodes_by_id_none in E; [|done]. split; [apply list_elem_of_fmap; by exists n|done].
    + intros [(n & -> & Hn)%list_elem_of_fmap Hid]. exists n. split_and!; [done|done|].
      apply nodes_by_id_none in Hid; [|done]. unfold before. by rewrite Hid.
  - intros id. rewrite with_verdict_in. unfold verdict, key_of. split.
    + intros (n & Hn & <- & Hv). destruct (before !! pn_id n) as [o|] eqn:E; [|done]. case_bool_decide as Ek; [|done].
      apply nodes_by_id_lookup in E as [Ho Eo]; [|done]. exists (pn_key n). rewrite !node_digests_lookup by done. split; eauto.
    + intros (k & Kp & Kn). apply node_digests_lookup in Kp as (o & Ho & Eo & <-); [|done].
      apply node_digests_lookup in Kn as (n & Hn & En & Ek); [|done]. exists n. split_and!; [done|done|].
      assert (before !! pn_id n = Some o) as -> by (apply nodes_by_id_lookup; [done|by rewrite En]). by rewrite bool_decide_eq_true_2.
  - intros r Hr. apply diff_reports in Hr as [?%not_elem_of_nil|(o & n & Hn & E & Hk & ->)]; [done|]. cbn.
    apply nodes_by_id_lookup in E as [Ho Eo]; [|done]. unfold key_of. rewrite !node_digests_lookup by done. split_and!; eauto.
Qed.

End Diff.

Lemma diff_partitions_witness :
  let d := diff PlanDemo.first PlanDemo.edited in
  ids (pl_nodes PlanDemo.edited) ≡ₚ df_added d ++ (rk_id <$> df_rekeyed d) ++ df_unchanged d ∧
  NoDup (df_added d ++ (rk_id <$> df_rekeyed d) ++ df_unchanged d) ∧
  (∀ id, id ∈ df_removed d ↔ id ∈ ids (pl_nodes PlanDemo.first) ∧ id ∉ ids (pl_nodes PlanDemo.edited)) ∧
  (∀ id, id ∈ df_added d ↔ id ∈ ids (pl_nodes PlanDemo.edited) ∧ id ∉ ids (pl_nodes PlanDemo.first)) ∧
  (∀ id, id ∈ df_unchanged d ↔ ∃ k, key_of PlanDemo.first id = Some k ∧ key_of PlanDemo.edited id = Some k) ∧
  (∀ r, r ∈ df_rekeyed d → key_of PlanDemo.first (rk_id r) = Some (rk_from r) ∧
                           key_of PlanDemo.edited (rk_id r) = Some (rk_to r) ∧ rk_from r ≠ rk_to r).
Proof. exact (@diff_partitions PlanDemo.quick_crypto _ _ PlanDemo.first_built PlanDemo.edited_built). Defined.

Example edited_report :
  (λ r, (rk_id r, rk_changed r)) <$> df_rekeyed (diff PlanDemo.first PlanDemo.edited) = [("gen", ["body"]); ("bundle", ["input[0]"])] ∧
  df_unchanged (diff PlanDemo.first PlanDemo.edited) = ["fmt"].
Proof. vm_compute. done. Qed.

(** A placement is hashed into the key but is no field of the report: the node is
    re-keyed and nothing is said to have changed.  An edit above a [Pending] reference,
    in contrast, is reported. *)
Definition placed (p : option Value) : list NodeDraft :=
  [mkDraft "n" (mkMaterial Sealed false (str "n") [] [] [] None p) (PlanDemo.effects [] []) None None None None;
   PlanDemo.draft "after" "after" [Pending "n"] [] []].
Definition unplaced_plan : Plan := Eval vm_compute in PlanDemo.plan_of (@compile PlanDemo.quick_crypto "p" "f" (placed None)).
Definition placed_plan : Plan := Eval vm_compute in PlanDemo.plan_of (@compile PlanDemo.quick_crypto "p" "f" (placed (Some (str "remote")))).

Theorem placement_unreported :
  @compile PlanDemo.quick_crypto "p" "f" (placed None) = Some (inr unplaced_plan) ∧
  @compile PlanDemo.quick_crypto "p" "f" (placed (Some (str "remote"))) = Some (inr placed_plan) ∧
  (λ r, (rk_id r, rk_changed r)) <$> df_rekeyed (diff unplaced_plan placed_plan) = [("n", []); ("after", ["input[0]"])].
Proof. split_and!; vm_compute; reflexivity. Qed.
