(* ===== verification/JsonTexts.v ===== *)
(** * JSON texts

    A codec for JSON texts as the language writes them: [stringify] keeps the order of
    the members, [parse] reads every text [stringify] and the canonical serialization
    write.  Texts hold units below 256 and numbers are integers, as in [Json]. *)

From S2P Require Import Prelude Json Canonical CanonicalProps.
#[local] Open Scope N_scope.

(** ** Texts of units below 256 *)

Definition to_string (t : text) : string := String.string_of_list_ascii (ascii_of_N <$> t).

Definition narrow (t : text) : Prop := Forall (λ u, u < 256) t.

Lemma of_string_cons c s : of_string (String c s) = N_of_ascii c :: of_string s.
Proof. done. Qed.

Lemma to_string_of_string s : to_string (of_string s) = s.
Proof.
  unfold to_string, of_string. induction s as [|c s IH]; [done|]. cbn. rewrite ascii_N_embedding.
  f_equal. exact IH.
Qed.

Lemma of_string_to_string t : narrow t → of_string (to_string t) = t.
Proof.
  unfold to_string, of_string. induction 1 as [|u t Hu Ht IH]; [done|]. cbn.
  rewrite N_ascii_embedding by done. f_equal. exact IH.
Qed.

Lemma of_string_narrow s : narrow (of_string s).
Proof. unfold of_string. induction s as [|c s IH]; constructor; [apply N_ascii_bounded|exact IH]. Qed.

Lemma narrow_app t u : narrow (t ++ u) ↔ narrow t ∧ narrow u.
Proof. apply Forall_app. Qed.

(** ** JSON values as values of the canonical serialization *)

Fixpoint json_value (v : json) : Value :=
  match v with
  | JNull => VNull
  | JBool b => VBool b
  | JNum n => VNum (Finite n)
  | JStr s => VText (of_string s)
  | JArr l => VArr (List.map json_value l)
  | JObj fs => VObj (List.map (λ kv, (of_string kv.1, json_value kv.2)) fs)
  end.

Fixpoint value_json (v : Value) : json :=
  match v with
  | VBool b => JBool b
  | VNum (Finite n) => JNum n
  | VText t => JStr (to_string t)
  | VArr l => JArr (List.map value_json l)
  | VObj fs => JObj (List.map (λ kv, (to_string kv.1, value_json kv.2)) fs)
  | _ => JNull
  end.

#[local] Arguments of_string : simpl never.
#[local] Arguments to_string : simpl never.

Fixpoint value_json_value (v : json) : value_json (json_value v) = v.
Proof.
  destruct v as [|b|n|s|l|fs]; cbn; try done.
  - by rewrite to_string_of_string.
  - f_equal. induction l as [|x l IH]; cbn; [done|]. by rewrite value_json_value, IH.
  - f_equal. induction fs as [|[k x] fs IH]; cbn; [done|]. by rewrite to_string_of_string, value_json_value, IH.
Qed.

Fixpoint json_printable (v : json) : printable (json_value v) = true.
Proof.
  destruct v as [|b|n|s|l|fs]; cbn; try done.
  - induction l as [|x l IH]; cbn; [done|]. by rewrite json_printable, IH.
  - induction fs as [|[k x] fs IH]; cbn; [done|]. by rewrite json_printable, IH.
Qed.

(** ** Reading numbers *)

Definition digits (acc : N) (t : text) : N := fold_left (λ a u, 10 * a + (u - 48)) t acc.

Fixpoint span (p : N → bool) (t : text) : text * text :=
  match t with
  | u :: rest => if p u then (u :: (span p rest).1, (span p rest).2) else ([], t)
  | [] => ([], [])
  end.

Definition read_number (t : text) : Z :=
  match t with
  | 45 :: t => (- Z.of_N (digits 0 t))%Z
  | t => Z.of_N (digits 0 t)
  end.

Lemma digit_char x : x < 10 → N_of_ascii (pretty_N_char x) = 48 + x.
Proof. intros Hx. revert x Hx. apply (small_cases _ 10). repeat (constructor; [done|]). constructor. Qed.

Lemma digits_go x s : digits 0 (of_string (pretty_N_go x s)) = digits x (of_string s).
Proof.
  revert s. induction (N.lt_wf_0 x) as [x _ IH]; intros s.
  destruct (decide (x = 0)) as [->|Hx]; [by rewrite pretty_N_go_0|].
  rewrite pretty_N_go_step, IH by (try apply N.div_lt; lia).
  rewrite of_string_cons. unfold digits. cbn [fold_left]. f_equal.
  pose proof (N.mod_lt x 10 ltac:(done)). rewrite digit_char by done. pose proof (N.div_mod x 10 ltac:(done)) as E. by rewrite N.add_sub_swap, N.sub_diag, N.add_0_l by done.
Qed.

Lemma digits_pretty n : digits 0 (of_string (pretty n)) = n.
Proof. unfold pretty, pretty_N. case_decide as Hn; [by subst|]. by rewrite digits_go. Qed.

Lemma read_number_text n : read_number (number_text n) = n.
Proof.
  assert (∀ p, ∃ u t, of_string (pretty (Npos p)) = u :: t ∧ u ≠ 45) as Hhead.
  { intros p. unfold pretty, pretty_N. rewrite decide_False by done.
    enough (∀ x s, (∃ u t, of_string s = u :: t ∧ u ≠ 45) ∨ 0 < x →
              ∃ u t, of_string (pretty_N_go x s) = u :: t ∧ u ≠ 45) as H by (apply H; right; lia).
    intros x. induction (N.lt_wf_0 x) as [x _ IH]; intros s Hs.
    destruct (decide (x = 0)) as [->|Hx]; [rewrite pretty_N_go_0; destruct Hs as [|Hs]; [done|lia]|].
    rewrite pretty_N_go_step by lia. apply IH; [apply N.div_lt; lia|]. left. eexists _, _. split; [reflexivity|].
    rewrite digit_char by (by apply N.mod_lt). generalize (x mod 10). lia. }
  unfold number_text. destruct n as [|p|p]; [done|..].
  - change (pretty (Z.pos p)) with (pretty (Npos p)). pose proof (digits_pretty (Npos p)) as Hd.
    destruct (Hhead p) as (u & t & E & Hu). rewrite E in *. unfold read_number.
    repeat case_match; try (rewrite Hd; done). by simplify_eq.
  - change (pretty (Z.neg p)) with (String "-" (pretty (Npos p))). pose proof (digits_pretty (Npos p)) as Hd.
    rewrite of_string_cons. cbn [read_number]. by rewrite Hd.
Qed.

(** ** Reading values

    Recursive descent; the fuel bounds the depth, the items of one list and the units
    of one string, so the length of the text is enough. *)

Definition eats (prefix t : text) : option text :=
  if bool_decide (take (length prefix) t = prefix) then Some (drop (length prefix) t) else None.

Fixpoint read_chars (fuel : nat) (t : text) : option (text * text) :=
  match fuel with
  | O => None
  | S fuel =>
      match unescape t with
      | Some (u, rest) => match read_chars fuel rest with Some (us, rest) => Some (u :: us, rest) | None => None end
      | None => match t with u :: rest => if u =? 34 then Some ([], rest) else None | [] => None end
      end
  end.

Definition read_text (t : text) : option (text * text) :=
  match t with u :: rest => if u =? 34 then read_chars (length rest) rest else None | [] => None end.

Fixpoint read_items {A} (item : text → option (A * text)) (close : N) (fuel : nat) (t : text) : option (list A * text) :=
  match fuel with
  | O => None
  | S fuel =>
      match item t with
      | Some (x, u :: rest) =>
          if u =? close then Some ([x], rest)
          else if u =? 44
          then match read_items item close fuel rest with Some (xs, rest) => Some (x :: xs, rest) | None => None end
          else None
      | _ => None
      end
  end.

Definition read_list {A} (item : text → option (A * text)) (close : N) (fuel : nat) (t : text) : option (list A * text) :=
  match eats [close] t with Some rest => Some ([], rest) | None => read_items item close fuel t end.

Definition read_member (value : text → option (Value * text)) (t : text) : option ((text * Value) * text) :=
  match read_text t with
  | Some (key, u :: rest) =>
      if u =? 58 then match value rest with Some (v, rest) => Some ((key, v), rest) | None => None end else None
  | _ => None
  end.

Fixpoint read (fuel : nat) (t : text) : option (Value * text) :=
  match fuel, t with
  | S fuel, u :: rest =>
      if numeral u then Some (VNum (Finite (read_number (span numeral t).1)), (span numeral t).2)
      else if u =? 34 then match read_text t with Some (s, rest) => Some (VText s, rest) | None => None end
      else if u =? 91
      then match read_list (read fuel) 93 fuel rest with Some (l, rest) => Some (VArr l, rest) | None => None end
      else if u =? 123
      then match read_list (read_member (read fuel)) 125 fuel rest with Some (l, rest) => Some (VObj l, rest) | None => None end
      else match eats (of_string "null") t, eats (of_string "true") t, eats (of_string "false") t with
           | Some rest, _, _ => Some (VNull, rest)
           | _, Some rest, _ => Some (VBool true, rest)
           | _, _, Some rest => Some (VBool false, rest)
           | _, _, _ => None
           end
  | _, _ => None
  end.

(** ** What was written is read back *)

Lemma eats_app p t : eats p (p ++ t) = Some t.
Proof. unfold eats. by rewrite take_app_length, drop_app_length, bool_decide_eq_true_2. Qed.

Lemma eats_other u v t : u ≠ v → eats [u] (v :: t) = None.
Proof. intros Huv. unfold eats. cbn. rewrite bool_decide_eq_false_2; [done|]. by intros [= ->]. Qed.

Lemma span_stops a r :
  Forall (λ u, numeral u = true) a → stops r → span numeral (a ++ r) = (a, r).
Proof.
  intros Ha Hr. induction Ha as [|u a Hu Ha IH]; cbn.
  - destruct r as [|u r]; [done|]. cbn. by rewrite (stops_numeral _ Hr u r).
  - by rewrite Hu, IH.
Qed.

Lemma escape_nonempty u : (1 ≤ length (escape u))%nat.
Proof.
  destruct (N.lt_ge_cases u 93) as [Hu|Hu]; [|by rewrite escape_plain].
  revert u Hu. apply (small_cases (λ u, 1 ≤ length (escape u))%nat 93).
  cbn [List.seq fmap list_fmap]. repeat (constructor; [vm_compute; lia|]). constructor.
Qed.

Lemma escapes_length t : (length t ≤ length (flat_map escape t))%nat.
Proof. induction t as [|u t IH]; cbn; [done|]. rewrite length_app. pose proof (escape_nonempty u). lia. Qed.

Lemma read_chars_escaped n t r :
  (length t < n)%nat → read_chars n (flat_map escape t ++ 34 :: r) = Some (t, r).
Proof.
  revert n. induction t as [|u t IH]; intros [|n] Hn; cbn in Hn; try lia; [done|].
  cbn [read_chars flat_map]. rewrite <-app_assoc, unescape_escape, IH by lia. done.
Qed.

Lemma read_quote t r : read_text (quote t ++ r) = Some (t, r).
Proof.
  unfold quote. cbn. rewrite <-app_assoc. cbn. apply read_chars_escaped.
  rewrite length_app. cbn. pose proof (escapes_length t). lia.
Qed.

Lemma read_items_commas {A} (item : text → option (A * text)) (f : A → text) close n l r :
  close = 93 ∨ close = 125 → l ≠ [] → (length l ≤ n)%nat →
  Forall (λ x, ∀ r, stops r → item (f x ++ r) = Some (x, r)) l →
  read_items item close n (commas (List.map f l) ++ close :: r) = Some (l, r).
Proof.
  intros Hc. revert n. induction l as [|x l IH]; intros n Hl Hn Hf; [done|].
  apply Forall_cons in Hf as [Hx Hf]. destruct n as [|n]; [cbn in Hn; lia|]. cbn [read_items].
  destruct l as [|y l].
  - cbn [List.map commas]. rewrite Hx by (cbn; tauto). by rewrite N.eqb_refl.
  - cbn [List.map]. change (commas (f x :: f y :: List.map f l)) with (f x ++ 44 :: commas (List.map f (y :: l))).
    rewrite <-app_assoc. cbn [app]. rewrite Hx by (cbn; tauto).
    rewrite (proj2 (N.eqb_neq 44 close)) by (destruct Hc as [->| ->]; done). cbn -[commas read_items List.map].
    rewrite IH; [done..| |done]. cbn in Hn |- *. lia.
Qed.

Lemma commas_length l : (∀ x, x ∈ l → 1 ≤ length x)%nat → (length l ≤ length (commas l))%nat.
Proof.
  induction l as [|x [|y l] IH]; intros Hl; [done|cbn; apply Hl; left|].
  change (commas (x :: y :: l)) with (x ++ 44 :: commas (y :: l)). rewrite length_app. cbn [length].
  pose proof (Hl x ltac:(left)). specialize (IH ltac:(intros z Hz; apply Hl; by right)). cbn [length] in IH. lia.
Qed.

Lemma commas_item x l : x ∈ l → (length x ≤ length (commas l))%nat.
Proof.
  induction l as [|y [|z l] IH]; [by intros ?%elem_of_nil|..].
  - by intros ->%list_elem_of_singleton.
  - change (commas (y :: z :: l)) with (y ++ 44 :: commas (z :: l)). rewrite length_app. cbn [length].
    intros [->|Hx]%elem_of_cons; [lia|]. specialize (IH Hx). lia.
Qed.

Lemma print_nonempty v : printable v = true → (1 ≤ length (print v))%nat.
Proof. intros Hv. destruct (print_head v Hv) as (u & t & -> & _). cbn. lia. Qed.

(** Lists of both kinds, from what reading one item does. *)
Lemma read_list_commas {A} (item : text → option (A * text)) (f : A → text) close n l r :
  close = 93 ∨ close = 125 →
  (∀ x, x ∈ l → ∃ u t, f x = u :: t ∧ u ≠ close) →
  (∀ x, x ∈ l → ∀ r, stops r → item (f x ++ r) = Some (x, r)) →
  (length (commas (List.map f l)) ≤ n)%nat →
  read_list item close n (commas (List.map f l) ++ close :: r) = Some (l, r).
Proof.
  intros Hc Hf Hi Hn. unfold read_list. destruct l as [|x l].
  - cbn. unfold eats. cbn. by rewrite bool_decide_eq_true_2.
  - destruct (Hf x ltac:(left)) as (u & t & E & Hu).
    assert (∃ t', commas (List.map f (x :: l)) = u :: t') as [t' E'].
    { cbn [List.map]. destruct (List.map f l); cbn; rewrite E; by eexists. }
    rewrite E' at 1. cbn [app]. rewrite eats_other by done.
    apply read_items_commas; [done|done| |by apply Forall_forall].
    etransitivity; [|exact Hn]. rewrite <-(length_map f). apply commas_length.
    intros y Hy. apply list_elem_of_fmap in Hy as (z & -> & Hz). destruct (Hf z Hz) as (? & ? & -> & _). cbn. lia.
Qed.

(** Reading a printed value gives the value and the text behind it. *)
Lemma read_print v : ∀ n r,
  printable v = true → stops r → (length (print v) ≤ n)%nat → read n (print v ++ r) = Some (v, r).
Proof.
  induction v as [| |b|m|t|l IH|fs IH] using value_ind'; intros n r Hv Hr Hn.
  all: pose proof (print_nonempty _ Hv) as H1; destruct n as [|n]; [lia|]; clear H1.
  - done.
  - reflexivity.
  - destruct b; reflexivity.
  - destruct m as [m| |]; [|done..]. cbn [print]. destruct (number_head m) as (u & t & E & Hu).
    replace (number_text m ++ r) with (u :: t ++ r) by by rewrite E. cbn [read]. rewrite Hu.
    replace (u :: t ++ r) with (number_text m ++ r) by by rewrite E.
    rewrite span_stops by (done || apply Z_numerals).
    cbn [fst snd]. by rewrite read_number_text.
  - change (print (VText t) ++ r) with (34 :: (flat_map escape t ++ [34]) ++ r).
    change (read (S n) (34 :: (flat_map escape t ++ [34]) ++ r)) with
      (match read_text (quote t ++ r) with Some (s, rest) => Some (VText s, rest) | None => None end).
    by rewrite read_quote.
  - cbn [print app] in Hn |- *. rewrite <-app_assoc. cbn [length app] in Hn. rewrite length_app in Hn. cbn [length] in Hn.
    cbn [read]. change (numeral 91) with false. change (91 =? 34) with false. change (91 =? 91) with true. cbn iota.
    rewrite Forall_forall in IH. cbn [printable] in Hv. rewrite forallb_forall in Hv.
    cbn [app]. rewrite (read_list_commas (read n) print); [done|by left|..].
    + intros x Hx%list_elem_of_In%Hv. destruct (print_head x Hx) as (u & t & E & Hu). exists u, t. split; [done|].
      intros ->. by destruct x as [| |[]|?|?|?|?].
    + intros x Hx s Hs. apply IH; [done|by apply Hv, list_elem_of_In|done|].
      pose proof (commas_item (print x) (List.map print l) ltac:(by apply list_elem_of_fmap_2)). lia.
    + lia.
  - cbn [print app] in Hn |- *. rewrite <-app_assoc. cbn [length app] in Hn. rewrite length_app in Hn. cbn [length] in Hn.
    cbn [read]. change (numeral 123) with false. change (123 =? 34) with false. change (123 =? 91) with false.
    change (123 =? 123) with true. cbn iota.
    rewrite Forall_forall in IH. cbn [printable] in Hv. rewrite forallb_forall in Hv.
    set (f := λ kv : text * Value, quote (fst kv) ++ 58 :: print (snd kv)) in *.
    cbn [app]. rewrite (read_list_commas (read_member (read n)) f); [done|by right|..].
    + intros [k x] _. by eexists 34, _.
    + intros [k x] Hx s Hs. unfold f. cbn [fst snd]. rewrite <-app_assoc. unfold read_member.
      rewrite read_quote. cbn. rewrite (IH _ Hx); [done|by apply (Hv (k, x)), list_elem_of_In|done|].
      pose proof (commas_item (f (k, x)) (List.map f fs) ltac:(by apply list_elem_of_fmap_2)) as Hl.
      unfold f in Hl at 1. cbn [fst snd] in Hl. rewrite length_app in Hl. cbn [length] in Hl. cbn [snd]. lia.
    + exact (Nat.le_trans _ _ _ (Nat.le_add_r _ 1) (le_S_n _ _ Hn)).
Qed.

(** ** Texts of values whose strings have units below 256 *)

Definition narrow_text (t : text) : bool := forallb (λ u, u <? 256) t.

Lemma narrow_text_spec t : narrow_text t = true ↔ narrow t.
Proof.
  unfold narrow_text, narrow. rewrite forallb_forall, Forall_forall.
  split; intros H u Hu; apply N.ltb_lt, H || apply N.ltb_lt; by apply list_elem_of_In || apply H, list_elem_of_In.
Qed.

Fixpoint narrow_value (v : Value) : bool :=
  match v with
  | VText t => narrow_text t
  | VArr l => forallb narrow_value l
  | VObj fs => forallb (λ kv, narrow_text (fst kv) && narrow_value (snd kv)) fs
  | _ => true
  end.

Lemma escape_narrow u : u < 256 → narrow (escape u).
Proof.
  intros Hu. destruct (N.lt_ge_cases u 93) as [H93|H93].
  - clear Hu. revert u H93. apply (small_cases (λ u, narrow (escape u)) 93). unfold narrow.
    cbn [List.seq fmap list_fmap].
    repeat (constructor; [apply (bool_decide_unpack _); vm_compute; exact I|]). constructor.
  - rewrite escape_plain by done. by constructor.
Qed.

Lemma quote_narrow t : narrow t → narrow (quote t).
Proof.
  intros Ht. constructor; [done|]. apply narrow_app. split; [|by constructor].
  induction Ht as [|u t Hu Ht IH]; cbn; [constructor|]. apply narrow_app. split; [by apply escape_narrow|done].
Qed.

Lemma commas_narrow l : Forall narrow l → narrow (commas l).
Proof.
  induction 1 as [|x l Hx Hl IH]; [constructor|]. destruct l as [|y l]; [done|].
  change (commas (x :: y :: l)) with (x ++ 44 :: commas (y :: l)). apply narrow_app. split; [done|by constructor].
Qed.

Lemma print_narrow v : narrow_value v = true → narrow (print v).
Proof.
  induction v as [| |[]|[n| |]|t|l IH|fs IH] using value_ind'; cbn [narrow_value print]; intros Hv;
    try (by apply of_string_narrow); try (by constructor).
  - by apply quote_narrow, narrow_text_spec.
  - constructor; [done|]. apply narrow_app. split; [|by constructor]. apply commas_narrow.
    apply Forall_fmap. apply forallb_all in Hv. rewrite Forall_forall in *. intros x Hx. by apply IH, Hv.
  - constructor; [done|]. apply narrow_app. split; [|by constructor]. apply commas_narrow.
    apply Forall_fmap. apply forallb_all in Hv. rewrite Forall_forall in *. intros x Hx.
    specialize (Hv x Hx). apply andb_true_iff in Hv as [Hk Hs].
    apply narrow_app. split; [by apply quote_narrow, narrow_text_spec|]. constructor; [done|by apply IH].
Qed.

Lemma string_narrow s : narrow_text (of_string s) = true.
Proof. apply narrow_text_spec, of_string_narrow. Qed.

Fixpoint json_narrow (v : json) : narrow_value (json_value v) = true.
Proof.
  destruct v as [|b|n|s|l|fs]; cbn; try done.
  - apply string_narrow.
  - induction l as [|x l IH]; cbn; [done|]. by rewrite json_narrow, IH.
  - induction fs as [|[k x] fs IH]; cbn; [done|]. by rewrite string_narrow, json_narrow, IH.
Qed.

(** ** The codec *)

Definition parse_json (s : string) : option json :=
  let t := of_string s in
  match read (length t) t with Some (v, []) => Some (value_json v) | _ => None end.

Lemma parse_printed v : printable v = true → narrow_value v = true → parse_json (to_string (print v)) = Some (value_json v).
Proof.
  intros Hp Hn. unfold parse_json. rewrite of_string_to_string by by apply print_narrow.
  pose proof (read_print v (length (print v)) [] Hp I ltac:(done)) as E. rewrite app_nil_r in E. by rewrite E.
Qed.

#[export, refine] Instance text_json : JsonText | 5 := {|
  stringify v := to_string (print (json_value v));
  parse := parse_json
|}.
Proof.
  intros v. rewrite parse_printed by (apply json_printable || apply json_narrow).
  by rewrite value_json_value.
Defined.

(** ** Canonical texts of JSON values *)

(** [Schema.decodeUnknownEffect(Canonical)] on a JSON value, as a byte string. *)
Definition canonical_text (v : json) : option string :=
  match canonicalize (json_value v) with inr (Some t) => Some (to_string t) | _ => None end.

Example canonical_text_example :
  canonical_text (JObj [("b", JArr [JNum (-3); JNull]); ("a", JBool true)]) =
  Some (String.string_of_list_ascii (ascii_of_N <$>
    [123; 34; 97; 34; 58; 116; 114; 117; 101; 44; 34; 98; 34; 58; 91; 45; 51; 44; 110; 117; 108; 108; 93; 125])).
Proof. vm_compute. reflexivity. Qed.

Lemma byte_texts_well_formed t : narrow t → well_formed t = true.
Proof.
  induction 1 as [|u t Hu Ht IH]; [done|]. cbn [well_formed]. unfold high_surrogate, low_surrogate.
  rewrite (proj2 (N.leb_gt 55296 u)) by lia. rewrite (proj2 (N.leb_gt 56320 u)) by lia. done.
Qed.

Lemma narrow_accepted v : printable v = true → narrow_value v = true → refused v = false.
Proof.
  induction v as [| |b|[n| |]|t|l IH|fs IH] using value_ind'; cbn [printable narrow_value refused]; try done.
  - intros _ Ht. by rewrite byte_texts_well_formed by by apply narrow_text_spec.
  - intros Hp%forallb_all Hn%forallb_all. rewrite Forall_forall in *.
    apply existsb_false. intros x Hx. apply IH; [done|by apply Hp|by apply Hn].
  - intros Hp%forallb_all Hn%forallb_all. rewrite Forall_forall in *.
    apply existsb_false. intros kv Hx. specialize (Hn kv Hx). apply andb_true_iff in Hn as [Hk Hv].
    rewrite byte_texts_well_formed by by apply narrow_text_spec. rewrite IH by (done || by apply Hp). by rewrite andb_false_r.
Qed.

(** Every JSON value has a canonical text. *)
Lemma canonical_text_total v : ∃ t, canonicalize (json_value v) = inr (Some t) ∧ canonical_text v = Some (to_string t).
Proof.
  unfold canonical_text. destruct (canonicalize (json_value v)) as [e|o] eqn:E.
  - assert (refused (json_value v) = true) as Hr by (rewrite <-failed_refused; unfold canonicalize in E; by rewrite E).
    by rewrite narrow_accepted in Hr by (apply json_printable || apply json_narrow).
  - destruct (serialize_normal _ _ E) as [Eo _]. destruct (defined (json_value v)) eqn:Hd; [|by destruct v].
    rewrite Eo. by eexists.
Qed.

Lemma value_json_inverse v : printable v = true → narrow_value v = true → json_value (value_json v) = v.
Proof.
  induction v as [| |b|[n| |]|t|l IH|fs IH] using value_ind'; cbn [printable narrow_value value_json json_value]; try done.
  - intros _ Ht. by rewrite of_string_to_string by by apply narrow_text_spec.
  - intros Hp%forallb_all Hn%forallb_all. f_equal. rewrite map_map, Forall_forall in *.
    rewrite <-(map_id l) at 2. apply map_ext_in. intros x Hx%list_elem_of_In. by apply IH; [|apply Hp|apply Hn].
  - intros Hp%forallb_all Hn%forallb_all. f_equal. rewrite map_map, Forall_forall in *.
    rewrite <-(map_id fs) at 2. apply map_ext_in. intros [k x] Hx%list_elem_of_In. specialize (Hn _ Hx). cbn in *.
    apply andb_true_iff in Hn as [Hk Hs]. rewrite of_string_to_string by by apply narrow_text_spec.
    f_equal. apply (IH (k, x)); [done|by apply (Hp (k, x))|done].
Qed.

Lemma normal_narrow v : narrow_value v = true → narrow_value (normal v) = true.
Proof.
  induction v as [| |b|n|t|l IH|fs IH] using value_ind'; cbn [narrow_value normal]; try done.
  - intros Hn%forallb_all. rewrite Forall_forall in *. rewrite forallb_forall. intros y (x & <- & Hx)%in_map_iff.
    apply list_elem_of_In in Hx. destruct (defined x); [by apply IH, Hn|done].
  - intros Hn%forallb_all. rewrite Forall_forall in *. rewrite forallb_forall. intros y [Hy _]%List.filter_In.
    apply list_elem_of_In in Hy. unfold sort_members in Hy. rewrite merge_sort_Permutation in Hy.
    apply list_elem_of_In, in_map_iff in Hy as (kv & <- & Hx%list_elem_of_In). specialize (Hn kv Hx). cbn.
    apply andb_true_iff in Hn as [Hk Hs]. apply andb_true_iff. split; [exact Hk|by apply IH].
Qed.

(** ** The law of canonical texts

    What the stores rely on beyond [JsonText]: the canonical text of a value is read
    back as the value, with its members in the text's order. *)
Class CanonicalJson `{JsonText} := {
  parse_canonical v t : canonical_text v = Some t → ∃ v', parse t = Some v' ∧ json_value v' = normal (json_value v)
}.

#[export] Instance text_canonical : @CanonicalJson text_json.
Proof.
  split. intros v t. destruct (canonical_text_total v) as (u & Hu & E). rewrite E. intros [= <-].
  destruct (canonical_normal _ _ Hu) as [-> Hp]. exists (value_json (normal (json_value v))).
  assert (narrow_value (normal (json_value v)) = true) as Hn by (apply normal_narrow, json_narrow).
  split; [|by apply value_json_inverse]. by apply parse_printed.
Defined.

Section canonical_texts.
Context `{CJ : CanonicalJson}.

Lemma canonical_valid v t : canonical_text v = Some t → json_valid t = true.
Proof. intros (v' & E & _)%parse_canonical. unfold json_valid. by rewrite E. Qed.

(** Values with one canonical text are equal up to the order of members. *)
Lemma canonical_text_same v1 v2 t1 t2 :
  canonical_text v1 = Some t1 → canonical_text v2 = Some t2 →
  t1 = t2 ↔ normal (json_value v1) = normal (json_value v2).
Proof.
  destruct (canonical_text_total v1) as (u1 & H1 & E1), (canonical_text_total v2) as (u2 & H2 & E2).
  rewrite E1, E2. intros [= <-] [= <-]. rewrite <-(canonical_same _ _ _ _ H1 H2). split; [|by intros ->].
  intros E. apply (f_equal of_string) in E.
  assert (∀ v u, canonicalize (json_value v) = inr (Some u) → narrow u) as Hn.
  { intros v u [-> _]%canonical_normal. apply print_narrow, normal_narrow, json_narrow. }
  by rewrite !of_string_to_string in E by (by eapply Hn).
Qed.
End canonical_texts.
