(* ===== verification/StepCache.v ===== *)
(** * The step cache ([packages/step-cache])

    Results of steps by key digest.  Two tables, the head that answers a lookup and the
    append-only ledger of what every event recorded, are written in one journal
    transaction with the event that describes the change, and can be rebuilt from the
    events.  [sql] statements that fail map to the package's error. *)

From S2P Require Export Prelude Json Canonical JsonTexts World Consensus Journal.
#[local] Open Scope me_scope.

(** ** Events ([internal/CacheEvents.ts]) *)

Record CacheEntry := MkCacheEntry {
  ce_keyDigest : string;
  ce_result : json;
  ce_meta : json;
  ce_createdAtMs : Z;
  ce_recordedRunId : string;
  ce_recordedEventSeq : Z
}.

Record EvictedPayload := MkEvictedPayload {
  ev_keyDigest : string;
  ev_recordedRunId : string;
  ev_recordedEventSeq : Z
}.

Inductive CacheTable := HeadTable | RecordedTable.

#[export] Instance CacheTable_eq_dec : EqDecision CacheTable.
Proof. solve_decision. Defined.

Record SnapshotPayload := MkSnapshotPayload { sp_table : CacheTable; sp_entry : CacheEntry }.

Definition recordedEventType : string := "flows.cache.recorded".
Definition evictedEventType : string := "flows.cache.evicted".
Definition snapshotEventType : string := "flows.cache.snapshot".

(** The fields of the three payload schemas, as JSON. *)
Definition entry_fields (e : CacheEntry) : list (string * json) :=
  [("keyDigest", JStr (ce_keyDigest e)); ("result", ce_result e); ("meta", ce_meta e);
   ("createdAtMs", JNum (ce_createdAtMs e)); ("recordedRunId", JStr (ce_recordedRunId e));
   ("recordedEventSeq", JNum (ce_recordedEventSeq e))].

Definition entry_payload (e : CacheEntry) : json := JObj (entry_fields e).

Definition evicted_payload (p : EvictedPayload) : json :=
  JObj [("keyDigest", JStr (ev_keyDigest p)); ("recordedRunId", JStr (ev_recordedRunId p));
        ("recordedEventSeq", JNum (ev_recordedEventSeq p))].

Definition table_name (t : CacheTable) : string := match t with HeadTable => "head" | RecordedTable => "recorded" end.

Definition snapshot_payload (p : SnapshotPayload) : json :=
  JObj (("table", JStr (table_name (sp_table p))) :: entry_fields (sp_entry p)).

(** [Schema.NonEmptyString] and [NonNegativeSafeInt] on a member. *)
Definition nonEmptyString (v : option json) : option string :=
  match v with Some (JStr s) => if nonempty s then Some s else None | _ => None end.
Definition nonNegativeSafeInt (v : option json) : option Z :=
  match v with Some (JNum n) => if stamp_ok n then Some n else None | _ => None end.

(** [Schema.decodeUnknownEffect] of the three payload schemas. *)
Definition decode_entry_fields (fs : list (string * json)) : option CacheEntry :=
  match nonEmptyString (assoc "keyDigest" fs), assoc "result" fs, assoc "meta" fs,
        nonNegativeSafeInt (assoc "createdAtMs" fs), nonEmptyString (assoc "recordedRunId" fs),
        nonNegativeSafeInt (assoc "recordedEventSeq" fs) with
  | Some k, Some r, Some m, Some c, Some run, Some seq => Some (MkCacheEntry k r m c run seq)
  | _, _, _, _, _, _ => None
  end.

Definition decodeEntry (payload : json) : option CacheEntry :=
  match payload with JObj fs => decode_entry_fields fs | _ => None end.

Definition decodeEvicted (payload : json) : option EvictedPayload :=
  match payload with
  | JObj fs =>
      match nonEmptyString (assoc "keyDigest" fs), nonEmptyString (assoc "recordedRunId" fs),
            nonNegativeSafeInt (assoc "recordedEventSeq" fs) with
      | Some k, Some run, Some seq => Some (MkEvictedPayload k run seq)
      | _, _, _ => None
      end
  | _ => None
  end.

Definition decodeSnapshot (payload : json) : option SnapshotPayload :=
  match payload with
  | JObj fs =>
      match assoc "table" fs, decode_entry_fields fs with
      | Some (JStr t), Some e =>
          if bool_decide (t = "head") then Some (MkSnapshotPayload HeadTable e)
          else if bool_decide (t = "recorded") then Some (MkSnapshotPayload RecordedTable e)
          else None
      | _, _ => None
      end
  | _ => None
  end.

Definition cacheSourceId (keyDigest recordedRunId : string) (recordedEventSeq : Z) : string :=
  "flows:cache:" +:+ len_prefix keyDigest +:+ len_prefix recordedRunId +:+ pretty recordedEventSeq.

Definition cacheLineageId (runId : string) : string := runId +:+ "/root".

(** [sourceSeq] is left to the journal, which allocates the producer's next one. *)
Definition cache_event (runId sourceId eventType : string) (payload : json) : Input :=
  MkInput runId sourceId None eventType payload (Some (JObj [("lineageId", JStr (cacheLineageId runId))])).

Definition recorded (e : CacheEntry) : Input :=
  cache_event (ce_recordedRunId e) (cacheSourceId (ce_keyDigest e) (ce_recordedRunId e) (ce_recordedEventSeq e))
    recordedEventType (entry_payload e).

Definition evicted (p : EvictedPayload) : Input :=
  cache_event (ev_recordedRunId p) (cacheSourceId (ev_keyDigest p) (ev_recordedRunId p) (ev_recordedEventSeq p))
    evictedEventType (evicted_payload p).

(** ** Errors and validation ([CacheStore.ts]) *)

Definition cache_error (code : string) : error := err CacheStoreError code.

(** The error of the failure beneath a journal's error, or of the failure itself. *)
Fixpoint mapPersistenceError (e : error) : error :=
  match e with
  | MkError cls code checkpoint cause =>
      if bool_decide (cls = CacheStoreError) then e
      else match bool_decide (cls = JournalError), cause with
           | true, Some under => mapPersistenceError under
           | _, _ =>
               let constraint :=
                 bool_decide (cls = DatabaseError) && bool_decide (code = "constraint")
                 || bool_decide (cls = SqlError)
                    && (bool_decide (code = "ConstraintError") || bool_decide (code = "UniqueViolation")) in
               err_cause CacheStoreError (if constraint then "constraint" else "persistence_failed") e
           end
  end.

Inductive PutResult := CacheInserted | CacheExistingSame | CacheConflict.

#[export] Instance PutResult_eq_dec : EqDecision PutResult.
Proof. solve_decision. Defined.

(** [recordedBy] and [ifRecordedBy]: a run and an event sequence. *)
Definition Provenance : Type := string * Z.

Definition validateKey {S} (keyDigest : string) : ME S error () :=
  if nonempty keyDigest then ret tt else fail (cache_error "invalid_cache").

Definition validateFence {S} (fence : option Provenance) : ME S error () :=
  match fence with
  | None => ret tt
  | Some (runId, eventSeq) =>
      if nonempty runId && stamp_ok eventSeq then ret tt else fail (cache_error "invalid_cache")
  end.

Definition entry_valid (e : CacheEntry) : bool :=
  nonempty (ce_keyDigest e) && stamp_ok (ce_createdAtMs e) && nonempty (ce_recordedRunId e)
  && stamp_ok (ce_recordedEventSeq e).

Definition validateEntry (e : CacheEntry) : M () :=
  if entry_valid e then ret tt else fail (cache_error "invalid_cache").

Definition encodeCanonical {S} (v : json) : ME S error string :=
  match canonical_text v with Some t => ret t | None => fail (cache_error "invalid_cache") end.

Definition entry_triple (e : CacheEntry) : CacheTriple :=
  (ce_keyDigest e, ce_recordedRunId e, ce_recordedEventSeq e).

Definition cache_row (e : CacheEntry) (result meta : string) : CacheRow :=
  MkCacheRow (ce_keyDigest e) result meta (ce_createdAtMs e) (ce_recordedRunId e) (ce_recordedEventSeq e).

Section CacheStore.
Context {J : JsonText} {C : Consensus} (opts : ValidatedOptions).

(** *** Statements *)

Definition decode_row (row : CacheRow) : M CacheEntry :=
  if negb (nonempty (ch_keyDigest row) && stamp_ok (ch_createdAtMs row) && nonempty (ch_recordedRunId row)
           && stamp_ok (ch_recordedEventSeq row))
  then fail (cache_error "decode_failed")
  else match parse (ch_resultJson row), parse (ch_metaJson row) with
       | Some result, Some meta =>
           ret (MkCacheEntry (ch_keyDigest row) result meta (ch_createdAtMs row) (ch_recordedRunId row)
                  (ch_recordedEventSeq row))
       | _, _ => fail (cache_error "decode_failed")
       end.

Definition get_head (keyDigest : string) : M (option CacheRow) := gets (λ w, db_heads (w_db w) !! keyDigest).
Definition get_recorded (t : CacheTriple) : M (option CacheRow) := gets (λ w, db_recorded (w_db w) !! t).

(** [INSERT ... ON CONFLICT DO NOTHING]: whether a row was inserted. *)
Definition insert_recorded (row : CacheRow) : M bool :=
  if negb (check_cache row) then sql_fail "ConstraintError"
  else
    existing <- get_recorded (row_triple row) ;;
    match existing with
    | Some _ => ret false
    | None => modify (set_db (upd_recorded (<[row_triple row := row]>))) ;; ret true
    end.

Definition insert_head (row : CacheRow) : M bool :=
  if negb (check_cache row) then sql_fail "ConstraintError"
  else
    existing <- get_head (ch_keyDigest row) ;;
    match existing with
    | Some _ => ret false
    | None => modify (set_db (upd_heads (<[ch_keyDigest row := row]>))) ;; ret true
    end.

(** [DELETE ... WHERE key_digest = ? AND recorded_run_id = ? AND recorded_event_seq = ?]:
    whether a row was deleted. *)
Definition is_recorded_by (row : CacheRow) (by_ : Provenance) : bool :=
  bool_decide (ch_recordedRunId row = by_.1) && bool_decide (ch_recordedEventSeq row = by_.2).

Definition delete_head (keyDigest : string) (by_ : Provenance) : M bool :=
  row <- get_head keyDigest ;;
  match row with
  | Some r =>
      if is_recorded_by r by_
      then modify (set_db (upd_heads (delete keyDigest))) ;; ret true
      else ret false
  | None => ret false
  end.

(** *** Operations *)

Definition cache_get (keyDigest : string) (recordedBy : option Provenance) : M (option CacheEntry) :=
  validateKey keyDigest ;;
  ledger <- match recordedBy with
            | Some (runId, eventSeq) => get_recorded (keyDigest, runId, eventSeq)
            | None => ret None
            end ;;
  match ledger with
  | Some row => entry <- decode_row row ;; ret (Some entry)
  | None =>
      head <- get_head keyDigest ;;
      match head with
      | None => ret None
      | Some row => entry <- decode_row row ;; ret (Some entry)
      end
  end.

Definition cache_put (entry : CacheEntry) : M PutResult :=
  validateEntry entry ;;
  result <- encodeCanonical (ce_result entry) ;;
  meta <- encodeCanonical (ce_meta entry) ;;
  map_error mapPersistenceError (transact opts (
    let row := cache_row entry result meta in
    ledgerInserted <- map_error mapPersistenceError (insert_recorded row) ;;
    headInserted <- map_error mapPersistenceError (insert_head row) ;;
    outcome <- (if headInserted : bool then ret CacheInserted
                else
                  head <- get_head (ce_keyDigest entry) ;;
                  match head with
                  | None => fail (cache_error "unknown")
                  | Some r => ret (if bool_decide (ch_resultJson r = result) then CacheExistingSame else CacheConflict)
                  end) ;;
    (if (headInserted || ledgerInserted)%bool
     then emitDurable opts (recorded entry) None ;; ret tt
     else ret tt) ;;
    ret outcome)).

Definition cache_evict (keyDigest : string) (ifRecordedBy : option Provenance) : M bool :=
  validateKey keyDigest ;;
  validateFence ifRecordedBy ;;
  map_error mapPersistenceError (transact opts (
    head <- get_head keyDigest ;;
    let row := match ifRecordedBy, head with
               | Some fenced, Some r => if is_recorded_by r fenced then Some r else None
               | _, _ => head
               end in
    match row with
    | None => ret false
    | Some r =>
        deleted <- delete_head keyDigest (ch_recordedRunId r, ch_recordedEventSeq r) ;;
        if deleted : bool
        then emitDurable opts (evicted (MkEvictedPayload keyDigest (ch_recordedRunId r) (ch_recordedEventSeq r))) None ;;
             ret true
        else ret false
    end)).
End CacheStore.

(** ** The fold ([Fold.ts])

    The states are [Map]s from a key digest, and from [tripleKey], to an entry; their
    order is not observable. *)

Definition HeadState : Type := gmap string CacheEntry.
Definition LedgerState : Type := gmap string CacheEntry.

Definition cacheNamespace : string := "flows.cache.".

Definition tripleKey (keyDigest recordedRunId : string) (recordedEventSeq : Z) : string :=
  cacheSourceId keyDigest recordedRunId recordedEventSeq.

Definition entry_key (e : CacheEntry) : string :=
  tripleKey (ce_keyDigest e) (ce_recordedRunId e) (ce_recordedEventSeq e).

(** [if (!map.has(key)) map.set(key, value)]. *)
Definition set_new {A} (key : string) (x : A) (m : gmap string A) : gmap string A :=
  match m !! key with Some _ => m | None => <[key := x]> m end.

Notation Folded A := (error + A)%type.

Definition decoded {A} (r : option A) : Folded A :=
  match r with Some x => inr x | None => inl (cache_error "decode_failed") end.

Definition applyHead (head : HeadState) (eventType : string) (payload : json) : Folded HeadState :=
  if bool_decide (eventType = recordedEventType)
  then match decoded (decodeEntry payload) with
       | inr e => inr (set_new (ce_keyDigest e) e head)
       | inl err => inl err
       end
  else if bool_decide (eventType = evictedEventType)
  then match decoded (decodeEvicted payload) with
       | inr p =>
           match head !! ev_keyDigest p with
           | Some current =>
               inr (if bool_decide (ce_recordedRunId current = ev_recordedRunId p)
                       && bool_decide (ce_recordedEventSeq current = ev_recordedEventSeq p)
                    then delete (ev_keyDigest p) head else head)
           | None => inr head
           end
       | inl err => inl err
       end
  else if bool_decide (eventType = snapshotEventType)
  then match decoded (decodeSnapshot payload) with
       | inr p => inr (if bool_decide (sp_table p = HeadTable)
                       then set_new (ce_keyDigest (sp_entry p)) (sp_entry p) head else head)
       | inl err => inl err
       end
  else inr head.

Definition applyLedger (ledger : LedgerState) (eventType : string) (payload : json) : Folded LedgerState :=
  if bool_decide (eventType = recordedEventType)
  then match decoded (decodeEntry payload) with
       | inr e => inr (set_new (entry_key e) e ledger)
       | inl err => inl err
       end
  else if bool_decide (eventType = snapshotEventType)
  then match decoded (decodeSnapshot payload) with
       | inr p => inr (if bool_decide (sp_table p = RecordedTable)
                       then set_new (entry_key (sp_entry p)) (sp_entry p) ledger else ledger)
       | inl err => inl err
       end
  else inr ledger.

(** The two projections of one run's entries. *)
Definition head_reduce (state : HeadState) (e : Entry) : Folded HeadState :=
  if starts_with cacheNamespace (en_eventType e) then applyHead state (en_eventType e) (en_payload e) else inr state.

Definition ledger_reduce (state : LedgerState) (e : Entry) : Folded LedgerState :=
  if starts_with cacheNamespace (en_eventType e) then applyLedger state (en_eventType e) (en_payload e) else inr state.

(** [ORDER BY emitted_at_ms ASC, run_id ASC, seq ASC]. *)
Definition replay_le (a b : JournalRow) : Prop :=
  (j_emittedAtMs a < j_emittedAtMs b)%Z ∨
  j_emittedAtMs a = j_emittedAtMs b ∧
    (j_runId a = j_runId b ∧ (j_seq a ≤ j_seq b)%Z ∨ j_runId a ≠ j_runId b ∧ str_le (j_runId a) (j_runId b)).
#[export] Instance replay_le_dec : RelDecision replay_le.
Proof. intros a b. unfold replay_le. apply _. Defined.

Definition is_cache_row (row : JournalRow) : bool :=
  bool_decide (j_eventType row ∈ [recordedEventType; evictedEventType; snapshotEventType]).

Definition replay_order (l : list JournalRow) : list JournalRow := merge_sort replay_le (List.filter is_cache_row l).

Record Rebuilt := MkRebuilt { rb_entries : Z; rb_head : Z; rb_ledger : Z }.

Section Fold.
Context {J : JsonText}.

(** One iteration of the loop over the rows, and the loop. *)
Definition apply_row (row : JournalRow) (s : HeadState * LedgerState) : Folded (HeadState * LedgerState) :=
  match decoded (parse (j_payloadJson row)) with
  | inl err => inl err
  | inr payload =>
      match applyHead s.1 (j_eventType row) payload with
      | inl err => inl err
      | inr head =>
          match applyLedger s.2 (j_eventType row) payload with
          | inl err => inl err
          | inr ledger => inr (head, ledger)
          end
      end
  end.

Fixpoint apply_rows (rows : list JournalRow) (s : HeadState * LedgerState) : Folded (HeadState * LedgerState) :=
  match rows with
  | [] => inr s
  | row :: rows => match apply_row row s with inr s => apply_rows rows s | inl err => inl err end
  end.

(** A plain [INSERT], which a row already there refuses. *)
Definition materialize (insert : CacheRow → M bool) (e : CacheEntry) : M () :=
  result <- encodeCanonical (ce_result e) ;;
  meta <- encodeCanonical (ce_meta e) ;;
  inserted <- insert (cache_row e result meta) ;;
  if inserted : bool then ret tt else sql_fail "UniqueViolation".

Definition mapRebuildError (cause : error) : error :=
  if is_class CacheStoreError cause then cause else err_cause CacheStoreError "persistence_failed" cause.

Definition rebuild : M Rebuilt :=
  map_error mapRebuildError (write (
    events <- get_events ;;
    let rows := replay_order events in
    s <- from_result (apply_rows rows (∅, ∅)) ;;
    modify (set_db (upd_heads (λ _, ∅))) ;;
    modify (set_db (upd_recorded (λ _, ∅))) ;;
    for_each (materialize insert_head) (snd <$> map_to_list s.1) ;;
    for_each (materialize insert_recorded) (snd <$> map_to_list s.2) ;;
    ret (MkRebuilt (Z.of_nat (length rows)) (Z.of_nat (size s.1)) (Z.of_nat (size s.2))))).
End Fold.
