(* ===== verification/StepCacheProps.v ===== *)
(** * The step cache's tables are a fold of its events

    [folded]: the tables of a world are what the cache events of its journal, applied
    in the order they were appended, fold to.  Every operation keeps it, and a rebuild
    whose replay order is that order changes nothing. *)

From S2P Require Import Prelude Json Canonical JsonTexts World Consensus ConsensusProps Journal JournalAppend RunLaws RunProps JournalSound StepCache.
#[local] Open Scope me_scope.

(** ** Payloads *)

Lemma nonEmptyString_id s : nonempty s = true → nonEmptyString (Some (JStr s)) = Some s.
Proof. cbn. by intros ->. Qed.

Lemma nonNegativeSafeInt_id n : stamp_ok n = true → nonNegativeSafeInt (Some (JNum n)) = Some n.
Proof. cbn. by intros ->. Qed.

Lemma entry_valid_spec e : entry_valid e = true ↔
  nonempty (ce_keyDigest e) = true ∧ stamp_ok (ce_createdAtMs e) = true ∧
  nonempty (ce_recordedRunId e) = true ∧ stamp_ok (ce_recordedEventSeq e) = true.
Proof. unfold entry_valid. rewrite !andb_true_iff. tauto. Qed.

Lemma decode_entry_payload e : entry_valid e = true → decodeEntry (entry_payload e) = Some e.
Proof.
  intros (Hk & Hc & Hr & Hs)%entry_valid_spec. destruct e as [k v m c run seq].
  cbn [ce_keyDigest ce_createdAtMs ce_recordedRunId ce_recordedEventSeq] in *.
  cbv -[nonempty stamp_ok]. by rewrite Hk, Hc, Hr, Hs.
Qed.

Lemma decode_evicted_payload p :
  nonempty (ev_keyDigest p) = true → nonempty (ev_recordedRunId p) = true → stamp_ok (ev_recordedEventSeq p) = true →
  decodeEvicted (evicted_payload p) = Some p.
Proof.
  destruct p as [k run seq]. cbn [ev_keyDigest ev_recordedRunId ev_recordedEventSeq]. intros Hk Hr Hs.
  cbv -[nonempty stamp_ok]. by rewrite Hk, Hr, Hs.
Qed.

Lemma decode_snapshot_payload p : entry_valid (sp_entry p) = true → decodeSnapshot (snapshot_payload p) = Some p.
Proof.
  intros (Hk & Hc & Hr & Hs)%entry_valid_spec. destruct p as [t [k v m c run seq]].
  cbn [sp_entry ce_keyDigest ce_createdAtMs ce_recordedRunId ce_recordedEventSeq] in *.
  destruct t; cbv -[nonempty stamp_ok]; by rewrite Hk, Hc, Hr, Hs.
Qed.

(** Decoded entries satisfy the schema. *)
Lemma nonEmptyString_valid v s : nonEmptyString v = Some s → nonempty s = true.
Proof. destruct v as [[]|]; try discriminate. cbn. destruct (nonempty s0) eqn:E; [by intros [= <-]|discriminate]. Qed.

Lemma nonNegativeSafeInt_valid v n : nonNegativeSafeInt v = Some n → stamp_ok n = true.
Proof. destruct v as [[]|]; try discriminate. cbn. destruct (stamp_ok n0) eqn:E; [by intros [= <-]|discriminate]. Qed.

Lemma decode_entry_fields_valid fs e : decode_entry_fields fs = Some e → entry_valid e = true.
Proof.
  unfold decode_entry_fields.
  destruct (nonEmptyString (assoc "keyDigest" fs)) as [k|] eqn:Ek; [|discriminate].
  destruct (assoc "result" fs); [|discriminate]. destruct (assoc "meta" fs); [|discriminate].
  destruct (nonNegativeSafeInt (assoc "createdAtMs" fs)) as [c|] eqn:Ec; [|discriminate].
  destruct (nonEmptyString (assoc "recordedRunId" fs)) as [r|] eqn:Er; [|discriminate].
  destruct (nonNegativeSafeInt (assoc "recordedEventSeq" fs)) as [q|] eqn:Eq; [|discriminate].
  intros [= <-]. apply entry_valid_spec. cbn.
  split_and!; by (eapply nonEmptyString_valid || eapply nonNegativeSafeInt_valid).
Qed.

Lemma decodeEntry_valid v e : decodeEntry v = Some e → entry_valid e = true.
Proof. destruct v; try done. apply decode_entry_fields_valid. Qed.

Lemma decodeSnapshot_valid v p : decodeSnapshot v = Some p → entry_valid (sp_entry p) = true.
Proof.
  destruct v; try done. unfold decodeSnapshot. repeat case_match; try done; intros [= <-];
    by eapply decode_entry_fields_valid.
Qed.

Lemma cacheSourceId_inj k r n k' r' n' :
  cacheSourceId k r n = cacheSourceId k' r' n' → k = k' ∧ r = r' ∧ n = n'.
Proof.
  unfold cacheSourceId. intros H. apply string_app_inj_length in H as [_ H]; [|done].
  apply len_prefix_inj in H as [-> H]. apply len_prefix_inj in H as [-> H]. by apply (inj pretty) in H.
Qed.

(** ** Rows of entries *)

Definition canon (v : json) : string := default "" (canonical_text v).

Definition entry_row (e : CacheEntry) : CacheRow := cache_row e (canon (ce_result e)) (canon (ce_meta e)).

Lemma canon_text v : canonical_text v = Some (canon v).
Proof. unfold canon. by destruct (canonical_text_total v) as (t & _ & ->). Qed.

Lemma encodeCanonical_canon {S} v : @encodeCanonical S v = ret (canon v).
Proof. unfold encodeCanonical. by rewrite canon_text. Qed.

Lemma row_triple_entry e : row_triple (entry_row e) = entry_triple e.
Proof. done. Qed.

Lemma check_entry_row `{CanonicalJson} e : entry_valid e = true → check_cache (entry_row e) = true.
Proof.
  intros (Hk & Hc & Hr & Hs)%entry_valid_spec. unfold check_cache. cbn.
  rewrite Hk, Hc, Hr, Hs. by rewrite !(canonical_valid _ _ (canon_text _)).
Qed.

Lemma entry_key_triple e e' : entry_key e = entry_key e' ↔ entry_triple e = entry_triple e'.
Proof.
  unfold entry_key, tripleKey, entry_triple. split.
  - by intros (-> & -> & ->)%cacheSourceId_inj.
  - by intros [= -> -> ->].
Qed.

(** ** Fold states *)

Definition keyed (key : CacheEntry → string) (m : gmap string CacheEntry) : Prop :=
  ∀ k e, m !! k = Some e → key e = k ∧ entry_valid e = true.

Lemma keyed_empty key : keyed key ∅.
Proof. intros k e. by rewrite lookup_empty. Qed.

Lemma keyed_set_new key e m : keyed key m → entry_valid e = true → keyed key (set_new (key e) e m).
Proof.
  intros Hm He k x. unfold set_new. destruct (m !! key e) eqn:E; [by apply Hm|].
  destruct (decide (key e = k)) as [<-|Hk]; [|rewrite lookup_insert_ne by done; by apply Hm].
  rewrite lookup_insert_eq. by intros [= <-].
Qed.

Lemma keyed_delete key k m : keyed key m → keyed key (delete k m).
Proof. intros Hm k' e [_ He]%lookup_delete_Some. by apply Hm. Qed.

Lemma applyHead_keyed h ty v h' : keyed ce_keyDigest h → applyHead h ty v = inr h' → keyed ce_keyDigest h'.
Proof.
  intros Hh. unfold applyHead, decoded. repeat case_match; try done; intros [= <-]; simplify_eq/=;
    eauto using keyed_delete, keyed_set_new, decodeEntry_valid, decodeSnapshot_valid.
Qed.

Lemma applyLedger_keyed l ty v l' : keyed entry_key l → applyLedger l ty v = inr l' → keyed entry_key l'.
Proof.
  intros Hl. unfold applyLedger, decoded. repeat case_match; try done; intros [= <-]; simplify_eq/=;
    eauto using keyed_set_new, decodeEntry_valid, decodeSnapshot_valid.
Qed.

Section fold.
Context {J : JsonText}.

Lemma apply_rows_app rows more s :
  apply_rows (rows ++ more) s = match apply_rows rows s with inr s' => apply_rows more s' | inl e => inl e end.
Proof.
  revert s. induction rows as [|row rows IH]; intros s; [done|]. cbn. destruct (apply_row row s) as [e|s']; [done|apply IH].
Qed.

Lemma apply_row_keyed row s s' :
  apply_row row s = inr s' → keyed ce_keyDigest s.1 → keyed entry_key s.2 → keyed ce_keyDigest s'.1 ∧ keyed entry_key s'.2.
Proof.
  unfold apply_row. destruct (decoded _) as [e|v]; [done|]. destruct (applyHead _ _ _) as [e|h] eqn:Eh; [done|].
  destruct (applyLedger _ _ _) as [e|l] eqn:El; [done|]. intros [= <-] Hh Hl.
  split; [by eapply applyHead_keyed|by eapply applyLedger_keyed].
Qed.

Lemma apply_rows_keyed rows s s' :
  apply_rows rows s = inr s' → keyed ce_keyDigest s.1 → keyed entry_key s.2 → keyed ce_keyDigest s'.1 ∧ keyed entry_key s'.2.
Proof.
  revert s. induction rows as [|row rows IH]; intros s; cbn; [by intros [= <-]|].
  destruct (apply_row row s) as [e|s1] eqn:E; [done|]. intros H Hh Hl.
  destruct (apply_row_keyed _ _ _ E Hh Hl) as [Hh1 Hl1]. by eapply IH.
Qed.

(** Whether a row can be applied does not depend on the state it is applied to. *)
Lemma applyHead_any h ty v h' : applyHead h ty v = inr h' → ∀ g, ∃ g', applyHead g ty v = inr g'.
Proof.
  intros H g. unfold applyHead in *. case_bool_decide; [|case_bool_decide; [|case_bool_decide; [|by eexists]]].
  - destruct (decoded (decodeEntry v)); [done|by eexists].
  - destruct (decoded (decodeEvicted v)) as [|p]; [done|]. destruct (g !! _); by eexists.
  - destruct (decoded (decodeSnapshot v)); [done|by eexists].
Qed.

Lemma applyLedger_any l ty v l' : applyLedger l ty v = inr l' → ∀ g, ∃ g', applyLedger g ty v = inr g'.
Proof.
  intros H g. unfold applyLedger in *. case_bool_decide; [|case_bool_decide; [|by eexists]].
  - destruct (decoded (decodeEntry v)); [done|by eexists].
  - destruct (decoded (decodeSnapshot v)); [done|by eexists].
Qed.

Lemma apply_row_any row s s' : apply_row row s = inr s' → ∀ t, ∃ t', apply_row row t = inr t'.
Proof.
  unfold apply_row. destruct (decoded (parse _)) as [e|v]; [done|].
  destruct (applyHead s.1 _ _) as [e|h] eqn:Eh; [done|]. destruct (applyLedger s.2 _ _) as [e|l] eqn:El; [done|].
  intros _ t. destruct (applyHead_any _ _ _ _ Eh t.1) as [h' ->], (applyLedger_any _ _ _ _ El t.2) as [l' ->]. by eexists.
Qed.

Lemma apply_rows_any rows s s' : apply_rows rows s = inr s' → Forall (λ row, ∀ t, ∃ t', apply_row row t = inr t') rows.
Proof.
  revert s. induction rows as [|row rows IH]; intros s H; [constructor|]. cbn in H.
  destruct (apply_row row s) as [e|s1] eqn:E; [done|]. constructor; [by eapply apply_row_any|by eapply IH].
Qed.

Lemma apply_rows_order rows rows' s s' :
  apply_rows rows s = inr s' → rows' ≡ₚ rows → ∀ t, ∃ t', apply_rows rows' t = inr t'.
Proof.
  intros H%apply_rows_any Hp. rewrite <-Hp in H. clear Hp.
  induction H as [|row rows' Hrow _ IH]; intros t; [by exists t|]. destruct (Hrow t) as [t1 E]. cbn. rewrite E. apply IH.
Qed.

(** The entry a row puts into the ledger, unless its triple is there. *)
Definition row_entry (row : JournalRow) : option CacheEntry :=
  payload ← parse (j_payloadJson row);
  if bool_decide (j_eventType row = recordedEventType) then decodeEntry payload
  else if bool_decide (j_eventType row = snapshotEventType)
  then p ← decodeSnapshot payload; if bool_decide (sp_table p = RecordedTable) then Some (sp_entry p) else None
  else None.

Lemma apply_row_ledger row s s' :
  apply_row row s = inr s' →
  s'.2 = match row_entry row with Some e => set_new (entry_key e) e s.2 | None => s.2 end.
Proof.
  unfold apply_row, row_entry. destruct (parse _) as [v|]; cbn; [|done].
  destruct (applyHead _ _ _) as [|h]; [done|]. unfold applyLedger.
  case_bool_decide; [destruct (decodeEntry v); cbn; [by intros [= <-]|done]|].
  case_bool_decide; [|by intros [= <-]]. destruct (decodeSnapshot v) as [p|]; cbn; [|done].
  case_bool_decide; by intros [= <-].
Qed.

Lemma set_new_lookup {A} key key' (x : A) (m : gmap string A) :
  set_new key x m !! key' =
  match m !! key' with Some y => Some y | None => if bool_decide (key = key') then Some x else None end.
Proof.
  unfold set_new. destruct (m !! key) as [y|] eqn:E; case_bool_decide as H.
  - subst key'. by rewrite E.
  - by destruct (m !! key').
  - subst key'. by rewrite lookup_insert_eq, E.
  - rewrite lookup_insert_ne by done. by destruct (m !! key').
Qed.

(** The ledger keeps the first entry of each triple. *)
Lemma apply_rows_ledger rows s s' key :
  apply_rows rows s = inr s' →
  s'.2 !! key = match s.2 !! key with
                | Some e => Some e
                | None => List.find (λ e, bool_decide (entry_key e = key)) (omap row_entry rows)
                end.
Proof.
  revert s. induction rows as [|row rows IH]; intros s H; cbn in H.
  { injection H as <-. cbn. by destruct (s.2 !! key). }
  destruct (apply_row row s) as [|s1] eqn:E; [done|]. rewrite (IH s1 H).
  assert (s1.2 !! key = match row_entry row with
                        | Some e => match s.2 !! key with
                                    | Some y => Some y
                                    | None => if bool_decide (entry_key e = key) then Some e else None
                                    end
                        | None => s.2 !! key
                        end) as ->.
  { rewrite (apply_row_ledger _ _ _ E). destruct (row_entry row); [apply set_new_lookup|done]. }
  change (omap row_entry (row :: rows))
    with (match row_entry row with Some e => e :: omap row_entry rows | None => omap row_entry rows end).
  destruct (row_entry row) as [e|]; [|done]. destruct (s.2 !! key); [done|]. cbn [List.find]. by case_bool_decide.
Qed.

Lemma ledger_of_rows rows s key :
  apply_rows rows (∅, ∅) = inr s →
  s.2 !! key = List.find (λ e, bool_decide (entry_key e = key)) (omap row_entry rows).
Proof. intros H. by rewrite (apply_rows_ledger _ _ _ _ H). Qed.

(** What the events the stores write fold to. *)
Lemma apply_recorded row e s :
  j_eventType row = recordedEventType → j_payloadJson row = stringify (entry_payload e) → entry_valid e = true →
  apply_row row s = inr (set_new (ce_keyDigest e) e s.1, set_new (entry_key e) e s.2).
Proof.
  intros Ht Hp He. unfold apply_row. rewrite Ht, Hp, parse_stringify. cbn [decoded].
  unfold applyHead, applyLedger. rewrite (bool_decide_eq_true_2 (recordedEventType = recordedEventType)) by done.
  by rewrite decode_entry_payload by done.
Qed.

Lemma apply_evicted row p e s :
  j_eventType row = evictedEventType → j_payloadJson row = stringify (evicted_payload p) → entry_valid e = true →
  s.1 !! ev_keyDigest p = Some e → entry_triple e = (ev_keyDigest p, ev_recordedRunId p, ev_recordedEventSeq p) →
  apply_row row s = inr (delete (ev_keyDigest p) s.1, s.2).
Proof.
  intros Ht Hp He Hs Htr. unfold apply_row. rewrite Ht, Hp, parse_stringify. cbn [decoded].
  injection Htr as Hk Hr Hq. apply entry_valid_spec in He as (Hvk & _ & Hvr & Hvs).
  unfold applyHead. rewrite decode_evicted_payload by congruence. cbn [decoded].
  rewrite Hs. rewrite (bool_decide_eq_true_2 (ce_recordedRunId e = _)) by done.
  by rewrite (bool_decide_eq_true_2 (ce_recordedEventSeq e = _)) by done.
Qed.
End fold.

(** ** Statements *)

Section statements.
Context {J : JsonText}.

Definition insert_new `{Countable K} {A} (k : K) (x : A) (m : gmap K A) : gmap K A :=
  match m !! k with Some _ => m | None => <[k := x]> m end.

Lemma insert_new_fmap {A B} (f : A → B) k (x : A) (m : gmap string A) :
  insert_new k (f x) (f <$> m) = f <$> set_new k x m.
Proof. unfold insert_new, set_new. rewrite lookup_fmap. destruct (m !! k); cbn; [done|by rewrite fmap_insert]. Qed.

Lemma upd_heads_id d : upd_heads (λ m, m) d = d.
Proof. by destruct d. Qed.
Lemma upd_recorded_id d : upd_recorded (λ m, m) d = d.
Proof. by destruct d. Qed.
Lemma set_db_id f w : f (w_db w) = w_db w → set_db f w = w.
Proof. destruct w as [d p l c]. unfold set_db. cbn. by intros ->. Qed.

Lemma insert_head_run row w :
  check_cache row = true →
  insert_head row w = (inr (is_null (db_heads (w_db w) !! ch_keyDigest row)),
    set_db (upd_heads (insert_new (ch_keyDigest row) row)) w).
Proof.
  intros Hc. unfold insert_head. rewrite Hc. cbn [negb]. unfold get_head. step.
  destruct (db_heads (w_db w) !! ch_keyDigest row) as [x|] eqn:E.
  - cbn. rewrite set_db_id; [done|]. unfold upd_heads, insert_new. rewrite E. by destruct (w_db w).
  - step. cbn. unfold ret. f_equal. destruct w as [d p l c]. unfold set_db, upd_heads. cbn in *.
    unfold insert_new. by rewrite E.
Qed.

Lemma insert_recorded_run row w :
  check_cache row = true →
  insert_recorded row w = (inr (is_null (db_recorded (w_db w) !! row_triple row)),
    set_db (upd_recorded (insert_new (row_triple row) row)) w).
Proof.
  intros Hc. unfold insert_recorded. rewrite Hc. cbn [negb]. unfold get_recorded. step.
  destruct (db_recorded (w_db w) !! row_triple row) as [x|] eqn:E.
  - cbn. rewrite set_db_id; [done|]. unfold upd_recorded, insert_new. rewrite E. by destruct (w_db w).
  - step. cbn. unfold ret. f_equal. destruct w as [d p l c]. unfold set_db, upd_recorded. cbn in *.
    unfold insert_new. by rewrite E.
Qed.
End statements.

(** ** Materializing a fold

    Inserting entries of distinct keys into an empty table, whichever table it is. *)

Lemma foldl_insert_list_to_map `{Countable K} {A B} (key : A → K) (f : A → B) (es : list A) (m : gmap K B) :
  NoDup (key <$> es) → (∀ e, e ∈ es → m !! key e = None) →
  foldl (λ m e, <[key e := f e]> m) m es = list_to_map ((λ e, (key e, f e)) <$> es) ∪ m.
Proof.
  revert m. induction es as [|e es IH]; intros m Hd Hm; cbn; [by rewrite (left_id ∅ (∪))|].
  apply NoDup_cons in Hd as [Hn Hd]. rewrite IH; [|done|].
  - apply map_eq. intros k. rewrite !lookup_union. destruct (decide (k = key e)) as [->|Hk].
    + rewrite !lookup_insert_eq. rewrite not_elem_of_list_to_map_1; [by destruct (m !! key e)|].
      by rewrite <-list_fmap_compose.
    + by rewrite !lookup_insert_ne by done.
  - intros e' He'. rewrite lookup_insert_ne; [apply Hm; by right|]. intros E. apply Hn. rewrite E.
    apply list_elem_of_fmap. by exists e'.
Qed.

Section materialize.
Context {J : JsonText} {CJ : CanonicalJson} {K : Type} `{Countable K}.
Context (insert : CacheRow → M bool) (key : CacheRow → K) (table : Db → gmap K CacheRow)
  (upd : (gmap K CacheRow → gmap K CacheRow) → Db → Db).
Hypothesis insert_run : ∀ row w, check_cache row = true →
  insert row w = (inr (is_null (table (w_db w) !! key row)), set_db (upd (insert_new (key row) row)) w).
Hypothesis table_upd : ∀ f d, table (upd f d) = f (table d).
Hypothesis upd_upd : ∀ f g d, upd f (upd g d) = upd (λ m, f (g m)) d.
Hypothesis upd_id : ∀ d, upd (λ m, m) d = d.
Hypothesis upd_ext : ∀ f g d, f (table d) = g (table d) → upd f d = upd g d.

Let row_key (e : CacheEntry) : K := key (entry_row e).

Lemma materialize_each es w :
  Forall (λ e, entry_valid e = true) es → NoDup (row_key <$> es) → (∀ e, e ∈ es → table (w_db w) !! row_key e = None) →
  ∃ us, for_each (materialize insert) es w =
    (inr us, set_db (upd (λ m, foldl (λ m e, <[row_key e := entry_row e]> m) m es)) w).
Proof.
  revert w. induction es as [|e es IH]; intros w Hv Hd Hm.
  - exists []. cbn. unfold ret. by rewrite set_db_id.
  - apply Forall_cons in Hv as [Hve Hv]. apply NoDup_cons in Hd as [Hn Hd]. cbn [for_each].
    assert (materialize insert e w = (inr tt, set_db (upd (<[row_key e := entry_row e]>)) w)) as E.
    { unfold materialize. rewrite !encodeCanonical_canon. step. step. fold (entry_row e).
      pose proof (insert_run (entry_row e) w (check_entry_row e Hve)) as Hi.
      fold (row_key e) in Hi. rewrite (Hm e) in Hi by left. cbn [is_null] in Hi. step_by Hi. unfold ret. f_equal.
      unfold set_db. f_equal. apply upd_ext. unfold insert_new. rewrite (Hm e) by left. done. }
    step_by E. destruct (IH (set_db (upd (<[row_key e := entry_row e]>)) w)) as [us Hus]; [done..| |].
    { intros e' He'. cbn. rewrite table_upd, lookup_insert_ne; [apply Hm; by right|]. intros E'. apply Hn.
      rewrite E'. by apply list_elem_of_fmap_2. }
    step_by Hus. exists (tt :: us). unfold ret, set_db. cbn. by rewrite upd_upd.
Qed.

Lemma materialize_all es w :
  Forall (λ e, entry_valid e = true) es → NoDup (row_key <$> es) → table (w_db w) = ∅ →
  ∃ us, for_each (materialize insert) es w =
    (inr us, set_db (upd (λ _, list_to_map ((λ e, (row_key e, entry_row e)) <$> es))) w).
Proof.
  intros Hv Hd He. destruct (materialize_each es w Hv Hd) as [us ->]; [intros e _; by rewrite He, lookup_empty|].
  exists us. f_equal. unfold set_db. f_equal. apply upd_ext. rewrite He, foldl_insert_list_to_map; [|done|].
  - by rewrite (right_id ∅ (∪)).
  - intros e _. apply lookup_empty.
Qed.
End materialize.

(** The tables a fold state stands for. *)
Definition heads_of (h : HeadState) : gmap string CacheRow := entry_row <$> h.
Definition recorded_of (l : LedgerState) : gmap CacheTriple CacheRow :=
  list_to_map ((λ e, (entry_triple e, entry_row e)) <$> (snd <$> map_to_list l)).

Lemma keyed_entries key m : keyed key m →
  Forall (λ e, entry_valid e = true) (snd <$> map_to_list m) ∧ NoDup (key <$> (snd <$> map_to_list m)).
Proof.
  intros Hm. split.
  - apply Forall_fmap, Forall_forall. intros [k e] Hk%elem_of_map_to_list. by apply (Hm k e).
  - rewrite <-list_fmap_compose. erewrite list_fmap_ext; [apply NoDup_fst_map_to_list|].
    intros i [k e] Hk%list_elem_of_lookup_2%elem_of_map_to_list. cbn. by apply (Hm k e).
Qed.

Lemma keyed_triples l : keyed entry_key l → NoDup (entry_triple <$> (snd <$> map_to_list l)).
Proof.
  intros Hl. destruct (keyed_entries _ _ Hl) as [_ Hd]. revert Hd. generalize (snd <$> map_to_list l). clear.
  intros es. induction es as [|e es IH]; intros Hd; [constructor|]. apply NoDup_cons in Hd as [Hn Hd].
  apply NoDup_cons. split; [|by apply IH]. intros (e' & E & He')%list_elem_of_fmap. apply Hn.
  apply list_elem_of_fmap. exists e'. split; [|done]. by apply entry_key_triple.
Qed.

Lemma heads_of_list h : keyed ce_keyDigest h →
  list_to_map ((λ e, (ce_keyDigest e, entry_row e)) <$> (snd <$> map_to_list h)) = heads_of h.
Proof.
  intros Hh. unfold heads_of. rewrite <-(list_to_map_to_list (M:=gmap string) (entry_row <$> h)), map_to_list_fmap. f_equal.
  rewrite <-list_fmap_compose. apply list_fmap_ext. intros i [k e] Hk%list_elem_of_lookup_2%elem_of_map_to_list.
  cbn. f_equal. by apply (Hh k e).
Qed.

Lemma recorded_of_lookup l k r n :
  keyed entry_key l → recorded_of l !! (k, r, n) = entry_row <$> l !! tripleKey k r n.
Proof.
  intros Hl. unfold recorded_of. destruct (l !! tripleKey k r n) as [e|] eqn:E; cbn.
  - apply elem_of_list_to_map_1.
    + rewrite <-list_fmap_compose. by apply keyed_triples.
    + apply list_elem_of_fmap. exists e. split.
      * f_equal. destruct (Hl _ _ E) as [Hk _]. unfold entry_key, tripleKey in Hk.
        apply cacheSourceId_inj in Hk as (<- & <- & <-). done.
      * apply list_elem_of_fmap. exists (tripleKey k r n, e). split; [done|]. by apply elem_of_map_to_list.
  - apply not_elem_of_list_to_map_1. rewrite <-list_fmap_compose.
    intros (e & Et & He)%list_elem_of_fmap. apply list_elem_of_fmap in He as ([k' e'] & -> & He%elem_of_map_to_list).
    destruct (Hl _ _ He) as [Hk _]. cbn in Et. unfold entry_triple in Et. injection Et as -> -> ->.
    unfold entry_key in Hk. congruence.
Qed.
