(* ===== verification/StepCacheOps.v ===== *)
(** * The operations of the step cache

    What [cache_put], [cache_evict] and [rebuild] do to the tables and to the journal, on
    every branch: an operation that fails leaves every table, one that changes a table
    appends the one event that describes the change. *)

From S2P Require Import Prelude Json Canonical JsonTexts World Consensus ConsensusProps Journal JournalAppend RunLaws RunProps FoldProps Coherence UpkeepTheorems JournalRead JournalSound StepCache StepCacheProps.
#[local] Open Scope me_scope.

Section ops.
Context {J : JsonText} {CJ : CanonicalJson} {C : Consensus} {L : ConsensusLaws C} (opts : ValidatedOptions).
Implicit Types (w : World) (e : CacheEntry).

(** ** Tables and journal *)

Definition cache_rows w : list JournalRow := List.filter is_cache_row (db_events (w_db w)).

(** The tables of [w] hold what the fold state says. *)
Definition tables_are w (s : HeadState * LedgerState) : Prop :=
  db_heads (w_db w) = heads_of s.1 ∧ db_recorded (w_db w) = recorded_of s.2.

(** The tables are the fold of the rows of [order], in that order; of the events in
    the order they were appended. *)
Definition folded_by (order : list JournalRow) w : Prop :=
  ∃ s, apply_rows order (∅, ∅) = inr s ∧ tables_are w s.
Definition folded w : Prop := folded_by (cache_rows w) w.

Lemma folded_keyed order s :
  apply_rows order (∅, ∅) = inr s → keyed ce_keyDigest s.1 ∧ keyed entry_key s.2.
Proof. intros H. eapply apply_rows_keyed; [exact H|apply keyed_empty..]. Qed.

(** A step that appended [inputs] at the clock of [w] and left the two tables as given. *)
Record cache_effect w w' (heads : gmap string CacheRow) (recs : gmap CacheTriple CacheRow) (inputs : list Input) : Prop :=
  mkCacheEffect {
    cf_heads : db_heads (w_db w') = heads;
    cf_recorded : db_recorded (w_db w') = recs;
    cf_events : ∃ rows, db_events (w_db w') = db_events (w_db w) ++ rows ∧ Forall2 (event_of opts (w_clock w)) inputs rows
  }.

Definition no_effect w w' : Prop := cache_effect w w' (db_heads (w_db w)) (db_recorded (w_db w)) [].

Lemma same_tables_effect w w' : w_db w' = w_db w → no_effect w w'.
Proof. intros E. split; [by rewrite E..|]. exists []. by rewrite E, app_nil_r. Qed.

(** ** Appends of the store *)

(** An append whose sequence the journal allocates adds its row. *)
Lemma emit_new input w rc w' :
  readable [] w → in_sourceSeq input = None → emitDurable opts input None w = (inr rc, w') →
  readable [] w' ∧ ∃ q, event_of opts (w_clock w) input q ∧ appended w w' [q].
Proof.
  intros Hs Hnone H. destruct (emit_cases opts _ _ _ _ _ Hs H) as [Hs' _]. split; [done|].
  pose proof (emitDurable_inr opts _ _ _ _ _ (rd_wf _ _ Hs) H) as (_ & _ & _ & He).
  destruct rc as [seq n|seq n]; cbn in He.
  - exists (next_row opts w input). split; [by eexists _, _|apply He].
  - exfalso. destruct He as (_ & _ & row & Hrow & _ & Hk & _).
    apply (next_row_fresh opts w input row Hnone Hrow). destruct Hk as [Hid|Hk]; [|done].
    by apply (ev_minted _ (rd_journal _ _ Hs) row Hrow).
Qed.

(** Only the cache tables differ. *)
Definition retabled w w' : Prop :=
  upd_heads (λ _, ∅) (upd_recorded (λ _, ∅) (w_db w')) = upd_heads (λ _, ∅) (upd_recorded (λ _, ∅) (w_db w)) ∧
  w_proc w' = w_proc w ∧ w_local w' = w_local w ∧ w_clock w' = w_clock w.

#[local] Instance retabled_refl : Reflexive retabled.
Proof. done. Qed.
#[local] Instance retabled_trans : Transitive retabled.
Proof. intros a b c (? & ? & ? & ?) (? & ? & ? & ?). split_and!; by etrans. Qed.

Lemma retabled_events w w' : retabled w w' → db_events (w_db w') = db_events (w_db w).
Proof. intros (Hdb & _). by injection Hdb. Qed.

Lemma retabled_heads f w : retabled w (set_db (upd_heads f) w).
Proof. done. Qed.
Lemma retabled_recorded f w : retabled w (set_db (upd_recorded f) w).
Proof. done. Qed.

Lemma retabled_readable runs w w' : retabled w w' → readable runs w → readable runs w'.
Proof.
  intros (Hdb & Hp & Hl & Hc) [H1 H2 H3 H4]. injection Hdb as E1 E2 E3 E4 E5 E6.
  destruct (law_ext w w') as [Hw _]; [done..|].
  split; [by apply Hw|..]; unfold journal_ok, journal_ordered, above_floor, floor_of in *; rewrite ?E5, ?E6; done.
Qed.

Lemma retabled_sound runs w w' : retabled w w' → sound runs w → sound runs w'.
Proof.
  intros Hr [Hs Ho]%sound_readable. apply sound_readable. split; [by eapply retabled_readable|].
  destruct Hr as (_ & -> & _). done.
Qed.

(** An optional append after the tables were written. *)
Definition record_if (changed : bool) (input : Input) : M () :=
  if changed then emitDurable opts input None ;; ret tt else ret tt.

(** The body of [cache_put], on the tables. *)
Definition put_answer (heads : gmap string CacheRow) e : PutResult :=
  match heads !! ce_keyDigest e with
  | None => CacheInserted
  | Some r => if bool_decide (ch_resultJson r = canon (ce_result e)) then CacheExistingSame else CacheConflict
  end.

Definition put_changes (d : Db) e : bool :=
  is_null (db_heads d !! ce_keyDigest e) || is_null (db_recorded d !! entry_triple e).

Definition put_tables e w : World :=
  set_db (upd_heads (insert_new (ce_keyDigest e) (entry_row e)))
    (set_db (upd_recorded (insert_new (entry_triple e) (entry_row e))) w).

Definition put_body e : M PutResult :=
  let row := entry_row e in
  ledgerInserted <- map_error mapPersistenceError (insert_recorded row) ;;
  headInserted <- map_error mapPersistenceError (insert_head row) ;;
  outcome <- (if headInserted : bool then ret CacheInserted
              else
                head <- get_head (ce_keyDigest e) ;;
                match head with
                | None => fail (cache_error "unknown")
                | Some r => ret (if bool_decide (ch_resultJson r = canon (ce_result e)) then CacheExistingSame else CacheConflict)
                end) ;;
  (if (headInserted || ledgerInserted)%bool
   then emitDurable opts (recorded e) None ;; ret tt
   else ret tt) ;;
  ret outcome.

Lemma cache_put_run e :
  cache_put opts e = if entry_valid e then map_error mapPersistenceError (transact opts (put_body e))
                     else fail (cache_error "invalid_cache").
Proof.
  unfold cache_put, validateEntry. destruct (entry_valid e); [|done]. by rewrite !encodeCanonical_canon.
Qed.

Lemma put_body_run e w :
  entry_valid e = true →
  put_body e w =
    (record_if (put_changes (w_db w) e) (recorded e) ;; ret (put_answer (db_heads (w_db w)) e)) (put_tables e w).
Proof.
  intros He. unfold put_body. pose proof (check_entry_row e He) as Hc.
  pose proof (insert_recorded_run (entry_row e) w Hc) as Hr. rewrite row_triple_entry in Hr.
  set (w1 := set_db (upd_recorded (insert_new (entry_triple e) (entry_row e))) w) in *.
  pose proof (insert_head_run (entry_row e) w1 Hc) as Hh. cbn [ch_keyDigest entry_row cache_row] in Hh.
  change (db_heads (w_db w1)) with (db_heads (w_db w)) in Hh.
  fold (entry_row e) in Hh. fold (put_tables e w) in Hh. unfold map_error. erewrite bind_run; [|by rewrite Hr].
  erewrite bind_run; [|by rewrite Hh].
  unfold put_changes, put_answer. destruct (db_heads (w_db w) !! ce_keyDigest e) as [r|] eqn:E; cbn [is_null orb].
  - assert (get_head (ce_keyDigest e) (put_tables e w) = (inr (Some r), put_tables e w)) as Hg.
    { unfold get_head, gets. f_equal. f_equal. cbn. unfold insert_new. by rewrite E, E. }
    erewrite bind_run; [reflexivity|]. step_by Hg. reflexivity.
  - erewrite bind_run; [reflexivity|]. reflexivity.
Qed.

Lemma record_if_effect {A} (changed : bool) input (a b : A) w w' :
  readable [] w → in_sourceSeq input = None → (record_if changed input ;; ret a) w = (inr b, w') →
  b = a ∧ readable [] w' ∧
  cache_effect w w' (db_heads (w_db w)) (db_recorded (w_db w)) (if changed then [input] else []).
Proof.
  intros Hs Hnone H. apply bind_inr in H as ([] & w1 & H & Hr). apply ret_inr in Hr as [-> ->].
  split; [done|]. unfold record_if in H. destruct changed.
  - apply bind_inr in H as (rc & w2 & He & Hr). apply ret_inr in Hr as [_ ->].
    destruct (emit_new _ _ _ _ Hs Hnone He) as (Hs' & q & Hq & Happ). split; [done|].
    pose proof (app_rest _ _ _ Happ) as Hrest. injection Hrest as E1 E2 E3 E4 E5 E6 E7.
    split; [by rewrite ?E6, ?E5|done|]. exists [q]. split; [apply Happ|by repeat constructor].
  - apply ret_inr in H as [_ ->]. split; [done|]. by apply same_tables_effect.
Qed.

Lemma record_if_local l changed input : preserves (local_is l) (record_if changed input).
Proof.
  unfold record_if. destruct changed; [|apply preserves_ret]. apply preserves_bind; [apply emit_local|]. intros; apply preserves_ret.
Qed.

(** Moving the tables, then an effect. *)
Lemma effect_after w w1 w' heads recs inputs :
  retabled w w1 → cache_effect w1 w' heads recs inputs → cache_effect w w' heads recs inputs.
Proof.
  intros (Hdb & _ & _ & Hc) [H1 H2 H3]. injection Hdb as E1 E2 E3 E4 E5 E6. split; [done..|].
  by rewrite <-Hc, <-E5.
Qed.

(** A transaction of the store, by its body. *)
Lemma cache_transact {A} (body : M A) w (res : error + A) w' :
  sound [] w → map_error mapPersistenceError (transact opts body) w = (res, w') →
  (∀ l, preserves (local_is l) body) →
  (∀ a w0 w1, readable [] w0 → body w0 = (inr a, w1) → readable [] w1) →
  sound [] w' ∧
  match res with
  | inl _ => w_db w' = w_db w
  | inr a => ∃ w0 w1, same_stores w w0 ∧ readable [] w0 ∧ body w0 = (inr a, w1) ∧ w_db w' = w_db w1
  end.
Proof.
  intros Hs H Hl Hb. unfold map_error in H. destruct (transact opts body w) as [r w1] eqn:Ht.
  assert (sound [] w1) as Hs'.
  { eapply (transact_sound opts body [] w r w1 Hs Ht); [by apply Hl|].
    intros a w2. apply Hb. by apply open_readable. }
  destruct r as [err|a]; injection H as <- <-; (split; [done|]); [by apply transact_err_db in Ht|].
  apply transact_inr in Ht as (w0 & w2 & Hs0 & Hb2 & Hs2). exists w0, w2. split_and!; [done| |done|apply Hs2].
  apply sound_readable in Hs as [Hr _]. by eapply readable_same.
Qed.

Lemma effect_same w0 w w1 w' heads recs inputs :
  same_stores w w0 → cache_effect w0 w1 heads recs inputs → w_db w' = w_db w1 → cache_effect w w' heads recs inputs.
Proof. intros [Hdb _ Hc] [H1 H2 H3] E. split; [by rewrite E..|]. by rewrite E, <-Hdb, <-Hc. Qed.

(** ** The operations, on every branch *)

Lemma put_tables_retabled e w : retabled w (put_tables e w).
Proof. done. Qed.

(** [cache_put]: an invalid entry is refused, a valid one is answered by what the head
    holds, written where its keys are free, and recorded when it was written anywhere. *)
Lemma cache_put_spec e w res w' :
  sound [] w → cache_put opts e w = (res, w') →
  sound [] w' ∧
  match res with
  | inl _ => w_db w' = w_db w
  | inr out =>
      entry_valid e = true ∧ out = put_answer (db_heads (w_db w)) e ∧
      cache_effect w w' (insert_new (ce_keyDigest e) (entry_row e) (db_heads (w_db w)))
        (insert_new (entry_triple e) (entry_row e) (db_recorded (w_db w)))
        (if put_changes (w_db w) e then [recorded e] else [])
  end.
Proof.
  intros Hs. rewrite cache_put_run. destruct (entry_valid e) eqn:He; [|by intros [= <- <-]]. intros H.
  assert (∀ a w0 w1, readable [] w0 → put_body e w0 = (inr a, w1) →
    a = put_answer (db_heads (w_db w0)) e ∧ readable [] w1 ∧
    cache_effect w0 w1 (db_heads (w_db (put_tables e w0))) (db_recorded (w_db (put_tables e w0)))
      (if put_changes (w_db w0) e then [recorded e] else [])) as Hbody.
  { intros a w0 w1 Hr Hp. rewrite put_body_run in Hp by done.
    pose proof (retabled_readable _ _ _ (put_tables_retabled e w0) Hr) as Hr'.
    destruct (record_if_effect (put_changes (w_db w0) e) (recorded e) _ _ _ _ Hr' eq_refl Hp) as (-> & Hr1 & Heff). split_and!; [done..|]. by apply (effect_after w0 (put_tables e w0)). }
  destruct (cache_transact (put_body e) w res w' Hs H) as [Hs' Hres].
  - intros l w0 Hw0. rewrite put_body_run by done.
    exact (preserves_bind (local_is l) _ _ (record_if_local l _ _) (λ _, preserves_ret _ _) (put_tables e w0) Hw0).
  - intros a w0 w1 Hr Hp. by apply (Hbody a w0 w1).
  - split; [done|]. destruct res as [err|out]; [done|]. destruct Hres as (w0 & w1 & Hs0 & Hr0 & Hp & E).
    destruct (Hbody _ _ _ Hr0 Hp) as (-> & _ & Heff). pose proof (ss_db _ _ Hs0) as Edb.
    unfold put_tables in Heff. cbn in Heff. rewrite Edb in *.
    split_and!; [done..|]. by eapply effect_same.
Qed.

(** The row an eviction finds: the head, if the fence names its generation. *)
Definition evict_row (heads : gmap string CacheRow) (k : string) (fence : option Provenance) : option CacheRow :=
  match fence, heads !! k with
  | Some fenced, Some r => if is_recorded_by r fenced then Some r else None
  | _, head => head
  end.

Definition fence_valid (fence : option Provenance) : bool :=
  match fence with None => true | Some (runId, eventSeq) => nonempty runId && stamp_ok eventSeq end.

Definition row_evicted (k : string) (r : CacheRow) : Input :=
  evicted (MkEvictedPayload k (ch_recordedRunId r) (ch_recordedEventSeq r)).

Definition evict_body (k : string) (fence : option Provenance) : M bool :=
  head <- get_head k ;;
  let row := match fence, head with
             | Some fenced, Some r => if is_recorded_by r fenced then Some r else None
             | _, _ => head
             end in
  match row with
  | None => ret false
  | Some r =>
      deleted <- delete_head k (ch_recordedRunId r, ch_recordedEventSeq r) ;;
      if deleted : bool
      then emitDurable opts (evicted (MkEvictedPayload k (ch_recordedRunId r) (ch_recordedEventSeq r))) None ;;
           ret true
      else ret false
  end.

Lemma evict_row_head heads k fence r : evict_row heads k fence = Some r → heads !! k = Some r.
Proof. unfold evict_row. destruct fence, (heads !! k); try done. by case_match. Qed.

Lemma cache_evict_run k fence :
  cache_evict opts k fence =
    if nonempty k && fence_valid fence then map_error mapPersistenceError (transact opts (evict_body k fence))
    else fail (cache_error "invalid_cache").
Proof.
  unfold cache_evict, validateKey, validateFence, fence_valid. destruct (nonempty k); [|done].
  destruct fence as [[r n]|]; [|done]. by destruct (nonempty r && stamp_ok n).
Qed.

Lemma evict_body_run k fence w :
  evict_body k fence w =
    match evict_row (db_heads (w_db w)) k fence with
    | None => (inr false, w)
    | Some r => (emitDurable opts (row_evicted k r) None ;; ret true) (set_db (upd_heads (delete k)) w)
    end.
Proof.
  unfold evict_body, get_head. step. cbn zeta.
  replace (match fence, db_heads (w_db w) !! k with Some fenced, Some r => if is_recorded_by r fenced then Some r else None
           | _, _ => db_heads (w_db w) !! k end) with (evict_row (db_heads (w_db w)) k fence)
    by (unfold evict_row; by destruct fence, (db_heads (w_db w) !! k)).
  destruct (evict_row _ _ _) as [r|] eqn:E; [|done]. apply evict_row_head in E.
  assert (delete_head k (ch_recordedRunId r, ch_recordedEventSeq r) w = (inr true, set_db (upd_heads (delete k)) w)) as Hd.
  { unfold delete_head, get_head. step. rewrite E. unfold is_recorded_by. cbn.
    by rewrite !(bool_decide_eq_true_2 (_ = _)) by done. }
  by step_by Hd.
Qed.

Lemma evict_body_effect k fence a w0 w1 :
  readable [] w0 → evict_body k fence w0 = (inr a, w1) →
  readable [] w1 ∧
  match evict_row (db_heads (w_db w0)) k fence with
  | None => a = false ∧ no_effect w0 w1
  | Some r => a = true ∧ cache_effect w0 w1 (delete k (db_heads (w_db w0))) (db_recorded (w_db w0)) [row_evicted k r]
  end.
Proof.
  intros Hr H. rewrite evict_body_run in H. destruct (evict_row _ _ _) as [r|].
  - set (w2 := set_db (upd_heads (delete k)) w0) in *.
    assert (readable [] w2) as Hr2 by (eapply retabled_readable; [apply retabled_heads|done]).
    assert ((record_if true (row_evicted k r) ;; ret true) w2 = (inr a, w1)) as H'.
    { apply bind_inr in H as (rc & w3 & He & Hret). unfold record_if.
      erewrite bind_run; [exact Hret|]. by step_by He. }
    destruct (record_if_effect true (row_evicted k r) _ _ _ _ Hr2 eq_refl H') as (-> & Hr1 & Heff).
    split; [done|]. split; [done|]. eapply (effect_after w0 w2); [done|exact Heff].
  - injection H as <- <-. split; [done|]. split; [done|]. by apply same_tables_effect.
Qed.

(** [cache_evict]: a malformed key or fence is refused; the head goes, with the event
    that names its generation, when the fence names it too; otherwise nothing happens. *)
Lemma cache_evict_spec k fence w res w' :
  sound [] w → cache_evict opts k fence w = (res, w') →
  sound [] w' ∧
  match res with
  | inl _ => w_db w' = w_db w
  | inr b =>
      nonempty k = true ∧ fence_valid fence = true ∧
      match evict_row (db_heads (w_db w)) k fence with
      | None => b = false ∧ no_effect w w'
      | Some r => b = true ∧ cache_effect w w' (delete k (db_heads (w_db w))) (db_recorded (w_db w)) [row_evicted k r]
      end
  end.
Proof.
  intros Hs. rewrite cache_evict_run. destruct (nonempty k && fence_valid fence) eqn:Hv; [|by intros [= <- <-]].
  apply andb_true_iff in Hv as [Hk Hf]. intros H.
  destruct (cache_transact (evict_body k fence) w res w' Hs H) as [Hs' Hres].
  - intros l w0 Hw0. rewrite evict_body_run. destruct (evict_row _ _ _); [|done].
    exact (preserves_bind (local_is l) _ _ (emit_local opts l _) (λ _, preserves_ret _ _) (set_db _ w0) Hw0).
  - intros a w0 w1 Hr Hp. by apply (evict_body_effect _ _ _ _ _ Hr Hp).
  - split; [done|]. destruct res as [err|b]; [done|]. destruct Hres as (w0 & w1 & Hs0 & Hr0 & Hp & E).
    destruct (evict_body_effect _ _ _ _ _ Hr0 Hp) as [_ Heff]. pose proof (ss_db _ _ Hs0) as Edb.
    unfold no_effect in *. rewrite Edb in Heff. split_and!; [done..|].
    destruct (evict_row _ _ _); destruct Heff as [-> Heff]; (split; [done|]); by eapply effect_same.
Qed.

(** [rebuild]: the tables become the fold of the events in replay order, or nothing
    changes. *)
Lemma rebuild_run w s :
  apply_rows (replay_order (db_events (w_db w))) (∅, ∅) = inr s →
  rebuild w = (inr (MkRebuilt (Z.of_nat (length (replay_order (db_events (w_db w))))) (Z.of_nat (size s.1)) (Z.of_nat (size s.2))),
    set_db (upd_recorded (λ _, recorded_of s.2)) (set_db (upd_heads (λ _, heads_of s.1)) w)).
Proof.
  intros H. destruct (apply_rows_keyed _ _ _ H) as [Hh Hl]; [apply keyed_empty..|].
  destruct (keyed_entries _ _ Hh) as [Hv1 Hd1], (keyed_entries _ _ Hl) as [Hv2 _].
  unfold rebuild, map_error, write. unfold get_events at 1. erewrite bind_run; [|reflexivity]. cbn zeta.
  unfold from_result at 1. erewrite bind_run; [|by rewrite H]. step. step.
  set (w1 := set_db (upd_recorded (λ _, ∅)) (set_db (upd_heads (λ _, ∅)) w)).
  destruct (materialize_all insert_head ch_keyDigest db_heads upd_heads (λ row w, insert_head_run row w)
    (λ _ _, eq_refl) (λ _ _ _, eq_refl) upd_heads_id ltac:(intros f g d E; unfold upd_heads; by rewrite E)
    (snd <$> map_to_list s.1) w1 Hv1 Hd1 eq_refl) as [us E1].
  change (λ e, (ch_keyDigest (entry_row e), entry_row e)) with (λ e, (ce_keyDigest e, entry_row e)) in E1.
  rewrite heads_of_list in E1 by done. step_by E1.
  set (w2 := set_db (upd_heads (λ _, heads_of s.1)) w1) in *.
  destruct (materialize_all insert_recorded row_triple db_recorded upd_recorded (λ row w, insert_recorded_run row w)
    (λ _ _, eq_refl) (λ _ _ _, eq_refl) upd_recorded_id ltac:(intros f g d E; unfold upd_recorded; by rewrite E)
    (snd <$> map_to_list s.2) w2 Hv2 (keyed_triples _ Hl) eq_refl) as [vs E2].
  step_by E2. reflexivity.
Qed.

Lemma rebuild_err_db w err w' : rebuild w = (inl err, w') → w_db w' = w_db w.
Proof.
  unfold rebuild, map_error. destruct (write _ w) as [[err'|n] w1] eqn:Hw; [|done].
  intros [= _ <-]. by apply write_err_db in Hw.
Qed.
End ops.
