(* ===== verification/StepCacheTheorems.v ===== *)
(** * What the step cache promises

    Properties of the tables under any sequence of puts, evictions, rebuilds and steps
    of the rest of the system. *)

From S2P Require Import Prelude Json Canonical CanonicalProps JsonTexts World Consensus ConsensusProps Journal JournalAppend RunLaws RunProps RunAnswers FoldProps Coherence UpkeepTheorems JournalRead JournalSound StepCache StepCacheProps StepCacheOps.
#[local] Open Scope me_scope.

Section theorems.
Context {J : JsonText} {CJ : CanonicalJson} {C : Consensus} {L : ConsensusLaws C} (opts : ValidatedOptions).
Implicit Types (w : World) (e : CacheEntry).

(** ** Steps *)

(** A step of the rest of the system: it may append events of other types, compact
    those, move runs, leases and time, but leaves the tables of the cache and keeps its
    events in the journal. *)
Record elsewhere w w' : Prop := mkElsewhere {
  el_sound : sound [] w → sound [] w';
  el_heads : db_heads (w_db w') = db_heads (w_db w);
  el_recorded : db_recorded (w_db w') = db_recorded (w_db w);
  el_rows : cache_rows w' = cache_rows w
}.

(** The replay order of the cache's events is the order they were appended in. *)
Definition timely w : Prop := StronglySorted replay_le (cache_rows w).

(** A step, with puts of entries that are [allowed] and rebuilds of worlds that are
    [replayed]. *)
Inductive cache_step (allowed : CacheEntry → Prop) (replayed : World → Prop) w : World → Prop :=
| put_step e res w' : allowed e → cache_put opts e w = (res, w') → cache_step allowed replayed w w'
| evict_step k fence res w' : cache_evict opts k fence w = (res, w') → cache_step allowed replayed w w'
| rebuild_step res w' : replayed w → rebuild w = (res, w') → cache_step allowed replayed w w'
| other_step w' : elsewhere w w' → cache_step allowed replayed w w'.

Definition any_entry : CacheEntry → Prop := λ _, True.
Definition any_time : World → Prop := λ _, True.

(** ** Rows of the store's events *)

Lemma cache_rows_app w w' rows :
  db_events (w_db w') = db_events (w_db w) ++ rows → cache_rows w' = cache_rows w ++ List.filter is_cache_row rows.
Proof. intros E. unfold cache_rows. by rewrite E, List.filter_app. Qed.

Lemma event_row t input q :
  event_of opts t input q → isVerbatimEventType (in_eventType input) = true →
  j_eventType q = in_eventType input ∧ j_payloadJson q = stringify (in_payload input).
Proof. intros (seq & n & ->) Hv. unfold row_of, scrubbed. by rewrite Hv. Qed.

(** ** The operations keep the tables a fold of the events *)

Lemma heads_of_lookup h k : heads_of h !! k = entry_row <$> h !! k.
Proof. apply lookup_fmap. Qed.

Lemma insert_new_heads e h : insert_new (ce_keyDigest e) (entry_row e) (heads_of h) = heads_of (set_new (ce_keyDigest e) e h).
Proof. apply insert_new_fmap. Qed.

Lemma insert_new_recorded e l :
  keyed entry_key l → entry_valid e = true →
  insert_new (entry_triple e) (entry_row e) (recorded_of l) = recorded_of (set_new (entry_key e) e l).
Proof.
  intros Hl He. apply map_eq. intros [[k r] n].
  rewrite (recorded_of_lookup (set_new _ _ _)) by by apply keyed_set_new.
  unfold insert_new, entry_triple. rewrite recorded_of_lookup by done.
  change (tripleKey (ce_keyDigest e) (ce_recordedRunId e) (ce_recordedEventSeq e)) with (entry_key e).
  unfold set_new. destruct (l !! entry_key e) as [x|] eqn:E; cbn [fmap option_fmap option_map]; [by rewrite recorded_of_lookup|].
  destruct (decide (entry_triple e = (k, r, n))) as [Et|Ht].
  - unfold entry_triple in Et. rewrite Et, lookup_insert_eq. injection Et as <- <- <-. by rewrite lookup_insert_eq.
  - rewrite lookup_insert_ne by done. rewrite recorded_of_lookup by done. rewrite lookup_insert_ne; [done|].
    intros Ek. apply Ht. unfold entry_key, tripleKey in Ek. by apply cacheSourceId_inj in Ek as (<- & <- & <-).
Qed.

Lemma insert_new_present `{Countable K} {A} (k : K) (x y : A) (m : gmap K A) :
  m !! k = Some y → insert_new k x m = m.
Proof. unfold insert_new. by intros ->. Qed.

Lemma not_null {A} (x : option A) : is_null x = false → ∃ y, x = Some y.
Proof. destruct x; [by eexists|done]. Qed.

(** The new rows of a put. *)
Definition put_rows (e : CacheEntry) (rows : list JournalRow) : Prop :=
  rows = [] ∨ ∃ q, rows = [q] ∧ row_entry q = Some e.

Lemma recorded_entry q e :
  j_eventType q = recordedEventType → j_payloadJson q = stringify (entry_payload e) → entry_valid e = true →
  row_entry q = Some e.
Proof.
  intros Ht Hp He. unfold row_entry. rewrite Hp, parse_stringify, Ht. cbn. rewrite bool_decide_eq_true_2 by done.
  by apply decode_entry_payload.
Qed.

Lemma put_folds order e w out w' :
  sound [] w → folded_by order w → cache_put opts e w = (inr out, w') →
  ∃ rows, cache_rows w' = cache_rows w ++ rows ∧ folded_by (order ++ rows) w' ∧ put_rows e rows.
Proof.
  intros Hs (s & Hf & Hh & Hl) H. destruct (cache_put_spec opts e w _ w' Hs H) as (_ & He & _ & [E1 E2 (rows & E3 & Hrows)]).
  destruct (folded_keyed _ s Hf) as [_ Hk]. pose proof (cache_rows_app _ _ _ E3) as Er.
  destruct (put_changes (w_db w) e) eqn:Hc.
  - apply Forall2_cons_inv_l in Hrows as (q & rest & Hq & Hrest & ->). apply Forall2_nil_inv_l in Hrest as ->.
    destruct (event_row _ _ _ Hq eq_refl) as [Ht Hp].
    cbn [List.filter] in Er. unfold is_cache_row in Er. rewrite Ht in Er.
    rewrite bool_decide_eq_true_2 in Er by set_solver.
    exists [q]. split; [done|]. split; [|right; exists q; split; [done|by apply recorded_entry]].
    exists (set_new (ce_keyDigest e) e s.1, set_new (entry_key e) e s.2). split.
    + rewrite apply_rows_app, Hf. cbn [apply_rows]. by rewrite (apply_recorded q e s Ht Hp He).
    + split; cbn [fst snd].
      * by rewrite E1, Hh, insert_new_heads.
      * by rewrite E2, Hl, insert_new_recorded.
  - apply orb_false_iff in Hc as [(x & Hx)%not_null (y & Hy)%not_null].
    apply Forall2_nil_inv_l in Hrows as ->. exists []. split; [done|]. split; [|by left]. rewrite app_nil_r.
    exists s. split; [done|]. split; [by rewrite E1, (insert_new_present _ _ _ _ Hx)|].
    by rewrite E2, (insert_new_present _ _ _ _ Hy).
Qed.

Lemma put_folded e w out w' :
  sound [] w → folded w → cache_put opts e w = (inr out, w') → folded w'.
Proof. intros Hs Hf H. unfold folded. by destruct (put_folds _ e w out w' Hs Hf H) as (rows & -> & H' & _). Qed.

Lemma evict_folds order k fence w b w' :
  sound [] w → folded_by order w → cache_evict opts k fence w = (inr b, w') →
  ∃ rows, cache_rows w' = cache_rows w ++ rows ∧ folded_by (order ++ rows) w' ∧ omap row_entry rows = [].
Proof.
  intros Hs (s & Hf & Hh & Hl) H. destruct (cache_evict_spec opts k fence w _ w' Hs H) as (_ & _ & _ & Heff).
  destruct (evict_row _ _ _) as [r|] eqn:Er.
  - apply evict_row_head in Er. destruct Heff as (_ & [E1 E2 (rows & E3 & Hrows)]).
    apply Forall2_cons_inv_l in Hrows as (q & rest & Hq & Hrest & ->). apply Forall2_nil_inv_l in Hrest as ->.
    destruct (event_row _ _ _ Hq eq_refl) as [Ht Hp].
    rewrite Hh, heads_of_lookup in Er. destruct (s.1 !! k) as [e|] eqn:Ee; [|done]. injection Er as <-.
    destruct (folded_keyed _ s Hf) as [Hkh _]. destruct (Hkh _ _ Ee) as [<- He].
    pose proof (cache_rows_app _ _ _ E3) as Eq. cbn [List.filter] in Eq. unfold is_cache_row in Eq.
    rewrite Ht in Eq. rewrite bool_decide_eq_true_2 in Eq by set_solver.
    exists [q]. split; [done|]. split.
    + exists (delete (ce_keyDigest e) s.1, s.2). split.
      * rewrite apply_rows_app, Hf. cbn [apply_rows].
        by rewrite (apply_evicted q (MkEvictedPayload (ce_keyDigest e) (ce_recordedRunId e) (ce_recordedEventSeq e)) e s Ht Hp He).
      * split; cbn [fst snd]; [|congruence]. rewrite E1, Hh. unfold heads_of. symmetry. apply (fmap_delete (M:=gmap string)).
    + cbn. unfold row_entry. rewrite Ht. by destruct (parse _).
  - destruct Heff as (_ & [E1 E2 (rows & E3 & Hrows)]). apply Forall2_nil_inv_l in Hrows as ->.
    exists []. split; [by rewrite (cache_rows_app _ _ _ E3)|]. split; [|done]. rewrite app_nil_r.
    exists s. split; [done|split; congruence].
Qed.

(** A step that leaves database and cache events alone keeps what is folded. *)
Lemma folded_same order w w' :
  db_heads (w_db w') = db_heads (w_db w) → db_recorded (w_db w') = db_recorded (w_db w) →
  folded_by order w → folded_by order w'.
Proof. intros E1 E2 (s & Hf & Hh & Hl). exists s. split; [done|split; congruence]. Qed.

(** ** Rebuilding *)

Lemma replay_le_antisym w x y :
  journal_ok w → x ∈ cache_rows w → y ∈ cache_rows w → replay_le x y → replay_le y x → x = y.
Proof.
  intros Hj [Hx _]%elem_of_filter_b [Hy _]%elem_of_filter_b H1 H2.
  apply (NoDup_key_inj run_key (db_events (w_db w))); [apply Hj|done..|]. unfold run_key.
  destruct H1 as [|(E & [[Hr Hs]|[Hr Hs]])], H2 as [|(E' & [[Hr' Hs']|[Hr' Hs']])]; try lia; try congruence.
  - f_equal; [done|lia].
  - exfalso. apply Hr. unfold str_le in *. by apply String.leb_antisym.
Qed.

Lemma string_leb_trans a b c : String.leb a b = true → String.leb b c = true → String.leb a c = true.
Proof.
  revert b c. induction a as [|x a IH]; intros [|y b] [|z c]; try done. unfold String.leb. cbn.
  unfold Ascii.compare.
  destruct (N.compare_spec (N_of_ascii x) (N_of_ascii y)) as [Exy|Hxy|Hxy]; try done;
  destruct (N.compare_spec (N_of_ascii y) (N_of_ascii z)) as [Eyz|Hyz|Hyz]; try done;
  destruct (N.compare_spec (N_of_ascii x) (N_of_ascii z)) as [Exz|Hxz|Hxz]; try done; try lia.
  apply IH.
Qed.

#[local] Instance replay_le_trans : Transitive replay_le.
Proof.
  intros a b c. unfold replay_le, str_le.
  intros [H1|(E1 & [[R1 S1]|[R1 S1]])] [H2|(E2 & [[R2 S2]|[R2 S2]])]; try (left; lia); right; (split; [lia|]).
  - left. split; [congruence|lia].
  - right. split; [congruence|]. congruence.
  - right. split; [congruence|]. congruence.
  - pose proof (string_leb_trans _ _ _ S1 S2) as S3. destruct (decide (j_runId a = j_runId c)) as [E|Hn]; [|by right].
    exfalso. apply R1. rewrite <-E in S2. by apply String.leb_antisym.
Qed.

#[local] Instance replay_le_total : Total replay_le.
Proof.
  intros a b. unfold replay_le. destruct (Z.lt_trichotomy (j_emittedAtMs a) (j_emittedAtMs b)) as [H|[H|H]]; [tauto| |tauto].
  destruct (decide (j_runId a = j_runId b)) as [Hr|Hr].
  - destruct (Z.le_ge_cases (j_seq a) (j_seq b)); [left|right]; right; split; [done|left; by split|done|left; by split].
  - destruct (String.leb (j_runId a) (j_runId b)) eqn:El.
    + left. right. split; [done|]. right. by split.
    + right. right. split; [done|]. right. split; [congruence|]. unfold str_le.
      destruct (String.leb_total (j_runId a) (j_runId b)); congruence.
Qed.

(** When the replay order is the order of the appends, sorting changes nothing. *)
Lemma timely_order w : journal_ok w → timely w → replay_order (db_events (w_db w)) = cache_rows w.
Proof.
  intros Hj Ht. unfold replay_order. fold (cache_rows w). apply (StronglySorted_unique_strong replay_le).
  - intros x y Hx Hy. rewrite merge_sort_Permutation in Hx. by apply (replay_le_antisym w).
  - apply (StronglySorted_merge_sort _).
  - exact Ht.
  - apply merge_sort_Permutation.
Qed.

(** What a rebuild leaves: the fold of the cache's events in replay order. *)
Lemma replayed_same w : replay_order (db_events (w_db w)) ≡ₚ cache_rows w.
Proof. apply merge_sort_Permutation. Qed.

Lemma rebuild_folds order w : order ≡ₚ cache_rows w → folded_by order w →
  ∃ n w', rebuild w = (inr n, w') ∧ retabled w w' ∧ folded_by (replay_order (db_events (w_db w))) w'.
Proof.
  intros Hp (s & Hf & _).
  destruct (apply_rows_order order (replay_order (db_events (w_db w))) (∅, ∅) s Hf) with (t := (∅, ∅) : HeadState * LedgerState)
    as [s' Hs']; [by rewrite replayed_same, Hp|].
  eexists _, _. split; [by apply rebuild_run|]. split.
  - done.
  - exists s'. split; [done|]. by split.
Qed.

(** Rebuilding what the replay order folds to changes nothing. *)
Lemma rebuild_idle w : folded_by (replay_order (db_events (w_db w))) w → ∃ n, rebuild w = (inr n, w).
Proof.
  intros (s & Hf & Hh & Hl). rewrite (rebuild_run w s) by done. eexists. f_equal.
  destruct w as [[] p l c]. cbn in *. unfold set_db, upd_heads, upd_recorded. cbn. by rewrite <-Hh, <-Hl.
Qed.

Lemma timely_rebuild w : sound [] w → folded w → timely w → ∃ n, rebuild w = (inr n, w).
Proof. intros Hs Hf Ht. apply rebuild_idle. by rewrite (timely_order w (sd_journal _ _ Hs) Ht). Qed.

Lemma retabled_rows w w' : retabled w w' → cache_rows w' = cache_rows w.
Proof. intros H. unfold cache_rows. by rewrite (retabled_events _ _ H). Qed.

(** ** Any step *)

(** The tables are the fold of the cache's events in some order, whose new entries are
    [allowed]. *)
Definition arranged w : Prop := ∃ order, order ≡ₚ cache_rows w ∧ folded_by order w.

Lemma same_db_rows w w' : w_db w' = w_db w → cache_rows w' = cache_rows w.
Proof. unfold cache_rows. by intros ->. Qed.

(** The entries recorded by a step that appended to the cache's events. *)
Definition records (allowed : CacheEntry → Prop) w w' : Prop :=
  ∃ rows, cache_rows w' = cache_rows w ++ rows ∧ Forall allowed (omap row_entry rows).

Lemma records_same allowed w w' : cache_rows w' = cache_rows w → records allowed w w'.
Proof. intros E. exists []. by rewrite E, app_nil_r. Qed.

Lemma any_step allowed replayed w w' :
  sound [] w → arranged w → cache_step allowed replayed w w' → sound [] w' ∧ arranged w' ∧ records allowed w w'.
Proof.
  intros Hs (order & Hp & Hf) [e res w1 Hok H|k fence res w1 H|res w1 _ H|w1 [H1 H2 H3 H4]].
  - destruct (cache_put_spec opts e w _ w1 Hs H) as [Hs' Hr]. split; [done|]. destruct res as [err|out].
    + split; [|by apply records_same, same_db_rows]. exists order. rewrite (same_db_rows _ _ Hr).
      split; [done|]. by apply (folded_same _ w); rewrite ?Hr.
    + destruct (put_folds order e w out w1 Hs Hf H) as (rows & E & Hf' & Hrows). split.
      * exists (order ++ rows). rewrite E. split; [by rewrite Hp|done].
      * exists rows. split; [done|]. destruct Hrows as [->|(q & -> & Hq)]; [done|]. cbn. rewrite Hq. by repeat constructor.
  - destruct (cache_evict_spec opts k fence w _ w1 Hs H) as [Hs' Hr]. split; [done|]. destruct res as [err|b].
    + split; [|by apply records_same, same_db_rows]. exists order. rewrite (same_db_rows _ _ Hr).
      split; [done|]. by apply (folded_same _ w); rewrite ?Hr.
    + destruct (evict_folds order k fence w b w1 Hs Hf H) as (rows & E & Hf' & Hrows). split.
      * exists (order ++ rows). rewrite E. split; [by rewrite Hp|done].
      * exists rows. split; [done|]. by rewrite Hrows.
  - destruct (rebuild_folds order w Hp Hf) as (n & w2 & H' & Hr & Hf'). rewrite H' in H. injection H as _ <-.
    split; [by eapply retabled_sound|]. split; [|by apply records_same, retabled_rows].
    exists (replay_order (db_events (w_db w))). rewrite (retabled_rows _ _ Hr).
    split; [apply replayed_same|done].
  - split; [by apply H1|]. split; [|by apply records_same]. exists order. rewrite H4. split; [done|]. by apply (folded_same _ w).
Qed.

Lemma any_steps allowed replayed w w' :
  rtc (cache_step allowed replayed) w w' → sound [] w → arranged w → sound [] w' ∧ arranged w' ∧ records allowed w w'.
Proof.
  induction 1 as [|w w1 w2 H _ IH]; intros Hs Ha; [split_and!; [done..|by apply records_same]|].
  destruct (any_step _ _ _ _ Hs Ha H) as (Hs1 & Ha1 & rows & E & Hrows).
  destruct (IH Hs1 Ha1) as (Hs2 & Ha2 & more & E' & Hmore). split_and!; [done..|].
  exists (rows ++ more). rewrite E', E, (assoc_L (++)). split; [done|]. rewrite omap_app. by apply Forall_app.
Qed.

Lemma folded_arranged w : folded w → arranged w.
Proof. intros Hf. by exists (cache_rows w). Qed.

Lemma timely_step allowed w w' : sound [] w → folded w → cache_step allowed timely w w' → folded w'.
Proof.
  intros Hs Hf [e res w1 _ H|k fence res w1 H|res w1 Ht H|w1 [H1 H2 H3 H4]]; unfold folded.
  - destruct res as [err|out]; [|by eapply put_folded].
    destruct (cache_put_spec opts e w _ w1 Hs H) as [_ Hr]. rewrite (same_db_rows _ _ Hr).
    by apply (folded_same _ w); rewrite ?Hr.
  - destruct res as [err|b].
    + destruct (cache_evict_spec opts k fence w _ w1 Hs H) as [_ Hr]. rewrite (same_db_rows _ _ Hr).
      by apply (folded_same _ w); rewrite ?Hr.
    + by destruct (evict_folds _ k fence w b w1 Hs Hf H) as (rows & -> & Hf' & _).
  - destruct (timely_rebuild w Hs Hf Ht) as [n Hn]. rewrite Hn in H. by injection H as _ <-.
  - rewrite H4. by apply (folded_same _ w).
Qed.

Lemma timely_steps allowed w w' :
  rtc (cache_step allowed timely) w w' → sound [] w → folded w → sound [] w' ∧ folded w'.
Proof.
  induction 1 as [|w w1 w2 H _ IH]; [done|]. intros Hs Hf.
  destruct (any_step _ _ _ _ Hs (folded_arranged _ Hf) H) as [Hs1 _]. apply IH; [done|]. exact (timely_step allowed w w1 Hs Hf H).
Qed.

(** ** Reads *)

(** [x] is [e], with the members of its result and of its metadata in canonical order. *)
Record same_entry e (x : CacheEntry) : Prop := mkSameEntry {
  se_triple : entry_triple x = entry_triple e;
  se_created : ce_createdAtMs x = ce_createdAtMs e;
  se_result : json_value (ce_result x) = normal (json_value (ce_result e));
  se_meta : json_value (ce_meta x) = normal (json_value (ce_meta e))
}.

Lemma decode_entry_row e w : entry_valid e = true → ∃ x, decode_row (entry_row e) w = (inr x, w) ∧ same_entry e x.
Proof.
  intros (Hk & Hc & Hr & Hs)%entry_valid_spec. unfold decode_row, entry_row, cache_row.
  cbn [ch_keyDigest ch_createdAtMs ch_recordedRunId ch_recordedEventSeq ch_resultJson ch_metaJson].
  rewrite Hk, Hc, Hr, Hs. cbn [andb negb].
  destruct (parse_canonical _ _ (canon_text (ce_result e))) as (r & -> & Er).
  destruct (parse_canonical _ _ (canon_text (ce_meta e))) as (m & -> & Em). eexists. by split.
Qed.

(** A recorded version is read back whatever the head holds. *)
Lemma get_recorded_entry e w :
  entry_valid e = true → db_recorded (w_db w) !! entry_triple e = Some (entry_row e) →
  ∃ x, cache_get (ce_keyDigest e) (Some (ce_recordedRunId e, ce_recordedEventSeq e)) w = (inr (Some x), w) ∧ same_entry e x.
Proof.
  intros He Hrow. destruct (decode_entry_row e w He) as (x & Hx & Hsame). exists x. split; [|done].
  apply entry_valid_spec in He as (Hk & _). unfold cache_get, validateKey. rewrite Hk. step.
  unfold get_recorded. step. fold (entry_triple e). rewrite Hrow. by step_by Hx.
Qed.

Lemma get_head_entry e w :
  entry_valid e = true → db_heads (w_db w) !! ce_keyDigest e = Some (entry_row e) →
  ∃ x, cache_get (ce_keyDigest e) None w = (inr (Some x), w) ∧ same_entry e x.
Proof.
  intros He Hrow. destruct (decode_entry_row e w He) as (x & Hx & Hsame). exists x. split; [|done].
  apply entry_valid_spec in He as (Hk & _). unfold cache_get, validateKey. rewrite Hk. step. step.
  unfold get_head. step. rewrite Hrow. by step_by Hx.
Qed.

(** ** The ledger only grows *)

Lemma insert_new_there `{Countable K} {A} (k : K) (x : A) (m : gmap K A) : m !! k = None → insert_new k x m !! k = Some x.
Proof. unfold insert_new. intros ->. by rewrite lookup_insert_eq. Qed.

(** Whatever the order, the ledger has a row for each triple that was recorded, and the
    row of one of the entries recorded under it. *)
Lemma ledger_row w t :
  arranged w →
  match db_recorded (w_db w) !! t with
  | Some row => ∃ x, x ∈ omap row_entry (cache_rows w) ∧ entry_triple x = t ∧ row = entry_row x
  | None => ∀ x, x ∈ omap row_entry (cache_rows w) → entry_triple x ≠ t
  end.
Proof.
  intros (order & Hp & s & Hf & _ & Hl). destruct t as [[k r] n]. destruct (folded_keyed _ s Hf) as [_ Hk].
  rewrite Hl, recorded_of_lookup by done. rewrite (ledger_of_rows _ _ _ Hf).
  assert (Ht : ∀ x, bool_decide (entry_key x = tripleKey k r n) = bool_decide (entry_triple x = (k, r, n))).
  { intros x. apply bool_decide_ext. apply (entry_key_triple x (MkCacheEntry k JNull JNull 0 r n)). }
  destruct (List.find _ _) as [x|] eqn:E; cbn.
  - apply find_some in E as [Hin Hx]. rewrite Ht in Hx. apply bool_decide_eq_true in Hx.
    exists x. split_and!; [|done|done]. apply list_elem_of_In in Hin. by rewrite <-Hp.
  - intros x Hx Hxt. rewrite <-Hp in Hx. eapply find_none in E; [|by apply list_elem_of_In].
    rewrite Ht in E. by apply bool_decide_eq_false in E.
Qed.

(** No other entry is put under the provenance of [e]. *)
Definition own_provenance e : CacheEntry → Prop :=
  λ x, entry_triple x = entry_triple e → entry_row x = entry_row e.

Lemma recorded_row e w w' :
  arranged w' → records (own_provenance e) w w' →
  (∀ x, x ∈ omap row_entry (cache_rows w) → own_provenance e x) →
  (∃ x, x ∈ omap row_entry (cache_rows w') ∧ entry_triple x = entry_triple e) →
  db_recorded (w_db w') !! entry_triple e = Some (entry_row e).
Proof.
  intros Ha (rows & E & Hrows) Hown (x & Hx & Ht). pose proof (ledger_row w' (entry_triple e) Ha) as H.
  destruct (db_recorded (w_db w') !! entry_triple e) as [row|]; [|by destruct (H x)].
  destruct H as (y & Hy & Hyt & ->). f_equal. rewrite E, omap_app in Hy.
  apply elem_of_app in Hy as [Hy|Hy]; [by apply Hown|]. rewrite Forall_forall in Hrows. by apply Hrows.
Qed.

(** ** Starting, the rest of the system, and time *)

Lemma start_folded w :
  db_heads (w_db w) = ∅ → db_recorded (w_db w) = ∅ → cache_rows w = [] → folded w.
Proof. intros H1 H2 H3. exists (∅, ∅). rewrite H3. split; [done|]. by split. Qed.

(** Appends of events of other types are steps of the rest of the system. *)
Lemma append_elsewhere input w res w' :
  bool_decide (in_eventType input ∈ [recordedEventType; evictedEventType; snapshotEventType]) = false →
  sound [] w → emitDurable opts input None w = (res, w') → elsewhere w w'.
Proof.
  intros Ht Hs H. pose proof (proj1 (proj1 (sound_readable _ _) Hs)) as Hr.
  destruct res as [err|rc].
  - pose proof (emit_failed opts _ _ _ _ (sd_open _ _ Hs) H) as Hp. pose proof (ps_db _ _ Hp) as E.
    split; [intros _; by apply (proc_step_sound [] w)|by rewrite E..|]. unfold cache_rows. by rewrite E.
  - pose proof (emitDurable_extends opts _ _ _ _ _ (sd_wf _ _ Hs) (sd_journal _ _ Hs) H) as (_ & _ & _ & new & Happ & Hnew).
    pose proof (app_rest _ _ _ Happ) as Hrest. injection Hrest as E1 E2 E3 E4 E5 E6 E7.
    split; [intros _; by eapply emit_sound|done|done|].
    rewrite (cache_rows_app _ _ _ (app_events _ _ _ Happ)). rewrite <-(app_nil_r (cache_rows w)) at 2. f_equal.
    subst new. destruct rc; [|done]. cbn. unfold is_cache_row. cbn. by rewrite Ht.
Qed.

(** The clock moves on. *)
Lemma tick_elsewhere t w : elsewhere w (set_clock t w).
Proof.
  split; [|done..]. intros [H1 H2 H3 H4 H5]. split; [|done..].
  by destruct (law_ext w (set_clock t w)) as [Hw _]; [done..|apply Hw].
Qed.

(** While the clock is past every cache event, the next one is replayed last. *)
Definition clock_past w : Prop := Forall (λ row, (j_emittedAtMs row < w_clock w)%Z) (cache_rows w).

Lemma effect_timely w w' heads recs inputs :
  timely w → clock_past w → length inputs ≤ 1 → cache_effect opts w w' heads recs inputs → timely w'.
Proof.
  intros Ht Hc Hlen [_ _ (rows & E & Hrows)]. unfold timely. rewrite (cache_rows_app _ _ _ E).
  destruct Hrows as [|input q inputs rows (seq & n & Hq) Hrows]; [by rewrite app_nil_r|].
  destruct inputs; [|cbn in Hlen; lia]. apply Forall2_nil_inv_l in Hrows as ->. cbn [List.filter].
  destruct (is_cache_row q); [|by rewrite app_nil_r].
  apply StronglySorted_app_2; [|done|by repeat constructor].
  intros x y Hx ->%list_elem_of_singleton. left. unfold clock_past in Hc. rewrite Forall_forall in Hc.
  specialize (Hc x Hx). by rewrite Hq.
Qed.

Lemma put_timely e w out w' :
  sound [] w → timely w → clock_past w → cache_put opts e w = (inr out, w') → timely w'.
Proof.
  intros Hs Ht Hc H. destruct (cache_put_spec opts e w _ w' Hs H) as (_ & _ & _ & Heff).
  eapply effect_timely; [done|done| |exact Heff]. destruct (put_changes _ _); cbn; lia.
Qed.

Lemma evict_timely k fence w b w' :
  sound [] w → timely w → clock_past w → cache_evict opts k fence w = (inr b, w') → timely w'.
Proof.
  intros Hs Ht Hc H. destruct (cache_evict_spec opts k fence w _ w' Hs H) as (_ & _ & _ & Hr).
  destruct (evict_row _ _ _); destruct Hr as [_ Heff]; (eapply effect_timely; [done|done| |exact Heff]); cbn; lia.
Qed.

(** ** Theorems *)

(** C8. The tables of the step cache are a fold of its events. From a well-formed
    journal whose events the tables are the fold of, as when all are empty, after
    any sequence of puts, evictions, rebuilds and other steps of the system,
    successful or failed, in which the journal keeps its cache events (a compaction
    may drop only other events): the head and the ledger hold exactly what the cache
    events, each once, fold to in some order; a rebuild never fails, leaves exactly
    what they fold to in replay order (time, run, sequence), touches nothing else,
    and a second one changes nothing. When every rebuild of the sequence found the
    replay order to be the order of the appends, the tables are the fold in the
    order of the appends, and a further rebuild under that condition changes
    nothing: it loses nothing and resurrects no evicted head. Without the condition
    it may ([tied_rebuild_replaces_head]). *)
Theorem cache_is_fold w w' :
  sound [] w → folded w →
  (rtc (cache_step any_entry any_time) w w' →
     (∃ order, order ≡ₚ cache_rows w' ∧ folded_by order w') ∧
     ∃ n w2, rebuild w' = (inr n, w2) ∧ retabled w' w2 ∧ folded_by (replay_order (db_events (w_db w'))) w2 ∧
             ∃ m, rebuild w2 = (inr m, w2)) ∧
  (rtc (cache_step any_entry timely) w w' → folded w' ∧ (timely w' → ∃ n, rebuild w' = (inr n, w'))).
Proof.
  intros Hs Hf. split; intros H.
  - destruct (any_steps _ _ _ _ H Hs (folded_arranged _ Hf)) as (Hs' & (order & Hp & Hf') & _).
    split; [by exists order|]. destruct (rebuild_folds order w' Hp Hf') as (n & w2 & Hr & Ht & Hf2).
    exists n, w2. split_and!; [done..|]. apply rebuild_idle. by rewrite (retabled_events _ _ Ht).
  - destruct (timely_steps _ _ _ H Hs Hf) as [Hs' Hf']. split; [done|]. intros Ht. by apply timely_rebuild.
Qed.

(** C9. What an event recorded is read back for ever. From tables that are the fold
    of their journal: once a put has landed under a fresh provenance - whether it
    won the head, repeated it or conflicted with it - a lookup naming that
    provenance returns the recorded result and metadata, up to the order of members,
    after any puts, evictions, rebuilds, whatever their replay order, and other
    steps that follow, provided no different entry is put under that provenance and
    the journal keeps its cache events (no compaction drops one). Under a provenance
    that is used again a rebuild may take the other entry
    ([reused_provenance_replaced]). *)
Theorem recorded_is_permanent e w0 out w w' :
  sound [] w0 → folded w0 → db_recorded (w_db w0) !! entry_triple e = None →
  cache_put opts e w0 = (inr out, w) → rtc (cache_step (own_provenance e) any_time) w w' →
  ∃ x, cache_get (ce_keyDigest e) (Some (ce_recordedRunId e, ce_recordedEventSeq e)) w' = (inr (Some x), w') ∧ same_entry e x.
Proof.
  intros Hs Hf Hnew Hput Hsteps. destruct (cache_put_spec opts e w0 _ w Hs Hput) as (Hs1 & He & _ & [_ Hrec _]).
  pose proof (put_folded e w0 out w Hs Hf Hput) as Hf1. pose proof (folded_arranged _ Hf1) as Ha1.
  destruct (any_steps _ _ _ _ Hsteps Hs1 Ha1) as (_ & Ha & rows & E & Hrows).
  pose proof (ledger_row w0 (entry_triple e) (folded_arranged _ Hf)) as Hold. rewrite Hnew in Hold.
  pose proof (ledger_row w (entry_triple e) Ha1) as Hhas. rewrite Hrec, insert_new_there in Hhas by done.
  destruct Hhas as (x & Hx & Hxt & _).
  apply get_recorded_entry; [done|]. apply (recorded_row e w); [done|by exists rows| |].
  - destruct (put_folds _ e w0 out w Hs Hf Hput) as (new & E1 & _ & Hnewrows). intros y Hy Hyt.
    rewrite E1, omap_app in Hy. apply elem_of_app in Hy as [Hy|Hy]; [by destruct (Hold y Hy)|].
    destruct Hnewrows as [->|(q & -> & Hq)]; [by apply not_elem_of_nil in Hy|]. cbn in Hy. rewrite Hq in Hy.
    by apply list_elem_of_singleton in Hy as ->.
  - exists x. split; [|done]. rewrite E, omap_app. apply elem_of_app. by left.
Qed.

(** What the answer of a put means. *)
Definition put_means e w (out : PutResult) w' : Prop :=
  match db_heads (w_db w) !! ce_keyDigest e with
  | None => out = CacheInserted ∧ ∃ x, cache_get (ce_keyDigest e) None w' = (inr (Some x), w') ∧ same_entry e x
  | Some r =>
      ∃ e0, r = entry_row e0 ∧ db_heads (w_db w') = db_heads (w_db w) ∧
        out = (if bool_decide (canon (ce_result e0) = canon (ce_result e)) then CacheExistingSame else CacheConflict) ∧
        (canon (ce_result e0) = canon (ce_result e) ↔ normal (json_value (ce_result e0)) = normal (json_value (ce_result e)))
  end.

Lemma put_answered e w out w' :
  sound [] w → folded w → cache_put opts e w = (inr out, w') → put_means e w out w'.
Proof.
  intros Hs (s & Hf & Hh & Hl) H. destruct (cache_put_spec opts e w _ w' Hs H) as (_ & He & -> & [E1 _ _]).
  unfold put_means, put_answer. destruct (db_heads (w_db w) !! ce_keyDigest e) as [r|] eqn:E.
  - rewrite Hh, heads_of_lookup in E. destruct (s.1 !! ce_keyDigest e) as [e0|] eqn:E0; [|done]. injection E as <-.
    exists e0. split_and!; [done| |done|].
    + rewrite E1, Hh. apply (insert_new_present _ _ (entry_row e0)). by rewrite heads_of_lookup, E0.
    + apply canonical_text_same; apply canon_text.
  - split; [done|]. apply get_head_entry; [done|]. rewrite E1. by apply insert_new_there.
Qed.

(** A put answers by value: while the journal takes events, a put of a valid entry
    succeeds; on a free key it inserts, and a lookup then returns the entry; on a key
    that is taken it leaves the head, and reports the same result exactly when the two
    results are equal up to the order of object members - never because two texts
    happen to be written differently. *)
Theorem put_decides e w :
  sound [] w → folded w → entry_valid e = true → admissible w (recorded e) = true → allocates w (recorded e) = true →
  ∃ out w', cache_put opts e w = (inr out, w') ∧ put_means e w out w'.
Proof.
  intros Hs Hf He Hadm Hall. destruct (proj1 (sound_readable _ _) Hs) as [Hr Hopen].
  assert (∃ out w1, put_body opts e (open_transaction w) = (inr out, w1)) as (out & w1 & Hbody).
  { rewrite put_body_run by done. set (w1 := put_tables e (open_transaction w)). unfold record_if.
    destruct (put_changes _ _); [|by eexists _, _].
    assert (readable [] w1) as Hr1.
    { eapply retabled_readable; [apply put_tables_retabled|]. by apply open_readable. }
    destruct (emitDurable_fresh opts (recorded e) None w1) as (w2 & Hem & _); try done; [apply Hr1|apply Hr1| |].
    - intros row Hrow. exact (next_row_fresh opts w1 (recorded e) row eq_refl Hrow).
    - eexists _, _. erewrite bind_run; [reflexivity|]. by step_by Hem. }
  destruct (transact_run opts (put_body opts e) w out w1) as (w' & Ht & _).
  { unfold body_world. by rewrite Hopen. }
  assert (cache_put opts e w = (inr out, w')) as Hput.
  { rewrite cache_put_run, He. unfold map_error. by rewrite Ht. }
  exists out, w'. split; [done|]. by apply put_answered.
Qed.

(** A fenced eviction spares a newer row: it removes the head exactly when the head is
    the generation the fence names, says so, and changes nothing else - neither another
    key nor the ledger.  Evicting under no fence removes whatever the head holds. *)
Theorem evict_names_generation k fence w b w' :
  sound [] w → cache_evict opts k fence w = (inr b, w') →
  (b = true ↔ ∃ r, db_heads (w_db w) !! k = Some r ∧
                   ∀ f, fence = Some f → (ch_recordedRunId r, ch_recordedEventSeq r) = f) ∧
  db_heads (w_db w') = (if b then delete k (db_heads (w_db w)) else db_heads (w_db w)) ∧
  db_recorded (w_db w') = db_recorded (w_db w).
Proof.
  intros Hs H. destruct (cache_evict_spec opts k fence w _ w' Hs H) as (_ & _ & _ & Hr). unfold evict_row, is_recorded_by in Hr.
  destruct (db_heads (w_db w) !! k) as [r|] eqn:E; [|destruct fence; destruct Hr as (-> & [-> -> _]); naive_solver].
  destruct fence as [[fr fn]|]; [|destruct Hr as (-> & [-> -> _]); naive_solver]. cbn [fst snd] in Hr.
  destruct (bool_decide (ch_recordedRunId r = fr) && bool_decide (ch_recordedEventSeq r = fn)) eqn:Hb;
    destruct Hr as (-> & [-> -> _]); (split; [|done]).
  - apply andb_true_iff in Hb as [<-%bool_decide_eq_true <-%bool_decide_eq_true]. naive_solver.
  - split; [done|]. intros (r' & [= <-] & Hf). specialize (Hf _ eq_refl). injection Hf as <- <-.
    by rewrite !(bool_decide_eq_true_2 (_ = _)) in Hb by done.
Qed.
End theorems.
