(* ===== verification/StepCacheDemo.v ===== *)
(** * The step cache at work

    Two runs compute the step with key ["k"]: the instances of the cache's properties,
    and what a rebuild does when two runs write in one millisecond. *)

From S2P Require Import Prelude Json Canonical CanonicalProps JsonTexts World Consensus ConsensusProps Journal JournalAppend RunLaws RunProps RunAnswers FoldProps Coherence UpkeepTheorems JournalRead JournalSound StepCache StepCacheProps StepCacheOps StepCacheTheorems.

#[local] Existing Instance text_json.
#[local] Existing Instance text_canonical.
#[local] Existing Instance local_consensus.

Module CacheDemo.
Definition opts : ValidatedOptions := MkValidatedOptions 64 4096 id.
Definition w0 : World := initial_world 10.

(** One result written with its members in two orders, and another result. *)
Definition entry (run : string) (seq : Z) (result : json) : CacheEntry := MkCacheEntry "k" result JNull 10 run seq.
Definition result : json := JObj [("b", JNum 1); ("a", JStr "x")].
Definition reordered : json := JObj [("a", JStr "x"); ("b", JNum 1)].
Definition other : json := JArr [JNum (-7); JBool true].

Definition e1 : CacheEntry := entry "run-b" 0 result.
Definition e2 : CacheEntry := entry "run-a" 3 other.

Definition put (e : CacheEntry) (w : World) : World := (cache_put opts e w).2.
Definition w1 : World := put e1 w0.
(** A later millisecond, and the same one. *)
Definition later : World := put e2 (set_clock 11 w1).
Definition tied : World := put e2 w1.

Lemma cache_w0_sound : sound [] w0.
Proof.
  split; [done| |intros r; constructor|done|by intros r ?%elem_of_nil].
  split; [by intros row ?%elem_of_nil|by intros row ?%elem_of_nil|constructor|constructor].
Qed.

Lemma w0_folded : folded w0.
Proof. by apply start_folded. Qed.

Lemma put_is e w out w' : cache_put opts e w = (inr out, w') → put e w = w'.
Proof. unfold put. by intros ->. Qed.

Lemma w1_put : cache_put opts e1 w0 = (inr CacheInserted, w1).
Proof. vm_compute. reflexivity. Qed.
Lemma later_put : cache_put opts e2 (set_clock 11 w1) = (inr CacheConflict, later).
Proof. vm_compute. reflexivity. Qed.
Lemma tied_put : cache_put opts e2 w1 = (inr CacheConflict, tied).
Proof. vm_compute. reflexivity. Qed.

Lemma w1_steps allowed replayed : allowed e2 → rtc (cache_step opts allowed replayed) w1 later.
Proof.
  intros H. apply (rtc_l _ _ (set_clock 11 w1)); [apply other_step, tick_elsewhere|].
  apply rtc_once, (put_step opts _ _ _ e2 _ _ H later_put).
Qed.

(** The tied put, and a rebuild that gives the head to it. *)
Definition rebuilt : World := (rebuild tied).2.
Lemma tied_rebuild : ∃ n, rebuild tied = (inr n, rebuilt).
Proof. eexists. vm_compute. reflexivity. Qed.
Lemma tied_steps : rtc (cache_step opts (own_provenance e1) any_time) w1 rebuilt.
Proof.
  apply (rtc_l _ _ tied); [by apply (put_step opts _ _ _ e2 _ _) with (2 := tied_put)|].
  destruct tied_rebuild as [n Hn]. by apply rtc_once, (rebuild_step opts _ _ _ _ _ I Hn).
Qed.

Lemma w1_ok : sound [] w1 ∧ folded w1.
Proof.
  split; [by apply (cache_put_spec opts e1 w0 _ w1 cache_w0_sound w1_put)|].
  exact (put_folded opts e1 w0 _ w1 cache_w0_sound w0_folded w1_put).
Qed.

Lemma w1_timely : timely w1.
Proof. by apply (put_timely opts e1 w0 CacheInserted w1 cache_w0_sound); [constructor|constructor|apply w1_put]. Qed.

Lemma w1_past : clock_past (set_clock 11 w1).
Proof.
  unfold clock_past. apply Forall_forall. intros row Hrow.
  assert (forallb (λ row, bool_decide (j_emittedAtMs row < 11)%Z) (cache_rows w1) = true) as Hb by (vm_compute; reflexivity).
  rewrite forallb_forall in Hb. exact (bool_decide_eq_true_1 _ (Hb row (proj1 (list_elem_of_In _ _) Hrow))).
Qed.

Lemma tick_sound : sound [] (set_clock 11 w1).
Proof. apply (el_sound _ _ (tick_elsewhere 11 w1)), w1_ok. Qed.

Lemma tick_folded : folded (set_clock 11 w1).
Proof. exact (proj2 w1_ok). Qed.

Lemma later_timely : timely later.
Proof. exact (put_timely opts e2 (set_clock 11 w1) CacheConflict later tick_sound w1_timely w1_past later_put). Qed.

Lemma later_sound : sound [] later.
Proof. exact (proj1 (timely_steps opts any_entry _ _ (w1_steps _ _ I) (proj1 w1_ok) (proj2 w1_ok))). Qed.

Definition spared : World := (cache_evict opts "k" (Some ("run-a", 3%Z)) later).2.
Lemma fenced_evict : cache_evict opts "k" (Some ("run-a", 3%Z)) later = (inr false, spared).
Proof. vm_compute. reflexivity. Qed.
End CacheDemo.

(** ** The properties on these runs *)

Lemma cache_is_fold_witness :
  (∃ m, rebuild CacheDemo.rebuilt = (inr m, CacheDemo.rebuilt)) ∧
  folded CacheDemo.later ∧ ∃ n, rebuild CacheDemo.later = (inr n, CacheDemo.later).
Proof.
  destruct (cache_is_fold CacheDemo.opts CacheDemo.w1 CacheDemo.tied (proj1 CacheDemo.w1_ok) (proj2 CacheDemo.w1_ok))
    as [Ht _].
  destruct (Ht (rtc_once _ _ (put_step _ _ _ _ CacheDemo.e2 _ _ I CacheDemo.tied_put))) as (_ & n & w2 & Hn & _ & _ & m & Hm).
  destruct (cache_is_fold CacheDemo.opts CacheDemo.w1 CacheDemo.later (proj1 CacheDemo.w1_ok) (proj2 CacheDemo.w1_ok))
    as [_ Hl]. destruct (Hl (CacheDemo.w1_steps _ _ I)) as [Hf Hr].
  split; [|split; [exact Hf|exact (Hr CacheDemo.later_timely)]].
  exists m. assert (w2 = CacheDemo.rebuilt) as <- by (unfold CacheDemo.rebuilt; rewrite Hn; reflexivity). exact Hm.
Defined.

Lemma recorded_is_permanent_witness :
  ∃ x, cache_get "k" (Some ("run-b", 0%Z)) CacheDemo.rebuilt = (inr (Some x), CacheDemo.rebuilt) ∧ same_entry CacheDemo.e1 x.
Proof.
  exact (recorded_is_permanent CacheDemo.opts CacheDemo.e1 CacheDemo.w0 CacheInserted CacheDemo.w1 CacheDemo.rebuilt
    CacheDemo.cache_w0_sound CacheDemo.w0_folded eq_refl CacheDemo.w1_put CacheDemo.tied_steps).
Defined.

Lemma put_decides_witness :
  (∃ out w', cache_put CacheDemo.opts CacheDemo.e2 (set_clock 11 CacheDemo.w1) = (inr out, w')
     ∧ put_means CacheDemo.e2 (set_clock 11 CacheDemo.w1) out w') ∧
  (cache_put CacheDemo.opts (CacheDemo.entry "run-a" 3 CacheDemo.reordered) CacheDemo.w1).1 = inr CacheExistingSame.
Proof.
  split; [|vm_compute; reflexivity].
  exact (put_decides CacheDemo.opts CacheDemo.e2 (set_clock 11 CacheDemo.w1) CacheDemo.tick_sound CacheDemo.tick_folded
    eq_refl eq_refl eq_refl).
Defined.

(** An eviction fenced on the other run's generation spares the head. *)
Lemma evict_names_generation_witness :
  db_heads (w_db CacheDemo.spared) = db_heads (w_db CacheDemo.later).
Proof.
  exact (proj1 (proj2 (evict_names_generation CacheDemo.opts "k" (Some ("run-a", 3%Z)) CacheDemo.later false CacheDemo.spared
    CacheDemo.later_sound CacheDemo.fenced_evict))).
Defined.

(** Two runs that write in one millisecond are replayed by the names of the runs, not in
    commit order: the rebuild gives the head to the entry that had lost it. *)
Theorem tied_rebuild_replaces_head :
  cache_put CacheDemo.opts CacheDemo.e2 CacheDemo.w1 = (inr CacheConflict, CacheDemo.tied) ∧
  db_heads (w_db CacheDemo.tied) !! "k" = Some (entry_row CacheDemo.e1) ∧
  db_heads (w_db (rebuild CacheDemo.tied).2) !! "k" = Some (entry_row CacheDemo.e2).
Proof. split_and!; vm_compute; reflexivity. Qed.

(** A provenance used twice.  The first entry is put and evicted, another one is put
    under the same provenance after the clock has gone back: the ledger keeps the first
    one until a rebuild replays the second before it. *)
Theorem reused_provenance_replaced :
  let first := CacheDemo.entry "run-a" 0 (JStr "first") in
  let second := CacheDemo.entry "run-a" 0 (JStr "second") in
  let evicted := (cache_evict CacheDemo.opts "k" None (CacheDemo.put first CacheDemo.w0)).2 in
  let w := CacheDemo.put second (set_clock 9 evicted) in
  let read (w : World) := ce_result <$> match (cache_get "k" (Some ("run-a", 0%Z)) w).1 with inr x => x | inl _ => None end in
  read w = Some (JStr "first") ∧ read (rebuild w).2 = Some (JStr "second").
Proof. split; vm_compute; reflexivity. Qed.
