(* ===== verification/CombinedCache.v ===== *)
(** * Two cache tiers ([step-cache/src/CombinedCacheStore.ts], [RemoteCacheStore.ts])

    A local and a shared store behind the interface of one: lookups fall back to the
    shared tier and write its answer back, puts are decided by the local tier, and
    evictions stay local.  The tiers are services over any state.  The shared tier is an
    HTTP server: the platform's client is a parameter. *)

From S2P Require Import Prelude Json Canonical CanonicalProps JsonTexts World Consensus ConsensusProps Journal JournalAppend RunLaws RunProps RunAnswers FoldProps Coherence UpkeepTheorems JournalRead JournalSound StepCache StepCacheProps StepCacheOps StepCacheTheorems StepCacheDemo.
#[local] Open Scope me_scope.

(** [CacheStore.Service]. *)
Record CacheService (S : Type) := mkCacheService {
  svc_get : string → option Provenance → ME S error (option CacheEntry);
  svc_put : CacheEntry → ME S error PutResult;
  svc_evict : string → option Provenance → ME S error bool
}.
#[global] Arguments svc_get {S}.
#[global] Arguments svc_put {S}.
#[global] Arguments svc_evict {S}.

Section Combined.
Context {S : Type} (local remote : CacheService S) (deferred : bool).

Definition combined_get (keyDigest : string) (options : option Provenance) : ME S error (option CacheEntry) :=
  cached <- svc_get local keyDigest options ;;
  match cached with
  | Some _ => ret cached
  | None =>
      shared <- svc_get remote keyDigest options ;;
      match shared with
      | None => ret None
      | Some value =>
          written <- svc_put local value ;;
          if bool_decide (written = CacheInserted) then ret shared
          else
            durable <- svc_get local keyDigest None ;;
            ret (match durable with Some _ => durable | None => shared end)
      end
  end.

Definition combined_put (entry : CacheEntry) : ME S error PutResult :=
  outcome <- svc_put local entry ;;
  if bool_decide (outcome = CacheConflict) then ret outcome
  else
    (if deferred then ret tt else svc_put remote entry ;; ret tt) ;;
    ret outcome.

Definition combined_evict (keyDigest : string) (options : option Provenance) : ME S error bool :=
  svc_evict local keyDigest options.

Definition combined : CacheService S := mkCacheService S combined_get combined_put combined_evict.
End Combined.

(** ** The shared tier

    A request names its key, which its URL encodes as [/ac/{key}] beneath the endpoint,
    and the fence in its parameters; the credentials are fixed at construction. *)

Inductive HttpRequest :=
| HttpGet (keyDigest : string) (recordedBy : option Provenance)
| HttpPut (keyDigest : string) (body : string)
| HttpDelete (keyDigest : string) (ifRecordedBy : option Provenance).

(** [resp_json] is what [response.json] answers, [None] when the body is not JSON. *)
Record HttpResponse := mkHttpResponse { resp_status : Z; resp_json : option json }.

Definition isOk (status : Z) : bool := bool_decide (200 ≤ status)%Z && bool_decide (status < 300)%Z.

Section Remote.
Context {R : Type} (execute : HttpRequest → R → option HttpResponse * R).

Definition send (request : HttpRequest) : ME R error HttpResponse := λ r,
  match execute request r with
  | (Some response, r') => (inr response, r')
  | (None, r') => (inl (cache_error "persistence_failed"), r')
  end.

Definition unexpectedStatus {A} : ME R error A := fail (cache_error "persistence_failed").

Definition remote_get (keyDigest : string) (recordedBy : option Provenance) : ME R error (option CacheEntry) :=
  validateKey keyDigest ;;
  validateFence recordedBy ;;
  response <- send (HttpGet keyDigest recordedBy) ;;
  if bool_decide (resp_status response = 404)%Z then ret None
  else if negb (isOk (resp_status response)) then unexpectedStatus
  else match resp_json response with
       | None => fail (cache_error "persistence_failed")
       | Some body =>
           match decodeEntry body with
           | None => fail (cache_error "decode_failed")
           | Some entry =>
               if negb (bool_decide (ce_keyDigest entry = keyDigest)) then fail (cache_error "decode_failed")
               else ret (Some entry)
           end
       end.

Definition remote_put (entry : CacheEntry) : ME R error PutResult :=
  (if entry_valid entry then ret tt else fail (cache_error "invalid_cache")) ;;
  encodeCanonical (ce_result entry) ;;
  encodeCanonical (ce_meta entry) ;;
  body <- encodeCanonical (entry_payload entry) ;;
  response <- send (HttpPut (ce_keyDigest entry) body) ;;
  if bool_decide (resp_status response = 409)%Z then ret CacheConflict
  else if negb (isOk (resp_status response)) then unexpectedStatus
  else ret (if bool_decide (resp_status response = 201)%Z then CacheInserted else CacheExistingSame).

Definition remote_evict (keyDigest : string) (ifRecordedBy : option Provenance) : ME R error bool :=
  validateKey keyDigest ;;
  validateFence ifRecordedBy ;;
  response <- send (HttpDelete keyDigest ifRecordedBy) ;;
  if bool_decide (resp_status response = 404)%Z then ret false
  else if negb (isOk (resp_status response)) then unexpectedStatus
  else ret true.

Definition remote_service : CacheService R := mkCacheService R remote_get remote_put remote_evict.

(** An answer of the shared tier is about the key it was asked for, whatever the server
    sends, and an entry of the schema. *)
Lemma remote_answers k o r x r' : remote_get k o r = (inr (Some x), r') → ce_keyDigest x = k ∧ entry_valid x = true.
Proof.
  unfold remote_get, unexpectedStatus. intros H. inv_ok H.
  split; [|by eapply decodeEntry_valid]. by apply negb_false_iff, bool_decide_eq_true in Hx3.
Qed.

(** Nothing is sent for an empty key, nor for an invalid entry. *)
Lemma remote_preflight k o e r :
  (nonempty k = false → remote_get k o r = (inl (cache_error "invalid_cache"), r)
     ∧ remote_evict k o r = (inl (cache_error "invalid_cache"), r)) ∧
  (entry_valid e = false → remote_put e r = (inl (cache_error "invalid_cache"), r)).
Proof.
  unfold remote_get, remote_evict, remote_put, validateKey. split; [|by intros ->]. by intros ->.
Qed.
End Remote.

(** ** Tiers with states of their own *)

Definition on_local {W R A} (m : ME W error A) : ME (W * R) error A :=
  λ s, let '(r, w) := m s.1 in (r, (w, s.2)).
Definition on_remote {W R A} (m : ME R error A) : ME (W * R) error A :=
  λ s, let '(r, x) := m s.2 in (r, (s.1, x)).

Definition local_tier {W R} (s : CacheService W) : CacheService (W * R) :=
  mkCacheService _ (λ k o, on_local (svc_get s k o)) (λ e, on_local (svc_put s e)) (λ k o, on_local (svc_evict s k o)).
Definition remote_tier {W R} (s : CacheService R) : CacheService (W * R) :=
  mkCacheService _ (λ k o, on_remote (svc_get s k o)) (λ e, on_remote (svc_put s e)) (λ k o, on_remote (svc_evict s k o)).

Section tiers.
Context {J : JsonText} {CJ : CanonicalJson} {C : Consensus} {L : ConsensusLaws C} (opts : ValidatedOptions).
Context {R : Type} (shared : CacheService R) (deferred : bool).

Definition sql_tier : CacheService World := mkCacheService World cache_get (cache_put opts) (cache_evict opts).

Definition tiers : CacheService (World * R) := combined (local_tier sql_tier) (remote_tier shared) deferred.

(** The shared tier never learns of a conflict: it is asked to store an entry only when the
    local tier accepted it, and never when the caller publishes itself. *)
Definition published e w : bool :=
  match (cache_put opts e w).1 with inr CacheConflict | inl _ => false | inr _ => negb deferred end.

Theorem only_agreed_puts_are_published e w r out w' r' :
  svc_put tiers e (w, r) = (out, (w', r')) →
  w' = (cache_put opts e w).2 ∧ r' = (if published e w then (svc_put shared e r).2 else r).
Proof.
  cbn. unfold combined_put, published, bind, ret. cbn. unfold on_local, on_remote. cbn.
  destruct (cache_put opts e w) as [[err|o] w1]; cbn; [by intros [= _ <- <-]|].
  case_bool_decide as Ho; [subst; by intros [= _ <- <-]|].
  assert (match o with CacheConflict => false | _ => negb deferred end = negb deferred) as -> by by destruct o.
  destruct deferred; cbn; [by intros [= _ <- <-]|].
  destruct (svc_put shared e r) as [[err|x] r1]; cbn; by intros [= _ <- <-].
Qed.

Theorem evictions_stay_local k o w r out w' r' :
  svc_evict tiers k o (w, r) = (out, (w', r')) → (out, w') = cache_evict opts k o w ∧ r' = r.
Proof.
  cbn. unfold combined_evict. cbn. unfold on_local. cbn. destruct (cache_evict opts k o w) as [x w1].
  intros H. simplify_eq/=. done.
Qed.

(** What the interface promises of a shared tier, and [remote_answers] gives of the HTTP one. *)
Definition answers_key : Prop := ∀ k o r x r', svc_get shared k o r = (inr (Some x), r') → ce_keyDigest x = k ∧ entry_valid x = true.

Lemma cache_get_state k o w res w' : cache_get k o w = (res, w') → w' = w.
Proof.
  assert (preserves (eq w) (cache_get k o)) as Hp.
  { unfold cache_get, validateKey, get_head, get_recorded.
    assert (∀ row, preserves (eq w) (decode_row row)) as Hd by (intros row; unfold decode_row; solve_preserves).
    solve_preserves. }
  intros H. specialize (Hp w eq_refl). by rewrite H in Hp.
Qed.

Lemma cache_get_head k w x w' :
  folded w → cache_get k None w = (inr (Some x), w') → ∃ e, db_heads (w_db w) !! k = Some (entry_row e) ∧ same_entry e x.
Proof.
  intros (s & Hf & Hh & _) H. destruct (folded_keyed _ s Hf) as [Hk _]. unfold cache_get, validateKey in H.
  destruct (nonempty k); [|done]. cbn in H. rewrite Hh, heads_of_lookup in H |- *.
  destruct (s.1 !! k) as [e|] eqn:E; cbn in H; [|done]. exists e. split; [done|].
  destruct (Hk _ _ E) as [_ He]. destruct (decode_entry_row e w He) as (x' & Hx' & Hsame).
  unfold bind in H. rewrite Hx' in H. by injection H as <- _.
Qed.

(** A lookup leaves its answer in the local tier: when the head answered or was written
    back, it holds the entry the caller was given, so the next lookup is local and a
    fenced eviction names the right generation. *)
Theorem answers_are_durable k w r x w' r' :
  sound [] w → folded w → answers_key →
  svc_get tiers k None (w, r) = (inr (Some x), (w', r')) →
  folded w' ∧ ∃ e, db_heads (w_db w') !! k = Some (entry_row e) ∧ (x = e ∨ same_entry e x).
Proof.
  intros Hs Hf Hans H. cbn in H. unfold combined_get in H. cbn [svc_get svc_put local_tier remote_tier sql_tier] in H.
  apply bind_inr in H as (cached & [w1 r1] & Hc & H). unfold on_local in Hc. cbn [fst snd] in Hc.
  destruct (cache_get k None w) as [res w2] eqn:Hg. injection Hc as -> -> <-.
  pose proof (cache_get_state _ _ _ _ _ Hg) as ->. destruct cached as [c|].
  - apply ret_inr in H as [[= ->] [= <- <-]]. split; [done|].
    destruct (cache_get_head _ _ _ _ Hf Hg) as (e & He & Hsame). exists e. by auto.
  - apply bind_inr in H as (sh & [w1 r1] & Hr & H). unfold on_remote in Hr. cbn [fst snd] in Hr.
    destruct (svc_get shared k None r) as [res r2] eqn:Hrg. injection Hr as -> <- <-.
    destruct sh as [v|]; [|by apply ret_inr in H as [? _]]. destruct (Hans _ _ _ _ _ Hrg) as [Hvk Hvv].
    apply bind_inr in H as (out & [w1 r1] & Hp & H). unfold on_local in Hp. cbn [fst snd] in Hp.
    destruct (cache_put opts v w) as [res w2] eqn:Hput. injection Hp as -> <- <-.
    pose proof (put_folded opts v w out w2 Hs Hf Hput) as Hf2.
    destruct (cache_put_spec opts v w _ w2 Hs Hput) as (Hs2 & _ & Ha & [E1 _ _]).
    case_bool_decide as Hout.
    + apply ret_inr in H as [[= ->] [= <- <-]]. split; [done|]. exists v. split; [|by left].
      rewrite E1. unfold put_answer in Ha. rewrite Hvk in *. destruct (db_heads (w_db w) !! k) eqn:Ek.
      * exfalso. rewrite Ha in Hout. by case_match.
      * by apply insert_new_there.
    + apply bind_inr in H as (dur & [w3 r3] & Hd & H). unfold on_local in Hd. cbn [fst snd] in Hd.
      destruct (cache_get k None w2) as [res w4] eqn:Hg2. injection Hd as -> -> <-.
      pose proof (cache_get_state _ _ _ _ _ Hg2) as ->. apply ret_inr in H as [Hx [= <- <-]]. split; [done|].
      destruct dur as [d|].
      * injection Hx as ->. destruct (cache_get_head _ _ _ _ Hf2 Hg2) as (e & He & Hsame). exists e. by auto.
      * exfalso. (* the put did not insert, so the head was there *)
        unfold put_answer in Ha. rewrite Hvk in *. destruct (db_heads (w_db w) !! k) as [row|] eqn:Ek; [|done].
        rewrite (insert_new_present _ _ row) in E1 by done.
        destruct Hf2 as (s & Hfs & Hh & _). unfold cache_get, validateKey in Hg2.
        destruct (nonempty k); [|done]. cbn in Hg2. rewrite E1, Ek in Hg2. cbn in Hg2. unfold bind in Hg2.
        repeat case_match; simplify_eq.
Qed.
End tiers.
