(* ===== verification/TriggerStore.v ===== *)
(** * The trigger store ([triggers/src/SqlTriggerStore.ts], [Overlap.ts], [Trigger.ts])

    Declarations of scheduled flows and the claims of their occurrences.  Schedulers of
    several processes claim occurrences through one database: a claim is one write
    transaction, it records the occurrence in [flows_trigger_fires] and, when the
    occurrence is to run, reserves the trigger until its run is known or a lease is over.
    A failure of the store is one error, whose cause the model leaves out. *)

From S2P Require Export Prelude Json.
#[local] Open Scope me_scope.

(** ** Declarations ([Schedule.ts], [Trigger.ts]) *)

Inductive Overlap := OverlapSkip | BufferOne | OverlapSupersede.
Inductive CatchUp := CatchUpNone | CatchUpOne | CatchUpAll.

#[export] Instance Overlap_eq_dec : EqDecision Overlap.
Proof. solve_decision. Defined.
#[export] Instance CatchUp_eq_dec : EqDecision CatchUp.
Proof. solve_decision. Defined.

Record Trigger := MkTrigger {
  tg_id : string;
  tg_flowId : string;
  tg_input : json;
  tg_cron : string;
  tg_timezone : option string;
  tg_overlap : Overlap;
  tg_catchUp : CatchUp;
  tg_maxCatchUp : Z;
  tg_enabled : bool
}.

(** A stored trigger, with its revision and its last occurrence. *)
Record Registered := MkRegistered { rg_trigger : Trigger; rg_revision : Z; rg_lastFiredAt : option Z }.

(** ** Overlap decisions ([Overlap.ts]) *)

Record OverlapState := MkOverlapState { os_running : bool; os_pending : option Z; os_due : Z }.
Inductive Action := Fire | Skip | Buffer | Supersede.

#[export] Instance Action_eq_dec : EqDecision Action.
Proof. solve_decision. Defined.

Definition decide_overlap (policy : Overlap) (state : OverlapState) : Action :=
  if negb (os_running state) then Fire
  else match policy with
       | OverlapSkip => Skip
       | BufferOne => Buffer
       | OverlapSupersede => Supersede
       end.

(** [Math.max(state.pending ?? Number.NEGATIVE_INFINITY, state.due)]. *)
Definition pendingAfter (state : OverlapState) : Z :=
  match os_pending state with Some p => Z.max p (os_due state) | None => os_due state end.

(** ** The tables ([migrations/0001_triggers.ts], [0002_reservation_lease.ts]) *)

Record TriggerRow := MkTriggerRow {
  tr_flowId : string;
  tr_inputJson : string;
  tr_cron : string;
  tr_timezone : option string;
  tr_overlap : Overlap;
  tr_catchUp : CatchUp;
  tr_maxCatchUp : Z;
  tr_enabled : bool;
  tr_revision : Z;
  tr_lastFiredAtMs : option Z;
  tr_pendingAtMs : option Z;
  tr_activeRunId : option string;
  tr_activeClaimedAtMs : option Z
}.

(** The outcomes a fire row can show; [NULL] while the occurrence is claimed. *)
Inductive FireOutcome := Launched | FireCompleted | Skipped | Buffered | Superseded | FireFailed.

#[export] Instance FireOutcome_eq_dec : EqDecision FireOutcome.
Proof. solve_decision. Defined.

Record FireRow := MkFireRow { fr_outcome : option FireOutcome; fr_runId : option string; fr_error : option string }.

Record TriggerDb := MkTriggerDb {
  td_triggers : gmap string TriggerRow;
  td_fires : gmap (string * Z) FireRow (* key [(trigger_id, occurrence_at_ms)] *)
}.

Record TriggerWorld := MkTriggerWorld { tw_db : TriggerDb; tw_clock : Z }.

(** [TriggerError] by its code. *)
Inductive TriggerErrorCode :=
  UnknownTrigger | InvalidSchedule | InvalidTrigger | InvalidCron | VerificationFailed | CatchUpBoundExceeded | StoreFailed.

Definition T : Type → Type := ME TriggerWorld TriggerErrorCode.

Definition set_triggers (f : gmap string TriggerRow → gmap string TriggerRow) (w : TriggerWorld) : TriggerWorld :=
  MkTriggerWorld (MkTriggerDb (f (td_triggers (tw_db w))) (td_fires (tw_db w))) (tw_clock w).
Definition set_fires (f : gmap (string * Z) FireRow → gmap (string * Z) FireRow) (w : TriggerWorld) : TriggerWorld :=
  MkTriggerWorld (MkTriggerDb (td_triggers (tw_db w)) (f (td_fires (tw_db w)))) (tw_clock w).

(** [writer.write]: the tables of a failed transaction are as before. *)
Definition trigger_write {A} (body : T A) : T A := λ w,
  match body w with
  | (inl e, w') => (inl e, MkTriggerWorld (tw_db w) (tw_clock w'))
  | r => r
  end.

(** *** Statements *)

Definition get_trigger (triggerId : string) : T (option TriggerRow) := gets (λ w, td_triggers (tw_db w) !! triggerId).
Definition get_fire (triggerId : string) (occurrence : Z) : T (option FireRow) :=
  gets (λ w, td_fires (tw_db w) !! (triggerId, occurrence)).

(** [UPDATE ... WHERE trigger_id = ?], and the same for a fire. *)
Definition update_trigger (triggerId : string) (f : TriggerRow → TriggerRow) : T () :=
  modify (set_triggers (alter f triggerId)).
Definition update_fire (triggerId : string) (occurrence : Z) (f : FireRow → FireRow) : T () :=
  modify (set_fires (alter f (triggerId, occurrence))).

Definition with_active (runId : option string) (claimedAt : option Z) (row : TriggerRow) : TriggerRow :=
  MkTriggerRow (tr_flowId row) (tr_inputJson row) (tr_cron row) (tr_timezone row) (tr_overlap row) (tr_catchUp row)
    (tr_maxCatchUp row) (tr_enabled row) (tr_revision row) (tr_lastFiredAtMs row) (tr_pendingAtMs row) runId claimedAt.
Definition with_last_fired (occurrence : Z) (row : TriggerRow) : TriggerRow :=
  MkTriggerRow (tr_flowId row) (tr_inputJson row) (tr_cron row) (tr_timezone row) (tr_overlap row) (tr_catchUp row)
    (tr_maxCatchUp row) (tr_enabled row) (tr_revision row) (Some occurrence) (tr_pendingAtMs row) (tr_activeRunId row)
    (tr_activeClaimedAtMs row).
Definition with_pending (pending : option Z) (row : TriggerRow) : TriggerRow :=
  MkTriggerRow (tr_flowId row) (tr_inputJson row) (tr_cron row) (tr_timezone row) (tr_overlap row) (tr_catchUp row)
    (tr_maxCatchUp row) (tr_enabled row) (tr_revision row) (tr_lastFiredAtMs row) pending (tr_activeRunId row)
    (tr_activeClaimedAtMs row).

(** [CASE WHEN pending_at_ms IS NULL OR pending_at_ms < ? THEN ? ELSE pending_at_ms END]. *)
Definition later_pending (occurrence : Z) (row : TriggerRow) : TriggerRow :=
  with_pending (match tr_pendingAtMs row with
                | Some p => if bool_decide (p < occurrence)%Z then Some occurrence else Some p
                | None => Some occurrence
                end) row.

(** ... [AND active_run_id = ?]: NULL equals nothing. *)
Definition clear_active_if (runId : option string) (row : TriggerRow) : TriggerRow :=
  match runId, tr_activeRunId row with
  | Some r, Some a => if bool_decide (a = r) then with_active None None row else row
  | _, _ => row
  end.

(** ** The service *)

Definition reservationLeaseMs : Z := 5 * 60 * 1000.

Definition reservation_prefix : string := "trigger-reservation:".
Definition reservation_id (triggerId : string) (occurrence : Z) : string :=
  reservation_prefix +:+ triggerId +:+ ":" +:+ pretty occurrence.
Definition is_reservation (runId : string) : bool := starts_with reservation_prefix runId.

Record Claimed := MkClaimed {
  cl_action : Action;
  cl_reservationId : option string;
  cl_activeRunId : option string
}.

Section TriggerStore.
Context {J : JsonText}.

(** [JSON.parse] of a stored input that is not JSON throws. *)
Definition decode_trigger (id : string) (row : TriggerRow) : T Registered :=
  match parse (tr_inputJson row) with
  | Some input =>
      ret (MkRegistered (MkTrigger id (tr_flowId row) input (tr_cron row) (tr_timezone row) (tr_overlap row)
                           (tr_catchUp row) (tr_maxCatchUp row) (tr_enabled row))
             (tr_revision row) (tr_lastFiredAtMs row))
  | None => fail StoreFailed
  end.

Definition trigger_get (triggerId : string) : T (option Registered) :=
  row <- get_trigger triggerId ;;
  match row with
  | None => ret None
  | Some row => r <- decode_trigger triggerId row ;; ret (Some r)
  end.

(** [INSERT ... ON CONFLICT (trigger_id) DO UPDATE SET ...], with the CHECK constraint on
    [max_catch_up]. *)
Definition upsert_trigger (t : Trigger) : T () :=
  if bool_decide (tg_maxCatchUp t < 0)%Z then fail StoreFailed
  else modify (set_triggers (λ m, <[tg_id t :=
    match m !! tg_id t with
    | None =>
        MkTriggerRow (tg_flowId t) (stringify (tg_input t)) (tg_cron t) (tg_timezone t) (tg_overlap t) (tg_catchUp t)
          (tg_maxCatchUp t) (tg_enabled t) 1 None None None None
    | Some row =>
        MkTriggerRow (tg_flowId t) (stringify (tg_input t)) (tg_cron t) (tg_timezone t) (tg_overlap t) (tg_catchUp t)
          (tg_maxCatchUp t) (tg_enabled t) (tr_revision row + 1) (tr_lastFiredAtMs row) (tr_pendingAtMs row)
          (tr_activeRunId row) (tr_activeClaimedAtMs row)
    end]> m)).

Definition register (t : Trigger) : T Registered :=
  trigger_write (
    upsert_trigger t ;;
    registered <- trigger_get (tg_id t) ;;
    match registered with Some r => ret r | None => fail StoreFailed end).

(** [ORDER BY trigger_id]. *)
Definition id_le (a b : string * TriggerRow) : Prop := String.leb (fst a) (fst b) = true.
#[local] Instance id_le_dec : RelDecision id_le.
Proof. intros a b. unfold id_le. apply _. Defined.

Definition ordered_rows (w : TriggerWorld) : list (string * TriggerRow) :=
  merge_sort id_le (map_to_list (td_triggers (tw_db w))).

Definition trigger_list : T (list Registered) :=
  rows <- gets ordered_rows ;;
  for_each (λ kv : string * TriggerRow, decode_trigger kv.1 kv.2) rows.

(** [WHERE enabled = 1 ORDER BY trigger_id]; the time is not looked at. *)
Definition due : T (list Registered) :=
  rows <- gets ordered_rows ;;
  for_each (λ kv : string * TriggerRow, decode_trigger kv.1 kv.2)
    (List.filter (λ kv : string * TriggerRow, tr_enabled kv.2) rows).

(** A reservation that was claimed a lease ago or earlier. *)
Definition reservation_expired (row : TriggerRow) (now : Z) : bool :=
  match tr_activeRunId row, tr_activeClaimedAtMs row with
  | Some a, Some c => is_reservation a && bool_decide (c ≤ now - reservationLeaseMs)%Z
  | _, _ => false
  end.

(** Whether an occurrence that has a row may be claimed again. *)
Definition resumable (resumeBuffered : bool) (outcome : option FireOutcome) (row : TriggerRow) (expired : bool)
    (reservationId : string) : bool :=
  resumeBuffered && bool_decide (outcome = Some Buffered)
  || is_null outcome
     && match tr_activeRunId row with
        | None => true
        | Some a => bool_decide (a = reservationId) && expired
        end.

(** [claimFire]; [None] is [claimed: false]. *)
Definition claimFire (triggerId : string) (occurrence : Z) (overlap : Overlap) (resumeBuffered : bool) : T (option Claimed) :=
  claimedAt <- gets tw_clock ;;
  trigger_write (
    fire <- get_fire triggerId occurrence ;;
    (match fire with
     | None => modify (set_fires (<[(triggerId, occurrence) := MkFireRow None None None]>))
     | Some _ => ret tt
     end) ;;
    row <- get_trigger triggerId ;;
    match row with
    | None => fail StoreFailed
    | Some row =>
        let reservationId := reservation_id triggerId occurrence in
        let expired := reservation_expired row claimedAt in
        if match fire with
           | None => false
           | Some f => negb (resumable resumeBuffered (fr_outcome f) row expired reservationId)
           end
        then ret None
        else
          (if expired then update_trigger triggerId (clear_active_if (tr_activeRunId row)) else ret tt) ;;
          let activeRunId := if expired then None else tr_activeRunId row in
          let action := decide_overlap overlap (MkOverlapState (negb (is_null activeRunId)) None occurrence) in
          match action with
          | Skip =>
              update_fire triggerId occurrence (λ f, MkFireRow (Some Skipped) (fr_runId f) (fr_error f)) ;;
              update_trigger triggerId (with_last_fired occurrence) ;;
              ret (Some (MkClaimed Skip None None))
          | Buffer =>
              update_fire triggerId occurrence (λ f, MkFireRow (Some Buffered) (fr_runId f) (fr_error f)) ;;
              update_trigger triggerId (λ r, later_pending occurrence (with_last_fired occurrence r)) ;;
              ret (Some (MkClaimed Buffer None None))
          | Fire | Supersede =>
              update_trigger triggerId (with_active (Some reservationId) (Some claimedAt)) ;;
              ret (Some (MkClaimed action (Some reservationId) activeRunId))
          end
    end).

(** [CASE WHEN ? IS NULL OR active_run_id = ? THEN NULL ELSE active_run_id END]. *)
Definition release_active (runId : option string) (row : TriggerRow) : TriggerRow :=
  match runId with
  | None => with_active None None row
  | Some _ => clear_active_if runId row
  end.

Definition recordResult (triggerId : string) (occurrence : Z) (outcome : FireOutcome) (runId error : option string) : T () :=
  trigger_write (
    update_fire triggerId occurrence (λ _, MkFireRow (Some outcome) runId error) ;;
    match outcome with
    | Launched => update_trigger triggerId (λ r, with_active runId None (with_last_fired occurrence r))
    | FireCompleted | FireFailed | Superseded =>
        update_trigger triggerId (λ r, release_active runId (with_last_fired occurrence r))
    | Skipped | Buffered =>
        update_trigger triggerId (λ r, clear_active_if (Some (reservation_id triggerId occurrence)) (with_last_fired occurrence r))
    end).

Definition setPending (triggerId : string) (occurrence : Z) : T () :=
  trigger_write (update_trigger triggerId (later_pending occurrence)).

Definition takePending (triggerId : string) : T (option Z) :=
  trigger_write (
    row <- get_trigger triggerId ;;
    update_trigger triggerId (with_pending None) ;;
    ret (match row with Some r => tr_pendingAtMs r | None => None end)).

Definition activeRun (triggerId : string) : T (option string) :=
  now <- gets tw_clock ;;
  trigger_write (
    row <- get_trigger triggerId ;;
    match row with
    | None => ret None
    | Some row =>
        match tr_activeRunId row with
        | None => ret None
        | Some a =>
            if reservation_expired row now
            then update_trigger triggerId (clear_active_if (Some a)) ;; ret None
            else ret (Some a)
        end
    end).

Definition clearActive (triggerId runId : string) : T () :=
  trigger_write (update_trigger triggerId (clear_active_if (Some runId))).
End TriggerStore.
