(* ===== verification/TriggerTheorems.v ===== *)
(** * The theorems of the trigger store

    First each operation in one equation, then what a sequence of operations keeps. *)

From S2P Require Import Prelude Json JsonTexts TriggerStore.

#[local] Open Scope me_scope.

Implicit Types (w : TriggerWorld).

Section trigger_laws.
Context {J : JsonText}.

(** ** Running the statements *)

Lemma trigger_write_ok {A} (body : T A) w a w' : body w = (inr a, w') → trigger_write body w = (inr a, w').
Proof. unfold trigger_write. by intros ->. Qed.

(** The state of one trigger and of one fire after an update. *)
Lemma update_trigger_lookup t f w t' :
  td_triggers (tw_db (update_trigger t f w).2) !! t' =
  if bool_decide (t' = t) then f <$> td_triggers (tw_db w) !! t' else td_triggers (tw_db w) !! t'.
Proof.
  cbn. case_bool_decide as E; [subst; by rewrite lookup_alter_eq|]. by rewrite lookup_alter_ne.
Qed.

(** *** A claim *)

(** The claim a known trigger answers, given the occurrence's row, if it has one. *)
Definition claim_answer (t : string) (o : Z) (ov : Overlap) (rb : bool) (now : Z) (row : TriggerRow) (fire : option FireRow)
    : option Claimed :=
  let expired := reservation_expired row now in
  let active := if expired then None else tr_activeRunId row in
  if match fire with None => false | Some f => negb (resumable rb (fr_outcome f) row expired (reservation_id t o)) end
  then None
  else match active, ov with
       | None, _ => Some (MkClaimed Fire (Some (reservation_id t o)) None)
       | Some a, OverlapSkip => Some (MkClaimed Skip None None)
       | Some a, BufferOne => Some (MkClaimed Buffer None None)
       | Some a, OverlapSupersede => Some (MkClaimed Supersede (Some (reservation_id t o)) (Some a))
       end.

(** The rows after an answer. *)
Definition claimed_row (t : string) (o now : Z) (row : TriggerRow) (answer : option Claimed) : TriggerRow :=
  match cl_action <$> answer with
  | None => row
  | Some Skip => with_last_fired o row
  | Some Buffer => later_pending o (with_last_fired o row)
  | Some _ => with_active (Some (reservation_id t o)) (Some now) row
  end.

Definition claimed_fire (fire : option FireRow) (answer : option Claimed) : FireRow :=
  let f := default (MkFireRow None None None) fire in
  match cl_action <$> answer with
  | Some Skip => MkFireRow (Some Skipped) (fr_runId f) (fr_error f)
  | Some Buffer => MkFireRow (Some Buffered) (fr_runId f) (fr_error f)
  | _ => f
  end.

Lemma clear_active_expired row now r :
  reservation_expired row now = true → with_active r (Some now) (clear_active_if (tr_activeRunId row) row) = with_active r (Some now) row.
Proof.
  unfold reservation_expired, clear_active_if. destruct (tr_activeRunId row) as [a|]; [|done].
  by rewrite bool_decide_eq_true_2 by done.
Qed.

Lemma alter_insert `{Countable K} {A} (f : A → A) (k : K) (x : A) (m : gmap K A) :
  alter f k (<[k := x]> m) = <[k := f x]> m.
Proof.
  apply map_eq. intros j. destruct (decide (j = k)) as [->|Hj].
  - by rewrite lookup_alter_eq, !lookup_insert_eq.
  - by rewrite lookup_alter_ne, !lookup_insert_ne.
Qed.

Lemma alter_present `{Countable K} {A} (f : A → A) (k : K) (x : A) (m : gmap K A) :
  m !! k = Some x → alter f k m = <[k := f x]> m.
Proof.
  intros Hx. apply map_eq. intros j. destruct (decide (j = k)) as [->|Hj].
  - by rewrite lookup_alter_eq, lookup_insert_eq, Hx.
  - by rewrite lookup_alter_ne, lookup_insert_ne.
Qed.

Lemma insert_present `{Countable K} {A} (k : K) (x : A) (m : gmap K A) : m !! k = Some x → <[k := x]> m = m.
Proof. apply insert_id. Qed.

(** [claimFire], in one equation. *)
Lemma claimFire_run t o ov rb w :
  claimFire t o ov rb w =
  match td_triggers (tw_db w) !! t with
  | None => (inl StoreFailed, w)
  | Some row =>
      let fire := td_fires (tw_db w) !! (t, o) in
      let answer := claim_answer t o ov rb (tw_clock w) row fire in
      (inr answer,
       MkTriggerWorld (MkTriggerDb (<[t := claimed_row t o (tw_clock w) row answer]> (td_triggers (tw_db w)))
                                   (<[(t, o) := claimed_fire fire answer]> (td_fires (tw_db w)))) (tw_clock w))
  end.
Proof.
  destruct w as [[trs fs] clk]. unfold claimFire. step. unfold trigger_write, get_fire. cbn [tw_clock].
  erewrite bind_run; [|reflexivity]. cbn [tw_db td_fires td_triggers].
  set (fs' := match fs !! (t, o) with None => <[(t, o) := MkFireRow None None None]> fs | Some _ => fs end).
  assert (fs' !! (t, o) = Some (default (MkFireRow None None None) (fs !! (t, o)))) as Hf.
  { unfold fs'. destruct (fs !! (t, o)) eqn:E; [by rewrite E|by rewrite lookup_insert_eq]. }
  assert (∀ x, <[(t, o) := x]> fs' = <[(t, o) := x]> fs) as Hins.
  { intros x. unfold fs'. destruct (fs !! (t, o)); [done|]. by rewrite insert_insert_eq. }
  assert ((match fs !! (t, o) with None => modify (set_fires (<[(t, o) := MkFireRow None None None]>)) | Some _ => ret tt end : T ())
            (MkTriggerWorld (MkTriggerDb trs fs) clk) = (inr tt, MkTriggerWorld (MkTriggerDb trs fs') clk)) as Hstart
    by (unfold fs'; by destruct (fs !! (t, o))).
  step_by Hstart. clear Hstart. unfold get_trigger. step. cbn [tw_db td_triggers].
  destruct (trs !! t) as [row|] eqn:Er; [|done]. cbn zeta. unfold claim_answer.
  set (blocked := match fs !! (t, o) with None => false | Some f => _ end). destruct blocked eqn:Hb.
  { unfold ret. unfold claimed_row, claimed_fire. cbn [fmap option_fmap option_map]. rewrite insert_present by done.
    rewrite <-Hins. by rewrite insert_present. }
  destruct (reservation_expired row clk) eqn:He.
  - unfold update_trigger, set_triggers. step. cbn [tw_db td_triggers td_fires tw_clock]. cbn.
    unfold bind, modify, ret, set_triggers. cbn. unfold claimed_row, claimed_fire. cbn.
    rewrite (alter_present _ _ _ _ Er), alter_insert. rewrite clear_active_expired by done.
    rewrite <-(Hins (default _ _)). by rewrite (insert_present _ _ _ Hf).
  - erewrite bind_run; [|reflexivity]. unfold decide_overlap. cbn [os_running].
    destruct (tr_activeRunId row) as [a|] eqn:Ea; cbn [is_null negb]; [destruct ov|];
      unfold bind, modify, ret, update_trigger, update_fire, set_triggers, set_fires, claimed_row, claimed_fire; cbn;
      rewrite ?(alter_present _ _ _ _ Hf), ?(alter_present _ _ _ _ Er), ?Hins; try done;
      rewrite <-(Hins (default _ _)); by rewrite (insert_present _ _ _ Hf).
Qed.

(** ** Registration *)

(** The row a registration leaves: the declaration, a new revision, and what the row
    knew of its runs. *)
Definition registered_row (x : Trigger) (row : option TriggerRow) : TriggerRow :=
  match row with
  | None =>
      MkTriggerRow (tg_flowId x) (stringify (tg_input x)) (tg_cron x) (tg_timezone x) (tg_overlap x) (tg_catchUp x)
        (tg_maxCatchUp x) (tg_enabled x) 1 None None None None
  | Some row =>
      MkTriggerRow (tg_flowId x) (stringify (tg_input x)) (tg_cron x) (tg_timezone x) (tg_overlap x) (tg_catchUp x)
        (tg_maxCatchUp x) (tg_enabled x) (tr_revision row + 1) (tr_lastFiredAtMs row) (tr_pendingAtMs row)
        (tr_activeRunId row) (tr_activeClaimedAtMs row)
  end.

Lemma get_registered x row w :
  td_triggers (tw_db w) !! tg_id x = Some (registered_row x row) →
  trigger_get (tg_id x) w =
    (inr (Some (MkRegistered x (match row with None => 1 | Some r => tr_revision r + 1 end) (row ≫= tr_lastFiredAtMs))), w).
Proof.
  intros Hr. unfold trigger_get, get_trigger. step. rewrite Hr. unfold decode_trigger, bind, ret.
  destruct row, x; cbn; by rewrite parse_stringify.
Qed.

Lemma register_run x w :
  register x w =
  if bool_decide (tg_maxCatchUp x < 0)%Z then (inl StoreFailed, w)
  else let row := td_triggers (tw_db w) !! tg_id x in
       (inr (MkRegistered x (match row with None => 1 | Some r => tr_revision r + 1 end) (row ≫= tr_lastFiredAtMs)),
        set_triggers (<[tg_id x := registered_row x row]>) w).
Proof.
  unfold register, trigger_write, upsert_trigger. case_bool_decide as Hm; [by destruct w|]. cbn zeta.
  set (w' := set_triggers (<[tg_id x := registered_row x (td_triggers (tw_db w) !! tg_id x)]>) w).
  assert (td_triggers (tw_db w') !! tg_id x = Some (registered_row x (td_triggers (tw_db w) !! tg_id x))) as Hw'
    by (unfold w'; cbn; by rewrite lookup_insert_eq).
  unfold modify. rewrite (bind_run _ _ w tt w') by done.
  by rewrite (bind_run _ _ _ _ _ (get_registered x _ w' Hw')).
Qed.

(** ** Results *)

(** The row after a result. *)
Definition result_row (t : string) (o : Z) (outcome : FireOutcome) (runId : option string) (row : TriggerRow) : TriggerRow :=
  match outcome with
  | Launched => with_active runId None (with_last_fired o row)
  | FireCompleted | FireFailed | Superseded => release_active runId (with_last_fired o row)
  | Skipped | Buffered => clear_active_if (Some (reservation_id t o)) (with_last_fired o row)
  end.

Lemma recordResult_run t o outcome r e w :
  recordResult t o outcome r e w =
  (inr tt, set_triggers (alter (result_row t o outcome r) t) (set_fires (alter (λ _, MkFireRow (Some outcome) r e) (t, o)) w)).
Proof. by destruct outcome. Qed.
End trigger_laws.

(** ** What the trigger store promises

    Schedulers of several processes share the store; a sequence of [trigger_op]s is an
    interleaving of their calls and of time. *)

(** ** Interleavings *)

Inductive trigger_op :=
| ORegister (t : Trigger)
| OClaim (t : string) (occurrence : Z) (overlap : Overlap) (resumeBuffered : bool)
| ORecord (t : string) (occurrence : Z) (outcome : FireOutcome) (runId error : option string)
| OSetPending (t : string) (occurrence : Z)
| OTakePending (t : string)
| OActiveRun (t : string)
| OClearActive (t runId : string)
| OAdvance (now : Z).

(** What a call answered, as far as the theorems look. *)
Inductive trigger_answer := AClaim (c : option Claimed) | APending (p : option Z) | AActive (r : option string) | ADone | AFailed.

Section theorems.
Context {J : JsonText}.

Definition perform_trigger (op : trigger_op) w : trigger_answer * TriggerWorld :=
  let answer {A} (f : A → trigger_answer) (r : (TriggerErrorCode + A) * TriggerWorld) :=
    (match r.1 with inr a => f a | inl _ => AFailed end, r.2) in
  match op with
  | ORegister t => answer (λ _, ADone) (register t w)
  | OClaim t o ov rb => answer AClaim (claimFire t o ov rb w)
  | ORecord t o out r e => answer (λ _, ADone) (recordResult t o out r e w)
  | OSetPending t o => answer (λ _, ADone) (setPending t o w)
  | OTakePending t => answer APending (takePending t w)
  | OActiveRun t => answer AActive (activeRun t w)
  | OClearActive t r => answer (λ _, ADone) (clearActive t r w)
  | OAdvance now => (ADone, MkTriggerWorld (tw_db w) now)
  end.

Fixpoint perform_triggers (ops : list trigger_op) w : list trigger_answer * TriggerWorld :=
  match ops with
  | [] => ([], w)
  | op :: ops =>
      let r := perform_trigger op w in
      let rest := perform_triggers ops r.2 in
      (r.1 :: rest.1, rest.2)
  end.

(** ** One operation on one trigger *)

(** What an operation does to the row of [t], given the fire row a claim looks at. *)
Definition op_row (op : trigger_op) (t : string) w (row : TriggerRow) : TriggerRow :=
  let on (t' : string) (f : TriggerRow → TriggerRow) := if bool_decide (t' = t) then f row else row in
  match op with
  | ORegister x => on (tg_id x) (λ row,
      if bool_decide (tg_maxCatchUp x < 0)%Z then row else registered_row x (Some row))
  | OClaim t' o ov rb => on t' (λ row,
      claimed_row t' o (tw_clock w) row (claim_answer t' o ov rb (tw_clock w) row (td_fires (tw_db w) !! (t', o))))
  | ORecord t' o out r _ => on t' (result_row t' o out r)
  | OSetPending t' o => on t' (later_pending o)
  | OTakePending t' => on t' (with_pending None)
  | OActiveRun t' => on t' (λ row,
      if reservation_expired row (tw_clock w) then clear_active_if (tr_activeRunId row) row else row)
  | OClearActive t' r => on t' (clear_active_if (Some r))
  | OAdvance _ => row
  end.

Lemma update_row t t' f w row :
  td_triggers (tw_db w) !! t = Some row →
  td_triggers (tw_db (set_triggers (alter f t') w)) !! t = Some (if bool_decide (t' = t) then f row else row).
Proof.
  intros Hr. cbn. case_bool_decide as E; [subst; by rewrite lookup_alter_eq, Hr|]. by rewrite lookup_alter_ne.
Qed.

Lemma insert_row t t' x w row :
  td_triggers (tw_db w) !! t = Some row →
  <[t' := x]> (td_triggers (tw_db w)) !! t = Some (if bool_decide (t' = t) then x else row).
Proof.
  intros Hr. case_bool_decide as E; [subst; by rewrite lookup_insert_eq|]. by rewrite lookup_insert_ne.
Qed.

Lemma perform_row op t w row :
  td_triggers (tw_db w) !! t = Some row → td_triggers (tw_db (perform_trigger op w).2) !! t = Some (op_row op t w row).
Proof.
  intros Hr. destruct op as [x|t' o ov rb|t' o out r e|t' o|t'|t'|t' r|now]; cbn [perform_trigger op_row snd].
  - rewrite register_run. case_bool_decide as Hm; cbn [snd]; [by case_bool_decide|]. cbn.
    rewrite (insert_row _ _ _ _ _ Hr). case_bool_decide as E; [|done]. subst. by rewrite Hr.
  - rewrite claimFire_run. destruct (td_triggers (tw_db w) !! t') as [row'|] eqn:Hr'; cbn.
    + rewrite (insert_row _ _ _ _ _ Hr). case_bool_decide as E; [|done]. subst. by rewrite Hr in Hr'; injection Hr' as <-.
    + case_bool_decide as E; [|done]. subst. congruence.
  - rewrite recordResult_run. by apply (update_row t t' _ (set_fires _ w) row).
  - apply (update_row t t' _ w row Hr).
  - apply (update_row t t' _ w row Hr).
  - unfold activeRun. step. unfold trigger_write, get_trigger. step.
    destruct (decide (t' = t)) as [->|Ht].
    + rewrite Hr. rewrite bool_decide_eq_true_2 by done. destruct (tr_activeRunId row) as [a|] eqn:Ea.
      * destruct (reservation_expired row (tw_clock w)); [|done].
        apply (update_row t t (clear_active_if (Some a)) w row) in Hr. rewrite bool_decide_eq_true_2 in Hr by done. exact Hr.
      * unfold reservation_expired. by rewrite Ea.
    + rewrite bool_decide_eq_false_2 by done. destruct (td_triggers (tw_db w) !! t') as [row'|]; [|done].
      destruct (tr_activeRunId row') as [a|]; [|done]. destruct (reservation_expired row' (tw_clock w)); [|done].
      apply (update_row t t' (clear_active_if (Some a)) w row) in Hr. by rewrite bool_decide_eq_false_2 in Hr.
  - apply (update_row t t' _ w row Hr).
  - done.
Qed.

(** The tables change only through the operations; the clock only by time. *)
Lemma perform_clock op w :
  tw_clock (perform_trigger op w).2 = match op with OAdvance now => now | _ => tw_clock w end.
Proof.
  destruct op as [x|t' o ov rb|t' o out r e|t' o|t'|t'|t' r|now]; cbn [perform_trigger snd]; try done.
  - rewrite register_run. by case_bool_decide.
  - rewrite claimFire_run. by destruct (td_triggers (tw_db w) !! t').
  - by rewrite recordResult_run.
  - unfold activeRun. step. unfold trigger_write, get_trigger. step.
    destruct (td_triggers (tw_db w) !! t') as [row'|]; [|done].
    destruct (tr_activeRunId row') as [a|]; [|done]. by destruct (reservation_expired row' (tw_clock w)).
Qed.

(** ** A trigger that is taken *)

(** [r] holds the trigger: it is its active run and, if it is a reservation, its lease
    (from [c]) is not over. *)
Definition holds (r : string) (c now : Z) (row : TriggerRow) : Prop :=
  tr_activeRunId row = Some r ∧
  (is_reservation r = true → tr_activeClaimedAtMs row = Some c ∧ (now < c + reservationLeaseMs)%Z).

(** An operation that leaves the holder alone: on the trigger it records no launch at
    all, no ending that names the holder or no run, and no skip or buffering of the
    holder's own occurrence; it does not clear or supersede the holder, and the holder's
    lease is not over yet. *)
Definition leaves_holder (t r : string) (c : Z) (op : trigger_op) : Prop :=
  match op with
  | OClaim t' _ ov _ => t' = t → ov ≠ OverlapSupersede
  | ORecord t' o out r' _ => t' = t →
      match out with
      | Launched => False
      | FireCompleted | FireFailed | Superseded => ∃ r'', r' = Some r'' ∧ r'' ≠ r
      | Skipped | Buffered => reservation_id t o ≠ r
      end
  | OClearActive t' r' => t' = t → r' ≠ r
  | OAdvance now => is_reservation r = true → (now < c + reservationLeaseMs)%Z
  | _ => True
  end.

(** An answer that starts a run of [t]. *)
Definition starts (t : string) (op : trigger_op) (a : trigger_answer) : Prop :=
  match op, a with
  | OClaim t' _ _ _, AClaim (Some c) => t' = t ∧ (cl_action c = Fire ∨ cl_action c = Supersede)
  | _, _ => False
  end.

Lemma holds_unexpired r c now row : holds r c now row → reservation_expired row now = false.
Proof.
  intros [Ha Hl]. unfold reservation_expired. rewrite Ha. destruct (tr_activeClaimedAtMs row) as [c'|] eqn:Ec; [|done].
  destruct (is_reservation r) eqn:Er; [|done]. destruct (Hl eq_refl) as [[= ->] Hlt].
  rewrite bool_decide_eq_false_2; [done|lia].
Qed.

Lemma clear_other_holds r r' c now row : r' ≠ r → holds r c now row → clear_active_if (Some r') row = row.
Proof. intros Hr [Ha _]. unfold clear_active_if. rewrite Ha. by rewrite bool_decide_eq_false_2. Qed.

(** The holder's columns are all that [holds] looks at. *)
Lemma holds_same r c now row row' :
  tr_activeRunId row' = tr_activeRunId row → tr_activeClaimedAtMs row' = tr_activeClaimedAtMs row →
  holds r c now row → holds r c now row'.
Proof. unfold holds. intros -> ->. done. Qed.

Lemma holds_claim r c now t o ov rb row fire :
  ov ≠ OverlapSupersede → holds r c now row →
  holds r c now (claimed_row t o now row (claim_answer t o ov rb now row fire)) ∧
  (∀ cl, claim_answer t o ov rb now row fire = Some cl → cl_action cl = Skip ∨ cl_action cl = Buffer).
Proof.
  intros Hov Hh. unfold claim_answer. rewrite (holds_unexpired _ _ _ _ Hh). destruct Hh as [Ha Hl] eqn:E. rewrite Ha. clear E.
  destruct (match fire with None => false | Some f => _ end); [split; [done|congruence]|].
  destruct ov; [| |done]; (split; [|intros cl [= <-]; auto]); by apply (holds_same _ _ _ row).
Qed.

Lemma holds_result r c now t o out r' row :
  match out with
  | Launched => False
  | FireCompleted | FireFailed | Superseded => ∃ r'', r' = Some r'' ∧ r'' ≠ r
  | Skipped | Buffered => reservation_id t o ≠ r
  end → holds r c now row → holds r c now (result_row t o out r' row).
Proof.
  intros Ho Hh. assert (holds r c now (with_last_fired o row)) as Hf by done.
  destruct out; try done; unfold result_row; try (destruct Ho as (r'' & -> & Ho); unfold release_active);
    by rewrite (clear_other_holds r _ c now).
Qed.

Lemma holder_stays t r c op w row :
  leaves_holder t r c op → td_triggers (tw_db w) !! t = Some row → holds r c (tw_clock w) row →
  holds r c (tw_clock (perform_trigger op w).2) (op_row op t w row) ∧ ¬ starts t op (perform_trigger op w).1.
Proof.
  intros Hop Hr Hh. rewrite perform_clock.
  destruct op as [x|t' o ov rb|t' o out r' e|t' o|t'|t'|t' r'|now]; cbn [op_row leaves_holder] in *;
    try case_bool_decide as Ht; try (split; [done|intros []]).
  - split; [|intros []]. case_bool_decide; [done|]. by apply (holds_same _ _ _ row).
  - subst t'. destruct (holds_claim r c (tw_clock w) t o ov rb row (td_fires (tw_db w) !! (t, o)) (Hop eq_refl) Hh) as [H1 H2].
    split; [done|]. unfold perform_trigger. rewrite claimFire_run, Hr. cbn.
    destruct (claim_answer _ _ _ _ _ _ _) as [cl|]; [|intros []]. intros [_ Hc]. destruct (H2 cl eq_refl) as [E|E], Hc; congruence.
  - split; [done|]. unfold perform_trigger. destruct (claimFire t' o ov rb w) as [[e|[cl|]] w']; try (intros []; done).
  - split; [|intros []]. subst t'. by apply holds_result; [exact (Hop eq_refl)|].
  - split; [|intros []]. by rewrite (holds_unexpired _ _ _ _ Hh).
  - split; [|intros []]. subst t'. by rewrite (clear_other_holds r r' c (tw_clock w)) by auto.
  - split; [|intros []]. destruct Hh as [Ha Hl]. split; [done|]. intros Hres. split; [by apply Hl|by apply Hop].
Qed.

(** C13. A held trigger starts nothing else. The active run of a trigger (a run, or
    a reservation whose lease is not over) stays the active run through any
    interleaving of the schedulers' calls, and no claim on the trigger is told to
    start a run, as long as no call on the trigger does one of these: a claim that
    supersedes; the record of any launch, whosever the occurrence
    ([late_launch_takes_over] is one by another owner); the record of a completion,
    a failure or a superseding of any occurrence that names the active run, or no
    run at all; the record of a skip or of a buffering of the occurrence the active
    reservation is for; a clearing of the active run; and, when the active run is a
    reservation, the clock reaching the end of its lease. *)
Theorem held_trigger_starts_nothing t r c ops w row :
  td_triggers (tw_db w) !! t = Some row → holds r c (tw_clock w) row → Forall (leaves_holder t r c) ops →
  let (answers, w') := perform_triggers ops w in
  Forall2 (λ op a, ¬ starts t op a) ops answers ∧
  ∃ row', td_triggers (tw_db w') !! t = Some row' ∧ holds r c (tw_clock w') row'.
Proof.
  revert w row. induction ops as [|op ops IH]; intros w row Hr Hh Hops; cbn [perform_triggers]; [by eauto|].
  apply Forall_cons in Hops as [Hop Hops]. destruct (holder_stays t r c op w row Hop Hr Hh) as [Hh' Hs].
  specialize (IH _ _ (perform_row op t w row Hr) Hh' Hops).
  destruct (perform_triggers ops (perform_trigger op w).2) as [answers w']. cbn. destruct IH as [H1 H2]. by split; [constructor|].
Qed.

(** ** A settled occurrence *)

(** An occurrence with an outcome other than [buffered] is settled. *)
Definition settled (fires : gmap (string * Z) FireRow) (t : string) (o : Z) : Prop :=
  ∃ f x, fires !! (t, o) = Some f ∧ fr_outcome f = Some x ∧ x ≠ Buffered.

Definition rebuffers (t : string) (o : Z) (op : trigger_op) : Prop :=
  match op with ORecord t' o' Buffered _ _ => t' = t ∧ o' = o | _ => False end.

Definition claims (t : string) (o : Z) (op : trigger_op) (a : trigger_answer) : Prop :=
  match op, a with OClaim t' o' _ _, AClaim (Some _) => t' = t ∧ o' = o | _, _ => False end.

Lemma settled_blocks t o ov rb now row f x :
  fr_outcome f = Some x → x ≠ Buffered → claim_answer t o ov rb now row (Some f) = None.
Proof.
  intros Hx Hb. unfold claim_answer, resumable. rewrite Hx. rewrite bool_decide_eq_false_2 by congruence.
  by rewrite andb_false_r.
Qed.

Lemma settled_insert fires t o t' o' f :
  settled fires t o →
  (t' = t → o' = o → ∃ x, fr_outcome f = Some x ∧ x ≠ Buffered) → settled (<[(t', o') := f]> fires) t o.
Proof.
  intros (g & x & Hg & Hx & Hb) Hf. destruct (decide ((t', o') = (t, o))) as [[= -> ->]|Hne].
  - destruct (Hf eq_refl eq_refl) as (y & Hy & Hyb). exists f, y. by rewrite lookup_insert_eq.
  - exists g, x. by rewrite lookup_insert_ne.
Qed.

Lemma perform_settled op t o w :
  settled (td_fires (tw_db w)) t o → ¬ rebuffers t o op →
  settled (td_fires (tw_db (perform_trigger op w).2)) t o ∧ ¬ claims t o op (perform_trigger op w).1.
Proof.
  intros Hs Hop. destruct op as [x|t' o' ov rb|t' o' out r' e|t' o'|t'|t'|t' r'|now]; cbn [perform_trigger];
    try (split; [done|intros []]).
  - rewrite register_run. case_bool_decide; (split; [done|intros []]).
  - rewrite claimFire_run. destruct (td_triggers (tw_db w) !! t') as [row|] eqn:Er; [|split; [done|intros []]].
    cbn [fst snd tw_db td_fires]. destruct (decide ((t', o') = (t, o))) as [[= -> ->]|Hne].
    + destruct Hs as (f & x & Hf & Hx & Hb). rewrite Hf, (settled_blocks _ _ _ _ _ _ _ x) by done.
      split; [|intros []]. exists f, x. by rewrite lookup_insert_eq.
    + split; [apply settled_insert; [done|intros -> ->; done]|].
      destruct (claim_answer _ _ _ _ _ _ _); [by intros [-> ->]|intros []].
  - rewrite recordResult_run. split; [|intros []]. cbn. destruct Hs as (f & x & Hf & Hx & Hb).
    destruct (decide ((t', o') = (t, o))) as [[= -> ->]|Hne].
    + exists (MkFireRow (Some out) r' e), out. rewrite lookup_alter_eq, Hf. split; [done|]. split; [done|].
      intros ->. by apply Hop.
    + exists f, x. by rewrite lookup_alter_ne.
  - unfold activeRun. step. unfold trigger_write, get_trigger. step.
    destruct (td_triggers (tw_db w) !! t') as [row'|]; [|split; [done|intros []]].
    destruct (tr_activeRunId row') as [a|]; [|split; [done|intros []]].
    destruct (reservation_expired row' (tw_clock w)); (split; [done|intros []]).
Qed.

(** C14. An occurrence is answered once: when the row of an occurrence has an outcome
    other than [buffered], no later claim of it succeeds, whatever the schedulers do,
    unless a result records it as buffered again. *)
Theorem settled_never_claimed_again t o ops w :
  settled (td_fires (tw_db w)) t o → Forall (λ op, ¬ rebuffers t o op) ops →
  Forall2 (λ op a, ¬ claims t o op a) ops (perform_triggers ops w).1 ∧
  settled (td_fires (tw_db (perform_triggers ops w).2)) t o.
Proof.
  revert w. induction ops as [|op ops IH]; intros w Hs Hops; [done|].
  apply Forall_cons in Hops as [Hop Hops]. destruct (perform_settled op t o w Hs Hop) as [Hs' Ha].
  destruct (IH _ Hs' Hops) as [H1 H2]. cbn. by split; [constructor|].
Qed.

(** ** Registration *)

(** Registering a trigger stores its declaration: the answer and a later [get] are the
    declaration as given (its input read back from its JSON text), at revision one or one
    more than before; what the row knew of its runs is kept, and no other trigger and no
    occurrence changes. *)
Theorem register_then_get x w r w' :
  register x w = (inr r, w') →
  rg_trigger r = x ∧
  rg_revision r = match td_triggers (tw_db w) !! tg_id x with None => 1%Z | Some row => (tr_revision row + 1)%Z end ∧
  trigger_get (tg_id x) w' = (inr (Some r), w') ∧
  (∀ row, td_triggers (tw_db w) !! tg_id x = Some row → ∃ row', td_triggers (tw_db w') !! tg_id x = Some row' ∧
     tr_lastFiredAtMs row' = tr_lastFiredAtMs row ∧ tr_pendingAtMs row' = tr_pendingAtMs row ∧
     tr_activeRunId row' = tr_activeRunId row ∧ tr_activeClaimedAtMs row' = tr_activeClaimedAtMs row) ∧
  (∀ t, t ≠ tg_id x → td_triggers (tw_db w') !! t = td_triggers (tw_db w) !! t) ∧
  td_fires (tw_db w') = td_fires (tw_db w).
Proof.
  rewrite register_run. case_bool_decide; [done|]. intros [= <- <-]. split; [done|]. split; [done|]. split.
  { apply get_registered. cbn. by rewrite lookup_insert_eq. }
  split; [|split; [|done]]; cbn.
  - intros row Hr. exists (registered_row x (Some row)). by rewrite Hr, lookup_insert_eq.
  - intros t Ht. by rewrite lookup_insert_ne.
Qed.

(** ** The buffered occurrence *)

(** What an operation on [t] asks to keep, given its answer. *)
Definition buffers (t : string) (op : trigger_op) (a : trigger_answer) : option Z :=
  match op, a with
  | OClaim t' o _ _, AClaim (Some c) => if bool_decide (t' = t ∧ cl_action c = Buffer) then Some o else None
  | OSetPending t' o, _ => if bool_decide (t' = t) then Some o else None
  | _, _ => None
  end.

Definition takes (t : string) (op : trigger_op) : Prop := match op with OTakePending t' => t' = t | _ => False end.

(** The pending occurrence the policy of [Overlap.ts] keeps of what it was given. *)
Definition kept (p : option Z) (given : list Z) : option Z :=
  foldl (λ p o, Some (pendingAfter (MkOverlapState true p o))) p given.

Lemma later_pending_after o row :
  tr_pendingAtMs (later_pending o row) = Some (pendingAfter (MkOverlapState true (tr_pendingAtMs row) o)).
Proof.
  unfold later_pending, pendingAfter. cbn. destruct (tr_pendingAtMs row) as [p|]; [|done].
  case_bool_decide; f_equal; lia.
Qed.

Lemma clear_active_pending r row : tr_pendingAtMs (clear_active_if r row) = tr_pendingAtMs row.
Proof. unfold clear_active_if. destruct r, (tr_activeRunId row); try done. by case_bool_decide. Qed.

Lemma result_row_pending t o out r row : tr_pendingAtMs (result_row t o out r row) = tr_pendingAtMs row.
Proof. destruct out; unfold result_row, release_active; rewrite ?clear_active_pending; try done; destruct r; by rewrite ?clear_active_pending. Qed.

Lemma perform_pending op t w row :
  td_triggers (tw_db w) !! t = Some row → ¬ takes t op →
  tr_pendingAtMs (op_row op t w row) =
  kept (tr_pendingAtMs row) (option_list (buffers t op (perform_trigger op w).1)).
Proof.
  intros Hr Hop. destruct op as [x|t' o' ov rb|t' o' out r' e|t' o'|t'|t'|t' r'|now]; cbn [op_row buffers option_list kept foldl];
    try case_bool_decide as Ht; try done.
  - by case_bool_decide.
  - subst t'. unfold perform_trigger. rewrite claimFire_run, Hr. cbn [fst].
    unfold claim_answer. destruct (match td_fires _ !! _ with None => false | Some f => _ end); [done|].
    destruct (if reservation_expired row (tw_clock w) then None else tr_activeRunId row) as [a|]; [destruct ov|]; cbn;
      try (rewrite bool_decide_eq_false_2 by naive_solver; done).
    rewrite bool_decide_eq_true_2 by done. apply later_pending_after.
  - unfold perform_trigger. destruct (claimFire t' o' ov rb w) as [[e|[cl|]] w']; cbn; try done.
    by rewrite bool_decide_eq_false_2 by naive_solver.
  - apply result_row_pending.
  - apply later_pending_after.
  - case_match; [apply clear_active_pending|done].
  - apply clear_active_pending.
Qed.

(** What a sequence of operations asks to keep. *)
Definition buffered_by (t : string) (ops : list trigger_op) (answers : list trigger_answer) : list Z :=
  flat_map (λ oa : trigger_op * trigger_answer, option_list (buffers t oa.1 oa.2)) (zip ops answers).

(** C31. Buffering one occurrence: whatever the schedulers of several processes do to a
    trigger between two takes, the occurrence the store has kept is the one the pure
    policy [pendingAfter] keeps of those that were buffered, in their order. *)
Theorem pending_follows_policy t ops w row :
  td_triggers (tw_db w) !! t = Some row → Forall (λ op, ¬ takes t op) ops →
  let (answers, w') := perform_triggers ops w in
  ∃ row', td_triggers (tw_db w') !! t = Some row' ∧
    tr_pendingAtMs row' = kept (tr_pendingAtMs row) (buffered_by t ops answers) ∧
    (perform_trigger (OTakePending t) w').1 = APending (kept (tr_pendingAtMs row) (buffered_by t ops answers)).
Proof.
  revert w row. induction ops as [|op ops IH]; intros w row Hr Hops; cbn [perform_triggers].
  { exists row. split; [done|]. split; [done|].
    unfold perform_trigger, takePending, trigger_write, get_trigger.
    by rewrite (bind_run _ _ w (Some row) w) by (unfold gets; by rewrite Hr). }
  apply Forall_cons in Hops as [Hop Hops].
  specialize (IH _ _ (perform_row op t w row Hr) Hops). rewrite (perform_pending op t w row Hr Hop) in IH.
  destruct (perform_triggers ops (perform_trigger op w).2) as [answers w']. cbn [fst snd].
  unfold buffered_by in *. cbn [zip zip_with flat_map fst snd]. unfold kept in *. by rewrite foldl_app.
Qed.
End theorems.
