(* ===== verification/TriggerDemo.v ===== *)
(** * The trigger store at work: the witnesses of its theorems, and what its runs show *)

From S2P Require Import Prelude Json JsonTexts TriggerStore TriggerTheorems.
#[local] Open Scope me_scope.

Module TriggerDemo.
Definition nightly (ov : Overlap) : Trigger :=
  MkTrigger "nightly" "report" (JObj [("dry", JBool true)]) "0 0 * * *" None ov CatchUpAll 2 true.

Definition empty_world : TriggerWorld := MkTriggerWorld (MkTriggerDb ∅ ∅) 1000.
Definition world (ov : Overlap) : TriggerWorld := (perform_trigger (ORegister (nightly ov)) empty_world).2.

Definition reserved : string := reservation_id "nightly" 900.

(** One scheduler has claimed the occurrence of 900 and not launched it yet. *)
Definition claimed_world : TriggerWorld := (perform_trigger (OClaim "nightly" 900 OverlapSkip false) (world OverlapSkip)).2.

Definition claimed_trigger : TriggerRow :=
  claimed_row "nightly" 900 1000 (registered_row (nightly OverlapSkip) None)
    (Some (MkClaimed Fire (Some reserved) None)).

(** What other schedulers do meanwhile. *)
Definition others : list trigger_op :=
  [OAdvance 2000; OClaim "nightly" 1900 OverlapSkip false; ORegister (nightly OverlapSkip); OActiveRun "nightly";
   ORecord "nightly" 1900 Skipped None None; OAdvance 300999; OClaim "nightly" 900 OverlapSkip false;
   OClearActive "nightly" "another run"; OClaim "nightly" 2900 BufferOne false].

Lemma claimed_lookup : td_triggers (tw_db claimed_world) !! "nightly" = Some claimed_trigger.
Proof. vm_compute. reflexivity. Qed.

Lemma claimed_holds : holds reserved 1000 (tw_clock claimed_world) claimed_trigger.
Proof. split; [vm_compute; reflexivity|]. intros _. split; vm_compute; reflexivity. Qed.

Lemma others_leave : Forall (leaves_holder "nightly" reserved 1000) others.
Proof. repeat constructor; cbn; try done; try (intros; by vm_compute); intros; discriminate. Qed.

(** An occurrence that was skipped. *)
Definition settled_world : TriggerWorld := (perform_triggers [OClaim "nightly" 900 OverlapSkip false;
  OClaim "nightly" 1900 OverlapSkip false] (world OverlapSkip)).2.
Definition retries : list trigger_op :=
  [OClaim "nightly" 1900 OverlapSkip false; ORecord "nightly" 900 Launched (Some "run-1") None;
   ORecord "nightly" 900 FireCompleted (Some "run-1") None; OClaim "nightly" 1900 BufferOne true].

Lemma skipped_settled : settled (td_fires (tw_db settled_world)) "nightly" 1900.
Proof. exists (MkFireRow (Some Skipped) None None), Skipped. split; [vm_compute; reflexivity|]. by split. Qed.

Lemma retries_keep : Forall (λ op, ¬ rebuffers "nightly" 1900 op) retries.
Proof. repeat constructor; intros []. Qed.

(** Two occurrences buffered behind a run, and one asked for by hand. *)
Definition busy_world : TriggerWorld := (perform_triggers [OClaim "nightly" 900 BufferOne false;
  ORecord "nightly" 900 Launched (Some "run-1") None] (world BufferOne)).2.
Definition busy_trigger : TriggerRow :=
  with_active (Some "run-1") None (with_last_fired 900 (registered_row (nightly BufferOne) None)).
Definition buffering : list trigger_op :=
  [OClaim "nightly" 2900 BufferOne false; OClaim "nightly" 1900 BufferOne false; OSetPending "nightly" 2400;
   ORecord "nightly" 2900 Buffered None None].

Lemma busy_lookup : td_triggers (tw_db busy_world) !! "nightly" = Some busy_trigger.
Proof. vm_compute. reflexivity. Qed.

Lemma buffering_takes : Forall (λ op, ¬ takes "nightly" op) buffering.
Proof. repeat constructor; intros []. Qed.
End TriggerDemo.
Import TriggerDemo.

(** ** Witnesses *)

Lemma held_trigger_starts_nothing_witness :
  (perform_triggers others claimed_world).1 =
    [ADone; AClaim (Some (MkClaimed Skip None None)); ADone; AActive (Some reserved); ADone; ADone; AClaim None; ADone;
     AClaim (Some (MkClaimed Buffer None None))] ∧
  let (answers, w') := perform_triggers others claimed_world in
  Forall2 (λ op a, ¬ starts "nightly" op a) others answers ∧
  ∃ row', td_triggers (tw_db w') !! "nightly" = Some row' ∧ holds reserved 1000 (tw_clock w') row'.
Proof.
  split; [vm_compute; reflexivity|].
  exact (held_trigger_starts_nothing "nightly" reserved 1000 others claimed_world claimed_trigger
           claimed_lookup claimed_holds others_leave).
Defined.

Lemma settled_never_claimed_again_witness :
  Forall2 (λ op a, ¬ claims "nightly" 1900 op a) retries (perform_triggers retries settled_world).1 ∧
  settled (td_fires (tw_db (perform_triggers retries settled_world).2)) "nightly" 1900.
Proof. exact (settled_never_claimed_again "nightly" 1900 retries settled_world skipped_settled retries_keep). Defined.

Lemma register_then_get_witness :
  ∃ r w', register (nightly BufferOne) claimed_world = (inr r, w') ∧ rg_revision r = 2%Z ∧
    trigger_get "nightly" w' = (inr (Some r), w').
Proof.
  destruct (register (nightly BufferOne) claimed_world) as [[e|r] w'] eqn:E; [vm_compute in E; discriminate E|].
  exists r, w'. destruct (register_then_get (nightly BufferOne) claimed_world r w' E) as (_ & H2 & H3 & _).
  split; [reflexivity|]. split; [rewrite H2; vm_compute; reflexivity|exact H3].
Defined.

Lemma pending_follows_policy_witness :
  kept (tr_pendingAtMs busy_trigger) (buffered_by "nightly" buffering (perform_triggers buffering busy_world).1) = Some 2900%Z ∧
  let (answers, w') := perform_triggers buffering busy_world in
  ∃ row', td_triggers (tw_db w') !! "nightly" = Some row' ∧
    tr_pendingAtMs row' = kept (tr_pendingAtMs busy_trigger) (buffered_by "nightly" buffering answers) ∧
    (perform_trigger (OTakePending "nightly") w').1 =
      APending (kept (tr_pendingAtMs busy_trigger) (buffered_by "nightly" buffering answers)).
Proof.
  split; [vm_compute; reflexivity|].
  exact (pending_follows_policy "nightly" buffering busy_world busy_trigger busy_lookup buffering_takes).
Defined.

(** ** What runs of the store show *)

(** Under the policy [skip], two occurrences of one trigger are both told to fire when the
    launch of the first takes longer than the reservation's lease; the first launch, when
    it is recorded at last, takes the place of the second scheduler's reservation, so a
    third occurrence is judged against the wrong run, and the second run is active nowhere
    once the first is over. *)
Theorem late_launch_takes_over :
  (perform_triggers
    [OClaim "nightly" 900 OverlapSkip false; OAdvance 301000; OClaim "nightly" 1900 OverlapSkip false;
     ORecord "nightly" 1900 Launched (Some "run-2") None; ORecord "nightly" 900 Launched (Some "run-1") None;
     OActiveRun "nightly"; ORecord "nightly" 900 FireCompleted (Some "run-1") None; OActiveRun "nightly";
     OClaim "nightly" 2900 OverlapSkip false] (world OverlapSkip)).1 =
  [AClaim (Some (MkClaimed Fire (Some (reservation_id "nightly" 900)) None)); ADone;
   AClaim (Some (MkClaimed Fire (Some (reservation_id "nightly" 1900)) None)); ADone; ADone; AActive (Some "run-1"); ADone;
   AActive None; AClaim (Some (MkClaimed Fire (Some (reservation_id "nightly" 2900)) None))].
Proof. vm_compute. reflexivity. Qed.

(** Taking the pending occurrence and claiming it are two transactions: a scheduler that
    stops in between has removed the only record that the occurrence is to run. *)
Theorem taken_occurrence_is_lost :
  (perform_triggers
    [OClaim "nightly" 1900 BufferOne false; OTakePending "nightly";
     ORecord "nightly" 900 FireCompleted (Some "run-1") None;
     OActiveRun "nightly"; OTakePending "nightly"; OClaim "nightly" 1900 BufferOne false] busy_world).1 =
  [AClaim (Some (MkClaimed Buffer None None)); APending (Some 1900%Z); ADone; AActive None; APending None; AClaim None].
Proof. vm_compute. reflexivity. Qed.

(** The result of a run that outlasts later occurrences moves the trigger's last
    occurrence back, to before occurrences that were answered. *)
Theorem completion_moves_last_fired_back :
  tr_lastFiredAtMs <$> td_triggers (tw_db (perform_triggers
    [OClaim "nightly" 1900 OverlapSkip false; OClaim "nightly" 2900 OverlapSkip false] busy_world).2) !! "nightly" = Some (Some 2900%Z) ∧
  tr_lastFiredAtMs <$> td_triggers (tw_db (perform_triggers
    [OClaim "nightly" 1900 OverlapSkip false; OClaim "nightly" 2900 OverlapSkip false;
     ORecord "nightly" 900 FireCompleted (Some "run-1") None] busy_world).2) !! "nightly" = Some (Some 900%Z).
Proof. vm_compute. done. Qed.
