(* ===== verification/Occurrences.v ===== *)
(** * Occurrences of a schedule ([triggers/src/Cron.ts], [CatchUp.ts], [Scheduler.ts] [dueOccurrences])

    Which occurrences a poll of the scheduler finds due.  The cron engine is
    [effect/Cron], a parameter: a parsed schedule answers [match], [next] and [prev],
    documented to agree on one set of instants, which are whole seconds. *)

From S2P Require Import Prelude Json TriggerStore.
#[local] Open Scope me_scope.

(** A parsed schedule ([EffectCron.Cron]). *)
Record CronValue := MkCronValue { cron_match : Z → bool; cron_next : Z → Z; cron_prev : Z → Z }.

(** [occurrence.setMilliseconds(0)]. *)
Definition without_milliseconds (t : Z) : Z := (t - t `mod` 1000)%Z.

Definition occurs (c : CronValue) (t : Z) : Prop := (t `mod` 1000 = 0)%Z ∧ cron_match c t = true.

(** The documented behaviour of [effect/Cron]. *)
Class CronLaws (c : CronValue) : Prop := {
  match_seconds t : cron_match c t = cron_match c (without_milliseconds t);
  next_occurs t : occurs c (cron_next c t);
  next_after t : (t < cron_next c t)%Z;
  next_least t s : occurs c s → (t < s)%Z → (cron_next c t ≤ s)%Z;
  prev_occurs t : occurs c (cron_prev c t);
  prev_before t : (cron_prev c t < t)%Z;
  prev_greatest t s : occurs c s → (s < t)%Z → (s ≤ cron_prev c t)%Z
}.

Definition previousAtOrBefore (c : CronValue) (at' : Z) : Z :=
  if cron_match c at' then without_milliseconds at' else cron_prev c at'.

(** The loop over [EffectCron.sequence(cron.value, from)]; [n] bounds its rounds. *)
Fixpoint occurrence_loop (c : CronValue) (n : nat) (from to : Z) : list Z :=
  match n with
  | O => []
  | S n =>
      let occurrence := cron_next c from in
      if bool_decide (to < occurrence)%Z then [] else occurrence :: occurrence_loop c n occurrence to
  end.

(** The limit is looked at after an occurrence was pushed; without one the loop ends with
    the interval. *)
Definition occurrencesBetween (c : CronValue) (from to : Z) (limit : option Z) : list Z :=
  occurrence_loop c (match limit with Some l => Nat.max 1 (Z.to_nat l) | None => S (Z.to_nat (to - from)) end) from to.

(** [Number.isSafeInteger(maxCatchUp)] and not negative. *)
Definition safe_bound (max : Z) : bool := bool_decide (0 ≤ max ≤ 2 ^ 53 - 1)%Z.

(** [CatchUp.occurrences]. *)
Definition catch_up (policy : CatchUp) (maxCatchUp : Z) (lastFiredAt : option Z) (now : Z) (c : CronValue)
    : TriggerErrorCode + list Z :=
  match lastFiredAt with
  | None => inr []
  | Some last =>
      match policy with
      | CatchUpNone => inr []
      | CatchUpOne =>
          if negb (safe_bound maxCatchUp) then inl CatchUpBoundExceeded
          else let latest := previousAtOrBefore c now in
               inr (if bool_decide (latest ≤ last)%Z then [] else [latest])
      | CatchUpAll =>
          if negb (safe_bound maxCatchUp) then inl CatchUpBoundExceeded
          else let missed := occurrencesBetween c last now (Some (maxCatchUp + 1)%Z) in
               if bool_decide (maxCatchUp < Z.of_nat (length missed))%Z then inl CatchUpBoundExceeded else inr missed
      end
  end.

(** ** The occurrences a poll finds *)

(** [observedAt]: the last poll of a trigger by this process. *)
Definition Observed := gmap string Z.
Definition S' : Type → Type := ME Observed TriggerErrorCode.

Section due.
(** [EffectCron.parse]. *)
Context (parse_cron : string → option string → option CronValue).

Definition dueOccurrences (trigger : Registered) (now : Z) : S' (list Z) :=
  let x := rg_trigger trigger in
  match parse_cron (tg_cron x) (tg_timezone x) with
  | None => fail InvalidCron
  | Some c =>
      observed <- gets (λ m : Observed, m !! tg_id x) ;;
      modify (<[tg_id x := now]>) ;;
      match observed with
      | None =>
          match rg_lastFiredAt trigger with
          | None => ret [previousAtOrBefore c now]
          | Some last =>
              match catch_up (tg_catchUp x) (tg_maxCatchUp x) (Some last) now c with
              | inl e => fail e
              | inr l => ret l
              end
          end
      | Some observed =>
          let current := previousAtOrBefore c now in
          if bool_decide (current ≤ observed)%Z then ret []
          else match catch_up (tg_catchUp x) (tg_maxCatchUp x) (Some observed) (current - 1) c with
               | inl e => fail e
               | inr backlog => ret (backlog ++ [current])
               end
      end
  end.

(** The polls of one process, at these times; a poll that fails finds nothing. *)
Fixpoint polls (trigger : Registered) (times : list Z) (m : Observed) : list (TriggerErrorCode + list Z) :=
  match times with
  | [] => []
  | now :: times => let r := dueOccurrences trigger now m in r.1 :: polls trigger times r.2
  end.
End due.

(** ** What the schedule owes *)

(** The occurrences of an interval, in order. *)
Definition occurrences_in (c : CronValue) (from to : Z) (l : list Z) : Prop :=
  StronglySorted Z.lt l ∧ ∀ t, t ∈ l ↔ occurs c t ∧ (from < t ≤ to)%Z.

Section laws.
Context (c : CronValue) `{!CronLaws c}.

Lemma previous_occurs t : occurs c (previousAtOrBefore c t).
Proof.
  unfold previousAtOrBefore. destruct (cron_match c t) eqn:E; [|apply prev_occurs].
  split; [unfold without_milliseconds; rewrite Zminus_mod_idemp_r, Z.sub_diag; done|]. by rewrite <-match_seconds.
Qed.

Lemma previous_le t : (previousAtOrBefore c t ≤ t)%Z.
Proof.
  unfold previousAtOrBefore. destruct (cron_match c t); [unfold without_milliseconds; pose proof (Z.mod_pos_bound t 1000); lia|].
  pose proof (prev_before t). lia.
Qed.

Lemma previous_greatest t s : occurs c s → (s ≤ t)%Z → (s ≤ previousAtOrBefore c t)%Z.
Proof.
  intros Hs Hle. unfold previousAtOrBefore. destruct (cron_match c t) eqn:E.
  - unfold without_milliseconds. destruct Hs as [Hs _]. pose proof (Z.div_mod s 1000 ltac:(lia)).
    pose proof (Z.div_mod t 1000 ltac:(lia)). pose proof (Z.div_le_mono s t 1000 ltac:(lia) Hle). lia.
  - apply prev_greatest; [done|]. destruct (decide (s = t)) as [->|]; [|lia]. destruct Hs. congruence.
Qed.

Lemma loop_sound n from to : StronglySorted Z.lt (occurrence_loop c n from to) ∧
  Forall (λ t, occurs c t ∧ (from < t ≤ to)%Z) (occurrence_loop c n from to).
Proof.
  revert from. induction n as [|n IH]; intros from; cbn; [by split; constructor|].
  case_bool_decide as E; [by split; constructor|]. destruct (IH (cron_next c from)) as [IH1 IH2].
  pose proof (next_after from). split; constructor; try done.
  - eapply Forall_impl; [exact IH2|]. cbn. intros t [_ ?]. lia.
  - split; [apply next_occurs|lia].
  - eapply Forall_impl; [exact IH2|]. cbn. intros t [? ?]. split; [done|lia].
Qed.

(** A loop that was not cut short finds every occurrence. *)
Lemma loop_complete n from to t :
  length (occurrence_loop c n from to) < n → occurs c t → (from < t ≤ to)%Z → t ∈ occurrence_loop c n from to.
Proof.
  revert from. induction n as [|n IH]; intros from Hn Ht Hle; [lia|]. cbn in *.
  pose proof (next_least from t Ht ltac:(lia)). case_bool_decide as E; [lia|]. cbn in Hn.
  destruct (decide (t = cron_next c from)) as [->|Hne]; [by left|]. right. apply IH; [lia|done|lia].
Qed.

(** A loop runs at most once per instant of its interval. *)
Lemma loop_length n from to : (0 ≤ to - from)%Z → (Z.of_nat (length (occurrence_loop c n from to)) ≤ to - from)%Z.
Proof.
  revert from. induction n as [|n IH]; intros from Hle; cbn; [lia|]. case_bool_decide; cbn; [lia|].
  pose proof (next_after from). pose proof (IH (cron_next c from) ltac:(lia)). lia.
Qed.

(** No round is missing where the loop has no limit. *)
Lemma between_unlimited from to : occurrences_in c from to (occurrencesBetween c from to None).
Proof.
  unfold occurrencesBetween. destruct (loop_sound (S (Z.to_nat (to - from))) from to) as [H1 H2]. split; [done|].
  rewrite Forall_forall in H2. intros t. split; [apply H2|]. intros [Ht Hle].
  apply loop_complete; [|done..].
  pose proof (loop_length (S (Z.to_nat (to - from))) from to ltac:(lia)). lia.
Qed.

Lemma sorted_nodup (l : list Z) : StronglySorted Z.lt l → NoDup l.
Proof.
  induction 1 as [|x l _ IH Hx]; constructor; [|done]. intros Hin. rewrite Forall_forall in Hx. pose proof (Hx x Hin). lia.
Qed.

(** Catching up on all occurrences is exact: the answer is the occurrences after the
    last one and up to now, all of them, in order and no more than the bound; it fails
    precisely when there are more of them than the bound allows (or the bound is not a
    safe count). *)
Theorem catch_up_all max last now :
  match catch_up CatchUpAll max (Some last) now c with
  | inr l => occurrences_in c last now l ∧ (Z.of_nat (length l) ≤ max)%Z
  | inl e => e = CatchUpBoundExceeded ∧
      (safe_bound max = true → ∃ l, NoDup l ∧ (max < Z.of_nat (length l))%Z ∧ ∀ t, t ∈ l → occurs c t ∧ (last < t ≤ now)%Z)
  end.
Proof.
  unfold catch_up. destruct (safe_bound max) eqn:Eb; cbn [negb]; [|done]. unfold safe_bound in Eb.
  apply bool_decide_eq_true_1 in Eb. unfold occurrencesBetween.
  destruct (loop_sound (Nat.max 1 (Z.to_nat (max + 1))) last now) as [H1 H2]. rewrite Forall_forall in H2.
  case_bool_decide as Hb.
  - split; [done|]. intros _. eexists. split; [by apply sorted_nodup|]. by split.
  - split; [|lia]. split; [done|]. intros t. split; [apply H2|]. intros [Ht Hle]. apply loop_complete; [lia|done..].
Qed.

(** ** Successive polls *)

Lemma occurrences_join from mid to l1 l2 :
  (from ≤ mid ≤ to)%Z → occurrences_in c from mid l1 → occurrences_in c mid to l2 → occurrences_in c from to (l1 ++ l2).
Proof.
  intros Hle [H1 H1'] [H2 H2']. split.
  - apply StronglySorted_app_2; [|done..]. intros x1 x2 Hx1%H1' Hx2%H2'. lia.
  - intros t. rewrite elem_of_app, H1', H2'. split; [intros [[? ?]|[? ?]]; (split; [done|lia])|].
    intros [? ?]. destruct (decide (t ≤ mid)%Z); [left|right]; (split; [done|lia]).
Qed.

Lemma occurrences_none from to : (previousAtOrBefore c to ≤ from)%Z → occurrences_in c from to [].
Proof.
  intros Hp. split; [constructor|]. intros t. split; [by intros ?%not_elem_of_nil|]. intros [Ht Hle].
  pose proof (previous_greatest to t Ht ltac:(lia)). lia.
Qed.

Lemma occurrences_last from to l :
  (from < previousAtOrBefore c to)%Z → occurrences_in c from (previousAtOrBefore c to - 1) l →
  occurrences_in c from to (l ++ [previousAtOrBefore c to]).
Proof.
  intros Hp Hl. pose proof (previous_le to) as Hle. apply (occurrences_join from (previousAtOrBefore c to - 1) to); [lia|done|].
  split; [repeat constructor|]. intros t. rewrite list_elem_of_singleton. split.
  - intros ->. split; [apply previous_occurs|lia].
  - intros [Ht Hlt]. pose proof (previous_greatest to t Ht ltac:(lia)). lia.
Qed.

Context (parse_cron : string → option string → option CronValue).

(** A poll of an observed trigger that catches up on all. *)
Lemma due_all trigger now m o l m' :
  parse_cron (tg_cron (rg_trigger trigger)) (tg_timezone (rg_trigger trigger)) = Some c →
  tg_catchUp (rg_trigger trigger) = CatchUpAll → m !! tg_id (rg_trigger trigger) = Some o → (o ≤ now)%Z →
  dueOccurrences parse_cron trigger now m = (inr l, m') →
  occurrences_in c o now l ∧ m' = <[tg_id (rg_trigger trigger) := now]> m.
Proof.
  intros Hc Hall Ho Hle. unfold dueOccurrences. rewrite Hc. step. erewrite bind_run; [|reflexivity]. rewrite Ho, Hall.
  case_bool_decide as Hp.
  - intros [= <- <-]. split; [by apply occurrences_none|done].
  - pose proof (catch_up_all (tg_maxCatchUp (rg_trigger trigger)) o (previousAtOrBefore c now - 1)) as Hcu.
    destruct (catch_up _ _ _ _ _) as [e|backlog]; [done|]. intros [= <- <-]. split; [|done].
    apply occurrences_last; [lia|by destruct Hcu].
Qed.

(** C30. The polls of a process owe every occurrence once: for a trigger that
    catches up on all, what the polls after the first find, one poll after the
    other, is exactly the occurrences since the first, in order, as long as no poll
    failed and the times of the polls never go backwards. *)
Theorem polls_cover trigger times found start m :
  parse_cron (tg_cron (rg_trigger trigger)) (tg_timezone (rg_trigger trigger)) = Some c →
  tg_catchUp (rg_trigger trigger) = CatchUpAll → m !! tg_id (rg_trigger trigger) = Some start →
  Sorted Z.le (start :: times) → polls parse_cron trigger times m = inr <$> found →
  occurrences_in c start (default start (last times)) (concat found).
Proof.
  intros Hc Hall. revert start m found. induction times as [|now times IH]; intros start m found Ho Hs Hf.
  { destruct found; [|done]. cbn. split; [constructor|]. intros t. split; [by intros ?%not_elem_of_nil|]. cbn. lia. }
  destruct found as [|l found]; [done|]. cbn [polls fmap list_fmap] in Hf. injection Hf as Hl Hf.
  destruct (dueOccurrences parse_cron trigger now m) as [r m'] eqn:Hd. cbn in Hl, Hf. subst r.
  apply Sorted_inv in Hs as [Hs Hle]. inversion Hle as [|? ? Hle']. subst.
  destruct (due_all trigger now m start l m' Hc Hall Ho Hle' Hd) as [Hin ->].
  assert (now ≤ default now (last times))%Z as Hlast.
  { apply Sorted_StronglySorted in Hs; [|intros ???; lia]. apply StronglySorted_inv in Hs as [_ Hs].
    destruct (last times) as [z|] eqn:Ez; [|done]. cbn. rewrite Forall_forall in Hs. apply Hs. by apply last_Some_elem_of. }
  rewrite last_cons. replace (default start _) with (default now (last times)) by (by destruct (last times)).
  cbn [concat]. apply (occurrences_join start now); [done|done|].
  assert ((<[tg_id (rg_trigger trigger) := now]> m : Observed) !! tg_id (rg_trigger trigger) = Some now) as Hm by apply lookup_insert_eq.
  by apply (IH now _ found Hm).
Qed.
End laws.

(** ** A schedule, and what polls show *)

Module ScheduleDemo.
(** Every minute. *)
Definition minutely : CronValue :=
  MkCronValue (λ t, bool_decide ((t / 1000) `mod` 60 = 0)%Z) (λ t, (t / 60000 + 1) * 60000)%Z (λ t, (t - 1) / 60000 * 60000)%Z.

Lemma minutely_occurs t : occurs minutely t ↔ (t `mod` 60000 = 0)%Z.
Proof.
  unfold occurs. cbn. rewrite bool_decide_eq_true. split.
  - intros [H1 H2]. pose proof (Z.div_mod t 1000 ltac:(lia)). pose proof (Z.div_mod (t / 1000) 60 ltac:(lia)).
    replace t with ((t / 1000 / 60) * 60000)%Z by lia. apply Z.mod_mul. lia.
  - intros H. pose proof (Z.div_mod t 60000 ltac:(lia)) as E. rewrite H, Z.add_0_r in E. generalize dependent (t / 60000)%Z. intros k E.
    assert (t = (k * 60) * 1000)%Z as -> by lia. rewrite Z.mod_mul, Z.div_mul, Z.mod_mul by lia. done.
Qed.

Lemma minute_floor t : (t / 60000 * 60000 ≤ t < t / 60000 * 60000 + 60000)%Z.
Proof. pose proof (Z.div_mod t 60000 ltac:(lia)). pose proof (Z.mod_pos_bound t 60000 ltac:(lia)). lia. Qed.

#[export] Instance minutely_laws : CronLaws minutely.
Proof.
  split.
  - intros t. cbn. unfold without_milliseconds. repeat f_equal.
    pose proof (Z.div_mod t 1000 ltac:(lia)) as E. replace (t - t `mod` 1000)%Z with ((t / 1000) * 1000)%Z by lia.
    by rewrite Z.div_mul by lia.
  - intros t. apply minutely_occurs. cbn. apply Z.mod_mul. lia.
  - intros t. cbn. pose proof (minute_floor t). lia.
  - intros t s Hs%minutely_occurs Hlt. cbn. pose proof (Z.div_mod s 60000 ltac:(lia)).
    pose proof (Z.div_le_mono t s 60000 ltac:(lia) ltac:(lia)).
    destruct (decide (s / 60000 = t / 60000)%Z); [pose proof (minute_floor t); lia|lia].
  - intros t. apply minutely_occurs. cbn. apply Z.mod_mul. lia.
  - intros t. cbn. pose proof (minute_floor (t - 1)). lia.
  - intros t s Hs%minutely_occurs Hlt. cbn. pose proof (Z.div_mod s 60000 ltac:(lia)).
    pose proof (Z.div_le_mono s (t - 1) 60000 ltac:(lia) ltac:(lia)). lia.
Qed.

Definition parse_minutely (e : string) (tz : option string) : option CronValue :=
  if bool_decide (e = "* * * * *") then Some minutely else None.

Definition every_minute (max : Z) : Registered :=
  MkRegistered (MkTrigger "m" "report" JNull "* * * * *" None OverlapSkip CatchUpAll max true) 1 None.
End ScheduleDemo.
Import ScheduleDemo.

Lemma polls_cover_witness :
  occurrences_in minutely 60500 361000 (concat [[120000]; []; [180000; 240000; 300000; 360000]])%Z.
Proof.
  apply (polls_cover minutely parse_minutely (every_minute 3) [121000; 130000; 361000]%Z
           [[120000]; []; [180000; 240000; 300000; 360000]]%Z 60500 {["m" := 60500%Z]}).
  - reflexivity.
  - reflexivity.
  - vm_compute. reflexivity.
  - repeat constructor; vm_compute; discriminate.
  - vm_compute. reflexivity.
Defined.

(** A poll that finds more occurrences than the bound fails, and has already moved the
    trigger's last poll: the next poll finds nothing, and those occurrences are never run
    by this process, not even the current one. *)
Theorem overdue_occurrences_are_dropped :
  polls parse_minutely (every_minute 1) [121000; 361000; 362000; 421000]%Z {["m" := 60500%Z]} =
  [inr [120000]; inl CatchUpBoundExceeded; inr []; inr [420000]]%Z.
Proof. vm_compute. reflexivity. Qed.

(** A late poll of a trigger that catches up on one finds two. *)
Theorem catching_up_on_one_finds_two :
  let one := MkRegistered (MkTrigger "m" "report" JNull "* * * * *" None OverlapSkip CatchUpOne 1 true) 1 None in
  polls parse_minutely one [361000]%Z {["m" := 60500%Z]} = [inr [300000; 360000]]%Z.
Proof. vm_compute. reflexivity. Qed.
