(* ===== verification/Scheduler.v ===== *)
(** * The plan scheduler ([engine-store/src/PlanScheduler.ts])

    One coordinator drives a plan: it admits ready nodes under two caps, a fiber per
    admitted node measures its inputs, keys the dispatch and runs it, and the
    coordinator settles what the fibers report, one report at a time.  Fibers and
    coordinator share the run's journal and one queue of reports.  The services the
    scheduler is composed with are the class [Host]: they are asked with the number of
    the call, so that each call may answer differently. *)

From S2P Require Import Prelude Capability FileSet Canonical StepKey Plan.
#[local] Open Scope me_scope.

(** ** Reconciliation ([Reconciliation.ts]) *)

Record Deviation := mkDeviation {
  dv_nodeId : string;
  dv_keyDigest : string;
  dv_attempt : Z;
  dv_paths : list string;
  dv_diffIdentity : string;
  dv_declaredBy : list (string * string);
  dv_alsoDeviatedBy : list string
}.

Record Conflict := mkConflictReport {
  cf_nodeId : string;
  cf_keyDigest : string;
  cf_attempt : Z;
  cf_rebases : Z;
  cf_strategy : RuntimeStrategy;
  cf_conflictsWith : list string
}.

Inductive Verdict :=
| VFail (reason : string)
| VReorder (dependsOn : list string) (reason : string)
| VFactorOut (paths : list string) (reason : string).

Record Reconciler := mkReconciler { onDeviation : Deviation → Verdict; onConflict : Conflict → Verdict }.

(** [Array.prototype.join(", ")]. *)
Fixpoint text_join (l : list string) : string :=
  match l with
  | [] => ""
  | [x] => x
  | x :: l => x +:+ ", " +:+ text_join l
  end.

Definition assoc_string (k : string) (l : list (string * string)) : option string :=
  snd <$> List.find (λ kv, bool_decide (fst kv = k)) l.

(** [Reconciliation.makeDefault]. *)
Definition default_onDeviation (d : Deviation) : Verdict :=
  let owners := List.filter (λ owner, negb (bool_decide (owner = dv_nodeId d)))
                  (omap (λ path, assoc_string path (dv_declaredBy d)) (dv_paths d)) in
  let discovered := distinct [] owners in
  if bool_decide (0 < length discovered) && bool_decide (length discovered = length (distinct [] (dv_paths d)))
  then VReorder discovered (dv_nodeId d +:+ " wrote paths declared by " +:+ text_join discovered)
  else if bool_decide (0 < length (dv_alsoDeviatedBy d))
  then VFactorOut (dv_paths d) (dv_nodeId d +:+ " and " +:+ text_join (dv_alsoDeviatedBy d) +:+
                                " produced the same undeclared paths")
  else VFail (dv_nodeId d +:+ " wrote " +:+ text_join (dv_paths d) +:+ ", which no declaration explains").

Definition default_onConflict (c : Conflict) : Verdict :=
  VFail (cf_nodeId c +:+ " could not land after " +:+ pretty (cf_rebases c) +:+ " rebases under " +:+
         runtime_text (cf_strategy c)).

Definition default_reconciler : Reconciler := mkReconciler default_onDeviation default_onConflict.

(** ** States and reports *)

Inductive NodeOutcome := OBuilt | OClean | OFailed | OSkipped | ODeferred.
Inductive NodeStatus := SPending | SRunning | SSettled.

#[export] Instance node_outcome_eq_dec : EqDecision NodeOutcome.
Proof. solve_decision. Defined.
#[export] Instance node_status_eq_dec : EqDecision NodeStatus.
Proof. solve_decision. Defined.

Record NodeState := mkNodeState {
  ns_status : NodeStatus;
  ns_outcome : NodeOutcome;
  ns_attempts : Z;
  ns_rebases : Z;
  ns_waited : Z;
  ns_dispatchKey : string
}.

Record ResolvedInput := mkResolved { ri_from : string; ri_path : list string; ri_value : Value }.

Record DispatchStart := mkStart {
  ds_dispatchKey : string;
  ds_attempts : Z;
  ds_rebases : Z;
  ds_waited : Z;
  ds_results : gmap string Value;
  ds_inputs : list ResolvedInput
}.

Record DispatchProgress := mkProgress { dp_dispatchKey : string; dp_attempts : Z; dp_rebases : Z }.

Inductive Dispatched :=
| Completed (clean : bool) (result : Value) (progress : DispatchProgress)
| FailedDispatch (progress : DispatchProgress)
| Conflicted (strategy : RuntimeStrategy) (progress : DispatchProgress).

Definition progress_of (d : Dispatched) : DispatchProgress :=
  match d with Completed _ _ p => p | FailedDispatch p => p | Conflicted _ p => p end.

Inductive SchedulerErrorCode := BoundaryUnavailable | KeyUncomputable | ElaborationFailed | StoreWriteFailed.

(** How a run or a fiber ends without a result: interrupted, by a defect or with a
    [SchedulerError].  [NoFuel] is the model's: a loop was given too little fuel. *)
Inductive Stop :=
| Interrupted
| Died
| SchedulerFailed (code : SchedulerErrorCode)
| NoFuel.

Inductive CoordinatorEvent :=
| AttemptKeyed (nodeId digest : string)
| DispatchSettled (node : PlanNode) (exit : Stop + Dispatched).

(** What a fiber does next: measure and key an attempt, or run it. *)
Inductive FiberPhase := Measuring | Executing.

Record Fiber := mkFiber {
  fb_node : PlanNode;
  fb_start : DispatchStart;
  fb_progress : DispatchProgress;
  fb_phase : FiberPhase
}.

(** ** Selection ([Selection.ts])

    A belief (an edge with its confidence) is carried as it is. *)

Record Belief := mkBelief { be_scope : string; be_affects : string; be_likelihood : string }.

Inductive SelectionVerdict :=
| SelAdmit
| SelDefer (belief : Belief)
| SelPropose (flow : string) (belief : Belief).

(** ** Records of the run's journal ([internal/JournalRecords.ts]) *)

Record DeviationPayload := mkPayload {
  pl_stepKeyDigest : string;
  pl_attempt : Z;
  pl_paths : list string;
  pl_diffIdentity : string
}.

Inductive SchedRecord :=
| RNodeSettled (nodeId planKey dispatchKey : string) (outcome : NodeOutcome) (attempts rebases : Z)
| RNodeReconciled (nodeId trigger : string) (verdict : Verdict)
| RNodeScheduled (nodeId planKey dispatchKey : string) (attempt priority waited : Z)
| RNodeInvalidated (nodeId planKey from to : string)
| RSubgraphAppended (digest baseDigest : string) (generation : Z) (nodeIds : list string)
| RSelectionDeferred (nodeId planKey : string) (belief : Belief)
| RSelectionProposed (flow : string) (belief : Belief)
| RSelectionInconsistent (nodeId reason : string)
| RSelectionOverridden
| RDeviation (payload : DeviationPayload)
| ROther.

(** ** The host *)

Inductive Emitted := Kept | FenceLost | EmitFailed.

Class Host := {
  h_fileSystem : bool;
  h_expandGlob : nat → Glob → option (list string);
  h_filesUnder : nat → string → option (list string);
  h_exists : nat → string → option bool;
  h_isFile : nat → string → option bool;
  (** [StepBoundary.prepare]: the snapshot of a read set. *)
  h_prepare : nat → list string → option (list (string * string));
  (** [PlanStore.append]. *)
  h_store : nat → Plan → bool;
  (** [Journal.emitDurable]. *)
  h_emit : nat → Emitted;
  h_reconciler : Reconciler;
  (** [Selection.select] of the sinks, with the names the plan accounts for. *)
  h_select : list (string * string) → list string → list (string * SelectionVerdict)
}.

Record SchedulerOptions := mkOptions {
  op_steps : option Z;
  op_agents : option Z;
  op_rebaseLimit : option Z;
  op_environment : option EnvironmentIdentity;
  op_full : bool
}.

(** ** The state of a run *)

Record ObservedRead := mkObserved { or_entry : ReadEntry; or_sourcePaths : list string }.

Record PendingDeviation := mkPendingDeviation { pd_nodeId : string; pd_signature : string; pd_payload : DeviationPayload }.

Record PendingMerge := mkPendingMerge { pm_node : PlanNode; pm_peers : list string }.

Record Sched := mkSched {
  sc_plan : Plan;
  sc_states : gmap string NodeState;
  sc_results : gmap string Value;
  sc_verdicts : list (string * Verdict);
  sc_appended : list string;
  sc_discovered : gmap string (list string);
  sc_digestToNode : gmap string (list string);
  sc_signatures : list (string * string);  (* in insertion order *)
  sc_writers : gmap string string;
  sc_writerEntries : list (Entry * string);
  sc_cursor : nat;  (* the entries read *)
  sc_events : list CoordinatorEvent;
  sc_pendingSettlements : list (PlanNode * (Stop + Dispatched));
  sc_pendingDeviations : list PendingDeviation;
  sc_pendingMerges : list PendingMerge;
  sc_deferrals : gmap string Belief;
  sc_pinned : gmap string string;
  sc_observedReads : gmap string (list ObservedRead);
  sc_inFlightSteps : Z;
  sc_inFlightAgents : Z;
  sc_fibers : gmap string Fiber;
  sc_journal : list SchedRecord;
  sc_calls : nat
}.

(** One field at a time. *)
Definition set_plan (x : Plan) (s : Sched) : Sched :=
  mkSched x (sc_states s) (sc_results s) (sc_verdicts s) (sc_appended s) (sc_discovered s) (sc_digestToNode s) (sc_signatures s) (sc_writers s) (sc_writerEntries s) (sc_cursor s) (sc_events s) (sc_pendingSettlements s) (sc_pendingDeviations s) (sc_pendingMerges s) (sc_deferrals s) (sc_pinned s) (sc_observedReads s) (sc_inFlightSteps s) (sc_inFlightAgents s) (sc_fibers s) (sc_journal s) (sc_calls s).
Definition set_states (x : gmap string NodeState) (s : Sched) : Sched :=
  mkSched (sc_plan s) x (sc_results s) (sc_verdicts s) (sc_appended s) (sc_discovered s) (sc_digestToNode s) (sc_signatures s) (sc_writers s) (sc_writerEntries s) (sc_cursor s) (sc_events s) (sc_pendingSettlements s) (sc_pendingDeviations s) (sc_pendingMerges s) (sc_deferrals s) (sc_pinned s) (sc_observedReads s) (sc_inFlightSteps s) (sc_inFlightAgents s) (sc_fibers s) (sc_journal s) (sc_calls s).
Definition set_results (x : gmap string Value) (s : Sched) : Sched :=
  mkSched (sc_plan s) (sc_states s) x (sc_verdicts s) (sc_appended s) (sc_discovered s) (sc_digestToNode s) (sc_signatures s) (sc_writers s) (sc_writerEntries s) (sc_cursor s) (sc_events s) (sc_pendingSettlements s) (sc_pendingDeviations s) (sc_pendingMerges s) (sc_deferrals s) (sc_pinned s) (sc_observedReads s) (sc_inFlightSteps s) (sc_inFlightAgents s) (sc_fibers s) (sc_journal s) (sc_calls s).
Definition set_verdicts (x : list (string * Verdict)) (s : Sched) : Sched :=
  mkSched (sc_plan s) (sc_states s) (sc_results s) x (sc_appended s) (sc_discovered s) (sc_digestToNode s) (sc_signatures s) (sc_writers s) (sc_writerEntries s) (sc_cursor s) (sc_events s) (sc_pendingSettlements s) (sc_pendingDeviations s) (sc_pendingMerges s) (sc_deferrals s) (sc_pinned s) (sc_observedReads s) (sc_inFlightSteps s) (sc_inFlightAgents s) (sc_fibers s) (sc_journal s) (sc_calls s).
Definition set_appended (x : list string) (s : Sched) : Sched :=
  mkSched (sc_plan s) (sc_states s) (sc_results s) (sc_verdicts s) x (sc_discovered s) (sc_digestToNode s) (sc_signatures s) (sc_writers s) (sc_writerEntries s) (sc_cursor s) (sc_events s) (sc_pendingSettlements s) (sc_pendingDeviations s) (sc_pendingMerges s) (sc_deferrals s) (sc_pinned s) (sc_observedReads s) (sc_inFlightSteps s) (sc_inFlightAgents s) (sc_fibers s) (sc_journal s) (sc_calls s).
Definition set_discovered (x : gmap string (list string)) (s : Sched) : Sched :=
  mkSched (sc_plan s) (sc_states s) (sc_results s) (sc_verdicts s) (sc_appended s) x (sc_digestToNode s) (sc_signatures s) (sc_writers s) (sc_writerEntries s) (sc_cursor s) (sc_events s) (sc_pendingSettlements s) (sc_pendingDeviations s) (sc_pendingMerges s) (sc_deferrals s) (sc_pinned s) (sc_observedReads s) (sc_inFlightSteps s) (sc_inFlightAgents s) (sc_fibers s) (sc_journal s) (sc_calls s).
Definition set_digestToNode (x : gmap string (list string)) (s : Sched) : Sched :=
  mkSched (sc_plan s) (sc_states s) (sc_results s) (sc_verdicts s) (sc_appended s) (sc_discovered s) x (sc_signatures s) (sc_writers s) (sc_writerEntries s) (sc_cursor s) (sc_events s) (sc_pendingSettlements s) (sc_pendingDeviations s) (sc_pendingMerges s) (sc_deferrals s) (sc_pinned s) (sc_observedReads s) (sc_inFlightSteps s) (sc_inFlightAgents s) (sc_fibers s) (sc_journal s) (sc_calls s).
Definition set_signatures (x : list (string * string)) (s : Sched) : Sched :=
  mkSched (sc_plan s) (sc_states s) (sc_results s) (sc_verdicts s) (sc_appended s) (sc_discovered s) (sc_digestToNode s) x (sc_writers s) (sc_writerEntries s) (sc_cursor s) (sc_events s) (sc_pendingSettlements s) (sc_pendingDeviations s) (sc_pendingMerges s) (sc_deferrals s) (sc_pinned s) (sc_observedReads s) (sc_inFlightSteps s) (sc_inFlightAgents s) (sc_fibers s) (sc_journal s) (sc_calls s).
Definition set_writers (x : gmap string string) (s : Sched) : Sched :=
  mkSched (sc_plan s) (sc_states s) (sc_results s) (sc_verdicts s) (sc_appended s) (sc_discovered s) (sc_digestToNode s) (sc_signatures s) x (sc_writerEntries s) (sc_cursor s) (sc_events s) (sc_pendingSettlements s) (sc_pendingDeviations s) (sc_pendingMerges s) (sc_deferrals s) (sc_pinned s) (sc_observedReads s) (sc_inFlightSteps s) (sc_inFlightAgents s) (sc_fibers s) (sc_journal s) (sc_calls s).
Definition set_writerEntries (x : list (Entry * string)) (s : Sched) : Sched :=
  mkSched (sc_plan s) (sc_states s) (sc_results s) (sc_verdicts s) (sc_appended s) (sc_discovered s) (sc_digestToNode s) (sc_signatures s) (sc_writers s) x (sc_cursor s) (sc_events s) (sc_pendingSettlements s) (sc_pendingDeviations s) (sc_pendingMerges s) (sc_deferrals s) (sc_pinned s) (sc_observedReads s) (sc_inFlightSteps s) (sc_inFlightAgents s) (sc_fibers s) (sc_journal s) (sc_calls s).
Definition set_cursor (x : nat) (s : Sched) : Sched :=
  mkSched (sc_plan s) (sc_states s) (sc_results s) (sc_verdicts s) (sc_appended s) (sc_discovered s) (sc_digestToNode s) (sc_signatures s) (sc_writers s) (sc_writerEntries s) x (sc_events s) (sc_pendingSettlements s) (sc_pendingDeviations s) (sc_pendingMerges s) (sc_deferrals s) (sc_pinned s) (sc_observedReads s) (sc_inFlightSteps s) (sc_inFlightAgents s) (sc_fibers s) (sc_journal s) (sc_calls s).
Definition set_events (x : list CoordinatorEvent) (s : Sched) : Sched :=
  mkSched (sc_plan s) (sc_states s) (sc_results s) (sc_verdicts s) (sc_appended s) (sc_discovered s) (sc_digestToNode s) (sc_signatures s) (sc_writers s) (sc_writerEntries s) (sc_cursor s) x (sc_pendingSettlements s) (sc_pendingDeviations s) (sc_pendingMerges s) (sc_deferrals s) (sc_pinned s) (sc_observedReads s) (sc_inFlightSteps s) (sc_inFlightAgents s) (sc_fibers s) (sc_journal s) (sc_calls s).
Definition set_pendingSettlements (x : list (PlanNode * (Stop + Dispatched))) (s : Sched) : Sched :=
  mkSched (sc_plan s) (sc_states s) (sc_results s) (sc_verdicts s) (sc_appended s) (sc_discovered s) (sc_digestToNode s) (sc_signatures s) (sc_writers s) (sc_writerEntries s) (sc_cursor s) (sc_events s) x (sc_pendingDeviations s) (sc_pendingMerges s) (sc_deferrals s) (sc_pinned s) (sc_observedReads s) (sc_inFlightSteps s) (sc_inFlightAgents s) (sc_fibers s) (sc_journal s) (sc_calls s).
Definition set_pendingDeviations (x : list PendingDeviation) (s : Sched) : Sched :=
  mkSched (sc_plan s) (sc_states s) (sc_results s) (sc_verdicts s) (sc_appended s) (sc_discovered s) (sc_digestToNode s) (sc_signatures s) (sc_writers s) (sc_writerEntries s) (sc_cursor s) (sc_events s) (sc_pendingSettlements s) x (sc_pendingMerges s) (sc_deferrals s) (sc_pinned s) (sc_observedReads s) (sc_inFlightSteps s) (sc_inFlightAgents s) (sc_fibers s) (sc_journal s) (sc_calls s).
Definition set_pendingMerges (x : list PendingMerge) (s : Sched) : Sched :=
  mkSched (sc_plan s) (sc_states s) (sc_results s) (sc_verdicts s) (sc_appended s) (sc_discovered s) (sc_digestToNode s) (sc_signatures s) (sc_writers s) (sc_writerEntries s) (sc_cursor s) (sc_events s) (sc_pendingSettlements s) (sc_pendingDeviations s) x (sc_deferrals s) (sc_pinned s) (sc_observedReads s) (sc_inFlightSteps s) (sc_inFlightAgents s) (sc_fibers s) (sc_journal s) (sc_calls s).
Definition set_deferrals (x : gmap string Belief) (s : Sched) : Sched :=
  mkSched (sc_plan s) (sc_states s) (sc_results s) (sc_verdicts s) (sc_appended s) (sc_discovered s) (sc_digestToNode s) (sc_signatures s) (sc_writers s) (sc_writerEntries s) (sc_cursor s) (sc_events s) (sc_pendingSettlements s) (sc_pendingDeviations s) (sc_pendingMerges s) x (sc_pinned s) (sc_observedReads s) (sc_inFlightSteps s) (sc_inFlightAgents s) (sc_fibers s) (sc_journal s) (sc_calls s).
Definition set_pinned (x : gmap string string) (s : Sched) : Sched :=
  mkSched (sc_plan s) (sc_states s) (sc_results s) (sc_verdicts s) (sc_appended s) (sc_discovered s) (sc_digestToNode s) (sc_signatures s) (sc_writers s) (sc_writerEntries s) (sc_cursor s) (sc_events s) (sc_pendingSettlements s) (sc_pendingDeviations s) (sc_pendingMerges s) (sc_deferrals s) x (sc_observedReads s) (sc_inFlightSteps s) (sc_inFlightAgents s) (sc_fibers s) (sc_journal s) (sc_calls s).
Definition set_observedReads (x : gmap string (list ObservedRead)) (s : Sched) : Sched :=
  mkSched (sc_plan s) (sc_states s) (sc_results s) (sc_verdicts s) (sc_appended s) (sc_discovered s) (sc_digestToNode s) (sc_signatures s) (sc_writers s) (sc_writerEntries s) (sc_cursor s) (sc_events s) (sc_pendingSettlements s) (sc_pendingDeviations s) (sc_pendingMerges s) (sc_deferrals s) (sc_pinned s) x (sc_inFlightSteps s) (sc_inFlightAgents s) (sc_fibers s) (sc_journal s) (sc_calls s).
Definition set_inFlightSteps (x : Z) (s : Sched) : Sched :=
  mkSched (sc_plan s) (sc_states s) (sc_results s) (sc_verdicts s) (sc_appended s) (sc_discovered s) (sc_digestToNode s) (sc_signatures s) (sc_writers s) (sc_writerEntries s) (sc_cursor s) (sc_events s) (sc_pendingSettlements s) (sc_pendingDeviations s) (sc_pendingMerges s) (sc_deferrals s) (sc_pinned s) (sc_observedReads s) x (sc_inFlightAgents s) (sc_fibers s) (sc_journal s) (sc_calls s).
Definition set_inFlightAgents (x : Z) (s : Sched) : Sched :=
  mkSched (sc_plan s) (sc_states s) (sc_results s) (sc_verdicts s) (sc_appended s) (sc_discovered s) (sc_digestToNode s) (sc_signatures s) (sc_writers s) (sc_writerEntries s) (sc_cursor s) (sc_events s) (sc_pendingSettlements s) (sc_pendingDeviations s) (sc_pendingMerges s) (sc_deferrals s) (sc_pinned s) (sc_observedReads s) (sc_inFlightSteps s) x (sc_fibers s) (sc_journal s) (sc_calls s).
Definition set_fibers (x : gmap string Fiber) (s : Sched) : Sched :=
  mkSched (sc_plan s) (sc_states s) (sc_results s) (sc_verdicts s) (sc_appended s) (sc_discovered s) (sc_digestToNode s) (sc_signatures s) (sc_writers s) (sc_writerEntries s) (sc_cursor s) (sc_events s) (sc_pendingSettlements s) (sc_pendingDeviations s) (sc_pendingMerges s) (sc_deferrals s) (sc_pinned s) (sc_observedReads s) (sc_inFlightSteps s) (sc_inFlightAgents s) x (sc_journal s) (sc_calls s).
Definition set_journal (x : list SchedRecord) (s : Sched) : Sched :=
  mkSched (sc_plan s) (sc_states s) (sc_results s) (sc_verdicts s) (sc_appended s) (sc_discovered s) (sc_digestToNode s) (sc_signatures s) (sc_writers s) (sc_writerEntries s) (sc_cursor s) (sc_events s) (sc_pendingSettlements s) (sc_pendingDeviations s) (sc_pendingMerges s) (sc_deferrals s) (sc_pinned s) (sc_observedReads s) (sc_inFlightSteps s) (sc_inFlightAgents s) (sc_fibers s) x (sc_calls s).
Definition set_calls (x : nat) (s : Sched) : Sched :=
  mkSched (sc_plan s) (sc_states s) (sc_results s) (sc_verdicts s) (sc_appended s) (sc_discovered s) (sc_digestToNode s) (sc_signatures s) (sc_writers s) (sc_writerEntries s) (sc_cursor s) (sc_events s) (sc_pendingSettlements s) (sc_pendingDeviations s) (sc_pendingMerges s) (sc_deferrals s) (sc_pinned s) (sc_observedReads s) (sc_inFlightSteps s) (sc_inFlightAgents s) (sc_fibers s) (sc_journal s) x.

(** ** Operations *)

Definition C : Type → Type := ME Sched Stop.

Definition fresh_state : NodeState := mkNodeState SPending OSkipped 0 0 0 "".

(** [stateOf]: a node that was not looked at yet is pending. *)
Definition state_in (states : gmap string NodeState) (id : string) : NodeState := default fresh_state (states !! id).
Definition stateOf (id : string) (s : Sched) : NodeState := state_in (sc_states s) id.

Definition with_status (status : NodeStatus) (outcome : NodeOutcome) (n : NodeState) : NodeState :=
  mkNodeState status outcome (ns_attempts n) (ns_rebases n) (ns_waited n) (ns_dispatchKey n).
Definition with_progress (p : DispatchProgress) (n : NodeState) : NodeState :=
  mkNodeState (ns_status n) (ns_outcome n) (dp_attempts p) (dp_rebases p) (ns_waited n) (dp_dispatchKey p).
Definition with_waited (w : Z) (n : NodeState) : NodeState :=
  mkNodeState (ns_status n) (ns_outcome n) (ns_attempts n) (ns_rebases n) w (ns_dispatchKey n).

Definition change_state (id : string) (f : NodeState → NodeState) (s : Sched) : Sched :=
  set_states (<[id := f (stateOf id s)]> (sc_states s)) s.

(** The states of all nodes of the plan, as a pass that asks for each creates them. *)
Definition touch_all (s : Sched) : Sched :=
  set_states (fold_left (λ m node, match m !! pn_id node with Some _ => m | None => <[pn_id node := fresh_state]> m end)
                (pl_nodes (sc_plan s)) (sc_states s)) s.

Definition sort_strings (l : list string) : list string := merge_sort unit_le l.
Definition sorted_set (l : list string) : list string := sort_strings (distinct [] l).

(** [map.set(key, value)] of a map kept in insertion order. *)
Fixpoint assoc_set (k v : string) (l : list (string * string)) : list (string * string) :=
  match l with
  | [] => [(k, v)]
  | (k', v') :: l => if bool_decide (k' = k) then (k, v) :: l else (k', v') :: assoc_set k v l
  end.

(** *** Writers *)

Definition writer_entries (nodes : list PlanNode) : list (Entry * string) :=
  flat_map (λ node, (λ entry, (entry, pn_id node)) <$> produces (pn_effects node)) nodes.

(** The first declaration of a path wins. *)
Definition writer_paths (entries : list (Entry * string)) : gmap string string :=
  fold_left (λ m en, match fst en with
                     | EPath p => match m !! p with Some _ => m | None => <[p := snd en]> m end
                     | _ => m
                     end) entries ∅.

Definition indexWriters (s : Sched) : Sched :=
  let entries := writer_entries (pl_nodes (sc_plan s)) in
  set_writers (writer_paths entries) (set_writerEntries entries s).

Definition writerFor (path : string) (s : Sched) : option string :=
  match sc_writers s !! path with
  | Some id => Some id
  | None => snd <$> List.find (λ en, overlaps (fst en) (EPath path)) (sc_writerEntries s)
  end.

Definition covered (path : string) (s : Sched) : bool := negb (is_null (writerFor path s)).

Definition dependenciesOf (node : PlanNode) (s : Sched) : list string :=
  pn_dependsOn node ++ default [] (sc_discovered s !! pn_id node).

Definition runtimeStrategyOf (node : PlanNode) : RuntimeStrategy :=
  if existsb (λ c, bool_decide (ca_runtime c = StopMerge)) (pn_conflicts node) then StopMerge else pn_runtime node.

Definition is_agent (node : PlanNode) : bool := match pn_kind node with AgentNode => true | _ => false end.
Definition settled_in (s : Sched) (id : string) : bool := bool_decide (ns_status (stateOf id s) = SSettled).
Definition running_in (s : Sched) (id : string) : bool := bool_decide (ns_status (stateOf id s) = SRunning).

Section Scheduler.
Context `{Crypto} `{Host} (o : SchedulerOptions).

Definition rebaseLimit : Z := default 3%Z (op_rebaseLimit o).
Definition stepCap : Z := Z.max 1 (default max_safe_integer (op_steps o)).
Definition agentCap : Z := Z.max 1 (default max_safe_integer (op_agents o)).

(** One call of a service. *)
Definition call {A} (f : nat → A) : C A := λ s, (inr (f (sc_calls s)), set_calls (S (sc_calls s)) s).

Definition host_answer {A} (f : nat → option A) : C A :=
  a <- call f ;;
  match a with Some a => ret a | None => fail (SchedulerFailed BoundaryUnavailable) end.

Definition emit (r : SchedRecord) : C () :=
  e <- call h_emit ;;
  match e with
  | Kept => modify (λ s, set_journal (sc_journal s ++ [r]) s)
  | FenceLost => fail Interrupted
  | EmitFailed => fail (SchedulerFailed StoreWriteFailed)
  end.

(** *** Reads *)

Definition expand_read (entry : ReadEntry) : C (ReadEntry * list string) :=
  match entry with
  | RPath p => ret (entry, [p])
  | RGlob g =>
      if negb h_fileSystem then fail (SchedulerFailed BoundaryUnavailable)
      else paths <- host_answer (λ n, h_expandGlob n g) ;; ret (entry, paths)
  end.

Definition prepare (paths : list string) : C (list (string * string)) :=
  host_answer (λ n, h_prepare n (sorted_set paths)).

(** The files an entry that is written contributes to a glob. *)
Definition produced_entry (g : Glob) (entry : Entry) : C (list string) :=
  if negb (overlaps (EGlob g) entry) then ret []
  else match entry with
       | EPath p =>
           present <- host_answer (λ n, h_exists n p) ;;
           if negb present then ret []
           else file <- host_answer (λ n, h_isFile n p) ;; ret (if file : bool then [p] else [])
       | EGlob g' =>
           paths <- host_answer (λ n, h_expandGlob n g') ;; ret (List.filter (matchesGlob g) paths)
       | ETree t =>
           paths <- host_answer (λ n, h_filesUnder n t) ;; ret (List.filter (matchesGlob g) paths)
       end.

Definition expandProducedMatches (g : Glob) : C (list string) :=
  if negb h_fileSystem then fail (SchedulerFailed BoundaryUnavailable)
  else
    entries <- gets sc_writerEntries ;;
    found <- for_each (λ en, produced_entry g (fst en)) entries ;;
    s <- gets (λ s, s) ;;
    ret (sort_strings (List.filter (λ path, covered path s) (distinct [] (concat found)))).

(** One node of [observeReads]: its source paths that are not pinned yet. *)
Definition observe_node (node : PlanNode) : C (list string) :=
  expanded <- for_each expand_read (expandReads (ne_reads (pn_effects node))) ;;
  s <- gets (λ s, s) ;;
  let observed := (λ ep : ReadEntry * list string, mkObserved (fst ep) (List.filter (λ p, negb (covered p s)) (snd ep))) <$> expanded in
  modify (λ s, set_observedReads (<[pn_id node := observed]> (sc_observedReads s)) s) ;;
  ret (List.filter (λ p, is_null (sc_pinned s !! p)) (flat_map or_sourcePaths observed)).

Definition pin_all (snapshot : list (string * string)) (m : gmap string string) : gmap string string :=
  fold_left (λ m pd, <[fst pd := snd pd]> m) snapshot m.

Definition observeReads (nodes : list PlanNode) : C () :=
  unpinned <- for_each observe_node nodes ;;
  match concat unpinned with
  | [] => ret tt
  | paths =>
      snapshot <- prepare paths ;;
      modify (λ s, set_pinned (pin_all snapshot (sc_pinned s)) s)
  end.

(** One read of [measure]: pinned digests, and paths that are produced. *)
Definition measure_read (read : ObservedRead) (acc : gmap string string * list string) : C (gmap string string * list string) :=
  s <- gets (λ s, s) ;;
  let pins := (λ p, (p, default "" (sc_pinned s !! p))) <$> or_sourcePaths read in
  match or_entry read with
  | RPath p =>
      match or_sourcePaths read with
      | [] => ret (fst acc, snd acc ++ [p])
      | _ => ret (<[p := default "" (sc_pinned s !! p)]> (fst acc), snd acc)
      end
  | RGlob g =>
      found <- expandProducedMatches g ;;
      ret (pin_all pins (fst acc), snd acc ++ found)
  end.

Fixpoint measure_reads (reads : list ObservedRead) (acc : gmap string string * list string) : C (gmap string string * list string) :=
  match reads with
  | [] => ret acc
  | read :: reads => acc <- measure_read read acc ;; measure_reads reads acc
  end.

(** The boundary of a node, its read set sorted by path. *)
Definition measure (node : PlanNode) : C Hermetic :=
  observed <- gets (λ s, default [] (sc_observedReads s !! pn_id node)) ;;
  acc <- measure_reads observed (∅, []) ;;
  measured <- (match distinct [] (snd acc) with
               | [] => ret (fst acc)
               | produced => snapshot <- prepare produced ;; ret (pin_all snapshot (fst acc))
               end) ;;
  ret (mkHermetic (merge_sort read_le (map_to_list measured)) (expand (ne_writes (pn_effects node)))
         (ne_removes (pn_effects node)) (ne_boundaryMode (pn_effects node))).

(** [Object.fromEntries]: a result that is not there is an own [undefined]. *)
Definition ref_results (m : KeyMaterial) (settled : gmap string Value) : gmap string Value :=
  fold_left (λ r input, match input with
                        | Ref from _ => <[from := default VUndefined (settled !! from)]> r
                        | _ => r
                        end) (km_inputs m) ∅.

Definition dispatchKeyFor (node : PlanNode) (boundary : Hermetic) (settled : gmap string Value) : C string :=
  match dispatchIdentity (pn_material node) (ref_results (pn_material node) settled) boundary (op_environment o) with
  | inr key => ret key
  | inl _ => fail (SchedulerFailed KeyUncomputable)
  end.

(** *** Settlements and verdicts *)

Definition settle (node : PlanNode) (outcome : NodeOutcome) : C () :=
  modify (change_state (pn_id node) (with_status SSettled outcome)) ;;
  state <- gets (stateOf (pn_id node)) ;;
  emit (RNodeSettled (pn_id node) (pn_key node) (ns_dispatchKey state) outcome (ns_attempts state) (ns_rebases state)).

(** The edge of a [Reorder]: only work that has not been dispatched is bound. *)
Definition discover (nodeId owner : string) (s : Sched) : Sched :=
  match sc_states s !! owner with
  | Some state =>
      if bool_decide (ns_status state = SPending)
      then set_discovered (<[owner := distinct [] (default [] (sc_discovered s !! owner) ++ [nodeId])]> (sc_discovered s)) s
      else s
  | None => s
  end.

Definition applyVerdict (nodeId : string) (verdict : Verdict) (trigger : string) : C () :=
  modify (λ s, set_verdicts (sc_verdicts s ++ [(nodeId, verdict)]) s) ;;
  emit (RNodeReconciled nodeId trigger verdict) ;;
  match verdict with
  | VFail _ =>
      modify (change_state nodeId (with_status SSettled OFailed)) ;;
      modify (λ s, set_results (delete nodeId (sc_results s)) s)
  | VReorder owners _ => modify (λ s, fold_left (λ s owner, discover nodeId owner s) owners s)
  | VFactorOut _ _ => ret tt
  end.

(** *** Merges *)

Definition merge_draft (node : PlanNode) (winners : list string) : NodeDraft :=
  mkDraft (pn_id node +:+ "+merge")
    (mkMaterial Sealed false (VObj [member "merge" (VObj [member "stopped" (str (pn_id node)); member "winners" (strs winners)])])
       (Pending <$> winners) [] [] None None)
    (pn_effects node) (Some MergeNode) None None None.

Definition appendMerge (node : PlanNode) : C () :=
  s <- gets (λ s, s) ;;
  let winners := List.filter (λ id, negb (is_null (sc_results s !! id))) (ca_with <$> pn_conflicts node) in
  match append (sc_plan s) [merge_draft node winners] with
  | Some (inr grown) =>
      modify (λ s, indexWriters (set_plan grown s)) ;;
      observeReads (generationNodes grown) ;;
      modify (λ s, set_appended (sc_appended s ++ [pn_id node +:+ "+merge"]) s) ;;
      stored <- call (λ n, h_store n grown) ;;
      (if negb stored then fail (SchedulerFailed StoreWriteFailed)
       else emit (RSubgraphAppended (pl_digest grown) (pl_baseDigest grown) (pl_generation grown) (pn_id <$> generationNodes grown)))
  | _ => fail (SchedulerFailed ElaborationFailed)
  end.

(** The merges whose conflicting peers have all reported, in order. *)
Fixpoint append_ready (pending : list PendingMerge) : C (list PendingMerge) :=
  match pending with
  | [] => ret []
  | m :: pending =>
      s <- gets (λ s, s) ;;
      if existsb (running_in s) (pm_peers m)
      then rest <- append_ready pending ;; ret (m :: rest)
      else appendMerge (pm_node m) ;; append_ready pending
  end.

Definition appendReadyMerges : C () :=
  pending <- gets sc_pendingMerges ;;
  rest <- append_ready pending ;;
  modify (set_pendingMerges rest).

(** *** Fibers *)

(** What running an attempt under its key ([ActionPersistence]) came to: a value, from
    an execution or from the records; an interruption; a conflict of materialization; or
    another failure. *)
Inductive Ran :=
| RanValue (executed : bool) (v : Value)
| RanInterrupted
| RanConflict
| RanFailed.

Inductive FiberStep :=
| FMeasure (nodeId : string)
| FRan (nodeId : string) (r : Ran)
| FRecord (r : SchedRecord).

Definition offer (e : CoordinatorEvent) (s : Sched) : Sched := set_events (sc_events s ++ [e]) s.

Definition put_fiber (f : Fiber) (s : Sched) : Sched := set_fibers (<[pn_id (fb_node f) := f]> (sc_fibers s)) s.

(** The end of a fiber: its report. *)
Definition report_exit (node : PlanNode) (exit : Stop + Dispatched) (s : Sched) : Sched :=
  offer (DispatchSettled node exit) (set_fibers (delete (pn_id node) (sc_fibers s)) s).

(** The head of the loop of [dispatch]: measure, key, count and record the attempt. *)
Definition key_attempt (f : Fiber) : C () :=
  let node := fb_node f in
  boundary <- measure node ;;
  measuredKey <- dispatchKeyFor node boundary (ds_results (fb_start f)) ;;
  let before := dp_dispatchKey (fb_progress f) in
  (if negb (bool_decide (before = "")) && negb (bool_decide (before = measuredKey))
   then emit (RNodeInvalidated (pn_id node) (pn_key node) before measuredKey) else ret tt) ;;
  let attempts := (dp_attempts (fb_progress f) + 1)%Z in
  emit (RNodeScheduled (pn_id node) (pn_key node) measuredKey attempts (pn_priority node) (ds_waited (fb_start f))) ;;
  match Sha256 (of_string measuredKey) with
  | inl _ => fail Died
  | inr d =>
      modify (offer (AttemptKeyed (pn_id node) d)) ;;
      modify (put_fiber (mkFiber node (fb_start f) (mkProgress measuredKey attempts (dp_rebases (fb_progress f))) Executing))
  end.

(** The rest of the loop, for what the attempt came to. *)
Definition after_attempt (f : Fiber) (r : Ran) (s : Sched) : Sched :=
  let node := fb_node f in
  let p := fb_progress f in
  match r with
  | RanValue executed v => report_exit node (inr (Completed (negb executed) v p)) s
  | RanInterrupted => report_exit node (inl Interrupted) s
  | RanFailed => report_exit node (inr (FailedDispatch p)) s
  | RanConflict =>
      let strategy := runtimeStrategyOf node in
      if bool_decide (strategy = DelayRebase) && bool_decide (dp_rebases p < rebaseLimit)%Z
      then put_fiber (mkFiber node (fb_start f) (mkProgress (dp_dispatchKey p) (dp_attempts p) (dp_rebases p + 1)) Measuring) s
      else report_exit node (inr (Conflicted strategy p)) s
  end.

(** A step of a fiber, or a record somebody appends to the run's journal; a step that is
    not enabled does nothing. *)
Definition fiber_step (step : FiberStep) (s : Sched) : Sched :=
  match step with
  | FMeasure id =>
      match sc_fibers s !! id with
      | Some f =>
          match fb_phase f with
          | Measuring =>
              match key_attempt f s with
              | (inr _, s') => s'
              | (inl e, s') => report_exit (fb_node f) (inl e) s'
              end
          | Executing => s
          end
      | None => s
      end
  | FRan id r =>
      match sc_fibers s !! id with
      | Some f => match fb_phase f with Executing => after_attempt f r s | Measuring => s end
      | None => s
      end
  | FRecord r => set_journal (sc_journal s ++ [r]) s
  end.

Definition fiber_steps (steps : list FiberStep) (s : Sched) : Sched := fold_left (λ s step, fiber_step step s) steps s.

(** *** Reports *)

Definition registerAttempt (nodeId digest : string) (s : Sched) : Sched :=
  match sc_digestToNode s !! digest with
  | None => set_digestToNode (<[digest := [nodeId]]> (sc_digestToNode s)) s
  | Some ids =>
      if bool_decide (nodeId ∈ ids) then s
      else set_digestToNode (<[digest := ids ++ [nodeId]]> (sc_digestToNode s)) s
  end.

Definition absorb (s : Sched) (e : CoordinatorEvent) : Sched :=
  match e with
  | AttemptKeyed id d => registerAttempt id d s
  | DispatchSettled node exit => set_pendingSettlements (sc_pendingSettlements s ++ [(node, exit)]) s
  end.

Definition drainReportedEvents (s : Sched) : Sched := set_events [] (fold_left absorb (sc_events s) s).

(** [Queue.take] until a report of an end; [None] when the queue is empty before. *)
Fixpoint take_settlement (events : list CoordinatorEvent) (s : Sched) : option (PlanNode * (Stop + Dispatched)) * Sched :=
  match events with
  | [] => (None, set_events [] s)
  | AttemptKeyed id d :: events => take_settlement events (registerAttempt id d s)
  | DispatchSettled node exit :: events => (Some (node, exit), set_events events s)
  end.

Definition nextSettlement (s : Sched) : option (PlanNode * (Stop + Dispatched)) * Sched :=
  match sc_pendingSettlements s with
  | x :: rest => (Some x, set_pendingSettlements rest s)
  | [] => take_settlement (sc_events s) s
  end.

(** *** Deviations *)

Definition page_limit : nat := 512.

Definition attribute (s : Sched) (r : SchedRecord) : Sched :=
  match r with
  | RDeviation payload =>
      match sc_digestToNode s !! pl_stepKeyDigest payload with
      | None => s
      | Some nodeIds =>
          let built id := bool_decide (ns_outcome (stateOf id s) = OBuilt) in
          let nodeId := default (default "" (head nodeIds)) (List.find built nodeIds) in
          let signature := join " "%char (sort_strings (pl_paths payload)) in
          set_pendingDeviations (sc_pendingDeviations s ++ [mkPendingDeviation nodeId signature payload])
            (set_signatures (assoc_set nodeId signature (sc_signatures s)) s)
      end
  | _ => s
  end.

Definition deviation_of (d : PendingDeviation) (s : Sched) : Deviation :=
  let payload := pd_payload d in
  mkDeviation (pd_nodeId d) (pl_stepKeyDigest payload) (pl_attempt payload) (pl_paths payload) (pl_diffIdentity payload)
    (omap (λ path, (λ owner, (path, owner)) <$> writerFor path s) (pl_paths payload))
    (fst <$> List.filter (λ ks, negb (bool_decide (fst ks = pd_nodeId d)) && bool_decide (snd ks = pd_signature d)) (sc_signatures s)).

(** The deviations of settled nodes are judged, in order; the others wait. *)
Fixpoint judge (pending : list PendingDeviation) : C (list PendingDeviation) :=
  match pending with
  | [] => ret []
  | d :: pending =>
      s <- gets (λ s, s) ;;
      if settled_in s (pd_nodeId d)
      then applyVerdict (pd_nodeId d) (onDeviation h_reconciler (deviation_of d s)) "deviation" ;; judge pending
      else rest <- judge pending ;; ret (d :: rest)
  end.

(** What the fibers do while the coordinator reads one page: before the read, and
    between the read and the reports. *)
Definition Arrivals : Type := list (list FiberStep * list FiberStep).

(** [drainDeviations], a page at a time. *)
Fixpoint drainDeviations (fuel : nat) (arrivals : Arrivals) : C () :=
  match fuel with
  | O => fail NoFuel
  | S fuel =>
      let now := default ([], []) (head arrivals) in
      modify (fiber_steps (fst now)) ;;
      s <- gets (λ s, s) ;;
      let unread := drop (sc_cursor s) (sc_journal s) in
      let page := take page_limit unread in
      modify (fiber_steps (snd now)) ;;
      modify drainReportedEvents ;;
      modify (λ s, set_cursor (sc_cursor s + length page) (fold_left attribute page s)) ;;
      pending <- gets sc_pendingDeviations ;;
      rest <- judge pending ;;
      modify (set_pendingDeviations rest) ;;
      if bool_decide (page_limit < length unread) then drainDeviations fuel (tail arrivals) else ret tt
  end.

(** Every round that has a successor reads a page, a record is read once, a deviation is
    judged once, and a verdict adds one record. *)
Definition record_weight (r : SchedRecord) : nat := match r with RDeviation _ => 3 | _ => 1 end.
Definition arrivals_weight (arrivals : Arrivals) : nat :=
  sum_list_with (λ a, 3 * length (fst a) + 3 * length (snd a)) arrivals.
Definition drain_fuel (arrivals : Arrivals) (s : Sched) : nat :=
  2 + sum_list_with record_weight (drop (sc_cursor s) (sc_journal s)) + 2 * length (sc_pendingDeviations s) + arrivals_weight arrivals.

(** *** Selection *)

Definition sinks_of (nodes : list PlanNode) : list PlanNode :=
  let dependedOn := flat_map pn_dependsOn nodes in
  List.filter (λ node, negb (bool_decide (pn_id node ∈ dependedOn))) nodes.

Definition consider (sinkIds present : list string) (x : string * SelectionVerdict) : C () :=
  let nodeId := fst x in
  match snd x with
  | SelAdmit => ret tt
  | SelDefer belief =>
      if bool_decide (nodeId ∈ sinkIds) then modify (λ s, set_deferrals (<[nodeId := belief]> (sc_deferrals s)) s)
      else emit (RSelectionInconsistent nodeId "not-a-deferrable-sink")
  | SelPropose flow belief =>
      if negb (bool_decide (nodeId ∈ present)) then emit (RSelectionProposed flow belief)
      else emit (RSelectionInconsistent nodeId "proposes-a-present-node")
  end.

Definition consult : C () :=
  if op_full o then emit RSelectionOverridden
  else
    plan <- gets sc_plan ;;
    let sinks := sinks_of (pl_nodes plan) in
    let present := distinct [] (pl_flow plan :: (pn_id <$> pl_nodes plan)) in
    for_each (consider (pn_id <$> sinks) present) (h_select ((λ node, (pn_id node, pn_key node)) <$> sinks) present) ;;
    ret tt.

(** *** Admission *)

Definition blocking (outcome : NodeOutcome) : bool :=
  match outcome with OFailed | OSkipped | ODeferred => true | OBuilt | OClean => false end.

Definition unsettled_dependency (s : Sched) (node : PlanNode) : bool :=
  existsb (λ id, negb (settled_in s id)) (dependenciesOf node s).
Definition blocked_dependency (s : Sched) (node : PlanNode) : bool :=
  existsb (λ id, blocking (ns_outcome (stateOf id s))) (dependenciesOf node s).

Definition pending_nodes (s : Sched) : list PlanNode :=
  List.filter (λ node, bool_decide (ns_status (stateOf (pn_id node) s) = SPending)) (pl_nodes (sc_plan s)).

(** The nodes a pass finds blocked, and the nodes it finds ready. *)
Definition blocked_nodes (s : Sched) : list PlanNode :=
  List.filter (λ node, negb (unsettled_dependency s node) && blocked_dependency s node) (pending_nodes s).
Definition ready_nodes (s : Sched) : list PlanNode :=
  List.filter (λ node, negb (unsettled_dependency s node) && negb (blocked_dependency s node)) (pending_nodes s).

Definition postpone (node : PlanNode) : C () :=
  belief <- gets (λ s, sc_deferrals s !! pn_id node) ;;
  match belief with
  | Some belief =>
      emit (RSelectionDeferred (pn_id node) (pn_key node) belief) ;;
      settle node ODeferred
  | None => ret tt
  end.

Fixpoint passiveSettlements (fuel : nat) : C (list PlanNode) :=
  match fuel with
  | O => fail NoFuel
  | S fuel =>
      modify touch_all ;;
      s <- gets (λ s, s) ;;
      match blocked_nodes s with
      | (_ :: _) as blocked => for_each (λ node, settle node OSkipped) blocked ;; passiveSettlements fuel
      | [] =>
          match List.filter (λ node, negb (is_null (sc_deferrals s !! pn_id node))) (ready_nodes s) with
          | (_ :: _) as postponed => for_each postpone postponed ;; passiveSettlements fuel
          | [] => ret (ready_nodes s)
          end
      end
  end.

(** Every round but the last settles a pending node. *)
Definition passive_fuel (s : Sched) : nat := S (length (pl_nodes (sc_plan s))).
Definition passive : C (list PlanNode) := fuel <- gets passive_fuel ;; passiveSettlements fuel.

Definition dispatchStart (s : Sched) (node : PlanNode) : DispatchStart :=
  let state := stateOf (pn_id node) s in
  let value from := default VUndefined (sc_results s !! from) in
  mkStart (ns_dispatchKey state) (ns_attempts state) (ns_rebases state) (ns_waited state)
    (fold_left (λ r input, match input with Ref from _ => <[from := value from]> r | _ => r end) (km_inputs (pn_material node)) ∅)
    (omap (λ input, match input with
                    | Ref from path => Some (mkResolved from path (project (value from) path))
                    | _ => None
                    end) (km_inputs (pn_material node))).

(** The order of contenders: by priority and age, then by their place in the plan. *)
Definition contender_le (a b : Z * nat * PlanNode) : Prop :=
  (fst (fst b) < fst (fst a))%Z ∨ fst (fst a) = fst (fst b) ∧ snd (fst a) ≤ snd (fst b).
#[local] Instance contender_le_dec : RelDecision contender_le.
Proof. intros a b. unfold contender_le. apply _. Defined.

Definition place (nodes : list PlanNode) (id : string) : nat :=
  default 0 (fst <$> list_find (λ node, pn_id node = id) nodes).

Definition contenders (s : Sched) (ready : list PlanNode) : list PlanNode :=
  snd <$> merge_sort contender_le
    ((λ node, ((pn_priority node + ns_waited (stateOf (pn_id node) s))%Z, place (pl_nodes (sc_plan s)) (pn_id node), node)) <$> ready).

(** The contenders that fit under both caps. *)
Fixpoint choose (steps agents : Z) (l : list PlanNode) : list PlanNode :=
  match l with
  | [] => []
  | node :: l =>
      if bool_decide (stepCap ≤ steps)%Z || is_agent node && bool_decide (agentCap ≤ agents)%Z
      then choose steps agents l
      else node :: choose (steps + 1) (if is_agent node then agents + 1 else agents)%Z l
  end.

Definition age (node : PlanNode) (s : Sched) : Sched :=
  change_state (pn_id node) (λ n, with_waited (ns_waited n + 1) n) s.

Definition launch (node : PlanNode) (s : Sched) : Sched :=
  let start := dispatchStart s node in
  let s := change_state (pn_id node) (λ n, with_status SRunning (ns_outcome n) n) s in
  let s := set_inFlightSteps (sc_inFlightSteps s + 1) s in
  let s := if is_agent node then set_inFlightAgents (sc_inFlightAgents s + 1) s else s in
  put_fiber (mkFiber node start (mkProgress (ds_dispatchKey start) (ds_attempts start) (ds_rebases start)) Measuring) s.

Definition admit_ready (ready : list PlanNode) (s : Sched) : Sched :=
  let admitted := choose (sc_inFlightSteps s) (sc_inFlightAgents s) (contenders s ready) in
  let left_behind := List.filter (λ node, negb (bool_decide (pn_id node ∈ pn_id <$> admitted))) ready in
  fold_left (λ s node, launch node s) admitted (fold_left (λ s node, age node s) left_behind s).

(** *** The run *)

Definition start : C () :=
  modify indexWriters ;;
  plan <- gets sc_plan ;;
  observeReads (pl_nodes plan) ;;
  consult ;;
  ready <- passive ;;
  modify (admit_ready ready).

(** What the report of a node changes. *)
Definition settlement (node : PlanNode) (result : Dispatched) : C () :=
  modify (λ s, set_inFlightSteps (sc_inFlightSteps s - 1) s) ;;
  modify (λ s, if is_agent node then set_inFlightAgents (sc_inFlightAgents s - 1) s else s) ;;
  modify (change_state (pn_id node) (with_progress (progress_of result))) ;;
  match result with
  | Completed clean value _ =>
      modify (λ s, set_results (<[pn_id node := value]> (sc_results s)) s) ;;
      settle node (if clean then OClean else OBuilt)
  | FailedDispatch _ => settle node OFailed
  | Conflicted StopMerge _ =>
      settle node OSkipped ;;
      modify (λ s, set_pendingMerges
        (sc_pendingMerges s ++ [mkPendingMerge node (List.filter (running_in s) (ca_with <$> pn_conflicts node))]) s)
  | Conflicted DelayRebase p =>
      let verdict := onConflict h_reconciler
        (mkConflictReport (pn_id node) (dp_dispatchKey p) (dp_attempts p) (dp_rebases p) DelayRebase (ca_with <$> pn_conflicts node)) in
      settle node OFailed ;;
      applyVerdict (pn_id node) verdict "materialization-conflict"
  end.

Definition all_settled (s : Sched) : bool := forallb (λ node, settled_in s (pn_id node)) (pl_nodes (sc_plan s)).

(** One turn of the coordinator, when it has a report to process; the loop is over when
    every node is settled, and it breaks when nothing is in flight. *)
Definition turn (arrivals : Arrivals) : C () :=
  s <- gets (λ s, s) ;;
  if all_settled s || bool_decide (sc_inFlightSteps s = 0)%Z then ret tt
  else
    let next := nextSettlement s in
    modify (λ _, snd next) ;;
    match fst next with
    | None => ret tt
    | Some (_, inl stop) => fail stop
    | Some (node, inr result) =>
        settlement node result ;;
        appendReadyMerges ;;
        fuel <- gets (drain_fuel arrivals) ;;
        drainDeviations fuel arrivals ;;
        ready <- passive ;;
        s <- gets (λ s, s) ;;
        match sc_pendingSettlements s with [] => modify (admit_ready ready) | _ => ret tt end
    end.

Inductive SchedEvent := EFiber (step : FiberStep) | ETurn (arrivals : Arrivals).

Definition sched_step (e : SchedEvent) : C () :=
  match e with EFiber step => modify (fiber_step step) | ETurn arrivals => turn arrivals end.

Fixpoint sched_steps (es : list SchedEvent) : C () :=
  match es with [] => ret tt | e :: es => sched_step e ;; sched_steps es end.

Definition begun (plan : Plan) : Sched :=
  mkSched plan ∅ ∅ [] [] ∅ ∅ [] ∅ [] 0 [] [] [] [] ∅ ∅ ∅ 0 0 ∅ [] 0.

(** A run of the plan in which these things happen. *)
Definition run (plan : Plan) (es : list SchedEvent) : (Stop + ()) * Sched := (start ;; sched_steps es) (begun plan).

(** *** The report *)

Record Settlement := mkSettlement {
  se_nodeId : string;
  se_planKey : string;
  se_dispatchKey : string;
  se_outcome : NodeOutcome;
  se_attempts : Z;
  se_rebases : Z
}.

Record Report := mkReport {
  rp_planId : string;
  rp_digest : string;
  rp_settlements : list Settlement;
  rp_results : gmap string Value;
  rp_verdicts : list (string * Verdict);
  rp_appended : list string
}.

Definition report (s : Sched) : Report :=
  mkReport (pl_planId (sc_plan s)) (pl_digest (sc_plan s))
    ((λ node, let n := stateOf (pn_id node) s in
              mkSettlement (pn_id node) (pn_key node) (ns_dispatchKey n) (ns_outcome n) (ns_attempts n) (ns_rebases n))
       <$> pl_nodes (sc_plan s))
    (sc_results s) (sc_verdicts s) (sc_appended s).

(** ** Debt ([Selection.debt])

    The plan keys of deferred work that no record settles, over the journals of the
    deferring run and of the runs that repay it. *)
Definition owe (closesOnly : bool) (owed : gmap string (string * Belief)) (r : SchedRecord) : gmap string (string * Belief) :=
  match r with
  | RSelectionDeferred nodeId planKey belief => if closesOnly then owed else <[planKey := (nodeId, belief)]> owed
  | RNodeSettled _ planKey _ outcome _ _ =>
      match outcome with OBuilt | OClean | OFailed => delete planKey owed | OSkipped | ODeferred => owed end
  | _ => owed
  end.

Definition debt (journal : list SchedRecord) (repaidBy : list (list SchedRecord)) : gmap string (string * Belief) :=
  fold_left (λ owed j, fold_left (owe true) j owed) repaidBy (fold_left (owe false) journal ∅).
End Scheduler.
