(* ===== verification/SchedulerProps.v ===== *)
(** * What the operations of the scheduler change

    [same_core]: the part of the state on which the invariant depends.  The reads of the
    host, the journal and the attribution of deviations leave it alone; settlements,
    verdicts, merges, fibers and admissions change it as the lemmas say. *)

From S2P Require Import Prelude Capability FileSet Canonical StepKey StepKeyProps Plan PlanOrder PlanAnnotate PlanProps PlanTheorems Scheduler.
#[local] Open Scope me_scope.

Implicit Types (s : Sched) (id : string) (node : PlanNode).

Definition settled_event (e : CoordinatorEvent) : option (PlanNode * (Stop + Dispatched)) :=
  match e with DispatchSettled node exit => Some (node, exit) | AttemptKeyed _ _ => None end.

(** The reports that wait, in the order they are processed. *)
Definition waiting (s : Sched) : list (PlanNode * (Stop + Dispatched)) :=
  sc_pendingSettlements s ++ omap settled_event (sc_events s).

(** What the coordinator decides by. *)
Record same_core (s s' : Sched) : Prop := {
  sm_plan : sc_plan s' = sc_plan s;
  sm_states : sc_states s' = sc_states s;
  sm_results : sc_results s' = sc_results s;
  sm_discovered : sc_discovered s' = sc_discovered s;
  sm_waiting : waiting s' = waiting s;
  sm_fibers : sc_fibers s' = sc_fibers s;
  sm_steps : sc_inFlightSteps s' = sc_inFlightSteps s;
  sm_agents : sc_inFlightAgents s' = sc_inFlightAgents s;
  sm_appended : sc_appended s' = sc_appended s;
  sm_merges : sc_pendingMerges s' = sc_pendingMerges s
}.

#[export] Instance same_core_po : PreOrder same_core.
Proof.
  split; [by split|]. intros s1 s2 s3 [] []. split; congruence.
Qed.

Definition quiet {A} (m : C A) : Prop := ∀ s, same_core s (m s).2.

Lemma quiet_run {A} (m : C A) s r s' : quiet m → m s = (r, s') → same_core s s'.
Proof. intros Hm E. specialize (Hm s). by rewrite E in Hm. Qed.

Lemma quiet_ret {A} (a : A) : quiet (ret a).
Proof. by intros s. Qed.
Lemma quiet_fail {A} e : quiet (fail e : C A).
Proof. by intros s. Qed.
Lemma quiet_gets {A} (f : Sched → A) : quiet (gets f).
Proof. by intros s. Qed.
Lemma quiet_bind {A B} (m : C A) (k : A → C B) : quiet m → (∀ a, quiet (k a)) → quiet (bind m k).
Proof.
  intros Hm Hk s. unfold bind. specialize (Hm s). destruct (m s) as [[e|a] s'] eqn:E; [done|]. cbn in Hm. etrans; [done|apply Hk].
Qed.
Lemma quiet_for_each {A B} (f : A → C B) l : (∀ a, quiet (f a)) → quiet (for_each f l).
Proof.
  intros Hf. induction l as [|a l IH]; cbn; [apply quiet_ret|]. apply quiet_bind; [done|]. intros b. apply quiet_bind; [done|]. intros bs. apply quiet_ret.
Qed.
Lemma quiet_modify (f : Sched → Sched) : (∀ s, same_core s (f s)) → quiet (modify f).
Proof. intros Hf s. apply Hf. Qed.

Create HintDb quiet.
#[export] Hint Resolve quiet_ret quiet_fail quiet_gets quiet_bind quiet_for_each : quiet.

Ltac solve_quiet :=
  repeat first
    [ progress intros
    | match goal with
      | |- quiet (match ?x with _ => _ end) => destruct x
      | |- quiet (let _ := _ in _) => cbv zeta
      end
    | solve [auto with quiet]
    | apply quiet_bind | apply quiet_for_each
    | apply quiet_modify; intros; by split ].

Section operations.
Context `{Crypto} `{Host} (o : SchedulerOptions).

Lemma quiet_call {A} (f : nat → A) : quiet (call f).
Proof. intros s. by split. Qed.
#[local] Hint Resolve quiet_call : quiet.

Lemma quiet_host_answer {A} (f : nat → option A) : quiet (host_answer f).
Proof. unfold host_answer. solve_quiet. Qed.
#[local] Hint Resolve quiet_host_answer : quiet.

Lemma quiet_emit_record r : quiet (emit r).
Proof. unfold emit. solve_quiet. Qed.
#[local] Hint Resolve quiet_emit_record : quiet.

Lemma quiet_expand_read e : quiet (expand_read e).
Proof. unfold expand_read. solve_quiet. Qed.
Lemma quiet_prepare l : quiet (prepare l).
Proof. unfold prepare. solve_quiet. Qed.
Lemma quiet_produced_entry g e : quiet (produced_entry g e).
Proof. unfold produced_entry. solve_quiet. Qed.
#[local] Hint Resolve quiet_expand_read quiet_prepare quiet_produced_entry : quiet.
Lemma quiet_expandProducedMatches g : quiet (expandProducedMatches g).
Proof. unfold expandProducedMatches. solve_quiet. Qed.
#[local] Hint Resolve quiet_expandProducedMatches : quiet.

Lemma quiet_observe_node node : quiet (observe_node node).
Proof. unfold observe_node. solve_quiet. Qed.
#[local] Hint Resolve quiet_observe_node : quiet.
Lemma quiet_observeReads nodes : quiet (observeReads nodes).
Proof. unfold observeReads. solve_quiet. Qed.

Lemma quiet_measure_read read acc : quiet (measure_read read acc).
Proof. unfold measure_read. solve_quiet. Qed.
#[local] Hint Resolve quiet_measure_read : quiet.
Lemma quiet_measure_reads reads acc : quiet (measure_reads reads acc).
Proof. revert acc. induction reads as [|r reads IH]; intros acc; cbn; solve_quiet; apply IH. Qed.
#[local] Hint Resolve quiet_measure_reads : quiet.
Lemma quiet_measure node : quiet (measure node).
Proof. unfold measure. solve_quiet. Qed.
Lemma quiet_dispatchKeyFor node b r : quiet (dispatchKeyFor o node b r).
Proof. unfold dispatchKeyFor. solve_quiet. Qed.

Lemma quiet_consider sinks present x : quiet (consider sinks present x).
Proof. unfold consider. solve_quiet. Qed.
#[local] Hint Resolve quiet_consider : quiet.
Lemma quiet_consult : quiet (consult o).
Proof. unfold consult. solve_quiet. Qed.
End operations.
#[export] Hint Resolve quiet_call quiet_host_answer quiet_emit_record quiet_observeReads quiet_measure quiet_dispatchKeyFor quiet_consult : quiet.

(** ** States *)

Lemma stateOf_change id j f s :
  stateOf j (change_state id f s) = if bool_decide (j = id) then f (stateOf id s) else stateOf j s.
Proof.
  unfold stateOf, change_state, state_in. cbn [sc_states set_states]. case_bool_decide as E.
  - subst. by rewrite lookup_insert_eq.
  - by rewrite lookup_insert_ne.
Qed.

Lemma stateOf_touch id s : stateOf id (touch_all s) = stateOf id s.
Proof.
  unfold stateOf, state_in, touch_all. cbn [sc_states set_states]. generalize (pl_nodes (sc_plan s)). intros l. generalize (sc_states s). induction l as [|n l IH]; intros m; [done|].
  cbn. rewrite IH. destruct (m !! pn_id n) eqn:E; [done|]. destruct (decide (pn_id n = id)) as [<-|Hne].
  - by rewrite lookup_insert_eq, E.
  - by rewrite lookup_insert_ne.
Qed.

(** Case analysis on whether a state is the one that changed. *)
Ltac case_id j id :=
  let Hne := fresh "Hne" in
  destruct (decide (j = id)) as [->|Hne];
    [rewrite ?(bool_decide_eq_true_2 (id = id)) by done | rewrite ?(bool_decide_eq_false_2 (j = id)) by done].

(** Agreement of everything but the states' domain. *)
Record alike (s s' : Sched) : Prop := {
  al_plan : sc_plan s' = sc_plan s;
  al_states : ∀ id, stateOf id s' = stateOf id s;
  al_results : sc_results s' = sc_results s;
  al_discovered : sc_discovered s' = sc_discovered s;
  al_waiting : waiting s' = waiting s;
  al_fibers : sc_fibers s' = sc_fibers s;
  al_steps : sc_inFlightSteps s' = sc_inFlightSteps s;
  al_agents : sc_inFlightAgents s' = sc_inFlightAgents s;
  al_appended : sc_appended s' = sc_appended s;
  al_merges : sc_pendingMerges s' = sc_pendingMerges s
}.

#[export] Instance alike_po : PreOrder alike.
Proof.
  split; [by split|]. intros s1 s2 s3 [] []. split; intros; congruence.
Qed.

Lemma same_core_alike s s' : same_core s s' → alike s s'.
Proof. intros []. split; try done. intros id. unfold stateOf. congruence. Qed.

Lemma touch_alike s : alike s (touch_all s).
Proof. split; try done. intros id. apply stateOf_touch. Qed.

Lemma settled_alike s s' id : alike s s' → settled_in s' id = settled_in s id.
Proof. intros Ha. unfold settled_in. by rewrite (al_states _ _ Ha). Qed.

Section settle.
Context `{Crypto} `{Host}.

Lemma settle_core node outcome s :
  same_core (change_state (pn_id node) (with_status SSettled outcome) s) (settle node outcome s).2.
Proof. unfold settle. step. step. apply quiet_emit_record. Qed.

(** The effect of a verdict on what the coordinator decides by. *)
Definition judged (nodeId : string) (verdict : Verdict) (s : Sched) : Sched :=
  match verdict with
  | VFail _ => set_results (delete nodeId (sc_results s)) (change_state nodeId (with_status SSettled OFailed) s)
  | VReorder owners _ => fold_left (λ s owner, discover nodeId owner s) owners s
  | VFactorOut _ _ => s
  end.

Lemma discover_core nodeId owner s s' : same_core s s' → same_core (discover nodeId owner s) (discover nodeId owner s').
Proof.
  intros []. unfold discover. rewrite sm_states0, sm_discovered0. destruct (sc_states s !! owner) as [n|]; [|by split].
  case_bool_decide; by split.
Qed.

Lemma judged_core nodeId verdict s s' : same_core s s' → same_core (judged nodeId verdict s) (judged nodeId verdict s').
Proof.
  destruct verdict as [|owners|]; cbn [judged].
  - intros []. unfold change_state, stateOf. split; cbn; try done; congruence.
  - revert s s'. induction owners as [|owner owners IH]; intros s s' Hs; [done|]. cbn. apply IH. by apply discover_core.
  - done.
Qed.

Lemma applyVerdict_core nodeId verdict trigger s s' :
  applyVerdict nodeId verdict trigger s = (inr tt, s') → same_core (judged nodeId verdict s) s'.
Proof.
  unfold applyVerdict. step. intros E. apply bind_inr in E as (u & s1 & Hemit & E).
  apply (quiet_run _ _ _ _ (quiet_emit_record _)) in Hemit.
  assert (same_core s s1) as Hs by (etrans; [|exact Hemit]; by split).
  eapply (judged_core nodeId verdict) in Hs. destruct verdict; apply (f_equal snd) in E; cbn in E; subst s'; exact Hs.
Qed.
End settle.

(** ** Passive settlements *)

Definition pending_in (s : Sched) (id : string) : Prop := ns_status (stateOf id s) = SPending.

(** The node waits for nothing, and why it is not to be dispatched. *)
Definition passive_reason (s : Sched) (node : PlanNode) (outcome : NodeOutcome) : Prop :=
  unsettled_dependency s node = false ∧
  (outcome = OSkipped ∧ blocked_dependency s node = true ∨ outcome = ODeferred ∧ blocked_dependency s node = false).

Inductive cascade : Sched → Sched → Prop :=
| cascade_done s s' : alike s s' → cascade s s'
| cascade_settle s node outcome s1 s' :
    node ∈ pl_nodes (sc_plan s) → pending_in s (pn_id node) → passive_reason s node outcome →
    alike (change_state (pn_id node) (with_status SSettled outcome) s) s1 → cascade s1 s' → cascade s s'.

Lemma dependencies_alike s s' node : alike s s' → dependenciesOf node s' = dependenciesOf node s.
Proof. intros Ha. unfold dependenciesOf. by rewrite (al_discovered _ _ Ha). Qed.

Lemma existsb_ext_in {A} (f g : A → bool) l : (∀ x, x ∈ l → f x = g x) → existsb f l = existsb g l.
Proof.
  induction l as [|x l IH]; intros Hx; [done|]. cbn. rewrite (Hx x) by by left. f_equal. apply IH. intros y Hy. apply Hx. by right.
Qed.

Lemma unsettled_alike s s' node : alike s s' → unsettled_dependency s' node = unsettled_dependency s node.
Proof.
  intros Ha. unfold unsettled_dependency. rewrite (dependencies_alike s s' node Ha). apply existsb_ext_in.
  intros id _. by rewrite (settled_alike s s' id Ha).
Qed.
Lemma blocked_alike s s' node : alike s s' → blocked_dependency s' node = blocked_dependency s node.
Proof.
  intros Ha. unfold blocked_dependency. rewrite (dependencies_alike s s' node Ha). apply existsb_ext_in.
  intros id _. by rewrite (al_states _ _ Ha).
Qed.

Lemma passive_reason_alike s s' node outcome : alike s s' → passive_reason s node outcome → passive_reason s' node outcome.
Proof.
  intros Ha. unfold passive_reason. by rewrite (unsettled_alike s s' node Ha), (blocked_alike s s' node Ha).
Qed.

(** Settling a pending node changes nothing for a node all of whose dependencies were
    settled. *)
Lemma passive_reason_settle s id node outcome outcome' :
  pending_in s id → passive_reason s node outcome' → passive_reason (change_state id (with_status SSettled outcome) s) node outcome'.
Proof.
  intros Hp [Hu Hb]. unfold passive_reason.
  assert (∀ d, d ∈ dependenciesOf node s → d ≠ id) as Hne.
  { intros d Hd ->. unfold unsettled_dependency in Hu. rewrite existsb_false in Hu. specialize (Hu id Hd).
    apply negb_false_iff in Hu. unfold settled_in in Hu. apply bool_decide_eq_true_1 in Hu. unfold pending_in in Hp. congruence. }
  assert (unsettled_dependency (change_state id (with_status SSettled outcome) s) node = unsettled_dependency s node) as ->.
  { apply existsb_ext_in. intros d Hd. unfold settled_in. rewrite stateOf_change. by rewrite (bool_decide_eq_false_2 (d = id)) by (by apply Hne). }
  assert (blocked_dependency (change_state id (with_status SSettled outcome) s) node = blocked_dependency s node) as ->.
  { apply existsb_ext_in. intros d Hd. rewrite stateOf_change. by rewrite (bool_decide_eq_false_2 (d = id)) by (by apply Hne). }
  done.
Qed.

Lemma cascade_trans s1 s2 s3 : cascade s1 s2 → cascade s2 s3 → cascade s1 s3.
Proof.
  induction 1 as [s s' Ha|s node outcome s1 s' Hn Hp Hr Ha Hc IH].
  - intros H2. destruct H2 as [s2 s3 Ha'|s2 node outcome s4 s3 Hn Hp Hr Ha' Hc]; [apply cascade_done; by etrans|].
    apply (cascade_settle s node outcome s4); [|unfold pending_in in *| | |done].
    + by rewrite <-(al_plan _ _ Ha).
    + by rewrite <-(al_states _ _ Ha).
    + unfold passive_reason in *. by rewrite <-(unsettled_alike s s2 node Ha), <-(blocked_alike s s2 node Ha).
    + etrans; [|exact Ha']. destruct Ha. split; cbn; try done. intros id. by rewrite !stateOf_change, !al_states0.
  - intros H2. apply (cascade_settle s node outcome s1); auto.
Qed.

Section passive.
Context `{Crypto} `{Host}.

Lemma settle_cascade node outcome s s' :
  node ∈ pl_nodes (sc_plan s) → pending_in s (pn_id node) → passive_reason s node outcome →
  settle node outcome s = (inr tt, s') → cascade s s' ∧ alike (change_state (pn_id node) (with_status SSettled outcome) s) s'.
Proof.
  intros Hn Hp Hr E. assert (alike (change_state (pn_id node) (with_status SSettled outcome) s) s') as Ha.
  { apply same_core_alike. pose proof (settle_core node outcome s) as Hs. by rewrite E in Hs. }
  split; [|done]. by apply (cascade_settle s node outcome s'); [..|apply cascade_done].
Qed.

(** A loop over distinct pending nodes that settles each of them passively. *)
Lemma settle_all (f : PlanNode → C ()) (outcome : NodeOutcome) nodes s bs s' :
  (∀ node t t', node ∈ nodes → sc_deferrals t = sc_deferrals s → f node t = (inr tt, t') →
     sc_deferrals t' = sc_deferrals s ∧ ∃ t1, alike t t1 ∧ settle node outcome t1 = (inr tt, t')) →
  NoDup (pn_id <$> nodes) →
  (∀ node, node ∈ nodes → node ∈ pl_nodes (sc_plan s) ∧ pending_in s (pn_id node) ∧ passive_reason s node outcome) →
  for_each f nodes s = (inr bs, s') →
  cascade s s' ∧ (∀ node, node ∈ nodes → settled_in s' (pn_id node) = true) ∧ (∀ id, id ∉ pn_id <$> nodes → stateOf id s' = stateOf id s).
Proof.
  revert s bs. induction nodes as [|node nodes IH]; intros s bs Hf Hd Hall E; cbn in E.
  { injection E as <- <-. split; [by apply cascade_done|]. split; [by intros ? ?%not_elem_of_nil|done]. }
  apply bind_inr in E as ([] & s1 & E1 & E). apply bind_inr in E as (bs' & s2 & E2 & E). injection E as <- <-.
  cbn in Hd. apply NoDup_cons in Hd as [Hnew Hd].
  destruct (Hall node) as (Hn & Hp & Hr); [by left|].
  destruct (Hf node s s1) as (Hdef & s0 & Ha & E1'); [by left|done|done|].
  assert (alike (change_state (pn_id node) (with_status SSettled outcome) s) s1) as Hs1.
  { etrans; [|apply same_core_alike; pose proof (settle_core node outcome s0) as Hs; rewrite E1' in Hs; exact Hs].
    destruct Ha. split; cbn; try done. intros id. by rewrite !stateOf_change, !al_states0. }
  assert (cascade s s1) as Hc by (by apply (cascade_settle s node outcome s1); [..|apply cascade_done]).
  assert (∀ m, m ∈ nodes → pn_id m ≠ pn_id node) as Hne
    by (intros m Hm Eid; apply Hnew; rewrite <-Eid; apply list_elem_of_fmap; by exists m).
  destruct (IH s1 bs') as (Hc' & Hset & Hsame); [|done| |exact E2|].
  - rewrite Hdef. intros m t t' Hm. apply Hf. by right.
  - intros m Hm. destruct (Hall m) as (Hn' & Hp' & Hr'); [by right|]. split; [by rewrite (al_plan _ _ Hs1)|]. split.
    + unfold pending_in. rewrite (al_states _ _ Hs1), stateOf_change. by rewrite (bool_decide_eq_false_2 (pn_id m = _)) by (by apply Hne).
    + apply (passive_reason_alike _ _ _ _ Hs1). by apply passive_reason_settle.
  - split; [by eapply cascade_trans|]. split.
    + intros m [->|Hm]%elem_of_cons; [|by apply Hset]. unfold settled_in. rewrite Hsame by done.
      rewrite (al_states _ _ Hs1), stateOf_change. rewrite (bool_decide_eq_true_2 (pn_id node = pn_id node)) by done. by apply bool_decide_eq_true_2.
    + intros id Hid. cbn in Hid. apply not_elem_of_cons in Hid as [Hid1 Hid2]. rewrite (Hsame id Hid2), (al_states _ _ Hs1), stateOf_change.
      by rewrite (bool_decide_eq_false_2 (id = _)).
Qed.

Lemma filter_fewer {A} (f g : A → bool) l x :
  (∀ y, y ∈ l → g y = true → f y = true) → x ∈ l → f x = true → g x = false → length (List.filter g l) < length (List.filter f l).
Proof.
  assert (∀ l, (∀ y, y ∈ l → g y = true → f y = true) → length (List.filter g l) ≤ length (List.filter f l)) as Hle.
  { clear l. induction l as [|y l IH]; intros Hi; [done|]. cbn. pose proof (IH (λ z Hz, Hi z (list_elem_of_further z y l Hz))).
    destruct (g y) eqn:Eg; [rewrite (Hi y (list_elem_of_here y l) Eg); cbn; lia|]. destruct (f y); cbn; lia. }
  induction l as [|y l IH]; intros Hi; [by intros ?%not_elem_of_nil|].
  pose proof (λ z Hz, Hi z (list_elem_of_further z y l Hz)) as Hi'. intros [->|Hx]%elem_of_cons Hf Hg; cbn.
  - rewrite Hf, Hg. pose proof (Hle l Hi'). cbn. lia.
  - pose proof (IH Hi' Hx Hf Hg). destruct (g y) eqn:Eg; [rewrite (Hi y (list_elem_of_here y l) Eg); cbn; lia|]. destruct (f y); cbn; lia.
Qed.

Lemma pending_nodes_in s node : node ∈ pending_nodes s ↔ node ∈ pl_nodes (sc_plan s) ∧ pending_in s (pn_id node).
Proof. unfold pending_nodes, pending_in. by rewrite elem_of_filter_b, bool_decide_eq_true. Qed.

Lemma NoDup_filter_ids {A B} (f : A → B) p l : NoDup (f <$> l) → NoDup (f <$> List.filter p l).
Proof.
  induction l as [|x l IH]; [done|]. cbn. intros [Hx Hd]%NoDup_cons. destruct (p x); cbn; [|by apply IH].
  apply NoDup_cons. split; [|by apply IH]. intros Hin. apply Hx. apply list_elem_of_fmap in Hin as (y & -> & Hy).
  apply elem_of_filter_b in Hy as [Hy _]. apply list_elem_of_fmap. by exists y.
Qed.

Lemma cascade_plan s s' : cascade s s' → sc_plan s' = sc_plan s.
Proof. induction 1 as [s s' Ha|s node outcome s1 s' _ _ _ Ha _ ->]; [apply Ha|]. by rewrite (al_plan _ _ Ha). Qed.

Lemma blocked_in s node : node ∈ blocked_nodes s ↔ node ∈ pl_nodes (sc_plan s) ∧ pending_in s (pn_id node) ∧ passive_reason s node OSkipped.
Proof.
  unfold blocked_nodes, passive_reason. rewrite elem_of_filter_b, pending_nodes_in, andb_true_iff, negb_true_iff. naive_solver.
Qed.

Lemma ready_in s node :
  node ∈ ready_nodes s ↔ node ∈ pl_nodes (sc_plan s) ∧ pending_in s (pn_id node) ∧
                         unsettled_dependency s node = false ∧ blocked_dependency s node = false.
Proof.
  unfold ready_nodes. rewrite elem_of_filter_b, pending_nodes_in, andb_true_iff, !negb_true_iff. naive_solver.
Qed.

(** Deferrals are decided before the first pass. *)
Lemma emit_deferrals r s : sc_deferrals (emit r s).2 = sc_deferrals s.
Proof. unfold emit, call, bind. cbn. by destruct (h_emit (sc_calls s)). Qed.

Lemma settle_deferrals node outcome s : sc_deferrals (settle node outcome s).2 = sc_deferrals s.
Proof. unfold settle. step. step. by rewrite emit_deferrals. Qed.

Lemma settle_settles node outcome s s' :
  settle node outcome s = (inr tt, s') →
  sc_deferrals s' = sc_deferrals s ∧ ∃ s1, alike s s1 ∧ settle node outcome s1 = (inr tt, s').
Proof. intros E. pose proof (settle_deferrals node outcome s) as Hd. rewrite E in Hd. split; [done|]. by exists s. Qed.

Lemma postpone_settles node s s' :
  is_null (sc_deferrals s !! pn_id node) = false → postpone node s = (inr tt, s') →
  sc_deferrals s' = sc_deferrals s ∧ ∃ s1, alike s s1 ∧ settle node ODeferred s1 = (inr tt, s').
Proof.
  unfold postpone. intros Hd E. apply bind_inr in E as (b & s0 & Eb & E). apply gets_inr in Eb as [-> ->].
  destruct (sc_deferrals s !! pn_id node) as [b|]; [|done]. apply bind_inr in E as ([] & s1 & E1 & E).
  pose proof (emit_deferrals (RSelectionDeferred (pn_id node) (pn_key node) b) s) as D1. rewrite E1 in D1.
  pose proof (settle_deferrals node ODeferred s1) as D2. rewrite E in D2. cbn in D1, D2. split; [congruence|]. exists s1.
  split; [|done]. by apply same_core_alike, (quiet_run _ _ _ _ (quiet_emit_record _) E1).
Qed.

(** One round of the pass that settles something. *)
Lemma round_spec (f : PlanNode → C ()) outcome nodes s bs s' :
  (∀ node t t', node ∈ nodes → sc_deferrals t = sc_deferrals s → f node t = (inr tt, t') →
     sc_deferrals t' = sc_deferrals s ∧ ∃ t1, alike t t1 ∧ settle node outcome t1 = (inr tt, t')) →
  NoDup (pn_id <$> nodes) → nodes ≠ [] →
  (∀ node, node ∈ nodes → node ∈ pl_nodes (sc_plan s) ∧ pending_in s (pn_id node) ∧ passive_reason s node outcome) →
  for_each f nodes s = (inr bs, s') →
  cascade s s' ∧ length (pending_nodes s') < length (pending_nodes s).
Proof.
  intros Hf Hd Hne Hall E. destruct (settle_all f outcome nodes s bs s' Hf Hd Hall E) as (Hc & Hset & Hsame). split; [done|].
  unfold pending_nodes. rewrite (cascade_plan s s' Hc). destruct nodes as [|node nodes]; [done|]. clear Hne.
  destruct (Hall node) as (Hn & Hpend & _); [by left|].
  apply (filter_fewer _ _ _ node).
  - intros y Hy Hpy. apply bool_decide_eq_true. apply bool_decide_eq_true in Hpy.
    destruct (decide (pn_id y ∈ pn_id <$> node :: nodes)) as [Hin|Hnin]; [|by rewrite <-Hsame].
    apply list_elem_of_fmap in Hin as (z & Ez & Hz). rewrite Ez. by destruct (Hall z Hz) as (_ & ? & _).
  - done.
  - by apply bool_decide_eq_true.
  - apply bool_decide_eq_false. intros Hp'. specialize (Hset node (list_elem_of_here _ _)). unfold settled_in in Hset.
    apply bool_decide_eq_true in Hset. congruence.
Qed.

Lemma alike_pending s s' : alike s s' → pending_nodes s' = pending_nodes s.
Proof. intros Ha. unfold pending_nodes. rewrite (al_plan _ _ Ha). apply List.filter_ext. intros n. by rewrite (al_states _ _ Ha). Qed.

Lemma passive_ids p s : NoDup (ids (pl_nodes (sc_plan s))) → NoDup (pn_id <$> List.filter p (pending_nodes s)).
Proof. intros Hd. by apply NoDup_filter_ids, NoDup_filter_ids. Qed.

(** The pass: passive settlements, then the nodes that are ready. *)
Lemma passive_spec fuel s ready s' :
  NoDup (ids (pl_nodes (sc_plan s))) → passiveSettlements fuel s = (inr ready, s') →
  cascade s s' ∧ ready = ready_nodes s' ∧ blocked_nodes s' = [].
Proof.
  revert s. induction fuel as [|fuel IH]; intros s Hd E; [done|]. cbn [passiveSettlements] in E.
  apply bind_inr in E as ([] & t & Et & E). injection Et as <-. apply bind_inr in E as (t & t' & Et & E). injection Et as <- <-.
  assert (alike s (touch_all s)) as Ht by apply touch_alike. rewrite <-(al_plan _ _ Ht) in Hd.
  destruct (blocked_nodes (touch_all s)) as [|b blocked] eqn:Eb.
  - set (postponed := List.filter _ _) in E. destruct postponed as [|q qs] eqn:Ep.
    + injection E as <- <-. split; [by apply cascade_done|]. by split.
    + apply bind_inr in E as (bs & s1 & E1 & E).
      destruct (round_spec postpone ODeferred (q :: qs) (touch_all s) bs s1) as [Hc _]; [..|exact E1|].
      * intros node t t' Hn Ht' Ef. rewrite <-Ht'. apply postpone_settles; [|done]. rewrite <-Ep in Hn. unfold postponed in Hn.
        apply elem_of_filter_b in Hn as [_ Hn]. rewrite Ht'. by apply negb_true_iff.
      * rewrite <-Ep. unfold postponed, ready_nodes. by apply NoDup_filter_ids, passive_ids.
      * done.
      * intros node Hn. rewrite <-Ep in Hn. apply elem_of_filter_b in Hn as [Hn _]. apply ready_in in Hn as (? & ? & ? & ?).
        split_and!; [done..|]. split; [done|by right].
      * apply IH in E as (Hc' & ? & ?); [|by rewrite (cascade_plan _ _ Hc)]. split; [|done].
        eapply cascade_trans; [by apply cascade_done|]. by eapply cascade_trans.
  - apply bind_inr in E as (bs & s1 & E1 & E).
    destruct (round_spec (λ node, settle node OSkipped) OSkipped (b :: blocked) (touch_all s) bs s1) as [Hc _]; [..|exact E1|].
    + intros node t t' _ <- Ef. by apply settle_settles.
    + rewrite <-Eb. by apply passive_ids.
    + done.
    + intros node Hn. rewrite <-Eb in Hn. by apply blocked_in.
    + apply IH in E as (Hc' & ? & ?); [|by rewrite (cascade_plan _ _ Hc)]. split; [|done].
      eapply cascade_trans; [by apply cascade_done|]. by eapply cascade_trans.
Qed.

(** *** The pass ends *)

Definition fuelled {A} (m : C A) : Prop := ∀ s, (m s).1 ≠ inl NoFuel.

Lemma fuelled_emit r : fuelled (emit r).
Proof. intros s. unfold emit, call, bind. cbn. by destruct (h_emit (sc_calls s)). Qed.

Lemma fuelled_bind {A B} (m : C A) (k : A → C B) : fuelled m → (∀ a, fuelled (k a)) → fuelled (bind m k).
Proof. intros Hm Hk s. unfold bind. specialize (Hm s). destruct (m s) as [[e|a] s']; [intros [= ->]; by apply Hm|apply Hk]. Qed.
Lemma fuelled_for_each {A B} (f : A → C B) l : (∀ a, fuelled (f a)) → fuelled (for_each f l).
Proof.
  intros Hf. induction l as [|a l IH]; cbn; [by intros s|]. apply fuelled_bind; [done|]. intros b. apply fuelled_bind; [done|]. by intros bs s.
Qed.
Lemma fuelled_settle node outcome : fuelled (settle node outcome).
Proof. unfold settle. apply fuelled_bind; [by intros s|]. intros _. apply fuelled_bind; [by intros s|]. intros n. apply fuelled_emit. Qed.
Lemma fuelled_postpone node : fuelled (postpone node).
Proof.
  unfold postpone. apply fuelled_bind; [by intros s|]. intros [b|]; [|by intros s]. apply fuelled_bind; [apply fuelled_emit|]. intros _. apply fuelled_settle.
Qed.

Lemma round_fuel (f : PlanNode → C ()) nodes s fuel :
  (∀ node, fuelled (f node)) →
  (∀ bs s', for_each f nodes s = (inr bs, s') → (passiveSettlements fuel s').1 ≠ inl NoFuel) →
  ((for_each f nodes ;; passiveSettlements fuel) s).1 ≠ inl NoFuel.
Proof.
  intros Hf Hk. unfold bind. pose proof (fuelled_for_each f nodes Hf s) as Hn.
  destruct (for_each f nodes s) as [[e|bs] s'] eqn:E; [intros [= ->]; by apply Hn|]. by apply (Hk bs).
Qed.

Lemma passive_ends fuel s :
  NoDup (ids (pl_nodes (sc_plan s))) → length (pending_nodes s) < fuel → (passiveSettlements fuel s).1 ≠ inl NoFuel.
Proof.
  revert s. induction fuel as [|fuel IH]; intros s Hd Hl; [lia|]. cbn [passiveSettlements]. step. step.
  assert (alike s (touch_all s)) as Ht by apply touch_alike. rewrite <-(alike_pending _ _ Ht) in Hl. rewrite <-(al_plan _ _ Ht) in Hd.
  destruct (blocked_nodes (touch_all s)) as [|b blocked] eqn:Eb.
  - set (postponed := List.filter _ _). destruct postponed as [|q qs] eqn:Ep; [done|].
    apply round_fuel; [apply fuelled_postpone|]. intros bs s1 E1.
    destruct (round_spec postpone ODeferred (q :: qs) (touch_all s) bs s1) as [Hc Hlt]; [..|exact E1|].
    + intros node t t' Hn Ht' Ef. rewrite <-Ht'. apply postpone_settles; [|done]. rewrite <-Ep in Hn. unfold postponed in Hn.
      apply elem_of_filter_b in Hn as [_ Hn]. rewrite Ht'. by apply negb_true_iff.
    + rewrite <-Ep. unfold postponed, ready_nodes. by apply NoDup_filter_ids, passive_ids.
    + done.
    + intros node Hn. rewrite <-Ep in Hn. apply elem_of_filter_b in Hn as [Hn _]. apply ready_in in Hn as (? & ? & ? & ?).
      split_and!; [done..|]. split; [done|by right].
    + apply IH; [by rewrite (cascade_plan _ _ Hc)|lia].
  - apply round_fuel; [intros; apply fuelled_settle|]. intros bs s1 E1.
    destruct (round_spec (λ node, settle node OSkipped) OSkipped (b :: blocked) (touch_all s) bs s1) as [Hc Hlt]; [..|exact E1|].
    + intros node t t' _ <- Ef. by apply settle_settles.
    + rewrite <-Eb. by apply passive_ids.
    + done.
    + intros node Hn. rewrite <-Eb in Hn. by apply blocked_in.
    + apply IH; [by rewrite (cascade_plan _ _ Hc)|lia].
Qed.
End passive.

(** ** The invariant *)

Definition fiber_nodes (m : gmap string Fiber) : list PlanNode := (λ kf, fb_node (snd kf)) <$> map_to_list m.

(** The nodes in flight: with a fiber, or reported and not processed yet. *)
Definition tokens (s : Sched) : list PlanNode := fiber_nodes (sc_fibers s) ++ (fst <$> waiting s).

Lemma fiber_nodes_new m id f : m !! id = None → fiber_nodes (<[id := f]> m) ≡ₚ fb_node f :: fiber_nodes m.
Proof. intros Hm. unfold fiber_nodes. by rewrite map_to_list_insert. Qed.

Lemma fiber_nodes_delete m id f : m !! id = Some f → fiber_nodes m ≡ₚ fb_node f :: fiber_nodes (delete id m).
Proof. intros Hm. rewrite <-(insert_delete_id _ _ _ Hm) at 1. apply fiber_nodes_new. by rewrite lookup_delete_eq. Qed.

Lemma fiber_nodes_update m id f f' :
  m !! id = Some f → fb_node f' = fb_node f → fiber_nodes (<[id := f']> m) ≡ₚ fiber_nodes m.
Proof.
  intros Hm Hf. rewrite (fiber_nodes_delete m id f Hm), <-insert_delete_eq, fiber_nodes_new by (by rewrite lookup_delete_eq). by rewrite Hf.
Qed.

Section invariant.
Context `{Crypto} `{Host} (o : SchedulerOptions).

Definition limit_ok (rebases : Z) : Prop := (0 ≤ rebases ≤ Z.max 0 (rebaseLimit o))%Z.

(** Every attempt but the first was a rebase. *)
Definition counted (attempts rebases : Z) : Prop := attempts = (rebases + 1)%Z ∧ limit_ok rebases.

Definition state_ok (n : NodeState) : Prop :=
  ns_attempts n = 0%Z ∧ ns_rebases n = 0%Z ∨ ns_status n = SSettled ∧ counted (ns_attempts n) (ns_rebases n).

Definition fiber_ok (f : Fiber) : Prop :=
  limit_ok (dp_rebases (fb_progress f)) ∧
  dp_attempts (fb_progress f) = (dp_rebases (fb_progress f) + match fb_phase f with Measuring => 0 | Executing => 1 end)%Z.

(** A result is there when the node settled with one. *)
Definition has_result (s : Sched) (id : string) : Prop :=
  settled_in s id = true ∧ blocking (ns_outcome (stateOf id s)) = false.

Record sched_ok (s : Sched) : Prop := {
  so_built : built (sc_plan s);
  so_unique : NoDup (pn_id <$> tokens s);
  so_nodes : ∀ node, node ∈ tokens s → node ∈ pl_nodes (sc_plan s);
  so_running : ∀ id, running_in s id = true ↔ id ∈ pn_id <$> tokens s;
  so_fiber : ∀ id f, sc_fibers s !! id = Some f → pn_id (fb_node f) = id ∧ fiber_ok f;
  so_reports : ∀ node d, (node, inr d) ∈ waiting s → counted (dp_attempts (progress_of d)) (dp_rebases (progress_of d));
  so_stops : ∀ node, (node, inl NoFuel) ∉ waiting s;
  so_steps : sc_inFlightSteps s = Z.of_nat (length (tokens s));
  so_agents : sc_inFlightAgents s = Z.of_nat (length (List.filter is_agent (tokens s)));
  so_step_cap : (sc_inFlightSteps s ≤ stepCap o)%Z;
  so_agent_cap : (sc_inFlightAgents s ≤ agentCap o)%Z;
  so_discovered : ∀ owner l id, sc_discovered s !! owner = Some l → id ∈ l → settled_in s id = true;
  so_results : ∀ id, is_Some (sc_results s !! id) ↔ has_result s id;
  so_states : ∀ id, state_ok (stateOf id s)
}.

Lemma alike_tokens s s' : alike s s' → tokens s' = tokens s.
Proof. intros []. unfold tokens. by rewrite al_fibers0, al_waiting0. Qed.

Lemma running_alike s s' id : alike s s' → running_in s' id = running_in s id.
Proof. intros Ha. unfold running_in. by rewrite (al_states _ _ Ha). Qed.

Lemma ok_alike s s' : alike s s' → sched_ok s → sched_ok s'.
Proof.
  intros Ha []. pose proof (alike_tokens s s' Ha) as Ht.
  split; rewrite ?Ht, ?(al_plan _ _ Ha), ?(al_steps _ _ Ha), ?(al_agents _ _ Ha), ?(al_fibers _ _ Ha), ?(al_waiting _ _ Ha); try done.
  - intros id. by rewrite (running_alike s s' id Ha).
  - intros owner l id. rewrite (al_discovered _ _ Ha), (settled_alike s s' id Ha). apply so_discovered0.
  - intros id. unfold has_result. rewrite (al_results _ _ Ha), (settled_alike s s' id Ha), (al_states _ _ Ha). apply so_results0.
  - intros id. rewrite (al_states _ _ Ha). apply so_states0.
Qed.

(** A change of one state that is not in flight, before and after. *)
Lemma settled_change s id n outcome j :
  settled_in (change_state id (λ _, with_status SSettled outcome n) s) j = (bool_decide (j = id) || settled_in s j).
Proof. unfold settled_in. rewrite stateOf_change. case_id j id; [by apply bool_decide_eq_true|done]. Qed.

Lemma running_change s id n outcome j :
  running_in (change_state id (λ _, with_status SSettled outcome n) s) j = (negb (bool_decide (j = id)) && running_in s j).
Proof. unfold running_in. rewrite stateOf_change. case_id j id; [by apply bool_decide_eq_false|done]. Qed.

Lemma change_const id f s : change_state id f s = change_state id (λ _, f (stateOf id s)) s.
Proof. done. Qed.

Lemma ok_settle_pending s id outcome :
  pending_in s id → blocking outcome = true → sched_ok s → sched_ok (change_state id (with_status SSettled outcome) s).
Proof.
  intros Hp Hb []. rewrite change_const.
  assert (running_in s id = false) as Hrun by (unfold running_in; apply bool_decide_eq_false; unfold pending_in in Hp; congruence).
  split; try done.
  - intros j. rewrite running_change. etransitivity; [|exact (so_running0 j)]. case_id j id; [by rewrite Hrun|done].
  - intros owner l j Hl Hj. rewrite settled_change. rewrite (so_discovered0 owner l j Hl Hj). by rewrite orb_true_r.
  - intros j. cbn [sc_results change_state set_states]. rewrite so_results0. unfold has_result. rewrite settled_change, stateOf_change.
    case_id j id; [|done]. cbn [orb with_status ns_outcome]. split; [|intros [_ ?]; congruence].
    intros [Hs _]. unfold settled_in in Hs. apply bool_decide_eq_true in Hs. unfold pending_in in Hp. congruence.
  - intros j. rewrite stateOf_change. case_id j id; [|done]. destruct (so_states0 id) as [?|[Hs _]]; [by left|].
    unfold pending_in in Hp. congruence.
Qed.

Lemma ok_cascade s s' : cascade s s' → sched_ok s → sched_ok s'.
Proof.
  induction 1 as [s s' Ha|s node outcome s1 s' Hn Hp Hr Ha Hc IH]; intros Hs; [by eapply ok_alike|].
  apply IH. apply (ok_alike _ _ Ha). apply ok_settle_pending; [done| |done].
  destruct Hr as [_ [[-> _]|[-> _]]]; done.
Qed.

(** *** Verdicts *)

Lemma ok_fail s id : settled_in s id = true → sched_ok s → sched_ok (judged id (VFail "") s).
Proof.
  intros Hset []. cbn [judged]. rewrite change_const.
  assert (running_in s id = false) as Hrun.
  { unfold running_in, settled_in in *. apply bool_decide_eq_true in Hset. apply bool_decide_eq_false. congruence. }
  set (s1 := change_state id (λ _, with_status SSettled OFailed (stateOf id s)) s).
  assert (∀ j, settled_in s1 j = settled_in s j) as Hset1.
  { intros j. unfold s1. rewrite settled_change. case_id j id; [by rewrite Hset|done]. }
  split; try done.
  - intros j. etransitivity; [|exact (so_running0 j)]. transitivity (running_in s1 j = true); [done|]. unfold s1. rewrite running_change.
    case_id j id; [by rewrite Hrun|done].
  - intros owner l j Hl Hj. rewrite <-(so_discovered0 owner l j Hl Hj). apply Hset1.
  - intros j. cbn [sc_results set_results]. unfold has_result.
    change (settled_in (set_results _ s1) j) with (settled_in s1 j). change (stateOf j (set_results _ s1)) with (stateOf j s1). rewrite Hset1.
    unfold s1. rewrite stateOf_change. case_id j id.
    + rewrite lookup_delete_eq. split; [by intros [? ?]|by intros [_ ?]].
    + rewrite lookup_delete_ne by done. apply so_results0.
  - intros j. change (stateOf j (set_results _ s1)) with (stateOf j s1). unfold s1. rewrite stateOf_change. case_id j id; [|done].
    destruct (so_states0 id) as [?|[? ?]]; [by left|by right].
Qed.

Lemma ok_discover s nodeId owner : settled_in s nodeId = true → sched_ok s → sched_ok (discover nodeId owner s) ∧ settled_in (discover nodeId owner s) nodeId = true.
Proof.
  intros Hset Hok. unfold discover. destruct (sc_states s !! owner) as [n|]; [|done]. case_bool_decide; [|done]. split; [|done].
  destruct Hok. split; try done. intros ow l id. cbn [sc_discovered set_discovered].
  destruct (decide (ow = owner)) as [->|Hne].
  - rewrite lookup_insert_eq. intros [= <-] [Hin%elem_of_app _]%distinct_in. destruct Hin as [Hin|Hin%list_elem_of_singleton]; [|by subst].
    destruct (sc_discovered s !! owner) as [l|] eqn:El; [|by apply not_elem_of_nil in Hin]. by apply (so_discovered0 owner l).
  - rewrite lookup_insert_ne by done. apply so_discovered0.
Qed.

Lemma ok_judged s nodeId verdict : settled_in s nodeId = true → sched_ok s → sched_ok (judged nodeId verdict s).
Proof.
  intros Hset Hok. destruct verdict as [r|owners r|]; [by apply (ok_fail s nodeId)| |done]. cbn [judged]. revert s Hset Hok.
  induction owners as [|owner owners IH]; intros s Hset Hok; [done|]. cbn. destruct (ok_discover s nodeId owner Hset Hok). by apply IH.
Qed.
End invariant.

(** ** What is written to the journal

    [bounded k]: the records written weigh [k] at most, what the deviations are read by is
    left alone, and no loop runs out of fuel. *)

Definition journal_weight (l : list SchedRecord) : nat := sum_list_with record_weight l.

Record logs (k : nat) (s s' : Sched) : Prop := {
  lg_journal : ∃ l, sc_journal s' = sc_journal s ++ l ∧ journal_weight l ≤ k;
  lg_cursor : sc_cursor s' = sc_cursor s;
  lg_deviations : sc_pendingDeviations s' = sc_pendingDeviations s
}.

Lemma logs_same s s' :
  sc_journal s' = sc_journal s → sc_cursor s' = sc_cursor s → sc_pendingDeviations s' = sc_pendingDeviations s → logs 0 s s'.
Proof. intros Hj Hc Hd. split; [|done|done]. exists []. by rewrite Hj, app_nil_r. Qed.

Lemma logs_trans k k' s1 s2 s3 : logs k s1 s2 → logs k' s2 s3 → logs (k + k') s1 s3.
Proof.
  intros [(l & E & Hl) ? ?] [(l' & E' & Hl') ? ?]. split; [|congruence|congruence]. exists (l ++ l'). split; [by rewrite E', E, app_assoc|].
  unfold journal_weight in *. rewrite sum_list_with_app. lia.
Qed.

Lemma logs_le k k' s s' : k ≤ k' → logs k s s' → logs k' s s'.
Proof. intros Hk [(l & E & Hl) ? ?]. split; [|done|done]. exists l. split; [done|lia]. Qed.

Definition bounded {A} (k : nat) (m : C A) : Prop := ∀ s, (m s).1 ≠ inl NoFuel ∧ logs k s (m s).2.

Lemma bounded_bind {A B} k k' (m : C A) (f : A → C B) : bounded k m → (∀ a, bounded k' (f a)) → bounded (k + k') (bind m f).
Proof.
  intros Hm Hf s. destruct (Hm s) as [H1 H2]. unfold bind. destruct (m s) as [[e|a] s'] eqn:E; cbn in *.
  - split; [by intros [= ->]|]. apply (logs_le k); [lia|done].
  - destruct (Hf a s'). split; [done|]. by eapply logs_trans.
Qed.
Lemma bounded_le {A} k k' (m : C A) : k ≤ k' → bounded k m → bounded k' m.
Proof. intros Hk Hm s. destruct (Hm s). split; [done|]. by eapply logs_le. Qed.
Lemma bounded_bind0 {A B} k (m : C A) (f : A → C B) : bounded 0 m → (∀ a, bounded k (f a)) → bounded k (bind m f).
Proof. apply (bounded_bind 0). Qed.
Lemma bounded_ret {A} k (a : A) : bounded k (ret a).
Proof. intros s. split; [done|]. apply (logs_le 0); [lia|by apply logs_same]. Qed.
Lemma bounded_fail {A} k e : e ≠ NoFuel → bounded k (fail e : C A).
Proof. intros He s. split; [by intros [= ->]|]. apply (logs_le 0); [lia|by apply logs_same]. Qed.
Lemma bounded_gets {A} k (f : Sched → A) : bounded k (gets f).
Proof. intros s. split; [done|]. apply (logs_le 0); [lia|by apply logs_same]. Qed.
Lemma bounded_modify k (f : Sched → Sched) : (∀ s, logs k s (f s)) → bounded k (modify f).
Proof. intros Hf s. split; [done|]. apply Hf. Qed.
Lemma bounded_for_each {A B} (f : A → C B) l : (∀ a, bounded 0 (f a)) → bounded 0 (for_each f l).
Proof.
  intros Hf. induction l as [|a l IH]; cbn; [apply bounded_ret|]. apply bounded_bind0; [done|]. intros b. apply bounded_bind0; [done|]. intros bs. apply bounded_ret.
Qed.

Create HintDb bounded.
#[export] Hint Resolve bounded_ret bounded_gets : bounded.
#[export] Hint Extern 1 (bounded _ (fail _)) => by apply bounded_fail : bounded.

Ltac solve_bounded :=
  repeat first
    [ progress intros
    | match goal with
      | |- bounded _ (match ?x with _ => _ end) => destruct x
      | |- bounded _ (let _ := _ in _) => cbv zeta
      end
    | solve [auto with bounded]
    | apply bounded_bind0 | apply bounded_for_each
    | apply bounded_modify; intros; by apply logs_same ].

Section bounded.
Context `{Crypto} `{Host} (o : SchedulerOptions).

Lemma bounded_call {A} k (f : nat → A) : bounded k (call f).
Proof. intros s. split; [done|]. apply (logs_le 0); [lia|by apply logs_same]. Qed.
#[local] Hint Resolve bounded_call : bounded.
Lemma bounded_host_answer {A} (f : nat → option A) : bounded 0 (host_answer f).
Proof. unfold host_answer. solve_bounded. Qed.
#[local] Hint Resolve bounded_host_answer : bounded.

Lemma bounded_emit r : bounded (record_weight r) (emit r).
Proof.
  unfold emit. apply bounded_bind0; [apply bounded_call|]. intros []; [|by apply bounded_fail..]. apply bounded_modify. intros s.
  split; [|done|done]. exists [r]. split; [done|]. unfold journal_weight. cbn. lia.
Qed.

Lemma bounded_expand_read e : bounded 0 (expand_read e).
Proof. unfold expand_read. solve_bounded. Qed.
Lemma bounded_prepare l : bounded 0 (prepare l).
Proof. unfold prepare. solve_bounded. Qed.
Lemma bounded_produced_entry g e : bounded 0 (produced_entry g e).
Proof. unfold produced_entry. solve_bounded. Qed.
#[local] Hint Resolve bounded_expand_read bounded_prepare bounded_produced_entry : bounded.
Lemma bounded_expandProducedMatches g : bounded 0 (expandProducedMatches g).
Proof. unfold expandProducedMatches. solve_bounded. Qed.
#[local] Hint Resolve bounded_expandProducedMatches : bounded.
Lemma bounded_observe_node node : bounded 0 (observe_node node).
Proof. unfold observe_node. solve_bounded. Qed.
#[local] Hint Resolve bounded_observe_node : bounded.
Lemma bounded_observeReads nodes : bounded 0 (observeReads nodes).
Proof. unfold observeReads. solve_bounded. Qed.
Lemma bounded_measure_read read acc : bounded 0 (measure_read read acc).
Proof. unfold measure_read. solve_bounded. Qed.
#[local] Hint Resolve bounded_measure_read : bounded.
Lemma bounded_measure_reads reads acc : bounded 0 (measure_reads reads acc).
Proof. revert acc. induction reads as [|r reads IH]; intros acc; cbn; solve_bounded; apply IH. Qed.
#[local] Hint Resolve bounded_measure_reads : bounded.
Lemma bounded_measure node : bounded 0 (measure node).
Proof. unfold measure. solve_bounded. Qed.
Lemma bounded_dispatchKeyFor node b r : bounded 0 (dispatchKeyFor o node b r).
Proof. unfold dispatchKeyFor. solve_bounded. Qed.

(** An attempt is recorded with two records at most. *)
Lemma bounded_key_attempt f : bounded 2 (key_attempt o f).
Proof.
  unfold key_attempt. apply bounded_bind0; [apply bounded_measure|]. intros b. apply bounded_bind0; [apply bounded_dispatchKeyFor|]. intros key.
  cbv zeta. apply (bounded_bind 1); [destruct (_ && _); [apply bounded_emit|apply bounded_ret]|]. intros [].
  apply (bounded_bind 1 0); [apply bounded_emit|]. intros []. solve_bounded.
Qed.

Lemma fiber_step_logs step s : logs 3 s (fiber_step o step s).
Proof.
  assert (∀ t, logs 0 s t → logs 3 s t) as H3 by (intros t; apply logs_le; lia).
  destruct step as [id|id r|r]; cbn [fiber_step].
  - destruct (sc_fibers s !! id) as [f|]; [|by apply H3, logs_same]. destruct (fb_phase f); [|by apply H3, logs_same].
    destruct (bounded_key_attempt f s) as [_ Hl]. destruct (key_attempt o f s) as [[e|[]] s']; cbn in Hl; [|by apply (logs_le 2); [lia|]].
    apply (logs_le (2 + 0)); [lia|]. eapply logs_trans; [exact Hl|]. by apply logs_same.
  - apply H3. destruct (sc_fibers s !! id) as [f|]; [|by apply logs_same]. destruct (fb_phase f); [by apply logs_same|].
    destruct r; cbn; try (by apply logs_same). destruct (_ && _); by apply logs_same.
  - split; [|done|done]. exists [r]. split; [done|]. unfold journal_weight. destruct r; cbn; lia.
Qed.

Lemma fiber_steps_logs steps s : logs (3 * length steps) s (fiber_steps o steps s).
Proof.
  revert s. induction steps as [|step steps IH]; intros s; [by apply logs_same|]. cbn [fiber_steps fold_left length].
  apply (logs_le (3 + 3 * length steps)); [lia|]. eapply logs_trans; [apply fiber_step_logs|apply IH].
Qed.

Lemma bounded_settle node outcome : bounded 1 (settle node outcome).
Proof.
  unfold settle. apply bounded_bind0; [apply bounded_modify; intros; by apply logs_same|]. intros _. apply bounded_bind0; [apply bounded_gets|].
  intros n. apply bounded_emit.
Qed.

Lemma logs_discovers nodeId owners s : logs 0 s (fold_left (λ s owner, discover nodeId owner s) owners s).
Proof.
  revert s. induction owners as [|owner owners IH]; intros s; [by apply logs_same|]. cbn [fold_left]. apply (logs_trans 0 0 _ (discover nodeId owner s)); [|apply IH].
  unfold discover. destruct (sc_states s !! owner) as [n|]; [|by apply logs_same]. destruct (bool_decide _); by apply logs_same.
Qed.

Lemma bounded_applyVerdict nodeId verdict trigger : bounded 1 (applyVerdict nodeId verdict trigger).
Proof.
  unfold applyVerdict. apply bounded_bind0; [apply bounded_modify; intros; by apply logs_same|]. intros _.
  apply (bounded_bind 1 0); [apply bounded_emit|]. intros []. destruct verdict; solve_bounded. apply bounded_modify. intros s. apply logs_discovers.
Qed.

Lemma bounded_settlement node d : bounded 2 (settlement node d).
Proof.
  unfold settlement. apply bounded_bind0; [apply bounded_modify; intros; by apply logs_same|]. intros _.
  apply bounded_bind0; [apply bounded_modify; intros s; destruct (is_agent node); by apply logs_same|]. intros _.
  apply bounded_bind0; [apply bounded_modify; intros; by apply logs_same|]. intros _.
  destruct d as [clean value p|p|[] p].
  - apply bounded_bind0; [apply bounded_modify; intros; by apply logs_same|]. intros _. eapply bounded_le; [|apply bounded_settle]. lia.
  - eapply bounded_le; [|apply bounded_settle]. lia.
  - cbv zeta. apply (bounded_bind 1 1); [apply bounded_settle|]. intros _. apply bounded_applyVerdict.
  - apply (bounded_le 1); [lia|]. apply (bounded_bind 1 0); [apply bounded_settle|]. intros _. apply bounded_modify; intros; by apply logs_same.
Qed.

Lemma bounded_fuelled {A} k (m : C A) : bounded k m → fuelled m.
Proof. intros Hm s. apply Hm. Qed.

Lemma fuelled_appendMerge node : fuelled (appendMerge node).
Proof.
  apply (bounded_fuelled 1). unfold appendMerge. apply bounded_bind0; [apply bounded_gets|]. intros s.
  destruct (append _ _) as [[e|grown]|]; [by apply bounded_fail| |by apply bounded_fail].
  apply bounded_bind0; [apply bounded_modify; intros; by apply logs_same|]. intros _.
  apply bounded_bind0; [apply bounded_observeReads|]. intros _.
  apply bounded_bind0; [apply bounded_modify; intros; by apply logs_same|]. intros _.
  apply bounded_bind0; [apply bounded_call|]. intros []; [|by apply bounded_fail]. apply bounded_emit.
Qed.

Lemma fuelled_appendReadyMerges : fuelled appendReadyMerges.
Proof.
  assert (∀ pending, fuelled (append_ready pending)) as Ha.
  { induction pending as [|m pending IH]; [done|]. cbn [append_ready]. apply fuelled_bind; [done|]. intros s.
    destruct (existsb _ _); (apply fuelled_bind; [done || apply fuelled_appendMerge|]); intros; [done|apply IH]. }
  unfold appendReadyMerges. apply fuelled_bind; [done|]. intros pending. apply fuelled_bind; [done|]. by intros rest s.
Qed.
End bounded.
