(* ===== verification/SchedulerSteps.v ===== *)
(** * The steps of a run keep the scheduler's invariant

    [sched_ok] over the steps of the fibers, the reports, verdicts, merges and deviations
    of a turn, the passive pass and admission; [turn_spec] and [start_spec] say what a turn
    and the start do, and [reached] that every state of a run satisfies [run_ok]. *)

From S2P Require Import Prelude Capability FileSet Canonical StepKey StepKeyProps Plan PlanOrder PlanAnnotate PlanProps PlanTheorems Scheduler SchedulerProps.
From stdpp Require Import relations.
#[local] Open Scope me_scope.

Implicit Types (s : Sched) (id : string) (node : PlanNode).

Section steps.
Context `{Crypto} `{Host} (o : SchedulerOptions).

Lemma ok_core s s' : same_core s s' → sched_ok o s → sched_ok o s'.
Proof. intros Hs. by apply ok_alike, same_core_alike. Qed.

(** A change of fibers and reports only. *)
Lemma ok_tokens s s' :
  sched_ok o s → sc_plan s' = sc_plan s → sc_states s' = sc_states s → sc_results s' = sc_results s →
  sc_discovered s' = sc_discovered s → sc_inFlightSteps s' = sc_inFlightSteps s → sc_inFlightAgents s' = sc_inFlightAgents s →
  tokens s' ≡ₚ tokens s →
  (∀ id f, sc_fibers s' !! id = Some f → pn_id (fb_node f) = id ∧ fiber_ok o f) →
  (∀ node d, (node, inr d) ∈ waiting s' → counted o (dp_attempts (progress_of d)) (dp_rebases (progress_of d))) →
  (∀ node, (node, inl NoFuel) ∉ waiting s') →
  sched_ok o s'.
Proof.
  intros [] Hp Hst Hr Hd Hs Ha Ht Hf Hw Hstops.
  assert (∀ id, stateOf id s' = stateOf id s) as Hstate by (intros id; unfold stateOf; by rewrite Hst).
  assert (∀ id, settled_in s' id = settled_in s id) as Hset by (intros id; unfold settled_in; by rewrite Hstate).
  split; rewrite ?Hp, ?Hs, ?Ha; try done.
  - by rewrite Ht.
  - intros node Hn. apply so_nodes. by rewrite <-Ht.
  - intros id. unfold running_in. rewrite Hstate, Ht. apply so_running.
  - by rewrite Ht.
  - rewrite so_agents. f_equal. apply Permutation_length, filter_permutation. by symmetry.
  - intros owner l id. rewrite Hd, Hset. apply so_discovered.
  - intros id. unfold has_result. rewrite Hr, Hset, Hstate. apply so_results.
  - intros id. by rewrite Hstate.
Qed.

(** ** Fibers *)

Lemma waiting_report node exit s : waiting (report_exit node exit s) = waiting s ++ [(node, exit)].
Proof. unfold waiting, report_exit, offer. cbn. by rewrite omap_app, app_assoc. Qed.

Lemma ok_report s f exit :
  sched_ok o s → sc_fibers s !! pn_id (fb_node f) = Some f →
  (∀ d, exit = inr d → counted o (dp_attempts (progress_of d)) (dp_rebases (progress_of d))) → exit ≠ inl NoFuel →
  sched_ok o (report_exit (fb_node f) exit s).
Proof.
  intros Hok Hf He Hn. apply (ok_tokens s); try done.
  - unfold tokens. rewrite waiting_report. cbn [sc_fibers report_exit offer set_events set_fibers].
    rewrite (fiber_nodes_delete _ _ _ Hf), fmap_app. cbn. rewrite app_assoc, <-Permutation_cons_append. done.
  - intros id g. cbn. intros [_ Hg]%lookup_delete_Some. by apply (so_fiber _ _ Hok).
  - intros node d. rewrite waiting_report, elem_of_app, list_elem_of_singleton. intros [Hin|[= -> <-]]; [by apply (so_reports _ _ Hok) in Hin|by apply He].
  - intros node. rewrite waiting_report, elem_of_app, list_elem_of_singleton. intros [Hin|[= -> <-]]; [by apply (so_stops _ _ Hok) in Hin|done].
Qed.

Lemma ok_put_fiber s f f' :
  sched_ok o s → sc_fibers s !! pn_id (fb_node f) = Some f → fb_node f' = fb_node f → fiber_ok o f' → sched_ok o (put_fiber f' s).
Proof.
  intros Hok Hf Hn Hf'. apply (ok_tokens s); try done.
  - unfold tokens. cbn. apply Permutation_app; [|done]. rewrite Hn. by apply (fiber_nodes_update _ _ f).
  - intros id g. cbn. intros [[<- <-]|[_ Hg]]%lookup_insert_Some; [done|by apply (so_fiber _ _ Hok)].
  - apply (so_reports _ _ Hok).
  - apply (so_stops _ _ Hok).
Qed.

(** The head of the loop of [dispatch]: the attempt is keyed and counted, or nothing is. *)
Lemma key_attempt_spec f s r s' :
  key_attempt o f s = (r, s') →
  match r with
  | inl _ => same_core s s'
  | inr _ => ∃ t key, same_core s t ∧
      s' = put_fiber (mkFiber (fb_node f) (fb_start f) (mkProgress key (dp_attempts (fb_progress f) + 1) (dp_rebases (fb_progress f))) Executing) t
  end.
Proof.
  unfold key_attempt. cbv zeta. intros E. destruct (measure (fb_node f) s) as [[e|b] s1] eqn:E1.
  { rewrite (bind_run_fail _ _ _ _ _ E1) in E. injection E as <- <-. by eapply quiet_run; [apply quiet_measure|]. }
  rewrite (bind_run _ _ _ _ _ E1) in E. assert (same_core s s1) as Hs1 by (by eapply quiet_run; [apply quiet_measure|]).
  destruct (dispatchKeyFor o (fb_node f) b (ds_results (fb_start f)) s1) as [[e|key] s2] eqn:E2; [rewrite (bind_run_fail _ _ _ _ _ E2) in E|rewrite (bind_run _ _ _ _ _ E2) in E];
    (assert (same_core s s2) as Hs2 by (etrans; [exact Hs1|]; by eapply quiet_run; [apply quiet_dispatchKeyFor|])); [by injection E as <- <-|].
  match type of E with bind ?m _ _ = _ => set (invalidate := m) in E end.
  assert (quiet invalidate) as Hi by (unfold invalidate; solve_quiet).
  destruct (invalidate s2) as [[e|[]] s3] eqn:E3; [rewrite (bind_run_fail _ _ _ _ _ E3) in E|rewrite (bind_run _ _ _ _ _ E3) in E];
    (assert (same_core s s3) as Hs3 by (etrans; [exact Hs2|]; by eapply quiet_run)); [by injection E as <- <-|].
  match type of E with bind ?m _ _ = _ => set (scheduled := m) in E end.
  destruct (scheduled s3) as [[e|[]] s4] eqn:E4; [rewrite (bind_run_fail _ _ _ _ _ E4) in E|rewrite (bind_run _ _ _ _ _ E4) in E];
    (assert (same_core s s4) as Hs4 by (etrans; [exact Hs3|]; eapply quiet_run; [|exact E4]; apply quiet_emit_record)); [by injection E as <- <-|].
  destruct (Sha256 (of_string key)) as [e|d]; injection E as <- <-; [exact Hs4|]. eexists _, key. split; [|reflexivity].
  etrans; [exact Hs4|]. split; try done. unfold waiting, offer. cbn. rewrite omap_app. cbn. by rewrite app_nil_r.
Qed.

Lemma key_attempt_ok f s r s' :
  sched_ok o s → sc_fibers s !! pn_id (fb_node f) = Some f → fb_phase f = Measuring → key_attempt o f s = (r, s') →
  match r with inr _ => sched_ok o s' | inl _ => sched_ok o s' ∧ sc_fibers s' !! pn_id (fb_node f) = Some f end.
Proof.
  intros Hok Hf Hph E%key_attempt_spec. destruct r as [e|u].
  - split; [by eapply ok_core|]. by rewrite (sm_fibers _ _ E).
  - destruct E as (t & key & Hc & ->). apply (ok_put_fiber _ f); [by eapply ok_core|by rewrite (sm_fibers _ _ Hc)|done|].
    destruct (so_fiber _ _ Hok _ _ Hf) as [_ [Hl Ha]]. rewrite Hph in Ha. split; [done|]. cbn. lia.
Qed.

Lemma ok_fiber_step step s : sched_ok o s → sched_ok o (fiber_step o step s).
Proof.
  intros Hok. destruct step as [id|id r|r]; cbn [fiber_step].
  - destruct (sc_fibers s !! id) as [f|] eqn:Ef; [|done]. destruct (so_fiber _ _ Hok _ _ Ef) as [<- _].
    destruct (fb_phase f) eqn:Ep; [|done]. destruct (key_attempt o f s) as [r s'] eqn:E.
    pose proof (key_attempt_ok f s r s' Hok Ef Ep E) as Hk. destruct r as [e|[]]; [|done].
    destruct Hk as [Hok' Hf']. apply ok_report; [done|done|done|]. destruct (bounded_key_attempt o f s) as [Hb _]. rewrite E in Hb. by intros [= ->].
  - destruct (sc_fibers s !! id) as [f|] eqn:Ef; [|done]. destruct (so_fiber _ _ Hok _ _ Ef) as [<- [Hl Ha]].
    destruct (fb_phase f) eqn:Ep; [done|].
    assert (counted o (dp_attempts (fb_progress f)) (dp_rebases (fb_progress f))) as Hc by done.
    destruct r as [ex v| | |]; cbn [after_attempt]; try (apply ok_report; [done|done|by intros d [= <-]|done]).
    destruct (_ && _) eqn:Eb; [|apply ok_report; [done|done|by intros d [= <-]|done]].
    apply andb_true_iff in Eb as [_ Eb]. apply bool_decide_eq_true in Eb.
    apply (ok_put_fiber _ f); [done|done|done|]. unfold fiber_ok, limit_ok in *. cbn. lia.
  - apply (ok_core s); [by split|done].
Qed.

Lemma ok_fiber_steps steps s : sched_ok o s → sched_ok o (fiber_steps o steps s).
Proof. revert s. induction steps as [|step steps IH]; intros s Hok; [done|]. apply IH. by apply ok_fiber_step. Qed.

(** ** Admission *)

(** A change of a state that leaves its status, outcome and counts. *)
Lemma ok_age node s : sched_ok o s → sched_ok o (age node s).
Proof.
  intros []. assert (∀ id, ns_status (stateOf id (age node s)) = ns_status (stateOf id s)
                        ∧ ns_outcome (stateOf id (age node s)) = ns_outcome (stateOf id s)
                        ∧ state_ok o (stateOf id (age node s))) as Hst.
  { intros id. unfold age. rewrite stateOf_change. case_id id (pn_id node); [|done]. split; [done|]. split; [done|]. apply so_states. }
  assert (∀ id, settled_in (age node s) id = settled_in s id) as Hset by (intros id; unfold settled_in; by destruct (Hst id) as [-> _]).
  split; try done.
  - intros id. etransitivity; [|exact (so_running id)]. unfold running_in. by destruct (Hst id) as [-> _].
  - intros owner l id Hl Hid. rewrite Hset. by apply (so_discovered owner l).
  - intros id. etransitivity; [exact (so_results id)|]. unfold has_result. rewrite Hset. by destruct (Hst id) as (_ & -> & _).
  - intros id. apply Hst.
Qed.

Lemma not_in_flight s id : sched_ok o s → running_in s id = false → id ∉ pn_id <$> tokens s ∧ sc_fibers s !! id = None.
Proof.
  intros Hok Hr. assert (id ∉ pn_id <$> tokens s) as Hn by (intros Hin%(so_running _ _ Hok); congruence). split; [done|].
  destruct (sc_fibers s !! id) as [f|] eqn:Ef; [|done]. destruct Hn. destruct (so_fiber _ _ Hok _ _ Ef) as [<- _].
  apply list_elem_of_fmap. exists (fb_node f). split; [done|]. unfold tokens. apply elem_of_app. left.
  apply list_elem_of_fmap. exists (pn_id (fb_node f), f). split; [done|]. by apply elem_of_map_to_list.
Qed.

Lemma launch_tokens node s : sc_fibers s !! pn_id node = None → tokens (launch node s) ≡ₚ node :: tokens s.
Proof.
  intros Hf. unfold tokens, launch. destruct (is_agent node); cbn; by rewrite fiber_nodes_new.
Qed.

Lemma launch_state node s id :
  stateOf id (launch node s) = if bool_decide (id = pn_id node) then with_status SRunning (ns_outcome (stateOf (pn_id node) s)) (stateOf (pn_id node) s) else stateOf id s.
Proof. unfold launch. destruct (is_agent node); cbn; apply (stateOf_change (pn_id node) id (λ n, with_status SRunning (ns_outcome n) n) s). Qed.

Lemma ok_launch node s :
  sched_ok o s → node ∈ pl_nodes (sc_plan s) → pending_in s (pn_id node) → (sc_inFlightSteps s < stepCap o)%Z →
  (is_agent node = true → sc_inFlightAgents s < agentCap o)%Z → sched_ok o (launch node s).
Proof.
  intros Hok Hn Hp Hcap Hagent.
  assert (running_in s (pn_id node) = false) as Hrun by (apply bool_decide_eq_false; unfold pending_in in Hp; congruence).
  assert (settled_in s (pn_id node) = false) as Hset by (apply bool_decide_eq_false; unfold pending_in in Hp; congruence).
  destruct (not_in_flight s (pn_id node) Hok Hrun) as [Hid Hf]. pose proof (launch_tokens node s Hf) as Ht.
  pose proof (launch_state node s) as Hst.
  assert (∀ id, settled_in (launch node s) id = settled_in s id) as Hset'.
  { intros id. unfold settled_in at 1. rewrite Hst. case_id id (pn_id node); [|done]. rewrite Hset. by apply bool_decide_eq_false. }
  assert (ns_attempts (stateOf (pn_id node) s) = 0%Z ∧ ns_rebases (stateOf (pn_id node) s) = 0%Z) as [Hatt Hreb].
  { destruct (so_states _ _ Hok (pn_id node)) as [?|[? _]]; [done|]. unfold pending_in in Hp. congruence. }
  assert (sc_inFlightSteps (launch node s) = sc_inFlightSteps s + 1)%Z as Hsteps by (unfold launch; by destruct (is_agent node)).
  assert (sc_inFlightAgents (launch node s) = sc_inFlightAgents s + if is_agent node then 1 else 0)%Z as Hagents
    by (unfold launch; destruct (is_agent node); cbn; lia).
  destruct Hok. split.
  - unfold launch. by destruct (is_agent node).
  - rewrite Ht. cbn. by apply NoDup_cons.
  - intros m. rewrite Ht. replace (sc_plan (launch node s)) with (sc_plan s) by (unfold launch; by destruct (is_agent node)).
    intros [->|Hm]%elem_of_cons; [done|by apply so_nodes].
  - intros id. rewrite Ht. cbn. rewrite elem_of_cons, <-so_running. unfold running_in at 1. rewrite Hst. case_id id (pn_id node).
    + split; [by left|intros _; by apply bool_decide_eq_true].
    + split; [intros Hr; right; exact Hr|by intros [?|Hr]].
  - intros id f. assert (sc_fibers (launch node s) = <[pn_id node := mkFiber node (dispatchStart s node)
      (mkProgress (ds_dispatchKey (dispatchStart s node)) (ds_attempts (dispatchStart s node)) (ds_rebases (dispatchStart s node))) Measuring]> (sc_fibers s)) as ->
      by (unfold launch; by destruct (is_agent node)).
    intros [[<- <-]|[_ Hg]]%lookup_insert_Some; [|by apply so_fiber]. split; [done|]. unfold fiber_ok, limit_ok. cbn. rewrite Hatt, Hreb. lia.
  - intros m d. replace (waiting (launch node s)) with (waiting s) by (unfold launch; by destruct (is_agent node)). apply so_reports.
  - intros m. replace (waiting (launch node s)) with (waiting s) by (unfold launch; by destruct (is_agent node)). apply so_stops.
  - rewrite Hsteps, so_steps, Ht. cbn. lia.
  - rewrite Hagents, so_agents. rewrite (Permutation_length (filter_permutation is_agent _ _ Ht)). cbn. destruct (is_agent node); cbn; lia.
  - lia.
  - rewrite Hagents. destruct (is_agent node); [specialize (Hagent eq_refl); lia|lia].
  - intros owner l id. replace (sc_discovered (launch node s)) with (sc_discovered s) by (unfold launch; by destruct (is_agent node)).
    rewrite Hset'. apply so_discovered.
  - intros id. replace (sc_results (launch node s)) with (sc_results s) by (unfold launch; by destruct (is_agent node)).
    rewrite so_results. unfold has_result. rewrite Hset', Hst. case_id id (pn_id node); [|done]. rewrite Hset. by split; intros [? _].
  - intros id. rewrite Hst. case_id id (pn_id node); [|done]. left. cbn. done.
Qed.

Lemma launch_pending node s id : id ≠ pn_id node → pending_in s id → pending_in (launch node s) id.
Proof. intros Hne Hp. unfold pending_in. rewrite launch_state. by rewrite (bool_decide_eq_false_2 (id = _)). Qed.

Lemma launch_plan node s : sc_plan (launch node s) = sc_plan s.
Proof. unfold launch. by destruct (is_agent node). Qed.

(** What fits is launched without breaking a cap. *)
Lemma ok_launches steps agents l s :
  sched_ok o s → sc_inFlightSteps s = steps → sc_inFlightAgents s = agents → NoDup (pn_id <$> l) →
  (∀ node, node ∈ l → node ∈ pl_nodes (sc_plan s) ∧ pending_in s (pn_id node)) →
  sched_ok o (fold_left (λ s node, launch node s) (choose o steps agents l) s).
Proof.
  revert steps agents s. induction l as [|node l IH]; intros steps agents s Hok Hs Ha Hd Hl; [done|]. cbn [choose].
  cbn in Hd. apply NoDup_cons in Hd as [Hnew Hd]. destruct (_ || _) eqn:Ec.
  - apply IH; try done. intros m Hm. apply Hl. by right.
  - apply orb_false_iff in Ec as [Ec1 Ec2]. apply bool_decide_eq_false in Ec1. destruct (Hl node) as [Hn Hp]; [by left|].
    cbn [fold_left]. apply IH; try done.
    + apply ok_launch; try done; [lia|]. intros Hag. rewrite Hag in Ec2. cbn in Ec2. apply bool_decide_eq_false in Ec2. lia.
    + unfold launch. destruct (is_agent node); cbn; lia.
    + unfold launch. destruct (is_agent node); cbn; lia.
    + intros m Hm. rewrite launch_plan. destruct (Hl m) as [? ?]; [by right|]. split; [done|]. apply launch_pending; [|done].
      intros E. apply Hnew. rewrite <-E. apply list_elem_of_fmap. by exists m.
Qed.

Lemma contenders_permutation s ready : contenders s ready ≡ₚ ready.
Proof.
  unfold contenders. rewrite merge_sort_Permutation. rewrite <-list_fmap_compose. by rewrite list_fmap_id.
Qed.

Lemma ages_spec l s :
  sched_ok o s → sched_ok o (fold_left (λ s node, age node s) l s) ∧
  sc_plan (fold_left (λ s node, age node s) l s) = sc_plan s ∧
  sc_inFlightSteps (fold_left (λ s node, age node s) l s) = sc_inFlightSteps s ∧
  sc_inFlightAgents (fold_left (λ s node, age node s) l s) = sc_inFlightAgents s ∧
  ∀ id, pending_in s id → pending_in (fold_left (λ s node, age node s) l s) id.
Proof.
  revert s. induction l as [|n l IH]; intros s Hok; [done|]. cbn. destruct (IH (age n s) (ok_age n s Hok)) as (H1 & H2 & H3 & H4 & H5).
  split; [done|]. split; [done|]. split; [done|]. split; [done|]. intros id Hp. apply H5. unfold pending_in, age. rewrite stateOf_change.
  by case_id id (pn_id n).
Qed.

Lemma ok_admit ready s :
  sched_ok o s → NoDup (pn_id <$> ready) → (∀ node, node ∈ ready → node ∈ pl_nodes (sc_plan s) ∧ pending_in s (pn_id node)) →
  sched_ok o (admit_ready o ready s).
Proof.
  intros Hok Hd Hr. unfold admit_ready.
  match goal with |- context [fold_left _ ?l s] => destruct (ages_spec l s Hok) as (H1 & H2 & H3 & H4 & H5) end.
  apply ok_launches; try done.
  - by rewrite contenders_permutation.
  - intros node Hn. rewrite contenders_permutation in Hn. rewrite H2. destruct (Hr node Hn). auto.
Qed.

(** ** Reports *)

(** [s'] is [s] less the report that is processed. *)
Record taken (x : PlanNode * (Stop + Dispatched)) (s s' : Sched) : Prop := {
  tk_waiting : waiting s = x :: waiting s';
  tk_plan : sc_plan s' = sc_plan s;
  tk_states : sc_states s' = sc_states s;
  tk_results : sc_results s' = sc_results s;
  tk_discovered : sc_discovered s' = sc_discovered s;
  tk_fibers : sc_fibers s' = sc_fibers s;
  tk_steps : sc_inFlightSteps s' = sc_inFlightSteps s;
  tk_agents : sc_inFlightAgents s' = sc_inFlightAgents s;
  tk_appended : sc_appended s' = sc_appended s;
  tk_merges : sc_pendingMerges s' = sc_pendingMerges s
}.

Lemma register_core id d s : same_core s (registerAttempt id d s).
Proof. unfold registerAttempt. destruct (sc_digestToNode s !! d) as [l|]; [|by split]. case_bool_decide; by split. Qed.

Lemma register_reports id d s : sc_pendingSettlements (registerAttempt id d s) = sc_pendingSettlements s ∧ sc_events (registerAttempt id d s) = sc_events s.
Proof. unfold registerAttempt. destruct (sc_digestToNode s !! d) as [l|]; [|done]. by case_bool_decide. Qed.

Lemma take_spec events s :
  sc_pendingSettlements s = [] →
  match take_settlement events s with
  | (Some x, s') => taken x (set_events events s) s'
  | (None, s') => omap settled_event events = [] ∧ same_core (set_events events s) s'
  end.
Proof.
  revert s. induction events as [|[id d|node exit] events IH]; intros s Hp; cbn; [done| |].
  - destruct (register_reports id d s) as [Hr He]. specialize (IH (registerAttempt id d s)). rewrite Hr in IH. specialize (IH Hp).
    destruct (take_settlement events (registerAttempt id d s)) as [[x|] s'].
    2: { destruct IH as [Hn Hc]. split; [done|]. destruct (register_core id d s), Hc. split; try (etrans; [eassumption|]; done).
         rewrite sm_waiting0. unfold waiting. cbn. by rewrite Hr, Hp. }
    destruct (register_core id d s), IH. split; try (etrans; [eassumption|]; done).
    rewrite <-tk_waiting0. unfold waiting. cbn. by rewrite Hr, Hp.
  - split; try done. unfold waiting. cbn. by rewrite Hp.
Qed.

Lemma next_spec s :
  match nextSettlement s with
  | (Some x, s') => taken x s s'
  | (None, s') => waiting s = [] ∧ same_core s s'
  end.
Proof.
  unfold nextSettlement. destruct (sc_pendingSettlements s) as [|x rest] eqn:Ep.
  - pose proof (take_spec (sc_events s) s Ep) as Ht. destruct (take_settlement (sc_events s) s) as [[x|] s'].
    + by destruct Ht.
    + destruct Ht as [Hn Hc]. split; [unfold waiting; by rewrite Ep, Hn|]. etrans; [|exact Hc]. by split.
  - split; try done. unfold waiting. by rewrite Ep.
Qed.

Definition outcome_of (d : Dispatched) : NodeOutcome :=
  match d with
  | Completed clean _ _ => if clean then OClean else OBuilt
  | FailedDispatch _ => OFailed
  | Conflicted StopMerge _ => OSkipped
  | Conflicted DelayRebase _ => OFailed
  end.

(** A processed report, before the verdicts and merges it leads to. *)
Definition landed (node : PlanNode) (d : Dispatched) (s : Sched) : Sched :=
  let s := set_inFlightSteps (sc_inFlightSteps s - 1) s in
  let s := if is_agent node then set_inFlightAgents (sc_inFlightAgents s - 1) s else s in
  let s := change_state (pn_id node) (with_progress (progress_of d)) s in
  let s := match d with Completed _ value _ => set_results (<[pn_id node := value]> (sc_results s)) s | _ => s end in
  change_state (pn_id node) (with_status SSettled (outcome_of d)) s.

Lemma landed_state node d s id :
  stateOf id (landed node d s) = if bool_decide (id = pn_id node) then with_status SSettled (outcome_of d) (with_progress (progress_of d) (stateOf (pn_id node) s)) else stateOf id s.
Proof.
  unfold landed. rewrite stateOf_change. case_id id (pn_id node).
  - f_equal. destruct (is_agent node), d; cbn; unfold stateOf, state_in; cbn; by rewrite lookup_insert_eq.
  - destruct (is_agent node), d; cbn; unfold stateOf, state_in; cbn; by rewrite lookup_insert_ne.
Qed.

Lemma landed_fields node d s :
  sc_plan (landed node d s) = sc_plan s ∧ sc_fibers (landed node d s) = sc_fibers s ∧ waiting (landed node d s) = waiting s ∧
  sc_discovered (landed node d s) = sc_discovered s ∧ sc_inFlightSteps (landed node d s) = (sc_inFlightSteps s - 1)%Z ∧
  sc_inFlightAgents (landed node d s) = (sc_inFlightAgents s - if is_agent node then 1 else 0)%Z ∧
  sc_results (landed node d s) = match d with Completed _ value _ => <[pn_id node := value]> (sc_results s) | _ => sc_results s end ∧
  sc_appended (landed node d s) = sc_appended s ∧ sc_pendingMerges (landed node d s) = sc_pendingMerges s.
Proof. unfold landed. destruct (is_agent node), d; cbn; split_and!; try done; lia. Qed.

Lemma taken_tokens x s s' : taken x s s' → tokens s ≡ₚ fst x :: tokens s'.
Proof.
  intros []. unfold tokens. rewrite tk_waiting0, tk_fibers0. cbn. by rewrite <-Permutation_middle.
Qed.

Lemma ok_landed node d s s' : sched_ok o s → taken (node, inr d) s s' → sched_ok o (landed node d s').
Proof.
  intros Hok Htk. pose proof (taken_tokens _ _ _ Htk) as Ht. cbn in Ht. destruct Htk.
  destruct (landed_fields node d s') as (Lp & Lf & Lw & Ld & Ls & La & Lr & _). pose proof (landed_state node d s') as Lst.
  assert (∀ id, stateOf id s' = stateOf id s) as Hstate by (intros id; unfold stateOf; by rewrite tk_states0).
  assert (tokens (landed node d s') = tokens s') as Ltok by (unfold tokens; by rewrite Lf, Lw).
  assert (pn_id node ∉ pn_id <$> tokens s' ∧ NoDup (pn_id <$> tokens s')) as [Hnew Hd'].
  { pose proof (so_unique _ _ Hok) as Hd. rewrite Ht in Hd. cbn in Hd. by apply NoDup_cons in Hd. }
  assert (running_in s (pn_id node) = true) as Hrun by (apply (so_running _ _ Hok); rewrite Ht; cbn; by left).
  assert (∀ id, settled_in (landed node d s') id = bool_decide (id = pn_id node) || settled_in s id) as Lset.
  { intros id. unfold settled_in at 1. rewrite Lst, Hstate. case_id id (pn_id node); [by apply bool_decide_eq_true|by rewrite Hstate]. }
  destruct Hok. split; rewrite ?Lp, ?tk_plan0, ?Ltok.
  - done.
  - done.
  - intros m Hm. apply so_nodes. rewrite Ht. by right.
  - intros id. unfold running_in. rewrite Lst. case_id id (pn_id node).
    + split; [by intros ?%bool_decide_eq_true|done].
    + rewrite Hstate. etransitivity; [exact (so_running id)|]. rewrite Ht. cbn. rewrite elem_of_cons. split; [by intros [?|?]|by right].
  - intros id f. rewrite Lf, tk_fibers0. apply so_fiber.
  - intros m e. rewrite Lw. intros Hm. apply (so_reports m). rewrite tk_waiting0. by right.
  - intros m. rewrite Lw. intros Hm. apply (so_stops m). rewrite tk_waiting0. by right.
  - rewrite Ls, tk_steps0, so_steps, Ht. cbn. lia.
  - rewrite La, tk_agents0, so_agents, (Permutation_length (filter_permutation is_agent _ _ Ht)). cbn. destruct (is_agent node); cbn; lia.
  - rewrite Ls, tk_steps0. lia.
  - rewrite La, tk_agents0. destruct (is_agent node); lia.
  - intros owner l id. rewrite Ld, tk_discovered0, Lset. intros Hl Hid. rewrite (so_discovered owner l id Hl Hid). by rewrite orb_true_r.
  - intros id. rewrite Lr, tk_results0. unfold has_result. rewrite Lset, Lst. case_id id (pn_id node); cbn [orb with_status ns_outcome].
    + assert (sc_results s !! pn_id node = None) as Hnone.
      { apply eq_None_not_Some. intros Hsome%so_results. destruct Hsome as [Hs _]. unfold settled_in in Hs. unfold running_in in Hrun.
        apply bool_decide_eq_true in Hs, Hrun. congruence. }
      destruct d as [[] v p|p|[] p]; rewrite ?lookup_insert_eq, ?Hnone; cbn; split; try done; by intros [? ?].
    + rewrite Hstate. etransitivity; [|apply so_results]. destruct d; try done. by rewrite lookup_insert_ne.
  - intros id. rewrite Lst. case_id id (pn_id node); [|rewrite Hstate; apply so_states]. right. split; [done|].
    apply (so_reports node). rewrite tk_waiting0. by left.
Qed.

(** ** What a turn does before it admits *)

(** Nodes are appended and listed, a status changes only to settled, and the outcome of
    a settled node only to failed. *)
Record advance (s s' : Sched) : Prop := {
  ad_nodes : ∃ new, pl_nodes (sc_plan s') = pl_nodes (sc_plan s) ++ new ∧ sc_appended s' = sc_appended s ++ (pn_id <$> new);
  ad_status : ∀ id, ns_status (stateOf id s') = ns_status (stateOf id s) ∨ settled_in s' id = true;
  ad_outcome : ∀ id, settled_in s id = true →
    ns_outcome (stateOf id s') = ns_outcome (stateOf id s) ∨ ns_outcome (stateOf id s') = OFailed
}.

Lemma advance_settled s s' id : advance s s' → settled_in s id = true → settled_in s' id = true.
Proof.
  intros Ha Hs. destruct (ad_status _ _ Ha id) as [E|]; [|done]. unfold settled_in in *. by rewrite E.
Qed.

Lemma advance_running s s' id : advance s s' → running_in s' id = true → running_in s id = true.
Proof.
  intros Ha Hr. destruct (ad_status _ _ Ha id) as [E|Hs]; unfold running_in, settled_in in *; [by rewrite <-E|].
  apply bool_decide_eq_true in Hs, Hr. congruence.
Qed.

#[export] Instance advance_po : PreOrder advance.
Proof.
  split.
  - intros s. split; [|by left|by left]. exists []. by rewrite !app_nil_r.
  - intros s1 s2 s3 H12 H23. split.
    + destruct (ad_nodes _ _ H12) as (l & E1 & A1), (ad_nodes _ _ H23) as (l' & E2 & A2). exists (l ++ l').
      by rewrite E2, E1, A2, A1, fmap_app, !app_assoc.
    + intros id. destruct (ad_status _ _ H23 id) as [->|?]; [|by right]. destruct (ad_status _ _ H12 id) as [->|?]; [by left|].
      right. by apply (advance_settled s2).
    + intros id Hs. pose proof (advance_settled _ _ _ H12 Hs) as Hs2. destruct (ad_outcome _ _ H23 id Hs2) as [->|?]; [|by right].
      by apply (ad_outcome _ _ H12).
Qed.

Lemma frame_advance s s' :
  sc_plan s' = sc_plan s → sc_appended s' = sc_appended s → (∀ id, stateOf id s' = stateOf id s) → advance s s'.
Proof.
  intros Hp Ha Hst. split.
  - exists []. by rewrite Hp, Ha, !app_nil_r.
  - intros id. rewrite Hst. by left.
  - intros id _. rewrite Hst. by left.
Qed.

Lemma alike_advance s s' : alike s s' → advance s s'.
Proof. intros []. by apply frame_advance. Qed.

(** A settled state of a node that is not settled otherwise, or a failure. *)
Lemma settle_advance s s' id (f : NodeState → NodeState) :
  (∀ j, stateOf j s' = if bool_decide (j = id) then f (stateOf id s) else stateOf j s) →
  sc_plan s' = sc_plan s → sc_appended s' = sc_appended s →
  ns_status (f (stateOf id s)) = SSettled → (settled_in s id = true → ns_outcome (f (stateOf id s)) = OFailed) → advance s s'.
Proof.
  intros Hst Hp Ha Hset Hout. split.
  - exists []. by rewrite Hp, Ha, !app_nil_r.
  - intros j. unfold settled_in. rewrite Hst. case_id j id; [|by left]. right. by apply bool_decide_eq_true.
  - intros j Hj. rewrite Hst. case_id j id; [|by left]. right. by apply Hout.
Qed.

Lemma cascade_advance s s' : cascade s s' → advance s s'.
Proof.
  induction 1 as [s s' Ha|s node outcome s1 s' Hn Hp Hr Ha Hc IH]; [by apply alike_advance|].
  transitivity s1; [|done]. transitivity (change_state (pn_id node) (with_status SSettled outcome) s); [|by apply alike_advance].
  apply (settle_advance _ _ (pn_id node) (with_status SSettled outcome)); try done.
  - intros j. apply stateOf_change.
  - intros Hs. unfold settled_in in Hs. apply bool_decide_eq_true in Hs. unfold pending_in in Hp. congruence.
Qed.

(** An edge that is discovered changes no state. *)
Lemma discovers_frame nodeId owners s :
  let s' := fold_left (λ s owner, discover nodeId owner s) owners s in
  sc_plan s' = sc_plan s ∧ sc_appended s' = sc_appended s ∧ sc_states s' = sc_states s ∧ sc_pendingMerges s' = sc_pendingMerges s.
Proof.
  revert s. induction owners as [|owner owners IH]; intros s; [done|]. cbn [fold_left]. cbv zeta. destruct (IH (discover nodeId owner s)) as (-> & -> & -> & ->).
  unfold discover. destruct (sc_states s !! owner) as [n|]; [|done]. by destruct (bool_decide _).
Qed.

Lemma judged_frame s nodeId verdict :
  sc_plan (judged nodeId verdict s) = sc_plan s ∧ sc_appended (judged nodeId verdict s) = sc_appended s ∧
  sc_pendingMerges (judged nodeId verdict s) = sc_pendingMerges s.
Proof. destruct verdict as [r|owners r|]; [done| |done]. cbn [judged]. by destruct (discovers_frame nodeId owners s) as (? & ? & _ & ?). Qed.

Lemma judged_advance s nodeId verdict : settled_in s nodeId = true → advance s (judged nodeId verdict s).
Proof.
  intros Hs. destruct verdict as [r|owners r|]; [| |done].
  - by apply (settle_advance _ _ nodeId (with_status SSettled OFailed)); try done; intros j; apply (stateOf_change nodeId j).
  - cbn [judged]. destruct (discovers_frame nodeId owners s) as (Hp & Ha & Hst & _). apply frame_advance; [done|done|].
    intros id. unfold stateOf. by rewrite Hst.
Qed.

(** *** Reports *)

Lemma landed_advance node d s s' : running_in s (pn_id node) = true → taken (node, inr d) s s' → advance s (landed node d s').
Proof.
  intros Hrun []. destruct (landed_fields node d s') as (Lp & _ & _ & _ & _ & _ & _ & La & _).
  apply (settle_advance _ _ (pn_id node) (λ n, with_status SSettled (outcome_of d) (with_progress (progress_of d) n))); try congruence; try done.
  - intros j. rewrite landed_state. unfold stateOf. by rewrite tk_states0.
  - unfold running_in, settled_in in *. intros Hs. apply bool_decide_eq_true in Hrun, Hs. congruence.
Qed.

Lemma landed_settled node d s : settled_in (landed node d s) (pn_id node) = true.
Proof. unfold settled_in. rewrite landed_state. rewrite (bool_decide_eq_true_2 (pn_id node = pn_id node)) by done. by apply bool_decide_eq_true. Qed.

Lemma settle_inr node outcome s s' :
  settle node outcome s = (inr tt, s') → same_core (change_state (pn_id node) (with_status SSettled outcome) s) s'.
Proof. intros E. pose proof (settle_core node outcome s) as Hs. by rewrite E in Hs. Qed.

(** A report, up to the verdict of the reconciler and the merge that is put down. *)
Lemma settlement_spec node d s s' :
  settlement node d s = (inr tt, s') →
  ∃ s1 verdict merges, same_core (landed node d s) s1 ∧ same_core (set_pendingMerges merges (judged (pn_id node) verdict s1)) s' ∧
    (merges = sc_pendingMerges s1 ∨
     ∃ p peers, d = Conflicted StopMerge p ∧ merges = sc_pendingMerges s1 ++ [mkPendingMerge node peers]).
Proof.
  assert (∀ s1, same_core (set_pendingMerges (sc_pendingMerges s1) (judged (pn_id node) (VFactorOut [] "") s1)) s1) as Heta by (by split).
  unfold settlement. step. step. step. destruct d as [clean value p|p|[] p]; [step| | |].
  - intros E%settle_inr. exists s', (VFactorOut [] ""), (sc_pendingMerges s'). split; [exact E|]. split; [apply Heta|by left].
  - intros E%settle_inr. exists s', (VFactorOut [] ""), (sc_pendingMerges s'). split; [exact E|]. split; [apply Heta|by left].
  - intros E. apply bind_inr in E as ([] & s1 & E1%settle_inr & E%applyVerdict_core).
    match type of E with same_core (judged _ ?v _) _ => exists s1, v, (sc_pendingMerges s1); destruct (judged_frame s1 (pn_id node) v) as [_ [_ Hm]] end.
    split; [exact E1|]. split; [|by left]. etrans; [|exact E]. by split.
  - intros E. apply bind_inr in E as ([] & s1 & E1%settle_inr & E). apply (f_equal snd) in E. cbn in E. subst s'.
    eexists s1, (VFactorOut [] ""), _. split; [exact E1|]. split; [cbn [judged]; reflexivity|]. right. by eexists _, _.
Qed.

Lemma merges_frame m s : advance s (set_pendingMerges m s) ∧ (sched_ok o s → sched_ok o (set_pendingMerges m s)).
Proof. split; [by apply frame_advance|]. intros []. by split. Qed.

Lemma settlement_ok node d s s0 s' :
  sched_ok o s → taken (node, inr d) s s0 → settlement node d s0 = (inr tt, s') →
  sched_ok o s' ∧ advance s s' ∧ running_in s (pn_id node) = true ∧ settled_in s' (pn_id node) = true.
Proof.
  intros Hok Htk (s1 & verdict & merges & H1 & H2 & _)%settlement_spec.
  assert (running_in s (pn_id node) = true) as Hrun.
  { apply (so_running _ _ Hok). rewrite (taken_tokens _ _ _ Htk). cbn. by left. }
  pose proof (ok_landed node d s s0 Hok Htk) as Hl. pose proof (landed_advance node d s s0 Hrun Htk) as Ha.
  pose proof (landed_settled node d s0) as Hset.
  apply (ok_core _ _ H1) in Hl. apply same_core_alike in H1, H2. rewrite <-(settled_alike _ _ _ H1) in Hset.
  destruct (merges_frame merges (judged (pn_id node) verdict s1)) as [Hm1 Hm2].
  pose proof (judged_advance s1 (pn_id node) verdict Hset) as Hj.
  assert (advance s1 s') as Hs1 by (etrans; [exact Hj|]; etrans; [exact Hm1|]; by apply alike_advance).
  split; [|split; [|split; [done|]]].
  - apply (ok_alike _ _ _ H2). apply Hm2. by apply ok_judged.
  - etrans; [exact Ha|]. etrans; [by apply alike_advance|done].
  - by apply (advance_settled s1).
Qed.

(** *** Merges *)

(** A larger plan. *)
Lemma ok_grow s grown :
  (∃ new, pl_nodes grown = pl_nodes (sc_plan s) ++ new) → built grown → sched_ok o s → sched_ok o (set_plan grown s).
Proof.
  intros [new E] Hb []. split; try done. intros node Hn. cbn. rewrite E. apply elem_of_app. left. by apply so_nodes.
Qed.

Lemma merge_grows s node winners grown :
  sched_ok o s → append (sc_plan s) [merge_draft node winners] = Some (inr grown) →
  built grown ∧ ∃ m, pl_nodes grown = pl_nodes (sc_plan s) ++ [m] ∧ pn_id m = pn_id node +:+ "+merge" ∧
    pn_effects m = pn_effects node ∧ pn_strategy m = Serialize ∧ pn_runtime m = DelayRebase.
Proof.
  intros Hok E. split; [by eapply built_append; [apply Hok|]|]. pose proof (built_ok _ (so_built _ _ Hok)) as Hn.
  apply append_extended in E as (E & _). apply (extended_spec _ _ _ _ _ Hn) in E as (_ & new & En & Hids & _ & Hdecl); [|lia].
  apply Permutation_singleton_r in Hids. destruct new as [|m [|]]; [done| |done]. injection Hids as Hid. exists m. split; [done|]. split; [done|].
  apply Forall_singleton in Hdecl as (d & ->%list_elem_of_singleton & Hs). by destruct Hs as (_ & _ & _ & _ & -> & -> & -> & _).
Qed.

Lemma index_core s : same_core s (indexWriters s).
Proof. by split. Qed.

(** A merge that is appended: the plan is grown by it, and that is listed. *)
Lemma appendMerge_spec node s s' :
  appendMerge node s = (inr tt, s') →
  ∃ winners grown, append (sc_plan s) [merge_draft node winners] = Some (inr grown) ∧
    same_core (set_appended (sc_appended s ++ [pn_id node +:+ "+merge"]) (set_plan grown s)) s'.
Proof.
  intros E. unfold appendMerge in E. apply bind_inr in E as (t & t' & Et & E). injection Et as <- <-.
  destruct (append _ _) as [[e|grown]|] eqn:Ea; [done| |done]. eexists _, grown. split; [exact Ea|].
  apply bind_inr in E as ([] & s1 & E1 & E). injection E1 as <-. apply bind_inr in E as ([] & s2 & E2 & E).
  apply (quiet_run _ _ _ _ (quiet_observeReads _)) in E2. apply bind_inr in E as ([] & s3 & E3 & E). injection E3 as <-.
  set (s3 := set_appended (sc_appended s2 ++ [pn_id node +:+ "+merge"]) s2) in *.
  assert (same_core s3 s') as Hs'.
  { eapply quiet_run; [|exact E]. apply quiet_bind; [apply quiet_call|]. intros stored. solve_quiet. }
  assert (same_core (set_plan grown s) s2) as Hs2 by (etrans; [apply index_core|done]).
  etrans; [|exact Hs']. destruct Hs2 as [? ? ? ? ? ? ? ? Happ ?]. split; try done. cbn. by rewrite Happ.
Qed.

Lemma appendMerge_ok node s s' :
  sched_ok o s → appendMerge node s = (inr tt, s') →
  sched_ok o s' ∧ advance s s' ∧ ∀ id, stateOf id s' = stateOf id s.
Proof.
  intros Hok (winners & grown & Ea & Hc)%appendMerge_spec. destruct (merge_grows _ _ _ _ Hok Ea) as (Hb & m & En & Hid & _).
  set (s3 := set_appended _ _) in *. assert (∀ id, stateOf id s3 = stateOf id s) as Hst by done. split; [|split].
  - apply (ok_core _ _ Hc). assert (sched_ok o (set_plan grown s)) as [] by (apply ok_grow; eauto). by split.
  - etrans; [|by apply alike_advance, same_core_alike]. split; [|intros id; left; by rewrite Hst|intros id _; left; by rewrite Hst].
    exists [m]. cbn. by rewrite Hid.
  - intros id. by rewrite (al_states _ _ (same_core_alike _ _ Hc)), Hst.
Qed.

Definition held (s : Sched) (m : PendingMerge) : Prop := existsb (running_in s) (pm_peers m) = true.

Lemma append_ready_ok pending s rest s' :
  sched_ok o s → append_ready pending s = (inr rest, s') →
  sched_ok o s' ∧ advance s s' ∧ (∀ id, stateOf id s' = stateOf id s) ∧ Forall (held s') rest.
Proof.
  revert s rest. induction pending as [|m pending IH]; intros s rest Hok E; cbn [append_ready] in E.
  { apply ret_inr in E as [-> ->]. done. }
  apply bind_inr in E as (t & t' & Et & E). injection Et as <- <-. destruct (existsb _ _) eqn:Eh.
  - apply bind_inr in E as (rest' & s1 & E1 & E). apply ret_inr in E as [-> ->].
    destruct (IH _ _ Hok E1) as (H1 & H2 & H3 & H4). split_and!; try done. apply Forall_cons. split; [|done].
    unfold held. rewrite <-Eh. apply existsb_ext_in. intros id _. unfold running_in. by rewrite H3.
  - apply bind_inr in E as ([] & s1 & E1 & E). destruct (appendMerge_ok _ _ _ Hok E1) as (Hok1 & Ha1 & Hst1).
    destruct (IH _ _ Hok1 E) as (H1 & H2 & H3 & H4). split_and!; [done|by etrans| |done]. intros id. by rewrite H3, Hst1.
Qed.

Lemma appendReadyMerges_ok s s' :
  sched_ok o s → appendReadyMerges s = (inr tt, s') →
  sched_ok o s' ∧ advance s s' ∧ Forall (held s') (sc_pendingMerges s').
Proof.
  intros Hok E. unfold appendReadyMerges in E. apply bind_inr in E as (pending & t & Et & E). injection Et as <- <-.
  apply bind_inr in E as (rest & s1 & E1 & E). injection E as <-. destruct (append_ready_ok _ _ _ _ Hok E1) as (H1 & H2 & _ & H4).
  destruct (merges_frame rest s1) as [Ha Ho]. split; [by apply Ho|]. split; [by etrans|]. exact H4.
Qed.

(** *** Fibers leave the plan and the states alone *)

Record still (s s' : Sched) : Prop := {
  st_plan : sc_plan s' = sc_plan s;
  st_states : sc_states s' = sc_states s;
  st_results : sc_results s' = sc_results s;
  st_discovered : sc_discovered s' = sc_discovered s;
  st_steps : sc_inFlightSteps s' = sc_inFlightSteps s;
  st_agents : sc_inFlightAgents s' = sc_inFlightAgents s;
  st_appended : sc_appended s' = sc_appended s;
  st_merges : sc_pendingMerges s' = sc_pendingMerges s
}.

#[export] Instance still_po : PreOrder still.
Proof. split; [by split|]. intros s1 s2 s3 [] []. split; congruence. Qed.

Lemma core_still s s' : same_core s s' → still s s'.
Proof. intros []. by split. Qed.

Lemma bind_still {A B} (m : C A) (k : A → C B) s : still s (m s).2 → (∀ a t, still t (k a t).2) → still s (bind m k s).2.
Proof. intros Hm Hk. unfold bind. destruct (m s) as [[e|a] s'] eqn:E; [done|]. etrans; [exact Hm|apply Hk]. Qed.

Lemma key_attempt_still f s : still s (key_attempt o f s).2.
Proof.
  unfold key_attempt. apply bind_still; [apply core_still, quiet_measure|]. intros b s1.
  apply bind_still; [apply core_still, quiet_dispatchKeyFor|]. intros key s2. cbv zeta.
  apply bind_still; [apply core_still; destruct (_ && _); [apply quiet_emit_record|apply quiet_ret]|]. intros [] s3.
  apply bind_still; [apply core_still, quiet_emit_record|]. intros [] s4. destruct (Sha256 _); by split.
Qed.

Lemma fiber_step_still step s : still s (fiber_step o step s).
Proof.
  destruct step as [id|id r|r]; cbn [fiber_step]; [| |by split].
  - destruct (sc_fibers s !! id) as [f|]; [|done]. destruct (fb_phase f); [|done].
    pose proof (key_attempt_still f s) as Hs. destruct (key_attempt o f s) as [[e|[]] s']; [|done]. etrans; [exact Hs|]. by split.
  - destruct (sc_fibers s !! id) as [f|]; [|done]. destruct (fb_phase f); [done|]. destruct r; cbn; try (by split).
    destruct (_ && _); by split.
Qed.

Lemma fiber_steps_still steps s : still s (fiber_steps o steps s).
Proof.
  revert s. induction steps as [|step steps IH]; intros s; [done|]. etrans; [apply fiber_step_still|apply IH].
Qed.

(** *** Deviations *)

Lemma absorb_core s e : still s (absorb s e) ∧ sc_fibers (absorb s e) = sc_fibers s ∧
  sc_events (absorb s e) = sc_events s ∧ sc_pendingSettlements (absorb s e) = sc_pendingSettlements s ++ omap settled_event [e].
Proof.
  destruct e as [id d|node exit]; cbn; [|by split].
  destruct (register_core id d s), (register_reports id d s) as [-> ->]. rewrite app_nil_r. by split.
Qed.

Lemma drain_reports_core s : same_core s (drainReportedEvents s).
Proof.
  assert (∀ l t, still t (fold_left absorb l t) ∧ sc_fibers (fold_left absorb l t) = sc_fibers t ∧
                 sc_pendingSettlements (fold_left absorb l t) = sc_pendingSettlements t ++ omap settled_event l) as Habs.
  { induction l as [|e l IH]; intros t; [cbn; by rewrite app_nil_r|]. destruct (absorb_core t e) as (H1 & H2 & _ & H4).
    destruct (IH (absorb t e)) as (I1 & I2 & I3). cbn [fold_left]. split; [by etrans|]. split; [congruence|].
    rewrite I3, H4, <-app_assoc. f_equal. by destruct e. }
  destruct (Habs (sc_events s) s) as ([] & Hf & Hp). unfold drainReportedEvents. split; try done.
  unfold waiting. cbn. by rewrite app_nil_r, Hp.
Qed.

Lemma attribute_core s r : same_core s (attribute s r).
Proof. destruct r as [| | | | | | | | |payload|]; try (by split). cbn. destruct (sc_digestToNode s !! _); by split. Qed.

Lemma attributes_core page s : same_core s (fold_left attribute page s).
Proof. revert s. induction page as [|r page IH]; intros s; [done|]. etrans; [apply attribute_core|apply IH]. Qed.

(** Work that neither starts nor ends a dispatch, and no merge is put down. *)
Record steady (s s' : Sched) : Prop := {
  sd_advance : advance s s';
  sd_running : ∀ id, running_in s' id = running_in s id;
  sd_merges : sc_pendingMerges s' = sc_pendingMerges s
}.

#[export] Instance steady_po : PreOrder steady.
Proof. split; [by split|]. intros s1 s2 s3 [] []. split; [by etrans|intros id|]; congruence. Qed.

Lemma still_state s s' id : still s s' → stateOf id s' = stateOf id s.
Proof. intros Hs. unfold stateOf. by rewrite (st_states _ _ Hs). Qed.

Lemma still_steady s s' : still s s' → steady s s'.
Proof.
  intros Hs. split; [|intros id; unfold running_in; by rewrite (still_state s)|by apply st_merges].
  apply frame_advance; [by apply st_plan|by apply st_appended|]. intros id. by apply still_state.
Qed.
Lemma core_steady s s' : same_core s s' → steady s s'.
Proof. intros Hs. by apply still_steady, core_still. Qed.

Lemma judged_steady s nodeId verdict : settled_in s nodeId = true → steady s (judged nodeId verdict s).
Proof.
  intros Hs. split; [by apply judged_advance| |].
  - intros id. unfold running_in, settled_in in *. apply bool_decide_eq_true in Hs. destruct verdict as [r|owners r|]; cbn [judged]; [| |done].
    + change (stateOf id (set_results _ ?t)) with (stateOf id t). rewrite stateOf_change. case_id id nodeId; [|done].
      transitivity false; [by apply bool_decide_eq_false|symmetry; apply bool_decide_eq_false; congruence].
    + destruct (discovers_frame nodeId owners s) as (_ & _ & Hst & _). unfold stateOf. by rewrite Hst.
  - destruct verdict as [r|owners r|]; cbn [judged]; [done| |done]. apply discovers_frame.
Qed.

Lemma judge_ok pending s rest s' :
  sched_ok o s → judge pending s = (inr rest, s') → sched_ok o s' ∧ steady s s' ∧ length rest ≤ length pending.
Proof.
  revert s rest. induction pending as [|d pending IH]; intros s rest Hok E; cbn [judge] in E.
  { by apply ret_inr in E as [-> ->]. }
  apply bind_inr in E as (t & t' & Et & E). injection Et as <- <-. destruct (settled_in s (pd_nodeId d)) eqn:Es.
  - apply bind_inr in E as ([] & s1 & E1%applyVerdict_core & E).
    pose proof (ok_judged o s _ (onDeviation h_reconciler (deviation_of d s)) Es Hok) as Hok1. apply (ok_core _ _ E1) in Hok1.
    destruct (IH _ _ Hok1 E) as (H1 & H2 & H3). split; [done|]. split; [|cbn; lia].
    etrans; [by apply judged_steady|]. etrans; [by apply core_steady|done].
  - apply bind_inr in E as (rest' & s1 & E1 & E). apply ret_inr in E as [-> ->]. destruct (IH _ _ Hok E1) as (H1 & H2 & H3).
    split; [done|]. split; [done|cbn; lia].
Qed.

Lemma pendings_core l s : same_core s (set_pendingDeviations l s).
Proof. by split. Qed.

Lemma drainDeviations_ok fuel arrivals s s' :
  sched_ok o s → drainDeviations o fuel arrivals s = (inr tt, s') → sched_ok o s' ∧ steady s s'.
Proof.
  revert arrivals s. induction fuel as [|fuel IH]; intros arrivals s Hok E; [done|]. cbn [drainDeviations] in E. cbv zeta in E.
  apply bind_inr in E as ([] & s1 & E1 & E). injection E1 as <-. set (s1 := fiber_steps o _ s) in E.
  apply bind_inr in E as (t & t' & Et & E). injection Et as <- <-.
  apply bind_inr in E as ([] & s2 & E2 & E). injection E2 as <-. set (s2 := fiber_steps o _ s1) in E.
  apply bind_inr in E as ([] & s3 & E3 & E). injection E3 as <-. set (s3 := drainReportedEvents s2) in E.
  apply bind_inr in E as ([] & s4 & E4 & E). injection E4 as <-. set (s4 := set_cursor _ _) in E.
  apply bind_inr in E as (pending & t & Et & E). apply gets_inr in Et as [-> ->].
  apply bind_inr in E as (rest & s5 & E5 & E). apply bind_inr in E as ([] & s6 & E6 & E). injection E6 as <-.
  assert (sched_ok o s2) as Hok2 by (by apply ok_fiber_steps, ok_fiber_steps).
  assert (still s s2) as Hst by (etrans; apply fiber_steps_still).
  assert (same_core s2 s4) as Hc.
  { etrans; [apply drain_reports_core|]. etrans; [apply (attributes_core (take page_limit (drop (sc_cursor s1) (sc_journal s1))))|]. by split. }
  assert (sched_ok o s4) as Hok4 by (by eapply ok_core). destruct (judge_ok _ _ _ _ Hok4 E5) as (Hok5 & Hsd & _).
  pose proof (pendings_core rest s5) as Hc6. assert (sched_ok o (set_pendingDeviations rest s5)) as Hok6 by (by eapply ok_core).
  assert (steady s (set_pendingDeviations rest s5)) as Hs6.
  { etrans; [by apply still_steady|]. etrans; [by apply core_steady|]. etrans; [exact Hsd|]. by apply core_steady. }
  case_bool_decide.
  - destruct (IH _ _ Hok6 E) as [Hok7 Hs7]. split; [done|]. by etrans.
  - by apply ret_inr in E as [_ ->].
Qed.

(** ** Admission, of the state it leaves *)

Definition chosen (s : Sched) (ready : list PlanNode) : list PlanNode :=
  choose o (sc_inFlightSteps s) (sc_inFlightAgents s) (contenders s ready).

(** Only statuses, ages, counts and fibers change. *)
Record admitting (s s' : Sched) : Prop := {
  am_plan : sc_plan s' = sc_plan s;
  am_results : sc_results s' = sc_results s;
  am_discovered : sc_discovered s' = sc_discovered s;
  am_appended : sc_appended s' = sc_appended s;
  am_merges : sc_pendingMerges s' = sc_pendingMerges s;
  am_outcome : ∀ id, ns_outcome (stateOf id s') = ns_outcome (stateOf id s)
}.

#[export] Instance admitting_po : PreOrder admitting.
Proof. split; [by split|]. intros s1 s2 s3 [] []. split; intros; congruence. Qed.

Lemma age_admitting node s : admitting s (age node s).
Proof. split; try done. intros id. unfold age. rewrite stateOf_change. by case_id id (pn_id node). Qed.

Lemma launch_admitting node s : admitting s (launch node s).
Proof. split; try (unfold launch; by destruct (is_agent node)). intros id. rewrite launch_state. by case_id id (pn_id node). Qed.

Lemma ages_status l s id : ns_status (stateOf id (fold_left (λ s node, age node s) l s)) = ns_status (stateOf id s).
Proof. revert s. induction l as [|n l IH]; intros s; [done|]. cbn. rewrite IH. unfold age. rewrite stateOf_change. by case_id id (pn_id n). Qed.

Lemma ages_admitting l s : admitting s (fold_left (λ s node, age node s) l s).
Proof. revert s. induction l as [|n l IH]; intros s; [done|]. cbn. etrans; [apply age_admitting|apply IH]. Qed.

Lemma ages_steps l s : sc_inFlightSteps (fold_left (λ s node, age node s) l s) = sc_inFlightSteps s.
Proof. revert s. induction l as [|n l IH]; intros s; [done|]. cbn. by rewrite IH. Qed.

Lemma launches_spec l s :
  let s' := fold_left (λ s node, launch node s) l s in
  admitting s s' ∧ sc_inFlightSteps s' = (sc_inFlightSteps s + Z.of_nat (length l))%Z ∧
  ∀ id, ns_status (stateOf id s') = if bool_decide (id ∈ pn_id <$> l) then SRunning else ns_status (stateOf id s).
Proof.
  revert s. induction l as [|n l IH]; intros s; cbv zeta; cbn [fold_left].
  { split; [done|]. split; [cbn; lia|]. intros id. by rewrite bool_decide_eq_false_2 by apply not_elem_of_nil. }
  destruct (IH (launch n s)) as (Ha & Hs & Hst). split; [etrans; [apply launch_admitting|exact Ha]|]. split.
  - rewrite Hs. unfold launch. destruct (is_agent n); cbn; lia.
  - intros id. rewrite Hst, launch_state. cbn. case_id id (pn_id n).
    + rewrite (bool_decide_eq_true_2 (pn_id n ∈ pn_id n :: (pn_id <$> l))) by by left. by destruct (bool_decide _).
    + by rewrite (bool_decide_ext (id ∈ pn_id n :: (pn_id <$> l)) (id ∈ pn_id <$> l)) by (rewrite elem_of_cons; naive_solver).
Qed.

Lemma admit_spec ready s :
  let s' := admit_ready o ready s in
  admitting s s' ∧ sc_inFlightSteps s' = (sc_inFlightSteps s + Z.of_nat (length (chosen s ready)))%Z ∧
  ∀ id, ns_status (stateOf id s') = if bool_decide (id ∈ pn_id <$> chosen s ready) then SRunning else ns_status (stateOf id s).
Proof.
  unfold admit_ready. cbv zeta. fold (chosen s ready).
  match goal with |- context [fold_left (λ s node, age node s) ?l s] => set (left_behind := l) end.
  destruct (launches_spec (chosen s ready) (fold_left (λ s node, age node s) left_behind s)) as (Ha & Hs & Hst).
  split; [etrans; [apply ages_admitting|exact Ha]|]. split; [by rewrite Hs, ages_steps|]. intros id. by rewrite Hst, ages_status.
Qed.

Lemma choose_in steps agents l node : node ∈ choose o steps agents l → node ∈ l.
Proof.
  revert steps agents. induction l as [|n l IH]; intros steps agents; [done|]. cbn [choose]. destruct (_ || _); [by right; eapply IH|].
  intros [->|Hn]%elem_of_cons; [by left|right; by eapply IH].
Qed.

Lemma chosen_in s ready node : node ∈ chosen s ready → node ∈ ready.
Proof. intros Hn%choose_in. by rewrite contenders_permutation in Hn. Qed.

(** With nothing in flight every cap has room for a node. *)
Lemma chosen_none s ready : sched_ok o s → sc_inFlightSteps s = 0%Z → chosen s ready = [] → ready = [].
Proof.
  intros Hok Hs Hc. assert (sc_inFlightAgents s = 0%Z) as Ha.
  { rewrite (so_agents _ _ Hok). rewrite (so_steps _ _ Hok) in Hs. destruct (tokens s); [done|cbn in Hs; lia]. }
  unfold chosen in Hc. pose proof (contenders_permutation s ready) as Hp. destruct (contenders s ready) as [|n l]; [by apply Permutation_nil_l in Hp|].
  cbn [choose] in Hc. rewrite Hs, Ha in Hc. assert ((1 ≤ stepCap o)%Z ∧ (1 ≤ agentCap o)%Z) as [? ?] by (unfold stepCap, agentCap; lia).
  rewrite (bool_decide_eq_false_2 (stepCap o ≤ 0)%Z), (bool_decide_eq_false_2 (agentCap o ≤ 0)%Z) in Hc by lia.
  by rewrite andb_false_r in Hc.
Qed.

(** Where no node is ready, blocked or in flight, every node is settled: the graph has no
    cycle to wait in. *)
Lemma nothing_left s :
  sched_ok o s → tokens s = [] → blocked_nodes s = [] → ready_nodes s = [] → all_settled s = true.
Proof.
  intros Hok Ht Hb Hr. pose proof (built_ok _ (so_built _ _ Hok)) as Hn. set (nodes := pl_nodes (sc_plan s)) in *.
  assert (∀ node, node ∈ nodes → settled_in s (pn_id node) = false → ∃ d, d ∈ pn_dependsOn node ∧ settled_in s d = false) as Hwait.
  { intros node Hin Hs. assert (pending_in s (pn_id node)) as Hp.
    { assert (running_in s (pn_id node) = false) as Hrun.
      { apply not_true_is_false. intros Hrun%(so_running _ _ Hok). rewrite Ht in Hrun. by apply not_elem_of_nil in Hrun. }
      unfold pending_in, running_in, settled_in in *. apply bool_decide_eq_false in Hs, Hrun. by destruct (ns_status _). }
    destruct (unsettled_dependency s node) eqn:Eu.
    - unfold unsettled_dependency in Eu. apply existsb_exists in Eu as (d & Hd & Eu). apply negb_true_iff in Eu.
      apply list_elem_of_In in Hd. exists d. split; [|done]. unfold dependenciesOf in Hd. apply elem_of_app in Hd as [?|Hd]; [done|].
      destruct (sc_discovered s !! pn_id node) as [l|] eqn:El; [|by apply not_elem_of_nil in Hd].
      by rewrite (so_discovered _ _ Hok _ _ _ El Hd) in Eu.
    - destruct (blocked_dependency s node) eqn:Eb.
      + exfalso. apply (not_elem_of_nil node). rewrite <-Hb. apply blocked_in. split; [done|]. split; [done|]. split; [done|by left].
      + exfalso. apply (not_elem_of_nil node). rewrite <-Hr. by apply ready_in. }
  assert (∀ x, settled_in s x = true ∨ x ∉ ids nodes) as Hall.
  { intros x. assert (Acc (flip (edge nodes)) x) as Hx.
    { apply tc_finite_sn; [intros y; apply (no_acyclic _ _ Hn)|]. exists (ids nodes). intros y Hy.
      induction Hy as [a b He|a b c He _ IH]; [by apply (no_closed _ _ Hn a)|done]. }
    induction Hx as [x _ IH]. destruct (decide (x ∈ ids nodes)) as [Hx|?]; [left|by right].
    apply list_elem_of_fmap in Hx as (node & -> & Hin). apply not_false_is_true. intros Hs.
    destruct (Hwait node Hin Hs) as (d & Hd & Hun). assert (edge nodes (pn_id node) d) as He by (by exists node).
    destruct (IH d He) as [?|Hnin]; [congruence|]. by destruct (Hnin (no_closed _ _ Hn _ _ He)). }
  unfold all_settled. apply forallb_forall. intros node Hin%list_elem_of_In.
  destruct (Hall (pn_id node)) as [?|Hnin]; [done|]. destruct Hnin. apply list_elem_of_fmap. by exists node.
Qed.

(** ** Turns *)

(** After the passive pass: admission, or reports that are processed first. *)
Definition admits (t s' : Sched) : Prop :=
  sc_pendingSettlements t = [] ∧ s' = admit_ready o (ready_nodes t) t ∨ sc_pendingSettlements t ≠ [] ∧ s' = t.

(** A state in which the pass has ended. *)
Record passed (t : Sched) : Prop := {
  pa_ok : sched_ok o t;
  pa_blocked : blocked_nodes t = [];
  pa_held : Forall (held t) (sc_pendingMerges t)
}.

Lemma held_steady s s' l : (∀ id, running_in s' id = running_in s id) → Forall (held s) l → Forall (held s') l.
Proof.
  intros Hr Hl. eapply Forall_impl; [exact Hl|]. intros m Hm. unfold held in *. rewrite <-Hm. apply existsb_ext_in. intros id _. apply Hr.
Qed.

Lemma cascade_running s s' : cascade s s' → (∀ id, running_in s' id = running_in s id) ∧ sc_pendingMerges s' = sc_pendingMerges s.
Proof.
  induction 1 as [s s' Ha|s node outcome s1 s' Hn Hp Hr Ha Hc IH].
  - split; [intros id; by apply running_alike|by apply al_merges].
  - destruct IH as [IH1 IH2]. rewrite IH2, (al_merges _ _ Ha). split; [|done]. intros id.
    rewrite IH1, (running_alike _ _ id Ha), change_const, running_change. case_id id (pn_id node); [|done]. cbn. symmetry.
    unfold running_in. apply bool_decide_eq_false. unfold pending_in in Hp. congruence.
Qed.

Lemma cascade_waiting s s' : cascade s s' → waiting s' = waiting s.
Proof. induction 1 as [s s' Ha|s node outcome s1 s' _ _ _ Ha _ ->]; by rewrite (al_waiting _ _ Ha). Qed.

Lemma passive_ok s ready s' :
  sched_ok o s → Forall (held s) (sc_pendingMerges s) → passive s = (inr ready, s') →
  passed s' ∧ advance s s' ∧ ready = ready_nodes s' ∧ waiting s' = waiting s.
Proof.
  intros Hok Hh E. unfold passive in E. apply bind_inr in E as (fuel & t & Et & E). apply gets_inr in Et as [-> ->].
  pose proof (no_unique _ _ (built_ok _ (so_built _ _ Hok))) as Hd. apply (passive_spec _ _ _ _ Hd) in E as (Hc & -> & Hb).
  destruct (cascade_running _ _ Hc) as [Hr Hm]. split; [|split_and!; [by apply cascade_advance|done|by apply cascade_waiting]].
  split; [by eapply ok_cascade|done|]. rewrite Hm. by eapply held_steady.
Qed.

Definition idle (s : Sched) : bool := all_settled s || bool_decide (sc_inFlightSteps s = 0)%Z.

Lemma turn_spec arrivals s s' :
  sched_ok o s → turn o arrivals s = (inr tt, s') →
  (idle s = true ∨ waiting s = []) ∧ same_core s s' ∨
  idle s = false ∧ ∃ node d rest t, waiting s = (node, inr d) :: rest ∧ running_in s (pn_id node) = true ∧
    settled_in t (pn_id node) = true ∧ advance s t ∧ passed t ∧ admits t s'.
Proof.
  intros Hok E. unfold turn in E. apply bind_inr in E as (t & t' & Et & E). injection Et as <- <-. fold (idle s) in E.
  destruct (idle s) eqn:Ei. { apply ret_inr in E as [_ ->]. left. split; [by left|done]. }
  cbv zeta in E. pose proof (next_spec s) as Hnext. destruct (nextSettlement s) as [[[node [e|d]]|] s0]; cbn [fst snd] in E; [done| |].
  2: { apply bind_inr in E as ([] & s1 & E1 & E). injection E1 as <-. apply ret_inr in E as [_ ->]. left. destruct Hnext. split; [by right|done]. }
  right. split; [done|]. apply bind_inr in E as ([] & s1 & E1 & E). injection E1 as <-.
  apply bind_inr in E as ([] & s1 & E1 & E). destruct (settlement_ok _ _ _ _ _ Hok Hnext E1) as (Hok1 & Ha1 & Hrun & Hset).
  apply bind_inr in E as ([] & s2 & E2 & E). destruct (appendReadyMerges_ok _ _ Hok1 E2) as (Hok2 & Ha2 & Hh2).
  apply bind_inr in E as (fuel & s3 & E3 & E). apply gets_inr in E3 as [-> ->].
  apply bind_inr in E as ([] & s3 & E3 & E). destruct (drainDeviations_ok _ _ _ _ Hok2 E3) as (Hok3 & Hs3).
  apply (held_steady _ s3) in Hh2; [|apply Hs3]. rewrite <-(sd_merges _ _ Hs3) in Hh2.
  apply bind_inr in E as (ready & s4 & E4 & E). destruct (passive_ok _ _ _ Hok3 Hh2 E4) as (Hp4 & Ha4 & -> & _).
  apply bind_inr in E as (t & t' & Et & E). injection Et as <- <-.
  assert (advance s1 s4) as Ha14 by (etrans; [exact Ha2|]; etrans; [apply Hs3|exact Ha4]).
  exists node, d, (waiting s0), s4. split; [by apply tk_waiting in Hnext|]. split; [done|].
  split; [by apply (advance_settled s1)|]. split; [by etrans|]. split; [done|].
  unfold admits. destruct (sc_pendingSettlements s4) eqn:Ep.
  - left. split; [done|]. by apply (f_equal snd) in E.
  - right. apply ret_inr in E as [_ ->]. done.
Qed.

Lemma ready_unique t : sched_ok o t → NoDup (pn_id <$> ready_nodes t).
Proof. intros Hok. apply passive_ids, (no_unique _ _ (built_ok _ (so_built _ _ Hok))). Qed.

Lemma admitted_running t s' ready id :
  (∀ node, node ∈ ready → pending_in t (pn_id node)) → s' = admit_ready o ready t → running_in t id = true → running_in s' id = true.
Proof.
  intros Hr -> Hrun. destruct (admit_spec ready t) as (_ & _ & Hst). unfold running_in. rewrite Hst. by destruct (bool_decide (id ∈ _)); [apply bool_decide_eq_true|].
Qed.

Lemma admits_ok t s' : passed t → admits t s' → sched_ok o s' ∧ Forall (held s') (sc_pendingMerges s').
Proof.
  intros [Hok Hb Hh] [[_ Es]|[_ ->]]; [|done].
  assert (∀ node, node ∈ ready_nodes t → pending_in t (pn_id node)) as Hpend by (intros node Hn%ready_in; apply Hn).
  split.
  - rewrite Es. apply ok_admit; [done|by apply ready_unique|]. intros node Hn%ready_in. split; apply Hn.
  - assert (sc_pendingMerges s' = sc_pendingMerges t) as -> by (rewrite Es; apply admit_spec).
    eapply Forall_impl; [exact Hh|]. intros m Hm. unfold held in *. apply existsb_exists in Hm as (x & Hx & Hrun).
    apply existsb_exists. exists x. split; [done|]. by eapply admitted_running.
Qed.

(** A turn that leaves nothing in flight has settled the plan. *)
Lemma admits_progress t s' : passed t → admits t s' → sc_inFlightSteps s' = 0%Z → all_settled s' = true.
Proof.
  intros [Hok Hb Hh] [[_ ->]|[Hp ->]] Hs.
  - destruct (admit_spec (ready_nodes t) t) as (Ham & Hsteps & Hst). rewrite Hsteps in Hs.
    assert (0 ≤ sc_inFlightSteps t)%Z by (rewrite (so_steps _ _ Hok); lia).
    assert (sc_inFlightSteps t = 0)%Z as Hs0 by lia. assert (chosen t (ready_nodes t) = []) as Hc by (apply length_zero_iff_nil; lia).
    pose proof (chosen_none _ _ Hok Hs0 Hc) as Hr.
    assert (tokens t = []) as Ht. { apply length_zero_iff_nil. rewrite (so_steps _ _ Hok) in Hs0. lia. }
    pose proof (nothing_left t Hok Ht Hb Hr) as Hall. unfold all_settled in *. rewrite (am_plan _ _ Ham).
    rewrite forallb_forall in *. intros node Hn. rewrite <-(Hall node Hn). unfold settled_in. rewrite Hst, Hc.
    by rewrite (bool_decide_eq_false_2 (pn_id node ∈ pn_id <$> [])) by apply not_elem_of_nil.
  - exfalso. rewrite (so_steps _ _ Hok) in Hs. unfold tokens, waiting in Hs. destruct (sc_pendingSettlements t); [done|].
    rewrite length_app in Hs. cbn in Hs. lia.
Qed.

Lemma begun_ok plan : built plan → sched_ok o (begun plan).
Proof.
  intros Hb. split; try done.
  - constructor.
  - by intros node ?%not_elem_of_nil.
  - intros id. unfold running_in, stateOf, state_in. cbn. split; [done|by intros ?%not_elem_of_nil].
  - by intros node d ?%not_elem_of_nil.
  - by intros node ?%not_elem_of_nil.
  - unfold begun, stepCap. cbn. lia.
  - unfold begun, agentCap. cbn. lia.
  - intros id. cbn. split; [by intros [? ?]|by intros [? ?]].
  - intros id. by left.
Qed.

Lemma start_spec plan s' :
  built plan → start o (begun plan) = (inr tt, s') → ∃ t, advance (begun plan) t ∧ passed t ∧ admits t s'.
Proof.
  intros Hb E. unfold start in E. apply bind_inr in E as ([] & s1 & E1 & E). injection E1 as <-.
  apply bind_inr in E as (p & t & Et & E). apply gets_inr in Et as [-> ->].
  apply bind_inr in E as ([] & s2 & E2%(quiet_run _ _ _ _ (quiet_observeReads _)) & E).
  apply bind_inr in E as ([] & s3 & E3%(quiet_run _ _ _ _ (quiet_consult o)) & E).
  assert (same_core (begun plan) s3) as Hc by (etrans; [apply index_core|]; by etrans).
  pose proof (begun_ok plan Hb) as Hok.
  apply (ok_core _ _ Hc) in Hok. apply bind_inr in E as (ready & t & Et & E).
  assert (Forall (held s3) (sc_pendingMerges s3)) as Hh by (by rewrite (sm_merges _ _ Hc)).
  destruct (passive_ok _ _ _ Hok Hh Et) as (Hp & Ha & -> & Hw). exists t. split; [|split; [done|]].
  2: { left. split; [|by apply (f_equal snd) in E]. rewrite (sm_waiting _ _ Hc) in Hw. by apply app_eq_nil in Hw as [-> _]. }
  etrans; [|exact Ha]. by apply alike_advance, same_core_alike.
Qed.

(** ** Runs *)

Record run_ok (s : Sched) : Prop := {
  ro_ok : sched_ok o s;
  ro_held : Forall (held s) (sc_pendingMerges s);
  ro_progress : sc_inFlightSteps s = 0%Z → all_settled s = true
}.

Lemma all_settled_still s s' : still s s' → all_settled s' = all_settled s.
Proof. intros Hs. unfold all_settled, settled_in. rewrite (st_plan _ _ Hs). unfold stateOf. by rewrite (st_states _ _ Hs). Qed.

Lemma run_ok_still s s' : sched_ok o s' → still s s' → run_ok s → run_ok s'.
Proof.
  intros Hok Hs [_ Hh Hp]. split; [done| |].
  - rewrite (st_merges _ _ Hs). eapply held_steady; [|exact Hh]. apply still_steady in Hs. apply Hs.
  - rewrite (st_steps _ _ Hs), (all_settled_still _ _ Hs). exact Hp.
Qed.

Lemma run_ok_admits t s' : passed t → admits t s' → run_ok s'.
Proof. intros Hp Ha. destruct (admits_ok t s' Hp Ha). split; [done|done|]. by apply (admits_progress t). Qed.

Lemma run_ok_step e s s' : run_ok s → sched_step o e s = (inr tt, s') → run_ok s'.
Proof.
  intros Hr E. pose proof (ro_ok _ Hr) as Hok. destruct e as [step|arrivals]; cbn [sched_step] in E.
  - injection E as <-. apply (run_ok_still s); [by apply ok_fiber_step|apply fiber_step_still|done].
  - destruct (turn_spec _ _ _ Hok E) as [[_ Hc]|(_ & node & d & rest & t & _ & _ & _ & _ & Hp & Ha)].
    + apply (run_ok_still s); [by apply (ok_core _ _ Hc)|by apply core_still|done].
    + by apply (run_ok_admits t).
Qed.

Lemma sched_steps_app es1 es2 s s' :
  sched_steps o (es1 ++ es2) s = (inr tt, s') ↔ ∃ s1, sched_steps o es1 s = (inr tt, s1) ∧ sched_steps o es2 s1 = (inr tt, s').
Proof.
  revert s. induction es1 as [|e es1 IH]; intros s; cbn [app sched_steps].
  - split; [by exists s|]. intros (s1 & [= <-] & E). exact E.
  - split.
    + intros E. apply bind_inr in E as ([] & s2 & E1 & E). apply IH in E as (s1 & E2 & E). exists s1. split; [|done]. by rewrite (bind_run _ _ _ _ _ E1).
    + intros (s1 & E & E2). apply bind_inr in E as ([] & s2 & E1 & E). rewrite (bind_run _ _ _ _ _ E1). apply IH. by exists s1.
Qed.

Lemma run_ok_steps es s s' : run_ok s → sched_steps o es s = (inr tt, s') → run_ok s'.
Proof.
  revert s. induction es as [|e es IH]; intros s Hr E; cbn [sched_steps] in E; [by apply ret_inr in E as [_ ->]|].
  apply bind_inr in E as ([] & s1 & E1 & E). eapply IH; [|exact E]. by eapply run_ok_step.
Qed.

Lemma start_run_ok plan s : built plan → start o (begun plan) = (inr tt, s) → run_ok s.
Proof. intros Hb (t & _ & Hp & Ha)%start_spec; [|done]. by apply (run_ok_admits t). Qed.

Lemma run_inr plan es s :
  run o plan es = (inr tt, s) ↔ ∃ s0, start o (begun plan) = (inr tt, s0) ∧ sched_steps o es s0 = (inr tt, s).
Proof.
  unfold run. split.
  - intros E. apply bind_inr in E as ([] & s0 & E0 & E). by exists s0.
  - intros (s0 & E0 & E). by rewrite (bind_run _ _ _ _ _ E0).
Qed.

(** Every node put in flight between two states has its dependencies and their results. *)
Definition launches_ready (s s' : Sched) : Prop :=
  ∀ node, node ∈ pl_nodes (sc_plan s') → running_in s (pn_id node) = false → running_in s' (pn_id node) = true →
  ∀ d, d ∈ dependenciesOf node s' → has_result s' d ∧ is_Some (sc_results s' !! d).

Lemma admits_ready t s' : passed t → admits t s' → launches_ready t s'.
Proof.
  intros Hp Ha node Hn Hrun Hrun' d Hd. destruct (admits_ok t s' Hp Ha) as [Hok' _].
  assert (has_result s' d) as Hres; [|split; [done|by apply (so_results _ _ Hok')]]. clear Hok'. destruct Ha as [[_ ->]|[_ ->]]; [|congruence].
  destruct (admit_spec (ready_nodes t) t) as (Ham & _ & Hst). unfold running_in in Hrun'. rewrite Hst in Hrun'.
  destruct (bool_decide (pn_id node ∈ _)) eqn:Eb; [|unfold running_in in Hrun; congruence]. apply bool_decide_eq_true in Eb.
  apply list_elem_of_fmap in Eb as (node' & Eid & Hin%chosen_in). apply ready_in in Hin as (Hn' & _ & Hu & Hbl).
  rewrite (am_plan _ _ Ham) in Hn. pose proof (no_unique _ _ (built_ok _ (so_built _ _ (pa_ok _ Hp)))) as Huniq.
  assert (node' = node) as -> by (by apply (NoDup_key_inj pn_id (pl_nodes (sc_plan t)))).
  unfold dependenciesOf in Hd. rewrite (am_discovered _ _ Ham) in Hd. fold (dependenciesOf node t) in Hd.
  unfold unsettled_dependency in Hu. rewrite existsb_false in Hu. specialize (Hu d Hd). apply negb_false_iff in Hu.
  unfold blocked_dependency in Hbl. rewrite existsb_false in Hbl. specialize (Hbl d Hd).
  split; [|by rewrite (am_outcome _ _ Ham)]. unfold settled_in in *. apply bool_decide_eq_true in Hu. rewrite Hst.
  destruct (bool_decide (d ∈ _)) eqn:Ed; [|by apply bool_decide_eq_true]. apply bool_decide_eq_true in Ed.
  apply list_elem_of_fmap in Ed as (m & -> & Hm%chosen_in). apply ready_in in Hm as (_ & Hm & _). unfold pending_in in Hm. congruence.
Qed.

Lemma reached plan es s : built plan → run o plan es = (inr tt, s) → run_ok s.
Proof. intros Hb (s0 & E0%start_run_ok & E)%run_inr; [|done]. by eapply run_ok_steps. Qed.
End steps.
