(* ===== verification/SchedulerTheorems.v ===== *)
(** * What the scheduler promises

    Caps, readiness, progress and termination of runs, what a run never undoes, the order
    of admission, and the debt of deferred work. *)

From S2P Require Import Prelude Capability Texts FileSet Canonical StepKey StepKeyProps Plan PlanOrder PlanAnnotate PlanProps PlanTheorems Scheduler SchedulerProps SchedulerSteps.
From stdpp Require Import relations.
#[local] Open Scope me_scope.

Implicit Types (s : Sched) (id : string) (node : PlanNode).

(** ** Every loop ends *)

Section fuel.
Context `{Crypto} `{Host} (o : SchedulerOptions).

Lemma journal_weight_app l l' : journal_weight (l ++ l') = journal_weight l + journal_weight l'.
Proof. unfold journal_weight. by rewrite sum_list_with_app. Qed.

Lemma journal_weight_drop n l l' : journal_weight (drop n (l ++ l')) ≤ journal_weight (drop n l) + journal_weight l'.
Proof.
  rewrite drop_app. assert (∀ m (k : list SchedRecord), journal_weight (drop m k) ≤ journal_weight k) as Hd.
  { intros m k. rewrite <-(take_drop m k) at 2. rewrite journal_weight_app. lia. }
  rewrite journal_weight_app. specialize (Hd (n - length l) l'). lia.
Qed.

(** What the rounds of [drainDeviations] use up. *)
Definition drain_weight (s : Sched) : nat :=
  journal_weight (drop (sc_cursor s) (sc_journal s)) + 2 * length (sc_pendingDeviations s).

Lemma drain_weight_logs k s s' : logs k s s' → drain_weight s' ≤ drain_weight s + k.
Proof.
  intros [(l & E & Hl) Hc Hd]. unfold drain_weight. rewrite Hc, Hd, E. pose proof (journal_weight_drop (sc_cursor s) (sc_journal s) l). lia.
Qed.

Lemma attributes_weight page s :
  sc_journal (fold_left attribute page s) = sc_journal s ∧ sc_cursor (fold_left attribute page s) = sc_cursor s ∧
  2 * length (sc_pendingDeviations (fold_left attribute page s)) + length page ≤ 2 * length (sc_pendingDeviations s) + journal_weight page.
Proof.
  revert s. induction page as [|r page IH]; intros s; cbn [fold_left length].
  { split; [done|]. split; [done|]. lia. }
  destruct (IH (attribute s r)) as (Hj & Hc & Hw). change (journal_weight (r :: page)) with (record_weight r + journal_weight page).
  assert (sc_journal (attribute s r) = sc_journal s ∧ sc_cursor (attribute s r) = sc_cursor s ∧
          2 * length (sc_pendingDeviations (attribute s r)) + 1 ≤ 2 * length (sc_pendingDeviations s) + record_weight r) as (Hj' & Hc' & Hw').
  { destruct r as [| | | | | | | | |payload|]; cbn [attribute record_weight]; try (split; [done|]; split; [done|]; lia).
    destruct (sc_digestToNode s !! _); [|split; [done|]; split; [done|]; lia]. split; [done|]. split; [done|]. cbn. rewrite length_app. cbn. lia. }
  split; [congruence|]. split; [congruence|]. lia.
Qed.

Lemma judge_weight pending s : fuelled (judge pending) ∧ ∀ rest s', judge pending s = (inr rest, s') → ∃ n, logs n s s' ∧ length rest + n ≤ length pending.
Proof.
  split.
  - clear s. induction pending as [|d pending IH]; [done|]. cbn [judge]. apply fuelled_bind; [done|]. intros s. destruct (settled_in s _).
    + apply fuelled_bind; [eapply bounded_fuelled, bounded_applyVerdict|]. by intros [].
    + apply fuelled_bind; [done|]. by intros rest t.
  - revert s. induction pending as [|d pending IH]; intros s rest s' E; cbn [judge] in E.
    { apply ret_inr in E as [-> ->]. exists 0. split; [by apply logs_same|done]. }
    apply bind_inr in E as (t & t' & Et & E). injection Et as <- <-. destruct (settled_in s (pd_nodeId d)).
    + apply bind_inr in E as ([] & s1 & E1 & E). destruct (IH _ _ _ E) as (n & Hn & Hl).
      match type of E1 with applyVerdict ?i ?v ?g s = _ => destruct (bounded_applyVerdict i v g s) as [_ Hl1] end. rewrite E1 in Hl1.
      exists (1 + n). split; [by eapply logs_trans|cbn; lia].
    + apply bind_inr in E as (rest' & s1 & E1 & E). apply ret_inr in E as [-> ->]. destruct (IH _ _ _ E1) as (n & Hn & Hl).
      exists n. split; [done|cbn; lia].
Qed.

Lemma drain_reports_logs s : logs 0 s (drainReportedEvents s).
Proof.
  unfold drainReportedEvents. apply (logs_trans 0 0 _ (fold_left absorb (sc_events s) s)); [|by apply logs_same].
  generalize (sc_events s). intros l. revert s. induction l as [|e l IH]; intros s; [by apply logs_same|]. cbn [fold_left].
  apply (logs_trans 0 0 _ (absorb s e)); [|apply IH]. destruct e as [id d|node exit]; [|by apply logs_same]. cbn. unfold registerAttempt.
  destruct (sc_digestToNode s !! d); [destruct (bool_decide _)|]; by apply logs_same.
Qed.

(** One round: a page that is read is not read again. *)
Lemma round_weight (now : list FiberStep * list FiberStep) s :
  let s1 := fiber_steps o (fst now) s in
  let page := take page_limit (drop (sc_cursor s1) (sc_journal s1)) in
  let s3 := drainReportedEvents (fiber_steps o (snd now) s1) in
  let s4 := set_cursor (sc_cursor s3 + length page) (fold_left attribute page s3) in
  drain_weight s4 + length page ≤ drain_weight s + 3 * length (fst now) + 3 * length (snd now).
Proof.
  cbv zeta. pose proof (drain_weight_logs _ _ _ (fiber_steps_logs o (fst now) s)) as H1. set (s1 := fiber_steps o (fst now) s) in *.
  set (unread := drop (sc_cursor s1) (sc_journal s1)). set (page := take page_limit unread).
  pose proof (logs_trans _ 0 _ _ _ (fiber_steps_logs o (snd now) s1) (drain_reports_logs _)) as [(l & El & Hl) Hc3 Hd3].
  set (s3 := drainReportedEvents (fiber_steps o (snd now) s1)) in *. destruct (attributes_weight page s3) as (Hj4 & _ & Hw4).
  unfold drain_weight at 1. cbn [sc_cursor sc_journal sc_pendingDeviations set_cursor]. rewrite Hj4, El, Hc3, Hd3 in *.
  pose proof (journal_weight_drop (sc_cursor s1 + length page) (sc_journal s1) l) as Hdrop.
  replace (drop (sc_cursor s1 + length page) (sc_journal s1)) with (drop (length page) unread) in Hdrop by (unfold unread; by rewrite drop_drop).
  assert (journal_weight unread = journal_weight page + journal_weight (drop (length page) unread)) as Hu.
  { rewrite <-journal_weight_app. f_equal. unfold page. rewrite length_take. rewrite <-(take_drop (page_limit `min` length unread) unread) at 1. f_equal.
    destruct (Nat.min_spec page_limit (length unread)) as [[? ->]|[? ->]]; [done|]. by rewrite !take_ge. }
  unfold drain_weight in H1 |- *. fold unread in H1. lia.
Qed.

Lemma drain_ends fuel arrivals s : drain_weight s + arrivals_weight arrivals < fuel → (drainDeviations o fuel arrivals s).1 ≠ inl NoFuel.
Proof.
  revert arrivals s. induction fuel as [|fuel IH]; intros arrivals s Hlt; [lia|]. cbn [drainDeviations]. cbv zeta.
  set (now := default ([], []) (head arrivals)). pose proof (round_weight now s) as Hround. cbv zeta in Hround.
  assert (arrivals_weight arrivals = 3 * length (fst now) + 3 * length (snd now) + arrivals_weight (tail arrivals)) as Harr
    by (unfold now; by destruct arrivals).
  step. set (s1 := fiber_steps o (fst now) s) in *. step. step. set (s2 := fiber_steps o (snd now) s1) in *.
  step. set (s3 := drainReportedEvents s2) in *. set (unread := drop (sc_cursor s1) (sc_journal s1)) in *. set (page := take page_limit unread) in *.
  step. set (s4 := set_cursor _ _) in *. step. destruct (judge_weight (sc_pendingDeviations s4) s4) as [Hf Hj].
  unfold bind at 1. specialize (Hf s4). destruct (judge (sc_pendingDeviations s4) s4) as [[e|rest] s5]; [by intros [= ->]|].
  destruct (Hj rest s5 eq_refl) as (n & Hn & Hl). step. case_bool_decide as Hmore; [|done]. apply IH.
  assert (drain_weight (set_pendingDeviations rest s5) ≤ drain_weight s4) as Hw.
  { destruct Hn as [(l & El & Hlw) Hc Hd]. unfold drain_weight. cbn [sc_cursor sc_journal sc_pendingDeviations set_pendingDeviations].
    rewrite Hc, El. pose proof (journal_weight_drop (sc_cursor s4) (sc_journal s4) l). lia. }
  assert (length page = page_limit) as Hp by (unfold page; rewrite length_take; lia). unfold page_limit in Hp. lia.
Qed.

Lemma drain_fuel_enough arrivals s : drain_weight s + arrivals_weight arrivals < drain_fuel arrivals s.
Proof. unfold drain_fuel, drain_weight, journal_weight. lia. Qed.

Lemma passive_fuelled s : sched_ok o s → (passive s).1 ≠ inl NoFuel.
Proof.
  intros Hok. unfold passive. step. apply passive_ends; [apply (no_unique _ _ (built_ok _ (so_built _ _ Hok)))|].
  unfold passive_fuel, pending_nodes. pose proof (filter_length_le (λ node, bool_decide (ns_status (stateOf (pn_id node) s) = SPending)) (pl_nodes (sc_plan s))). lia.
Qed.

Lemma turn_fuelled arrivals s : sched_ok o s → (turn o arrivals s).1 ≠ inl NoFuel.
Proof.
  intros Hok. unfold turn. step. fold (idle s). destruct (idle s); [done|]. cbv zeta. pose proof (next_spec s) as Hnext.
  step. destruct (nextSettlement s) as [[[node [e|d]]|] s0]; cbn [fst snd]; [| |done].
  { intros [= ->]. apply (so_stops _ _ Hok node). rewrite (tk_waiting _ _ _ Hnext). by left. }
  unfold bind at 1. pose proof (bounded_fuelled _ _ (bounded_settlement node d) s0) as Hf. destruct (settlement node d s0) as [[e|[]] s1] eqn:E1.
  { by intros [= ->]. }
  destruct (settlement_ok _ _ _ _ _ _ Hok Hnext E1) as (Hok1 & _). clear Hf.
  unfold bind at 1. pose proof (fuelled_appendReadyMerges s1) as Hf. destruct (appendReadyMerges s1) as [[e|[]] s2] eqn:E2.
  { by intros [= ->]. }
  destruct (appendReadyMerges_ok _ _ _ Hok1 E2) as (Hok2 & _). clear Hf. step.
  unfold bind at 1. pose proof (drain_ends _ _ _ (drain_fuel_enough arrivals s2)) as Hf.
  destruct (drainDeviations o (drain_fuel arrivals s2) arrivals s2) as [[e|[]] s3] eqn:E3.
  { by intros [= ->]. }
  destruct (drainDeviations_ok _ _ _ _ _ Hok2 E3) as (Hok3 & _). clear Hf.
  unfold bind at 1. pose proof (passive_fuelled s3 Hok3) as Hf. destruct (passive s3) as [[e|ready] s4].
  { by intros [= ->]. }
  step. by destruct (sc_pendingSettlements s4).
Qed.

Lemma fuelled_consult : fuelled (consult o).
Proof.
  unfold consult. destruct (op_full o); [apply (bounded_fuelled _ _ (bounded_emit _))|]. apply fuelled_bind; [done|]. intros plan. cbv zeta.
  apply fuelled_bind; [|done]. apply fuelled_for_each. intros [id []]; cbn [consider fst snd]; [done| |];
    destruct (bool_decide _); try done; apply (bounded_fuelled _ _ (bounded_emit _)).
Qed.

Lemma start_fuelled plan : built plan → (start o (begun plan)).1 ≠ inl NoFuel.
Proof.
  intros Hb. unfold start. step. step. pose proof (quiet_observeReads (pl_nodes (sc_plan (indexWriters (begun plan)))) (indexWriters (begun plan))) as Hq.
  pose proof (bounded_fuelled _ _ (bounded_observeReads (pl_nodes (sc_plan (indexWriters (begun plan))))) (indexWriters (begun plan))) as Hf.
  unfold bind at 1. destruct (observeReads _ _) as [[e|[]] s1]; [by intros [= ->]|]. cbn in Hq. clear Hf.
  pose proof (quiet_consult o s1) as Hq2. pose proof (fuelled_consult s1) as Hf. unfold bind at 1. destruct (consult o s1) as [[e|[]] s2]; [by intros [= ->]|].
  cbn in Hq2. clear Hf. assert (sched_ok o s2) as Hok.
  { apply (ok_core o (begun plan)); [|by apply begun_ok]. etrans; [apply index_core|]. by etrans. }
  pose proof (passive_fuelled s2 Hok) as Hf. unfold bind at 1. destruct (passive s2) as [[e|ready] s3]; [by intros [= ->]|done].
Qed.

Lemma run_fuelled (plan : Plan) (es : list SchedEvent) : built plan → (run o plan es).1 ≠ inl NoFuel.
Proof.
  intros Hb. unfold run, bind at 1. pose proof (start_fuelled plan Hb) as Hf. destruct (start o (begun plan)) as [[e|[]] s0] eqn:E; [by intros [= ->]|].
  apply (start_run_ok o _ _ Hb) in E. clear Hf Hb. revert s0 E. induction es as [|e es IH]; intros s0 Hs; [done|].
  cbn [sched_steps]. unfold bind at 1. assert ((sched_step o e s0).1 ≠ inl NoFuel) as Hf.
  { destruct e as [step|arrivals]; [done|]. apply turn_fuelled, Hs. }
  destruct (sched_step o e s0) as [[err|[]] s1] eqn:E; [by intros [= ->]|]. apply IH. by apply (run_ok_step o e s0).
Qed.
End fuel.

(** ** What steps leave behind *)

Section onward.
Context `{Crypto} `{Host} (o : SchedulerOptions).

(** Nodes are appended and reported as appended; a settled node stays settled, and its
    outcome changes to failed only. *)
Record onward (s s' : Sched) : Prop := {
  on_nodes : ∃ new, pl_nodes (sc_plan s') = pl_nodes (sc_plan s) ++ new ∧ sc_appended s' = sc_appended s ++ (pn_id <$> new);
  on_settled : ∀ id, settled_in s id = true → settled_in s' id = true ∧
    (ns_outcome (stateOf id s') = ns_outcome (stateOf id s) ∨ ns_outcome (stateOf id s') = OFailed)
}.

#[export] Instance onward_po : PreOrder onward.
Proof.
  split.
  - intros s. split; [|by split; [|left]]. exists []. by rewrite !app_nil_r.
  - intros s1 s2 s3 H12 H23. split.
    + destruct (on_nodes _ _ H12) as (l & E1 & A1), (on_nodes _ _ H23) as (l' & E2 & A2). exists (l ++ l').
      by rewrite E2, E1, A2, A1, fmap_app, !app_assoc.
    + intros id Hs. destruct (on_settled _ _ H12 id Hs) as [Hs2 Ho]. destruct (on_settled _ _ H23 id Hs2) as [Hs3 Ho'].
      split; [done|]. destruct Ho' as [->|?]; [done|by right].
Qed.

Lemma advance_onward s s' : advance s s' → onward s s'.
Proof. intros Ha. split; [apply Ha|]. intros id Hs. split; [by apply (advance_settled s)|by apply Ha]. Qed.

Lemma admits_onward t s' : admits o t s' → onward t s'.
Proof.
  intros [[_ ->]|[_ ->]]; [|done]. destruct (admit_spec o (ready_nodes t) t) as (Ham & _ & Hst). split.
  - exists []. by rewrite (am_plan _ _ Ham), (am_appended _ _ Ham), !app_nil_r.
  - intros id Hs. split; [|left; apply Ham]. unfold settled_in in *. apply bool_decide_eq_true in Hs. rewrite Hst.
    destruct (bool_decide (id ∈ _)) eqn:Ed; [|by apply bool_decide_eq_true]. apply bool_decide_eq_true in Ed.
    apply list_elem_of_fmap in Ed as (m & -> & Hm%chosen_in). apply ready_in in Hm as (_ & Hm & _). unfold pending_in in Hm. congruence.
Qed.

(** A turn that has a report to process. *)
Definition processes (e : SchedEvent) (s : Sched) : bool :=
  match e with
  | EFiber _ => false
  | ETurn _ => negb (idle s) && match waiting s with [] => false | _ => true end
  end.

Definition settled_count (s : Sched) : nat := length (List.filter (λ node, settled_in s (pn_id node)) (pl_nodes (sc_plan s))).

Lemma onward_count s s' : onward s s' → settled_count s ≤ settled_count s'.
Proof.
  intros [(new & En & _) Hset]. unfold settled_count. rewrite En, List.filter_app, length_app.
  assert (∀ l, length (List.filter (λ node, settled_in s (pn_id node)) l) ≤ length (List.filter (λ node, settled_in s' (pn_id node)) l)) as Hle.
  { induction l as [|n l IH]; [done|]. cbn. destruct (settled_in s (pn_id n)) eqn:E; [destruct (Hset _ E) as [-> _]; cbn; lia|].
    destruct (settled_in s' (pn_id n)); cbn; lia. }
  specialize (Hle (pl_nodes (sc_plan s))). lia.
Qed.

Lemma advance_count s t node :
  advance s t → node ∈ pl_nodes (sc_plan s) → settled_in s (pn_id node) = false → settled_in t (pn_id node) = true → settled_count s < settled_count t.
Proof.
  intros Ha Hn Hs Ht. destruct (ad_nodes _ _ Ha) as (new & En & _). unfold settled_count. rewrite En, List.filter_app, length_app.
  pose proof (filter_fewer (λ node, settled_in t (pn_id node)) (λ node, settled_in s (pn_id node)) (pl_nodes (sc_plan s)) node) as Hf.
  specialize (Hf (λ y _ Hy, advance_settled _ _ _ Ha Hy) Hn Ht Hs). lia.
Qed.

Lemma step_onward e s s' :
  run_ok o s → sched_step o e s = (inr tt, s') → onward s s' ∧ (processes e s = true → settled_count s < settled_count s').
Proof.
  intros Hs E. destruct e as [step|arrivals]; cbn [sched_step processes] in *.
  - injection E as <-. split; [|done]. apply advance_onward. pose proof (still_steady _ _ (fiber_step_still o step s)) as Hst. apply Hst.
  - destruct (turn_spec _ _ _ _ (ro_ok _ _ Hs) E) as [[Hi Hc]|(_ & node & d & rest & t & _ & Hrun & Hset & Ha & Hp & Ht)].
    + split; [by apply advance_onward, alike_advance, same_core_alike|]. by destruct Hi as [-> | ->]; rewrite ?andb_false_r.
    + pose proof (admits_onward t s' Ht) as Hon. split; [etrans; [by apply advance_onward|done]|]. intros _.
      apply (Nat.lt_le_trans _ (settled_count t)); [|by apply onward_count].
      pose proof Hrun as Hin%(so_running _ _ (ro_ok _ _ Hs)). apply list_elem_of_fmap in Hin as (m & Em & Hm%(so_nodes _ _ (ro_ok _ _ Hs))).
      rewrite Em in Hrun, Hset. apply (advance_count s t m Ha Hm); [|done]. unfold running_in, settled_in in *.
      apply bool_decide_eq_true in Hrun. apply bool_decide_eq_false. congruence.
Qed.

(** The number of turns that process a report. *)
Fixpoint processed (es : list SchedEvent) (s : Sched) : nat :=
  match es with
  | [] => 0
  | e :: es =>
      (if processes e s then 1 else 0) +
      match sched_step o e s with (inr _, s') => processed es s' | (inl _, _) => 0 end
  end.

Lemma processed_count es s s' :
  run_ok o s → sched_steps o es s = (inr tt, s') → onward s s' ∧ settled_count s + processed es s ≤ settled_count s'.
Proof.
  revert s. induction es as [|e es IH]; intros s Hs E; cbn [processed sched_steps] in *.
  { apply ret_inr in E as [_ ->]. split; [done|lia]. }
  apply bind_inr in E as ([] & s1 & E1 & E). rewrite E1. destruct (step_onward e s s1 Hs E1) as [Hon Hlt].
  destruct (IH s1 (run_ok_step o _ _ _ Hs E1) E) as [Hon' Hc]. pose proof (onward_count _ _ Hon) as Hle. split; [by etrans|].
  destruct (processes e s); [specialize (Hlt eq_refl)|]; lia.
Qed.

Lemma start_onward plan s : built plan → start o (begun plan) = (inr tt, s) → onward (begun plan) s.
Proof. intros Hb (t & Ha & _ & Ht)%start_spec; [|done]. etrans; [by apply advance_onward|by apply admits_onward]. Qed.

Lemma settled_count_le s : settled_count s ≤ length (pl_nodes (sc_plan s)).
Proof. unfold settled_count. apply filter_length_le. Qed.
End onward.

(** ** A fiber comes to a report *)

Section reports.
Context `{Crypto} `{Host} (o : SchedulerOptions).

(** A report of the node waits for the coordinator. *)
Definition reported (id : string) (s : Sched) : Prop := ∃ node exit, pn_id node = id ∧ (node, exit) ∈ waiting s.

(** The turns of a fiber: it measures and keys an attempt, and the attempt comes to one
    thing or another; a turn that is not the fiber's next step does nothing. *)
Definition attempts (id : string) (rans : list Ran) : list FiberStep := flat_map (λ r, [FMeasure id; FRan id r]) rans.

(** The steps a fiber has made: two for an attempt that was rebased. *)
Definition made (f : Fiber) : Z := (2 * dp_rebases (fb_progress f) + match fb_phase f with Measuring => 0 | Executing => 1 end)%Z.

Definition enabled (id : string) (f : Fiber) (step : FiberStep) : bool :=
  match step, fb_phase f with
  | FMeasure i, Measuring | FRan i _, Executing => bool_decide (i = id)
  | _, _ => false
  end.

Lemma report_waits node exit s : reported (pn_id node) (report_exit node exit s).
Proof. exists node, exit. split; [done|]. rewrite waiting_report. apply elem_of_app. right. by left. Qed.

(** A report of a conflict names the runtime strategy of its node. *)
Definition honest (x : PlanNode * (Stop + Dispatched)) : Prop :=
  ∀ p, snd x = inr (Conflicted StopMerge p) → runtimeStrategyOf (fst x) = StopMerge.

Lemma fiber_step_waiting step s : ∃ l, waiting (fiber_step o step s) = waiting s ++ l ∧ Forall honest l.
Proof.
  assert (∃ l, waiting s = waiting s ++ l ∧ Forall honest l) as Hid by (exists []; by rewrite app_nil_r).
  assert (∀ t node exit, waiting t = waiting s → honest (node, exit) → ∃ l, waiting (report_exit node exit t) = waiting s ++ l ∧ Forall honest l) as Hrep.
  { intros t node exit Et Hh. exists [(node, exit)]. rewrite waiting_report, Et. split; [done|by apply Forall_singleton]. }
  destruct step as [id|id r|r]; cbn [fiber_step]; [| |done].
  - destruct (sc_fibers s !! id) as [f|]; [|done]. destruct (fb_phase f); [|done].
    destruct (key_attempt o f s) as [[e|[]] s'] eqn:E; apply key_attempt_spec in E; [apply Hrep; [apply E|done]|].
    destruct E as (t & key & Hc & ->). exists []. rewrite app_nil_r. split; [apply Hc|done].
  - destruct (sc_fibers s !! id) as [f|]; [|done]. destruct (fb_phase f); [done|].
    destruct r; cbn [after_attempt]; try (by apply Hrep). destruct (_ && _); [done|]. apply Hrep; [done|]. intros p [= Ep]. done.
Qed.

Lemma reported_step id step s : reported id s → reported id (fiber_step o step s).
Proof.
  intros (node & exit & Hid & Hin). exists node, exit. split; [done|]. destruct (fiber_step_waiting step s) as (l & -> & _). apply elem_of_app. by left.
Qed.

(** A fiber makes its next step or is left alone, or its report is there. *)
Lemma fiber_moves id f step s :
  sched_ok o s → sc_fibers s !! id = Some f →
  reported id (fiber_step o step s) ∨
  ∃ f', sc_fibers (fiber_step o step s) !! id = Some f' ∧ made f' = (made f + if enabled id f step then 1 else 0)%Z.
Proof.
  intros Hok Hf. assert (∀ j g, sc_fibers s !! j = Some g → pn_id (fb_node g) = j) as Hid by (intros j g Hg; by apply (so_fiber _ _ Hok)).
  assert (∃ f', sc_fibers s !! id = Some f' ∧ made f' = (made f + 0)%Z) as Hidle by (exists f; split; [done|lia]).
  unfold enabled. destruct step as [i|i r|r]; cbn [fiber_step]; [| |by right].
  - destruct (sc_fibers s !! i) as [g|] eqn:Eg.
    2: { right. destruct (fb_phase f); [|done]. by rewrite bool_decide_eq_false_2 by congruence. }
    destruct (decide (i = id)) as [->|Hne].
    + simplify_eq. rewrite bool_decide_eq_true_2 by done. destruct (fb_phase f) eqn:Eph; [|by right].
      destruct (key_attempt o f s) as [[e|[]] s'] eqn:E; apply key_attempt_spec in E; [left; rewrite <-(Hid _ _ Hf); apply report_waits|right].
      destruct E as (t & key & Hc & ->). eexists. split; [cbn; by rewrite (Hid _ _ Hf), lookup_insert_eq|]. unfold made. rewrite Eph. cbn. lia.
    + right. rewrite bool_decide_eq_false_2 by done. replace (match fb_phase f with Measuring => false | Executing => false end) with false by (by destruct (fb_phase f)).
      destruct (fb_phase g); [|done].
      destruct (key_attempt o g s) as [[e|[]] s'] eqn:E; apply key_attempt_spec in E.
      * cbn. rewrite lookup_delete_ne by (rewrite (Hid _ _ Eg); done). by rewrite (sm_fibers _ _ E).
      * destruct E as (t & key & Hc & ->). cbn. rewrite lookup_insert_ne by (rewrite (Hid _ _ Eg); done). by rewrite (sm_fibers _ _ Hc).
  - destruct (sc_fibers s !! i) as [g|] eqn:Eg.
    2: { right. destruct (fb_phase f); [done|]. by rewrite bool_decide_eq_false_2 by congruence. }
    destruct (decide (i = id)) as [->|Hne].
    + simplify_eq. rewrite bool_decide_eq_true_2 by done. destruct (fb_phase f) eqn:Eph; [by right|]. rewrite <-(Hid _ _ Hf).
      destruct r; cbn [after_attempt]; try (left; apply report_waits). destruct (_ && _); [right|left; apply report_waits].
      eexists. split; [cbn; by rewrite lookup_insert_eq|]. unfold made. rewrite Eph. cbn. lia.
    + right. rewrite bool_decide_eq_false_2 by done. replace (match fb_phase f with Measuring => false | Executing => false end) with false by (by destruct (fb_phase f)).
      destruct (fb_phase g); [done|]. pose proof (Hid _ _ Eg) as Ei.
      destruct r; cbn [after_attempt]; try (cbn; by rewrite lookup_delete_ne by congruence). destruct (_ && _); cbn.
      * by rewrite lookup_insert_ne by congruence.
      * by rewrite lookup_delete_ne by congruence.
Qed.

(** The fiber has made [k] steps, or its report is there. *)
Definition under_way (id : string) (k : Z) (s : Sched) : Prop := reported id s ∨ ∃ f, sc_fibers s !! id = Some f ∧ (k ≤ made f)%Z.

Lemma under_way_step id k step s : sched_ok o s → under_way id k s → under_way id k (fiber_step o step s).
Proof.
  intros Hok [Hr|(f & Hf & Hk)]; [left; by apply reported_step|].
  destruct (fiber_moves id f step s Hok Hf) as [?|(f' & Hf' & E)]; [by left|right]. exists f'. split; [done|]. destruct (enabled id f step); lia.
Qed.

Lemma under_way_steps id k steps s : sched_ok o s → under_way id k s → sched_ok o (fiber_steps o steps s) ∧ under_way id k (fiber_steps o steps s).
Proof.
  revert s. induction steps as [|step steps IH]; intros s Hok Hu; [done|]. apply IH; [by apply ok_fiber_step|by apply under_way_step].
Qed.

(** Its turn takes the fiber one attempt further. *)
Lemma under_way_turn id r (n : nat) s :
  sched_ok o s → under_way id (2 * Z.of_nat n) s →
  under_way id (2 * Z.of_nat n + 1) (fiber_step o (FMeasure id) s) ∧
  (under_way id (2 * Z.of_nat n + 1) s → under_way id (2 * Z.of_nat (S n)) (fiber_step o (FRan id r) s)).
Proof.
  intros Hok Hu. split.
  - destruct Hu as [Hr|(f & Hf & Hk)]; [left; by apply reported_step|].
    destruct (fiber_moves id f (FMeasure id) s Hok Hf) as [?|(f' & Hf' & E)]; [by left|right]. exists f'. split; [done|].
    revert E. unfold enabled. unfold made at 2. unfold made in Hk. destruct (fb_phase f); [rewrite bool_decide_eq_true_2 by done|]; lia.
  - intros [Hr|(f & Hf & Hk')]; [left; by apply reported_step|].
    destruct (fiber_moves id f (FRan id r) s Hok Hf) as [?|(f' & Hf' & E)]; [by left|right]. exists f'. split; [done|].
    revert E. unfold enabled. unfold made at 2. unfold made in Hk'. destruct (fb_phase f); [|rewrite bool_decide_eq_true_2 by done]; lia.
Qed.

Lemma under_way_turns id rans (n : nat) steps s :
  sched_ok o s → under_way id (2 * Z.of_nat n) s → sublist (attempts id rans) steps →
  sched_ok o (fiber_steps o steps s) ∧ under_way id (2 * Z.of_nat (n + length rans)) (fiber_steps o steps s).
Proof.
  revert n steps s. induction rans as [|r rans IH]; intros n steps s Hok Hu Hsub.
  { rewrite Nat.add_0_r. by apply under_way_steps. }
  change (attempts id (r :: rans)) with (FMeasure id :: FRan id r :: attempts id rans) in Hsub.
  apply sublist_cons_l in Hsub as (l1 & l2 & -> & Hsub). apply sublist_cons_l in Hsub as (l3 & l4 & -> & Hsub).
  unfold fiber_steps. rewrite fold_left_app. cbn [fold_left]. rewrite fold_left_app. cbn [fold_left].
  destruct (under_way_steps id _ l1 s Hok Hu) as [Hok1 Hu1]. unfold fiber_steps in Hok1, Hu1. set (s1 := fold_left _ l1 s) in *.
  destruct (under_way_turn id r n s1 Hok1 Hu1) as [Hu2 _]. pose proof (ok_fiber_step o (FMeasure id) s1 Hok1) as Hok2.
  destruct (under_way_steps id _ l3 _ Hok2 Hu2) as [Hok3 Hu3]. unfold fiber_steps in Hok3, Hu3. set (s3 := fold_left _ l3 _) in *.
  assert (under_way id (2 * Z.of_nat n) s3) as Hu3'. { destruct Hu3 as [?|(f & ? & ?)]; [by left|right]. exists f. split; [done|lia]. }
  destruct (under_way_turn id r n s3 Hok3 Hu3') as [_ Hu4]. specialize (Hu4 Hu3). pose proof (ok_fiber_step o (FRan id r) s3 Hok3) as Hok4.
  replace (n + length (r :: rans)) with (S n + length rans) by (cbn; lia). by apply IH.
Qed.

(** With a turn more than the limit on rebases the report is there. *)
Lemma turns_suffice id rans steps s :
  sched_ok o s → is_Some (sc_fibers s !! id) → (Z.max 0 (rebaseLimit o) < Z.of_nat (length rans))%Z →
  sublist (attempts id rans) steps → reported id (fiber_steps o steps s).
Proof.
  intros Hok [f Hf] Hl Hsub. assert (under_way id (2 * Z.of_nat 0) s) as Hu.
  { right. exists f. split; [done|]. destruct (so_fiber _ _ Hok _ _ Hf) as [_ [[? _] _]]. unfold made. destruct (fb_phase f); lia. }
  destruct (under_way_turns id rans 0 steps s Hok Hu Hsub) as [Hok' [?|(g & Hg & Hk)]]; [done|].
  destruct (so_fiber _ _ Hok' _ _ Hg) as [_ [[_ ?] _]]. unfold made in Hk. destruct (fb_phase g); lia.
Qed.
End reports.

(** ** No merge of a merge of a merge

    A merge is given the default strategies.  So two merges of one lineage are ordered,
    and the one behind a merge that was stopped is never dispatched: a run appends two
    merges for a node of its plan at most. *)

Definition merge_id (id : string) : string := id +:+ "+merge".

#[export] Instance merge_id_inj : Inj (=) (=) merge_id.
Proof.
  intros a b E. apply units_inj. apply (f_equal units) in E. unfold merge_id in E. rewrite !units_app in E. by apply app_inv_tail in E.
Qed.

Lemma overlaps_self e : overlaps e e = true.
Proof.
  destruct e as [p|g|t]; cbn; [by apply bool_decide_eq_true|done|]. unfold beneath.
  by rewrite (bool_decide_eq_true_2 (canonical t = canonical t)).
Qed.

Lemma overlap_some left right : overlap left right ≠ [] → produces left ≠ [] ∧ produces right ≠ [].
Proof.
  unfold overlap. intros Ho. split; [by intros E; rewrite E in Ho|]. intros E. apply Ho. rewrite E. generalize (produces left). intros l. by induction l.
Qed.

Lemma overlap_self effects : produces effects ≠ [] → overlap effects effects ≠ [].
Proof. unfold overlap. destruct (produces effects) as [|e l]; [done|]. cbn. by rewrite overlaps_self. Qed.

Section merges.
Context `{Crypto} `{Host} (o : SchedulerOptions) (base : list PlanNode).

Local Notation nodes_of s := (pl_nodes (sc_plan s)).

(** A merge of the node is put down or appended. *)
Definition stopped (s : Sched) (id : string) : Prop :=
  id ∈ (λ m, pn_id (pm_node m)) <$> sc_pendingMerges s ∨ merge_id id ∈ sc_appended s.

(** Nothing that depends on the node, at any distance, is dispatched or has a result. *)
Definition barred (s : Sched) (id : string) : Prop :=
  settled_in s id = true ∧ blocking (ns_outcome (stateOf id s)) = true ∧
  ∀ x, tc (edge (nodes_of s)) x id → running_in s x = false ∧ ¬ has_result s x.

(** A node of the plan that was given, or its merge. *)
Definition near (id : string) : Prop := id ∈ ids base ∨ ∃ k, k ∈ ids base ∧ id = merge_id k.

(** An appended node is the merge of a node. *)
Definition merge_of (s : Sched) (m : PlanNode) : Prop :=
  pn_id m ∈ sc_appended s ∧ ∃ n, n ∈ nodes_of s ∧ pn_id m = merge_id (pn_id n) ∧ pn_effects m = pn_effects n ∧
    pn_strategy m = Serialize ∧ pn_runtime m = DelayRebase.

Record merging (s : Sched) : Prop := {
  mg_nodes : ∃ new, nodes_of s = base ++ new ∧ sc_appended s = pn_id <$> new;
  mg_known : ∀ id, pending_in s id ∨ id ∈ ids (nodes_of s);
  mg_deps : ∀ id d, edge (nodes_of s) id d → pending_in s id ∨ settled_in s d = true;
  mg_reports : Forall honest (waiting s);
  mg_pending : ∀ m, m ∈ sc_pendingMerges s → pm_node m ∈ nodes_of s;
  mg_stopped : ∀ id, stopped s id → barred s id ∧ near id;
  mg_new : ∀ m, m ∈ nodes_of s → pn_id m ∈ ids base ∨ merge_of s m
}.

(** *** Work that leaves the plan and the merges alone *)

(** What may happen to the state of a node. *)
Inductive moves (s : Sched) (id : string) (n n' : NodeState) : Prop :=
| mv_same : ns_status n' = ns_status n → ns_outcome n' = ns_outcome n ∨ blocking (ns_outcome n') = true → moves s id n n'
| mv_end : ns_status n = SRunning → ns_status n' = SSettled → moves s id n n'
| mv_pass : ns_status n = SPending → ns_status n' = SSettled → blocking (ns_outcome n') = true → id ∈ ids (nodes_of s) →
    (∀ d, edge (nodes_of s) id d → settled_in s d = true) → moves s id n n'
| mv_launch : ns_status n = SPending → ns_status n' = SRunning → id ∈ ids (nodes_of s) →
    (∀ d, edge (nodes_of s) id d → has_result s d) → moves s id n n'.

Record proceeds (s s' : Sched) : Prop := {
  pr_plan : sc_plan s' = sc_plan s;
  pr_appended : sc_appended s' = sc_appended s;
  pr_merges : sc_pendingMerges s' = sc_pendingMerges s;
  pr_moves : ∀ id, moves s id (stateOf id s) (stateOf id s');
  pr_reports : Forall honest (waiting s) → Forall honest (waiting s')
}.

Lemma proceeds_settled s s' id : proceeds s s' → settled_in s id = true → settled_in s' id = true.
Proof.
  intros Hp Hs. unfold settled_in in *. apply bool_decide_eq_true in Hs. apply bool_decide_eq_true. destruct (pr_moves _ _ Hp id); congruence.
Qed.

Lemma barred_proceeds s s' id : proceeds s s' → barred s id → barred s' id.
Proof.
  intros Hp (Hset & Hb & Hx). pose proof (pr_moves _ _ Hp) as Hm. split; [by eapply proceeds_settled|]. split.
  - unfold settled_in in Hset. apply bool_decide_eq_true in Hset. destruct (Hm id) as [_ [->|?]| | |]; [done|done|congruence..].
  - intros x. rewrite (pr_plan _ _ Hp). intros Ht. destruct (Hx x Ht) as [Hr Hn]. unfold running_in, has_result, settled_in in Hset, Hr, Hn |- *.
    apply bool_decide_eq_false in Hr. rewrite bool_decide_eq_true in Hn. rewrite bool_decide_eq_true, bool_decide_eq_false.
    destruct (Hm x) as [Es [Eo|Eo]|? ?|? Es Eo ? ?|? Es ? Hd].
    + by rewrite Es, Eo.
    + rewrite Es, Eo. split; [done|by intros [_ ?]].
    + done.
    + rewrite Es, Eo. split; [done|by intros [_ ?]].
    + exfalso. inversion Ht as [? ? He|? y ? He Ht']; subst.
      * destruct (Hd _ He) as [_ ?]. congruence.
      * destruct (Hx _ Ht') as [_ Hy]. by apply Hy, Hd.
Qed.

Lemma merging_proceeds s s' : merging s → proceeds s s' → merging s'.
Proof.
  intros Hs Hp. pose proof (pr_moves _ _ Hp) as Hm. split; rewrite ?(pr_plan _ _ Hp), ?(pr_appended _ _ Hp), ?(pr_merges _ _ Hp).
  - apply Hs.
  - intros id. unfold pending_in. destruct (Hm id) as [-> _|Er _| |]; [apply (mg_known _ Hs)| |by right..].
    destruct (mg_known _ Hs id) as [?|?]; [unfold pending_in in *; congruence|by right].
  - intros id d He. assert (settled_in s d = true → settled_in s' d = true) as Hd by (by apply proceeds_settled).
    unfold pending_in. destruct (mg_deps _ Hs id d He) as [Hpend|?]; [unfold pending_in in Hpend|by auto].
    destruct (Hm id) as [-> _|? _|_ _ _ _ Hall|_ _ _ Hall]; [by left|congruence|right; auto|right; by apply Hd, Hall].
  - apply (pr_reports _ _ Hp), Hs.
  - apply Hs.
  - intros id Hst. assert (stopped s id) as Hst' by (unfold stopped in *; by rewrite <-(pr_appended _ _ Hp), <-(pr_merges _ _ Hp)).
    destruct (mg_stopped _ Hs id Hst'). split; [by eapply barred_proceeds|done].
  - intros m Hin. destruct (mg_new _ Hs m Hin) as [?|Hmg]; [by left|right]. unfold merge_of. by rewrite (pr_plan _ _ Hp), (pr_appended _ _ Hp).
Qed.

Lemma proceeds_alike s s' : alike s s' → proceeds s s'.
Proof.
  intros Ha. split; try apply Ha; [|by rewrite (al_waiting _ _ Ha)]. intros id. apply mv_same; rewrite (al_states _ _ Ha); [done|by left].
Qed.
Lemma proceeds_core s s' : same_core s s' → proceeds s s'.
Proof. intros Hc. by apply proceeds_alike, same_core_alike. Qed.

Lemma proceeds_fiber step s : proceeds s (fiber_step o step s).
Proof.
  pose proof (fiber_step_still o step s) as Hs. split; try apply Hs.
  - intros id. apply mv_same; rewrite (still_state _ _ _ Hs); [done|by left].
  - destruct (fiber_step_waiting o step s) as (l & -> & Hl). intros Hw. by apply Forall_app.
Qed.

Lemma proceeds_landed node d s s0 :
  running_in s (pn_id node) = true → taken (node, inr d) s s0 → proceeds s (landed node d s0).
Proof.
  intros Hrun Ht. destruct (landed_fields node d s0) as (Lp & _ & Lw & _ & _ & _ & _ & La & Lm).
  split; [by rewrite ?Lp, ?La, ?Lm; apply Ht..| |].
  - intros id. rewrite landed_state. assert (∀ j, stateOf j s0 = stateOf j s) as Hst by (intros j; unfold stateOf; by rewrite (tk_states _ _ _ Ht)). rewrite !Hst.
    unfold running_in in Hrun. apply bool_decide_eq_true in Hrun. case_bool_decide as E; [subst; by apply mv_end|]. apply mv_same; [done|by left].
  - rewrite Lw, (tk_waiting _ _ _ Ht). by intros [_ ?]%Forall_cons.
Qed.

Lemma judged_waiting nodeId verdict s : waiting (judged nodeId verdict s) = waiting s.
Proof.
  destruct verdict as [r|owners r|]; [done| |done]. cbn [judged]. revert s. induction owners as [|owner owners IH]; intros s; [done|]. cbn [fold_left]. rewrite IH.
  unfold discover. destruct (sc_states s !! owner) as [n|]; [|done]. by destruct (bool_decide _).
Qed.

Lemma proceeds_judged nodeId verdict s : settled_in s nodeId = true → proceeds s (judged nodeId verdict s).
Proof.
  intros Hs. destruct (judged_frame s nodeId verdict) as (Hp & Ha & Hm). split; [done..| |by rewrite judged_waiting].
  intros id. destruct verdict as [r|owners r|]; cbn [judged].
  - change (stateOf id (set_results _ ?t)) with (stateOf id t). rewrite stateOf_change. unfold settled_in in Hs. apply bool_decide_eq_true in Hs.
    case_bool_decide as E; [subst; apply mv_same; [by rewrite Hs|by right]|]. apply mv_same; [done|by left].
  - destruct (discovers_frame nodeId owners s) as (_ & _ & Hst & _). unfold stateOf. rewrite Hst. apply mv_same; [done|by left].
  - apply mv_same; [done|by left].
Qed.

Lemma depends_in s node d :
  sched_ok o s → node ∈ nodes_of s → edge (nodes_of s) (pn_id node) d → d ∈ dependenciesOf node s.
Proof.
  intros Hok Hn (m & Hm & Hid & Hd). pose proof (no_unique _ _ (built_ok _ (so_built _ _ Hok))) as Hu.
  assert (m = node) as -> by (by apply (NoDup_key_inj pn_id (nodes_of s))). apply elem_of_app. by left.
Qed.

Lemma all_settled_dependencies s node d :
  unsettled_dependency s node = false → d ∈ dependenciesOf node s → settled_in s d = true.
Proof. unfold unsettled_dependency. rewrite existsb_false. intros Hu Hd. by apply Hu, negb_false_iff in Hd. Qed.

Lemma proceeds_passive s node outcome :
  sched_ok o s → node ∈ nodes_of s → pending_in s (pn_id node) → passive_reason s node outcome →
  proceeds s (change_state (pn_id node) (with_status SSettled outcome) s).
Proof.
  intros Hok Hn Hp [Hu Hr]. split; [done..| |done]. intros id. rewrite stateOf_change. case_bool_decide as E; [subst|apply mv_same; [done|by left]].
  apply mv_pass; [done|done|by destruct Hr as [[-> _]|[-> _]]|apply list_elem_of_fmap; by exists node|].
  intros d Hd. by apply (all_settled_dependencies s node), (depends_in s node).
Qed.

Lemma merging_cascade s s' : sched_ok o s → cascade s s' → merging s → merging s'.
Proof.
  intros Hok Hc. revert Hok. induction Hc as [s s' Ha|s node outcome s1 s' Hn Hp Hr Ha Hc IH]; intros Hok Hm.
  - eapply merging_proceeds; [exact Hm|by apply proceeds_alike].
  - assert (cascade s s1) as Hc1 by (by apply (cascade_settle s node outcome s1); [..|apply cascade_done]).
    apply IH; [by apply (ok_cascade o s)|]. eapply merging_proceeds; [|by apply proceeds_alike].
    eapply merging_proceeds; [exact Hm|]. by apply proceeds_passive.
Qed.

Lemma admit_waiting ready s : waiting (admit_ready o ready s) = waiting s.
Proof.
  unfold admit_ready. generalize (choose o (sc_inFlightSteps s) (sc_inFlightAgents s) (contenders s ready)). intros l.
  assert (∀ l s, waiting (fold_left (λ s node, launch node s) l s) = waiting s) as ->.
  { clear. induction l as [|n l IH]; intros s; [done|]. cbn [fold_left]. rewrite IH. unfold launch. by destruct (is_agent n). }
  match goal with |- waiting (fold_left _ ?k s) = _ => generalize k end. clear. intros l. revert s. induction l as [|n l IH]; intros s; [done|].
  cbn [fold_left]. by rewrite IH.
Qed.

Lemma proceeds_admit s : sched_ok o s → proceeds s (admit_ready o (ready_nodes s) s).
Proof.
  intros Hok. destruct (admit_spec o (ready_nodes s) s) as (Ham & _ & Hst). split; try apply Ham; [|by rewrite admit_waiting].
  intros id. specialize (Hst id). pose proof (am_outcome _ _ Ham id) as Ho. destruct (bool_decide (id ∈ _)) eqn:Ed; [|apply mv_same; [done|by left]].
  apply bool_decide_eq_true, list_elem_of_fmap in Ed as (node & -> & Hin%chosen_in). apply ready_in in Hin as (Hn & Hp & Hu & Hb).
  apply mv_launch; [done|done|apply list_elem_of_fmap; by exists node|]. intros d Hd%(depends_in s node); [|done..].
  split; [by apply (all_settled_dependencies s node)|]. unfold blocked_dependency in Hb. rewrite existsb_false in Hb. by apply Hb.
Qed.

(** *** Merges that are put down *)

Lemma pending_above s x id : merging s → settled_in s id = false → tc (edge (nodes_of s)) x id → pending_in s x.
Proof.
  intros Hm Hid Ht. induction Ht as [x id He|x y id He _ IH].
  - destruct (mg_deps _ Hm x id He); [done|congruence].
  - destruct (mg_deps _ Hm x y He) as [?|Hs]; [done|]. specialize (IH Hid). unfold pending_in, settled_in in *. apply bool_decide_eq_true in Hs. congruence.
Qed.

Lemma running_unsettled s id : running_in s id = true → settled_in s id = false ∧ ¬ pending_in s id.
Proof.
  unfold running_in, settled_in, pending_in. intros Hr%bool_decide_eq_true. split; [apply bool_decide_eq_false|]; congruence.
Qed.

(** Only a node of the given plan, or the merge of one, is stopped for a merge. *)
Lemma stops_near s node :
  sched_ok o s → merging s → node ∈ nodes_of s → running_in s (pn_id node) = true → runtimeStrategyOf node = StopMerge → near (pn_id node).
Proof.
  intros Hok Hm Hn Hrun Hstop. pose proof (built_ok _ (so_built _ _ Hok)) as Hb. destruct (running_unsettled _ _ Hrun) as [Hset _].
  assert (∀ m, m ∈ nodes_of s → pn_id m = pn_id node → m = node) as Huniq.
  { intros m Hin E. apply (NoDup_key_inj pn_id (nodes_of s)); [apply (no_unique _ _ Hb)|done..]. }
  destruct (mg_new _ Hm node Hn) as [?|(Happ & n & Hin & Eid & Eeff & Es & Er)]; [by left|right].
  destruct (mg_new _ Hm n Hin) as [?|(_ & _ & _ & _ & _ & Es' & _)]; [by exists (pn_id n)|exfalso].
  destruct (mg_stopped _ Hm (pn_id n)) as [(Hnset & _ & Hbar) _]; [right; by rewrite <-Eid|].
  assert (produces (pn_effects node) ≠ []) as Hprod.
  { unfold runtimeStrategyOf in Hstop. rewrite Er in Hstop. destruct (existsb _ _) eqn:Ec; [|done].
    apply existsb_exists in Ec as (c & Hc%list_elem_of_In & Ec). apply bool_decide_eq_true in Ec.
    destruct (no_notes _ _ Hb node c Hn Hc) as (i & j & e & l & _ & Hl & He & Hat & Hd).
    destruct (overlap_some _ _ (ds_overlap _ _ _ Hd)) as [He' Hl'].
    destruct Hat as [[E _]|[E _]]; [rewrite <-(Huniq l)|rewrite <-(Huniq e)]; try done; by eapply list_elem_of_lookup_2. }
  apply overlap_self in Hprod. apply list_elem_of_lookup in Hn as [i Hi], Hin as [j Hj].
  assert (tc (edge (nodes_of s)) (pn_id node) (pn_id n) ∨ tc (edge (nodes_of s)) (pn_id n) (pn_id node)) as [Ht|Ht].
  { destruct (Nat.lt_trichotomy i j) as [Hij|[->|Hij]].
    - destruct (no_writers _ _ Hb j i node n Hij Hj Hi) as [?|[?|[(_ & _ & [?|?]) _]]]; [by rewrite <-Eeff in *|by right|congruence..].
    - exfalso. simplify_eq. apply (f_equal units), (f_equal length) in Eid. unfold merge_id in Eid. rewrite units_app, length_app in Eid. cbn in Eid. lia.
    - destruct (no_writers _ _ Hb i j n node Hij Hi Hj) as [?|[?|[(_ & _ & [?|?]) _]]]; [by rewrite <-Eeff in *|by left|congruence..]. }
  - destruct (Hbar _ Ht) as [? _]. congruence.
  - pose proof (pending_above _ _ _ Hm Hset Ht) as Hp. unfold pending_in, settled_in in *. apply bool_decide_eq_true in Hnset. congruence.
Qed.

Lemma landed_barred node p s s0 :
  merging s → running_in s (pn_id node) = true → taken (node, inr (Conflicted StopMerge p)) s s0 →
  barred (landed node (Conflicted StopMerge p) s0) (pn_id node).
Proof.
  intros Hm Hrun Ht. destruct (running_unsettled _ _ Hrun) as [Hset Hnp].
  assert (sc_plan (landed node (Conflicted StopMerge p) s0) = sc_plan s) as Hplan.
  { destruct (landed_fields node (Conflicted StopMerge p) s0) as [-> _]. apply Ht. }
  split; [apply landed_settled|]. split.
  - by rewrite landed_state, (bool_decide_eq_true_2 (pn_id node = pn_id node)).
  - intros x. rewrite Hplan. intros Hx%(pending_above _ _ _ Hm Hset). unfold running_in, has_result, settled_in. rewrite landed_state.
    rewrite (bool_decide_eq_false_2 (x = pn_id node)) by (by intros ->). unfold stateOf. rewrite (tk_states _ _ _ Ht). unfold pending_in, stateOf in Hx. rewrite Hx.
    split; [done|by intros [? _]].
Qed.

Lemma merging_put node peers s :
  merging s → barred s (pn_id node) → near (pn_id node) → node ∈ nodes_of s →
  merging (set_pendingMerges (sc_pendingMerges s ++ [mkPendingMerge node peers]) s).
Proof.
  intros [] Hb Hn Hin. split; try done.
  - intros m. cbn. intros [?|Hx%list_elem_of_singleton]%elem_of_app; [by apply mg_pending0|by subst].
  - intros id [Hid|Hid]; cbn in Hid; [|by apply mg_stopped0; right]. rewrite fmap_app in Hid.
    apply elem_of_app in Hid as [Hid|Hid%list_elem_of_singleton]; [by apply mg_stopped0; left|]. by subst.
Qed.

Lemma merging_drop rest s : (∀ m, m ∈ rest → m ∈ sc_pendingMerges s) → merging s → merging (set_pendingMerges rest s).
Proof.
  intros Hsub []. split; try done.
  - intros m Hm. by apply mg_pending0, Hsub.
  - intros id [Hid|Hid]; [|by apply mg_stopped0; right]. cbn in Hid. apply mg_stopped0. left.
    apply list_elem_of_fmap in Hid as (m & -> & Hm%Hsub). apply list_elem_of_fmap. by exists m.
Qed.

Lemma settlement_merging node d s s0 s' :
  sched_ok o s → merging s → taken (node, inr d) s s0 → settlement node d s0 = (inr tt, s') → merging s'.
Proof.
  intros Hok Hm Ht (s1 & verdict & merges & H1 & H2 & Hmerges)%settlement_spec.
  assert (running_in s (pn_id node) = true) as Hrun by (apply (so_running _ _ Hok); rewrite (taken_tokens _ _ _ Ht); cbn; by left).
  assert (node ∈ nodes_of s) as Hn by (apply (so_nodes _ _ Hok); rewrite (taken_tokens _ _ _ Ht); cbn; by left).
  pose proof (merging_proceeds _ _ Hm (proceeds_landed node d s s0 Hrun Ht)) as Hl.
  pose proof (proceeds_core _ _ H1) as P1. pose proof (landed_settled node d s0) as Hset. apply (proceeds_settled _ _ _ P1) in Hset.
  pose proof (proceeds_judged (pn_id node) verdict s1 Hset) as P2.
  pose proof (merging_proceeds _ _ (merging_proceeds _ _ Hl P1) P2) as Hj.
  refine (merging_proceeds _ _ _ (proceeds_core _ _ H2)). destruct Hmerges as [->|(p & peers & -> & ->)].
  - apply merging_drop; [|done]. by rewrite (pr_merges _ _ P2).
  - rewrite <-(pr_merges _ _ P2). apply merging_put; [done| | |].
    + eapply barred_proceeds; [exact P2|]. eapply barred_proceeds; [exact P1|]. by apply (landed_barred node p s).
    + apply (stops_near s); try done. pose proof (mg_reports _ Hm) as Hw. rewrite (tk_waiting _ _ _ Ht) in Hw.
      apply Forall_cons in Hw as [Hw _]. by apply (Hw p).
    + rewrite (pr_plan _ _ P2), (pr_plan _ _ P1). destruct (landed_fields node (Conflicted StopMerge p) s0) as [-> _]. by rewrite (tk_plan _ _ _ Ht).
Qed.

Lemma merging_append node s s' :
  sched_ok o s → merging s → node ∈ nodes_of s → pn_id node ∈ (λ m, pn_id (pm_node m)) <$> sc_pendingMerges s →
  appendMerge node s = (inr tt, s') → merging s' ∧ sc_pendingMerges s' = sc_pendingMerges s.
Proof.
  intros Hok Hm Hn Hput (winners & grown & Ea & Hc)%appendMerge_spec.
  destruct (merge_grows o _ _ _ _ Hok Ea) as (Hb%built_ok & m & En & Hid & Heff & Hs & Hr). fold (merge_id (pn_id node)) in Hid, Hc.
  split; [|by rewrite (sm_merges _ _ Hc)]. refine (merging_proceeds _ _ _ (proceeds_core _ _ Hc)). clear Hc Ea.
  set (mid := merge_id (pn_id node)) in *. set (t := set_appended _ _).
  assert (mid ∉ ids (nodes_of s)) as Hfresh.
  { pose proof (no_unique _ _ Hb) as Hd. rewrite En in Hd. unfold ids in Hd. rewrite fmap_app in Hd. apply NoDup_app in Hd as (_ & Hd & _).
    intros Hin. apply (Hd _ Hin). cbn. rewrite Hid. by left. }
  assert (∀ a b, edge (pl_nodes grown) a b → a ≠ mid → edge (nodes_of s) a b) as Hedge.
  { intros a b (n & Hin & <- & Hdep) Hne. rewrite En in Hin. apply elem_of_app in Hin as [?|Hin%list_elem_of_singleton]; [by exists n|congruence]. }
  assert (∀ a b, tc (edge (pl_nodes grown)) a b → a ≠ mid → tc (edge (nodes_of s)) a b) as Htc.
  { intros a b Ht. induction Ht as [a b He|a y b He _ IH]; intros Hne; [by apply tc_once, Hedge|]. pose proof (Hedge _ _ He Hne) as He'.
    eapply tc_l; [exact He'|]. apply IH. intros ->. apply Hfresh. by apply (no_closed _ _ (built_ok _ (so_built _ _ Hok)) a). }
  assert (pending_in s mid) as Hpend by (by destruct (mg_known _ Hm mid)).
  assert (∀ n, n ∈ nodes_of s → n ∈ pl_nodes grown) as Hold by (intros n Hin; rewrite En; apply elem_of_app; by left).
  split; cbn [t set_appended set_plan sc_plan sc_appended sc_pendingMerges].
  - destruct (mg_nodes _ Hm) as (new & E1 & E2). exists (new ++ [m]). rewrite En, E1, E2, fmap_app, <-app_assoc. cbn. by rewrite Hid.
  - intros id. destruct (mg_known _ Hm id) as [?|Hin]; [by left|right]. apply list_elem_of_fmap in Hin as (n & -> & Hin). apply list_elem_of_fmap. eauto.
  - intros id d He. destruct (decide (id = mid)) as [->|Hne]; [by left|]. by apply (mg_deps _ Hm), Hedge.
  - apply Hm.
  - intros x Hx. by apply Hold, (mg_pending _ Hm).
  - intros id Hst. assert (stopped s id) as (Hbar & Hnear)%(mg_stopped _ Hm).
    { destruct Hst as [?|Hin]; [by left|]. cbn in Hin. apply elem_of_app in Hin as [?|Hin%list_elem_of_singleton]; [by right|].
      apply (inj merge_id) in Hin as ->. by left. }
    split; [|done]. destruct Hbar as (? & ? & Hx). split; [done|]. split; [done|]. intros x Ht. destruct (decide (x = mid)) as [->|Hne].
    + unfold running_in, has_result, settled_in. change (stateOf mid t) with (stateOf mid s). unfold pending_in in Hpend. rewrite Hpend.
      split; [done|by intros [? _]].
    + by apply Hx, Htc.
  - intros n Hin. rewrite En in Hin. apply elem_of_app in Hin as [Hin|Hnm%list_elem_of_singleton]; [|subst n].
    + destruct (mg_new _ Hm n Hin) as [?|(? & k & ? & ? & ?)]; [by left|right]. split; [cbn; apply elem_of_app; by left|]. exists k. split; [by apply Hold|done].
    + right. split; [cbn; apply elem_of_app; right; rewrite Hid; by left|]. exists node. split; [by apply Hold|done].
Qed.

Lemma append_ready_merging pending s rest s' :
  sched_ok o s → merging s → (∀ m, m ∈ pending → m ∈ sc_pendingMerges s) → append_ready pending s = (inr rest, s') →
  merging s' ∧ sc_pendingMerges s' = sc_pendingMerges s ∧ ∀ m, m ∈ rest → m ∈ pending.
Proof.
  revert s rest. induction pending as [|m pending IH]; intros s rest Hok Hm Hsub E; cbn [append_ready] in E.
  { by apply ret_inr in E as [-> ->]. }
  apply bind_inr in E as (t & t' & Et & E). injection Et as <- <-. destruct (existsb _ _) eqn:Eh.
  - apply bind_inr in E as (rest' & s1 & E1 & E). apply ret_inr in E as [-> ->].
    destruct (IH s rest' Hok Hm) as (H1 & H2 & H3); [intros x Hx; apply Hsub; by right|done|]. split; [done|]. split; [done|].
    intros x [->|Hx]%elem_of_cons; [by left|right; auto].
  - apply bind_inr in E as ([] & s1 & E1 & E). destruct (appendMerge_ok o _ _ _ Hok E1) as (Hok1 & _).
    assert (m ∈ sc_pendingMerges s) as Hin by (apply Hsub; by left).
    destruct (merging_append (pm_node m) s s1) as [Hm1 Hp1]; [done|done|by apply (mg_pending _ Hm)|apply list_elem_of_fmap; by exists m|done|].
    destruct (IH s1 rest Hok1 Hm1) as (H1 & H2 & H3); [intros x Hx; rewrite Hp1; apply Hsub; by right|done|]. split; [done|]. split; [congruence|].
    intros x Hx. right. auto.
Qed.

Lemma appendReadyMerges_merging s s' : sched_ok o s → merging s → appendReadyMerges s = (inr tt, s') → merging s'.
Proof.
  intros Hok Hm E. unfold appendReadyMerges in E. apply bind_inr in E as (pending & t & Et & E). injection Et as <- <-.
  apply bind_inr in E as (rest & s1 & E1 & E). injection E as <-.
  destruct (append_ready_merging _ _ _ _ Hok Hm (λ m Hin, Hin) E1) as (H1 & H2 & H3). apply merging_drop; [|done]. by rewrite H2.
Qed.

(** *** Turns *)

Lemma merging_fibers steps s : merging s → merging (fiber_steps o steps s).
Proof.
  revert s. induction steps as [|step steps IH]; intros s Hm; [done|]. apply IH. eapply merging_proceeds; [exact Hm|apply proceeds_fiber].
Qed.

Lemma judge_merging pending s rest s' : sched_ok o s → merging s → judge pending s = (inr rest, s') → merging s'.
Proof.
  revert s rest. induction pending as [|d pending IH]; intros s rest Hok Hm E; cbn [judge] in E; [by apply ret_inr in E as [-> ->]|].
  apply bind_inr in E as (t & t' & Et & E). injection Et as <- <-. destruct (settled_in s (pd_nodeId d)) eqn:Es.
  - apply bind_inr in E as ([] & s1 & E1%applyVerdict_core & E).
    pose proof (ok_judged o s _ (onDeviation h_reconciler (deviation_of d s)) Es Hok) as Hok1. apply (ok_core o _ _ E1) in Hok1.
    apply (IH s1 rest); [done| |done]. eapply merging_proceeds; [|by apply proceeds_core]. eapply merging_proceeds; [exact Hm|by apply proceeds_judged].
  - apply bind_inr in E as (rest' & s1 & E1 & E). apply ret_inr in E as [-> ->]. by apply (IH s rest').
Qed.

Lemma drain_merging fuel arrivals s s' : sched_ok o s → merging s → drainDeviations o fuel arrivals s = (inr tt, s') → merging s'.
Proof.
  revert arrivals s. induction fuel as [|fuel IH]; intros arrivals s Hok Hm E; [done|]. cbn [drainDeviations] in E. cbv zeta in E.
  apply bind_inr in E as ([] & s1 & E1 & E). injection E1 as <-. set (s1 := fiber_steps o _ s) in E.
  apply bind_inr in E as (t & t' & Et & E). injection Et as <- <-.
  apply bind_inr in E as ([] & s2 & E2 & E). injection E2 as <-. set (s2 := fiber_steps o _ s1) in E.
  apply bind_inr in E as ([] & s3 & E3 & E). injection E3 as <-.
  apply bind_inr in E as ([] & s4 & E4 & E). injection E4 as <-. set (s4 := set_cursor _ _) in E.
  apply bind_inr in E as (pending & t & Et & E). apply gets_inr in Et as [-> ->].
  apply bind_inr in E as (rest & s5 & E5 & E). apply bind_inr in E as ([] & s6 & E6 & E). injection E6 as <-.
  assert (same_core s2 s4) as Hc.
  { etrans; [apply drain_reports_core|]. etrans; [apply (attributes_core (take page_limit (drop (sc_cursor s1) (sc_journal s1))))|]. by split. }
  assert (sched_ok o s4) as Hok4 by (eapply ok_core; [exact Hc|]; by apply ok_fiber_steps, ok_fiber_steps).
  assert (merging s4) as Hm4 by (eapply merging_proceeds; [|by apply proceeds_core]; by apply merging_fibers, merging_fibers).
  destruct (judge_ok o _ _ _ _ Hok4 E5) as (Hok5 & _). pose proof (judge_merging _ _ _ _ Hok4 Hm4 E5) as Hm5. pose proof (pendings_core rest s5) as Hc6.
  assert (merging (set_pendingDeviations rest s5)) as Hm6 by (eapply merging_proceeds; [exact Hm5|by apply proceeds_core]).
  case_bool_decide; [|by apply ret_inr in E as [_ ->]]. eapply IH; [|exact Hm6|exact E]. by eapply ok_core.
Qed.

Lemma passive_merging s ready s' : sched_ok o s → merging s → passive s = (inr ready, s') → merging s'.
Proof.
  intros Hok Hm E. unfold passive in E. apply bind_inr in E as (fuel & t & Et & E). apply gets_inr in Et as [-> ->].
  apply passive_spec in E as (Hc & _); [|apply (no_unique _ _ (built_ok _ (so_built _ _ Hok)))]. by apply (merging_cascade s).
Qed.

Lemma turn_merging arrivals s s' : run_ok o s → merging s → turn o arrivals s = (inr tt, s') → merging s'.
Proof.
  intros [Hok Hh _] Hm E. unfold turn in E. apply bind_inr in E as (t & t' & Et & E). injection Et as <- <-. fold (idle s) in E.
  destruct (idle s); [by apply ret_inr in E as [_ ->]|]. cbv zeta in E. pose proof (next_spec s) as Hnext.
  destruct (nextSettlement s) as [[[node [e|d]]|] s0]; cbn [fst snd] in E; [done| |].
  2: { apply bind_inr in E as ([] & s1 & E1 & E). injection E1 as <-. apply ret_inr in E as [_ ->].
       eapply merging_proceeds; [exact Hm|]. apply proceeds_core, Hnext. }
  apply bind_inr in E as ([] & s1 & E1 & E). injection E1 as <-. apply bind_inr in E as ([] & s1 & E1 & E).
  destruct (settlement_ok o _ _ _ _ _ Hok Hnext E1) as (Hok1 & _). pose proof (settlement_merging _ _ _ _ _ Hok Hm Hnext E1) as Hm1.
  apply bind_inr in E as ([] & s2 & E2 & E). destruct (appendReadyMerges_ok o _ _ Hok1 E2) as (Hok2 & _ & Hh2).
  pose proof (appendReadyMerges_merging _ _ Hok1 Hm1 E2) as Hm2. apply bind_inr in E as (fuel & s3 & E3 & E). apply gets_inr in E3 as [-> ->].
  apply bind_inr in E as ([] & s3 & E3 & E). destruct (drainDeviations_ok o _ _ _ _ Hok2 E3) as (Hok3 & Hs3).
  pose proof (drain_merging _ _ _ _ Hok2 Hm2 E3) as Hm3. apply (held_steady _ s3) in Hh2; [|apply Hs3]. rewrite <-(sd_merges _ _ Hs3) in Hh2.
  apply bind_inr in E as (ready & s4 & E4 & E). destruct (passive_ok o _ _ _ Hok3 Hh2 E4) as (Hp4 & _ & -> & _).
  pose proof (passive_merging _ _ _ Hok3 Hm3 E4) as Hm4. apply bind_inr in E as (t & t' & Et & E). injection Et as <- <-.
  destruct (sc_pendingSettlements s4); [|by apply ret_inr in E as [_ ->]]. apply (f_equal snd) in E. cbn in E. subst s'.
  eapply merging_proceeds; [exact Hm4|]. by apply proceeds_admit, Hp4.
Qed.

Lemma steps_merging es s s' : run_ok o s → merging s → sched_steps o es s = (inr tt, s') → merging s'.
Proof.
  revert s. induction es as [|e es IH]; intros s Hs Hm E; cbn [sched_steps] in E; [by apply ret_inr in E as [_ ->]|].
  apply bind_inr in E as ([] & s1 & E1 & E). apply (IH s1); [by apply (run_ok_step o e s)| |done]. destruct e as [step|arrivals]; cbn [sched_step] in E1.
  - injection E1 as <-. eapply merging_proceeds; [exact Hm|apply proceeds_fiber].
  - by apply (turn_merging arrivals s).
Qed.

(** The merges a run appends are two for a node of its plan at most. *)
Lemma merges_bounded s : sched_ok o s → merging s → length (sc_appended s) ≤ 2 * length base.
Proof.
  intros Hok Hm. destruct (mg_nodes _ Hm) as (new & En & Ea). pose proof (no_unique _ _ (built_ok _ (so_built _ _ Hok))) as Hd.
  rewrite En in Hd. unfold ids in Hd. rewrite fmap_app in Hd. apply NoDup_app in Hd as (_ & Hdis & Hd).
  replace (2 * length base) with (length (merge_id <$> (ids base ++ (merge_id <$> ids base)))).
  2: { unfold ids. rewrite length_fmap, length_app, !length_fmap. lia. }
  rewrite Ea. apply submseteq_length, NoDup_submseteq; [done|]. intros a Hin. apply list_elem_of_fmap in Hin as (m & -> & Hin).
  destruct (mg_new _ Hm m) as [Hbase|(Happ & n & _ & Eid & _)]; [rewrite En; apply elem_of_app; by right| |].
  - exfalso. apply (Hdis _ Hbase). apply list_elem_of_fmap. by exists m.
  - destruct (mg_stopped _ Hm (pn_id n)) as [_ Hnear]; [right; by rewrite <-Eid|]. rewrite Eid. apply list_elem_of_fmap. exists (pn_id n). split; [done|].
    apply elem_of_app. destruct Hnear as [?|(k & Hk & ->)]; [by left|right]. apply list_elem_of_fmap. by exists k.
Qed.
End merges.

Lemma begun_merging plan : merging (pl_nodes plan) (begun plan).
Proof.
  split; try done.
  - exists []. by rewrite app_nil_r.
  - intros id. by left.
  - intros id d _. by left.
  - by intros m ?%not_elem_of_nil.
  - by intros id [?%not_elem_of_nil|?%not_elem_of_nil].
  - intros m Hin. left. apply list_elem_of_fmap. by exists m.
Qed.

Lemma start_merging `{Crypto} `{Host} o plan s : built plan → start o (begun plan) = (inr tt, s) → merging (pl_nodes plan) s.
Proof.
  intros Hb E. unfold start in E. apply bind_inr in E as ([] & s1 & E1 & E). injection E1 as <-.
  apply bind_inr in E as (p & t & Et & E). apply gets_inr in Et as [-> ->].
  apply bind_inr in E as ([] & s2 & E2%(quiet_run _ _ _ _ (quiet_observeReads _)) & E).
  apply bind_inr in E as ([] & s3 & E3%(quiet_run _ _ _ _ (quiet_consult o)) & E).
  assert (same_core (begun plan) s3) as Hc by (etrans; [apply index_core|]; by etrans).
  pose proof (ok_core o _ _ Hc (begun_ok o plan Hb)) as Hok. pose proof (merging_proceeds _ _ _ (begun_merging plan) (proceeds_core _ _ Hc)) as Hm.
  apply bind_inr in E as (ready & t & Et & E). assert (Forall (held s3) (sc_pendingMerges s3)) as Hh by (by rewrite (sm_merges _ _ Hc)).
  destruct (passive_ok o _ _ _ Hok Hh Et) as (Hp & _ & -> & _). apply (f_equal snd) in E. cbn in E. subst s.
  eapply merging_proceeds; [by apply (passive_merging o _ s3 _ t Hok Hm Et)|]. by apply proceeds_admit, Hp.
Qed.

Section theorems.
Context `{Crypto} `{Host} (o : SchedulerOptions).

(** C18. The caps hold: at every moment of a run the counts in flight are the numbers of
    nodes and of agent nodes that have been admitted and not settled, neither is over its
    cap, and no node is in flight twice. *)
Theorem run_caps (plan : Plan) (es : list SchedEvent) (s : Sched) :
  built plan → run o plan es = (inr tt, s) →
  sc_inFlightSteps s = Z.of_nat (length (tokens s)) ∧ (sc_inFlightSteps s ≤ stepCap o)%Z ∧
  sc_inFlightAgents s = Z.of_nat (length (List.filter is_agent (tokens s))) ∧ (sc_inFlightAgents s ≤ agentCap o)%Z ∧
  NoDup (pn_id <$> tokens s) ∧ ∀ id, running_in s id = true ↔ id ∈ pn_id <$> tokens s.
Proof. intros Hb [[] _ _]%reached; [|done]. split_and!; done. Qed.

(** C15. A node is dispatched when its dependencies are there: whatever the start of a run
    or a step of it puts in flight, every node it depends on - in the plan or by a verdict
    - is settled built or clean and has left its result. *)
Theorem launch_ready (plan : Plan) :
  built plan →
  (∀ s', start o (begun plan) = (inr tt, s') → launches_ready (begun plan) s') ∧
  (∀ es s e s', run o plan es = (inr tt, s) → sched_step o e s = (inr tt, s') → launches_ready s s').
Proof.
  intros Hb. split.
  - intros s' (t & Ha & Hp & Ht)%start_spec node Hn _; [|done]. apply (admits_ready o t s' Hp Ht); [done|].
    apply not_true_is_false. intros Hrun. by apply (advance_running _ _ _ Ha) in Hrun.
  - intros es s e s' Hs%reached E node Hn Hrun Hrun'; [|done]. destruct e as [step|arrivals]; cbn [sched_step] in E.
    + injection E as <-. unfold running_in in *. rewrite (still_state s) in Hrun'; [congruence|apply fiber_step_still].
    + destruct (turn_spec _ _ _ _ (ro_ok _ _ Hs) E) as [[_ Hc]|(_ & m & d & rest & t & _ & _ & _ & Ha & Hp & Ht)].
      * rewrite (running_alike _ _ _ (same_core_alike _ _ Hc)) in Hrun'. congruence.
      * apply (admits_ready o t s' Hp Ht); [done| |done]. apply not_true_is_false. intros Hrun''. by rewrite (advance_running _ _ _ Ha Hrun'') in Hrun.
Qed.

(** The coordinator's loop is left with nothing to do. *)
Lemma idle_is_done (plan : Plan) (es : list SchedEvent) (s : Sched) :
  built plan → run o plan es = (inr tt, s) → idle s = true →
  all_settled s = true ∧ tokens s = [] ∧ sc_pendingMerges s = [].
Proof.
  intros Hb [Hok Hh Hp]%reached Hi; [|done].
  assert (all_settled s = true) as Hall.
  { apply orb_true_iff in Hi as [?|Hi]; [done|]. apply bool_decide_eq_true in Hi. auto. }
  assert (∀ id, running_in s id = false) as Hno.
  { intros id. apply not_true_is_false. intros Hrun. pose proof Hrun as Hin. apply (so_running _ _ Hok) in Hin.
    apply list_elem_of_fmap in Hin as (node & -> & Hin%(so_nodes _ _ Hok)). unfold all_settled in Hall. rewrite forallb_forall in Hall.
    apply list_elem_of_In in Hin. specialize (Hall node Hin). unfold settled_in, running_in in *. apply bool_decide_eq_true in Hall, Hrun. congruence. }
  split; [done|]. split.
  - apply elem_of_nil_inv. intros node Hin. specialize (Hno (pn_id node)). apply not_true_iff_false in Hno. apply Hno.
    apply (so_running _ _ Hok). apply list_elem_of_fmap. by exists node.
  - destruct (sc_pendingMerges s) as [|m l]; [done|]. apply Forall_cons in Hh as [Hm _]. unfold held in Hm.
    apply existsb_exists in Hm as (x & _ & Hx). congruence.
Qed.

(** C16. A run does not stall.  Where the coordinator's loop ends - every node settled, or
    nothing in flight - every node is settled, no report waits and every merge has been
    appended: the loop's [break] is never taken with work that is left, since a plan has
    no cycle to wait in and each cap has room for a node.  And while a node is not settled
    a report waits for the coordinator or a fiber is under way; and a fiber that is under
    way has left the report of its node as soon as it was given one turn more than the
    limit on rebases to measure and to run an attempt - whatever the attempts come to
    (values, failures, interruptions, conflicts), whatever the boundary, the store and the
    journal answer, and whatever other fibers do in between. *)
Theorem run_progress (plan : Plan) (es : list SchedEvent) (s : Sched) :
  built plan → run o plan es = (inr tt, s) →
  (idle s = true → all_settled s = true ∧ tokens s = [] ∧ sc_pendingMerges s = []) ∧
  (all_settled s = false → waiting s ≠ [] ∨ sc_fibers s ≠ ∅) ∧
  (∀ id rans steps, is_Some (sc_fibers s !! id) → (Z.max 0 (rebaseLimit o) < Z.of_nat (length rans))%Z →
     sublist (attempts id rans) steps → reported id (fiber_steps o steps s)).
Proof.
  intros Hb E. pose proof (reached o plan es s Hb E) as [Hok _ Hp]. split; [by eapply idle_is_done|split].
  - intros Hall. destruct (waiting s) as [|x l] eqn:Ew; [right; intros Hf|by left].
    rewrite (so_steps _ _ Hok) in Hp. unfold tokens, fiber_nodes in Hp. rewrite Hf, map_to_list_empty, Ew in Hp. by rewrite Hp in Hall.
  - intros id rans steps Hf Hl Hsub. by eapply turns_suffice.
Qed.

(** C17. A run ends: no loop of it runs out of the fuel it is given, it appends at
    most twice as many merges as its plan has nodes, and so the turns that process a
    report are at most three times the nodes of the plan, since each settles a node
    that nothing dispatches again. The reason is that a merge asks for neither lanes
    nor stop-and-merge itself: it can be stopped once more beside the lanes it
    conflicts with, but the merge of that merge waits, by the order of their writes,
    for the one that was stopped, and is never dispatched. *)
Theorem run_terminates (plan : Plan) (es : list SchedEvent) :
  built plan →
  (run o plan es).1 ≠ inl NoFuel ∧
  ∀ s0 s, start o (begun plan) = (inr tt, s0) → sched_steps o es s0 = (inr tt, s) →
    length (sc_appended s) ≤ 2 * length (pl_nodes plan) ∧ processed o es s0 ≤ 3 * length (pl_nodes plan).
Proof.
  intros Hb. split; [by apply run_fuelled|]. intros s0 s E0 E. pose proof (start_run_ok o _ _ Hb E0) as Hs.
  destruct (processed_count o es s0 s Hs E) as [Hon Hc]. pose proof (start_onward o plan s0 Hb E0) as Hon0.
  pose proof (steps_merging o _ es s0 s Hs (start_merging o plan s0 Hb E0) E) as Hm. pose proof (run_ok_steps o es s0 s Hs E) as [Hok _ _].
  pose proof (merges_bounded o _ s Hok Hm) as Happ. split; [done|].
  destruct (on_nodes _ _ (transitivity Hon0 Hon)) as (new & En & Ea). cbn in En, Ea.
  pose proof (settled_count_le s) as Hle. rewrite En, length_app in Hle. rewrite Ea, length_fmap in Happ. lia.
Qed.

(** C19. Nothing is undone: the plan grows by the nodes the run reports as appended, a node
    that is settled stays settled, and its outcome changes to failed only. *)
Theorem settled_stays (plan : Plan) (es es' : list SchedEvent) (s s' : Sched) :
  built plan → run o plan es = (inr tt, s) → sched_steps o es' s = (inr tt, s') → onward (begun plan) s ∧ onward s s'.
Proof.
  intros Hb E E'. split; [|by apply (processed_count o es' s s'); [eapply reached|]].
  apply run_inr in E as (s0 & E0 & E). etrans; [by apply (start_onward o)|]. by apply (processed_count o es s0 s); [eapply start_run_ok|].
Qed.

(** Attempts are bounded: of every node in the report, either no dispatch is recorded or
    the attempts are one more than its rebases, and the rebases are within the limit. *)
Theorem attempts_bounded (plan : Plan) (es : list SchedEvent) (s : Sched) (se : Settlement) :
  built plan → run o plan es = (inr tt, s) → se ∈ rp_settlements (report s) →
  se_attempts se = 0%Z ∧ se_rebases se = 0%Z ∨
  se_attempts se = (se_rebases se + 1)%Z ∧ (0 ≤ se_rebases se ≤ Z.max 0 (rebaseLimit o))%Z.
Proof.
  intros Hb [Hok _ _]%reached Hse; [|done]. cbn in Hse. apply list_elem_of_fmap in Hse as (node & -> & _). cbn.
  destruct (so_states _ _ Hok (pn_id node)) as [?|[_ [? ?]]]; [by left|by right].
Qed.

End theorems.

(** ** The order of admission *)

Section order.
Context (o : SchedulerOptions).

#[local] Instance contender_le_dec' : RelDecision contender_le.
Proof. intros a b. unfold contender_le. apply _. Defined.
#[local] Instance contender_le_trans : Transitive contender_le.
Proof. intros a b c. unfold contender_le. lia. Qed.
#[local] Instance contender_le_total : Total contender_le.
Proof. intros a b. unfold contender_le. lia. Qed.

Definition score (s : Sched) (node : PlanNode) : Z := (pn_priority node + ns_waited (stateOf (pn_id node) s))%Z.
Definition placed (s : Sched) (node : PlanNode) : nat := place (pl_nodes (sc_plan s)) (pn_id node).

(** A contender that is passed over while a later one fits is an agent, the other is not. *)
Lemma choose_order steps agents l1 a l2 b :
  NoDup (l1 ++ a :: l2) → a ∉ choose o steps agents (l1 ++ a :: l2) → b ∈ choose o steps agents (l1 ++ a :: l2) → b ∈ l2 →
  is_agent a = true ∧ is_agent b = false ∧ (agentCap o ≤ agents + Z.of_nat (length (List.filter is_agent (choose o steps agents (l1 ++ a :: l2)))))%Z.
Proof.
  revert steps agents. induction l1 as [|n l1 IH]; intros steps agents Hd Ha Hb Hin; cbn [app choose] in *.
  - apply NoDup_cons in Hd as [Hnew _]. destruct (_ || _) eqn:Ec; [|destruct Ha; by left].
    assert (∀ l st ag, (steps ≤ st)%Z → (agents ≤ ag)%Z → b ∈ choose o st ag l →
      is_agent a = true ∧ is_agent b = false ∧ (agentCap o ≤ agents)%Z) as Hlater.
    { clear Hb Hin. induction l as [|m l IHl]; intros st ag Hst Hag Hb; cbn [choose] in Hb; [by apply not_elem_of_nil in Hb|].
      destruct (bool_decide (stepCap o ≤ st)%Z || is_agent m && bool_decide (agentCap o ≤ ag)%Z) eqn:Em; [by apply (IHl st ag)|].
      apply elem_of_cons in Hb as [->|Hb]; [|by apply (IHl (st + 1)%Z (if is_agent m then ag + 1 else ag)%Z); [lia|destruct (is_agent m); lia|]].
      apply orb_false_iff in Em as [Em1 Em2]. apply bool_decide_eq_false in Em1. apply orb_true_iff in Ec as [Ec|Ec].
      - apply bool_decide_eq_true in Ec. lia.
      - apply andb_true_iff in Ec as [? Ec]. apply bool_decide_eq_true in Ec. split; [done|]. apply andb_false_iff in Em2 as [?|Em2]; [done|].
        apply bool_decide_eq_false in Em2. lia. }
    destruct (Hlater l2 steps agents) as (? & ? & ?); [done..|]. split; [done|]. split; [done|lia].
  - apply NoDup_cons in Hd as [Hnew Hd]. destruct (_ || _) eqn:Ec; [by apply (IH steps agents)|].
    apply not_elem_of_cons in Ha as [_ Ha]. apply elem_of_cons in Hb as [->|Hb]; [destruct Hnew; apply elem_of_app; right; by right|].
    destruct (IH _ _ Hd Ha Hb Hin) as (? & ? & Hle). split; [done|]. split; [done|]. cbn [List.filter]. destruct (is_agent n); cbn [length]; lia.
Qed.

(** The contenders with what they are compared by. *)
Definition scored (s : Sched) (ready : list PlanNode) : list (Z * nat * PlanNode) :=
  (λ node, (score s node, placed s node, node)) <$> ready.

Lemma scored_in s ready c : c ∈ merge_sort contender_le (scored s ready) → c = (score s (snd c), placed s (snd c), snd c).
Proof. rewrite merge_sort_Permutation. intros (node & -> & _)%list_elem_of_fmap. done. Qed.

Lemma contenders_scored s ready : contenders s ready = snd <$> merge_sort contender_le (scored s ready).
Proof. done. Qed.

(** C20. The order of admission: of two ready nodes, one that comes first by priority and the
    turns it has waited - or, at equal scores, by its place in the plan - is left behind
    while the other is admitted only when it is an agent, the other is not, and the agents
    in flight with those admitted have reached the cap on agents: that cap is the one
    reason to pass a node over. *)
Theorem admission_order (s : Sched) (ready : list PlanNode) (a b : PlanNode) :
  NoDup (pn_id <$> ready) → a ∈ ready → b ∈ ready →
  (score s b < score s a)%Z ∨ score s a = score s b ∧ placed s a < placed s b →
  b ∈ chosen o s ready → a ∉ chosen o s ready →
  is_agent a = true ∧ is_agent b = false ∧
  (agentCap o ≤ sc_inFlightAgents s + Z.of_nat (length (List.filter is_agent (chosen o s ready))))%Z.
Proof.
  intros Hd Ha Hb Hlt Hcb Hca. apply NoDup_fmap_1 in Hd. unfold chosen in *. pose proof (contenders_permutation s ready) as Hp.
  rewrite <-Hp in Ha, Hd. apply list_elem_of_split in Ha as (l1 & l2 & El).
  assert (b ∈ l2) as Hin; [|rewrite El in *; by eapply (choose_order _ _ l1 a l2 b)].
  rewrite <-Hp, El in Hb. apply elem_of_app in Hb as [Hb|[->|Hb]%elem_of_cons]; [exfalso|lia|done].
  rewrite contenders_scored in El. apply fmap_app_inv in El as (k1 & k2 & -> & E2 & El). symmetry in E2.
  apply fmap_cons_inv in E2 as (ca & k3 & Eca & -> & ->). apply list_elem_of_fmap in Hb as (cb & Ecb & Hcb1).
  pose proof (StronglySorted_merge_sort contender_le (scored s ready)) as Hs. rewrite El in Hs.
  assert (ca ∈ ca :: k3) as Hca1 by by left. pose proof (StronglySorted_app_1_elem_of _ _ _ _ _ Hs Hcb1 Hca1) as Hle.
  assert (cb ∈ k1 ++ ca :: k3 ∧ ca ∈ k1 ++ ca :: k3) as [H1 H2] by (split; apply elem_of_app; [by left|by right]).
  rewrite <-El in H1, H2. rewrite (scored_in s ready ca H2), (scored_in s ready cb H1) in Hle.
  rewrite <-Eca, <-Ecb in Hle. unfold contender_le in Hle. cbn in Hle. lia.
Qed.
End order.

(** ** Debt *)

Section debt.

(** The record settles work that was deferred under this key. *)
Definition closes (key : string) (r : SchedRecord) : Prop :=
  match r with RNodeSettled _ planKey _ outcome _ _ => planKey = key ∧ outcome ∈ [OBuilt; OClean; OFailed] | _ => False end.

Definition defers (key : string) (r : SchedRecord) : Prop :=
  match r with RSelectionDeferred _ planKey _ => planKey = key | _ => False end.

Lemma owe_other closesOnly owed r key :
  ¬ closes key r → (closesOnly = false → ¬ defers key r) → owe closesOnly owed r !! key = owed !! key.
Proof.
  intros Hc Hd. destruct r as [? planKey ? outcome| | | | |nodeId planKey belief| | | | |]; cbn [owe]; try done.
  - cbn in Hc. destruct outcome; try done; (rewrite lookup_delete_ne; [done|]; intros E; apply Hc; split; [done|]; repeat (first [by left|right])).
  - destruct closesOnly; [done|]. rewrite lookup_insert_ne; [done|]. intros E. by apply (Hd eq_refl).
Qed.

Lemma owe_closed closesOnly owed r key : closes key r → owe closesOnly owed r !! key = None.
Proof.
  destruct r as [? planKey ? outcome| | | | | | | | | |]; try done. cbn. intros [-> Ho]. destruct outcome; rewrite ?lookup_delete_eq; [done..| |];
    repeat (apply elem_of_cons in Ho as [?|Ho]; [done|]); by apply not_elem_of_nil in Ho.
Qed.

#[local] Instance closes_dec key r : Decision (closes key r).
Proof. destruct r; cbn; apply _. Defined.
#[local] Instance defers_dec key r : Decision (defers key r).
Proof. destruct r; cbn; apply _. Defined.

Lemma repaid_spec key repaid owed v :
  fold_left (owe true) repaid owed !! key = Some v ↔ owed !! key = Some v ∧ Forall (λ r, ¬ closes key r) repaid.
Proof.
  revert owed. induction repaid as [|r repaid IH]; intros owed; cbn [fold_left]; [rewrite Forall_nil; naive_solver|].
  rewrite IH, Forall_cons. destruct (decide (closes key r)) as [Hc|Hc].
  - rewrite (owe_closed _ _ _ _ Hc). naive_solver.
  - rewrite owe_other by done. naive_solver.
Qed.

Lemma owed_spec key journal nodeId belief :
  fold_left (owe false) journal ∅ !! key = Some (nodeId, belief) ↔
  ∃ l1 l2, journal = l1 ++ RSelectionDeferred nodeId key belief :: l2 ∧ Forall (λ r, ¬ closes key r ∧ ¬ defers key r) l2.
Proof.
  induction journal as [|r journal IH] using rev_ind.
  { cbn. split; [done|]. by intros ([|] & ? & ? & _). }
  rewrite fold_left_app. cbn [fold_left]. split.
  - intros Hr. destruct (decide (closes key r)) as [Hc|Hc]; [by rewrite (owe_closed _ _ _ _ Hc) in Hr|].
    destruct (decide (defers key r)) as [Hd|Hd].
    + destruct r as [| | | | |n k b| | | | |]; try done. cbn in Hd. subst k. cbn in Hr. rewrite lookup_insert_eq in Hr. injection Hr as -> ->.
      by exists journal, [].
    + rewrite owe_other in Hr by done. apply IH in Hr as (l1 & l2 & -> & Hl). exists l1, (l2 ++ [r]). split; [by rewrite <-app_assoc|].
      apply Forall_app. split; [done|]. by apply Forall_singleton.
  - intros (l1 & l2 & E & Hl). destruct l2 as [|x l2 _] using rev_ind.
    + apply app_inj_2 in E as [-> [= ->]]; [|done]. cbn. by rewrite lookup_insert_eq.
    + rewrite app_comm_cons, app_assoc in E. apply app_inj_2 in E as [-> [= ->]]; [|done].
      apply Forall_app in Hl as [Hl [Hc Hd]%Forall_singleton]. rewrite owe_other by done. apply IH. by exists l1, l2.
Qed.

(** Debt: under a key a node is owed exactly when the last record of the deferring run
    that defers the key or settles it with a result or a failure is a deferral - whose
    node and belief are owed - and no run that repays it settles the key. *)
Theorem debt_spec (journal : list SchedRecord) (repaidBy : list (list SchedRecord)) (key nodeId : string) (belief : Belief) :
  debt journal repaidBy !! key = Some (nodeId, belief) ↔
  (∃ l1 l2, journal = l1 ++ RSelectionDeferred nodeId key belief :: l2 ∧ Forall (λ r, ¬ closes key r ∧ ¬ defers key r) l2) ∧
  Forall (Forall (λ r, ¬ closes key r)) repaidBy.
Proof.
  unfold debt. rewrite <-owed_spec. generalize (fold_left (owe false) journal ∅). induction repaidBy as [|j l IH]; intros owed; cbn [fold_left].
  - rewrite Forall_nil. naive_solver.
  - rewrite IH, repaid_spec, Forall_cons. naive_solver.
Qed.
End debt.

(** ** Early cutoff *)

Section cutoff.
Context `{Crypto}.

Lemma dispatch_inputs_cutoff inputs index r1 r2 :
  (∀ from path, Ref from path ∈ inputs → (λ v, project v path) <$> r1 !! from = (λ v, project v path) <$> r2 !! from) →
  dispatch_inputs r1 index inputs = dispatch_inputs r2 index inputs.
Proof.
  revert index. induction inputs as [|input inputs IH]; intros index Hr; [done|]. cbn [dispatch_inputs].
  assert (dispatch_input r1 input = dispatch_input r2 input) as ->.
  { destruct input as [v|from path|from]; [done| |done]. specialize (Hr from path (list_elem_of_here _ _)). cbn [dispatch_input].
    destruct (r1 !! from), (r2 !! from); try done. cbn in Hr. by injection Hr as ->. }
  rewrite (IH (S index)); [done|]. intros from path Hin. apply Hr. by right.
Qed.

(** Invalidation stops at unchanged content: a node is cached under one key in two runs
    that measure the same boundary and hand it the same projections of its inputs,
    whatever the plan keys of the nodes upstream. *)
Theorem dispatch_cutoff (m : KeyMaterial) (r1 r2 : gmap string Value) (boundary : Hermetic) (environment : option EnvironmentIdentity) :
  (∀ from path, Ref from path ∈ km_inputs m → (λ v, project v path) <$> r1 !! from = (λ v, project v path) <$> r2 !! from) →
  dispatchIdentity m r1 boundary environment = dispatchIdentity m r2 boundary environment.
Proof. intros Hr. unfold dispatchIdentity. by rewrite (dispatch_inputs_cutoff (km_inputs m) 0 r1 r2 Hr). Qed.
End cutoff.
