(* ===== verification/SchedulerDemo.v ===== *)
(** * Runs of small plans

    Witnesses of the theorems on the scheduler, on the plan of [PlanDemo], and what a run
    does with conflicts that merge and with nodes that are serialized. *)

From S2P Require Import Prelude Capability FileSet Canonical StepKey Plan PlanOrder PlanAnnotate PlanProps PlanTheorems PlanDemo Scheduler SchedulerProps SchedulerSteps SchedulerTheorems.

Module SchedulerDemo.

Import PlanDemo.
#[local] Existing Instance quick_crypto.

(** A file system in which the declared paths have one digest and globs are empty. *)
Definition host : Host := {|
  h_fileSystem := true;
  h_expandGlob _ _ := Some [];
  h_filesUnder _ _ := Some [];
  h_exists _ _ := Some false;
  h_isFile _ _ := Some false;
  h_prepare _ paths := Some ((λ p, (p, "digest")) <$> paths);
  h_store _ _ := true;
  h_emit _ := Kept;
  h_reconciler := default_reconciler;
  h_select _ _ := []
|}.
#[local] Existing Instance host.

Definition options : SchedulerOptions := mkOptions (Some 1%Z) None (Some 1%Z) None false.

Definition runs (id : string) (r : Ran) : list SchedEvent := [EFiber (FMeasure id); EFiber (FRan id r); ETurn []].
Definition builds (id : string) : list SchedEvent := runs id (RanValue true (str "ok")).

(** What a run leaves: its answer, the statuses of the nodes and their dispatches. *)
Definition seen (r : (Stop + ()) * Sched) : (Stop + ()) * list (string * NodeStatus * NodeOutcome * Z) :=
  (fst r, (λ n, let s := stateOf (pn_id n) (snd r) in (pn_id n, ns_status s, ns_outcome s, ns_attempts s)) <$> pl_nodes (sc_plan (snd r))).

Definition all_built : list SchedEvent := builds "gen" ++ builds "fmt" ++ builds "bundle".

Example first_runs : seen (run options first all_built) =
  (inr tt, [("gen", SSettled, OBuilt, 1%Z); ("bundle", SSettled, OBuilt, 1%Z); ("fmt", SSettled, OBuilt, 1%Z)]).
Proof. vm_compute. reflexivity. Qed.

Example first_started : seen (run options first []) =
  (inr tt, [("gen", SRunning, OSkipped, 0%Z); ("bundle", SPending, OSkipped, 0%Z); ("fmt", SPending, OSkipped, 0%Z)]).
Proof. vm_compute. reflexivity. Qed.

(** A failure skips what was not dispatched; a conflict is rebased once, then it fails. *)
Example gen_fails : seen (run options first (runs "gen" RanFailed)) =
  (inr tt, [("gen", SSettled, OFailed, 1%Z); ("bundle", SSettled, OSkipped, 0%Z); ("fmt", SSettled, OSkipped, 0%Z)]).
Proof. vm_compute. reflexivity. Qed.

Example gen_rebases : seen (run options first (runs "gen" RanConflict ++ runs "gen" RanConflict)) =
  (inr tt, [("gen", SSettled, OFailed, 2%Z); ("bundle", SSettled, OSkipped, 0%Z); ("fmt", SSettled, OSkipped, 0%Z)]).
Proof. vm_compute. reflexivity. Qed.

Definition begins : Sched := Eval vm_compute in snd (start options (begun first)).
Definition started : Sched := Eval vm_compute in snd (run options first (runs "gen" (RanValue true (str "ok")))).
Definition finished : Sched := Eval vm_compute in snd (run options first all_built).

Lemma begins_run : start options (begun first) = (inr tt, begins).
Proof. vm_compute. reflexivity. Qed.
Lemma started_run : run options first (builds "gen") = (inr tt, started).
Proof. vm_compute. reflexivity. Qed.
Lemma finished_run : run options first all_built = (inr tt, finished).
Proof. vm_compute. reflexivity. Qed.
Lemma finished_steps : sched_steps options all_built begins = (inr tt, finished).
Proof. vm_compute. reflexivity. Qed.
Lemma finished_after : sched_steps options (builds "fmt" ++ builds "bundle") started = (inr tt, finished).
Proof. vm_compute. reflexivity. Qed.

(** Two agents and a step, with one agent at a time. *)
Definition agent (id : string) : NodeDraft := mkDraft id (material id []) (effects [] []) (Some AgentNode) None None None.
Definition agents : Plan := Eval vm_compute in plan_of (compile "p" "f" [agent "x"; agent "y"; draft "z" "z" [] [] []]).
Definition one_agent : SchedulerOptions := mkOptions None (Some 1%Z) None None false.

(** ** Merges *)

Definition lane (id : string) (strategy : PairStrategy) : NodeDraft :=
  mkDraft id (material id []) (effects [] ["out"]) None None (Some strategy) (Some StopMerge).
Definition wide : SchedulerOptions := mkOptions None None None None false.

Definition lanes : Plan := Eval vm_compute in plan_of (compile "p" "f" [lane "a" Lane; lane "b" Lane]).
Definition mixed : Plan := Eval vm_compute in plan_of (compile "p" "f" [lane "a" Lane; lane "b" Serialize]).
Definition guarded : Plan := Eval vm_compute in plan_of
  (compile "p" "f" [lane "a" Lane; mkDraft "c" (material "c" [Ref "a" []]) (effects [] ["out"]) None None (Some FailPair) None]).

(** The lane that lost is merged. *)
Example lanes_merge : seen (run wide lanes (builds "a" ++ runs "b" RanConflict ++ builds "b+merge")) =
  (inr tt, [("a", SSettled, OBuilt, 1%Z); ("b", SSettled, OSkipped, 1%Z); ("b+merge", SSettled, OBuilt, 1%Z)]).
Proof. vm_compute. reflexivity. Qed.

(** A merge that conflicts is stopped for another merge, behind the stopped one: the run
    ends with neither the work landed nor a failed node. *)
Lemma conflicting_merge_fails_nothing : seen (run wide lanes (builds "a" ++ runs "b" RanConflict ++ runs "b+merge" RanConflict)) =
  (inr tt, [("a", SSettled, OBuilt, 1%Z); ("b", SSettled, OSkipped, 1%Z); ("b+merge", SSettled, OSkipped, 1%Z);
            ("b+merge+merge", SSettled, OSkipped, 0%Z)]).
Proof. vm_compute. reflexivity. Qed.

(** The merge of a serialized node is serialized behind the node it merges, and skipped
    with it. *)
Lemma merge_of_serialized_is_skipped : seen (run wide mixed (builds "a" ++ runs "b" RanConflict)) =
  (inr tt, [("a", SSettled, OBuilt, 1%Z); ("b", SSettled, OSkipped, 1%Z); ("b+merge", SSettled, OSkipped, 0%Z)]).
Proof. vm_compute. reflexivity. Qed.

(** A plan with a later writer that forbids overlap refuses the merge, and the run fails. *)
Lemma refused_merge_ends_run : fst (run wide guarded (runs "a" RanConflict)) = inl (SchedulerFailed ElaborationFailed).
Proof. vm_compute. reflexivity. Qed.

End SchedulerDemo.

Import SchedulerDemo.
#[local] Existing Instance PlanDemo.quick_crypto.
#[local] Existing Instance host.

Lemma run_caps_witness :
  sc_inFlightSteps started = Z.of_nat (length (tokens started)) ∧ (sc_inFlightSteps started ≤ stepCap options)%Z ∧
  sc_inFlightAgents started = Z.of_nat (length (List.filter is_agent (tokens started))) ∧ (sc_inFlightAgents started ≤ agentCap options)%Z ∧
  NoDup (pn_id <$> tokens started) ∧ ∀ id, running_in started id = true ↔ id ∈ pn_id <$> tokens started.
Proof. exact (run_caps options PlanDemo.first (builds "gen") started PlanDemo.first_built started_run). Defined.

Lemma launch_ready_witness :
  (∀ s', start options (begun PlanDemo.first) = (inr tt, s') → launches_ready (begun PlanDemo.first) s') ∧
  (∀ es s e s', run options PlanDemo.first es = (inr tt, s) → sched_step options e s = (inr tt, s') → launches_ready s s').
Proof. exact (launch_ready options PlanDemo.first PlanDemo.first_built). Defined.

Lemma run_progress_witness :
  (idle started = true → all_settled started = true ∧ tokens started = [] ∧ sc_pendingMerges started = []) ∧
  (all_settled started = false → waiting started ≠ [] ∨ sc_fibers started ≠ ∅) ∧
  reported "fmt" (fiber_steps options (FRecord ROther :: attempts "fmt" [RanConflict; RanConflict]) started).
Proof.
  destruct (run_progress options PlanDemo.first (builds "gen") started PlanDemo.first_built started_run) as (Hi & Ha & Hr).
  split; [exact Hi|]. split; [exact Ha|]. apply (Hr "fmt" [RanConflict; RanConflict]).
  - vm_compute. eexists. reflexivity.
  - vm_compute. reflexivity.
  - apply sublist_cons. reflexivity.
Defined.

Lemma run_terminates_witness :
  (run options PlanDemo.first all_built).1 ≠ inl NoFuel ∧
  ∀ s0 s, start options (begun PlanDemo.first) = (inr tt, s0) → sched_steps options all_built s0 = (inr tt, s) →
    length (sc_appended s) ≤ 2 * length (pl_nodes PlanDemo.first) ∧ processed options all_built s0 ≤ 3 * length (pl_nodes PlanDemo.first).
Proof. exact (run_terminates options PlanDemo.first all_built PlanDemo.first_built). Defined.

(** Three turns for three nodes; and two merges for one node that was stopped. *)
Example three_turns : processed options all_built begins = 3.
Proof. vm_compute. reflexivity. Qed.

Lemma settled_stays_witness : onward (begun PlanDemo.first) started ∧ onward started finished.
Proof.
  exact (settled_stays options PlanDemo.first (builds "gen") (builds "fmt" ++ builds "bundle") started finished PlanDemo.first_built started_run finished_after).
Defined.

Lemma admission_order_witness :
  is_agent (PlanDemo.node_at agents 1) = true ∧ is_agent (PlanDemo.node_at agents 2) = false ∧
  (agentCap one_agent ≤ sc_inFlightAgents (begun agents) + Z.of_nat (length (List.filter is_agent (chosen one_agent (begun agents) (pl_nodes agents)))))%Z.
Proof.
  apply (admission_order one_agent (begun agents) (pl_nodes agents)).
  - apply (bool_decide_eq_true_1 _). vm_compute. reflexivity.
  - apply (list_elem_of_lookup_2 _ 1). reflexivity.
  - apply (list_elem_of_lookup_2 _ 2). reflexivity.
  - right. vm_compute. split; [reflexivity|lia].
  - apply (list_elem_of_lookup_2 _ 1). vm_compute. reflexivity.
  - intros Hin. assert (chosen one_agent (begun agents) (pl_nodes agents) = [PlanDemo.node_at agents 0; PlanDemo.node_at agents 2]) as E
      by (vm_compute; reflexivity).
    rewrite E in Hin. apply elem_of_cons in Hin as [Hin|Hin%list_elem_of_singleton]; apply (f_equal pn_id) in Hin; vm_compute in Hin; discriminate.
Defined.
